(* ===== verification/_CoqProject ===== *)
-Q . S2P
Prelude.v
Encoding.v
Evidence.v
Float64.v
Float64Round.v
Finding.v
Utf8.v
Hex.v
GuardState.v
GuardStore.v
DurableStore.v
GuardRuntime.v
GuardCommit.v
Ssrf.v
VerifierCache.v
VerifierMeta.v
DomainPolicy.v
Interpolate.v
RateLimit.v
Retry.v
Glob.v
AllowlistMeta.v
Allowlist.v
AllowlistIndex.v
Merkle.v
MerkleStore.v
Dedup.v
DedupCross.v
Checksum.v
Bloom.v
SourceSkip.v
Excludes.v
TextDecode.v
Window.v
GitDiffParser.v
GitDiff.v
GitDiffRender.v
GitDiffBounds.v
StrOffsets.v
DecodeExtract.v
DecodeSplice.v
DecodeCodecs.v
AlphabetScreen.v
DecodePipeline.v
DecodeLines.v
DecodeCandidates.v
DecodeRecall.v
DecodeReach.v
Spans.v
Resolution.v
ResolutionOrder.v
ResolutionKernel.v
