(* ===== verification/Prelude.v ===== *)
(** * A verification library for KeyHog

    KeyHog is a secret scanner.  Sources hand text to the scanner; detectors
    find candidate credentials; the candidates are resolved against each
    other, deduplicated, filtered through the allowlist and, on request,
    verified against the service that issued them.  A daemon can guard
    repositories: it keeps a state per registered root, remembers which blobs
    were clean under which policy, and issues a receipt for each commit.

    This library models the parts that carry those decisions as executable
    definitions, one definition per function of the source, and proves what
    makes each part correct.  A definition keeps the name of the function it
    models.

    ** Conventions

    A machine integer is a [Z] with its wrap-around, saturation or overflow
    check written out; both release profiles of the workspace enable overflow
    checks, so an overflowing operator is [Panic] of the type [outcome].  An
    [f64] is its bit pattern ([Float64]).  A [str] is the list of its scalar
    values and [as_bytes] its UTF-8 bytes.  [Result] is [result], [?] is
    [let?].  Hash maps are [gmap]s; where the source iterates one, its order
    is a parameter with the law that it is an enumeration, or the result is
    proved not to depend on it.  Code of other crates enters as a class with
    the operations that are called and a class of laws with their documented
    behaviour; each law class has a concrete instance.  Clock readings and
    outcomes of system calls are arguments.

    ** Parts and files

    - Shared ground.  [Prelude]: fallible code, integers, strings, comparison
      functions with their laws, stable sorting, the hint database [keyhog] and
      the tactics.  [Float64]: order and arithmetic of binary64, [Float64Round]
      the rounding of its subtraction.  [Utf8]: strict and lossy decoding.
      [Hex]: the hexadecimal readers of hex.rs.

    - Findings (crates/core/src).  [Evidence] is evidence.rs.  [Finding] is the
      raw match of finding.rs with its order and redaction.  [Encoding] is the
      base64 codec of encoding.rs.  [Dedup] and [DedupCross] are dedup.rs:
      grouping by detector, credential and scope, and the collapse of the
      detectors that found one credential.

    - Guard (crates/core/src, crates/cli/src/daemon).  [GuardState] is
      guard_state.rs; [GuardStore] and [DurableStore] are guard_store.rs (hot
      index, registry; transactions of the database); [GuardRuntime] is
      guard_runtime.rs; [GuardCommit] has the commit handlers of server.rs and
      the client checks of guard_commit.rs.  The handlers call the runtime, the
      runtime calls the stores, all share the state machine.

    - Verifier (crates/verifier/src).  [Ssrf] is bogon.rs and the screens of
      ssrf.rs; [VerifierCache] and [VerifierMeta] are cache.rs and the DNS
      cache; [DomainPolicy] is domain_allowlist.rs with core's
      verification_domain.rs; [Interpolate] is interpolate.rs; [RateLimit] is
      rate_limit.rs; [Retry] is core's retry.rs.

    - Allowlist (crates/core/src/allowlist).  [Glob] is glob.rs,
      [AllowlistMeta] metadata.rs, [Allowlist] and [AllowlistIndex]
      allowlist.rs.

    - Incremental scans (crates/core/src).  [Merkle] is merkle_index.rs (path
      shards, record and skip decisions, under every interleaving of calls) and
      [MerkleStore] its storage.rs (loading, merging with the file on disk,
      saving).

    - Scanner and sources.  [Checksum] is crates/scanner/src/checksum, [Bloom]
      bigram_bloom.rs.  Under crates/sources/src: [SourceSkip] is skip.rs (the
      coverage counters and the gate that isolates one scan's counters from
      another's), [Excludes] filesystem/filter.rs, [TextDecode]
      filesystem/read/decode.rs with magic.rs, [Window]
      filesystem/read/window.rs.  [GitDiffParser] is git/diff_parser.rs,
      [GitDiff] git/diff.rs with the capped readers of git/mod.rs and
      capped_read.rs; [GitDiffRender] reads back printed diffs (changed,
      removed, binary and header-only files) and [GitDiffBounds] bounds what a
      hostile one can do.  [Spans], [Resolution], [ResolutionOrder] and
      [ResolutionKernel] are crates/scanner/src/resolution.rs: interval indexes,
      the pass, its independence of the input order, and the outcome of direct
      conflicts.

    - Decode-through (crates/scanner/src/decode).  [StrOffsets] has the byte
      offsets of strings and the boundary searches of
      engine/windowed_support.rs.  [DecodeExtract] is pipeline/extractor.rs,
      [DecodeSplice] pipeline/splice.rs with the sinks of mod.rs, [DecodeCodecs]
      the codecs of url.rs, json.rs, unicode_escape.rs, util.rs, hex.rs and
      base64.rs.  [AlphabetScreen] is alphabet_filter.rs with its AVX2 routine.
      [DecodePipeline] is pipeline.rs against the contract a decoder owes
      ([LawfulDecoder]); [DecodeLines] discharges it for the line decoders of
      url.rs and [DecodeCandidates] for the MIME and Z85 decoders; the hex and
      base64 decoders, modelled there too, do not keep it on overlapping
      candidates: two columns of hex in a quoted string can make the hex decoder
      panic.  A plan with a trigger skips a chunk without printable ASCII, so
      completeness also asks that the decoders of such a plan make nothing of
      such a text, which is proved of those shown lawful.  [DecodeRecall]
      follows an encoded secret from its assignment to the decoded chunk,
      [DecodeReach] an escaped line through the whole pipeline and the screen to
      the detectors.

    ** What is proved

    - Refinement of a declarative reading: resolution keeps the kernel of the
      domination order of validated matches, and relations remove exactly what
      they withdraw; deduplication summarises each key once, companions
      included; interpolation is the one reading of the template with its first
      1024 placeholders replaced; an operation of the durable store changes
      exactly its rows or nothing; globs, host checks, refused
      addresses, the validator index and the suppression passes equal plain
      definitions; batched replacement of spans equals replacing them in the
      text.
    - Decode-through: the pipeline returns within its budgets for every set of
      lawful decoders, and unless it records a truncation it misses nothing;
      a secret assigned as hex or base64 is shown in clear, and a
      percent-escaped one reaches the detectors; the AVX2 screen equals the
      scalar one and never hides a target.
    - Safety: from the manifest of a begin request to the receipt, exactly the
      staged objects are accounted for; a clean hit rests on an attestation of
      that object under the same identity (up to its short digest); attestations
      are written only for clean payloads; screened URLs reach hosts outside the
      table of special-purpose addresses only (IPv4 multicast wrapped in IPv6 is
      the exception of the code);
      allowlist files are governed line by line; the prefilter never rejects a
      chunk that holds a literal; windows of a file together show every short
      secret whole; redaction hides the middle; no path of a diff leaves the
      repository; a scan's coverage counters count that scan alone; decoding a
      file keeps its printable ASCII; decode candidates lie where they say.
    - Exactness: the rows of a rendered diff within the caps are the added lines
      of its hunks at the lines of the hunk headers; CRC-suffixed tokens are
      certified exactly when their suffix is the CRC of the rest.
    - Invariants over every history of operations: hot index, transactions, root
      histories (restarts of the daemon included), pacing, recovery from
      throttling, cache bounds, soundness of incremental skips, freshness of the
      allowlist index, well-formed chunks of a diff whatever bytes arrive.
    - Round trips (base64, stored records, dates, metadata, UTF-16 files, diff
      headers, JSON, Unicode, percent and quoted-printable escapes), termination
      with stated bounds (retries, slicing, relation rounds, diff reads), and
      error paths that leave state alone.

    ** Fuel

    Loops that are not structural take fuel, and each theorem about such a loop
    shows that the fuel given suffices: relation rounds clear a flag each, so
    one more than the number of matches; segment-tree walks halve their
    position; window and extent loops advance their offset, so the file length
    bounds them; source ancestors get shorter; retries count attempts; a diff
    loop consumes a line per turn, so the bytes of the reader bound it; an
    extraction or unescaping turn consumes a character; the decode queue takes
    in at most a thousand chunks after the root, so 1001 turns empty it.

    ** Not modelled

    The scan engine with its regex, Hyperscan and GPU backends; the decoders of
    JSON documents, quoted-printable lines, static JavaScript, rotated and
    reversed text, which rest on context heuristics, word lists and ciphers of
    other crates, and the decoder registry; entropy and learned scoring, textual
    suppression heuristics and document preprocessors; source discovery,
    archives, git objects and network readers; HTTP requests, out-of-band
    listeners and request signing; report formats, detector specs, calibration
    and triage files; command line, configuration, sockets and metrics.  They
    are I/O, bindings to other crates, or left for later; the interfaces the
    modelled parts have with them are parameters.  Threads are modelled where an
    operation releases its lock in the middle or reads shared state outside its
    lock (scan gate, incremental index); otherwise a locked operation is one
    step. *)

From stdpp Require Export base tactics option list list_numbers numbers gmap strings sorting.
From Stdlib Require Export ZArith Lia Sorted.
From Stdlib Require Import Ascii.

#[global] Open Scope Z_scope.

(** ** Fallible code *)

(** Rust's [Result<T, E>]. *)
Inductive result (A E : Type) : Type :=
| Ok (a : A)
| Err (e : E).
Arguments Ok {A E} a.
Arguments Err {A E} e.

(** A computation that may panic.  Both release profiles of the workspace set
    [overflow-checks = true], so an overflowing [+], [-] or [*] panics. *)
Inductive outcome (A : Type) : Type :=
| Ret (a : A)
| Panic.
Arguments Ret {A} a.
Arguments Panic {A}.

Declare Scope rust_scope.
Delimit Scope rust_scope with rust.
#[global] Open Scope rust_scope.

(** The [?] operator. *)
Notation "'let?' x ':=' c 'in' k" :=
  (match c with Ok x => k | Err e => Err e end)
  (at level 10, x pattern, c at level 100, k at level 200) : rust_scope.

(** Sequencing of code that may panic. *)
Notation "'let!' x ':=' c 'in' k" :=
  (match c with Ret x => k | Panic => Panic end)
  (at level 10, x pattern, c at level 100, k at level 200) : rust_scope.

(** [Option::ok_or] and friends. *)
Definition ok_or {A E} (o : option A) (e : E) : result A E :=
  match o with Some a => Ok a | None => Err e end.

Definition is_ok {A E} (r : result A E) : bool :=
  match r with Ok _ => true | Err _ => false end.

#[export] Instance result_eq_dec {A E} `{EqDecision A, EqDecision E} : EqDecision (result A E).
Proof. solve_decision. Defined.
#[export] Instance outcome_eq_dec {A} `{EqDecision A} : EqDecision (outcome A).
Proof. solve_decision. Defined.

(** ** Instants

    Instants and durations are nanoseconds.  The range of [Instant] is the
    platform's and a parameter; [Instant + Duration] panics past its end. *)
Class Clock := { instant_min : Z; instant_max : Z }.

Definition instant_add `{Clock} (t d : Z) : outcome Z :=
  if t + d <=? instant_max then Ret (t + d) else Panic.
Definition instant_checked_sub `{Clock} (t d : Z) : option Z :=
  if instant_min <=? t - d then Some (t - d) else None.

(** ** Machine integers

    A [w]-bit unsigned integer is a [Z] in [0, 2^w). *)

Definition u8_max : Z := 2 ^ 8 - 1.
Definition u16_max : Z := 2 ^ 16 - 1.
Definition u32_max : Z := 2 ^ 32 - 1.
Definition u64_max : Z := 2 ^ 64 - 1.
(** [usize] on the 64-bit targets. *)
Definition usize_max : Z := u64_max.

Definition in_u8 (z : Z) : Prop := 0 <= z <= u8_max.
Definition in_u16 (z : Z) : Prop := 0 <= z <= u16_max.
Definition in_u32 (z : Z) : Prop := 0 <= z <= u32_max.
Definition in_u64 (z : Z) : Prop := 0 <= z <= u64_max.

(** [a + b] with overflow checks on a type whose maximum is [mx]. *)
Definition add_checked (mx a b : Z) : outcome Z :=
  if a + b <=? mx then Ret (a + b) else Panic.

Definition saturating_add (mx a b : Z) : Z := Z.min mx (a + b).
Definition saturating_sub (a b : Z) : Z := Z.max 0 (a - b).
Definition saturating_mul (mx a b : Z) : Z := Z.min mx (a * b).
Definition abs_diff (a b : Z) : Z := Z.abs (a - b).

(** ** Strings and bytes

    [bytes] is a sequence of octets.  A Rust [str] is a sequence of Unicode
    scalar values; [as_bytes] is its UTF-8 encoding. *)

Abbreviation bytes := (list Z).
Abbreviation str := (list Z).

Fixpoint lit (s : string) : str :=
  match s with
  | EmptyString => []
  | String c s' => Z.of_N (N_of_ascii c) :: lit s'
  end.

Notation "$ s" := (lit s%string) (at level 1, s at level 0, format "$ s") : rust_scope.

Definition utf8_char (c : Z) : bytes :=
  if c <? 0x80 then [c]
  else if c <? 0x800 then
    [Z.lor 0xC0 (Z.shiftr c 6); Z.lor 0x80 (Z.land c 0x3F)]
  else if c <? 0x10000 then
    [Z.lor 0xE0 (Z.shiftr c 12); Z.lor 0x80 (Z.land (Z.shiftr c 6) 0x3F);
     Z.lor 0x80 (Z.land c 0x3F)]
  else
    [Z.lor 0xF0 (Z.shiftr c 18); Z.lor 0x80 (Z.land (Z.shiftr c 12) 0x3F);
     Z.lor 0x80 (Z.land (Z.shiftr c 6) 0x3F); Z.lor 0x80 (Z.land c 0x3F)].

Definition as_bytes (s : str) : bytes := concat (map utf8_char s).

Lemma as_bytes_ascii (s : str) : Forall (fun c => 0 <= c < 128) s -> as_bytes s = s.
Proof.
  unfold as_bytes. induction 1 as [|c s Hc _ IH]; [done|]. simpl. rewrite IH.
  unfold utf8_char. by destruct (c <? 128) eqn:E; [|apply Z.ltb_ge in E; lia].
Qed.

Definition zlen {A} (l : list A) : Z := Z.of_nat (length l).

Lemma zlen_app {A} (l k : list A) : zlen (l ++ k) = zlen l + zlen k.
Proof. unfold zlen. rewrite length_app. lia. Qed.

(** [str::len] counts bytes. *)
Definition str_len (s : str) : Z := zlen (as_bytes s).

Lemma str_len_nonneg s : 0 <= str_len s.
Proof. unfold str_len, zlen. lia. Qed.

(** ** Character classes of [u8] and [char] *)

Definition in_range (lo hi c : Z) : bool := (lo <=? c) && (c <=? hi).
Definition is_ascii_lowercase (c : Z) : bool := in_range 97 122 c.
Definition is_ascii_uppercase (c : Z) : bool := in_range 65 90 c.
Definition is_ascii_alphabetic (c : Z) : bool := is_ascii_lowercase c || is_ascii_uppercase c.
Definition is_ascii_digit (c : Z) : bool := in_range 48 57 c.
Definition is_ascii_alphanumeric (c : Z) : bool := is_ascii_alphabetic c || is_ascii_digit c.
Definition is_ascii_hexdigit (c : Z) : bool :=
  is_ascii_digit c || in_range 97 102 c || in_range 65 70 c.
Definition to_ascii_lowercase (c : Z) : Z := if is_ascii_uppercase c then c + 32 else c.
Definition is_ascii_whitespace (b : Z) : bool := (b =? 32) || (b =? 9) || (b =? 10) || (b =? 12) || (b =? 13).

(** ** Sequence operations shared by [str] and [[u8]] *)

Section sequences.
Context {A : Type} `{EqDecision A}.

Fixpoint starts_with (p s : list A) : bool :=
  match p, s with
  | [], _ => true
  | a :: p', b :: s' => bool_decide (a = b) && starts_with p' s'
  | _ :: _, [] => false
  end.

Definition ends_with (p s : list A) : bool := starts_with (rev p) (rev s).

Definition strip_prefix (p s : list A) : option (list A) :=
  if starts_with p s then Some (drop (length p) s) else None.

(** [str::find] of a non-empty needle: the index of its first occurrence. *)
Fixpoint find_sub (needle s : list A) : option nat :=
  if starts_with needle s then Some O
  else match s with
       | [] => None
       | _ :: s' => S <$> find_sub needle s'
       end.

(** [str::split_once] on a needle. *)
Definition split_once (needle s : list A) : option (list A * list A) :=
  match find_sub needle s with
  | Some i => Some (take i s, drop (i + length needle) s)
  | None => None
  end.

(** [str::split] on one separator character. *)
Fixpoint split_on (sep : A) (s : list A) : list (list A) :=
  match s with
  | [] => [[]]
  | c :: s' =>
      if bool_decide (c = sep) then [] :: split_on sep s'
      else match split_on sep s' with
           | w :: ws => (c :: w) :: ws
           | [] => [[c]]
           end
  end.

Lemma starts_with_spec p s : starts_with p s = true <-> exists t, s = p ++ t.
Proof.
  revert s. induction p as [|a p IH]; intros s; simpl.
  - split; eauto.
  - destruct s as [|b s]; simpl; [split; [done | intros [t ?]; done]|].
    rewrite andb_true_iff, bool_decide_eq_true, IH. split.
    + intros [-> [t ->]]. by exists t.
    + intros [t ?]. simplify_eq. eauto.
Qed.

Lemma starts_with_app p t : starts_with p (p ++ t) = true.
Proof. apply starts_with_spec. eauto. Qed.

Lemma starts_with_length p s : starts_with p s = true -> (length p <= length s)%nat.
Proof. intros [t ->]%starts_with_spec. rewrite length_app. lia. Qed.

Lemma ends_with_spec p s : ends_with p s = true <-> exists t, s = t ++ p.
Proof.
  unfold ends_with. rewrite starts_with_spec. split.
  - intros [t Ht]. exists (rev t). rewrite <- (rev_involutive s), Ht.
    rewrite rev_app_distr. by rewrite rev_involutive.
  - intros [t ->]. exists (rev t). apply rev_app_distr.
Qed.

Lemma ends_with_app p t : ends_with p (t ++ p) = true.
Proof. apply ends_with_spec. eauto. Qed.

Lemma find_sub_Some needle s i :
  find_sub needle s = Some i ->
  exists pre post, s = pre ++ needle ++ post /\ length pre = i.
Proof.
  revert i. induction s as [|c s IH]; intros i; simpl.
  - destruct (starts_with needle []) eqn:E; [|done].
    intros [= <-]. apply starts_with_spec in E as [t Ht]. by exists [], t.
  - destruct (starts_with needle (c :: s)) eqn:E.
    + intros [= <-]. apply starts_with_spec in E as [t Ht]. by exists [], t.
    + intros (j & Hj & ->)%fmap_Some. apply IH in Hj as (pre & post & -> & <-).
      by exists (c :: pre), post.
Qed.

Lemma find_sub_bound needle s i :
  find_sub needle s = Some i -> (i + length needle <= length s)%nat.
Proof.
  intros (pre & post & -> & <-)%find_sub_Some. rewrite !length_app. lia.
Qed.

Lemma split_on_nonempty sep s : split_on sep s <> [].
Proof. destruct s; simpl; repeat case_match; done. Qed.
End sequences.

(** [slice::chunks]: consecutive pieces of [n] elements, the last one shorter. *)
Fixpoint chunks_fuel {A} (fuel n : nat) (l : list A) : list (list A) :=
  match fuel, l with
  | O, _ | _, [] => []
  | S fuel', _ => take n l :: chunks_fuel fuel' n (drop n l)
  end.
Definition chunks {A} (n : nat) (l : list A) : list (list A) := chunks_fuel (length l) n l.

Lemma chunks_fuel_irrel {A} n (l : list A) f1 f2 :
  (0 < n)%nat -> (length l <= f1)%nat -> (length l <= f2)%nat ->
  chunks_fuel f1 n l = chunks_fuel f2 n l.
Proof.
  intros Hn. revert l f2. induction f1 as [|f1 IH]; intros l f2 H1 H2.
  { destruct l; simpl in H1; [by destruct f2 | lia]. }
  destruct l as [|x l]; [by destruct f2|].
  destruct f2 as [|f2]; [simpl in H2; lia|].
  cbn [chunks_fuel]. f_equal.
  apply IH; rewrite length_drop; simpl in *; lia.
Qed.

Lemma chunks_step {A} n (l : list A) :
  (0 < n)%nat -> l <> [] -> chunks n l = take n l :: chunks n (drop n l).
Proof.
  intros Hn Hl. destruct l as [|x l]; [done|].
  transitivity (take n (x :: l) :: chunks_fuel (length l) n (drop n (x :: l))); [done|].
  f_equal. apply chunks_fuel_irrel; rewrite ?length_drop; simpl; lia.
Qed.

(** Induction along [chunks n]. *)
Lemma chunks_ind {A} n (P : list A -> Prop) :
  (0 < n)%nat -> P [] -> (forall l, l <> [] -> P (drop n l) -> P l) -> forall l, P l.
Proof.
  intros Hn H0 Hs l. remember (length l) as k eqn:Hk. revert l Hk.
  induction k as [k IH] using lt_wf_ind; intros l Hk.
  destruct (decide (l = [])) as [->|Hne]; [done|].
  apply Hs; [done|]. eapply IH; [|done].
  rewrite length_drop. destruct l; simpl in *; [done|lia].
Qed.

(** ** Bit arithmetic *)

(** [u8] left shift: the bits shifted out are lost. *)
Definition shl8 (a n : Z) : Z := Z.land (Z.shiftl a n) 0xFF.

Lemma lor_shiftl_add a b n :
  0 <= n -> 0 <= b < 2 ^ n -> Z.lor (Z.shiftl a n) b = a * 2 ^ n + b.
Proof.
  intros Hn Hb. rewrite <- Z.shiftl_mul_pow2 by done.
  symmetry. apply Z.add_nocarry_lor.
  apply Z.bits_inj'. intros i Hi. rewrite Z.land_spec, Z.shiftl_spec, Z.bits_0 by done.
  destruct (decide (i < n)).
  - by rewrite Z.testbit_neg_r by lia.
  - replace (Z.testbit b i) with false; [apply andb_false_r|].
    symmetry. by apply (proj1 (Z.bounded_iff_bits_nonneg' n b Hn ltac:(lia))); lia.
Qed.

(** A byte with its top bit set stays above 127. *)
Lemma lor_high k v : 128 <= k -> 0 <= v -> 128 <= Z.lor k v.
Proof.
  intros Hk Hv. destruct (decide (128 <= Z.lor k v)) as [|Hlt]; [done|]. exfalso.
  assert (0 <= Z.lor k v) by (apply Z.lor_nonneg; lia).
  assert (Z.log2 (Z.lor k v) < 7).
  { destruct (decide (Z.lor k v = 0)) as [->|]; [done|]. apply Z.log2_lt_pow2; lia. }
  rewrite Z.log2_lor in * by lia.
  assert (7 <= Z.log2 k) by (apply Z.log2_le_pow2; lia). lia.
Qed.

Lemma utf8_char_high c : 128 <= c -> Forall (fun b => 128 <= b) (utf8_char c).
Proof.
  intros Hc. unfold utf8_char.
  assert (Hl : forall k v, 128 <= k -> 0 <= v -> 128 <= Z.lor k v) by (intros; by apply lor_high).
  assert (Hs : forall n, 0 <= Z.shiftr c n) by (intros; apply Z.shiftr_nonneg; lia).
  assert (Ha : forall x, 0 <= Z.land x 0x3F) by (intros; apply Z.land_nonneg; lia).
  repeat case_match; repeat (apply Forall_cons; split); try apply Forall_nil; try done; try lia;
    apply Hl; try lia; auto.
Qed.

Lemma utf8_char_cases c : utf8_char c = [c] \/ (128 <= c /\ Forall (fun b => 128 <= b) (utf8_char c)).
Proof.
  destruct (Z.lt_ge_cases c 128); [left|right; split; [done|by apply utf8_char_high]].
  unfold utf8_char. by replace (c <? 128) with true by lia.
Qed.

Lemma as_bytes_cons c s : as_bytes (c :: s) = utf8_char c ++ as_bytes s.
Proof. done. Qed.

(** [u64::to_le_bytes]. *)
Definition u64_to_le_bytes (v : Z) : bytes :=
  (fun i => v / 2 ^ (8 * Z.of_nat i) mod 256) <$> seq 0 8.

Lemma length_u64_to_le_bytes v : length (u64_to_le_bytes v) = 8%nat.
Proof. done. Qed.

(** A number is determined by its base-256 digits. *)
Lemma digits256_inj n v w :
  0 <= v < 256 ^ Z.of_nat n -> 0 <= w < 256 ^ Z.of_nat n ->
  (forall i, (i < n)%nat -> v / 256 ^ Z.of_nat i mod 256 = w / 256 ^ Z.of_nat i mod 256) -> v = w.
Proof.
  revert v w; induction n as [|n IH]; intros v w Hv Hw H; [cbn in *; lia|].
  rewrite Nat2Z.inj_succ, Z.pow_succ_r in Hv, Hw by lia.
  assert (Hq : v / 256 = w / 256).
  { apply IH; [split; [apply Z.div_pos; lia | apply Z.div_lt_upper_bound; lia]..|].
    intros i Hi. specialize (H (S i) ltac:(lia)).
    rewrite Nat2Z.inj_succ, Z.pow_succ_r in H by lia.
    by rewrite !Z.div_div by lia. }
  specialize (H 0%nat ltac:(lia)). cbn [Z.of_nat] in H. rewrite Z.pow_0_r, !Z.div_1_r in H.
  rewrite (Z.div_mod v 256), (Z.div_mod w 256) by lia. lia.
Qed.

Lemma u64_to_le_bytes_inj v w : in_u64 v -> in_u64 w -> u64_to_le_bytes v = u64_to_le_bytes w -> v = w.
Proof.
  unfold in_u64, u64_max. intros Hv Hw H. apply (digits256_inj 8); [cbn; lia..|].
  intros i Hi. apply (f_equal (fun l => l !! i)) in H. unfold u64_to_le_bytes in H.
  rewrite !list_lookup_fmap, lookup_seq_lt in H by done. cbn in H.
  replace (256 ^ Z.of_nat i) with (2 ^ (8 * Z.of_nat i)) by (rewrite Z.pow_mul_r by lia; done).
  by injection H.
Qed.

(** ** Trimming *)

(** [char::is_whitespace]: the Unicode property White_Space. *)
Definition is_whitespace (c : Z) : bool :=
  in_range 9 13 c || (c =? 32) || (c =? 0x85) || (c =? 0xA0) || (c =? 0x1680) ||
  in_range 0x2000 0x200A c || (c =? 0x2028) || (c =? 0x2029) || (c =? 0x202F) || (c =? 0x205F) ||
  (c =? 0x3000).

Fixpoint trim_start_matches (f : Z -> bool) (s : str) : str :=
  match s with
  | [] => []
  | c :: s' => if f c then trim_start_matches f s' else s
  end.
Definition trim_end_matches (f : Z -> bool) (s : str) : str := rev (trim_start_matches f (rev s)).
Definition trim (s : str) : str :=
  trim_end_matches is_whitespace (trim_start_matches is_whitespace s).

(** ** Paths *)

Inductive path_component := RootDir | CurDir | ParentDir | Normal (s : str).

Definition unix_component (c : str) : list path_component :=
  if decide (c = [] \/ c = $".") then []
  else if decide (c = $"..") then [ParentDir] else [Normal c].

(** [Path::components] on Unix: empty components are skipped and [.] counts
    only as the first component. *)
Definition path_components (p : str) : list path_component :=
  let parts := split_on 47 p in
  let root := match p with 47 :: _ => [RootDir] | _ => [] end in
  let lead := match parts with c :: _ => if decide (c = $".") then [CurDir] else [] | [] => [] end in
  root ++ lead ++ concat (unix_component <$> parts).

(** [join("/")], and splitting what it wrote. *)
Fixpoint join_slash (parts : list str) : str :=
  match parts with
  | [] => []
  | [p] => p
  | p :: rest => p ++ 47 :: join_slash rest
  end.

Lemma split_on_app (a b : str) : 47 ∉ a -> split_on 47 (a ++ 47 :: b) = a :: split_on 47 b.
Proof.
  intros Ha. induction a as [|c a IH]; cbn [app split_on]; [by rewrite bool_decide_true|].
  rewrite bool_decide_false by set_solver. rewrite IH by set_solver. done.
Qed.

Lemma split_on_plain (a : str) : 47 ∉ a -> split_on 47 a = [a].
Proof.
  intros Ha. induction a as [|c a IH]; cbn [split_on]; [done|].
  rewrite bool_decide_false by set_solver. by rewrite IH by set_solver.
Qed.

Lemma split_join_slash (parts : list str) :
  parts <> [] -> Forall (fun p => 47 ∉ p) parts -> split_on 47 (join_slash parts) = parts.
Proof.
  intros Hne Hp. induction Hp as [|p [|q rest] Hp Hr IH]; [done|by apply split_on_plain|].
  change (join_slash (p :: q :: rest)) with (p ++ 47 :: join_slash (q :: rest)).
  rewrite split_on_app by done. by rewrite IH.
Qed.

Lemma split_on_no_sep (sep : Z) (s : str) : Forall (fun p => sep ∉ p) (split_on sep s).
Proof.
  induction s as [|c s IH]; cbn [split_on]; [repeat constructor; set_solver|].
  case_bool_decide; [constructor; [set_solver|done]|].
  destruct (split_on sep s) as [|w ws]; [repeat constructor; set_solver|].
  apply Forall_cons in IH as [? ?]. constructor; [set_solver|done].
Qed.

(** ** Integer parsing ([from_str_radix] of the unsigned types) *)

Definition to_digit (radix c : Z) : option Z :=
  let v := if is_ascii_digit c then Some (c - 48)
           else if is_ascii_lowercase c then Some (c - 97 + 10)
           else if is_ascii_uppercase c then Some (c - 65 + 10)
           else None in
  match v with
  | Some d => if d <? radix then Some d else None
  | None => None
  end.

Fixpoint radix_acc (radix mx acc : Z) (s : str) : option Z :=
  match s with
  | [] => Some acc
  | c :: s' =>
      match to_digit radix c with
      | Some d =>
          let acc' := acc * radix + d in
          if acc' <=? mx then radix_acc radix mx acc' s' else None
      | None => None
      end
  end.

(** An empty string, a lone sign, a digit outside the radix and a value above
    [mx] are errors; one leading [+] is accepted. *)
Definition from_str_radix (radix mx : Z) (s : str) : option Z :=
  match s with
  | [] => None
  | 43 :: [] => None
  | 43 :: s' => radix_acc radix mx 0 s'
  | _ => radix_acc radix mx 0 s
  end.

(** ** Integer printing ([Display] of the unsigned types) *)

Fixpoint dec_digits (fuel : nat) (z : Z) (acc : str) : str :=
  match fuel with
  | O => acc
  | S f => let acc' := (48 + z mod 10) :: acc in
           if z / 10 =? 0 then acc' else dec_digits f (z / 10) acc'
  end.

(** Twenty digits are enough for [u64]. *)
Definition display_u64 (z : Z) : str := dec_digits 20 z [].

(** ** Orderings *)

(** [Ordering::then_with]. *)
Definition then_with (c d : comparison) : comparison :=
  match c with Eq => d | _ => c end.

Fixpoint list_cmp {A} (cmp : A -> A -> comparison) (l k : list A) : comparison :=
  match l, k with
  | [], [] => Eq
  | [], _ :: _ => Lt
  | _ :: _, [] => Gt
  | a :: l', b :: k' => then_with (cmp a b) (list_cmp cmp l' k')
  end.

(** [Ord] of [str], [[u8]] and [Option<T>] ([None] first). *)
Definition str_cmp : str -> str -> comparison := list_cmp Z.compare.
Definition option_cmp {A} (cmp : A -> A -> comparison) (x y : option A) : comparison :=
  match x, y with
  | None, None => Eq
  | None, Some _ => Lt
  | Some _, None => Gt
  | Some a, Some b => cmp a b
  end.

(** What the code relies on when it sorts or keys by a comparator: a total
    preorder, and, for a canonical ([Eq]-consistent) one, a total order. *)
Class CmpLaws {A} (cmp : A -> A -> comparison) : Prop := {
  cmp_sym x y : cmp y x = CompOpp (cmp x y);
  cmp_trans x y z : cmp x y <> Gt -> cmp y z <> Gt -> cmp x z <> Gt }.

Class CmpEq {A} (cmp : A -> A -> comparison) : Prop :=
  cmp_eq x y : cmp x y = Eq <-> x = y.

Arguments cmp_sym {A} cmp {_} x y.
Arguments cmp_trans {A} cmp {_} x y z.
Arguments cmp_eq {A} cmp {_} x y.

Lemma then_with_Eq c d : then_with c d = Eq <-> c = Eq /\ d = Eq.
Proof. destruct c; naive_solver. Qed.

Section cmp_laws.
Context {A : Type} (cmp : A -> A -> comparison) `{!CmpLaws cmp}.

Lemma cmp_refl x : cmp x x = Eq.
Proof. pose proof (cmp_sym cmp x x). by destruct (cmp x x). Qed.

Lemma cmp_Eq_compat x y z : cmp x y = Eq -> cmp x z = cmp y z.
Proof.
  intros Hxy. pose proof (cmp_sym cmp x y) as Hyx. rewrite Hxy in Hyx. simpl in Hyx.
  assert (cmp x z <> Gt <-> cmp y z <> Gt) as H1
    by (split; eapply (cmp_trans _); congruence).
  assert (cmp z x <> Gt <-> cmp z y <> Gt) as H2
    by (split; intros ?; eapply (cmp_trans _); (done || congruence)).
  rewrite (cmp_sym cmp x z), (cmp_sym cmp y z) in H2.
  destruct (cmp x z), (cmp y z); simpl in *; naive_solver.
Qed.

Lemma cmp_Lt_trans x y z : cmp x y = Lt -> cmp y z <> Gt -> cmp x z = Lt.
Proof.
  intros Hxy Hyz. destruct (cmp x z) eqn:Hxz; [|done|].
  - exfalso. apply Hyz.
    by rewrite (cmp_sym cmp z y), <- (cmp_Eq_compat x z y Hxz), Hxy.
  - exfalso. apply (cmp_trans cmp x y z); [by rewrite Hxy | done | done].
Qed.
End cmp_laws.

#[export] Instance Z_cmp_laws : CmpLaws Z.compare.
Proof. split; intros; [apply Z.compare_antisym|]. rewrite Z.compare_le_iff in *. lia. Qed.
#[export] Instance Z_cmp_eq : CmpEq Z.compare.
Proof. intros x y. apply Z.compare_eq_iff. Qed.

(** Comparing by a key, and lexicographic chains of comparisons. *)
Lemma cmp_on_laws {A B} (f : A -> B) cmp :
  CmpLaws cmp -> CmpLaws (fun x y => cmp (f x) (f y)).
Proof. intros ?. split; intros; [apply (cmp_sym _) | by eapply (cmp_trans _)]. Qed.

Lemma cmp_flip_laws {A} (cmp : A -> A -> comparison) :
  CmpLaws cmp -> CmpLaws (fun x y => cmp y x).
Proof. intros ?. split; intros; [apply (cmp_sym _) | by eapply (cmp_trans _)]. Qed.

Lemma cmp_then_laws {A} (c1 c2 : A -> A -> comparison) :
  CmpLaws c1 -> CmpLaws c2 -> CmpLaws (fun x y => then_with (c1 x y) (c2 x y)).
Proof.
  intros ? ?. split.
  - intros x y. rewrite (cmp_sym c1 x y), (cmp_sym c2 x y). by destruct (c1 x y).
  - intros x y z Hxy Hyz.
    destruct (c1 x y) eqn:E1; simpl in *; [| |done].
    + rewrite (cmp_Eq_compat c1 _ _ z E1). destruct (c1 y z); simpl in *; [|done..].
      by eapply (cmp_trans _).
    + rewrite (cmp_Lt_trans c1 x y z E1); [done|]. by destruct (c1 y z).
Qed.

#[export] Instance list_cmp_laws {A} (cmp : A -> A -> comparison) `{!CmpLaws cmp} :
  CmpLaws (list_cmp cmp).
Proof.
  split.
  - intros x. induction x as [|a x IH]; intros [|b y]; simpl; try done.
    rewrite IH, (cmp_sym cmp a b). by destruct (cmp a b).
  - intros x. induction x as [|a x IH]; intros [|b y] [|c z]; simpl; try done.
    intros Hxy Hyz. destruct (cmp a b) eqn:E; simpl in *; [| |done].
    + rewrite (cmp_Eq_compat cmp _ _ c E). destruct (cmp b c); simpl in *; [|done..]. eauto.
    + rewrite (cmp_Lt_trans cmp a b c E); [done|]. by destruct (cmp b c).
Qed.
#[export] Instance list_cmp_eq {A} (cmp : A -> A -> comparison) `{!CmpEq cmp} : CmpEq (list_cmp cmp).
Proof.
  intros x. induction x as [|a x IH]; intros [|b y]; simpl; try done.
  rewrite then_with_Eq, IH, (cmp_eq cmp a b). naive_solver.
Qed.

#[export] Instance option_cmp_laws {A} (cmp : A -> A -> comparison) `{!CmpLaws cmp} :
  CmpLaws (option_cmp cmp).
Proof.
  split.
  - intros [] []; simpl; [apply (cmp_sym _) | done..].
  - intros [] [] []; simpl; try done. apply (cmp_trans _).
Qed.
#[export] Instance option_cmp_eq {A} (cmp : A -> A -> comparison) `{!CmpEq cmp} : CmpEq (option_cmp cmp).
Proof. intros [] []; simpl; rewrite ?(cmp_eq cmp); naive_solver. Qed.

#[export] Instance str_cmp_laws : CmpLaws str_cmp := list_cmp_laws Z.compare.
#[export] Instance str_cmp_eq : CmpEq str_cmp := list_cmp_eq Z.compare.

(** [slice::sort_by]: a stable sort. *)
Section sort_by.
Context {A : Type} (cmp : A -> A -> comparison).

Fixpoint insert_by (x : A) (l : list A) : list A :=
  match l with
  | [] => [x]
  | y :: l' => match cmp x y with
               | Gt => y :: insert_by x l'
               | _ => x :: y :: l'
               end
  end.

Definition sort_by (l : list A) : list A := foldr insert_by [] l.

Lemma insert_by_perm x l : insert_by x l ≡ₚ x :: l.
Proof.
  induction l as [|y l IH]; [done|]. simpl. destruct (cmp x y); [done..|].
  rewrite IH. apply Permutation_swap.
Qed.

Lemma sort_by_perm l : sort_by l ≡ₚ l.
Proof. induction l as [|x l IH]; [done|]. simpl. by rewrite insert_by_perm, IH. Qed.

Lemma elem_of_sort_by x l : x ∈ sort_by l <-> x ∈ l.
Proof. by rewrite sort_by_perm. Qed.

Lemma length_sort_by l : length (sort_by l) = length l.
Proof. by rewrite sort_by_perm. Qed.

Context `{!CmpLaws cmp}.

Lemma insert_by_sorted x l :
  StronglySorted (fun a b => cmp a b <> Gt) l ->
  StronglySorted (fun a b => cmp a b <> Gt) (insert_by x l).
Proof.
  induction 1 as [|y l Hl IH Hy]; simpl; [by repeat constructor|].
  destruct (cmp x y) eqn:E.
  1,2: constructor; [by constructor|]; apply Forall_cons; split; [by rewrite E|];
    eapply Forall_impl; [exact Hy|]; intros z Hz; eapply (cmp_trans _); [|exact Hz]; by rewrite E.
  constructor; [done|]. rewrite insert_by_perm. apply Forall_cons; split; [|done].
  by rewrite (cmp_sym cmp), E.
Qed.

Lemma sort_by_sorted l : StronglySorted (fun a b => cmp a b <> Gt) (sort_by l).
Proof. induction l; simpl; [constructor | by apply insert_by_sorted]. Qed.

(** The sorted list does not depend on the initial order. *)
Lemma sort_by_unique l k :
  l ≡ₚ k -> (forall x y, x ∈ l -> y ∈ l -> cmp x y = Eq -> x = y) -> sort_by l = sort_by k.
Proof.
  intros Hp He. apply (StronglySorted_unique_strong (fun a b => cmp a b <> Gt));
    [| apply sort_by_sorted.. | by rewrite !sort_by_perm].
  intros x y Hx Hy Hxy Hyx. apply He.
  - by rewrite elem_of_sort_by in Hx.
  - rewrite elem_of_sort_by in Hy. by rewrite Hp.
  - rewrite (cmp_sym cmp) in Hyx. by destruct (cmp x y).
Qed.
End sort_by.

(** ** Lines *)

(** [str::lines]: pieces that end in a line feed lose it and one carriage
    return before it; a last piece without one is kept as it is, if not empty. *)
Definition strip_cr (line : str) : str :=
  match last line with Some 13 => removelast line | _ => line end.

Fixpoint unterminated_last (pieces : list str) : list str :=
  match pieces with
  | [] => []
  | [x] => match x with [] => [] | _ => [x] end
  | x :: rest => strip_cr x :: unterminated_last rest
  end.

Definition str_lines (s : str) : list str := unterminated_last (split_on 10 s).

(** ** Trimming, splitting and division, used by the parsers *)

Lemma div_unique_bounds a b q : 0 < b -> b * q <= a < b * (q + 1) -> a / b = q.
Proof. intros. symmetry. apply Z.div_unique_pos with (a - b * q); lia. Qed.

Lemma as_bytes_all_ascii s : Forall (fun b => b < 128) (as_bytes s) -> as_bytes s = s.
Proof.
  induction s as [|c s IH]; [done|]. unfold as_bytes in *. cbn [map concat]. rewrite Forall_app. intros [Hc Hs].
  rewrite IH by done. unfold utf8_char in *.
  destruct (Z.ltb_spec c 0x80); [done|]. exfalso.
  assert (Hhi : forall k n, 128 <= k -> 128 <= Z.lor k (Z.shiftr c n)).
  { intros k n Hk. apply lor_high; [done|]. apply Z.shiftr_nonneg. lia. }
  repeat case_match; inversion Hc; subst; match goal with H : Z.lor ?k (Z.shiftr c ?n) < 128 |- _ =>
    pose proof (Hhi k n ltac:(lia)) end; lia.
Qed.

Lemma trim_start_id f s : (forall c, head s = Some c -> f c = false) -> trim_start_matches f s = s.
Proof. destruct s as [|c s]; [done|]. intros H. simpl. by rewrite H. Qed.

Lemma trim_id s :
  (forall c, head s = Some c -> is_whitespace c = false) -> (forall c, last s = Some c -> is_whitespace c = false) ->
  trim s = s.
Proof.
  intros Hh Hl. unfold trim, trim_end_matches. rewrite (trim_start_id _ s Hh).
  rewrite trim_start_id; [by rewrite rev_involutive|].
  intros c Hc. apply Hl. rewrite <- head_reverse. unfold reverse. by rewrite <- rev_alt.
Qed.

Lemma trim_space s : trim (32 :: s) = trim s.
Proof. done. Qed.

Lemma find_sub_char (c : Z) p rest : c ∉ p -> find_sub [c] (p ++ c :: rest) = Some (length p).
Proof.
  induction p as [|x p IH]; intros Hp.
  - cbn [app find_sub starts_with]. by rewrite bool_decide_true.
  - apply not_elem_of_cons in Hp as [Hx Hp]. cbn [app find_sub starts_with].
    rewrite bool_decide_false by done. cbn [andb]. by rewrite IH.
Qed.

Lemma split_once_char (c : Z) p rest : c ∉ p -> split_once [c] (p ++ c :: rest) = Some (p, rest).
Proof.
  intros Hp. unfold split_once. rewrite find_sub_char by done. rewrite take_app_length.
  replace (length p + length [c])%nat with (S (length p)) by (simpl; lia).
  rewrite drop_app, drop_ge, Nat.sub_succ_l, Nat.sub_diag by lia. done.
Qed.

Lemma StronglySorted_weaken {A} (R S : A -> A -> Prop) l :
  (forall x y, R x y -> S x y) -> StronglySorted R l -> StronglySorted S l.
Proof. intros Himp. induction 1 as [|x l Hl IH Hx]; constructor; [done|]. eapply Forall_impl; [exact Hx | auto]. Qed.

Lemma filter_sorted {A} (R : A -> A -> Prop) (f : A -> bool) l : StronglySorted R l -> StronglySorted R (List.filter f l).
Proof.
  induction 1 as [|x l Hl IH Hx]; cbn [List.filter]; [constructor|]. destruct (f x); [|done]. constructor; [done|].
  rewrite Forall_forall in *. intros y Hy. apply Hx. apply list_elem_of_In in Hy. apply filter_In in Hy as [Hy _]. by apply list_elem_of_In.
Qed.

Lemma StronglySorted_lookup_lt {A} (R : A -> A -> Prop) l i j x y :
  StronglySorted R l -> l !! i = Some x -> l !! j = Some y -> (i < j)%nat -> R x y.
Proof.
  intros Hl. revert i j. induction Hl as [|z l Hl IH Hz]; intros [|i] [|j] Hx Hy Hij; cbn in *; try done; try lia.
  - simplify_eq. rewrite Forall_forall in Hz. apply Hz. by eapply list_elem_of_lookup_2.
  - apply (IH i j); [done | done | lia].
Qed.

Lemma StronglySorted_lt_lookup_inj l i j (x : Z) :
  StronglySorted Z.lt l -> l !! i = Some x -> l !! j = Some x -> i = j.
Proof.
  intros Hl Hi Hj. destruct (Nat.lt_trichotomy i j) as [Hlt|[?|Hlt]]; [|done|].
  - pose proof (StronglySorted_lookup_lt _ _ _ _ _ _ Hl Hi Hj Hlt). lia.
  - pose proof (StronglySorted_lookup_lt _ _ _ _ _ _ Hl Hj Hi Hlt). lia.
Qed.

(** ** Lists up to order *)

Lemma elem_of_concat_map {A B} (f : A -> list B) l x : x ∈ concat (map f l) <-> exists y, y ∈ l /\ x ∈ f y.
Proof.
  rewrite list_elem_of_In, <- flat_map_concat_map, in_flat_map. by setoid_rewrite <- list_elem_of_In.
Qed.

(** [iter().enumerate()] *)
Lemma elem_of_enumerate {A} (l : list A) i x : (i, x) ∈ zip (seq 0 (length l)) l <-> l !! i = Some x.
Proof.
  rewrite list_elem_of_lookup. setoid_rewrite lookup_zip_with. split.
  - intros (n & Hn). destruct (seq _ _ !! n) as [y|] eqn:E; [|done]. apply lookup_seq in E as [-> E]. cbn in Hn.
    destruct (l !! n) eqn:Em; [|done]. cbn in Hn. by simplify_eq.
  - intros Hj. exists i. rewrite lookup_seq_lt, Hj by (by eapply lookup_lt_Some). done.
Qed.

Lemma existsb_const_true {A} (l : list A) : existsb (fun _ => true) l = true <-> exists x, x ∈ l.
Proof. rewrite existsb_exists. setoid_rewrite <- list_elem_of_In. naive_solver. Qed.

Lemma existsb_perm {A} (f g : A -> bool) l k : l ≡ₚ k -> (forall x, f x = g x) -> existsb f l = existsb g k.
Proof.
  intros Hp Hfg. apply eq_bool_prop_intro. rewrite !Is_true_true, !existsb_exists. setoid_rewrite <- list_elem_of_In. setoid_rewrite Hp. by setoid_rewrite Hfg.
Qed.

Lemma filter_perm {A} (f g : A -> bool) l k : l ≡ₚ k -> (forall x, x ∈ k -> f x = g x) -> List.filter f l ≡ₚ List.filter g k.
Proof.
  intros Hp Hfg. rewrite (filter_ext_in g f k) by (intros x Hx; symmetry; by apply Hfg, list_elem_of_In).
  clear Hfg. induction Hp as [|x l k _ IH|x y l|l1 l2 l3 _ IH1 _ IH2]; cbn [List.filter]; [done| | |by rewrite IH1].
  - destruct (f x); by rewrite IH.
  - destruct (f x), (f y); try done. apply Permutation_swap.
Qed.

Lemma bool_iff (a b : bool) (P : Prop) : (a = true <-> P) -> (b = true <-> P) -> a = b.
Proof. intros Ha Hb. destruct a, b; [done| | |done]; [symmetry; by apply Hb, Ha | by apply Ha, Hb]. Qed.

Lemma filter_submseteq {A} (f : A -> bool) l : List.filter f l ⊆+ l.
Proof. induction l as [|x l IH]; cbn [List.filter]; [done|]. destruct (f x); [by apply submseteq_skip | by apply submseteq_cons]. Qed.

Lemma Forall_submseteq {A} (P : A -> Prop) l k : l ⊆+ k -> Forall P k -> Forall P l.
Proof. intros Hs. rewrite !Forall_forall. intros Hk x Hx. apply Hk. by eapply elem_of_submseteq. Qed.

Lemma concat_submseteq {A} (f : list A -> list A) ls : (forall l, f l ⊆+ l) -> concat (map f ls) ⊆+ concat ls.
Proof. intros Hf. induction ls as [|l ls IH]; cbn; [done|]. by apply submseteq_app. Qed.

Lemma sort_by_map {A B} (cmp : A -> A -> comparison) (cmp' : B -> B -> comparison) (g : A -> B) l :
  (forall x y, cmp' (g x) (g y) = cmp x y) -> map g (sort_by cmp l) = sort_by cmp' (map g l).
Proof.
  intros Hc. assert (Hins : forall x k, map g (insert_by cmp x k) = insert_by cmp' (g x) (map g k)).
  { intros x k. induction k as [|y k IH]; cbn [map insert_by]; [done|]. rewrite Hc. destruct (cmp x y); cbn [map]; [done | done|]. by rewrite IH. }
  induction l as [|x l IH]; cbn [map sort_by foldr]; [done|]. change (foldr (insert_by cmp) [] l) with (sort_by cmp l). by rewrite Hins, IH.
Qed.

Lemma existsb_ext_in {A} (f g : A -> bool) l : (forall x, x ∈ l -> f x = g x) -> existsb f l = existsb g l.
Proof. induction l as [|x l IH]; intros Hfg; [done|]. cbn. rewrite Hfg by set_solver. by rewrite IH by set_solver. Qed.

(** ** Single bits *)

Lemma land_bit w k : 0 <= k -> negb (Z.land w (Z.shiftl 1 k) =? 0) = Z.testbit w k.
Proof.
  intros Hk. rewrite Z.shiftl_1_l. destruct (Z.testbit w k) eqn:E.
  - apply negb_true_iff, Z.eqb_neq. intros H0. apply (f_equal (fun z => Z.testbit z k)) in H0.
    rewrite Z.land_spec, E, Z.pow2_bits_true, Z.bits_0 in H0 by lia. done.
  - apply negb_false_iff, Z.eqb_eq, Z.bits_inj'. intros n Hn. rewrite Z.land_spec, Z.bits_0.
    destruct (decide (n = k)) as [->|Hne]; [by rewrite E|]. rewrite Z.pow2_bits_false by lia. apply andb_false_r.
Qed.

(** ** Bytes up to ASCII case, and windows *)

Definition fold_case (bs : bytes) : bytes := map to_ascii_lowercase bs.

Definition occurs_ci (needle hay : bytes) : Prop :=
  exists a w b, hay = a ++ w ++ b /\ fold_case w = fold_case needle.

(** [slice.windows(n)] *)
Definition windows {A} (n : nat) (l : list A) : list (list A) :=
  if (n <=? length l)%nat then map (fun i => take n (drop i l)) (seq 0 (S (length l - n))) else [].

(** [eq_ignore_ascii_case] of strings and byte slices. *)
Definition eq_ignore_ascii_case (a b : str) : bool :=
  bool_decide (map to_ascii_lowercase a = map to_ascii_lowercase b).

Lemma elem_of_windows {A} n (l : list A) w :
  w ∈ windows n l <-> exists a b, l = a ++ w ++ b /\ length w = n.
Proof.
  unfold windows. destruct (Nat.leb_spec n (length l)) as [Hn|Hn]; split.
  - intros (i & -> & Hi)%list_elem_of_fmap. apply elem_of_seq in Hi. exists (take i l), (drop n (drop i l)).
    rewrite !take_drop. split; [done|]. rewrite length_take, length_drop. lia.
  - intros (a & b & -> & Hw). apply list_elem_of_fmap. exists (length a). split.
    + rewrite drop_app_length, <- Hw. by rewrite take_app_length.
    + apply elem_of_seq. rewrite !length_app. lia.
  - intros Hin. by apply not_elem_of_nil in Hin.
  - intros (a & b & -> & Hw). exfalso. rewrite !length_app in Hn. lia.
Qed.

Lemma windows_nonempty {A} n (l : list A) : (n <= length l)%nat -> windows n l <> [].
Proof. intros Hn. unfold windows. by destruct (Nat.leb_spec n (length l)); [|lia]. Qed.

(** Facts the components' proofs close by [auto with keyhog]. *)
Create HintDb keyhog.
#[export] Hint Resolve starts_with_app ends_with_app sort_by_perm filter_sorted filter_submseteq Forall_submseteq Permutation_sym : keyhog.

(** ** Development tactics *)

(** Turn the boolean tests of the source into propositions. *)
Ltac reflect_bool :=
  repeat match goal with
  | H : _ && _ = true |- _ => apply andb_true_iff in H as [? ?]
  | H : _ || _ = false |- _ => apply orb_false_iff in H as [? ?]
  | H : negb _ = true |- _ => apply negb_true_iff in H
  | H : negb _ = false |- _ => apply negb_false_iff in H
  | H : (_ =? _) = true |- _ => apply Z.eqb_eq in H
  | H : (_ =? _) = false |- _ => apply Z.eqb_neq in H
  | H : (_ <=? _) = true |- _ => apply Z.leb_le in H
  | H : (_ <=? _) = false |- _ => apply Z.leb_gt in H
  | H : (_ <? _) = true |- _ => apply Z.ltb_lt in H
  | H : (_ <? _) = false |- _ => apply Z.ltb_ge in H
  | H : bool_decide _ = true |- _ => apply bool_decide_eq_true in H
  | H : bool_decide _ = false |- _ => apply bool_decide_eq_false in H
  end.

(** [CmpLaws] of a lexicographic chain of key comparisons. *)
Ltac solve_cmp_laws :=
  lazymatch goal with
  | |- CmpLaws (fun x y => then_with (@?a x y) (@?b x y)) =>
      apply (cmp_then_laws a b); [solve_cmp_laws | solve_cmp_laws]
  | |- CmpLaws (fun x y => ?c (@?f x) (@?g y)) => apply (cmp_on_laws f c); apply _
  | |- CmpLaws (fun x y => ?c (@?f y) (@?g x)) =>
      apply (cmp_flip_laws (fun x y => c (f x) (f y))); apply (cmp_on_laws f c); apply _
  end.

(** Split every [match] and [if] in sight, then clean up. *)
Ltac cases :=
  repeat (case_match; simplify_eq/=; try done).

(** Decide a closed proposition by evaluation. *)
Ltac by_decision := match goal with |- ?P => apply (bool_decide_unpack P); vm_compute; exact I end.

(** Prove an equation between closed terms by evaluating both sides. *)
Ltac by_eval := match goal with |- ?a = ?b => exact (eq_refl b <: a = b) end.

(** Evaluate a closed subterm of the goal. *)
Ltac eval_in t := let v := eval vm_compute in t in change t with v.
