(* ===== verification/Encoding.v ===== *)
(** * Standard base64 ([crates/core/src/encoding.rs])

    The RFC 4648 encoder and the padding-tolerant decoder used for credential
    wire formats and Kubernetes secrets.  The decoder's error strings are the
    constructors of [Base64Error], carrying the values each message prints. *)

From S2P Require Import Prelude.

Definition MAX_STANDARD_BASE64_INPUT_BYTES : Z := 16 * 1024 * 1024.

(** The 64-character alphabet constant of the encoder. *)
Definition TABLE : str :=
  $"ABCDEFGHIJKLMNOPQRSTUVWXYZabcdefghijklmnopqrstuvwxyz0123456789+/".

(** [TABLE[i]]; the index expressions of the encoder stay below 64. *)
Definition table_at (i : Z) : Z := nth (Z.to_nat i) TABLE 0.

Definition PAD : Z := 61. (* '=' *)

(** The body of the encoder's loop, for one [chunks(3)] piece. *)
Definition encode_chunk (chunk : bytes) : str :=
  let b0 := nth 0 chunk 0 in
  let b1 := match chunk !! 1%nat with Some b => b | None => 0 end in
  let b2 := match chunk !! 2%nat with Some b => b | None => 0 end in
  [table_at (Z.shiftr b0 2);
   table_at (Z.lor (shl8 (Z.land b0 0x03) 4) (Z.shiftr b1 4));
   (if 1 <? zlen chunk
    then table_at (Z.lor (shl8 (Z.land b1 0x0F) 2) (Z.shiftr b2 6)) else PAD);
   (if 2 <? zlen chunk then table_at (Z.land b2 0x3F) else PAD)].

Definition encode_standard_base64 (input : bytes) : str :=
  concat (map encode_chunk (chunks 3 input)).

Inductive Base64Error :=
| InputTooLong                       (* base64 input exceeds .. bytes *)
| PaddingWithoutData                 (* padding '=' with no preceding data *)
| DataAfterPadding                   (* data after padding '=' *)
| MisalignedPadding (pad_len idx : Z)
| InvalidChar (c : Z)
| Truncated.

#[export] Instance Base64Error_eq_dec : EqDecision Base64Error.
Proof. solve_decision. Defined.

(** The nested function [val]. *)
Definition val (c : Z) : result Z Base64Error :=
  if in_range 65 90 c then Ok (c - 65)
  else if in_range 97 122 c then Ok (c - 97 + 26)
  else if in_range 48 57 c then Ok (c - 48 + 52)
  else if c =? 43 then Ok 62
  else if c =? 47 then Ok 63
  else Err (InvalidChar c).

(** [bytes.iter().position(|&c| c == b'=')]. *)
Fixpoint first_pad (bs : bytes) : option nat :=
  match bs with
  | [] => None
  | c :: bs' => if c =? PAD then Some O else S <$> first_pad bs'
  end.

(** Padding validation: the data bytes that precede the padding. *)
Definition strip_padding (bs : bytes) : result bytes Base64Error :=
  match first_pad bs with
  | Some idx =>
      if (idx =? 0)%nat then Err PaddingWithoutData
      else if existsb (fun c => negb (c =? PAD)) (drop idx bs) then Err DataAfterPadding
      else
        let pad_len := zlen bs - Z.of_nat idx in
        let rem := Z.of_nat idx mod 4 in
        let pad_ok :=
          if rem =? 2 then (pad_len =? 2) || (pad_len =? 1)
          else if rem =? 3 then pad_len =? 1
          else if rem =? 0 then pad_len <=? 2
          else false in
        if negb pad_ok then Err (MisalignedPadding pad_len (Z.of_nat idx))
        else Ok (take idx bs)
  | None => Ok bs
  end.

(** The body of the decoder's loop, for one [chunks(4)] piece. *)
Definition decode_chunk (chunk : bytes) : result bytes Base64Error :=
  let? v0 := val (nth 0 chunk 0) in
  let? c1 := ok_or (chunk !! 1%nat) Truncated in
  let? v1 := val c1 in
  let o0 := Z.lor (shl8 v0 2) (Z.shiftr v1 4) in
  match chunk !! 2%nat with
  | None => Ok [o0]
  | Some c2 =>
      let? v2 := val c2 in
      let o1 := Z.lor (shl8 (Z.land v1 0x0F) 4) (Z.shiftr v2 2) in
      match chunk !! 3%nat with
      | None => Ok [o0; o1]
      | Some c3 =>
          let? v3 := val c3 in
          Ok [o0; o1; Z.lor (shl8 (Z.land v2 0x03) 6) v3]
      end
  end.

Fixpoint decode_chunks (cs : list bytes) : result bytes Base64Error :=
  match cs with
  | [] => Ok []
  | c :: cs' =>
      let? out := decode_chunk c in
      let? rest := decode_chunks cs' in
      Ok (out ++ rest)
  end.

Definition decode_standard_base64 (input : str) : result bytes Base64Error :=
  if MAX_STANDARD_BASE64_INPUT_BYTES <? str_len input then Err InputTooLong
  else
    let? stripped := strip_padding (as_bytes input) in
    decode_chunks (chunks 4 stripped).

(** ** Lemmas on the alphabet and the 6-bit packing *)

Section bits.
Lemma shl8_small a n : 0 <= n -> 0 <= a -> a * 2 ^ n < 256 -> shl8 a n = a * 2 ^ n.
Proof.
  intros. unfold shl8. change 0xFF with (Z.ones 8).
  rewrite Z.land_ones, Z.shiftl_mul_pow2 by lia. apply Z.mod_small. lia.
Qed.

Lemma shl8_lor a b n :
  0 <= n -> 0 <= a -> a * 2 ^ n < 256 -> 0 <= b < 2 ^ n ->
  Z.lor (shl8 a n) b = a * 2 ^ n + b.
Proof.
  intros. rewrite shl8_small, <- lor_shiftl_add, Z.shiftl_mul_pow2 by lia. done.
Qed.

Lemma land_mod a k : 0 <= k -> Z.land a (2 ^ k - 1) = a mod 2 ^ k.
Proof. intros. replace (2 ^ k - 1) with (Z.ones k); [by apply Z.land_ones|]. rewrite Z.ones_equiv. lia. Qed.
End bits.

(** Every sextet survives the alphabet. *)
Lemma table_val_spec i :
  0 <= i < 64 ->
  val (table_at i) = Ok i /\ table_at i <> PAD /\ 0 <= table_at i < 128.
Proof.
  intros Hi.
  assert (forall n, (n < 64)%nat ->
    val (table_at (Z.of_nat n)) = Ok (Z.of_nat n) /\
    table_at (Z.of_nat n) <> PAD /\ 0 <= table_at (Z.of_nat n) < 128) as H.
  { intros n Hn.
    do 64 (destruct n as [|n]; [vm_compute; split; [done|split; [done|split; congruence]]|]).
    lia. }
  specialize (H (Z.to_nat i)). rewrite Z2Nat.id in H by lia. apply H. lia.
Qed.

Lemma val_range c v : val c = Ok v -> 0 <= v < 64 /\ c <> PAD /\ 0 <= c < 128.
Proof.
  unfold val, in_range, PAD. intros H. repeat case_match; simplify_eq; reflect_bool; lia.
Qed.

(** The sextets of a byte triple, as arithmetic. *)
Lemma encode_sextets b0 b1 b2 :
  in_u8 b0 -> in_u8 b1 -> in_u8 b2 ->
  Z.shiftr b0 2 = b0 / 4 /\
  Z.lor (shl8 (Z.land b0 0x03) 4) (Z.shiftr b1 4) = (b0 mod 4) * 16 + b1 / 16 /\
  Z.lor (shl8 (Z.land b1 0x0F) 2) (Z.shiftr b2 6) = (b1 mod 16) * 4 + b2 / 64 /\
  Z.land b2 0x3F = b2 mod 64.
Proof.
  unfold in_u8, u8_max. intros.
  rewrite !Z.shiftr_div_pow2 by lia.
  pose proof (land_mod b0 2) as L0. pose proof (land_mod b1 4) as L1.
  pose proof (land_mod b2 6) as L2.
  change (2 ^ 2 - 1) with 0x03 in L0. change (2 ^ 4 - 1) with 0x0F in L1.
  change (2 ^ 6 - 1) with 0x3F in L2.
  rewrite L0, L1, L2 by lia.
  assert (0 <= b0 mod 4 < 4 /\ 0 <= b1 mod 16 < 16) by (split; apply Z.mod_pos_bound; lia).
  assert (0 <= b1 / 16 < 16 /\ 0 <= b2 / 64 < 4)
    by (split; (split; [apply Z.div_pos|apply Z.div_lt_upper_bound]); lia).
  change (2 ^ 2) with 4 in *. change (2 ^ 4) with 16 in *. change (2 ^ 6) with 64 in *.
  rewrite !shl8_lor by (change (2 ^ 4) with 16; change (2 ^ 2) with 4; lia).
  done.
Qed.

(** Packing the sextets back gives the bytes. *)
Lemma decode_octets v0 v1 v2 v3 :
  0 <= v0 < 64 -> 0 <= v1 < 64 -> 0 <= v2 < 64 -> 0 <= v3 < 64 ->
  Z.lor (shl8 v0 2) (Z.shiftr v1 4) = v0 * 4 + v1 / 16 /\
  Z.lor (shl8 (Z.land v1 0x0F) 4) (Z.shiftr v2 2) = (v1 mod 16) * 16 + v2 / 4 /\
  Z.lor (shl8 (Z.land v2 0x03) 6) v3 = (v2 mod 4) * 64 + v3.
Proof.
  intros. rewrite !Z.shiftr_div_pow2 by lia.
  pose proof (land_mod v1 4) as L1. pose proof (land_mod v2 2) as L2.
  change (2 ^ 4 - 1) with 0x0F in L1. change (2 ^ 2 - 1) with 0x03 in L2.
  rewrite L1, L2 by lia.
  assert (0 <= v1 mod 16 < 16 /\ 0 <= v2 mod 4 < 4) by (split; apply Z.mod_pos_bound; lia).
  assert (0 <= v1 / 16 < 4 /\ 0 <= v2 / 4 < 16)
    by (split; (split; [apply Z.div_pos|apply Z.div_lt_upper_bound]); lia).
  change (2 ^ 2) with 4 in *. change (2 ^ 4) with 16 in *.
  rewrite !shl8_lor by (change (2 ^ 4) with 16; change (2 ^ 2) with 4; change (2 ^ 6) with 64; lia).
  done.
Qed.

(** Collect [table_val_spec] for every alphabet lookup of the goal. *)
Ltac table_facts :=
  repeat match goal with
  | |- context [table_at ?i] =>
      lazymatch goal with
      | _ : val (table_at i) = _ |- _ => fail
      | _ => destruct (table_val_spec i) as (? & ? & ?); [Z.div_mod_to_equations; lia|]
      end
  end.

(** Evaluate [decode_chunk] on alphabet characters, down to byte arithmetic. *)
Ltac decode_table v0 v1 v2 v3 :=
  unfold decode_chunk; simpl;
  repeat match goal with H : val (table_at ?i) = _ |- _ => rewrite H; clear H; simpl end;
  let E0 := fresh in let E1 := fresh in let E2 := fresh in
  destruct (decode_octets v0 v1 v2 v3) as (E0 & E1 & E2);
  [Z.div_mod_to_equations; lia..|];
  rewrite ?E0, ?E1, ?E2; apply f_equal; repeat apply (f_equal2 cons); try done;
  Z.div_mod_to_equations; lia.

(** What the encoder emits for one chunk: characters without padding that
    decode back to the chunk, then the padding that completes the quad. *)
Lemma encode_chunk_spec chunk :
  Forall in_u8 chunk -> chunk <> [] -> (length chunk <= 3)%nat ->
  exists data,
    encode_chunk chunk = data ++ replicate (3 - length chunk) PAD /\
    length data = S (length chunk) /\
    Forall (fun c => c <> PAD /\ 0 <= c < 128) data /\
    decode_chunk data = Ok chunk.
Proof.
  intros Hb Hne Hlen.
  destruct chunk as [|b0 [|b1 [|b2 [|]]]]; simpl in Hlen; try done; try lia;
    decompose_Forall; unfold encode_chunk; simpl nth; simpl lookup.
  - destruct (encode_sextets b0 0 0) as (-> & -> & _ & _); try done.
    unfold in_u8, u8_max in *.
    eexists [_; _]. table_facts. split; [reflexivity|]. repeat split; auto 10.
    decode_table (b0 / 4) (b0 mod 4 * 16 + 0 / 16) 0 0.
  - destruct (encode_sextets b0 b1 0) as (-> & -> & -> & _); try done.
    unfold in_u8, u8_max in *.
    eexists [_; _; _]. table_facts. split; [reflexivity|]. repeat split; auto 10.
    decode_table (b0 / 4) (b0 mod 4 * 16 + b1 / 16) (b1 mod 16 * 4 + 0 / 64) 0.
  - destruct (encode_sextets b0 b1 b2) as (-> & -> & -> & ->); try done.
    unfold in_u8, u8_max in *.
    eexists [_; _; _; _]. table_facts. split; [reflexivity|]. repeat split; auto 10.
    decode_table (b0 / 4) (b0 mod 4 * 16 + b1 / 16) (b1 mod 16 * 4 + b2 / 64) (b2 mod 64).
Qed.

(** ** The whole encoder *)

Lemma encode_step l :
  l <> [] -> encode_standard_base64 l =
             encode_chunk (take 3 l) ++ encode_standard_base64 (drop 3 l).
Proof. intros. unfold encode_standard_base64. rewrite chunks_step by (done || lia). done. Qed.

Lemma decode_chunks_step data :
  data <> [] ->
  decode_chunks (chunks 4 data) =
  (let? out := decode_chunk (take 4 data) in
   let? rest := decode_chunks (chunks 4 (drop 4 data)) in Ok (out ++ rest)).
Proof. intros. rewrite chunks_step by (done || lia). done. Qed.

(** The padding a data length calls for. *)
Definition canonical_pad (n : nat) : nat := ((4 - n mod 4) mod 4)%nat.

Lemma encode_shape l :
  Forall in_u8 l ->
  exists data,
    encode_standard_base64 l = data ++ replicate (canonical_pad (length data)) PAD /\
    Forall (fun c => c <> PAD /\ 0 <= c < 128) data /\
    (length data mod 4 <> 1)%nat /\
    decode_chunks (chunks 4 data) = Ok l.
Proof.
  revert l. refine (chunks_ind 3 _ _ _ _); [lia | intros _; by exists [] |].
  intros l Hne IH Hl.
  destruct (encode_chunk_spec (take 3 l)) as (d & Hd & Hdl & Hdp & Hdd).
  { by apply Forall_take. }
  { destruct l; done. }
  { rewrite length_take. lia. }
  rewrite encode_step, Hd by done.
  destruct (decide (length l <= 2)%nat) as [Hs|Hs].
  - rewrite (drop_ge l 3) by lia. rewrite (take_ge l 3) in * by lia. exists d.
    assert (0 < length l)%nat by (destruct l; simpl; [done|lia]).
    rewrite app_nil_r. split_and!; [| done | |].
    + do 2 f_equal. unfold canonical_pad. rewrite Hdl. destruct (length l) as [|[|[|]]]; (done || lia).
    + rewrite Hdl. destruct (length l) as [|[|[|]]]; (done || lia).
    + rewrite decode_chunks_step by (destruct d; simpl in *; (done || lia)).
      rewrite (take_ge d 4), (drop_ge d 4), Hdd by lia. simpl. by rewrite app_nil_r.
  - destruct IH as (data & He & Hp & Hm & Hdec); [by apply Forall_drop|].
    rewrite He. rewrite length_take in *.
    replace (3 `min` length l)%nat with 3%nat in * by lia.
    replace (3 - 3)%nat with 0%nat by lia. exists (d ++ data). simpl replicate.
    rewrite app_nil_r, <- app_assoc.
    assert (length (d ++ data) mod 4 = length data mod 4)%nat as Hmod.
    { rewrite length_app, Hdl. replace (4 + length data)%nat with (length data + 1 * 4)%nat by lia.
      by rewrite Nat.Div0.mod_add. }
    split_and!; [by unfold canonical_pad; rewrite Hmod | by apply Forall_app | by rewrite Hmod |].
    rewrite decode_chunks_step by (destruct d; done).
    rewrite take_app_length', drop_app_length', Hdd, Hdec by lia.
    by rewrite take_drop.
Qed.

(** ** Padding *)

Lemma first_pad_app data k :
  Forall (fun c => c <> PAD /\ 0 <= c < 128) data ->
  first_pad (data ++ replicate (S k) PAD) = Some (length data).
Proof.
  induction 1 as [|c data [Hc _] _ IH]; [done|].
  cbn [app first_pad]. destruct (c =? PAD) eqn:E; [reflect_bool; done|]. by rewrite IH.
Qed.

Lemma first_pad_None data :
  Forall (fun c => c <> PAD /\ 0 <= c < 128) data -> first_pad data = None.
Proof.
  induction 1 as [|c data [Hc _] _ IH]; [done|].
  cbn [first_pad]. destruct (c =? PAD) eqn:E; [reflect_bool; done|]. by rewrite IH.
Qed.

Lemma strip_padding_canonical data :
  Forall (fun c => c <> PAD /\ 0 <= c < 128) data -> (length data mod 4 <> 1)%nat ->
  strip_padding (data ++ replicate (canonical_pad (length data)) PAD) = Ok data.
Proof.
  intros Hd Hm. unfold strip_padding.
  destruct (canonical_pad (length data)) as [|k] eqn:Ek.
  { simpl. by rewrite app_nil_r, first_pad_None. }
  rewrite first_pad_app by done.
  assert (length data mod 4 < 4)%nat by (apply Nat.mod_upper_bound; lia).
  assert (Z.of_nat (length data) mod 4 = Z.of_nat (length data mod 4)) as Hz
    by (by rewrite Nat2Z.inj_mod).
  unfold canonical_pad in Ek.
  destruct (length data =? 0)%nat eqn:E0; [apply Nat.eqb_eq in E0; by rewrite E0 in Ek|].
  rewrite drop_app_length, take_app_length.
  replace (existsb _ _) with false.
  2: { symmetry. clear. induction (S k) as [|n IH]; [done | exact IH]. }
  unfold zlen. rewrite length_app, length_replicate, Hz.
  replace (Z.of_nat (length data + S k) - Z.of_nat (length data)) with (Z.of_nat (S k)) by lia.
  destruct (length data mod 4)%nat as [|[|[|[|]]]]; try done; try lia;
    assert (k = 0 \/ k = 1)%nat as [-> | ->] by (simpl in Ek; lia); done.
Qed.

(** ** Which inputs decode *)

Definition is_alphabet (c : Z) : bool := is_ok (val c).

Lemma is_alphabet_val c : is_alphabet c = true -> exists v, val c = Ok v.
Proof. unfold is_alphabet. destruct (val c); eauto. done. Qed.

Lemma val_is_alphabet c v : val c = Ok v -> is_alphabet c = true.
Proof. unfold is_alphabet. by intros ->. Qed.

Lemma decode_chunk_total chunk :
  Forall (fun c => is_alphabet c = true) chunk -> (2 <= length chunk <= 4)%nat ->
  exists out, decode_chunk chunk = Ok out.
Proof.
  intros Hc Hl. destruct chunk as [|c0 [|c1 [|c2 [|c3 [|]]]]]; simpl in Hl; try lia;
    decompose_Forall; unfold decode_chunk; simpl;
    repeat match goal with H : is_alphabet _ = true |- _ =>
      apply is_alphabet_val in H as [? H]; rewrite H; clear H; simpl end; eauto.
Qed.

Lemma octet_bounds v0 v1 v2 v3 :
  0 <= v0 < 64 -> 0 <= v1 < 64 -> 0 <= v2 < 64 -> 0 <= v3 < 64 ->
  in_u8 (Z.lor (shl8 v0 2) (Z.shiftr v1 4)) /\
  in_u8 (Z.lor (shl8 (Z.land v1 0x0F) 4) (Z.shiftr v2 2)) /\
  in_u8 (Z.lor (shl8 (Z.land v2 0x03) 6) v3).
Proof.
  intros. destruct (decode_octets v0 v1 v2 v3) as (-> & -> & ->); [done..|].
  unfold in_u8, u8_max. Z.div_mod_to_equations. lia.
Qed.

Lemma decode_chunk_Ok chunk out :
  (1 <= length chunk <= 4)%nat -> decode_chunk chunk = Ok out ->
  Forall (fun c => is_alphabet c = true) chunk /\
  length chunk = S (length out) /\ length out <> 0%nat /\ Forall in_u8 out.
Proof.
  intros Hl. destruct chunk as [|c0 [|c1 [|c2 [|c3 [|]]]]]; simpl in Hl; try lia;
    unfold decode_chunk; simpl; intros H; repeat case_match; simplify_eq;
    repeat match goal with H : val ?c = Ok ?v |- _ =>
      pose proof (val_is_alphabet _ _ H); apply val_range in H as (? & _ & _) end;
    (split; [by repeat apply Forall_cons_2|split; [done|split; [done|]]]).
  - destruct (octet_bounds a a0 0 0); by repeat apply Forall_cons_2.
  - destruct (octet_bounds a a0 a1 0) as (? & ? & ?); by repeat apply Forall_cons_2.
  - destruct (octet_bounds a a0 a1 a2) as (? & ? & ?); by repeat apply Forall_cons_2.
Qed.

(** A data part decodes exactly when it is alphabetic and no quad holds a
    single character. *)
Lemma decode_chunks_iff data :
  (exists out, decode_chunks (chunks 4 data) = Ok out) <->
  Forall (fun c => is_alphabet c = true) data /\ (length data mod 4 <> 1)%nat.
Proof.
  revert data. refine (chunks_ind 4 _ _ _ _); [lia | naive_solver |].
  intros l Hne IH. rewrite decode_chunks_step by done.
  assert (Forall (fun c => is_alphabet c = true) l <->
          Forall (fun c => is_alphabet c = true) (take 4 l) /\
          Forall (fun c => is_alphabet c = true) (drop 4 l)) as ->
    by (by rewrite <- Forall_app, take_drop).
  assert (0 < length l)%nat by (destruct l; simpl; [done|lia]).
  assert (1 <= length (take 4 l) <= 4)%nat by (rewrite length_take; lia).
  assert (length l mod 4 <> 1 <->
          length (take 4 l) <> 1 /\ length (drop 4 l) mod 4 <> 1)%nat as ->.
  { rewrite length_take, length_drop. destruct (decide (4 <= length l)%nat).
    - rewrite Nat.min_l by lia. replace (length l) with (length l - 4 + 1 * 4)%nat at 1 by lia.
      rewrite Nat.Div0.mod_add. naive_solver.
    - rewrite Nat.min_r by lia. replace (length l - 4)%nat with 0%nat by lia.
      rewrite Nat.mod_small by lia. naive_solver. }
  split.
  - intros [out Hout]. destruct (decode_chunk (take 4 l)) as [o|] eqn:E; [|done].
    apply decode_chunk_Ok in E as (? & ? & ? & ?); [|done].
    destruct (decode_chunks (chunks 4 (drop 4 l))) eqn:E'; [|done].
    destruct (proj1 IH) as [? ?]; eauto with lia.
  - intros ([H1 H2] & H3 & H4). destruct (decode_chunk_total (take 4 l)) as [o ->]; [done|lia|].
    destruct (proj2 IH) as [out ->]; eauto.
Qed.

Lemma decode_chunks_out data out :
  decode_chunks (chunks 4 data) = Ok out ->
  Forall in_u8 out /\ length out = (length data * 3 / 4)%nat.
Proof.
  revert data out. refine (chunks_ind 4 _ _ _ _); [lia | intros ? [= <-]; by split |].
  intros l Hne IH out. rewrite decode_chunks_step by done.
  destruct (decode_chunk (take 4 l)) as [o|] eqn:E; [|done].
  destruct (decode_chunks _) as [r|] eqn:E'; [|done]. intros [= <-].
  assert (0 < length l)%nat by (destruct l; simpl; [done|lia]).
  apply decode_chunk_Ok in E as (_ & Ho & Ho' & Hb); [|rewrite length_take; lia].
  destruct (IH _ eq_refl) as [Hr Hrl]. split; [by apply Forall_app|].
  rewrite length_app, Hrl. rewrite length_take in Ho. rewrite length_drop.
  destruct (decide (4 <= length l)%nat).
  - rewrite Nat.min_l in Ho by lia.
    replace (length l * 3)%nat with ((length l - 4) * 3 + 3 * 4)%nat by lia.
    rewrite Nat.div_add by lia. lia.
  - rewrite Nat.min_r in Ho by lia. replace (length l - 4)%nat with 0%nat by lia.
    rewrite Ho. destruct (length o) as [|[|[|[|]]]]; simpl in *; (done || lia).
Qed.

(** The padding lengths the decoder tolerates after [n] data characters. *)
Definition pad_allowed (n k : nat) : bool :=
  match k with
  | O => true
  | 1%nat => negb (n =? 0)%nat && negb (n mod 4 =? 1)%nat
  | 2%nat => negb (n =? 0)%nat && ((n mod 4 =? 0)%nat || (n mod 4 =? 2)%nat)
  | _ => false
  end.

Lemma first_pad_Some bs i :
  first_pad bs = Some i ->
  (i < length bs)%nat /\ bs !! i = Some PAD /\ Forall (fun c => c <> PAD) (take i bs).
Proof.
  revert i. induction bs as [|c bs IH]; intros i; [done|]. cbn [first_pad].
  destruct (c =? PAD) eqn:E; reflect_bool.
  - intros [= <-]. subst. simpl. split_and!; [lia | done | apply Forall_nil_2].
  - intros (j & Hj & ->)%fmap_Some. apply IH in Hj as (? & ? & ?).
    simpl. split_and!; [lia | done | by apply Forall_cons_2].
Qed.

Lemma existsb_not_pad l :
  existsb (fun c => negb (c =? PAD)) l = false -> l = replicate (length l) PAD.
Proof.
  induction l as [|c l IH]; [done|]. cbn [existsb]. intros. reflect_bool. simpl. f_equal; auto.
Qed.

Lemma strip_padding_Ok bs data :
  strip_padding bs = Ok data ->
  exists k, bs = data ++ replicate k PAD /\ pad_allowed (length data) k = true.
Proof.
  unfold strip_padding. destruct (first_pad bs) as [i|] eqn:Ei.
  2: { intros [= <-]. exists O. by rewrite app_nil_r. }
  apply first_pad_Some in Ei as (Hi & _ & _).
  destruct (i =? 0)%nat eqn:E0; [done|]. destruct (existsb _ _) eqn:Ex; [done|].
  apply existsb_not_pad in Ex. rewrite length_drop in Ex. unfold zlen.
  destruct (negb _) eqn:Eok; [done|]. intros [= <-]. exists (length bs - i)%nat.
  split; [by rewrite <- Ex, take_drop|].
  apply Nat.eqb_neq in E0. rewrite length_take, Nat.min_l by lia. reflect_bool.
  replace (Z.of_nat i mod 4) with (Z.of_nat (i mod 4)) in Eok by (by rewrite Nat2Z.inj_mod).
  assert (i mod 4 < 4)%nat by (apply Nat.mod_upper_bound; lia).
  unfold pad_allowed. rewrite (proj2 (Nat.eqb_neq i 0) E0).
  destruct (length bs - i)%nat as [|[|[|k]]] eqn:Ek; [lia| | |];
    destruct (i mod 4)%nat as [|[|[|[|]]]]; try done; try lia;
    simpl in Eok; repeat rewrite ?orb_true_iff, ?Z.eqb_eq, ?Z.leb_le in Eok; lia.
Qed.

Lemma strip_padding_total data k :
  Forall (fun c => c <> PAD /\ 0 <= c < 128) data -> pad_allowed (length data) k = true ->
  strip_padding (data ++ replicate k PAD) = Ok data.
Proof.
  intros Hd Hp. unfold strip_padding. destruct k as [|k].
  { simpl. by rewrite app_nil_r, first_pad_None. }
  rewrite first_pad_app by done. rewrite drop_app_length, take_app_length.
  replace (existsb _ _) with false.
  2: { symmetry. clear. induction (S k) as [|n IH]; [done | exact IH]. }
  unfold zlen. rewrite length_app, length_replicate.
  replace (Z.of_nat (length data + S k) - Z.of_nat (length data)) with (Z.of_nat (S k)) by lia.
  replace (Z.of_nat (length data) mod 4) with (Z.of_nat (length data mod 4))
    by (by rewrite Nat2Z.inj_mod).
  assert (length data mod 4 < 4)%nat by (apply Nat.mod_upper_bound; lia).
  unfold pad_allowed in Hp.
  destruct (length data =? 0)%nat; [by destruct k as [|[|]]|].
  destruct k as [|[|]]; [| |done];
    destruct (length data mod 4)%nat as [|[|[|[|]]]]; (done || lia).
Qed.

(** ** Properties *)

(** Round trip: every byte string whose encoding fits the decoder's size
    limit decodes back to itself. *)
Theorem base64_roundtrip (bs : bytes) :
  Forall in_u8 bs ->
  str_len (encode_standard_base64 bs) <= MAX_STANDARD_BASE64_INPUT_BYTES ->
  decode_standard_base64 (encode_standard_base64 bs) = Ok bs.
Proof.
  intros Hb Hlen. destruct (encode_shape bs Hb) as (data & Henc & Hd & Hm & Hdec).
  unfold decode_standard_base64.
  rewrite (proj2 (Z.ltb_ge _ _) Hlen), as_bytes_ascii, Henc.
  - rewrite strip_padding_canonical by done. exact Hdec.
  - rewrite Henc. apply Forall_app. split.
    + eapply Forall_impl; [exact Hd|]. naive_solver.
    + apply Forall_replicate. unfold PAD. lia.
Qed.


(** The decoder accepts exactly the inputs within the size limit that are
    alphabet characters, no quad of which holds one character, followed by a
    tolerated run of [=]; on acceptance the output is octets, three per quad. *)
Theorem base64_decode_accepts (s : str) :
  (forall out, decode_standard_base64 s = Ok out ->
    exists data k,
      as_bytes s = data ++ replicate k PAD /\ pad_allowed (length data) k = true /\
      Forall (fun c => is_alphabet c = true) data /\ (length data mod 4 <> 1)%nat /\
      Forall in_u8 out /\ length out = (length data * 3 / 4)%nat) /\
  (forall data k,
    str_len s <= MAX_STANDARD_BASE64_INPUT_BYTES ->
    as_bytes s = data ++ replicate k PAD -> pad_allowed (length data) k = true ->
    Forall (fun c => is_alphabet c = true) data -> (length data mod 4 <> 1)%nat ->
    exists out, decode_standard_base64 s = Ok out).
Proof.
  unfold decode_standard_base64. split.
  - intros out H. destruct (_ <? _); [done|].
    destruct (strip_padding (as_bytes s)) as [data|] eqn:E; [|done].
    apply strip_padding_Ok in E as (k & -> & Hk).
    destruct (decode_chunks_out _ _ H) as [Ho Hl].
    destruct (proj1 (decode_chunks_iff data)) as [Ha Hm]; [eauto|].
    exists data, k. by split_and!.
  - intros data k Hlen Hs Hk Ha Hm. rewrite (proj2 (Z.ltb_ge _ _) Hlen), Hs.
    rewrite strip_padding_total; [by apply decode_chunks_iff | | done].
    eapply Forall_impl; [exact Ha|]. intros c [v Hv]%is_alphabet_val.
    apply val_range in Hv. naive_solver.
Qed.
