(* ===== verification/Evidence.v ===== *)
(** * Evidence verdicts ([crates/core/src/evidence.rs])

    The evidence tier of a finding, the reason code that determines it, the
    secret-safe provenance attached to it, the [stronger] combination used by
    deduplication, and the checked wire form of provenance and verdicts. *)

From S2P Require Import Prelude.

Inductive EvidenceTier := Review | Likely | Confirmed.

(** [self as u8], the order [derive(PartialOrd, Ord)] uses. *)
Definition tier_u8 (t : EvidenceTier) : Z :=
  match t with Review => 0 | Likely => 1 | Confirmed => 2 end.

Definition EvidenceTier_as_str (t : EvidenceTier) : str :=
  match t with
  | Review => $"review"
  | Likely => $"likely"
  | Confirmed => $"confirmed"
  end.

Definition tier_blocks (self : EvidenceTier) (paranoid : bool) : bool :=
  paranoid || negb (match self with Review => true | _ => false end).

Inductive EvidenceReasonCode :=
| Unattributed | UnsupportedContext | RequiredEvidenceMissing | WeakAnchor
| GenericDetector | GenericAssignment | EntropyOnly | TestFixture | Documentation
| RuleDefinition | Identifier | OptionDeclaration | GeneratedMaterial
| SourceRoleMismatch | VendorPattern | StructuralGrammar | RequiredCompanion
| ChecksumValid | LiveVerification.

Definition reason_u8 (r : EvidenceReasonCode) : Z :=
  match r with
  | Unattributed => 0 | UnsupportedContext => 1 | RequiredEvidenceMissing => 2
  | WeakAnchor => 3 | GenericDetector => 4 | GenericAssignment => 5 | EntropyOnly => 6
  | TestFixture => 7 | Documentation => 8 | RuleDefinition => 9 | Identifier => 10
  | OptionDeclaration => 11 | GeneratedMaterial => 12 | SourceRoleMismatch => 13
  | VendorPattern => 14 | StructuralGrammar => 15 | RequiredCompanion => 16
  | ChecksumValid => 17 | LiveVerification => 18
  end.

Definition reason_tier (r : EvidenceReasonCode) : EvidenceTier :=
  match r with
  | VendorPattern => Likely
  | StructuralGrammar | RequiredCompanion | ChecksumValid | LiveVerification => Confirmed
  | Unattributed | UnsupportedContext | RequiredEvidenceMissing | WeakAnchor
  | GenericDetector | GenericAssignment | EntropyOnly | TestFixture | Documentation
  | RuleDefinition | Identifier | OptionDeclaration | GeneratedMaterial
  | SourceRoleMismatch => Review
  end.

Definition EvidenceReasonCode_as_str (r : EvidenceReasonCode) : str :=
  match r with
  | Unattributed => $"unattributed"
  | UnsupportedContext => $"unsupported-context"
  | RequiredEvidenceMissing => $"required-evidence-missing"
  | WeakAnchor => $"weak-anchor"
  | GenericDetector => $"generic-detector"
  | GenericAssignment => $"generic-assignment"
  | EntropyOnly => $"entropy-only"
  | TestFixture => $"test-fixture"
  | Documentation => $"documentation"
  | RuleDefinition => $"rule-definition"
  | Identifier => $"identifier"
  | OptionDeclaration => $"option-declaration"
  | GeneratedMaterial => $"generated-material"
  | SourceRoleMismatch => $"source-role-mismatch"
  | VendorPattern => $"vendor-pattern"
  | StructuralGrammar => $"structural-grammar"
  | RequiredCompanion => $"required-companion"
  | ChecksumValid => $"checksum-valid"
  | LiveVerification => $"live-verification"
  end.

(** Constructors carry a prefix where Rust qualifies them by the enum. *)
Inductive FindingCandidateChannel :=
| ChPattern | ChGenericAssignment | ChEntropy | ChUnattributed.

Definition channel_u8 (c : FindingCandidateChannel) : Z :=
  match c with ChPattern => 0 | ChGenericAssignment => 1 | ChEntropy => 2 | ChUnattributed => 3 end.

Definition FindingCandidateChannel_as_str (c : FindingCandidateChannel) : str :=
  match c with
  | ChPattern => $"pattern"
  | ChGenericAssignment => $"generic-assignment"
  | ChEntropy => $"entropy"
  | ChUnattributed => $"unattributed"
  end.

(** [spec/semantic.rs]: the parsed source role. *)
Inductive SemanticSourceRole :=
| StructuredAssignmentValue | EnvironmentAssignmentValue | StringLiteral
| CommandArgumentValue | CommandOptionDeclaration | HeaderValue | UrlAuthorityUserinfo
| ConnectionString | StandaloneToken | PemBlock | RegexRuleDefinition
| IdentifierTypeMemberName | ProseDocumentation | RoleTestFixture
| GeneratedVendorMaterial | RoleUnknown.

Definition role_u8 (r : SemanticSourceRole) : Z :=
  match r with
  | StructuredAssignmentValue => 0 | EnvironmentAssignmentValue => 1 | StringLiteral => 2
  | CommandArgumentValue => 3 | CommandOptionDeclaration => 4 | HeaderValue => 5
  | UrlAuthorityUserinfo => 6 | ConnectionString => 7 | StandaloneToken => 8 | PemBlock => 9
  | RegexRuleDefinition => 10 | IdentifierTypeMemberName => 11 | ProseDocumentation => 12
  | RoleTestFixture => 13 | GeneratedVendorMaterial => 14 | RoleUnknown => 15
  end.

#[export] Instance EvidenceTier_eq_dec : EqDecision EvidenceTier.
Proof. solve_decision. Defined.
#[export] Instance EvidenceReasonCode_eq_dec : EqDecision EvidenceReasonCode.
Proof. solve_decision. Defined.
#[export] Instance FindingCandidateChannel_eq_dec : EqDecision FindingCandidateChannel.
Proof. solve_decision. Defined.
#[export] Instance SemanticSourceRole_eq_dec : EqDecision SemanticSourceRole.
Proof. solve_decision. Defined.

Record FindingProvenance := mkProvenance {
  detector_digest : Z;          (* u64 *)
  pattern_index : Z;            (* u32 *)
  candidate_channel : FindingCandidateChannel;
  source_role : SemanticSourceRole;
  context_class : EvidenceReasonCode }.

#[export] Instance FindingProvenance_eq_dec : EqDecision FindingProvenance.
Proof. solve_decision. Defined.

Definition PROVENANCE_SCHEMA_VERSION : Z := 1.

Definition has_scanner_context (c : EvidenceReasonCode) : bool :=
  negb (match c with Unattributed | LiveVerification => true | _ => false end).

Definition fields_are_consistent (self : FindingProvenance) : bool :=
  match candidate_channel self with
  | ChPattern | ChGenericAssignment | ChEntropy => has_scanner_context (context_class self)
  | ChUnattributed =>
      (detector_digest self =? 0) && (pattern_index self =? 0) &&
      bool_decide (source_role self = RoleUnknown) &&
      bool_decide (context_class self = Unattributed)
  end.

Definition prov_pattern (digest index : Z) (role : SemanticSourceRole)
    (ctx : EvidenceReasonCode) : FindingProvenance :=
  mkProvenance digest index ChPattern role ctx.

Definition prov_lane (digest : Z) (channel : FindingCandidateChannel)
    (role : SemanticSourceRole) (ctx : EvidenceReasonCode) : FindingProvenance :=
  mkProvenance digest 0 channel role ctx.

Definition prov_generic_assignment (digest : Z) (role : SemanticSourceRole)
    (ctx : EvidenceReasonCode) : FindingProvenance :=
  prov_lane digest ChGenericAssignment role ctx.

Definition prov_entropy (digest : Z) (role : SemanticSourceRole)
    (ctx : EvidenceReasonCode) : FindingProvenance :=
  prov_lane digest ChEntropy role ctx.

Definition prov_unattributed : FindingProvenance :=
  mkProvenance 0 0 ChUnattributed RoleUnknown Unattributed.

(** The public accessors hide the fields a channel does not own. *)
Definition get_detector_digest (self : FindingProvenance) : option Z :=
  match candidate_channel self with ChUnattributed => None | _ => Some (detector_digest self) end.

Definition get_pattern_index (self : FindingProvenance) : option Z :=
  match candidate_channel self with ChPattern => Some (pattern_index self) | _ => None end.

(** [derive(Ord)]: lexicographic in declaration order. *)
Definition provenance_cmp (x y : FindingProvenance) : comparison :=
  then_with (detector_digest x ?= detector_digest y)
  (then_with (pattern_index x ?= pattern_index y)
  (then_with (channel_u8 (candidate_channel x) ?= channel_u8 (candidate_channel y))
  (then_with (role_u8 (source_role x) ?= role_u8 (source_role y))
             (reason_u8 (context_class x) ?= reason_u8 (context_class y))))).

(** ** Wire form of provenance *)

Record WireProvenance := mkWireProvenance {
  w_schema_version : Z;
  w_detector_digest : option str;
  w_pattern_index : option Z;
  w_candidate_channel : FindingCandidateChannel;
  w_source_role : SemanticSourceRole;
  w_context_class : EvidenceReasonCode }.

Inductive ProvenanceError :=
| SerInconsistent                    (* serializer: fields inconsistent *)
| UnsupportedSchema (found : Z)
| BadDigest                          (* must be 16 lowercase hex digits *)
| DigestOverflow
| DeInconsistent.

Definition HEX : bytes := $"0123456789abcdef".

Definition digest_hex (digest : Z) : str :=
  map (fun index : nat =>
         nth (Z.to_nat (Z.land (Z.shiftr digest ((15 - Z.of_nat index) * 4)) 0x0f)) HEX 0)
      (seq 0 16).

Definition serialize_provenance (self : FindingProvenance) : result WireProvenance ProvenanceError :=
  if negb (fields_are_consistent self) then Err SerInconsistent
  else Ok (mkWireProvenance PROVENANCE_SCHEMA_VERSION
             (digest_hex <$> get_detector_digest self) (get_pattern_index self)
             (candidate_channel self) (source_role self) (context_class self)).

Definition parse_digest (digest : str) : result Z ProvenanceError :=
  if negb (str_len digest =? 16) ||
     negb (forallb (fun b => is_ascii_digit b || in_range 97 102 b) (as_bytes digest))
  then Err BadDigest
  else ok_or (from_str_radix 16 u64_max digest) DigestOverflow.

Definition deserialize_provenance (wire : WireProvenance) : result FindingProvenance ProvenanceError :=
  if negb (w_schema_version wire =? PROVENANCE_SCHEMA_VERSION)
  then Err (UnsupportedSchema (w_schema_version wire))
  else
    let? digest := match w_detector_digest wire with
                   | Some d => let? v := parse_digest d in Ok (Some v)
                   | None => Ok None
                   end in
    let scanner := has_scanner_context (w_context_class wire) in
    let some_d := match digest with Some _ => true | None => false end in
    let some_i := match w_pattern_index wire with Some _ => true | None => false end in
    let consistent :=
      match w_candidate_channel wire with
      | ChPattern => some_d && some_i && scanner
      | ChGenericAssignment | ChEntropy => some_d && negb some_i && scanner
      | ChUnattributed =>
          negb some_d && negb some_i &&
          bool_decide (w_source_role wire = RoleUnknown) &&
          bool_decide (w_context_class wire = Unattributed)
      end in
    if negb consistent then Err DeInconsistent
    else Ok (mkProvenance (default 0 digest) (default 0 (w_pattern_index wire))
               (w_candidate_channel wire) (w_source_role wire) (w_context_class wire)).

#[local] Arguments digest_hex : simpl never.
#[local] Arguments parse_digest : simpl never.

(** ** Verdicts *)

Record EvidenceVerdict := mkVerdict {
  reason_code : EvidenceReasonCode;
  provenance : FindingProvenance }.

#[export] Instance EvidenceVerdict_eq_dec : EqDecision EvidenceVerdict.
Proof. solve_decision. Defined.

Definition from_reason (r : EvidenceReasonCode) : EvidenceVerdict := mkVerdict r prov_unattributed.
Definition review_unattributed : EvidenceVerdict := from_reason Unattributed.
Definition with_provenance (self : EvidenceVerdict) (p : FindingProvenance) : EvidenceVerdict :=
  mkVerdict (reason_code self) p.
Definition with_reason (self : EvidenceVerdict) (r : EvidenceReasonCode) : EvidenceVerdict :=
  mkVerdict r (provenance self).
Definition verdict_tier (self : EvidenceVerdict) : EvidenceTier := reason_tier (reason_code self).

Definition attributed (p : FindingProvenance) : bool :=
  negb (match candidate_channel p with ChUnattributed => true | _ => false end).

Definition stronger (self other : EvidenceVerdict) : EvidenceVerdict :=
  let self_tier := tier_u8 (verdict_tier self) in
  let other_tier := tier_u8 (verdict_tier other) in
  let same_reason := (other_tier =? self_tier) &&
                     bool_decide (reason_code other = reason_code self) in
  let self_attributed := attributed (provenance self) in
  let other_attributed := attributed (provenance other) in
  if (self_tier <? other_tier)
     || ((other_tier =? self_tier) &&
         (reason_u8 (reason_code self) <? reason_u8 (reason_code other)))
     || (same_reason && other_attributed && negb self_attributed)
     || (same_reason && eqb other_attributed self_attributed &&
         match provenance_cmp (provenance other) (provenance self) with Gt => true | _ => false end)
  then other else self.

(** The wire form repeats the derived tier; the reader checks it. *)
Record WireVerdict := mkWireVerdict {
  w_tier : EvidenceTier;
  w_reason_code : EvidenceReasonCode;
  w_provenance : WireProvenance }.

Inductive VerdictError :=
| ProvenanceErr (e : ProvenanceError)
| TierMismatch (t : EvidenceTier) (r : EvidenceReasonCode).

Definition map_err {A E F} (f : E -> F) (r : result A E) : result A F :=
  match r with Ok a => Ok a | Err e => Err (f e) end.

Definition serialize_verdict (self : EvidenceVerdict) : result WireVerdict VerdictError :=
  let? p := map_err ProvenanceErr (serialize_provenance (provenance self)) in
  Ok (mkWireVerdict (verdict_tier self) (reason_code self) p).

Definition deserialize_verdict (wire : WireVerdict) : result EvidenceVerdict VerdictError :=
  let? p := map_err ProvenanceErr (deserialize_provenance (w_provenance wire)) in
  let verdict := with_provenance (from_reason (w_reason_code wire)) p in
  if negb (bool_decide (verdict_tier verdict = w_tier wire))
  then Err (TierMismatch (w_tier wire) (w_reason_code wire))
  else Ok verdict.

(** ** Orders *)

Lemma reason_u8_inj r s : reason_u8 r = reason_u8 s -> r = s.
Proof. by destruct r, s. Qed.
Lemma channel_u8_inj r s : channel_u8 r = channel_u8 s -> r = s.
Proof. by destruct r, s. Qed.
Lemma role_u8_inj r s : role_u8 r = role_u8 s -> r = s.
Proof. by destruct r, s. Qed.

#[export] Instance provenance_cmp_laws : CmpLaws provenance_cmp.
Proof. change (CmpLaws (fun x y => provenance_cmp x y)). unfold provenance_cmp. solve_cmp_laws. Qed.

#[export] Instance provenance_cmp_eq : CmpEq provenance_cmp.
Proof.
  intros x y. unfold provenance_cmp. rewrite !then_with_Eq, !Z.compare_eq_iff.
  split; [|by intros ->]. destruct x, y; simpl.
  intros (-> & -> & H1%channel_u8_inj & H2%role_u8_inj & H3%reason_u8_inj). by subst.
Qed.

(** The order [stronger] maximises: tier, reason, attribution, provenance. *)
Definition verdict_cmp (x y : EvidenceVerdict) : comparison :=
  then_with (tier_u8 (verdict_tier x) ?= tier_u8 (verdict_tier y))
  (then_with (reason_u8 (reason_code x) ?= reason_u8 (reason_code y))
  (then_with (Z.b2z (attributed (provenance x)) ?= Z.b2z (attributed (provenance y)))
             (provenance_cmp (provenance x) (provenance y)))).

#[export] Instance verdict_cmp_laws : CmpLaws verdict_cmp.
Proof. change (CmpLaws (fun x y => verdict_cmp x y)). unfold verdict_cmp. solve_cmp_laws. Qed.

#[export] Instance verdict_cmp_eq : CmpEq verdict_cmp.
Proof.
  intros [rx px] [ry py]. unfold verdict_cmp. rewrite !then_with_Eq, (cmp_eq provenance_cmp).
  simpl. rewrite !Z.compare_eq_iff. split; [|by intros [= -> ->]].
  intros (_ & Hr & _ & ->). by apply reason_u8_inj in Hr as ->.
Qed.

Lemma stronger_max x y :
  stronger x y = match verdict_cmp y x with Gt => y | _ => x end.
Proof.
  unfold stronger, verdict_cmp.
  destruct (Z.compare_spec (tier_u8 (verdict_tier y)) (tier_u8 (verdict_tier x))) as [Ht|Ht|Ht].
  - rewrite Ht, Z.ltb_irrefl, Z.eqb_refl. simpl.
    destruct (Z.compare_spec (reason_u8 (reason_code y)) (reason_u8 (reason_code x))) as [Hr|Hr|Hr]; simpl.
    + apply reason_u8_inj in Hr. rewrite Hr, Z.ltb_irrefl, bool_decide_eq_true_2 by done.
      by destruct (attributed _), (attributed _), (provenance_cmp _ _).
    + rewrite bool_decide_eq_false_2 by (intros E; rewrite E in Hr; lia).
      by rewrite (proj2 (Z.ltb_ge _ _)) by lia.
    + by rewrite (proj2 (Z.ltb_lt _ _) Hr).
  - rewrite (proj2 (Z.ltb_ge _ _)), (proj2 (Z.eqb_neq _ _)) by lia. done.
  - rewrite (proj2 (Z.ltb_lt _ _) Ht). done.
Qed.

(** Maximum of a total order, for any comparator. *)
Section cmp_max.
Context {A : Type} (cmp : A -> A -> comparison) `{!CmpLaws cmp, !CmpEq cmp}.
Definition cmp_max (x y : A) : A := match cmp y x with Gt => y | _ => x end.

Lemma cmp_max_comm x y : cmp_max x y = cmp_max y x.
Proof.
  unfold cmp_max. rewrite (cmp_sym cmp x y).
  destruct (cmp x y) eqn:E; simpl; [|done..]. by apply (cmp_eq cmp) in E.
Qed.

Lemma cmp_max_assoc x y z : cmp_max x (cmp_max y z) = cmp_max (cmp_max x y) z.
Proof.
  assert (cmp z y <> Gt -> cmp y x <> Gt -> cmp z x <> Gt) as Hle by apply (cmp_trans _).
  assert (cmp z y = Gt -> cmp y x = Gt -> cmp z x = Gt) as Hgt.
  { rewrite (cmp_sym cmp y z), (cmp_sym cmp x y), (cmp_sym cmp x z), !CompOpp_iff.
    intros Hyz Hxy. by apply (cmp_Lt_trans cmp x y z); [|rewrite Hyz]. }
  unfold cmp_max. destruct (cmp z y) eqn:Ezy, (cmp y x) eqn:Eyx; rewrite ?Ezy, ?Eyx; try done;
    try (rewrite Hgt; done); destruct (cmp z x); naive_solver.
Qed.
End cmp_max.

(** ** The hexadecimal digest *)

(** [digest_hex] for [n] digits. *)
Definition hex_digits (n : nat) (d : Z) : str :=
  map (fun i : nat =>
         nth (Z.to_nat (Z.land (Z.shiftr d ((Z.of_nat n - 1 - Z.of_nat i) * 4)) 0x0f)) HEX 0)
      (seq 0 n).

Lemma hex_digits_S n d :
  hex_digits (S n) d =
  nth (Z.to_nat (Z.land (Z.shiftr d (Z.of_nat n * 4)) 0x0f)) HEX 0 :: hex_digits n d.
Proof.
  unfold hex_digits. cbn [seq map]. f_equal.
  - do 4 f_equal. lia.
  - rewrite <- seq_shift, map_map. apply map_ext. intros i. do 4 f_equal. lia.
Qed.

Lemma hex_char_value v :
  0 <= v < 16 ->
  let c := nth (Z.to_nat v) HEX 0 in
  to_digit 16 c = Some v /\ (is_ascii_digit c || in_range 97 102 c) = true /\ 0 <= c < 128.
Proof.
  intros Hv.
  assert (forall n, (n < 16)%nat -> let c := nth n HEX 0 in
    to_digit 16 c = Some (Z.of_nat n) /\ (is_ascii_digit c || in_range 97 102 c) = true /\
    0 <= c < 128) as H.
  { intros n Hn. do 16 (destruct n as [|n]; [vm_compute; repeat split; congruence|]). lia. }
  specialize (H (Z.to_nat v)). rewrite Z2Nat.id in H by lia. apply H. lia.
Qed.

Lemma land_0f v : Z.land v 0x0f = v mod 16.
Proof. change 0x0f with (Z.ones 4). by rewrite Z.land_ones. Qed.

Lemma hex_digits_class n d :
  length (hex_digits n d) = n /\
  Forall (fun c => (is_ascii_digit c || in_range 97 102 c) = true /\ 0 <= c < 128) (hex_digits n d).
Proof.
  induction n as [|n [IHl IHf]]; [done|]. rewrite hex_digits_S. split; [simpl; lia|].
  apply Forall_cons_2; [|done]. rewrite land_0f.
  apply (hex_char_value (Z.shiftr d (Z.of_nat n * 4) mod 16)), Z.mod_pos_bound. lia.
Qed.

Lemma radix_acc_hex mx n d acc :
  0 <= acc -> acc * 16 ^ Z.of_nat n + d mod 16 ^ Z.of_nat n <= mx ->
  radix_acc 16 mx acc (hex_digits n d) = Some (acc * 16 ^ Z.of_nat n + d mod 16 ^ Z.of_nat n).
Proof.
  revert acc. induction n as [|n IH]; intros acc Ha Hmx.
  { simpl. rewrite Z.mod_1_r. f_equal. lia. }
  rewrite hex_digits_S. cbn [radix_acc].
  set (v := Z.land _ _). assert (v = d / 16 ^ Z.of_nat n mod 16) as Hv.
  { unfold v. rewrite land_0f, Z.shiftr_div_pow2 by lia. do 2 f_equal.
    rewrite Z.mul_comm, Z.pow_mul_r by lia. done. }
  assert (0 <= v < 16) as Hr by (rewrite Hv; apply Z.mod_pos_bound; lia).
  destruct (hex_char_value v Hr) as (-> & _ & _).
  set (P := 16 ^ Z.of_nat n) in *. assert (0 < P) by (apply Z.pow_pos_nonneg; lia).
  assert (16 ^ Z.of_nat (S n) = 16 * P) as HS by (rewrite Nat2Z.inj_succ, Z.pow_succ_r; lia).
  assert (d mod (16 * P) = v * P + d mod P) as Hd.
  { rewrite Hv, (Z.mul_comm 16), Z.rem_mul_r by lia. lia. }
  rewrite HS, Hd in Hmx |- *. assert (0 <= d mod P) by (apply Z.mod_pos_bound; lia).
  assert (acc * 16 + v <= mx) by nia.
  rewrite (proj2 (Z.leb_le _ _)) by done. rewrite IH by nia. f_equal. nia.
Qed.

Lemma radix_acc_digit_head mx c s :
  (is_ascii_digit c || in_range 97 102 c) = true ->
  from_str_radix 16 mx (c :: s) = radix_acc 16 mx 0 (c :: s).
Proof.
  intros Hc. unfold from_str_radix.
  assert (c <> 43) by (intros ->; discriminate).
  destruct c as [|p|p]; [done| |done]. do 6 (destruct p as [p|p|]; try done).
Qed.

Lemma parse_digest_hex d : in_u64 d -> parse_digest (digest_hex d) = Ok d.
Proof.
  unfold in_u64, u64_max. intros Hd. change (digest_hex d) with (hex_digits 16 d).
  destruct (hex_digits_class 16 d) as [Hl Hf]. unfold parse_digest, str_len, zlen.
  rewrite as_bytes_ascii by (eapply Forall_impl; [exact Hf|]; naive_solver).
  rewrite Hl. simpl (negb (_ =? _)). cbn [orb].
  replace (forallb _ _) with true.
  2: { symmetry. apply forallb_forall. rewrite Forall_forall in Hf.
       intros c Hc. by apply Hf, list_elem_of_In. }
  assert (from_str_radix 16 u64_max (hex_digits 16 d) = Some d) as ->; [|done].
  rewrite (hex_digits_S 15), radix_acc_digit_head, <- (hex_digits_S 15).
  - rewrite radix_acc_hex by (unfold u64_max; rewrite ?Z.mod_small; lia).
    rewrite Z.mod_small by lia. done.
  - rewrite (hex_digits_S 15) in Hf. by apply Forall_inv in Hf as [? _].
Qed.

(** ** Properties *)

(** The values the constructors of the module can build. *)
Definition constructible (p : FindingProvenance) : Prop :=
  (exists d i r c, in_u64 d /\ in_u32 i /\ p = prov_pattern d i r c) \/
  (exists d r c, in_u64 d /\ p = prov_generic_assignment d r c) \/
  (exists d r c, in_u64 d /\ p = prov_entropy d r c) \/
  p = prov_unattributed.

Lemma provenance_wire_roundtrip p w :
  constructible p -> serialize_provenance p = Ok w -> deserialize_provenance w = Ok p.
Proof.
  unfold serialize_provenance. destruct (fields_are_consistent p) eqn:Hf; [|done].
  cbn [negb]. intros Hc [= <-]. unfold deserialize_provenance.
  destruct Hc as [(d & i & ro & c & Hd & _ & ->)|[(d & ro & c & Hd & ->)|[(d & ro & c & Hd & ->)| ->]]];
    cbn -[parse_digest digest_hex has_scanner_context] in Hf |- *;
    try rewrite (parse_digest_hex d Hd); cbn -[has_scanner_context]; by rewrite ?Hf.
Qed.

(** Verdict wire round trip: whatever the module constructs and the
    serializer accepts reads back as the same verdict, and the serializer
    rejects exactly the inconsistent provenances. *)
Theorem verdict_wire_roundtrip (v : EvidenceVerdict) :
  constructible (provenance v) ->
  match serialize_verdict v with
  | Ok w => fields_are_consistent (provenance v) = true /\ deserialize_verdict w = Ok v
  | Err e => e = ProvenanceErr SerInconsistent /\ fields_are_consistent (provenance v) = false
  end.
Proof.
  destruct v as [r p]. cbn [provenance]. intros Hc. unfold serialize_verdict. cbn [provenance].
  destruct (serialize_provenance p) as [w|e] eqn:E; cbn [map_err].
  - split.
    + unfold serialize_provenance in E. by destruct (fields_are_consistent p).
    + unfold deserialize_verdict. cbn [w_provenance w_reason_code w_tier].
      rewrite (provenance_wire_roundtrip p w Hc E). cbn. by rewrite bool_decide_eq_true_2.
  - unfold serialize_provenance in E. destruct (fields_are_consistent p); naive_solver.
Qed.


(** [stronger] is the join of a total order on verdicts, hence idempotent,
    commutative and associative: the verdict a group of duplicate findings
    ends with does not depend on the order they are folded in, and its tier is
    the highest of the two. *)
Theorem stronger_semilattice (x y z : EvidenceVerdict) :
  stronger x x = x /\ stronger x y = stronger y x /\
  stronger x (stronger y z) = stronger (stronger x y) z /\
  tier_u8 (verdict_tier (stronger x y)) =
    Z.max (tier_u8 (verdict_tier x)) (tier_u8 (verdict_tier y)).
Proof.
  assert (forall a b, stronger a b = cmp_max verdict_cmp a b) as Hs by apply stronger_max.
  split_and!.
  - rewrite Hs. unfold cmp_max. by rewrite (cmp_refl verdict_cmp).
  - rewrite !Hs. apply cmp_max_comm; apply _.
  - rewrite !Hs. apply cmp_max_assoc; apply _.
  - rewrite stronger_max. unfold verdict_cmp.
    destruct (Z.compare_spec (tier_u8 (verdict_tier y)) (tier_u8 (verdict_tier x)));
      simpl; cases; lia.
Qed.
