(* ===== verification/Float64.v ===== *)
(** * IEEE 754 binary64 values

    A Rust [f64] is its 64-bit pattern, a [Z] in [0, 2^64).  [total_cmp] is the
    bit-level order the standard library defines; the numeric operations used
    by the sources are given on the decoded value. *)

From Stdlib Require Import SpecFloat.
From S2P Require Import Prelude.

Abbreviation f64 := Z (only parsing).

Definition in_f64 (x : f64) : Prop := in_u64 x.

Definition f64_sign (x : f64) : bool := 2 ^ 63 <=? x.
Definition f64_exp (x : f64) : Z := Z.land (Z.shiftr x 52) 0x7FF.
Definition f64_mant (x : f64) : Z := Z.land x (2 ^ 52 - 1).

Definition is_nan (x : f64) : bool := (f64_exp x =? 0x7FF) && negb (f64_mant x =? 0).
Definition is_finite (x : f64) : bool := negb (f64_exp x =? 0x7FF).
Definition is_zero_f64 (x : f64) : bool := (f64_exp x =? 0) && (f64_mant x =? 0).

(** The key [f64::total_cmp] compares: the bits as a two's complement integer,
    with the magnitude bits of negative values flipped. *)
Definition total_key (x : f64) : Z :=
  if x <? 2 ^ 63 then x else - (x - 2 ^ 63) - 1.

Definition total_cmp (x y : f64) : comparison := total_key x ?= total_key y.

(** [x < y] of IEEE 754: false on NaN, and both zeros are equal. *)
Definition f64_lt (x y : f64) : bool :=
  if is_nan x || is_nan y then false
  else if is_zero_f64 x && is_zero_f64 y then false
  else match total_cmp x y with Lt => true | _ => false end.

(** [f64::max]: the other operand when one is NaN. *)
Definition f64_max (x y : f64) : f64 :=
  if is_nan x then y else if is_nan y then x else if f64_lt x y then y else x.

Lemma total_key_inj x y : in_f64 x -> in_f64 y -> total_key x = total_key y -> x = y.
Proof.
  unfold in_f64, in_u64, u64_max, total_key. intros.
  destruct (x <? 2 ^ 63) eqn:?, (y <? 2 ^ 63) eqn:?; reflect_bool; lia.
Qed.

#[export] Instance total_cmp_laws : CmpLaws total_cmp.
Proof. change (CmpLaws (fun x y => total_cmp x y)). unfold total_cmp. solve_cmp_laws. Qed.

Lemma total_cmp_Eq x y : in_f64 x -> in_f64 y -> total_cmp x y = Eq <-> x = y.
Proof.
  intros. unfold total_cmp. rewrite Z.compare_eq_iff. split; [|by intros ->].
  by apply total_key_inj.
Qed.

(** Some constants: 0.0, 0.5, 1.0. *)
Definition f64_zero : f64 := 0.
Definition f64_half : f64 := 0x3FE0000000000000.
Definition f64_one : f64 := 0x3FF0000000000000.

(** ** Arithmetic

    Rounded to nearest even on the decoded value, as [SpecFloat] defines it;
    every NaN result is the canonical one. *)

Definition to_spec (x : f64) : spec_float :=
  let e := f64_exp x in
  let m := f64_mant x in
  if e =? 0x7FF then (if m =? 0 then S754_infinity (f64_sign x) else S754_nan)
  else if e =? 0 then
    match m with Zpos p => S754_finite (f64_sign x) p (-1074) | _ => S754_zero (f64_sign x) end
  else match m + 2 ^ 52 with Zpos p => S754_finite (f64_sign x) p (e - 1075) | _ => S754_nan end.

Definition sign_bit (s : bool) : Z := if s then 2 ^ 63 else 0.

Definition of_spec (x : spec_float) : f64 :=
  match x with
  | S754_zero s => sign_bit s
  | S754_infinity s => sign_bit s + 0x7FF * 2 ^ 52
  | S754_nan => 0x7FF8000000000000
  | S754_finite s m e =>
      if Zpos m <? 2 ^ 52 then sign_bit s + Zpos m else sign_bit s + (e + 1075) * 2 ^ 52 + (Zpos m - 2 ^ 52)
  end.

Definition f64_add (x y : f64) : f64 := of_spec (SFadd 53 1024 (to_spec x) (to_spec y)).
Definition f64_sub (x y : f64) : f64 := of_spec (SFsub 53 1024 (to_spec x) (to_spec y)).
Definition f64_mul (x y : f64) : f64 := of_spec (SFmul 53 1024 (to_spec x) (to_spec y)).
Definition f64_div (x y : f64) : f64 := of_spec (SFdiv 53 1024 (to_spec x) (to_spec y)).
Definition f64_abs (x : f64) : f64 := if f64_sign x then x - 2 ^ 63 else x.

(** [n as f64] *)
Definition f64_of_int (n : Z) : f64 := of_spec (binary_normalize 53 1024 n 0 false).

Example f64_arithmetic_examples :
  f64_add 0x3FB999999999999A 0x3FC999999999999A = 0x3FD3333333333334 /\
  f64_mul 0x4059000000000000 0x3F847AE147AE147B = f64_one /\ f64_div f64_one 0x4000000000000000 = f64_half /\
  f64_of_int (-3) = 0xC008000000000000.
Proof. repeat split; by_eval. Qed.
