(* ===== verification/Float64Round.v ===== *)
(** * Rounding of binary64 subtraction

    What [f64] subtraction computes, from the definition of rounding to nearest
    even: the difference of two priorities is below the tie margin exactly when the
    exact difference is at most a fixed bound.  The order of the bit patterns is the
    order of the values, so ties are convex along it. *)

From Stdlib Require Import SpecFloat.
From S2P Require Import Prelude Float64.

(** ** Digits *)

Lemma digits2_bound p : 2 ^ (Zpos (digits2_pos p) - 1) <= Zpos p < 2 ^ Zpos (digits2_pos p).
Proof.
  induction p as [p IH|p IH|]; cbn [digits2_pos]; [| |done];
    rewrite Pos2Z.inj_succ; replace (Z.succ (Zpos (digits2_pos p)) - 1) with (Zpos (digits2_pos p)) by lia;
    rewrite Z.pow_succ_r by lia; assert (2 ^ Zpos (digits2_pos p) = 2 * 2 ^ (Zpos (digits2_pos p) - 1)) as Heq
      by (rewrite <- Z.pow_succ_r by lia; f_equal; lia); lia.
Qed.

Lemma digits2_unique p d : 0 < d -> 2 ^ (d - 1) <= Zpos p < 2 ^ d -> Zpos (digits2_pos p) = d.
Proof.
  intros Hd Hp. pose proof (digits2_bound p) as Hb. destruct (Z.lt_trichotomy (Zpos (digits2_pos p)) d) as [Hlt|[?|Hgt]]; [|done|].
  - assert (2 ^ Zpos (digits2_pos p) <= 2 ^ (d - 1)) by (apply Z.pow_le_mono_r; lia). lia.
  - assert (2 ^ d <= 2 ^ (Zpos (digits2_pos p) - 1)) by (apply Z.pow_le_mono_r; lia). lia.
Qed.

(** ** Shifting right with the lost bits *)

Lemma iter_pos_nat {A} (f : A -> A) p x : SpecFloat.iter_pos f p x = Nat.iter (Pos.to_nat p) f x.
Proof.
  revert x. induction p as [p IH|p IH|]; intros x; cbn [SpecFloat.iter_pos].
  - rewrite !IH, <- Nat.iter_add, <- Nat.iter_succ_r. f_equal. lia.
  - rewrite !IH, <- Nat.iter_add. f_equal. lia.
  - done.
Qed.

(** [m] is [q] units of [2^k] and a rest that [r] and [s] describe. *)
Definition shifted (m : Z) (k : nat) (x : shr_record) : Prop :=
  exists rest, m = shr_m x * 2 ^ Z.of_nat k + rest /\ 0 <= rest < 2 ^ Z.of_nat k /\ 0 <= shr_m x /\
    match shr_r x, shr_s x with
    | false, false => rest = 0
    | false, true => 0 < 2 * rest < 2 ^ Z.of_nat k
    | true, false => 2 * rest = 2 ^ Z.of_nat k
    | true, true => 2 ^ Z.of_nat k < 2 * rest
    end.

Lemma shr_1_spec q r s : 0 <= q ->
  exists q' b, shr_1 {| shr_m := q; shr_r := r; shr_s := s |} = {| shr_m := q'; shr_r := b; shr_s := r || s |} /\ 0 <= q' /\ q = 2 * q' + Z.b2z b.
Proof. intros Hq. destruct q as [|[p|p|]|p]; [| | | |lia]; eexists _, _; (split; [reflexivity|]); cbn [Z.b2z]; lia. Qed.

Lemma shr_1_shifted m k x : shifted m k x -> shifted m (S k) (shr_1 x).
Proof.
  destruct x as [q r s]. intros (rest & -> & Hr & Hq & Hl). cbn [shr_m shr_r shr_s] in *.
  destruct (shr_1_spec q r s Hq) as (q' & b & -> & Hq' & ->).
  exists (Z.b2z b * 2 ^ Z.of_nat k + rest). cbn [shr_m shr_r shr_s]. rewrite Nat2Z.inj_succ, Z.pow_succ_r by lia.
  split_and!; [lia|destruct b; cbn [Z.b2z]; lia|destruct b; cbn [Z.b2z]; lia|done|]. destruct b, r, s; cbn [orb Z.b2z] in *; lia.
Qed.

Lemma shr_iter_shifted m k : 0 <= m -> shifted m k (Nat.iter k shr_1 {| shr_m := m; shr_r := false; shr_s := false |}).
Proof.
  intros Hm. induction k as [|k IH]; [|by apply shr_1_shifted]. exists 0. cbn. lia.
Qed.

(** [M] is the integer nearest to [m / K], the even one of two. *)
Definition nearest (m K M : Z) : Prop :=
  2 * m - K <= 2 * M * K <= 2 * m + K /\ (2 * M * K = 2 * m - K \/ 2 * M * K = 2 * m + K -> Z.even M = true).

Lemma round_nearest m k x : shifted m k x ->
  nearest m (2 ^ Z.of_nat k) (round_nearest_even (shr_m x) (loc_of_shr_record x)) /\
  shr_m x <= round_nearest_even (shr_m x) (loc_of_shr_record x) <= shr_m x + 1.
Proof.
  destruct x as [q r s]. intros (rest & -> & Hr & Hq & Hl). cbn [shr_m shr_r shr_s] in *. unfold nearest.
  assert (0 < 2 ^ Z.of_nat k) by lia. set (K := 2 ^ Z.of_nat k) in *.
  destruct r, s; cbn [loc_of_shr_record round_nearest_even]; [| |split; [split; [lia|lia]|lia]..].
  - split; [split; [lia|lia]|lia].
  - destruct (Z.even q) eqn:Eq; [split; [split; [lia|done]|lia]|]. split; [split; [lia|]|lia]. intros _.
    rewrite Z.even_add, Eq. done.
Qed.

(** ** Rounding a value to 53 bits *)

(** The exponent of the last place of [p * 2^e] in binary64. *)
Definition last_place (p : positive) (e : Z) : Z := Z.max (Zpos (digits2_pos p) + e - 53) (-1074).

Lemma fexp_last_place p e : fexp 53 1024 (Zpos (digits2_pos p) + e) = last_place p e.
Proof. reflexivity. Qed.

Definition finite_or_inf (s : bool) (m : positive) (e : Z) : spec_float := if e <=? 971 then S754_finite s m e else S754_infinity s.

(** A mantissa that fills 53 bits, or fewer at the least exponent. *)
Definition canonical (m : positive) (e : Z) : Prop := Zpos m < 2 ^ 53 /\ -1074 <= e /\ (Zpos m < 2 ^ 52 -> e = -1074).

Lemma canonical_last_place m e : canonical m e -> last_place m e = e.
Proof.
  intros (Hm & He & Hsub). unfold last_place. pose proof (digits2_bound m) as [Hlo Hhi].
  assert (Zpos (digits2_pos m) <= 53).
  { apply Z.le_ngt. intros Hgt. assert (2 ^ 53 <= 2 ^ (Zpos (digits2_pos m) - 1)) by (apply Z.pow_le_mono_r; lia). lia. }
  destruct (Z_lt_ge_dec (Zpos m) (2 ^ 52)) as [Hlt|Hge]; [specialize (Hsub Hlt); lia|].
  rewrite (digits2_unique m 53) in *; lia.
Qed.

(** Rounding a mantissa that is canonical, or a power of two one too long. *)
Lemma round_aux_exact s m e : canonical m e -> binary_round_aux 53 1024 s (Zpos m) e loc_Exact = finite_or_inf s m e.
Proof.
  intros Hc. unfold binary_round_aux, shr_fexp. cbn [Zdigits2]. rewrite fexp_last_place, canonical_last_place, Z.sub_diag by done.
  cbn [shr shr_record_of_loc shr_m loc_of_shr_record round_nearest_even Zdigits2].
  by rewrite fexp_last_place, canonical_last_place, Z.sub_diag by done.
Qed.

Lemma aligned_value m e e' : e' <= e -> Zpos (fst (shl_align m e e')) = Zpos m * 2 ^ (e - e').
Proof.
  intros Hle. unfold shl_align. destruct (e' - e) as [|d|d] eqn:Ed; cbn [fst].
  - by replace (e - e') with 0 by lia; rewrite Z.mul_1_r.
  - lia.
  - replace (e - e') with (Zpos d) by lia. clear. induction d as [|d IH] using Pos.peano_ind; [cbn; lia|].
    rewrite Pos.iter_succ, Pos2Z.inj_succ, Z.pow_succ_r by lia. rewrite (Pos2Z.inj_xO (Pos.iter xO m d)), IH. lia.
Qed.

(** Where the value of [p * 2^e] ends up. *)
Lemma binary_round_spec s p e : -1074 <= e ->
  let t := last_place p e in
  exists M, 0 < M <= 2 ^ 53 /\ (-1074 < t -> 2 ^ 52 <= M) /\
    (if t <=? e then M = Zpos p * 2 ^ (e - t) else nearest (Zpos p) (2 ^ (t - e)) M) /\
    exists m e', binary_round 53 1024 s p e = finite_or_inf s m e' /\ canonical m e' /\ t <= e' <= t + 1 /\ Zpos m * 2 ^ (e' - t) = M.
Proof.
  intros He t. pose proof (digits2_bound p) as [Hlo Hhi]. set (n := Zpos (digits2_pos p)) in *.
  assert (Ht : t = Z.max (n + e - 53) (-1074)) by reflexivity. assert (Hn : 0 < n) by (unfold n; lia).
  unfold binary_round. rewrite fexp_last_place. fold t. destruct (Z.leb_spec t e) as [Hle|Hgt].
  - pose proof (aligned_value p e t Hle) as Hv. destruct (shl_align p e t) as [m z] eqn:Ea. cbn [fst] in Hv.
    assert (z = t) as ->.
    { revert Ea. unfold shl_align. destruct (t - e) as [|d|d] eqn:Ed; intros [= <- <-]; lia. }
    assert (Hm : Zpos m < 2 ^ 53 /\ (-1074 < t -> 2 ^ 52 <= Zpos m)).
    { rewrite Hv. assert (0 < 2 ^ (e - t)) by (apply Z.pow_pos_nonneg; lia). split.
      - apply Z.lt_le_trans with (2 ^ n * 2 ^ (e - t)); [nia|]. rewrite <- Z.pow_add_r by lia. apply Z.pow_le_mono_r; lia.
      - intros Ht'. apply Z.le_trans with (2 ^ (n - 1) * 2 ^ (e - t)); [|nia]. rewrite <- Z.pow_add_r by lia. apply Z.pow_le_mono_r; lia. }
    assert (Hc : canonical m t) by (split_and!; [lia|lia|intros ?; destruct (Z_lt_ge_dec (-1074) t); lia]).
    exists (Zpos m). rewrite round_aux_exact by done. split_and!; [lia|lia|apply Hm|done|].
    exists m, t. split_and!; [done..|lia|lia|]. rewrite Z.sub_diag. lia.
  - assert (Htn : t = n + e - 53) by lia. unfold shl_align. destruct (t - e) as [|k|] eqn:Ek; [lia| |lia].
    unfold binary_round_aux at 1. unfold shr_fexp at 1. cbn [Zdigits2]. rewrite fexp_last_place. fold t. rewrite Ek. cbn [shr].
    rewrite iter_pos_nat. cbn [shr_record_of_loc].
    pose proof (shr_iter_shifted (Zpos p) (Pos.to_nat k) ltac:(lia)) as Hs. set (x := Nat.iter _ _ _) in *. clearbody x.
    pose proof (round_nearest _ _ _ Hs) as [HM Hrange]. set (M := round_nearest_even _ _) in *. clearbody M.
    destruct Hs as (rest & Hp & Hrest & Hq & _). rewrite positive_nat_Z in *.
    assert (Hpow : 2 ^ n = 2 ^ 53 * 2 ^ Zpos k /\ 2 ^ (n - 1) = 2 ^ 52 * 2 ^ Zpos k) by (split; rewrite <- Z.pow_add_r by lia; f_equal; lia).
    destruct Hpow as [Hpn Hpn1]. rewrite Hpn in Hhi. rewrite Hpn1 in Hlo. assert (HK : 0 < 2 ^ Zpos k) by lia. set (K := 2 ^ Zpos k) in *.
    assert (Hqr : 2 ^ 52 <= shr_m x < 2 ^ 53) by nia. replace (e + Zpos k) with t by lia.
    exists M. split_and!; [lia|lia|lia|exact HM|]. destruct M as [|m|m]; [lia| |lia].
    destruct (Z.eq_dec (Zpos m) (2 ^ 53)) as [Hbig|Hsmall].
    + assert (m = (2 ^ 53)%positive) as -> by (by apply Pos2Z.inj). exists (2 ^ 52)%positive, (t + 1). unfold shr_fexp. cbn [Zdigits2].
      change (Zpos (digits2_pos (2 ^ 53))) with 54. unfold fexp. change (emin 53 1024) with (-1074).
      replace (Z.max (54 + t - 53) (-1074) - t) with 1 by lia. cbn [shr SpecFloat.iter_pos shr_record_of_loc].
      split_and!; [reflexivity| |lia|lia|replace (t + 1 - t) with 1 by lia; reflexivity].
      split_and!; [done|lia|intros Hlt; by apply Z.lt_irrefl in Hlt].
    + assert (Hc : canonical m t) by (split_and!; lia).
      exists m, t. unfold shr_fexp. cbn [Zdigits2]. rewrite fexp_last_place, canonical_last_place, Z.sub_diag by done. cbn [shr shr_record_of_loc shr_m].
      split_and!; [done..|lia|lia|]. lia.
Qed.

(** ** Bit patterns and values *)

(** The magnitude of the finite pattern [w], in units of the least positive value. *)
Definition magnitude (w : f64) : Z :=
  let e := w / 2 ^ 52 in let f := w mod 2 ^ 52 in if e =? 0 then f else (f + 2 ^ 52) * 2 ^ (e - 1).

Definition scaled (x : f64) : Z := if f64_sign x then - magnitude (f64_abs x) else magnitude (f64_abs x).

Definition INFINITE : Z := 2047 * 2 ^ 52.

Lemma magnitude_bound w : 0 <= w -> 2 ^ 52 * 2 ^ (w / 2 ^ 52 - 1) <= magnitude w \/ w / 2 ^ 52 = 0.
Proof.
  intros Hw. unfold magnitude. destruct (Z.eqb_spec (w / 2 ^ 52) 0) as [|Hne]; [by right|left].
  pose proof (Z.mod_pos_bound w (2 ^ 52) ltac:(lia)). assert (0 < 2 ^ (w / 2 ^ 52 - 1)); [|nia].
  apply Z.pow_pos_nonneg; [lia|]. assert (0 <= w / 2 ^ 52) by (apply Z.div_pos; lia). lia.
Qed.

Lemma magnitude_above w : 0 <= w -> 0 <= magnitude w < 2 ^ 52 * 2 ^ (w / 2 ^ 52).
Proof.
  intros Hw. unfold magnitude. pose proof (Z.mod_pos_bound w (2 ^ 52) ltac:(lia)). assert (0 <= w / 2 ^ 52) by (apply Z.div_pos; lia).
  destruct (Z.eqb_spec (w / 2 ^ 52) 0) as [->|Hne]; [lia|].
  assert (2 ^ (w / 2 ^ 52) = 2 * 2 ^ (w / 2 ^ 52 - 1)) as -> by (rewrite <- Z.pow_succ_r by lia; f_equal; lia).
  assert (0 < 2 ^ (w / 2 ^ 52 - 1)) by (apply Z.pow_pos_nonneg; lia). nia.
Qed.

Lemma magnitude_lt w w' : 0 <= w -> w < w' -> magnitude w < magnitude w'.
Proof.
  intros Hw Hlt. pose proof (magnitude_above w Hw) as [_ Hup]. pose proof (Z.div_le_mono w w' (2 ^ 52) ltac:(lia) ltac:(lia)) as Hle.
  assert (0 <= w / 2 ^ 52) by (apply Z.div_pos; lia).
  destruct (Z.eq_dec (w / 2 ^ 52) (w' / 2 ^ 52)) as [He|Hne].
  - unfold magnitude. rewrite <- He. pose proof (Z.div_mod w (2 ^ 52) ltac:(lia)). pose proof (Z.div_mod w' (2 ^ 52) ltac:(lia)).
    destruct (Z.eqb_spec (w / 2 ^ 52) 0) as [|Hnz]; [nia|]. assert (0 < 2 ^ (w / 2 ^ 52 - 1)) by (apply Z.pow_pos_nonneg; lia). nia.
  - destruct (magnitude_bound w' ltac:(lia)) as [Hlo|]; [|lia].
    assert (2 ^ (w / 2 ^ 52) <= 2 ^ (w' / 2 ^ 52 - 1)) by (apply Z.pow_le_mono_r; lia). nia.
Qed.

Lemma magnitude_lt_iff w w' : 0 <= w -> 0 <= w' -> (w <? w') = (magnitude w <? magnitude w').
Proof.
  intros Hw Hw'. destruct (Z.ltb_spec w w') as [Hlt|Hge]; symmetry; [apply Z.ltb_lt; by apply magnitude_lt|apply Z.ltb_ge].
  destruct (Z.eq_dec w w') as [->|]; [lia|]. pose proof (magnitude_lt w' w Hw' ltac:(lia)). lia.
Qed.

(** The pattern of a canonical mantissa and exponent. *)
Definition pattern (m : positive) (e : Z) : f64 := of_spec (S754_finite false m e).

Lemma pattern_spec m e : canonical m e -> e <= 971 ->
  0 < pattern m e < INFINITE /\ magnitude (pattern m e) = Zpos m * 2 ^ (e + 1074).
Proof.
  intros (Hm & He & Hsub) Hmax. unfold pattern, of_spec, sign_bit, INFINITE. destruct (Z.ltb_spec (Zpos m) (2 ^ 52)) as [Hlt|Hge].
  - rewrite Z.add_0_l. split; [lia|]. unfold magnitude. rewrite (Z.div_small (Zpos m)), (Z.mod_small (Zpos m)) by lia.
    rewrite (Hsub Hlt). cbn [Z.eqb]. lia.
  - split; [nia|]. unfold magnitude. replace (0 + (e + 1075) * 2 ^ 52 + (Zpos m - 2 ^ 52)) with (Zpos m - 2 ^ 52 + (e + 1075) * 2 ^ 52) by lia.
    rewrite Z.div_add, Z.mod_add, (Z.div_small (Zpos m - 2 ^ 52)), (Z.mod_small (Zpos m - 2 ^ 52)) by lia.
    destruct (Z.eqb_spec (0 + (e + 1075)) 0); [lia|]. replace (0 + (e + 1075) - 1) with (e + 1074) by lia. lia.
Qed.

Lemma abs_of_finite s m e : canonical m e -> e <= 971 -> f64_abs (of_spec (S754_finite s m e)) = pattern m e.
Proof.
  intros Hc He. destruct (pattern_spec m e Hc He) as [[Hp0 Hp] _]. unfold f64_abs, f64_sign, INFINITE in *.
  destruct s; [|change (of_spec (S754_finite false m e)) with (pattern m e)].
  - assert (of_spec (S754_finite true m e) = 2 ^ 63 + pattern m e) as -> by (unfold pattern, of_spec, sign_bit; case_match; lia).
    rewrite (proj2 (Z.leb_le _ _)) by lia. lia.
  - rewrite (proj2 (Z.leb_gt _ _)) by lia. done.
Qed.

Lemma abs_of_infinity s : f64_abs (of_spec (S754_infinity s)) = INFINITE.
Proof. by destruct s. Qed.

Lemma exponent_bits x : 0 <= x -> f64_exp x = (x / 2 ^ 52) mod 2 ^ 11.
Proof. intros Hx. unfold f64_exp. rewrite Z.shiftr_div_pow2 by lia. change 0x7FF with (Z.ones 11). apply Z.land_ones. lia. Qed.

Lemma mantissa_bits x : f64_mant x = x mod 2 ^ 52.
Proof. unfold f64_mant. change (2 ^ 52 - 1) with (Z.ones 52). apply Z.land_ones. lia. Qed.

Lemma exponent_small w : 0 <= w < INFINITE -> f64_exp w = w / 2 ^ 52 /\ 0 <= w / 2 ^ 52 < 2047.
Proof.
  unfold INFINITE. intros Hw. assert (0 <= w / 2 ^ 52 < 2047) by (split; [apply Z.div_pos; lia|apply Z.div_lt_upper_bound; lia]).
  split; [|done]. rewrite exponent_bits by lia. apply Z.mod_small. lia.
Qed.

(** Magnitude bits and the sign bit. *)
Lemma abs_bits x : in_f64 x ->
  0 <= f64_abs x < 2 ^ 63 /\ f64_exp x = f64_abs x / 2 ^ 52 /\ f64_mant x = f64_abs x mod 2 ^ 52 /\
  x = f64_abs x + sign_bit (f64_sign x) /\ (is_finite x = true -> f64_abs x < INFINITE).
Proof.
  unfold in_f64, in_u64, u64_max. intros Hx. assert (Hr : 0 <= f64_abs x < 2 ^ 63 /\ x = f64_abs x + sign_bit (f64_sign x)).
  { unfold f64_abs, f64_sign, sign_bit. destruct (Z.leb_spec (2 ^ 63) x); lia. }
  destruct Hr as [Hr Hs]. assert (He : f64_exp x = f64_abs x / 2 ^ 52).
  { assert (0 <= f64_abs x / 2 ^ 52 < 2 ^ 11) by (split; [apply Z.div_pos; lia|apply Z.div_lt_upper_bound; lia]).
    rewrite exponent_bits, Hs at 1 by lia. unfold sign_bit. destruct (f64_sign x).
    - change (2 ^ 63) with (2 ^ 11 * 2 ^ 52). rewrite Z.div_add, <- (Z.mul_1_l (2 ^ 11)), Z.mod_add by lia. by apply Z.mod_small.
    - rewrite Z.add_0_r. by apply Z.mod_small. }
  split_and!; [lia|lia|done| |done|].
  - rewrite mantissa_bits, Hs at 1. unfold sign_bit. destruct (f64_sign x); [|by rewrite Z.add_0_r].
    change (2 ^ 63) with (2 ^ 11 * 2 ^ 52). by rewrite Z.mod_add by lia.
  - unfold is_finite, INFINITE. rewrite He. intros Hf%negb_true_iff%Z.eqb_neq. pose proof (Z.div_mod (f64_abs x) (2 ^ 52) ltac:(lia)).
    pose proof (Z.mod_pos_bound (f64_abs x) (2 ^ 52) ltac:(lia)). assert (f64_abs x / 2 ^ 52 < 2 ^ 11) by (apply Z.div_lt_upper_bound; lia). lia.
Qed.

(** A finite pattern decodes to its magnitude. *)
Lemma to_spec_finite x : in_f64 x -> is_finite x = true ->
  (to_spec x = S754_zero (f64_sign x) /\ magnitude (f64_abs x) = 0) \/
  exists m e, to_spec x = S754_finite (f64_sign x) m e /\ canonical m e /\ e <= 971 /\ Zpos m * 2 ^ (e + 1074) = magnitude (f64_abs x).
Proof.
  intros Hx Hf. destruct (abs_bits x Hx) as (Hr & He & Hm & _ & Hfin). specialize (Hfin Hf).
  destruct (exponent_small (f64_abs x) ltac:(lia)) as [_ Hrange]. unfold is_finite in Hf. apply negb_true_iff in Hf.
  unfold to_spec. rewrite Hf. unfold magnitude. rewrite He, Hm. pose proof (Z.mod_pos_bound (f64_abs x) (2 ^ 52) ltac:(lia)) as Hmod.
  set (E := f64_abs x / 2 ^ 52) in *. set (f := f64_abs x mod 2 ^ 52) in *. destruct (Z.eqb_spec E 0) as [HE|HE].
  - destruct f as [|p|p]; [by left| |lia]. right. exists p, (-1074). split_and!; [done|split_and!; [lia|lia|done]|lia|lia].
  - right. destruct (f + 2 ^ 52) as [|p|p] eqn:Ep; [lia| |lia]. exists p, (E - 1075). split_and!; [done|split_and!; lia|lia|].
    rewrite <- Ep. do 2 f_equal. lia.
Qed.

(** ** Differences below a margin *)

Section margin.
(** The margin [mE * 2^eE], with an odd mantissa. *)
Context (mE : positive) (eE : Z).
Hypothesis HmE : 2 ^ 52 < Zpos mE < 2 ^ 53.
Hypothesis Hodd : Z.even (Zpos mE) = false.
Hypothesis HeE : -1074 <= eE <= 970.

Definition margin : f64 := pattern mE eE.

(** The largest exact difference that rounds below the margin, twice. *)
Definition twice_bound : Z := (2 * Zpos mE - 1) * 2 ^ (eE + 1074).

Lemma margin_canonical : canonical mE eE.
Proof using HmE HeE. split_and!; [lia|lia|lia]. Qed.

Lemma margin_magnitude : 0 < margin < INFINITE /\ magnitude margin = Zpos mE * 2 ^ (eE + 1074).
Proof using HmE HeE. apply pattern_spec; [apply margin_canonical|lia]. Qed.

Lemma lt_margin w : 0 <= w < INFINITE -> f64_lt w margin = (magnitude w <? Zpos mE * 2 ^ (eE + 1074)).
Proof using HmE HeE.
  intros Hw. destruct margin_magnitude as [Hm Hv]. unfold f64_lt.
  assert (Hn : forall v, 0 <= v < INFINITE -> is_nan v = false).
  { intros v Hvr. destruct (exponent_small v Hvr) as [He Hlt]. unfold is_nan. rewrite He. by rewrite (proj2 (Z.eqb_neq _ _)) by lia. }
  rewrite !Hn by lia. cbn [orb]. assert (Hz : is_zero_f64 margin = false).
  { unfold is_zero_f64. destruct (exponent_small margin ltac:(lia)) as [-> _]. rewrite mantissa_bits.
    destruct (Z.eqb_spec (margin / 2 ^ 52) 0) as [Hd|]; [|done]. cbn [andb]. apply Z.eqb_neq. pose proof (Z.div_mod margin (2 ^ 52) ltac:(lia)). lia. }
  rewrite Hz, andb_false_r, <- Hv, <- magnitude_lt_iff by lia. unfold total_cmp, total_key, INFINITE in *.
  rewrite !(proj2 (Z.ltb_lt _ (2 ^ 63))) by lia. by unfold Z.ltb.
Qed.

Lemma infinity_margin : f64_lt INFINITE margin = false.
Proof using HmE HeE.
  destruct margin_magnitude as [Hm _]. unfold f64_lt. case_match; [done|]. case_match; [done|]. unfold total_cmp, total_key, INFINITE in *.
  rewrite !(proj2 (Z.ltb_lt _ (2 ^ 63))) by lia. rewrite (proj2 (Z.compare_gt_iff _ _)); [done|lia].
Qed.

(** A canonical value is below the margin when it is a step below it. *)
Lemma canonical_margin m e : canonical m e ->
  (Zpos m * 2 ^ (e + 1074) <? Zpos mE * 2 ^ (eE + 1074)) = (2 * (Zpos m * 2 ^ (e + 1074)) <=? twice_bound).
Proof using HmE HeE.
  intros (Hm & He & Hsub). unfold twice_bound. assert (HP : 0 < 2 ^ (eE + 1074)) by (apply Z.pow_pos_nonneg; lia).
  assert (HQ : 0 < 2 ^ (e + 1074)) by (apply Z.pow_pos_nonneg; lia).
  destruct (Z.lt_trichotomy e eE) as [Hlt|[->|Hgt]].
  - assert (2 * 2 ^ (e + 1074) <= 2 ^ (eE + 1074)) by (rewrite <- Z.pow_succ_r by lia; apply Z.pow_le_mono_r; lia).
    rewrite (proj2 (Z.ltb_lt _ _)), (proj2 (Z.leb_le _ _)) by nia. done.
  - destruct (Z.ltb_spec (Zpos m * 2 ^ (eE + 1074)) (Zpos mE * 2 ^ (eE + 1074))) as [Hlt|Hge]; symmetry; [apply Z.leb_le|apply Z.leb_gt].
    + apply Z.mul_lt_mono_pos_r in Hlt; [|done]. nia.
    + apply Z.mul_le_mono_pos_r in Hge; [|done]. nia.
  - assert (2 * 2 ^ (eE + 1074) <= 2 ^ (e + 1074)) by (rewrite <- Z.pow_succ_r by lia; apply Z.pow_le_mono_r; lia).
    assert (2 ^ 52 <= Zpos m) by (destruct (Z_lt_ge_dec (Zpos m) (2 ^ 52)) as [?%Hsub|]; lia).
    rewrite (proj2 (Z.ltb_ge _ _)), (proj2 (Z.leb_gt _ _)) by nia. done.
Qed.

(** A rounded value is below the margin when the exact one is at most the bound. *)
Lemma rounded_margin s p e : -1074 <= e ->
  f64_lt (f64_abs (of_spec (binary_round 53 1024 s p e))) margin = (2 * (Zpos p * 2 ^ (e + 1074)) <=? twice_bound).
Proof using HmE Hodd HeE.
  intros He. destruct (binary_round_spec s p e He) as (M & HM & Hbig & Hround & m & e' & -> & Hc & He' & Hval). set (t := last_place p e) in *.
  pose proof (digits2_bound p) as [Hlo Hhi]. assert (Ht : t = Z.max (Zpos (digits2_pos p) + e - 53) (-1074)) by reflexivity.
  set (n := Zpos (digits2_pos p)) in *. assert (HP : 0 < 2 ^ (eE + 1074)) by (apply Z.pow_pos_nonneg; lia).
  assert (HQ : 0 < 2 ^ (e + 1074)) by (apply Z.pow_pos_nonneg; lia). assert (HT : 0 < 2 ^ (t + 1074)) by (apply Z.pow_pos_nonneg; lia).
  assert (Hv : Zpos m * 2 ^ (e' + 1074) = M * 2 ^ (t + 1074)).
  { rewrite <- Hval, <- Z.mul_assoc, <- Z.pow_add_r by lia. do 2 f_equal. lia. }
  assert (Hres : f64_lt (f64_abs (of_spec (finite_or_inf s m e'))) margin = (e' <=? 971) && (M * 2 ^ (t + 1074) <? Zpos mE * 2 ^ (eE + 1074))).
  { unfold finite_or_inf. destruct (Z.leb_spec e' 971) as [Hfin|Hinf]; [|rewrite abs_of_infinity; apply infinity_margin].
    rewrite abs_of_finite by done. destruct (pattern_spec m e' Hc Hfin) as [Hr Hmag]. by rewrite lt_margin, Hmag, Hv by lia. }
  rewrite Hres. unfold twice_bound. destruct (Z.lt_trichotomy t eE) as [Hlt|[Heq|Hgt]].
  - assert (Hpt : 2 * 2 ^ (t + 1074) <= 2 ^ (eE + 1074)) by (rewrite <- Z.pow_succ_r by lia; apply Z.pow_le_mono_r; lia).
    assert (Hp : Zpos p * 2 ^ (e + 1074) < 2 ^ 53 * 2 ^ (t + 1074)).
    { apply Z.lt_le_trans with (2 ^ n * 2 ^ (e + 1074)); [nia|]. rewrite <- !Z.pow_add_r by lia. apply Z.pow_le_mono_r; lia. }
    assert (HMT : M * 2 ^ (t + 1074) <= 2 ^ 53 * 2 ^ (t + 1074)) by nia.
    assert (HEP : (2 ^ 52 + 1) * 2 ^ (eE + 1074) <= Zpos mE * 2 ^ (eE + 1074)) by nia.
    rewrite (proj2 (Z.leb_le e' 971)), (proj2 (Z.ltb_lt _ _)), (proj2 (Z.leb_le _ ((2 * _ - 1) * _))) by lia. done.
  - rewrite (proj2 (Z.leb_le e' 971)) by lia. cbn [andb]. rewrite <- Heq.
    assert (Hiff : M < Zpos mE <-> 2 * (Zpos p * 2 ^ (e + 1074)) <= (2 * Zpos mE - 1) * 2 ^ (t + 1074)).
    { destruct (Z.leb_spec t e) as [Hte|Hte].
      - assert (Zpos p * 2 ^ (e + 1074) = M * 2 ^ (t + 1074)) as ->; [|nia].
        rewrite Hround, <- Z.mul_assoc, <- Z.pow_add_r by lia. do 2 f_equal. lia.
      - assert (HK : 0 < 2 ^ (t - e)) by (apply Z.pow_pos_nonneg; lia).
        assert (2 ^ (t + 1074) = 2 ^ (t - e) * 2 ^ (e + 1074)) as -> by (rewrite <- Z.pow_add_r by lia; f_equal; lia).
        destruct Hround as [Hn He2]. set (K := 2 ^ (t - e)) in *. set (Q := 2 ^ (e + 1074)) in *.
        assert (2 * (Zpos p * Q) <= (2 * Zpos mE - 1) * (K * Q) <-> 2 * Zpos p <= (2 * Zpos mE - 1) * K) as -> by nia.
        split; [nia|]. intros Hb. destruct (Z.lt_trichotomy M (Zpos mE)) as [?|[->|?]]; [done| |nia].
        exfalso. rewrite He2 in Hodd; [done|]. right. nia. }
    destruct (Z.ltb_spec (M * 2 ^ (t + 1074)) (Zpos mE * 2 ^ (t + 1074))) as [Hl|Hl]; symmetry.
    + apply Z.mul_lt_mono_pos_r in Hl; [|done]. by apply Z.leb_le, Hiff.
    + apply Z.mul_le_mono_pos_r in Hl; [|done]. apply Z.leb_gt, Z.nle_gt. rewrite <- Hiff. lia.
  - assert (Hpt : 2 * 2 ^ (eE + 1074) <= 2 ^ (t + 1074)) by (rewrite <- Z.pow_succ_r by lia; apply Z.pow_le_mono_r; lia).
    specialize (Hbig ltac:(lia)). assert (Hp : 2 ^ 52 * 2 ^ (t + 1074) <= Zpos p * 2 ^ (e + 1074)).
    { apply Z.le_trans with (2 ^ (n - 1) * 2 ^ (e + 1074)); [|nia]. rewrite <- !Z.pow_add_r by lia. apply Z.pow_le_mono_r; lia. }
    assert (HMT : 2 ^ 52 * 2 ^ (t + 1074) <= M * 2 ^ (t + 1074)) by nia.
    assert (HEP : Zpos mE * 2 ^ (eE + 1074) <= 2 ^ 53 * 2 ^ (eE + 1074)) by nia.
    rewrite (proj2 (Z.ltb_ge _ (Zpos mE * _))), andb_false_r by lia. symmetry. apply Z.leb_gt. lia.
Qed.
(** The exact difference, and its sign. *)
Lemma difference_value sx mx ex sy my ey : -1074 <= ex -> -1074 <= ey ->
  let ez := Z.min ex ey in
  (cond_Zopp sx (Zpos (fst (shl_align mx ex ez))) - cond_Zopp sy (Zpos (fst (shl_align my ey ez)))) * 2 ^ (ez + 1074) =
  cond_Zopp sx (Zpos mx * 2 ^ (ex + 1074)) - cond_Zopp sy (Zpos my * 2 ^ (ey + 1074)).
Proof.
  intros Hx Hy ez. rewrite !aligned_value by (unfold ez; lia).
  assert (2 ^ (ex + 1074) = 2 ^ (ex - ez) * 2 ^ (ez + 1074)) as -> by (rewrite <- Z.pow_add_r by (unfold ez; lia); f_equal; lia).
  assert (2 ^ (ey + 1074) = 2 ^ (ey - ez) * 2 ^ (ez + 1074)) as -> by (rewrite <- Z.pow_add_r by (unfold ez; lia); f_equal; lia).
  destruct sx, sy; cbn [cond_Zopp]; ring.
Qed.

Lemma zero_margin s : f64_lt (f64_abs (of_spec (S754_zero s))) margin = true.
Proof using HmE HeE.
  assert (f64_abs (of_spec (S754_zero s)) = 0) as -> by (by destruct s). rewrite lt_margin by (unfold INFINITE; lia).
  apply Z.ltb_lt. change (magnitude 0) with 0. assert (0 < 2 ^ (eE + 1074)) by (apply Z.pow_pos_nonneg; lia). lia.
Qed.

Lemma bound_positive : 0 < twice_bound.
Proof using HmE HeE. unfold twice_bound. assert (0 < 2 ^ (eE + 1074)) by (apply Z.pow_pos_nonneg; lia). nia. Qed.

Lemma exact_margin s m e : canonical m e -> e <= 971 ->
  f64_lt (f64_abs (of_spec (S754_finite s m e))) margin = (2 * (Zpos m * 2 ^ (e + 1074)) <=? twice_bound).
Proof using HmE HeE.
  intros Hc He. rewrite abs_of_finite by done. destruct (pattern_spec m e Hc He) as [Hr Hm]. rewrite lt_margin, Hm by lia. by apply canonical_margin.
Qed.

(** Subtraction of finite values is below the margin when the exact difference is
    at most the bound. *)
Lemma difference_below x y : in_f64 x -> in_f64 y -> is_finite x = true -> is_finite y = true ->
  f64_lt (f64_abs (f64_sub x y)) margin = (2 * Z.abs (scaled x - scaled y) <=? twice_bound).
Proof using HmE Hodd HeE.
  intros Hx Hy Hfx Hfy. pose proof bound_positive as HB. unfold f64_sub, scaled.
  destruct (to_spec_finite x Hx Hfx) as [[Ex Mx]|(mx & ex & Ex & Cx & Lx & Mx)], (to_spec_finite y Hy Hfy) as [[Ey My]|(my & ey & Ey & Cy & Ly & My)];
    rewrite Ex, Ey, <- ?Mx, <- ?My, ?Mx, ?My.
  - assert (SFsub 53 1024 (S754_zero (f64_sign x)) (S754_zero (f64_sign y)) = S754_zero (f64_sign x && negb (f64_sign y))) as ->
      by (by destruct (f64_sign x), (f64_sign y)). rewrite zero_margin. symmetry. apply Z.leb_le. destruct (f64_sign x), (f64_sign y); lia.
  - cbn [SFsub]. rewrite exact_margin by done. rewrite My. f_equal. pose proof (magnitude_above (f64_abs y)) as Hn.
    destruct (abs_bits y Hy) as [Ha _]. specialize (Hn ltac:(lia)). destruct (f64_sign x), (f64_sign y); lia.
  - cbn [SFsub]. rewrite exact_margin by done. rewrite Mx. f_equal. pose proof (magnitude_above (f64_abs x)) as Hn.
    destruct (abs_bits x Hx) as [Ha _]. specialize (Hn ltac:(lia)). destruct (f64_sign x), (f64_sign y); lia.
  - cbn [SFsub]. destruct Cx as (_ & Hex & _), Cy as (_ & Hey & _). pose proof (difference_value (f64_sign x) mx ex (f64_sign y) my ey Hex Hey) as Hd.
    cbv zeta in Hd. set (ez := Z.min ex ey) in *. set (z := cond_Zopp _ _ - cond_Zopp _ _) in *. clearbody z.
    assert (Hz : cond_Zopp (f64_sign x) (Zpos mx * 2 ^ (ex + 1074)) - cond_Zopp (f64_sign y) (Zpos my * 2 ^ (ey + 1074)) =
      (if f64_sign x then - magnitude (f64_abs x) else magnitude (f64_abs x)) - (if f64_sign y then - magnitude (f64_abs y) else magnitude (f64_abs y)))
      by (rewrite Mx, My; by destruct (f64_sign x), (f64_sign y)).
    rewrite Hz in Hd. rewrite <- Hd. assert (0 < 2 ^ (ez + 1074)) by (apply Z.pow_pos_nonneg; lia). rewrite Z.abs_mul, (Z.abs_eq (2 ^ _)) by lia.
    destruct z as [|p|p]; cbn [binary_normalize Z.abs].
    + rewrite zero_margin. symmetry. apply Z.leb_le. lia.
    + by rewrite rounded_margin by lia.
    + by rewrite rounded_margin by lia.
Qed.

(** A difference with a value that is not finite is infinite or not a number. *)
Lemma difference_infinite x y : is_finite x = false \/ is_finite y = false -> f64_lt (f64_abs (f64_sub x y)) margin = false.
Proof using HmE HeE.
  intros Hnf. assert (Hcases : forall v, is_finite v = false -> to_spec v = S754_nan \/ to_spec v = S754_infinity (f64_sign v)).
  { intros v. unfold is_finite, to_spec. intros ->%negb_false_iff. case_match; auto. }
  assert (Hnan : f64_lt (f64_abs (of_spec S754_nan)) margin = false) by (unfold f64_lt; by change (is_nan (f64_abs (of_spec S754_nan))) with true).
  assert (Hinf : forall s, f64_lt (f64_abs (of_spec (S754_infinity s))) margin = false) by (intros s; rewrite abs_of_infinity; apply infinity_margin).
  unfold f64_sub. destruct Hnf as [H|H]; destruct (Hcases _ H) as [-> | ->].
  - done.
  - destruct (to_spec y) as [s|s| |s m e]; [apply Hinf| |done|apply Hinf]. cbn [SFsub]. by destruct (f64_sign x), s.
  - by destruct (to_spec x).
  - destruct (to_spec x) as [s|s| |s m e]; [apply Hinf| |done|apply Hinf]. cbn [SFsub]. by destruct s, (f64_sign y).
Qed.

(** ** Ties are convex *)

Definition tie (x y : f64) : bool := match total_cmp x y with Eq => true | _ => false end || f64_lt (f64_abs (f64_sub x y)) margin.

Lemma key_abs x : in_f64 x -> total_key x = if f64_sign x then - f64_abs x - 1 else f64_abs x.
Proof.
  intros _. unfold total_key, f64_abs, f64_sign. destruct (Z.ltb_spec x (2 ^ 63)), (Z.leb_spec (2 ^ 63) x); lia.
Qed.

(** The order of the patterns is the order of the values. *)
Lemma scaled_mono x y : in_f64 x -> in_f64 y -> total_cmp x y <> Lt -> scaled y <= scaled x.
Proof.
  intros Hx Hy Hc. assert (Hk : total_key y <= total_key x) by (unfold total_cmp in Hc; by apply Z.compare_ge_iff).
  rewrite !key_abs in Hk by done. destruct (abs_bits x Hx) as [Ax _], (abs_bits y Hy) as [Ay _].
  pose proof (magnitude_above (f64_abs x) ltac:(lia)). pose proof (magnitude_above (f64_abs y) ltac:(lia)).
  assert (Hm : forall u v, 0 <= u -> 0 <= v -> u <= v -> magnitude u <= magnitude v).
  { intros u v Hu Hv Huv. destruct (Z.eq_dec u v) as [->|]; [lia|]. pose proof (magnitude_lt u v Hu ltac:(lia)). lia. }
  unfold scaled. destruct (f64_sign x), (f64_sign y); [|lia|lia|].
  - pose proof (Hm (f64_abs x) (f64_abs y) ltac:(lia) ltac:(lia) ltac:(lia)). lia.
  - apply Hm; lia.
Qed.

Lemma finite_between a b c : in_f64 a -> in_f64 b -> in_f64 c -> total_cmp a b <> Lt -> total_cmp b c <> Lt ->
  is_finite a = true -> is_finite c = true -> is_finite b = true.
Proof.
  intros Ha Hb Hc Hab Hbc Fa Fc. assert (Hk : total_key c <= total_key b <= total_key a).
  { unfold total_cmp in *. split; by apply Z.compare_ge_iff. }
  rewrite !key_abs in Hk by done. destruct (abs_bits a Ha) as (Aa & _ & _ & _ & La), (abs_bits b Hb) as (Ab & Eb & _), (abs_bits c Hc) as (Ac & _ & _ & _ & Lc).
  specialize (La Fa). specialize (Lc Fc). assert (Hlt : f64_abs b < INFINITE) by (destruct (f64_sign a), (f64_sign b), (f64_sign c); lia).
  unfold is_finite. rewrite Eb. destruct (exponent_small (f64_abs b) ltac:(lia)) as [_ Hr]. by rewrite (proj2 (Z.eqb_neq _ _)) by lia.
Qed.

Lemma tie_convex a b c : in_f64 a -> in_f64 b -> in_f64 c -> total_cmp a b <> Lt -> total_cmp b c <> Lt ->
  tie a c = true -> tie a b = true /\ tie b c = true.
Proof using HmE Hodd HeE.
  intros Ha Hb Hc Hab Hbc Htie. unfold tie in *. destruct (total_cmp a c) eqn:Eac.
  - unfold total_cmp in *. apply Z.compare_eq_iff in Eac. apply Z.compare_ge_iff in Hab, Hbc.
    by rewrite !(proj2 (Z.compare_eq_iff _ _)) by lia.
  - cbn [orb] in Htie. exfalso. unfold total_cmp in *. apply Z.compare_ge_iff in Hab, Hbc. rewrite Z.compare_lt_iff in Eac. lia.
  - cbn [orb] in Htie. destruct (is_finite a) eqn:Fa; [|by rewrite difference_infinite in Htie by auto].
    destruct (is_finite c) eqn:Fc; [|by rewrite difference_infinite in Htie by auto].
    pose proof (finite_between a b c Ha Hb Hc Hab Hbc Fa Fc) as Fb.
    pose proof (scaled_mono a b Ha Hb Hab). pose proof (scaled_mono b c Hb Hc Hbc). rewrite difference_below in Htie by done. apply Z.leb_le in Htie.
    rewrite !difference_below by done. rewrite !(proj2 (Z.leb_le _ _)) by lia. by rewrite !orb_true_r.
Qed.
End margin.

(** ** Sums are bit patterns *)

Lemma of_spec_range s m e : canonical m e -> e <= 971 -> in_f64 (of_spec (S754_finite s m e)).
Proof.
  intros Hc He. destruct (pattern_spec m e Hc He) as [Hp _]. unfold in_f64, in_u64, u64_max, INFINITE in *.
  assert (of_spec (S754_finite s m e) = sign_bit s + pattern m e) as -> by (destruct s; unfold pattern, of_spec, sign_bit; case_match; lia).
  unfold sign_bit. destruct s; lia.
Qed.

(** What decoding a pattern of any width gives. *)
Lemma to_spec_shape x : exists s, to_spec x = S754_nan \/ to_spec x = S754_infinity s \/ to_spec x = S754_zero s \/
  exists m e, to_spec x = S754_finite s m e /\ canonical m e /\ e <= 971.
Proof.
  exists (f64_sign x). unfold to_spec. assert (Hm : 0 <= f64_mant x < 2 ^ 52) by (rewrite mantissa_bits; apply Z.mod_pos_bound; lia).
  assert (He : 0 <= f64_exp x < 2 ^ 11).
  { unfold f64_exp. change 0x7FF with (Z.ones 11). rewrite Z.land_ones by lia. apply Z.mod_pos_bound. lia. }
  destruct (Z.eqb_spec (f64_exp x) 2047); [case_match; auto|]. destruct (Z.eqb_spec (f64_exp x) 0).
  - destruct (f64_mant x) as [|p|p]; [auto| |lia]. right; right; right. exists p, (-1074). split_and!; [done|split_and!; [lia|lia|done]|lia].
  - destruct (f64_mant x + 2 ^ 52) as [|p|p] eqn:Ep; [lia| |lia]. right; right; right. exists p, (f64_exp x - 1075). split_and!; [done|split_and!; lia|lia].
Qed.

Lemma normalize_range z e : -1074 <= e -> in_f64 (of_spec (binary_normalize 53 1024 z e false)).
Proof.
  intros He. destruct z as [|p|p]; cbn [binary_normalize]; [done| |];
    (match goal with |- context [binary_round 53 1024 ?s p e] => destruct (binary_round_spec s p e He) as (M & _ & _ & _ & m & e' & -> & Hc & _) end);
    unfold finite_or_inf; (destruct (Z.leb_spec e' 971); [by apply of_spec_range|done]).
Qed.

Lemma f64_add_range x y : in_f64 (f64_add x y).
Proof.
  unfold f64_add. destruct (to_spec_shape x) as (sx & [->|[->|[->|(mx & ex & -> & Cx & Lx)]]]); destruct (to_spec_shape y) as (sy & [->|[->|[->|(my & ey & -> & Cy & Ly)]]]);
    cbn [SFadd]; try done; try (by destruct sx); try (by destruct sy); try (by destruct sx, sy); try by apply of_spec_range.
  apply normalize_range. destruct Cx as (_ & ? & _), Cy as (_ & ? & _). lia.
Qed.
