(* ===== verification/Utf8.v ===== *)
(** * UTF-8 decoding of the standard library

    [String::from_utf8_lossy] replaces every maximal ill-formed prefix by
    U+FFFD; [str::from_utf8] rejects it.  [decode_char] reads one scalar value
    or one ill-formed prefix. *)

From Stdlib Require Import ZifyBool.
From S2P Require Import Prelude.

Definition is_cont (b : Z) : bool := in_range 0x80 0xBF b.

(** [utf8_acc_cont_byte]. *)
Definition acc_cont (ch b : Z) : Z := Z.lor (Z.shiftl ch 6) (Z.land b 0x3F).

Definition second_ok_3 (b c : Z) : bool :=
  ((b =? 0xE0) && in_range 0xA0 0xBF c) || (in_range 0xE1 0xEC b && is_cont c) ||
  ((b =? 0xED) && in_range 0x80 0x9F c) || (in_range 0xEE 0xEF b && is_cont c).

Definition second_ok_4 (b c : Z) : bool :=
  ((b =? 0xF0) && in_range 0x90 0xBF c) || (in_range 0xF1 0xF3 b && is_cont c) ||
  ((b =? 0xF4) && in_range 0x80 0x8F c).

(** The next scalar value, or [None] for an ill-formed prefix, and the bytes
    after it. *)
Definition decode_char (b : Z) (r : bytes) : option Z * bytes :=
  if b <? 0x80 then (Some b, r)
  else if in_range 0xC2 0xDF b then
    match r with
    | c :: r' => if is_cont c then (Some (acc_cont (Z.land b 0x1F) c), r') else (None, r)
    | [] => (None, r)
    end
  else if in_range 0xE0 0xEF b then
    match r with
    | c :: r' =>
        if second_ok_3 b c then
          match r' with
          | d :: r'' =>
              if is_cont d then (Some (acc_cont (acc_cont (Z.land b 0x0F) c) d), r'')
              else (None, r')
          | [] => (None, r')
          end
        else (None, r)
    | [] => (None, r)
    end
  else if in_range 0xF0 0xF4 b then
    match r with
    | c :: r' =>
        if second_ok_4 b c then
          match r' with
          | d :: r'' =>
              if is_cont d then
                match r'' with
                | e :: r3 =>
                    if is_cont e
                    then (Some (acc_cont (acc_cont (acc_cont (Z.land b 0x07) c) d) e), r3)
                    else (None, r'')
                | [] => (None, r'')
                end
              else (None, r')
          | [] => (None, r')
          end
        else (None, r)
    | [] => (None, r)
    end
  else (None, r).

Fixpoint lossy_fuel (fuel : nat) (bs : bytes) : str :=
  match fuel, bs with
  | S f, b :: r =>
      let '(c, r') := decode_char b r in
      (match c with Some ch => ch | None => 0xFFFD end) :: lossy_fuel f r'
  | _, _ => []
  end.
Definition from_utf8_lossy (bs : bytes) : str := lossy_fuel (length bs) bs.

Fixpoint utf8_fuel (fuel : nat) (bs : bytes) : option str :=
  match fuel, bs with
  | S f, b :: r =>
      match decode_char b r with
      | (Some ch, r') => cons ch <$> utf8_fuel f r'
      | (None, _) => None
      end
  | _, [] => Some []
  | O, _ :: _ => None
  end.
Definition from_utf8 (bs : bytes) : option str := utf8_fuel (length bs) bs.

(** Unicode scalar values. *)
Definition is_scalar (c : Z) : Prop := 0 <= c < 0xD800 \/ 0xE000 <= c <= 0x10FFFF.

#[export] Instance is_scalar_dec c : Decision (is_scalar c).
Proof. unfold is_scalar. apply _. Defined.

Lemma lor_lead k v w : 0 <= w -> 0 <= v < 2 ^ w -> Z.lor (k * 2 ^ w) v = k * 2 ^ w + v.
Proof. intros. rewrite <- Z.shiftl_mul_pow2, lor_shiftl_add by done. by rewrite Z.shiftl_mul_pow2. Qed.

Lemma land_low a w : 0 <= w -> Z.land a (2 ^ w - 1) = a mod 2 ^ w.
Proof. intros. rewrite <- Z.land_ones by done. by rewrite Z.ones_equiv, Z.sub_1_r. Qed.

Lemma acc_cont_add ch b : acc_cont ch b = ch * 64 + b mod 64.
Proof.
  unfold acc_cont. change 0x3F with (2 ^ 6 - 1). rewrite land_low by done.
  rewrite lor_shiftl_add; [done | done |]. apply Z.mod_pos_bound. done.
Qed.

Lemma cont_byte c : Z.lor 0x80 (Z.land c 0x3F) = 128 + c mod 64.
Proof.
  change 0x3F with (2 ^ 6 - 1). rewrite land_low by done.
  change 0x80 with (2 * 2 ^ 6). rewrite lor_lead; [done | done |]. apply Z.mod_pos_bound. done.
Qed.

(** The encoder in arithmetic form. *)
Lemma utf8_char_arith c :
  0 <= c <= 0x10FFFF ->
  utf8_char c =
    if c <? 0x80 then [c]
    else if c <? 0x800 then [192 + c / 64; 128 + c mod 64]
    else if c <? 0x10000 then [224 + c / 4096; 128 + c / 64 mod 64; 128 + c mod 64]
    else [240 + c / 262144; 128 + c / 4096 mod 64; 128 + c / 64 mod 64; 128 + c mod 64].
Proof.
  intros Hc. unfold utf8_char. rewrite !cont_byte, !Z.shiftr_div_pow2 by done.
  change (2 ^ 6) with 64. change (2 ^ 12) with 4096. change (2 ^ 18) with 262144.
  repeat case_match; reflect_bool; try done.
  - change 0xC0 with (6 * 2 ^ 5). rewrite lor_lead; [done | done |].
    change (2 ^ 5) with 32. Z.div_mod_to_equations. lia.
  - change 0xE0 with (14 * 2 ^ 4). rewrite lor_lead; [done | done |].
    change (2 ^ 4) with 16. Z.div_mod_to_equations. lia.
  - change 0xF0 with (30 * 2 ^ 3). rewrite lor_lead; [done | done |].
    change (2 ^ 3) with 8. Z.div_mod_to_equations. lia.
Qed.

(** One step of the decoder reads back what the encoder wrote. *)
Lemma decode_char_encode c r :
  is_scalar c ->
  exists b t, utf8_char c = b :: t /\ decode_char b (t ++ r) = (Some c, r).
Proof.
  intros Hc. rewrite utf8_char_arith by (unfold is_scalar in Hc; lia).
  unfold is_scalar in Hc.
  repeat case_match; reflect_bool; eexists _, _; (split; [reflexivity|]);
    unfold decode_char, second_ok_3, second_ok_4, is_cont, in_range; simpl app;
    rewrite ?acc_cont_add;
    change 0x1F with (2 ^ 5 - 1); change 0x0F with (2 ^ 4 - 1); change 0x07 with (2 ^ 3 - 1);
    rewrite ?land_low by done; change (2 ^ 5) with 32; change (2 ^ 4) with 16; change (2 ^ 3) with 8.
  all: repeat match goal with |- context [if ?x then _ else _] =>
    let E := fresh "E" in destruct x eqn:E end.
  all: try (exfalso; Z.div_mod_to_equations; lia).
  all: do 2 f_equal; rewrite ?acc_cont_add; Z.div_mod_to_equations; lia.
Qed.

Lemma utf8_char_length c : (1 <= length (utf8_char c))%nat.
Proof. unfold utf8_char. repeat case_match; simpl; lia. Qed.

(** The decoder inverts [as_bytes] on strings of scalar values. *)
Lemma lossy_fuel_as_bytes s n :
  Forall is_scalar s -> (length (as_bytes s) <= n)%nat -> lossy_fuel n (as_bytes s) = s.
Proof.
  intros Hs. revert n. induction Hs as [|c s Hc Hs IH]; intros n Hn; [by destruct n|].
  change (as_bytes (c :: s)) with (utf8_char c ++ as_bytes s) in *.
  destruct (decode_char_encode c (as_bytes s) Hc) as (b & t & Hb & Hd).
  rewrite Hb in *. cbn [app] in *. destruct n as [|n]; [simpl in Hn; lia|].
  cbn [lossy_fuel]. rewrite Hd. f_equal. apply IH. rewrite length_cons, length_app in Hn. lia.
Qed.

Lemma from_utf8_lossy_as_bytes s : Forall is_scalar s -> from_utf8_lossy (as_bytes s) = s.
Proof. intros. by apply lossy_fuel_as_bytes. Qed.

Lemma utf8_fuel_as_bytes s n :
  Forall is_scalar s -> (length (as_bytes s) <= n)%nat -> utf8_fuel n (as_bytes s) = Some s.
Proof.
  intros Hs. revert n. induction Hs as [|c s Hc Hs IH]; intros n Hn; [by destruct n|].
  change (as_bytes (c :: s)) with (utf8_char c ++ as_bytes s) in *.
  destruct (decode_char_encode c (as_bytes s) Hc) as (b & t & Hb & Hd).
  rewrite Hb in *. cbn [app] in *. destruct n as [|n]; [simpl in Hn; lia|].
  cbn [utf8_fuel]. rewrite Hd, IH; [done|]. rewrite length_cons, length_app in Hn. lia.
Qed.

Lemma from_utf8_as_bytes s : Forall is_scalar s -> from_utf8 (as_bytes s) = Some s.
Proof. intros. by apply utf8_fuel_as_bytes. Qed.

Lemma as_bytes_inj s t :
  Forall is_scalar s -> Forall is_scalar t -> as_bytes s = as_bytes t -> s = t.
Proof. intros Hs Ht He. apply from_utf8_as_bytes in Hs, Ht. congruence. Qed.

Lemma as_bytes_app s t : as_bytes (s ++ t) = as_bytes s ++ as_bytes t.
Proof. unfold as_bytes. by rewrite map_app, concat_app. Qed.

Lemma str_len_app s t : str_len (s ++ t) = str_len s + str_len t.
Proof. unfold str_len, zlen. rewrite as_bytes_app, length_app. lia. Qed.

Lemma as_bytes_range s : Forall is_scalar s -> Forall (fun b => 0 <= b <= 255) (as_bytes s).
Proof.
  induction 1 as [|c s Hc Hs IH]; [constructor|]. change (as_bytes (c :: s)) with (utf8_char c ++ as_bytes s).
  apply Forall_app. split; [|done]. unfold is_scalar in Hc. rewrite utf8_char_arith by lia.
  repeat case_match; repeat (apply Forall_cons; split); try apply Forall_nil; Z.div_mod_to_equations; lia.
Qed.

(** What the decoder accepts is a scalar value. *)
Lemma decode_char_scalar b r c r' :
  0 <= b <= 255 -> decode_char b r = (Some c, r') -> is_scalar c.
Proof.
  intros Hb. unfold decode_char, second_ok_3, second_ok_4, is_cont, in_range, is_scalar.
  repeat match goal with |- context [if ?x then _ else _] =>
    let E := fresh "E" in destruct x eqn:E end; try done;
    repeat (match goal with |- context [match ?x with [] => _ | _ => _ end] => destruct x end);
    repeat match goal with |- context [if ?x then _ else _] =>
      let E := fresh "E" in destruct x eqn:E end; try done.
  all: intros [= <- <-]; rewrite ?acc_cont_add; try lia.
  all: change 0x1F with (2 ^ 5 - 1); change 0x0F with (2 ^ 4 - 1); change 0x07 with (2 ^ 3 - 1);
    rewrite ?land_low by done; change (2 ^ 5) with 32; change (2 ^ 4) with 16; change (2 ^ 3) with 8.
  all: Z.div_mod_to_equations; lia.
Qed.

Lemma decode_char_suffix b r c r' : decode_char b r = (c, r') -> exists k, r' = drop k r.
Proof.
  unfold decode_char. intros Hd.
  repeat (case_match; simplify_eq/=; try (by exists 0%nat)); try (by exists 1%nat);
    try (by exists 2%nat); by exists 3%nat.
Qed.

Lemma lossy_fuel_scalar n bs :
  Forall (fun b => 0 <= b <= 255) bs -> Forall is_scalar (lossy_fuel n bs).
Proof.
  revert bs. induction n as [|n IH]; intros [|b r] Hbs; cbn [lossy_fuel]; try constructor.
  apply Forall_cons in Hbs as [Hb Hr].
  destruct (decode_char b r) as [c r'] eqn:Ed.
  destruct (decode_char_suffix _ _ _ _ Ed) as [k ->]. constructor; [|by apply IH, Forall_drop].
  destruct c as [c|]; [by eapply decode_char_scalar|]. unfold is_scalar. lia.
Qed.

(** Lossy decoding of ill-formed bytes does not preserve them. *)
Lemma lossy_alters_invalid bs :
  Forall (fun b => 0 <= b <= 255) bs -> from_utf8 bs = None -> as_bytes (from_utf8_lossy bs) <> bs.
Proof.
  intros Hbs Hn Heq. pose proof (from_utf8_as_bytes _ (lossy_fuel_scalar (length bs) bs Hbs)) as Hs.
  change (lossy_fuel (length bs) bs) with (from_utf8_lossy bs) in Hs. congruence.
Qed.

(** Strict decoding agrees with lossy decoding where it succeeds, and the
    bytes are those of the text. *)
Lemma from_utf8_is_lossy bs t : from_utf8 bs = Some t -> from_utf8_lossy bs = t.
Proof.
  unfold from_utf8, from_utf8_lossy. generalize (length bs) as n. intros n. revert bs t.
  induction n as [|n IH]; intros [|b r] t; cbn [utf8_fuel lossy_fuel]; try congruence.
  destruct (decode_char b r) as [[c|] r']; [|done].
  intros (t' & Ht & ->)%fmap_Some. f_equal. by apply IH.
Qed.

Lemma lossy_scalar bs : Forall (fun b => 0 <= b <= 255) bs -> Forall is_scalar (from_utf8_lossy bs).
Proof. intros Hb. by apply lossy_fuel_scalar. Qed.

Lemma from_utf8_scalar bs t : Forall (fun b => 0 <= b <= 255) bs -> from_utf8 bs = Some t -> Forall is_scalar t.
Proof. intros Hb <-%from_utf8_is_lossy. by apply lossy_scalar. Qed.

Lemma decode_char_inv b r c r' :
  0 <= b <= 255 -> decode_char b r = (Some c, r') -> b :: r = utf8_char c ++ r'.
Proof.
  intros Hb Hd. pose proof (decode_char_scalar _ _ _ _ Hb Hd) as Hs.
  rewrite utf8_char_arith by (unfold is_scalar in Hs; lia). clear Hs. revert Hd.
  unfold decode_char, second_ok_3, second_ok_4, is_cont, in_range.
  repeat match goal with |- context [if ?x then _ else _] =>
    match x with context [c] => fail 1 | _ => let E := fresh "E" in destruct x eqn:E end end; try done;
    repeat (match goal with |- context [match ?x with [] => _ | _ => _ end] => destruct x end);
    repeat match goal with |- context [if ?x then _ else _] =>
      match x with context [c] => fail 1 | _ => let E := fresh "E" in destruct x eqn:E end end; try done.
  all: intros [= <- <-]; rewrite ?acc_cont_add.
  all: change 0x1F with (2 ^ 5 - 1); change 0x0F with (2 ^ 4 - 1); change 0x07 with (2 ^ 3 - 1);
    rewrite ?land_low by done; change (2 ^ 5) with 32; change (2 ^ 4) with 16; change (2 ^ 3) with 8.
  all: repeat match goal with |- context [if ?x then _ else _] =>
      let E := fresh "E" in destruct x eqn:E end; try (exfalso; Z.div_mod_to_equations; lia).
  all: cbn [app]; repeat f_equal; Z.div_mod_to_equations; lia.
Qed.

Lemma from_utf8_inv bs t :
  Forall (fun b => 0 <= b <= 255) bs -> from_utf8 bs = Some t -> as_bytes t = bs.
Proof.
  unfold from_utf8. generalize (length bs) as n. intros n. revert bs t.
  induction n as [|n IH]; intros [|b r] t Hbs; cbn [utf8_fuel]; try (by intros [= <-]).
  destruct (decode_char b r) as [[c|] r'] eqn:Ed; [|done]. apply Forall_cons in Hbs as [Hb Hr].
  intros (t' & Ht & ->)%fmap_Some. rewrite (decode_char_inv _ _ _ _ Hb Ed).
  change (as_bytes (c :: t')) with (utf8_char c ++ as_bytes t'). f_equal. apply IH; [|done].
  destruct (decode_char_suffix _ _ _ _ Ed) as [k ->]. by apply Forall_drop.
Qed.

(** An ill-formed or multi-byte prefix never takes an ASCII byte with it. *)
Lemma decode_char_cont b r c r' :
  decode_char b r = (c, r') -> exists k, r' = drop k r /\ Forall (fun b => 0x80 <= b) (take k r).
Proof.
  unfold decode_char, second_ok_3, second_ok_4, is_cont, in_range. intros Hd.
  repeat (case_match; simplify_eq/=; try (by exists 0%nat));
    try (by exists 0%nat); try (exists 1%nat; split; [done|repeat constructor; lia]);
    try (exists 2%nat; split; [done|repeat constructor; lia]); exists 3%nat; split; [done|repeat constructor; lia].
Qed.

Lemma lossy_fuel_ascii_head s t n :
  Forall (fun b => 0 <= b < 128) s -> (length (s ++ t) <= n)%nat ->
  lossy_fuel n (s ++ t) = s ++ lossy_fuel (n - length s) t.
Proof.
  intros Hs. revert n. induction Hs as [|b s Hb Hs IH]; intros n Hn; cbn [app length].
  { by rewrite Nat.sub_0_r. }
  destruct n as [|n]; [cbn in Hn; lia|]. cbn [lossy_fuel Nat.sub]. unfold decode_char.
  replace (b <? 128) with true by lia. f_equal. apply IH. cbn in Hn. lia.
Qed.

Lemma lossy_keeps_ascii a s b :
  Forall (fun b => 0 <= b < 128) s ->
  exists p q, from_utf8_lossy (a ++ s ++ b) = p ++ s ++ q.
Proof.
  intros Hs. unfold from_utf8_lossy. assert (Hn : (length (a ++ s ++ b) <= length (a ++ s ++ b))%nat) by lia.
  revert Hn. generalize (length (a ++ s ++ b)) at 2 3 as n. intros n. revert a.
  destruct s as [|x s]; [by intros; exists (lossy_fuel n (a ++ [] ++ b)), []; rewrite !app_nil_r|].
  induction n as [|n IH]; intros a Hn.
  { rewrite !length_app in Hn. cbn in Hn. lia. }
  destruct a as [|y a].
  { cbn [app]. rewrite (lossy_fuel_ascii_head (x :: s) b) by done. by eexists [], _. }
  change ((y :: a) ++ (x :: s) ++ b) with (y :: a ++ (x :: s) ++ b) in *. cbn [lossy_fuel].
  destruct (decode_char y _) as [c r'] eqn:Ed.
  destruct (decode_char_cont _ _ _ _ Ed) as (k & -> & Hk).
  assert (k <= length a)%nat as Hka.
  { destruct (decide (k <= length a)%nat) as [|Hgt]; [done|]. exfalso.
    assert (Hx : take k (a ++ (x :: s) ++ b) !! length a = Some x).
    { rewrite lookup_take_lt by lia. by rewrite lookup_app_r, Nat.sub_diag by lia. }
    apply (Forall_lookup_1 _ _ _ _ Hk) in Hx. apply Forall_cons in Hs as [Hb _]. lia. }
  rewrite drop_app_le by done.
  destruct (IH (drop k a)) as (p & q & ->).
  { cbn [length] in Hn. rewrite length_app in *. rewrite length_drop. lia. }
  by exists (match c with Some ch => ch | None => 65533 end :: p), q.
Qed.
