(* ===== verification/Hex.v ===== *)
(** * Hexadecimal digests ([crates/core/src/merkle_spec_hash.rs])

    The decoder shared by allowlists and the incremental index, and the
    encoder of the [hex] crate as an interface with its law. *)

From S2P Require Import Prelude Encoding.

Definition SHA256_HEX_LEN : Z := 64.

Definition hex_nibble (c : Z) : option Z :=
  if in_range 48 57 c then Some (c - 48)
  else if in_range 97 102 c then Some (c - 97 + 10)
  else if in_range 65 70 c then Some (c - 65 + 10)
  else None.

Fixpoint hex_pairs (bs : bytes) : option bytes :=
  match bs with
  | hi :: lo :: rest =>
      match hex_nibble hi, hex_nibble lo, hex_pairs rest with
      | Some h, Some l, Some out => Some (Z.lor (shl8 h 4) l :: out)
      | _, _, _ => None
      end
  | _ => Some []
  end.

Definition hex_to_array (hex : str) : option bytes :=
  let bs := as_bytes hex in
  if negb (zlen bs =? SHA256_HEX_LEN) then None else hex_pairs bs.

(** [hex::encode] *)
Class HexCrate := hex_string : bytes -> str.

Definition hex_digit (v : Z) : Z := if v <? 10 then 48 + v else 87 + v.

(** Two lower-case digits per byte. *)
Class HexLaws `{HexCrate} : Prop :=
  hex_string_digits bs : hex_string bs = concat (map (fun b => [hex_digit (b / 16); hex_digit (b mod 16)]) bs).

Lemma hex_nibble_digit v : 0 <= v < 16 -> hex_nibble (hex_digit v) = Some v.
Proof.
  intros Hv. unfold hex_nibble, hex_digit, in_range. destruct (Z.ltb_spec v 10).
  - rewrite (proj2 (Z.leb_le _ _)), (proj2 (Z.leb_le _ _)) by lia. cbn [andb]. f_equal. lia.
  - rewrite (proj2 (Z.leb_gt (87 + v) 57)) by lia. rewrite andb_false_r, !(proj2 (Z.leb_le _ _)) by lia. cbn [andb]. f_equal. lia.
Qed.

(** A digest written in hexadecimal reads back. *)
Lemma hex_array_roundtrip `{HexLaws} bs :
  zlen bs = 32 -> Forall (fun b => 0 <= b < 256) bs -> hex_to_array (hex_string bs) = Some bs.
Proof.
  intros Hl Hb. rewrite hex_string_digits. unfold hex_to_array. cbv zeta.
  assert (Hascii : Forall (fun c => 0 <= c < 128) (concat (map (fun b => [hex_digit (b / 16); hex_digit (b mod 16)]) bs))).
  { clear Hl. induction Hb as [|b bs Hb _ IH]; cbn [map concat app]; [constructor|]. unfold hex_digit.
    apply Forall_cons; split; [destruct (Z.ltb_spec (b / 16) 10); Z.div_mod_to_equations; lia|].
    apply Forall_cons; split; [destruct (Z.ltb_spec (b mod 16) 10); Z.div_mod_to_equations; lia | exact IH]. }
  rewrite as_bytes_ascii by done. assert (Hlen : forall l : bytes, zlen (concat (map (fun b => [hex_digit (b / 16); hex_digit (b mod 16)]) l)) = 2 * zlen l).
  { unfold zlen. induction l as [|x l IH]; cbn [map concat app length]; [done|]. lia. }
  rewrite Hlen, Hl. cbn [negb]. change (2 * 32 =? SHA256_HEX_LEN) with true. cbn [negb]. clear Hl Hascii Hlen.
  induction Hb as [|b bs Hb _ IH]; cbn [map concat app hex_pairs]; [done|].
  rewrite !hex_nibble_digit by (Z.div_mod_to_equations; lia). rewrite IH. do 2 f_equal.
  rewrite shl8_small by (Z.div_mod_to_equations; lia). rewrite <- Z.shiftl_mul_pow2, lor_shiftl_add by (Z.div_mod_to_equations; lia). Z.div_mod_to_equations. lia.
Qed.

Lemma hex_nibble_range c v : hex_nibble c = Some v -> 0 <= v < 16.
Proof.
  unfold hex_nibble, in_range.
  destruct (Z.leb_spec 48 c), (Z.leb_spec c 57), (Z.leb_spec 97 c), (Z.leb_spec c 102), (Z.leb_spec 65 c), (Z.leb_spec c 70); cbn [andb]; intros [= <-]; lia.
Qed.

Lemma hex_pairs_ok n bs out :
  length bs = (2 * n)%nat -> hex_pairs bs = Some out -> length out = n /\ Forall (fun b => 0 <= b < 256) out.
Proof.
  revert bs out. induction n as [|n IH]; intros bs out Hl; [by destruct bs as [|? [|]]; cbn in *; try lia; intros [= <-]|].
  destruct bs as [|hi [|lo rest]]; cbn [length] in Hl; [lia | lia|]. cbn [hex_pairs].
  destruct (hex_nibble hi) as [h|] eqn:Eh; [|done]. destruct (hex_nibble lo) as [l|] eqn:El; [|done]. destruct (hex_pairs rest) as [o|] eqn:Er; [|done]. intros [= <-].
  destruct (IH rest o ltac:(lia) Er) as [Hlen Hr]. split; [cbn; lia|]. constructor; [|done].
  apply hex_nibble_range in Eh, El. rewrite shl8_small by lia. rewrite <- Z.shiftl_mul_pow2, lor_shiftl_add by lia. lia.
Qed.

Lemma hex_to_array_ok s bs : hex_to_array s = Some bs -> zlen bs = 32 /\ Forall (fun b => 0 <= b < 256) bs.
Proof.
  unfold hex_to_array. cbv zeta. destruct (Z.eqb_spec (zlen (as_bytes s)) SHA256_HEX_LEN) as [Hl|]; cbn [negb]; [|done].
  intros Hp. destruct (hex_pairs_ok 32 (as_bytes s) bs) as [H1 H2]; [unfold zlen, SHA256_HEX_LEN in Hl; lia | done|]. unfold zlen. rewrite H1. done.
Qed.
