(* ===== verification/GuardState.v ===== *)
(** * Guard root state machine ([crates/core/src/guard_state.rs])

    The seven states of a registered guard root, the twelve events that drive
    them, the policy identity that makes attestations reusable, the clean
    attestation, the transaction receipt and its conservation check, and the
    persistent root record.  Hashing, hexadecimal encoding and JSON
    serialization belong to other crates and enter as the class
    [GuardDigests]. *)

From S2P Require Import Prelude.

Definition GUARD_SCHEMA_VERSION : Z := 1.
Definition GUARD_REPORT_SEMANTICS_VERSION : Z := 2.
Definition GUARD_DECODE_POLICY_VERSION : Z := 1.

Inductive GitHashAlgorithm := Sha1 | Sha256.

Inductive GuardRootMode := Repo | Filesystem.

Definition GuardRootMode_all : list GuardRootMode := [Repo; Filesystem].

Definition GuardRootMode_label (m : GuardRootMode) : str :=
  match m with Repo => $"repo" | Filesystem => $"filesystem" end.

Inductive GuardRootState :=
| Indexing | Current | Dirty | Blocked | Degraded | StalePolicy | Stopped.

Definition may_authorize_commit (self : GuardRootState) : bool := false.

Definition needs_repair (self : GuardRootState) : bool :=
  match self with Degraded | StalePolicy => true | _ => false end.

Definition GuardRootState_all : list GuardRootState :=
  [Indexing; Current; Dirty; Blocked; Degraded; StalePolicy; Stopped].

Definition GuardRootState_label (s : GuardRootState) : str :=
  match s with
  | Indexing => $"indexing"
  | Current => $"current"
  | Dirty => $"dirty"
  | Blocked => $"blocked"
  | Degraded => $"degraded"
  | StalePolicy => $"stale-policy"
  | Stopped => $"stopped"
  end.

(** [StoppedEvent] is the variant the source calls [GuardTransition::Stopped]. *)
Inductive GuardTransition :=
| ReconciliationStarted | ReconciliationClean | ReconciliationFindings
| ReconciliationDegraded | EventAccepted | EventsClean | EventsFindings
| EventsDegraded | CoverageLost | PolicyChanged | RepairStarted | StoppedEvent.

Inductive TransitionError := Illegal (event : GuardTransition) (from : GuardRootState).

Definition GuardTransition_all : list GuardTransition :=
  [ReconciliationStarted; ReconciliationClean; ReconciliationFindings;
   ReconciliationDegraded; EventAccepted; EventsClean; EventsFindings;
   EventsDegraded; CoverageLost; PolicyChanged; RepairStarted; StoppedEvent].

Definition GuardTransition_label (e : GuardTransition) : str :=
  match e with
  | ReconciliationStarted => $"reconciliation-started"
  | ReconciliationClean => $"reconciliation-clean"
  | ReconciliationFindings => $"reconciliation-findings"
  | ReconciliationDegraded => $"reconciliation-degraded"
  | EventAccepted => $"event-accepted"
  | EventsClean => $"events-clean"
  | EventsFindings => $"events-findings"
  | EventsDegraded => $"events-degraded"
  | CoverageLost => $"coverage-lost"
  | PolicyChanged => $"policy-changed"
  | RepairStarted => $"repair-started"
  | StoppedEvent => $"stopped"
  end.

Definition transition (self : GuardRootState) (event : GuardTransition) :
    result GuardRootState TransitionError :=
  let result :=
    match self, event with
    | Stopped, ReconciliationStarted => Some Indexing
    | Indexing, ReconciliationClean => Some Current
    | Indexing, ReconciliationFindings => Some Blocked
    | Indexing, ReconciliationDegraded => Some Degraded
    | Current, EventAccepted => Some Dirty
    | Blocked, EventAccepted => Some Dirty
    | Dirty, EventsClean => Some Current
    | Dirty, EventsFindings => Some Blocked
    | Dirty, EventsDegraded => Some Degraded
    | Indexing, CoverageLost => Some Degraded
    | Current, CoverageLost => Some Degraded
    | Dirty, CoverageLost => Some Degraded
    | Blocked, CoverageLost => Some Degraded
    | StalePolicy, CoverageLost => Some Degraded
    | Indexing, PolicyChanged => Some StalePolicy
    | Current, PolicyChanged => Some StalePolicy
    | Dirty, PolicyChanged => Some StalePolicy
    | Blocked, PolicyChanged => Some StalePolicy
    | Degraded, RepairStarted => Some Indexing
    | StalePolicy, RepairStarted => Some Indexing
    | Stopped, StoppedEvent => Some Stopped
    | Indexing, StoppedEvent => Some Stopped
    | Current, StoppedEvent => Some Stopped
    | Dirty, StoppedEvent => Some Stopped
    | Blocked, StoppedEvent => Some Stopped
    | Degraded, StoppedEvent => Some Stopped
    | StalePolicy, StoppedEvent => Some Stopped
    | Degraded, CoverageLost => Some Degraded
    | StalePolicy, PolicyChanged => Some StalePolicy
    | _, _ => None
    end in
  ok_or result (Illegal event self).

#[export] Instance GitHashAlgorithm_eq_dec : EqDecision GitHashAlgorithm.
Proof. solve_decision. Defined.
#[export] Instance GuardRootMode_eq_dec : EqDecision GuardRootMode.
Proof. solve_decision. Defined.
#[export] Instance GuardRootState_eq_dec : EqDecision GuardRootState.
Proof. solve_decision. Defined.
#[export] Instance GuardTransition_eq_dec : EqDecision GuardTransition.
Proof. solve_decision. Defined.

(** ** Policy identity *)

Record GuardPolicyIdentity := {
  build_identity : str;
  detector_digest : str;
  suppression_digest : str;
  keyhogignore_digest : str;
  config_digest : str;
  decode_policy_version : Z;
  source_policy_digest : str;
  guard_schema_version : Z;
  report_semantics_version : Z }.

#[export] Instance GuardPolicyIdentity_eq_dec : EqDecision GuardPolicyIdentity.
Proof. solve_decision. Defined.

(** The [blake3], [hex] and [serde_json] crates.  [blake3_hash] hashes the
    concatenation of a hasher's updates; [policy_to_vec] is
    [serde_json::to_vec] of a policy identity. *)
Class GuardDigests := {
  blake3_hash : bytes -> bytes;
  hex_encode : bytes -> str;
  json_error : Type;
  policy_to_vec : GuardPolicyIdentity -> result bytes json_error }.

Section policy.
Context `{GuardDigests}.

Definition compute_digest (domain : str) (content : bytes) : str :=
  hex_encode (blake3_hash (as_bytes domain ++ as_bytes $":" ++ content)).

Definition default_suppression_digest : str :=
  compute_digest $"keyhog-suppressions-v1" (as_bytes $"default").
Definition default_keyhogignore_digest : str :=
  compute_digest $"keyhog-ignore-v1" (as_bytes $"none").
Definition default_config_digest : str :=
  compute_digest $"keyhog-config-v1" (as_bytes $"default").
Definition default_source_policy_digest : str :=
  compute_digest $"keyhog-source-policy-v1" (as_bytes $"default").

Definition from_build_and_detectors (build detectors : str) : GuardPolicyIdentity := {|
  build_identity := build;
  detector_digest := detectors;
  suppression_digest := default_suppression_digest;
  keyhogignore_digest := default_keyhogignore_digest;
  config_digest := default_config_digest;
  decode_policy_version := GUARD_DECODE_POLICY_VERSION;
  source_policy_digest := default_source_policy_digest;
  guard_schema_version := GUARD_SCHEMA_VERSION;
  report_semantics_version := GUARD_REPORT_SEMANTICS_VERSION |}.

Definition short_digest (self : GuardPolicyIdentity) : result str json_error :=
  let? bs := policy_to_vec self in
  Ok (hex_encode (take 6 (blake3_hash bs))).

Definition is_compatible_with (self other : GuardPolicyIdentity) : bool :=
  bool_decide (self = other).

Definition GuardPolicyIdentity_default : GuardPolicyIdentity :=
  from_build_and_detectors $"unknown"
    (compute_digest $"keyhog-detectors-v1" (as_bytes $"default")).
End policy.

(** ** Attestations, receipts and root records *)

Record GitCleanAttestation := {
  att_hash_algorithm : GitHashAlgorithm;
  att_blob_oid : str;
  att_object_size : Z;
  att_policy_identity : GuardPolicyIdentity;
  att_last_seen_sequence : Z }.

#[export] Instance GitCleanAttestation_eq_dec : EqDecision GitCleanAttestation.
Proof. solve_decision. Defined.

Record GuardReceipt := {
  objects_requested : Z;
  objects_hit : Z;
  objects_scanned : Z;
  objects_skipped : Z;
  bytes_requested : Z;
  bytes_hit : Z;
  bytes_scanned : Z;
  findings_count : Z;
  coverage_gaps : Z;
  terminal_state : GuardRootState;
  receipt_policy_identity : GuardPolicyIdentity;
  receipt_terminal_sequence : Z }.

#[export] Instance GuardReceipt_eq_dec : EqDecision GuardReceipt.
Proof. solve_decision. Defined.

Inductive ReceiptError :=
| ObjectMismatch (requested accounted : Z)
| ByteMismatch (requested accounted : Z).

Definition validate_conservation (self : GuardReceipt) : outcome (result unit ReceiptError) :=
  let! hs := add_checked u64_max (objects_hit self) (objects_scanned self) in
  let! obj_sum := add_checked u64_max hs (objects_skipped self) in
  if negb (obj_sum =? objects_requested self) then
    Ret (Err (ObjectMismatch (objects_requested self) obj_sum))
  else
    let! byte_sum := add_checked u64_max (bytes_hit self) (bytes_scanned self) in
    if negb (byte_sum =? bytes_requested self) then
      Ret (Err (ByteMismatch (bytes_requested self) byte_sum))
    else Ret (Ok tt).

Record FilesystemAuthority := {
  filesystem_type : str;
  authoritative_fs : bool;
  unauthoritative_reason : option str }.

Definition FilesystemAuthority_default : FilesystemAuthority := {|
  filesystem_type := $"unknown";
  authoritative_fs := false;
  unauthoritative_reason := Some $"unprobed filesystem defaults to unauthoritative" |}.

Definition authoritative (ty : str) : FilesystemAuthority :=
  {| filesystem_type := ty; authoritative_fs := true; unauthoritative_reason := None |}.

Definition unauthoritative (ty reason : str) : FilesystemAuthority :=
  {| filesystem_type := ty; authoritative_fs := false; unauthoritative_reason := Some reason |}.

Record FilesystemIdentity := { device : Z; inode : Z }.

Record GuardTransitionRecord := {
  tr_canonical_path : bytes;
  tr_sequence : Z;
  tr_timestamp : Z;
  tr_from_state : GuardRootState;
  tr_to_state : GuardRootState;
  tr_event : GuardTransition;
  tr_cause : str }.

Record GuardRootRecord := {
  canonical_path : bytes;
  filesystem_identity : FilesystemIdentity;
  filesystem_authority : FilesystemAuthority;
  mode : GuardRootMode;
  state : GuardRootState;
  terminal_sequence : Z;
  accepted_event_sequence : Z;
  completed_event_sequence : Z;
  initial_reconciliation_time : option Z;
  last_reconciliation_time : option Z;
  backend_route_label : str;
  last_receipt : option GuardReceipt;
  recent_transitions : list GuardTransitionRecord }.

#[export] Instance FilesystemAuthority_eq_dec : EqDecision FilesystemAuthority.
Proof. solve_decision. Defined.
#[export] Instance FilesystemIdentity_eq_dec : EqDecision FilesystemIdentity.
Proof. solve_decision. Defined.
#[export] Instance GuardTransitionRecord_eq_dec : EqDecision GuardTransitionRecord.
Proof. solve_decision. Defined.
#[export] Instance GuardRootRecord_eq_dec : EqDecision GuardRootRecord.
Proof. solve_decision. Defined.

(** ** Runs of the state machine *)

(** A sequence of events applied one after the other. *)
Fixpoint run (s : GuardRootState) (events : list GuardTransition) :
    result GuardRootState TransitionError :=
  match events with
  | [] => Ok s
  | e :: es => let? s' := transition s e in run s' es
  end.

Lemma run_app s es es' :
  run s (es ++ es') = (let? s' := run s es in run s' es').
Proof.
  revert s. induction es as [|e es IH]; intros s; [done|]. simpl.
  by destruct (transition s e).
Qed.

Lemma run_snoc s es e s' :
  run s (es ++ [e]) = Ok s' <-> exists m, run s es = Ok m /\ transition m e = Ok s'.
Proof.
  rewrite run_app. split.
  - destruct (run s es) as [m|]; [|done]. intros Hm. exists m. split; [done|].
    simpl in Hm. by destruct (transition m e).
  - intros (m & -> & Hm). simpl. by rewrite Hm.
Qed.

Definition starts_reconciliation (e : GuardTransition) : Prop :=
  e = ReconciliationStarted \/ e = RepairStarted.
Definition completes_reconciliation (e : GuardTransition) : Prop :=
  e = ReconciliationClean \/ e = ReconciliationFindings.
Definition incremental (e : GuardTransition) : Prop :=
  e = EventAccepted \/ e = EventsClean \/ e = EventsFindings.

(** The events since the last reconciliation: it was started, it completed
    with full coverage, and since then only incremental events happened. *)
Definition covered (es : list GuardTransition) (rest : list GuardTransition) : Prop :=
  exists pre start rc post,
    es = pre ++ start :: rc :: post /\ starts_reconciliation start /\
    completes_reconciliation rc /\ Forall incremental post /\ rest = rc :: post.

(** What is known of a history that ends in each state. *)
Definition history_ok (s : GuardRootState) (es : list GuardTransition) : Prop :=
  match s with
  | Indexing => exists pre start, es = pre ++ [start] /\ starts_reconciliation start
  | Current => exists rest, covered es rest /\
      (last rest = Some ReconciliationClean \/ last rest = Some EventsClean)
  | Dirty | Blocked => exists rest, covered es rest
  | _ => True
  end.

Lemma covered_snoc es rest e : covered es rest -> incremental e -> covered (es ++ [e]) (rest ++ [e]).
Proof.
  intros (pre & start & rc & post & -> & ? & ? & ? & ->) He.
  exists pre, start, rc, (post ++ [e]). rewrite <- app_assoc. split_and!; try done.
  apply Forall_app. split; [done|]. by apply Forall_singleton.
Qed.

Lemma covered_reconciled pre start rc :
  starts_reconciliation start -> completes_reconciliation rc ->
  covered ((pre ++ [start]) ++ [rc]) [rc].
Proof. intros ??. exists pre, start, rc, []. rewrite <- app_assoc. split_and!; auto. Qed.

#[local] Hint Unfold starts_reconciliation completes_reconciliation incremental : core.

Lemma history_ok_step s e s' es :
  history_ok s es -> transition s e = Ok s' -> history_ok s' (es ++ [e]).
Proof.
  destruct s, e; simpl; intros Hh [= <-]; simpl; try done;
    repeat match goal with
    | H : exists _, covered _ _ /\ _ |- _ => destruct H as (? & ? & _)
    | H : exists _, covered _ _ |- _ => destruct H as (? & ?)
    | H : exists _ _, _ = _ /\ _ |- _ => destruct H as (? & ? & -> & ?)
    end; eauto 7 using covered_snoc, covered_reconciled.
  all: eexists; split; [eapply covered_snoc; eauto|]; rewrite last_snoc; eauto.
Qed.

Lemma run_history s0 es s :
  history_ok s0 [] -> run s0 es = Ok s -> history_ok s es.
Proof.
  intros H0. revert s. induction es as [|e es IH] using rev_ind; intros s.
  - by intros [= <-].
  - intros (m & Hm & He)%run_snoc. eauto using history_ok_step.
Qed.

(** A root that starts out stopped, degraded or with a stale policy reports
    [Current] only after a reconciliation was started and completed with full
    coverage, with nothing but processed filesystem events since (no coverage
    loss, no policy change, no stop), and only when the last outcome was a
    clean one. *)
Theorem current_requires_reconciliation (s0 : GuardRootState) (es : list GuardTransition) :
  s0 = Stopped \/ s0 = Degraded \/ s0 = StalePolicy ->
  run s0 es = Ok Current ->
  exists pre start rc post,
    es = pre ++ start :: rc :: post /\
    (start = ReconciliationStarted \/ start = RepairStarted) /\
    (rc = ReconciliationClean \/ rc = ReconciliationFindings) /\
    Forall (fun e => e = EventAccepted \/ e = EventsClean \/ e = EventsFindings) post /\
    (last (rc :: post) = Some ReconciliationClean \/ last (rc :: post) = Some EventsClean).
Proof.
  intros H0 Hrun. apply run_history in Hrun; [|by destruct H0 as [->|[->| ->]]].
  destruct Hrun as (rest & (pre & start & rc & post & Hes & ? & ? & ? & ->) & ?).
  by exists pre, start, rc, post.
Qed.


(** The receipt check panics exactly when a sum it forms leaves [u64];
    otherwise it reports the object mismatch first, then the byte mismatch,
    and accepts exactly the receipts that conserve both totals. *)
Theorem validate_conservation_spec (r : GuardReceipt) :
  let objs := objects_hit r + objects_scanned r + objects_skipped r in
  let bts := bytes_hit r + bytes_scanned r in
  0 <= objects_skipped r ->
  match validate_conservation r with
  | Panic => u64_max < objs \/ objs = objects_requested r /\ u64_max < bts
  | Ret (Ok _) =>
      objs = objects_requested r /\ bts = bytes_requested r /\ objs <= u64_max /\ bts <= u64_max
  | Ret (Err (ObjectMismatch req acc)) =>
      req = objects_requested r /\ acc = objs /\ acc <> req /\ objs <= u64_max
  | Ret (Err (ByteMismatch req acc)) =>
      objs = objects_requested r /\ req = bytes_requested r /\ acc = bts /\ acc <> req /\
      objs <= u64_max /\ bts <= u64_max
  end.
Proof.
  intros objs bts Hs. subst objs bts. unfold validate_conservation, add_checked.
  repeat (case_match; simplify_eq; reflect_bool); lia.
Qed.

Definition sample_receipt : GuardReceipt := {|
  objects_requested := 3; objects_hit := 1; objects_scanned := 1; objects_skipped := 1;
  bytes_requested := 30; bytes_hit := 10; bytes_scanned := 20; findings_count := 0;
  coverage_gaps := 0; terminal_state := Current;
  receipt_policy_identity := {| build_identity := []; detector_digest := [];
    suppression_digest := []; keyhogignore_digest := []; config_digest := [];
    decode_policy_version := 1; source_policy_digest := []; guard_schema_version := 1;
    report_semantics_version := 2 |};
  receipt_terminal_sequence := 7 |}.

