(* ===== verification/GuardStore.v ===== *)
(** * In-memory guard stores ([crates/core/src/guard_store.rs], first part)

    The bounded hot index of clean attestations, the schema version check and
    the live root registry.  The LRU cache is the [lru] crate's: the class
    [Lru] has the operations the index calls and [LruLaws] their documented
    behaviour in terms of the entries listed from most to least recently used;
    [list_lru] is an instance.  The index takes its lock once per operation,
    except that [invalidate_for_policy] and [invalidate_policy_digest] take it
    twice, so those are modelled as their two critical sections with any
    operations of other threads between them. *)

From S2P Require Import Prelude GuardState.

(** ** The LRU interface *)

Definition lookup_assoc {K V} `{EqDecision K} (k : K) (l : list (K * V)) : option V :=
  snd <$> List.find (fun e => bool_decide (e.1 = k)) l.
Definition remove_assoc {K V} `{EqDecision K} (k : K) (l : list (K * V)) : list (K * V) :=
  List.filter (fun e => negb (bool_decide (e.1 = k))) l.

Class Lru (K V : Type) := {
  lru_cache : Type;
  lru_new : Z -> lru_cache;
  lru_get : K -> lru_cache -> option V * lru_cache;
  lru_put : K -> V -> lru_cache -> option V * lru_cache;
  lru_pop : K -> lru_cache -> option V * lru_cache;
  lru_clear : lru_cache -> lru_cache;
  lru_iter : lru_cache -> list (K * V);
  lru_len : lru_cache -> Z;
  lru_cap : lru_cache -> Z }.
Arguments lru_cache K V {_}.

Class LruLaws (K V : Type) `{EqDecision K} `{!Lru K V} : Prop := {
  lru_iter_new cap : 1 <= cap -> lru_iter (lru_new cap) = [];
  lru_cap_new cap : 1 <= cap -> lru_cap (lru_new cap) = cap;
  lru_iter_get k c :
    lru_iter (lru_get k c).2 =
      match lookup_assoc k (lru_iter c) with
      | Some v => (k, v) :: remove_assoc k (lru_iter c)
      | None => lru_iter c
      end;
  lru_get_value k c : (lru_get k c).1 = lookup_assoc k (lru_iter c);
  lru_iter_put k v c :
    lru_iter (lru_put k v c).2 =
      take (Z.to_nat (lru_cap c)) ((k, v) :: remove_assoc k (lru_iter c));
  lru_iter_pop k c : lru_iter (lru_pop k c).2 = remove_assoc k (lru_iter c);
  lru_pop_value k c : (lru_pop k c).1 = lookup_assoc k (lru_iter c);
  lru_iter_clear c : lru_iter (lru_clear c) = [];
  lru_len_iter c : lru_len c = zlen (lru_iter c);
  lru_cap_get k c : lru_cap (lru_get k c).2 = lru_cap c;
  lru_cap_put k v c : lru_cap (lru_put k v c).2 = lru_cap c;
  lru_cap_pop k c : lru_cap (lru_pop k c).2 = lru_cap c;
  lru_cap_clear c : lru_cap (lru_clear c) = lru_cap c }.

(** ** Hot attestation index *)

Definition DEFAULT_HOT_INDEX_MEMORY : Z := 64 * 1024 * 1024.
Definition ESTIMATED_BYTES_PER_ENTRY : Z := 320.

(** [NonZeroUsize::new(n.max(1))] never fails, so the fallback is not taken. *)
Definition max_entries_for_budget (budget : Z) : Z :=
  let n := budget / ESTIMATED_BYTES_PER_ENTRY in Z.max n 1.

Record HotKey := {
  hk_hash_algorithm : GitHashAlgorithm;
  hk_blob_oid : str;
  hk_policy_short_digest : str }.

#[export] Instance HotKey_eq_dec : EqDecision HotKey.
Proof. solve_decision. Defined.

Section hot_index.
Context `{GuardDigests} `{!Lru HotKey GitCleanAttestation}.

Record HotAttestationIndex := {
  cache : lru_cache HotKey GitCleanAttestation;
  budget : Z }.

Definition with_budget (b : Z) : HotAttestationIndex :=
  let cap := max_entries_for_budget b in
  {| cache := lru_new cap; budget := b |}.

Definition hot_new : HotAttestationIndex := with_budget DEFAULT_HOT_INDEX_MEMORY.

Definition on_cache (self : HotAttestationIndex)
    (c : lru_cache HotKey GitCleanAttestation) : HotAttestationIndex :=
  {| cache := c; budget := budget self |}.

(** [short_digest().unwrap_or_default()]. *)
Definition short_or_default (p : GuardPolicyIdentity) : str :=
  match short_digest p with Ok d => d | Err _ => [] end.

Definition hot_get (a : GitHashAlgorithm) (oid policy_short : str)
    (self : HotAttestationIndex) : option GitCleanAttestation * HotAttestationIndex :=
  let key := {| hk_hash_algorithm := a; hk_blob_oid := oid;
                hk_policy_short_digest := policy_short |} in
  let '(r, c) := lru_get key (cache self) in (r, on_cache self c).

Definition attestation_hot_key (att : GitCleanAttestation) : HotKey :=
  {| hk_hash_algorithm := att_hash_algorithm att;
     hk_blob_oid := att_blob_oid att;
     hk_policy_short_digest := short_or_default (att_policy_identity att) |}.

Definition hot_insert (att : GitCleanAttestation) (self : HotAttestationIndex) :
    HotAttestationIndex :=
  let key := attestation_hot_key att in
  on_cache self (lru_put key att (cache self)).2.

Definition hot_remove (a : GitHashAlgorithm) (oid policy_short : str)
    (self : HotAttestationIndex) : option GitCleanAttestation * HotAttestationIndex :=
  let key := {| hk_hash_algorithm := a; hk_blob_oid := oid;
                hk_policy_short_digest := policy_short |} in
  let '(r, c) := lru_pop key (cache self) in (r, on_cache self c).

(** First critical section of [invalidate_for_policy]. *)
Definition stale_for_policy (current : GuardPolicyIdentity) (self : HotAttestationIndex) :
    list HotKey :=
  let current_short := short_or_default current in
  foldr (fun '(key, value) to_remove =>
    let key_digest := hk_policy_short_digest key in
    let value_digest := short_or_default (att_policy_identity value) in
    if negb (bool_decide (key_digest = current_short)) ||
       negb (bool_decide (value_digest = current_short))
    then key :: to_remove else to_remove) [] (lru_iter (cache self)).

(** Second critical section, shared by both invalidations: the counter is
    bounded by the length of the vector, so [+= 1] does not overflow. *)
Fixpoint pop_all (to_remove : list HotKey) (removed : Z) (self : HotAttestationIndex) :
    Z * HotAttestationIndex :=
  match to_remove with
  | [] => (removed, self)
  | key :: rest =>
      let '(r, c) := lru_pop key (cache self) in
      pop_all rest (if r then removed + 1 else removed) (on_cache self c)
  end.

Definition invalidate_for_policy (current : GuardPolicyIdentity) (self : HotAttestationIndex) :
    Z * HotAttestationIndex :=
  pop_all (stale_for_policy current self) 0 self.

(** First critical section of [invalidate_policy_digest]. *)
Definition matching_digest (stale_digest : str) (self : HotAttestationIndex) : list HotKey :=
  foldr (fun '(key, _) to_remove =>
    if bool_decide (hk_policy_short_digest key = stale_digest)
    then key :: to_remove else to_remove) [] (lru_iter (cache self)).

Definition invalidate_policy_digest (stale_digest : str) (self : HotAttestationIndex) :
    Z * HotAttestationIndex :=
  match stale_digest with
  | [] => (0, self)
  | _ => pop_all (matching_digest stale_digest self) 0 self
  end.

Definition hot_len (self : HotAttestationIndex) : Z := lru_len (cache self).
Definition hot_is_empty (self : HotAttestationIndex) : bool := lru_len (cache self) =? 0.
Definition hot_clear (self : HotAttestationIndex) : HotAttestationIndex :=
  on_cache self (lru_clear (cache self)).
End hot_index.

(** ** Schema versions *)

Inductive GuardStoreError :=
| SchemaTooNew (found supported : Z)
| SchemaObsolete (found : Z)
| Corrupt (detail : str)
| UnsafePath (detail : str)
| Io (msg : str)
| UncleanShutdown.

Definition check_schema_version (found : Z) : result unit GuardStoreError :=
  if GUARD_SCHEMA_VERSION <? found then Err (SchemaTooNew found GUARD_SCHEMA_VERSION)
  else if found <? 1 then Err (SchemaObsolete found)
  else Ok tt.

(** ** Root registry *)

Abbreviation RootRegistry := (gmap bytes GuardRootRecord).

Definition registry_new : RootRegistry := ∅.

Definition register (path : bytes) (fs_identity : FilesystemIdentity)
    (fs_authority : FilesystemAuthority) (m : GuardRootMode) (self : RootRegistry) :
    GuardRootRecord * RootRegistry :=
  let record := {|
    canonical_path := path;
    filesystem_identity := fs_identity;
    filesystem_authority := fs_authority;
    mode := m;
    state := Stopped;
    terminal_sequence := 0;
    accepted_event_sequence := 0;
    completed_event_sequence := 0;
    initial_reconciliation_time := None;
    last_reconciliation_time := None;
    backend_route_label := [];
    last_receipt := None;
    recent_transitions := [] |} in
  (record, <[path := record]> self).

Definition insert_record (record : GuardRootRecord) (self : RootRegistry) : RootRegistry :=
  <[canonical_path record := record]> self.

Definition registry_get (path : bytes) (self : RootRegistry) : option GuardRootRecord :=
  self !! path.

Definition registry_remove (path : bytes) (self : RootRegistry) :
    option GuardRootRecord * RootRegistry :=
  (self !! path, delete path self).

Definition registry_list (self : RootRegistry) : list GuardRootRecord :=
  (map_to_list self).*2.

Definition registry_len (self : RootRegistry) : Z := Z.of_nat (size self).

Definition count_by_state (s : GuardRootState) (self : RootRegistry) : Z :=
  zlen (List.filter (fun r => bool_decide (state r = s)) (registry_list self)).

(** ** Association-list lemmas *)

Section assoc.
Context {K V : Type} `{EqDecision K}.
Implicit Types (l : list (K * V)) (k : K) (v : V).

Lemma elem_of_List_filter {A} (f : A -> bool) (x : A) (l : list A) :
  x ∈ List.filter f l <-> x ∈ l /\ f x = true.
Proof. rewrite !list_elem_of_In. apply filter_In. Qed.

Lemma elem_of_remove_assoc e k l : e ∈ remove_assoc k l <-> e ∈ l /\ e.1 <> k.
Proof. unfold remove_assoc. rewrite elem_of_List_filter, negb_true_iff, bool_decide_eq_false. done. Qed.

Lemma List_filter_length {A} (f : A -> bool) (l : list A) :
  (length (List.filter f l) <= length l)%nat.
Proof. induction l; simpl; [done|]. case_match; simpl; lia. Qed.

Lemma lookup_assoc_None k l : lookup_assoc k l = None <-> k ∉ l.*1.
Proof.
  unfold lookup_assoc. induction l as [|[k' v'] l IH]; simpl; [by split; [intros _; apply not_elem_of_nil|]|].
  rewrite not_elem_of_cons. case_bool_decide; simpl; subst; [naive_solver|].
  rewrite IH. naive_solver.
Qed.

Lemma lookup_assoc_elem k v l : lookup_assoc k l = Some v -> (k, v) ∈ l.
Proof.
  unfold lookup_assoc. intros ([k' v'] & Hf & [= <-])%fmap_Some.
  apply List.find_some in Hf as [? ?%bool_decide_eq_true]. simpl in *. subst.
  by apply list_elem_of_In.
Qed.

Lemma lookup_assoc_cons k k' v l :
  lookup_assoc k ((k', v) :: l) = if decide (k' = k) then Some v else lookup_assoc k l.
Proof. unfold lookup_assoc. simpl. case_bool_decide; by case_decide. Qed.

Lemma lookup_assoc_Some k v l : NoDup l.*1 -> (k, v) ∈ l -> lookup_assoc k l = Some v.
Proof.
  induction l as [|[k' v'] l IH]; [by intros _ ?%not_elem_of_nil|].
  rewrite fmap_cons, NoDup_cons, lookup_assoc_cons. intros [Hn Hd] [?|Hin]%elem_of_cons.
  - simplify_eq. by rewrite decide_True.
  - rewrite decide_False; [by apply IH|]. intros ->. apply Hn, list_elem_of_fmap. by exists (k, v).
Qed.

Lemma remove_assoc_NoDup k l : NoDup l.*1 -> NoDup (remove_assoc k l).*1.
Proof.
  unfold remove_assoc. induction l as [|[k' v'] l IH]; [done|]. rewrite fmap_cons, NoDup_cons.
  intros [Hn Hd]. simpl. case_bool_decide; simpl; [by apply IH|].
  apply NoDup_cons. split; [|by apply IH].
  intros ([a b] & ? & ?%elem_of_List_filter)%list_elem_of_fmap. simplify_eq/=.
  apply Hn, list_elem_of_fmap. exists (a, b). naive_solver.
Qed.

Lemma remove_assoc_not_elem k l : k ∉ (remove_assoc k l).*1.
Proof. intros (e & -> & ?%elem_of_remove_assoc)%list_elem_of_fmap. naive_solver. Qed.

Lemma remove_assoc_id k l : k ∉ l.*1 -> remove_assoc k l = l.
Proof.
  unfold remove_assoc. induction l as [|e l IH]; simpl; [done|]. intros Hk%not_elem_of_cons.
  rewrite bool_decide_eq_false_2 by (intros <-; naive_solver). simpl. f_equal. naive_solver.
Qed.

Lemma length_remove_assoc k l :
  NoDup l.*1 -> length l = (length (remove_assoc k l) + (if lookup_assoc k l then 1 else 0))%nat.
Proof.
  induction l as [|[k' v'] l IH]; [done|]. rewrite fmap_cons, NoDup_cons. intros [Hn Hd].
  unfold remove_assoc, lookup_assoc in *. simpl in *. case_bool_decide as Hk; simpl.
  - subst. fold (remove_assoc k l). rewrite remove_assoc_id by done. lia.
  - rewrite (IH Hd). destruct (List.find _ l); simpl; lia.
Qed.

Lemma remove_assoc_comm k (f : K * V -> bool) l :
  remove_assoc k (List.filter f l) = List.filter f (remove_assoc k l).
Proof.
  unfold remove_assoc. induction l as [|e l IH]; [done|]. simpl.
  destruct (f e) eqn:E1, (negb (bool_decide (e.1 = k))) eqn:E2; simpl; rewrite ?E1, ?E2, ?IH; done.
Qed.

Lemma List_filter_filter {A} (f g : A -> bool) (l : list A) :
  List.filter f (List.filter g l) = List.filter (fun x => g x && f x) l.
Proof.
  induction l as [|x l IH]; [done|]. simpl. destruct (g x); simpl; [|done].
  destruct (f x); simpl; by rewrite IH.
Qed.
End assoc.

Create HintDb guard.
#[local] Hint Resolve remove_assoc_NoDup remove_assoc_not_elem : guard.

(** A concrete LRU: the entries from most to least recently used. *)
#[export] Instance list_lru (K V : Type) `{EqDecision K} : Lru K V := {|
  lru_cache := Z * list (K * V);
  lru_new cap := (cap, []);
  lru_get k c :=
    (lookup_assoc k c.2,
     (c.1, match lookup_assoc k c.2 with
           | Some v => (k, v) :: remove_assoc k c.2
           | None => c.2
           end));
  lru_put k v c :=
    (lookup_assoc k c.2, (c.1, take (Z.to_nat c.1) ((k, v) :: remove_assoc k c.2)));
  lru_pop k c := (lookup_assoc k c.2, (c.1, remove_assoc k c.2));
  lru_clear c := (c.1, []);
  lru_iter c := c.2;
  lru_len c := zlen c.2;
  lru_cap c := c.1 |}.

#[export] Instance list_lru_laws K V `{EqDecision K} : LruLaws K V.
Proof. split; done. Qed.

(** ** Theorems of the hot index *)

Section hot_proofs.
Context `{GuardDigests} `{!Lru HotKey GitCleanAttestation} `{!LruLaws HotKey GitCleanAttestation}.
Implicit Types (idx : HotAttestationIndex).

Definition entries idx : list (HotKey * GitCleanAttestation) := lru_iter (cache idx).

(** Each entry is stored under the key of its own attestation, no key occurs
    twice, and the entry count respects the memory budget. *)
Record hot_ok idx : Prop := {
  hot_keyed : Forall (fun e => e.1 = attestation_hot_key e.2) (entries idx);
  hot_nodup : NoDup (entries idx).*1;
  hot_cap : lru_cap (cache idx) = max_entries_for_budget (budget idx);
  hot_size : zlen (entries idx) <= max_entries_for_budget (budget idx) }.

(** The critical sections any thread may run. *)
Inductive hot_op :=
| OpGet (a : GitHashAlgorithm) (oid policy_short : str)
| OpInsert (att : GitCleanAttestation)
| OpRemove (a : GitHashAlgorithm) (oid policy_short : str)
| OpPopAll (keys : list HotKey)
| OpClear.

Definition hot_step idx (op : hot_op) : HotAttestationIndex :=
  match op with
  | OpGet a oid p => (hot_get a oid p idx).2
  | OpInsert att => hot_insert att idx
  | OpRemove a oid p => (hot_remove a oid p idx).2
  | OpPopAll keys => (pop_all keys 0 idx).2
  | OpClear => hot_clear idx
  end.

Lemma hot_ok_sublist idx c :
  hot_ok idx -> lru_cap c = lru_cap (cache idx) ->
  Forall (fun e => e.1 = attestation_hot_key e.2) (lru_iter c) ->
  NoDup (lru_iter c).*1 ->
  (length (lru_iter c) <= length (entries idx))%nat \/
  (length (lru_iter c) <= Z.to_nat (lru_cap c))%nat ->
  hot_ok (on_cache idx c).
Proof.
  intros [Hk Hn Hc Hs] Hcap HF Hd Hl. split; [done | done | simpl; congruence | ].
  unfold on_cache, entries, zlen in *. simpl.
  rewrite Hcap, Hc in Hl.
  assert (1 <= max_entries_for_budget (budget idx)) by (unfold max_entries_for_budget; lia). lia.
Qed.

Lemma max_entries_pos b : 1 <= max_entries_for_budget b.
Proof. unfold max_entries_for_budget. lia. Qed.

Lemma pop_ok k idx : hot_ok idx -> hot_ok (on_cache idx (lru_pop k (cache idx)).2).
Proof.
  intros Hok. pose proof Hok as [Hk Hn Hc Hs]. unfold entries in *.
  apply hot_ok_sublist; [done | by rewrite lru_cap_pop | ..]; rewrite lru_iter_pop; auto with guard.
  - apply Forall_forall. intros e [He _]%elem_of_remove_assoc.
    by rewrite Forall_forall in Hk; apply Hk.
  - left. unfold remove_assoc. apply List_filter_length.
Qed.

Lemma get_ok k idx : hot_ok idx -> hot_ok (on_cache idx (lru_get k (cache idx)).2).
Proof.
  intros Hok. pose proof Hok as [Hk Hn Hc Hs]. unfold entries in *.
  pose proof (length_remove_assoc k _ Hn) as Hl.
  apply hot_ok_sublist; [done | by rewrite lru_cap_get | ..]; rewrite lru_iter_get;
    destruct (lookup_assoc k (lru_iter (cache idx))) as [v|] eqn:E; try done; try (by left).
  - rewrite Forall_forall in Hk |- *. apply lookup_assoc_elem in E.
    intros e [->|[He _]%elem_of_remove_assoc]%elem_of_cons; by apply Hk.
  - rewrite fmap_cons, NoDup_cons. auto with guard.
  - left. unfold entries. simpl. lia.
Qed.

Lemma insert_ok att idx : hot_ok idx -> hot_ok (hot_insert att idx).
Proof.
  intros Hok. pose proof Hok as [Hk Hn Hc Hs]. unfold entries, hot_insert in *.
  apply hot_ok_sublist; [done | by rewrite lru_cap_put | ..]; rewrite lru_iter_put.
  - apply Forall_take, Forall_cons. split; [done|]. rewrite Forall_forall in Hk |- *.
    intros e [He _]%elem_of_remove_assoc. by apply Hk.
  - rewrite fmap_take. eapply sublist_NoDup; [|apply sublist_take].
    rewrite fmap_cons, NoDup_cons. auto with guard.
  - right. rewrite length_take, lru_cap_put. lia.
Qed.

Lemma pop_all_ok keys n idx : hot_ok idx -> hot_ok (pop_all keys n idx).2.
Proof.
  revert n idx. induction keys as [|k keys IH]; intros n idx Hok; simpl; [done|].
  pose proof (pop_ok k idx Hok). destruct (lru_pop k (cache idx)) as [r c]. by apply IH.
Qed.

Lemma hot_step_ok idx op : hot_ok idx -> hot_ok (hot_step idx op).
Proof.
  intros Hok. destruct op as [a oid p|att|a oid p|keys|]; simpl.
  - unfold hot_get. pose proof (get_ok {| hk_hash_algorithm := a; hk_blob_oid := oid;
      hk_policy_short_digest := p |} idx Hok). by destruct (lru_get _ _).
  - by apply insert_ok.
  - unfold hot_remove. pose proof (pop_ok {| hk_hash_algorithm := a; hk_blob_oid := oid;
      hk_policy_short_digest := p |} idx Hok). by destruct (lru_pop _ _).
  - by apply pop_all_ok.
  - unfold hot_clear. apply hot_ok_sublist; [done | apply lru_cap_clear | ..];
      rewrite lru_iter_clear; [constructor | constructor | left; simpl; lia].
Qed.

Lemma hot_steps_ok ops idx : hot_ok idx -> hot_ok (foldl hot_step idx ops).
Proof. revert idx. induction ops; simpl; auto using hot_step_ok. Qed.

Lemma with_budget_ok b : hot_ok (with_budget b).
Proof.
  pose proof (max_entries_pos b).
  split; unfold with_budget, entries; simpl; rewrite ?lru_iter_new, ?lru_cap_new by done;
    try constructor. unfold zlen. simpl. lia.
Qed.

Definition stale_entry (cur : GuardPolicyIdentity) (e : HotKey * GitCleanAttestation) : bool :=
  negb (bool_decide (short_or_default (att_policy_identity e.2) = short_or_default cur)).

Lemma stale_keys_spec cur idx k :
  hot_ok idx ->
  k ∈ stale_for_policy cur idx <->
  exists att, (k, att) ∈ entries idx /\ stale_entry cur (k, att) = true.
Proof.
  intros [Hk _ _ _]. unfold stale_for_policy, entries, stale_entry in *.
  induction Hk as [|[k' att'] l Hka Hl IH]; [simpl; split; [by intros ?%not_elem_of_nil | naive_solver set_solver]|].
  simpl in *. subst k'. unfold attestation_hot_key at 1. cbn [hk_policy_short_digest].
  rewrite orb_diag. case_bool_decide as Hd; simpl; rewrite ?elem_of_cons, IH; split.
  - intros (att & ? & ?). exists att. by rewrite elem_of_cons; auto.
  - intros (att & [?|?]%elem_of_cons & ?); simplify_eq; [|eauto].
    by rewrite bool_decide_eq_true_2 in *.
  - intros [->|(att & ? & ?)].
    + exists att'. rewrite bool_decide_eq_false_2 by done. split; [by left | done].
    + exists att. by rewrite elem_of_cons; auto.
  - intros (att & [?|?]%elem_of_cons & ?); simplify_eq; eauto.
Qed.

Lemma stale_key_digest cur idx k :
  hot_ok idx -> k ∈ stale_for_policy cur idx -> hk_policy_short_digest k <> short_or_default cur.
Proof.
  intros Hok (att & Hin & Hst)%stale_keys_spec; [|done]. destruct Hok as [Hk _ _ _].
  rewrite Forall_forall in Hk. apply Hk in Hin. simpl in Hin. subst k.
  unfold stale_entry in Hst. by apply negb_true_iff, bool_decide_eq_false in Hst.
Qed.

Lemma pop_all_spec keys n idx :
  hot_ok idx ->
  entries (pop_all keys n idx).2 = List.filter (fun e => negb (bool_decide (e.1 ∈ keys))) (entries idx) /\
  (pop_all keys n idx).1 = n + zlen (entries idx) - zlen (entries (pop_all keys n idx).2).
Proof.
  revert n idx. induction keys as [|k keys IH]; intros n idx Hok; simpl.
  - split; [|lia]. induction (entries idx) as [|e l IHl]; [done|]. simpl.
    by f_equal.
  - pose proof (pop_ok k idx Hok) as Hok'. pose proof (lru_iter_pop k (cache idx)) as Hi.
    pose proof (lru_pop_value k (cache idx)) as Hv.
    destruct (lru_pop k (cache idx)) as [r c]. simpl in *.
    destruct (IH (if r then n + 1 else n) _ Hok') as [IHe IHn]. rewrite IHn, IHe.
    unfold entries, on_cache in *. simpl. rewrite Hi. split.
    + unfold remove_assoc. rewrite List_filter_filter. apply filter_ext. intros e.
      rewrite <- negb_orb. f_equal. apply eq_true_iff_eq.
      rewrite orb_true_iff, !bool_decide_eq_true, elem_of_cons. done.
    + pose proof (length_remove_assoc k (lru_iter (cache idx)) (hot_nodup _ Hok)) as Hl.
      rewrite <- Hv in Hl. unfold zlen. destruct r; lia.
Qed.

Lemma pop_all_budget keys n idx : budget (pop_all keys n idx).2 = budget idx.
Proof.
  revert n idx. induction keys as [|k keys IH]; intros n idx; simpl; [done|].
  case_match. by rewrite IH.
Qed.

Lemma hot_steps_budget ops idx : budget (foldl hot_step idx ops) = budget idx.
Proof.
  revert idx. induction ops as [|op ops IH]; intros idx; simpl; [done|]. rewrite IH.
  destruct op; simpl; unfold hot_get, hot_remove; try (by case_match); try done.
  apply pop_all_budget.
Qed.

(** Whatever operations run, in any order, every entry of the hot index sits
    under the key of its own attestation, keys are distinct, and the entry
    count never exceeds what the memory budget allows. *)
Theorem hot_index_invariant (b : Z) (ops : list hot_op) :
  let idx := foldl hot_step (with_budget b) ops in
  Forall (fun e => e.1 = attestation_hot_key e.2) (lru_iter (cache idx)) /\
  NoDup (lru_iter (cache idx)).*1 /\
  hot_len idx <= Z.max 1 (b / 320).
Proof.
  intros idx. pose proof (hot_steps_ok ops _ (with_budget_ok b)) as [? ? ? Hs].
  pose proof (hot_steps_budget ops (with_budget b)) as Hb. fold idx in Hb. simpl in Hb.
  split_and!; [done | done |]. unfold hot_len. rewrite lru_len_iter.
  fold idx in Hs. rewrite Hb in Hs. unfold max_entries_for_budget, ESTIMATED_BYTES_PER_ENTRY in Hs.
  unfold entries in Hs. lia.
Qed.

(** Inserting an attestation makes it retrievable under its algorithm, object
    id and policy digest, and never makes another key return anything but
    what it returned before (or nothing, when evicted). *)
Theorem hot_insert_get (idx : HotAttestationIndex) (att : GitCleanAttestation) :
  hot_ok idx ->
  let idx' := hot_insert att idx in
  (hot_get (att_hash_algorithm att) (att_blob_oid att)
     (short_or_default (att_policy_identity att)) idx').1 = Some att /\
  forall a oid p, {| hk_hash_algorithm := a; hk_blob_oid := oid; hk_policy_short_digest := p |}
                    <> attestation_hot_key att ->
    (hot_get a oid p idx').1 = (hot_get a oid p idx).1 \/ (hot_get a oid p idx').1 = None.
Proof.
  intros Hok idx'. pose proof (max_entries_pos (budget idx)) as Hpos.
  rewrite <- (hot_cap _ Hok) in Hpos.
  assert (forall a oid p i, (hot_get a oid p i).1 = lookup_assoc {| hk_hash_algorithm := a;
    hk_blob_oid := oid; hk_policy_short_digest := p |} (lru_iter (cache i))) as Hget.
  { intros. unfold hot_get. rewrite <- lru_get_value. by destruct (lru_get _ _). }
  unfold idx', hot_insert. rewrite !Hget. simpl. rewrite lru_iter_put.
  destruct (Z.to_nat (lru_cap (cache idx))) as [|m] eqn:Em; [lia|]. cbn [take]. split.
  - by rewrite lookup_assoc_cons, decide_True.
  - intros a oid p Hne. rewrite !Hget. simpl. rewrite lru_iter_put, Em. cbn [take].
    rewrite lookup_assoc_cons, decide_False by done.
    destruct (lookup_assoc _ (take m _)) as [v|] eqn:Ev; [|by right]. left. symmetry.
    apply lookup_assoc_Some; [apply (hot_nodup _ Hok)|].
    apply lookup_assoc_elem, elem_of_take in Ev as (i & Hi & _).
    by apply list_elem_of_lookup_2, elem_of_remove_assoc in Hi as [Hi _].
Qed.

(** Policy invalidation drops its lock between collecting the stale keys and
    popping them.  Whatever other operations run in between, it removes only
    entries of other policies, leaves no entry under a key it found stale, and
    reports exactly how many entries it removed; with nothing in between it
    keeps exactly the entries of the current policy. *)
Theorem invalidate_for_policy_exact
    (cur : GuardPolicyIdentity) (idx : HotAttestationIndex) (ops : list hot_op) :
  hot_ok idx ->
  let idx1 := foldl hot_step idx ops in
  let '(n, idx2) := pop_all (stale_for_policy cur idx) 0 idx1 in
  (forall e, e ∈ lru_iter (cache idx1) ->
     short_or_default (att_policy_identity e.2) = short_or_default cur ->
     e ∈ lru_iter (cache idx2)) /\
  (forall e, e ∈ lru_iter (cache idx) ->
     short_or_default (att_policy_identity e.2) <> short_or_default cur ->
     e.1 ∉ (lru_iter (cache idx2)).*1) /\
  n = hot_len idx1 - hot_len idx2 /\
  lru_iter (cache (invalidate_for_policy cur idx).2) =
    List.filter (fun e => bool_decide
      (short_or_default (att_policy_identity e.2) = short_or_default cur)) (lru_iter (cache idx)).
Proof.
  intros Hok idx1. pose proof (hot_steps_ok ops idx Hok) as Hok1. fold idx1 in Hok1.
  destruct (pop_all_spec (stale_for_policy cur idx) 0 idx1 Hok1) as [He Hn].
  destruct (pop_all_spec (stale_for_policy cur idx) 0 idx Hok) as [He0 _].
  destruct (pop_all _ 0 idx1) as [n idx2]. cbn [fst snd] in *. unfold entries in *.
  unfold hot_len. rewrite !lru_len_iter. split_and!; [| |lia|].
  - intros [k att] Hin Hcur. rewrite He. apply elem_of_List_filter. split; [done|].
    apply negb_true_iff, bool_decide_eq_false. intros Hst.
    apply (stale_key_digest cur idx) in Hst; [|done]. apply Hst.
    pose proof (hot_keyed _ Hok1) as Hk. rewrite Forall_forall in Hk. apply Hk in Hin.
    cbn [fst] in *. by rewrite Hin.
  - intros [k att] Hin Hne (e' & Hk & Hin')%list_elem_of_fmap. rewrite He in Hin'.
    apply elem_of_List_filter in Hin' as [_ Hf%negb_true_iff%bool_decide_eq_false].
    apply Hf. rewrite <- Hk. apply stale_keys_spec; [done|]. exists att.
    split; [done|]. by apply negb_true_iff, bool_decide_eq_false.
  - unfold invalidate_for_policy. rewrite He0. apply filter_ext_in.
    intros [k att] Hin%list_elem_of_In. apply eq_true_iff_eq.
    rewrite negb_true_iff, bool_decide_eq_false, bool_decide_eq_true, stale_keys_spec by done.
    unfold stale_entry, entries. cbn [fst snd]. split.
    + intros Hno. destruct (decide (short_or_default (att_policy_identity att) = short_or_default cur))
        as [|Hd]; [done|]. exfalso. apply Hno. exists att. split; [done|].
      by apply negb_true_iff, bool_decide_eq_false.
    + intros Heq (att' & Hin' & Hst). apply negb_true_iff, bool_decide_eq_false in Hst. apply Hst.
      apply (lookup_assoc_Some _ _ _ (hot_nodup _ Hok)) in Hin, Hin'. congruence.
Qed.
End hot_proofs.

(** ** Theorems of the registry *)

Lemma filter_states_length (l : list GuardRootRecord) :
  sum_list_with (fun s => length (List.filter (fun r => bool_decide (state r = s)) l))
    GuardRootState_all = length l.
Proof.
  induction l as [|r l IH]; [done|]. cbn -[List.filter] in *. cbn [List.filter].
  destruct (state r); simpl; lia.
Qed.

(** The per-state counts the daemon reports partition the registered roots:
    over the seven states they add up to the number of roots. *)
Theorem count_by_state_partition (reg : RootRegistry) :
  foldr (fun s acc => count_by_state s reg + acc) 0 GuardRootState_all = registry_len reg.
Proof.
  assert (registry_len reg = zlen (registry_list reg)) as ->.
  { unfold registry_len, zlen, registry_list. by rewrite length_fmap, length_map_to_list. }
  unfold zlen. rewrite <- filter_states_length. unfold count_by_state, zlen.
  induction GuardRootState_all as [|s ss IH]; [done|]. simpl. lia.
Qed.

(** ** Witnesses *)

(** Digests that keep the hashed bytes: enough to run the definitions. *)
Definition plain_digests : GuardDigests := {|
  blake3_hash b := b; hex_encode b := b; json_error := Empty_set;
  policy_to_vec p := Ok (build_identity p ++ detector_digest p) |}.

Definition sample_policy (d : str) : GuardPolicyIdentity :=
  @from_build_and_detectors plain_digests $"b" d.

Definition sample_attestation (oid d : str) : GitCleanAttestation := {|
  att_hash_algorithm := Sha1; att_blob_oid := oid; att_object_size := 12;
  att_policy_identity := sample_policy d; att_last_seen_sequence := 1 |}.

Definition sample_index : @HotAttestationIndex (list_lru HotKey GitCleanAttestation) :=
  @hot_insert plain_digests _ (sample_attestation $"aa" $"old")
    (@hot_insert plain_digests _ (sample_attestation $"bb" $"new") (with_budget 1000)).

Lemma sample_index_ok : @hot_ok plain_digests _ sample_index.
Proof. apply insert_ok, insert_ok, with_budget_ok. Defined.



