(* ===== verification/DurableStore.v ===== *)
(** * Durable guard store ([crates/core/src/guard_store.rs], second part)

    [DurableGuardStore] keeps root records, clean attestations, coverage gaps
    and the shutdown marker in a [redb] database.  The database and the JSON
    serializer belong to other crates: the classes [Redb] and [GuardJson] have
    the operations the store calls, any of which may fail, and [RedbLaws] and
    [GuardJsonLaws] their documented behaviour.  A write transaction that is
    not committed has no effect. *)

From S2P Require Import Prelude Utf8 GuardState GuardStore.

(** ** The database interface *)

Abbreviation rows_of := (gmap str (gmap bytes bytes)).

Inductive TableError (E : Type) :=
| TableDoesNotExist
| OtherTableError (e : E).
Arguments TableDoesNotExist {E}.
Arguments OtherTableError {E} e.

Class Redb := {
  database : Type;
  write_txn : Type;
  read_txn : Type;
  redb_error : Type;
  display_redb : redb_error -> str;
  begin_write : database -> result write_txn redb_error;
  begin_read : database -> result read_txn redb_error;
  commit : write_txn -> database -> result unit redb_error * database;
  open_table : str -> write_txn -> result write_txn redb_error;
  table_get : str -> bytes -> write_txn -> result (option bytes) redb_error;
  table_insert : str -> bytes -> bytes -> write_txn -> result write_txn redb_error;
  table_remove : str -> bytes -> write_txn -> result write_txn redb_error;
  table_range : str -> write_txn -> result (list (result (bytes * bytes) redb_error)) redb_error;
  read_table : str -> read_txn -> result unit (TableError redb_error);
  read_get : str -> bytes -> read_txn -> result (option bytes) redb_error;
  read_range : str -> read_txn -> result (list (result (bytes * bytes) redb_error)) redb_error }.

Class GuardJson := {
  serde_error : Type;
  display_serde : serde_error -> str;
  record_to_vec : GuardRootRecord -> result bytes serde_error;
  record_from_slice : bytes -> result GuardRootRecord serde_error;
  attestation_to_vec : GitCleanAttestation -> result bytes serde_error;
  attestation_from_slice : bytes -> result GitCleanAttestation serde_error }.

Definition map_err {A E F} (f : E -> F) (r : result A E) : result A F :=
  match r with Ok a => Ok a | Err e => Err (f e) end.

(** A loop whose body may return early with an error. *)
Fixpoint fold_result {A S E} (f : S -> A -> result S E) (s : S) (l : list A) : result S E :=
  match l with
  | [] => Ok s
  | a :: l' => let? s' := f s a in fold_result f s' l'
  end.

Definition META_TABLE : str := $"meta".
Definition ROOTS_TABLE : str := $"roots".
Definition ATTESTATIONS_TABLE : str := $"git_clean_attestations".
Definition ROOT_GAPS_TABLE : str := $"root_gaps".
Definition SERVICE_STATE_TABLE : str := $"service_state".

(** The loop-free byte codecs of [u32]. *)
Definition u32_to_le_bytes (v : Z) : bytes :=
  [v mod 256; v / 256 mod 256; v / 65536 mod 256; v / 16777216 mod 256].
Definition u32_from_le_bytes (bs : bytes) : Z :=
  match bs with
  | [a; b; c; d] => a + 256 * b + 65536 * c + 16777216 * d
  | _ => 0
  end.

Section store.
Context {R : Redb} {J : GuardJson}.

Definition io (what : str) (e : redb_error) : GuardStoreError := Io (what ++ display_redb e).

(** [begin_write], a body that may fail, and [commit]; an early return drops
    the transaction. *)
Definition write_transaction {A} (body : write_txn -> result (A * write_txn) GuardStoreError)
    (commit_msg : str) (db : database) : result A GuardStoreError * database :=
  match map_err (io $"begin write: ") (begin_write db) with
  | Err e => (Err e, db)
  | Ok txn =>
      match body txn with
      | Err e => (Err e, db)
      | Ok (a, txn') =>
          let '(r, db') := commit txn' db in
          ((let? _ := map_err (io commit_msg) r in Ok a), db')
      end
  end.

(** Open a table for reading: [None] when it does not exist. *)
Definition read_open (name msg : str) (db : database) :
    result (option read_txn) GuardStoreError :=
  let? txn := map_err (io $"begin read: ") (begin_read db) in
  match read_table name txn with
  | Ok _ => Ok (Some txn)
  | Err TableDoesNotExist => Ok None
  | Err (OtherTableError e) => Err (io msg e)
  end.

Definition found_version (v : option bytes) : option Z := u32_from_le_bytes <$> v.

Definition ensure_schema : database -> result unit GuardStoreError * database :=
  write_transaction (fun txn =>
    let? txn := map_err (io $"open meta table: ") (open_table META_TABLE txn) in
    let? v := map_err (io $"read schema_version: ")
                (table_get META_TABLE (as_bytes $"schema_version") txn) in
    let? txn := match found_version v with
                | Some version => let? _ := check_schema_version version in Ok txn
                | None =>
                    map_err (io $"write schema_version: ")
                      (table_insert META_TABLE (as_bytes $"schema_version")
                         (u32_to_le_bytes GUARD_SCHEMA_VERSION) txn)
                end in
    let? txn := map_err (io $"create roots table: ") (open_table ROOTS_TABLE txn) in
    let? txn := map_err (io $"create attestations table: ") (open_table ATTESTATIONS_TABLE txn) in
    let? txn := map_err (io $"create root_gaps table: ") (open_table ROOT_GAPS_TABLE txn) in
    let? txn := map_err (io $"create service_state table: ") (open_table SERVICE_STATE_TABLE txn) in
    Ok (tt, txn)) $"commit schema: ".

(** The schema check of [open_read_only]. *)
Definition verify_schema (db : database) : result unit GuardStoreError :=
  let? t := read_open META_TABLE $"open meta table: " db in
  match t with
  | Some txn =>
      let? v := map_err (io $"read schema_version: ")
                  (read_get META_TABLE (as_bytes $"schema_version") txn) in
      match found_version v with
      | Some version => check_schema_version version
      | None => Err (Corrupt $"missing schema_version in meta table")
      end
  | None => Err (Corrupt $"meta table does not exist")
  end.

Definition record_corrupt (e : serde_error) : GuardStoreError :=
  Corrupt ($"deserialize root record: " ++ display_serde e).

Definition load_roots (db : database) : result RootRegistry GuardStoreError :=
  let? t := read_open ROOTS_TABLE $"open roots table: " db in
  match t with
  | None => Ok registry_new
  | Some txn =>
      let? entries := map_err (io $"iterate roots: ") (read_range ROOTS_TABLE txn) in
      fold_result (fun registry entry =>
        let? kv := map_err (io $"read root entry: ") entry in
        let? record := map_err record_corrupt (record_from_slice kv.2) in
        Ok (<[kv.1 := record]> registry)) registry_new entries
  end.

Definition get_root (path : bytes) (db : database) :
    result (option GuardRootRecord) GuardStoreError :=
  let? t := read_open ROOTS_TABLE $"open roots table: " db in
  match t with
  | None => Ok None
  | Some txn =>
      let? entry := map_err (io $"read root entry: ") (read_get ROOTS_TABLE path txn) in
      match entry with
      | Some value =>
          let? record := map_err record_corrupt (record_from_slice value) in Ok (Some record)
      | None => Ok None
      end
  end.

(** Serialize and insert one root record: shared by [save_root] and
    [save_root_with_gaps]. *)
Definition put_root (record : GuardRootRecord) (txn : write_txn) :
    result write_txn GuardStoreError :=
  let? txn := map_err (io $"open roots table: ") (open_table ROOTS_TABLE txn) in
  let? value := map_err (fun e => Io ($"serialize root record: " ++ display_serde e))
                  (record_to_vec record) in
  map_err (io $"insert root: ") (table_insert ROOTS_TABLE (canonical_path record) value txn).

Definition save_root (record : GuardRootRecord) :
    database -> result unit GuardStoreError * database :=
  write_transaction (fun txn => let? txn := put_root record txn in Ok (tt, txn)) $"commit root: ".

Definition remove_root (path : bytes) : database -> result unit GuardStoreError * database :=
  write_transaction (fun txn =>
    let? txn := map_err (io $"open roots table: ") (open_table ROOTS_TABLE txn) in
    let? txn := map_err (io $"remove root: ") (table_remove ROOTS_TABLE path txn) in
    Ok (tt, txn)) $"commit remove root: ".

Definition load_attestations (db : database) : result (list GitCleanAttestation) GuardStoreError :=
  let? t := read_open ATTESTATIONS_TABLE $"open attestations table: " db in
  match t with
  | None => Ok []
  | Some txn =>
      let? entries := map_err (io $"iterate attestations: ") (read_range ATTESTATIONS_TABLE txn) in
      fold_result (fun attestations entry =>
        let? kv := map_err (io $"read attestation entry: ") entry in
        let? att := map_err (fun e => Corrupt ($"deserialize attestation: " ++ display_serde e))
                      (attestation_from_slice kv.2) in
        Ok (attestations ++ [att])) [] entries
  end.

Definition attestation_key (att : GitCleanAttestation) : bytes :=
  let label := match att_hash_algorithm att with Sha1 => $"sha1" | Sha256 => $"sha256" end in
  as_bytes label ++ [0] ++ as_bytes (att_blob_oid att) ++ [0] ++
  as_bytes (detector_digest (att_policy_identity att)).

Definition save_attestation (att : GitCleanAttestation) :
    database -> result unit GuardStoreError * database :=
  let key := attestation_key att in
  write_transaction (fun txn =>
    let? txn := map_err (io $"open attestations table: ") (open_table ATTESTATIONS_TABLE txn) in
    let? value := map_err (fun e => Io ($"serialize attestation: " ++ display_serde e))
                    (attestation_to_vec att) in
    let? txn := map_err (io $"insert attestation: ")
                  (table_insert ATTESTATIONS_TABLE key value txn) in
    Ok (tt, txn)) $"commit attestation: ".

Definition remove_attestation (att : GitCleanAttestation) :
    database -> result unit GuardStoreError * database :=
  let key := attestation_key att in
  write_transaction (fun txn =>
    let? txn := map_err (io $"open attestations table: ") (open_table ATTESTATIONS_TABLE txn) in
    let? txn := map_err (io $"remove attestation: ") (table_remove ATTESTATIONS_TABLE key txn) in
    Ok (tt, txn)) $"commit remove attestation: ".

(** The keys of a range that satisfy a test; an entry that cannot be read is
    skipped ([entry.ok()?]). *)
Fixpoint keys_where (f : bytes -> bool) (l : list (result (bytes * bytes) redb_error)) :
    list bytes :=
  match l with
  | [] => []
  | Ok (k, _) :: l' => if f k then k :: keys_where f l' else keys_where f l'
  | Err _ :: l' => keys_where f l'
  end.

Definition clear_attestations_for_policy (policy_short : str) :
    database -> result Z GuardStoreError * database :=
  write_transaction (fun txn =>
    let? txn := map_err (io $"open attestations table: ") (open_table ATTESTATIONS_TABLE txn) in
    let prefix := as_bytes policy_short in
    let? entries := map_err (io $"iterate attestations: ") (table_range ATTESTATIONS_TABLE txn) in
    let keys_to_remove := keys_where (fun k => ends_with prefix k) entries in
    fold_result (fun '(count, txn) key =>
      let? txn := map_err (io $"remove attestation: ") (table_remove ATTESTATIONS_TABLE key txn) in
      Ok (count + 1, txn)) (0, txn) keys_to_remove) $"commit clear attestations: ".

Definition gap_key (path : bytes) (blob_oid : str) : bytes := path ++ [0] ++ as_bytes blob_oid.

Definition save_root_gap (path : bytes) (blob_oid description : str) :
    database -> result unit GuardStoreError * database :=
  let key := gap_key path blob_oid in
  write_transaction (fun txn =>
    let? txn := map_err (io $"open root_gaps table: ") (open_table ROOT_GAPS_TABLE txn) in
    let? txn := map_err (io $"insert root gap: ")
                  (table_insert ROOT_GAPS_TABLE key (as_bytes description) txn) in
    Ok (tt, txn)) $"commit root gap: ".

(** [k.starts_with(prefix) && k.len() > prefix.len() && k[prefix.len()] == 0] *)
Definition gap_of_root (prefix k : bytes) : bool :=
  starts_with prefix k && (length prefix <? length k)%nat &&
  bool_decide (k !! length prefix = Some 0).

Definition load_root_gaps (path : bytes) (db : database) :
    result (list (str * str)) GuardStoreError :=
  let? t := read_open ROOT_GAPS_TABLE $"open root_gaps table: " db in
  match t with
  | None => Ok []
  | Some txn =>
      let? entries := map_err (io $"iterate root_gaps: ") (read_range ROOT_GAPS_TABLE txn) in
      fold_result (fun gaps entry =>
        let? kv := map_err (io $"read root gap entry: ") entry in
        if gap_of_root path kv.1 then
          Ok (gaps ++ [(from_utf8_lossy (drop (length path + 1) kv.1), from_utf8_lossy kv.2)])
        else Ok gaps) [] entries
  end.

Definition remove_keys (table msg : str) (keys : list bytes) (txn : write_txn) :
    result write_txn GuardStoreError :=
  fold_result (fun txn key => map_err (io msg) (table_remove table key txn)) txn keys.

Definition clear_root_gaps (path : bytes) : database -> result Z GuardStoreError * database :=
  write_transaction (fun txn =>
    let? txn := map_err (io $"open root_gaps table: ") (open_table ROOT_GAPS_TABLE txn) in
    let? entries := map_err (io $"iterate root_gaps: ") (table_range ROOT_GAPS_TABLE txn) in
    let keys_to_remove := keys_where (gap_of_root path) entries in
    let count := zlen keys_to_remove in
    let? txn := remove_keys ROOT_GAPS_TABLE $"remove root gap: " keys_to_remove txn in
    Ok (count, txn)) $"commit clear root gaps: ".

Definition mark_shutdown (v : Z) : database -> result unit GuardStoreError * database :=
  write_transaction (fun txn =>
    let? txn := map_err (io $"open service_state table: ") (open_table SERVICE_STATE_TABLE txn) in
    let? txn := map_err (io $"write clean_shutdown: ")
                  (table_insert SERVICE_STATE_TABLE (as_bytes $"clean_shutdown") [v] txn) in
    Ok (tt, txn)) $"commit service state: ".

Definition mark_unclean_shutdown : database -> result unit GuardStoreError * database :=
  mark_shutdown 0.
Definition mark_clean_shutdown : database -> result unit GuardStoreError * database :=
  mark_shutdown 1.

Definition was_clean_shutdown (db : database) : result bool GuardStoreError :=
  let? t := read_open SERVICE_STATE_TABLE $"open service_state table: " db in
  match t with
  | None => Ok false
  | Some txn =>
      let? value := map_err (io $"read clean_shutdown: ")
                      (read_get SERVICE_STATE_TABLE (as_bytes $"clean_shutdown") txn) in
      Ok (match value with Some v => bool_decide (v = [1]) | None => false end)
  end.

Definition save_root_with_gaps (record : GuardRootRecord) (gaps : list (str * str)) :
    database -> result unit GuardStoreError * database :=
  write_transaction (fun txn =>
    let? txn := put_root record txn in
    let? txn := map_err (io $"open root_gaps table: ") (open_table ROOT_GAPS_TABLE txn) in
    let prefix := canonical_path record in
    let? entries := map_err (io $"iterate root_gaps: ") (table_range ROOT_GAPS_TABLE txn) in
    let keys_to_remove := keys_where (gap_of_root prefix) entries in
    let? txn := remove_keys ROOT_GAPS_TABLE $"remove old root gap: " keys_to_remove txn in
    let? txn := fold_result (fun txn '(blob_oid, desc) =>
      map_err (io $"insert root gap: ")
        (table_insert ROOT_GAPS_TABLE (gap_key prefix blob_oid) (as_bytes desc) txn)) txn gaps in
    Ok (tt, txn)) $"commit root with gaps: ".
End store.

(** ** Documented behaviour of the database and the serializer *)

(** The rows of a table in key order. *)
Definition sorted_rows (m : gmap bytes bytes) : list (bytes * bytes) :=
  sort_by (fun a b => str_cmp a.1 b.1) (map_to_list m).

Definition table (rs : rows_of) (name : str) : gmap bytes bytes := default ∅ (rs !! name).

Class RedbLaws (R : Redb) := {
  rows : database -> rows_of;
  txn_rows : write_txn -> rows_of;
  snapshot : read_txn -> rows_of;
  begin_write_rows db t : begin_write db = Ok t -> txn_rows t = rows db;
  begin_read_rows db t : begin_read db = Ok t -> snapshot t = rows db;
  commit_rows t db r db' :
    commit t db = (r, db') -> rows db' = if is_ok r then txn_rows t else rows db;
  open_table_rows n t t' :
    open_table n t = Ok t' -> txn_rows t' = <[n := table (txn_rows t) n]> (txn_rows t);
  table_get_rows n k t v : table_get n k t = Ok v -> v = table (txn_rows t) n !! k;
  table_insert_rows n k v t t' :
    table_insert n k v t = Ok t' ->
    txn_rows t' = <[n := <[k := v]> (table (txn_rows t) n)]> (txn_rows t);
  table_remove_rows n k t t' :
    table_remove n k t = Ok t' ->
    txn_rows t' = <[n := delete k (table (txn_rows t) n)]> (txn_rows t);
  table_range_rows n t l :
    table_range n t = Ok l -> Forall (fun e => is_ok e = true) l ->
    l = Ok <$> sorted_rows (table (txn_rows t) n);
  read_table_missing n t : read_table n t = Err TableDoesNotExist -> snapshot t !! n = None;
  read_get_rows n k t v : read_get n k t = Ok v -> v = table (snapshot t) n !! k;
  read_range_rows n t l :
    read_range n t = Ok l -> Forall (fun e => is_ok e = true) l ->
    l = Ok <$> sorted_rows (table (snapshot t) n) }.

Class GuardJsonLaws (J : GuardJson) : Prop := {
  record_roundtrip r v : record_to_vec r = Ok v -> record_from_slice v = Ok r;
  attestation_roundtrip a v : attestation_to_vec a = Ok v -> attestation_from_slice v = Ok a }.

(** ** Keys *)

Lemma nul_split (p q a b : bytes) :
  0 ∉ p -> 0 ∉ q -> p ++ [0] ++ a = q ++ [0] ++ b -> p = q /\ a = b.
Proof.
  revert q. induction p as [|x p IH]; intros [|y q] Hp Hq; simpl; intros [=]; subst.
  - done.
  - exfalso. apply Hq. by left.
  - exfalso. apply Hp. by left.
  - apply not_elem_of_cons in Hp as [_ Hp], Hq as [_ Hq].
    by destruct (IH q Hp Hq) as [-> ->].
Qed.

Lemma gap_of_root_spec p k : gap_of_root p k = true <-> exists s, k = p ++ [0] ++ s.
Proof.
  unfold gap_of_root. rewrite !andb_true_iff, starts_with_spec, Nat.ltb_lt, bool_decide_eq_true.
  split.
  - intros [[[t ->] _] Hk]. rewrite lookup_app_r, Nat.sub_diag in Hk by done.
    destruct t as [|x t]; simplify_eq/=. by exists t.
  - intros [s ->]. split_and!; [eauto | rewrite length_app; simpl; lia |].
    by rewrite lookup_app_r, Nat.sub_diag.
Qed.

Lemma gap_key_of_root p q o : 0 ∉ p -> 0 ∉ q -> gap_of_root q (gap_key p o) = true -> q = p.
Proof.
  intros Hp Hq [s Hs]%gap_of_root_spec. unfold gap_key in Hs.
  by apply nul_split in Hs as [-> _].
Qed.

Lemma gap_key_inj p o o' :
  Forall is_scalar o -> Forall is_scalar o' -> gap_key p o = gap_key p o' -> o = o'.
Proof. intros ?? [= Ho]%app_inv_head. by apply as_bytes_inj. Qed.

(** ** Transactions *)

Section laws.
Context {R : Redb} {J : GuardJson} {RL : RedbLaws R} {JL : GuardJsonLaws J}.

Lemma write_transaction_ok {A} body msg db (a : A) db' :
  write_transaction body msg db = (Ok a, db') ->
  exists t t', txn_rows t = rows db /\ body t = Ok (a, t') /\ rows db' = txn_rows t'.
Proof.
  unfold write_transaction. destruct (begin_write db) as [t|e] eqn:Eb; simpl; [|done].
  apply begin_write_rows in Eb. destruct (body t) as [[a' t']|e] eqn:Et; [|done].
  destruct (commit t' db) as [[u|e] d] eqn:Ec; simpl; [|done]. intros [= -> ->].
  apply commit_rows in Ec. eauto.
Qed.

Lemma write_transaction_err {A} body msg db (e : GuardStoreError) db' :
  write_transaction (A := A) body msg db = (Err e, db') -> rows db' = rows db.
Proof.
  unfold write_transaction. destruct (begin_write db) as [t|e'] eqn:Eb; simpl; [|congruence].
  destruct (body t) as [[a' t']|e'] eqn:Et; [|congruence].
  destruct (commit t' db) as [[u|e'] d] eqn:Ec; simpl; [done|]. intros [= _ ->].
  by apply commit_rows in Ec.
Qed.

Lemma table_insert_eq rs n t : table (<[n := t]> rs) n = t.
Proof. unfold table. by rewrite lookup_insert_eq. Qed.
Lemma table_insert_ne rs n m t : n <> m -> table (<[n := t]> rs) m = table rs m.
Proof. intros. unfold table. by rewrite lookup_insert_ne. Qed.

Lemma table_insert_same rs n m : table (<[n := table rs n]> rs) m = table rs m.
Proof.
  destruct (decide (n = m)) as [->|]; [apply table_insert_eq | by apply table_insert_ne].
Qed.

Lemma map_err_Ok {A E F} (f : E -> F) (r : result A E) a : map_err f r = Ok a <-> r = Ok a.
Proof. destruct r; simpl; split; congruence. Qed.

Lemma remove_keys_rows n msg keys t t' m :
  remove_keys n msg keys t = Ok t' ->
  table (txn_rows t') m =
    if decide (m = n) then foldr delete (table (txn_rows t) n) keys else table (txn_rows t) m.
Proof.
  unfold remove_keys. revert t. induction keys as [|k keys IH]; intros t; simpl.
  - intros [= ->]. by case_decide; subst.
  - destruct (table_remove n k t) as [t1|e] eqn:Er; simpl; [|done]. intros Hf.
    rewrite (IH _ Hf). apply table_remove_rows in Er. rewrite Er. case_decide; subst.
    + rewrite table_insert_eq. clear. induction keys as [|k' keys IH]; simpl; [done|].
      rewrite IH. apply delete_delete.
    + by rewrite table_insert_ne.
Qed.

Lemma foldr_delete_lookup (m : gmap bytes bytes) keys k :
  foldr delete m keys !! k = if decide (k ∈ keys) then None else m !! k.
Proof.
  induction keys as [|k' keys IH]; cbn [foldr].
  - rewrite decide_False; [done | apply not_elem_of_nil].
  - destruct (decide (k' = k)) as [->|Hne].
    + rewrite lookup_delete_eq, decide_True; [done | by left].
    + rewrite lookup_delete_ne, IH by done. apply decide_ext. rewrite elem_of_cons. naive_solver.
Qed.

Lemma keys_where_sorted (f : bytes -> bool) (m : gmap bytes bytes) (k : bytes) :
  k ∈ keys_where f (Ok <$> sorted_rows m) <-> is_Some (m !! k) /\ f k = true.
Proof.
  assert (forall l, k ∈ keys_where f (Ok <$> l) <-> (exists v, (k, v) ∈ l) /\ f k = true) as Hl.
  { induction l as [|[k' v'] l IH]; simpl.
    - split; [by intros ?%not_elem_of_nil | intros [[v ?%not_elem_of_nil] _]; done].
    - destruct (f k') eqn:Ef; rewrite ?elem_of_cons, IH; setoid_rewrite elem_of_cons; split.
      + intros [->|[[v Hv] Hf]]; eauto.
      + intros [[v [[= -> ->]|Hv]] Hf]; eauto.
      + intros [[v Hv] Hf]; eauto.
      + intros [[v [[= -> ->]|Hv]] Hf]; [congruence | eauto]. }
  rewrite Hl. unfold sorted_rows. setoid_rewrite elem_of_sort_by. setoid_rewrite elem_of_map_to_list.
  done.
Qed.

Lemma elem_of_sorted_rows m k v : (k, v) ∈ sorted_rows m <-> m !! k = Some v.
Proof. unfold sorted_rows. by rewrite elem_of_sort_by, elem_of_map_to_list. Qed.

Lemma read_open_rows n msg db o :
  read_open n msg db = Ok o ->
  match o with
  | Some t => snapshot t = rows db
  | None => rows db !! n = None
  end.
Proof.
  unfold read_open. destruct (begin_read db) as [t|] eqn:Eb; simpl; [|done].
  apply begin_read_rows in Eb. destruct (read_table n t) as [u|[|e]] eqn:Et; [..|done]; intros [= <-].
  - done.
  - apply read_table_missing in Et. congruence.
Qed.

Definition put_gap (p : bytes) (G : gmap bytes bytes) (g : str * str) : gmap bytes bytes :=
  <[gap_key p g.1 := as_bytes g.2]> G.

Lemma insert_gaps_rows p msg gaps t t' m :
  fold_result (fun txn '(blob_oid, desc) =>
    map_err (io msg)
      (table_insert ROOT_GAPS_TABLE (gap_key p blob_oid) (as_bytes desc) txn)) t gaps = Ok t' ->
  table (txn_rows t') m =
    if decide (m = ROOT_GAPS_TABLE) then foldl (put_gap p) (table (txn_rows t) ROOT_GAPS_TABLE) gaps
    else table (txn_rows t) m.
Proof.
  revert t. induction gaps as [|[o d] gaps IH]; intros t; cbn [fold_result foldl].
  - intros [= ->]. by case_decide; subst.
  - destruct (table_insert _ _ _ t) as [t1|e] eqn:Er; simpl; [|done]. intros Hf.
    rewrite (IH _ Hf). apply table_insert_rows in Er. rewrite Er. case_decide; subst.
    + by rewrite table_insert_eq.
    + by rewrite table_insert_ne.
Qed.

Lemma put_gaps_frame p G gaps k :
  gap_of_root p k = false -> foldl (put_gap p) G gaps !! k = G !! k.
Proof.
  intros Hk. revert G. induction gaps as [|[o d] gaps IH]; intros G; simpl; [done|].
  rewrite IH. unfold put_gap. apply lookup_insert_ne. intros <-.
  apply Bool.not_true_iff_false in Hk. apply Hk, gap_of_root_spec. by eexists.
Qed.

Lemma put_gaps_inv p G gaps k v :
  foldl (put_gap p) G gaps !! k = Some v ->
  G !! k = Some v \/
  exists o d, k = gap_key p o /\ v = as_bytes d /\ lookup_assoc o (rev gaps) = Some d.
Proof.
  induction gaps as [|[o d] gaps IH] using rev_ind; [by left|].
  rewrite foldl_snoc, rev_app_distr. unfold put_gap at 1. cbn [fst snd app rev].
  rewrite lookup_insert. case_decide as Hk.
  - intros [= <-]. right. exists o, d. rewrite lookup_assoc_cons, decide_True by done. done.
  - intros [?|(o' & d' & -> & -> & Hl)]%IH; [by left|]. right. exists o', d'.
    rewrite lookup_assoc_cons, decide_False by (intros ->; done). done.
Qed.

Lemma put_gaps_get p G gaps o d :
  Forall is_scalar o -> Forall (fun g => Forall is_scalar g.1) gaps ->
  lookup_assoc o (rev gaps) = Some d ->
  foldl (put_gap p) G gaps !! gap_key p o = Some (as_bytes d).
Proof.
  intros Ho. induction gaps as [|[o' d'] gaps IH] using rev_ind; [done|].
  intros [Hg [Ho' _]%Forall_cons]%Forall_app.
  rewrite foldl_snoc, rev_app_distr. cbn [app rev]. rewrite lookup_assoc_cons.
  unfold put_gap at 1. cbn [fst snd]. case_decide as Hoo; subst.
  - intros [= <-]. apply lookup_insert_eq.
  - intros Hl. rewrite lookup_insert_ne; [by apply IH|]. intros ?%gap_key_inj; done.
Qed.

Lemma drop_gap_key (q s : bytes) : drop (length q + 1) (q ++ [0] ++ s) = s.
Proof. rewrite app_assoc. apply drop_app_length'. rewrite length_app. simpl. lia. Qed.

Lemma load_gaps_fold q msg entries acc l :
  fold_result (fun gaps entry =>
    let? kv := map_err (io msg) entry in
    if gap_of_root q kv.1 then
      Ok (gaps ++ [(from_utf8_lossy (drop (length q + 1) kv.1), from_utf8_lossy kv.2)])
    else Ok gaps) acc entries = Ok l ->
  Forall (fun e => is_ok e = true) entries /\
  forall o d, (o, d) ∈ l <-> (o, d) ∈ acc \/
    exists s v, Ok (q ++ [0] ++ s, v) ∈ entries /\ o = from_utf8_lossy s /\ d = from_utf8_lossy v.
Proof.
  revert acc. induction entries as [|e entries IH]; intros acc; cbn [fold_result].
  - intros [= ->]. split; [done|]. intros o d. split; [by left|].
    intros [?|(s & v & ?%not_elem_of_nil & _)]; done.
  - destruct e as [[k v]|e]; simpl; [|done].
    destruct (gap_of_root q k) eqn:Eg; intros [HF Hel]%IH; (split; [by constructor|]);
      intros o d; rewrite Hel.
    + apply gap_of_root_spec in Eg as [s ->].
      rewrite drop_gap_key. rewrite elem_of_app, list_elem_of_singleton. setoid_rewrite elem_of_cons. split.
      * intros [[?|[= -> ->]]|(s' & v' & ? & ? & ?)]; [by left | right; exists s, v | right; exists s', v']; auto.
      * intros [?|(s' & v' & [[= Hs ->]|?] & -> & ->)]; [by do 2 left | |right; exists s', v'; auto].
        apply app_inv_head in Hs. simplify_eq. left. by right.
    + setoid_rewrite elem_of_cons. split.
      { intros [?|(s' & v' & ? & ? & ?)]; [by left | right; exists s', v'; auto]. }
      intros [?|(s' & v' & [[= <- <-]|?] & -> & ->)]; [by left | | right; exists s', v'; auto].
      exfalso. apply Bool.not_true_iff_false in Eg. apply Eg, gap_of_root_spec. by eexists.
Qed.

(** What [load_root_gaps] returns, in terms of the stored rows. *)
Lemma load_root_gaps_rows q db l :
  load_root_gaps q db = Ok l ->
  forall o d, (o, d) ∈ l <->
    exists s v, table (rows db) ROOT_GAPS_TABLE !! (q ++ [0] ++ s) = Some v /\
                o = from_utf8_lossy s /\ d = from_utf8_lossy v.
Proof.
  unfold load_root_gaps. destruct (read_open _ _ db) as [[t|]|e] eqn:Eo; [..|done];
    apply read_open_rows in Eo.
  - destruct (read_range ROOT_GAPS_TABLE t) as [es|e] eqn:Er; simpl; [|done].
    intros [HF Hel]%load_gaps_fold o d. rewrite Hel. apply read_range_rows in Er; [|done].
    subst es. rewrite Eo. split.
    + intros [?%not_elem_of_nil|(s & v & Hin & -> & ->)]; [done|]. exists s, v.
      apply list_elem_of_fmap in Hin as (kv & [= <-] & Hin%elem_of_sorted_rows). done.
    + intros (s & v & Hrow & -> & ->). right. exists s, v. split; [|done].
      apply list_elem_of_fmap. eexists. split; [done|]. by apply elem_of_sorted_rows.
  - intros [= <-] o d. unfold table. rewrite Eo. simpl. split; [by intros ?%not_elem_of_nil|].
    intros (s & v & Hl & _). by rewrite lookup_empty in Hl.
Qed.

(** Rows after [save_root_with_gaps]. *)
Lemma save_root_with_gaps_rows record gaps db db' :
  (forall n t l, table_range n t = Ok l -> Forall (fun e => is_ok e = true) l) ->
  save_root_with_gaps record gaps db = (Ok tt, db') ->
  exists v G,
    record_to_vec record = Ok v /\
    table (rows db') ROOTS_TABLE = <[canonical_path record := v]> (table (rows db) ROOTS_TABLE) /\
    table (rows db') ROOT_GAPS_TABLE = foldl (put_gap (canonical_path record)) G gaps /\
    forall k, G !! k = if gap_of_root (canonical_path record) k then None
                       else table (rows db) ROOT_GAPS_TABLE !! k.
Proof.
  intros Hread. unfold save_root_with_gaps, put_root. intros (t & t' & Ht & Hb & Hrows)%write_transaction_ok.
  destruct (open_table ROOTS_TABLE t) as [t1|] eqn:E1; [|done].
  destruct (record_to_vec record) as [v|] eqn:Ev; [|done]. cbn [map_err] in Hb.
  destruct (table_insert _ _ v t1) as [t2|] eqn:E2; [|done]. cbn [map_err] in Hb.
  destruct (open_table ROOT_GAPS_TABLE t2) as [t3|] eqn:E3; [|done]. cbn [map_err] in Hb.
  destruct (table_range _ t3) as [es|] eqn:E4; [|done]. cbn [map_err] in Hb.
  destruct (remove_keys _ _ _ t3) as [t4|] eqn:E5; [|done].
  destruct (fold_result _ t4 gaps) as [t5|] eqn:E6; [|done]. injection Hb as <-.
  pose proof (table_range_rows _ _ _ E4 (Hread _ _ _ E4)) as ->.
  apply open_table_rows in E1, E3. apply table_insert_rows in E2. rewrite E1, Ht in E2.
  rewrite table_insert_eq in E2.
  assert (ROOTS_TABLE <> ROOT_GAPS_TABLE) as Hne by done.
  assert (table (txn_rows t3) ROOT_GAPS_TABLE = table (rows db) ROOT_GAPS_TABLE) as H3.
  { rewrite E3, table_insert_same, E2, !table_insert_ne by done. done. }
  exists v, (table (txn_rows t4) ROOT_GAPS_TABLE). split_and!; [done| | |].
  - rewrite Hrows, (insert_gaps_rows _ _ _ _ _ _ E6), decide_False by done.
    rewrite (remove_keys_rows _ _ _ _ _ _ E5), decide_False by done.
    rewrite E3, table_insert_same, E2. apply table_insert_eq.
  - by rewrite Hrows, (insert_gaps_rows _ _ _ _ _ _ E6), decide_True.
  - intros k. rewrite (remove_keys_rows _ _ _ _ _ _ E5), decide_True by done.
    rewrite foldr_delete_lookup, H3. case_decide as Hk; rewrite keys_where_sorted, ?H3 in Hk.
    + by destruct Hk as [_ ->].
    + destruct (gap_of_root _ k); [|done]. apply eq_None_not_Some. tauto.
Qed.

(** When [save_root_with_gaps] commits, the record reads back as saved, the
    gaps listed for the root are exactly the given ones (the last description
    of an object winning) with every earlier gap of that root gone, and the
    gaps of every other root are what they were. *)
Theorem save_root_with_gaps_correct (record : GuardRootRecord) (gaps : list (str * str)) db db' :
  (forall n t l, table_range n t = Ok l -> Forall (fun e => is_ok e = true) l) ->
  0 ∉ canonical_path record ->
  Forall (fun g => Forall is_scalar g.1 /\ Forall is_scalar g.2) gaps ->
  save_root_with_gaps record gaps db = (Ok tt, db') ->
  (forall r, get_root (canonical_path record) db' = Ok r -> r = Some record) /\
  (forall l, load_root_gaps (canonical_path record) db' = Ok l ->
     forall o d, (o, d) ∈ l <-> lookup_assoc o (rev gaps) = Some d) /\
  (forall q l l', q <> canonical_path record -> 0 ∉ q ->
     load_root_gaps q db = Ok l -> load_root_gaps q db' = Ok l' ->
     forall g, g ∈ l' <-> g ∈ l).
Proof.
  intros Hread Hp Hsc Hsave.
  destruct (save_root_with_gaps_rows _ _ _ _ Hread Hsave) as (v & G & Hv & Hr & Hg & HG).
  assert (Forall (fun g : str * str => Forall is_scalar g.1) gaps) as Hsc1
    by (eapply Forall_impl; [exact Hsc | naive_solver]).
  assert (forall o d, lookup_assoc o (rev gaps) = Some d -> Forall is_scalar o /\ Forall is_scalar d) as Hscl.
  { intros o d Hin%lookup_assoc_elem. rewrite list_elem_of_In, <- in_rev, <- list_elem_of_In in Hin.
    rewrite Forall_forall in Hsc. by apply Hsc in Hin. }
  split_and!.
  - intros r. unfold get_root. destruct (read_open _ _ db') as [[t|]|e] eqn:Eo; [..|done];
      apply read_open_rows in Eo.
    + destruct (read_get _ _ t) as [o|e] eqn:Eg; [|done]. apply read_get_rows in Eg.
      rewrite Eo, Hr, lookup_insert_eq in Eg. subst o. simpl.
      rewrite (record_roundtrip _ _ Hv). simpl. congruence.
    + unfold table at 1 in Hr. rewrite Eo in Hr. simpl in Hr. symmetry in Hr.
      by apply insert_non_empty in Hr.
  - intros l Hl o d. rewrite (load_root_gaps_rows _ _ _ Hl), Hg. split.
    + intros (s & w & Hw & -> & ->). apply put_gaps_inv in Hw as [Hw|(o & d & Hk & -> & Hl')].
      { rewrite HG in Hw. rewrite (proj2 (gap_of_root_spec _ _)) in Hw by eauto. done. }
      unfold gap_key in Hk. apply app_inv_head in Hk. injection Hk as ->.
      destruct (Hscl _ _ Hl'). by rewrite !from_utf8_lossy_as_bytes.
    + intros Hl'. destruct (Hscl _ _ Hl'). exists (as_bytes o), (as_bytes d).
      rewrite !from_utf8_lossy_as_bytes by done. split; [|done]. by apply put_gaps_get.
  - intros q l l' Hq Hq0 Hl Hl' [o d].
    rewrite (load_root_gaps_rows _ _ _ Hl'), (load_root_gaps_rows _ _ _ Hl), Hg.
    assert (forall s, gap_of_root (canonical_path record) (q ++ [0] ++ s) = false) as Hf.
    { intros s. apply Bool.not_true_iff_false. intros [s' Hs]%gap_of_root_spec.
      by apply nul_split in Hs as [? _]. }
    split; intros (s & w & Hw & ?); exists s, w; (split; [|done]);
      rewrite put_gaps_frame, HG, Hf in * by done; done.
Qed.

Lemma length_keys_where (f : bytes -> bool) (l : list (bytes * bytes)) :
  length (keys_where f (Ok <$> l)) = length (List.filter (fun kv => f kv.1) l).
Proof.
  induction l as [|[k v] l IH]; [done|]. rewrite fmap_cons. cbn [keys_where List.filter fst].
  destruct (f k); cbn [length]; by rewrite IH.
Qed.

Lemma clear_loop msg keys n t m t' :
  fold_result (fun '(count, txn) key =>
    let? txn := map_err (io msg) (table_remove ATTESTATIONS_TABLE key txn) in
    Ok (count + 1, txn)) (n, t) keys = Ok (m, t') ->
  (forall name, table (txn_rows t') name =
    if decide (name = ATTESTATIONS_TABLE) then foldr delete (table (txn_rows t) ATTESTATIONS_TABLE) keys else table (txn_rows t) name) /\
  m = n + zlen keys.
Proof.
  revert n t. induction keys as [|k keys IH]; intros n t; cbn [fold_result].
  - intros [= -> ->]. split; [intros name; by case_decide; subst|]. unfold zlen. simpl. lia.
  - destruct (table_remove _ k t) as [t1|] eqn:Er; simpl; [|done]. intros [Ht ->]%IH. apply table_remove_rows in Er.
    split; [|unfold zlen; simpl; lia]. intros name. rewrite Ht, Er. case_decide; [|by rewrite table_insert_ne].
    rewrite table_insert_eq. clear. induction keys as [|k' keys IH]; simpl; [done|]. rewrite IH. apply delete_delete.
Qed.

(** The mutating operations of the store. *)
Inductive store_op :=
| OpEnsureSchema
| OpSaveRoot (record : GuardRootRecord)
| OpRemoveRoot (path : bytes)
| OpSaveAttestation (att : GitCleanAttestation)
| OpRemoveAttestation (att : GitCleanAttestation)
| OpClearAttestations (policy_short : str)
| OpSaveGap (path : bytes) (blob_oid description : str)
| OpClearGaps (path : bytes)
| OpMarkUnclean
| OpMarkClean
| OpSaveRootWithGaps (record : GuardRootRecord) (gaps : list (str * str)).

Definition run_op (op : store_op) (db : database) : result unit GuardStoreError * database :=
  let forget (x : result Z GuardStoreError * database) := ((let? _ := x.1 in Ok tt), x.2) in
  match op with
  | OpEnsureSchema => ensure_schema db
  | OpSaveRoot r => save_root r db
  | OpRemoveRoot q => remove_root q db
  | OpSaveAttestation a => save_attestation a db
  | OpRemoveAttestation a => remove_attestation a db
  | OpClearAttestations s => forget (clear_attestations_for_policy s db)
  | OpSaveGap q o d => save_root_gap q o d db
  | OpClearGaps q => forget (clear_root_gaps q db)
  | OpMarkUnclean => mark_unclean_shutdown db
  | OpMarkClean => mark_clean_shutdown db
  | OpSaveRootWithGaps r gs => save_root_with_gaps r gs db
  end.

(** The abstract store: named tables of rows, and what an operation that succeeds
    does to them.  A stored record or attestation is any text that reads back as
    it. *)
Definition on_table (name : str) (f : gmap bytes bytes -> gmap bytes bytes) (T : str -> gmap bytes bytes) : str -> gmap bytes bytes :=
  fun n => if decide (n = name) then f (T n) else T n.

Definition without (p : bytes -> bool) (m : gmap bytes bytes) : gmap bytes bytes := filter (fun kv => p kv.1 = false) m.

Definition op_effect (op : store_op) (T T' : str -> gmap bytes bytes) : Prop :=
  let becomes U := forall n, T' n = U n in
  match op with
  | OpEnsureSchema =>
      match T META_TABLE !! as_bytes $"schema_version" with
      | Some v => 1 <= u32_from_le_bytes v <= GUARD_SCHEMA_VERSION /\ becomes T
      | None => becomes (on_table META_TABLE (<[as_bytes $"schema_version" := u32_to_le_bytes GUARD_SCHEMA_VERSION]>) T)
      end
  | OpSaveRoot r => exists v, record_from_slice v = Ok r /\ becomes (on_table ROOTS_TABLE (<[canonical_path r := v]>) T)
  | OpRemoveRoot q => becomes (on_table ROOTS_TABLE (delete q) T)
  | OpSaveAttestation a =>
      exists v, attestation_from_slice v = Ok a /\ becomes (on_table ATTESTATIONS_TABLE (<[attestation_key a := v]>) T)
  | OpRemoveAttestation a => becomes (on_table ATTESTATIONS_TABLE (delete (attestation_key a)) T)
  | OpClearAttestations s => becomes (on_table ATTESTATIONS_TABLE (without (ends_with (as_bytes s))) T)
  | OpSaveGap q o d => becomes (on_table ROOT_GAPS_TABLE (<[gap_key q o := as_bytes d]>) T)
  | OpClearGaps q => becomes (on_table ROOT_GAPS_TABLE (without (gap_of_root q)) T)
  | OpMarkUnclean => becomes (on_table SERVICE_STATE_TABLE (<[as_bytes $"clean_shutdown" := [0]]>) T)
  | OpMarkClean => becomes (on_table SERVICE_STATE_TABLE (<[as_bytes $"clean_shutdown" := [1]]>) T)
  | OpSaveRootWithGaps r gs =>
      exists v, record_from_slice v = Ok r /\
        becomes (on_table ROOT_GAPS_TABLE (fun G => foldl (put_gap (canonical_path r)) (without (gap_of_root (canonical_path r)) G) gs)
                   (on_table ROOTS_TABLE (<[canonical_path r := v]>) T))
  end.

Lemma on_table_insert rs name f n :
  table (<[name := f (table rs name)]> rs) n = on_table name f (table rs) n.
Proof. unfold on_table. case_decide as E; [subst; apply table_insert_eq | by apply table_insert_ne]. Qed.

Lemma on_table_ext name f T U n : (forall m, T m = U m) -> on_table name f T n = on_table name f U n.
Proof. intros H. unfold on_table. by rewrite H. Qed.

Lemma opened n t t' m : open_table n t = Ok t' -> table (txn_rows t') m = table (txn_rows t) m.
Proof. intros ->%open_table_rows. apply table_insert_same. Qed.

Lemma inserted n k v t t' m : table_insert n k v t = Ok t' -> table (txn_rows t') m = on_table n (<[k := v]>) (table (txn_rows t)) m.
Proof. intros ->%table_insert_rows. apply (on_table_insert _ n (<[k := v]>)). Qed.

Lemma removed n k t t' m : table_remove n k t = Ok t' -> table (txn_rows t') m = on_table n (delete k) (table (txn_rows t)) m.
Proof. intros ->%table_remove_rows. apply (on_table_insert _ n (delete k)). Qed.

(** Deleting the listed keys that satisfy [p] leaves the rows that do not. *)
Lemma delete_where (p : bytes -> bool) (m : gmap bytes bytes) :
  foldr delete m (keys_where p (Ok <$> sorted_rows m)) = without p m.
Proof.
  apply map_eq. intros k. rewrite foldr_delete_lookup. unfold without. case_decide as Hk; rewrite keys_where_sorted in Hk.
  - destruct Hk as [_ Hp]. symmetry. apply map_lookup_filter_None_2. right. intros v _. cbn. congruence.
  - destruct (m !! k) as [v|] eqn:E.
    + symmetry. apply map_lookup_filter_Some_2; [done|]. cbn. apply not_true_iff_false. intros Hp. apply Hk. by rewrite is_Some_alt.
    + symmetry. apply map_lookup_filter_None_2. by left.
Qed.

(** Runs the steps of a transaction body that succeeded. *)
Ltac run_body H :=
  repeat match type of H with context [map_err _ ?r] => let E := fresh "E" in destruct r eqn:E; cbn [map_err] in H; [|discriminate] end.

(** The tables at the end of a body in terms of those at its start. *)
Ltac tables_of :=
  repeat match goal with
  | E : open_table _ _ = Ok ?t |- context [txn_rows ?t] => rewrite (opened _ _ _ _ E)
  | E : table_insert _ _ _ _ = Ok ?t |- context [txn_rows ?t] => rewrite (inserted _ _ _ _ _ _ E); apply on_table_ext; intros ?
  | E : table_remove _ _ _ = Ok ?t |- context [txn_rows ?t] => rewrite (removed _ _ _ _ _ E); apply on_table_ext; intros ?
  end; try congruence.

Section effects.
Context (readable : forall n t l, table_range n t = Ok l -> Forall (fun e => is_ok e = true) l).

Lemma ensure_schema_effect db db' : ensure_schema db = (Ok tt, db') -> op_effect OpEnsureSchema (table (rows db)) (table (rows db')).
Proof.
  intros (t & t' & Ht & Hb & Hrows)%write_transaction_ok. unfold op_effect. rewrite Hrows, <- Ht. cbv beta zeta in Hb.
  destruct (open_table META_TABLE t) as [t1|] eqn:E1; cbn [map_err] in Hb; [|done].
  destruct (table_get _ _ t1) as [v|] eqn:E2; cbn [map_err] in Hb; [|done]. apply table_get_rows in E2. rewrite (opened _ _ _ _ E1) in E2. rewrite <- E2.
  destruct v as [v|]; cbn [found_version fmap option_fmap option_map] in Hb.
  - destruct (check_schema_version _) eqn:Ec; [|done]. run_body Hb. injection Hb as <-. split; [|intros n; by tables_of].
    unfold check_schema_version in Ec. destruct (Z.ltb_spec GUARD_SCHEMA_VERSION (u32_from_le_bytes v)), (Z.ltb_spec (u32_from_le_bytes v) 1); done || lia.
  - run_body Hb. injection Hb as <-. intros n. tables_of.
Qed.

Lemma clear_attestations_effect s db n db' :
  clear_attestations_for_policy s db = (Ok n, db') -> op_effect (OpClearAttestations s) (table (rows db)) (table (rows db')).
Proof.
  intros (t & t' & Ht & Hb & Hrows)%write_transaction_ok. unfold op_effect. rewrite Hrows, <- Ht.
  destruct (open_table _ t) as [t1|] eqn:E1; cbn [map_err] in Hb; [|done]. destruct (table_range _ t1) as [es|] eqn:E2; cbn [map_err] in Hb; [|done].
  pose proof (table_range_rows _ _ _ E2 (readable _ _ _ E2)) as ->. apply clear_loop in Hb as [Hb _]. intros m. rewrite Hb.
  unfold on_table. case_decide as Em; [subst m; rewrite delete_where|]; by rewrite (opened _ _ _ _ E1).
Qed.

Lemma clear_gaps_effect q db n db' :
  clear_root_gaps q db = (Ok n, db') -> op_effect (OpClearGaps q) (table (rows db)) (table (rows db')).
Proof.
  intros (t & t' & Ht & Hb & Hrows)%write_transaction_ok. unfold op_effect. rewrite Hrows, <- Ht.
  destruct (open_table _ t) as [t1|] eqn:E1; cbn [map_err] in Hb; [|done]. destruct (table_range _ t1) as [es|] eqn:E2; cbn [map_err] in Hb; [|done].
  pose proof (table_range_rows _ _ _ E2 (readable _ _ _ E2)) as ->. cbv zeta in Hb. destruct (remove_keys _ _ _ t1) as [t2|] eqn:E3; [|done].
  injection Hb as _ <-. intros m. rewrite (remove_keys_rows _ _ _ _ _ _ E3). unfold on_table.
  case_decide as Em; [subst m; rewrite delete_where|]; by rewrite (opened _ _ _ _ E1).
Qed.

Lemma save_root_with_gaps_effect r gs db db' :
  save_root_with_gaps r gs db = (Ok tt, db') -> op_effect (OpSaveRootWithGaps r gs) (table (rows db)) (table (rows db')).
Proof.
  intros (t & t' & Ht & Hb & Hrows)%write_transaction_ok. unfold op_effect. rewrite Hrows, <- Ht. unfold put_root in Hb.
  destruct (open_table ROOTS_TABLE t) as [t1|] eqn:E1; cbn [map_err] in Hb; [|done]. destruct (record_to_vec r) as [v|] eqn:Ev; cbn [map_err] in Hb; [|done].
  destruct (table_insert _ _ v t1) as [t2|] eqn:E2; cbn [map_err] in Hb; [|done]. destruct (open_table ROOT_GAPS_TABLE t2) as [t3|] eqn:E3; cbn [map_err] in Hb; [|done].
  destruct (table_range _ t3) as [es|] eqn:E4; cbn [map_err] in Hb; [|done]. pose proof (table_range_rows _ _ _ E4 (readable _ _ _ E4)) as ->.
  destruct (remove_keys _ _ _ t3) as [t4|] eqn:E5; [|done]. destruct (fold_result _ t4 gs) as [t5|] eqn:E6; [|done]. injection Hb as <-.
  exists v. split; [by apply record_roundtrip|]. intros m.
  assert (H3 : forall m, table (txn_rows t3) m = on_table ROOTS_TABLE (<[canonical_path r := v]>) (table (txn_rows t)) m).
  { intros k. tables_of. }
  rewrite (insert_gaps_rows _ _ _ _ _ _ E6), !(remove_keys_rows _ _ _ _ _ _ E5). unfold on_table at 1.
  case_decide as Em; [|by apply H3]. subst m. rewrite decide_True by done. by rewrite delete_where, H3.
Qed.

End effects.

(** [clear_attestations_for_policy] works on the key's suffix: it removes
    exactly the attestations whose key ends with the given text, whatever
    other policy fields they carry, and counts them. *)
Theorem clear_attestations_suffix (suffix : str) (db db' : database) (n : Z) :
  (forall n t l, table_range n t = Ok l -> Forall (fun e => is_ok e = true) l) ->
  clear_attestations_for_policy suffix db = (Ok n, db') ->
  (forall k, table (rows db') ATTESTATIONS_TABLE !! k =
     if ends_with (as_bytes suffix) k then None else table (rows db) ATTESTATIONS_TABLE !! k) /\
  n = zlen (List.filter (fun kv => ends_with (as_bytes suffix) kv.1)
              (sorted_rows (table (rows db) ATTESTATIONS_TABLE))).
Proof.
  intros Hread (t & t' & Ht & Hb & Hrows)%write_transaction_ok.
  destruct (open_table _ t) as [t1|] eqn:E1; [|done]. cbn [map_err] in Hb.
  destruct (table_range _ t1) as [es|] eqn:E2; [|done]. cbn [map_err] in Hb.
  pose proof (table_range_rows _ _ _ E2 (Hread _ _ _ E2)) as ->.
  apply open_table_rows in E1.
  assert (table (txn_rows t1) ATTESTATIONS_TABLE = table (rows db) ATTESTATIONS_TABLE) as H1
    by (rewrite E1, Ht; apply table_insert_eq).
  apply clear_loop in Hb as [Hb ->]. rewrite Hrows, Hb, decide_True, H1 by done. split.
  - intros k. rewrite foldr_delete_lookup.
    case_decide as Hk; rewrite keys_where_sorted in Hk.
    + by destruct Hk as [_ ->].
    + destruct (ends_with _ k) eqn:E; [|done]. apply eq_None_not_Some. tauto.
  - unfold zlen. by rewrite Z.add_0_l, length_keys_where.
Qed.
End laws.

(** ** Attestation keys *)

Lemma utf8_no_nul s : Forall is_scalar s -> 0 ∉ s -> 0 ∉ as_bytes s.
Proof.
  induction 1 as [|c s Hc Hs IH]; [done|]. intros [Hc0 Hs0]%not_elem_of_cons.
  change (as_bytes (c :: s)) with (utf8_char c ++ as_bytes s).
  rewrite elem_of_app. intros [Hin|Hin]; [|by apply IH].
  rewrite utf8_char_arith in Hin by (unfold is_scalar in Hc; lia). unfold is_scalar in Hc.
  repeat case_match; rewrite ?elem_of_cons in Hin; reflect_bool;
    repeat match goal with H : _ \/ _ |- _ => destruct H end; try done;
    try (match goal with Hn : _ ∈ [] |- _ => by apply not_elem_of_nil in Hn end);
    Z.div_mod_to_equations; lia.
Qed.

(** The durable key identifies the hash algorithm, the object id and the
    detector digest of an attestation, and nothing else of its policy. *)
Theorem attestation_key_identity (a b : GitCleanAttestation) :
  Forall is_scalar (att_blob_oid a) -> Forall is_scalar (att_blob_oid b) ->
  Forall is_scalar (detector_digest (att_policy_identity a)) ->
  Forall is_scalar (detector_digest (att_policy_identity b)) ->
  0 ∉ att_blob_oid a -> 0 ∉ att_blob_oid b ->
  attestation_key a = attestation_key b <->
  att_hash_algorithm a = att_hash_algorithm b /\ att_blob_oid a = att_blob_oid b /\
  detector_digest (att_policy_identity a) = detector_digest (att_policy_identity b).
Proof.
  intros Hoa Hob Hda Hdb Ha Hb. unfold attestation_key. split.
  - intros Hk. apply nul_split in Hk as [Hl Hk];
      [|destruct (att_hash_algorithm a); vm_compute; set_solver..|destruct (att_hash_algorithm b); vm_compute; set_solver].
    apply nul_split in Hk as [Ho Hd]; [|by apply utf8_no_nul..].
    apply as_bytes_inj in Ho, Hd; [|done..].
    split; [|done]. by destruct (att_hash_algorithm a), (att_hash_algorithm b).
  - by intros (-> & -> & ->).
Qed.

(** ** An in-memory instance, and witnesses *)

(** A database that never fails, except that it refuses to commit a
    transaction holding a [quota] table. *)
#[export] Instance mem_redb : Redb := {|
  database := rows_of;
  write_txn := rows_of;
  read_txn := rows_of;
  redb_error := unit;
  display_redb _ := $"quota";
  begin_write db := Ok db;
  begin_read db := Ok db;
  commit t db := if decide (t !! $"quota" = None) then (Ok tt, t) else (Err tt, db);
  open_table n t := Ok (<[n := table t n]> t);
  table_get n k t := Ok (table t n !! k);
  table_insert n k v t := Ok (<[n := <[k := v]> (table t n)]> t);
  table_remove n k t := Ok (<[n := delete k (table t n)]> t);
  table_range n t := Ok (Ok <$> sorted_rows (table t n));
  read_table n t := match t !! n with Some _ => Ok tt | None => Err TableDoesNotExist end;
  read_get n k t := Ok (table t n !! k);
  read_range n t := Ok (Ok <$> sorted_rows (table t n)) |}.

#[export] Instance mem_redb_laws : RedbLaws mem_redb.
Proof.
  refine {| rows := fun db : @database mem_redb => db;
            txn_rows := fun t : @write_txn mem_redb => t;
            snapshot := fun t : @read_txn mem_redb => t |}; simpl; intros.
  all: try congruence.
  - repeat case_decide; simplify_eq; done.
  - by destruct (t !! n).
Defined.

Lemma mem_range_reads n t l :
  table_range (Redb := mem_redb) n t = Ok l -> Forall (fun e => is_ok e = true) l.
Proof. intros [= <-]. apply Forall_fmap, Forall_true. done. Qed.

(** A serializer for the one record and the one attestation of the witnesses. *)
Definition sample_record (p : bytes) : GuardRootRecord :=
  (register p {| device := 1; inode := 2 |} (authoritative $"ext4") Repo ∅).1.

Definition sample_path : bytes := as_bytes $"/repo".

#[export] Instance sample_json : GuardJson := {|
  serde_error := unit;
  display_serde _ := [];
  record_to_vec r := if decide (r = sample_record sample_path) then Ok [1] else Err tt;
  record_from_slice v := if decide (v = [1]) then Ok (sample_record sample_path) else Err tt;
  attestation_to_vec a := if decide (a = sample_attestation $"aa" $"old") then Ok [2] else Err tt;
  attestation_from_slice v := if decide (v = [2]) then Ok (sample_attestation $"aa" $"old")
                              else Err tt |}.

#[export] Instance sample_json_laws : GuardJsonLaws sample_json.
Proof. split; simpl; intros; repeat case_decide; simplify_eq; done. Qed.

Definition sample_db : @database mem_redb :=
  {[ ROOT_GAPS_TABLE := {[ gap_key sample_path $"old" := as_bytes $"stale";
                           gap_key (as_bytes $"/repo/sub") $"x" := as_bytes $"kept" ]};
     ATTESTATIONS_TABLE := {[ attestation_key (sample_attestation $"aa" $"old") := [2] ]} ]}.

Definition sample_gaps : list (str * str) := [($"aa", $"unreadable"); ($"bb", $"too large")].

Definition sample_saved : @database mem_redb :=
  (save_root_with_gaps (sample_record sample_path) sample_gaps sample_db).2.


(** The quota database refuses the commit, and nothing is stored. *)
Definition full_db : @database mem_redb := <[$"quota" := ∅]> sample_db.



