(* ===== verification/GuardRuntime.v ===== *)
(** * Live guard runtime ([crates/cli/src/daemon/guard_runtime.rs])

    The daemon's root registry, per-root policy identities, transition feed,
    hot attestations and in-flight commit transactions.  Each method changes
    the state under the locks it holds, so a method is one step of the state;
    the clock readings it makes are an argument.  A step that may panic on an
    overflowing [+=] returns the state as the panic leaves it. *)

From stdpp Require Import sorting.
From S2P Require Import Prelude Utf8 Evidence Finding GuardState GuardStore.

Record GuardTransaction := mkTransaction {
  transaction_id : Z;
  repo_path : str;
  index_fingerprint : str;
  txn_hash_algorithm : GitHashAlgorithm;
  clean_hits : list str;
  required_blob_oids : list str;
  scanned_oids : list str;
  txn_bytes_scanned : Z;
  txn_bytes_requested : Z;
  txn_bytes_hit : Z;
  txn_findings_count : Z;
  blocking_findings_count : Z;
  reported_findings : list RawMatch;
  txn_coverage_gaps : Z;
  txn_objects_skipped : Z;
  started_at : Z;
  txn_policy_identity : GuardPolicyIdentity;
  source_paths_by_oid : gmap str (list str) }.

Record GuardBlobContext := {
  bc_repo_path : str;
  bc_hash_algorithm : GitHashAlgorithm;
  bc_policy_identity : GuardPolicyIdentity;
  bc_source_paths : list str }.

Record GuardFinishContext := {
  fc_repo_path : str;
  fc_index_fingerprint : str;
  required_blob_count : Z;
  scanned_blob_count : Z }.

(** [Instant::now()] in nanoseconds and [SystemTime::now()] in seconds since
    the epoch (0 when the system clock is before it). *)
Record clock := { instant_now : Z; unix_now : Z }.

Definition DEFAULT_SCANNER_IDLE_TIMEOUT_SECS : Z := 300.
Definition TRANSACTION_TIMEOUT_SECS : Z := 600.
Definition nanos_per_sec : Z := 1000000000.

Section runtime.
Context {D : GuardDigests} {L : Lru HotKey GitCleanAttestation}.

Record GuardRuntime := mkRuntime {
  roots : RootRegistry;
  attestations : HotAttestationIndex;
  current_identity : option GuardPolicyIdentity;
  root_identities : gmap bytes GuardPolicyIdentity;
  transaction_counter : Z;
  transactions : gmap Z GuardTransaction;
  last_activity : Z;
  scanner_idle_timeout_secs : Z;
  dirty_during_indexing : gset bytes;
  coverage_lost_during_indexing : gset bytes;
  watcher_disconnection_reason : option str;
  watcher_status : option str;
  feed : list GuardTransitionRecord;
  global_transition_sequence : Z }.

Definition set_roots x (s : GuardRuntime) : GuardRuntime :=
  mkRuntime x (attestations s) (current_identity s) (root_identities s) (transaction_counter s)
    (transactions s) (last_activity s) (scanner_idle_timeout_secs s) (dirty_during_indexing s)
    (coverage_lost_during_indexing s) (watcher_disconnection_reason s) (watcher_status s)
    (feed s) (global_transition_sequence s).
Definition set_attestations x (s : GuardRuntime) : GuardRuntime :=
  mkRuntime (roots s) x (current_identity s) (root_identities s) (transaction_counter s)
    (transactions s) (last_activity s) (scanner_idle_timeout_secs s) (dirty_during_indexing s)
    (coverage_lost_during_indexing s) (watcher_disconnection_reason s) (watcher_status s)
    (feed s) (global_transition_sequence s).
Definition set_current_identity x (s : GuardRuntime) : GuardRuntime :=
  mkRuntime (roots s) (attestations s) x (root_identities s) (transaction_counter s)
    (transactions s) (last_activity s) (scanner_idle_timeout_secs s) (dirty_during_indexing s)
    (coverage_lost_during_indexing s) (watcher_disconnection_reason s) (watcher_status s)
    (feed s) (global_transition_sequence s).
Definition set_root_identities x (s : GuardRuntime) : GuardRuntime :=
  mkRuntime (roots s) (attestations s) (current_identity s) x (transaction_counter s)
    (transactions s) (last_activity s) (scanner_idle_timeout_secs s) (dirty_during_indexing s)
    (coverage_lost_during_indexing s) (watcher_disconnection_reason s) (watcher_status s)
    (feed s) (global_transition_sequence s).
Definition set_counter x (s : GuardRuntime) : GuardRuntime :=
  mkRuntime (roots s) (attestations s) (current_identity s) (root_identities s) x
    (transactions s) (last_activity s) (scanner_idle_timeout_secs s) (dirty_during_indexing s)
    (coverage_lost_during_indexing s) (watcher_disconnection_reason s) (watcher_status s)
    (feed s) (global_transition_sequence s).
Definition set_transactions x (s : GuardRuntime) : GuardRuntime :=
  mkRuntime (roots s) (attestations s) (current_identity s) (root_identities s)
    (transaction_counter s) x (last_activity s) (scanner_idle_timeout_secs s)
    (dirty_during_indexing s) (coverage_lost_during_indexing s) (watcher_disconnection_reason s)
    (watcher_status s) (feed s) (global_transition_sequence s).
Definition set_last_activity x (s : GuardRuntime) : GuardRuntime :=
  mkRuntime (roots s) (attestations s) (current_identity s) (root_identities s)
    (transaction_counter s) (transactions s) x (scanner_idle_timeout_secs s)
    (dirty_during_indexing s) (coverage_lost_during_indexing s) (watcher_disconnection_reason s)
    (watcher_status s) (feed s) (global_transition_sequence s).
Definition set_scanner_idle_timeout x (s : GuardRuntime) : GuardRuntime :=
  mkRuntime (roots s) (attestations s) (current_identity s) (root_identities s)
    (transaction_counter s) (transactions s) (last_activity s) x (dirty_during_indexing s)
    (coverage_lost_during_indexing s) (watcher_disconnection_reason s) (watcher_status s)
    (feed s) (global_transition_sequence s).
Definition set_dirty x (s : GuardRuntime) : GuardRuntime :=
  mkRuntime (roots s) (attestations s) (current_identity s) (root_identities s)
    (transaction_counter s) (transactions s) (last_activity s) (scanner_idle_timeout_secs s) x
    (coverage_lost_during_indexing s) (watcher_disconnection_reason s) (watcher_status s)
    (feed s) (global_transition_sequence s).
Definition set_coverage_lost x (s : GuardRuntime) : GuardRuntime :=
  mkRuntime (roots s) (attestations s) (current_identity s) (root_identities s)
    (transaction_counter s) (transactions s) (last_activity s) (scanner_idle_timeout_secs s)
    (dirty_during_indexing s) x (watcher_disconnection_reason s) (watcher_status s) (feed s)
    (global_transition_sequence s).
Definition set_watcher x y (s : GuardRuntime) : GuardRuntime :=
  mkRuntime (roots s) (attestations s) (current_identity s) (root_identities s)
    (transaction_counter s) (transactions s) (last_activity s) (scanner_idle_timeout_secs s)
    (dirty_during_indexing s) (coverage_lost_during_indexing s) x y (feed s)
    (global_transition_sequence s).
Definition set_feed x y (s : GuardRuntime) : GuardRuntime :=
  mkRuntime (roots s) (attestations s) (current_identity s) (root_identities s)
    (transaction_counter s) (transactions s) (last_activity s) (scanner_idle_timeout_secs s)
    (dirty_during_indexing s) (coverage_lost_during_indexing s) (watcher_disconnection_reason s)
    (watcher_status s) x y.

Definition with_hot_index_budget (b : Z) (ck : clock) : GuardRuntime := {|
  roots := registry_new;
  attestations := with_budget b;
  current_identity := None;
  root_identities := ∅;
  transaction_counter := 1;
  transactions := ∅;
  last_activity := instant_now ck;
  scanner_idle_timeout_secs := DEFAULT_SCANNER_IDLE_TIMEOUT_SECS;
  dirty_during_indexing := ∅;
  coverage_lost_during_indexing := ∅;
  watcher_disconnection_reason := None;
  watcher_status := None;
  feed := [];
  global_transition_sequence := 1 |}.

Definition runtime_new (ck : clock) : GuardRuntime :=
  with_hot_index_budget DEFAULT_HOT_INDEX_MEMORY ck.

Definition touch_activity (ck : clock) (s : GuardRuntime) : GuardRuntime :=
  set_last_activity (instant_now ck) s.

(** ** Root records *)

Definition record_set_state (st : GuardRootState) (r : GuardRootRecord) : GuardRootRecord := {|
  canonical_path := canonical_path r; filesystem_identity := filesystem_identity r;
  filesystem_authority := filesystem_authority r; mode := mode r; state := st;
  terminal_sequence := terminal_sequence r;
  accepted_event_sequence := accepted_event_sequence r;
  completed_event_sequence := completed_event_sequence r;
  initial_reconciliation_time := initial_reconciliation_time r;
  last_reconciliation_time := last_reconciliation_time r;
  backend_route_label := backend_route_label r; last_receipt := last_receipt r;
  recent_transitions := recent_transitions r |}.

Definition record_bump_sequence (r : GuardRootRecord) : GuardRootRecord := {|
  canonical_path := canonical_path r; filesystem_identity := filesystem_identity r;
  filesystem_authority := filesystem_authority r; mode := mode r; state := state r;
  terminal_sequence := saturating_add u64_max (terminal_sequence r) 1;
  accepted_event_sequence := accepted_event_sequence r;
  completed_event_sequence := completed_event_sequence r;
  initial_reconciliation_time := initial_reconciliation_time r;
  last_reconciliation_time := last_reconciliation_time r;
  backend_route_label := backend_route_label r; last_receipt := last_receipt r;
  recent_transitions := recent_transitions r |}.

Definition record_set_history (h : list GuardTransitionRecord) (r : GuardRootRecord) :
    GuardRootRecord := {|
  canonical_path := canonical_path r; filesystem_identity := filesystem_identity r;
  filesystem_authority := filesystem_authority r; mode := mode r; state := state r;
  terminal_sequence := terminal_sequence r;
  accepted_event_sequence := accepted_event_sequence r;
  completed_event_sequence := completed_event_sequence r;
  initial_reconciliation_time := initial_reconciliation_time r;
  last_reconciliation_time := last_reconciliation_time r;
  backend_route_label := backend_route_label r; last_receipt := last_receipt r;
  recent_transitions := h |}.

(** [push], then drop the oldest entry when the bound is exceeded. *)
Definition push_bounded {A} (bound : nat) (x : A) (l : list A) : list A :=
  let l' := l ++ [x] in if (bound <? length l')%nat then tail l' else l'.

(** The caller holds the root's record; the new record is returned. *)
Definition record_transition_internal (ck : clock) (record : GuardRootRecord)
    (event : GuardTransition) (from_state to_state : GuardRootState) (cause : str)
    (s : GuardRuntime) : GuardTransitionRecord * GuardRootRecord * GuardRuntime :=
  let seq := global_transition_sequence s in
  let tr := {|
    tr_canonical_path := canonical_path record;
    tr_sequence := seq;
    tr_timestamp := unix_now ck;
    tr_from_state := from_state;
    tr_to_state := to_state;
    tr_event := event;
    tr_cause := cause |} in
  let record' := record_set_history (push_bounded 50 tr (recent_transitions record)) record in
  (tr, record', set_feed (push_bounded 1000 tr (feed s)) (saturating_add u64_max seq 1) s).

Definition policy_changed_cause : str :=
  $"policy identity changed: detector/suppression/schema digest mismatch".

(** Apply [PolicyChanged] to a record where the state machine allows it. *)
Definition policy_change_record (ck : clock) (r : GuardRootRecord) (s : GuardRuntime) :
    GuardRootRecord * GuardRuntime :=
  let from_state := state r in
  match transition (state r) PolicyChanged with
  | Ok new_state =>
      let r := record_bump_sequence (record_set_state new_state r) in
      let '(_, r, s) :=
        record_transition_internal ck r PolicyChanged from_state new_state policy_changed_cause s in
      (r, s)
  | Err _ => (r, s)
  end.

Definition set_root_policy_identity (ck : clock) (root_path : bytes)
    (identity : GuardPolicyIdentity) (s : GuardRuntime) : GuardRuntime :=
  let s :=
    match root_identities s !! root_path with
    | Some existing =>
        if negb (is_compatible_with existing identity) then
          let s := match short_digest existing with
                   | Ok old_short =>
                       set_attestations (invalidate_policy_digest old_short (attestations s)).2 s
                   | Err _ => set_attestations (hot_clear (attestations s)) s
                   end in
          match roots s !! root_path with
          | Some r =>
              if negb (bool_decide (state r = Stopped)) then
                let '(r, s) := policy_change_record ck r s in
                set_roots (<[root_path := r]> (roots s)) s
              else s
          | None => s
          end
        else s
    | None => s
    end in
  set_root_identities (<[root_path := identity]> (root_identities s)) s.

Definition get_root_policy_identity (root_path : bytes) (s : GuardRuntime) :
    option GuardPolicyIdentity := root_identities s !! root_path.

Definition root_policy_identity (root_path : bytes) (s : GuardRuntime) :
    option GuardPolicyIdentity :=
  match root_identities s !! root_path with
  | Some i => Some i
  | None => current_identity s
  end.

Definition set_policy_identity (ck : clock) (identity : GuardPolicyIdentity) (s : GuardRuntime) :
    GuardRuntime :=
  let s :=
    match current_identity s with
    | Some existing =>
        if negb (is_compatible_with existing identity) then
          let s := set_attestations (invalidate_for_policy identity (attestations s)).2 s in
          let paths := canonical_path <$>
            List.filter (fun r => negb (bool_decide (state r = Stopped))) (registry_list (roots s)) in
          foldl (fun s path =>
            match roots s !! path with
            | Some r => let '(r, s) := policy_change_record ck r s in
                        set_roots (<[path := r]> (roots s)) s
            | None => s
            end) s paths
        else s
    | None => s
    end in
  set_current_identity (Some identity) s.

Definition already_registered (path : bytes) : str :=
  $"root already registered: " ++ from_utf8_lossy path.

Definition add_root (ck : clock) (path : bytes) (fs_identity : FilesystemIdentity)
    (fs_authority : FilesystemAuthority) (m : GuardRootMode) (s : GuardRuntime) :
    result GuardRootRecord str * GuardRuntime :=
  match roots s !! path with
  | Some _ => (Err (already_registered path), s)
  | None =>
      let '(record, rs) := register path fs_identity fs_authority m (roots s) in
      (Ok record, touch_activity ck (set_roots rs s))
  end.

Definition restore_root (ck : clock) (record : GuardRootRecord) (s : GuardRuntime) :
    result unit str * GuardRuntime :=
  let key := canonical_path record in
  match roots s !! key with
  | Some _ => (Err (already_registered key), s)
  | None => (Ok tt, touch_activity ck (set_roots (insert_record record (roots s)) s))
  end.

(** What the daemon restores of a persisted record at its start: the root is
    stopped, on the filesystem as probed now, and no transition is recorded. *)
Definition restart_record (authority : FilesystemAuthority) (r : GuardRootRecord) : GuardRootRecord := {|
  canonical_path := canonical_path r; filesystem_identity := filesystem_identity r;
  filesystem_authority := authority; mode := mode r; state := Stopped;
  terminal_sequence := terminal_sequence r;
  accepted_event_sequence := accepted_event_sequence r;
  completed_event_sequence := completed_event_sequence r;
  initial_reconciliation_time := initial_reconciliation_time r;
  last_reconciliation_time := last_reconciliation_time r;
  backend_route_label := backend_route_label r; last_receipt := last_receipt r;
  recent_transitions := recent_transitions r |}.

Definition runtime_remove_root (ck : clock) (path : bytes) (s : GuardRuntime) :
    option GuardRootRecord * GuardRuntime :=
  let '(removed, rs) := registry_remove path (roots s) in
  let s := set_roots rs s in
  match removed with
  | Some _ =>
      let s := set_dirty (dirty_during_indexing s ∖ {[path]}) s in
      let s := set_coverage_lost (coverage_lost_during_indexing s ∖ {[path]}) s in
      let s := set_root_identities (delete path (root_identities s)) s in
      (removed, touch_activity ck s)
  | None => (removed, s)
  end.

Definition root_state (path : bytes) (s : GuardRuntime) : option GuardRootState :=
  state <$> roots s !! path.

Definition mark_dirty_during_indexing (path : bytes) (s : GuardRuntime) : GuardRuntime :=
  set_dirty ({[path]} ∪ dirty_during_indexing s) s.
Definition take_dirty_during_indexing (path : bytes) (s : GuardRuntime) : bool * GuardRuntime :=
  (bool_decide (path ∈ dirty_during_indexing s),
   set_dirty (dirty_during_indexing s ∖ {[path]}) s).
Definition mark_coverage_lost_during_indexing (path : bytes) (s : GuardRuntime) : GuardRuntime :=
  set_coverage_lost ({[path]} ∪ coverage_lost_during_indexing s) s.
Definition take_coverage_lost_during_indexing (path : bytes) (s : GuardRuntime) :
    bool * GuardRuntime :=
  (bool_decide (path ∈ coverage_lost_during_indexing s),
   set_coverage_lost (coverage_lost_during_indexing s ∖ {[path]}) s).

(** The events that complete a reconciliation or a batch of events. *)
Definition bumps_terminal_sequence (event : GuardTransition) : bool :=
  match event with
  | ReconciliationClean | ReconciliationFindings | ReconciliationDegraded
  | EventsClean | EventsFindings | EventsDegraded => true
  | _ => false
  end.

Definition transition_root_with_cause (ck : clock) (path : bytes) (event : GuardTransition)
    (cause : str) (s : GuardRuntime) : result GuardRootState TransitionError * GuardRuntime :=
  match roots s !! path with
  | None => (Err (Illegal event Stopped), s)
  | Some record =>
      let from_state := state record in
      match transition (state record) event with
      | Err e => (Err e, s)
      | Ok new_state =>
          let record := record_set_state new_state record in
          let record := if bumps_terminal_sequence event
                        then record_bump_sequence record else record in
          let '(_, record, s) :=
            record_transition_internal ck record event from_state new_state cause s in
          (Ok new_state, touch_activity ck (set_roots (<[path := record]> (roots s)) s))
      end
  end.

Definition transition_root (ck : clock) (path : bytes) (event : GuardTransition)
    (s : GuardRuntime) : result GuardRootState TransitionError * GuardRuntime :=
  transition_root_with_cause ck path event (GuardTransition_label event) s.

Definition transition_feed (root : option bytes) (limit : option Z) (s : GuardRuntime) :
    list GuardTransitionRecord :=
  let limit := match limit with Some l => l | None => 50 end in
  let entries := match root with
                 | Some target => List.filter (fun t => bool_decide (tr_canonical_path t = target)) (feed s)
                 | None => feed s
                 end in
  if limit <? zlen entries then drop (Z.to_nat (zlen entries - limit)) entries else entries.

Definition lookup_attestation (a : GitHashAlgorithm) (oid policy_short : str) (s : GuardRuntime) :
    option GitCleanAttestation * GuardRuntime :=
  let '(r, att) := hot_get a oid policy_short (attestations s) in (r, set_attestations att s).

Definition insert_attestation (att : GitCleanAttestation) (s : GuardRuntime) : GuardRuntime :=
  set_attestations (hot_insert att (attestations s)) s.

(** ** Commit transactions *)

Definition next_transaction_id (s : GuardRuntime) : outcome Z * GuardRuntime :=
  let id := transaction_counter s in
  match add_checked u64_max id 1 with
  | Ret c => (Ret id, set_counter c s)
  | Panic => (Panic, s)
  end.

Definition begin_transaction (ck : clock) (txn : GuardTransaction) (s : GuardRuntime) :
    Z * GuardRuntime :=
  let id := transaction_id txn in
  (id, touch_activity ck (set_transactions (<[id := txn]> (transactions s)) s)).

Definition transaction_prefix (id : Z) : str := $"transaction " ++ display_u64 id.
Definition not_found (id : Z) : str := transaction_prefix id ++ $" not found".
Definition not_required (id : Z) (oid : str) : str :=
  transaction_prefix id ++ $": blob " ++ oid ++ $" was not in the required set".
Definition already_scanned (id : Z) (oid : str) : str :=
  transaction_prefix id ++ $": blob " ++ oid ++ $" already scanned".

Definition any_eq (oid : str) (l : list str) : bool := existsb (fun x => bool_decide (x = oid)) l.

(** The guards shared by [blob_context], [record_scanned_blob] and
    [record_coverage_gap]. *)
Definition pending_blob (id : Z) (oid : str) (s : GuardRuntime) : result GuardTransaction str :=
  match transactions s !! id with
  | None => Err (not_found id)
  | Some txn =>
      if negb (any_eq oid (required_blob_oids txn)) then Err (not_required id oid)
      else if any_eq oid (scanned_oids txn) then Err (already_scanned id oid)
      else Ok txn
  end.

Definition blob_context (id : Z) (oid : str) (s : GuardRuntime) : result GuardBlobContext str :=
  let? txn := pending_blob id oid s in
  let? source_paths :=
    ok_or (source_paths_by_oid txn !! oid)
      (transaction_prefix id ++ $": blob " ++ oid ++ $" has no staged source paths") in
  Ok {| bc_repo_path := repo_path txn;
        bc_hash_algorithm := txn_hash_algorithm txn;
        bc_policy_identity := txn_policy_identity txn;
        bc_source_paths := source_paths |}.

Definition finish_context (id : Z) (s : GuardRuntime) : option GuardFinishContext :=
  (fun txn => {| fc_repo_path := repo_path txn;
                 fc_index_fingerprint := index_fingerprint txn;
                 required_blob_count := zlen (required_blob_oids txn);
                 scanned_blob_count := zlen (scanned_oids txn) |}) <$> transactions s !! id.

(** A transaction with new accounting fields. *)
Definition txn_account (scanned : list str) (bytes findings blocking : Z)
    (reported : list RawMatch) (gaps : Z) (t : GuardTransaction) : GuardTransaction :=
  mkTransaction (transaction_id t) (repo_path t) (index_fingerprint t) (txn_hash_algorithm t)
    (clean_hits t) (required_blob_oids t) scanned bytes (txn_bytes_requested t)
    (txn_bytes_hit t) findings blocking reported gaps (txn_objects_skipped t)
    (started_at t) (txn_policy_identity t) (source_paths_by_oid t).

Definition put_txn (id : Z) (t : GuardTransaction) (s : GuardRuntime) : GuardRuntime :=
  set_transactions (<[id := t]> (transactions s)) s.

Definition record_scanned_blob (ck : clock) (id : Z) (oid : str) (nbytes : Z)
    (reported : list RawMatch) (blocking : Z) (s : GuardRuntime) :
    outcome (result unit str) * GuardRuntime :=
  let findings := zlen reported in
  if findings <? blocking then
    (Ret (Err (transaction_prefix id ++ $": default-policy blocking findings " ++
               display_u64 blocking ++ $" exceed total " ++ display_u64 findings)), s)
  else
    match pending_blob id oid s with
    | Err e => (Ret (Err e), s)
    | Ok t =>
        let acc b f k r :=
          put_txn id (txn_account (scanned_oids t ++ [oid]) b f k r (txn_coverage_gaps t) t) s in
        let b0 := txn_bytes_scanned t in
        let f0 := txn_findings_count t in
        let k0 := blocking_findings_count t in
        let r0 := reported_findings t in
        match add_checked u64_max b0 nbytes with
        | Panic => (Panic, acc b0 f0 k0 r0)
        | Ret b =>
            match add_checked u64_max f0 findings with
            | Panic => (Panic, acc b f0 k0 r0)
            | Ret f =>
                match add_checked u64_max k0 blocking with
                | Panic => (Panic, acc b f k0 r0)
                | Ret k => (Ret (Ok tt), touch_activity ck (acc b f k (r0 ++ reported)))
                end
            end
        end
    end.

Definition record_coverage_gap (ck : clock) (id : Z) (oid : str) (nbytes : Z) (s : GuardRuntime) :
    outcome (result unit str) * GuardRuntime :=
  match pending_blob id oid s with
  | Err e => (Ret (Err e), s)
  | Ok t =>
      let acc b g :=
        put_txn id (txn_account (scanned_oids t ++ [oid]) b (txn_findings_count t)
                      (blocking_findings_count t) (reported_findings t) g t) s in
      match add_checked u64_max (txn_bytes_scanned t) nbytes with
      | Panic => (Panic, acc (txn_bytes_scanned t) (txn_coverage_gaps t))
      | Ret b =>
          match add_checked u64_max (txn_coverage_gaps t) 1 with
          | Panic => (Panic, acc b (txn_coverage_gaps t))
          | Ret g => (Ret (Ok tt), touch_activity ck (acc b g))
          end
      end
  end.

Definition finish_transaction_if (id : Z)
    (validate : GuardTransaction -> outcome (result unit str)) (s : GuardRuntime) :
    outcome (result (option GuardTransaction) str) * GuardRuntime :=
  match transactions s !! id with
  | None => (Ret (Ok None), s)
  | Some t =>
      match validate t with
      | Panic => (Panic, s)
      | Ret (Err e) => (Ret (Err e), s)
      | Ret (Ok _) => (Ret (Ok (Some t)), set_transactions (delete id (transactions s)) s)
      end
  end.

(** [duration_since] saturates at zero. *)
Definition is_stale (now : Z) (t : GuardTransaction) : bool :=
  TRANSACTION_TIMEOUT_SECS * nanos_per_sec <? Z.max 0 (now - started_at t).

Definition sweep_stale_transactions (ck : clock) (s : GuardRuntime) : GuardRuntime :=
  let stale_ids := (List.filter (fun e => is_stale (instant_now ck) e.2)
                      (map_to_list (transactions s))).*1 in
  set_transactions (foldl (fun m id => delete id m) (transactions s) stale_ids) s.

Definition active_transaction_count (s : GuardRuntime) : Z := Z.of_nat (size (transactions s)).

Definition autoroute_evidence_status (s : GuardRuntime) : str :=
  match current_identity s with Some _ => $"established" | None => $"pending" end.

Definition receipt_set_sequence (n : Z) (r : GuardReceipt) : GuardReceipt := {|
  objects_requested := objects_requested r; objects_hit := objects_hit r;
  objects_scanned := objects_scanned r; objects_skipped := objects_skipped r;
  bytes_requested := bytes_requested r; bytes_hit := bytes_hit r;
  bytes_scanned := bytes_scanned r; findings_count := findings_count r;
  coverage_gaps := coverage_gaps r; terminal_state := terminal_state r;
  receipt_policy_identity := receipt_policy_identity r; receipt_terminal_sequence := n |}.

(** The event and cause recorded for a commit outcome. *)
Definition commit_event (receipt : GuardReceipt) : GuardTransition * str :=
  match terminal_state receipt with
  | Current => (EventsClean,
      $"commit transaction clean: " ++ display_u64 (objects_requested receipt) ++
      $" objects (" ++ display_u64 (objects_hit receipt) ++ $" hits, " ++
      display_u64 (objects_scanned receipt) ++ $" scanned), 0 findings")
  | Blocked => (EventsFindings,
      $"commit transaction blocked: " ++ display_u64 (findings_count receipt) ++
      $" unsuppressed findings across " ++ display_u64 (objects_scanned receipt) ++ $" objects")
  | Degraded => (EventsDegraded,
      $"commit transaction degraded: " ++ display_u64 (coverage_gaps receipt) ++
      $" coverage gaps across " ++ display_u64 (objects_requested receipt) ++ $" objects")
  | other => (EventsClean,
      $"commit transaction terminal state: " ++ GuardRootState_label other)
  end.

(** The record fields a commit receipt updates. *)
Definition record_set_receipt (now : Z) (receipt : GuardReceipt) (r : GuardRootRecord) :
    GuardRootRecord :=
  let seq := saturating_add u64_max (terminal_sequence r) 1 in {|
  canonical_path := canonical_path r; filesystem_identity := filesystem_identity r;
  filesystem_authority := filesystem_authority r; mode := mode r;
  state := terminal_state receipt;
  terminal_sequence := seq;
  accepted_event_sequence := accepted_event_sequence r;
  completed_event_sequence := completed_event_sequence r;
  initial_reconciliation_time :=
    match initial_reconciliation_time r with None => Some now | t => t end;
  last_reconciliation_time := Some now;
  backend_route_label := backend_route_label r;
  last_receipt := Some (receipt_set_sequence seq receipt);
  recent_transitions := recent_transitions r |}.

Definition update_root_after_commit (ck : clock) (path : bytes) (receipt : GuardReceipt)
    (s : GuardRuntime) : result unit str * GuardRuntime :=
  match roots s !! path with
  | None => (Err ($"root not registered: " ++ from_utf8_lossy path), s)
  | Some record =>
      let from_state := state record in
      let record := record_set_receipt (unix_now ck) receipt record in
      let '(event, cause) := commit_event receipt in
      let '(_, record, s) :=
        record_transition_internal ck record event from_state (terminal_state receipt) cause s in
      (Ok tt, touch_activity ck (set_roots (<[path := record]> (roots s)) s))
  end.

Definition scanner_residency (ck : clock) (s : GuardRuntime) : str :=
  if negb (size (transactions s) =? 0)%nat then $"active"
  else
    let elapsed := Z.max 0 (instant_now ck - last_activity s) in
    if elapsed / nanos_per_sec <? scanner_idle_timeout_secs s then $"resident"
    else $"idle-unload".

Definition record_watcher_disconnection (reason : str) (s : GuardRuntime) : GuardRuntime :=
  set_watcher (Some reason) (Some ($"disconnected: " ++ reason)) s.

Definition is_watcher_disconnected (s : GuardRuntime) : bool :=
  match watcher_disconnection_reason s with Some _ => true | None => false end.

Definition set_watcher_status (status : str) (s : GuardRuntime) : GuardRuntime :=
  set_watcher (watcher_disconnection_reason s) (Some status) s.

(** ** Steps of the runtime *)

Inductive runtime_op :=
| OpSetIdleTimeout (secs : Z)
| OpSetRootPolicy (path : bytes) (identity : GuardPolicyIdentity)
| OpSetPolicy (identity : GuardPolicyIdentity)
| OpAddRoot (path : bytes) (fs_identity : FilesystemIdentity)
    (fs_authority : FilesystemAuthority) (m : GuardRootMode)
| OpRestoreRoot (record : GuardRootRecord)
| OpDropRoot (path : bytes)
| OpMarkDirty (path : bytes)
| OpTakeDirty (path : bytes)
| OpMarkLost (path : bytes)
| OpTakeLost (path : bytes)
| OpTransition (path : bytes) (event : GuardTransition) (cause : str)
| OpLookup (a : GitHashAlgorithm) (oid policy_short : str)
| OpAttest (att : GitCleanAttestation)
| OpNextId
| OpBegin (txn : GuardTransaction)
| OpScanned (id : Z) (oid : str) (nbytes : Z) (reported : list RawMatch) (blocking : Z)
| OpGap (id : Z) (oid : str) (nbytes : Z)
| OpFinish (id : Z) (validate : GuardTransaction -> outcome (result unit str))
| OpSweep
| OpCommitted (path : bytes) (receipt : GuardReceipt)
| OpWatcherLost (reason : str)
| OpWatcherStatus (status : str).

Definition runtime_step (ck : clock) (op : runtime_op) (s : GuardRuntime) : GuardRuntime :=
  match op with
  | OpSetIdleTimeout n => set_scanner_idle_timeout n s
  | OpSetRootPolicy p i => set_root_policy_identity ck p i s
  | OpSetPolicy i => set_policy_identity ck i s
  | OpAddRoot p fi fa m => (add_root ck p fi fa m s).2
  | OpRestoreRoot r => (restore_root ck r s).2
  | OpDropRoot p => (runtime_remove_root ck p s).2
  | OpMarkDirty p => mark_dirty_during_indexing p s
  | OpTakeDirty p => (take_dirty_during_indexing p s).2
  | OpMarkLost p => mark_coverage_lost_during_indexing p s
  | OpTakeLost p => (take_coverage_lost_during_indexing p s).2
  | OpTransition p e c => (transition_root_with_cause ck p e c s).2
  | OpLookup a o d => (lookup_attestation a o d s).2
  | OpAttest att => insert_attestation att s
  | OpNextId => (next_transaction_id s).2
  | OpBegin t => (begin_transaction ck t s).2
  | OpScanned id o n r k => (record_scanned_blob ck id o n r k s).2
  | OpGap id o n => (record_coverage_gap ck id o n s).2
  | OpFinish id v => (finish_transaction_if id v s).2
  | OpSweep => sweep_stale_transactions ck s
  | OpCommitted p r => (update_root_after_commit ck p r s).2
  | OpWatcherLost m => record_watcher_disconnection m s
  | OpWatcherStatus m => set_watcher_status m s
  end.

(** ** Invariants *)

(** The event under which the outcome of a commit is recorded. *)
Definition outcome_event (st : GuardRootState) : GuardTransition :=
  match st with Blocked => EventsFindings | Degraded => EventsDegraded | _ => EventsClean end.

(** A recorded transition is one the state machine allows, or the outcome of a
    commit transaction, which sets the state directly, whatever the state was. *)
Definition lawful (t : GuardTransitionRecord) : Prop :=
  transition (tr_from_state t) (tr_event t) = Ok (tr_to_state t) \/ tr_event t = outcome_event (tr_to_state t).

(** The history leads, link by link, to the state [st]; a restart of the daemon
    stops the root without an entry. *)
Definition trail (l : list GuardTransitionRecord) (st : GuardRootState) : Prop :=
  (forall i a b, l !! i = Some a -> l !! S i = Some b -> tr_from_state b = tr_to_state a \/ tr_from_state b = Stopped) /\
  (forall a, last l = Some a -> st = tr_to_state a \/ st = Stopped).

Record record_ok (p : bytes) (r : GuardRootRecord) : Prop := {
  rec_path : canonical_path r = p;
  rec_bound : (length (recent_transitions r) <= 50)%nat;
  rec_lawful : Forall (fun t => lawful t /\ tr_canonical_path t = p) (recent_transitions r);
  rec_trail : trail (recent_transitions r) (state r) }.

Record feed_ok (s : GuardRuntime) : Prop := {
  feed_bound : (length (feed s) <= 1000)%nat;
  feed_lawful : Forall lawful (feed s);
  feed_old : Forall (fun t => tr_sequence t < global_transition_sequence s \/
                              global_transition_sequence s = u64_max) (feed s);
  feed_increasing : StronglySorted (fun a b => tr_sequence a < tr_sequence b \/
                                               tr_sequence b = u64_max) (feed s) }.

Record txn_ok (id : Z) (t : GuardTransaction) : Prop := {
  txn_id : transaction_id t = id;
  txn_required : NoDup (required_blob_oids t);
  txn_scanned : NoDup (scanned_oids t);
  txn_sub : scanned_oids t ⊆ required_blob_oids t;
  txn_reported : zlen (reported_findings t) <= txn_findings_count t;
  txn_blocking : 0 <= blocking_findings_count t <= txn_findings_count t;
  txn_gaps : 0 <= txn_coverage_gaps t <= zlen (scanned_oids t) }.

(** A transaction as the begin handler creates it. *)
Record txn_fresh (t : GuardTransaction) : Prop := {
  fresh_required : NoDup (required_blob_oids t);
  fresh_scanned : scanned_oids t = [];
  fresh_counts : txn_findings_count t = 0 /\ blocking_findings_count t = 0 /\
                 txn_coverage_gaps t = 0 /\ reported_findings t = [] }.

Record runtime_ok (s : GuardRuntime) : Prop := {
  ok_roots : map_Forall record_ok (roots s);
  ok_feed : feed_ok s;
  ok_txns : map_Forall txn_ok (transactions s) }.

(** What a caller may pass: records restored from the store satisfy the record
    invariant, begun transactions are fresh. *)
Definition op_ok (op : runtime_op) : Prop :=
  match op with
  | OpRestoreRoot r => record_ok (canonical_path r) r
  | OpBegin t => txn_fresh t
  | OpScanned _ _ _ _ k => 0 <= k
  | _ => True
  end.

(** The states the daemon can be in. *)
Inductive reachable : GuardRuntime -> Prop :=
| reach_new b ck : reachable (with_hot_index_budget b ck)
| reach_step ck op s : reachable s -> op_ok op -> reachable (runtime_step ck op s).

Lemma push_bounded_length {A} n (x : A) l :
  (0 < n)%nat -> (length l <= n)%nat -> (length (push_bounded n x l) <= n)%nat.
Proof.
  intros Hn Hl. unfold push_bounded. rewrite length_app. simpl.
  destruct (n <? length l + 1)%nat eqn:E; [|apply Nat.ltb_ge in E; rewrite length_app; simpl; lia].
  apply Nat.ltb_lt in E. destruct l; simpl in *; rewrite ?length_app; simpl; lia.
Qed.

Lemma push_bounded_suffix {A} n (x : A) l :
  exists k, push_bounded n x l = drop k (l ++ [x]) /\ (k = 0 \/ k = 1 /\ n < length l + 1)%nat.
Proof.
  unfold push_bounded. rewrite length_app. simpl.
  destruct (n <? length l + 1)%nat eqn:E.
  - apply Nat.ltb_lt in E. exists 1%nat. split; [by destruct (l ++ [x])|]. lia.
  - exists 0%nat. auto.
Qed.

Lemma Forall_push_bounded {A} (P : A -> Prop) n x l :
  Forall P l -> P x -> Forall P (push_bounded n x l).
Proof.
  intros Hl Hx. destruct (push_bounded_suffix n x l) as (k & -> & _).
  apply Forall_drop, Forall_app. split; [done|]. by apply Forall_singleton.
Qed.

Lemma trail_push l st n x :
  (0 < n)%nat -> trail l st -> tr_from_state x = st -> trail (push_bounded n x l) (tr_to_state x).
Proof.
  intros Hn [Hc Hl] Hx. destruct (push_bounded_suffix n x l) as (k & -> & Hk).
  assert (forall i a b, (l ++ [x]) !! i = Some a -> (l ++ [x]) !! S i = Some b ->
    tr_from_state b = tr_to_state a \/ tr_from_state b = Stopped) as Hlink.
  { intros i a b Ha Hb. destruct (decide (S i < length l)%nat) as [Hlt|Hge].
    - rewrite lookup_app_l in Ha, Hb by lia. eauto.
    - assert (S i = length l) as Hi.
      { apply lookup_lt_Some in Hb. rewrite length_app in Hb. simpl in Hb. lia. }
      rewrite lookup_app_r, Hi, Nat.sub_diag in Hb by lia. simplify_eq/=.
      rewrite lookup_app_l in Ha by lia. apply Hl. rewrite last_lookup, <- Hi. done. }
  split.
  - intros i a b. rewrite !lookup_drop, Nat.add_succ_r. apply Hlink.
  - intros a. rewrite drop_app_le, last_snoc by lia. intros [= ->]. by left.
Qed.

Lemma restart_record_ok p authority r : record_ok p r -> record_ok p (restart_record authority r).
Proof. intros [Hp Hb Hl [Ht _]]. split; [done..|]. split; [done|]. intros a _. by right. Qed.

(** Recording one transition preserves the record and the feed. *)
Lemma record_transition_ok ck p r r0 ev to cause s :
  record_ok p r -> feed_ok s ->
  canonical_path r0 = canonical_path r -> recent_transitions r0 = recent_transitions r ->
  state r0 = to ->
  transition (state r) ev = Ok to \/ ev = outcome_event to ->
  let '(_, r', s') := record_transition_internal ck r0 ev (state r) to cause s in
  record_ok p r' /\ feed_ok s' /\ state r' = to.
Proof.
  intros [Hp Hb Hl Ht] [Fb Fl Fo Fi] Hc Hh Hs Hlaw. unfold record_transition_internal.
  set (tr := {| tr_canonical_path := _ |}).
  assert (lawful tr) as Htr by done.
  split_and!; [| |done].
  - split; simpl; rewrite ?Hh.
    + congruence.
    + apply push_bounded_length; [lia | done].
    + apply Forall_push_bounded; [done|]. split; [done|]. simpl. congruence.
    + rewrite Hs. by apply (trail_push _ (state r)); [lia | done |].
  - set (g := global_transition_sequence s) in *. split; simpl; fold g.
    + apply push_bounded_length; [lia | done].
    + by apply Forall_push_bounded.
    + unfold saturating_add. apply Forall_push_bounded; [|simpl; lia].
      eapply Forall_impl; [exact Fo|]. simpl. intros t [?|?]; lia.
    + destruct (push_bounded_suffix 1000 tr (feed s)) as (k & -> & _).
      assert (StronglySorted (fun a b => tr_sequence a < tr_sequence b \/ tr_sequence b = u64_max)
        (feed s ++ [tr])) as Hss.
      { apply StronglySorted_app_2; [|done|by repeat constructor].
        intros a b Ha ->%list_elem_of_singleton. simpl. fold g.
        rewrite Forall_forall in Fo. by apply Fo. }
      rewrite <- (take_drop k (feed s ++ [tr])) in Hss. by apply StronglySorted_app_1_r in Hss.
Qed.

Lemma feed_ok_ext s s' :
  feed s' = feed s -> global_transition_sequence s' = global_transition_sequence s ->
  feed_ok s -> feed_ok s'.
Proof. intros Hf Hg [? ? ? ?]. split; by rewrite ?Hf, ?Hg. Qed.

Lemma runtime_ok_ext s s' :
  roots s' = roots s -> feed s' = feed s ->
  global_transition_sequence s' = global_transition_sequence s ->
  transactions s' = transactions s -> runtime_ok s -> runtime_ok s'.
Proof.
  intros Hr Hf Hg Ht [? ? ?]. split; rewrite ?Hr, ?Ht; eauto using feed_ok_ext.
Qed.

Lemma runtime_ok_roots s s' p r :
  runtime_ok s -> record_ok p r -> feed_ok s' ->
  roots s' = <[p := r]> (roots s) -> transactions s' = transactions s -> runtime_ok s'.
Proof.
  intros [? ? ?] ? ? Hr Ht. split; rewrite ?Hr, ?Ht; [|done|done].
  by apply map_Forall_insert_2.
Qed.

Lemma runtime_ok_txn s s' id t :
  runtime_ok s -> txn_ok id t -> roots s' = roots s -> feed s' = feed s ->
  global_transition_sequence s' = global_transition_sequence s ->
  transactions s' = <[id := t]> (transactions s) -> runtime_ok s'.
Proof.
  intros [? ? ?] ? Hr Hf Hg Ht. split; rewrite ?Hr, ?Ht; [done | by eapply feed_ok_ext |].
  by apply map_Forall_insert_2.
Qed.

(** The state a policy change leaves a root in. *)
Definition after_policy_change (st : GuardRootState) : GuardRootState :=
  match transition st PolicyChanged with Ok x => x | Err _ => st end.

Lemma policy_change_record_ok ck p r s :
  record_ok p r -> feed_ok s ->
  let '(r', s') := policy_change_record ck r s in
  record_ok p r' /\ feed_ok s' /\ state r' = after_policy_change (state r) /\
  roots s' = roots s /\ transactions s' = transactions s.
Proof.
  intros Hr Hf. unfold policy_change_record, after_policy_change.
  destruct (transition (state r) PolicyChanged) as [st|e] eqn:E; [|done].
  pose proof (record_transition_ok ck p r (record_bump_sequence (record_set_state st r))
    PolicyChanged st policy_changed_cause s Hr Hf eq_refl eq_refl eq_refl (or_introl E)) as H.
  unfold record_transition_internal in *. destruct H as (? & ? & ?). done.
Qed.

(** Applying the policy change to the root at [p], when there is one. *)
Definition policy_change_root (ck : clock) (s : GuardRuntime) (p : bytes) : GuardRuntime :=
  match roots s !! p with
  | Some r => let '(r, s) := policy_change_record ck r s in set_roots (<[p := r]> (roots s)) s
  | None => s
  end.

Lemma policy_change_root_ok ck p s :
  runtime_ok s ->
  runtime_ok (policy_change_root ck s p) /\
  forall q, root_state q (policy_change_root ck s p) =
    if decide (q = p) then after_policy_change <$> root_state q s else root_state q s.
Proof.
  intros Hok. unfold policy_change_root, root_state. destruct (roots s !! p) as [r|] eqn:Er.
  - pose proof (policy_change_record_ok ck p r s (ok_roots _ Hok _ _ Er) (ok_feed _ Hok)) as Hpc.
    destruct (policy_change_record ck r s) as [r' s'].
    destruct Hpc as (Hr' & Hf' & Hst & Hroots & Htx). split.
    + eapply (runtime_ok_roots s); eauto; simpl; [|by rewrite Hroots].
      by eapply feed_ok_ext; [..|exact Hf'].
    + intros q. simpl. rewrite Hroots, lookup_insert.
      destruct (decide (p = q)) as [Hpq|Hpq].
      * subst q. rewrite decide_True, Er by done. simpl. by rewrite Hst.
      * by rewrite decide_False by congruence.
  - split; [done|]. intros q. destruct (decide (q = p)) as [->|]; [|done]. by rewrite Er.
Qed.

Lemma after_policy_change_idem st :
  after_policy_change (after_policy_change st) = after_policy_change st.
Proof. by destruct st. Qed.

Lemma policy_change_roots_ok ck ps s :
  runtime_ok s ->
  runtime_ok (foldl (policy_change_root ck) s ps) /\
  forall q, root_state q (foldl (policy_change_root ck) s ps) =
    if decide (q ∈ ps) then after_policy_change <$> root_state q s else root_state q s.
Proof.
  revert s. induction ps as [|p ps IH]; intros s Hok; cbn [foldl].
  - split; [done|]. intros q. rewrite decide_False; [done | apply not_elem_of_nil].
  - destruct (policy_change_root_ok ck p s Hok) as [Hok1 Hst1].
    destruct (IH _ Hok1) as [Hok2 Hst2]. split; [done|]. intros q. rewrite Hst2, Hst1.
    destruct (decide (q = p)) as [Heq|Hne].
    + subst p. rewrite (decide_True (P := q ∈ q :: ps)) by (by left). case_decide; [|done].
      destruct (root_state q s); [|done]. simpl. by rewrite after_policy_change_idem.
    + case_decide as Hin; case_decide as Hin'; [done|..|done]; rewrite elem_of_cons in Hin'; naive_solver.
Qed.

Lemma set_policy_identity_eq ck identity s :
  set_policy_identity ck identity s =
  set_current_identity (Some identity)
    match current_identity s with
    | Some existing =>
        if negb (is_compatible_with existing identity) then
          foldl (policy_change_root ck)
            (set_attestations (invalidate_for_policy identity (attestations s)).2 s)
            (canonical_path <$> List.filter (fun r => negb (bool_decide (state r = Stopped)))
               (registry_list (roots s)))
        else s
    | None => s
    end.
Proof. done. Qed.

Lemma any_eq_spec oid l : any_eq oid l = true <-> oid ∈ l.
Proof.
  unfold any_eq. rewrite existsb_exists. setoid_rewrite bool_decide_eq_true.
  setoid_rewrite <- list_elem_of_In. naive_solver.
Qed.

Lemma pending_blob_spec id oid s t :
  pending_blob id oid s = Ok t <->
  transactions s !! id = Some t /\ oid ∈ required_blob_oids t /\ oid ∉ scanned_oids t.
Proof.
  unfold pending_blob. destruct (transactions s !! id) as [t'|]; [|naive_solver].
  rewrite <- !any_eq_spec. destruct (any_eq oid (required_blob_oids t')) eqn:E1; simpl;
    [|split; [done|]; intros ([= ->] & ? & ?); congruence].
  destruct (any_eq oid (scanned_oids t')) eqn:E2; split; try done.
  - intros ([= ->] & ? & ?). congruence.
  - intros [= ->]. by rewrite E2.
  - by intros ([= ->] & _).
Qed.

Lemma txn_account_ok id t oid b f k r g :
  txn_ok id t -> oid ∈ required_blob_oids t -> oid ∉ scanned_oids t ->
  zlen r <= f -> 0 <= k <= f -> 0 <= g <= zlen (scanned_oids t) + 1 ->
  txn_ok id (txn_account (scanned_oids t ++ [oid]) b f k r g t).
Proof.
  intros [? ? ? Hsub ? ? ?] Hreq Hns Hr Hk Hg. split; simpl; try done.
  - apply NoDup_app. split; [done|]. split; [|apply NoDup_singleton].
    intros x Hx ->%list_elem_of_singleton. done.
  - intros x [Hx| ->%list_elem_of_singleton]%elem_of_app; [by apply Hsub | done].
  - unfold zlen in *. rewrite length_app. simpl. lia.
Qed.

Lemma add_checked_Ret m a b c : add_checked m a b = Ret c -> c = a + b.
Proof. unfold add_checked. case_match; congruence. Qed.

Lemma zlen_nonneg {A} (l : list A) : 0 <= zlen l.
Proof. unfold zlen. lia. Qed.

Lemma record_scanned_ok ck id oid n rep k s :
  0 <= k -> runtime_ok s -> runtime_ok (record_scanned_blob ck id oid n rep k s).2.
Proof.
  intros Hk Hok. unfold record_scanned_blob.
  destruct (zlen rep <? k) eqn:Ek; [done|]. reflect_bool.
  destruct (pending_blob id oid s) as [t|e] eqn:Ep; [|done].
  apply pending_blob_spec in Ep as (Ht & Hreq & Hns).
  pose proof (ok_txns _ Hok _ _ Ht) as Hto. pose proof Hto as [_ _ _ _ Hr Hb Hg].
  pose proof (zlen_nonneg rep).
  repeat case_match; repeat match goal with H : add_checked _ _ _ = Ret _ |- _ =>
    apply add_checked_Ret in H; subst end;
    (eapply (runtime_ok_txn s _ id); [done| |done..]; apply txn_account_ok; rewrite ?zlen_app; (done || lia)).
Qed.

Lemma record_gap_ok ck id oid n s :
  runtime_ok s -> runtime_ok (record_coverage_gap ck id oid n s).2.
Proof.
  intros Hok. unfold record_coverage_gap.
  destruct (pending_blob id oid s) as [t|e] eqn:Ep; [|done].
  apply pending_blob_spec in Ep as (Ht & Hreq & Hns).
  pose proof (ok_txns _ Hok _ _ Ht) as Hto. pose proof Hto as [_ _ _ _ Hr Hb Hg].
  repeat case_match; repeat match goal with H : add_checked _ _ _ = Ret _ |- _ =>
    apply add_checked_Ret in H; subst end;
    (eapply (runtime_ok_txn s _ id); [done| |done..]; apply txn_account_ok; (done || lia)).
Qed.

Lemma transition_root_ok ck p e c s :
  runtime_ok s -> runtime_ok (transition_root_with_cause ck p e c s).2.
Proof.
  intros Hok. unfold transition_root_with_cause.
  destruct (roots s !! p) as [r|] eqn:Er; [|done].
  destruct (transition (state r) e) as [st|err] eqn:Et; [|done].
  set (r0 := if bumps_terminal_sequence e then _ else _).
  assert (canonical_path r0 = canonical_path r /\ recent_transitions r0 = recent_transitions r /\
    state r0 = st) as (H1 & H2 & H3) by (subst r0; by case_match).
  pose proof (record_transition_ok ck p r r0 e st c s (ok_roots _ Hok _ _ Er) (ok_feed _ Hok)
    H1 H2 H3 (or_introl Et)) as H.
  unfold record_transition_internal in *. destruct H as (Hr & Hf & _).
  eapply (runtime_ok_roots s); eauto; [|done..]. by eapply feed_ok_ext; [..|exact Hf].
Qed.

Lemma update_root_ok ck p receipt s :
  runtime_ok s -> runtime_ok (update_root_after_commit ck p receipt s).2.
Proof.
  intros Hok. unfold update_root_after_commit.
  destruct (roots s !! p) as [r|] eqn:Er; [|done].
  destruct (commit_event receipt) as [ev c] eqn:Ec.
  assert (ev = outcome_event (terminal_state receipt)) as Hev.
  { unfold commit_event in Ec. destruct (terminal_state receipt); by simplify_eq. }
  pose proof (record_transition_ok ck p r (record_set_receipt (unix_now ck) receipt r) ev
    (terminal_state receipt) c s (ok_roots _ Hok _ _ Er) (ok_feed _ Hok)
    eq_refl eq_refl eq_refl (or_intror Hev)) as H.
  unfold record_transition_internal in *. destruct H as (Hr & Hf & _).
  eapply (runtime_ok_roots s); eauto; [|done..]. by eapply feed_ok_ext; [..|exact Hf].
Qed.

Lemma fresh_record_ok p fi fa m rs :
  record_ok p (register p fi fa m rs).1.
Proof. split; simpl; [done | lia | constructor |]. split; [intros ? ? ? [=] | by intros ?]. Qed.

Lemma sweep_spec ck s id :
  transactions (sweep_stale_transactions ck s) !! id =
    match transactions s !! id with
    | Some t => if is_stale (instant_now ck) t then None else Some t
    | None => None
    end.
Proof.
  unfold sweep_stale_transactions. simpl. set (ids := (List.filter _ _).*1).
  assert (forall l (m : gmap Z GuardTransaction),
    foldl (fun m id => delete id m) m l !! id = if decide (id ∈ l) then None else m !! id) as Hfold.
  { clear. induction l as [|k l IH]; intros m; cbn [foldl].
    - rewrite decide_False; [done | apply not_elem_of_nil].
    - rewrite IH. destruct (decide (k = id)) as [->|Hne].
      + rewrite lookup_delete_eq, (decide_True (P := id ∈ id :: l)) by (by left). by case_decide.
      + rewrite lookup_delete_ne by done. apply decide_ext. rewrite elem_of_cons. naive_solver. }
  rewrite Hfold. assert (id ∈ ids <-> exists t, transactions s !! id = Some t /\
    is_stale (instant_now ck) t = true) as Hids.
  { subst ids. rewrite list_elem_of_fmap. split.
    - intros ([i t] & -> & [Hin Hs]%elem_of_List_filter). exists t. by apply elem_of_map_to_list in Hin.
    - intros (t & Hin & Hs). exists (id, t). split; [done|]. apply elem_of_List_filter.
      by rewrite elem_of_map_to_list. }
  destruct (transactions s !! id) as [t|] eqn:Et.
  - destruct (is_stale (instant_now ck) t) eqn:Es.
    + rewrite decide_True; [done|]. apply Hids. eauto.
    + rewrite decide_False; [done|]. intros (t' & [= ->] & ?)%Hids. congruence.
  - by case_decide.
Qed.

Lemma set_current_identity_ok x s : runtime_ok s -> runtime_ok (set_current_identity x s).
Proof. by apply runtime_ok_ext. Qed.
Lemma set_root_identities_ok x s : runtime_ok s -> runtime_ok (set_root_identities x s).
Proof. by apply runtime_ok_ext. Qed.

Lemma set_policy_identity_ok ck identity s :
  runtime_ok s -> runtime_ok (set_policy_identity ck identity s).
Proof.
  intros Hok. rewrite set_policy_identity_eq. apply set_current_identity_ok.
  destruct (current_identity s) as [ex|]; [|done].
  destruct (negb (is_compatible_with ex identity)); [|done].
  apply policy_change_roots_ok. by eapply runtime_ok_ext; [..|exact Hok].
Qed.

Lemma set_root_policy_identity_ok ck p identity s :
  runtime_ok s -> runtime_ok (set_root_policy_identity ck p identity s).
Proof.
  intros Hok. unfold set_root_policy_identity. apply set_root_identities_ok.
  destruct (root_identities s !! p) as [ex|]; [|done].
  destruct (negb (is_compatible_with ex identity)); [|done].
  set (s1 := match short_digest ex with Ok _ => _ | Err _ => _ end).
  assert (runtime_ok s1) as Hok1.
  { subst s1. case_match; by eapply runtime_ok_ext; [..|exact Hok]. }
  pose proof (proj1 (policy_change_root_ok ck p s1 Hok1)) as Hpc. unfold policy_change_root in Hpc.
  destruct (roots s1 !! p) as [r|]; [|done].
  by destruct (negb (bool_decide (state r = Stopped))).
Qed.

Lemma runtime_step_ok ck op s : op_ok op -> runtime_ok s -> runtime_ok (runtime_step ck op s).
Proof.
  intros Hop Hok. destruct op; simpl in *;
    try (eapply runtime_ok_ext; [..|exact Hok]; done).
  - by apply set_root_policy_identity_ok.
  - by apply set_policy_identity_ok.
  - unfold add_root. destruct (roots s !! path) as [r|]; [done|].
    pose proof (fresh_record_ok path fs_identity fs_authority m (roots s)) as Hr.
    apply (runtime_ok_roots s _ _ _ Hok Hr); [|done..]. apply (feed_ok_ext s); [done..|apply Hok].
  - unfold restore_root. destruct (roots s !! canonical_path record) as [r|]; [done|].
    apply (runtime_ok_roots s _ _ _ Hok Hop); [|done..]. apply (feed_ok_ext s); [done..|apply Hok].
  - unfold runtime_remove_root, registry_remove. destruct Hok as [Hr Hf Ht].
    destruct (roots s !! path) as [r|]; (split; [by apply map_Forall_delete| |exact Ht]);
      apply (feed_ok_ext s); done.
  - by apply transition_root_ok.
  - unfold lookup_attestation. destruct (hot_get _ _ _ _). by eapply runtime_ok_ext; [..|exact Hok].
  - unfold next_transaction_id. case_match; by eapply runtime_ok_ext; [..|exact Hok].
  - destruct Hop as [? Hs (? & ? & ? & Hrep)]. eapply (runtime_ok_txn s); [done| |done..].
    split; rewrite ?Hs, ?Hrep; try done; [constructor | set_solver | unfold zlen; simpl; lia | lia
      | unfold zlen; simpl; lia].
  - by apply record_scanned_ok.
  - by apply record_gap_ok.
  - unfold finish_transaction_if. destruct Hok as [Hr Hf Ht].
    destruct (transactions s !! id) as [t|]; [|done]. destruct (validate t) as [[u|e]|]; [|done..].
    split; [done | by apply (feed_ok_ext s) | by apply map_Forall_delete].
  - destruct Hok as [Hr Hf Ht]. split; [done | by apply (feed_ok_ext s) |].
    intros i t. rewrite sweep_spec. repeat case_match; intros [= <-]; by apply Ht.
  - by apply update_root_ok.
Qed.

Lemma reachable_ok s : reachable s -> runtime_ok s.
Proof.
  induction 1 as [b ck|ck op s _ IH Hop]; [|by apply runtime_step_ok].
  split; [done | split; simpl; [lia | constructor..] | done].
Qed.

(** What the begin handler fixes of a transaction. *)
Definition same_commit (t t' : GuardTransaction) : Prop :=
  repo_path t' = repo_path t /\ index_fingerprint t' = index_fingerprint t /\ txn_hash_algorithm t' = txn_hash_algorithm t /\
  clean_hits t' = clean_hits t /\ required_blob_oids t' = required_blob_oids t /\ txn_objects_skipped t' = txn_objects_skipped t /\
  txn_bytes_requested t' = txn_bytes_requested t /\ txn_bytes_hit t' = txn_bytes_hit t /\ source_paths_by_oid t' = source_paths_by_oid t.

Definition begins (id : Z) (op : runtime_op) : Prop := match op with OpBegin t => transaction_id t = id | _ => False end.

Lemma policy_change_transactions ck r s : transactions (policy_change_record ck r s).2 = transactions s.
Proof. unfold policy_change_record, record_transition_internal. by repeat case_match; simplify_eq. Qed.

Lemma policy_change_roots_transactions ck ps s : transactions (foldl (policy_change_root ck) s ps) = transactions s.
Proof.
  revert s. induction ps as [|p ps IH]; intros s; cbn [foldl]; [done|]. rewrite IH. unfold policy_change_root. destruct (roots s !! p) as [r|]; [|done].
  pose proof (policy_change_transactions ck r s) as Ha. by destruct (policy_change_record ck r s).
Qed.

(** The other operations leave the transaction table alone. *)
Lemma runtime_step_transactions ck op s :
  (match op with OpBegin _ | OpScanned _ _ _ _ _ | OpGap _ _ _ | OpFinish _ _ | OpSweep => False | _ => True end) ->
  transactions (runtime_step ck op s) = transactions s.
Proof.
  destruct op; try done; intros _; cbn [runtime_step].
  - unfold set_root_policy_identity. cbn [set_root_identities transactions]. destruct (root_identities s !! path) as [ex|]; [|done]. destruct (negb _); [|done].
    set (s1 := match short_digest ex with Ok _ => _ | Err _ => _ end). assert (transactions s1 = transactions s) as <- by (subst s1; by case_match).
    destruct (roots s1 !! path) as [r|]; [|done]. destruct (negb _); [|done].
    pose proof (policy_change_transactions ck r s1) as Ha. by destruct (policy_change_record ck r s1).
  - rewrite set_policy_identity_eq. cbn [set_current_identity transactions]. destruct (current_identity s) as [ex|]; [|done]. destruct (negb _); [|done].
    by rewrite policy_change_roots_transactions.
  - unfold add_root. by destruct (roots s !! path).
  - unfold restore_root. by destruct (roots s !! canonical_path record).
  - unfold runtime_remove_root, registry_remove. by destruct (roots s !! path).
  - unfold transition_root_with_cause, record_transition_internal. by repeat case_match; simplify_eq.
  - unfold lookup_attestation. by destruct (hot_get _ _ _ _).
  - unfold next_transaction_id. by case_match.
  - unfold update_root_after_commit, record_transition_internal. by repeat case_match; simplify_eq.
Qed.

Lemma pending_blob_put id oid s t i x t' :
  pending_blob id oid s = Ok t -> same_commit t x -> <[id := x]> (transactions s) !! i = Some t' ->
  exists t0, transactions s !! i = Some t0 /\ same_commit t0 t'.
Proof.
  intros [Ht _]%pending_blob_spec Hx. rewrite lookup_insert. case_decide as Hi; [subst i; intros [= <-]; eauto|]. intros Hl. exists t'. by split.
Qed.

(** An operation that does not begin transaction [id] keeps what its begin fixed,
    or ends it. *)
Lemma runtime_step_commit ck op s id t' :
  ~ begins id op -> op_ok op -> transactions (runtime_step ck op s) !! id = Some t' ->
  exists t, transactions s !! id = Some t /\ same_commit t t'.
Proof.
  intros Hb Hop. destruct op; try (rewrite runtime_step_transactions by done; intros Hl; by exists t'); cbn [runtime_step].
  - unfold begin_transaction. cbn in Hb |- *. rewrite lookup_insert_ne by done. intros Hl. by exists t'.
  - unfold record_scanned_blob. destruct (_ <? _); [intros Hl; by exists t'|]. destruct (pending_blob id0 oid s) as [t|] eqn:Ep; [|intros Hl; by exists t'].
    repeat case_match; cbn [snd]; by apply (pending_blob_put _ _ _ _ _ _ _ Ep).
  - unfold record_coverage_gap. destruct (pending_blob id0 oid s) as [t|] eqn:Ep; [|intros Hl; by exists t'].
    repeat case_match; cbn [snd]; by apply (pending_blob_put _ _ _ _ _ _ _ Ep).
  - unfold finish_transaction_if. destruct (transactions s !! id0) as [t|]; [|intros Hl; by exists t'].
    destruct (validate t) as [[]|]; cbn [snd]; [|intros Hl; by exists t'..]. cbn. intros [_ Hl]%lookup_delete_Some. by exists t'.
  - rewrite sweep_spec. destruct (transactions s !! id) as [t|]; [|done]. destruct (is_stale _ t); [done|]. intros [= <-]. by exists t.
Qed.

(** What runs after a transaction was begun. *)
Definition run_ops (later : list (clock * runtime_op)) (s : GuardRuntime) : GuardRuntime :=
  foldl (fun s x => runtime_step (fst x) (snd x) s) s later.

Lemma run_ops_commit later s id t' :
  Forall (fun x => ~ begins id (snd x) /\ op_ok (snd x)) later -> transactions (run_ops later s) !! id = Some t' ->
  exists t, transactions s !! id = Some t /\ same_commit t t'.
Proof.
  intros Hf. revert s. induction Hf as [|[ck op] later [Hb Hop] _ IH]; intros s; cbn [run_ops foldl fst snd]; [intros Hl; by exists t'|].
  intros (t1 & H1 & S1)%IH. apply runtime_step_commit in H1 as (t & Ht & S); [|done..]. exists t. split; [done|].
  unfold same_commit in *. naive_solver congruence.
Qed.

Lemma run_ops_reachable later s : Forall (fun x => op_ok (snd x)) later -> reachable s -> reachable (run_ops later s).
Proof. intros Hf. revert s. induction Hf as [|[ck op] later Hop _ IH]; intros s Hs; cbn [run_ops foldl]; [done|]. apply IH. by constructor. Qed.

Section attestation_keys.
Context {LL : LruLaws HotKey GitCleanAttestation}.

Lemma invalidate_digest_ok d idx : hot_ok idx -> hot_ok (invalidate_policy_digest d idx).2.
Proof. intros Hok. unfold invalidate_policy_digest. destruct d; [done|]. by apply pop_all_ok. Qed.

Lemma policy_change_attestations ck r s : attestations (policy_change_record ck r s).2 = attestations s.
Proof. unfold policy_change_record, record_transition_internal. by repeat case_match; simplify_eq. Qed.

Lemma runtime_step_hot ck op s : hot_ok (attestations s) -> hot_ok (attestations (runtime_step ck op s)).
Proof.
  intros Hok. destruct op; cbn [runtime_step]; try exact Hok.
  - unfold set_root_policy_identity. cbn [set_root_identities attestations].
    destruct (root_identities s !! path) as [ex|]; [|done]. destruct (negb _); [|done].
    set (s1 := match short_digest ex with Ok _ => _ | Err _ => _ end).
    assert (hot_ok (attestations s1)) as H1.
    { subst s1. destruct (short_digest ex); cbn [set_attestations attestations]; [by apply invalidate_digest_ok | by apply (hot_step_ok _ OpClear)]. }
    destruct (roots s1 !! path) as [r|]; [|done]. destruct (negb _); [|done].
    pose proof (policy_change_attestations ck r s1) as Ha. destruct (policy_change_record ck r s1) as [r' s2]. cbn [snd] in Ha. cbn. by rewrite Ha.
  - rewrite set_policy_identity_eq. cbn [set_current_identity attestations]. destruct (current_identity s) as [ex|]; [|done]. destruct (negb _); [|done].
    set (s1 := set_attestations _ s). assert (hot_ok (attestations s1)) as H1 by (by apply pop_all_ok). clearbody s1. revert s1 H1.
    generalize (canonical_path <$> List.filter (fun r => negb (bool_decide (state r = Stopped))) (registry_list (roots s))). intros ps.
    induction ps as [|p ps IH]; intros s1 H1; cbn [foldl]; [done|]. apply IH. unfold policy_change_root.
    destruct (roots s1 !! p) as [r|]; [|done]. pose proof (policy_change_attestations ck r s1) as Ha. destruct (policy_change_record ck r s1) as [r' s2].
    cbn [snd] in Ha. cbn. by rewrite Ha.
  - unfold add_root. by destruct (roots s !! path).
  - unfold restore_root. by destruct (roots s !! canonical_path record).
  - unfold runtime_remove_root, registry_remove. by destruct (roots s !! path).
  - unfold transition_root_with_cause, record_transition_internal. by repeat case_match; simplify_eq.
  - unfold lookup_attestation. pose proof (hot_step_ok _ (OpGet a oid policy_short) Hok) as Hg. cbn in Hg. by destruct (hot_get _ _ _ _).
  - by apply (hot_step_ok _ (OpInsert att)).
  - unfold next_transaction_id. by case_match.
  - unfold record_scanned_blob. by repeat case_match; simplify_eq.
  - unfold record_coverage_gap. by repeat case_match; simplify_eq.
  - unfold finish_transaction_if. by repeat case_match; simplify_eq.
  - unfold update_root_after_commit, record_transition_internal. by repeat case_match; simplify_eq.
Qed.

(** Attestations of a reachable state sit under their own keys. *)
Lemma reachable_hot s : reachable s -> hot_ok (attestations s).
Proof. induction 1; [apply with_budget_ok | by apply runtime_step_hot]. Qed.
End attestation_keys.

(** C13. In every reachable state of the daemon each root's history is a bounded
    audit trail.  It belongs to that root.  Every entry is a transition of the state
    machine, or records the outcome of a commit, which sets the state directly
    (also where the machine has no such transition), under the event of that
    outcome.  Each entry starts in the state the previous one ended in and the last
    ends in the root's state, except that a restart of the daemon stops the root
    without an entry.  A record saved in such a state may be restored at the next
    start, so that the trail goes on. *)
Theorem root_history_audit (s : GuardRuntime) (p : bytes) (r : GuardRootRecord) :
  reachable s -> roots s !! p = Some r ->
  canonical_path r = p /\ (length (recent_transitions r) <= 50)%nat /\
  (forall t, t ∈ recent_transitions r -> tr_canonical_path t = p /\
     (transition (tr_from_state t) (tr_event t) = Ok (tr_to_state t) \/ tr_event t = outcome_event (tr_to_state t))) /\
  (forall i a b, recent_transitions r !! i = Some a -> recent_transitions r !! S i = Some b ->
     tr_from_state b = tr_to_state a \/ tr_from_state b = Stopped) /\
  (forall a, last (recent_transitions r) = Some a -> state r = tr_to_state a \/ state r = Stopped) /\
  (forall authority, op_ok (OpRestoreRoot (restart_record authority r))).
Proof.
  intros Hre Hr. apply reachable_ok in Hre as [Hroots _ _].
  destruct (Hroots _ _ Hr) as [Hp Hb Hl [Hlink Hlast]]. split_and!; try done.
  - intros t Ht. rewrite Forall_forall in Hl. by destruct (Hl t Ht).
  - intros authority. cbn [op_ok]. apply restart_record_ok. rewrite <- Hp in Hr. cbn [restart_record canonical_path]. by apply (Hroots _ _ Hr).
Qed.

(** The transition feed of a reachable state holds at most a thousand
    entries, in strictly increasing sequence order (until the counter
    saturates), and each is a lawful transition. *)
Theorem feed_ordered (s : GuardRuntime) :
  reachable s ->
  (length (feed s) <= 1000)%nat /\ Forall lawful (feed s) /\
  StronglySorted (fun a b => tr_sequence a < tr_sequence b \/ tr_sequence b = u64_max) (feed s).
Proof. intros Hre. apply reachable_ok in Hre as [_ [? ? _ ?] _]. done. Qed.

(** C22. In a reachable state every in-flight transaction scanned only required
    objects, each once, even after a panic; so when the counts agree the
    scanned objects are exactly the required ones, and blocking findings and
    gaps are within the reported totals. *)
Theorem transaction_accounting (s : GuardRuntime) (id : Z) (t : GuardTransaction) :
  reachable s -> transactions s !! id = Some t ->
  transaction_id t = id /\ NoDup (scanned_oids t) /\ scanned_oids t ⊆ required_blob_oids t /\
  0 <= blocking_findings_count t <= txn_findings_count t /\
  zlen (reported_findings t) <= txn_findings_count t /\
  txn_coverage_gaps t <= zlen (scanned_oids t) /\
  (zlen (scanned_oids t) = zlen (required_blob_oids t) ->
     scanned_oids t ≡ₚ required_blob_oids t).
Proof.
  intros Hre Ht. apply reachable_ok in Hre as [_ _ Htx].
  destruct (Htx _ _ Ht) as [? ? ? Hsub ? ? ?]. split_and!; try done; try lia.
  intros Hlen. apply submseteq_length_Permutation; [|unfold zlen in Hlen; lia].
  by apply NoDup_submseteq.
Qed.

(** Changing the daemon's policy identity to an incompatible one moves every
    root that is neither stopped nor degraded to stale-policy, and leaves
    stopped and degraded roots as they are. *)
Theorem policy_change_stales_roots (ck : clock) (s : GuardRuntime)
    (old identity : GuardPolicyIdentity) (p : bytes) (st : GuardRootState) :
  reachable s -> current_identity s = Some old -> old <> identity ->
  root_state p s = Some st ->
  root_state p (set_policy_identity ck identity s) =
    Some (match st with Stopped | Degraded => st | _ => StalePolicy end).
Proof.
  intros Hre Hcur Hne Hst. apply reachable_ok in Hre as Hok.
  rewrite set_policy_identity_eq, Hcur. unfold is_compatible_with.
  rewrite bool_decide_eq_false_2 by done. cbn [negb].
  set (s1 := set_attestations _ s). set (ps := canonical_path <$> _).
  assert (runtime_ok s1) as Hok1 by (by eapply runtime_ok_ext; [..|exact Hok]).
  destruct (policy_change_roots_ok ck ps s1 Hok1) as [_ Hroots].
  change (root_state p (set_current_identity ?i ?x)) with (root_state p x).
  rewrite Hroots. change (root_state p s1) with (root_state p s). rewrite Hst.
  unfold root_state in Hst. apply fmap_Some in Hst as (r & Hr & ->).
  assert (p ∈ ps <-> state r <> Stopped) as Hin.
  { subst ps. unfold registry_list. rewrite list_elem_of_fmap. split.
    - intros (r' & -> & [Hin Hs]%elem_of_List_filter).
      apply list_elem_of_fmap in Hin as ([q r''] & -> & Hin%elem_of_map_to_list). cbn [snd] in *.
      pose proof (rec_path _ _ (ok_roots _ Hok _ _ Hin)) as Hq. subst q.
      rewrite Hr in Hin. injection Hin as ->.
      by apply negb_true_iff, bool_decide_eq_false in Hs.
    - intros Hs. exists r. split; [symmetry; apply (rec_path _ _ (ok_roots _ Hok _ _ Hr))|].
      apply elem_of_List_filter. split; [|by apply negb_true_iff, bool_decide_eq_false].
      apply list_elem_of_fmap. exists (p, r). by rewrite elem_of_map_to_list. }
  case_decide as Hd; [|destruct (state r); try done; exfalso; by apply Hd, Hin].
  unfold after_policy_change. by destruct (state r).
Qed.

(** The sweep drops exactly the transactions begun more than ten minutes
    before, and touches nothing else of the transaction table. *)
Theorem sweep_drops_stale (ck : clock) (s : GuardRuntime) (id : Z) (t : GuardTransaction) :
  transactions (sweep_stale_transactions ck s) !! id = Some t <->
  transactions s !! id = Some t /\ instant_now ck - started_at t <= 600 * 1000000000.
Proof.
  rewrite sweep_spec. unfold is_stale, TRANSACTION_TIMEOUT_SECS, nanos_per_sec.
  destruct (transactions s !! id) as [t'|]; [|naive_solver].
  destruct (_ <? _) eqn:E; reflect_bool; split; try done.
  - intros [[= ->] ?]. lia.
  - intros [= ->]. split; [done | lia].
  - by intros [[= ->] _].
Qed.
End runtime.

(** ** Witnesses *)

Lemma reachable_steps `{GuardDigests} `{!Lru HotKey GitCleanAttestation} ck ops s :
  Forall op_ok ops -> reachable s -> reachable (foldl (fun s op => runtime_step ck op s) s ops).
Proof.
  intros Hops. revert s. induction Hops as [|op ops Hop _ IH]; intros s Hs; simpl; [done|].
  apply IH. by constructor.
Qed.

Definition sample_clock : clock := {| instant_now := 700 * nanos_per_sec; unix_now := 1700000000 |}.

Definition sample_txn : GuardTransaction := {|
  transaction_id := 1; repo_path := $"/repo"; index_fingerprint := $"f";
  txn_hash_algorithm := Sha1; clean_hits := []; required_blob_oids := [$"aa"];
  scanned_oids := []; txn_bytes_scanned := 0; txn_bytes_requested := 4; txn_bytes_hit := 0;
  txn_findings_count := 0; blocking_findings_count := 0; reported_findings := [];
  txn_coverage_gaps := 0; txn_objects_skipped := 0; started_at := 0;
  txn_policy_identity := sample_policy $"old"; source_paths_by_oid := {[ $"aa" := [$"a.txt"] ]} |}.

Definition sample_ops : list runtime_op :=
  [OpSetPolicy (sample_policy $"old");
   OpAddRoot (as_bytes $"/repo") {| device := 1; inode := 2 |} (authoritative $"ext4") Repo;
   OpTransition (as_bytes $"/repo") ReconciliationStarted $"start";
   OpTransition (as_bytes $"/repo") ReconciliationClean $"clean";
   OpBegin sample_txn;
   OpScanned 1 $"aa" 4 [] 0].

Definition sample_runtime : @GuardRuntime (list_lru HotKey GitCleanAttestation) :=
  Eval vm_compute in foldl (fun s op => @runtime_step plain_digests _ sample_clock op s)
    (with_hot_index_budget 1000 sample_clock) sample_ops.

Lemma sample_reachable : @reachable plain_digests _ sample_runtime.
Proof.
  assert (sample_runtime =
    foldl (fun s op => @runtime_step plain_digests _ sample_clock op s)
      (with_hot_index_budget 1000 sample_clock) sample_ops) as -> by by_eval.
  apply reachable_steps; [|constructor]. repeat constructor; try done.
  apply not_elem_of_nil.
Defined.

Definition sample_root : GuardRootRecord :=
  Eval vm_compute in match roots sample_runtime !! as_bytes $"/repo" with
  | Some r => r
  | None => (register [] {| device := 0; inode := 0 |} FilesystemAuthority_default Repo ∅).1
  end.

Lemma root_history_audit_witness :
  state sample_root = Current /\
  canonical_path sample_root = as_bytes $"/repo" /\
  (length (recent_transitions sample_root) <= 50)%nat /\
  (forall t, t ∈ recent_transitions sample_root -> tr_canonical_path t = as_bytes $"/repo" /\
     (transition (tr_from_state t) (tr_event t) = Ok (tr_to_state t) \/ tr_event t = outcome_event (tr_to_state t))) /\
  (forall i a b, recent_transitions sample_root !! i = Some a ->
     recent_transitions sample_root !! S i = Some b -> tr_from_state b = tr_to_state a \/ tr_from_state b = Stopped) /\
  (forall a, last (recent_transitions sample_root) = Some a -> state sample_root = tr_to_state a \/ state sample_root = Stopped) /\
  (forall authority, op_ok (OpRestoreRoot (restart_record authority sample_root))).
Proof.
  split; [by_eval|]. apply (@root_history_audit plain_digests _ sample_runtime); [apply sample_reachable | by_eval].
Defined.


Definition sample_txn_done : GuardTransaction :=
  Eval vm_compute in match transactions sample_runtime !! 1 with Some t => t | None => sample_txn end.

Lemma transaction_accounting_witness :
  scanned_oids sample_txn_done = [$"aa"] /\
  transaction_id sample_txn_done = 1 /\ NoDup (scanned_oids sample_txn_done) /\
  scanned_oids sample_txn_done ⊆ required_blob_oids sample_txn_done /\
  0 <= blocking_findings_count sample_txn_done <= txn_findings_count sample_txn_done /\
  zlen (reported_findings sample_txn_done) <= txn_findings_count sample_txn_done /\
  txn_coverage_gaps sample_txn_done <= zlen (scanned_oids sample_txn_done) /\
  (zlen (scanned_oids sample_txn_done) = zlen (required_blob_oids sample_txn_done) ->
     scanned_oids sample_txn_done ≡ₚ required_blob_oids sample_txn_done).
Proof.
  split; [by_eval|].
  apply (@transaction_accounting plain_digests _ sample_runtime 1); [apply sample_reachable | by_eval].
Defined.

