(* ===== verification/GuardCommit.v ===== *)
(** * Guard commit transactions ([crates/cli/src/daemon/server.rs] and
    [crates/cli/src/daemon/guard_commit.rs])

    The daemon's handlers for [GuardCommitBegin], [GuardCommitBlob] and
    [GuardCommitFinish], the watcher's event policy, and the checks the client
    makes on a receipt.  The file system, the git index check, the SHA hashes
    and the JSON size of a receipt are the class [CommitEnv]; the scan of a
    blob and the suppression filter that finalizes it are arguments of the blob
    handler.  The blob handler scans between two critical sections, so it is
    modelled as [blob_prepare] and [blob_complete]. *)

From S2P Require Import Prelude Utf8 Evidence Finding GuardState GuardStore DurableStore GuardRuntime.

Definition MAX_GUARD_TRANSACTIONS : Z := 32.
Definition MAX_GUARD_MANIFEST_ENTRIES : Z := 100000.
Definition MAX_FRAME_BYTES : Z := 64 * 1024 * 1024.

(** ** Watcher events *)

Inductive GuardEventAction :=
| Ignore
| MarkDuringIndexing (coverage_lost : bool)
| TransitionTo (t : GuardTransition).

Definition guard_event_action_with_policy (current_state : option GuardRootState)
    (has_overflow has_policy_change : bool) : GuardEventAction :=
  if has_overflow then
    match current_state with
    | Some Stopped | None => Ignore
    | Some Indexing => MarkDuringIndexing true
    | Some StalePolicy => Ignore
    | _ => TransitionTo CoverageLost
    end
  else if has_policy_change then
    match current_state with
    | Some Stopped | None => Ignore
    | Some Indexing => MarkDuringIndexing false
    | Some Degraded => Ignore
    | Some StalePolicy => Ignore
    | _ => TransitionTo PolicyChanged
    end
  else
    match current_state with
    | Some Current | Some Blocked => TransitionTo EventAccepted
    | Some Indexing => MarkDuringIndexing false
    | _ => Ignore
    end.

Definition guard_event_action (current_state : option GuardRootState) (has_overflow : bool) :
    GuardEventAction := guard_event_action_with_policy current_state has_overflow false.

Inductive BaselineResult := BaselineClean | BaselineFindings | BaselineDegraded.

Definition baseline_terminal_transition (scan_result : BaselineResult)
    (coverage_lost_during_indexing : bool) : GuardTransition :=
  match scan_result with
  | BaselineFindings => ReconciliationFindings
  | BaselineDegraded => ReconciliationDegraded
  | BaselineClean => if coverage_lost_during_indexing then ReconciliationDegraded
                     else ReconciliationClean
  end.

Definition guard_commit_terminal_state (blocking_findings_count coverage_gaps : Z) :
    GuardRootState :=
  if 0 <? blocking_findings_count then Blocked
  else if 0 <? coverage_gaps then Degraded
  else Current.

(** ** Staged paths *)

Definition is_absolute (p : str) : bool := match p with 47 :: _ => true | _ => false end.

Definition has_platform_prefix (p : str) : bool :=
  existsb (fun c => c =? 92) p ||
  match as_bytes p with a :: b :: _ => is_ascii_alphabetic a && (b =? 58) | _ => false end.

Definition non_normal_component (c : str) : bool :=
  bool_decide (c = [] \/ c = $"." \/ c = $"..").

Definition validate_staged_relative_path (source_path : str) : result str str :=
  if bool_decide (source_path = []) || is_absolute source_path ||
     existsb non_normal_component (split_on 47 source_path) || has_platform_prefix source_path
  then Err ($"staged source path must be a normalized non-empty relative path: " ++ source_path)
  else if forallb (fun c => match c with Normal _ => true | _ => false end)
            (path_components source_path)
  then Ok source_path
  else Err ($"staged source path contains a forbidden component: " ++ source_path).

(** [Path::join] with a relative path, displayed. *)
Definition path_join (base rel : str) : str :=
  match last base with
  | None => rel
  | Some c => if c =? 47 then base ++ rel else base ++ $"/" ++ rel
  end.

(** ** Requests and responses *)

Record GuardWireManifestEntry := {
  wire_path : str;
  wire_kind : str;
  wire_object_oid : str;
  wire_object_size : Z;
  wire_raw_mode : Z }.

Record CommitReceipt := {
  cr_objects_requested : Z;
  cr_objects_hit : Z;
  cr_objects_scanned : Z;
  cr_objects_skipped : Z;
  cr_bytes_requested : Z;
  cr_bytes_hit : Z;
  cr_bytes_scanned : Z;
  cr_findings_count : Z;
  cr_findings : list RawMatch;
  cr_blocking_findings_count : Z;
  cr_coverage_gaps : Z;
  cr_terminal_state : str;
  cr_terminal_sequence : Z }.

Inductive Response :=
| RError (message : str)
| GuardCommitPlan (transaction_id : Z) (clean_hits required_blob_oids : list str)
    (max_blob_bytes : Z)
| GuardCommitBlobAck (transaction_id : Z) (blob_oid : str) (bytes_scanned findings_count : Z)
| GuardCommitReceipt (r : CommitReceipt).

(** What the scanner task returns: matches, an error, or a panicked task. *)
Inductive ScanOutcome := Scanned (matches : list RawMatch) | ScanFailed (e : str) | ScanPanicked (e : str).

Class CommitEnv {D : GuardDigests} := {
  canonicalize : str -> option bytes;
  compute_root_policy_identity : bytes -> GuardPolicyIdentity;
  sha1_digest : bytes -> bytes;
  sha256_digest : bytes -> bytes;
  verify_staged_fingerprint : str -> str -> bool;
  display_json_error : json_error -> str;
  receipt_wire_len : CommitReceipt -> result Z str }.

Section commit.
Context {D : GuardDigests} {L : Lru HotKey GitCleanAttestation} {R : Redb} {J : GuardJson}.
Context {E : CommitEnv}.

Record ServerState := mkServer { guard : GuardRuntime; guard_store : option database }.

Definition guard_attestation_identity (base : GuardPolicyIdentity) (source_paths : list str) :
    GuardPolicyIdentity :=
  let hashed := as_bytes $"keyhog-guard-source-paths-v1" ++
    concat ((fun p => u64_to_le_bytes (str_len p) ++ as_bytes p) <$> source_paths) in
  {| build_identity := build_identity base;
     detector_digest := detector_digest base;
     suppression_digest := suppression_digest base;
     keyhogignore_digest := keyhogignore_digest base;
     config_digest := config_digest base;
     decode_policy_version := decode_policy_version base;
     source_policy_digest := source_policy_digest base ++ $":staged-paths:" ++
                             hex_encode (blake3_hash hashed);
     guard_schema_version := guard_schema_version base;
     report_semantics_version := report_semantics_version base |}.

Definition compute_git_blob_oid (algorithm : GitHashAlgorithm) (object_size : Z)
    (payload : list str) : str :=
  let header := $"blob " ++ display_u64 object_size ++ [0] in
  let content := as_bytes header ++ concat (as_bytes <$> payload) in
  match algorithm with
  | Sha1 => hex_encode (sha1_digest content)
  | Sha256 => hex_encode (sha256_digest content)
  end.

(** [canonicalize] or the path as given. *)
Definition canonical_repo (p : str) : bytes :=
  match canonicalize p with Some b => b | None => as_bytes p end.

Definition identity_of_root (p : bytes) (g : GuardRuntime) : GuardPolicyIdentity :=
  match get_root_policy_identity p g with
  | Some i => i
  | None => compute_root_policy_identity p
  end.

(** *** [GuardCommitBegin] *)

(** Group the staged files by object id.  The skip counter stays below the
    manifest limit, so it cannot overflow. *)
Fixpoint group_entries (entries : list GuardWireManifestEntry)
    (index : gmap str (Z * list str)) (oid_order : list str) (skipped : Z) :
    result (gmap str (Z * list str) * list str * Z) str :=
  match entries with
  | [] => Ok (index, oid_order, skipped)
  | entry :: rest =>
      match validate_staged_relative_path (wire_path entry) with
      | Err message => Err ($"daemon: guard commit: " ++ message)
      | Ok _ =>
          if negb (bool_decide (wire_kind entry = $"file")) ||
             bool_decide (wire_object_oid entry = [])
          then group_entries rest index oid_order (skipped + 1)
          else
            match index !! wire_object_oid entry with
            | Some (size, paths) =>
                if negb (size =? wire_object_size entry) then
                  Err ($"daemon: guard commit: blob " ++ wire_object_oid entry ++
                       $" has inconsistent sizes " ++ display_u64 size ++ $" and " ++
                       display_u64 (wire_object_size entry))
                else group_entries rest
                       (<[wire_object_oid entry := (size, paths ++ [wire_path entry])]> index)
                       oid_order skipped
            | None =>
                group_entries rest
                  (<[wire_object_oid entry := (wire_object_size entry, [wire_path entry])]> index)
                  (oid_order ++ [wire_object_oid entry]) skipped
            end
      end
  end.

(** [Vec::dedup]. *)
Fixpoint dedup (l : list str) : list str :=
  match l with
  | a :: ((b :: _) as l') => if decide (a = b) then dedup l' else a :: dedup l'
  | _ => l
  end.

Record plan_acc := mkPlan {
  pa_index : gmap str (Z * list str);
  pa_hits : list str;
  pa_required : list str;
  pa_bytes_requested : Z;
  pa_bytes_hit : Z }.

(** Look each object up in the attestation cache, in manifest order. *)
Fixpoint plan_oids (algorithm : GitHashAlgorithm) (identity : GuardPolicyIdentity)
    (oid_order : list str) (a : plan_acc) (g : GuardRuntime) :
    outcome (result plan_acc str) * GuardRuntime :=
  match oid_order with
  | [] => (Ret (Ok a), g)
  | oid :: rest =>
      match pa_index a !! oid with
      | None => (Ret (Err ($"daemon: guard commit: staged path index lost blob " ++ oid)), g)
      | Some (size, paths) =>
          let paths := dedup (sort_by str_cmp paths) in
          let index := <[oid := (size, paths)]> (pa_index a) in
          match add_checked u64_max (pa_bytes_requested a) size with
          | Panic => (Panic, g)
          | Ret requested =>
              match short_digest (guard_attestation_identity identity paths) with
              | Err e => (Ret (Err ($"daemon: guard commit: policy digest error: " ++
                                    display_json_error e)), g)
              | Ok policy_short =>
                  let '(hit, g) := lookup_attestation algorithm oid policy_short g in
                  match hit with
                  | Some _ =>
                      match add_checked u64_max (pa_bytes_hit a) size with
                      | Panic => (Panic, g)
                      | Ret bytes_hit =>
                          plan_oids algorithm identity rest
                            (mkPlan index (pa_hits a ++ [oid]) (pa_required a) requested bytes_hit) g
                      end
                  | None =>
                      plan_oids algorithm identity rest
                        (mkPlan index (pa_hits a) (pa_required a ++ [oid]) requested
                           (pa_bytes_hit a)) g
                  end
              end
          end
      end
  end.

Definition parse_hash_algorithm (s : str) : result GitHashAlgorithm str :=
  if decide (s = $"sha1") then Ok Sha1
  else if decide (s = $"sha256") then Ok Sha256
  else Err ($"daemon: guard commit: unsupported hash algorithm '" ++ s ++ $"'").

Definition handle_begin (ck : clock) (repo fingerprint algorithm : str)
    (entries : list GuardWireManifestEntry) (st : ServerState) : outcome Response * ServerState :=
  let g := guard st in
  let keep g := mkServer g (guard_store st) in
  if MAX_GUARD_TRANSACTIONS <=? active_transaction_count g then
    (Ret (RError ($"daemon: guard commit: too many concurrent transactions (max " ++
                  display_u64 MAX_GUARD_TRANSACTIONS ++ $")")), st)
  else if MAX_GUARD_MANIFEST_ENTRIES <? zlen entries then
    (Ret (RError ($"daemon: guard commit: manifest has " ++ display_u64 (zlen entries) ++
                  $" entries, max is " ++ display_u64 MAX_GUARD_MANIFEST_ENTRIES)), st)
  else
    match parse_hash_algorithm algorithm with
    | Err m => (Ret (RError m), st)
    | Ok git_hash =>
        let identity := identity_of_root (canonical_repo repo) g in
        match group_entries entries ∅ [] 0 with
        | Err m => (Ret (RError m), st)
        | Ok (index, oid_order, skipped) =>
            match plan_oids git_hash identity oid_order (mkPlan index [] [] 0 0) g with
            | (Panic, g) => (Panic, keep g)
            | (Ret (Err m), g) => (Ret (RError m), keep g)
            | (Ret (Ok plan), g) =>
                match next_transaction_id g with
                | (Panic, g) => (Panic, keep g)
                | (Ret txn_id, g) =>
                    let txn := {|
                      transaction_id := txn_id;
                      repo_path := repo;
                      index_fingerprint := fingerprint;
                      txn_hash_algorithm := git_hash;
                      clean_hits := pa_hits plan;
                      required_blob_oids := pa_required plan;
                      scanned_oids := [];
                      txn_bytes_scanned := 0;
                      txn_bytes_requested := pa_bytes_requested plan;
                      txn_bytes_hit := pa_bytes_hit plan;
                      txn_findings_count := 0;
                      blocking_findings_count := 0;
                      reported_findings := [];
                      txn_coverage_gaps := 0;
                      txn_objects_skipped := skipped;
                      started_at := instant_now ck;
                      txn_policy_identity := identity;
                      source_paths_by_oid := snd <$> pa_index plan |} in
                    let '(_, g) := begin_transaction ck txn g in
                    (Ret (GuardCommitPlan txn_id (pa_hits plan) (pa_required plan)
                            (8 * 1024 * 1024)), keep g)
                end
            end
        end
    end.

(** *** [GuardCommitBlob] *)

(** [try_fold] with [checked_add]. *)
Fixpoint payload_len (total : Z) (payload : list str) : option Z :=
  match payload with
  | [] => Some total
  | c :: rest => if total + str_len c <=? u64_max then payload_len (total + str_len c) rest else None
  end.

Fixpoint resolve_paths (repo : str) (paths : list str) : result (list str) str :=
  match paths with
  | [] => Ok []
  | p :: rest =>
      match validate_staged_relative_path p with
      | Err m => Err ($"daemon: guard commit blob: " ++ m)
      | Ok relative => let? rs := resolve_paths repo rest in Ok (path_join repo relative :: rs)
      end
  end.

(** Everything up to the scan: the context is copied out of the transaction
    and the payload is checked against the declared size and object id. *)
Definition blob_prepare (id : Z) (oid : str) (object_size : Z) (payload : list str)
    (st : ServerState) : result (GuardBlobContext * Z * list str) str :=
  match blob_context id oid (guard st) with
  | Err m => Err ($"daemon: guard commit blob: " ++ m)
  | Ok ctx =>
      match payload_len 0 payload with
      | None => Err ($"daemon: guard commit blob: payload size overflow for " ++ oid)
      | Some len =>
          if negb (len =? object_size) then
            Err ($"daemon: guard commit blob: size mismatch for " ++ oid ++ $": declared " ++
                 display_u64 object_size ++ $", got " ++ display_u64 len)
          else
            let computed := compute_git_blob_oid (bc_hash_algorithm ctx) object_size payload in
            if negb (bool_decide (computed = oid)) then
              Err ($"daemon: guard commit blob: OID mismatch for " ++ oid ++ $": declared " ++
                   oid ++ $", computed " ++ computed)
            else
              let? resolved := resolve_paths (bc_repo_path ctx) (bc_source_paths ctx) in
              Ok (ctx, len, resolved)
      end
  end.

Definition count_blocking (findings : list RawMatch) : Z :=
  zlen (List.filter (fun f => tier_blocks (verdict_tier (rm_evidence f)) false) findings).

Definition blob_attestation (ctx : GuardBlobContext) (oid : str) (object_size : Z) :
    GitCleanAttestation := {|
  att_hash_algorithm := bc_hash_algorithm ctx;
  att_blob_oid := oid;
  att_object_size := object_size;
  att_policy_identity := guard_attestation_identity (bc_policy_identity ctx) (bc_source_paths ctx);
  att_last_seen_sequence := 0 |}.

(** Insert the attestation in the hot index and, when there is a durable
    store, persist it; a persistence error is only logged. *)
Definition attest_clean (att : GitCleanAttestation) (st : ServerState) : ServerState :=
  mkServer (insert_attestation att (guard st))
    (match guard_store st with
     | Some db => Some (save_attestation att db).2
     | None => None
     end).

(** Everything after the scan, on the state at that time. *)
Definition blob_complete (ck : clock) (id : Z) (oid : str) (object_size len : Z)
    (ctx : GuardBlobContext) (scan : ScanOutcome)
    (finalize_matches : list RawMatch -> option (list RawMatch)) (st : ServerState) :
    outcome Response * ServerState :=
  let keep g := mkServer g (guard_store st) in
  match scan with
  | ScanFailed e =>
      match record_coverage_gap ck id oid object_size (guard st) with
      | (Panic, g) => (Panic, keep g)
      | (Ret (Err msg), g) => (Ret (RError msg), keep g)
      | (Ret (Ok _), g) =>
          (Ret (RError ($"daemon: guard commit blob: scan failed for " ++ oid ++ $": " ++ e)), keep g)
      end
  | ScanPanicked e =>
      (Ret (RError ($"daemon: guard commit blob: task panicked for " ++ oid ++ $": " ++ e)), st)
  | Scanned raw_matches =>
      let '(finalized, coverage_gap) :=
        match finalize_matches raw_matches with
        | Some findings => (findings, false)
        | None => ([], true)
        end in
      let findings := zlen finalized in
      let blocking := count_blocking finalized in
      if coverage_gap : bool then
        match record_coverage_gap ck id oid len (guard st) with
        | (Panic, g) => (Panic, keep g)
        | (Ret (Err msg), g) => (Ret (RError msg), keep g)
        | (Ret (Ok _), g) => (Ret (GuardCommitBlobAck id oid len findings), keep g)
        end
      else
        match record_scanned_blob ck id oid len finalized blocking (guard st) with
        | (Panic, g) => (Panic, keep g)
        | (Ret (Err msg), g) => (Ret (RError msg), keep g)
        | (Ret (Ok _), g) =>
            let st1 := if findings =? 0
                       then attest_clean (blob_attestation ctx oid object_size) (keep g)
                       else keep g in
            (Ret (GuardCommitBlobAck id oid len findings), st1)
        end
  end.

(** The handler: the scan runs outside the critical sections, on the resolved
    paths and the payload. *)
Definition handle_blob (ck : clock) (id : Z) (oid : str) (object_size : Z) (payload : list str)
    (scan : list str -> list str -> ScanOutcome)
    (finalize_matches : list RawMatch -> option (list RawMatch)) (st : ServerState) :
    outcome Response * ServerState :=
  match blob_prepare id oid object_size payload st with
  | Err m => (Ret (RError m), st)
  | Ok (ctx, len, resolved) =>
      blob_complete ck id oid object_size len ctx (scan resolved payload) finalize_matches st
  end.

(** *** [GuardCommitFinish] *)

Definition total_objects (t : GuardTransaction) : outcome Z :=
  let! hs := add_checked u64_max (zlen (clean_hits t)) (zlen (scanned_oids t)) in
  add_checked u64_max hs (txn_objects_skipped t).

(** The wire form of a finished transaction. *)
Definition receipt_of (t : GuardTransaction) (total seq : Z) : CommitReceipt := {|
  cr_objects_requested := total;
  cr_objects_hit := zlen (clean_hits t);
  cr_objects_scanned := zlen (scanned_oids t);
  cr_objects_skipped := txn_objects_skipped t;
  cr_bytes_requested := txn_bytes_requested t;
  cr_bytes_hit := txn_bytes_hit t;
  cr_bytes_scanned := txn_bytes_scanned t;
  cr_findings_count := txn_findings_count t;
  cr_findings := reported_findings t;
  cr_blocking_findings_count := blocking_findings_count t;
  cr_coverage_gaps := txn_coverage_gaps t;
  cr_terminal_state := GuardRootState_label
    (guard_commit_terminal_state (blocking_findings_count t) (txn_coverage_gaps t));
  cr_terminal_sequence := seq |}.

(** The closure [finish_transaction_if] runs: the receipt must fit a frame. *)
Definition receipt_fits (t : GuardTransaction) : outcome (result unit str) :=
  let! total := total_objects t in
  match receipt_wire_len (receipt_of t total u64_max) with
  | Err error =>
      Ret (Err ($"daemon: guard commit finish: cannot size protected receipt: " ++ error))
  | Ok wire_len =>
      if MAX_FRAME_BYTES <? wire_len then
        Ret (Err ($"daemon: guard commit finish: protected receipt requires " ++
                  display_u64 wire_len ++ $" bytes but the frame limit is " ++
                  display_u64 MAX_FRAME_BYTES))
      else Ret (Ok tt)
  end.

Definition root_receipt (t : GuardTransaction) (total : Z) (identity : GuardPolicyIdentity) :
    GuardReceipt := {|
  objects_requested := total;
  objects_hit := zlen (clean_hits t);
  objects_scanned := zlen (scanned_oids t);
  objects_skipped := txn_objects_skipped t;
  bytes_requested := txn_bytes_requested t;
  bytes_hit := txn_bytes_hit t;
  bytes_scanned := txn_bytes_scanned t;
  findings_count := txn_findings_count t;
  coverage_gaps := txn_coverage_gaps t;
  terminal_state := guard_commit_terminal_state (blocking_findings_count t) (txn_coverage_gaps t);
  receipt_policy_identity := identity;
  receipt_terminal_sequence := 0 |}.

(** Update the root, persist it when there is a store, and answer. *)
Definition finish_commit (ck : clock) (t : GuardTransaction) (total : Z) (st : ServerState) :
    Response * ServerState :=
  let g := guard st in
  let commit_root := canonical_repo (repo_path t) in
  let identity := identity_of_root commit_root g in
  let g := (update_root_after_commit ck commit_root (root_receipt t total identity) g).2 in
  let record := roots g !! commit_root in
  let seq := match record with Some r => terminal_sequence r | None => 0 end in
  let store := match guard_store st, record with
               | Some db, Some r => Some (save_root r db).2
               | s, _ => s
               end in
  (GuardCommitReceipt (receipt_of t total seq), mkServer g store).

Definition handle_finish (ck : clock) (id client_objects_streamed : Z) (st : ServerState) :
    outcome Response * ServerState :=
  let err m := (Ret (RError m), st) in
  match finish_context id (guard st) with
  | None => err ($"daemon: guard commit finish: transaction " ++ display_u64 id ++ $" not found")
  | Some ctx =>
      let required_count := required_blob_count ctx in
      let server_scanned := scanned_blob_count ctx in
      if negb (server_scanned =? required_count) then
        err ($"daemon: guard commit: server scanned " ++ display_u64 server_scanned ++ $" of " ++
             display_u64 required_count ++ $" required blobs")
      else if negb (client_objects_streamed =? required_count) then
        err ($"daemon: guard commit: client streamed " ++ display_u64 client_objects_streamed ++
             $" but required " ++ display_u64 required_count)
      else if negb (verify_staged_fingerprint (fc_repo_path ctx) (fc_index_fingerprint ctx)) then
        err ($"daemon: guard commit finish: index fingerprint mismatch for " ++ fc_repo_path ctx ++
             $"; the staged content changed during the transaction")
      else
        match finish_transaction_if id receipt_fits (guard st) with
        | (Panic, g) => (Panic, mkServer g (guard_store st))
        | (Ret (Err m), g) => (Ret (RError m), mkServer g (guard_store st))
        | (Ret (Ok None), g) =>
            (Ret (RError ($"daemon: guard commit finish: transaction " ++ display_u64 id ++
                          $" was already finished")), mkServer g (guard_store st))
        | (Ret (Ok (Some t)), g) =>
            match total_objects t with
            | Panic => (Panic, mkServer g (guard_store st))
            | Ret total =>
                let '(r, st') := finish_commit ck t total (mkServer g (guard_store st)) in
                (Ret r, st')
            end
        end
  end.
End commit.

(** ** The client's checks ([run_guard_commit_on_connection], step 6) *)

Inductive ClientError :=
| ConservationFailed (e : ReceiptError)
| BlockingExceedsTotal (blocking total : Z)
| FindingCountMismatch (found total : Z)
| BlockingMismatch (derived reported : Z)
| TerminalStateMismatch (label expected : str).

Definition expected_terminal_state (blocking gaps : Z) : str :=
  if 0 <? blocking then $"blocked" else if 0 <? gaps then $"degraded" else $"current".

(** The text the client streams for a blob: its bytes when they are UTF-8, a
    lossy decoding otherwise. *)
Definition client_payload (payload : bytes) : str :=
  match from_utf8 payload with Some s => s | None => from_utf8_lossy payload end.

(** The receipt the client builds from the response; the state and sequence
    fields are placeholders it does not use. *)
Definition client_receipt (identity : GuardPolicyIdentity) (r : CommitReceipt) : GuardReceipt := {|
  objects_requested := cr_objects_requested r;
  objects_hit := cr_objects_hit r;
  objects_scanned := cr_objects_scanned r;
  objects_skipped := cr_objects_skipped r;
  bytes_requested := cr_bytes_requested r;
  bytes_hit := cr_bytes_hit r;
  bytes_scanned := cr_bytes_scanned r;
  findings_count := cr_findings_count r;
  coverage_gaps := cr_coverage_gaps r;
  terminal_state := Indexing;
  receipt_policy_identity := identity;
  receipt_terminal_sequence := 0 |}.

Definition client_validate (identity : GuardPolicyIdentity) (r : CommitReceipt) :
    outcome (result unit ClientError) :=
  let receipt := client_receipt identity r in
  let! c := validate_conservation receipt in
  match c with
  | Err e => Ret (Err (ConservationFailed e))
  | Ok _ =>
      let blocking := cr_blocking_findings_count r in
      if findings_count receipt <? blocking then
        Ret (Err (BlockingExceedsTotal blocking (findings_count receipt)))
      else if negb (zlen (cr_findings r) =? findings_count receipt) then
        Ret (Err (FindingCountMismatch (zlen (cr_findings r)) (findings_count receipt)))
      else
        let derived := count_blocking (cr_findings r) in
        if negb (derived =? blocking) then Ret (Err (BlockingMismatch derived blocking))
        else
          let expected := expected_terminal_state blocking (coverage_gaps receipt) in
          if negb (bool_decide (cr_terminal_state r = expected)) then
            Ret (Err (TerminalStateMismatch (cr_terminal_state r) expected))
          else Ret (Ok tt)
  end.

(** ** Watcher and baseline theorems *)

(** The watcher never dispatches an event the state machine rejects, and an
    overflow is never lost: an active root ends up degraded, marked for its
    running baseline (which then cannot end clean), or already awaits repair. *)
Theorem watcher_event_lawful (st : GuardRootState) (overflow policy : bool) :
  match guard_event_action_with_policy (Some st) overflow policy with
  | TransitionTo e => exists st', transition st e = Ok st' /\ (overflow = true -> st' = Degraded)
  | MarkDuringIndexing lost =>
      st = Indexing /\ lost = overflow /\
      forall b, exists st', transition st (baseline_terminal_transition b lost) = Ok st' /\
        (overflow = true -> st' <> Current)
  | Ignore => overflow = true -> st = Stopped \/ needs_repair st = true
  end.
Proof.
  destruct overflow, policy, st; simpl; eauto;
    try (split_and!; [done|done|]; intros []; simpl; eexists; split; done);
    try (eexists; split; done); try (intros; discriminate).
Qed.

(** ** Staged paths *)

Lemma existsb_false_Forall {A} (f : A -> bool) l :
  existsb f l = false <-> Forall (fun x => f x = false) l.
Proof.
  induction l as [|x l IH]; simpl; [by split; constructor|].
  rewrite orb_false_iff, Forall_cons, IH. done.
Qed.

Lemma components_normal p :
  is_absolute p = false -> existsb non_normal_component (split_on 47 p) = false ->
  path_components p = Normal <$> split_on 47 p.
Proof.
  unfold path_components. intros Ha Hn%existsb_false_Forall.
  assert (match p with 47 :: _ => [RootDir] | _ => [] end = []) as ->.
  { unfold is_absolute in Ha. by repeat case_match. }
  assert (forall c, non_normal_component c = false -> c <> [] /\ c <> $"." /\ c <> $"..") as Hc.
  { unfold non_normal_component. intros c ?%bool_decide_eq_false. naive_solver. }
  destruct (split_on 47 p) as [|c0 cs]; [done|].
  rewrite (decide_False (P := c0 = $".")); [|apply Hc; by apply Forall_cons in Hn as [? _]].
  rewrite !app_nil_l. generalize dependent (c0 :: cs). clear c0 cs. intros l Hn.
  induction Hn as [|c l Hcc Hl IH]; [done|]. rewrite !fmap_cons. cbn [concat]. rewrite IH.
  apply Hc in Hcc as (? & ? & ?). unfold unix_component.
  rewrite decide_False by tauto. by rewrite decide_False.
Qed.

(** A staged path is accepted exactly when it is a normalized relative path:
    its slash-separated components are non-empty and neither [.] nor [..], it
    has no backslash and no drive prefix; the second component check never
    fires. *)
Theorem staged_path_accepted (p : str) :
  (validate_staged_relative_path p = Ok p <->
   p <> [] /\ Forall (fun c => c <> [] /\ c <> $"." /\ c <> $"..") (split_on 47 p) /\
   has_platform_prefix p = false) /\
  validate_staged_relative_path p <>
    Err ($"staged source path contains a forbidden component: " ++ p).
Proof.
  unfold validate_staged_relative_path.
  assert (forall c, non_normal_component c = false <-> c <> [] /\ c <> $"." /\ c <> $"..") as Hc.
  { unfold non_normal_component. intros c. rewrite bool_decide_eq_false. naive_solver. }
  assert (is_absolute p = true -> existsb non_normal_component (split_on 47 p) = true) as Habs.
  { destruct p as [|c p]; [done|]. intros Ha. assert (c = 47) as -> by (unfold is_absolute in Ha; by repeat case_match).
    done. }
  destruct (bool_decide (p = [])) eqn:E0; reflect_bool.
  { subst. split; [|done]. split; [done | tauto]. }
  destruct (existsb non_normal_component (split_on 47 p)) eqn:En.
  { rewrite orb_true_r. simpl. split; [|done]. split; [done|]. intros (_ & HF & _).
    apply Bool.not_false_iff_true in En. exfalso. apply En, existsb_false_Forall.
    eapply Forall_impl; [exact HF|]. intros c. apply Hc. }
  destruct (is_absolute p) eqn:Ea; [discriminate (Habs eq_refl)|].
  rewrite components_normal by done.
  destruct (has_platform_prefix p) eqn:Ep; simpl.
  { split; [|done]. split; [done | naive_solver]. }
  assert (forallb (fun c => match c with Normal _ => true | _ => false end)
    (Normal <$> split_on 47 p) = true) as ->.
  { apply forallb_forall. intros c Hin%list_elem_of_In%list_elem_of_fmap.
    by destruct Hin as (? & -> & _). }
  split; [|done]. split; [|done]. intros _. split_and!; [done| |done].
  apply existsb_false_Forall in En. eapply Forall_impl; [exact En|]. intros c. apply Hc.
Qed.

(** ** Handler theorems *)

#[local] Arguments finish_commit : simpl never.
#[local] Arguments receipt_fits : simpl never.

Section handlers.
Context {D : GuardDigests} {L : Lru HotKey GitCleanAttestation} {R : Redb} {J : GuardJson}.
Context {E : CommitEnv}.

Lemma receipt_fits_total t : receipt_fits t = Ret (Ok tt) -> exists total, total_objects t = Ret total.
Proof. unfold receipt_fits. destruct (total_objects t); [eauto | done]. Qed.

Lemma total_objects_sum t total :
  total_objects t = Ret total ->
  total = zlen (clean_hits t) + zlen (scanned_oids t) + txn_objects_skipped t /\ total <= u64_max.
Proof.
  unfold total_objects, add_checked. repeat case_match; intros; simplify_eq; reflect_bool; lia.
Qed.

(** How [handle_finish] answers with a receipt. *)
Lemma handle_finish_receipt ck id n st r st' :
  handle_finish ck id n st = (Ret (GuardCommitReceipt r), st') ->
  exists t total,
    transactions (guard st) !! id = Some t /\ receipt_fits t = Ret (Ok tt) /\
    total_objects t = Ret total /\
    zlen (scanned_oids t) = zlen (required_blob_oids t) /\ n = zlen (required_blob_oids t) /\
    verify_staged_fingerprint (repo_path t) (index_fingerprint t) = true /\
    finish_commit ck t total
      (mkServer (set_transactions (delete id (transactions (guard st))) (guard st)) (guard_store st))
    = (GuardCommitReceipt r, st').
Proof.
  unfold handle_finish, finish_context, finish_transaction_if.
  destruct (transactions (guard st) !! id) as [t|] eqn:Et; simpl; [|done].
  destruct (zlen (scanned_oids t) =? _) eqn:E1; simpl; [|done].
  destruct (n =? _) eqn:E2; simpl; [|done].
  destruct (verify_staged_fingerprint _ _) eqn:E3; simpl; [|done]. reflect_bool.
  destruct (receipt_fits t) as [[[]|m]|] eqn:E4; [|done..].
  destruct (receipt_fits_total t E4) as [total Htot]. rewrite Htot.
  intros [= <- <-]. exists t, total. done.
Qed.

Lemma terminal_state_current k g :
  0 <= k -> 0 <= g ->
  guard_commit_terminal_state k g = Current <-> k = 0 /\ g = 0.
Proof.
  intros. unfold guard_commit_terminal_state. repeat case_match; reflect_bool; split; try done; lia.
Qed.

Lemma label_inj a b : GuardRootState_label a = GuardRootState_label b -> a = b.
Proof. by destruct a, b. Qed.

(** What a receipt says of the transaction it was issued for. *)
Lemma finish_receipt_of ck id n st st' r :
  reachable (guard st) -> handle_finish ck id n st = (Ret (GuardCommitReceipt r), st') ->
  exists t,
    transactions (guard st) !! id = Some t /\
    scanned_oids t ≡ₚ required_blob_oids t /\ n = zlen (required_blob_oids t) /\
    verify_staged_fingerprint (repo_path t) (index_fingerprint t) = true /\
    (exists seq, r = receipt_of t (zlen (clean_hits t) + zlen (scanned_oids t) + txn_objects_skipped t) seq) /\
    (cr_terminal_state r = $"current" <-> blocking_findings_count t = 0 /\ txn_coverage_gaps t = 0) /\
    transactions (guard st') = delete id (transactions (guard st)) /\
    (is_Some (roots (guard st) !! canonical_repo (repo_path t)) ->
     exists s, root_state (canonical_repo (repo_path t)) (guard st') = Some s /\
               GuardRootState_label s = cr_terminal_state r).
Proof.
  intros Hre (t & total & Ht & _ & Htot & Hlen & Hn & Hv & Hfin)%handle_finish_receipt.
  apply reachable_ok in Hre as [_ _ Htx]. destruct (Htx _ _ Ht) as [_ ? ? Hsub _ Hb Hg].
  exists t. unfold finish_commit in Hfin. simpl in Hfin. injection Hfin as <- <-.
  apply total_objects_sum in Htot as [-> _]. split_and!; try done.
  - apply submseteq_length_Permutation; [by apply NoDup_submseteq | unfold zlen in Hlen; lia].
  - by eexists.
  - cbn [cr_terminal_state receipt_of]. rewrite <- (terminal_state_current _ _ (proj1 Hb) (proj1 Hg)).
    change $"current" with (GuardRootState_label Current). split; [apply label_inj | by intros ->].
  - simpl. unfold update_root_after_commit. simpl. destruct (roots (guard st) !! _); [|done].
    by destruct (commit_event _).
  - intros [rec Hrec]. simpl. unfold update_root_after_commit, root_state. simpl. rewrite Hrec.
    destruct (commit_event _). simpl. rewrite lookup_insert_eq. simpl. eauto.
Qed.

(** A finish request that is refused, for whatever reason, changes nothing:
    the transaction stays available for a corrected request. *)
Theorem finish_refused_keeps_state (ck : clock) (id n : Z) (st : ServerState) :
  match handle_finish ck id n st with
  | (Ret (GuardCommitReceipt _), _) => True
  | (Ret (RError _), st') | (Panic, st') => st' = st
  | _ => False
  end.
Proof.
  unfold handle_finish, finish_context, finish_transaction_if.
  destruct st as [g store]. cbn [guard guard_store].
  destruct (transactions g !! id) as [t|] eqn:Et; simpl; [|done].
  destruct (zlen (scanned_oids t) =? _); simpl; [|done]. destruct (n =? _); simpl; [|done].
  destruct (verify_staged_fingerprint _ _); simpl; [|done].
  destruct (receipt_fits t) as [[[]|m]|] eqn:Ef; [|done..].
  destruct (receipt_fits_total t Ef) as [total ->]. done.
Qed.

Lemma blob_prepare_ok id oid size payload st ctx len resolved :
  blob_prepare id oid size payload st = Ok (ctx, len, resolved) ->
  blob_context id oid (guard st) = Ok ctx /\ payload_len 0 payload = Some len /\ len = size /\
  compute_git_blob_oid (bc_hash_algorithm ctx) size payload = oid.
Proof.
  unfold blob_prepare. destruct (blob_context _ _ _) as [c|]; [|done].
  destruct (payload_len 0 payload) as [l|]; [|done].
  destruct (l =? size) eqn:El; cbn [negb]; [|done].
  destruct (bool_decide _) eqn:Eo; cbn [negb]; [|done].
  destruct (resolve_paths _ _); [|done]. intros [= -> -> _]. by reflect_bool.
Qed.

Lemma payload_len_sum total payload len :
  payload_len total payload = Some len ->
  len = total + zlen (concat (as_bytes <$> payload)) /\ (payload <> [] -> len <= u64_max).
Proof.
  revert total. induction payload as [|c payload IH]; intros total; cbn [payload_len].
  - intros [= ->]. unfold zlen. simpl. split; [lia | done].
  - destruct (_ <=? u64_max) eqn:El; [|done]. intros [-> Hle]%IH. reflect_bool.
    rewrite fmap_cons. cbn [concat]. rewrite zlen_app. unfold str_len in *. split; [lia|].
    intros _. destruct payload; [unfold zlen in *; simpl in *; lia | by apply Hle].
Qed.

Lemma record_gap_attestations ck id oid n s :
  attestations (record_coverage_gap ck id oid n s).2 = attestations s.
Proof. unfold record_coverage_gap. by repeat case_match. Qed.

Lemma record_scanned_attestations ck id oid n r k s :
  attestations (record_scanned_blob ck id oid n r k s).2 = attestations s.
Proof. unfold record_scanned_blob. by repeat case_match. Qed.

(** C16. Clean attestations come only from clean scans: after a blob request the
    attestation cache is what it was, or the payload had the declared size,
    hashed to the requested object, the scan completed, every match was
    suppressed, and the one attestation added is bound to that object, the
    transaction's policy and its exact staged paths. *)
Theorem attestation_only_clean (ck : clock) (id : Z) (oid : str) (size : Z) (payload : list str)
    (scan : list str -> list str -> ScanOutcome)
    (finalize_matches : list RawMatch -> option (list RawMatch)) (st : ServerState) :
  let st' := (handle_blob ck id oid size payload scan finalize_matches st).2 in
  attestations (guard st') = attestations (guard st) \/
  exists t paths resolved matches,
    transactions (guard st) !! id = Some t /\ oid ∈ required_blob_oids t /\
    source_paths_by_oid t !! oid = Some paths /\
    zlen (concat (as_bytes <$> payload)) = size /\
    compute_git_blob_oid (txn_hash_algorithm t) size payload = oid /\
    scan resolved payload = Scanned matches /\ finalize_matches matches = Some [] /\
    attestations (guard st') =
      hot_insert {| att_hash_algorithm := txn_hash_algorithm t; att_blob_oid := oid;
                    att_object_size := size;
                    att_policy_identity := guard_attestation_identity (txn_policy_identity t) paths;
                    att_last_seen_sequence := 0 |} (attestations (guard st)).
Proof.
  intros st'. subst st'. unfold handle_blob.
  destruct (blob_prepare id oid size payload st) as [[[ctx len] resolved]|m] eqn:Ep; [|by left].
  apply blob_prepare_ok in Ep as (Hctx & Hlen & -> & Hoid).
  unfold blob_complete. destruct (scan resolved payload) as [ms|e|e] eqn:Es; [| |by left].
  - destruct (finalize_matches ms) as [fs|] eqn:Ef.
    + pose proof (record_scanned_attestations ck id oid size fs (count_blocking fs) (guard st)) as Ha.
      destruct (record_scanned_blob _ _ _ _ _ _ _) as [[[u|m]|] g] eqn:Er; simpl in *; [|by left..].
      destruct (zlen fs =? 0) eqn:Ez; [|by left]. right.
      assert (fs = []) as -> by (destruct fs; [done | discriminate Ez]).
      unfold blob_context in Hctx. destruct (pending_blob id oid (guard st)) as [t|] eqn:Et; [|done].
      apply pending_blob_spec in Et as (Ht & Hreq & _).
      destruct (source_paths_by_oid t !! oid) as [paths|] eqn:Epaths; [|done].
      injection Hctx as <-. apply payload_len_sum in Hlen as [Hlen _].
      exists t, paths, resolved, ms. split_and!; try done.
      unfold attest_clean, insert_attestation. simpl. by rewrite Ha.
    + left. pose proof (record_gap_attestations ck id oid size (guard st)) as Ha.
      by destruct (record_coverage_gap _ _ _ _ _) as [[[u|m]|] g].
  - left. pose proof (record_gap_attestations ck id oid size (guard st)) as Ha.
    by destruct (record_coverage_gap _ _ _ _ _) as [[[u|m]|] g].
Qed.

(** The object id git gives a blob. *)
Definition git_oid (algorithm : GitHashAlgorithm) (content : bytes) : str :=
  let object := as_bytes ($"blob " ++ display_u64 (zlen content) ++ [0]) ++ content in
  match algorithm with
  | Sha1 => hex_encode (sha1_digest object)
  | Sha256 => hex_encode (sha256_digest object)
  end.

(** The daemon refuses every staged blob that is not UTF-8: the client sends
    a lossy decoding under the original object id and size, which has another
    size or (absent a hash collision) another object id. *)
Theorem non_utf8_blob_rejected (id : Z) (content : bytes) (st : ServerState) (t : GuardTransaction) :
  (forall a b, hex_encode (sha1_digest a) = hex_encode (sha1_digest b) -> a = b) ->
  (forall a b, hex_encode (sha256_digest a) = hex_encode (sha256_digest b) -> a = b) ->
  Forall (fun b => 0 <= b <= 255) content -> from_utf8 content = None ->
  transactions (guard st) !! id = Some t ->
  exists m, blob_prepare id (git_oid (txn_hash_algorithm t) content) (zlen content)
              [client_payload content] st = Err m.
Proof.
  intros H1 H2 Hb Hn Ht.
  destruct (blob_prepare _ _ _ _ st) as [[[ctx len] res]|m] eqn:Ep; [|eauto]. exfalso.
  apply blob_prepare_ok in Ep as (Hctx & _ & _ & Hoid).
  assert (bc_hash_algorithm ctx = txn_hash_algorithm t) as Ha.
  { unfold blob_context in Hctx. destruct (pending_blob _ _ _) as [t'|] eqn:Ept; [|done].
    apply pending_blob_spec in Ept as (Ht' & _). rewrite Ht in Ht'. injection Ht' as <-.
    by destruct (source_paths_by_oid t !! _); simplify_eq/=. }
  apply (lossy_alters_invalid content Hb Hn).
  unfold compute_git_blob_oid, git_oid, client_payload in Hoid. rewrite Ha, Hn in Hoid.
  destruct (txn_hash_algorithm t); [apply H1 in Hoid | apply H2 in Hoid];
    apply app_inv_head in Hoid; cbn in Hoid; by rewrite app_nil_r in Hoid.
Qed.

(** *** The begin handler *)

Definition staged_file (e : GuardWireManifestEntry) : Prop :=
  wire_kind e = $"file" /\ wire_object_oid e <> [].

#[local] Instance staged_file_dec e : Decision (staged_file e).
Proof. unfold staged_file. apply _. Defined.

(** How many manifest entries have no object to scan: deletions, symbolic
    links, submodules. *)
Definition skipped_entries (es : list GuardWireManifestEntry) : Z :=
  zlen (filter (fun e => ~ staged_file e) es).

(** What grouping knows after the entries [es]. *)
Record grouped (es : list GuardWireManifestEntry) (index : gmap str (Z * list str))
    (order : list str) : Prop := {
  gr_nodup : NoDup order;
  gr_order oid : oid ∈ order <-> is_Some (index !! oid);
  gr_paths oid size paths : index !! oid = Some (size, paths) ->
    forall p, p ∈ paths <-> exists e, e ∈ es /\ staged_file e /\ wire_object_oid e = oid /\ wire_path e = p;
  gr_files oid : is_Some (index !! oid) <-> exists e, e ∈ es /\ staged_file e /\ wire_object_oid e = oid }.

Lemma exists_snoc {A} (P : A -> Prop) l x :
  (exists e, e ∈ l ++ [x] /\ P e) <-> (exists e, e ∈ l /\ P e) \/ P x.
Proof.
  split.
  - intros (e & [?| ->%list_elem_of_singleton]%elem_of_app & ?); eauto.
  - intros [(e & ? & ?)|?]; [exists e | exists x]; rewrite elem_of_app, list_elem_of_singleton; auto.
Qed.

Lemma grouped_skip es e index order :
  grouped es index order -> ~ staged_file e -> grouped (es ++ [e]) index order.
Proof.
  intros [Hn Ho Hp Hf] He. split; [done | done | |].
  - intros oid size paths Hi p. rewrite (Hp _ _ _ Hi), exists_snoc. tauto.
  - intros oid. rewrite Hf, exists_snoc. tauto.
Qed.

Lemma grouped_add es e index order size paths :
  grouped es index order -> staged_file e ->
  (index !! wire_object_oid e = Some (size, paths) \/
   index !! wire_object_oid e = None /\ paths = []) ->
  grouped (es ++ [e])
    (<[wire_object_oid e := (size, paths ++ [wire_path e])]> index)
    (match index !! wire_object_oid e with Some _ => order | None => order ++ [wire_object_oid e] end).
Proof.
  intros [Hn Ho Hp Hf] He Hi. remember (wire_object_oid e) as o eqn:Heo. split.
  - destruct (index !! o) as [x|] eqn:Eo; [done|]. apply NoDup_app. split; [done|].
    split; [|apply NoDup_singleton]. intros y Hy ->%list_elem_of_singleton.
    apply Ho in Hy as [? ?]. congruence.
  - intros oid. rewrite lookup_insert.
    destruct (index !! o) as [x|] eqn:Eo; [|rewrite elem_of_app, list_elem_of_singleton]; rewrite Ho;
      case_decide as Hoo.
    + rewrite <- Hoo, Eo. by split; eauto.
    + done.
    + split; [eauto | intros _; by right].
    + split; [intros [?|?]; [done | congruence] | by left].
  - intros oid sz ps. rewrite lookup_insert. case_decide as Hoo.
    + intros [= <- <-] p. rewrite elem_of_app, list_elem_of_singleton, exists_snoc. subst oid.
      rewrite <- Heo. destruct Hi as [Hi|[Hi ->]]; [rewrite (Hp _ _ _ Hi)|].
      * split; [intros [?| ->]; auto | intros [?|(_ & _ & ->)]; auto].
      * split; [intros [?%not_elem_of_nil| ->]; [done|]; by right|].
        intros [(e' & Hin & ? & ? & ?)|(_ & _ & ->)]; [|by right].
        assert (is_Some (index !! o)) as [? ?] by (apply Hf; eauto). congruence.
    + intros Hps p. rewrite (Hp _ _ _ Hps), exists_snoc, <- Heo. tauto.
  - intros oid. rewrite lookup_insert, exists_snoc, <- Heo. case_decide as Hoo.
    + split; eauto.
    + rewrite Hf. tauto.
Qed.

Lemma group_entries_spec entries : forall es index order skipped index' order' skipped',
  grouped es index order ->
  group_entries entries index order skipped = Ok (index', order', skipped') ->
  grouped (es ++ entries) index' order' /\ skipped' = skipped + skipped_entries entries /\
  Forall (fun e => validate_staged_relative_path (wire_path e) = Ok (wire_path e)) entries.
Proof.
  induction entries as [|e entries IH]; intros es index order skipped index' order' skipped' Hg;
    cbn [group_entries].
  - intros [= <- <- <-]. rewrite app_nil_r. unfold skipped_entries, zlen. cbn [filter list_filter length]. split_and!; [done | lia | constructor].
  - destruct (validate_staged_relative_path (wire_path e)) as [q|] eqn:Ev; [|done].
    assert (q = wire_path e) as ->.
    { unfold validate_staged_relative_path in Ev. repeat case_match; congruence. }
    assert (es ++ e :: entries = (es ++ [e]) ++ entries) as -> by (by rewrite <- app_assoc).
    destruct (_ || _) eqn:Ek.
    + assert (~ staged_file e) as He.
      { intros [Hk Ho]. apply orb_true_iff in Ek as [Ek|Ek]; reflect_bool; done. }
      intros Hr. destruct (IH _ _ _ _ _ _ _ (grouped_skip es e _ _ Hg He) Hr) as (? & -> & ?).
      split_and!; [done | | by constructor].
      unfold skipped_entries, zlen. rewrite (filter_cons_True _ e) by done. rewrite length_cons. lia.
    + assert (staged_file e) as He.
      { apply orb_false_iff in Ek as [Ek Eo]. apply negb_false_iff, bool_decide_eq_true in Ek.
        by apply bool_decide_eq_false in Eo. }
      assert (skipped_entries (e :: entries) = skipped_entries entries) as ->.
      { unfold skipped_entries. by rewrite filter_cons_False by tauto. }
      destruct (index !! wire_object_oid e) as [[size paths]|] eqn:Ei.
      * destruct (size =? wire_object_size e); simpl; [|done]. intros Hr.
        pose proof (grouped_add es e index order size paths Hg He (or_introl Ei)) as Hg'.
        rewrite Ei in Hg'. destruct (IH _ _ _ _ _ _ _ Hg' Hr) as (? & ? & ?). split_and!; [done..|]. by constructor.
      * intros Hr.
        pose proof (grouped_add es e index order (wire_object_size e) [] Hg He
          (or_intror (conj Ei eq_refl))) as Hg'.
        rewrite Ei in Hg'. destruct (IH _ _ _ _ _ _ _ Hg' Hr) as (? & ? & ?). split_and!; [done..|]. by constructor.
Qed.

Lemma dedup_elem (x : str) l : x ∈ dedup l <-> x ∈ l.
Proof.
  induction l as [|a l IH]; [done|]. destruct l as [|b l]; [done|]. cbn [dedup].
  case_decide as Hab; [subst|]; rewrite ?elem_of_cons, IH, ?elem_of_cons; naive_solver.
Qed.

Context {LL : LruLaws HotKey GitCleanAttestation}.

Lemma lookup_attestation_spec a oid short g hit g' :
  lookup_attestation a oid short g = (hit, g') ->
  entries (attestations g') ⊆ entries (attestations g) /\
  (forall att, hit = Some att ->
     ({| hk_hash_algorithm := a; hk_blob_oid := oid; hk_policy_short_digest := short |}, att)
       ∈ entries (attestations g)) /\
  transactions g' = transactions g /\ transaction_counter g' = transaction_counter g.
Proof.
  unfold lookup_attestation, hot_get.
  set (k := {| hk_hash_algorithm := a; hk_blob_oid := oid; hk_policy_short_digest := short |}).
  pose proof (lru_iter_get k (cache (attestations g))) as Hi.
  pose proof (lru_get_value k (cache (attestations g))) as Hv.
  destruct (lru_get k (cache (attestations g))) as [r c]. intros [= <- <-].
  unfold entries, on_cache. simpl in *. rewrite Hi. split_and!; [|..|done|done].
  - destruct (lookup_assoc k _) as [v|] eqn:Ek; [|done]. apply lookup_assoc_elem in Ek.
    intros e [->|[He _]%elem_of_remove_assoc]%elem_of_cons; done.
  - intros att ->. symmetry in Hv. by apply lookup_assoc_elem in Hv.
Qed.

(** The attestation a clean hit rests on: cached for this object under this hash
    algorithm, its own policy identity is the one that binds [identity] to the
    paths, or an alias of it under the short digest the cache compares. *)
Definition attested (algorithm : GitHashAlgorithm) (identity : GuardPolicyIdentity)
    (oid : str) (paths : list str) (g : GuardRuntime) : Prop :=
  exists att, (attestation_hot_key att, att) ∈ entries (attestations g) /\
    att_hash_algorithm att = algorithm /\ att_blob_oid att = oid /\
    let bound := guard_attestation_identity identity paths in
    (att_policy_identity att = bound \/
     att_policy_identity att <> bound /\ short_or_default (att_policy_identity att) = short_or_default bound).

Lemma attested_intro algorithm identity oid paths short att g :
  hot_ok (attestations g) -> short_digest (guard_attestation_identity identity paths) = Ok short ->
  ({| hk_hash_algorithm := algorithm; hk_blob_oid := oid; hk_policy_short_digest := short |}, att)
    ∈ entries (attestations g) ->
  attested algorithm identity oid paths g.
Proof.
  intros [Hk _ _ _] Hs Hin. rewrite Forall_forall in Hk. pose proof (Hk _ Hin) as Hkey. cbn in Hkey.
  exists att. rewrite <- Hkey. split; [done|]. injection Hkey as Ha Ho Hd. split_and!; [done..|].
  assert (short_or_default (att_policy_identity att) = short_or_default (guard_attestation_identity identity paths)) as Heq.
  { unfold short_or_default at 2. by rewrite Hs. }
  cbn zeta. destruct (decide (att_policy_identity att = guard_attestation_identity identity paths)); [by left | by right].
Qed.

Lemma plan_oids_reachable algorithm identity order : forall a g,
  reachable g -> reachable (plan_oids algorithm identity order a g).2.
Proof.
  induction order as [|oid order IH]; intros a g Hg; cbn [plan_oids]; [done|].
  destruct (pa_index a !! oid) as [[size paths]|]; [|done]. destruct (add_checked _ _ _); [|done].
  destruct (short_digest _) as [short|]; [|done].
  pose proof (reach_step {| instant_now := 0; unix_now := 0 |} (OpLookup algorithm oid short) g Hg I) as Hl. cbn in Hl.
  destruct (lookup_attestation algorithm oid short g) as [[att|] g1]; [|by apply IH].
  destruct (add_checked _ _ _); [by apply IH | done].
Qed.

Lemma plan_oids_spec algorithm identity order : forall a g a' g',
  NoDup order -> reachable g ->
  plan_oids algorithm identity order a g = (Ret (Ok a'), g') ->
  pa_hits a' ++ pa_required a' ≡ₚ (pa_hits a ++ pa_required a) ++ order /\
  (forall oid, oid ∉ order -> pa_index a' !! oid = pa_index a !! oid) /\
  (forall oid size ps', pa_index a' !! oid = Some (size, ps') ->
     exists ps, pa_index a !! oid = Some (size, ps) /\ forall p, p ∈ ps' <-> p ∈ ps) /\
  (forall oid, oid ∈ pa_hits a' -> oid ∈ pa_hits a \/
     exists size ps, pa_index a' !! oid = Some (size, ps) /\ attested algorithm identity oid ps g) /\
  transactions g' = transactions g /\ transaction_counter g' = transaction_counter g.
Proof.
  induction order as [|oid order IH]; intros a g a' g' Hnd Hre; cbn [plan_oids].
  { intros [= <- <-]. rewrite app_nil_r. split_and!; eauto. }
  apply NoDup_cons in Hnd as [Hoid Hnd].
  destruct (pa_index a !! oid) as [[size paths]|] eqn:Ei; [|done].
  set (ps := dedup (sort_by str_cmp paths)).
  destruct (add_checked u64_max (pa_bytes_requested a) size) as [requested|]; [|done].
  destruct (short_digest (guard_attestation_identity identity ps)) as [short|] eqn:Es; [|done].
  pose proof (reach_step {| instant_now := 0; unix_now := 0 |} (OpLookup algorithm oid short) g Hre I) as Hre1. cbn in Hre1.
  destruct (lookup_attestation algorithm oid short g) as [hit g1] eqn:El. cbn in Hre1.
  apply lookup_attestation_spec in El as (Hsub & Hhit & Htx & Hctr).
  assert (forall p, p ∈ ps <-> p ∈ paths) as Hps.
  { intros p. unfold ps. rewrite dedup_elem. apply elem_of_sort_by. }
  assert (forall oid' b, attested algorithm identity oid' b g1 -> attested algorithm identity oid' b g)
    as Hatt by (intros oid' b (att & ? & ?); exists att; auto).
  assert (forall a1, pa_index a1 = <[oid := (size, ps)]> (pa_index a) ->
    pa_hits a1 ++ pa_required a1 ≡ₚ (pa_hits a ++ pa_required a) ++ [oid] ->
    (forall o, o ∈ pa_hits a1 -> o ∈ pa_hits a \/ o = oid /\ attested algorithm identity oid ps g) ->
    plan_oids algorithm identity order a1 g1 = (Ret (Ok a'), g') ->
    pa_hits a' ++ pa_required a' ≡ₚ (pa_hits a ++ pa_required a) ++ oid :: order /\
    (forall o, o ∉ oid :: order -> pa_index a' !! o = pa_index a !! o) /\
    (forall o sz ps', pa_index a' !! o = Some (sz, ps') ->
       exists ps0, pa_index a !! o = Some (sz, ps0) /\ forall p, p ∈ ps' <-> p ∈ ps0) /\
    (forall o, o ∈ pa_hits a' -> o ∈ pa_hits a \/
       exists sz ps0, pa_index a' !! o = Some (sz, ps0) /\ attested algorithm identity o ps0 g) /\
    transactions g' = transactions g /\ transaction_counter g' = transaction_counter g) as Hstep.
  { intros a1 Hi1 Hp1 Hh1 Hr. destruct (IH a1 g1 a' g' Hnd Hre1 Hr) as (H1 & H2 & H3 & H4 & H5 & H6).
    split_and!; [| | | |congruence..].
    - rewrite H1, Hp1, <- app_assoc. done.
    - intros o [Hne Hno]%not_elem_of_cons. rewrite H2, Hi1 by done. by apply lookup_insert_ne.
    - intros o sz ps' Ho. apply H3 in Ho as (ps0 & Ho & Hel). rewrite Hi1 in Ho.
      destruct (decide (oid = o)) as [<-|Hne].
      + rewrite lookup_insert_eq in Ho. injection Ho as <- <-. exists paths. split; [done|].
        intros p. by rewrite Hel, Hps.
      + rewrite lookup_insert_ne in Ho by done. eauto.
    - intros o Ho. apply H4 in Ho as [Ho|(sz & ps0 & ? & ?)]; [|right; eauto 6].
      apply Hh1 in Ho as [Ho|[-> Ho]]; [by left|]. right. exists size, ps.
      rewrite H2, Hi1, lookup_insert_eq by done. done. }
  destruct hit as [att|].
  - destruct (add_checked _ (pa_bytes_hit a) size) as [bh|]; [|done]. apply Hstep; simpl.
    + done.
    + rewrite <- !app_assoc. apply Permutation_app_head, Permutation_app_comm.
    + intros o [?| ->%list_elem_of_singleton]%elem_of_app; [by left | right].
      split; [done|]. apply (attested_intro _ _ _ _ short att); [by apply reachable_hot | done | by apply Hhit].
  - apply Hstep; simpl; [done | by rewrite app_assoc | by left].
Qed.

Lemma grouped_nil : grouped [] ∅ [].
Proof.
  split; [constructor | | |]; intros oid; rewrite ?lookup_empty; try done.
  - split; [by intros ?%not_elem_of_nil | by intros [? ?]].
  - split; [by intros [? ?] | intros (e & ?%not_elem_of_nil & _); done].
Qed.

Lemma next_id_reachable id g g' : next_transaction_id g = (Ret id, g') -> reachable g ->
  reachable g' /\ transactions g' = transactions g.
Proof.
  intros He Hg. pose proof (reach_step {| instant_now := 0; unix_now := 0 |} OpNextId g Hg I) as H. cbn in H. rewrite He in H.
  split; [done|]. unfold next_transaction_id in He. case_match; by simplify_eq.
Qed.

(** The transaction a plan creates. *)
Lemma handle_begin_plan ck repo fp alg es st st' tid mx hits required :
  reachable (guard st) ->
  handle_begin ck repo fp alg es st = (Ret (GuardCommitPlan tid hits required mx), st') ->
  Forall (fun e => validate_staged_relative_path (wire_path e) = Ok (wire_path e)) es /\
  NoDup (hits ++ required) /\
  (forall oid, oid ∈ hits ++ required <-> exists e, e ∈ es /\ staged_file e /\ wire_object_oid e = oid) /\
  exists t,
    transactions (guard st') = <[tid := t]> (transactions (guard st)) /\ txn_fresh t /\
    clean_hits t = hits /\ required_blob_oids t = required /\
    repo_path t = repo /\ index_fingerprint t = fp /\ txn_objects_skipped t = skipped_entries es /\ reachable (guard st') /\
    (forall oid paths, source_paths_by_oid t !! oid = Some paths ->
       forall p, p ∈ paths <-> exists e, e ∈ es /\ staged_file e /\ wire_object_oid e = oid /\ wire_path e = p) /\
    (forall oid, oid ∈ hits -> exists paths,
       source_paths_by_oid t !! oid = Some paths /\
       attested (txn_hash_algorithm t) (identity_of_root (canonical_repo repo) (guard st)) oid paths
         (guard st)).
Proof.
  intros Hre. unfold handle_begin. destruct (_ <=? _); [done|]. destruct (_ <? _); [done|].
  destruct (parse_hash_algorithm alg) as [h|]; [|done].
  destruct (group_entries es ∅ [] 0) as [[[index order] skipped]|] eqn:Eg; [|done].
  destruct (group_entries_spec _ _ _ _ _ _ _ _ grouped_nil Eg) as ([Hnd Ho Hp Hf] & -> & Hval). rewrite app_nil_l in *.
  set (identity := identity_of_root _ _).
  pose proof (plan_oids_reachable h identity order (mkPlan index [] [] 0 0) _ Hre) as Hre1.
  destruct (plan_oids _ _ order _ (guard st)) as [[[plan|]|] g1] eqn:Ep; [|done..]. cbn [snd] in Hre1.
  destruct (plan_oids_spec _ _ _ _ _ _ _ Hnd Hre Ep) as (Hperm & _ & Hidx & Hhits & Htx & Hctr).
  simpl in Hperm. destruct (next_transaction_id g1) as [[id|] g2] eqn:En; [|done].
  destruct (next_id_reachable _ _ _ En Hre1) as [Hre2 Ht2].
  match goal with |- context [begin_transaction ck ?x g2] => set (t := x) end.
  assert (txn_fresh t) as Hfresh.
  { split; simpl; [|done..]. rewrite <- Hperm in Hnd. by apply NoDup_app in Hnd as (_ & _ & ?). }
  intros [= <- <- <- _ <-]. split_and!; [done | by rewrite Hperm | |].
  - intros oid. rewrite Hperm, Ho. apply Hf.
  - exists t. cbn [guard touch_activity set_transactions transactions begin_transaction transaction_id t].
    split; [by rewrite Ht2, Htx|]. split_and!; try done.
    + apply (reach_step ck (OpBegin t) g2 Hre2 Hfresh).
    + intros oid paths. cbn [source_paths_by_oid t]. rewrite lookup_fmap. intros ([sz ps] & Hi & ->)%fmap_Some p. simpl.
      apply Hidx in Hi as (ps0 & Hi & Hel). simpl in Hi. rewrite Hel. by apply (Hp _ _ _ Hi).
    + intros oid [?%not_elem_of_nil|(sz & ps & Hi & Ha)]%Hhits; [done|]. exists ps. cbn [source_paths_by_oid t txn_hash_algorithm].
      rewrite lookup_fmap, Hi. done.
Qed.

(** C17. A commit plan partitions the staged objects: each non-empty object id of
    a staged file is either a clean hit or required, exactly once.  The new
    transaction is fresh and remembers every staged path of each object.  Every
    clean hit rests on a cached attestation of that object, made with the same
    hash algorithm, whose own policy identity is the root's current one bound to
    exactly that set of paths, or one with the same 48-bit short digest, which is
    what the cache compares. *)
Theorem begin_plan_complete (ck : clock) (repo fp alg : str)
    (es : list GuardWireManifestEntry) (st st' : ServerState) (tid mx : Z) (hits required : list str) :
  reachable (guard st) ->
  handle_begin ck repo fp alg es st = (Ret (GuardCommitPlan tid hits required mx), st') ->
  Forall (fun e => validate_staged_relative_path (wire_path e) = Ok (wire_path e)) es /\
  NoDup (hits ++ required) /\
  (forall oid, oid ∈ hits ++ required <-> exists e, e ∈ es /\ staged_file e /\ wire_object_oid e = oid) /\
  exists t,
    transactions (guard st') = <[tid := t]> (transactions (guard st)) /\ txn_fresh t /\
    clean_hits t = hits /\ required_blob_oids t = required /\
    (forall oid paths, source_paths_by_oid t !! oid = Some paths ->
       forall p, p ∈ paths <-> exists e, e ∈ es /\ staged_file e /\ wire_object_oid e = oid /\ wire_path e = p) /\
    (forall oid, oid ∈ hits -> exists paths,
       source_paths_by_oid t !! oid = Some paths /\
       attested (txn_hash_algorithm t) (identity_of_root (canonical_repo repo) (guard st)) oid paths
         (guard st)).
Proof.
  intros Hre Hb. destruct (handle_begin_plan _ _ _ _ _ _ _ _ _ _ _ Hre Hb) as (? & ? & ? & t & ?).
  split_and!; [done..|]. exists t. tauto.
Qed.

(** C1. A receipt is complete, from the manifest to the verdict.  Let a begin
    request for the manifest [es] be planned, let any lawful operations follow
    that begin no other transaction under the same id (the daemon takes ids from
    a counter), and let a finish request be answered with a receipt.  Then every
    object id of a staged file is exactly one of the clean hits and the required
    objects; the daemon scanned exactly the required ones, the client agrees on
    their number, and the staged index still has the fingerprint of the begin
    request.  The receipt counts the hits, the scanned objects and the manifest
    entries with nothing to scan (deletions, links, submodules), and their sum.
    It says [current] exactly when no finding blocks and no required object was
    left as a coverage gap; entries with nothing to scan do not prevent it.  The
    transaction is consumed and the registered root takes the state. *)
Theorem finish_receipt_sound (ck ck' : clock) (repo fp alg : str) (es : list GuardWireManifestEntry)
    (st st1 st2 st3 : ServerState) (tid mx n : Z) (hits required : list str)
    (later : list (clock * runtime_op)) (r : CommitReceipt) :
  reachable (guard st) ->
  handle_begin ck repo fp alg es st = (Ret (GuardCommitPlan tid hits required mx), st1) ->
  Forall (fun x => ~ begins tid (snd x) /\ op_ok (snd x)) later ->
  guard st2 = run_ops later (guard st1) ->
  handle_finish ck' tid n st2 = (Ret (GuardCommitReceipt r), st3) ->
  NoDup (hits ++ required) /\
  (forall oid, oid ∈ hits ++ required <-> exists e, e ∈ es /\ staged_file e /\ wire_object_oid e = oid) /\
  n = zlen required /\ verify_staged_fingerprint repo fp = true /\
  cr_objects_hit r = zlen hits /\ cr_objects_scanned r = zlen required /\
  cr_objects_skipped r = skipped_entries es /\
  cr_objects_requested r = zlen hits + zlen required + skipped_entries es /\
  (cr_terminal_state r = $"current" <-> cr_blocking_findings_count r = 0 /\ cr_coverage_gaps r = 0) /\
  (exists t, transactions (guard st2) !! tid = Some t /\ scanned_oids t ≡ₚ required /\
     cr_findings r = reported_findings t /\ cr_blocking_findings_count r = blocking_findings_count t /\
     cr_coverage_gaps r = txn_coverage_gaps t) /\
  transactions (guard st3) = delete tid (transactions (guard st2)) /\
  (is_Some (roots (guard st2) !! canonical_repo repo) ->
   exists s, root_state (canonical_repo repo) (guard st3) = Some s /\
             GuardRootState_label s = cr_terminal_state r).
Proof.
  intros Hre Hb Hl Hg Hf.
  destruct (handle_begin_plan _ _ _ _ _ _ _ _ _ _ _ Hre Hb) as (_ & ? & ? & t0 & Htx & _ & Hh & Hr & Hp & Hi & Hs & Hre1 & _).
  assert (reachable (guard st2)) as Hre2.
  { rewrite Hg. apply run_ops_reachable; [|done]. eapply Forall_impl; [exact Hl|]. by intros ? []. }
  destruct (finish_receipt_of _ _ _ _ _ _ Hre2 Hf) as (t & Ht & Hperm & Hn & Hv & [seq ->] & Hcur & Hdel & Hroot).
  pose proof Ht as Ht'. rewrite Hg in Ht'. apply run_ops_commit in Ht' as (t1 & Ht1 & Hsame); [|done].
  rewrite Htx, lookup_insert_eq in Ht1. injection Ht1 as <-.
  destruct Hsame as (Ep & Ei & _ & Eh & Er & Es & _). rewrite Ep, Hp in *. rewrite Ei, Hi in *. rewrite Er, Hr in *.
  assert (zlen (scanned_oids t) = zlen required) as Hlen by (unfold zlen; by rewrite Hperm).
  cbn [receipt_of cr_objects_hit cr_objects_scanned cr_objects_skipped cr_objects_requested].
  rewrite Hlen, Es, Hs, Eh, Hh. split_and!; try done. by exists t.
Qed.
End handlers.

(** ** Client theorems *)

Lemma count_blocking_le fs : 0 <= count_blocking fs <= zlen fs.
Proof. unfold count_blocking, zlen. pose proof (List_filter_length (fun f => tier_blocks (verdict_tier (rm_evidence f)) false) fs). lia. Qed.

Lemma validate_conservation_ok r :
  0 <= objects_skipped r ->
  validate_conservation r = Ret (Ok tt) <->
  objects_hit r + objects_scanned r + objects_skipped r = objects_requested r /\
  bytes_hit r + bytes_scanned r = bytes_requested r /\
  objects_requested r <= u64_max /\ bytes_requested r <= u64_max.
Proof.
  intros Hs. unfold validate_conservation, add_checked.
  repeat (case_match; simplify_eq; reflect_bool); split; try done; lia.
Qed.

(** The client accepts a receipt exactly when objects and bytes add up
    within [u64], the findings it carries are as many as reported and derive
    the reported number of blocking ones, and the terminal state is the one
    those counts imply. *)
Theorem client_accepts_iff (identity : GuardPolicyIdentity) (r : CommitReceipt) :
  0 <= cr_objects_skipped r ->
  client_validate identity r = Ret (Ok tt) <->
  (cr_objects_hit r + cr_objects_scanned r + cr_objects_skipped r = cr_objects_requested r /\
   cr_bytes_hit r + cr_bytes_scanned r = cr_bytes_requested r /\
   cr_objects_requested r <= u64_max /\ cr_bytes_requested r <= u64_max) /\
  zlen (cr_findings r) = cr_findings_count r /\
  count_blocking (cr_findings r) = cr_blocking_findings_count r /\
  cr_terminal_state r =
    GuardRootState_label
      (guard_commit_terminal_state (cr_blocking_findings_count r) (cr_coverage_gaps r)).
Proof.
  intros Hs. pose proof (count_blocking_le (cr_findings r)) as Hk.
  assert (GuardRootState_label
      (guard_commit_terminal_state (cr_blocking_findings_count r) (cr_coverage_gaps r)) =
    expected_terminal_state (cr_blocking_findings_count r) (cr_coverage_gaps r)) as ->.
  { unfold guard_commit_terminal_state, expected_terminal_state. by repeat case_match. }
  rewrite <- (validate_conservation_ok (client_receipt identity r)) by done.
  unfold client_validate. cbn [findings_count coverage_gaps client_receipt].
  fold (client_receipt identity r).
  destruct (validate_conservation _) as [[[]|e]|] eqn:Ev; [|split; [done | intros [? _]; done]..].
  destruct (cr_findings_count r <? _) eqn:E1; reflect_bool; [split; [done | intros (_ & ? & ? & _); lia]|].
  destruct (zlen (cr_findings r) =? _) eqn:E2; reflect_bool; cbn [negb];
    [|split; [done | intros (_ & ? & _); done]].
  destruct (count_blocking (cr_findings r) =? _) eqn:E3; reflect_bool; cbn [negb];
    [|split; [done | intros (_ & _ & ? & _); done]].
  destruct (bool_decide _) eqn:E4; reflect_bool; cbn [negb]; split; try done.
  intros (_ & _ & _ & ?). done.
Qed.

(** The receipt the daemon issues for a transaction whose counters agree with
    its findings and whose bytes are conserved passes every client check. *)
Theorem daemon_receipt_accepted (t : GuardTransaction) (total seq : Z)
    (identity : GuardPolicyIdentity) :
  total_objects t = Ret total -> 0 <= txn_objects_skipped t ->
  txn_bytes_hit t + txn_bytes_scanned t = txn_bytes_requested t ->
  txn_bytes_requested t <= u64_max ->
  zlen (reported_findings t) = txn_findings_count t ->
  count_blocking (reported_findings t) = blocking_findings_count t ->
  client_validate identity (receipt_of t total seq) = Ret (Ok tt).
Proof.
  intros [-> Hle]%total_objects_sum Hs Hb Hbm Hf Hk.
  unfold client_validate. cbn [findings_count coverage_gaps client_receipt].
  fold (client_receipt identity (receipt_of t
    (zlen (clean_hits t) + zlen (scanned_oids t) + txn_objects_skipped t) seq)).
  rewrite (proj2 (validate_conservation_ok (client_receipt identity (receipt_of t _ seq)) ltac:(done)))
    by (simpl; lia).
  pose proof (count_blocking_le (reported_findings t)).
  cbn [cr_findings_count cr_blocking_findings_count cr_findings cr_coverage_gaps cr_terminal_state receipt_of].
  rewrite (proj2 (Z.ltb_ge _ _)) by lia. rewrite Hf, Hk, !Z.eqb_refl. cbn [negb].
  rewrite bool_decide_eq_true_2; [done|].
  unfold guard_commit_terminal_state, expected_terminal_state. by repeat case_match.
Qed.

(** ** Witnesses *)

#[export] Instance sample_env : @CommitEnv plain_digests := {|
  canonicalize _ := None;
  compute_root_policy_identity _ := sample_policy $"old";
  sha1_digest b := drop 7 b;
  sha256_digest b := b;
  verify_staged_fingerprint _ _ := true;
  display_json_error _ := [];
  receipt_wire_len r := Ok (zlen (cr_findings r)) |}.

Definition sample_server : @ServerState (list_lru HotKey GitCleanAttestation) mem_redb :=
  mkServer sample_runtime (Some sample_db).

Definition sample_entries : list GuardWireManifestEntry :=
  [{| wire_path := $"b.txt"; wire_kind := $"file"; wire_object_oid := $"bb"; wire_object_size := 3;
      wire_raw_mode := 33188 |};
   {| wire_path := $"a.txt"; wire_kind := $"file"; wire_object_oid := $"bb"; wire_object_size := 3;
      wire_raw_mode := 33188 |};
   {| wire_path := $"c.txt"; wire_kind := $"file"; wire_object_oid := $"cc"; wire_object_size := 5;
      wire_raw_mode := 33188 |};
   {| wire_path := $"gone"; wire_kind := $"deletion"; wire_object_oid := []; wire_object_size := 0;
      wire_raw_mode := 0 |}].

(** The cached attestation of a blob staged twice, and a begin request on it. *)
Definition cached_attestation : GitCleanAttestation := {|
  att_hash_algorithm := Sha1; att_blob_oid := $"bb"; att_object_size := 3;
  att_policy_identity := @guard_attestation_identity plain_digests (sample_policy $"old") [$"a.txt"; $"b.txt"];
  att_last_seen_sequence := 0 |}.

Definition cached_server : @ServerState (list_lru HotKey GitCleanAttestation) mem_redb :=
  mkServer (@runtime_step plain_digests _ sample_clock (OpAttest cached_attestation) sample_runtime) (Some sample_db).

Lemma cached_reachable : @reachable plain_digests _ (guard cached_server).
Proof. apply reach_step; [apply sample_reachable | done]. Defined.

Definition sample_begin := Eval vm_compute in @handle_begin plain_digests _ mem_redb sample_env
  sample_clock $"/repo" $"fp" $"sha1" sample_entries cached_server.

(** The transaction of the plan: its required blob is scanned, then it is finished. *)
Definition sample_later : list (clock * runtime_op) := [(sample_clock, OpScanned 1 $"cc" 5 [] 0)].

Definition scanned_server : @ServerState (list_lru HotKey GitCleanAttestation) mem_redb :=
  mkServer (@run_ops plain_digests _ sample_later (guard sample_begin.2)) (guard_store sample_begin.2).

Definition sample_finish := Eval vm_compute in @handle_finish plain_digests _ mem_redb sample_json sample_env
  sample_clock 1 1 scanned_server.

Definition sample_receipt_out : CommitReceipt :=
  Eval vm_compute in match sample_finish with
  | (Ret (GuardCommitReceipt r), _) => r
  | _ => receipt_of sample_txn 0 0
  end.

Lemma finish_receipt_sound_witness :
  cr_terminal_state sample_receipt_out = $"current" /\
  cr_objects_requested sample_receipt_out = zlen [$"bb"] + zlen [$"cc"] + skipped_entries sample_entries.
Proof.
  split; [by_eval|].
  apply (@finish_receipt_sound plain_digests _ mem_redb sample_json sample_env _ sample_clock sample_clock
           $"/repo" $"fp" $"sha1" sample_entries cached_server sample_begin.2 scanned_server sample_finish.2
           1 (8 * 1024 * 1024) 1 [$"bb"] [$"cc"] sample_later sample_receipt_out);
    [apply cached_reachable | by_eval | | reflexivity | by_eval].
  constructor; [|constructor]. split; [by intros [] | done].
Defined.

Lemma begin_plan_complete_witness :
  NoDup ([$"bb"] ++ [$"cc"]) /\
  exists t paths,
    transactions (guard sample_begin.2) = <[1 := t]> (transactions (guard cached_server)) /\
    source_paths_by_oid t !! $"bb" = Some paths /\
    @attested plain_digests _ (txn_hash_algorithm t)
      (@identity_of_root plain_digests _ sample_env (@canonical_repo plain_digests _ $"/repo") (guard cached_server))
      $"bb" paths (guard cached_server).
Proof.
  destruct (@begin_plan_complete plain_digests _ mem_redb sample_env _ sample_clock $"/repo" $"fp" $"sha1"
    sample_entries cached_server sample_begin.2 1 (8 * 1024 * 1024) [$"bb"] [$"cc"] cached_reachable ltac:(by_eval))
    as (_ & Hnd & _ & t & Ht & _ & _ & _ & _ & Hh).
  destruct (Hh $"bb" ltac:(apply list_elem_of_here)) as (paths & Hp & Ha). split; [done|]. by exists t, paths.
Defined.

(** Hashes that keep their input, so that they have no collisions. *)
Definition injective_env : @CommitEnv plain_digests := {|
  canonicalize _ := None;
  compute_root_policy_identity _ := sample_policy $"old";
  sha1_digest b := b;
  sha256_digest b := b;
  verify_staged_fingerprint _ _ := true;
  display_json_error _ := [];
  receipt_wire_len r := Ok (zlen (cr_findings r)) |}.

