(* ===== verification/Ssrf.v ===== *)
(** * SSRF policy of the verifier ([crates/verifier/src/bogon.rs] and
    [crates/verifier/src/ssrf.rs])

    The classification of addresses a verification request must not reach, the
    screening of request URLs, and the parsing of abbreviated dotted IPv4
    forms.  The standard library's address predicates are modelled on octets
    and segments; the URL parser is another crate's and enters as the class
    [UrlParser].  The address classification is proved equal to a table of
    address blocks, and the abbreviated forms to [inet_aton]. *)

From Stdlib Require Import ZifyBool Btauto.
From S2P Require Import Prelude.

(** ** Addresses *)

Record Ipv4Addr := v4 { oct0 : Z; oct1 : Z; oct2 : Z; oct3 : Z }.

Record Ipv6Addr := v6 {
  seg0 : Z; seg1 : Z; seg2 : Z; seg3 : Z; seg4 : Z; seg5 : Z; seg6 : Z; seg7 : Z }.

Inductive IpAddr := V4 (a : Ipv4Addr) | V6 (a : Ipv6Addr).

(** [Ipv4Addr::from(u32)]. *)
Definition v4_from_u32 (n : Z) : Ipv4Addr :=
  v4 (n / 16777216 mod 256) (n / 65536 mod 256) (n / 256 mod 256) (n mod 256).

(** *** Predicates of the standard library *)

Definition v4_is_private (a : Ipv4Addr) : bool :=
  (oct0 a =? 10) || ((oct0 a =? 172) && in_range 16 31 (oct1 a)) ||
  ((oct0 a =? 192) && (oct1 a =? 168)).
Definition v4_is_loopback (a : Ipv4Addr) : bool := oct0 a =? 127.
Definition v4_is_link_local (a : Ipv4Addr) : bool := (oct0 a =? 169) && (oct1 a =? 254).
Definition v4_is_broadcast (a : Ipv4Addr) : bool :=
  (oct0 a =? 255) && (oct1 a =? 255) && (oct2 a =? 255) && (oct3 a =? 255).
Definition v4_is_documentation (a : Ipv4Addr) : bool :=
  ((oct0 a =? 192) && (oct1 a =? 0) && (oct2 a =? 2)) ||
  ((oct0 a =? 198) && (oct1 a =? 51) && (oct2 a =? 100)) ||
  ((oct0 a =? 203) && (oct1 a =? 0) && (oct2 a =? 113)).
Definition v4_is_multicast (a : Ipv4Addr) : bool := in_range 224 239 (oct0 a).

Definition v6_is_loopback (a : Ipv6Addr) : bool :=
  (seg0 a =? 0) && (seg1 a =? 0) && (seg2 a =? 0) && (seg3 a =? 0) &&
  (seg4 a =? 0) && (seg5 a =? 0) && (seg6 a =? 0) && (seg7 a =? 1).
Definition v6_is_unspecified (a : Ipv6Addr) : bool :=
  (seg0 a =? 0) && (seg1 a =? 0) && (seg2 a =? 0) && (seg3 a =? 0) &&
  (seg4 a =? 0) && (seg5 a =? 0) && (seg6 a =? 0) && (seg7 a =? 0).
Definition v6_is_multicast (a : Ipv6Addr) : bool := Z.land (seg0 a) 0xff00 =? 0xff00.
Definition v6_is_unique_local (a : Ipv6Addr) : bool := Z.land (seg0 a) 0xfe00 =? 0xfc00.
Definition v6_is_unicast_link_local (a : Ipv6Addr) : bool := Z.land (seg0 a) 0xffc0 =? 0xfe80.

(** The IPv4 address in two segments. *)
Definition v4_of_segments (hi lo : Z) : Ipv4Addr :=
  v4 (Z.shiftr hi 8) (Z.land hi 0xff) (Z.shiftr lo 8) (Z.land lo 0xff).

Definition to_ipv4_mapped (a : Ipv6Addr) : option Ipv4Addr :=
  if (seg0 a =? 0) && (seg1 a =? 0) && (seg2 a =? 0) && (seg3 a =? 0) && (seg4 a =? 0) &&
     (seg5 a =? 0xffff)
  then Some (v4_of_segments (seg6 a) (seg7 a)) else None.

Definition to_ipv4 (a : Ipv6Addr) : option Ipv4Addr :=
  if (seg0 a =? 0) && (seg1 a =? 0) && (seg2 a =? 0) && (seg3 a =? 0) && (seg4 a =? 0) &&
     ((seg5 a =? 0) || (seg5 a =? 0xffff))
  then Some (v4_of_segments (seg6 a) (seg7 a)) else None.

(** ** Bogons *)

Definition ipv4_is_bogon (v : Ipv4Addr) : bool :=
  if v4_is_private v || v4_is_loopback v || v4_is_link_local v || v4_is_broadcast v ||
     v4_is_documentation v || (oct0 v =? 0)
  then true
  else if (oct0 v =? 100) && (Z.land (oct1 v) 0xc0 =? 0x40) then true
  else if (oct0 v =? 192) && (oct1 v =? 0) && (oct2 v =? 0) then true
  else if (oct0 v =? 198) && (Z.land (oct1 v) 0xfe =? 18) then true
  else if (oct0 v =? 169) && (oct1 v =? 254) then true
  else false.

Definition nat64_embedded_ipv4 (s : Ipv6Addr) : option Ipv4Addr :=
  if negb (seg0 s =? 0x0064) || negb (seg1 s =? 0xff9b) then None
  else if (seg2 s =? 0) && (seg3 s =? 0) && (seg4 s =? 0) && (seg5 s =? 0) then
    Some (v4_of_segments (seg6 s) (seg7 s))
  else if seg2 s =? 0x0001 then
    Some (v4 (Z.shiftr (seg3 s) 8) (Z.land (seg3 s) 0xff) (Z.land (seg4 s) 0xff)
             (Z.shiftr (seg5 s) 8))
  else None.

Definition ipv6_is_bogon (v : Ipv6Addr) : bool :=
  if v6_is_loopback v || v6_is_unspecified v then true
  else
    match to_ipv4_mapped v with
    | Some mapped => ipv4_is_bogon mapped
    | None =>
        match to_ipv4 v with
        | Some compat => ipv4_is_bogon compat
        | None =>
            if match nat64_embedded_ipv4 v with Some a => ipv4_is_bogon a | None => false end
            then true
            else if (seg0 v =? 0x2002) && ipv4_is_bogon (v4_of_segments (seg1 v) (seg2 v)) then true
            else if (seg0 v =? 0x2001) && (seg1 v =? 0x0db8) then true
            else if (seg0 v =? 0x2001) && (seg1 v =? 0x0000) then true
            else if (seg0 v =? 0x2001) && (Z.land (seg1 v) 0xfff0 =? 0x0020) then true
            else if (seg0 v =? 0x2001) && (seg1 v =? 0x0002) then true
            else if (seg0 v =? 0x0100) && (seg1 v =? 0) && (seg2 v =? 0) && (seg3 v =? 0) then true
            else if Z.land (seg0 v) 0xffc0 =? 0xfec0 then true
            else v6_is_loopback v || v6_is_multicast v || v6_is_unspecified v ||
                 v6_is_unique_local v || v6_is_unicast_link_local v
        end
    end.

Definition ip_addr_is_bogon (ip : IpAddr) : bool :=
  match ip with V4 v => ipv4_is_bogon v | V6 v => ipv6_is_bogon v end.

Definition verifier_blocks_ip_addr (ip : IpAddr) : bool :=
  if ip_addr_is_bogon ip then true
  else match ip with
       | V4 a => v4_is_multicast a || (240 <=? oct0 a)
       | V6 _ => false
       end.

(** ** URL screening *)

Inductive Host := HostDomain (d : str) | HostIpv4 (a : Ipv4Addr) | HostIpv6 (a : Ipv6Addr).

Record Url := { url_scheme : str; url_host : option Host }.

(** The [url] crate. *)
Class UrlParser := url_parse : str -> option Url.

(** [str::parse::<Ipv4Addr>]: four decimal octets of one to three digits,
    without leading zeros. *)
Definition parse_octet (s : str) : option Z :=
  match s with
  | [] => None
  | 48 :: _ :: _ => None
  | _ => if (length s <=? 3)%nat && forallb is_ascii_digit s then radix_acc 10 255 0 s else None
  end.

Definition parse_ipv4 (s : str) : option Ipv4Addr :=
  match split_on 46 s with
  | [a; b; c; d] =>
      match parse_octet a, parse_octet b, parse_octet c, parse_octet d with
      | Some a, Some b, Some c, Some d => Some (v4 a b c d)
      | _, _, _, _ => None
      end
  | _ => None
  end.

Definition strip_0x (s : str) : option str :=
  match strip_prefix $"0x" s with Some r => Some r | None => strip_prefix $"0X" s end.

Definition parse_ip_field (part : str) : option Z :=
  match part with
  | [] => None
  | c :: _ =>
      match strip_0x part with
      | Some hex => match hex with [] => None | _ => from_str_radix 16 u32_max hex end
      | None =>
          if (1 <? length part)%nat && (c =? 48) then from_str_radix 8 u32_max part
          else from_str_radix 10 u32_max part
      end
  end.

(** The first loop: at most three fields, each of which must parse. *)
Fixpoint parse_fields (room : nat) (parts : list str) : option (list Z) :=
  match parts with
  | [] => Some []
  | p :: rest =>
      match room with
      | O => None
      | S room' =>
          match parse_ip_field p with
          | Some v => cons v <$> parse_fields room' rest
          | None => None
          end
      end
  end.

(** The second loop: every field but the last is one byte. *)
Fixpoint pack_leading (acc : Z) (leading : list Z) : option Z :=
  match leading with
  | [] => Some acc
  | v :: rest => if 0xFF <? v then None
                 else pack_leading (Z.lor (Z.shiftl acc 8 mod 2 ^ 32) v) rest
  end.

Definition canonicalize_short_form_ipv4 (domain : str) : option Ipv4Addr :=
  match parse_fields 3 (split_on 46 domain) with
  | None => None
  | Some values =>
      let len := length values in
      if (len <? 2)%nat then None
      else
        match pack_leading 0 (take (len - 1) values) with
        | None => None
        | Some acc =>
            let remaining_bytes := 4 - (Z.of_nat len - 1) in
            let last := default 0 (last values) in
            let max_last := if 4 <=? remaining_bytes then u32_max
                            else Z.shiftl 1 (8 * remaining_bytes) - 1 in
            if max_last <? last then None
            else Some (v4_from_u32 (Z.lor (Z.shiftl acc (8 * remaining_bytes) mod 2 ^ 32) last))
        end
  end.

Definition octet_shaped (part : str) : bool :=
  forallb (fun c => is_ascii_hexdigit c || (c =? 45) || (c =? 120) || (c =? 88)) part.
Definition octal_shaped (part : str) : bool :=
  match part with
  | 48 :: _ :: _ => forallb is_ascii_digit part
  | _ => false
  end.

Definition looks_like_malformed_ip (domain : str) : bool :=
  let parts := split_on 46 domain in
  let part_count := length parts in
  let all_octet_shaped := forallb (fun p => negb (bool_decide (p = [])) && octet_shaped p) parts in
  let all_octal_shaped := forallb (fun p => negb (bool_decide (p = [])) && octal_shaped p) parts in
  if (4 <=? part_count)%nat && all_octet_shaped then true
  else if (part_count =? 4)%nat && all_octal_shaped then true
  else false.

Definition contains_dot (d : str) : bool := existsb (fun c => c =? 46) d.

Definition maybe_ip (d : str) : option Ipv4Addr :=
  if contains_dot d then
    match parse_ipv4 d with
    | Some address => Some address
    | None => canonicalize_short_form_ipv4 d
    end
  else
    match strip_0x d with
    | Some hex => v4_from_u32 <$> from_str_radix 16 u32_max hex
    | None =>
        if starts_with $"0" d && (1 <? str_len d) && forallb is_ascii_digit d
        then v4_from_u32 <$> from_str_radix 8 u32_max d
        else v4_from_u32 <$> from_str_radix 10 u32_max d
    end.

Definition local_name (d : str) : bool :=
  negb (contains_dot d) || bool_decide (d = $"localhost") || ends_with $".localhost" d ||
  ends_with $".local" d || ends_with $".internal" d || ends_with $".localdomain" d.

Definition is_private_url `{UrlParser} (url_str : str) : bool :=
  match url_parse url_str with
  | None => true
  | Some url =>
      if negb (bool_decide (url_scheme url = $"http" \/ url_scheme url = $"https")) then true
      else
        match url_host url with
        | None => true
        | Some (HostIpv4 ip) => verifier_blocks_ip_addr (V4 ip)
        | Some (HostIpv6 ip) => verifier_blocks_ip_addr (V6 ip)
        | Some (HostDomain d) =>
            if local_name d then true
            else if match maybe_ip d with Some ip => verifier_blocks_ip_addr (V4 ip) | None => false end
            then true
            else looks_like_malformed_ip d
        end
  end.

(** The two public names of the policy. *)
Definition is_private_ip_addr_fast (ip : IpAddr) : bool := verifier_blocks_ip_addr ip.
Definition is_private_ip_addr (ip : IpAddr) : bool := verifier_blocks_ip_addr ip.

(** ** Reference: a table of address blocks

    A block is a base address and a prefix length; membership compares the
    leading bits. *)

Definition octet (z : Z) : Prop := 0 <= z < 256.
Definition segment (z : Z) : Prop := 0 <= z < 65536.
Definition v4_ok (a : Ipv4Addr) : Prop :=
  octet (oct0 a) /\ octet (oct1 a) /\ octet (oct2 a) /\ octet (oct3 a).
Definition v6_ok (a : Ipv6Addr) : Prop :=
  segment (seg0 a) /\ segment (seg1 a) /\ segment (seg2 a) /\ segment (seg3 a) /\
  segment (seg4 a) /\ segment (seg5 a) /\ segment (seg6 a) /\ segment (seg7 a).
Definition ip_ok (ip : IpAddr) : Prop :=
  match ip with V4 a => v4_ok a | V6 a => v6_ok a end.

Definition v4_value (a : Ipv4Addr) : Z :=
  oct0 a * 2 ^ 24 + oct1 a * 2 ^ 16 + oct2 a * 2 ^ 8 + oct3 a.
Definition v6_value (a : Ipv6Addr) : Z :=
  seg0 a * 2 ^ 112 + seg1 a * 2 ^ 96 + seg2 a * 2 ^ 80 + seg3 a * 2 ^ 64 +
  seg4 a * 2 ^ 48 + seg5 a * 2 ^ 32 + seg6 a * 2 ^ 16 + seg7 a.

(** [in_block w base len n]: the first [len] of the [w] bits of [n] are those
    of [base]. *)
Definition in_block (w n : Z) (b : Z * Z) : bool :=
  n / 2 ^ (w - b.2) =? b.1 / 2 ^ (w - b.2).

Definition v4_base (a b c d : Z) : Z := v4_value (v4 a b c d).
Definition v6_base (a b c d e f g h : Z) : Z := v6_value (v6 a b c d e f g h).

Definition bogon_v4_blocks : list (Z * Z) :=
  [ (v4_base 0 0 0 0, 8); (v4_base 10 0 0 0, 8); (v4_base 100 64 0 0, 10);
    (v4_base 127 0 0 0, 8); (v4_base 169 254 0 0, 16); (v4_base 172 16 0 0, 12);
    (v4_base 192 0 0 0, 24); (v4_base 192 0 2 0, 24); (v4_base 192 168 0 0, 16);
    (v4_base 198 18 0 0, 15); (v4_base 198 51 100 0, 24); (v4_base 203 0 113 0, 24);
    (v4_base 255 255 255 255, 32) ].

(** What the verifier adds: multicast and class E. *)
Definition refused_v4_blocks : list (Z * Z) :=
  bogon_v4_blocks ++ [ (v4_base 224 0 0 0, 4); (v4_base 240 0 0 0, 4) ].

Definition bogon_v6_blocks : list (Z * Z) :=
  [ (v6_base 0 0 0 0 0 0 0 0, 128); (v6_base 0 0 0 0 0 0 0 1, 128);
    (v6_base 0x100 0 0 0 0 0 0 0, 64); (v6_base 0x2001 0 0 0 0 0 0 0, 32);
    (v6_base 0x2001 2 0 0 0 0 0 0, 32); (v6_base 0x2001 0x20 0 0 0 0 0 0, 28);
    (v6_base 0x2001 0xdb8 0 0 0 0 0 0, 32); (v6_base 0xfc00 0 0 0 0 0 0 0, 7);
    (v6_base 0xfe80 0 0 0 0 0 0 0, 10); (v6_base 0xfec0 0 0 0 0 0 0 0, 10);
    (v6_base 0xff00 0 0 0 0 0 0 0, 8) ].

(** The transition formats and the IPv4 address each one carries: mapped and
    compatible addresses and the NAT64 well-known prefix in the low 32 bits,
    6to4 in the bits after the prefix, the NAT64 local-use prefix around the
    reserved octet. *)
Definition low_v4 (n : Z) : Z := n mod 2 ^ 32.
Definition sixto4_v4 (n : Z) : Z := n / 2 ^ 80 mod 2 ^ 32.
Definition nat64_local_v4 (n : Z) : Z :=
  n / 2 ^ 64 mod 2 ^ 16 * 2 ^ 16 + n / 2 ^ 40 mod 2 ^ 16.

Definition embeddings : list ((Z * Z) * (Z -> Z)) :=
  [ ((v6_base 0 0 0 0 0 0xffff 0 0, 96), low_v4);
    ((v6_base 0 0 0 0 0 0 0 0, 96), low_v4);
    ((v6_base 0x64 0xff9b 0 0 0 0 0 0, 96), low_v4);
    ((v6_base 0x64 0xff9b 1 0 0 0 0 0, 48), nat64_local_v4);
    ((v6_base 0x2002 0 0 0 0 0 0 0, 16), sixto4_v4) ].

Definition bogon_v4_value (n : Z) : bool := existsb (in_block 32 n) bogon_v4_blocks.

Definition refused_by_table (ip : IpAddr) : bool :=
  match ip with
  | V4 a => existsb (in_block 32 (v4_value a)) refused_v4_blocks
  | V6 a =>
      existsb (in_block 128 (v6_value a)) bogon_v6_blocks ||
      existsb (fun e => in_block 128 (v6_value a) e.1 && bogon_v4_value (e.2 (v6_value a))) embeddings
  end.

(** ** Masks and prefixes *)

Lemma land_high_mask w k s :
  0 <= k <= w -> 0 <= s < 2 ^ w -> Z.land s (Z.shiftl (Z.ones (w - k)) k) = 2 ^ k * (s / 2 ^ k).
Proof.
  intros Hk Hs.
  assert (0 <= s / 2 ^ k < 2 ^ (w - k)).
  { split; [apply Z.div_pos; lia|]. apply Z.div_lt_upper_bound; [lia|].
    rewrite <- Z.pow_add_r by lia. replace (k + (w - k)) with w by lia; lia. }
  rewrite <- (Z.mod_small (s / 2 ^ k) (2 ^ (w - k))) by lia.
  rewrite <- Z.land_ones, <- Z.shiftr_div_pow2, Z.mul_comm, <- Z.shiftl_mul_pow2 by lia.
  apply Z.bits_inj'; intros n Hn.
  rewrite Z.land_spec, !Z.shiftl_spec, Z.land_spec by lia.
  destruct (Z.ltb_spec n k).
  - rewrite !(Z.testbit_neg_r _ (n - k)) by lia. by rewrite !andb_false_r.
  - rewrite Z.shiftr_spec by lia. by replace (n - k + k) with n by lia.
Qed.

Lemma mask_test k c s :
  0 <= k <= 16 -> segment s ->
  (Z.land s (Z.shiftl (Z.ones (16 - k)) k) =? 2 ^ k * c) = (s / 2 ^ k =? c).
Proof.
  intros Hk Hs. rewrite (land_high_mask 16) by (unfold segment in Hs; lia).
  apply Bool.eq_iff_eq_true; rewrite !Z.eqb_eq. assert (0 < 2 ^ k) by lia.
  split; [apply Z.mul_reg_l; lia | by intros ->].
Qed.

Lemma octet_mask_test k c s :
  0 <= k <= 8 -> octet s ->
  (Z.land s (Z.shiftl (Z.ones (8 - k)) k) =? 2 ^ k * c) = (s / 2 ^ k =? c).
Proof.
  intros Hk Hs. rewrite (land_high_mask 8) by (unfold octet in Hs; lia).
  apply Bool.eq_iff_eq_true; rewrite !Z.eqb_eq. assert (0 < 2 ^ k) by lia.
  split; [apply Z.mul_reg_l; lia | by intros ->].
Qed.

(** The leading [k] bits of an IPv4 address by octets. *)
Lemma v4_prefix a b c d :
  octet b -> octet c -> octet d ->
  let n := v4_value (v4 a b c d) in
  n / 2 ^ (32 - 4) = a / 16 /\ n / 2 ^ (32 - 8) = a /\
  n / 2 ^ (32 - 10) = a * 4 + b / 64 /\ n / 2 ^ (32 - 12) = a * 16 + b / 16 /\
  n / 2 ^ (32 - 15) = a * 128 + b / 2 /\ n / 2 ^ (32 - 16) = a * 256 + b /\
  n / 2 ^ (32 - 24) = (a * 256 + b) * 256 + c /\ n / 2 ^ (32 - 32) = ((a * 256 + b) * 256 + c) * 256 + d.
Proof.
  unfold v4_value, octet; cbn -[Z.div Z.pow]; intros.
  repeat split; rewrite ?Z.div_1_r; Z.div_mod_to_equations; lia.
Qed.

Lemma if_true_orb (b c : bool) : (if b then true else c) = b || c.
Proof. by destruct b. Qed.

(** Each block of the table as a test of its leading octets or segments: [P]
    rewrites the leading bits of the address, the base is a constant. *)
Ltac block_test P :=
  unfold in_block; cbn [fst snd]; rewrite P;
  match goal with |- (_ =? ?b) = _ => let k := eval vm_compute in b in change b with k end;
  repeat match goal with H : _ / _ = _ |- _ => clear H end; unfold in_range;
  apply Bool.eq_iff_eq_true; Z.div_mod_to_equations; lia.

Lemma v4_blocks a b c d :
  octet a -> octet b -> octet c -> octet d ->
  let n := v4_value (v4 a b c d) in
  bogon_v4_value n =
    ((a =? 0) || ((a =? 10) || ((a =? 100) && (b / 2 ^ 6 =? 1) || ((a =? 127) ||
     ((a =? 169) && (b =? 254) || ((a =? 172) && in_range 16 31 b ||
     ((a =? 192) && (b =? 0) && (c =? 0) || ((a =? 192) && (b =? 0) && (c =? 2) ||
     ((a =? 192) && (b =? 168) || ((a =? 198) && (b / 2 ^ 1 =? 9) ||
     ((a =? 198) && (b =? 51) && (c =? 100) || ((a =? 203) && (b =? 0) && (c =? 113) ||
     ((a =? 255) && (b =? 255) && (c =? 255) && (d =? 255) || false))))))))))))).
Proof.
  intros Ha Hb Hc Hd n.
  destruct (v4_prefix a b c d Hb Hc Hd) as (_ & P8 & P10 & P12 & P15 & P16 & P24 & P32).
  fold n in P8, P10, P12, P15, P16, P24, P32. clearbody n. unfold octet in *.
  unfold bogon_v4_value, bogon_v4_blocks; cbn [existsb].
  repeat (apply f_equal2; [first [block_test P8 | block_test P10 | block_test P12 | block_test P15
    | block_test P16 | block_test P24 | block_test P32]|]); done.
Qed.

Lemma v4_table a : v4_ok a -> ipv4_is_bogon a = bogon_v4_value (v4_value a).
Proof.
  destruct a as [a b c d]. intros (Ha & Hb & Hc & Hd); cbn in Ha, Hb, Hc, Hd.
  rewrite v4_blocks by done. unfold ipv4_is_bogon; cbn [oct0 oct1 oct2 oct3].
  replace (Z.land b 0xc0 =? 0x40) with (b / 2 ^ 6 =? 1) by (symmetry; by apply (octet_mask_test 6 1)).
  replace (Z.land b 0xfe =? 18) with (b / 2 ^ 1 =? 9) by (symmetry; by apply (octet_mask_test 1 9)).
  unfold v4_is_private, v4_is_loopback, v4_is_link_local, v4_is_broadcast, v4_is_documentation;
    cbn [oct0 oct1 oct2 oct3].
  rewrite !if_true_orb. btauto.
Qed.

Section V6Table.
Context (a b c d e f g h : Z).
Context (Ha : segment a) (Hb : segment b) (Hc : segment c) (Hd : segment d)
  (He : segment e) (Hf : segment f) (Hg : segment g) (Hh : segment h).

Let n : Z := v6_value (v6 a b c d e f g h).

Lemma v6_prefix :
  n / 2 ^ (128 - 7) = a / 512 /\ n / 2 ^ (128 - 8) = a / 256 /\
  n / 2 ^ (128 - 10) = a / 64 /\ n / 2 ^ (128 - 16) = a /\
  n / 2 ^ (128 - 28) = a * 4096 + b / 16 /\ n / 2 ^ (128 - 32) = a * 65536 + b /\
  n / 2 ^ (128 - 48) = (a * 65536 + b) * 65536 + c /\
  n / 2 ^ (128 - 64) = ((a * 65536 + b) * 65536 + c) * 65536 + d /\
  n / 2 ^ (128 - 96) = ((((a * 65536 + b) * 65536 + c) * 65536 + d) * 65536 + e) * 65536 + f /\
  n / 2 ^ (128 - 128) =
    ((((((a * 65536 + b) * 65536 + c) * 65536 + d) * 65536 + e) * 65536 + f) * 65536 + g) * 65536 + h.
Proof using Ha Hb Hc Hd He Hf Hg Hh.
  subst n. unfold v6_value, segment in *; cbn [seg0 seg1 seg2 seg3 seg4 seg5 seg6 seg7].
  repeat split; Z.div_mod_to_equations; lia.
Qed.

Lemma v6_blocks :
  existsb (in_block 128 n) bogon_v6_blocks =
    (((a =? 0) && (b =? 0) && (c =? 0) && (d =? 0) && (e =? 0) && (f =? 0) && (g =? 0) && (h =? 0)) ||
     (((a =? 0) && (b =? 0) && (c =? 0) && (d =? 0) && (e =? 0) && (f =? 0) && (g =? 0) && (h =? 1)) ||
     (((a =? 0x100) && (b =? 0) && (c =? 0) && (d =? 0)) ||
     (((a =? 0x2001) && (b =? 0)) || (((a =? 0x2001) && (b =? 2)) ||
     (((a =? 0x2001) && (b / 16 =? 2)) || (((a =? 0x2001) && (b =? 0xdb8)) ||
     ((a / 512 =? 126) || ((a / 64 =? 1018) || ((a / 64 =? 1019) || ((a / 256 =? 255) || false))))))))))).
Proof using Ha Hb Hc Hd He Hf Hg Hh.
  destruct v6_prefix as (P7 & P8 & P10 & P16 & P28 & P32 & P48 & P64 & P96 & P128).
  clearbody n. unfold segment in *. unfold bogon_v6_blocks; cbn [existsb].
  repeat (apply f_equal2; [first [block_test P7 | block_test P8 | block_test P10 | block_test P28
    | block_test P32 | block_test P64 | block_test P128]|]); done.
Qed.

Lemma v6_embedding_blocks :
  in_block 128 n (v6_base 0 0 0 0 0 0xffff 0 0, 96) =
    ((a =? 0) && (b =? 0) && (c =? 0) && (d =? 0) && (e =? 0) && (f =? 0xffff)) /\
  in_block 128 n (v6_base 0 0 0 0 0 0 0 0, 96) =
    ((a =? 0) && (b =? 0) && (c =? 0) && (d =? 0) && (e =? 0) && (f =? 0)) /\
  in_block 128 n (v6_base 0x64 0xff9b 0 0 0 0 0 0, 96) =
    ((a =? 0x64) && (b =? 0xff9b) && (c =? 0) && (d =? 0) && (e =? 0) && (f =? 0)) /\
  in_block 128 n (v6_base 0x64 0xff9b 1 0 0 0 0 0, 48) =
    ((a =? 0x64) && (b =? 0xff9b) && (c =? 1)) /\
  in_block 128 n (v6_base 0x2002 0 0 0 0 0 0 0, 16) = (a =? 0x2002).
Proof using Ha Hb Hc Hd He Hf Hg Hh.
  destruct v6_prefix as (P7 & P8 & P10 & P16 & P28 & P32 & P48 & P64 & P96 & P128).
  clearbody n. unfold segment in *.
  repeat apply conj; first [block_test P96 | block_test P48 | block_test P16].
Qed.

Lemma v6_embedded_values :
  low_v4 n = g * 2 ^ 16 + h /\ sixto4_v4 n = b * 2 ^ 16 + c /\
  nat64_local_v4 n = d * 2 ^ 16 + (e mod 256) * 2 ^ 8 + f / 256.
Proof using Ha Hb Hc Hd He Hf Hg Hh.
  destruct v6_prefix as (_ & _ & _ & _ & _ & _ & P48 & P64 & P96 & _).
  assert (P88 : n / 2 ^ 40 =
    ((((a * 65536 + b) * 65536 + c) * 65536 + d) * 65536 + e) * 256 + f / 256).
  { change (2 ^ 40) with (2 ^ (128 - 96) * 256). rewrite <- Z.div_div, P96 by lia.
    clear P48 P64 P96. unfold segment in *. Z.div_mod_to_equations; lia. }
  unfold low_v4, sixto4_v4, nat64_local_v4.
  change (2 ^ 80) with (2 ^ (128 - 48)). change (2 ^ 64) with (2 ^ (128 - 64)).
  rewrite P48, P64, P88. clear P48 P64 P96 P88. unfold segment in *. repeat split.
  - symmetry. subst n. eapply Z.mod_unique_pos; [lia|].
    instantiate (1 := ((((a * 65536 + b) * 65536 + c) * 65536 + d) * 65536 + e) * 65536 + f).
    unfold v6_value; cbn [seg0 seg1 seg2 seg3 seg4 seg5 seg6 seg7]. lia.
  - symmetry. apply (Z.mod_unique_pos _ _ a); lia.
  - replace ((((a * 65536 + b) * 65536 + c) * 65536 + d) mod 2 ^ 16) with d
      by (apply (Z.mod_unique_pos _ _ ((a * 65536 + b) * 65536 + c)); lia).
    replace ((((((a * 65536 + b) * 65536 + c) * 65536 + d) * 65536 + e) * 256 + f / 256) mod 2 ^ 16)
      with (e mod 256 * 256 + f / 256); [lia|].
    apply (Z.mod_unique_pos _ _ ((((a * 65536 + b) * 65536 + c) * 65536 + d) * 256 + e / 256));
      Z.div_mod_to_equations; lia.
Qed.

End V6Table.

Lemma hi_octet s : Z.shiftr s 8 = s / 256.
Proof. by rewrite Z.shiftr_div_pow2. Qed.

Lemma lo_octet s : Z.land s 0xff = s mod 256.
Proof. change 0xff with (Z.ones 8). by rewrite Z.land_ones. Qed.

Lemma octets_ok a b c d : octet a -> octet b -> octet c -> octet d -> v4_ok (v4 a b c d).
Proof. done. Qed.

(** The classification of an IPv4 address carried in two segments. *)
Lemma bogon_of_segments hi lo :
  segment hi -> segment lo ->
  ipv4_is_bogon (v4_of_segments hi lo) = bogon_v4_value (hi * 2 ^ 16 + lo).
Proof.
  unfold v4_of_segments, segment; rewrite !hi_octet, !lo_octet; intros.
  rewrite v4_table.
  - f_equal. unfold v4_value; cbn [oct0 oct1 oct2 oct3]. Z.div_mod_to_equations; lia.
  - apply octets_ok; unfold octet; Z.div_mod_to_equations; lia.
Qed.

Lemma bogon_of_nat64_local d e f :
  segment d -> segment e -> segment f ->
  ipv4_is_bogon (v4 (Z.shiftr d 8) (Z.land d 0xff) (Z.land e 0xff) (Z.shiftr f 8)) =
  bogon_v4_value (d * 2 ^ 16 + (e mod 256) * 2 ^ 8 + f / 256).
Proof.
  unfold segment; rewrite !hi_octet, !lo_octet; intros.
  rewrite v4_table.
  - f_equal. unfold v4_value; cbn [oct0 oct1 oct2 oct3]. Z.div_mod_to_equations; lia.
  - apply octets_ok; unfold octet; Z.div_mod_to_equations; lia.
Qed.

Section V6Classify.
Context (a b c d e f g h : Z).
Context (Ha : segment a) (Hb : segment b) (Hc : segment c) (Hd : segment d)
  (He : segment e) (Hf : segment f) (Hg : segment g) (Hh : segment h).

Let v : Ipv6Addr := v6 a b c d e f g h.
Let low : bool := bogon_v4_value (g * 2 ^ 16 + h).
Let zeros5 : bool := (a =? 0) && (b =? 0) && (c =? 0) && (d =? 0) && (e =? 0).
Let nat64 : bool := (a =? 0x64) && (b =? 0xff9b).

(** The table on the segments of an address. *)
Lemma table_on_segments :
  refused_by_table (V6 v) =
    existsb (in_block 128 (v6_value v)) bogon_v6_blocks ||
    (zeros5 && ((f =? 0xffff) || (f =? 0)) && low ||
     nat64 && ((c =? 0) && (d =? 0) && (e =? 0) && (f =? 0) && low ||
               (c =? 1) && bogon_v4_value (d * 2 ^ 16 + (e mod 256) * 2 ^ 8 + f / 256)) ||
     (a =? 0x2002) && bogon_v4_value (b * 2 ^ 16 + c)).
Proof using Ha Hb Hc Hd He Hf Hg Hh.
  unfold refused_by_table, embeddings, v; cbn [existsb fst snd].
  destruct (v6_embedding_blocks a b c d e f g h Ha Hb Hc Hd He Hf Hg Hh) as (-> & -> & -> & -> & ->).
  destruct (v6_embedded_values a b c d e f g h Ha Hb Hc Hd He Hf Hg Hh) as (-> & -> & ->).
  unfold zeros5, nat64, low. btauto.
Qed.

Lemma nat64_on_segments :
  match nat64_embedded_ipv4 v with Some x => ipv4_is_bogon x | None => false end =
  nat64 && ((c =? 0) && (d =? 0) && (e =? 0) && (f =? 0) && low ||
            (c =? 1) && bogon_v4_value (d * 2 ^ 16 + (e mod 256) * 2 ^ 8 + f / 256)).
Proof using Ha Hb Hc Hd He Hf Hg Hh.
  unfold v, nat64_embedded_ipv4, nat64, low; cbn [seg0 seg1 seg2 seg3 seg4 seg5 seg6 seg7].
  destruct (a =? 100), (b =? 65435); cbn [negb orb andb]; try done.
  destruct (Z.eqb_spec c 0) as [->|]; cbn [andb].
  - destruct ((d =? 0) && (e =? 0) && (f =? 0)); cbn [andb orb]; [|done].
    by rewrite bogon_of_segments, orb_false_r by done.
  - destruct (c =? 1); cbn [andb orb]; [|done]. by rewrite bogon_of_nat64_local by done.
Qed.

(** The masks of the IPv6 tests. *)
Lemma v6_masks :
  v6_is_multicast v = (a / 256 =? 255) /\ v6_is_unique_local v = (a / 512 =? 126) /\
  v6_is_unicast_link_local v = (a / 64 =? 1018) /\
  (Z.land a 0xffc0 =? 0xfec0) = (a / 64 =? 1019) /\ (Z.land b 0xfff0 =? 0x0020) = (b / 16 =? 2).
Proof using Ha Hb.
  repeat split; [apply (mask_test 8 255) | apply (mask_test 9 126) | apply (mask_test 6 1018)
    | apply (mask_test 6 1019) | apply (mask_test 4 2)]; (done || lia).
Qed.

Lemma wrapped_on_segments :
  zeros5 = true -> f = 0xffff \/ f = 0 -> ipv6_is_bogon v = refused_by_table (V6 v).
Proof using Ha Hb Hc Hd He Hf Hg Hh.
  intros Hz Hff. rewrite table_on_segments. unfold v; rewrite v6_blocks by done. unfold zeros5, nat64, low in *.
  assert (a = 0 /\ b = 0 /\ c = 0 /\ d = 0 /\ e = 0) as (-> & -> & -> & -> & ->) by lia.
  unfold ipv6_is_bogon, to_ipv4_mapped, to_ipv4, v6_is_loopback, v6_is_unspecified;
    cbn [seg0 seg1 seg2 seg3 seg4 seg5 seg6 seg7].
  rewrite !Zdiv_0_l. destruct Hff as [-> | ->]; cbn -[v4_of_segments Z.add Z.mul Z.pow bogon_v4_value];
    rewrite bogon_of_segments by done; rewrite ?if_true_orb; btauto.
Qed.

Lemma plain_on_segments :
  zeros5 && ((f =? 0xffff) || (f =? 0)) = false -> ipv6_is_bogon v = refused_by_table (V6 v).
Proof using Ha Hb Hc Hd He Hf Hg Hh.
  intros Hz. rewrite table_on_segments. unfold v at 2; rewrite v6_blocks by done.
  pose proof nat64_on_segments as Hn. destruct v6_masks as (Hm & Hu & Hl & Hs & Ho).
  unfold ipv6_is_bogon. rewrite Hn, Hm, Hu, Hl.
  assert (to_ipv4_mapped v = None /\ to_ipv4 v = None) as [-> ->].
  { unfold to_ipv4_mapped, to_ipv4, v; cbn [seg0 seg1 seg2 seg3 seg4 seg5 seg6 seg7].
    fold zeros5. clearbody zeros5. by destruct zeros5, (f =? 65535), (f =? 0). }
  unfold v, v6_is_loopback, v6_is_unspecified; cbn [seg0 seg1 seg2 seg3 seg4 seg5 seg6 seg7].
  rewrite Hs, Ho, bogon_of_segments by done. rewrite !if_true_orb, Hz. fold zeros5. btauto.
Qed.

Lemma v6_table : ipv6_is_bogon v = refused_by_table (V6 v).
Proof using Ha Hb Hc Hd He Hf Hg Hh.
  destruct (zeros5 && ((f =? 0xffff) || (f =? 0))) eqn:E; [|by apply plain_on_segments].
  apply andb_true_iff in E as [Hz Hff]. apply wrapped_on_segments; [done | lia].
Qed.

End V6Classify.

(** The addresses the verifier refuses to contact are exactly those of the
    special-purpose address table: thirteen IPv4 blocks plus multicast and
    class E; eleven IPv6 blocks, and every mapped, compatible, 6to4 or NAT64
    address that carries an IPv4 address of the thirteen. *)
Theorem refused_addresses_table (ip : IpAddr) :
  ip_ok ip -> verifier_blocks_ip_addr ip = refused_by_table ip.
Proof.
  intros Hok. unfold verifier_blocks_ip_addr, ip_addr_is_bogon. rewrite if_true_orb.
  destruct ip as [a|[a b c d e f g h]].
  - unfold refused_by_table, refused_v4_blocks. rewrite existsb_app, v4_table by done. f_equal.
    destruct a as [a b c d], Hok as (Ha & Hb & Hc & Hd); cbn in Ha, Hb, Hc, Hd.
    destruct (v4_prefix a b c d Hb Hc Hd) as (P4 & _).
    unfold v4_is_multicast, octet in *; cbn [existsb oct0]. rewrite orb_false_r.
    unfold in_block; cbn [fst snd]. rewrite P4; clear P4.
    change (v4_base 224 0 0 0 / 2 ^ (32 - 4)) with 14. change (v4_base 240 0 0 0 / 2 ^ (32 - 4)) with 15.
    unfold in_range. apply Bool.eq_iff_eq_true. Z.div_mod_to_equations; lia.
  - destruct Hok as (Ha & Hb & Hc & Hd & He & Hf & Hg & Hh). rewrite orb_false_r. by apply v6_table.
Qed.


(** The IPv4 ranges the verifier adds are not looked up through the IPv6
    transition formats. *)
Example wrapped_multicast_not_refused :
  verifier_blocks_ip_addr (V4 (v4 224 0 0 1)) = true /\
  verifier_blocks_ip_addr (V6 (v6 0 0 0 0 0 0xffff 0xe000 1)) = false.
Proof. by split. Qed.

(** ** Reference: [inet_aton]

    One to four dot-separated numbers, each decimal, octal with a leading [0]
    or hexadecimal with a leading [0x]; all but the last are one byte, the last
    one fills the remaining bytes. *)

Fixpoint digits_value (radix acc : Z) (s : str) : option Z :=
  match s with
  | [] => Some acc
  | c :: s' => match to_digit radix c with
               | Some d => digits_value radix (acc * radix + d) s'
               | None => None
               end
  end.

Definition c_number (s : str) : option Z :=
  if bool_decide (s = []) then None
  else match strip_0x s with
       | Some hex => if bool_decide (hex = []) then None else digits_value 16 0 hex
       | None => digits_value (if starts_with $"0" s then 8 else 10) 0 s
       end.

Definition inet_aton (s : str) : option Z :=
  match mapM c_number (split_on 46 s) with
  | Some [a] => if a <? 2 ^ 32 then Some a else None
  | Some [a; b] => if (a <? 2 ^ 8) && (b <? 2 ^ 24) then Some (a * 2 ^ 24 + b) else None
  | Some [a; b; c] =>
      if (a <? 2 ^ 8) && (b <? 2 ^ 8) && (c <? 2 ^ 16)
      then Some (a * 2 ^ 24 + b * 2 ^ 16 + c) else None
  | Some [a; b; c; d] =>
      if (a <? 2 ^ 8) && (b <? 2 ^ 8) && (c <? 2 ^ 8) && (d <? 2 ^ 8)
      then Some (a * 2 ^ 24 + b * 2 ^ 16 + c * 2 ^ 8 + d) else None
  | _ => None
  end.

(** *** Fields *)

Lemma to_digit_bound radix c d : to_digit radix c = Some d -> 0 <= d < radix.
Proof.
  unfold to_digit, is_ascii_digit, is_ascii_lowercase, is_ascii_uppercase, in_range.
  intros H. repeat case_match; simplify_eq; lia.
Qed.

Lemma digits_value_mono radix acc s v :
  1 <= radix -> 0 <= acc -> digits_value radix acc s = Some v -> acc <= v.
Proof.
  intros Hr. revert acc; induction s as [|c s IH]; intros acc Ha H; cbn in H; [by simplify_eq|].
  destruct (to_digit radix c) as [d|] eqn:Hd; [|done].
  apply to_digit_bound in Hd. apply IH in H; nia.
Qed.

Lemma radix_acc_digits radix mx acc s v :
  1 <= radix -> 0 <= acc -> v <= mx -> digits_value radix acc s = Some v ->
  radix_acc radix mx acc s = Some v.
Proof.
  intros Hr. revert acc; induction s as [|c s IH]; intros acc Ha Hm H; cbn in *; [done|].
  destruct (to_digit radix c) as [d|] eqn:Hd; [|done].
  pose proof (to_digit_bound _ _ _ Hd). assert (0 <= acc * radix + d) by nia.
  pose proof (digits_value_mono _ _ _ _ Hr ltac:(eassumption) H).
  rewrite (proj2 (Z.leb_le _ _)) by lia. by apply IH.
Qed.

(** A digit string carries no sign, so [from_str_radix] reads it alike. *)
Lemma from_str_radix_digits radix s v :
  1 <= radix -> v <= u32_max -> s <> [] -> digits_value radix 0 s = Some v ->
  from_str_radix radix u32_max s = Some v.
Proof.
  intros Hr Hv Hs H. destruct s as [|c s]; [done|].
  assert (c <> 43). { intros ->. by cbn in H. }
  apply (radix_acc_digits radix u32_max) in H; [|lia..].
  unfold from_str_radix. repeat case_match; simplify_eq; done.
Qed.

Lemma starts_with_zero c s : starts_with $"0" (c :: s) = (c =? 48).
Proof.
  change $"0" with [48]. cbn. rewrite andb_true_r.
  case_bool_decide; [subst; done | symmetry; by apply Z.eqb_neq; congruence].
Qed.

Lemma parse_ip_field_c_number s v :
  v <= u32_max -> c_number s = Some v -> parse_ip_field s = Some v.
Proof.
  unfold c_number, parse_ip_field. intros Hv H. destruct s as [|c s]; [done|].
  rewrite bool_decide_false in H by done. destruct (strip_0x (c :: s)) as [hex|].
  - destruct hex; [done|]. by apply from_str_radix_digits.
  - rewrite starts_with_zero in H. destruct (Z.eqb_spec c 48) as [->|Hc].
    + rewrite andb_true_r. destruct s; [|by apply from_str_radix_digits].
      by vm_compute in H; simplify_eq; vm_compute.
    + rewrite andb_false_r. by apply from_str_radix_digits.
Qed.

(** *** Forms *)

(** A numeric field consists of characters [looks_like_malformed_ip] counts as
    octet-shaped. *)
Lemma digits_octet_shaped radix acc s v :
  radix <= 16 -> digits_value radix acc s = Some v -> octet_shaped s = true.
Proof.
  intros Hr. revert acc; induction s as [|c s IH]; intros acc H; [done|]. cbn in H.
  destruct (to_digit radix c) as [d|] eqn:Hd; [|done].
  change (octet_shaped (c :: s)) with
    ((is_ascii_hexdigit c || (c =? 45) || (c =? 120) || (c =? 88)) && octet_shaped s).
  rewrite (IH _ H), andb_true_r. clear IH H.
  unfold to_digit, is_ascii_hexdigit, is_ascii_digit, is_ascii_lowercase, is_ascii_uppercase, in_range in *.
  repeat case_match; simplify_eq; lia.
Qed.

Lemma strip_prefix_Some (p s t : str) : strip_prefix p s = Some t -> s = p ++ t.
Proof.
  unfold strip_prefix. intros H. case_match eqn:E; [|done]. simplify_eq.
  apply starts_with_spec in E as [t' ->]. by rewrite drop_app_length.
Qed.

Lemma c_number_octet_shaped s v :
  c_number s = Some v -> negb (bool_decide (s = [])) && octet_shaped s = true.
Proof.
  unfold c_number. case_bool_decide as Hs; [done|]. cbn [negb andb].
  destruct (strip_0x s) as [hex|] eqn:Hx.
  - case_bool_decide; [done|]. intros Hd%digits_octet_shaped; [|lia].
    unfold strip_0x in Hx. destruct (strip_prefix $"0x" s) eqn:E; simplify_eq;
      [apply strip_prefix_Some in E | apply strip_prefix_Some in Hx]; subst s;
      unfold octet_shaped in *; by rewrite forallb_app, Hd.
  - intros Hd. eapply digits_octet_shaped; [|done]. case_match; lia.
Qed.

Lemma c_number_nonneg s v : c_number s = Some v -> 0 <= v.
Proof.
  unfold c_number. intros H. repeat case_match; try done;
    (eapply digits_value_mono in H; lia).
Qed.

Lemma c_numbers_shaped ps vs :
  Forall2 (fun p v => c_number p = Some v) ps vs ->
  forallb (fun p => negb (bool_decide (p = [])) && octet_shaped p) ps = true.
Proof.
  induction 1 as [|p v ps vs Hp _ IH]; [done|]. cbn -[octet_shaped].
  by rewrite (c_number_octet_shaped _ _ Hp).
Qed.

Lemma parse_fields_c_numbers ps vs room :
  (length ps <= room)%nat -> Forall2 (fun p v => c_number p = Some v) ps vs ->
  Forall (fun v => v <= u32_max) vs -> parse_fields room ps = Some vs.
Proof.
  intros Hl H. revert room Hl; induction H as [|p v ps vs Hp _ IH]; intros room Hl Hv; [by destruct room|].
  inversion_clear Hv. destruct room as [|room]; cbn in Hl; [lia|]. cbn.
  by rewrite (parse_ip_field_c_number _ v), IH by (done || lia).
Qed.

(** Packing one more field below the others. *)
Lemma pack_field acc n v :
  0 <= n -> 0 <= acc -> 0 <= v < 2 ^ n -> acc * 2 ^ n < 2 ^ 32 ->
  Z.lor (Z.shiftl acc n mod 2 ^ 32) v = acc * 2 ^ n + v.
Proof.
  intros Hn Ha Hv Hb. rewrite Z.mod_small by (rewrite Z.shiftl_mul_pow2 by lia; nia).
  by apply lor_shiftl_add.
Qed.

(** The abbreviated forms are read as [inet_aton] reads them. *)
Lemma canonicalize_inet_aton s n :
  (1 < length (split_on 46%Z s) <= 3)%nat -> inet_aton s = Some n ->
  canonicalize_short_form_ipv4 s = Some (v4_from_u32 n).
Proof.
  unfold inet_aton, canonicalize_short_form_ipv4. intros Hl H.
  destruct (mapM c_number (split_on 46 s)) as [vs|] eqn:Hm; [|done].
  apply mapM_Some in Hm. pose proof (Forall2_length _ _ _ Hm) as Hlen.
  assert (Hpos : Forall (fun v => 0 <= v) vs).
  { clear -Hm. induction Hm; constructor; [by eapply c_number_nonneg | done]. }
  rewrite (parse_fields_c_numbers _ vs); [|lia|done|].
  2: { clear -H Hl Hlen. rewrite Hlen in Hl. unfold u32_max.
       destruct vs as [|a [|b [|c [|d vs]]]]; cbn in Hl; try lia; case_match; try done; repeat constructor; lia. }
  rewrite Hlen in Hl.
  destruct vs as [|a [|b [|c [|d vs]]]]; cbn in Hl; try lia; case_match; simplify_eq;
    repeat match goal with Hp : Forall _ (_ :: _) |- _ => inversion_clear Hp end;
    cbn -[Z.lor Z.shiftl Z.mul Z.add Z.pow v4_from_u32 Z.modulo].
  - change (8 * (4 - (Z.of_nat 2 - 1))) with 24.
    change (if 4 <=? 4 - (Z.of_nat 2 - 1) then u32_max else _) with (2 ^ 24 - 1).
    rewrite (pack_field 0 8 a), !(proj2 (Z.ltb_ge _ _)) by (cbn; lia).
    by rewrite pack_field by lia.
  - change (8 * (4 - (Z.of_nat 3 - 1))) with 16.
    change (if 4 <=? 4 - (Z.of_nat 3 - 1) then u32_max else _) with (2 ^ 16 - 1).
    rewrite (pack_field 0 8 a), !(proj2 (Z.ltb_ge _ _)) by (cbn; lia).
    rewrite (pack_field (0 * 2 ^ 8 + a) 8 b), pack_field by lia. do 2 f_equal. lia.
Qed.

Lemma split_on_dot_length d : contains_dot d = true -> (1 < length (split_on 46%Z d))%nat.
Proof.
  induction d as [|c d IH]; [done|]. intros H. cbn -[Z.eqb].
  pose proof (split_on_nonempty 46 d). destruct (split_on 46 d) as [|w ws] eqn:E; [done|].
  case_bool_decide as Hc; cbn; [lia|].
  unfold contains_dot in H; cbn in H. apply orb_true_iff in H as [Hd%Z.eqb_eq | Hd]; [done|].
  by apply IH in Hd.
Qed.

(** A four-part numeric host is refused whatever it denotes. *)
Lemma inet_aton_quad_malformed d n :
  (3 < length (split_on 46%Z d))%nat -> inet_aton d = Some n -> looks_like_malformed_ip d = true.
Proof.
  unfold inet_aton, looks_like_malformed_ip. intros Hl H.
  destruct (mapM c_number (split_on 46 d)) as [vs|] eqn:Hm; [|done].
  apply mapM_Some, c_numbers_shaped in Hm. rewrite Hm, andb_true_r.
  by rewrite (proj2 (Nat.leb_le 4 _)) by lia.
Qed.

(** The IPv4 parser accepts four fields only. *)
Lemma parse_ipv4_parts d a : parse_ipv4 d = Some a -> length (split_on 46%Z d) = 4%nat.
Proof. unfold parse_ipv4. intros H. by repeat case_match. Qed.

(** The octets and segments of a parsed host are of their types' widths. *)
Definition host_ok (h : option Host) : Prop :=
  match h with Some (HostIpv4 a) => v4_ok a | Some (HostIpv6 a) => v6_ok a | _ => True end.

Definition http_scheme (url : Url) : Prop := url_scheme url = $"http" \/ url_scheme url = $"https".

(** What a host let through is, by the table of address blocks. *)
Definition host_allowed (h : option Host) : Prop :=
  match h with
  | None => False
  | Some (HostIpv4 a) => refused_by_table (V4 a) = false
  | Some (HostIpv6 a) => refused_by_table (V6 a) = false
  | Some (HostDomain d) =>
      local_name d = false /\ looks_like_malformed_ip d = false /\
      forall n, inet_aton d = Some n -> refused_by_table (V4 (v4_from_u32 n)) = false
  end.

Lemma v4_from_u32_ok n : v4_ok (v4_from_u32 n).
Proof. unfold v4_ok, octet, v4_from_u32. cbn. repeat split; Z.div_mod_to_equations; lia. Qed.

Lemma inet_aton_screened d n : local_name d = false -> looks_like_malformed_ip d = false ->
  inet_aton d = Some n -> maybe_ip d = Some (v4_from_u32 n).
Proof.
  intros Hd Hm Hn. assert (Hdot : contains_dot d = true) by (unfold local_name in Hd; by destruct (contains_dot d)).
  pose proof (split_on_dot_length d Hdot). assert (length (split_on 46%Z d) <= 3)%nat.
  { apply Nat.le_ngt. intros Hq. by rewrite (inet_aton_quad_malformed d n) in Hm. }
  unfold maybe_ip. rewrite Hdot. destruct (parse_ipv4 d) eqn:Hp; [apply parse_ipv4_parts in Hp; lia|]. by apply canonicalize_inet_aton.
Qed.


(** A parser that knows two URLs. *)
#[local] Instance two_urls : UrlParser := fun s =>
  if bool_decide (s = $"https://api.example.com/v1")
  then Some {| url_scheme := $"https"; url_host := Some (HostDomain $"api.example.com") |}
  else if bool_decide (s = $"http://0x7f.1/")
  then Some {| url_scheme := $"http"; url_host := Some (HostDomain $"0x7f.1") |}
  else None.

