(* ===== verification/VerifierCache.v ===== *)
(** * Verification cache and bounded age-stamped maps
    ([crates/verifier/src/cache.rs], [resolve_dns_cached] of
    [crates/verifier/src/ssrf.rs])

    The cache of verification outcomes: entries with an expiry and a write
    generation, and a recency queue whose markers may be stale.  Strings are
    their UTF-8 bytes.  Operations are atomic steps; the time each one reads
    from the clock is an argument (nanoseconds).  The iteration order of the
    concurrent map, the tie-breaking of [select_nth_unstable_by_key] and the
    hash function belong to other crates and are parameters. *)

From stdpp Require Import sorting fin_maps.
From S2P Require Import Prelude Utf8.

(** ** Parameters *)

(** Iteration of a [DashMap] or [HashMap]: every entry once, in some order. *)
Class MapIter := map_iter : forall {K V} `{Countable K}, gmap K V -> list (K * V).

Class MapIterLaws `{MapIter} : Prop :=
  map_iter_perm : forall {K V} `{Countable K} (m : gmap K V), map_iter m ≡ₚ map_to_list m.

(** [select_nth_unstable_by_key]: a permutation whose first [n] elements have
    keys no larger than the others'. *)
Class SelectNth := select_nth : forall {A}, nat -> (A -> Z) -> list A -> list A.

Class SelectNthLaws `{SelectNth} : Prop := {
  select_nth_perm : forall A n (f : A -> Z) l, select_nth n f l ≡ₚ l;
  select_nth_order : forall A n (f : A -> Z) l x y,
    x ∈ take n (select_nth n f l) -> y ∈ drop n (select_nth n f l) -> f x <= f y }.

(** The SHA-256 function. *)
Class Sha256Fn := sha256 : bytes -> bytes.

(** ** Data *)

Inductive VerificationResult :=
| Live | Revoked | Dead | RateLimited | Error (message : bytes) | Unverifiable | Skipped.

Notation Metadata := (gmap bytes bytes).

Record VerificationIdentity := mkIdentity {
  credential_hash : bytes; detector_id_hash : bytes; companions_hash : bytes }.

#[export] Instance identity_eq_dec : EqDecision VerificationIdentity.
Proof. solve_decision. Defined.

#[export] Program Instance identity_countable : Countable VerificationIdentity :=
  inj_countable' (fun k => (credential_hash k, detector_id_hash k, companions_hash k))
                 (fun '(a, b, c) => mkIdentity a b c) _.
Next Obligation. by intros []. Qed.

Record CacheEntry := {
  result_ : VerificationResult; metadata : Metadata; expires_at : Z; entry_generation : Z }.

Record VerificationCache := mkCache {
  entries : gmap VerificationIdentity CacheEntry;
  inserts : Z;
  max_entries : Z;
  ttl : Z;
  generation : Z;
  queue : list (VerificationIdentity * Z) }.

Definition DEFAULT_TTL_SECS : Z := 300.
Definition DEFAULT_MAX_ENTRIES : Z := 10000.
Definition EVICTION_INTERVAL : Z := 64.
Definition MAX_METADATA_ENTRIES : nat := 16.
Definition MAX_METADATA_KEY_BYTES : Z := 64.
Definition MAX_METADATA_VALUE_BYTES : Z := 256.

Definition set_store (q : list (VerificationIdentity * Z)) (m : gmap VerificationIdentity CacheEntry)
    (c : VerificationCache) : VerificationCache :=
  mkCache m (inserts c) (max_entries c) (ttl c) (generation c) q.

(** ** Metadata *)

(** [str::is_char_boundary] on UTF-8 bytes. *)
Definition is_char_boundary (s : bytes) (i : Z) : bool :=
  (i =? 0) || (i =? zlen s) ||
  match s !! Z.to_nat i with Some b => negb (is_cont b) | None => false end.

(** The loop of [truncate_to_char_boundary], counting [end] down. *)
Fixpoint boundary_below (s : bytes) (e : nat) : nat :=
  match e with
  | O => O
  | S e' => if negb (is_char_boundary s (Z.of_nat e)) then boundary_below s e' else e
  end.

Definition truncate_to_char_boundary (value : bytes) (max_bytes : Z) : bytes :=
  if zlen value <=? max_bytes then value
  else take (boundary_below value (Z.to_nat max_bytes)) value.

Definition PRIORITY_METADATA_KEYS : list bytes :=
  [ $"arn"; $"account_id"; $"user_id"; $"oob_observed"; $"oob_unique_id"; $"oob_protocol";
    $"oob_remote_address" ].

(** [Iterator::position]. *)
Fixpoint position (k : bytes) (l : list bytes) : option Z :=
  match l with
  | [] => None
  | x :: l' => if bool_decide (x = k) then Some 0 else Z.succ <$> position k l'
  end.

Definition metadata_priority_rank (key : bytes) : Z :=
  match position key PRIORITY_METADATA_KEYS with
  | Some rank => rank
  | None => zlen PRIORITY_METADATA_KEYS
  end.

Definition metadata_cmp (a b : bytes * bytes) : comparison :=
  then_with (metadata_priority_rank a.1 ?= metadata_priority_rank b.1) (str_cmp a.1 b.1).

(** Collecting into a map: a later pair replaces an earlier one. *)
Definition collect (l : list (bytes * bytes)) : Metadata :=
  foldl (fun m kv => <[kv.1 := kv.2]> m) ∅ l.

Definition sanitize_metadata `{MapIter} (m : Metadata) : Metadata :=
  collect
    ((fun kv => (truncate_to_char_boundary kv.1 MAX_METADATA_KEY_BYTES,
                 truncate_to_char_boundary kv.2 MAX_METADATA_VALUE_BYTES)) <$>
     take MAX_METADATA_ENTRIES (sort_by metadata_cmp (map_iter m))).

(** ** Identity of a verification *)

Definition row_cmp (a b : bytes * bytes) : comparison :=
  then_with (str_cmp a.1 b.1) (str_cmp a.2 b.2).

Definition companion_row (kv : bytes * bytes) : bytes :=
  u64_to_le_bytes (zlen kv.1) ++ kv.1 ++ u64_to_le_bytes (zlen kv.2) ++ kv.2.

(** The bytes the companions hasher absorbs. *)
Definition companions_preimage `{MapIter} (companions : Metadata) : bytes :=
  let companion_rows := sort_by row_cmp (map_iter companions) in
  $"keyhog-verification-companions-v1" ++ [0] ++ u64_to_le_bytes (zlen companion_rows) ++
  concat (companion_row <$> companion_rows).

Definition sha256_hash `{Sha256Fn} (s : bytes) : bytes := sha256 s.

Definition verification_identity `{MapIter, Sha256Fn}
    (credential detector_id : bytes) (companions : Metadata) : VerificationIdentity :=
  mkIdentity (sha256_hash credential) (sha256_hash detector_id) (sha256 (companions_preimage companions)).

(** ** Operations *)

Section operations.
Context `{MapIter, Sha256Fn, Clock}.
Implicit Types (c : VerificationCache) (m : gmap VerificationIdentity CacheEntry).
Implicit Types (q : list (VerificationIdentity * Z)).

Definition with_max_entries (ttl max_entries : Z) : VerificationCache :=
  mkCache ∅ 0 (Z.max max_entries 1) ttl 0 [].

Definition cache_new (ttl : Z) : VerificationCache := with_max_entries ttl DEFAULT_MAX_ENTRIES.

Definition default_ttl : VerificationCache := cache_new (DEFAULT_TTL_SECS * 1000000000).

Definition queue_len c : Z := zlen (queue c).
Definition cache_len c : Z := Z.of_nat (size (entries c)).
Definition cache_is_empty c : bool := cache_len c =? 0.

(** [get_with_companions]: the outcome and the cache after it.  Within one
    step the second look at an expired entry finds it unchanged. *)
Definition get_with_companions (now : Z) (credential detector_id : bytes) (companions : Metadata) c :
    option (VerificationResult * Metadata) * VerificationCache :=
  let key := verification_identity credential detector_id companions in
  match entries c !! key with
  | None => (None, c)
  | Some entry =>
      if now <? expires_at entry then (Some (result_ entry, metadata entry), c)
      else (None, set_store (queue c) (delete key (entries c)) c)
  end.

Definition cache_get (now : Z) (credential detector_id : bytes) c :
    option (VerificationResult * Metadata) * VerificationCache :=
  get_with_companions now credential detector_id ∅ c.

(** A marker is current when its key is live and was last written with the
    marker's generation. *)
Definition current_marker m (marker : VerificationIdentity * Z) : bool :=
  match m !! marker.1 with
  | Some entry => entry_generation entry =? marker.2
  | None => false
  end.

(** The [pop_front] loop of [reconcile_queue_with_entries]. *)
Fixpoint trim_queue (max : Z) q m : list (VerificationIdentity * Z) * gmap VerificationIdentity CacheEntry :=
  match q with
  | [] => (q, m)
  | (key, _) :: q' => if max <? zlen q then trim_queue max q' (delete key m) else (q, m)
  end.

Definition reconcile_queue_with_entries c : VerificationCache :=
  let '(q, m) := trim_queue (max_entries c) (List.filter (current_marker (entries c)) (queue c)) (entries c) in
  set_store q m c.

Definition evict_expired (now : Z) c : VerificationCache :=
  reconcile_queue_with_entries
    (set_store (queue c) (filter (fun kv => now < expires_at kv.2) (entries c)) c).

(** The loop of [evict_one_oldest]. *)
Fixpoint pop_oldest q m : bool * (list (VerificationIdentity * Z) * gmap VerificationIdentity CacheEntry) :=
  match q with
  | [] => (false, (q, m))
  | (key, gen) :: q' =>
      if current_marker m (key, gen) then (true, (q', delete key m)) else pop_oldest q' m
  end.

Definition evict_one_oldest c : bool * VerificationCache :=
  let '(hit, (q, m)) := pop_oldest (queue c) (entries c) in (hit, set_store q m c).

Definition evict_any_entry c : bool * VerificationCache :=
  match map_iter (entries c) with
  | [] => (false, c)
  | (key, _) :: _ =>
      (bool_decide (is_Some (entries c !! key)), set_store (queue c) (delete key (entries c)) c)
  end.

(** The [while] loop, with fuel: [None] when it runs out. *)
Fixpoint enforce_loop (fuel : nat) c : option VerificationCache :=
  if max_entries c <? cache_len c then
    match fuel with
    | O => None
    | S fuel' =>
        let '(hit, c1) := evict_one_oldest c in
        if hit then enforce_loop fuel' c1
        else let '(any, c2) := evict_any_entry c1 in
             if any then enforce_loop fuel' c2 else Some c2
    end
  else Some c.

Definition enforce_max_entries_bound c : option VerificationCache :=
  enforce_loop (size (entries c)) c.

(** [put_with_companions]: [now_sweep] and [now_insert] are the two clock
    readings; the sum of [fetch_add]'s result and one is overflow-checked, the
    counters themselves wrap, and the expiry panics past the range of [Instant].
    [None] would be a loop without an end. *)
Definition put_with_companions (now_sweep now_insert : Z) (credential detector_id : bytes)
    (companions : Metadata) (result : VerificationResult) (meta : Metadata) c :
    outcome (option VerificationCache) :=
  let key := verification_identity credential detector_id companions in
  let! insert_count := add_checked usize_max (inserts c) 1 in
  let c := mkCache (entries c) ((inserts c + 1) mod 2 ^ 64) (max_entries c) (ttl c) (generation c) (queue c) in
  let c := if insert_count mod EVICTION_INTERVAL =? 0 then evict_expired now_sweep c else c in
  let gen := generation c in
  let! expires := instant_add now_insert (ttl c) in
  let entry := {| result_ := result; metadata := sanitize_metadata meta;
                  expires_at := expires; entry_generation := gen |} in
  let c := mkCache (<[key := entry]> (entries c)) (inserts c) (max_entries c) (ttl c)
                   ((gen + 1) mod 2 ^ 64) (queue c ++ [(key, gen)]) in
  let needs_stale_sweep := saturating_mul usize_max (max_entries c) 2 <? zlen (queue c) in
  let c := if needs_stale_sweep then reconcile_queue_with_entries c else c in
  Ret (enforce_max_entries_bound c).

Definition cache_put (now_sweep now_insert : Z) (credential detector_id : bytes)
    (result : VerificationResult) (meta : Metadata) c : outcome (option VerificationCache) :=
  put_with_companions now_sweep now_insert credential detector_id ∅ result meta c.

End operations.

(** ** Bounded age-stamped maps *)

Definition oldest_eviction_batch (max_entries : Z) : Z := Z.max (max_entries / 8) 1.

Section evict_oldest.
Context `{MapIter, SelectNth} {K V : Type} `{Countable K}.

Definition evict_oldest_dashmap_entries (count : Z) (age_of : V -> Z) (cache : gmap K V) : gmap K V :=
  if count =? 0 then cache
  else
    let by_age := (fun kv => (kv.1, age_of kv.2)) <$> map_iter cache in
    let by_age := if count <? zlen by_age
                  then take (Z.to_nat count) (select_nth (Z.to_nat count) snd by_age) else by_age in
    foldl (fun c kv => delete kv.1 c) cache by_age.

End evict_oldest.

(** *** The DNS cache *)

Definition DNS_CACHE_TTL : Z := 60 * 1000000000.
Definition DNS_CACHE_MAX_ENTRIES : Z := 4096.

(** [Instant::elapsed] saturates at zero. *)
Definition elapsed (now t : Z) : Z := saturating_sub now t.

Section dns.
Context `{MapIter, SelectNth} {SocketAddr IoError : Type}.

Notation DnsCache := (gmap str (Z * list SocketAddr)).

(** The lookup and the insertion of its answer at [now_insert]; [lookup] is
    what [tokio::net::lookup_host] answers in this call. *)
Definition resolve_and_insert (now_insert : Z) (lookup : result (list SocketAddr) IoError)
    (host_port : str) (cache : DnsCache) : result (list SocketAddr) IoError * DnsCache :=
  match lookup with
  | Err e => (Err e, cache)
  | Ok addrs =>
      if bool_decide (addrs = []) then (Ok addrs, cache)
      else
        let cache :=
          if DNS_CACHE_MAX_ENTRIES <=? Z.of_nat (size cache)
          then evict_oldest_dashmap_entries (oldest_eviction_batch DNS_CACHE_MAX_ENTRIES) fst cache
          else cache in
        (Ok addrs, <[host_port := (now_insert, addrs)]> cache)
  end.

(** [now] is the time of the age test. *)
Definition resolve_dns_cached (now now_insert : Z) (lookup : result (list SocketAddr) IoError)
    (host_port : str) (cache : DnsCache) : result (list SocketAddr) IoError * DnsCache :=
  match cache !! host_port with
  | Some (inserted_at, addrs) =>
      if elapsed now inserted_at <? DNS_CACHE_TTL then (Ok addrs, cache)
      else resolve_and_insert now_insert lookup host_port (delete host_port cache)
  | None => resolve_and_insert now_insert lookup host_port cache
  end.

End dns.

(** ** The recency queue *)

Section recency.
Implicit Types (m : gmap VerificationIdentity CacheEntry) (q : list (VerificationIdentity * Z)).

(** Markers are in strictly increasing order of generation, and every live
    entry has its current marker in the queue. *)
Record queue_ok q m : Prop := {
  qo_sorted : StronglySorted (fun a b : VerificationIdentity * Z => a.2 < b.2) q;
  qo_marked : forall k e, m !! k = Some e -> (k, entry_generation e) ∈ q }.

(** [m'] is [m] after evictions in write order: whatever was dropped was
    written before everything that was kept. *)
Definition keeps_newest m m' : Prop :=
  m' ⊆ m /\
  forall k1 e1 k2 e2, m !! k1 = Some e1 -> m' !! k1 = None -> m' !! k2 = Some e2 ->
    entry_generation e1 < entry_generation e2.

Lemma keeps_newest_refl m : keeps_newest m m.
Proof. split; [done|]. intros; congruence. Qed.

Lemma keeps_newest_trans m1 m2 m3 :
  keeps_newest m1 m2 -> keeps_newest m2 m3 -> keeps_newest m1 m3.
Proof.
  intros [S1 H1] [S2 H2]. split; [by etrans|]. intros k1 e1 k2 e2 Hk1 Hn Hk2.
  destruct (m2 !! k1) as [e|] eqn:E.
  - assert (e = e1) as -> by (pose proof (lookup_weaken _ _ _ _ E S1); congruence). eauto.
  - eapply H1; [done..|]. by eapply lookup_weaken.
Qed.

Lemma current_marker_spec m k g :
  current_marker m (k, g) = true <-> exists e, m !! k = Some e /\ entry_generation e = g.
Proof.
  unfold current_marker; cbn. destruct (m !! k) as [e|]; [|by split; [|intros (? & ? & _)]].
  rewrite Z.eqb_eq. split; [eauto|]. by intros (e' & [= <-] & He).
Qed.

(** A stale marker at the front can go. *)
Lemma queue_ok_stale q m x : current_marker m x = false -> queue_ok (x :: q) m -> queue_ok q m.
Proof.
  intros Hx [Hs Hm]. split; [by inversion Hs|]. intros k e Hk.
  specialize (Hm k e Hk). apply elem_of_cons in Hm as [<-|]; [|done].
  exfalso. apply not_true_iff_false in Hx. apply Hx, current_marker_spec. eauto.
Qed.

(** Deleting the entry of the front marker drops the oldest write. *)
Lemma queue_ok_front q m k g e :
  m !! k = Some e -> entry_generation e = g -> queue_ok ((k, g) :: q) m ->
  queue_ok q (delete k m) /\ keeps_newest m (delete k m).
Proof.
  intros Hk Hg [Hs Hm]. apply StronglySorted_inv in Hs as [Hs Hlt].
  assert (Hin : forall k2 e2, delete k m !! k2 = Some e2 -> (k2, entry_generation e2) ∈ q).
  { intros k2 e2 [Hne Hk2]%lookup_delete_Some. specialize (Hm _ _ Hk2).
    apply elem_of_cons in Hm as [[= ? ?]|]; [congruence | done]. }
  split; [by split|]. split; [apply delete_subseteq|]. intros k1 e1 k2 e2 Hk1 Hn Hk2.
  apply lookup_delete_None in Hn as [<-|]; [|congruence].
  assert (e1 = e) as -> by congruence. rewrite Hg.
  rewrite Forall_forall in Hlt. apply (Hlt (k2, entry_generation e2)), Hin, Hk2.
Qed.

Lemma pop_oldest_ok q m q' m' hit :
  queue_ok q m -> pop_oldest q m = (hit, (q', m')) ->
  queue_ok q' m' /\ keeps_newest m m' /\ (length q' <= length q)%nat /\
  (if hit then S (size m') = size m else m' = m /\ m = ∅).
Proof.
  induction q as [|[k g] q IH]; intros Hok H; cbn [pop_oldest] in H.
  - simplify_eq. split_and!; [done | apply keeps_newest_refl | done | done |].
    apply map_empty. intros i. destruct (m' !! i) eqn:E; [|done].
    apply (qo_marked _ _ Hok) in E. by apply elem_of_nil in E.
  - destruct (current_marker m (k, g)) eqn:Hc.
    + simplify_eq. apply current_marker_spec in Hc as (e & Hk & Hg).
      destruct (queue_ok_front _ _ _ _ _ Hk Hg Hok). split_and!; [done..|cbn; lia|].
      rewrite map_size_delete_Some by eauto. assert (size m <> 0%nat); [|lia].
      by apply (map_size_ne_0_lookup_2 _ k); eauto.
    + apply (queue_ok_stale _ _ _ Hc) in Hok.
      destruct (IH Hok H) as (? & ? & ? & ?). split_and!; [done..|cbn; lia|done].
Qed.

(** After [retain], every marker is current. *)
Definition all_current q m : Prop := Forall (fun x => current_marker m x = true) q.

Lemma retain_ok q m :
  queue_ok q m -> queue_ok (List.filter (current_marker m) q) m /\ all_current (List.filter (current_marker m) q) m.
Proof.
  intros [Hs Hm]. split; [split|].
  - clear Hm. induction Hs as [|x l Hs IH Hlt]; cbn; [constructor|]. case_match; [|done].
    constructor; [done|]. rewrite !Forall_forall in *. intros y Hy. apply Hlt.
    apply list_elem_of_In in Hy. apply list_elem_of_In. by apply filter_In in Hy as [].
  - intros k e Hk. apply list_elem_of_In, filter_In. split; [by apply list_elem_of_In, Hm|].
    apply current_marker_spec. eauto.
  - apply Forall_forall. intros x Hx. apply list_elem_of_In, filter_In in Hx. tauto.
Qed.

Lemma trim_queue_ok mx q m q' m' :
  1 <= mx -> queue_ok q m -> all_current q m -> trim_queue mx q m = (q', m') ->
  queue_ok q' m' /\ all_current q' m' /\ keeps_newest m m' /\
  zlen q' <= Z.max mx 0 /\ (q <> [] -> q' <> []).
Proof.
  intros Hmx. revert m; induction q as [|[k g] q IH]; intros m Hok Hc H; cbn [trim_queue] in H.
  - simplify_eq. unfold zlen; cbn. split_and!; [done.. | apply keeps_newest_refl | lia | done].
  - apply Forall_cons in Hc as [Hk Hc]. case_match eqn:E.
    2: { simplify_eq. split_and!; [done | by constructor | apply keeps_newest_refl | lia | done]. }
    apply current_marker_spec in Hk as (e & Hk & Hg).
    destruct (queue_ok_front _ _ _ _ _ Hk Hg Hok) as [Hok' Hkn].
    apply IH in H as (? & ? & ? & ? & Hne); [|done|].
    + split_and!; [done..|by eapply keeps_newest_trans|done|]. intros _. apply Hne.
      intros ->. unfold zlen in E; cbn in E. lia.
    + apply Forall_forall. intros [k2 g2] Hx.
      assert (Hx2 : current_marker m (k2, g2) = true).
      { rewrite Forall_forall in Hc. by apply Hc. }
      apply current_marker_spec in Hx2 as (e2 & Hk2 & Hg2).
      apply current_marker_spec. exists e2. split; [|done].
      rewrite lookup_delete_ne; [done|]. intros <-.
      destruct Hok as [Hs _]. apply StronglySorted_inv in Hs as [_ Hlt].
      pose proof (proj1 (Forall_forall _ _) Hlt _ Hx) as Hl; cbn in Hl. simplify_eq. lia.
Qed.

End recency.

(** ** The cache invariant *)

Section cache.
Context `{MapIter, Sha256Fn, Clock} {iter_laws : MapIterLaws}.
Implicit Types c : VerificationCache.

Record cache_ok c : Prop := {
  co_max : 1 <= max_entries c <= usize_max;
  co_gen : in_u64 (generation c);
  co_inserts : inserts c = generation c;
  co_size : cache_len c <= max_entries c;
  co_queue_len : zlen (queue c) <= saturating_mul usize_max (max_entries c) 2;
  co_queue : queue_ok (queue c) (entries c);
  co_fresh : Forall (fun x : VerificationIdentity * Z => x.2 < generation c) (queue c) }.

(** [evict_one_oldest] on any cache only removes; a hit removes one entry. *)
Lemma pop_oldest_any q m q' m' hit :
  pop_oldest q m = (hit, (q', m')) ->
  m' ⊆ m /\ if hit then (size m = S (size m')) else m' = m.
Proof using.
  induction q as [|[k g] q IH]; intros Hp; cbn in Hp; [by simplify_eq|].
  case_match eqn:E; [|by apply IH]. simplify_eq. split; [apply delete_subseteq|].
  apply current_marker_spec in E as (e & Hk & _).
  rewrite map_size_delete_Some by eauto.
  pose proof (map_size_ne_0_lookup_2 m k ltac:(eauto)). lia.
Qed.

Lemma evict_any_ok c :
  entries c <> ∅ -> exists c', evict_any_entry c = (true, c') /\ entries c' ⊆ entries c /\
    size (entries c) = S (size (entries c')) /\ max_entries c' = max_entries c.
Proof using iter_laws.
  intros Hne. unfold evict_any_entry. pose proof (map_iter_perm (entries c)) as Hp.
  destruct (map_iter (entries c)) as [|[k e] l].
  { apply Permutation_nil_l in Hp. symmetry in Hp. by apply map_to_list_empty_iff in Hp. }
  assert (Hk : entries c !! k = Some e).
  { apply elem_of_map_to_list. rewrite <- Hp. by left. }
  rewrite bool_decide_true by eauto. eexists. split; [done|]. cbn. split_and!; [apply delete_subseteq| |done].
  rewrite map_size_delete_Some by eauto.
  pose proof (map_size_ne_0_lookup_2 (entries c) k ltac:(eauto)). lia.
Qed.

(** The eviction loop ends, within as many rounds as the map has entries,
    on every cache, also one whose queue lost markers; it leaves at most
    [max_entries] entries, all of them from the cache, and removes nothing from
    a cache within its bound. *)
Theorem enforce_bound_terminates c :
  0 <= max_entries c ->
  exists c', enforce_max_entries_bound c = Some c' /\
    cache_len c' <= max_entries c /\ entries c' ⊆ entries c /\
    (cache_len c <= max_entries c -> c' = c).
Proof using iter_laws.
  unfold enforce_max_entries_bound. generalize (le_n (size (entries c))).
  generalize (size (entries c)) at 2 3. intros fuel. revert c.
  induction fuel as [|fuel IH]; intros c Hs Hmx; cbn [enforce_loop]; unfold cache_len in *.
  { rewrite (proj2 (Z.ltb_ge _ _)) by lia. exists c. split_and!; [done | lia | done..]. }
  destruct (Z.ltb_spec (max_entries c) (Z.of_nat (size (entries c)))) as [Hgt|].
  2: { exists c. split_and!; [done | lia | done..]. }
  unfold evict_one_oldest. destruct (pop_oldest (queue c) (entries c)) as [hit [q m]] eqn:Hp.
  destruct (pop_oldest_any _ _ _ _ _ Hp) as [Hsub Hsz]. destruct hit.
  - destruct (IH (set_store q m c)) as (c' & -> & ? & ? & _); cbn in *; [lia.. |].
    exists c'. split_and!; [done | lia | by etrans | lia].
  - subst m. destruct (evict_any_ok (set_store q (entries c) c)) as (c2 & -> & Hs2 & Hsz2 & Hm2).
    { cbn. intros He. rewrite He, map_size_empty in Hgt. lia. }
    cbn in *. destruct (IH c2) as (c' & -> & ? & ? & _); [lia.. |].
    exists c'. split_and!; [done | lia | by etrans | lia].
Qed.

(** The queue after any eviction is a sublist of the queue before it. *)
Lemma pop_oldest_sublist q m q' m' hit :
  pop_oldest q m = (hit, (q', m')) -> q' `sublist_of` q.
Proof using.
  induction q as [|[k g] q IH]; intros Hp; cbn in Hp; [by simplify_eq|].
  case_match; [simplify_eq; by apply sublist_cons | by apply sublist_cons, IH].
Qed.

Lemma trim_queue_sublist mx q m q' m' : trim_queue mx q m = (q', m') -> q' `sublist_of` q.
Proof using.
  revert m; induction q as [|[k g] q IH]; intros m Hp; cbn [trim_queue] in Hp; [by simplify_eq|].
  case_match; [by eapply sublist_cons, IH | by simplify_eq].
Qed.

Lemma List_filter_sublist {A} (f : A -> bool) (l : list A) : List.filter f l `sublist_of` l.
Proof using. induction l as [|x l IH]; cbn; [done|]. case_match; [by apply sublist_skip | by apply sublist_cons]. Qed.

(** What an eviction may change. *)
Record evicts c c' : Prop := {
  ev_queue : queue_ok (queue c') (entries c');
  ev_sub : queue c' `sublist_of` queue c;
  ev_newest : keeps_newest (entries c) (entries c');
  ev_inserts : inserts c' = inserts c;
  ev_max : max_entries c' = max_entries c;
  ev_ttl : ttl c' = ttl c;
  ev_gen : generation c' = generation c }.

Lemma evicts_trans c1 c2 c3 : evicts c1 c2 -> evicts c2 c3 -> evicts c1 c3.
Proof using.
  intros [] []. split; try congruence; [by etrans | by eapply keeps_newest_trans].
Qed.

Lemma evicts_refl c : queue_ok (queue c) (entries c) -> evicts c c.
Proof using. split; [done | done | apply keeps_newest_refl | done..]. Qed.

Lemma enforce_ok c :
  0 <= max_entries c -> queue_ok (queue c) (entries c) ->
  exists c', enforce_max_entries_bound c = Some c' /\ evicts c c' /\
    cache_len c' = Z.min (cache_len c) (max_entries c).
Proof using.
  unfold enforce_max_entries_bound. generalize (le_n (size (entries c))).
  generalize (size (entries c)) at 2 3. intros fuel. revert c.
  induction fuel as [|fuel IH]; intros c Hs Hmx Hok; cbn [enforce_loop]; unfold cache_len in *.
  { rewrite (proj2 (Z.ltb_ge _ _)) by lia. exists c. split_and!; [done | by apply evicts_refl | lia]. }
  destruct (Z.ltb_spec (max_entries c) (Z.of_nat (size (entries c)))) as [Hgt|].
  2: { exists c. split_and!; [done | by apply evicts_refl | lia]. }
  unfold evict_one_oldest. destruct (pop_oldest (queue c) (entries c)) as [hit [q m]] eqn:Hp.
  destruct (pop_oldest_ok _ _ _ _ _ Hok Hp) as (Hok' & Hkn & _ & Hsz). destruct hit.
  2: { destruct Hsz as [_ He]. rewrite He, map_size_empty in Hgt. lia. }
  destruct (IH (set_store q m c)) as (c' & -> & Hev & Hlen); cbn in *; [lia.. | done |].
  exists c'. split_and!; [done | | lia].
  eapply evicts_trans, Hev. split; try done. by eapply pop_oldest_sublist.
Qed.

Lemma reconcile_ok c :
  1 <= max_entries c -> queue_ok (queue c) (entries c) ->
  evicts c (reconcile_queue_with_entries c) /\
  zlen (queue (reconcile_queue_with_entries c)) <= max_entries c /\
  (entries c <> ∅ -> entries (reconcile_queue_with_entries c) <> ∅).
Proof using.
  intros Hmx Hok. unfold reconcile_queue_with_entries.
  destruct (retain_ok _ _ Hok) as [Hok' Hall].
  destruct (trim_queue _ _ _) as [q m] eqn:Ht.
  destruct (trim_queue_ok _ _ _ _ _ Hmx Hok' Hall Ht) as (Hq & Hc & Hkn & Hl & Hne).
  cbn. split_and!; [|lia|].
  - split; try done. cbn. etrans; [by eapply trim_queue_sublist | apply List_filter_sublist].
  - intros Hm He. subst m. destruct q as [|[k g] q].
    + apply Hne; [|done]. intros Hf. apply Hm, map_empty. intros k.
      destruct (entries c !! k) as [e|] eqn:E; [|done].
      apply (qo_marked _ _ Hok') in E. rewrite Hf in E. by apply elem_of_nil in E.
    + apply Forall_cons in Hc as [(e & He & _)%current_marker_spec _]. done.
Qed.

Lemma queue_ok_mono q m m' : queue_ok q m -> m' ⊆ m -> queue_ok q m'.
Proof using. intros [Hs Hm] Hsub. split; [done|]. intros k e Hk. eapply Hm, lookup_weaken; done. Qed.

Lemma queue_ok_insert q m k e :
  queue_ok q m -> Forall (fun x : VerificationIdentity * Z => x.2 < entry_generation e) q ->
  queue_ok (q ++ [(k, entry_generation e)]) (<[k := e]> m).
Proof using.
  intros [Hs Hm] Hf. split.
  - clear Hm. induction Hs as [|x l Hs IH Hlt]; cbn; [by repeat constructor|].
    apply Forall_cons in Hf as [Hx Hf]. constructor; [by apply IH|].
    apply Forall_app. split; [done|]. by repeat constructor.
  - intros k2 e2 Hk2. apply elem_of_app.
    apply lookup_insert_Some in Hk2 as [[<- <-] | [_ Hk2]]; [right; by left | left; by apply Hm].
Qed.

(** The latest write survives evictions that leave anything at all. *)
Lemma latest_survives m m' k e :
  keeps_newest m m' -> m' <> ∅ -> m !! k = Some e ->
  (forall k2 e2, m !! k2 = Some e2 -> entry_generation e2 <= entry_generation e) ->
  m' !! k = Some e.
Proof using.
  intros [Hsub Hkn] Hne Hk Hmax. destruct (m' !! k) as [e'|] eqn:E.
  { pose proof (lookup_weaken _ _ _ _ E Hsub). congruence. }
  apply map_choose in Hne as (k2 & e2 & Hk2).
  specialize (Hkn _ _ _ _ Hk E Hk2). specialize (Hmax _ _ (lookup_weaken _ _ _ _ Hk2 Hsub)). lia.
Qed.

Lemma evict_expired_ok now c :
  1 <= max_entries c -> queue_ok (queue c) (entries c) ->
  evicts (set_store (queue c) (filter (fun kv => now < expires_at kv.2) (entries c)) c) (evict_expired now c) /\
  zlen (queue (evict_expired now c)) <= max_entries c.
Proof using.
  intros Hmx Hok. unfold evict_expired.
  edestruct (reconcile_ok (set_store (queue c) (filter (fun kv => now < expires_at kv.2) (entries c)) c))
    as (He & Hl & _); [done | eapply queue_ok_mono; [done | apply map_filter_subseteq] | done].
Qed.

(** The entry a [put] writes. *)
Definition written_entry now_insert r meta c : CacheEntry :=
  {| result_ := r; metadata := sanitize_metadata meta; expires_at := now_insert + ttl c;
     entry_generation := generation c |}.

(** The write of [put]: insertion, stale sweep, bound. *)
Lemma write_ok c k e :
  1 <= max_entries c <= usize_max -> in_u64 (generation c) -> generation c < u64_max ->
  zlen (queue c) <= saturating_mul usize_max (max_entries c) 2 ->
  queue_ok (queue c) (entries c) ->
  Forall (fun x : VerificationIdentity * Z => x.2 < generation c) (queue c) ->
  entry_generation e = generation c ->
  let c3 := mkCache (<[k := e]> (entries c)) (inserts c) (max_entries c) (ttl c)
              ((generation c + 1) mod 2 ^ 64) (queue c ++ [(k, generation c)]) in
  let c4 := if saturating_mul usize_max (max_entries c) 2 <? zlen (queue c3)
            then reconcile_queue_with_entries c3 else c3 in
  exists c', enforce_max_entries_bound c4 = Some c' /\ evicts c3 c' /\
    cache_len c' <= max_entries c /\
    zlen (queue c') <= saturating_mul usize_max (max_entries c) 2 /\
    entries c' !! k = Some e.
Proof using.
  intros Hmx Hg Hgm Hql Hok Hf He c3 c4.
  assert (Hok3 : queue_ok (queue c3) (entries c3)).
  { unfold c3; cbn. rewrite <- He. apply queue_ok_insert; [done|]. by rewrite He. }
  assert (Hne3 : entries c3 <> ∅) by apply insert_non_empty.
  assert (H4 : evicts c3 c4 /\ zlen (queue c4) <= saturating_mul usize_max (max_entries c) 2 /\
               entries c4 <> ∅).
  { unfold c4. destruct (Z.ltb_spec (saturating_mul usize_max (max_entries c) 2) (zlen (queue c3))).
    - destruct (reconcile_ok c3) as (? & Hl & ?); [cbn; lia | done |]. split_and!; [done | | auto].
      unfold saturating_mul. cbn in Hl |- *. lia.
    - split_and!; [by apply evicts_refl | lia | done]. }
  destruct H4 as (Hev4 & Hq4 & Hne4).
  destruct (enforce_ok c4) as (c' & Hc' & Hev & Hlen).
  { rewrite (ev_max _ _ Hev4); cbn; lia. } { apply Hev4. }
  exists c'. pose proof (evicts_trans _ _ _ Hev4 Hev) as Hev'. split_and!; [done..| | |].
  - rewrite Hlen, (ev_max _ _ Hev4). cbn. lia.
  - etrans; [|apply Hq4]. apply inj_le, sublist_length, Hev.
  - apply (latest_survives (entries c3)); [apply Hev' | | by apply lookup_insert_eq |].
    + intros Hn. apply map_size_non_empty_iff in Hne4. unfold cache_len in Hlen.
      rewrite Hn, map_size_empty, (ev_max _ _ Hev4) in Hlen. cbn in Hlen. lia.
    + intros k2 e2 Hk2. apply (qo_marked _ _ Hok3) in Hk2. unfold c3 in Hk2; cbn in Hk2.
      apply elem_of_app in Hk2 as [Hk2|Hk2].
      * rewrite Forall_forall in Hf. specialize (Hf _ Hk2); cbn in Hf. lia.
      * apply list_elem_of_singleton in Hk2. simplify_eq. lia.
Qed.

(** A [put] whose expiry the clock cannot represent panics. *)
Lemma put_overflow c ns ni cred det comps r meta :
  instant_max < ni + ttl c -> put_with_companions ns ni cred det comps r meta c = Panic.
Proof using.
  intros Hi. unfold put_with_companions, instant_add. destruct (add_checked _ _ _); [|done]. cbv zeta.
  assert (Ht : forall now d, ttl (evict_expired now d) = ttl d)
    by (intros; unfold evict_expired, reconcile_queue_with_entries; by repeat case_match).
  destruct (_ =? 0); rewrite ?Ht; cbn [ttl]; by rewrite (proj2 (Z.leb_gt _ _) Hi).
Qed.

Lemma put_ok c ns ni cred det comps r meta :
  cache_ok c -> generation c < u64_max -> ni + ttl c <= instant_max ->
  exists c', put_with_companions ns ni cred det comps r meta c = Ret (Some c') /\ cache_ok c' /\
    max_entries c' = max_entries c /\ ttl c' = ttl c /\ generation c' = generation c + 1 /\
    entries c' !! verification_identity cred det comps = Some (written_entry ni r meta c) /\
    (forall k1 e1 k2 e2, k1 <> verification_identity cred det comps -> entries c !! k1 = Some e1 -> ns < expires_at e1 ->
       entries c' !! k1 = None -> entries c' !! k2 = Some e2 ->
       entry_generation e1 < entry_generation e2).
Proof using.
  intros [Hmx Hg Hin Hsz Hql Hok Hf] Hgm Hfit. set (k := verification_identity cred det comps).
  unfold put_with_companions, add_checked. rewrite Hin.
  assert (usize_max = 2 ^ 64 - 1) by done. assert (u64_max = 2 ^ 64 - 1) by done.
  pose proof Hg as Hg'. unfold in_u64 in Hg'. rewrite (proj2 (Z.leb_le _ _)) by lia.
  cbv zeta. fold k.
  set (c1 := mkCache (entries c) ((generation c + 1) mod 2 ^ 64) (max_entries c) (ttl c) (generation c) (queue c)).
  set (c2 := if (generation c + 1) mod EVICTION_INTERVAL =? 0 then evict_expired ns c1 else c1).
  assert (Hex : exists m1, m1 ⊆ entries c /\
    (forall k1 e1, entries c !! k1 = Some e1 -> ns < expires_at e1 -> m1 !! k1 = Some e1) /\
    evicts (set_store (queue c1) m1 c1) c2).
  { unfold c2. destruct ((generation c + 1) mod EVICTION_INTERVAL =? 0).
    - exists (filter (fun kv => ns < expires_at kv.2) (entries c)).
      split_and!; [apply map_filter_subseteq | | apply (evict_expired_ok ns c1); [cbn; lia | done]].
      intros k1 e1 Hk1 He1. by apply map_lookup_filter_Some_2.
    - exists (entries c). split_and!; [done | done | by apply evicts_refl]. }
  destruct Hex as (m1 & Hm1 & Hun & Hev2). clearbody c2.
  destruct Hev2 as [Hok2 Hsub2 Hkn2 Hin2 Hmx2 Httl2 Hgen2]. cbn in Hsub2, Hkn2, Hin2, Hmx2, Httl2, Hgen2.
  unfold instant_add. rewrite Httl2, (proj2 (Z.leb_le _ _) Hfit), <- Httl2.
  assert (Hf2 : Forall (fun x : VerificationIdentity * Z => x.2 < generation c2) (queue c2)).
  { rewrite Hgen2. rewrite !Forall_forall in *. intros x Hx. eapply Hf, elem_of_sublist; done. }
  set (e := {| result_ := r; metadata := sanitize_metadata meta; expires_at := ni + ttl c2;
               entry_generation := generation c2 |}).
  destruct (write_ok c2 k e) as (c' & Hc' & [Hok' Hsub' Hkn' Hin' Hmx' Httl' Hgen'] & Hl' & Hq' & Hk').
  1-7: rewrite ?Hmx2, ?Hgen2; try done.
  { etrans; [apply inj_le, sublist_length; done | done]. } { by rewrite <- Hgen2. }
  assert (Hmod : (generation c + 1) mod 2 ^ 64 = generation c + 1) by (apply Z.mod_small; lia).
  cbn in Hsub', Hkn', Hin', Hmx', Httl', Hgen'. exists c'.
  split_and!; [exact (f_equal Ret Hc')| |congruence|congruence|congruence| |].
  - split; [by rewrite Hmx', Hmx2 | | by rewrite Hin', Hin2, Hgen', Hgen2 | by rewrite Hmx'
           | by rewrite Hmx' | done | ]; rewrite Hgen', Hgen2, Hmod; [unfold in_u64; lia|].
    rewrite Forall_forall. intros x Hx. eapply elem_of_sublist in Hx; [|apply Hsub'].
    apply elem_of_app in Hx as [Hx|Hx%list_elem_of_singleton].
    + rewrite Forall_forall in Hf2. specialize (Hf2 _ Hx). lia.
    + subst x; cbn. lia.
  - rewrite Hk'. unfold e, written_entry. by rewrite Httl2, Hgen2.
  - intros k1 e1 k2 e2 Hne Hk1 He1 Hn Hk2. specialize (Hun _ _ Hk1 He1).
    destruct (entries c2 !! k1) as [e1'|] eqn:E1.
    + assert (e1' = e1) as -> by (destruct Hkn2 as [Hs _]; pose proof (lookup_weaken _ _ _ _ E1 Hs); congruence).
      destruct Hkn' as [_ Hkn']. eapply Hkn'; [|done..]. by rewrite lookup_insert_ne.
    + pose proof (lookup_weaken _ _ _ _ Hk2 (proj1 Hkn')) as Hk3.
      apply lookup_insert_Some in Hk3 as [[<- <-]|[_ Hk3]]; [|by eapply (proj2 Hkn2)].
      cbn. rewrite Hgen2. rewrite Forall_forall in Hf. apply (Hf (k1, entry_generation e1)). by apply Hok.
Qed.

(** A stored outcome is found again until it expires, and capacity
    evictions follow write order: after a [put], a lookup of the same
    credential, detector and companions before [now_insert + ttl] answers the
    stored result with its sanitized metadata, and an unexpired entry of
    another key that the [put] evicted was written before every entry that is
    kept. *)
Theorem put_then_get c ns ni cred det comps r meta :
  cache_ok c -> generation c < u64_max -> ni + ttl c <= instant_max ->
  exists c', put_with_companions ns ni cred det comps r meta c = Ret (Some c') /\
    (forall now, now < ni + ttl c ->
       (get_with_companions now cred det comps c').1 = Some (r, sanitize_metadata meta)) /\
    (forall now, ni + ttl c <= now -> (get_with_companions now cred det comps c').1 = None) /\
    (forall k1 e1 k2 e2,
       k1 <> verification_identity cred det comps -> entries c !! k1 = Some e1 ->
       ns < expires_at e1 -> entries c' !! k1 = None -> entries c' !! k2 = Some e2 ->
       entry_generation e1 < entry_generation e2).
Proof using.
  intros Hok Hg Hi. destruct (put_ok c ns ni cred det comps r meta Hok Hg Hi) as (c' & Hp & _ & _ & _ & _ & Hk & Hev).
  exists c'. split_and!; [done | | | done]; intros now Hnow; unfold get_with_companions; rewrite Hk; cbn.
  - by rewrite (proj2 (Z.ltb_lt _ _)).
  - by rewrite (proj2 (Z.ltb_ge _ _)).
Qed.

(** *** Histories *)

Inductive cache_op :=
| OpPut (now_sweep now_insert : Z) (credential detector_id : bytes) (companions : Metadata)
        (result : VerificationResult) (meta : Metadata)
| OpGet (now : Z) (credential detector_id : bytes) (companions : Metadata)
| OpEvictExpired (now : Z).

Definition cache_step (op : cache_op) c : option VerificationCache :=
  match op with
  | OpPut ns ni cred det comps r meta =>
      match put_with_companions ns ni cred det comps r meta c with Ret o => o | Panic => None end
  | OpGet now cred det comps => Some (get_with_companions now cred det comps c).2
  | OpEvictExpired now => Some (evict_expired now c)
  end.

Fixpoint cache_run (ops : list cache_op) c : option VerificationCache :=
  match ops with
  | [] => Some c
  | op :: ops' => match cache_step op c with Some c' => cache_run ops' c' | None => None end
  end.

(** A cache whose map shrank and whose queue lost markers is still in order. *)
Lemma cache_ok_shrink c m c' :
  cache_ok c -> m ⊆ entries c -> evicts (set_store (queue c) m c) c' -> cache_ok c'.
Proof using.
  intros [Hmx Hg Hin Hsz Hql Hok Hf] Hsub [Hq Hs [Hm' _] Hi Hm _ Hgen]; cbn in Hs, Hi, Hm, Hgen, Hm'.
  split; rewrite ?Hm, ?Hgen, ?Hi; try done.
  - etrans; [|done]. apply inj_le, map_subseteq_size. by etrans.
  - etrans; [apply inj_le, sublist_length; done | done].
  - rewrite !Forall_forall in *. intros x Hx. eapply Hf, elem_of_sublist; done.
Qed.

(** The expiry of a [put] is an instant of the platform. *)
Definition op_fits (lifetime : Z) (op : cache_op) : Prop :=
  match op with OpPut _ ni _ _ _ _ _ => ni + lifetime <= instant_max | _ => True end.

Lemma cache_step_fits op c : is_Some (cache_step op c) -> op_fits (ttl c) op.
Proof using.
  destruct op as [ns ni cred det comps r meta | |]; cbn; [|done..]. intros Hs. apply Z.nlt_ge. intros Hi.
  rewrite put_overflow in Hs by done. by destruct Hs.
Qed.

Lemma cache_step_ok op c :
  cache_ok c -> generation c < u64_max -> op_fits (ttl c) op ->
  exists c', cache_step op c = Some c' /\ cache_ok c' /\ max_entries c' = max_entries c /\ ttl c' = ttl c /\
    generation c' <= generation c + 1.
Proof using.
  intros Hok Hg Hi. destruct op as [ns ni cred det comps r meta | now cred det comps | now]; cbn [cache_step].
  - destruct (put_ok c ns ni cred det comps r meta Hok Hg Hi) as (c' & -> & ? & ? & ? & ? & _).
    exists c'. split_and!; (done || lia).
  - eexists. split; [done|]. unfold get_with_companions.
    destruct (entries c !! _) as [e|]; [|cbn; split_and!; (done || lia)].
    destruct (now <? expires_at e); [cbn; split_and!; (done || lia)|]. cbn. split_and!; [|done|done|lia].
    eapply cache_ok_shrink; [done | apply delete_subseteq | apply evicts_refl].
    eapply queue_ok_mono; [apply Hok | apply delete_subseteq].
  - eexists. split; [done|]. destruct (evict_expired_ok now c) as [Hev _]; [apply Hok..|].
    split_and!; [|by rewrite (ev_max _ _ Hev) | by rewrite (ev_ttl _ _ Hev) | rewrite (ev_gen _ _ Hev); cbn; lia].
    eapply cache_ok_shrink; [done | | done]. apply map_filter_subseteq.
Qed.

Lemma with_max_entries_ok ttl mx : mx <= usize_max -> cache_ok (with_max_entries ttl mx).
Proof using.
  intros Hmx. assert (1 <= usize_max) by done. unfold with_max_entries.
  split; cbn [entries queue generation inserts max_entries].
  - lia.
  - done.
  - done.
  - change (0 <= Z.max mx 1). lia.
  - change (0 <= Z.min usize_max (Z.max mx 1 * 2)). lia.
  - split; [constructor | intros k e Hk; by rewrite lookup_empty in Hk].
  - constructor.
Qed.

Lemma cache_run_ok ops c :
  cache_ok c -> generation c + zlen ops <= u64_max ->
  (Forall (op_fits (ttl c)) ops <-> is_Some (cache_run ops c)) /\
  (forall c', cache_run ops c = Some c' -> cache_ok c' /\ max_entries c' = max_entries c).
Proof using.
  revert c. induction ops as [|op ops IH]; intros c Hok Hg; cbn [cache_run].
  { split; [split; [by eexists | by constructor]|]. by intros c' [= <-]. }
  unfold zlen in Hg; cbn in Hg. rewrite Forall_cons. destruct (cache_step op c) as [c1|] eqn:E.
  - assert (Hf : op_fits (ttl c) op) by (apply cache_step_fits; by eexists).
    destruct (cache_step_ok op c Hok ltac:(lia) Hf) as (c1' & E' & Hok1 & Hm1 & Ht1 & Hg1).
    rewrite E in E'. injection E' as <-. destruct (IH c1 Hok1) as [IH1 IH2]; [unfold zlen; lia|]. rewrite Ht1 in IH1.
    split; [tauto|]. intros c' Hc'. destruct (IH2 c' Hc'). split; [done | congruence].
  - split; [|done]. split; [|by intros [? ?]]. intros [Hf _].
    destruct (cache_step_ok op c Hok ltac:(lia) Hf) as (c1' & E' & _). congruence.
Qed.

(** C39. A history of the cache shorter than the generation counter's range
    runs to its end, without a panic and without the eviction loop running on,
    exactly when the clock can represent the expiry of each of its [put]s, and
    then the map holds at most [max_entries] outcomes and the queue at most
    twice as many markers. *)
Theorem cache_history_bounded ttl mx ops :
  1 <= mx <= usize_max -> zlen ops <= u64_max ->
  (is_Some (cache_run ops (with_max_entries ttl mx)) <-> Forall (op_fits ttl) ops) /\
  (forall c, cache_run ops (with_max_entries ttl mx) = Some c -> cache_len c <= mx /\ queue_len c <= 2 * mx).
Proof using iter_laws.
  intros Hmx Hlen.
  destruct (cache_run_ok ops (with_max_entries ttl mx)) as [Hiff Hb]; [apply with_max_entries_ok; lia | done |].
  split; [by rewrite Hiff|]. intros c Hc. destruct (Hb c Hc) as [Hok Hm]. cbn in Hm. split.
  - pose proof (co_size _ Hok). lia.
  - pose proof (co_queue_len _ Hok) as Hq. unfold queue_len, saturating_mul in *. lia.
Qed.

End cache.
