(* ===== verification/VerifierMeta.v ===== *)
(** * Identity, metadata and DNS cache of the verifier
    ([crates/verifier/src/cache.rs], [crates/verifier/src/ssrf.rs])

    What the definitions of [VerifierCache] guarantee about the bytes hashed
    into a cache key, the metadata kept with an outcome and the bounded DNS
    cache. *)

From S2P Require Import Prelude Utf8 VerifierCache.

(** ** The hashed companions *)

Lemma row_cmp_laws : CmpLaws row_cmp.
Proof.
  apply cmp_then_laws; [apply (cmp_on_laws fst str_cmp) | apply (cmp_on_laws snd str_cmp)]; apply _.
Qed.

#[local] Existing Instance row_cmp_laws.

Lemma row_cmp_Eq a b : row_cmp a b = Eq -> a = b.
Proof.
  unfold row_cmp. rewrite then_with_Eq. intros [H1 H2].
  apply (cmp_eq str_cmp) in H1, H2. destruct a, b; cbn in *; congruence.
Qed.

(** Lengths a Rust [String] or map can have. *)
Definition sized (s : bytes) : Prop := zlen s <= u64_max.
Definition companions_sized (m : Metadata) : Prop :=
  Z.of_nat (size m) <= u64_max /\ map_Forall (fun k v => sized k /\ sized v) m.

Lemma len_prefix_inj (s t r r' : bytes) :
  sized s -> sized t ->
  u64_to_le_bytes (zlen s) ++ s ++ r = u64_to_le_bytes (zlen t) ++ t ++ r' -> s = t /\ r = r'.
Proof.
  unfold sized. intros Hs Ht H. apply app_inj_1 in H as [Hl H]; [|done].
  apply u64_to_le_bytes_inj in Hl; [|unfold in_u64, zlen in *; lia..].
  apply app_inj_1 in H; [done|]. unfold zlen in Hl. lia.
Qed.

Lemma companion_rows_inj (l k : list (bytes * bytes)) :
  length l = length k -> Forall (fun kv => sized kv.1 /\ sized kv.2) l ->
  Forall (fun kv => sized kv.1 /\ sized kv.2) k ->
  concat (companion_row <$> l) = concat (companion_row <$> k) -> l = k.
Proof.
  revert k; induction l as [|[a b] l IH]; intros [|[a' b'] k] Hl Hs Hs' H; try done.
  apply Forall_cons in Hs as [[Ha Hb] Hs]. apply Forall_cons in Hs' as [[Ha' Hb'] Hs'].
  cbn in Ha, Hb, Ha', Hb'. cbn [fmap list_fmap concat] in H.
  change (companion_row (a, b)) with (u64_to_le_bytes (zlen a) ++ a ++ u64_to_le_bytes (zlen b) ++ b) in H.
  change (companion_row (a', b')) with (u64_to_le_bytes (zlen a') ++ a' ++ u64_to_le_bytes (zlen b') ++ b') in H.
  rewrite <- !app_assoc in H. apply len_prefix_inj in H as [-> H]; [|done..].
  apply len_prefix_inj in H as [-> H]; [|done..]. f_equal. apply IH; try done. by injection Hl.
Qed.

Section identity.
Context (I1 I2 : MapIter) (L1 : @MapIterLaws I1) (L2 : @MapIterLaws I2).

Lemma sized_rows (I : MapIter) (L : @MapIterLaws I) m :
  companions_sized m -> Forall (fun kv => sized kv.1 /\ sized kv.2) (sort_by row_cmp (map_iter m)).
Proof.
  intros [_ Hm]. apply Forall_forall. intros [k v] Hkv.
  rewrite elem_of_sort_by, (@map_iter_perm I L), elem_of_map_to_list in Hkv. by apply Hm in Hkv.
Qed.

(** The bytes hashed into a cache key identify the companions: two maps,
    iterated in any order, hash the same input exactly when they are equal. *)
Theorem companions_preimage_identity (m n : Metadata) :
  companions_sized m -> companions_sized n ->
  @companions_preimage I1 m = @companions_preimage I2 n <-> m = n.
Proof.
  intros Hm Hn. unfold companions_preimage. split.
  - intros H. apply app_inv_head, app_inv_head in H.
    apply app_inj_1 in H as [Hl H]; [|done].
    assert (Hlen : forall (I : MapIter) (L : @MapIterLaws I) (x : Metadata),
      length (sort_by row_cmp (map_iter x)) = size x).
    { intros I L x. by rewrite length_sort_by, (@map_iter_perm I L), length_map_to_list. }
    apply u64_to_le_bytes_inj in Hl.
    2,3: unfold in_u64, zlen; rewrite Hlen by done; destruct Hm, Hn; lia.
    apply companion_rows_inj in H; [|unfold zlen in Hl; lia | by apply sized_rows..].
    apply map_to_list_inj. rewrite <- (@map_iter_perm I1 L1), <- (@map_iter_perm I2 L2).
    by rewrite <- (sort_by_perm row_cmp), H, (sort_by_perm row_cmp).
  - intros <-. assert (E : sort_by row_cmp (@map_iter I1 _ _ _ _ m) = sort_by row_cmp (@map_iter I2 _ _ _ _ m)); [|by rewrite E].
    apply sort_by_unique; [apply _ | by rewrite (@map_iter_perm I1 L1), (@map_iter_perm I2 L2) |].
    intros x y _ _. apply row_cmp_Eq.
Qed.

End identity.

(** ** Truncation at character boundaries *)

(** An encoded scalar value: a lead byte and at most three continuation bytes. *)
Lemma utf8_char_shape c :
  is_scalar c ->
  exists b t, utf8_char c = b :: t /\ is_cont b = false /\ Forall (fun x => is_cont x = true) t /\
    (length t <= 3)%nat.
Proof.
  intros Hc. rewrite utf8_char_arith by (unfold is_scalar in Hc; lia). unfold is_scalar in Hc.
  repeat case_match; reflect_bool; eexists _, _; (split; [reflexivity|]);
    unfold is_cont, in_range; split_and!; try (cbn; lia); repeat constructor;
    rewrite ?andb_true_iff, ?andb_false_iff, ?Z.leb_le, ?Z.leb_gt; Z.div_mod_to_equations; lia.
Qed.

(** The character boundaries are the ends of the prefixes. *)
Lemma char_boundary_spec s i :
  Forall is_scalar s -> 0 <= i <= zlen (as_bytes s) ->
  is_char_boundary (as_bytes s) i = true <->
  exists j, (j <= length s)%nat /\ i = zlen (as_bytes (take j s)).
Proof.
  intros Hs. revert i. induction Hs as [|c s Hc Hs IH]; intros i Hi.
  { change (zlen (as_bytes [])) with 0 in Hi. assert (i = 0) as -> by lia.
    split; [|done]. exists 0%nat. split; [cbn; lia | done]. }
  rewrite as_bytes_cons in *. destruct (utf8_char_shape c Hc) as (b & t & Hb & Hlead & Hcont & _).
  set (w := length (utf8_char c)) in *. assert (Hw : w = S (length t)) by (unfold w; by rewrite Hb).
  unfold zlen in Hi. rewrite length_app in Hi. fold w in Hi.
  destruct (decide (i < Z.of_nat w)) as [Hlt|Hge].
  - transitivity (i = 0).
    + unfold is_char_boundary, zlen. rewrite length_app. fold w.
      rewrite lookup_app_l by (fold w; lia). rewrite Hb.
      destruct (decide (i = 0)) as [->|Hne]; [done|]. split; [|done].
      rewrite !orb_true_iff, !Z.eqb_eq. intros [[?|?]|Hx]; [done | lia |].
      exfalso. destruct (Z.to_nat i) as [|n] eqn:En; [lia|].
      change ((b :: t) !! S n) with (t !! n) in Hx.
      assert (Hn : (n < length t)%nat) by lia.
      apply lookup_lt_is_Some in Hn as [x Ht]. rewrite Ht in Hx.
      eapply Forall_lookup_1 in Hcont; [|done]. by rewrite Hcont in Hx.
    + split; [intros ->; exists 0%nat; split; [lia | done]|].
      intros (j & Hj & Hij). destruct j as [|j]; [done|]. cbn [take] in Hij.
      rewrite as_bytes_cons in Hij. unfold zlen in Hij. rewrite length_app in Hij. fold w in Hij. lia.
  - transitivity (is_char_boundary (as_bytes s) (i - Z.of_nat w) = true).
    + unfold is_char_boundary, zlen. rewrite length_app. fold w.
      rewrite lookup_app_r by (fold w; lia). fold w.
      replace (Z.to_nat i - w)%nat with (Z.to_nat (i - Z.of_nat w)) by lia.
      destruct s as [|c' s]; [cbn; rewrite !orb_true_iff, !Z.eqb_eq; cbn in Hi; lia|].
      rewrite as_bytes_cons. inversion Hs as [|? ? Hc' _]; subst.
      destruct (utf8_char_shape c' Hc') as (b' & t' & Hb' & Hlead' & _). rewrite Hb'.
      destruct (decide (i = Z.of_nat w)) as [->|Hne].
      * rewrite Z.sub_diag. change (((b' :: t') ++ as_bytes s) !! Z.to_nat 0) with (Some b').
        cbn match. rewrite Hlead'. cbn [negb]. by rewrite !orb_true_r.
      * rewrite !orb_true_iff, !Z.eqb_eq. rewrite length_app. intuition lia.
    + rewrite IH by (unfold zlen; lia). split; intros (j & Hj & Hij).
      * exists (S j). cbn [take length]. rewrite as_bytes_cons. unfold zlen in *. rewrite length_app. fold w. lia.
      * destruct j as [|j]; [change (i = 0) in Hij; lia|]. exists j. cbn [take length] in *.
        rewrite as_bytes_cons in Hij. unfold zlen in *. rewrite length_app in Hij. fold w in Hij. lia.
Qed.

(** The loop stops at the last boundary not above its start. *)
Lemma boundary_below_spec s e :
  is_char_boundary s (Z.of_nat (boundary_below s e)) = true /\ (boundary_below s e <= e)%nat /\
  forall i, (boundary_below s e < i <= e)%nat -> is_char_boundary s (Z.of_nat i) = false.
Proof.
  induction e as [|e (IH1 & IH2 & IH3)]; cbn [boundary_below]; [split_and!; (done || lia)|].
  destruct (is_char_boundary s (Z.of_nat (S e))) eqn:E; cbn [negb]; [split_and!; (done || lia)|].
  split_and!; [done | lia |]. intros i Hi. destruct (decide (i = S e)) as [->|]; [done|]. apply IH3. lia.
Qed.

(** Truncation keeps the longest prefix of whole characters that fits. *)
Lemma truncate_spec s n :
  Forall is_scalar s -> 0 <= n ->
  exists j, truncate_to_char_boundary (as_bytes s) n = as_bytes (take j s) /\
    zlen (as_bytes (take j s)) <= n /\
    ((j < length s)%nat -> n < zlen (as_bytes (take (S j) s))).
Proof.
  intros Hs Hn. unfold truncate_to_char_boundary.
  destruct (Z.leb_spec (zlen (as_bytes s)) n) as [Hle|Hgt].
  { exists (length s). rewrite firstn_all. split_and!; [done | done | lia]. }
  destruct (boundary_below_spec (as_bytes s) (Z.to_nat n)) as (H1 & H2 & H3).
  set (e := boundary_below (as_bytes s) (Z.to_nat n)) in *.
  apply char_boundary_spec in H1 as (j & Hj & He); [|done | lia]. exists j.
  assert (Hsplit : as_bytes s = as_bytes (take j s) ++ as_bytes (drop j s)).
  { by rewrite <- as_bytes_app, take_drop. }
  split_and!; [| lia |].
  - rewrite Hsplit. apply take_app_length'. unfold zlen in He. lia.
  - intros Hlt. apply Z.nle_gt. intros Hle.
    destruct (lookup_lt_is_Some_2 s j Hlt) as [c Hc].
    assert (Hw : zlen (as_bytes (take j s)) < zlen (as_bytes (take (S j) s))).
    { rewrite (take_S_r _ _ _ Hc), as_bytes_app. unfold zlen. rewrite length_app.
      cbn. rewrite app_nil_r. pose proof (utf8_char_length c). lia. }
    specialize (H3 (Z.to_nat (zlen (as_bytes (take (S j) s)))) ltac:(unfold zlen in *; lia)).
    apply not_true_iff_false in H3. apply H3.
    assert (zlen (as_bytes (take (S j) s)) <= zlen (as_bytes s)) by lia.
    rewrite Z2Nat.id by (unfold zlen; lia).
    apply char_boundary_spec; [done | unfold zlen in *; lia | exists (S j); split; [lia | done]].
Qed.

(** ** Retained metadata *)

Lemma collect_snoc l kv : collect (l ++ [kv]) = <[kv.1 := kv.2]> (collect l).
Proof. unfold collect. by rewrite foldl_app. Qed.

Lemma collect_size l : (size (collect l) <= length l)%nat.
Proof.
  induction l as [|kv l IH] using rev_ind; [done|]. rewrite collect_snoc, length_app.
  rewrite map_size_insert. case_match; cbn; lia.
Qed.

Lemma collect_elem l k v : collect l !! k = Some v -> (k, v) ∈ l.
Proof.
  induction l as [|[k' v'] l IH] using rev_ind; [by change (collect []) with (∅ : Metadata); rewrite lookup_empty|].
  rewrite collect_snoc, elem_of_app. cbn [fst snd].
  intros [[-> ->]|[_ H]]%lookup_insert_Some; [right; by left | auto].
Qed.

Lemma collect_lookup l k v :
  (k, v) ∈ l -> (forall v', (k, v') ∈ l -> v' = v) -> collect l !! k = Some v.
Proof.
  induction l as [|[k' v'] l IH] using rev_ind; [by intros ?%elem_of_nil|].
  intros Hin Hu. rewrite collect_snoc. cbn [fst snd]. destruct (decide (k' = k)) as [->|Hne].
  - rewrite lookup_insert_eq. f_equal. apply Hu, elem_of_app. right; by left.
  - rewrite lookup_insert_ne by done. apply IH.
    + apply elem_of_app in Hin as [?|[= <- <-]%list_elem_of_singleton]; done.
    + intros v2 Hv2. apply Hu, elem_of_app. by left.
Qed.

Lemma metadata_cmp_laws : CmpLaws metadata_cmp.
Proof.
  apply cmp_then_laws; [apply (cmp_on_laws (fun a => metadata_priority_rank a.1) Z.compare)
    | apply (cmp_on_laws fst str_cmp)]; apply _.
Qed.

#[local] Existing Instance metadata_cmp_laws.

Lemma position_lt k l : position k l = None \/ exists n, position k l = Some n /\ 0 <= n < zlen l.
Proof.
  induction l as [|x l IH]; cbn; [by left|]. case_bool_decide; [right; exists 0; unfold zlen; cbn; split; [done|lia]|].
  destruct IH as [->|(n & -> & Hn)]; [by left|]. right. exists (Z.succ n). unfold zlen in *; cbn. split; [done|lia].
Qed.

Lemma position_elem k l : k ∈ l <-> position k l <> None.
Proof.
  induction l as [|x l IH]; cbn; [by rewrite elem_of_nil|]. rewrite elem_of_cons.
  case_bool_decide as Hx; [by split; [|left]|]. rewrite IH. destruct (position k l); cbn; naive_solver.
Qed.

Lemma priority_rank_lt k :
  k ∈ PRIORITY_METADATA_KEYS <-> metadata_priority_rank k < zlen PRIORITY_METADATA_KEYS.
Proof.
  rewrite position_elem. unfold metadata_priority_rank.
  destruct (position_lt k PRIORITY_METADATA_KEYS) as [->|(n & -> & Hn)]; [split; [done|lia]|].
  split; [lia|done].
Qed.

Definition utf8 (b : bytes) : Prop := exists s, Forall is_scalar s /\ b = as_bytes s.
Definition utf8_map (m : Metadata) : Prop := map_Forall (fun k v => utf8 k /\ utf8 v) m.

Lemma truncate_len b n : utf8 b -> 0 <= n -> zlen (truncate_to_char_boundary b n) <= n.
Proof. intros (s & Hs & ->) Hn. by destruct (truncate_spec s n Hs Hn) as (j & -> & ? & _). Qed.

(** Only a string that fits is cut to something much shorter than the limit. *)
Lemma truncate_short b n :
  utf8 b -> 0 <= n -> zlen (truncate_to_char_boundary b n) < n - 3 -> truncate_to_char_boundary b n = b.
Proof.
  intros (s & Hs & ->) Hn. destruct (truncate_spec s n Hs Hn) as (j & -> & _ & Hj). intros Hlt.
  destruct (decide (j < length s)%nat) as [Hl|]; [|by rewrite take_ge by lia].
  specialize (Hj Hl). destruct (lookup_lt_is_Some_2 s j Hl) as [c Hc].
  rewrite (take_S_r _ _ _ Hc), as_bytes_app in Hj. unfold zlen in *. rewrite length_app in Hj.
  cbn in Hj. rewrite app_nil_r in Hj.
  destruct (utf8_char_shape c) as (b & t & Hb & _ & _ & Ht); [by eapply Forall_lookup_1|].
  rewrite Hb in Hj; cbn in Hj. lia.
Qed.

Section sanitize.
Context (I : MapIter) (L : @MapIterLaws I).
Context (m : Metadata) (Hutf8 : utf8_map m).

Let sorted := sort_by metadata_cmp (map_iter m).

Lemma sorted_elem k v : (k, v) ∈ sorted <-> m !! k = Some v.
Proof. unfold sorted. by rewrite elem_of_sort_by, (@map_iter_perm I L), elem_of_map_to_list. Qed.

Lemma sorted_nodup : NoDup sorted.*1.
Proof.
  unfold sorted. rewrite (sort_by_perm metadata_cmp), (@map_iter_perm I L). apply NoDup_fst_map_to_list.
Qed.

(** A priority key is among the entries that are kept. *)
Lemma priority_kept k v :
  k ∈ PRIORITY_METADATA_KEYS -> m !! k = Some v -> (k, v) ∈ take MAX_METADATA_ENTRIES sorted.
Proof.
  intros Hp Hk. apply sorted_elem in Hk. rewrite <- (take_drop MAX_METADATA_ENTRIES sorted) in Hk.
  apply elem_of_app in Hk as [|Hk]; [done|]. exfalso.
  assert (Hs : StronglySorted (fun a b => metadata_cmp a b <> Gt) sorted) by apply sort_by_sorted, _.
  rewrite <- (take_drop MAX_METADATA_ENTRIES sorted) in Hs.
  assert (Hlen : length (take MAX_METADATA_ENTRIES sorted) = 16%nat).
  { apply length_take_le. apply Nat.lt_le_incl, not_le. intros Hle.
    rewrite drop_ge in Hk by done. by apply elem_of_nil in Hk. }
  assert (Hsub : (take MAX_METADATA_ENTRIES sorted).*1 ⊆ PRIORITY_METADATA_KEYS).
  { intros x Hx. apply list_elem_of_fmap in Hx as ([k' v'] & -> & Hx).
    assert (Hc : metadata_cmp (k', v') (k, v) <> Gt).
    { by eapply StronglySorted_app_1_elem_of in Hs. }
    apply priority_rank_lt. apply priority_rank_lt in Hp. cbn. unfold metadata_cmp in Hc; cbn [fst snd] in Hc.
    destruct (Z.compare_spec (metadata_priority_rank k') (metadata_priority_rank k)); cbn in Hc; lia || done. }
  assert (Hnd : NoDup (take MAX_METADATA_ENTRIES sorted).*1).
  { rewrite fmap_take. eapply sublist_NoDup; [apply sorted_nodup | apply sublist_take]. }
  apply NoDup_submseteq in Hsub; [|done]. apply submseteq_length in Hsub.
  rewrite length_fmap, Hlen in Hsub. cbn in Hsub. lia.
Qed.

Lemma kept_entry k v :
  sanitize_metadata m !! k = Some v ->
  exists k0 v0, m !! k0 = Some v0 /\ k = truncate_to_char_boundary k0 MAX_METADATA_KEY_BYTES /\
    v = truncate_to_char_boundary v0 MAX_METADATA_VALUE_BYTES.
Proof.
  intros H. apply collect_elem, list_elem_of_fmap in H as ([k0 v0] & [= -> ->] & Hin).
  exists k0, v0. split; [|done]. apply sorted_elem. eapply elem_of_sublist, sublist_take; exact Hin.
Qed.

Lemma priority_survives k v :
  k ∈ PRIORITY_METADATA_KEYS -> m !! k = Some v ->
  sanitize_metadata m !! k = Some (truncate_to_char_boundary v MAX_METADATA_VALUE_BYTES).
Proof.
  intros Hp Hk.
  assert (Hshort : zlen k < MAX_METADATA_KEY_BYTES - 3).
  { clear -Hp. unfold PRIORITY_METADATA_KEYS in Hp.
    repeat (apply elem_of_cons in Hp as [->|Hp]; [done|]). by apply elem_of_nil in Hp. }
  apply collect_lookup.
  - apply list_elem_of_fmap. exists (k, v). split; [|by apply priority_kept]. cbn.
    unfold truncate_to_char_boundary at 2. by rewrite (proj2 (Z.leb_le _ _)) by (unfold MAX_METADATA_KEY_BYTES in *; lia).
  - intros v' Hv'. apply list_elem_of_fmap in Hv' as ([k0 v0] & [= Hk0 ->] & Hin).
    assert (Hm0 : m !! k0 = Some v0) by (apply sorted_elem; eapply elem_of_sublist, sublist_take; exact Hin).
    assert (k0 = k) as ->; [|congruence].
    symmetry. rewrite Hk0 at 1. apply truncate_short; [by apply Hutf8 in Hm0 as [] | done | by rewrite <- Hk0].
Qed.

End sanitize.

(** What is kept with an outcome is bounded and determined by the metadata
    alone: at most 16 entries, keys of at most 64 and values of at most 256
    bytes, the same ones for every iteration order, and an identity field is
    never dropped for other entries. *)
Theorem sanitized_metadata (I1 I2 : MapIter) (L1 : @MapIterLaws I1) (L2 : @MapIterLaws I2) (m : Metadata) :
  utf8_map m ->
  (size (@sanitize_metadata I1 m) <= 16)%nat /\
  map_Forall (fun k v => zlen k <= 64 /\ zlen v <= 256) (@sanitize_metadata I1 m) /\
  (forall k v, k ∈ PRIORITY_METADATA_KEYS -> m !! k = Some v ->
     @sanitize_metadata I1 m !! k = Some (truncate_to_char_boundary v 256)) /\
  @sanitize_metadata I1 m = @sanitize_metadata I2 m.
Proof.
  intros Hu. split_and!.
  - unfold sanitize_metadata. etrans; [apply collect_size|]. rewrite length_fmap, length_take.
    unfold MAX_METADATA_ENTRIES. lia.
  - intros k v (k0 & v0 & Hm & -> & ->)%(kept_entry I1 L1). apply Hu in Hm as [Hk Hv].
    by split; apply truncate_len.
  - intros k v. by apply priority_survives.
  - unfold sanitize_metadata. do 3 f_equal. apply sort_by_unique;
      [apply _ | by rewrite (@map_iter_perm I1 L1), (@map_iter_perm I2 L2) |].
    intros [k v] [k' v'] Hx Hy Hc.
    rewrite (@map_iter_perm I1 L1), elem_of_map_to_list in Hx, Hy.
    unfold metadata_cmp in Hc. apply then_with_Eq in Hc as [_ Hc]. apply (cmp_eq str_cmp) in Hc. cbn in Hc.
    congruence.
Qed.

(** ** Eviction by age *)

Section by_age.
Context {I : MapIter} {S : SelectNth} {L : MapIterLaws} {SL : SelectNthLaws}.
Context {K V : Type} `{Countable K}.
Implicit Types m : gmap K V.

Lemma foldl_delete_lookup (l : list (K * Z)) m k :
  foldl (fun c kv => delete kv.1 c) m l !! k = if decide (k ∈ l.*1) then None else m !! k.
Proof.
  revert m; induction l as [|[k' z] l IH]; intros m; cbn [foldl fmap list_fmap fst].
  { by rewrite decide_False by apply not_elem_of_nil. }
  rewrite IH. destruct (decide (k ∈ l.*1)) as [Hin|Hin].
  { by rewrite decide_True by (by right). }
  destruct (decide (k = k')) as [->|Hne].
  - by rewrite decide_True, lookup_delete_eq by (by left).
  - rewrite decide_False by (by rewrite not_elem_of_cons). by rewrite lookup_delete_ne.
Qed.

Lemma foldl_delete_size (l : list (K * Z)) m :
  NoDup l.*1 -> (forall k, k ∈ l.*1 -> is_Some (m !! k)) ->
  (size (foldl (fun c kv => delete kv.1 c) m l) + length l = size m)%nat.
Proof.
  revert m; induction l as [|[k z] l IH]; intros m Hnd Hin; cbn [foldl fmap list_fmap length fst] in *; [lia|].
  apply NoDup_cons in Hnd as [Hk Hnd]. rewrite <- plus_n_Sm, IH; [|done|].
  - pose proof (Hin k ltac:(by left)) as Hs. rewrite map_size_delete_Some by done.
    pose proof (map_size_ne_0_lookup_2 m k Hs). lia.
  - intros k' Hk'. rewrite lookup_delete_ne by (by intros <-). apply Hin. by right.
Qed.

(** The entries removed are among the oldest, and as many as asked for. *)
Lemma evict_oldest_spec (count : Z) (age_of : V -> Z) m :
  0 <= count ->
  let m' := evict_oldest_dashmap_entries count age_of m in
  m' ⊆ m /\ Z.of_nat (size m') = Z.max 0 (Z.of_nat (size m) - count) /\
  forall k1 v1 k2 v2, m !! k1 = Some v1 -> m' !! k1 = None -> m' !! k2 = Some v2 ->
    age_of v1 <= age_of v2.
Proof using L SL.
  intros Hc. unfold evict_oldest_dashmap_entries.
  destruct (Z.eqb_spec count 0) as [->|Hne].
  { split_and!; [done | lia | intros; congruence]. }
  set (by_age := (fun kv => (kv.1, age_of kv.2)) <$> map_iter m).
  assert (Hb : forall k z, (k, z) ∈ by_age <-> exists v, m !! k = Some v /\ z = age_of v).
  { intros k z. unfold by_age. rewrite list_elem_of_fmap. split.
    - intros ([k' v] & [= -> ->] & Hin). exists v. split; [|done].
      by rewrite map_iter_perm, elem_of_map_to_list in Hin.
    - intros (v & Hk & ->). exists (k, v). split; [done|]. by rewrite map_iter_perm, elem_of_map_to_list. }
  assert (Hlen : length by_age = size m).
  { unfold by_age. by rewrite length_fmap, map_iter_perm, length_map_to_list. }
  assert (Hnd : NoDup by_age.*1).
  { unfold by_age. rewrite <- list_fmap_compose.
    change (NoDup (fst <$> map_iter m)). rewrite map_iter_perm. apply NoDup_fst_map_to_list. }
  set (victims := if count <? zlen by_age then _ else _).
  assert (Hv : exists rest, by_age ≡ₚ victims ++ rest /\
    Z.of_nat (length victims) = Z.min count (Z.of_nat (size m)) /\
    forall x y, x ∈ victims -> y ∈ rest -> x.2 <= y.2).
  { unfold victims, zlen. destruct (Z.ltb_spec count (Z.of_nat (length by_age))) as [Hlt|].
    - pose proof (select_nth_perm _ (Z.to_nat count) snd by_age) as Hp.
      exists (drop (Z.to_nat count) (select_nth (Z.to_nat count) snd by_age)).
      rewrite take_drop. split_and!; [done | | by intros; eapply select_nth_order].
      rewrite length_take, Hp. lia.
    - exists []. rewrite app_nil_r. split_and!; [done | lia | by intros x y _ ?%elem_of_nil]. }
  clearbody victims. destruct Hv as (rest & Hp & Hvl & Hord).
  assert (Hvk : forall k, k ∈ victims.*1 -> is_Some (m !! k)).
  { intros k ([k' z] & -> & Hin)%list_elem_of_fmap.
    destruct (proj1 (Hb k' z)) as (v & Hk & _); [rewrite Hp, elem_of_app; by left | by exists v]. }
  rewrite Hp, fmap_app in Hnd. apply NoDup_app in Hnd as (Hnd & Hdis & _).
  split_and!.
  - apply map_subseteq_spec. intros k v. rewrite foldl_delete_lookup. by case_decide.
  - pose proof (foldl_delete_size victims m Hnd Hvk). lia.
  - intros k1 v1 k2 v2 Hk1. rewrite !foldl_delete_lookup. case_decide as H1; [|congruence].
    intros _. case_decide as H2; [done|]. intros Hk2.
    apply list_elem_of_fmap in H1 as ([k1' z1] & -> & Hin1). cbn in Hk1.
    destruct (proj1 (Hb k1' z1)) as (v1' & Hv1 & ->); [rewrite Hp, elem_of_app; by left|].
    assert (v1' = v1) as -> by congruence.
    assert (Hin2 : (k2, age_of v2) ∈ victims ++ rest) by (rewrite <- Hp; apply Hb; eauto).
    apply elem_of_app in Hin2 as [Hin2|Hin2].
    + exfalso. apply H2, list_elem_of_fmap. by exists (k2, age_of v2).
    + exact (Hord _ _ Hin1 Hin2).
Qed.

End by_age.

Section dns_cache.
Context {I : MapIter} {S : SelectNth} {L : MapIterLaws} {SL : SelectNthLaws}.
Context {SocketAddr IoError : Type}.

Implicit Types c : gmap str (Z * list SocketAddr).

Lemma make_room c :
  Z.of_nat (size c) <= DNS_CACHE_MAX_ENTRIES ->
  let c1 := if DNS_CACHE_MAX_ENTRIES <=? Z.of_nat (size c)
            then evict_oldest_dashmap_entries (oldest_eviction_batch DNS_CACHE_MAX_ENTRIES) fst c else c in
  Z.of_nat (size c1) < DNS_CACHE_MAX_ENTRIES /\
  forall k1 v1 k2 v2, c !! k1 = Some v1 -> c1 !! k1 = None -> c1 !! k2 = Some v2 -> v1.1 <= v2.1.
Proof using L SL.
  intros Hsz c1. unfold c1.
  destruct (Z.leb_spec DNS_CACHE_MAX_ENTRIES (Z.of_nat (size c))) as [Hge|]; [|split; [lia | intros; congruence]].
  destruct (evict_oldest_spec (oldest_eviction_batch DNS_CACHE_MAX_ENTRIES) fst c) as (_ & -> & Ho); [done|].
  split; [|done]. change (oldest_eviction_batch DNS_CACHE_MAX_ENTRIES) with 512.
  unfold DNS_CACHE_MAX_ENTRIES in *. lia.
Qed.

Lemma resolve_and_insert_spec now_insert (lookup : result (list SocketAddr) IoError) host c r c' :
  Z.of_nat (size c) <= DNS_CACHE_MAX_ENTRIES -> c !! host = None ->
  resolve_and_insert now_insert lookup host c = (r, c') ->
  Z.of_nat (size c') <= DNS_CACHE_MAX_ENTRIES /\ r = lookup /\
  (forall t addrs, c' !! host = Some (t, addrs) -> t = now_insert /\ lookup = Ok addrs /\ addrs <> []) /\
  (forall k1 v1 k2 v2, k1 <> host -> k2 <> host ->
     c !! k1 = Some v1 -> c' !! k1 = None -> c' !! k2 = Some v2 -> v1.1 <= v2.1).
Proof using L SL.
  intros Hsz Hh. unfold resolve_and_insert. destruct lookup as [addrs|e].
  2: { intros [= <- <-]. split_and!; [done | done | intros; congruence..]. }
  case_bool_decide as Ha.
  { intros [= <- <-]. split_and!; [done | done | intros; congruence..]. }
  destruct (make_room c Hsz) as [Hs1 Ho1]. cbv zeta in Hs1, Ho1.
  set (c1 := if _ <=? _ then _ else c) in *. clearbody c1. intros [= <- <-].
  split_and!; [rewrite map_size_insert; case_match; unfold id; lia | done | |].
  - intros t addrs'. rewrite lookup_insert_eq. by intros [= <- <-].
  - intros k1 v1 k2 v2 H1 H2 Hk1. rewrite !lookup_insert_ne by done. by apply Ho1.
Qed.

(** The DNS cache is bounded in count and in age: a resolution never
    leaves more than 4096 entries, answers either what the resolver says now or
    a record inserted less than 60 seconds ago, remembers no failure and no
    empty answer, and makes room by dropping records no newer than any it
    keeps. *)
Theorem dns_cache_bounded now now_insert (lookup : result (list SocketAddr) IoError) host c r c' :
  Z.of_nat (size c) <= DNS_CACHE_MAX_ENTRIES ->
  resolve_dns_cached now now_insert lookup host c = (r, c') ->
  Z.of_nat (size c') <= DNS_CACHE_MAX_ENTRIES /\
  (r = lookup \/ exists t addrs, c !! host = Some (t, addrs) /\ now - t < DNS_CACHE_TTL /\ r = Ok addrs) /\
  (forall t addrs, c' !! host = Some (t, addrs) ->
     c !! host = Some (t, addrs) \/ t = now_insert /\ lookup = Ok addrs /\ addrs <> []) /\
  (forall k1 v1 k2 v2, k1 <> host -> k2 <> host ->
     c !! k1 = Some v1 -> c' !! k1 = None -> c' !! k2 = Some v2 -> v1.1 <= v2.1).
Proof using L SL.
  intros Hsz. unfold resolve_dns_cached. destruct (c !! host) as [[t addrs]|] eqn:Hh.
  - destruct (Z.ltb_spec (elapsed now t) DNS_CACHE_TTL) as [Hlt|].
    + intros [= <- <-]. split_and!; [done | | intros; left; congruence | intros; congruence].
      right. exists t, addrs. split_and!; [done | | done]. unfold elapsed, saturating_sub in Hlt. lia.
    + intros Hm. apply resolve_and_insert_spec in Hm as (? & ? & Hn & Ho); [| |apply lookup_delete_eq].
      * split_and!; [done | by left | intros; right; by apply Hn |].
        intros k1 v1 k2 v2 Hk1 Hk2 Hl. apply Ho; [done..|]. by rewrite lookup_delete_ne.
      * rewrite map_size_delete. case_match; cbn; lia.
  - intros Hm. apply resolve_and_insert_spec in Hm as (? & ? & Hn & Ho); [|done..].
    split_and!; [done | by left | intros; right; by apply Hn | done].
Qed.

End dns_cache.

(** ** A concrete instance *)

#[local] Instance list_iter : MapIter := fun _ _ _ _ m => map_to_list m.
#[local] Instance list_iter_laws : MapIterLaws.
Proof. by intros ??? ? m. Qed.

#[local] Instance sort_select : SelectNth := fun A _ f l => sort_by (fun a b => f a ?= f b) l.
#[local] Instance sort_select_laws : SelectNthLaws.
Proof.
  split; [intros; apply sort_by_perm|]. intros A n f l x y Hx Hy.
  assert (Hl : CmpLaws (fun a b : A => f a ?= f b)) by (apply (cmp_on_laws f Z.compare); apply _).
  pose proof (sort_by_sorted (fun a b => f a ?= f b) l) as Hs.
  unfold select_nth, sort_select in *. rewrite <- (take_drop n (sort_by _ l)) in Hs.
  eapply StronglySorted_app_1_elem_of in Hs; [|done..]. exact Hs.
Qed.

#[local] Instance plain_sha : Sha256Fn := fun b => b.
#[local] Instance unix_clock : Clock := {| instant_min := 0; instant_max := 2 ^ 63 * 1000000000 - 1 |}.





Definition sample_history : list cache_op :=
  [ OpPut 1 1 $"a" $"d" ∅ Live ∅; OpPut 2 2 $"b" $"d" ∅ Dead ∅; OpGet 3 $"a" $"d" ∅; OpEvictExpired 4 ].

Lemma cache_history_bounded_witness :
  is_Some (cache_run sample_history (with_max_entries 100 1)) /\
  (forall c, cache_run sample_history (with_max_entries 100 1) = Some c -> cache_len c <= 1).
Proof.
  destruct (cache_history_bounded 100 1 sample_history) as [Hi Hb]; [by_decision | by_decision |].
  split; [apply Hi; unfold sample_history; rewrite !Forall_cons, Forall_nil; cbn [op_fits]; by_decision | intros c Hc; exact (proj1 (Hb c Hc))].
Defined.

Lemma enforce_bound_terminates_witness :
  exists c', enforce_max_entries_bound
    (mkCache {[ mkIdentity [] [] [] := written_entry 1 Live ∅ (with_max_entries 100 1) ]} 0 0 100 0 []) = Some c' /\
    cache_len c' <= 0.
Proof.
  destruct (enforce_bound_terminates
    (mkCache {[ mkIdentity [] [] [] := written_entry 1 Live ∅ (with_max_entries 100 1) ]} 0 0 100 0 []))
    as (c' & Hc & Hl & _); [by_decision | exact (ex_intro _ c' (conj Hc Hl))].
Defined.
