(* ===== verification/DomainPolicy.v ===== *)
(** * Domain policy of verification requests
    ([crates/core/src/verification_domain.rs],
    [crates/verifier/src/domain_allowlist.rs])

    Which hosts a verification request may reach: normalization of allowlist
    entries, the exact-only rule for suffixes shared by many tenants, and the
    check of a URL against a detector's allowlist.  The URL parser and Unicode
    case mapping are parameters; the bundled lists (shared-tenant suffixes and
    service domains) are the data of the policy. *)

From S2P Require Import Prelude Utf8.

(** ** Parameters *)

(** [char::is_uppercase] and [str::to_lowercase]. *)
Class UnicodeCase := {
  is_uppercase : Z -> bool;
  to_lowercase : str -> str }.

(** The [url] crate: a parsed host and URL, and their parsers. *)
Inductive UrlHost := Domain (d : str) | Ipv4 (display : str) | Ipv6 (display : str).

Record ParsedUrl := {
  scheme : str; username : str; password : option str; port : option Z; path : str;
  query : option str; fragment : option str; host : option UrlHost; host_str : option str }.

Class UrlCrate := {
  parse_url : str -> result ParsedUrl str;
  parse_host : str -> option UrlHost }.

(** The bundled policy files, parsed. *)
Class BundledPolicy := {
  shared_tenant_file : list str;
  services_file : list (str * list str) }.

(** ** Names *)

Definition is_dot (c : Z) : bool := c =? 46.

Definition trim_dots (s : str) : str := trim_end_matches is_dot s.

Definition valid_label (label : str) : bool :=
  negb (bool_decide (label = [])) && (str_len label <=? 63) && negb (starts_with $"-" label) &&
  negb (ends_with $"-" label) &&
  forallb (fun b => is_ascii_alphanumeric b || (b =? 45)) (as_bytes label).

Definition valid_dns_domain (domain : str) : bool :=
  (str_len domain <=? 253) && existsb is_dot domain && forallb valid_label (split_on 46 domain).

Definition host_is_subdomain_of_allowed (host allowed : str) : bool :=
  (str_len allowed <? str_len host) && ends_with allowed host &&
  match as_bytes host !! Z.to_nat (str_len host - str_len allowed - 1) with
  | Some b => b =? 46
  | None => false
  end.

Section policy.
Context `{UnicodeCase, UrlCrate, BundledPolicy}.

Definition lowercase_domain_if_needed (value : str) : str :=
  if existsb is_uppercase value then to_lowercase value else value.

Definition url_shaped_host (value : str) : option UrlHost :=
  match parse_url value with
  | Err _ => None
  | Ok url =>
      if negb (bool_decide (scheme url = $"http" \/ scheme url = $"https")) ||
         negb (bool_decide (username url = [])) ||
         bool_decide (is_Some (password url)) || bool_decide (is_Some (port url)) ||
         negb (bool_decide (path url = $"/")) ||
         bool_decide (is_Some (query url)) || bool_decide (is_Some (fragment url))
      then None else host url
  end.

Definition bare_host (value : str) : option UrlHost :=
  if existsb (fun c => (c =? 47) || (c =? 63) || (c =? 35) || (c =? 64) || (c =? 58)) value
  then None else parse_host value.

Definition normalize_allowlist_entry (raw : str) : option str :=
  let value := trim raw in
  if bool_decide (value = []) then None
  else
    match (if bool_decide (find_sub $"://" value <> None) then url_shaped_host value else bare_host value) with
    | None => None
    | Some (Ipv4 address) => Some address
    | Some (Ipv6 address) => Some address
    | Some (Domain d) =>
        let normalized := to_lowercase (trim_dots d) in
        if valid_dns_domain normalized then Some normalized else None
    end.

(** [validated_domain_entries]: panics on an empty list unless allowed, an
    invalid entry or a duplicate. *)
Fixpoint validate_entries (seen entries : list str) : outcome (list str) :=
  match entries with
  | [] => Ret []
  | entry :: rest =>
      match normalize_allowlist_entry entry with
      | None => Panic
      | Some normalized =>
          if bool_decide (normalized ∈ seen) then Panic
          else let! tail := validate_entries (normalized :: seen) rest in Ret (normalized :: tail)
      end
  end.

Definition validated_domain_entries (entries : list str) (allow_empty : bool) : outcome (list str) :=
  if negb (allow_empty || negb (bool_decide (entries = []))) then Panic
  else validate_entries [] entries.

(** The lazily initialised lists. *)
Definition EXACT_ONLY_SHARED_TENANT_SUFFIXES : outcome (list str) :=
  validated_domain_entries shared_tenant_file false.

Fixpoint validate_services (services : list (str * list str)) : outcome (list (str * list str)) :=
  match services with
  | [] => Ret []
  | (service, domains) :: rest =>
      let! domains := validated_domain_entries domains true in
      let! tail := validate_services rest in
      Ret ((service, domains) :: tail)
  end.

Definition builtin_service_domains : outcome (gmap str (list str)) :=
  if bool_decide (services_file = []) then Panic
  else let! services := validate_services services_file in Ret (list_to_map services).

Record VerifySpec := { service : str; allowed_domains : list str }.

Definition effective_allowlist (spec : VerifySpec) (detector_service : option str) :
    outcome (option (list str)) :=
  if negb (bool_decide (allowed_domains spec = [])) then
    Ret (mapM normalize_allowlist_entry (allowed_domains spec))
  else
    let service := if bool_decide (trim (service spec) = [])
                   then trim (default [] detector_service) else trim (service spec) in
    if bool_decide (service = []) then Ret None
    else let! services := builtin_service_domains in Ret (services !! service).

(** [Iterator::max_by_key]: the last of the maxima. *)
Definition max_by_len (l : list str) : option str :=
  foldl (fun best s => match best with
                       | Some b => if str_len s <? str_len b then best else Some s
                       | None => Some s
                       end) None l.

Definition shared_tenant_boundary (suffixes : list str) (domain : str) : option str :=
  max_by_len
    (List.filter (fun suffix => bool_decide (domain = suffix) || host_is_subdomain_of_allowed domain suffix)
                 suffixes).

(** One allowlist entry against a lowercased host; the shared-tenant list is
    forced only by an entry that matches. *)
Definition entry_allows (host entry : str) : outcome bool :=
  let allowed := trim_dots entry in
  if bool_decide (allowed = []) then Ret false
  else
    let allowed := lowercase_domain_if_needed allowed in
    if negb (bool_decide (host = allowed) || host_is_subdomain_of_allowed host allowed) then Ret false
    else
      let! suffixes := EXACT_ONLY_SHARED_TENANT_SUFFIXES in
      match shared_tenant_boundary suffixes host with
      | None => Ret true
      | Some boundary =>
          if bool_decide (allowed = boundary) then Ret (bool_decide (host = allowed))
          else Ret (bool_decide (allowed = host) ||
                    host_is_subdomain_of_allowed host allowed &&
                    (bool_decide (allowed = boundary) || host_is_subdomain_of_allowed allowed boundary))
      end.

(** [Iterator::any]. *)
Fixpoint any_allows (host : str) (allowlist : list str) : outcome bool :=
  match allowlist with
  | [] => Ret false
  | entry :: rest => let! b := entry_allows host entry in if b then Ret true else any_allows host rest
  end.

Definition host_is_allowed (host : str) (allowlist : list str) : outcome bool :=
  if bool_decide (host = []) || bool_decide (allowlist = []) then Ret false
  else any_allows (lowercase_domain_if_needed (trim_dots host)) allowlist.

(** ** The check of a URL *)

(** [join(", ")]. *)
Definition join_comma (l : list str) : str :=
  match l with
  | [] => []
  | x :: xs => foldl (fun acc s => acc ++ $", " ++ s) x xs
  end.

Definition check_url_against_spec (raw_url : str) (spec : VerifySpec) : outcome (result unit str) :=
  match parse_url raw_url with
  | Err e => Ret (Err ($"blocked: invalid verify URL: " ++ e))
  | Ok url =>
      match host_str url with
      | None => Ret (Err $"blocked: verify URL has no host")
      | Some host =>
          let! allowlist := effective_allowlist spec None in
          match allowlist with
          | None =>
              Ret (Err ($"blocked: detector service '" ++ service spec ++
                $"' has no domain allowlist (set verify.allowed_domains in the detector TOML)"))
          | Some allowlist =>
              let! allowed := host_is_allowed host allowlist in
              if negb allowed then
                Ret (Err ($"blocked: host '" ++ host ++ $"' is not in the allowlist for service '" ++
                  service spec ++ $"' (allowed: " ++ join_comma allowlist ++ $")"))
              else Ret (Ok tt)
          end
      end
  end.

End policy.

(** ** Subdomains *)

(** [h] is a name below [a]. *)
Definition under (h a : str) : Prop := exists p, h = p ++ 46 :: a.

Lemma utf8_char_last_dot c : last (utf8_char c) = Some 46 <-> c = 46.
Proof.
  split; [|by intros ->]. unfold utf8_char. rewrite !cont_byte. intros E.
  pose proof (Z.mod_pos_bound c 64 ltac:(lia)).
  repeat case_match; cbn in E; simplify_eq; lia.
Qed.

Lemma as_bytes_last_dot s : last (as_bytes s) = Some 46 <-> last s = Some 46.
Proof.
  destruct s as [|c s _] using rev_ind; [done|].
  rewrite as_bytes_app, last_snoc. change (as_bytes [c]) with (utf8_char c ++ []). rewrite app_nil_r.
  pose proof (utf8_char_length c) as Hc. rewrite last_app.
  destruct (last (utf8_char c)) as [b|] eqn:E.
  - rewrite <- E, utf8_char_last_dot. split; [by intros -> | by intros [= ->]].
  - apply last_None in E. rewrite E in Hc. cbn in Hc. lia.
Qed.

Lemma str_len_pos s : s <> [] -> 0 < str_len s.
Proof.
  destruct s as [|c s]; [done|]. intros _. unfold str_len, zlen.
  change (as_bytes (c :: s)) with (utf8_char c ++ as_bytes s). rewrite length_app.
  pose proof (utf8_char_length c). lia.
Qed.

(** The byte before the suffix is the last one of the part in front of it. *)
Lemma byte_before p a :
  as_bytes (p ++ a) !! Z.to_nat (str_len (p ++ a) - str_len a - 1) =
  if bool_decide (p = []) then as_bytes a !! 0%nat else last (as_bytes p).
Proof.
  rewrite as_bytes_app, str_len_app. case_bool_decide as Hp.
  { subst p. cbn [app as_bytes]. change (str_len []) with 0.
    by replace (Z.to_nat (0 + str_len a - str_len a - 1)) with 0%nat by lia. }
  pose proof (str_len_pos p Hp) as Hl.
  replace (str_len p + str_len a - str_len a - 1) with (str_len p - 1) by lia.
  unfold str_len, zlen in *. rewrite lookup_app_l by lia. rewrite last_lookup. f_equal. lia.
Qed.

Lemma subdomain_spec h a : host_is_subdomain_of_allowed h a = true <-> under h a.
Proof.
  unfold host_is_subdomain_of_allowed, under. rewrite !andb_true_iff, Z.ltb_lt, ends_with_spec. split.
  - intros [[Hl [p ->]] Hb]. rewrite byte_before in Hb. rewrite str_len_app in Hl.
    case_bool_decide as Hp; [subst p; change (str_len []) with 0 in Hl; lia|].
    destruct (last (as_bytes p)) as [b|] eqn:E; [|done]. apply Z.eqb_eq in Hb as ->.
    rewrite as_bytes_last_dot in E. apply last_Some in E as [p' ->]. exists p'. by rewrite <- app_assoc.
  - intros [p ->]. replace (p ++ 46 :: a) with ((p ++ [46]) ++ a) by (by rewrite <- app_assoc).
    rewrite byte_before, bool_decide_false by (by destruct p). split_and!; [|by eexists|].
    + rewrite str_len_app. pose proof (str_len_pos (p ++ [46]) ltac:(by destruct p)). lia.
    + by rewrite (proj2 (as_bytes_last_dot _)) by apply last_snoc.
Qed.

Lemma under_trans x y z : under x y -> under y z -> under x z.
Proof. intros [p ->] [q ->]. exists (p ++ 46 :: q). by rewrite <- app_assoc. Qed.

Lemma under_irrefl x : ~ under x x.
Proof. intros [p Hp]. apply (f_equal length) in Hp. rewrite length_app in Hp. cbn in Hp. lia. Qed.

(** [h] is [s] or below it. *)
Definition within (h s : str) : Prop := h = s \/ under h s.

(** Of two names around a host, the longer one is within the shorter. *)
Lemma within_nested h s b : within h s -> within h b -> str_len s <= str_len b -> within b s.
Proof.
  assert (Hsplit : forall x, within h x -> exists p, h = p ++ x /\ (p = [] \/ last p = Some 46)).
  { intros x [->|[p ->]]; [exists []; split; [done | by left]|].
    exists (p ++ [46]). rewrite <- app_assoc, last_snoc. split; [done | by right]. }
  intros (q & Hq & Hdot)%Hsplit (p & Hp & _)%Hsplit Hl. rewrite Hp in Hq.
  apply app_eq_inv in Hq as [(r & -> & Hs)|(r & -> & Hb)].
  - subst s. rewrite str_len_app in Hl. destruct r as [|c r]; [by left|].
    pose proof (str_len_pos (c :: r) ltac:(done)). lia.
  - subst b. destruct r as [|c r _] using rev_ind; [by left|]. right. exists r.
    rewrite <- app_assoc. destruct Hdot as [Hn|Hn]; [by destruct p, r|].
    rewrite app_assoc, last_snoc in Hn. by simplify_eq.
Qed.

(** ** The shared-tenant boundary *)

Lemma max_by_len_spec l :
  match max_by_len l with
  | None => l = []
  | Some b => b ∈ l /\ forall s, s ∈ l -> str_len s <= str_len b
  end.
Proof.
  unfold max_by_len. induction l as [|s l IH] using rev_ind; [done|]. rewrite foldl_app. cbn [foldl].
  destruct (foldl _ None l) as [b|].
  - destruct IH as [Hb Hmax]. destruct (Z.ltb_spec (str_len s) (str_len b)).
    + split; [apply elem_of_app; by left|]. intros s'. rewrite elem_of_app, list_elem_of_singleton.
      intros [?| ->]; [by apply Hmax | lia].
    + split; [apply elem_of_app; right; by left|]. intros s'. rewrite elem_of_app, list_elem_of_singleton.
      intros [Hs'| ->]; [specialize (Hmax _ Hs'); lia | lia].
  - subst l. split; [by left|]. by intros s' ->%list_elem_of_singleton.
Qed.

Lemma boundary_spec suffixes h :
  match shared_tenant_boundary suffixes h with
  | None => forall s, s ∈ suffixes -> ~ within h s
  | Some b => b ∈ suffixes /\ within h b /\ forall s, s ∈ suffixes -> within h s -> within b s
  end.
Proof.
  unfold shared_tenant_boundary.
  assert (Hf : forall s, s ∈ List.filter (fun suffix => bool_decide (h = suffix) ||
      host_is_subdomain_of_allowed h suffix) suffixes <-> s ∈ suffixes /\ within h s).
  { intros s. rewrite list_elem_of_In, filter_In, <- list_elem_of_In, orb_true_iff, bool_decide_eq_true, subdomain_spec.
    done. }
  pose proof (max_by_len_spec (List.filter (fun suffix => bool_decide (h = suffix) ||
      host_is_subdomain_of_allowed h suffix) suffixes)) as Hm.
  destruct (max_by_len _) as [b|].
  - destruct Hm as [Hb Hmax]. apply Hf in Hb as [Hb Hw]. split_and!; [done..|].
    intros s Hs Hws. eapply within_nested; [done..|]. apply Hmax, Hf. done.
  - intros s Hs Hw. assert (Hin : s ∈ @nil str) by (rewrite <- Hm; by apply Hf). by apply elem_of_nil in Hin.
Qed.

Section theorems.
Context `{UnicodeCase, UrlCrate, BundledPolicy}.

(** A name as the policy compares it. *)
Definition norm (s : str) : str := lowercase_domain_if_needed (trim_dots s).

(** What one allowlist entry admits: itself, and the names below it unless a
    suffix shared by tenants lies in between. *)
Definition admits (suffixes : list str) (entry h : str) : Prop :=
  trim_dots entry <> [] /\
  (h = norm entry \/ under h (norm entry) /\ forall s, s ∈ suffixes -> within h s -> under (norm entry) s).

Context (suffixes : list str) (Hlist : EXACT_ONLY_SHARED_TENANT_SUFFIXES = Ret suffixes).

Lemma entry_allows_spec h entry :
  exists b, entry_allows h entry = Ret b /\ (b = true <-> admits suffixes entry h).
Proof using Hlist.
  unfold entry_allows, admits. case_bool_decide as He; [by exists false; naive_solver|].
  fold (norm entry). set (a := norm entry). rewrite Hlist.
  destruct (bool_decide (h = a) || host_is_subdomain_of_allowed h a) eqn:Ho; cbn [negb].
  2: { exists false. split; [done|]. split; [done|]. intros [_ Hr]. apply not_true_iff_false in Ho.
       exfalso; apply Ho. rewrite orb_true_iff, bool_decide_eq_true, subdomain_spec. tauto. }
  rewrite orb_true_iff, bool_decide_eq_true, subdomain_spec in Ho.
  pose proof (boundary_spec suffixes h) as Hb. destruct (shared_tenant_boundary suffixes h) as [b|].
  - destruct Hb as (Hin & Hwb & Hmax).
    assert (Hiff : bool_decide (h = a) || host_is_subdomain_of_allowed a b = true <->
      h = a \/ under h a /\ forall s, s ∈ suffixes -> within h s -> under a s).
    { rewrite orb_true_iff, bool_decide_eq_true, subdomain_spec. split.
      - intros [?|Hab]; [by left|]. destruct Ho as [?|Hha]; [by left|]. right. split; [done|].
        intros s Hs Hws. destruct (Hmax s Hs Hws) as [<-|Hbs]; [done | by eapply under_trans].
      - intros [?|[_ Hall]]; [by left | right; by apply Hall]. }
    destruct (decide (a = b)) as [Hab|Hab].
    + rewrite bool_decide_true by done. eexists. split; [reflexivity|].
      rewrite bool_decide_eq_true. split; [intros Hh; split; [done | by left]|].
      intros [_ [?|[_ Hall]]]; [done|]. exfalso. apply (under_irrefl b). rewrite <- Hab at 1. by apply Hall.
    + rewrite (bool_decide_false (a = b)) by done. eexists. split; [reflexivity|].
      rewrite (bool_decide_ext (a = h) (h = a)) by done. cbn [orb].
      rewrite <- Hiff, !orb_true_iff, andb_true_iff, subdomain_spec, bool_decide_eq_true, subdomain_spec.
      naive_solver.
  - exists true. split; [done|]. split; [|done]. intros _. split; [done|].
    destruct Ho as [?|Hu]; [by left|]. right. split; [done|]. intros s Hs Hw. by destruct (Hb s Hs).
Qed.

Lemma any_allows_spec h l :
  exists b, any_allows h l = Ret b /\ (b = true <-> exists entry, entry ∈ l /\ admits suffixes entry h).
Proof using Hlist.
  induction l as [|e l (b & Hl & Hb)]; cbn [any_allows].
  { exists false. split; [done|]. split; [done|]. by intros (e & He%elem_of_nil & _). }
  destruct (entry_allows_spec h e) as (b1 & -> & Hb1). destruct b1.
  - exists true. split; [done|]. split; [|done]. intros _. exists e. split; [by left | by apply Hb1].
  - exists b. split; [done|]. rewrite Hb. split; intros (e' & He' & Ha).
    + exists e'. split; [by right | done].
    + apply elem_of_cons in He' as [->|]; [|by exists e']. by apply Hb1 in Ha.
Qed.

(** The decision on a host in full: with a readable bundled list it is
    always made, and the host is allowed exactly when some allowlist entry
    equals it, up to case and trailing dots, or contains it below a dot with no
    shared-tenant suffix at or below the entry in between. *)
Theorem host_is_allowed_iff (h : str) (allowlist : list str) :
  exists b, host_is_allowed h allowlist = Ret b /\
    (b = true <-> h <> [] /\ exists entry, entry ∈ allowlist /\ admits suffixes entry (norm h)).
Proof using Hlist.
  unfold host_is_allowed. destruct (bool_decide (h = []) || bool_decide (allowlist = [])) eqn:E.
  - exists false. split; [done|]. split; [done|].
    rewrite orb_true_iff, !bool_decide_eq_true in E. intros [Hh (e & He & _)].
    destruct E as [-> | ->]; [done | by apply elem_of_nil in He].
  - fold (norm h). destruct (any_allows_spec (norm h) allowlist) as (b & -> & Hb).
    exists b. split; [done|]. rewrite Hb. rewrite orb_false_iff, !bool_decide_eq_false in E. naive_solver.
Qed.

(** Where the allowlist of a URL check comes from. *)
Inductive allowlist_origin (spec : VerifySpec) (entry : str) : Prop :=
| FromDetector raw : raw ∈ allowed_domains spec -> normalize_allowlist_entry raw = Some entry ->
    allowlist_origin spec entry
| FromService services domains : allowed_domains spec = [] ->
    builtin_service_domains = Ret services -> services !! trim (service spec) = Some domains ->
    entry ∈ domains -> allowlist_origin spec entry.

Lemma mapM_elem {A B} (f : A -> option B) l k y :
  mapM f l = Some k -> y ∈ k -> exists x, x ∈ l /\ f x = Some y.
Proof using.
  intros Hm%mapM_Some Hy. apply list_elem_of_lookup in Hy as [i Hi].
  eapply Forall2_lookup_r in Hm as (x & Hx & Hf); [|done]. exists x. split; [|done].
  by eapply list_elem_of_lookup_2.
Qed.

Lemma effective_allowlist_origin spec l entry :
  effective_allowlist spec None = Ret (Some l) -> entry ∈ l -> allowlist_origin spec entry.
Proof using.
  unfold effective_allowlist. case_bool_decide as Hd; cbn [negb].
  - intros Hs He. cbv zeta in Hs. destruct (decide (trim (service spec) = [])) as [Ht|Ht].
    + by rewrite (bool_decide_true (trim (service spec) = [])) in Hs by done.
    + rewrite !(bool_decide_false (trim (service spec) = [])) in Hs by done.
      destruct builtin_service_domains as [services|] eqn:Eb; [|done]. injection Hs as Hs.
      by eapply FromService.
  - intros [= Hm] He. destruct (mapM_elem _ _ _ _ Hm He) as (raw & ? & ?). by eapply FromDetector.
Qed.

(** C28. A URL passes the check only toward a host its detector is entitled to:
    the URL parsed and has a host, and an entry of the detector's own domains,
    or of the bundled domains of its service when it declares none, admits that
    host under the shared-tenant rule. *)
Theorem accepted_url_confined (raw_url : str) (spec : VerifySpec) :
  check_url_against_spec raw_url spec = Ret (Ok tt) ->
  exists url h entry, parse_url raw_url = Ok url /\ host_str url = Some h /\
    allowlist_origin spec entry /\ admits suffixes entry (norm h).
Proof using Hlist.
  unfold check_url_against_spec. destruct (parse_url raw_url) as [url|] eqn:Eu; [|done].
  destruct (host_str url) as [h|] eqn:Eh; [|done].
  destruct (effective_allowlist spec None) as [[l|]|] eqn:El; [|done..].
  unfold host_is_allowed. destruct (bool_decide (h = []) || bool_decide (l = [])); [done|].
  fold (norm h). destruct (any_allows_spec (norm h) l) as (b & -> & Hb). destruct b; [|done]. intros _.
  destruct (proj1 Hb eq_refl) as (entry & Hin & Ha). exists url, h, entry.
  split_and!; [done.. | by eapply effective_allowlist_origin | done].
Qed.

End theorems.

(** ** A concrete instance *)

#[local] Instance ascii_case : UnicodeCase := {|
  is_uppercase := is_ascii_uppercase; to_lowercase := map to_ascii_lowercase |}.

(** A parser of bare hosts and of one URL. *)
#[local] Instance sample_urls : UrlCrate := {|
  parse_url s :=
    if bool_decide (s = $"https://Api.Acme.ON.aws/v1")
    then Ok {| scheme := $"https"; username := []; password := None; port := None; path := $"/v1";
               query := None; fragment := None; host := Some (Domain $"api.acme.on.aws");
               host_str := Some $"api.acme.on.aws" |}
    else Err $"relative URL without a base";
  parse_host s := Some (Domain s) |}.

(** The first suffixes of [rules/shared-tenant-suffixes.toml]. *)
#[local] Instance sample_policy_files : BundledPolicy := {|
  shared_tenant_file := [ $"atlassian.net"; $"auth0.com"; $"on.aws" ];
  services_file := [ ($"acme", [ $"on.aws" ]) ] |}.

Definition sample_suffixes : list str := [ $"atlassian.net"; $"auth0.com"; $"on.aws" ].

Lemma sample_suffixes_ok : EXACT_ONLY_SHARED_TENANT_SUFFIXES = Ret sample_suffixes.
Proof. by_eval. Qed.


Lemma accepted_url_confined_witness :
  exists url h entry, parse_url $"https://Api.Acme.ON.aws/v1" = Ok url /\ host_str url = Some h /\
    allowlist_origin {| service := []; allowed_domains := [ $"acme.on.aws" ] |} entry /\
    admits sample_suffixes entry (norm h).
Proof.
  apply (accepted_url_confined sample_suffixes sample_suffixes_ok $"https://Api.Acme.ON.aws/v1"
    {| service := []; allowed_domains := [ $"acme.on.aws" ] |}).
  by vm_compute.
Defined.
