(* ===== verification/Interpolate.v ===== *)
(** * Template interpolation of verification requests
    ([crates/verifier/src/interpolate.rs])

    Placeholders of URL, header and body templates are replaced by scanned,
    untrusted values in one pass.  Positions are counted in characters; the
    delimiters are ASCII, so they coincide with the byte positions of the code.
    Percent encoding is another crate's and enters as a parameter. *)

From S2P Require Import Prelude Finding.

(** [percent_encode(_, NON_ALPHANUMERIC)]. *)
Class PercentEncode := percent_encode : bytes -> str.

(** Its output is letters, digits and percent signs. *)
Definition encoded_char (c : Z) : bool := is_ascii_alphanumeric c || (c =? 37).

Class PercentEncodeLaws `{PercentEncode} : Prop :=
  percent_encode_chars : forall b, forallb encoded_char (percent_encode b) = true.

(** ** Values *)

Definition resolve_field (field credential : str) (companions : CompanionMap) : str :=
  if bool_decide (field = $"match") then credential
  else match strip_prefix $"companion." field with
       | Some name => default [] (companions !! name)
       | None => field
       end.

Definition url_encode `{PercentEncode} (s : str) : str := percent_encode (as_bytes s).

Definition oob_char (c : Z) : bool :=
  is_ascii_lowercase c || is_ascii_digit c || (c =? 46) || (c =? 45).

Fixpoint sanitize_oob_value (s : str) : str :=
  match s with
  | [] => []
  | c :: s' =>
      let lc := to_ascii_lowercase c in
      if is_ascii_lowercase lc || is_ascii_digit c || (lc =? 46) || (lc =? 45)
      then lc :: sanitize_oob_value s' else sanitize_oob_value s'
  end.

Definition raw_char (cp : Z) : bool :=
  negb ((cp <? 0x20) && negb (cp =? 0x09)) && negb (cp =? 0x7F) && negb (in_range 0x80 0x9F cp).

Definition sanitize_raw_value (s : str) : str := List.filter raw_char s.

Definition resolve_and_sanitize_field (field credential : str) (companions : CompanionMap) : str :=
  sanitize_raw_value (resolve_field field credential companions).

Definition MAX_TEMPLATE_TOKENS : nat := 1024.

Definition missing_companion_field (field : str) (companions : CompanionMap) : option str :=
  match strip_prefix $"companion." field with
  | Some name => if bool_decide (is_Some (companions !! name)) then None else Some name
  | None => None
  end.

(** The scan for references; [rest] is [template[search_from..]]. *)
Fixpoint scan_refs (budget : nat) (rest : str) (companions : CompanionMap) (missing : list str) : list str :=
  match budget with
  | O => missing
  | S budget' =>
      match find_sub $"{{companion." rest with
      | None => missing
      | Some offset =>
          let from_start := drop offset rest in
          match find_sub $"}}" from_start with
          | None => missing
          | Some end_offset =>
              let name := drop 12 (take end_offset from_start) in
              let missing := if negb (bool_decide (is_Some (companions !! name))) &&
                                negb (bool_decide (name ∈ missing))
                             then missing ++ [name] else missing in
              scan_refs budget' (drop (end_offset + 2) from_start) companions missing
          end
      end
  end.

Definition missing_companion_refs (template : str) (companions : CompanionMap) : list str :=
  scan_refs MAX_TEMPLATE_TOKENS template companions [].

(** ** Interpolation *)

Inductive InterpolationContext := CtxUrl | CtxHttpValue.

Definition OOB_COMPANION_URL : str := $"__keyhog_oob_url".
Definition OOB_COMPANION_HOST : str := $"__keyhog_oob_host".
Definition OOB_COMPANION_ID : str := $"__keyhog_oob_id".

Section interpolate.
Context `{PercentEncode}.

Definition interpolate_placeholder_value (value : str) (context : InterpolationContext) : str :=
  match context with
  | CtxUrl => url_encode value
  | CtxHttpValue => sanitize_raw_value value
  end.

Definition resolve_oob_url (companions : CompanionMap) : str :=
  let raw := default [] (companions !! OOB_COMPANION_URL) in
  match split_once $"://" raw with
  | Some (scheme, host) =>
      if forallb is_ascii_alphabetic scheme then scheme ++ $"://" ++ sanitize_oob_value host
      else sanitize_oob_value raw
  | None => sanitize_oob_value raw
  end.

Definition resolve_placeholder (inner credential : str) (companions : CompanionMap)
    (context : InterpolationContext) : option str :=
  let oob key := sanitize_oob_value (default [] (companions !! key)) in
  if bool_decide (inner = $"match") then Some (interpolate_placeholder_value credential context)
  else if bool_decide (inner = $"interactsh.url") then Some (resolve_oob_url companions)
  else if bool_decide (inner = $"interactsh.host" \/ inner = $"interactsh") then Some (oob OOB_COMPANION_HOST)
  else if bool_decide (inner = $"interactsh.id") then Some (oob OOB_COMPANION_ID)
  else (fun name => interpolate_placeholder_value (default [] (companions !! name)) context) <$>
       strip_prefix $"companion." inner.

(** The replacement loop; the text so far is [out]. *)
Fixpoint interpolate_loop (budget : nat) (out rest credential : str) (companions : CompanionMap)
    (context : InterpolationContext) : str :=
  match budget with
  | O => out ++ rest
  | S budget' =>
      match find_sub $"{{" rest with
      | None => out ++ rest
      | Some open =>
          let after_open := drop (open + 2) rest in
          match find_sub $"}}" after_open with
          | None => out ++ rest
          | Some close_rel =>
              let inner := take close_rel after_open in
              let value := match resolve_placeholder inner credential companions context with
                           | Some value => value
                           | None => $"{{" ++ inner ++ $"}}"
                           end in
              interpolate_loop budget' (out ++ take open rest ++ value)
                (drop (close_rel + 2) after_open) credential companions context
          end
      end
  end.

(** [str::matches(needle).count()] of a two-character needle: disjoint
    occurrences from the left. *)
Fixpoint count_open (skip : bool) (s : str) : nat :=
  match s with
  | [] => 0
  | c :: s' => if skip then count_open false s'
               else if starts_with $"{{" s then S (count_open true s') else count_open false s'
  end.

Definition interpolate_with_context (template credential : str) (companions : CompanionMap)
    (context : InterpolationContext) : str :=
  if bool_decide (template = $"{{match}}") then sanitize_raw_value credential
  else if starts_with $"{{companion." template && ends_with $"}}" template && (count_open false template =? 1)%nat
  then
    let name := drop 12 (take (length template - 2) template) in
    sanitize_raw_value (default [] (companions !! name))
  else interpolate_loop MAX_TEMPLATE_TOKENS [] template credential companions context.

Definition interpolate_url (template credential : str) (companions : CompanionMap) : str :=
  interpolate_with_context template credential companions CtxUrl.
Definition interpolate (template credential : str) (companions : CompanionMap) : str :=
  interpolate_url template credential companions.
Definition interpolate_http_value (template credential : str) (companions : CompanionMap) : str :=
  interpolate_with_context template credential companions CtxHttpValue.

End interpolate.

Definition companions_with_oob (base : CompanionMap) (minted_host minted_url minted_id : str) : CompanionMap :=
  <[OOB_COMPANION_ID := minted_id]>
    (<[OOB_COMPANION_URL := minted_url]> (<[OOB_COMPANION_HOST := minted_host]> base)).

(** ** Reference: a template as a list of segments *)

Inductive segment := Lit (text : str) | Tok (inner : str).

Definition segment_text (g : segment) : str :=
  match g with Lit t => t | Tok i => $"{{" ++ i ++ $"}}" end.

(** A template is one placeholder: the whole of it is replaced. *)
Definition whole_placeholder (template : str) : bool :=
  bool_decide (template = $"{{match}}") ||
  starts_with $"{{companion." template && ends_with $"}}" template && (count_open false template =? 1)%nat.

Fixpoint segments (budget : nat) (rest : str) : list segment :=
  match budget with
  | O => [Lit rest]
  | S budget' =>
      match find_sub $"{{" rest with
      | None => [Lit rest]
      | Some open =>
          let after_open := drop (open + 2) rest in
          match find_sub $"}}" after_open with
          | None => [Lit rest]
          | Some close_rel =>
              Lit (take open rest) :: Tok (take close_rel after_open) ::
              segments budget' (drop (close_rel + 2) after_open)
          end
      end
  end.

Section render.
Context `{PercentEncode}.

Definition segment_value (credential : str) (companions : CompanionMap) (context : InterpolationContext)
    (g : segment) : str :=
  match g with
  | Lit t => t
  | Tok i => default (segment_text (Tok i)) (resolve_placeholder i credential companions context)
  end.

Definition render (credential : str) (companions : CompanionMap) (context : InterpolationContext)
    (segs : list segment) : str := concat (segment_value credential companions context <$> segs).

Lemma interpolate_loop_render n out rest cred m ctx :
  interpolate_loop n out rest cred m ctx = out ++ render cred m ctx (segments n rest).
Proof.
  revert out rest; induction n as [|n IH]; intros out rest; cbn [interpolate_loop segments].
  { unfold render; cbn. by rewrite app_nil_r. }
  destruct (find_sub $"{{" rest) as [o|]; [|unfold render; cbn; by rewrite app_nil_r].
  destruct (find_sub $"}}" (drop (o + 2) rest)) as [c|]; [|unfold render; cbn; by rewrite app_nil_r].
  rewrite IH. unfold render. cbn [fmap list_fmap concat segment_value]. rewrite <- !app_assoc.
  by destruct (resolve_placeholder _ cred m ctx).
Qed.

Lemma interpolate_render template cred m ctx :
  whole_placeholder template = false ->
  interpolate_with_context template cred m ctx = render cred m ctx (segments MAX_TEMPLATE_TOKENS template).
Proof.
  unfold whole_placeholder, interpolate_with_context. intros [H1 H2]%orb_false_iff.
  rewrite H1, H2, interpolate_loop_render. reflexivity.
Qed.

End render.

(** The segments spell the template. *)
Lemma find_sub_split (needle s : str) i :
  find_sub needle s = Some i -> s = take i s ++ needle ++ drop (i + length needle) s.
Proof.
  intros (pre & post & -> & <-)%find_sub_Some.
  rewrite take_app_length. do 2 f_equal. rewrite (app_assoc pre needle).
  by rewrite drop_app_length' by (by rewrite length_app).
Qed.

Lemma segments_text n rest : concat (segment_text <$> segments n rest) = rest.
Proof.
  revert rest; induction n as [|n IH]; intros rest; cbn [segments]; [cbn; by rewrite app_nil_r|].
  destruct (find_sub $"{{" rest) as [o|] eqn:Ho; [|cbn; by rewrite app_nil_r].
  destruct (find_sub $"}}" (drop (o + 2) rest)) as [c|] eqn:Hc; [|cbn; by rewrite app_nil_r].
  cbn [fmap list_fmap concat segment_text]. rewrite IH.
  apply find_sub_split in Ho, Hc. change (length $"{{") with 2%nat in Ho. change (length $"}}") with 2%nat in Hc.
  rewrite Ho at 4. rewrite Hc at 3. by rewrite <- !app_assoc.
Qed.

(** [needle] occurs first in [s] between [pre] and [post]. *)
Definition first_split (needle s pre post : str) : Prop :=
  s = pre ++ needle ++ post /\ forall p q, s = p ++ needle ++ q -> (length pre <= length p)%nat.

Lemma find_sub_least (needle p q : str) : exists i, find_sub needle (p ++ needle ++ q) = Some i /\ (i <= length p)%nat.
Proof.
  induction p as [|c p (i & Hi & Hle)].
  - exists O. split; [|done]. rewrite app_nil_l. destruct (needle ++ q) eqn:E; cbn [find_sub]; by rewrite <- E, starts_with_app.
  - cbn [app find_sub]. destruct (starts_with needle _); [exists O; cbn; split; [done|lia]|].
    rewrite Hi. exists (S i). cbn. split; [done|lia].
Qed.

Lemma find_sub_first (needle s : str) i :
  find_sub needle s = Some i -> first_split needle s (take i s) (drop (i + length needle) s).
Proof.
  intros Hi. split; [by apply find_sub_split|]. intros p q Hs. pose proof (find_sub_bound _ _ _ Hi).
  destruct (find_sub_least needle p q) as (j & Hj & ?). rewrite <- Hs in Hj. rewrite length_take. assert (i = j) by congruence. lia.
Qed.

Lemma first_split_find (needle s pre post : str) : first_split needle s pre post -> find_sub needle s = Some (length pre).
Proof.
  intros [Hs Hmin]. destruct (find_sub_least needle pre post) as (i & Hi & Hle). rewrite <- Hs in Hi. rewrite Hi. f_equal.
  apply find_sub_Some in Hi as (p & q & Hp & <-). specialize (Hmin p q Hp). lia.
Qed.

(** The reading of a template from the left: literal text up to the first pair of
    opening braces, the placeholder up to the first closing pair after it, and so
    on until no placeholder is left. *)
Inductive reads : str -> list segment -> Prop :=
| reads_end rest : (forall p i q, rest <> p ++ $"{{" ++ i ++ $"}}" ++ q) -> reads rest [Lit rest]
| reads_token s lit after inner rest segs :
    first_split $"{{" s lit after -> first_split $"}}" after inner rest -> reads rest segs ->
    reads s (Lit lit :: Tok inner :: segs).

Lemma no_placeholder rest :
  (forall p i q, rest <> p ++ $"{{" ++ i ++ $"}}" ++ q) <->
  find_sub $"{{" rest = None \/ exists o, find_sub $"{{" rest = Some o /\ find_sub $"}}" (drop (o + 2) rest) = None.
Proof.
  split.
  - intros Hn. destruct (find_sub $"{{" rest) as [o|] eqn:Ho; [right|by left]. exists o. split; [done|].
    destruct (find_sub $"}}" _) as [c|] eqn:Hc; [|done]. apply find_sub_split in Ho, Hc.
    change (length $"{{") with 2%nat in Ho. destruct (Hn (take o rest) (take c (drop (o + 2) rest)) (drop (c + length $"}}") (drop (o + 2) rest))).
    rewrite Ho at 1. by rewrite <- Hc.
  - intros H p i q ->. destruct (find_sub_least $"{{" p (i ++ $"}}" ++ q)) as (o & Ho & Hle). rewrite Ho in H.
    destruct H as [|(o' & [= <-] & Hc)]; [done|].
    assert (Hex : exists d, drop (o + 2) (p ++ $"{{" ++ i ++ $"}}" ++ q) = d ++ $"}}" ++ q).
    { exists (drop (o + 2) ((p ++ $"{{") ++ i)). rewrite <- drop_app_le; [by rewrite <- !app_assoc|]. rewrite !length_app.
      change (length $"{{") with 2%nat. lia. }
    destruct Hex as [d Hd]. rewrite Hd in Hc. destruct (find_sub_least $"}}" d q) as (? & Hf & _). congruence.
Qed.

(** A split with any number of placeholders is a prefix of the reading. *)
Lemma segments_reads n rest segs (f : segment -> str) :
  reads rest segs -> (forall t, f (Lit t) = t) ->
  concat (f <$> segments n rest) = concat (f <$> take (2 * n) segs) ++ concat (segment_text <$> drop (2 * n) segs).
Proof.
  intros Hr Hf. revert n. assert (Htext : concat (segment_text <$> segs) = rest).
  { clear Hf. induction Hr as [|s lit after inner rest segs [-> _] [-> _] Hr IH]; cbn [fmap list_fmap concat segment_text]; [apply app_nil_r|].
    rewrite IH. by rewrite <- !app_assoc. }
  revert Htext. induction Hr as [rest Hno|s lit after inner rest segs Ho Hc Hr IH]; intros Htext n.
  - assert (segments n rest = [Lit rest]) as ->.
    { destruct n as [|n]; [done|]. cbn [segments]. by apply no_placeholder in Hno as [-> |(o & -> & ->)]. }
    destruct n as [|n]; [cbn; by rewrite Hf|]. replace (2 * S n)%nat with (S (S (2 * n))) by lia. cbn. by rewrite Hf, !app_nil_r.
  - destruct n as [|n]; [cbn [segments fmap list_fmap concat]; rewrite Hf, app_nil_r; change (2 * 0)%nat with 0%nat; by rewrite take_0, drop_0|].
    cbn [segments]. pose proof (first_split_find _ _ _ _ Ho) as ->. pose proof (proj1 Ho) as Hs.
    assert (drop (length lit + 2) s = after) as ->.
    { rewrite Hs, app_assoc. apply drop_app_length'. by rewrite length_app. }
    rewrite (first_split_find _ _ _ _ Hc). pose proof (proj1 Hc) as Ha.
    assert (take (length lit) s = lit) as -> by (by rewrite Hs, take_app_length).
    assert (take (length inner) after = inner) as -> by (by rewrite Ha, take_app_length).
    assert (drop (length inner + 2) after = rest) as -> by (rewrite Ha, app_assoc; apply drop_app_length'; by rewrite length_app).
    replace (2 * S n)%nat with (S (S (2 * n))) by lia. cbn [fmap list_fmap concat take drop]. rewrite IH; [by rewrite <- !app_assoc|].
    cbn [fmap list_fmap concat segment_text] in Htext. rewrite Hs, Ha, <- !app_assoc in Htext. by do 4 apply app_inv_head in Htext.
Qed.

Lemma reads_exists rest : exists segs, reads rest segs.
Proof.
  revert rest. assert (H : forall n rest, (length rest < n)%nat -> exists segs, reads rest segs); [|intros rest; apply (H (S (length rest))); lia].
  induction n as [|n IH]; intros rest Hn; [lia|].
  destruct (find_sub $"{{" rest) as [o|] eqn:Ho.
  - destruct (find_sub $"}}" (drop (o + 2) rest)) as [c|] eqn:Hc.
    + pose proof (find_sub_bound _ _ _ Ho) as Hb. change (length $"{{") with 2%nat in Hb. apply find_sub_first in Ho, Hc.
      destruct (IH (drop (c + length $"}}") (drop (o + 2) rest))) as [segs Hs]; [rewrite !length_drop; lia|].
      eexists. by eapply reads_token.
    + exists [Lit rest]. apply reads_end, no_placeholder. right. by exists o.
  - exists [Lit rest]. apply reads_end, no_placeholder. by left.
Qed.

(** There is one reading. *)
Lemma reads_unique rest segs segs' : reads rest segs -> reads rest segs' -> segs' = segs.
Proof.
  intros Hr. revert segs'. induction Hr as [rest Hno|s lit after inner rest segs Ho Hc Hr IH]; intros segs' Hr'.
  - inversion Hr' as [|? lit after inner rest' segs Ho Hc]; subst; [done|]. destruct Ho as [-> _], Hc as [-> _]. by edestruct Hno.
  - assert (Hs := proj1 Ho). assert (Ha := proj1 Hc). inversion Hr' as [? Hno|? lit' after' inner' rest' segs2 Ho' Hc' Hr2]; subst; [by edestruct Hno|].
    pose proof (first_split_find _ _ _ _ Ho) as E. rewrite (first_split_find _ _ _ _ Ho') in E. injection E as E.
    destruct Ho' as [E1 _]. apply app_inj_1 in E1 as [<- E1]; [|done]. apply app_inv_head in E1 as <-.
    pose proof (first_split_find _ _ _ _ Hc) as E'. rewrite (first_split_find _ _ _ _ Hc') in E'. injection E' as E'.
    destruct Hc' as [E2 _]. apply app_inj_1 in E2 as [<- E2]; [|done]. apply app_inv_head in E2 as <-. by rewrite (IH segs2 Hr2).
Qed.

(** ** Character sets of the substituted values *)

Lemma sanitize_oob_chars s : forallb oob_char (sanitize_oob_value s) = true.
Proof.
  induction s as [|c s IH]; [done|]. cbn [sanitize_oob_value].
  destruct (is_ascii_lowercase (to_ascii_lowercase c) || is_ascii_digit c ||
            (to_ascii_lowercase c =? 46) || (to_ascii_lowercase c =? 45)) eqn:E; [|done].
  cbn [forallb]. rewrite IH, andb_true_r. rewrite !orb_true_iff in E. unfold oob_char.
  rewrite !orb_true_iff. destruct E as [[[E|E]|E]|E]; [tauto | | tauto..].
  assert (to_ascii_lowercase c = c) as ->; [|tauto].
  unfold to_ascii_lowercase. destruct (is_ascii_uppercase c) eqn:Eu; [|done].
  unfold is_ascii_uppercase, is_ascii_digit, in_range in *.
  rewrite andb_true_iff, !Z.leb_le in E, Eu. lia.
Qed.

Lemma sanitize_raw_chars s : forallb raw_char (sanitize_raw_value s) = true.
Proof. apply forallb_forall. intros c Hc. by apply filter_In in Hc as []. Qed.

Lemma forallb_weaken {A} (p q : A -> bool) l :
  (forall x, p x = true -> q x = true) -> forallb p l = true -> forallb q l = true.
Proof. rewrite !forallb_forall. auto. Qed.

(** Simple ranges of characters. *)
Ltac char_ranges :=
  intros c; unfold raw_char, oob_char, encoded_char, is_ascii_alphanumeric, is_ascii_alphabetic,
    is_ascii_lowercase, is_ascii_uppercase, is_ascii_digit, in_range;
  rewrite ?orb_true_iff, ?andb_true_iff, ?negb_true_iff, ?orb_false_iff, ?andb_false_iff,
    ?negb_false_iff, ?Z.leb_le, ?Z.leb_gt, ?Z.ltb_lt, ?Z.ltb_ge, ?Z.eqb_eq, ?Z.eqb_neq; lia.

Lemma oob_raw : forall c, oob_char c = true -> raw_char c = true.
Proof. char_ranges. Qed.
Lemma encoded_raw : forall c, encoded_char c = true -> raw_char c = true.
Proof. char_ranges. Qed.
Lemma alphabetic_raw : forall c, is_ascii_alphabetic c = true -> raw_char c = true.
Proof. char_ranges. Qed.

(** What may stand for something in a URL: everything but letters, digits, the
    percent sign, the dot and the hyphen. *)
Definition structural (c : Z) : bool := negb (encoded_char c || oob_char c).

Lemma filter_none {A} (p q : A -> bool) l :
  (forall x, q x = true -> p x = false) -> forallb q l = true -> List.filter p l = [].
Proof.
  intros Hpq. induction l as [|x l IH]; [done|]. cbn. intros [Hx Hl]%andb_true_iff.
  rewrite (Hpq x Hx). auto.
Qed.

Lemma encoded_not_structural : forall c, encoded_char c = true -> structural c = false.
Proof. intros c Hc. unfold structural. by rewrite Hc. Qed.
Lemma oob_not_structural : forall c, oob_char c = true -> structural c = false.
Proof. intros c Hc. unfold structural. by rewrite Hc, orb_true_r. Qed.

(** The name in a template that is one companion placeholder. *)
Lemma whole_companion template :
  starts_with $"{{companion." template && ends_with $"}}" template && (count_open false template =? 1)%nat = true ->
  exists name, template = $"{{companion." ++ name ++ $"}}" /\ template <> $"{{match}}".
Proof.
  rewrite !andb_true_iff. intros [[[t Ht]%starts_with_spec [u Hu]%ends_with_spec] _]. subst template.
  destruct (decide (length t < 2)%nat) as [Hlt|Hge].
  - exfalso. destruct t as [|x [|y t]]; [| |cbn in Hlt; lia]; apply (f_equal (@rev Z)) in Hu; rewrite !rev_app_distr in Hu; vm_compute in Hu; simplify_eq.
  - rewrite <- (take_drop (length t - 2) t), app_assoc in Hu. apply app_inj_2 in Hu as [_ Hd]; [|rewrite length_drop; cbn; lia].
    exists (take (length t - 2) t). split; [|done]. by rewrite <- Hd, take_drop.
Qed.

Lemma companion_field name cred m :
  default [] (m !! drop 12 (take (length ($"{{companion." ++ name ++ $"}}") - 2) ($"{{companion." ++ name ++ $"}}"))) =
  resolve_field ($"companion." ++ name) cred m.
Proof.
  rewrite app_assoc, !length_app. change (length $"}}") with 2%nat. rewrite Nat.add_sub, <- length_app, take_app_length.
  change 12%nat with (length $"{{companion."). rewrite drop_app_length. done.
Qed.

Section inert.
Context `{PercentEncode} {encode_laws : PercentEncodeLaws}.

(** C29. Interpolation is one pass over the template.  A template that is a
    single placeholder ([{{match}}], or one that opens with [{{companion.], ends
    with the closing braces and has no other opening ones) becomes the sanitized
    value of that field.  Any other template has exactly one reading as literal
    text and placeholders, which no value enters, and the result is that reading
    with each of the first 1024 placeholders replaced by its value if it is a known
    one, and everything else as it stands in the template. *)
Theorem interpolate_single_pass (template : str) :
  if whole_placeholder template then
    exists inner, template = $"{{" ++ inner ++ $"}}" /\
      forall credential companions context,
        interpolate_with_context template credential companions context =
        resolve_and_sanitize_field inner credential companions
  else
    exists segs, reads template segs /\ (forall segs', reads template segs' -> segs' = segs) /\
      forall credential companions context,
        interpolate_with_context template credential companions context =
        concat (segment_value credential companions context <$> take (2 * 1024) segs) ++
        concat (segment_text <$> drop (2 * 1024) segs).
Proof using.
  destruct (whole_placeholder template) eqn:Hw.
  - unfold whole_placeholder in Hw. apply orb_true_iff in Hw as [->%bool_decide_eq_true|Hw].
    { exists $"match". split; [done|]. intros cred m ctx. unfold interpolate_with_context. by rewrite bool_decide_true. }
    apply whole_companion in Hw as Hn. destruct Hn as (name & Hn & Hne). exists ($"companion." ++ name).
    split; [by rewrite Hn, <- !app_assoc|]. intros cred m ctx. unfold interpolate_with_context.
    rewrite bool_decide_false, Hw by done. unfold resolve_and_sanitize_field. f_equal. rewrite Hn. apply companion_field.
  - destruct (reads_exists template) as [segs Hr]. exists segs. split; [done|]. split; [intros; by eapply reads_unique|].
    intros cred m ctx. rewrite interpolate_render by done. change MAX_TEMPLATE_TOKENS with 1024%nat. unfold render.
    by apply segments_reads.
Qed.

(** The structural characters a placeholder contributes do not depend on the
    values. *)
Lemma value_structural (cred cred' : str) (m m' : CompanionMap) (g : segment) :
  m !! OOB_COMPANION_URL = m' !! OOB_COMPANION_URL ->
  List.filter structural (segment_value cred m CtxUrl g) =
  List.filter structural (segment_value cred' m' CtxUrl g).
Proof using encode_laws.
  intros Hu. destruct g as [t|i]; [done|]. cbn [segment_value]. unfold resolve_placeholder.
  assert (Henc : forall s, List.filter structural (url_encode s) = []).
  { intros s. eapply filter_none; [apply encoded_not_structural | apply percent_encode_chars]. }
  assert (Hoob : forall s, List.filter structural (sanitize_oob_value s) = []).
  { intros s. eapply filter_none; [apply oob_not_structural | apply sanitize_oob_chars]. }
  case_bool_decide; [cbn; by rewrite !Henc|].
  case_bool_decide; [cbn; unfold resolve_oob_url; by rewrite Hu|].
  case_bool_decide; [cbn; by rewrite !Hoob|].
  case_bool_decide; [cbn; by rewrite !Hoob|].
  destruct (strip_prefix _ i); cbn; [by rewrite !Henc | done].
Qed.

(** Scanned values cannot change the shape of a request URL: for one
    template, whatever the credential and the companions, the characters other
    than letters, digits, percent signs, dots and hyphens are the same ones in
    the same order (the collector URL, which the operator configures, being
    fixed). *)
Theorem url_structure_independent (template cred cred' : str) (m m' : CompanionMap) :
  whole_placeholder template = false ->
  m !! OOB_COMPANION_URL = m' !! OOB_COMPANION_URL ->
  List.filter structural (interpolate_url template cred m) =
  List.filter structural (interpolate_url template cred' m').
Proof using encode_laws.
  intros Hw Hu. unfold interpolate_url. rewrite !interpolate_render by done. unfold render.
  induction (segments MAX_TEMPLATE_TOKENS template) as [|g segs IH]; [done|].
  cbn [fmap list_fmap concat]. rewrite !List.filter_app. f_equal; [by apply value_structural | done].
Qed.

Lemma resolve_oob_url_raw (m : CompanionMap) : forallb raw_char (resolve_oob_url m) = true.
Proof using.
  assert (Hoob : forall s, forallb raw_char (sanitize_oob_value s) = true).
  { intros s. eapply forallb_weaken; [apply oob_raw | apply sanitize_oob_chars]. }
  unfold resolve_oob_url. destruct (split_once _ _) as [[sch host]|]; [|apply Hoob].
  destruct (forallb is_ascii_alphabetic sch) eqn:Es; [|apply Hoob].
  rewrite !forallb_app, Hoob, andb_true_r.
  eapply forallb_weaken; [apply alphabetic_raw | done].
Qed.

Lemma placeholder_raw (i cred : str) (m : CompanionMap) (v : str) :
  resolve_placeholder i cred m CtxHttpValue = Some v -> forallb raw_char v = true.
Proof using.
  assert (Hoob : forall s, forallb raw_char (sanitize_oob_value s) = true).
  { intros s. eapply forallb_weaken; [apply oob_raw | apply sanitize_oob_chars]. }
  unfold resolve_placeholder. repeat (case_bool_decide; [intros [= <-]|]); cbn;
    [apply sanitize_raw_chars | apply resolve_oob_url_raw | apply Hoob | apply Hoob |].
  destruct (strip_prefix _ i); [|done]. intros [= <-]. apply sanitize_raw_chars.
Qed.

(** Scanned values cannot inject control characters into a header or a
    body: from a template free of them, interpolation produces text free of
    them, for every credential and every companion. *)
Theorem http_value_no_controls (template cred : str) (m : CompanionMap) :
  forallb raw_char template = true ->
  forallb raw_char (interpolate_http_value template cred m) = true.
Proof using.
  intros Ht. unfold interpolate_http_value. destruct (whole_placeholder template) eqn:Hw.
  - unfold interpolate_with_context, whole_placeholder in *.
    destruct (bool_decide (template = _)); [apply sanitize_raw_chars|]. cbn [orb] in Hw. rewrite Hw.
    apply sanitize_raw_chars.
  - rewrite interpolate_render by done. unfold render.
    rewrite <- (segments_text MAX_TEMPLATE_TOKENS template) in Ht.
    induction (segments MAX_TEMPLATE_TOKENS template) as [|g segs IH]; [done|].
    cbn [fmap list_fmap concat] in *. rewrite forallb_app in *. apply andb_true_iff in Ht as [Hg Ht].
    rewrite IH, andb_true_r by done. destruct g as [t|i]; [done|]. cbn [segment_value].
    destruct (resolve_placeholder i cred m CtxHttpValue) eqn:E; [by eapply placeholder_raw | done].
Qed.

End inert.

(** ** A concrete instance *)

#[local] Instance hex_percent : PercentEncode := fun b =>
  concat ((fun x => if is_ascii_alphanumeric x then [x] else [37]) <$> b).

#[local] Instance hex_percent_laws : PercentEncodeLaws.
Proof.
  intros b. unfold percent_encode, hex_percent. induction b as [|x b IH]; [done|].
  cbn [fmap list_fmap concat]. rewrite forallb_app, IH, andb_true_r. destruct (is_ascii_alphanumeric x) eqn:E; [|done].
  cbn. unfold encoded_char. by rewrite E.
Qed.

Example placeholder_values_inert :
  interpolate_with_context $"a {{match}} {{b}}" $"{{companion.x}}" {[ $"x" := $"s" ]} CtxHttpValue =
  $"a {{companion.x}} {{b}}".
Proof. by_eval. Qed.


