(* ===== verification/RateLimit.v ===== *)
(** * Rate limiter of verification requests
    ([crates/verifier/src/rate_limit.rs])

    Per-service pacing with multiplicative backoff and additive recovery, token
    bucket reservations and global backpressure.  Durations and instants are
    nanoseconds; the range of [Instant] is the platform's and a parameter.
    Floating point is IEEE binary64 as [spec_float]. *)

From Stdlib Require Import SpecFloat.
From S2P Require Import Prelude.

(** ** Durations and instants *)

Definition DURATION_MAX : Z := 2 ^ 64 * 1000000000 - 1.
Definition secs (n : Z) : Z := n * 1000000000.

Definition duration_checked_mul (d k : Z) : option Z :=
  if d * k <=? DURATION_MAX then Some (d * k) else None.
Definition duration_saturating_mul (d k : Z) : Z := saturating_mul DURATION_MAX d k.

(** ** Rates *)

Definition f64_of_Z (n : Z) : spec_float := binary_normalize 53 1024 n 0 false.

(** [f64::round]: to the nearest integer, halves away from zero. *)
Definition sf_round (x : spec_float) : spec_float :=
  match x with
  | S754_finite s m e =>
      if 0 <=? e then x
      else let d := 2 ^ (- e) in
           let q := (2 * Z.pos m + d) / (2 * d) in
           binary_normalize 53 1024 (if s then - q else q) 0 s
  | _ => x
  end.

Definition sf_is_finite (x : spec_float) : bool :=
  match x with S754_zero _ | S754_finite _ _ _ => true | _ => false end.

(** [as u64]: truncation, saturating at both ends. *)
Definition sf_as_u64 (x : spec_float) : Z :=
  match x with
  | S754_finite false m e => Z.min u64_max (if 0 <=? e then Z.pos m * 2 ^ e else Z.pos m / 2 ^ (- e))
  | S754_infinity false => u64_max
  | _ => 0
  end.

Definition rps_to_nanos (rps : spec_float) : Z :=
  let rate := if sf_is_finite rps && SFltb (S754_zero false) rps then rps else f64_of_Z 1 in
  let nanos := sf_round (SFdiv 53 1024 (f64_of_Z 1000000000) rate) in
  if sf_is_finite nanos && SFltb nanos (f64_of_Z 1) then 1
  else if sf_is_finite nanos && SFleb nanos (f64_of_Z (2 ^ 64)) then sf_as_u64 nanos
  else 1000000000.

(** ** State *)

Definition GLOBAL_BACKPRESSURE_ERROR_THRESHOLD : Z := 50.
Definition GLOBAL_BACKPRESSURE_PENALTY : Z := secs 1.
Definition RATE_LIMIT_BACKOFF_MULTIPLIER : Z := 2.
Definition RATE_LIMIT_MAX_INTERVAL : Z := secs 8.
Definition RATE_LIMIT_RECOVERY_STEP_DIVISOR : Z := 2.

Record ServiceLimit := mkLimit { last_request : Z; interval : Z; base_interval : Z }.

Record RateLimiter := mkLimiter {
  services : gmap str ServiceLimit; default_interval_nanos : Z; global_error_count : Z }.

Definition limiter_new (rps : spec_float) : RateLimiter := mkLimiter ∅ (rps_to_nanos rps) 0.

Definition set_default_rps (rps : spec_float) (l : RateLimiter) : RateLimiter :=
  mkLimiter (services l) (rps_to_nanos rps) (global_error_count l).

Definition default_interval (l : RateLimiter) : Z := default_interval_nanos l.

Definition with_services (m : gmap str ServiceLimit) (l : RateLimiter) : RateLimiter :=
  mkLimiter m (default_interval_nanos l) (global_error_count l).

(** ** Reservations *)

Definition initial_last_request `{Clock} (now interval : Z) : Z :=
  match instant_checked_sub now interval with Some t => t | None => now end.

(** The slot of a request that arrives at [now]: how long it waits ([None] for
    no wait) and the service after it. *)
Definition reserve_service_slot_with_burst `{Clock} (limit : ServiceLimit) (now burst : Z) :
    outcome (option Z * ServiceLimit) :=
  let! next_slot := instant_add (last_request limit) (interval limit) in
  let extra := saturating_sub burst 1 in
  let tolerance := duration_saturating_mul (interval limit) (if extra <=? u32_max then extra else u32_max) in
  let earliest := match instant_checked_sub next_slot tolerance with Some t => t | None => now end in
  if earliest <=? now then
    Ret (None, mkLimit (Z.max next_slot now) (interval limit) (base_interval limit))
  else Ret (Some (saturating_sub earliest now), mkLimit next_slot (interval limit) (base_interval limit)).

(** [wait_with_burst] up to the sleep: the delay, and the limiter after it.
    [now_new] is the clock reading when a slot is created, [now] that of the
    reservation. *)
Definition wait_with_burst `{Clock} (service : str) (burst now_new now : Z) (l : RateLimiter) :
    outcome (Z * RateLimiter) :=
  let bp := if GLOBAL_BACKPRESSURE_ERROR_THRESHOLD <? global_error_count l
            then GLOBAL_BACKPRESSURE_PENALTY else 0 in
  let d := default_interval l in
  let limit := match services l !! service with
               | Some limit => limit
               | None => mkLimit (initial_last_request now_new d) d d
               end in
  let! r := reserve_service_slot_with_burst limit now burst in
  let delay := match r.1 with Some w => Z.max w bp | None => bp end in
  Ret (delay, with_services (<[service := r.2]> (services l)) l).

Definition wait `{Clock} (service : str) (now_new now : Z) (l : RateLimiter) : outcome (Z * RateLimiter) :=
  wait_with_burst service 1 now_new now l.

(** ** Feedback *)

Definition record_error (l : RateLimiter) : RateLimiter :=
  mkLimiter (services l) (default_interval_nanos l) ((global_error_count l + 1) mod 2 ^ 64).

Definition record_success (l : RateLimiter) : RateLimiter :=
  if global_error_count l =? 0 then l
  else mkLimiter (services l) (default_interval_nanos l) (global_error_count l - 1).

Definition update_limit (service : str) (rps : spec_float) (now : Z) (l : RateLimiter) : RateLimiter :=
  let i := rps_to_nanos rps in
  with_services (<[service := mkLimit now i i]> (services l)) l.

(** The backed-off interval. *)
Definition back_off (i base : Z) : Z :=
  let ceiling := Z.max RATE_LIMIT_MAX_INTERVAL base in
  Z.min (match duration_checked_mul i RATE_LIMIT_BACKOFF_MULTIPLIER with Some x => x | None => ceiling end) ceiling.

Definition penalize_service (service : str) (now : Z) (l : RateLimiter) : RateLimiter :=
  match services l !! service with
  | Some limit =>
      with_services (<[service := mkLimit (last_request limit) (back_off (interval limit) (base_interval limit))
                                          (base_interval limit)]> (services l)) l
  | None =>
      let d := default_interval l in
      with_services (<[service := mkLimit now (back_off d d) d]> (services l)) l
  end.

Definition recover (i base : Z) : Z :=
  if base <? i then Z.max (saturating_sub i (base / RATE_LIMIT_RECOVERY_STEP_DIVISOR)) base else i.

Definition reward_service (service : str) (l : RateLimiter) : RateLimiter :=
  match services l !! service with
  | Some limit =>
      with_services (<[service := mkLimit (last_request limit) (recover (interval limit) (base_interval limit))
                                          (base_interval limit)]> (services l)) l
  | None => l
  end.

Definition service_interval (service : str) (l : RateLimiter) : option Z := interval <$> services l !! service.

(** ** Pacing invariant *)

Lemma sf_as_u64_range x : 0 <= sf_as_u64 x <= u64_max.
Proof.
  assert (0 <= u64_max) by by_decision. destruct x as [s|[]| |[] m e]; cbn [sf_as_u64]; try (split; lia).
  split; [|lia]. apply Z.min_glb; [done|]. destruct (Z.leb_spec 0 e); [lia|].
  apply Z.div_pos; [lia | apply Z.pow_pos_nonneg; lia].
Qed.

Lemma rps_to_nanos_range rps : 0 <= rps_to_nanos rps <= u64_max.
Proof.
  unfold rps_to_nanos. cbv zeta.
  set (nanos := sf_round _). clearbody nanos. pose proof (sf_as_u64_range nanos).
  destruct (sf_is_finite nanos && SFltb nanos (f64_of_Z 1)); [split; [lia | by_decision]|].
  destruct (sf_is_finite nanos && SFleb nanos (f64_of_Z (2 ^ 64))); [done | split; [lia | by_decision]].
Qed.

(** A service is never paced faster than configured, nor slower than eight
    seconds unless configured so. *)
Record limit_ok (s : ServiceLimit) : Prop := {
  lo_base : 0 <= base_interval s <= u64_max;
  lo_interval : base_interval s <= interval s <= Z.max RATE_LIMIT_MAX_INTERVAL (base_interval s) }.

Definition limiter_ok (l : RateLimiter) : Prop :=
  0 <= default_interval_nanos l <= u64_max /\ map_Forall (fun _ => limit_ok) (services l).

Lemma back_off_spec i base :
  0 <= base <= u64_max -> base <= i <= Z.max RATE_LIMIT_MAX_INTERVAL base ->
  back_off i base = Z.min (2 * i) (Z.max RATE_LIMIT_MAX_INTERVAL base).
Proof.
  intros Hb Hi. unfold back_off, duration_checked_mul, RATE_LIMIT_BACKOFF_MULTIPLIER.
  rewrite (proj2 (Z.leb_le _ _)); [lia|].
  unfold DURATION_MAX, RATE_LIMIT_MAX_INTERVAL, u64_max, secs in *. lia.
Qed.

Lemma recover_spec i base :
  0 <= base -> base <= i -> recover i base = Z.max (i - base / 2) base.
Proof.
  intros Hb Hi. unfold recover, saturating_sub, RATE_LIMIT_RECOVERY_STEP_DIVISOR.
  pose proof (Z.div_pos base 2 Hb ltac:(lia)). destruct (Z.ltb_spec base i); lia.
Qed.

Lemma with_services_ok m l : limiter_ok l -> map_Forall (fun _ => limit_ok) m -> limiter_ok (with_services m l).
Proof. by intros [Hd _] Hm. Qed.

Lemma limiter_insert_ok s x l :
  limiter_ok l -> limit_ok x -> limiter_ok (with_services (<[s := x]> (services l)) l).
Proof. intros Hl Hx. apply with_services_ok; [done|]. by apply map_Forall_insert_2; [|apply Hl]. Qed.

Section limiter.
Context `{Clock}.

Lemma reserve_fields limit now burst w limit' :
  reserve_service_slot_with_burst limit now burst = Ret (w, limit') ->
  interval limit' = interval limit /\ base_interval limit' = base_interval limit.
Proof using.
  unfold reserve_service_slot_with_burst. destruct (instant_add _ _); [|done]. case_match; by intros [= <- <-].
Qed.

Inductive limiter_op :=
| OpWait (service : str) (burst now_new now : Z)
| OpDefault (rps : spec_float)
| OpUpdate (service : str) (rps : spec_float) (now : Z)
| OpPenalize (service : str) (now : Z)
| OpReward (service : str)
| OpError
| OpSuccess.

(** One call; a wait whose slot is past the last instant panics. *)
Definition limiter_step (op : limiter_op) (l : RateLimiter) : outcome RateLimiter :=
  match op with
  | OpWait service burst now_new now => let! r := wait_with_burst service burst now_new now l in Ret r.2
  | OpDefault rps => Ret (set_default_rps rps l)
  | OpUpdate service rps now => Ret (update_limit service rps now l)
  | OpPenalize service now => Ret (penalize_service service now l)
  | OpReward service => Ret (reward_service service l)
  | OpError => Ret (record_error l)
  | OpSuccess => Ret (record_success l)
  end.

Inductive limiter_steps : RateLimiter -> RateLimiter -> Prop :=
| steps_refl l : limiter_steps l l
| steps_step op l1 l2 l3 : limiter_steps l1 l2 -> limiter_step op l2 = Ret l3 -> limiter_steps l1 l3.

Lemma default_limit_ok l t : limiter_ok l -> limit_ok (mkLimit t (default_interval l) (default_interval l)).
Proof using. intros [Hd _]. split; cbn; unfold default_interval, RATE_LIMIT_MAX_INTERVAL, secs; lia. Qed.

Lemma limiter_step_ok op l l' : limiter_ok l -> limiter_step op l = Ret l' -> limiter_ok l'.
Proof using.
  intros Hl. destruct op as [s burst t0 now|rps|s rps now|s now|s| |]; cbn [limiter_step].
  - unfold wait_with_burst. destruct (reserve_service_slot_with_burst _ now burst) as [[w x]|] eqn:E; [|done].
    intros [= <-]. apply limiter_insert_ok; [done|].
    apply reserve_fields in E as [Hi Hb]. cbn [snd fst].
    assert (Hx : limit_ok (match services l !! s with Some x => x
      | None => mkLimit (initial_last_request t0 (default_interval l)) (default_interval l) (default_interval l) end)).
    { destruct (services l !! s) as [y|] eqn:Es; [by apply (proj2 Hl) in Es | by apply default_limit_ok]. }
    destruct Hx as [H1 H2]. split; rewrite ?Hi, ?Hb; done.
  - intros [= <-]. split; [apply rps_to_nanos_range | apply Hl].
  - intros [= <-]. apply limiter_insert_ok; [done|]. pose proof (rps_to_nanos_range rps).
    split; cbn; unfold RATE_LIMIT_MAX_INTERVAL, secs; lia.
  - intros [= <-]. unfold penalize_service. destruct (services l !! s) as [x|] eqn:Es.
    + apply (proj2 Hl) in Es as [Hb Hi]. apply limiter_insert_ok; [done|].
      split; cbn [interval base_interval]; [done|]. rewrite back_off_spec by done.
      unfold RATE_LIMIT_MAX_INTERVAL, secs in *. lia.
    + destruct (default_limit_ok l now Hl) as [Hb Hi]. apply limiter_insert_ok; [done|].
      split; cbn [interval base_interval] in *; [done|]. rewrite back_off_spec by done.
      unfold RATE_LIMIT_MAX_INTERVAL, secs in *. lia.
  - intros [= <-]. unfold reward_service. destruct (services l !! s) as [x|] eqn:Es; [|done].
    apply (proj2 Hl) in Es as [Hb Hi]. apply limiter_insert_ok; [done|].
    split; cbn [interval base_interval]; [done|]. rewrite recover_spec by lia.
    pose proof (Z.div_pos (base_interval x) 2 ltac:(lia) ltac:(lia)). lia.
  - by intros [= <-].
  - intros [= <-]. unfold record_success. by destruct (global_error_count l =? 0).
Qed.

(** Pacing stays between the configured rate and the backoff ceiling: after
    any sequence of waits, reconfigurations, throttles and successes, every
    service's interval is at least its configured one and at most the larger of
    that and eight seconds. *)
Theorem pacing_invariant rps l :
  limiter_steps (limiter_new rps) l ->
  map_Forall (fun _ s => base_interval s <= interval s <= Z.max RATE_LIMIT_MAX_INTERVAL (base_interval s))
    (services l).
Proof using.
  intros Hs. assert (Hok : limiter_ok l).
  { remember (limiter_new rps) as l0 eqn:E. induction Hs as [|op l1 l2 l3 _ IH Hstep].
    - subst. split; [apply rps_to_nanos_range | apply map_Forall_empty].
    - by eapply limiter_step_ok; [apply IH|]. }
  intros s x Hx. by apply (proj2 Hok) in Hx as [].
Qed.

(** The service after [n] successes. *)
Lemma rewarded_limit (s : str) (l : RateLimiter) (x : ServiceLimit) (n : nat) :
  0 <= base_interval x <= interval x -> services l !! s = Some x ->
  services (Nat.iter n (reward_service s) l) !! s =
  Some (mkLimit (last_request x) (Z.max (interval x - Z.of_nat n * (base_interval x / 2)) (base_interval x)) (base_interval x)).
Proof using.
  intros Hb Hx. pose proof (Z.div_pos (base_interval x) 2 ltac:(lia) ltac:(lia)).
  induction n as [|n IH].
  - cbn [Nat.iter nat_rect]. rewrite Hx. destruct x. cbn [last_request interval base_interval] in *. do 2 f_equal. lia.
  - cbn [Nat.iter nat_rect]. fold (Nat.iter n (reward_service s) l). unfold reward_service at 1.
    rewrite IH. cbn [services with_services interval base_interval last_request]. rewrite lookup_insert_eq. do 2 f_equal.
    rewrite recover_spec by lia. lia.
Qed.

(** C40. A throttled service recovers.  Each success takes half a configured
    interval (rounded down to the nanosecond) off the backed-off one, never below
    the configured interval; so successes bring the service back to its configured
    pace exactly when it is there already or the configured interval is two
    nanoseconds or more. *)
Theorem service_recovers (s : str) (l : RateLimiter) (x : ServiceLimit) :
  limiter_ok l -> services l !! s = Some x ->
  (forall n, service_interval s (Nat.iter n (reward_service s) l) =
     Some (Z.max (interval x - Z.of_nat n * (base_interval x / 2)) (base_interval x))) /\
  ((exists n, service_interval s (Nat.iter n (reward_service s) l) = Some (base_interval x)) <->
     interval x = base_interval x \/ 2 <= base_interval x).
Proof using.
  intros Hl Hx. apply (proj2 Hl) in Hx as Hok. destruct Hok as [Hb Hi].
  assert (Hiter : forall n, service_interval s (Nat.iter n (reward_service s) l) =
     Some (Z.max (interval x - Z.of_nat n * (base_interval x / 2)) (base_interval x))).
  { intros n. unfold service_interval. rewrite (rewarded_limit s l x n) by (done || lia). done. }
  split; [done|]. split.
  - intros [n Hn]. rewrite Hiter in Hn. injection Hn as Hn.
    destruct (Z.le_gt_cases 2 (base_interval x)); [by right|left].
    rewrite Z.div_small in Hn by lia. lia.
  - intros Hr. exists (Z.to_nat (interval x - base_interval x)). rewrite Hiter. f_equal. rewrite Z2Nat.id by lia.
    destruct Hr as [-> |Hr]; [lia|]. pose proof (Z.div_le_lower_bound (base_interval x) 2 1 ltac:(lia) ltac:(lia)). nia.
Qed.

(** A service configured at one request per nanosecond has no recovery step. *)
Example one_nanosecond_never_recovers (n : nat) :
  recover 2 1 = 2 /\ Nat.iter n (fun i => recover i 1) 2 = 2.
Proof using.
  split; [done|]. induction n as [|n IH]; [done|].
  change (recover (Nat.iter n (fun i => recover i 1) 2) 1 = 2). by rewrite IH.
Qed.

(** ** Request spacing *)

(** When the requests arriving at [nows] start. *)
Fixpoint reservations (burst : Z) (limit : ServiceLimit) (nows : list Z) : outcome (list Z) :=
  match nows with
  | [] => Ret []
  | now :: rest =>
      let! r := reserve_service_slot_with_burst limit now burst in
      let! starts := reservations burst r.2 rest in
      Ret ((now + default 0 r.1) :: starts)
  end.

Lemma reserve_spec limit now burst w limit' :
  0 <= interval limit -> 1 <= burst <= u32_max -> interval limit * (burst - 1) <= DURATION_MAX ->
  instant_min <= now ->
  reserve_service_slot_with_burst limit now burst = Ret (w, limit') ->
  let start := now + default 0 w in
  last_request limit + interval limit <= last_request limit' /\ start <= last_request limit' /\
  last_request limit' - interval limit * (burst - 1) <= start /\ now <= start.
Proof using.
  intros Hi Hb Ht Hn. unfold reserve_service_slot_with_burst, instant_add, saturating_sub.
  destruct (Z.leb_spec (last_request limit + interval limit) instant_max); [|done].
  rewrite (Z.max_r 0 (burst - 1)), (proj2 (Z.leb_le (burst - 1) u32_max)) by lia.
  unfold duration_saturating_mul, saturating_mul. rewrite Z.min_r by lia.
  set (next := last_request limit + interval limit). set (tol := interval limit * (burst - 1)).
  assert (0 <= tol) by (unfold tol; nia). unfold instant_checked_sub.
  destruct (Z.leb_spec instant_min (next - tol)).
  - destruct (Z.leb_spec (next - tol) now); intros [= <- <-]; cbn; lia.
  - rewrite Z.leb_refl. intros [= <- <-]. cbn. lia.
Qed.

Lemma reservations_from limit nows burst starts :
  0 <= interval limit -> 1 <= burst <= u32_max -> interval limit * (burst - 1) <= DURATION_MAX ->
  Forall (fun t => instant_min <= t) nows ->
  reservations burst limit nows = Ret starts ->
  forall j sj, starts !! j = Some sj ->
    last_request limit + (Z.of_nat j + 1 - (burst - 1)) * interval limit <= sj.
Proof using.
  intros Hi Hb Ht Hn. revert limit starts Hi Ht.
  induction Hn as [|now nows Hnow Hn IH]; intros limit starts Hi Ht; cbn [reservations]; [by intros [= <-]|].
  destruct (reserve_service_slot_with_burst limit now burst) as [[w limit']|] eqn:E; [|done]. cbn [fst snd].
  destruct (reserve_fields _ _ _ _ _ E) as [Hi' _].
  destruct (reserve_spec _ _ _ _ _ Hi Hb Ht Hnow E) as (H1 & H2 & H3 & H4).
  destruct (reservations burst limit' nows) as [tail|] eqn:Er; [|done]. intros [= <-] j sj Hj.
  destruct j as [|j]; cbn in Hj; [simplify_eq; cbn; lia|].
  apply (IH limit' tail ltac:(lia) ltac:(rewrite Hi'; lia) Er) in Hj. rewrite Hi' in Hj. lia.
Qed.

(** The sustained rate holds whatever the arrivals: of the requests of one
    service, the [j]-th starts at least [j - i - (burst - 1)] intervals after
    the [i]-th; at most [burst] requests start together, and with a burst of
    one every two consecutive requests are an interval apart. *)
Theorem burst_rate_bound limit nows burst starts i j si sj :
  0 <= interval limit -> 1 <= burst <= u32_max -> interval limit * (burst - 1) <= DURATION_MAX ->
  Forall (fun t => instant_min <= t) nows ->
  reservations burst limit nows = Ret starts ->
  (i < j)%nat -> starts !! i = Some si -> starts !! j = Some sj ->
  si + (Z.of_nat j - Z.of_nat i - (burst - 1)) * interval limit <= sj.
Proof using.
  intros Hi Hb Ht Hn. revert limit starts i j Hi Ht.
  induction Hn as [|now nows Hnow Hn IH]; intros limit starts i j Hi Ht; cbn [reservations]; [by intros [= <-]|].
  destruct (reserve_service_slot_with_burst limit now burst) as [[w limit']|] eqn:E; [|done]. cbn [fst snd].
  destruct (reserve_fields _ _ _ _ _ E) as [Hi' _].
  destruct (reserve_spec _ _ _ _ _ Hi Hb Ht Hnow E) as (H1 & H2 & H3 & H4).
  destruct (reservations burst limit' nows) as [tail|] eqn:Er; [|done]. intros [= <-] Hij Hsi Hsj.
  destruct j as [|j]; [lia|]. cbn in Hsj. destruct i as [|i].
  - cbn in Hsi. simplify_eq.
    apply (reservations_from limit' nows burst tail ltac:(lia) Hb ltac:(rewrite Hi'; lia) Hn Er) in Hsj.
    rewrite Hi' in Hsj. lia.
  - cbn in Hsi. pose proof (IH limit' tail i j ltac:(lia) ltac:(rewrite Hi'; lia) Er ltac:(lia) Hsi Hsj) as Hij'.
    rewrite Hi' in Hij'. lia.
Qed.

End limiter.

(** ** A concrete instance *)

#[local] Instance i64_clock : Clock := {| instant_min := - 2 ^ 63; instant_max := 2 ^ 63 |}.

Definition five_rps : RateLimiter := mkLimiter ∅ 200000000 0.

Lemma limiter_new_five : limiter_new (f64_of_Z 5) = five_rps.
Proof. by vm_compute. Qed.

Definition throttled : RateLimiter := penalize_service $"github" 7 (penalize_service $"github" 7 five_rps).


Lemma throttled_ok : limiter_ok throttled.
Proof.
  assert (limiter_ok five_rps) by (split; [by_decision | apply map_Forall_empty]).
  eapply (limiter_step_ok (OpPenalize $"github" 7)); [|reflexivity].
  by eapply (limiter_step_ok (OpPenalize $"github" 7)); [|reflexivity].
Qed.

Lemma service_recovers_witness :
  service_interval $"github" (Nat.iter 6 (reward_service $"github") throttled) = Some 200000000.
Proof.
  apply (proj1 (service_recovers $"github" throttled (mkLimit 7 800000000 200000000) throttled_ok ltac:(by_eval)) 6%nat).
Defined.

