(* ===== verification/Retry.v ===== *)
(** * The retry policy ([crates/core/src/retry.rs])

    Bounded attempts with exponential backoff, for the causes a classifier
    names.  The operation is its outcome at each attempt; the causes counted by
    the profiler and the delays slept are part of the result.  The errno cases
    are those of Unix. *)

From S2P Require Import Prelude.

(** ** Policy *)

Definition millis (n : Z) : Z := n * 1000000.
Definition DURATION_MAX : Z := 2 ^ 64 * 1000000000 - 1.

Record RetryPolicy := mkPolicy { max_attempts : Z; initial_backoff : Z; max_backoff : Z }.

Definition DEFAULT : RetryPolicy := mkPolicy 3 (millis 5) (millis 40).

Definition backoff_for (self : RetryPolicy) (next_attempt : Z) : Z :=
  let doublings := Z.min (saturating_sub next_attempt 2) 16 in
  let scaled := saturating_mul DURATION_MAX (initial_backoff self) (Z.shiftl 1 (Z.min doublings 16)) in
  Z.min scaled (max_backoff self).

(** ** Classification *)

Inductive RetryCause :=
| Interrupted | WouldBlock | VanishedUnderWalk | SizeChangedUnderRead | Locked | RateLimited | Network
| PackRewritten.

Inductive PathOrigin := OperatorSupplied | Enumerated.

(** The kinds of [io::ErrorKind] the code names, and the others. *)
Inductive ErrorKind :=
| KInterrupted | KWouldBlock | KTimedOut | KConnectionReset | KConnectionAborted | KNotFound
| KPermissionDenied | KOther.

Record IoError := { kind : ErrorKind; raw_os_error : option Z }.

Definition ESTALE : Z := 116.
Definition EBUSY : Z := 16.
Definition ETXTBSY : Z := 26.

Definition classify_raw_os (errno : Z) (origin : PathOrigin) : option RetryCause :=
  if errno =? ESTALE then
    match origin with Enumerated => Some VanishedUnderWalk | OperatorSupplied => None end
  else if (errno =? EBUSY) || (errno =? ETXTBSY) then Some Locked
  else None.

Definition classify_io (error : IoError) (origin : PathOrigin) : option RetryCause :=
  let by_errno := match raw_os_error error with Some errno => classify_raw_os errno origin | None => None end in
  match kind error with
  | KInterrupted => Some Interrupted
  | KWouldBlock => Some WouldBlock
  | KTimedOut | KConnectionReset | KConnectionAborted => Some Network
  | KNotFound => match origin with Enumerated => Some VanishedUnderWalk | OperatorSupplied => by_errno end
  | _ => by_errno
  end.

(** ** The loop *)

(** What a run returns and what it did on the way. *)
Record run (T E : Type) := mkRun { outcome_ : result T E; counted : list RetryCause; slept : list Z }.
Arguments mkRun {T E}.
Arguments outcome_ {T E}.
Arguments counted {T E}.
Arguments slept {T E}.

Section retry.
Context {T E : Type} (policy : RetryPolicy) (classify : E -> option RetryCause).
(** [op n] is the outcome of the [n]-th call, from 0. *)
Context (op : nat -> result T E).

(** The [loop]: [None] when the fuel runs out. *)
Fixpoint retry_loop (fuel : nat) (call : nat) (attempt : Z) (causes : list RetryCause) (sleeps : list Z) :
    option (run T E) :=
  match fuel with
  | O => None
  | S fuel' =>
      match op call with
      | Ok value => Some (mkRun (Ok value) causes sleeps)
      | Err error =>
          if max_attempts policy <=? attempt then Some (mkRun (Err error) causes sleeps)
          else
            match classify error with
            | None => Some (mkRun (Err error) causes sleeps)
            | Some cause =>
                let attempt := attempt + 1 in
                let backoff := backoff_for policy attempt in
                retry_loop fuel' (S call) attempt (causes ++ [cause])
                  (if backoff =? 0 then sleeps else sleeps ++ [backoff])
            end
      end
  end.

Definition retry_classified : option (run T E) :=
  retry_loop (Z.to_nat (Z.max 1 (max_attempts policy))) 0 1 [] [].

End retry.

Definition retry_io {T} (policy : RetryPolicy) (origin : PathOrigin) (op : nat -> result T IoError) :
    option (run T IoError) :=
  retry_classified policy (fun error => classify_io error origin) op.

(** [open_enumerated]: one open and one [fstat] of the handle per attempt. *)
Definition open_enumerated {File Metadata : Type} (open : nat -> result File IoError)
    (metadata : nat -> File -> result Metadata IoError) : option (run (File * Metadata) IoError) :=
  retry_io DEFAULT Enumerated (fun n =>
    let? file := open n in
    let? m := metadata n file in
    Ok (file, m)).

Inductive ContentError := TransientRead | PermanentRead | NotUtf8.

(** [RetryingContentSource::read_prefix]. *)
Definition read_prefix {C} (inner : nat -> result C ContentError) : option (run C ContentError) :=
  retry_classified DEFAULT
    (fun error => match error with
                  | TransientRead => Some VanishedUnderWalk
                  | PermanentRead | NotUtf8 => None
                  end) inner.

(** ** Correctness *)

Section spec.
Context {T E : Type} (policy : RetryPolicy) (classify : E -> option RetryCause) (op : nat -> result T E).

(** Call [n] failed with an error the classifier names. *)
Definition retriable (n : nat) : Prop :=
  exists e c, op n = Err e /\ classify e = Some c.

(** The run stops at call [n]: a success, a permanent error, or the last
    attempt allowed. *)
Definition stops_at (n : nat) : Prop :=
  match op n with
  | Ok _ => True
  | Err e => max_attempts policy <= Z.of_nat n + 1 \/ classify e = None
  end.

Lemma backoff_for_range a :
  0 <= initial_backoff policy -> 0 <= max_backoff policy -> 0 <= backoff_for policy a <= max_backoff policy.
Proof using.
  intros Hi Hm. unfold backoff_for, saturating_mul. split; [|apply Z.le_min_r].
  apply Z.min_glb; [|done]. apply Z.min_glb; [by_decision|].
  apply Z.mul_nonneg_nonneg; [done|]. rewrite Z.shiftl_nonneg. lia.
Qed.

Lemma retry_loop_spec fuel call causes sleeps :
  length causes = call -> (length sleeps <= call)%nat ->
  Forall (fun d => 0 < d <= max_backoff policy) sleeps ->
  0 <= initial_backoff policy -> 0 <= max_backoff policy ->
  (forall n, (n < call)%nat -> retriable n) ->
  Z.of_nat call < Z.max 1 (max_attempts policy) <= Z.of_nat call + Z.of_nat fuel ->
  exists r n, retry_loop policy classify op fuel call (Z.of_nat call + 1) causes sleeps = Some r /\
    outcome_ r = op n /\ stops_at n /\ (forall k, (k < n)%nat -> retriable k) /\
    Z.of_nat n < Z.max 1 (max_attempts policy) /\ length (counted r) = n /\
    (length (slept r) <= n)%nat /\ Forall (fun d => 0 < d <= max_backoff policy) (slept r).
Proof using.
  revert call causes sleeps. induction fuel as [|fuel IH]; intros call causes sleeps Hc Hs Hf Hi Hm Hr Hfuel; [lia|].
  cbn [retry_loop]. destruct (op call) as [v|e] eqn:Eo.
  { exists (mkRun (Ok v) causes sleeps), call. unfold stops_at. rewrite Eo. split_and!; (done || lia). }
  destruct (Z.leb_spec (max_attempts policy) (Z.of_nat call + 1)) as [Hle|Hgt].
  { exists (mkRun (Err e) causes sleeps), call. unfold stops_at. rewrite Eo. split_and!; (done || lia || by left). }
  destruct (classify e) as [c|] eqn:Ec.
  2: { exists (mkRun (Err e) causes sleeps), call. unfold stops_at. rewrite Eo. split_and!; (done || lia || by right). }
  pose proof (backoff_for_range (Z.of_nat call + 1 + 1) Hi Hm) as Hb.
  set (b := backoff_for policy (Z.of_nat call + 1 + 1)) in *. clearbody b. cbv zeta.
  replace (Z.of_nat call + 1 + 1) with (Z.of_nat (S call) + 1) by lia.
  apply IH; [by rewrite length_app, Hc, Nat.add_1_r | | | done | done | | lia].
  - destruct (b =? 0); [lia|]. rewrite length_app. cbn. lia.
  - destruct (Z.eqb_spec b 0); [done|].
    apply Forall_app. split; [done|]. constructor; [lia | done].
  - intros n Hn. destruct (decide (n = call)) as [->|]; [by exists e, c | apply Hr; lia].
Qed.

(** The retry loop ends and does no more than its policy: it makes at most
    [max_attempts] calls (at least one), returns the outcome of the last call
    unchanged, stops at the first success and at the first error its classifier
    does not name, counts one cause per retry, and sleeps at most once per retry
    and never longer than the ceiling. *)
Theorem retry_bounded :
  0 <= initial_backoff policy -> 0 <= max_backoff policy ->
  exists r n, retry_classified policy classify op = Some r /\ outcome_ r = op n /\ stops_at n /\
    (forall k, (k < n)%nat -> retriable k) /\
    Z.of_nat n < Z.max 1 (max_attempts policy) /\ length (counted r) = n /\
    (length (slept r) <= n)%nat /\ Forall (fun d => 0 < d <= max_backoff policy) (slept r).
Proof using.
  intros Hi Hm. apply (retry_loop_spec _ 0 [] []); try done; try lia.
Qed.

End spec.

(** A path an operator named that is absent is not tried again; one the walker
    saw is tried three times, with 5 ms and 10 ms in between. *)
Definition absent : IoError := {| kind := KNotFound; raw_os_error := Some 2 |}.

