(* ===== verification/Glob.v ===== *)
(** * Path globs of the allowlist ([crates/core/src/allowlist/glob.rs])

    The gitignore-style matcher that suppresses findings by path: the
    backtracking matcher of one segment, the automaton over segments, and the
    index bucketed by first segment.  Each is proved equal to a declarative
    reading of the pattern. *)

From Stdlib Require Import Btauto.
From S2P Require Import Prelude.

Definition MAX_GLOB_SEGMENTS : Z := 256.
Definition MAX_GLOB_SEGMENT_LEN : Z := 1024.

Definition segments_oversize (segments : list str) : bool :=
  (MAX_GLOB_SEGMENTS <? zlen segments) || existsb (fun s => MAX_GLOB_SEGMENT_LEN <? str_len s) segments.

(** ** One segment *)

Section units.
Context {T : Type} `{EqDecision T}.
Context (pattern text : list T) (star_unit : T).

(** The variables of the loop. *)
Record cursor := mkCursor { pi : nat; ti : nat; star_pi : option nat; star_ti : nat }.

Definition at_star (i : nat) : bool := bool_decide (pattern !! i = Some star_unit).
Definition units_equal (i j : nat) : bool :=
  match pattern !! i, text !! j with Some a, Some b => bool_decide (a = b) | _, _ => false end.

(** The trailing loop and the final comparison. *)
Fixpoint only_stars (rest : list T) : bool :=
  match rest with
  | [] => true
  | c :: rest' => bool_decide (c = star_unit) && only_stars rest'
  end.

(** The matching loop; [None] when the fuel runs out. *)
Fixpoint match_loop (fuel : nat) (s : cursor) : option bool :=
  if (ti s <? length text)%nat then
    match fuel with
    | O => None
    | S fuel' =>
        if (pi s <? length pattern)%nat && at_star (pi s) then
          match_loop fuel' (mkCursor (S (pi s)) (ti s) (Some (pi s)) (ti s))
        else if (pi s <? length pattern)%nat && units_equal (pi s) (ti s) then
          match_loop fuel' (mkCursor (S (pi s)) (S (ti s)) (star_pi s) (star_ti s))
        else
          match star_pi s with
          | Some star => match_loop fuel' (mkCursor (S star) (S (star_ti s)) (star_pi s) (S (star_ti s)))
          | None => Some false
          end
    end
  else Some (only_stars (drop (pi s) pattern)).

(** Rounds that are enough: the star position advances at most once per unit of
    pattern and text, and between two advances the cursor crosses the pattern at
    most once. *)
Definition match_fuel : nat := (length pattern + length text + 2) * (length pattern + 2).

Definition segment_match_units : option bool := match_loop match_fuel (mkCursor 0 0 None 0).

End units.

Definition is_ascii (s : str) : bool := forallb (fun c => c <? 128) s.

Definition segment_match (pattern text : str) : bool :=
  default false
    (if is_ascii pattern && is_ascii text
     then segment_match_units (as_bytes pattern) (as_bytes text) 42
     else segment_match_units pattern text 42).

(** ** Segments *)

(** The row update for [**]: everything after a reachable state is reachable. *)
Fixpoint double_star_row (reachable : bool) (states : list bool) : list bool :=
  match states with
  | [] => []
  | s :: rest => let r := reachable || s in r :: double_star_row r rest
  end.

(** The row update for another segment. *)
Definition segment_row (segment : str) (states : list bool) (path : list str) : list bool :=
  false :: zip_with (fun s part => s && segment_match segment part) states path.

Definition next_row (path : list str) (states : list bool) (segment : str) : list bool :=
  if bool_decide (segment = $"**") then double_star_row false states else segment_row segment states path.

Definition glob_match_segments (pattern path : list str) : bool :=
  default false (last (foldl (next_row path) (true :: replicate (length path) false) pattern)).

Definition is_separator (c : Z) : bool := (c =? 47) || (c =? 92).

(** [split(['/', '\\'])]. *)
Fixpoint split_where (f : Z -> bool) (s : str) : list str :=
  match s with
  | [] => [[]]
  | c :: s' =>
      if f c then [] :: split_where f s'
      else match split_where f s' with w :: ws => (c :: w) :: ws | [] => [[c]] end
  end.

Definition split_segments (path : str) : list str :=
  if bool_decide (path = []) then [] else split_where is_separator path.

(** [replace('\\', "/")]. *)
Definition forward_slashes (s : str) : str := map (fun c => if c =? 92 then 47 else c) s.

Definition push_component (parts : list str) (c : path_component) : list str :=
  match c with
  | CurDir => parts
  | ParentDir =>
      if negb (bool_decide (parts = [])) && negb (bool_decide (last parts = Some $".."))
      then removelast parts else parts ++ [ $".." ]
  | Normal part => parts ++ [part]
  | RootDir => []
  end.

Definition normalize_path (path : str) : str :=
  join_slash (foldl push_component [] (path_components (forward_slashes path))).

(** The segments of a pattern: a directory pattern covers what is below it. *)
Definition pattern_segments (pattern : str) : list str :=
  let directory_pattern := ends_with $"/" (forward_slashes pattern) in
  let normalized := normalize_path pattern in
  split_segments
    (if directory_pattern && negb (bool_decide (normalized = [])) then normalized ++ $"/**" else normalized).

Definition pattern_matches_path (pattern normalized_path : str) : bool :=
  let p_segs := pattern_segments pattern in
  let path_segs := split_segments normalized_path in
  if segments_oversize p_segs || segments_oversize path_segs then false
  else glob_match_segments p_segs path_segs.

(** ** The index *)

Record CompiledGlob := mkGlob { segments : list str; oversize : bool }.

(** The observed pattern list: its identity, mutation epoch and content. *)
Record ObservedPaths := { instance_id : Z; mutation_epoch : Z; patterns : list str }.

Record PathGlobIndex := mkIndex {
  literal_first : gmap str (list CompiledGlob);
  wild_first : list CompiledGlob;
  empty_pattern : list CompiledGlob;
  source_instance_id : Z;
  source_mutation_epoch : Z }.

Definition compile_glob (pattern : str) : CompiledGlob :=
  let segs := pattern_segments pattern in mkGlob segs (segments_oversize segs).

Definition contains_star (s : str) : bool := existsb (fun c => c =? 42) s.

Definition add_glob (index : PathGlobIndex) (pattern : str) : PathGlobIndex :=
  let glob := compile_glob pattern in
  match segments glob with
  | [] => mkIndex (literal_first index) (wild_first index) (empty_pattern index ++ [glob])
            (source_instance_id index) (source_mutation_epoch index)
  | first :: _ =>
      if bool_decide (first = $"**") || contains_star first then
        mkIndex (literal_first index) (wild_first index ++ [glob]) (empty_pattern index)
          (source_instance_id index) (source_mutation_epoch index)
      else
        mkIndex (<[first := default [] (literal_first index !! first) ++ [glob]]> (literal_first index))
          (wild_first index) (empty_pattern index)
          (source_instance_id index) (source_mutation_epoch index)
  end.

Definition build (ps : ObservedPaths) : PathGlobIndex :=
  foldl add_glob (mkIndex ∅ [] [] (instance_id ps) (mutation_epoch ps)) (patterns ps).

Definition matches_sources (self : PathGlobIndex) (ps : ObservedPaths) : bool :=
  (source_instance_id self =? instance_id ps) && (source_mutation_epoch self =? mutation_epoch ps).

Definition index_matches (self : PathGlobIndex) (normalized_path : str) : bool :=
  let path_segments := split_segments normalized_path in
  if segments_oversize path_segments then false
  else
    let test glob := negb (oversize glob) && glob_match_segments (segments glob) path_segments in
    match path_segments with
    | [] => existsb test (empty_pattern self) || existsb test (wild_first self)
    | first :: _ =>
        match literal_first self !! first with
        | Some bucket => existsb test bucket || existsb test (wild_first self)
        | None => existsb test (wild_first self)
        end
    end.

(** [Allowlist::path_matches] and [is_path_ignored]: a stale index is rebuilt. *)
Definition path_matches (index : PathGlobIndex) (ignored : ObservedPaths) (normalized_path : str) : bool :=
  if matches_sources index ignored then index_matches index normalized_path
  else index_matches (build ignored) normalized_path.

Definition is_path_ignored (index : PathGlobIndex) (ignored : ObservedPaths) (path : str) : bool :=
  path_matches index ignored (normalize_path path).

(** ** Reference: what a segment pattern matches *)

Section wildcard.
Context {T : Type} `{EqDecision T} (star : T).

(** [*] stands for any sequence, every other unit for itself. *)
Inductive wild : list T -> list T -> Prop :=
| wild_nil : wild [] []
| wild_unit c p t : c <> star -> wild p t -> wild (c :: p) (c :: t)
| wild_skip p t : wild p t -> wild (star :: p) t
| wild_take c p t : wild (star :: p) t -> wild (star :: p) (c :: t).

Lemma wild_star p t : wild (star :: p) t <-> exists k, (k <= length t)%nat /\ wild p (drop k t).
Proof.
  split.
  - intros H. remember (star :: p) as q eqn:Eq. induction H as [| |p' t' Hw _ |c p' t' Hw IH]; simplify_eq.
    + exists 0%nat. split; [lia | done].
    + destruct (IH eq_refl) as (k & Hk & Hd). exists (S k). split; [cbn; lia | done].
  - intros (k & Hk & Hw). revert t Hk Hw. induction k as [|k IH]; intros t Hk Hw; [by apply wild_skip|].
    destruct t as [|c t]; cbn in *; [lia|]. apply wild_take, IH; [lia | done].
Qed.

Lemma wild_units c p d t : c <> star -> wild (c :: p) (d :: t) <-> c = d /\ wild p t.
Proof.
  intros Hc. split; [|intros [-> Hw]; by apply wild_unit].
  intros H. inversion H; simplify_eq; done.
Qed.

Lemma wild_empty_pattern t : wild [] t <-> t = [].
Proof. split; [by inversion 1 | intros ->; constructor]. Qed.

Lemma wild_empty_text p : wild p [] <-> only_stars star p = true.
Proof.
  split.
  - intros H. remember [] as t eqn:Et. induction H as [| |p t Hw IH|]; simplify_eq; [done|].
    cbn. rewrite bool_decide_true by done. auto.
  - induction p as [|c p IH]; cbn; [constructor|]. intros [->%bool_decide_eq_true Hp]%andb_true_iff.
    apply wild_skip. auto.
Qed.

(** A run of plain units takes as many units of text. *)
Lemma wild_literals lit p t :
  Forall (fun c => c <> star) lit -> wild (lit ++ p) t ->
  (length lit <= length t)%nat /\ wild p (drop (length lit) t).
Proof.
  intros Hl. revert t. induction Hl as [|c lit Hc Hl IH]; intros t Hw; [split; [cbn; lia | done]|].
  cbn in Hw. inversion Hw; simplify_eq. destruct (IH _ ltac:(eassumption)) as [Hle Hd].
  split; [cbn; lia | done].
Qed.

End wildcard.

Section units_spec.
Context {T : Type} `{EqDecision T} (pattern text : list T) (star : T).

(** What the loop state still stands for: the pattern rest against the text
    rest, or another position of the last star. *)
Definition stands_for (s : cursor) : Prop :=
  wild star (drop (pi s) pattern) (drop (ti s) text) \/
  exists sp k, star_pi s = Some sp /\ (star_ti s < k <= length text)%nat /\
    wild star (drop (S sp) pattern) (drop k text).

(** Since the last star only plain units were crossed, one for one. *)
Record cursor_ok (s : cursor) : Prop := {
  ck_pi : (pi s <= length pattern)%nat;
  ck_ti : (ti s <= length text)%nat;
  ck_none : star_pi s = None -> star_ti s = 0%nat;
  ck_star : forall sp, star_pi s = Some sp ->
    (sp < pi s)%nat /\ (star_ti s <= ti s)%nat /\ (pi s - S sp = ti s - star_ti s)%nat /\
    Forall (fun c => c <> star) (take (pi s - S sp) (drop (S sp) pattern)) }.

(** Rounds left. *)
Definition after_star (s : cursor) : nat := match star_pi s with Some sp => S sp | None => 0 end.
Definition rounds (s : cursor) : nat :=
  (length pattern + length text + 1 - star_ti s - after_star s) * (length pattern + 2)
  + (length pattern + 1 - pi s).

Lemma ck_bounds s : cursor_ok s -> (star_ti s <= ti s)%nat /\ (after_star s <= pi s)%nat.
Proof using.
  intros [_ _ Hn Hs]. unfold after_star. destruct (star_pi s) as [sp|].
  - destruct (Hs sp eq_refl) as (? & ? & _). lia.
  - rewrite Hn by done. lia.
Qed.

(** The pattern after the last star is the crossed units and the rest. *)
Lemma since_star sp n :
  (S sp <= n <= length pattern)%nat ->
  drop (S sp) pattern = take (n - S sp) (drop (S sp) pattern) ++ drop n pattern.
Proof using.
  intros Hn. rewrite <- (take_drop (n - S sp) (drop (S sp) pattern)) at 1. rewrite drop_drop.
  by replace (S sp + (n - S sp))%nat with n by lia.
Qed.

(** Another position of the star leaves the rest of the pattern no better off
    than the current one. *)
Lemma other_position s sp k :
  cursor_ok s -> star_pi s = Some sp -> (star_ti s < k <= length text)%nat ->
  wild star (drop (S sp) pattern) (drop k text) ->
  exists j, (ti s < j <= length text)%nat /\ wild star (drop (pi s) pattern) (drop j text).
Proof using.
  intros [Hp Ht _ Hs] Hsp Hk Hw. destruct (Hs sp Hsp) as (H1 & H2 & H3 & Hl).
  rewrite (since_star sp (pi s)) in Hw by lia. apply wild_literals in Hw as [Hle Hd]; [|done].
  rewrite length_drop in Hle. rewrite length_take, length_drop in Hle, Hd. rewrite drop_drop in Hd.
  eexists. split; [|exact Hd]. lia.
Qed.

Lemma step_star s :
  cursor_ok s -> (ti s < length text)%nat -> pattern !! pi s = Some star ->
  let s' := mkCursor (S (pi s)) (ti s) (Some (pi s)) (ti s) in
  cursor_ok s' /\ (rounds s' < rounds s)%nat /\ (stands_for s' <-> stands_for s).
Proof using.
  intros Hok Ht Hc s'. pose proof (lookup_lt_Some _ _ _ Hc) as Hpi. destruct (ck_bounds s Hok) as [Hb1 Hb2].
  split_and!.
  - split; cbn; [lia | lia | done |]. intros sp [= <-]. rewrite Nat.sub_diag. split_and!; [lia.. | constructor].
  - unfold rounds, after_star in *; cbn. destruct (star_pi s) as [sp|]; nia.
  - unfold stands_for; cbn. rewrite (drop_S _ _ _ Hc). rewrite wild_star. split.
    + intros [Hw | (sp & k & [= <-] & Hk & Hw)]; left.
      * exists 0%nat. rewrite drop_0. split; [lia | done].
      * exists (k - ti s)%nat. rewrite drop_drop, length_drop.
        replace (ti s + (k - ti s))%nat with k by lia. split; [lia | done].
    + intros Halt. assert (Hany : exists j, (ti s <= j <= length text)%nat /\
        wild star (drop (S (pi s)) pattern) (drop j text)).
      { destruct Halt as [(k & Hk & Hw) | (sp & k & Hsp & Hk & Hw)].
        - rewrite drop_drop in Hw. rewrite length_drop in Hk. exists (ti s + k)%nat. split; [lia | done].
        - destruct (other_position s sp k Hok Hsp Hk Hw) as (j & Hj & Hwj).
          rewrite (drop_S _ _ _ Hc), wild_star in Hwj. destruct Hwj as (k' & Hk' & Hw').
          rewrite drop_drop in Hw'. rewrite length_drop in Hk'. exists (j + k')%nat. split; [lia | done]. }
      destruct Hany as (j & Hj & Hw). destruct (decide (j = ti s)) as [->|]; [by left|].
      right. exists (pi s), j. split_and!; [done | lia | lia | done].
Qed.

Lemma step_unit s c :
  cursor_ok s -> pattern !! pi s = Some c -> text !! ti s = Some c -> c <> star ->
  let s' := mkCursor (S (pi s)) (S (ti s)) (star_pi s) (star_ti s) in
  cursor_ok s' /\ (rounds s' < rounds s)%nat /\ (stands_for s' <-> stands_for s).
Proof using.
  intros Hok Hc Ht Hne s'. pose proof (lookup_lt_Some _ _ _ Hc). pose proof (lookup_lt_Some _ _ _ Ht).
  split_and!.
  - destruct Hok as [Hp Hti Hn Hs]. split; cbn; [lia | lia | done |]. intros sp Hsp.
    destruct (Hs sp Hsp) as (H1 & H2 & H3 & Hl). split_and!; [lia.. |].
    replace (pi s - sp)%nat with (S (pi s - S sp)) by lia.
    erewrite take_S_r; [|rewrite lookup_drop; by replace (S sp + (pi s - S sp))%nat with (pi s) by lia].
    apply Forall_app. split; [done | by repeat constructor].
  - unfold rounds, after_star; cbn. lia.
  - unfold stands_for; cbn. rewrite (drop_S pattern _ _ Hc), (drop_S text _ _ Ht), wild_units by done. tauto.
Qed.

Lemma step_back s sp :
  cursor_ok s -> (ti s < length text)%nat -> star_pi s = Some sp ->
  ~ wild star (drop (pi s) pattern) (drop (ti s) text) ->
  let s' := mkCursor (S sp) (S (star_ti s)) (star_pi s) (S (star_ti s)) in
  cursor_ok s' /\ (rounds s' < rounds s)%nat /\ (stands_for s' <-> stands_for s).
Proof using.
  intros Hok Ht Hsp Hnw s'. destruct (ck_bounds s Hok) as [Hb1 Hb2]. split_and!.
  - destruct Hok as [Hp Hti Hn Hs]. destruct (Hs sp Hsp) as (H1 & H2 & H3 & Hl).
    split; cbn; [lia | lia | by rewrite Hsp |]. intros sp'. rewrite Hsp. intros [= <-].
    rewrite !Nat.sub_diag. split_and!; [lia.. | constructor].
  - unfold rounds, after_star in *; cbn. rewrite Hsp in *. pose proof (ck_pi _ Hok). nia.
  - unfold stands_for; cbn. rewrite Hsp. split.
    + intros [Hw | (sp' & k & [= <-] & Hk & Hw)]; right; exists sp.
      * exists (S (star_ti s)). split_and!; [done | lia | lia | done].
      * exists k. split_and!; [done | lia | lia | done].
    + intros [Hw | (sp' & k & [= <-] & Hk & Hw)]; [done|].
      destruct (decide (k = S (star_ti s))) as [->|]; [by left|].
      right. exists sp, k. split_and!; [done | lia | lia | done].
Qed.

(** At the end of the text no other position of the star can do. *)
Lemma at_end s :
  cursor_ok s -> ti s = length text -> (only_stars star (drop (pi s) pattern) = true <-> stands_for s).
Proof using.
  intros Hok Ht. rewrite <- wild_empty_text. unfold stands_for. rewrite Ht, drop_all. split; [by left|].
  intros [Hw | (sp & k & Hsp & Hk & Hw)]; [done|].
  destruct (other_position s sp k Hok Hsp Hk Hw) as (j & Hj & _). lia.
Qed.

Lemma match_loop_spec fuel s :
  cursor_ok s -> (rounds s <= fuel)%nat ->
  exists b, match_loop pattern text star fuel s = Some b /\ (b = true <-> stands_for s).
Proof using.
  revert s. induction fuel as [|fuel IH]; intros s Hok Hr; cbn [match_loop].
  { destruct (Nat.ltb_spec (ti s) (length text)).
    - exfalso. destruct (ck_bounds s Hok). pose proof (ck_pi _ Hok). unfold rounds in Hr. nia.
    - eexists. split; [done|]. apply at_end; [done|]. pose proof (ck_ti _ Hok). lia. }
  destruct (Nat.ltb_spec (ti s) (length text)) as [Ht|].
  2: { eexists. split; [done|]. apply at_end; [done|]. pose proof (ck_ti _ Hok). lia. }
  assert (Hnext : forall s', cursor_ok s' /\ (rounds s' < rounds s)%nat /\ (stands_for s' <-> stands_for s) ->
    exists b, match_loop pattern text star fuel s' = Some b /\ (b = true <-> stands_for s)).
  { intros s' (Hok' & Hr' & Hst). destruct (IH s' Hok' ltac:(lia)) as (b & Hb & Hiff).
    exists b. split; [done|]. by rewrite Hiff. }
  destruct (lookup_lt_is_Some_2 text (ti s) Ht) as [d Hd].
  unfold at_star, units_equal. rewrite Hd.
  destruct (Nat.ltb_spec (pi s) (length pattern)) as [Hp|Hp]; cbn [andb].
  - destruct (lookup_lt_is_Some_2 pattern (pi s) Hp) as [c Hc]. rewrite Hc.
    case_bool_decide as Hstar; [simplify_eq; by apply Hnext, step_star|].
    case_bool_decide as Heq; [subst d; apply Hnext; eapply step_unit; eauto; congruence|].
    assert (Hnw : ~ wild star (drop (pi s) pattern) (drop (ti s) text)).
    { rewrite (drop_S pattern _ _ Hc), (drop_S text _ _ Hd), wild_units by congruence. tauto. }
    destruct (star_pi s) as [sp|] eqn:Hsp; [rewrite <- Hsp; by apply Hnext, step_back|].
    exists false. split; [done|]. split; [done|]. intros [?|(? & ? & ? & _)]; congruence.
  - assert (Hnw : ~ wild star (drop (pi s) pattern) (drop (ti s) text)).
    { rewrite drop_ge by lia. rewrite wild_empty_pattern, (drop_S text _ _ Hd). done. }
    destruct (star_pi s) as [sp|] eqn:Hsp; [rewrite <- Hsp; by apply Hnext, step_back|].
    exists false. split; [done|]. split; [done|]. intros [?|(? & ? & ? & _)]; congruence.
Qed.

Lemma segment_match_units_spec :
  exists b, segment_match_units pattern text star = Some b /\ (b = true <-> wild star pattern text).
Proof using.
  destruct (match_loop_spec (match_fuel pattern text) (mkCursor 0 0 None 0)) as (b & Hb & Hiff).
  - split; cbn; [lia | lia | done | done].
  - unfold rounds, after_star, match_fuel; cbn. nia.
  - exists b. split; [done|]. rewrite Hiff. unfold stands_for; cbn. split; [|by left].
    intros [?|(? & ? & ? & _)]; done.
Qed.

(** The backtracking matcher of one segment ends and decides the wildcard
    reading of the pattern: it answers within its bound of rounds, and answers
    yes exactly when the text is the pattern with each star replaced by some
    sequence. *)
Theorem segment_match_units_correct :
  exists b, segment_match_units pattern text star = Some b /\ (b = true <-> wild star pattern text).
Proof using. apply segment_match_units_spec. Qed.

End units_spec.

Lemma is_ascii_bytes s : is_ascii s = true -> as_bytes s = s.
Proof.
  unfold is_ascii, as_bytes. induction s as [|c s IH]; [done|]. cbn. intros [Hc Hs]%andb_true_iff.
  rewrite IH by done. unfold utf8_char. by rewrite Hc.
Qed.

Lemma segment_match_spec p t : segment_match p t = true <-> wild 42 p t.
Proof.
  unfold segment_match. destruct (is_ascii p && is_ascii t) eqn:Ha.
  - apply andb_true_iff in Ha as [Hp Ht]. rewrite !is_ascii_bytes by done.
    destruct (segment_match_units_spec p t 42) as (b & -> & Hb). done.
  - destruct (segment_match_units_spec p t 42) as (b & -> & Hb). done.
Qed.

(** ** Reference: what a path pattern covers *)

(** [**] stands for any number of segments, every other segment for one that
    matches it. *)
Inductive covers : list str -> list str -> Prop :=
| covers_nil : covers [] []
| covers_segment s p x t : s <> $"**" -> wild 42 s x -> covers p t -> covers (s :: p) (x :: t)
| covers_skip p t : covers p t -> covers ($"**" :: p) t
| covers_take x p t : covers ($"**" :: p) t -> covers ($"**" :: p) (x :: t).

(** The same read from the right, as the automaton processes it. *)
Lemma covers_app p1 p2 t1 t2 : covers p1 t1 -> covers p2 t2 -> covers (p1 ++ p2) (t1 ++ t2).
Proof. induction 1; cbn; intros; [done | by constructor; auto | by constructor; auto..]. Qed.

Lemma covers_split p1 p2 t :
  covers (p1 ++ p2) t -> exists t1 t2, t = t1 ++ t2 /\ covers p1 t1 /\ covers p2 t2.
Proof.
  intros H. remember (p1 ++ p2) as p eqn:Ep. revert p1 Ep.
  induction H as [|s p x t Hs Hw Hc IH|p t Hc IH|x p t Hc IH]; intros p1 Ep.
  - apply eq_sym, app_eq_nil in Ep as [-> ->]. exists [], []. split_and!; [done | constructor..].
  - destruct p1 as [|s' p1]; cbn in Ep; [subst; exists [], (x :: t); split_and!; [done | constructor | by constructor]|].
    simplify_eq. destruct (IH p1 eq_refl) as (t1 & t2 & -> & H1 & H2).
    exists (x :: t1), t2. split_and!; [done | by constructor | done].
  - destruct p1 as [|s' p1]; cbn in Ep; [subst; exists [], t; split_and!; [done | constructor | by constructor]|].
    simplify_eq. destruct (IH p1 eq_refl) as (t1 & t2 & -> & H1 & H2).
    exists t1, t2. split_and!; [done | by constructor | done].
  - destruct p1 as [|s' p1]; cbn in Ep; [subst; exists [], (x :: t); split_and!; [done | constructor | by constructor]|].
    simplify_eq. destruct (IH ($"**" :: p1) eq_refl) as (t1 & t2 & -> & H1 & H2).
    exists (x :: t1), t2. split_and!; [done | by constructor | done].
Qed.

Lemma covers_double_star t : covers [ $"**" ] t.
Proof. induction t; [constructor; constructor | by apply covers_take]. Qed.

Lemma covers_one s t : s <> $"**" -> covers [s] t <-> exists x, t = [x] /\ wild 42 s x.
Proof.
  intros Hs. split.
  - intros H. inversion H as [|? ? x t' _ Hw Hc| |]; simplify_eq. inversion Hc; subst. by exists x.
  - intros (x & -> & Hw). apply covers_segment; [done | done | constructor].
Qed.

(** ** The automaton *)

(** State [i] says whether the pattern so far covers the first [i] segments. *)
Record row_ok (path pat : list str) (states : list bool) : Prop := {
  ro_length : length states = S (length path);
  ro_states : forall i b, states !! i = Some b -> (b = true <-> covers pat (take i path)) }.

Lemma double_star_row_length r states : length (double_star_row r states) = length states.
Proof. revert r; induction states as [|s l IH]; intros r; cbn; [done | by rewrite IH]. Qed.

Lemma double_star_row_lookup r states i b :
  double_star_row r states !! i = Some b ->
  b = true <-> r = true \/ exists j, (j <= i)%nat /\ states !! j = Some true.
Proof.
  revert r i; induction states as [|s l IH]; intros r i Hi; [done|]. cbn [double_star_row] in Hi.
  destruct i as [|i].
  - injection Hi as <-. rewrite orb_true_iff. split.
    + intros [?| ->]; [by left | right; exists 0%nat; split; [lia | done]].
    + intros [?|(j & Hj & Hs)]; [by left | right]. destruct j; [by injection Hs | lia].
  - change (double_star_row (r || s) l !! i = Some b) in Hi. rewrite (IH _ _ Hi), orb_true_iff. split.
    + intros [[?| ->]|(j & Hj & Hs)]; [by left | right; exists 0%nat; split; [lia | done] |].
      right. exists (S j). split; [lia | done].
    + intros [?|(j & Hj & Hs)]; [by left; left|]. destruct j as [|j]; [left; right; by injection Hs|].
      right. exists j. split; [lia | done].
Qed.

Lemma row_double_star path pat states :
  row_ok path pat states -> row_ok path (pat ++ [ $"**" ]) (double_star_row false states).
Proof.
  intros [Hl Hs]. split; [by rewrite double_star_row_length|]. intros i b Hi.
  rewrite (double_star_row_lookup _ _ _ _ Hi).
  pose proof (lookup_lt_Some _ _ _ Hi) as Hlt. rewrite double_star_row_length, Hl in Hlt. split.
  - intros [?|(j & Hj & Ht)]; [done|]. apply (Hs j true) in Ht.
    assert (Hc : covers pat (take j path)) by by apply Ht.
    replace (take i path) with (take j path ++ drop j (take i path)).
    + apply covers_app; [done | apply covers_double_star].
    + rewrite <- (take_drop j (take i path)) at 2. rewrite take_take. by rewrite Nat.min_l by lia.
  - intros (t1 & t2 & Ht & H1 & _)%covers_split. right. exists (length t1).
    assert (Hl1 : (length t1 <= i)%nat).
    { apply (f_equal length) in Ht. rewrite length_take, length_app in Ht. lia. }
    split; [done|]. destruct (lookup_lt_is_Some_2 states (length t1)) as [b1 Hb1]; [lia|].
    rewrite Hb1. f_equal. apply (Hs _ _ Hb1).
    replace (take (length t1) path) with t1; [done|].
    replace (take (length t1) path) with (take (length t1) (take i path)) by (rewrite take_take; f_equal; lia).
    by rewrite Ht, take_app_length.
Qed.

Lemma row_segment path pat states seg :
  seg <> $"**" -> row_ok path pat states -> row_ok path (pat ++ [seg]) (segment_row seg states path).
Proof.
  intros Hseg [Hl Hs]. unfold segment_row. split.
  - cbn. rewrite length_zip_with. lia.
  - intros [|i] b Hi.
    + injection Hi as <-. split; [done|]. intros (t1 & t2 & Ht & _ & H2)%covers_split.
      apply covers_one in H2 as (x & -> & _); [|done]. by destruct t1.
    + change (zip_with (fun s part => s && segment_match seg part) states path !! i = Some b) in Hi.
      apply lookup_zip_with_Some in Hi as (s & x & -> & Hst & Hx).
      rewrite andb_true_iff, segment_match_spec, (Hs _ _ Hst), (take_S_r _ _ _ Hx). split.
      * intros [Hc Hw]. apply covers_app; [done|]. apply covers_one; [done | by exists x].
      * intros (t1 & t2 & Ht & H1 & H2)%covers_split. apply covers_one in H2 as (y & -> & Hw); [|done].
        by apply app_inj_tail in Ht as [-> ->].
Qed.

Lemma glob_match_segments_spec pat path : glob_match_segments pat path = true <-> covers pat path.
Proof.
  unfold glob_match_segments.
  assert (Hrow : forall pat done_ states, row_ok path done_ states ->
    row_ok path (done_ ++ pat) (foldl (next_row path) states pat)).
  { clear pat. induction pat as [|seg pat IH]; intros done_ states Hr; cbn [foldl]; [by rewrite app_nil_r|].
    replace (done_ ++ seg :: pat) with ((done_ ++ [seg]) ++ pat) by (by rewrite <- app_assoc).
    apply IH. unfold next_row. case_bool_decide; [subst; by apply row_double_star | by apply row_segment]. }
  destruct (Hrow pat [] (true :: replicate (length path) false)) as [Hl Hs].
  { split; [cbn; by rewrite length_replicate|]. intros [|i] b Hb.
    - injection Hb as <-. split; [constructor | done].
    - change (replicate (length path) false !! i = Some b) in Hb. apply lookup_replicate in Hb as [-> Hi].
      split; [done|]. destruct path; [cbn in Hi; lia|]. by inversion 1. }
  cbn [app] in Hs. rewrite last_lookup, Hl. cbn [pred].
  set (row := foldl _ _ pat) in *. destruct (lookup_lt_is_Some_2 row (length path)) as [b Hb]; [rewrite Hl; lia|].
  rewrite Hb. cbn. rewrite (Hs _ _ Hb). by rewrite firstn_all.
Qed.

(** C35. A pattern suppresses exactly the paths it covers: within the size
    limits the decision is the declarative one, [**] standing for any number of
    segments, [*] for any text inside one, and a trailing slash for everything
    below; beyond the limits nothing is suppressed. *)
Theorem pattern_matches_path_iff (pattern path : str) :
  pattern_matches_path pattern path = true <->
  segments_oversize (pattern_segments pattern) = false /\
  segments_oversize (split_segments path) = false /\
  covers (pattern_segments pattern) (split_segments path).
Proof.
  unfold pattern_matches_path. rewrite <- glob_match_segments_spec.
  destruct (segments_oversize (pattern_segments pattern)), (segments_oversize (split_segments path)); cbn; naive_solver.
Qed.

(** ** The index *)

Lemma no_star_wild s x : contains_star s = false -> wild 42 s x -> s = x.
Proof.
  intros Hs Hw. unfold contains_star in Hs.
  induction Hw as [|c p t Hc Hw IH|p t Hw IH|c p t Hw IH]; cbn [existsb] in Hs; [done | | done..].
  apply orb_false_iff in Hs as [_ Hs]. by rewrite IH.
Qed.

(** A pattern with a literal first segment needs that segment in front. *)
Lemma literal_first_matches s p path :
  s <> $"**" -> contains_star s = false -> glob_match_segments (s :: p) path = true ->
  exists rest, path = s :: rest.
Proof.
  intros Hd Hs Hm%glob_match_segments_spec. inversion Hm; simplify_eq.
  erewrite (no_star_wild s) by done. eauto.
Qed.

Definition glob_test (path_segments : list str) (glob : CompiledGlob) : bool :=
  negb (oversize glob) && glob_match_segments (segments glob) path_segments.

(** The decision of an index on the segments of a path within the limits. *)
Definition index_decides (self : PathGlobIndex) (path_segments : list str) : bool :=
  match path_segments with
  | [] => existsb (glob_test []) (empty_pattern self) || existsb (glob_test []) (wild_first self)
  | first :: _ =>
      existsb (glob_test path_segments) (default [] (literal_first self !! first)) ||
      existsb (glob_test path_segments) (wild_first self)
  end.

Lemma add_glob_decides self pattern path_segments :
  index_decides (add_glob self pattern) path_segments =
  index_decides self path_segments || glob_test path_segments (compile_glob pattern).
Proof.
  unfold add_glob. destruct (segments (compile_glob pattern)) as [|first rest] eqn:Es.
  - unfold index_decides. destruct path_segments as [|x xs]; cbn [literal_first wild_first empty_pattern].
    + rewrite existsb_app. cbn [existsb]. btauto.
    + replace (glob_test (x :: xs) (compile_glob pattern)) with false; [btauto|].
      unfold glob_test. rewrite Es. symmetry. apply andb_false_iff. right. apply not_true_iff_false.
      rewrite glob_match_segments_spec. by inversion 1.
  - destruct (bool_decide (first = $"**") || contains_star first) eqn:Ew.
    + unfold index_decides. destruct path_segments; cbn [literal_first wild_first empty_pattern];
        rewrite existsb_app; cbn [existsb]; btauto.
    + apply orb_false_iff in Ew as [Hd%bool_decide_eq_false Hst].
      unfold index_decides. destruct path_segments as [|x xs]; cbn [literal_first wild_first empty_pattern].
      * replace (glob_test [] (compile_glob pattern)) with false; [btauto|].
        unfold glob_test. rewrite Es. symmetry. apply andb_false_iff. right. apply not_true_iff_false.
        intros Hm. by apply literal_first_matches in Hm as (? & ?).
      * destruct (decide (x = first)) as [->|Hne].
        -- rewrite lookup_insert_eq. cbn [from_option id]. rewrite existsb_app. cbn [existsb]. btauto.
        -- rewrite lookup_insert_ne by done.
           replace (glob_test (x :: xs) (compile_glob pattern)) with false; [btauto|].
           unfold glob_test. rewrite Es. symmetry. apply andb_false_iff. right. apply not_true_iff_false.
           intros Hm. apply literal_first_matches in Hm as (? & [= ? ?]); done.
Qed.

Lemma index_matches_decides self path :
  index_matches self path =
  negb (segments_oversize (split_segments path)) && index_decides self (split_segments path).
Proof.
  unfold index_matches, index_decides, glob_test. destruct (segments_oversize (split_segments path)); [done|].
  cbn [negb andb]. destruct (split_segments path) as [|x xs]; [done|].
  by destruct (literal_first self !! x).
Qed.

Lemma build_sources ps :
  source_instance_id (build ps) = instance_id ps /\ source_mutation_epoch (build ps) = mutation_epoch ps.
Proof.
  unfold build. generalize (patterns ps) as l. intros l.
  assert (Hgen : forall self, source_instance_id (foldl add_glob self l) = source_instance_id self /\
    source_mutation_epoch (foldl add_glob self l) = source_mutation_epoch self); [|by destruct (Hgen (mkIndex ∅ [] [] (instance_id ps) (mutation_epoch ps)))].
  induction l as [|p l IH]; intros self; cbn [foldl]; [done|].
  destruct (IH (add_glob self p)) as [-> ->]. unfold add_glob. by repeat case_match.
Qed.

Lemma build_decides ps path_segments :
  index_decides (build ps) path_segments =
  existsb (fun p => glob_test path_segments (compile_glob p)) (patterns ps).
Proof.
  unfold build. generalize (patterns ps) as l. intros l.
  assert (Hgen : forall self, index_decides (foldl add_glob self l) path_segments =
    index_decides self path_segments || existsb (fun p => glob_test path_segments (compile_glob p)) l).
  { induction l as [|p l IH]; intros self; cbn [foldl existsb]; [by rewrite orb_false_r|].
    rewrite IH, add_glob_decides. btauto. }
  rewrite Hgen. unfold index_decides. destruct path_segments; cbn [literal_first wild_first empty_pattern existsb];
    rewrite ?lookup_empty; done.
Qed.

(** The bucketed index is the plain sweep over the rules: for every list of
    patterns and every path it answers whether some pattern matches the path,
    and an index built from another state of the list is rebuilt before it is
    asked. *)
Lemma path_matches_sweep (ps : ObservedPaths) (index : PathGlobIndex) (normalized : str) :
  (matches_sources index ps = true -> index = build ps) ->
  path_matches index ps normalized =
  existsb (fun pattern => pattern_matches_path pattern normalized) (patterns ps).
Proof.
  intros Hindex. unfold path_matches.
  replace (if matches_sources index ps then index_matches index normalized
           else index_matches (build ps) normalized)
    with (index_matches (build ps) normalized).
  2: { destruct (matches_sources index ps); [by rewrite Hindex | done]. }
  rewrite index_matches_decides, build_decides. set (segs := split_segments normalized).
  unfold pattern_matches_path, glob_test. fold segs.
  induction (patterns ps) as [|p l IH]; cbn [existsb]; [by rewrite andb_false_r|].
  rewrite <- IH. cbn [compile_glob segments oversize].
  destruct (segments_oversize segs), (segments_oversize (pattern_segments p)); cbn [negb andb orb]; done.
Qed.

(** ** Examples *)

Example glob_examples :
  pattern_matches_path $"docs/**/*.md" $"docs/a/b/c.md" = true /\
  pattern_matches_path $"build/" $"build/x/y" = true /\
  pattern_matches_path $"src/*.rs" $"src/a/b.rs" = false /\
  normalize_path $"./a/../b//c" = $"b/c".
Proof. by vm_compute. Qed.
