(* ===== verification/AllowlistMeta.v ===== *)
(** * Inline metadata of allowlist entries ([crates/core/src/allowlist/metadata.rs])

    The trailer of an allowlist line carries [reason], [expires] and
    [approved_by] fields: a quote-aware tokenizer, the unquoting of values, and
    the calendar arithmetic behind expiry dates. *)

From S2P Require Import Prelude.

(** ** Dates *)

(** [Result<i64, String>] of a clock reading: seconds before or after the epoch. *)
Definition i64_max : Z := 2 ^ 63 - 1.

Inductive ClockError := BeforeEpoch | TooLarge.

(** [now]: seconds since the epoch, [None] when the clock is before it. *)
Definition days_since_epoch (now : option Z) : result Z ClockError :=
  match now with
  | None => Err BeforeEpoch
  | Some secs => if secs <=? i64_max then Ok (secs / 86400) else Err TooLarge
  end.

(** Division of [i64] and [u32] truncates toward zero. *)
Definition civil_from_days (days : Z) : Z * Z * Z :=
  let z := days + 719468 in
  let era := Z.quot (if 0 <=? z then z else z - 146096) 146097 in
  let doe := z - era * 146097 in
  let yoe := (doe - doe / 1460 + doe / 36524 - doe / 146096) / 365 in
  let y := yoe + era * 400 in
  let doy := doe - (365 * yoe + yoe / 4 - yoe / 100) in
  let mp := (5 * doy + 2) / 153 in
  let d := doy - (153 * mp + 2) / 5 + 1 in
  let m := if mp <? 10 then mp + 3 else mp - 9 in
  let year := y + (if m <=? 2 then 1 else 0) in
  (year, m, d).

(** [{:0w}]: zero padding to a width, after the sign. *)
Definition pad_zero (w : nat) (digits : str) : str := replicate (w - length digits) 48 ++ digits.
Definition fmt_year (y : Z) : str :=
  if y <? 0 then 45 :: pad_zero 3 (display_u64 (- y)) else pad_zero 4 (display_u64 y).

Definition yyyy_mm_dd_from_days (days : Z) : str :=
  let '(year, m, d) := civil_from_days days in
  fmt_year year ++ $"-" ++ pad_zero 2 (display_u64 m) ++ $"-" ++ pad_zero 2 (display_u64 d).

Definition is_leap_year (year : Z) : bool :=
  ((Z.rem year 4 =? 0) && negb (Z.rem year 100 =? 0)) || (Z.rem year 400 =? 0).

Definition days_in_month (year month : Z) : Z :=
  if existsb (Z.eqb month) [1; 3; 5; 7; 8; 10; 12] then 31
  else if existsb (Z.eqb month) [4; 6; 9; 11] then 30
  else if month =? 2 then (if is_leap_year year then 29 else 28)
  else 0.

Definition days_from_civil (year month day : Z) : Z :=
  let y := year - (if month <=? 2 then 1 else 0) in
  let era := Z.quot (if 0 <=? y then y else y - 399) 400 in
  let yoe := y - era * 400 in
  let doy := (153 * (month + (if 2 <? month then -3 else 9)) + 2) / 5 + day - 1 in
  let doe := yoe * 365 + yoe / 4 - yoe / 100 + doy in
  era * 146097 + doe - 719468.

Fixpoint parse_fixed (value : Z) (bs : bytes) : option Z :=
  match bs with
  | [] => Some value
  | byte :: bs' => if is_ascii_digit byte then parse_fixed (value * 10 + (byte - 48)) bs' else None
  end.
Definition parse_fixed_u32 (bs : bytes) : option Z := parse_fixed 0 bs.

Definition parse_yyyy_mm_dd_days (input : str) : option Z :=
  let bs := as_bytes input in
  if negb (zlen bs =? 10) || negb (bool_decide (bs !! 4%nat = Some 45)) || negb (bool_decide (bs !! 7%nat = Some 45))
  then None
  else
    match parse_fixed_u32 (take 4 bs), parse_fixed_u32 (take 2 (drop 5 bs)), parse_fixed_u32 (take 2 (drop 8 bs)) with
    | Some year, Some month, Some day =>
        if negb ((1 <=? month) && (month <=? 12)) then None
        else if (day =? 0) || (days_in_month year month <? day) then None
        else Some (days_from_civil year month day)
    | _, _, _ => None
    end.

(** ** Tokens *)

Record MetadataTokens := mkTokens { tokens : list str; unterminated_quote : option Z }.

(** The scan state: finished tokens, the current one (reversed), the active
    quote and the escape flag. *)
Record scan := mkScan { done_ : list str; current : str; quote : option Z; escaped : bool }.

Definition scan_char (s : scan) (ch : Z) : scan :=
  if escaped s then mkScan (done_ s) (ch :: current s) (quote s) false
  else
    match quote s with
    | Some active =>
        if ch =? 92 then mkScan (done_ s) (ch :: current s) (quote s) true
        else if active =? ch then mkScan (done_ s) (ch :: current s) None false
        else mkScan (done_ s) (ch :: current s) (quote s) false
    | None =>
        if (ch =? 34) || (ch =? 39) then mkScan (done_ s) (ch :: current s) (Some ch) false
        else if ch =? 59 then mkScan (done_ s ++ [rev (current s)]) [] None false
        else mkScan (done_ s) (ch :: current s) None false
    end.

Definition metadata_tokens (s : str) : MetadataTokens :=
  let f := foldl scan_char (mkScan [] [] None false) s in
  mkTokens (done_ f ++ [rev (current f)]) (quote f).

(** ** Values *)

Fixpoint unescape (inner : str) : str :=
  match inner with
  | [] => []
  | ch :: rest =>
      if ch =? 92 then
        match rest with
        | [] => [92]
        | e :: rest' =>
            if (e =? 34) || (e =? 39) || (e =? 92) then e :: unescape rest' else 92 :: e :: unescape rest'
        end
      else ch :: unescape rest
  end.

(** Quote characters are ASCII, so the byte tests read the first and last
    characters. *)
Definition quoted (value : str) : bool :=
  (2 <=? str_len value) &&
  ((bool_decide (head value = Some 34) && bool_decide (last value = Some 34)) ||
   (bool_decide (head value = Some 39) && bool_decide (last value = Some 39))).

Definition unquote_metadata_value (value : str) : str :=
  if negb (quoted value) then value
  else unescape (take (length value - 2) (drop 1 value)).

Record InlineMetadata := mkMeta {
  reason : option str; expires : option str; approved_by : option str;
  unknown_keys : list str; malformed_tokens : list str }.

Definition empty_meta : InlineMetadata := mkMeta None None None [] [].

Definition duplicate_detail (key : str) : str :=
  $"duplicate metadata key `" ++ key ++ $"`; specify it at most once per entry".

Definition add_malformed (detail : str) (m : InlineMetadata) : InlineMetadata :=
  mkMeta (reason m) (expires m) (approved_by m) (unknown_keys m) (malformed_tokens m ++ [detail]).

(** [assign_unique_field]: the new field and the malformed tokens. *)
Definition assign_unique_field (field : option str) (key value : str) (malformed : list str) :
    option str * list str :=
  match field with
  | Some _ => (field, malformed ++ [duplicate_detail key])
  | None => (Some value, malformed)
  end.

(** The [match key] of one token. *)
Definition set_field (key value : str) (m : InlineMetadata) : InlineMetadata :=
  if bool_decide (key = $"reason") then
    let '(f, bad) := assign_unique_field (reason m) key value (malformed_tokens m) in
    mkMeta f (expires m) (approved_by m) (unknown_keys m) bad
  else if bool_decide (key = $"expires") then
    let '(f, bad) := assign_unique_field (expires m) key value (malformed_tokens m) in
    mkMeta (reason m) f (approved_by m) (unknown_keys m) bad
  else if bool_decide (key = $"approved_by") then
    let '(f, bad) := assign_unique_field (approved_by m) key value (malformed_tokens m) in
    mkMeta (reason m) (expires m) f (unknown_keys m) bad
  else mkMeta (reason m) (expires m) (approved_by m) (unknown_keys m ++ [key]) (malformed_tokens m).

Definition apply_token (m : InlineMetadata) (raw : str) : InlineMetadata :=
  let token := trim raw in
  match token with
  | [] => m
  | _ =>
      match split_once $"=" token with
      | None => add_malformed ($"metadata token `" ++ token ++ $"` is missing `=`") m
      | Some (k, v) => set_field (trim k) (unquote_metadata_value (trim v)) m
      end
  end.

Definition parse_inline_metadata (s : str) : InlineMetadata :=
  let parsed := metadata_tokens s in
  let m := match unterminated_quote parsed with
           | Some q => add_malformed ($"unterminated " ++ [q] ++ $" quote in metadata trailer") empty_meta
           | None => empty_meta
           end in
  foldl apply_token m (tokens parsed).

Example dates :
  yyyy_mm_dd_from_days 0 = $"1970-01-01" /\ parse_yyyy_mm_dd_days $"2024-02-29" = Some 19782 /\
  yyyy_mm_dd_from_days 19782 = $"2024-02-29" /\ parse_yyyy_mm_dd_days $"2023-02-29" = None /\
  yyyy_mm_dd_from_days (-719529) = $"-001-12-31" /\
  expires (parse_inline_metadata $" reason='a;\'b'; expires=2026-01-01") = Some $"2026-01-01" /\
  reason (parse_inline_metadata $" reason='a;\'b'; expires=2026-01-01") = Some $"a;'b".
Proof. repeat split; by_eval. Qed.

(** ** Calendar *)

Lemma yoe_formula c q r doy :
  0 <= c <= 3 -> 0 <= q <= 24 -> 0 <= r <= 3 -> 0 <= doy <= 365 ->
  (doy = 365 -> r = 3 /\ (q < 24 \/ c = 3)) ->
  let doe := 36524 * c + 1461 * q + 365 * r + doy in
  (doe - doe / 1460 + doe / 36524 - doe / 146096) / 365 = 100 * c + 4 * q + r.
Proof.
  intros Hc Hq Hr Hd Hl doe. apply div_unique_bounds; [lia|].
  assert (H4 : doe / 146096 = if decide (doe = 146096) then 1 else 0).
  { apply div_unique_bounds; [lia|]. case_decide; lia. }
  assert (H3 : doe / 36524 = if decide (doe = 146096) then 4 else c).
  { apply div_unique_bounds; [lia|]. case_decide; lia. }
  rewrite H3, H4. subst doe. 
  Z.div_mod_to_equations; case_decide; lia.
Qed.

Lemma doe_split doe :
  0 <= doe < 146097 ->
  exists c q r doy, 0 <= c <= 3 /\ 0 <= q <= 24 /\ 0 <= r <= 3 /\ 0 <= doy <= 365 /\
    (doy = 365 -> r = 3 /\ (q < 24 \/ c = 3)) /\ doe = 36524 * c + 1461 * q + 365 * r + doy.
Proof.
  intros H. set (c := Z.min 3 (doe / 36524)). set (d1 := doe - 36524 * c).
  set (q := d1 / 1461). set (d2 := d1 - 1461 * q). set (r := Z.min 3 (d2 / 365)).
  exists c, q, r, (d2 - 365 * r). subst d1 d2.
  assert (Hc : 0 <= c <= 3 /\ 0 <= doe - 36524 * c <= 36524 /\ (doe - 36524 * c = 36524 -> c = 3)).
  { subst c. clear q r. Z.div_mod_to_equations. lia. }
  clearbody c.
  assert (Hq : 0 <= q <= 24 /\ 0 <= doe - 36524 * c - 1461 * q <= 1460).
  { subst q. clear r. Z.div_mod_to_equations. lia. }
  assert (Hr : 0 <= r <= 3 /\ 0 <= doe - 36524 * c - 1461 * q - 365 * r <= 365 /\
               (doe - 36524 * c - 1461 * q - 365 * r = 365 -> r = 3)).
  { subst r. clearbody q. Z.div_mod_to_equations. lia. }
  lia.
Qed.

Lemma yoe_parts c q r : 0 <= c <= 3 -> 0 <= q <= 24 -> 0 <= r <= 3 ->
  let yoe := 100 * c + 4 * q + r in
  yoe * 365 + yoe / 4 - yoe / 100 = 36524 * c + 1461 * q + 365 * r.
Proof. intros. subst yoe. Z.div_mod_to_equations. lia. Qed.

Lemma quot_floor y n : 0 < n -> Z.quot (if 0 <=? y then y else y - (n - 1)) n = y / n.
Proof.
  intros Hn. destruct (Z.leb_spec 0 y) as [H|H].
  - by apply Z.quot_div_nonneg.
  - rewrite <- (Z.opp_involutive (y - (n - 1))), Z.quot_opp_l by lia. rewrite Z.quot_div_nonneg by lia.
    symmetry. apply div_unique_bounds; [done|]. Z.div_mod_to_equations. lia.
Qed.

Lemma rem_zero a n : 0 < n -> (Z.rem a n =? 0) = (a mod n =? 0).
Proof.
  intros Hn. destruct (Z.eqb_spec (a mod n) 0) as [H|H].
  - apply Z.eqb_eq. apply Z.rem_divide; [lia|]. apply Z.mod_divide; lia.
  - apply Z.eqb_neq. intros H'. apply H, Z.mod_divide; [lia|]. apply Z.rem_divide; lia.
Qed.

Lemma is_leap_year_spec y :
  is_leap_year y = ((y mod 4 =? 0) && negb (y mod 100 =? 0)) || (y mod 400 =? 0).
Proof. unfold is_leap_year. by rewrite !rem_zero by lia. Qed.

(** ** Reference calendar: the day after a date *)

Definition valid_date (y m d : Z) : Prop := 1 <= m <= 12 /\ 1 <= d <= days_in_month y m.

Definition next_day (y m d : Z) : Z * Z * Z :=
  if d <? days_in_month y m then (y, m, d + 1)
  else if m <? 12 then (y, m + 1, 1) else (y + 1, 1, 1).

(** Days before a month in a year that starts in March, and its length. *)
Definition march_month (m : Z) : Z := if 2 <? m then m - 3 else m + 9.

Lemma month_cases m (P : Z -> Prop) :
  1 <= m <= 12 -> P 1 -> P 2 -> P 3 -> P 4 -> P 5 -> P 6 -> P 7 -> P 8 -> P 9 -> P 10 -> P 11 -> P 12 -> P m.
Proof.
  intros Hm. intros. assert (m = 1 \/ m = 2 \/ m = 3 \/ m = 4 \/ m = 5 \/ m = 6 \/ m = 7 \/ m = 8 \/ m = 9 \/
    m = 10 \/ m = 11 \/ m = 12) as Hc by lia.
  by repeat destruct Hc as [-> | Hc]; [..|subst].
Qed.

(** A date through its era, its year of the era split at leap years, and its
    day of a year that starts in March. *)
Record civil_view (y m d era c q r doy : Z) : Prop := {
  cv_c : 0 <= c <= 3; cv_q : 0 <= q <= 24; cv_r : 0 <= r <= 3; cv_doy : 0 <= doy <= 365;
  cv_leap : doy = 365 -> r = 3 /\ (q < 24 \/ c = 3);
  cv_year : y - (if m <=? 2 then 1 else 0) = 400 * era + (100 * c + 4 * q + r);
  cv_month : (5 * doy + 2) / 153 = march_month m;
  cv_day : doy = (153 * march_month m + 2) / 5 + d - 1 }.

Lemma view_days y m d era c q r doy :
  civil_view y m d era c q r doy ->
  days_from_civil y m d = era * 146097 + (36524 * c + 1461 * q + 365 * r + doy) - 719468.
Proof.
  intros []. unfold days_from_civil. cbv zeta. rewrite (quot_floor _ 400) by lia.
  assert (He : (y - (if m <=? 2 then 1 else 0)) / 400 = era) by (apply div_unique_bounds; lia).
  rewrite He, cv_year0.
  replace (400 * era + (100 * c + 4 * q + r) - era * 400) with (100 * c + 4 * q + r) by lia.
  rewrite yoe_parts by done. rewrite cv_day0. unfold march_month.
  destruct (2 <? m); [replace (m + -3) with (m - 3) by lia|]; lia.
Qed.

Lemma view_civil y m d era c q r doy :
  1 <= m <= 12 -> civil_view y m d era c q r doy ->
  civil_from_days (era * 146097 + (36524 * c + 1461 * q + 365 * r + doy) - 719468) = (y, m, d).
Proof.
  intros Hm []. unfold civil_from_days. cbv zeta.
  rewrite Z.sub_add. rewrite (quot_floor _ 146097) by lia.
  remember (36524 * c + 1461 * q + 365 * r + doy) as doe eqn:Hdoe.
  assert (He : (era * 146097 + doe) / 146097 = era) by (apply div_unique_bounds; lia).
  rewrite He. replace (era * 146097 + doe - era * 146097) with doe by lia.
  pose proof (yoe_formula c q r doy cv_c0 cv_q0 cv_r0 cv_doy0 cv_leap0) as Hy. cbv zeta in Hy.
  rewrite <- Hdoe in Hy. rewrite Hy.
  replace (365 * (100 * c + 4 * q + r)) with ((100 * c + 4 * q + r) * 365) by lia.
  rewrite yoe_parts by done. replace (doe - (36524 * c + 1461 * q + 365 * r)) with doy by (lia).
  rewrite cv_month0.
  assert (Hmm : (if march_month m <? 10 then march_month m + 3 else march_month m - 9) = m).
  { unfold march_month. clear - Hm. destruct (Z.ltb_spec 2 m);
      match goal with |- context [?x <? 10] => destruct (Z.ltb_spec x 10) end; lia. }
  rewrite Hmm. repeat f_equal; lia.
Qed.

Lemma era_split y : exists era yoe, y = 400 * era + yoe /\ 0 <= yoe < 400.
Proof.
  exists (y / 400), (y mod 400). split; [apply Z.div_mod; lia | apply Z.mod_pos_bound; lia].
Qed.

Lemma valid_view y m d :
  valid_date y m d -> exists era c q r doy, civil_view y m d era c q r doy.
Proof.
  intros [Hm Hd].
  destruct (era_split (y - (if m <=? 2 then 1 else 0))) as (era & yoe & Hyy & Hy).
  exists era, (yoe / 100), (yoe mod 100 / 4), (yoe mod 4), ((153 * march_month m + 2) / 5 + d - 1).
  assert (Hdm : d <= if m =? 2 then (if is_leap_year y then 29 else 28) else
     if existsb (Z.eqb m) [4; 6; 9; 11] then 30 else 31).
  { revert Hd. clear. unfold days_in_month. cbn [existsb]. intros. repeat case_match; reflect_bool; lia. }
  assert (Hleap : m = 2 -> is_leap_year y = true -> yoe mod 4 = 3 /\ (yoe mod 100 / 4 < 24 \/ yoe / 100 = 3)).
  { intros -> Hl. rewrite is_leap_year_spec in Hl. change (2 <=? 2) with true in Hyy. cbv iota in Hyy.
    clear Hd Hm Hdm. assert (y = 400 * era + yoe + 1) as -> by lia. clear Hyy.
    reflect_bool; Z.div_mod_to_equations; lia. }
  assert (Hs : yoe = 100 * (yoe / 100) + 4 * (yoe mod 100 / 4) + yoe mod 4).
  { clear - Hy. Z.div_mod_to_equations. lia. }
  assert (Hb : 0 <= yoe / 100 <= 3 /\ 0 <= yoe mod 100 / 4 <= 24 /\ 0 <= yoe mod 4 <= 3).
  { clear - Hy. Z.div_mod_to_equations. lia. }
  destruct Hb as (Hb1 & Hb2 & Hb3). 
  assert (Hday : 0 <= (153 * march_month m + 2) / 5 + d - 1 <= 365 /\
     ((153 * march_month m + 2) / 5 + d - 1 = 365 -> m = 2 /\ is_leap_year y = true) /\
     (5 * ((153 * march_month m + 2) / 5 + d - 1) + 2) / 153 = march_month m).
  { clear - Hdm Hm Hd. destruct Hd as [Hd _]. revert Hdm. pattern m. apply month_cases; [done|..]; 
    cbn [Z.eqb Pos.eqb existsb orb]; unfold march_month; cbn [Z.ltb Z.compare Pos.compare Pos.compare_cont];
    destruct (is_leap_year y); intros Hdm; Z.div_mod_to_equations; lia. }
  destruct Hday as (Hd1 & Hd2 & Hd3).
  constructor; try done; [|lia..].
  intros H365. destruct (Hd2 H365). by apply Hleap.
Qed.

Lemma doy_month doy :
  0 <= doy <= 365 ->
  let mp := (5 * doy + 2) / 153 in
  exists m d, 1 <= m <= 12 /\ march_month m = mp /\ doy = (153 * mp + 2) / 5 + d - 1 /\ 1 <= d /\
    d <= (if m =? 2 then (if doy =? 365 then 29 else 28) else if existsb (Z.eqb m) [4; 6; 9; 11] then 30 else 31).
Proof.
  intros H mp. assert (Hmp : 0 <= mp <= 11) by (subst mp; Z.div_mod_to_equations; lia).
  exists (if mp <? 10 then mp + 3 else mp - 9), (doy - (153 * mp + 2) / 5 + 1).
  assert (Hb : 153 * mp <= 5 * doy + 2 < 153 * mp + 153) by (subst mp; Z.div_mod_to_equations; lia).
  clearbody mp. split; [case_match; reflect_bool; lia|].
  split; [unfold march_month; repeat case_match; reflect_bool; lia|]. split; [lia|].
  split; [Z.div_mod_to_equations; lia|].
  assert (Hc : mp = 0 \/ mp = 1 \/ mp = 2 \/ mp = 3 \/ mp = 4 \/ mp = 5 \/ mp = 6 \/ mp = 7 \/ mp = 8 \/ mp = 9 \/
    mp = 10 \/ mp = 11) by lia.
  repeat destruct Hc as [-> | Hc]; [..|subst mp]; cbn [Z.ltb Z.compare Pos.compare Pos.compare_cont];
    match goal with |- context [existsb ?f ?l] => eval_in (existsb f l) end;
    match goal with |- context [?a =? 2] => eval_in (a =? 2) end; cbv iota;
    destruct (Z.eqb_spec doy 365); Z.div_mod_to_equations; lia.
Qed.

Lemma civil_days_valid days :
  exists y m d, civil_from_days days = (y, m, d) /\ valid_date y m d /\ days_from_civil y m d = days.
Proof.
  set (z := days + 719468). set (era := z / 146097).
  destruct (doe_split (z mod 146097)) as (c & q & r & doy & Hc & Hq & Hr & Hdoy & Hl & Hdoe).
  { apply Z.mod_pos_bound. lia. }
  destruct (doy_month doy Hdoy) as (m & d & Hm & Hmm & Hday & Hd1 & Hd2).
  set (y := 400 * era + (100 * c + 4 * q + r) + (if m <=? 2 then 1 else 0)).
  assert (Hview : civil_view y m d era c q r doy).
  { constructor; try done; [unfold y; lia | by rewrite Hmm]. }
  assert (Hdays : days = era * 146097 + (36524 * c + 1461 * q + 365 * r + doy) - 719468).
  { rewrite <- Hdoe. pose proof (Z.div_mod z 146097 ltac:(lia)). fold era in H. unfold z in H |- *. lia. }
  exists y, m, d. rewrite (view_days _ _ _ _ _ _ _ _ Hview), <- Hdays. rewrite Hdays at 1.
  split; [by apply view_civil | split; [|done]]. split; [done|]. split; [done|].
  etrans; [exact Hd2|]. unfold days_in_month. destruct (Z.eqb_spec m 2) as [->|Hm2].
  - change (existsb _ _) with false at 1. change (existsb (Z.eqb 2) [4; 6; 9; 11]) with false. cbv iota.
    destruct (Z.eqb_spec doy 365) as [He|]; [|case_match; lia].
    rewrite is_leap_year_spec. destruct (Hl He) as [Hr3 Hqc]. subst y r. change (2 <=? 2) with true. cbv iota.
    replace (_ || _) with true; [lia|]. symmetry. rewrite orb_true_iff, andb_true_iff, negb_true_iff, !Z.eqb_eq, Z.eqb_neq.
    clear - Hqc Hc Hq. generalize era. intros e. Z.div_mod_to_equations. lia.
  - clear - Hm Hm2. cbn [existsb]. repeat case_match; reflect_bool; lia.
Qed.

(** Days from year zero to the first of March of a year. *)
Definition year_days (y : Z) : Z := 365 * y + y / 4 - y / 100 + y / 400.

Lemma days_from_civil_linear y m d :
  days_from_civil y m d =
  year_days (y - (if m <=? 2 then 1 else 0)) + (153 * march_month m + 2) / 5 + d - 1 - 719468.
Proof.
  unfold days_from_civil, year_days, march_month. cbv zeta. rewrite (quot_floor _ 400) by lia.
  generalize (y - (if m <=? 2 then 1 else 0)). intros y'.
  replace (m + (if 2 <? m then -3 else 9)) with (if 2 <? m then m - 3 else m + 9) by (case_match; lia).
  generalize ((153 * (if 2 <? m then m - 3 else m + 9) + 2) / 5). intros k. Z.div_mod_to_equations. lia.
Qed.

Lemma year_days_step y : year_days y - year_days (y - 1) = if is_leap_year y then 366 else 365.
Proof.
  rewrite is_leap_year_spec. unfold year_days.
  destruct (Z.eqb_spec (y mod 4) 0), (Z.eqb_spec (y mod 100) 0), (Z.eqb_spec (y mod 400) 0); cbn [andb orb negb];
    Z.div_mod_to_equations; lia.
Qed.

Lemma next_day_days y m d :
  valid_date y m d -> let '(y', m', d') := next_day y m d in days_from_civil y' m' d' = days_from_civil y m d + 1.
Proof.
  intros [Hm Hd]. unfold next_day. destruct (Z.ltb_spec d (days_in_month y m)) as [H|H].
  { rewrite !days_from_civil_linear. lia. }
  assert (d = days_in_month y m) as -> by lia. clear H Hd. rewrite !days_from_civil_linear.
  pose proof (year_days_step y) as Hs.
  pattern m. apply month_cases; [done|..];
    match goal with |- context [if ?b then _ else _] => eval_in b end; cbv iota; rewrite days_from_civil_linear;
    unfold days_in_month, march_month; cbn [existsb Z.eqb Pos.eqb orb Z.leb Z.ltb Z.compare Pos.compare Pos.compare_cont].
  all: repeat match goal with
         | |- context [?a <=? 2] => eval_in (a <=? 2)
         | |- context [2 <? ?a] => eval_in (2 <? a)
         end; cbv iota; rewrite ?Z.sub_0_r, ?Z.add_simpl_r; destruct (is_leap_year y); Z.div_mod_to_equations; lia.
Qed.

(** ** Date text *)

(** The [w] decimal digits of a number. *)
Fixpoint fixed_digits (w : nat) (n : Z) : str :=
  match w with O => [] | S w' => fixed_digits w' (n / 10) ++ [48 + n mod 10] end.

Lemma length_fixed_digits w n : length (fixed_digits w n) = w.
Proof. revert n. induction w as [|w IH]; intros n; cbn [fixed_digits]; [done|]. rewrite length_app, IH. simpl. lia. Qed.

Lemma fixed_digits_zero w : fixed_digits w 0 = replicate w 48.
Proof.
  induction w as [|w IH]; [done|]. cbn [fixed_digits]. change (0 / 10) with 0. rewrite IH.
  by rewrite <- replicate_cons_app.
Qed.

Lemma dec_digits_fixed w : forall f n acc,
  (S w <= f)%nat -> 0 <= n < 10 ^ Z.of_nat (S w) ->
  exists k, (k <= w)%nat /\ length (dec_digits f n acc) = (S w - k + length acc)%nat /\
    replicate k 48 ++ dec_digits f n acc = fixed_digits (S w) n ++ acc.
Proof.
  induction w as [|w IH]; intros f n acc Hf Hn; (destruct f as [|f]; [lia|]); cbn [dec_digits].
  - change (10 ^ Z.of_nat 1) with 10 in Hn. rewrite (Z.div_small n 10) by lia. exists O. by split; [lia|].
  - replace (Z.of_nat (S (S w))) with (1 + Z.of_nat (S w)) in Hn by lia. rewrite Z.pow_add_r in Hn by lia.
    destruct (Z.eqb_spec (n / 10) 0) as [H0|H0].
    + exists (S w). split; [lia|]. split; [simpl; lia|]. 
      change (fixed_digits (S (S w)) n) with (fixed_digits (S w) (n / 10) ++ [48 + n mod 10]).
      rewrite H0, fixed_digits_zero, <- app_assoc. done.
    + destruct (IH f (n / 10) ((48 + n mod 10) :: acc)) as (k & Hk & Hl & He); [lia| |].
      { clear - Hn. split; [apply Z.div_pos; lia|]. apply Z.div_lt_upper_bound; lia. }
      exists k. split; [lia|]. split; [rewrite Hl; simpl; lia|]. rewrite He.
      change (fixed_digits (S (S w)) n) with (fixed_digits (S w) (n / 10) ++ [48 + n mod 10]).
      by rewrite <- app_assoc.
Qed.

Lemma pad_zero_fixed w n : (S w <= 20)%nat -> 0 <= n < 10 ^ Z.of_nat (S w) ->
  pad_zero (S w) (display_u64 n) = fixed_digits (S w) n.
Proof.
  intros Hw Hn. destruct (dec_digits_fixed w 20 n [] Hw Hn) as (k & Hk & Hl & He).
  unfold pad_zero, display_u64. rewrite Hl, app_nil_r in *. simpl length. rewrite <- He.
  do 2 f_equal. lia.
Qed.

Lemma fixed_digits_digit w n : Forall (fun c => 48 <= c <= 57) (fixed_digits w n).
Proof.
  revert n. induction w as [|w IH]; intros n; cbn [fixed_digits]; [done|].
  apply Forall_app. split; [done|]. constructor; [|done]. pose proof (Z.mod_pos_bound n 10). lia.
Qed.

Lemma parse_fixed_app v a b :
  parse_fixed v (a ++ b) = match parse_fixed v a with Some v' => parse_fixed v' b | None => None end.
Proof. revert v. induction a as [|c a IH]; intros v; simpl; [done|]. by case_match. Qed.

Lemma parse_fixed_digits w n : 0 <= n < 10 ^ Z.of_nat w -> parse_fixed_u32 (fixed_digits w n) = Some n.
Proof.
  unfold parse_fixed_u32. revert n. induction w as [|w IH]; intros n Hn.
  { change (10 ^ Z.of_nat 0) with 1 in Hn. simpl. f_equal. lia. }
  rewrite Nat2Z.inj_succ, Z.pow_succ_r in Hn by lia.
  cbn [fixed_digits]. rewrite parse_fixed_app, IH.
  2: { clear - Hn. split; [apply Z.div_pos; lia|]. apply Z.div_lt_upper_bound; lia. }
  cbn [parse_fixed]. pose proof (Z.mod_pos_bound n 10 ltac:(lia)).
  replace (is_ascii_digit _) with true.
  2: { symmetry. unfold is_ascii_digit, in_range. apply andb_true_iff. rewrite !Z.leb_le. lia. }
  f_equal. pose proof (Z.div_mod n 10). lia.
Qed.

Lemma parse_fixed_Some bs n :
  parse_fixed_u32 bs = Some n -> bs = fixed_digits (length bs) n /\ 0 <= n < 10 ^ zlen bs.
Proof.
  unfold parse_fixed_u32, zlen. revert n. induction bs as [|c bs IH] using rev_ind; intros n.
  { simpl. intros [= <-]. done. }
  rewrite parse_fixed_app. destruct (parse_fixed 0 bs) as [v|]; [|done].
  destruct (IH v eq_refl) as [Hb Hv]. cbn [parse_fixed]. destruct (is_ascii_digit c) eqn:Hc; [|done].
  unfold is_ascii_digit, in_range in Hc. reflect_bool. intros [= <-].
  rewrite length_app, Nat.add_1_r. cbn [fixed_digits].
  assert (Hq : (v * 10 + (c - 48)) / 10 = v) by (apply div_unique_bounds; lia).
  assert (Hm : (v * 10 + (c - 48)) mod 10 = c - 48) by (rewrite Z.mod_eq, Hq by lia; lia).
  rewrite Hq, Hm, <- Hb. split; [f_equal; f_equal; lia|].
  rewrite Nat2Z.inj_succ, Z.pow_succ_r by lia. lia.
Qed.

Lemma date_text_shape (bs : bytes) (y m d : bytes) :
  length bs = 10%nat -> bs !! 4%nat = Some 45 -> bs !! 7%nat = Some 45 ->
  y = take 4 bs -> m = take 2 (drop 5 bs) -> d = take 2 (drop 8 bs) -> bs = y ++ [45] ++ m ++ [45] ++ d.
Proof.
  intros Hl H4 H7 -> -> ->. do 10 (destruct bs as [|? bs]; [done|]). destruct bs; [|done].
  simpl in *. by simplify_eq.
Qed.

Definition date_text (y m d : Z) : str :=
  fixed_digits 4 y ++ [45] ++ fixed_digits 2 m ++ [45] ++ fixed_digits 2 d.

Lemma parse_date_iff s days :
  parse_yyyy_mm_dd_days s = Some days <->
  exists y m d, 0 <= y <= 9999 /\ valid_date y m d /\ s = date_text y m d /\ days_from_civil y m d = days.
Proof.
  unfold parse_yyyy_mm_dd_days. split.
  - destruct (negb _ || _ || _) eqn:Hg; [done|].
    apply orb_false_iff in Hg as [[H1%negb_false_iff H2%negb_false_iff]%orb_false_iff H3%negb_false_iff].
    apply Z.eqb_eq in H1. apply bool_decide_eq_true in H2, H3. set (bs := as_bytes s) in *.
    assert (Hl : length bs = 10%nat) by (unfold zlen in H1; lia).
    pose proof (date_text_shape bs _ _ _ Hl H2 H3 eq_refl eq_refl eq_refl) as Hsh.
    destruct (parse_fixed_u32 (take 4 bs)) as [y|] eqn:Ey; [|done].
    destruct (parse_fixed_u32 (take 2 (drop 5 bs))) as [m|] eqn:Em; [|done].
    destruct (parse_fixed_u32 (take 2 (drop 8 bs))) as [d|] eqn:Ed; [|done].
    apply parse_fixed_Some in Ey as [Ey Hy], Em as [Em Hm], Ed as [Ed Hd].
    unfold zlen in *. rewrite length_take, Hl in Ey, Hy. rewrite length_take, length_drop, Hl in Em, Hm, Ed, Hd.
    simpl in Ey, Em, Ed. rewrite Ey, Em, Ed in Hsh. change (bs = date_text y m d) in Hsh.
    destruct (negb _) eqn:G1; [done|]. destruct ((d =? 0) || _) eqn:G2; [done|]. intros [= Hdays].
    reflect_bool.
    exists y, m, d. change (10 ^ Z.of_nat (4 `min` 10)) with 10000 in Hy. split; [lia|].
    split; [split; lia|]. split; [|done]. rewrite <- Hsh. symmetry. apply as_bytes_all_ascii. fold bs. rewrite Hsh.
    unfold date_text. rewrite !Forall_app, !Forall_singleton.
    assert (Hf : forall w n, Forall (fun b => b < 128) (fixed_digits w n)).
    { intros w n. eapply Forall_impl; [apply fixed_digits_digit|]. simpl. lia. }
    repeat split; auto; lia.
  - intros (y & m & d & Hy & [Hm Hd] & -> & Hdays).
    assert (Hd31 : d <= 31).
    { destruct Hd as [_ Hd]. etrans; [exact Hd|]. unfold days_in_month. repeat case_match; lia. }
    replace (as_bytes (date_text y m d)) with (date_text y m d).
    2: { symmetry. apply as_bytes_ascii. unfold date_text. rewrite !Forall_app, !Forall_singleton.
      assert (Hf : forall w n, Forall (fun b => 0 <= b < 128) (fixed_digits w n)).
      { intros w n. eapply Forall_impl; [apply fixed_digits_digit|]. simpl. lia. }
      repeat split; auto; lia. }
    change (zlen (date_text y m d)) with 10. change (date_text y m d !! 4%nat) with (Some 45).
    change (date_text y m d !! 7%nat) with (Some 45). rewrite !bool_decide_true by done.
    change (take 4 (date_text y m d)) with (fixed_digits 4 y).
    change (take 2 (drop 5 (date_text y m d))) with (fixed_digits 2 m).
    change (take 2 (drop 8 (date_text y m d))) with (fixed_digits 2 d).
    rewrite !parse_fixed_digits by lia. change (negb (10 =? 10) || negb true || negb true) with false. cbv iota.
    replace ((1 <=? m) && (m <=? 12)) with true by (symmetry; apply andb_true_iff; rewrite !Z.leb_le; lia).
    replace ((d =? 0) || (days_in_month y m <? d)) with false; [by rewrite Hdays|].
    symmetry. apply orb_false_iff. rewrite Z.eqb_neq, Z.ltb_ge. lia.
Qed.

Lemma valid_roundtrip y m d : valid_date y m d -> civil_from_days (days_from_civil y m d) = (y, m, d).
Proof.
  intros Hv. destruct (valid_view y m d Hv) as (era & c & q & r & doy & Hview).
  rewrite (view_days _ _ _ _ _ _ _ _ Hview). apply view_civil; [by destruct Hv | done].
Qed.

Lemma year_range y m d :
  valid_date y m d -> (0 <= y <= 9999 <-> -719528 <= days_from_civil y m d <= 2932896).
Proof.
  intros [Hm Hd]. rewrite days_from_civil_linear.
  assert (Hd31 : d <= 31).
  { destruct Hd as [_ Hd]. etrans; [exact Hd|]. unfold days_in_month. repeat case_match; lia. }
  assert (Hmm : exists k, (153 * march_month m + 2) / 5 = k /\ 
     (if m <=? 2 then 306 <= k <= 337 else 0 <= k <= 275)).
  { eexists. split; [done|]. pattern m. apply month_cases; try done; unfold march_month; cbv; lia. }
  destruct Hmm as (k & -> & Hk). unfold year_days.
  destruct (Z.leb_spec m 2); Z.div_mod_to_equations; lia.
Qed.

Lemma text_of_days y m d :
  0 <= y <= 9999 -> valid_date y m d -> date_text y m d = yyyy_mm_dd_from_days (days_from_civil y m d).
Proof.
  intros Hy Hv. unfold yyyy_mm_dd_from_days. rewrite valid_roundtrip by done. destruct Hv as [Hm Hd].
  assert (Hd31 : d <= 31).
  { destruct Hd as [_ Hd]. etrans; [exact Hd|]. unfold days_in_month. repeat case_match; lia. }
  unfold fmt_year. rewrite (proj2 (Z.ltb_ge y 0)) by lia.
  rewrite (pad_zero_fixed 3), !(pad_zero_fixed 1) by lia. done.
Qed.

(** Expiry dates: the parser accepts exactly the texts that the formatter
    prints for the days of the years 0 to 9999, and returns the day; the day
    numbers are those of the Gregorian calendar counted from 1970-01-01, since
    the day after any valid date has the next number. *)
Theorem expiry_dates (s : str) (days y m d : Z) :
  valid_date y m d ->
  (parse_yyyy_mm_dd_days s = Some days <-> -719528 <= days <= 2932896 /\ s = yyyy_mm_dd_from_days days) /\
  days_from_civil 1970 1 1 = 0 /\
  (let '(y', m', d') := next_day y m d in days_from_civil y' m' d' = days_from_civil y m d + 1).
Proof.
  intros Hv. split; [|split; [done | by apply next_day_days]].
  rewrite parse_date_iff. split.
  - intros (y0 & m0 & d0 & Hy & Hv0 & -> & <-). split; [by apply (year_range y0 m0 d0)|].
    by apply text_of_days.
  - intros [Hr ->]. destruct (civil_days_valid days) as (y0 & m0 & d0 & Hc & Hv0 & <-).
    exists y0, m0, d0. apply (year_range y0 m0 d0 Hv0) in Hr. split; [done|]. split; [done|]. split; [|done].
    symmetry. by apply text_of_days.
Qed.

(** ** Quoted values survive the tokenizer *)

Definition escape_char (c : Z) : str := if (c =? 34) || (c =? 92) then [92; c] else [c].
Definition escape (v : str) : str := concat (map escape_char v).
Definition quote_value (v : str) : str := [34] ++ escape v ++ [34].

Lemma escape_cons c v : escape (c :: v) = (if (c =? 34) || (c =? 92) then [92; c] else [c]) ++ escape v.
Proof. done. Qed.

Lemma unescape_escape v : unescape (escape v) = v.
Proof.
  induction v as [|c v IH]; [done|]. rewrite escape_cons.
  destruct ((c =? 34) || (c =? 92)) eqn:Hc; cbn [app unescape].
  - change (92 =? 92) with true. cbv iota.
    replace ((c =? 34) || (c =? 39) || (c =? 92)) with true; [by rewrite IH|].
    clear - Hc. destruct (c =? 34), (c =? 39), (c =? 92); done.
  - apply orb_false_iff in Hc as [_ ->]. by rewrite IH.
Qed.

Lemma scan_escape dn cur v :
  foldl scan_char (mkScan dn cur (Some 34) false) (escape v) = mkScan dn (rev (escape v) ++ cur) (Some 34) false.
Proof.
  revert cur. induction v as [|c v IH]; intros cur; [done|]. rewrite escape_cons.
  rewrite foldl_app, rev_app_distr, <- app_assoc, <- IH. f_equal. unfold scan_char.
  destruct ((c =? 34) || (c =? 92)) eqn:Hc; cbn [foldl escaped quote done_ current]; [done|].
  apply orb_false_iff in Hc as [H34 ->]. by rewrite Z.eqb_sym, H34.
Qed.

Definition plain (c : Z) : Prop := c <> 34 /\ c <> 39 /\ c <> 59.

Lemma scan_plain dn cur v :
  Forall plain v -> foldl scan_char (mkScan dn cur None false) v = mkScan dn (rev v ++ cur) None false.
Proof.
  intros Hv. revert cur. induction Hv as [|c v (H1 & H2 & H3) Hv IH]; intros cur; [done|].
  cbn [foldl rev]. rewrite <- app_assoc, <- IH. f_equal. unfold scan_char. cbn [escaped quote done_ current].
  by rewrite (proj2 (Z.eqb_neq c 34)), (proj2 (Z.eqb_neq c 39)), (proj2 (Z.eqb_neq c 59)) by done.
Qed.

Lemma scan_quoted dn cur v :
  foldl scan_char (mkScan dn cur None false) (quote_value v) = mkScan dn (rev (quote_value v) ++ cur) None false.
Proof.
  unfold quote_value. rewrite !foldl_app. cbn [foldl]. change (scan_char _ 34) with (mkScan dn (34 :: cur) (Some 34) false) at 2.
  rewrite scan_escape. rewrite !rev_app_distr, <- !app_assoc. done.
Qed.

Lemma unquote_quote v : unquote_metadata_value (quote_value v) = v.
Proof.
  unfold unquote_metadata_value, quote_value. 
  replace (quoted ([34] ++ escape v ++ [34])) with true; [|symmetry].
  - change (drop 1 ([34] ++ escape v ++ [34])) with (escape v ++ [34]).
    assert (Hl : (length ([34%Z] ++ escape v ++ [34%Z]) - 2)%nat = length (escape v)) by (rewrite !length_app; simpl; lia).
    rewrite Hl.
    cbv iota. cbn [negb]. by rewrite take_app_length, unescape_escape.
  - unfold quoted. apply andb_true_iff. split.
    + unfold str_len, as_bytes, zlen. rewrite !map_app, !concat_app, !length_app. apply Z.leb_le. simpl. lia.
    + rewrite app_assoc, last_snoc. done.
Qed.

(** A token [ key=value] with an unspaced key and value. *)
Lemma field_token (key value : str) :
  Forall (fun c => is_whitespace c = false) key -> 61 ∉ key -> key <> [] ->
  value <> [] -> (forall c, head value = Some c -> is_whitespace c = false) ->
  (forall c, last value = Some c -> is_whitespace c = false) ->
  trim (32 :: key ++ 61 :: value) = key ++ 61 :: value /\
  split_once $"=" (key ++ 61 :: value) = Some (key, value) /\ trim key = key /\ trim value = value.
Proof.
  intros Hk H61 Hne Hvne Hh Hl. 
  assert (Hkh : forall c, head key = Some c -> is_whitespace c = false).
  { destruct key; [done|]. intros ? [= <-]. by inversion Hk. }
  assert (Hkl : forall c, last key = Some c -> is_whitespace c = false).
  { intros c Hc. rewrite Forall_forall in Hk. by apply Hk, last_Some_elem_of. }
  split; [|split; [by apply split_once_char | split; by apply trim_id]].
  rewrite trim_space. apply trim_id.
  - destruct key; [done|]. intros ? [= <-]. by apply Hkh.
  - intros c. rewrite last_app_cons. destruct value as [|v value]; [done|].
    change (last (61 :: v :: value)) with (last (v :: value)). apply Hl.
Qed.

Definition trailer (r e a : str) : str :=
  $" reason=" ++ quote_value r ++ $"; expires=" ++ e ++ $"; approved_by=" ++ quote_value a.

Definition date_char (c : Z) : Prop := is_ascii_digit c = true \/ c = 45.

Lemma date_char_plain c : date_char c -> plain c /\ is_whitespace c = false.
Proof.
  unfold date_char, plain, is_ascii_digit, is_whitespace, in_range. intros H.
  assert (Hb : 45 <= c <= 57) by (destruct H; reflect_bool; lia). clear H.
  split; [lia|]. repeat rewrite orb_false_iff. rewrite !andb_false_iff, !Z.leb_gt, !Z.eqb_neq. lia.
Qed.

Lemma trailer_tokens r e a :
  Forall date_char e ->
  metadata_tokens (trailer r e a) =
  mkTokens [32 :: $"reason" ++ 61 :: quote_value r; 32 :: $"expires" ++ 61 :: e; 32 :: $"approved_by" ++ 61 :: quote_value a] None.
Proof.
  intros He. assert (Hp : Forall plain e) by (eapply Forall_impl; [exact He|]; intros c Hc; by apply date_char_plain).
  unfold metadata_tokens, trailer.
  change ($"; expires=") with ([59] ++ $" expires="). change ($"; approved_by=") with ([59] ++ $" approved_by=").
  rewrite !foldl_app.
  assert (Hsep : forall dn cur, foldl scan_char (mkScan dn cur None false) [59] =
    mkScan (dn ++ [rev cur]) [] None false) by done.
  rewrite scan_plain by (repeat constructor; done). rewrite scan_quoted, Hsep.
  rewrite (scan_plain _ _ $" expires=") by (repeat constructor; done). rewrite (scan_plain _ _ e Hp), Hsep.
  rewrite (scan_plain _ _ $" approved_by=") by (repeat constructor; done). rewrite scan_quoted.
  cbn [done_ current quote]. rewrite !rev_app_distr, !rev_involutive. done.
Qed.

Lemma quote_value_ends v c :
  (head (quote_value v) = Some c -> is_whitespace c = false) /\ (last (quote_value v) = Some c -> is_whitespace c = false).
Proof. unfold quote_value. split; [by intros [= <-]|]. rewrite app_assoc, last_snoc. by intros [= <-]. Qed.

Lemma apply_field_token (key value : str) (m : InlineMetadata) :
  forallb (fun c => negb (is_whitespace c) && negb (c =? 61)) key = true -> key <> [] ->
  value <> [] -> (forall c, head value = Some c -> is_whitespace c = false) ->
  (forall c, last value = Some c -> is_whitespace c = false) ->
  apply_token m (32 :: key ++ 61 :: value) = set_field key (unquote_metadata_value value) m.
Proof.
  intros Hk Hne Hvne Hh Hl. 
  assert (Hk' : Forall (fun c => is_whitespace c = false) key /\ 61 ∉ key).
  { rewrite forallb_forall in Hk. split.
    - apply Forall_forall. intros c Hc%list_elem_of_In. specialize (Hk c Hc). by reflect_bool.
    - intros Hc%list_elem_of_In. specialize (Hk 61 Hc). by reflect_bool. }
  destruct Hk' as [Hkw H61]. destruct (field_token key value) as (Ht & Hs & Hk2 & Hv); [done..|].
  unfold apply_token. rewrite Ht, Hs, Hk2, Hv. destruct key; [done|]. done.
Qed.

(** A trailer written with double-quoted values, in which quotes and
    backslashes are escaped, parses back to exactly those values with nothing
    reported as unknown or malformed, whatever the values contain: separators,
    equal signs and quotes inside them are not structure. *)
Theorem metadata_roundtrip (r e a : str) :
  e <> [] -> Forall date_char e ->
  parse_inline_metadata (trailer r e a) = mkMeta (Some r) (Some e) (Some a) [] [].
Proof.
  intros Hne He. unfold parse_inline_metadata. rewrite trailer_tokens by done.
  cbn [tokens unterminated_quote foldl].
  assert (Hq : forall v, quote_value v <> []) by done.
  assert (Hw : Forall (fun c => is_whitespace c = false) e).
  { eapply Forall_impl; [exact He|]. intros c Hc. by apply date_char_plain. }
  rewrite Forall_forall in Hw.
  assert (Heh : forall c, head e = Some c -> is_whitespace c = false).
  { intros c Hc. apply Hw. destruct e; [done|]. injection Hc as ->. left. }
  assert (Hel : forall c, last e = Some c -> is_whitespace c = false) by (intros c Hc; by apply Hw, last_Some_elem_of).
  assert (Hun : unquote_metadata_value e = e).
  { unfold unquote_metadata_value. replace (quoted e) with false; [done|].
    symmetry. unfold quoted. destruct e as [|c e']; [done|]. inversion_clear He as [|? ? Hc].
    apply date_char_plain in Hc as [(? & ? & ?) ?]. apply andb_false_iff. right.
    cbn [head]. rewrite !(bool_decide_false (Some c = _)) by congruence. done. }
  rewrite !(apply_field_token $"reason"), !(apply_field_token $"expires"), !(apply_field_token $"approved_by");
    try done; try (by intros c; apply quote_value_ends).
  rewrite !unquote_quote, Hun. done.
Qed.


