(* ===== verification/Allowlist.v ===== *)
(** * The allowlist ([crates/core/src/allowlist.rs])

    [.keyhogignore] files: parsing under a governance policy, the suppression
    queries, the attribution of suppressed findings to rules, and the pool of
    allowlists whose public path list can be mutated behind the compiled index.
    Match counters are shared by clones, so rules hold locations of a counter
    store; instance ids of path lists come from one global counter. *)

From S2P Require Import Prelude Float64 Evidence Finding Utf8 VerifierCache Glob AllowlistMeta Hex.

(** ** Findings *)

Record VerifiedFinding := {
  vf_detector_id : str; vf_detector_name : str; vf_service : str; vf_severity : Severity;
  vf_credential_redacted : str; vf_credential_hash : CredentialHash;
  vf_companions_redacted : gmap str str; vf_location : MatchLocation;
  vf_verification : VerificationResult; vf_metadata : gmap str str;
  vf_additional_locations : list MatchLocation; vf_entropy : option f64;
  vf_evidence_score : option f64; vf_evidence : EvidenceVerdict }.

(** ** Hex digests *)

Definition parse_sha256_hex (input : str) : option CredentialHash := hex_to_array (trim input).

(** ** State *)

Inductive AllowlistRuleKind :=
| KHash (h : CredentialHash)
| KDetector (d : str)
| KPath (p : str).

(** [matches]: the location of the shared match counter. *)
Record AllowlistRule := mkRule {
  line_number : Z; entry : str; kind : AllowlistRuleKind; matches : nat }.

Record UnusedAllowlistEntry := mkUnused { u_line_number : Z; u_entry : str; u_match_count : Z }.
Record ExpiredAllowlistEntry := mkExpired { x_line_number : Z; x_entry : str; x_expires : str }.
Record AllowlistPolicyViolation := mkViolation {
  v_line_number : Z; v_entry : str; v_field : str; v_detail : str }.

Record AllowlistMetadataPolicy := mkPolicy {
  require_reason : bool; require_approved_by : bool; max_expires_days : option Z }.

Definition is_enforced (p : AllowlistMetadataPolicy) : bool :=
  require_reason p || require_approved_by p || bool_decide (is_Some (max_expires_days p)).

Definition default_policy : AllowlistMetadataPolicy := mkPolicy false false None.

Record Allowlist := mkAllowlist {
  credential_hashes : gset bytes;
  ignored_detectors : gset str;
  ignored_paths : ObservedPaths;
  path_index : PathGlobIndex;
  expired_entries : list ExpiredAllowlistEntry;
  policy_violations : list AllowlistPolicyViolation;
  rules : list AllowlistRule }.

(** Process-wide state: the next path-list id and the match counters. *)
Record world := mkWorld { next_id : Z; counters : list Z }.

Definition observed_new (values : list str) (w : world) : ObservedPaths * world :=
  (Build_ObservedPaths (next_id w) 0 values, mkWorld ((next_id w + 1) mod 2 ^ 64) (counters w)).

(** Mutable access: the epoch moves before the list is changed. *)
Definition observed_mutate (f : list str -> list str) (ps : ObservedPaths) : ObservedPaths :=
  Build_ObservedPaths (instance_id ps) ((mutation_epoch ps + 1) mod 2 ^ 64) (f (patterns ps)).

(** [Arc::new(AtomicUsize::new(0))]. *)
Definition new_counter (w : world) : nat * world :=
  (length (counters w), mkWorld (next_id w) (counters w ++ [0])).

Definition bump_matches (loc : nat) (w : world) : world :=
  mkWorld (next_id w) (alter (fun c => (c + 1) mod 2 ^ 64) loc (counters w)).

Definition allowlist_empty (w : world) : Allowlist * world :=
  let '(ps, w') := observed_new [] w in
  (mkAllowlist ∅ ∅ ps (build ps) [] [] [], w').

(** ** Parsing *)

Definition push_policy_violation (ln : Z) (e field detail : str) (al : Allowlist) : Allowlist :=
  mkAllowlist (credential_hashes al) (ignored_detectors al) (ignored_paths al) (path_index al)
    (expired_entries al) (policy_violations al ++ [mkViolation ln e field detail]) (rules al).

Definition push_expired (ln : Z) (e exp : str) (al : Allowlist) : Allowlist :=
  mkAllowlist (credential_hashes al) (ignored_detectors al) (ignored_paths al) (path_index al)
    (expired_entries al ++ [mkExpired ln e exp]) (policy_violations al) (rules al).

Definition is_none_or_empty (o : option str) : bool :=
  match o with None => true | Some [] => true | Some _ => false end.

(** [expires_days.saturating_sub(today_days)] on [i64]. *)
Definition i64_saturating_sub (a b : Z) : Z := Z.max (- 2 ^ 63) (Z.min i64_max (a - b)).

(** The [max_expires_days] half of [metadata_policy_allows]. *)
Definition check_expires (ln : Z) (e : str) (meta : InlineMetadata) (limit : option Z) (today_days : Z)
    (allowed : bool) (al : Allowlist) : bool * Allowlist :=
  match limit with
  | None => (allowed, al)
  | Some max =>
      let refuse detail := (false, push_policy_violation ln e $"expires" detail al) in
      match expires meta with
      | Some ((_ :: _) as exp) =>
          match parse_yyyy_mm_dd_days exp with
          | Some expires_days =>
              if i64_max <? max then
                refuse ($"max_expires_days=" ++ display_u64 max ++
                  $" is too large to enforce (out of range integral type conversion attempted)")
              else if max <? i64_saturating_sub expires_days today_days then
                refuse ($"expires=" ++ exp ++ $" is more than " ++ display_u64 max ++ $" days out")
              else (allowed, al)
          | None => refuse $"must use YYYY-MM-DD when [allowlist].max_expires_days is set"
          end
      | _ => refuse $"required by [allowlist].max_expires_days"
      end
  end.

Definition metadata_policy_allows (ln : Z) (e : str) (meta : InlineMetadata)
    (policy : AllowlistMetadataPolicy) (today_days : Z) (al : Allowlist) : bool * Allowlist :=
  if negb (is_enforced policy) then (true, al)
  else
    let '(allowed, al) :=
      if require_reason policy && is_none_or_empty (reason meta) then
        (false, push_policy_violation ln e $"reason" $"required by [allowlist].require_reason" al)
      else (true, al) in
    let '(allowed, al) :=
      if require_approved_by policy && is_none_or_empty (approved_by meta) then
        (false, push_policy_violation ln e $"approved_by" $"required by [allowlist].require_approved_by" al)
      else (allowed, al) in
    check_expires ln e meta (max_expires_days policy) today_days allowed al.

Definition invalid_bare_entry (e : str) : option (str * str) :=
  let bs := as_bytes e in
  if bool_decide (58 ∈ e) then
    Some ($"entry", $"entry contains `:` but does not start with a valid prefix (`hash:`, `detector:`, or `path:`); use `path:` for literal path globs containing `:`")
  else if zlen bs =? SHA256_HEX_LEN then
    Some ($"hash", $"bare 64-byte entry must be a valid SHA-256 hex digest; use `path:` for a literal 64-byte path glob")
  else if (32 <=? zlen bs) && forallb is_ascii_hexdigit bs then
    Some ($"hash", $"hex-like bare entry must be exactly a 64-character SHA-256 digest; use `path:` for a literal hex path glob")
  else None.

(** The chain of prefix tests: a rule, or the field and detail of a violation. *)
Definition classify (e : str) : result AllowlistRuleKind (str * str) :=
  match strip_prefix $"hash:" e with
  | Some hash => match parse_sha256_hex (trim hash) with
                 | Some h => Ok (KHash h)
                 | None => Err ($"hash", $"must be a 64-character SHA-256 hex digest")
                 end
  | None =>
  match strip_prefix $"detector:" e with
  | Some d => match trim d with
              | [] => Err ($"detector", $"detector id must not be empty")
              | d' => Ok (KDetector d')
              end
  | None =>
  match strip_prefix $"path:" e with
  | Some p => match trim p with
              | [] => Err ($"path", $"path glob must not be empty")
              | p' => Ok (KPath p')
              end
  | None =>
  match parse_sha256_hex e with
  | Some h => Ok (KHash h)
  | None =>
  match invalid_bare_entry e with
  | Some bad => Err bad
  | None => Ok (KPath e)
  end end end end end.

(** The insertion and the rule pushed by the accepting branch of a kind. *)
Definition add_rule (ln : Z) (e : str) (k : AllowlistRuleKind) (st : Allowlist * world) : Allowlist * world :=
  let '(al, w) := st in
  let '(loc, w') := new_counter w in
  let rs := rules al ++ [mkRule ln e k loc] in
  let with_ h d p := mkAllowlist h d p (path_index al) (expired_entries al) (policy_violations al) rs in
  (match k with
   | KHash h => with_ ({[h]} ∪ credential_hashes al) (ignored_detectors al) (ignored_paths al)
   | KDetector d => with_ (credential_hashes al) ({[d]} ∪ ignored_detectors al) (ignored_paths al)
   | KPath p => with_ (credential_hashes al) (ignored_detectors al)
                  (observed_mutate (fun ps => ps ++ [p]) (ignored_paths al))
   end, w').

(** The entry and the metadata of a line. *)
Definition split_line (raw_line : str) : str * InlineMetadata :=
  match split_once $";" raw_line with
  | Some (e, meta) => (trim e, parse_inline_metadata meta)
  | None => (trim raw_line, parse_inline_metadata [])
  end.

Definition unknown_detail (key : str) : str :=
  $"unknown key `" ++ key ++ $"`; supported keys are reason, expires, approved_by".

(** The violations reported for the metadata text of a line. *)
Definition report_metadata (ln : Z) (e : str) (meta : InlineMetadata) (al : Allowlist) : Allowlist :=
  let al1 := foldl (fun a key => push_policy_violation ln e $"metadata" (unknown_detail key) a) al (unknown_keys meta) in
  foldl (fun a detail => push_policy_violation ln e $"metadata" detail a) al1 (malformed_tokens meta).

(** The branches that decide the kind of an entry and activate it. *)
Definition activate_entry (ln : Z) (e : str) (meta : InlineMetadata) (policy : AllowlistMetadataPolicy)
    (today_days : Z) (st : Allowlist * world) : Allowlist * world :=
  let '(al, w) := st in
  match classify e with
  | Err (field, detail) => (push_policy_violation ln e field detail al, w)
  | Ok k =>
      let '(allowed, al) := metadata_policy_allows ln e meta policy today_days al in
      if negb allowed then (al, w) else add_rule ln e k (al, w)
  end.

Definition process_line (policy : AllowlistMetadataPolicy) (today_days : Z) (st : Allowlist * world)
    (numbered : Z * str) : Allowlist * world :=
  let '(al, w) := st in
  let '(n, line) := numbered in
  let ln := n + 1 in
  let raw_line := trim line in
  if bool_decide (raw_line = []) || starts_with $"#" raw_line then st
  else
    let '(e, meta) := split_line raw_line in
    let al := report_metadata ln e meta al in
    match e with
    | [] => (push_policy_violation ln e $"entry"
               $"empty allowlist entry before metadata; add `detector:`, `path:`, `hash:`, or a glob before `;`" al, w)
    | _ =>
        match expires meta with
        | Some exp =>
            match parse_yyyy_mm_dd_days exp with
            | Some exp_days =>
                if exp_days <? today_days then (push_expired ln e exp al, w) else activate_entry ln e meta policy today_days (al, w)
            | None => (push_policy_violation ln e $"expires" $"must use YYYY-MM-DD" al, w)
            end
        | None => activate_entry ln e meta policy today_days (al, w)
        end
    end.

Definition enumerate {A} (l : list A) : list (Z * A) := zip (seqZ 0 (zlen l)) l.

Definition clock_detail (e : ClockError) : str :=
  match e with
  | BeforeEpoch => $"system clock is before UNIX_EPOCH (second time provided was later than self); fix host time before loading allowlist suppressions"
  | TooLarge => $"system clock value is too large to enforce allowlist expiry (out of range integral type conversion attempted)"
  end.

Definition set_path_index (ix : PathGlobIndex) (al : Allowlist) : Allowlist :=
  mkAllowlist (credential_hashes al) (ignored_detectors al) (ignored_paths al) ix
    (expired_entries al) (policy_violations al) (rules al).

Definition parse_with_policy (content : str) (policy : AllowlistMetadataPolicy) (now : option Z) (w : world) :
    Allowlist * world :=
  let '(al, w) := allowlist_empty w in
  match days_since_epoch now with
  | Err e => (push_policy_violation 1 $"<allowlist>" $"system_clock" (clock_detail e) al, w)
  | Ok today_days =>
      let '(al, w) := foldl (process_line policy today_days) (al, w) (enumerate (str_lines content)) in
      (set_path_index (build (ignored_paths al)) al, w)
  end.

Definition parse (content : str) (now : option Z) (w : world) : Allowlist * world :=
  parse_with_policy content default_policy now w.

(** ** Loading *)

Inductive io_error := OpenFailed | InvalidData (message : str).

Definition RULE_CONFIG_FILE_BYTES : Z := 16 * 1024 * 1024.

(** An opened file: the length its metadata reports and the bytes a read to the
    end finds, which may have grown since. *)
Record opened_file := { meta_len : Z; file_bytes : bytes }.

Definition read_capped (file : option opened_file) (path : str) (cap : Z) (what : str) : result bytes io_error :=
  match file with
  | None => Err OpenFailed
  | Some f =>
      if cap <? meta_len f then
        Err (InvalidData (what ++ $" " ++ path ++ $" exceeds " ++ display_u64 cap ++
          $" byte cap; delete the cache file and rerun"))
      else
        let data := take (Z.to_nat (saturating_add u64_max cap 1)) (file_bytes f) in
        if cap <? zlen data then
          Err (InvalidData (what ++ $" " ++ path ++ $" grew past " ++ display_u64 cap ++
            $" byte cap while reading; retry after the file is stable"))
        else Ok data
  end.

Definition more_suffix (extra : Z) (one many : str) : str :=
  if extra =? 0 then []
  else if extra =? 1 then $" (+1 more " ++ one ++ $")"
  else $" (+" ++ display_u64 extra ++ $" more " ++ many ++ $")".

Definition expired_entries_error (al : Allowlist) (path : str) : option io_error :=
  match expired_entries al with
  | [] => None
  | first :: rest =>
      Some (InvalidData (path ++ $" contains expired allowlist policy at line " ++ display_u64 (x_line_number first) ++
        $": '" ++ x_entry first ++ $"' expired on " ++ x_expires first ++
        more_suffix (zlen rest) $"expired entry" $"expired entries" ++
        $". Remove the entry or renew its expires metadata; refusing to scan with stale suppressions."))
  end.

Definition policy_violations_error (al : Allowlist) (path : str) : option io_error :=
  match policy_violations al with
  | [] => None
  | first :: rest =>
      Some (InvalidData (path ++ $" violates allowlist governance at line " ++ display_u64 (v_line_number first) ++
        $": '" ++ v_entry first ++ $"' missing/invalid " ++ v_field first ++ $" (" ++ v_detail first ++ $")" ++
        more_suffix (zlen rest) $"policy violation" $"policy violations" ++
        $". Add inline metadata like `; reason=" ++ [34] ++ $"..." ++ [34] ++ $"; approved_by=" ++ [34] ++ $"..." ++ [34] ++
        $"; expires=YYYY-MM-DD` or relax the [allowlist] policy in .keyhog.toml; refusing to scan with unapproved suppressions."))
  end.

(** The message of [FromUtf8Error] is the standard library's. *)
Definition load_with_policy (utf8_error : bytes -> str) (file : option opened_file) (path : str)
    (policy : AllowlistMetadataPolicy) (now : option Z) (w : world) : result (Allowlist * world) io_error :=
  let? data := read_capped file path RULE_CONFIG_FILE_BYTES $"allowlist" in
  match from_utf8 data with
  | None => Err (InvalidData (utf8_error data))
  | Some contents =>
      let '(al, w') := parse_with_policy contents policy now w in
      match expired_entries_error al path with
      | Some e => Err e
      | None => match policy_violations_error al path with
                | Some e => Err e
                | None => Ok (al, w')
                end
      end
  end.

(** ** Queries *)

Definition al_path_matches (al : Allowlist) (normalized : str) : bool :=
  path_matches (path_index al) (ignored_paths al) normalized.

Definition al_is_path_ignored (al : Allowlist) (path : str) : bool :=
  is_path_ignored (path_index al) (ignored_paths al) path.

Definition matches_ignored_hash (al : Allowlist) (h : CredentialHash) : bool :=
  bool_decide (h ∈ credential_hashes al).

Definition matches_ignored_hash_hex (al : Allowlist) (hex : str) : bool :=
  match parse_sha256_hex hex with Some h => matches_ignored_hash al h | None => false end.

Definition is_hash_allowed (al : Allowlist) (credential : str) : bool := matches_ignored_hash_hex al credential.

Definition is_raw_hash_ignored (al : Allowlist) (hash_hex : str) : bool := matches_ignored_hash_hex al hash_hex.

Definition is_allowed (al : Allowlist) (finding : VerifiedFinding) : bool :=
  let detector_ignored := bool_decide (vf_detector_id finding ∈ ignored_detectors al) in
  let path_ignored := match loc_file_path (vf_location finding) with
                      | Some path => al_path_matches al (normalize_path path)
                      | None => false
                      end in
  let hash_ignored := matches_ignored_hash al (vf_credential_hash finding) in
  detector_ignored || path_ignored || hash_ignored.

(** ** Attribution *)

(** A pass over the rules that bumps the counter of each rule [f] selects. *)
Definition record_where (f : AllowlistRule -> bool) (al : Allowlist) (w : world) : bool * world :=
  foldl (fun '(matched, w) rule => if f rule then (true, bump_matches (matches rule) w) else (matched, w))
    (false, w) (rules al).

Definition rule_selects (al : Allowlist) (finding : VerifiedFinding) (rule : AllowlistRule) : bool :=
  match kind rule with
  | KDetector det => bool_decide (vf_detector_id finding = det)
  | KHash h => bool_decide (vf_credential_hash finding = h)
  | KPath p =>
      match loc_file_path (vf_location finding) with
      | Some path => let normalized := normalize_path path in
                     al_path_matches al normalized && pattern_matches_path p normalized
      | None => false
      end
  end.

Definition record_match (al : Allowlist) (finding : VerifiedFinding) (w : world) : bool * world :=
  record_where (rule_selects al finding) al w.

Definition record_path_match (al : Allowlist) (path : str) (w : world) : bool * world :=
  let normalized := normalize_path path in
  record_where (fun r => match kind r with KPath p => pattern_matches_path p normalized | _ => false end) al w.

Definition record_detector_match (al : Allowlist) (detector_id : str) (w : world) : bool * world :=
  record_where (fun r => match kind r with KDetector d => bool_decide (d = detector_id) | _ => false end) al w.

Definition record_hash_match (al : Allowlist) (hash : CredentialHash) (w : world) : bool * world :=
  record_where (fun r => match kind r with KHash h => bool_decide (h = hash) | _ => false end) al w.

Definition rule_count (w : world) (r : AllowlistRule) : Z := default 0 (counters w !! matches r).

Definition unused_entries (al : Allowlist) (w : world) : list UnusedAllowlistEntry :=
  omap (fun r => if rule_count w r =? 0 then Some (mkUnused (line_number r) (entry r) 0) else None) (rules al).

Definition attributed_match_counts (al : Allowlist) (w : world) : list (str * Z) :=
  map (fun r => (entry r, rule_count w r)) (rules al).

(** A clone has a path list of its own but shares the counters of its rules. *)
Definition clone (al : Allowlist) (w : world) : Allowlist * world :=
  let '(ps, w') := observed_new (patterns (ignored_paths al)) w in
  (mkAllowlist (credential_hashes al) (ignored_detectors al) ps (build ps)
     (expired_entries al) (policy_violations al) (rules al), w').

Definition sample_content : str :=
  $"# team" ++ [10] ++ $"detector:demo; reason=x; expires=2099-01-01; approved_by=me" ++ [13; 10] ++
  $"docs/** ; reason='a;b'; expires=2099-01-01; approved_by=me" ++ [10].
Definition strict : AllowlistMetadataPolicy := mkPolicy true true (Some 100000).
Definition world0 : world := mkWorld 1 [].

Example load_sample :
  match load_with_policy (fun _ => []) (Some (Build_opened_file 0 sample_content)) $"f" strict (Some 1700000000) world0 with
  | Ok (al, w) => map line_number (rules al) = [2; 3] /\ al_is_path_ignored al $"docs/a.md" = true /\
                  next_id w = 2 /\ counters w = [0; 0]
  | Err _ => False
  end.
Proof. vm_compute. done. Qed.

(** ** What an accepted line is *)

Definition active (line : str) : bool :=
  negb (bool_decide (trim line = []) || starts_with $"#" (trim line)).

Definition active_lines (content : str) : list (Z * str) :=
  List.filter (fun nl => active (snd nl)) (enumerate (str_lines content)).

(** The metadata of a line satisfies the policy on a day. *)
Record governed (policy : AllowlistMetadataPolicy) (today : Z) (meta : InlineMetadata) : Prop := {
  gv_reason : require_reason policy = true -> is_none_or_empty (reason meta) = false;
  gv_approved : require_approved_by policy = true -> is_none_or_empty (approved_by meta) = false;
  gv_limit : forall max, max_expires_days policy = Some max ->
    exists exp d, expires meta = Some exp /\ parse_yyyy_mm_dd_days exp = Some d /\ max <= i64_max /\ d - today <= max;
  gv_current : forall exp, expires meta = Some exp ->
    exists d, parse_yyyy_mm_dd_days exp = Some d /\ today <= d;
  gv_clean : unknown_keys meta = [] /\ malformed_tokens meta = [] }.

Definition acceptable (policy : AllowlistMetadataPolicy) (today : Z) (line : str) (e : str) (k : AllowlistRuleKind) : Prop :=
  exists meta, split_line (trim line) = (e, meta) /\ e <> [] /\ governed policy today meta /\ classify e = Ok k.

Definition accepted (policy : AllowlistMetadataPolicy) (today : Z) (nl : Z * str) (r : AllowlistRule) : Prop :=
  line_number r = fst nl + 1 /\ acceptable policy today (snd nl) (entry r) (kind r).

(** ** Lines that are not acceptable are reported *)

Definition flaws (al : Allowlist) : nat := length (policy_violations al) + length (expired_entries al).

Lemma flaws_push ln e f d al : flaws (push_policy_violation ln e f d al) = S (flaws al).
Proof. unfold flaws. simpl. rewrite length_app. simpl. lia. Qed.
Lemma flaws_expired ln e x al : flaws (push_expired ln e x al) = S (flaws al).
Proof. unfold flaws. simpl. rewrite length_app. simpl. lia. Qed.
Lemma flaws_add_rule ln e k st : flaws (fst (add_rule ln e k st)) = flaws (fst st).
Proof. destruct st as [al w], k; done. Qed.

Lemma flaws_foldl_push {A} (g : Allowlist -> A -> Allowlist) l al :
  (forall a x, flaws (g a x) = S (flaws a)) -> flaws (foldl g al l) = (flaws al + length l)%nat.
Proof.
  intros Hg. revert al. induction l as [|x l IH]; intros al; simpl; [lia|]. rewrite IH, Hg. lia.
Qed.

Lemma flaws_report ln e meta al :
  flaws (report_metadata ln e meta al) = (flaws al + length (unknown_keys meta) + length (malformed_tokens meta))%nat.
Proof.
  unfold report_metadata. rewrite !flaws_foldl_push; [done|..]; intros; apply flaws_push.
Qed.

Lemma report_clean ln e meta al :
  unknown_keys meta = [] -> malformed_tokens meta = [] -> report_metadata ln e meta al = al.
Proof. intros H1 H2. unfold report_metadata. by rewrite H1, H2. Qed.

Create Rewrite HintDb flaws.
#[local] Hint Rewrite flaws_push flaws_expired flaws_add_rule flaws_report : flaws.

(** Days that [days_since_epoch] returns and days a date parses to. *)
Definition today_ok (today : Z) : Prop := 0 <= today <= i64_max / 86400.

Lemma days_since_epoch_ok secs today : (forall s, secs = Some s -> 0 <= s) -> days_since_epoch secs = Ok today -> today_ok today.
Proof.
  intros Hs. unfold days_since_epoch. destruct secs as [s|]; [|done].
  destruct (Z.leb_spec s i64_max); [|done]. intros [= <-]. specialize (Hs s eq_refl). split; [by apply Z.div_pos|].
  by apply Z.div_le_mono.
Qed.

Lemma expires_difference exp d today :
  today_ok today -> parse_yyyy_mm_dd_days exp = Some d -> i64_saturating_sub d today = d - today.
Proof.
  intros [Ht1 Ht2] Hp. apply parse_date_iff in Hp as (y & m & dd & Hy & Hv & _ & Hd).
  apply (year_range y m dd Hv) in Hy. rewrite Hd in Hy. unfold i64_saturating_sub, i64_max in *.
  assert (Hq : (2 ^ 63 - 1) / 86400 = 106751991167300) by done. rewrite Hq in Ht2. lia.
Qed.

(** The check of one line's metadata against the policy. *)
Lemma check_expires_spec ln e meta limit today allowed al :
  today_ok today ->
  let ok := forall max, limit = Some max -> exists exp d, expires meta = Some exp /\ parse_yyyy_mm_dd_days exp = Some d /\
              max <= i64_max /\ d - today <= max in
  (ok /\ check_expires ln e meta limit today allowed al = (allowed, al)) \/
  (~ ok /\ exists al', check_expires ln e meta limit today allowed al = (false, al') /\ flaws al' = S (flaws al)).
Proof.
  intros Ht ok. unfold check_expires. destruct limit as [max|]; [|left; split; [by intros ? [=] | done]].
  assert (Hbad : ~ ok -> forall d, exists al', (false, push_policy_violation ln e $"expires" d al) = (false, al') /\
     flaws al' = S (flaws al)) by (intros; eexists; split; [done | apply flaws_push]).
  destruct (expires meta) as [exp|] eqn:He.
  2: { right. assert (~ ok) by (intros H; by destruct (H max eq_refl) as (? & ? & ? & _)). auto. }
  destruct exp as [|c exp].
  { right. assert (~ ok) by (intros H; destruct (H max eq_refl) as (? & ? & [= <-] & [=] & _)). auto. }
  destruct (parse_yyyy_mm_dd_days (c :: exp)) as [d|] eqn:Hp.
  2: { right. assert (~ ok) by (intros H; destruct (H max eq_refl) as (? & ? & [= <-] & ? & _); congruence). auto. }
  rewrite (expires_difference _ _ _ Ht Hp).
  destruct (Z.ltb_spec i64_max max).
  { right. assert (~ ok) by (intros H'; destruct (H' max eq_refl) as (? & ? & _ & _ & ? & _); lia). auto. }
  destruct (Z.ltb_spec max (d - today)).
  { right. assert (~ ok) by (intros H'; destruct (H' max eq_refl) as (? & ? & [= <-] & Hp' & _ & ?); simplify_eq; lia). auto. }
  left. split; [|done]. intros ? [= <-]. by exists (c :: exp), d.
Qed.

Definition policy_part (policy : AllowlistMetadataPolicy) (today : Z) (meta : InlineMetadata) : Prop :=
  (require_reason policy = true -> is_none_or_empty (reason meta) = false) /\
  (require_approved_by policy = true -> is_none_or_empty (approved_by meta) = false) /\
  (forall max, max_expires_days policy = Some max -> exists exp d, expires meta = Some exp /\
     parse_yyyy_mm_dd_days exp = Some d /\ max <= i64_max /\ d - today <= max).

Lemma not_enforced policy today meta : is_enforced policy = false -> policy_part policy today meta.
Proof.
  unfold is_enforced. intros [[H1 H2]%orb_false_iff H3%bool_decide_eq_false]%orb_false_iff.
  repeat split; [congruence..|]. intros max Hm. destruct H3. by exists max.
Qed.

(** One of the two required fields. *)
Lemma field_check (req : bool) (v : option str) (allowed : bool) (al al' : Allowlist) :
  flaws al' = S (flaws al) ->
  let r := if req && is_none_or_empty v then (false, al') else (allowed, al) in
  ((req = true -> is_none_or_empty v = false) /\ r = (allowed, al)) \/
  (~ (req = true -> is_none_or_empty v = false) /\ exists a, r = (false, a) /\ flaws a = S (flaws al)).
Proof.
  intros Hf r. subst r. destruct req, (is_none_or_empty v); cbn [andb]; try (left; split; [done | done]).
  right. split; [|by exists al']. intros H. by specialize (H eq_refl).
Qed.

Lemma metadata_policy_allows_spec ln e meta policy today al :
  today_ok today ->
  (policy_part policy today meta /\ metadata_policy_allows ln e meta policy today al = (true, al)) \/
  (~ policy_part policy today meta /\
   exists al', metadata_policy_allows ln e meta policy today al = (false, al') /\ (flaws al < flaws al')%nat).
Proof.
  intros Ht. unfold metadata_policy_allows. destruct (is_enforced policy) eqn:Hen; cbn [negb].
  2: { left. split; [by apply not_enforced | done]. }
  unfold policy_part.
  destruct (field_check (require_reason policy) (reason meta) true al
    (push_policy_violation ln e $"reason" $"required by [allowlist].require_reason" al)) as [[H1 ->]|[H1 (a1 & -> & F1)]];
    [apply flaws_push|..].
  - destruct (field_check (require_approved_by policy) (approved_by meta) true al
      (push_policy_violation ln e $"approved_by" $"required by [allowlist].require_approved_by" al)) as [[H2 ->]|[H2 (a2 & -> & F2)]];
      [apply flaws_push|..].
    + destruct (check_expires_spec ln e meta (max_expires_days policy) today true al Ht) as [[H3 ->]|[H3 (a3 & -> & F3)]].
      * left. done.
      * right. split; [tauto|]. exists a3. split; [done | lia].
    + right. split; [tauto|].
      destruct (check_expires_spec ln e meta (max_expires_days policy) today false a2 Ht) as [[H3 ->]|[H3 (a3 & -> & F3)]];
        eexists; (split; [done | lia]).
  - right. split; [tauto|].
    destruct (field_check (require_approved_by policy) (approved_by meta) false a1
      (push_policy_violation ln e $"approved_by" $"required by [allowlist].require_approved_by" a1)) as [[H2 ->]|[H2 (a2 & -> & F2)]];
      [apply flaws_push|..];
    match goal with |- context [check_expires _ _ _ _ _ _ ?a] =>
      destruct (check_expires_spec ln e meta (max_expires_days policy) today false a Ht) as [[H3 ->]|[H3 (a3 & -> & F3)]] end;
      eexists; (split; [done | lia]).
Qed.

Lemma process_inactive policy today st nl : active (snd nl) = false -> process_line policy today st nl = st.
Proof.
  destruct st as [al w], nl as [n line]. unfold active. simpl. intros H%negb_false_iff. by rewrite H.
Qed.

(** An active line is accepted and adds its rule, or adds to the reported flaws. *)
Lemma process_active policy today al w n line :
  today_ok today -> active line = true ->
  (exists e k, acceptable policy today line e k /\
     process_line policy today (al, w) (n, line) = add_rule (n + 1) e k (al, w)) \/
  (~ (exists e k, acceptable policy today line e k) /\
   (flaws al < flaws (fst (process_line policy today (al, w) (n, line))))%nat).
Proof.
  intros Ht Ha. unfold active in Ha. apply negb_true_iff in Ha. unfold process_line. rewrite Ha.
  destruct (split_line (trim line)) as [e meta] eqn:Hsl.
  assert (Hacc : forall e' k, acceptable policy today line e' k ->
     e' = e /\ e <> [] /\ governed policy today meta /\ classify e = Ok k).
  { intros e' k (m' & Hs & ? & ? & ?). rewrite Hsl in Hs. by simplify_eq. }
  set (al1 := report_metadata (n + 1) e meta al).
  assert (F1 : flaws al1 = (flaws al + length (unknown_keys meta) + length (malformed_tokens meta))%nat) by apply flaws_report.
  destruct e as [|c e'] eqn:Ee.
  { right. split; [intros (? & ? & H); by destruct (Hacc _ _ H) as (_ & ? & _)|]. simpl fst. rewrite flaws_push. lia. }
  rewrite <- Ee in *.
  assert (Hcont : (forall exp, expires meta = Some exp -> exists d, parse_yyyy_mm_dd_days exp = Some d /\ today <= d) ->
    (exists e0 k, acceptable policy today line e0 k /\
       activate_entry (n + 1) e meta policy today (al1, w) = add_rule (n + 1) e0 k (al, w)) \/
    (~ (exists e0 k, acceptable policy today line e0 k) /\
       (flaws al < flaws (fst (activate_entry (n + 1) e meta policy today (al1, w))))%nat)).
  { intros Hexp. unfold activate_entry. destruct (classify e) as [k|[field detail]] eqn:Hc.
    2: { right. split; [intros (? & ? & H); destruct (Hacc _ _ H) as (_ & _ & _ & H'); congruence|].
         simpl fst. rewrite flaws_push. lia. }
    destruct (metadata_policy_allows_spec (n + 1) e meta policy today al1 Ht) as [[Hp ->]|[Hp (al' & -> & F)]]; cbn [negb].
    2: { right. split; [|simpl; lia]. intros (? & ? & H); destruct (Hacc _ _ H) as (_ & _ & [] & _).
         apply Hp. by split. }
    destruct (decide (unknown_keys meta = [] /\ malformed_tokens meta = [])) as [[Hu Hm]|Hn].
    - left. exists e, k. split; [|subst al1; by rewrite report_clean].
      exists meta. split; [done|]. split; [by subst|]. split; [|done]. destruct Hp as (? & ? & ?). by constructor.
    - right. split; [intros (? & ? & H); destruct (Hacc _ _ H) as (_ & _ & [] & _); tauto|].
      rewrite flaws_add_rule. simpl fst. destruct (unknown_keys meta), (malformed_tokens meta); simpl in *; try lia. tauto. }
  destruct (expires meta) as [exp|] eqn:Hx; [|apply Hcont; by intros].
  destruct (parse_yyyy_mm_dd_days exp) as [d|] eqn:Hp.
  - destruct (Z.ltb_spec d today).
    + right. split; [|simpl fst; rewrite flaws_expired; lia].
      intros (? & ? & H'). destruct (Hacc _ _ H') as (_ & _ & [] & _). rewrite Hx in *.
      destruct (gv_current0 exp eq_refl) as (? & ? & ?). simplify_eq. lia.
    + apply Hcont. intros ? [= <-]. by exists d.
  - right. split; [|simpl fst; rewrite flaws_push; lia].
    intros (? & ? & H'). destruct (Hacc _ _ H') as (_ & _ & [] & _). rewrite Hx in *.
    destruct (gv_current0 exp eq_refl) as (? & ? & ?). congruence.
Qed.

(** ** Properties kept by parsing *)

Section closed.
Context (P : Allowlist * world -> Prop).
Context (Hpush : forall ln e f d al w, P (al, w) -> P (push_policy_violation ln e f d al, w)).
Context (Hexpired : forall ln e x al w, P (al, w) -> P (push_expired ln e x al, w)).
Context (Hrule : forall ln e k st, P st -> P (add_rule ln e k st)).

Lemma closed_report ln e meta al w : P (al, w) -> P (report_metadata ln e meta al, w).
Proof.
  assert (Hfold : forall {A} (g : A -> str) l a, P (a, w) ->
    P (foldl (fun a x => push_policy_violation ln e $"metadata" (g x) a) a l, w)).
  { intros A g l. induction l as [|x l IH]; intros a Ha; simpl; [done|]. apply IH. by apply Hpush. }
  intros H. unfold report_metadata. apply (Hfold _ id). by apply (Hfold _ unknown_detail).
Qed.

Lemma closed_check ln e meta limit today b al w :
  P (al, w) -> P (snd (check_expires ln e meta limit today b al), w).
Proof. intros H. unfold check_expires. repeat case_match; simpl; auto. Qed.

Lemma closed_allows ln e meta policy today al w :
  P (al, w) -> P (snd (metadata_policy_allows ln e meta policy today al), w).
Proof.
  intros H. unfold metadata_policy_allows. repeat case_match; simpl; simplify_eq; auto;
    apply closed_check; auto.
Qed.

Lemma process_line_closed policy today st nl : P st -> P (process_line policy today st nl).
Proof.
  destruct st as [al w], nl as [n line]. intros H. unfold process_line.
  destruct (bool_decide (trim line = []) || _); [done|]. destruct (split_line (trim line)) as [e meta].
  pose proof (closed_report (n + 1) e meta al w H) as H1.
  assert (Hact : P (activate_entry (n + 1) e meta policy today (report_metadata (n + 1) e meta al, w))).
  { unfold activate_entry. destruct (classify e) as [k|[f d]]; [|auto].
    pose proof (closed_allows (n + 1) e meta policy today _ w H1) as H2.
    destruct (metadata_policy_allows _ _ _ _ _ _) as [[] al2]; cbn [snd negb] in *; auto. }
  destruct e; [auto|]. repeat case_match; auto.
Qed.

Lemma parse_lines_closed policy today st l : P st -> P (foldl (process_line policy today) st l).
Proof. revert st. induction l as [|x l IH]; intros st H; simpl; [done|]. apply IH. by apply process_line_closed. Qed.
End closed.

(** The suppression sets are those of the rules. *)
Definition hash_of (r : AllowlistRule) : option CredentialHash := match kind r with KHash h => Some h | _ => None end.
Definition detector_of (r : AllowlistRule) : option str := match kind r with KDetector d => Some d | _ => None end.
Definition path_of (r : AllowlistRule) : option str := match kind r with KPath p => Some p | _ => None end.

Record synced (al : Allowlist) : Prop := {
  sy_hashes : credential_hashes al = list_to_set (omap hash_of (rules al));
  sy_detectors : ignored_detectors al = list_to_set (omap detector_of (rules al));
  sy_paths : patterns (ignored_paths al) = omap path_of (rules al) }.

Lemma synced_add_rule ln e k st : synced (fst st) -> synced (fst (add_rule ln e k st)).
Proof.
  destruct st as [al w]. intros []. cbn [fst] in *. destruct k; constructor; cbn [fst add_rule new_counter credential_hashes ignored_detectors
    ignored_paths rules patterns observed_mutate]; rewrite omap_app; cbn [omap list_omap hash_of detector_of path_of kind];
    rewrite ?app_nil_r, ?list_to_set_app_L; try done; rewrite ?sy_hashes0, ?sy_detectors0, ?sy_paths0; try done;
    cbn [list_to_set]; by rewrite union_empty_r_L, union_comm_L.
Qed.

(** Counters of the rules are distinct locations of the store. *)
Definition counters_ok (st : Allowlist * world) : Prop :=
  NoDup (matches <$> rules (fst st)) /\ Forall (fun r => (matches r < length (counters (snd st)))%nat) (rules (fst st)).

Lemma counters_ok_add_rule ln e k st : counters_ok st -> counters_ok (add_rule ln e k st).
Proof.
  destruct st as [al w]. intros [Hn Hf].
  assert (Hgo : forall al', rules al' = rules al ++ [mkRule ln e k (length (counters w))] ->
     counters_ok (al', mkWorld (next_id w) (counters w ++ [0]))).
  { intros al' Hr. split; cbn [fst snd counters] in *; rewrite Hr.
    - rewrite fmap_app. cbn [fmap list_fmap matches]. apply NoDup_app. split; [done|].
      split; [|apply NoDup_singleton]. intros x Hx ->%list_elem_of_singleton.
      apply list_elem_of_fmap in Hx as (r & Hr1 & Hr2). rewrite Forall_forall in Hf. specialize (Hf r Hr2). lia.
    - rewrite Forall_app, Forall_singleton, length_app. cbn [length matches]. split; [|lia].
      eapply Forall_impl; [exact Hf|]. simpl. lia. }
  destruct k; by apply Hgo.
Qed.

Lemma parse_synced content policy now w al w' :
  parse_with_policy content policy now w = (al, w') -> synced al /\ counters_ok (al, w') /\ path_index al = build (ignored_paths al).
Proof.
  unfold parse_with_policy. destruct (allowlist_empty w) as [al0 w0] eqn:He.
  unfold allowlist_empty, observed_new in He. simplify_eq.
  set (al0 := mkAllowlist ∅ ∅ _ _ [] [] []).
  assert (H0 : synced al0) by (by constructor).
  assert (C0 : forall w, counters_ok (al0, w)) by (intros; split; [by apply NoDup_nil_2 | by constructor]).
  destruct (days_since_epoch now) as [today|err]; [|intros [= <- <-]; split; [by constructor | split; [exact (C0 _) | done]]].
  assert (Hp : forall ln e f d al w, synced (fst (al, w : world)) -> synced (fst (push_policy_violation ln e f d al, w)))
    by (intros ?????? []; by constructor).
  assert (Hx : forall ln e x al w, synced (fst (al, w : world)) -> synced (fst (push_expired ln e x al, w)))
    by (intros ????? []; by constructor).
  match goal with |- context [foldl ?f ?s ?l] =>
    pose proof (parse_lines_closed (fun q => synced (fst q)) Hp Hx synced_add_rule policy today s l H0) as HS;
    pose proof (parse_lines_closed counters_ok (fun _ _ _ _ _ _ H => H) (fun _ _ _ _ _ H => H)
      counters_ok_add_rule policy today s l (C0 _)) as HC;
    destruct (foldl f s l) as [al1 w1] end.
  intros [= <- <-]. destruct HS. split; [by constructor | split; [exact HC | done]].
Qed.

(** ** Loading under a policy *)

Lemma fold_lines policy today l st :
  today_ok today ->
  let st' := foldl (process_line policy today) st l in
  let lines := List.filter (fun nl => active (snd nl)) l in
  (flaws (fst st) <= flaws (fst st'))%nat /\
  (flaws (fst st') = flaws (fst st) <-> Forall (fun nl => exists e k, acceptable policy today (snd nl) e k) lines) /\
  (flaws (fst st') = flaws (fst st) ->
   exists rs, rules (fst st') = rules (fst st) ++ rs /\ Forall2 (accepted policy today) lines rs).
Proof.
  intros Ht. revert st. induction l as [|[n line] l IH]; intros st st' lines.
  { subst st' lines. simpl. split; [done|]. split; [by split|]. exists []. by rewrite app_nil_r. }
  subst st' lines. cbn [foldl List.filter snd].
  destruct (active line) eqn:Ha; [|rewrite process_inactive by done; apply IH].
  destruct st as [al w]. specialize (IH (process_line policy today (al, w) (n, line))). cbv zeta in IH.
  destruct IH as (Hmono & Hiff & Hrs).
  destruct (process_active policy today al w n line Ht Ha) as [(e & k & Hacc & Hp)|[Hno Hf]].
  - assert (F : flaws (fst (process_line policy today (al, w) (n, line))) = flaws al) by (rewrite Hp; apply flaws_add_rule).
    rewrite F in Hmono, Hiff, Hrs. cbn [fst]. split; [done|]. split.
    + rewrite Hiff, Forall_cons. split; [intros H|by intros [_ H]]. split; [|done]. by exists e, k.
    + intros H. destruct (Hrs H) as (rs & Hr & H2). rewrite Hr, Hp.
      assert (exists loc, rules (fst (add_rule (n + 1) e k (al, w))) = rules al ++ [mkRule (n + 1) e k loc]) as [loc ->]
        by (exists (length (counters w)); by destruct k).
      exists (mkRule (n + 1) e k loc :: rs). rewrite <- app_assoc. split; [done|]. constructor; [|done]. by split.
  - cbn [fst] in *. split; [lia|]. split; [|intros H; lia].
    split; [intros H; lia|]. intros [H _]%Forall_cons. done.
Qed.

Lemma no_flaws al path :
  (expired_entries_error al path = None /\ policy_violations_error al path = None) <-> flaws al = O.
Proof.
  unfold expired_entries_error, policy_violations_error, flaws.
  destruct (expired_entries al), (policy_violations al); simpl; split; try done; try lia; by intros [].
Qed.

Lemma load_Ok_iff ue file path policy now w al w' :
  load_with_policy ue file path policy now w = Ok (al, w') <->
  exists data content, read_capped file path RULE_CONFIG_FILE_BYTES $"allowlist" = Ok data /\ from_utf8 data = Some content /\
    parse_with_policy content policy now w = (al, w') /\ flaws al = O.
Proof.
  unfold load_with_policy. destruct (read_capped _ _ _ _) as [data|]; [|split; [done | by intros (? & ? & [=] & _)]].
  destruct (from_utf8 data) as [content|] eqn:Hu; [|split; [done | intros (? & ? & [= <-] & H & _); congruence]].
  destruct (parse_with_policy content policy now w) as [al1 w1] eqn:Hp. split.
  - intros H. exists data, content. split; [done|]. split; [done|].
    destruct (expired_entries_error al1 path) eqn:E1; [done|].
    destruct (policy_violations_error al1 path) eqn:E2; [done|]. injection H as <- <-. split; [done|].
    by apply (no_flaws al1 path).
  - intros (? & ? & [= <-] & Hu' & Hp' & Hf). rewrite Hu in Hu'. injection Hu' as <-. rewrite Hp in Hp'.
    injection Hp' as <- <-. apply (no_flaws al1 path) in Hf as [-> ->]. done.
Qed.

(** The parse result in terms of the lines of the file. *)
Lemma parse_lines_result content policy now w al w' :
  (forall s, now = Some s -> 0 <= s) ->
  parse_with_policy content policy now w = (al, w') ->
  (flaws al = O <-> exists today, days_since_epoch now = Ok today /\
     Forall (fun nl => exists e k, acceptable policy today (snd nl) e k) (active_lines content)) /\
  (flaws al = O -> exists today, days_since_epoch now = Ok today /\ Forall2 (accepted policy today) (active_lines content) (rules al)).
Proof.
  intros Hnow. unfold parse_with_policy, active_lines. destruct (allowlist_empty w) as [al0 w0] eqn:He.
  unfold allowlist_empty, observed_new in He. simplify_eq.
  destruct (days_since_epoch now) as [today|err] eqn:Hd.
  2: { intros [= <- <-]. split; [split; [done | by intros (? & [=] & _)] | done]. }
  pose proof (days_since_epoch_ok _ _ Hnow Hd) as Ht.
  match goal with |- context [foldl ?f ?s ?l] =>
    destruct (fold_lines policy today l s Ht) as (_ & Hiff & Hrs); destruct (foldl f s l) as [al1 w1] end.
  intros [= <- <-]. change (flaws (set_path_index _ al1)) with (flaws al1). cbn [fst] in *.
  change (flaws (mkAllowlist ∅ ∅ _ _ [] [] [])) with O in Hiff, Hrs. split.
  - rewrite Hiff. split; [by exists today | by intros (? & [= <-] & ?)].
  - intros H. exists today. split; [done|]. destruct (Hrs H) as (rs & Hr & H2). cbn [rules app] in Hr.
    cbn [set_path_index rules]. by rewrite Hr.
Qed.

(** C15. Loading an allowlist under a governance policy succeeds exactly when the
    file can be read as text, the clock is sane, and every line that is neither
    blank nor a comment is a valid entry whose metadata is well formed, not
    expired and satisfies the policy.  Then every such line is one rule, in
    order and under its line number, and the hashes, detectors and paths that
    are suppressed are exactly those of these rules: no line is dropped and
    nothing ungoverned is suppressed. *)
Theorem load_governed (utf8_error : bytes -> str) (file : option opened_file) (path : str)
    (policy : AllowlistMetadataPolicy) (now : option Z) (w : world) :
  (forall s, now = Some s -> 0 <= s) ->
  let load := load_with_policy utf8_error file path policy now w in
  (is_ok load = true <->
   exists data content today, read_capped file path RULE_CONFIG_FILE_BYTES $"allowlist" = Ok data /\
     from_utf8 data = Some content /\ days_since_epoch now = Ok today /\
     Forall (fun nl => exists e k, acceptable policy today (snd nl) e k) (active_lines content)) /\
  (forall al w', load = Ok (al, w') ->
   exists data content today, read_capped file path RULE_CONFIG_FILE_BYTES $"allowlist" = Ok data /\
     from_utf8 data = Some content /\ days_since_epoch now = Ok today /\
     Forall2 (accepted policy today) (active_lines content) (rules al) /\ synced al).
Proof.
  intros Hnow load. subst load. split; [split|].
  - destruct (load_with_policy _ _ _ _ _ _) as [[al w']|] eqn:Hl; [intros _|done].
    apply load_Ok_iff in Hl as (data & content & Hr & Hu & Hp & Hf).
    destruct (parse_lines_result _ _ _ _ _ _ Hnow Hp) as [[H1 _] _].
    destruct (H1 Hf) as (today & ? & ?). by exists data, content, today.
  - intros (data & content & today & Hr & Hu & Hd & Hall).
    destruct (parse_with_policy content policy now w) as [al w'] eqn:Hp.
    assert (Hf : flaws al = O) by (apply (parse_lines_result _ _ _ _ _ _ Hnow Hp); by exists today).
    replace (load_with_policy _ _ _ _ _ _) with (Ok (E:=io_error) (al, w')); [done|]. symmetry.
    apply load_Ok_iff. by exists data, content.
  - intros al w' (data & content & Hr & Hu & Hp & Hf)%load_Ok_iff.
    destruct (parse_lines_result _ _ _ _ _ _ Hnow Hp) as [_ H2]. destruct (H2 Hf) as (today & ? & ?).
    exists data, content, today. do 4 (split; [done|]). exact (proj1 (parse_synced _ _ _ _ _ _ Hp)).
Qed.

(** ** Witnesses *)

Definition sample_file : option opened_file := Some (Build_opened_file 0 sample_content).

Lemma load_governed_witness :
  match load_with_policy (fun _ => []) sample_file $"f" strict (Some 1700000000) world0 with
  | Ok (al, _) => synced al /\ line_number <$> rules al = [2; 3]
  | Err _ => False
  end.
Proof.
  destruct (load_governed (fun _ => []) sample_file $"f" strict (Some 1700000000) world0) as [_ H]; [intros s [= <-]; lia|].
  destruct (load_with_policy _ _ _ _ _ _) as [[al w']|e] eqn:Hl; [|by vm_compute in Hl].
  destruct (H al w' eq_refl) as (_ & _ & _ & _ & _ & _ & _ & Hs). split; [exact Hs|].
  vm_compute in Hl. by injection Hl as <- <-.
Defined.
