(* ===== verification/AllowlistIndex.v ===== *)
(** * Attribution and index freshness of the allowlist ([crates/core/src/allowlist.rs])

    Recording findings against the rules of [Allowlist], and the public path
    lists that can be mutated behind the compiled index. *)

From S2P Require Import Prelude Float64 Evidence Finding Utf8 VerifierCache Glob AllowlistMeta Allowlist.

Lemma nodup_fmap_inj {A B} (f : A -> B) l x y : NoDup (f <$> l) -> x ∈ l -> y ∈ l -> f x = f y -> x = y.
Proof.
  intros Hnd (i & Hi)%list_elem_of_lookup (j & Hj)%list_elem_of_lookup He.
  assert (i = j) as ->; [|congruence]. eapply (NoDup_lookup (f <$> l)); [done|..].
  - rewrite list_lookup_fmap, Hi. done.
  - rewrite list_lookup_fmap, Hj, He. done.
Qed.

(** ** Attribution *)

(** What it means for a rule to match a finding. *)
Definition rule_matches (finding : VerifiedFinding) (r : AllowlistRule) : bool :=
  match kind r with
  | KDetector d => bool_decide (vf_detector_id finding = d)
  | KHash h => bool_decide (vf_credential_hash finding = h)
  | KPath p => match loc_file_path (vf_location finding) with
               | Some path => pattern_matches_path p (normalize_path path)
               | None => false
               end
  end.

Definition fresh_index (al : Allowlist) : Prop :=
  matches_sources (path_index al) (ignored_paths al) = true -> path_index al = build (ignored_paths al).

Lemma path_matches_rules al normalized :
  fresh_index al -> synced al ->
  al_path_matches al normalized = existsb (fun p => pattern_matches_path p normalized) (omap path_of (rules al)).
Proof. intros Hf [_ _ Hp]. unfold al_path_matches. by rewrite path_matches_sweep, Hp. Qed.

Lemma existsb_omap {A B} (f : B -> bool) (g : A -> option B) l :
  existsb f (omap g l) = existsb (fun a => match g a with Some b => f b | None => false end) l.
Proof. induction l as [|a l IH]; [done|]. cbn. destruct (g a); cbn; by rewrite IH. Qed.

Lemma existsb_orb {A} (f g : A -> bool) l : existsb (fun a => f a || g a) l = existsb f l || existsb g l.
Proof. induction l as [|a l IH]; [done|]. simpl. rewrite IH. by destruct (f a), (g a), (existsb f l), (existsb g l). Qed.

Lemma bool_decide_in_omap {A} `{Countable B} (g : A -> option B) (x : B) l :
  bool_decide (x ∈ (list_to_set (omap g l) : gset B)) = existsb (fun a => bool_decide (g a = Some x)) l.
Proof.
  induction l as [|a l IH]; cbn [omap list_omap existsb].
  { rewrite bool_decide_false; [done | set_solver]. }
  rewrite <- IH. destruct (g a) as [y|]; cbn [list_to_set].
  - destruct (decide (y = x)) as [->|Hne].
    + rewrite !bool_decide_true by set_solver. done.
    + rewrite (bool_decide_false (Some y = Some x)) by congruence. cbn [orb]. apply bool_decide_ext. set_solver.
  - by rewrite (bool_decide_false (None = Some x)).
Qed.

Lemma is_allowed_rules al finding :
  fresh_index al -> synced al -> is_allowed al finding = existsb (rule_matches finding) (rules al).
Proof.
  intros Hf Hs. unfold is_allowed, matches_ignored_hash. destruct Hs as [Hh Hd Hp] eqn:E. rewrite Hh, Hd, !bool_decide_in_omap.
  replace (match loc_file_path (vf_location finding) with Some p => al_path_matches al (normalize_path p) | None => false end)
    with (existsb (fun r => match kind r, loc_file_path (vf_location finding) with
                            | KPath p, Some path => pattern_matches_path p (normalize_path path) | _, _ => false end) (rules al)).
  2: { destruct (loc_file_path (vf_location finding)) as [path|].
       - rewrite path_matches_rules, existsb_omap by done. apply existsb_ext_in. intros r _. unfold path_of. by destruct (kind r).
       - apply not_true_iff_false. rewrite existsb_exists. intros (r & _ & H). by destruct (kind r). }
  rewrite <- !existsb_orb. apply existsb_ext_in. intros r _. unfold detector_of, hash_of, rule_matches.
  destruct (kind r) as [h|d|p]; rewrite ?(bool_decide_false (None = _)) by done; rewrite ?orb_false_r; cbn [orb];
    try (apply bool_decide_ext; split; congruence). by destruct (loc_file_path _).
Qed.

Lemma record_where_fold (f : AllowlistRule -> bool) rs b w :
  NoDup (matches <$> rs) ->
  let st := foldl (fun '(matched, w) rule => if f rule then (true, bump_matches (matches rule) w) else (matched, w)) (b, w) rs in
  fst st = b || existsb f rs /\ next_id (snd st) = next_id w /\
  forall loc, counters (snd st) !! loc =
    if existsb (fun r => (matches r =? loc)%nat && f r) rs then (fun c => (c + 1) mod 2 ^ 64) <$> counters w !! loc
    else counters w !! loc.
Proof.
  revert b w. induction rs as [|r rs IH]; intros b w Hnd; cbn [foldl existsb].
  { by rewrite orb_false_r. }
  cbn [fmap list_fmap] in Hnd. apply NoDup_cons in Hnd as [Hr Hnd].
  assert (Hno : existsb (fun r0 => (matches r0 =? matches r)%nat && f r0) rs = false).
  { apply not_true_iff_false. rewrite existsb_exists. intros (r0 & Hin & [He _]%andb_true_iff).
    apply Nat.eqb_eq in He. apply Hr. rewrite <- He. apply list_elem_of_fmap. exists r0. split; [done|].
    by apply list_elem_of_In. }
  destruct (f r) eqn:Hf.
  - destruct (IH true (bump_matches (matches r) w) Hnd) as (H1 & H2 & H3). split; [rewrite H1; by destruct b|]. split; [by rewrite H2|].
    intros loc. rewrite H3. unfold bump_matches. cbn [counters]. destruct (Nat.eqb_spec (matches r) loc) as [<-|Hne].
    + by rewrite Hno, list_lookup_alter_eq.
    + by rewrite list_lookup_alter_ne.
  - destruct (IH b w Hnd) as (H1 & H2 & H3). split; [by rewrite H1|]. split; [done|]. intros loc.
    rewrite H3, andb_false_r. done.
Qed.

(** Attribution: on an allowlist as parsed, recording a finding reports a
    match exactly when the finding is suppressed, and moves the counters of
    exactly the rules that match it, by one; every other counter of the process
    is left alone.  So a rule is listed as unused only while none of the recorded
    findings matched it. *)
Theorem record_match_attribution content policy now w0 al w1 (finding : VerifiedFinding) (w : world) :
  parse_with_policy content policy now w0 = (al, w1) ->
  (length (counters w1) <= length (counters w))%nat ->
  let '(matched, w') := record_match al finding w in
  matched = is_allowed al finding /\ matched = existsb (rule_matches finding) (rules al) /\
  (forall r, r ∈ rules al ->
     rule_count w' r = if rule_matches finding r then (rule_count w r + 1) mod 2 ^ 64 else rule_count w r) /\
  (forall loc, loc ∉ matches <$> rules al -> counters w' !! loc = counters w !! loc).
Proof.
  intros Hp Hlen. destruct (parse_synced _ _ _ _ _ _ Hp) as (Hs & [Hnd Hlt] & Hi). cbn [fst snd] in Hnd, Hlt.
  assert (Hf : fresh_index al) by (intros _; exact Hi).
  assert (Hsel : forall r, r ∈ rules al -> rule_selects al finding r = rule_matches finding r).
  { intros r Hr. unfold rule_selects, rule_matches. destruct (kind r) as [h|d|p] eqn:Hk; [done..|].
    destruct (loc_file_path _) as [path|]; [|done]. rewrite path_matches_rules by done.
    destruct (pattern_matches_path p (normalize_path path)) eqn:Hm; [|by rewrite andb_false_r].
    rewrite andb_true_r. apply existsb_exists. exists p. split; [|done]. apply list_elem_of_In, list_elem_of_omap.
    exists r. split; [done|]. unfold path_of. by rewrite Hk. }
  pose proof (record_where_fold (rule_selects al finding) (rules al) false w Hnd) as (H1 & _ & H3).
  unfold record_match, record_where. destruct (foldl _ _ _) as [matched w']. cbn [fst snd orb] in *.
  rewrite (existsb_ext_in _ _ _ Hsel) in H1. split; [by rewrite is_allowed_rules|]. split; [done|]. split.
  - intros r Hr. unfold rule_count. rewrite H3.
    assert (Hr' : exists c, counters w !! matches r = Some c).
    { apply lookup_lt_is_Some_2. rewrite Forall_forall in Hlt. specialize (Hlt r Hr). lia. }
    destruct Hr' as [c Hc]. rewrite Hc. cbn [from_option id].
    replace (existsb _ _) with (rule_matches finding r); [by destruct (rule_matches finding r)|].
    rewrite <- (Hsel r Hr). symmetry. apply eq_true_iff_eq. rewrite existsb_exists. split.
    + intros (r0 & Hin%list_elem_of_In & [He%Nat.eqb_eq Hm]%andb_true_iff).
      assert (r0 = r) as -> by (by apply (nodup_fmap_inj matches (rules al))). done.
    + intros Hm. exists r. rewrite Nat.eqb_refl. split; [by apply list_elem_of_In | done].
  - intros loc Hloc. rewrite H3. replace (existsb _ _) with false; [done|]. symmetry. apply not_true_iff_false.
    rewrite existsb_exists. intros (r0 & Hin%list_elem_of_In & [He%Nat.eqb_eq _]%andb_true_iff). apply Hloc.
    rewrite <- He. by apply list_elem_of_fmap_2.
Qed.

(** ** Mutation behind the index

    [ignored_paths] is public: a caller may change it in place, replace it, or
    swap it with the list of another allowlist, while the index stays private.
    A process is a pool of allowlists under any sequence of such operations. *)

Inductive pool_op :=
| PParse (content : str) (policy : AllowlistMetadataPolicy) (now : option Z)
| PClone (i : nat)
| PMutate (i : nat) (f : list str -> list str)
| PAssign (i : nat) (values : list str)
| PSwap (i j : nat)
| PRecord (i : nat) (finding : VerifiedFinding).

Definition set_ignored_paths (ps : ObservedPaths) (al : Allowlist) : Allowlist :=
  mkAllowlist (credential_hashes al) (ignored_detectors al) ps (path_index al)
    (expired_entries al) (policy_violations al) (rules al).

Definition pool_step (st : list Allowlist * world) (op : pool_op) : list Allowlist * world :=
  let '(pool, w) := st in
  match op with
  | PParse content policy now => let '(al, w') := parse_with_policy content policy now w in (pool ++ [al], w')
  | PClone i => match pool !! i with
                | Some al => let '(al', w') := clone al w in (pool ++ [al'], w')
                | None => st
                end
  | PMutate i f => match pool !! i with
                   | Some al => (<[i := set_ignored_paths (observed_mutate f (ignored_paths al)) al]> pool, w)
                   | None => st
                   end
  | PAssign i values => match pool !! i with
                        | Some al => let '(ps, w') := observed_new values w in (<[i := set_ignored_paths ps al]> pool, w')
                        | None => st
                        end
  | PSwap i j => match pool !! i, pool !! j with
                 | Some a, Some b =>
                     if decide (i = j) then st
                     else (<[j := set_ignored_paths (ignored_paths a) b]> (<[i := set_ignored_paths (ignored_paths b) a]> pool), w)
                 | _, _ => st
                 end
  | PRecord i finding => match pool !! i with
                         | Some al => (pool, snd (record_match al finding w))
                         | None => st
                         end
  end.

Definition pool_run (ops : list pool_op) : list Allowlist * world := foldl pool_step ([], mkWorld 1 []) ops.

(** The ghost state of a run: the true (unwrapped) epoch of every path list
    created, and the content each list had at each epoch. *)
Record ghost := mkGhost { current_epoch : gmap Z Z; content_at : gmap (Z * Z) (list str); created : Z }.

Definition list_ok (g : ghost) (ps : ObservedPaths) : Prop :=
  exists t, current_epoch g !! instance_id ps = Some t /\ mutation_epoch ps = t mod 2 ^ 64 /\
            content_at g !! (instance_id ps, t) = Some (patterns ps).

Definition index_ok (g : ghost) (ix : PathGlobIndex) : Prop :=
  exists i t v, ix = build (Build_ObservedPaths i (t mod 2 ^ 64) v) /\ content_at g !! (i, t) = Some v.

Record ghost_ok (n : Z) (g : ghost) : Prop := {
  gh_created : 0 <= created g <= n;
  gh_range : forall i t v, content_at g !! (i, t) = Some v -> 1 <= i <= created g;
  gh_current : forall i t, current_epoch g !! i = Some t -> 1 <= i <= created g;
  gh_window : forall i t t' v, current_epoch g !! i = Some t -> content_at g !! (i, t') = Some v -> t' <= t <= t' + n }.

Record pool_ok (n : Z) (g : ghost) (pool : list Allowlist) (w : world) : Prop := {
  po_ghost : ghost_ok n g;
  po_next : next_id w = 1 + created g;
  po_lists : Forall (fun al => list_ok g (ignored_paths al) /\ index_ok g (path_index al)) pool;
  po_unique : NoDup ((fun al => instance_id (ignored_paths al)) <$> pool) }.

(** A list created with a fresh id. *)
Definition ghost_new (t : Z) (v : list str) (g : ghost) : ghost :=
  let i := created g + 1 in
  mkGhost (<[i := t]> (current_epoch g)) (<[(i, t) := v]> (content_at g)) i.

Lemma ghost_new_ok n t v g : ghost_ok n g -> 0 <= n -> ghost_ok (n + 1) (ghost_new t v g).
Proof.
  intros [] Hn. constructor; cbn [ghost_new created content_at current_epoch].
  - lia.
  - intros i t' v'. destruct (decide ((i, t') = (created g + 1, t))) as [[= -> ->]|Hne]; [lia|].
    rewrite lookup_insert_ne by done. intros H. specialize (gh_range0 _ _ _ H). lia.
  - intros i t'. destruct (decide (i = created g + 1)) as [->|Hne]; [lia|].
    rewrite lookup_insert_ne by done. intros H. specialize (gh_current0 _ _ H). lia.
  - intros i t1 t2 v'. destruct (decide (i = created g + 1)) as [->|Hne].
    + rewrite lookup_insert_eq. intros [= <-]. destruct (decide (t2 = t)) as [->|Ht]; [lia|].
      rewrite lookup_insert_ne by congruence. intros H. specialize (gh_range0 _ _ _ H). lia.
    + rewrite !lookup_insert_ne by congruence. intros H1 H2. specialize (gh_window0 _ _ _ _ H1 H2). lia.
Qed.

Lemma list_ok_new n t v g ps : ghost_ok n g -> list_ok g ps -> list_ok (ghost_new t v g) ps.
Proof.
  intros [] (t0 & H1 & H2 & H3). exists t0. specialize (gh_current0 _ _ H1). cbn [ghost_new current_epoch content_at].
  by rewrite !lookup_insert_ne by (try congruence; lia || (intros [=]; lia)).
Qed.

Lemma index_ok_new n t v g ix : ghost_ok n g -> index_ok g ix -> index_ok (ghost_new t v g) ix.
Proof.
  intros [] (i & t0 & v0 & -> & H). exists i, t0, v0. specialize (gh_range0 _ _ _ H). cbn [ghost_new content_at].
  by rewrite lookup_insert_ne by (intros [=]; lia).
Qed.

Lemma ghost_new_list t v g :
  list_ok (ghost_new t v g) (Build_ObservedPaths (created g + 1) (t mod 2 ^ 64) v).
Proof. exists t. cbn [ghost_new current_epoch content_at instance_id mutation_epoch patterns]. by rewrite !lookup_insert_eq. Qed.

Lemma list_ok_id n g ps : ghost_ok n g -> list_ok g ps -> 1 <= instance_id ps <= created g.
Proof. intros [] (t & H & _). by apply gh_current0 in H. Qed.

Lemma ghost_widen n g : ghost_ok n g -> ghost_ok (n + 1) g.
Proof.
  intros []. constructor; [lia|done|done|]. intros i t t' v H1 H2. specialize (gh_window0 _ _ _ _ H1 H2). lia.
Qed.

(** Mutation of the list with id [i]. *)
Definition ghost_mutate (i t : Z) (v : list str) (g : ghost) : ghost :=
  mkGhost (<[i := t + 1]> (current_epoch g)) (<[(i, t + 1) := v]> (content_at g)) (created g).

Lemma ghost_mutate_ok n i t v g :
  ghost_ok n g -> 0 <= n -> current_epoch g !! i = Some t -> ghost_ok (n + 1) (ghost_mutate i t v g).
Proof.
  intros [] Hn Hi. pose proof (gh_current0 _ _ Hi). constructor; cbn [ghost_mutate created content_at current_epoch].
  - lia.
  - intros i' t' v'. destruct (decide ((i', t') = (i, t + 1))) as [[= -> ->]|Hne]; [lia|].
    rewrite lookup_insert_ne by done. intros H'. by specialize (gh_range0 _ _ _ H').
  - intros i' t'. destruct (decide (i' = i)) as [->|Hne]; [lia|]. rewrite lookup_insert_ne by done. by apply gh_current0.
  - intros i' t1 t2 v'. destruct (decide (i' = i)) as [->|Hne].
    + rewrite lookup_insert_eq. intros [= <-]. destruct (decide (t2 = t + 1)) as [->|Ht]; [lia|].
      rewrite lookup_insert_ne by congruence. intros H'. specialize (gh_window0 _ _ _ _ Hi H'). lia.
    + rewrite !lookup_insert_ne by congruence. intros H1 H2. specialize (gh_window0 _ _ _ _ H1 H2). lia.
Qed.

Lemma list_ok_mutate i t v g ps : instance_id ps <> i -> list_ok g ps -> list_ok (ghost_mutate i t v g) ps.
Proof.
  intros Hne (t0 & H1 & H2 & H3). exists t0. cbn [ghost_mutate current_epoch content_at].
  by rewrite !lookup_insert_ne by congruence.
Qed.

Lemma index_ok_mutate n i t v g ix :
  ghost_ok n g -> current_epoch g !! i = Some t -> index_ok g ix -> index_ok (ghost_mutate i t v g) ix.
Proof.
  intros [] Hi (i0 & t0 & v0 & -> & H). exists i0, t0, v0. split; [done|]. cbn [ghost_mutate content_at].
  rewrite lookup_insert_ne; [done|]. intros [= <- <-]. specialize (gh_window0 _ _ _ _ Hi H). lia.
Qed.

(** An index never passes for that of a list in another state. *)
Lemma pool_fresh n g pool w al :
  pool_ok n g pool w -> n < 2 ^ 64 -> al ∈ pool -> fresh_index al.
Proof.
  intros [[] Hnext Hl _] Hn Hin. rewrite Forall_forall in Hl. destruct (Hl al Hin) as [(t & H1 & H2 & H3) (i & t' & v & Hix & H4)].
  intros Hm. unfold matches_sources in Hm. rewrite Hix in Hm |- *.
  assert (Hsrc : forall ps, source_instance_id (build ps) = instance_id ps /\ source_mutation_epoch (build ps) = mutation_epoch ps).
  { intros ps. apply build_sources. }
  destruct (Hsrc (Build_ObservedPaths i (t' mod 2 ^ 64) v)) as [-> ->] in Hm. cbn [instance_id mutation_epoch] in Hm.
  apply andb_true_iff in Hm as [->%Z.eqb_eq He%Z.eqb_eq]. rewrite H2 in He.
  specialize (gh_window0 _ _ _ _ H1 H4).
  assert (t' = t) as ->.
  { assert (Hd : (t - t') mod 2 ^ 64 = 0) by (rewrite Zminus_mod, He, Z.sub_diag; done).
    rewrite Z.mod_small in Hd by lia. lia. }
  rewrite H3 in H4. injection H4 as <-. f_equal. rewrite <- H2. by destruct (ignored_paths al).
Qed.

(** A parsed list has a fresh id and an epoch counted from zero. *)
Lemma parse_new_list content policy now w al w' :
  parse_with_policy content policy now w = (al, w') ->
  instance_id (ignored_paths al) = next_id w /\ next_id w' = (next_id w + 1) mod 2 ^ 64 /\
  (exists t, mutation_epoch (ignored_paths al) = t mod 2 ^ 64) /\ path_index al = build (ignored_paths al).
Proof.
  intros Hp. destruct (parse_synced _ _ _ _ _ _ Hp) as (_ & _ & Hix). rewrite Hix. clear Hix. revert Hp.
  set (P := fun st : Allowlist * world => instance_id (ignored_paths (fst st)) = next_id w /\
    next_id (snd st) = (next_id w + 1) mod 2 ^ 64 /\ exists t, mutation_epoch (ignored_paths (fst st)) = t mod 2 ^ 64).
  assert (Hr : forall ln e k st, P st -> P (add_rule ln e k st)).
  { intros ln e k [a v] (H1 & H2 & t & H3). destruct k; [by split; [|split; [|exists t]]..|].
    split; [done|]. split; [done|]. exists (t + 1). cbn [add_rule fst new_counter ignored_paths observed_mutate mutation_epoch] in *.
    rewrite H3. by rewrite Zplus_mod_idemp_l. }
  unfold parse_with_policy. destruct (allowlist_empty w) as [al0 w0] eqn:He. unfold allowlist_empty, observed_new in He. injection He as <- <-.
  assert (H0 : P (mkAllowlist ∅ ∅ (Build_ObservedPaths (next_id w) 0 []) (build (Build_ObservedPaths (next_id w) 0 [])) [] [] [],
     mkWorld ((next_id w + 1) mod 2 ^ 64) (counters w))) by (split; [done|]; split; [done|]; by exists 0).
  destruct (days_since_epoch now) as [today|err]; [|intros [= <- <-]; destruct H0 as (? & ? & ?); by split].
  match goal with |- context [foldl ?f ?s ?l] =>
    pose proof (parse_lines_closed P (fun _ _ _ _ _ _ H => H) (fun _ _ _ _ _ H => H) Hr policy today s l H0) as HP;
    destruct (foldl f s l) as [al1 w1] end.
  intros [= <- <-]. destruct HP as (? & ? & ?). by split.
Qed.

Section step.
Context (n : Z) (g : ghost) (pool : list Allowlist) (w : world).
Context (Hok : pool_ok n g pool w) (Hn : 0 <= n) (Hmax : n + 2 < 2 ^ 64).

(** Adding an allowlist whose list is new and whose index is that list's. *)
Lemma pool_add t v al w' :
  ignored_paths al = Build_ObservedPaths (next_id w) (t mod 2 ^ 64) v -> path_index al = build (ignored_paths al) ->
  next_id w' = (next_id w + 1) mod 2 ^ 64 -> exists g', pool_ok (n + 1) g' (pool ++ [al]) w'.
Proof.
  destruct Hok as [Hg Hnext Hl Hu]. intros Hps Hix Hw. exists (ghost_new t v g). rewrite Hnext in *.
  replace (1 + created g) with (created g + 1) in * by lia. pose proof (gh_created _ _ Hg) as Hc.
  constructor.
  - by apply ghost_new_ok.
  - rewrite Hw, Z.mod_small by lia. cbn [ghost_new created]. lia.
  - apply Forall_app. split.
    + eapply Forall_impl; [exact Hl|]. intros a [H1 H2]. split; [by eapply list_ok_new | by eapply index_ok_new].
    + constructor; [|done]. rewrite Hix, Hps. split; [apply ghost_new_list|].
      exists (created g + 1), t, v. split; [done|]. cbn [ghost_new content_at]. by rewrite lookup_insert_eq.
  - rewrite fmap_app. apply NoDup_app. split; [done|]. split; [|apply NoDup_singleton].
    intros i (a & -> & Ha)%list_elem_of_fmap Hi. cbn [fmap list_fmap] in Hi. apply list_elem_of_singleton in Hi.
    rewrite Hps in Hi. cbn [instance_id] in Hi. rewrite Forall_forall in Hl. destruct (Hl a Ha) as [H1 _].
    apply (list_ok_id _ _ _ Hg) in H1. lia.
Qed.

Lemma pool_idle w' : next_id w' = next_id w -> exists g', pool_ok (n + 1) g' pool w'.
Proof. intros Hw. exists g. destruct Hok. constructor; [by apply ghost_widen | congruence | done..]. Qed.

(** Replacing the list of one allowlist. *)
Lemma pool_replace i al ps g' w' :
  pool !! i = Some al -> ghost_ok (n + 1) g' -> next_id w' = 1 + created g' ->
  (forall a, a ∈ pool -> index_ok g' (path_index a)) ->
  (forall j a, pool !! j = Some a -> j <> i -> list_ok g' (ignored_paths a) /\ instance_id (ignored_paths a) <> instance_id ps) ->
  list_ok g' ps -> pool_ok (n + 1) g' (<[i := set_ignored_paths ps al]> pool) w'.
Proof.
  intros Hi Hg Hw Hix Hother Hps. constructor; [done|done|..].
  - apply Forall_lookup_2. intros j a Ha. apply list_lookup_insert_Some in Ha as [(-> & <- & _)|[Hne Ha]].
    + split; [done|]. exact (Hix al (list_elem_of_lookup_2 _ _ _ Hi)).
    + split; [by apply (Hother j a) | apply Hix; by eapply list_elem_of_lookup_2].
  - destruct Hok as [_ _ _ Hu]. apply NoDup_alt. intros j k x.
    rewrite !list_lookup_fmap, !fmap_Some. intros (a & Ha & ->) (b & Hb & Hab).
    apply list_lookup_insert_Some in Ha as [(<- & <- & _)|[Hnj Ha]], Hb as [(<- & <- & _)|[Hnk Hb]]; [done|..].
    + exfalso. by apply (Hother k b Hb).
    + exfalso. by apply (Hother j a Ha).
    + eapply (NoDup_lookup _ j k (instance_id (ignored_paths a)) Hu); rewrite list_lookup_fmap; [by rewrite Ha|].
      rewrite Hb. simpl. by rewrite Hab.
Qed.

Lemma pool_ids j k a b : pool !! j = Some a -> pool !! k = Some b ->
  instance_id (ignored_paths a) = instance_id (ignored_paths b) -> j = k.
Proof.
  destruct Hok as [_ _ _ Hu]. intros Ha Hb He.
  eapply (NoDup_lookup _ j k (instance_id (ignored_paths a)) Hu); rewrite list_lookup_fmap; [by rewrite Ha|].
  rewrite Hb. simpl. by rewrite He.
Qed.

Lemma pool_member i al : pool !! i = Some al -> list_ok g (ignored_paths al) /\ index_ok g (path_index al).
Proof. destruct Hok as [_ _ Hl _]. intros Hi. rewrite Forall_lookup in Hl. by apply (Hl i). Qed.

Lemma pool_mutate i al f :
  pool !! i = Some al ->
  exists g', pool_ok (n + 1) g' (<[i := set_ignored_paths (observed_mutate f (ignored_paths al)) al]> pool) w.
Proof.
  intros Hi. destruct (pool_member i al Hi) as [(t & H1 & H2 & H3) _]. pose proof Hok as [Hg Hnext Hl _].
  exists (ghost_mutate (instance_id (ignored_paths al)) t (f (patterns (ignored_paths al))) g).
  apply pool_replace; [done | by apply ghost_mutate_ok | done | ..].
  - intros a Ha. rewrite Forall_forall in Hl. eapply index_ok_mutate; [done|done|]. by apply Hl.
  - intros j a Ha Hne. assert (instance_id (ignored_paths a) <> instance_id (ignored_paths al)).
    { intros He. apply Hne. by eapply pool_ids. }
    split; [|done]. apply list_ok_mutate; [done|]. by apply (pool_member j).
  - exists (t + 1). cbn [ghost_mutate current_epoch content_at observed_mutate instance_id mutation_epoch patterns].
    rewrite !lookup_insert_eq, H2, Zplus_mod_idemp_l. done.
Qed.

Lemma pool_assign i al v :
  pool !! i = Some al ->
  exists g', pool_ok (n + 1) g' (<[i := set_ignored_paths (fst (observed_new v w)) al]> pool) (snd (observed_new v w)).
Proof.
  intros Hi. pose proof Hok as [Hg Hnext Hl _]. exists (ghost_new 0 v g). unfold observed_new. cbn [fst snd].
  rewrite Hnext. pose proof (gh_created _ _ Hg) as Hc.
  apply pool_replace; [done | by apply ghost_new_ok | cbn [next_id ghost_new created]; rewrite Z.mod_small; lia | ..].
  - intros a Ha. rewrite Forall_forall in Hl. eapply index_ok_new; [done|]. by apply Hl.
  - intros j a Ha Hne. destruct (pool_member j a Ha) as [H1 _]. split; [by eapply list_ok_new|].
    apply (list_ok_id _ _ _ Hg) in H1. cbn [instance_id]. lia.
  - replace (1 + created g) with (created g + 1) by lia. apply (ghost_new_list 0).
Qed.
End step.

Lemma record_where_next_id (f : AllowlistRule -> bool) al w : next_id (snd (record_where f al w)) = next_id w.
Proof.
  unfold record_where. generalize false as b. revert w. induction (rules al) as [|r rs IH]; intros w b; cbn [foldl]; [done|].
  destruct (f r); rewrite IH; done.
Qed.

Lemma swap_lookup {A} (l : list A) i j a b k :
  i <> j -> l !! i = Some a -> l !! j = Some b ->
  <[j := a]> (<[i := b]> l) !! k = l !! (if decide (k = i) then j else if decide (k = j) then i else k).
Proof.
  intros Hne Hi Hj. assert (Li : (i < length l)%nat) by (eapply lookup_lt_Some; done).
  assert (Lj : (j < length l)%nat) by (eapply lookup_lt_Some; done).
  destruct (decide (k = j)) as [->|Hkj].
  - rewrite decide_False, list_lookup_insert_eq by (rewrite ?length_insert; done). done.
  - rewrite list_lookup_insert_ne by done. destruct (decide (k = i)) as [->|Hki].
    + by rewrite list_lookup_insert_eq.
    + by rewrite list_lookup_insert_ne.
Qed.

Lemma pool_swap n g pool w i j a b :
  pool_ok n g pool w -> i <> j -> pool !! i = Some a -> pool !! j = Some b ->
  pool_ok (n + 1) g (<[j := set_ignored_paths (ignored_paths a) b]> (<[i := set_ignored_paths (ignored_paths b) a]> pool)) w.
Proof.
  intros Hok Hne Hi Hj. pose proof Hok as [Hg Hnext Hl Hu].
  destruct (pool_member _ _ _ _ Hok _ _ Hi) as [La Xa], (pool_member _ _ _ _ Hok _ _ Hj) as [Lb Xb].
  constructor; [by apply ghost_widen | done | ..].
  - apply Forall_insert; [|done]. by apply Forall_insert.
  - set (id := fun al => instance_id (ignored_paths al)) in *.
    replace (id <$> _) with (<[j := id a]> (<[i := id b]> (id <$> pool))) by (by rewrite !list_fmap_insert).
    assert (Hii : (id <$> pool) !! i = Some (id a)) by (by rewrite list_lookup_fmap, Hi).
    assert (Hjj : (id <$> pool) !! j = Some (id b)) by (by rewrite list_lookup_fmap, Hj).
    apply NoDup_alt. intros k l x. rewrite !(swap_lookup _ i j (id a) (id b)) by done. intros Hk Hl'.
    pose proof (NoDup_lookup _ _ _ _ Hu Hk Hl') as He. repeat case_decide; congruence.
Qed.

Lemma pool_step_ok n g pool w op :
  pool_ok n g pool w -> 0 <= n -> n + 2 < 2 ^ 64 ->
  exists g', pool_ok (n + 1) g' (fst (pool_step (pool, w) op)) (snd (pool_step (pool, w) op)).
Proof.
  intros Hok Hn Hmax. pose proof (pool_idle n g pool w Hok w eq_refl) as Hidle. destruct op as [content policy now|i|i f|i v|i j|i finding]; cbn [pool_step].
  - destruct (parse_with_policy content policy now w) as [al w'] eqn:Hp.
    destruct (parse_new_list _ _ _ _ _ _ Hp) as (H1 & H2 & (t & H3) & H4).
    apply (pool_add n g pool w Hok Hn Hmax t (patterns (ignored_paths al))); [|done..].
    rewrite <- H1, <- H3. by destruct (ignored_paths al).
  - destruct (pool !! i) as [al|] eqn:Hi; [|done]. unfold clone, observed_new. cbn [fst snd].
    by apply (pool_add n g pool w Hok Hn Hmax 0 (patterns (ignored_paths al))).
  - destruct (pool !! i) as [al|] eqn:Hi; [|done]. by eapply pool_mutate.
  - destruct (pool !! i) as [al|] eqn:Hi; [|done]. by eapply pool_assign.
  - destruct (pool !! i) as [a|] eqn:Hi; [|done]. destruct (pool !! j) as [b|] eqn:Hj; [|done].
    destruct (decide (i = j)) as [->|Hne]; [done|]. exists g. by apply pool_swap.
  - destruct (pool !! i) as [al|] eqn:Hi; [|done]. apply (pool_idle n g pool w Hok). apply record_where_next_id.
Qed.

Lemma pool_run_ok ops :
  zlen ops + 1 < 2 ^ 64 -> exists g, pool_ok (zlen ops) g (fst (pool_run ops)) (snd (pool_run ops)).
Proof.
  unfold pool_run, zlen. induction ops as [|op ops IH] using rev_ind; intros Hlen.
  - exists (mkGhost ∅ ∅ 0). constructor; cbn [foldl fst snd]; [|done|constructor|constructor].
    constructor; cbn [created content_at current_epoch]; [done|..]; intros *; by rewrite lookup_empty.
  - rewrite length_app in Hlen |- *. cbn [length] in *. destruct IH as [g Hg]; [lia|]. rewrite foldl_app. cbn [foldl].
    destruct (foldl pool_step _ ops) as [pool w]. replace (Z.of_nat (length ops + 1)) with (Z.of_nat (length ops) + 1) by lia.
    apply (pool_step_ok _ g); [done | lia | lia].
Qed.

(** C36. In a process that parses and clones allowlists and mutates, replaces and
    swaps their public path lists in any order, every path query of every
    allowlist gives what a plain sweep over its current patterns gives: the
    compiled index is used only while it belongs to the list's current content,
    through a list id and an epoch that cannot repeat before 2^64 operations. *)
Theorem index_never_stale (ops : list pool_op) (al : Allowlist) (path : str) :
  zlen ops + 1 < 2 ^ 64 -> al ∈ fst (pool_run ops) ->
  al_is_path_ignored al path =
  existsb (fun pattern => pattern_matches_path pattern (normalize_path path)) (patterns (ignored_paths al)).
Proof.
  intros Hlen Hin. destruct (pool_run_ok ops Hlen) as [g Hok]. unfold al_is_path_ignored, is_path_ignored.
  apply path_matches_sweep. eapply (pool_fresh (zlen ops)); [done | lia | done].
Qed.

(** ** Witnesses *)

Definition sample_finding : VerifiedFinding :=
  {| vf_detector_id := $"demo"; vf_detector_name := []; vf_service := []; vf_severity := Low;
     vf_credential_redacted := []; vf_credential_hash := []; vf_companions_redacted := ∅;
     vf_location := mkLocation [] (Some $"docs/a") None 0 None None None; vf_verification := Live; vf_metadata := ∅;
     vf_additional_locations := []; vf_entropy := None; vf_evidence_score := None;
     vf_evidence := rm_evidence sample_match |}.


Definition sample_ops : list pool_op :=
  [PParse $"a/b" default_policy (Some 0); PMutate 0 (fun _ => [ $"c" ]); PClone 0; PSwap 0 1].

Lemma index_never_stale_witness :
  match fst (pool_run sample_ops) with al :: _ => al_is_path_ignored al $"c" = true | [] => False end.
Proof.
  destruct (fst (pool_run sample_ops)) as [|al rest] eqn:Hp; [by vm_compute in Hp|].
  rewrite (index_never_stale sample_ops al $"c"); [|done | rewrite Hp; left].
  vm_compute in Hp. injection Hp as <- <-. by vm_compute.
Defined.
