(* ===== verification/Merkle.v ===== *)
(** * Incremental scan index ([crates/core/src/merkle_index.rs],
      [merkle_index/storage.rs])

    The sharded index of scanned chunks, its queries and updates, and its
    persistence gated on the detector digest with the racy-clean guard, the
    merge with concurrent writers and the eviction of old rows.  Paths are
    bytes, compared by their components as [Path] compares them; an insertion
    order of the shards that nothing observes is not kept.  BLAKE3 and JSON
    belong to other crates; file accesses and clock readings are arguments.
    A call holds the write lock of one shard; the counter of entries is an atomic
    outside the locks, so recording a new key is two steps, the admission against
    the cap and the insertion, between which calls on other shards run. *)

From S2P Require Import Prelude Utf8 Hex.

(** ** Keys and entries *)

#[export] Instance path_component_eq_dec : EqDecision path_component.
Proof. solve_decision. Defined.
#[export] Instance path_component_countable : Countable path_component :=
  inj_countable' (fun c => match c with RootDir => inl 0%nat | CurDir => inl 1%nat | ParentDir => inl 2%nat | Normal s => inr s end)
    (fun x => match x with inl 0%nat => RootDir | inl 1%nat => CurDir | inl _ => ParentDir | inr s => Normal s end)
    (fun c => match c with RootDir => eq_refl | CurDir => eq_refl | ParentDir => eq_refl | Normal _ => eq_refl end).

(** [Ord] of components: by variant, then by bytes. *)
Definition component_rank (c : path_component) : Z :=
  match c with RootDir => 1 | CurDir => 2 | ParentDir => 3 | Normal _ => 4 end.
Definition component_bytes (c : path_component) : bytes := match c with Normal s => s | _ => [] end.
Definition component_cmp (a b : path_component) : comparison :=
  then_with (Z.compare (component_rank a) (component_rank b)) (str_cmp (component_bytes a) (component_bytes b)).

(** [CacheKey] up to [Eq]: the components of the path and the chunk offset. *)
Abbreviation cache_key := (list path_component * Z)%type.

Definition key_of (path : bytes) (chunk_offset : Z) : cache_key := (path_components path, chunk_offset).

Definition cache_key_cmp (a b : cache_key) : comparison :=
  then_with (list_cmp component_cmp (fst a) (fst b)) (Z.compare (snd a) (snd b)).

Record MerkleCacheEntry := mkEntry { mtime_ns : Z; ctime_ns : Z; size : Z; last_seen_order : Z; hash : bytes }.

#[export] Instance MerkleCacheEntry_eq_dec : EqDecision MerkleCacheEntry.
Proof. solve_decision. Defined.

(** A map from keys keeps the spelling its key was inserted with. *)
Abbreviation MerkleShardMap := (gmap cache_key (bytes * MerkleCacheEntry)).

Record CacheFileFingerprint := mkFingerprint { modified : Z; len : Z }.

#[export] Instance CacheFileFingerprint_eq_dec : EqDecision CacheFileFingerprint.
Proof. solve_decision. Defined.

Record MerkleIndex := mkIndex {
  shards : list MerkleShardMap;
  max_entries : Z;
  cap_warned : bool;
  approx_count : Z;
  cache_file_fingerprint : option CacheFileFingerprint;
  access_order : Z }.

Definition SCHEMA_VERSION : Z := 5.
Definition MERKLE_SHARDS : nat := 64.
Definition SHARD_MIX : Z := 0x517cc1b727220a95.
Definition MERKLE_DEFAULT_MAX_ENTRIES : Z := 8000000.

Definition rotate_left5 (h : Z) : Z := Z.lor (Z.land (Z.shiftl h 5) u64_max) (Z.shiftr h 59).

Definition shard_index_bytes (bs : bytes) : nat :=
  Z.to_nat (Z.land (foldl (fun h byte => (rotate_left5 (Z.lxor h byte) * SHARD_MIX) mod 2 ^ 64) (Z.lxor SHARD_MIX (zlen bs)) bs) (Z.of_nat MERKLE_SHARDS - 1)).

Definition shard_index (path : bytes) : nat := shard_index_bytes path.

Definition merkle_with_max_entries (max : Z) : MerkleIndex := mkIndex (replicate MERKLE_SHARDS ∅) max false 0 None 0.
Definition merkle_empty : MerkleIndex := merkle_with_max_entries MERKLE_DEFAULT_MAX_ENTRIES.

(** ** Queries and updates *)

Definition shard_of (x : MerkleIndex) (path : bytes) : MerkleShardMap := default ∅ (shards x !! shard_index path).

Definition set_shards (f : list MerkleShardMap -> list MerkleShardMap) (x : MerkleIndex) : MerkleIndex :=
  mkIndex (f (shards x)) (max_entries x) (cap_warned x) (approx_count x) (cache_file_fingerprint x) (access_order x).

Definition update_shard (path : bytes) (f : MerkleShardMap -> MerkleShardMap) : MerkleIndex -> MerkleIndex :=
  set_shards (alter f (shard_index path)).

(** [shard.get(&CacheKeyRef { path, chunk_offset })] *)
Definition get_entry (x : MerkleIndex) (path : bytes) (chunk_offset : Z) : option MerkleCacheEntry :=
  snd <$> shard_of x path !! key_of path chunk_offset.

Definition unchanged (x : MerkleIndex) (path : bytes) (content_hash : bytes) : bool :=
  match get_entry x path 0 with Some prev => bool_decide (hash prev = content_hash) | None => false end.

Definition metadata_unchanged (x : MerkleIndex) (path : bytes) (mtime ctime sz : Z) : bool :=
  match get_entry x path 0 with
  | Some prev => (mtime_ns prev =? mtime) && (size prev =? sz) && negb (ctime_ns prev =? 0) && (ctime_ns prev =? ctime)
  | None => false
  end.

Definition lookup_path (x : MerkleIndex) (path : bytes) : option (Z * Z * bytes) :=
  (fun e => (mtime_ns e, size e, hash e)) <$> get_entry x path 0.

(** [fetch_add] wraps; the value returned saturates. *)
Definition next_access_order (x : MerkleIndex) : MerkleIndex * Z :=
  (mkIndex (shards x) (max_entries x) (cap_warned x) (approx_count x) (cache_file_fingerprint x) ((access_order x + 1) mod 2 ^ 64),
   saturating_add u64_max (access_order x) 1).

Definition observe_loaded_access_order (loaded_order : Z) (x : MerkleIndex) : MerkleIndex :=
  mkIndex (shards x) (max_entries x) (cap_warned x) (approx_count x) (cache_file_fingerprint x) (Z.max (access_order x) loaded_order).

Definition entry_cap_reached (x : MerkleIndex) : bool * MerkleIndex :=
  if (max_entries x =? 0) || (approx_count x <? max_entries x) then (false, x)
  else (true, mkIndex (shards x) (max_entries x) true (approx_count x) (cache_file_fingerprint x) (access_order x)).

Definition bump_count (x : MerkleIndex) : MerkleIndex :=
  mkIndex (shards x) (max_entries x) (cap_warned x) ((approx_count x + 1) mod 2 ^ 64) (cache_file_fingerprint x) (access_order x).

Definition record_borrowed_key_at_offset_with_metadata (path : bytes) (chunk_offset : Z) (entry : MerkleCacheEntry) (x : MerkleIndex) : MerkleIndex * bool :=
  match shard_of x path !! key_of path chunk_offset with
  | Some (spelling, previous) =>
      (update_shard path (<[key_of path chunk_offset := (spelling, entry)]>) x, bool_decide (hash previous = hash entry))
  | None =>
      let '(reached, x) := entry_cap_reached x in
      if reached then (x, false)
      else (bump_count (update_shard path (<[key_of path chunk_offset := (path, entry)]>) x), false)
  end.

Definition try_insert (path : bytes) (chunk_offset : Z) (entry : MerkleCacheEntry) (x : MerkleIndex) : MerkleIndex * bool :=
  match shard_of x path !! key_of path chunk_offset with
  | Some (spelling, _) => (update_shard path (<[key_of path chunk_offset := (spelling, entry)]>) x, true)
  | None =>
      let '(reached, x) := entry_cap_reached x in
      if reached then (x, false)
      else (bump_count (update_shard path (<[key_of path chunk_offset := (path, entry)]>) x), true)
  end.

(** [retain(|key, _| key.path != path)] *)
Definition forget (path : bytes) (x : MerkleIndex) : MerkleIndex :=
  update_shard path (filter (fun kv => fst (fst kv) <> path_components path)) x.

Definition merkle_len (x : MerkleIndex) : Z := foldr (fun s n => Z.of_nat (base.size s) + n) 0 (shards x).
Definition merkle_is_empty (x : MerkleIndex) : bool := forallb (fun s => bool_decide (base.size s = O)) (shards x).

(** ** Disk representation *)

Record EntryV4 := mkRow {
  row_path : str;
  row_chunk_offset : Z;
  row_mtime_ns : Z;
  row_ctime_ns : Z;
  row_size : Z;
  row_last_seen_order : Z;
  row_hash : str }.

Record OnDisk := mkOnDisk { version : Z; spec_hash : option str; written_at_ns : Z; entries : list EntryV4 }.

Class MerkleEnv := {
  blake3_digest : bytes -> bytes;
  merkle_hex :: HexCrate;
  json_from_slice : bytes -> result OnDisk str;
  json_to_vec : OnDisk -> result bytes str }.

Inductive merkle_io_error := NotFound | OtherIo (message : str).

Inductive MerkleLoadStatus :=
| Missing
| Loaded (loaded : Z)
| ReadFailed (error : str)
| ParseFailed (error : str)
| SchemaMismatch (found expected : Z)
| SpecChanged
| InvalidEntryHash (entry_path hash : str).

Section persistence.
Context `{MerkleEnv}.

Definition hash_content (content : bytes) : bytes := blake3_digest content.

Definition record_chunk_path_at_offset_and_check_unchanged (path : bytes) (chunk_offset mtime ctime sz : Z) (content : bytes)
    (x : MerkleIndex) : MerkleIndex * bool :=
  let content_hash := hash_content content in
  let '(x, order) := next_access_order x in
  record_borrowed_key_at_offset_with_metadata path chunk_offset (mkEntry mtime ctime sz order content_hash) x.

Definition NS_PER_SEC : Z := 1000000000.
Definition second_floor (ns : Z) : Z := ns / NS_PER_SEC * NS_PER_SEC.

(** The fingerprint of the cache file: [Err] when the query failed. *)
Abbreviation fingerprint_query := (result (option CacheFileFingerprint) str).

Definition remember_cache_file_fingerprint (fp : fingerprint_query) (x : MerkleIndex) : MerkleIndex :=
  match fp with
  | Ok f => mkIndex (shards x) (max_entries x) (cap_warned x) (approx_count x) f (access_order x)
  | Err _ => x
  end.

(** The loop over the rows: an invalid digest ends the load, a row the cap
    refuses ends the loop. *)
Fixpoint load_rows (racy_floor : Z) (rows : list EntryV4) (x : MerkleIndex) : result MerkleIndex MerkleLoadStatus :=
  match rows with
  | [] => Ok x
  | row :: rest =>
      match hex_to_array (row_hash row) with
      | None => Err (InvalidEntryHash (row_path row) (row_hash row))
      | Some h =>
          if racy_floor <=? row_mtime_ns row then load_rows racy_floor rest x
          else
            let x := observe_loaded_access_order (row_last_seen_order row) x in
            let '(x, inserted) := try_insert (as_bytes (row_path row)) (row_chunk_offset row)
              (mkEntry (row_mtime_ns row) (row_ctime_ns row) (row_size row) (row_last_seen_order row) h) x in
            if inserted then load_rows racy_floor rest x else Ok x
      end
  end.

Definition load_with_spec_inner (read : result bytes merkle_io_error) (fp : fingerprint_query) (expected_spec_hash : option bytes) (max : Z) :
    MerkleIndex * MerkleLoadStatus :=
  let cold := merkle_with_max_entries max in
  match read with
  | Err NotFound => (cold, Missing)
  | Err (OtherIo e) => (cold, ReadFailed e)
  | Ok bs =>
      match json_from_slice bs with
      | Err e => (cold, ParseFailed e)
      | Ok disk =>
          if negb (version disk =? SCHEMA_VERSION) then (cold, SchemaMismatch (version disk) SCHEMA_VERSION)
          else
            let spec_ok :=
              match expected_spec_hash with
              | None => true
              | Some expected =>
                  match spec_hash disk ≫= hex_to_array with Some stored => bool_decide (stored = expected) | None => false end
              end in
            if negb spec_ok then (cold, SpecChanged)
            else
              match load_rows (second_floor (written_at_ns disk)) (entries disk) cold with
              | Err status => (cold, status)
              | Ok idx =>
                  let idx := remember_cache_file_fingerprint fp idx in
                  (idx, Loaded (merkle_len idx))
              end
      end
  end.

(** ** Saving *)

Abbreviation merged_map := (gmap cache_key (bytes * MerkleCacheEntry)).

(** [HashMap::extend] and repeated [insert]: a key already there keeps its
    spelling and gets the new value. *)
Definition extend_map (merged s : merged_map) : merged_map := union_with (fun old new => Some (fst old, snd new)) merged s.

Definition flatten_shards (x : MerkleIndex) : merged_map := foldl extend_map ∅ (shards x).

Definition cache_file_changed_since_load_or_save (fp : fingerprint_query) (x : MerkleIndex) : bool :=
  match fp with
  | Err _ => true
  | Ok current => negb (bool_decide (current = cache_file_fingerprint x))
  end.

Definition load_merge_base (fp : fingerprint_query) (read : result bytes merkle_io_error) (fp_after : fingerprint_query) (spec : option bytes) (x : MerkleIndex) : merged_map :=
  if negb (cache_file_changed_since_load_or_save fp x) then ∅
  else flatten_shards (fst (load_with_spec_inner read fp_after spec (max_entries x))).

Definition overlay_in_memory_entries (x : MerkleIndex) (merged : merged_map) : merged_map * gset cache_key :=
  (foldl extend_map merged (shards x), foldl (fun acc s => acc ∪ dom s) ∅ (shards x)).

Definition eviction_cmp (a b : cache_key * (bytes * MerkleCacheEntry)) : comparison :=
  then_with (Z.compare (last_seen_order (snd (snd a))) (last_seen_order (snd (snd b)))) (cache_key_cmp (fst a) (fst b)).

(** [select_nth_unstable_by] followed by [truncate] keeps the smallest ones; the
    comparison has no ties. *)
Definition oldest_eviction_keys (merged : merged_map) (protected : option (gset cache_key)) (remove_count : nat) : list cache_key :=
  let candidates := List.filter (fun kv => match protected with Some p => negb (bool_decide (fst kv ∈ p)) | None => true end) (map_to_list merged) in
  let n := Nat.min remove_count (length candidates) in
  if (n =? 0)%nat then [] else map fst (take n (sort_by eviction_cmp candidates)).

Definition remove_all (ks : list cache_key) (merged : merged_map) : merged_map := foldl (fun m k => delete k m) merged ks.

Definition over_cap (max : Z) (merged : merged_map) : nat := (base.size merged - Z.to_nat max)%nat.

Definition enforce_persisted_cap (max : Z) (in_memory : gset cache_key) (merged : merged_map) : merged_map :=
  if (max =? 0) || (Z.of_nat (base.size merged) <=? max) then merged
  else
    let merged := remove_all (oldest_eviction_keys merged (Some in_memory) (over_cap max merged)) merged in
    if Z.of_nat (base.size merged) <=? max then merged
    else remove_all (oldest_eviction_keys merged None (over_cap max merged)) merged.

Definition encode_entries (merged : merged_map) : list EntryV4 :=
  map (fun kv => let '((_, off), (path, e)) := kv in
         mkRow (from_utf8_lossy path) off (mtime_ns e) (ctime_ns e) (size e) (last_seen_order e) (hex_string (hash e)))
    (sort_by (fun a b => cache_key_cmp (fst a) (fst b)) (map_to_list merged)).

(** The accesses one save makes: the lock, the fingerprint and the file it may
    merge with, the clock, the atomic replacement, the fingerprint after it. *)
Record SaveIo := mkSaveIo {
  io_lock : result unit str;
  io_fingerprint : fingerprint_query;
  io_read : result bytes merkle_io_error;
  io_fingerprint_loaded : fingerprint_query;
  io_now : Z;
  io_persist : result unit str;
  io_fingerprint_after : fingerprint_query }.

Definition merged_for_save (io : SaveIo) (spec : option bytes) (x : MerkleIndex) : merged_map :=
  let merged := load_merge_base (io_fingerprint io) (io_read io) (io_fingerprint_loaded io) spec x in
  let '(merged, in_memory) := overlay_in_memory_entries x merged in
  enforce_persisted_cap (max_entries x) in_memory merged.

(** The new index and the bytes that replaced the file. *)
Definition save_inner (io : SaveIo) (spec : option bytes) (x : MerkleIndex) : MerkleIndex * result bytes str :=
  match io_lock io with
  | Err e => (x, Err e)
  | Ok _ =>
      let disk := mkOnDisk SCHEMA_VERSION (hex_string <$> spec) (io_now io) (encode_entries (merged_for_save io spec x)) in
      match json_to_vec disk with
      | Err e => (x, Err e)
      | Ok serialized =>
          match io_persist io with
          | Err e => (x, Err e)
          | Ok _ => (remember_cache_file_fingerprint (io_fingerprint_after io) x, Ok serialized)
          end
      end
  end.
End persistence.

(** ** Shards *)

Lemma shard_index_lt path : (shard_index path < MERKLE_SHARDS)%nat.
Proof.
  unfold shard_index, shard_index_bytes. set (h := foldl _ _ _). change (Z.of_nat MERKLE_SHARDS - 1) with (Z.ones 6). rewrite Z.land_ones by lia.
  pose proof (Z.mod_pos_bound h (2 ^ 6) ltac:(lia)). change MERKLE_SHARDS with (Z.to_nat 64). apply Z2Nat.inj_lt; lia.
Qed.

Lemma shard_of_update path path' f x :
  length (shards x) = MERKLE_SHARDS ->
  shard_of (update_shard path f x) path' = if decide (shard_index path' = shard_index path) then f (shard_of x path') else shard_of x path'.
Proof.
  intros Hl. unfold shard_of, update_shard, set_shards. cbn [shards]. destruct (decide (shard_index path' = shard_index path)) as [He|Hne].
  - rewrite He, list_lookup_alter_eq. destruct (lookup_lt_is_Some_2 (shards x) (shard_index path)) as [s Hs]; [rewrite Hl; apply shard_index_lt|].
    by rewrite Hs.
  - by rewrite list_lookup_alter_ne.
Qed.

Lemma length_update path f x : length (shards (update_shard path f x)) = length (shards x).
Proof. unfold update_shard, set_shards. cbn [shards]. apply length_alter. Qed.

(** Replacing one shard changes the number of entries by the difference. *)
Lemma merkle_len_update path f x :
  length (shards x) = MERKLE_SHARDS ->
  merkle_len (update_shard path f x) = merkle_len x - Z.of_nat (base.size (shard_of x path)) + Z.of_nat (base.size (f (shard_of x path))).
Proof.
  intros Hl. unfold merkle_len, update_shard, set_shards, shard_of. cbn [shards]. pose proof (shard_index_lt path) as Hi. rewrite <- Hl in Hi. clear Hl.
  generalize dependent (shard_index path). induction (shards x) as [|s ss IH]; intros i Hi; cbn [length] in Hi; [lia|]. destruct i as [|i].
  - change (alter f 0%nat (s :: ss)) with (f s :: ss). cbn [foldr lookup list_lookup default from_option id]. unfold id. lia.
  - change (alter f (S i) (s :: ss)) with (s :: alter f i ss). cbn [foldr]. rewrite IH by lia. change ((s :: ss) !! S i) with (ss !! i). lia.
Qed.

(** ** Histories *)

Inductive merkle_op :=
| MRecord (path : bytes) (chunk_offset mtime ctime sz : Z) (content : bytes)
| MForget (path : bytes).

(** Which slot a call addresses, and what a recorded slot says. *)
Definition slot (path : bytes) (chunk_offset : Z) : nat * cache_key := (shard_index path, key_of path chunk_offset).
Abbreviation observation := (Z * Z * Z * bytes)%type.
Definition observe (e : MerkleCacheEntry) : observation := (mtime_ns e, ctime_ns e, size e, hash e).

Section histories.
Context `{MerkleEnv}.

Definition merkle_step (x : MerkleIndex) (o : merkle_op) : MerkleIndex :=
  match o with
  | MRecord path off mt ct sz content => fst (record_chunk_path_at_offset_and_check_unchanged path off mt ct sz content x)
  | MForget path => forget path x
  end.

(** The ledger: what each slot was last recorded with since it was last
    forgotten. *)
Definition ledger_step (A : nat * cache_key -> option observation) (o : merkle_op) : nat * cache_key -> option observation :=
  match o with
  | MRecord path off mt ct sz content => fun s => if decide (s = slot path off) then Some (mt, ct, sz, hash_content content) else A s
  | MForget path => fun s => if decide (fst s = shard_index path /\ fst (snd s) = path_components path) then None else A s
  end.

Definition ledger (A : nat * cache_key -> option observation) (ops : list merkle_op) : nat * cache_key -> option observation := foldl ledger_step A ops.

(** What the index holds. *)
Definition holds (x : MerkleIndex) (s : nat * cache_key) : option observation :=
  (fun v => observe (snd v)) <$> default ∅ (shards x !! fst s) !! snd s.

Record merkle_ok (x : MerkleIndex) : Prop := {
  ok_shards : length (shards x) = MERKLE_SHARDS;
  ok_max : 0 <= max_entries x <= usize_max;
  ok_approx : 0 <= approx_count x;
  ok_count : 0 < max_entries x -> merkle_len x <= approx_count x <= max_entries x }.

Lemma holds_get x path off : holds x (slot path off) = observe <$> get_entry x path off.
Proof. unfold holds, get_entry, slot, shard_of. cbn [fst snd]. by destruct (_ !! key_of path off). Qed.

Lemma holds_update path f x s :
  length (shards x) = MERKLE_SHARDS ->
  holds (update_shard path f x) s = if decide (fst s = shard_index path) then (fun v => observe (snd v)) <$> f (shard_of x path) !! snd s else holds x s.
Proof.
  intros Hl. unfold holds, update_shard, set_shards, shard_of. cbn [shards]. destruct (decide (fst s = shard_index path)) as [->|Hne].
  - rewrite list_lookup_alter_eq. destruct (lookup_lt_is_Some_2 (shards x) (shard_index path)) as [m Hm]; [rewrite Hl; apply shard_index_lt|]. by rewrite Hm.
  - by rewrite list_lookup_alter_ne.
Qed.

Lemma with_max_ok max : 0 <= max <= usize_max -> merkle_ok (merkle_with_max_entries max).
Proof.
  intros Hm. split; [apply length_replicate | done | done|]. intros Hp. assert (merkle_len (merkle_with_max_entries max) = 0) as -> by by_eval. cbn. lia.
Qed.

(** One slot is written, or the call is refused at the cap. *)
Lemma record_entry_spec path off e x :
  merkle_ok x ->
  let '(x', b) := record_borrowed_key_at_offset_with_metadata path off e x in
  merkle_ok x' /\ max_entries x' = max_entries x /\
  (b = true <-> exists prev, get_entry x path off = Some prev /\ hash prev = hash e) /\
  ((forall s, holds x' s = if decide (s = slot path off) then Some (observe e) else holds x s) /\ approx_count x' <= approx_count x + 1 \/
   get_entry x path off = None /\ 0 < max_entries x <= approx_count x /\ forall s, holds x' s = holds x s).
Proof.
  intros [Hl Hmax Happ Hcnt]. unfold record_borrowed_key_at_offset_with_metadata.
  assert (Hw : forall v s, snd v = e -> holds (update_shard path (<[key_of path off := v]>) x) s = if decide (s = slot path off) then Some (observe e) else holds x s).
  { intros v [i k] Hv. rewrite holds_update by done. cbn [fst snd]. unfold slot. destruct (decide (i = shard_index path)) as [->|Hi].
    - destruct (decide (k = key_of path off)) as [->|Hk]; [rewrite lookup_insert_eq, decide_True by done; cbn; by rewrite Hv|]. rewrite lookup_insert_ne, decide_False by congruence. done.
    - rewrite decide_False by congruence. done. }
  unfold get_entry. destruct (shard_of x path !! key_of path off) as [[spelling prev]|] eqn:E; cbn [fmap option_fmap option_map].
  - split.
    + split; [by rewrite length_update | done | done|]. intros Hp. rewrite merkle_len_update by done. rewrite map_size_insert_Some by done. specialize (Hcnt Hp). cbn. lia.
    + split; [done|]. split; [rewrite bool_decide_eq_true; naive_solver|]. left. split; [by intros s; apply Hw|]. cbn. lia.
  - assert (Hins : forall y, y = bump_count (update_shard path (<[key_of path off := (path, e)]>) x) -> max_entries x = 0 \/ approx_count x < max_entries x ->
      merkle_ok y /\ max_entries y = max_entries x /\ (false = true <-> exists prev, None = Some prev /\ hash prev = hash e) /\
      (forall s, holds y s = if decide (s = slot path off) then Some (observe e) else holds x s) /\ approx_count y <= approx_count x + 1).
    { intros y -> Hroom. assert (Hn : 0 <= (approx_count x + 1) mod 2 ^ 64 <= approx_count x + 1).
      { split; [by apply Z.mod_pos_bound | apply Z.mod_le; lia]. }
      split; [split|]; cbn [bump_count max_entries approx_count shards update_shard set_shards]; [by rewrite length_alter | done | lia| |].
      - intros Hp. change (merkle_len (bump_count ?z)) with (merkle_len z). rewrite merkle_len_update, map_size_insert_None by done. specialize (Hcnt Hp).
        assert (Hle : usize_max < 2 ^ 64) by done. rewrite Z.mod_small by lia. lia.
      - split; [done|]. split; [naive_solver|]. split; [intros s; by apply (Hw (path, e)) | lia]. }
    unfold entry_cap_reached. destruct (Z.eqb_spec (max_entries x) 0) as [H0|H0]; cbn [orb].
    + destruct (Hins _ eq_refl (or_introl H0)) as (? & ? & ? & ?). auto.
    + destruct (Z.ltb_spec (approx_count x) (max_entries x)) as [Hlt|Hge].
      * destruct (Hins _ eq_refl (or_intror Hlt)) as (? & ? & ? & ?). auto.
      * split; [by split|]. split; [done|]. split; [naive_solver|]. right. split; [done|]. split; [lia | done].
Qed.

Lemma record_spec path off mt ct sz content x :
  merkle_ok x ->
  let '(x', b) := record_chunk_path_at_offset_and_check_unchanged path off mt ct sz content x in
  merkle_ok x' /\ max_entries x' = max_entries x /\
  (b = true <-> exists prev, get_entry x path off = Some prev /\ hash prev = hash_content content) /\
  ((forall s, holds x' s = if decide (s = slot path off) then Some (mt, ct, sz, hash_content content) else holds x s) /\ approx_count x' <= approx_count x + 1 \/
   get_entry x path off = None /\ 0 < max_entries x <= approx_count x /\ forall s, holds x' s = holds x s).
Proof.
  intros Hok. unfold record_chunk_path_at_offset_and_check_unchanged, next_access_order.
  set (e := mkEntry _ _ _ _ _). set (x1 := mkIndex _ _ _ _ _ _).
  assert (Hok1 : merkle_ok x1) by (destruct Hok; by split). pose proof (record_entry_spec path off e x1 Hok1) as Hs. by destruct (record_borrowed_key_at_offset_with_metadata path off e x1).
Qed.

Lemma forget_holds path x s :
  length (shards x) = MERKLE_SHARDS ->
  holds (forget path x) s = if decide (fst s = shard_index path /\ fst (snd s) = path_components path) then None else holds x s.
Proof.
  intros Hl. unfold forget. destruct s as [i k]. rewrite holds_update by done. cbn [fst snd]. destruct (decide (i = shard_index path)) as [->|Hi]; [|by rewrite decide_False by tauto].
  rewrite map_lookup_filter. unfold holds, shard_of. cbn [fst snd]. destruct (default ∅ (shards x !! shard_index path) !! k) as [v|]; cbn [mbind option_bind fmap option_fmap option_map].
  - destruct (decide (fst k = path_components path)) as [He|He].
    + rewrite decide_True by done. rewrite option_guard_False by (cbn; tauto). done.
    + rewrite decide_False by tauto. rewrite option_guard_True by done. done.
  - by destruct (decide _).
Qed.

Lemma forget_spec path x :
  merkle_ok x ->
  merkle_ok (forget path x) /\
  forall s, holds (forget path x) s = if decide (fst s = shard_index path /\ fst (snd s) = path_components path) then None else holds x s.
Proof.
  intros [Hl Hmax Happ Hcnt]. split; [|intros s; by apply forget_holds]. unfold forget.
  split; [by rewrite length_update | done | done|]. intros Hp. specialize (Hcnt Hp). rewrite merkle_len_update by done.
  pose proof (map_size_filter (fun kv : cache_key * (bytes * MerkleCacheEntry) => fst (fst kv) <> path_components path) (shard_of x path)) as Hle. cbn. cbn in Hle. lia.
Qed.

Lemma merkle_step_ok o x : merkle_ok x -> merkle_ok (merkle_step x o).
Proof.
  intros Hok. destruct o as [path off mt ct sz content|path]; cbn [merkle_step]; [|by apply forget_spec].
  pose proof (record_spec path off mt ct sz content x Hok) as Hs. destruct (record_chunk_path_at_offset_and_check_unchanged _ _ _ _ _ _ x). apply Hs.
Qed.

Lemma merkle_history_ok ops x : merkle_ok x -> merkle_ok (foldl merkle_step x ops).
Proof. revert x. induction ops as [|o ops IH]; intros x Hok; cbn [foldl]; [done|]. by apply IH, merkle_step_ok. Qed.

(** *** Interleavings *)

(** An insertion the cap admitted, with the write lock of its shard held. *)
Record flight := mkFlight { fl_path : bytes; fl_offset : Z; fl_mtime : Z; fl_ctime : Z; fl_size : Z; fl_content : bytes; fl_order : Z }.

Definition fl_op (f : flight) : merkle_op := MRecord (fl_path f) (fl_offset f) (fl_mtime f) (fl_ctime f) (fl_size f) (fl_content f).
Definition fl_entry (f : flight) : MerkleCacheEntry := mkEntry (fl_mtime f) (fl_ctime f) (fl_size f) (fl_order f) (hash_content (fl_content f)).
Definition fl_key (f : flight) : cache_key := key_of (fl_path f) (fl_offset f).

(** The call up to the cap check: it has its answer, or it goes on to insert. *)
Definition record_admit (path : bytes) (off mt ct sz : Z) (content : bytes) (x : MerkleIndex) : MerkleIndex * (bool + flight) :=
  let content_hash := hash_content content in
  let '(x, order) := next_access_order x in
  match shard_of x path !! key_of path off with
  | Some (spelling, previous) =>
      (update_shard path (<[key_of path off := (spelling, mkEntry mt ct sz order content_hash)]>) x, inl (bool_decide (hash previous = content_hash)))
  | None =>
      let '(reached, x) := entry_cap_reached x in
      if reached then (x, inl false) else (x, inr (mkFlight path off mt ct sz content order))
  end.

Definition record_commit (f : flight) (x : MerkleIndex) : MerkleIndex :=
  bump_count (update_shard (fl_path f) (<[fl_key f := (fl_path f, fl_entry f)]>) x).

(** The two steps are the call. *)
Lemma record_split path off mt ct sz content x :
  record_chunk_path_at_offset_and_check_unchanged path off mt ct sz content x =
  match record_admit path off mt ct sz content x with
  | (x', inl b) => (x', b)
  | (x', inr f) => (record_commit f x', false)
  end.
Proof.
  unfold record_chunk_path_at_offset_and_check_unchanged, record_admit, record_borrowed_key_at_offset_with_metadata. cbn [next_access_order].
  destruct (shard_of _ path !! _) as [[? ?]|]; [done|]. destruct (entry_cap_reached _) as [[] ?]; done.
Qed.

Definition locked (path : bytes) (fs : list flight) : Prop := shard_index path ∈ map (fun f => shard_index (fl_path f)) fs.

(** The states calls reach from [x0], with at most [workers] of them in flight:
    the index, the insertions in flight and the calls completed, in order. *)
Inductive interleaved (workers : nat) (x0 : MerkleIndex) : MerkleIndex -> list flight -> list merkle_op -> Prop :=
| il_start : interleaved workers x0 x0 [] []
| il_record x fs ops path off mt ct sz content x' b :
    interleaved workers x0 x fs ops -> ~ locked path fs -> record_admit path off mt ct sz content x = (x', inl b) ->
    interleaved workers x0 x' fs (ops ++ [MRecord path off mt ct sz content])
| il_admit x fs ops path off mt ct sz content x' f :
    interleaved workers x0 x fs ops -> ~ locked path fs -> record_admit path off mt ct sz content x = (x', inr f) ->
    (length fs < workers)%nat -> interleaved workers x0 x' (f :: fs) ops
| il_commit x fs fs' f ops :
    interleaved workers x0 x fs ops -> fs ≡ₚ f :: fs' -> interleaved workers x0 (record_commit f x) fs' (ops ++ [fl_op f])
| il_forget x fs ops path :
    interleaved workers x0 x fs ops -> ~ locked path fs -> interleaved workers x0 (forget path x) fs (ops ++ [MForget path]).

(** A sequential history is an interleaving. *)
Lemma sequential_interleaved workers x0 ops :
  (0 < workers)%nat -> interleaved workers x0 (foldl merkle_step x0 ops) [] ops.
Proof.
  intros Hw. induction ops as [|o ops IH] using rev_ind; [apply il_start|]. rewrite foldl_snoc.
  destruct o as [path off mt ct sz content|path]; cbn [merkle_step]; [|apply il_forget; [done | apply not_elem_of_nil]].
  rewrite record_split. destruct (record_admit path off mt ct sz content _) as [x' [b|f]] eqn:E; cbn [fst].
  - eapply il_record; [done | apply not_elem_of_nil | done].
  - assert (MRecord path off mt ct sz content = fl_op f) as ->.
    { unfold record_admit in E. cbn [next_access_order] in E. destruct (_ !! _) as [[? ?]|]; [done|]. destruct (entry_cap_reached _) as [[] ?]; [done|]. by injection E as _ <-. }
    eapply il_commit; [eapply il_admit; [done | apply not_elem_of_nil | done | done] | done].
Qed.

(** Shards agree with their slots, whatever is in flight. *)
Record interleaved_ok (workers : nat) (x0 x : MerkleIndex) (fs : list flight) (ops : list merkle_op) : Prop := {
  il_shards : length (shards x) = MERKLE_SHARDS;
  il_max : max_entries x = max_entries x0;
  il_max_nonneg : 0 <= max_entries x;
  il_approx : 0 <= approx_count x <= approx_count x0 + zlen ops;
  il_workers : (length fs <= workers)%nat;
  il_locks : NoDup (map (fun f => shard_index (fl_path f)) fs);
  il_absent : forall f, f ∈ fs -> shard_of x (fl_path f) !! fl_key f = None;
  il_count : 0 < max_entries x -> merkle_len x <= approx_count x;
  il_cap : 0 < max_entries x -> approx_count x + zlen fs <= max_entries x + Z.of_nat (workers `min` MERKLE_SHARDS)%nat - 1;
  il_sound : forall s o, holds x s = Some o -> ledger (holds x0) ops s = Some o;
  il_exact : max_entries x = 0 \/ approx_count x0 + zlen ops <= max_entries x -> forall s, holds x s = ledger (holds x0) ops s }.

Lemma write_holds path off v e x s :
  length (shards x) = MERKLE_SHARDS -> snd v = e ->
  holds (update_shard path (<[key_of path off := v]>) x) s = if decide (s = slot path off) then Some (observe e) else holds x s.
Proof.
  intros Hl Hv. destruct s as [i k]. rewrite holds_update by done. cbn [fst snd]. unfold slot. destruct (decide (i = shard_index path)) as [->|Hi].
  - destruct (decide (k = key_of path off)) as [->|Hk]; [rewrite lookup_insert_eq, decide_True by done; cbn; by rewrite Hv|]. rewrite lookup_insert_ne, decide_False by congruence. done.
  - rewrite decide_False by congruence. done.
Qed.

Lemma ledger_snoc A ops o : ledger A (ops ++ [o]) = ledger_step (ledger A ops) o.
Proof. unfold ledger. by rewrite foldl_snoc. Qed.

Lemma locks_bound (fs : list flight) : NoDup (map (fun f => shard_index (fl_path f)) fs) -> (length fs <= MERKLE_SHARDS)%nat.
Proof.
  intros Hnd. rewrite <- (length_map (fun f => shard_index (fl_path f)) fs), <- (length_seq MERKLE_SHARDS 0). apply submseteq_length, NoDup_submseteq; [done|].
  intros i Hi. apply list_elem_of_fmap in Hi as (f & -> & _). apply elem_of_seq. pose proof (shard_index_lt (fl_path f)). lia.
Qed.

Lemma unlocked_shard path f g x fs :
  length (shards x) = MERKLE_SHARDS -> ~ locked path fs -> g ∈ fs -> shard_of (update_shard path f x) (fl_path g) = shard_of x (fl_path g).
Proof.
  intros Hl Hun Hg. rewrite shard_of_update by done. rewrite decide_False; [done|]. intros He. apply Hun. unfold locked. rewrite <- He.
  by apply (list_elem_of_fmap_2 (fun f => shard_index (fl_path f))).
Qed.

(** What the first step of a call does. *)
Lemma admit_spec path off mt ct sz content x x' r :
  0 <= max_entries x -> record_admit path off mt ct sz content x = (x', r) ->
  max_entries x' = max_entries x /\ approx_count x' = approx_count x /\
  match r with
  | inl b =>
      (exists spelling prev e, shard_of x path !! key_of path off = Some (spelling, prev) /\ observe e = (mt, ct, sz, hash_content content) /\
         b = bool_decide (hash prev = hash_content content) /\ shards x' = shards (update_shard path (<[key_of path off := (spelling, e)]>) x)) \/
      shard_of x path !! key_of path off = None /\ 0 < max_entries x <= approx_count x /\ b = false /\ shards x' = shards x
  | inr f => shard_of x path !! key_of path off = None /\ (max_entries x = 0 \/ approx_count x < max_entries x) /\ shards x' = shards x /\
      fl_op f = MRecord path off mt ct sz content
  end.
Proof.
  intros Hmax. unfold record_admit. cbn [next_access_order]. set (y := mkIndex _ _ _ _ _ _). change (shard_of y path) with (shard_of x path).
  destruct (shard_of x path !! key_of path off) as [[spelling prev]|].
  - intros [= <- <-]. split; [done|]. split; [done|]. left. exists spelling, prev. eexists. split; [done|]. split; [|done]. done.
  - unfold entry_cap_reached. change (max_entries y) with (max_entries x). change (approx_count y) with (approx_count x).
    destruct (Z.eqb_spec (max_entries x) 0); cbn [orb]; [intros [= <- <-]; auto 6|].
    destruct (Z.ltb_spec (approx_count x) (max_entries x)); intros [= <- <-]; [auto 6|]. split; [done|]. split; [done|]. right. split; [done|]. split; [lia|done].
Qed.

Lemma same_shards x x' : shards x' = shards x -> (forall p, shard_of x' p = shard_of x p) /\ (forall s, holds x' s = holds x s) /\ merkle_len x' = merkle_len x.
Proof. intros He. unfold shard_of, holds, merkle_len. by rewrite He. Qed.

Section interleaving.
Context (workers : nat) (x0 : MerkleIndex).

Lemma il_record_ok x fs ops path off mt ct sz content x' b :
  interleaved_ok workers x0 x fs ops -> ~ locked path fs -> record_admit path off mt ct sz content x = (x', inl b) ->
  interleaved_ok workers x0 x' fs (ops ++ [MRecord path off mt ct sz content]).
Proof.
  intros [Hl Hm H0 Ha Hw Hk Hab Hc Hcap Hs He] Hun Hr. destruct (admit_spec _ _ _ _ _ _ _ _ _ H0 Hr) as (Hm' & Ha' & Hcase).
  assert (Hz : zlen (ops ++ [MRecord path off mt ct sz content]) = zlen ops + 1) by (unfold zlen; rewrite length_app; cbn; lia).
  destruct Hcase as [(spelling & prev & e & Hpre & Hoe & _ & Hsh)|(Hno & Hfull & _ & Hsh)].
  - destruct (same_shards _ _ Hsh) as (Hso & Hho & Hlen).
    split; rewrite ?Hm', ?Ha', ?Hz; try done; try lia.
    + by rewrite Hsh, length_update.
    + intros g Hg. rewrite Hso, (unlocked_shard _ _ _ _ fs) by done. by apply Hab.
    + intros Hp. rewrite Hlen, merkle_len_update, map_size_insert_Some by done. specialize (Hc Hp). lia.
    + intros s o. rewrite Hho, (write_holds _ _ _ e) by done. rewrite ledger_snoc. cbn [ledger_step]. rewrite Hoe. destruct (decide _); [done | apply Hs].
    + intros Hroom s. rewrite Hho, (write_holds _ _ _ e) by done. rewrite ledger_snoc. cbn [ledger_step]. rewrite Hoe. destruct (decide _); [done|]. apply He. lia.
  - destruct (same_shards _ _ Hsh) as (Hso & Hho & Hlen).
    split; rewrite ?Hm', ?Ha', ?Hz; try done; try lia.
    + by rewrite Hsh.
    + intros g Hg. rewrite Hso. by apply Hab.
    + intros s o. rewrite Hho, ledger_snoc. cbn [ledger_step]. intros Ho. destruct (decide _) as [->|_]; [|by apply Hs]. exfalso.
      rewrite holds_get in Ho. unfold get_entry in Ho. by rewrite Hno in Ho.
Qed.

Lemma il_admit_ok x fs ops path off mt ct sz content x' f :
  interleaved_ok workers x0 x fs ops -> ~ locked path fs -> record_admit path off mt ct sz content x = (x', inr f) ->
  (length fs < workers)%nat -> interleaved_ok workers x0 x' (f :: fs) ops.
Proof.
  intros [Hl Hm H0 Ha Hw Hk Hab Hc Hcap Hs He] Hun Hr Hlt. destruct (admit_spec _ _ _ _ _ _ _ _ _ H0 Hr) as (Hm' & Ha' & Hno & Hroom & Hsh & Hf).
  destruct (same_shards _ _ Hsh) as (Hso & Hho & Hlen). assert (fl_path f = path /\ fl_key f = key_of path off) as [Hfp Hfk].
  { unfold fl_op in Hf. injection Hf as H1 H2. unfold fl_key. by rewrite H1, H2. }
  assert (Hnd : NoDup (map (fun f => shard_index (fl_path f)) (f :: fs))) by (cbn [map]; rewrite Hfp; by apply NoDup_cons).
  split; rewrite ?Hm', ?Ha'; try done.
  - by rewrite Hsh.
  - intros g [->|Hg]%elem_of_cons; rewrite Hso; [by rewrite Hfp, Hfk | by apply Hab].
  - intros Hp. rewrite Hlen. by apply Hc.
  - intros Hp. pose proof (locks_bound _ Hnd) as Hb. cbn [length] in Hb. unfold zlen. cbn [length]. lia.
  - intros s o. rewrite Hho. apply Hs.
  - intros Hr' s. rewrite Hho. by apply He.
Qed.

Lemma il_commit_ok x fs fs' f ops :
  max_entries x0 + Z.of_nat MERKLE_SHARDS <= usize_max ->
  interleaved_ok workers x0 x fs ops -> fs ≡ₚ f :: fs' -> interleaved_ok workers x0 (record_commit f x) fs' (ops ++ [fl_op f]).
Proof.
  intros Hfit [Hl Hm H0 Ha Hw Hk Hab Hc Hcap Hs He] Hp. rewrite Hp in Hk, Hw. cbn [map length] in Hk, Hw. apply NoDup_cons in Hk as [Hun Hk].
  assert (Hf : shard_of x (fl_path f) !! fl_key f = None) by (apply Hab; rewrite Hp; by left).
  assert (Hz : zlen (ops ++ [fl_op f]) = zlen ops + 1) by (unfold zlen; rewrite length_app; cbn; lia).
  assert (Hzf : zlen fs = zlen fs' + 1) by (unfold zlen; rewrite Hp; cbn [length]; lia).
  assert (Hn : 0 <= (approx_count x + 1) mod 2 ^ 64 <= approx_count x + 1) by (split; [by apply Z.mod_pos_bound | apply Z.mod_le; lia]).
  assert (Hmod : 0 < max_entries x -> (approx_count x + 1) mod 2 ^ 64 = approx_count x + 1).
  { intros Hpos. specialize (Hcap Hpos). apply Z.mod_small. change (2 ^ 64) with (usize_max + 1). unfold zlen in *. lia. }
  assert (Hho : forall s, holds (record_commit f x) s = if decide (s = slot (fl_path f) (fl_offset f)) then Some (observe (fl_entry f)) else holds x s).
  { intros s. by apply (write_holds (fl_path f) (fl_offset f) (fl_path f, fl_entry f)). }
  assert (Hmx : max_entries (record_commit f x) = max_entries x) by done.
  assert (Hax : approx_count (record_commit f x) = (approx_count x + 1) mod 2 ^ 64) by done.
  assert (Hob : observe (fl_entry f) = (fl_mtime f, fl_ctime f, fl_size f, hash_content (fl_content f))) by done.
  split; rewrite ?Hmx, ?Hax, ?Hz; try done; try lia.
  - unfold record_commit. cbn [bump_count shards]. by rewrite length_update.
  - intros g Hg. change (shard_of (record_commit f x)) with (shard_of (update_shard (fl_path f) (<[fl_key f := (fl_path f, fl_entry f)]>) x)).
    rewrite (unlocked_shard _ _ _ _ fs') by done. apply Hab. rewrite Hp. by right.
  - intros Hpos. change (merkle_len (record_commit f x)) with (merkle_len (update_shard (fl_path f) (<[fl_key f := (fl_path f, fl_entry f)]>) x)).
    rewrite merkle_len_update, map_size_insert_None by done. specialize (Hc Hpos). rewrite Hmod by done. lia.
  - intros s o. rewrite Hho, ledger_snoc, Hob. cbn [ledger_step fl_op]. destruct (decide _); [done | apply Hs].
  - intros Hroom s. rewrite Hho, ledger_snoc, Hob. cbn [ledger_step fl_op]. destruct (decide _); [done|]. apply He. lia.
Qed.

Lemma il_forget_ok x fs ops path :
  interleaved_ok workers x0 x fs ops -> ~ locked path fs -> interleaved_ok workers x0 (forget path x) fs (ops ++ [MForget path]).
Proof.
  intros [Hl Hm H0 Ha Hw Hk Hab Hc Hcap Hs He] Hun.
  assert (Hz : zlen (ops ++ [MForget path]) = zlen ops + 1) by (unfold zlen; rewrite length_app; cbn; lia).
  assert (Hho : forall s, holds (forget path x) s = if decide (fst s = shard_index path /\ fst (snd s) = path_components path) then None else holds x s).
  { intros s. by apply forget_holds. }
  split; rewrite ?Hz; try done; try (cbn [forget update_shard set_shards approx_count max_entries]; lia).
  - unfold forget. by rewrite length_update.
  - intros g Hg. unfold forget. rewrite (unlocked_shard _ _ _ _ fs) by done. by apply Hab.
  - intros Hpos. specialize (Hc Hpos). unfold forget. rewrite merkle_len_update by done.
    pose proof (map_size_filter (fun kv : cache_key * (bytes * MerkleCacheEntry) => fst (fst kv) <> path_components path) (shard_of x path)) as Hle. cbn. cbn in Hle. lia.
  - intros s o. rewrite Hho, ledger_snoc. cbn [ledger_step]. destruct (decide _); [done | apply Hs].
  - intros Hroom s. rewrite Hho, ledger_snoc. cbn [ledger_step]. destruct (decide _); [done|]. apply He. cbn [forget update_shard set_shards max_entries] in Hroom. lia.
Qed.

Lemma interleaved_inv x fs ops :
  merkle_ok x0 -> max_entries x0 + Z.of_nat MERKLE_SHARDS <= usize_max -> (0 < workers)%nat ->
  interleaved workers x0 x fs ops -> interleaved_ok workers x0 x fs ops.
Proof.
  intros [Hl Hm Ha Hc] Hfit Hw. induction 1.
  - split; [done|done|lia| |cbn; lia|constructor| | | |done|done].
    + unfold zlen. cbn. lia.
    + intros f Hf. by apply not_elem_of_nil in Hf.
    + intros Hp. apply Hc in Hp. lia.
    + intros Hp. apply Hc in Hp. unfold zlen. cbn [length]. change MERKLE_SHARDS with 64%nat. lia.
  - by eapply il_record_ok.
  - by eapply il_admit_ok.
  - by eapply il_commit_ok.
  - by eapply il_forget_ok.
Qed.
End interleaving.

(** C6. Incremental skips are sound, however calls interleave.  From an index
    within its cap, with at most [workers] calls in flight, the index exceeds its
    cap by less than the number of workers and by less than the number of shards
    (with one worker never).  It vouches for a chunk only as the ledger of the
    completed calls does: the read-free skip needs the very times and size last
    recorded, with a known change time, and the content skip the very digest last
    recorded, in both cases not forgotten since.  While the calls fit the cap
    nothing recorded is lost.  A chunk is its offset and the components of its path
    in the shard of the path as spelled; a path spelled in another way that falls
    into another shard is another chunk. *)
Theorem merkle_skip_sound (workers : nat) (x x' : MerkleIndex) (fs : list flight) (ops : list merkle_op)
    (path : bytes) (off mt ct sz : Z) (content : bytes) :
  merkle_ok x -> max_entries x + Z.of_nat MERKLE_SHARDS <= usize_max -> (0 < workers)%nat -> interleaved workers x x' fs ops ->
  let last := ledger (holds x) ops in
  (0 < max_entries x -> merkle_len x' + zlen fs < max_entries x + Z.min (Z.of_nat workers) 64) /\
  (metadata_unchanged x' path mt ct sz = true -> ct <> 0 /\ exists h, last (slot path 0) = Some (mt, ct, sz, h)) /\
  (unchanged x' path (hash_content content) = true -> exists m c z, last (slot path 0) = Some (m, c, z, hash_content content)) /\
  (forall x2, record_admit path off mt ct sz content x' = (x2, inl true) ->
     exists m c z, last (slot path off) = Some (m, c, z, hash_content content)) /\
  (max_entries x = 0 \/ approx_count x + zlen ops <= max_entries x -> forall s, holds x' s = last s).
Proof.
  intros Hok Hfit Hw Hil. cbv zeta. destruct (interleaved_inv _ _ _ _ _ Hok Hfit Hw Hil) as [Hl Hm H0 Ha _ _ _ Hc Hcap Hs He].
  assert (Hget : forall o e, get_entry x' path o = Some e -> ledger (holds x) ops (slot path o) = Some (observe e)).
  { intros o e He'. apply Hs. by rewrite holds_get, He'. }
  rewrite Hm in *. split; [|split; [|split; [|split]]].
  - intros Hp. specialize (Hc Hp). specialize (Hcap Hp). change MERKLE_SHARDS with 64%nat in Hcap. lia.
  - unfold metadata_unchanged. destruct (get_entry _ path 0) as [e|] eqn:E; [|done]. rewrite !andb_true_iff, negb_true_iff, !Z.eqb_eq, Z.eqb_neq.
    intros [[[<- <-] Hct] <-]. split; [done|]. exists (hash e). by rewrite (Hget 0 e E).
  - unfold unchanged. destruct (get_entry _ path 0) as [e|] eqn:E; [|done]. rewrite bool_decide_eq_true. intros <-. eexists _, _, _. by apply Hget.
  - intros x2 Hr. apply admit_spec in Hr; [|lia]. destruct Hr as (_ & _ & [(sp & prev & e & Hpre & _ & Hb & _)|(_ & _ & Hb & _)]); [|done].
    symmetry in Hb. apply bool_decide_eq_true in Hb. rewrite <- Hb. eexists _, _, _. apply Hget. unfold get_entry. by rewrite Hpre.
  - exact He.
Qed.
End histories.
