(* ===== verification/MerkleStore.v ===== *)
(** * Persistence of the incremental scan index
      ([crates/core/src/merkle_index/storage.rs])

    What a saved index reads back as, and which rows the cap evicts. *)

From S2P Require Import Prelude Utf8 Hex Merkle.

(** ** Order of keys *)

#[export] Instance component_cmp_laws : CmpLaws component_cmp.
Proof. change (CmpLaws (fun a b => component_cmp a b)). unfold component_cmp. solve_cmp_laws. Qed.

#[export] Instance component_cmp_eq : CmpEq component_cmp.
Proof.
  intros a b. unfold component_cmp. rewrite then_with_Eq, Z.compare_eq_iff, (cmp_eq str_cmp). split; [|by intros ->].
  destruct a, b; cbn; intros [H1 H2]; try lia; congruence.
Qed.

#[export] Instance cache_key_cmp_laws : CmpLaws cache_key_cmp.
Proof. change (CmpLaws (fun a b => cache_key_cmp a b)). unfold cache_key_cmp. solve_cmp_laws. Qed.

#[export] Instance cache_key_cmp_eq : CmpEq cache_key_cmp.
Proof.
  intros [a x] [b y]. unfold cache_key_cmp. cbn [fst snd]. rewrite then_with_Eq, Z.compare_eq_iff, (cmp_eq (list_cmp component_cmp)). split; [by intros [-> ->] | by intros [= -> ->]].
Qed.

#[export] Instance eviction_cmp_laws : CmpLaws eviction_cmp.
Proof. change (CmpLaws (fun a b => eviction_cmp a b)). unfold eviction_cmp. solve_cmp_laws. Qed.

(** ** Eviction *)

Lemma NoDup_fst_filter {A B} (f : A * B -> bool) l : NoDup (map fst l) -> NoDup (map fst (List.filter f l)).
Proof.
  induction l as [|x l IH]; cbn [map List.filter]; [done|]. intros [Hx Hl]%NoDup_cons. destruct (f x); [|by apply IH]. cbn [map]. apply NoDup_cons. split; [|by apply IH].
  intros Hin. apply Hx. apply list_elem_of_fmap in Hin as (y & -> & Hin). apply list_elem_of_In, filter_In in Hin as [Hin _]. by apply list_elem_of_fmap_2, list_elem_of_In.
Qed.

Abbreviation merged_map := (gmap cache_key (bytes * MerkleCacheEntry)).

Lemma remove_all_lookup (ks : list cache_key) (m : merged_map) (k : cache_key) : remove_all ks m !! k = if decide (k ∈ ks) then None else m !! k.
Proof.
  unfold remove_all. revert m. induction ks as [|k' ks IH]; intros m; cbn [foldl]; [by rewrite decide_False by apply not_elem_of_nil|].
  rewrite IH. destruct (decide (k ∈ ks)) as [Hin|Hin]; [by rewrite decide_True by (by right)|]. destruct (decide (k = k')) as [->|Hne].
  - by rewrite decide_True, lookup_delete_eq by (by left).
  - rewrite decide_False by (by rewrite not_elem_of_cons). by rewrite lookup_delete_ne.
Qed.

Lemma remove_all_size (ks : list cache_key) (m : merged_map) :
  NoDup ks -> (forall k, k ∈ ks -> is_Some (m !! k)) -> (base.size (remove_all ks m) + length ks = base.size m)%nat.
Proof.
  unfold remove_all. revert m. induction ks as [|k ks IH]; intros m Hnd Hin; cbn [foldl length]; [lia|].
  apply NoDup_cons in Hnd as [Hk Hnd]. rewrite <- plus_n_Sm, IH; [|done|].
  - pose proof (Hin k ltac:(by left)) as Hs. rewrite map_size_delete_Some by done. pose proof (map_size_ne_0_lookup_2 m k Hs). lia.
  - intros k' Hk'. rewrite lookup_delete_ne by (by intros <-). apply Hin. by right.
Qed.

Definition candidate (protected : option (gset cache_key)) (k : cache_key) : Prop :=
  match protected with Some p => k ∉ p | None => True end.

(** The oldest candidates, as many as asked for or all of them. *)
Lemma oldest_eviction_spec (m : merged_map) protected n :
  let ks := oldest_eviction_keys m protected n in
  NoDup ks /\ (forall k, k ∈ ks -> is_Some (m !! k) /\ candidate protected k) /\ (length ks <= n)%nat /\
  ((length ks = n)%nat \/ forall k, is_Some (m !! k) -> candidate protected k -> k ∈ ks) /\
  forall k1 k2 v1 v2, k1 ∈ ks -> m !! k1 = Some v1 -> k2 ∉ ks -> m !! k2 = Some v2 -> candidate protected k2 -> eviction_cmp (k1, v1) (k2, v2) = Lt.
Proof.
  cbv zeta. unfold oldest_eviction_keys. set (cand := List.filter _ _).
  assert (Hcand : forall k v, (k, v) ∈ cand <-> m !! k = Some v /\ candidate protected k).
  { intros k v. unfold cand. rewrite list_elem_of_In, filter_In, <- list_elem_of_In, elem_of_map_to_list. cbn [fst]. unfold candidate.
    destruct protected as [p|]; [rewrite negb_true_iff, bool_decide_eq_false|]; tauto. }
  assert (Hnd : NoDup (map fst cand)).
  { apply NoDup_fst_filter, NoDup_fst_map_to_list. }
  set (s := sort_by eviction_cmp cand). assert (Hs : s ≡ₚ cand) by apply sort_by_perm.
  assert (Hnds : NoDup (map fst s)) by (by rewrite (Permutation_map fst Hs)). set (t := Nat.min n (length cand)).
  assert (Hks : (if (t =? 0)%nat then [] else map fst (take t s)) = map fst (take t s)).
  { destruct (Nat.eqb_spec t 0) as [->|_]; [by destruct s | done]. }
  rewrite Hks. rewrite <- (take_drop t s), map_app in Hnds. apply NoDup_app in Hnds as (Hnt & Hdis & _).
  assert (Hlen : length (map fst (take t s)) = t) by (rewrite length_map, length_take, Hs; lia).
  split; [done|]. split; [|split; [lia|split]].
  - intros k Hk. apply list_elem_of_fmap in Hk as ([k' v] & -> & Hin). assert (Hin' : (k', v) ∈ cand) by (rewrite <- Hs, <- (take_drop t s); apply elem_of_app; by left).
    apply Hcand in Hin' as [Hm Hc]. cbn. by rewrite Hm.
  - destruct (decide (n <= length cand)%nat) as [Hle|Hgt]; [left; lia|]. right. intros k [v Hv] Hc. rewrite take_ge by (rewrite Hs; lia).
    apply list_elem_of_fmap. exists (k, v). split; [done|]. rewrite Hs. by apply Hcand.
  - intros k1 k2 v1 v2 Hk1 Hv1 Hk2 Hv2 Hc2. apply list_elem_of_fmap in Hk1 as ([k w] & -> & Hin1). cbn [fst] in *.
    assert (Hw : (k, w) ∈ cand) by (rewrite <- Hs, <- (take_drop t s); apply elem_of_app; by left). apply Hcand in Hw as [Hw _]. assert (w = v1) as -> by congruence.
    assert (Hin2 : (k2, v2) ∈ drop t s).
    { assert (Hin2 : (k2, v2) ∈ s) by (rewrite Hs; by apply Hcand). rewrite <- (take_drop t s) in Hin2. apply elem_of_app in Hin2 as [Hin2|?]; [|done].
      exfalso. apply Hk2. apply list_elem_of_fmap. by exists (k2, v2). }
    pose proof (sort_by_sorted eviction_cmp cand) as Hsort. fold s in Hsort. rewrite <- (take_drop t s) in Hsort.
    pose proof (StronglySorted_app_1_elem_of _ _ _ _ _ Hsort Hin1 Hin2) as Hle. cbn in Hle. destruct (eviction_cmp (k, v1) (k2, v2)) eqn:E; [|done|done].
    exfalso. unfold eviction_cmp in E. apply then_with_Eq in E as [_ E]. cbn [fst] in E. apply (cmp_eq cache_key_cmp) in E as ->. apply Hk2, list_elem_of_fmap. by exists (k2, v1).
Qed.

Lemma enforce_cap_spec (max : Z) (mem : gset cache_key) (m : merged_map) :
  0 <= max ->
  let m' := enforce_persisted_cap max mem m in
  m' ⊆ m /\ (0 < max -> Z.of_nat (base.size m') <= max) /\
  (max = 0 \/ Z.of_nat (base.size m) <= max -> m' = m) /\
  (forall k, k ∈ mem -> is_Some (m !! k) -> m' !! k = None -> forall k', is_Some (m' !! k') -> k' ∈ mem) /\
  (forall k1 k2 v1 v2, m !! k1 = Some v1 -> m' !! k1 = None -> k1 ∉ mem -> m' !! k2 = Some v2 -> k2 ∉ mem -> eviction_cmp (k1, v1) (k2, v2) = Lt) /\
  (forall k, is_Some (m !! k) -> m' !! k = None -> Z.of_nat (base.size m') = max).
Proof.
  intros Hmax. cbv zeta. unfold enforce_persisted_cap. destruct (Z.eqb_spec max 0) as [->|Hm]; cbn [orb].
  { split; [done|]. split; [lia|]. split; [done|]. split; [intros k _ [v Hv] Hn; congruence|]. split; [intros; congruence | intros k [v Hv] Hn; congruence]. }
  destruct (Z.leb_spec (Z.of_nat (base.size m)) max) as [Hle|Hgt].
  { split; [done|]. split; [done|]. split; [done|]. split; [intros k _ [v Hv] Hn; congruence|]. split; [intros; congruence | intros k [v Hv] Hn; congruence]. }
  destruct (oldest_eviction_spec m (Some mem) (over_cap max m)) as (Hnd & Hin & Hlen & Hall & Hold). set (ks := oldest_eviction_keys m (Some mem) (over_cap max m)) in *.
  pose proof (remove_all_size ks m Hnd (fun k Hk => proj1 (Hin k Hk))) as Hsz. unfold over_cap in *. set (m1 := remove_all ks m) in *.
  assert (Hsub1 : m1 ⊆ m). { apply map_subseteq_spec. intros k v. unfold m1. rewrite remove_all_lookup. by destruct (decide _). }
  assert (Hout : forall k v, m !! k = Some v -> m1 !! k = None -> k ∈ ks).
  { intros k v Hv. unfold m1. rewrite remove_all_lookup. destruct (decide _); [done | congruence]. }
  assert (Hkept : forall k v, m1 !! k = Some v -> (k ∉ ks) /\ m !! k = Some v).
  { intros k v. unfold m1. rewrite remove_all_lookup. by destruct (decide _). }
  destruct (Z.leb_spec (Z.of_nat (base.size m1)) max) as [Hle1|Hgt1].
  { split; [done|]. split; [done|]. split; [lia|]. split.
    - intros k Hk [v Hv] Hn. exfalso. destruct (Hin k (Hout k v Hv Hn)) as [_ Hc]. by apply Hc.
    - split; [|intros; lia]. intros k1 k2 v1 v2 Hv1 Hn1 Hk1 Hv2 Hk2. apply Hkept in Hv2 as [Hk2' Hv2]. apply (Hold k1 k2 v1 v2); auto. by eapply Hout. }
  destruct (oldest_eviction_spec m1 None (base.size m1 - Z.to_nat max)%nat) as (Hnd2 & Hin2 & Hlen2 & Hall2 & _). set (ks2 := oldest_eviction_keys m1 None _) in *.
  pose proof (remove_all_size ks2 m1 Hnd2 (fun k Hk => proj1 (Hin2 k Hk))) as Hsz2. set (m2 := remove_all ks2 m1) in *.
  assert (Hsub2 : m2 ⊆ m1). { apply map_subseteq_spec. intros k v. unfold m2. rewrite remove_all_lookup. by destruct (decide _). }
  assert (Hmem : forall k, is_Some (m1 !! k) -> k ∈ mem).
  { intros k [v Hv]. apply Hkept in Hv as [Hk Hv]. destruct Hall as [Hall|Hall]; [lia|]. destruct (decide (k ∈ mem)) as [?|Hn]; [done|]. exfalso. apply Hk, Hall; [by eexists | done]. }
  assert (Hle2 : Z.of_nat (base.size m2) <= max).
  { destruct Hall2 as [Hall2|Hall2]; [lia|]. assert (m2 = ∅) as ->; [|rewrite map_size_empty; lia].
    apply map_empty. intros k. unfold m2. rewrite remove_all_lookup. destruct (decide (k ∈ ks2)) as [?|Hn]; [done|]. destruct (m1 !! k) eqn:E; [|done]. exfalso. apply Hn, Hall2; [by eexists | done]. }
  split; [by etransitivity|]. split; [done|]. split; [lia|]. assert (Hmem2 : forall k, is_Some (m2 !! k) -> k ∈ mem).
  { intros k [v Hv]. apply Hmem. exists v. by eapply lookup_weaken. }
  split; [intros k _ _ _; apply Hmem2|]. split; [|intros; lia]. intros k1 k2 v1 v2 _ _ _ Hv2 Hk2. exfalso. apply Hk2, Hmem2. by eexists.
Qed.

(** ** What is written *)

(** A row that survives the trip through the disk format. *)
Definition storable_row (k : cache_key) (v : bytes * MerkleCacheEntry) : Prop :=
  path_components (fst v) = fst k /\ (exists s, fst v = as_bytes s /\ Forall is_scalar s) /\
  zlen (hash (snd v)) = 32 /\ Forall (fun b => 0 <= b < 256) (hash (snd v)).

Definition merkle_storable (x : MerkleIndex) : Prop := Forall (map_Forall storable_row) (shards x).

Lemma extend_lookup (m s : merged_map) (k : cache_key) :
  extend_map m s !! k = match m !! k, s !! k with Some (p, _), Some (_, e) => Some (p, e) | Some v, None => Some v | None, o => o end.
Proof. unfold extend_map. rewrite lookup_union_with. by destruct (m !! k) as [[? ?]|], (s !! k) as [[? ?]|]. Qed.

Lemma extend_storable (m s : merged_map) : map_Forall storable_row m -> map_Forall storable_row s -> map_Forall storable_row (extend_map m s).
Proof.
  intros Hm Hs k v. rewrite extend_lookup. destruct (m !! k) as [[p e]|] eqn:Em, (s !! k) as [[p' e']|] eqn:Es; intros [= <-].
  - destruct (Hm _ _ Em) as (H1 & H2 & _), (Hs _ _ Es) as (_ & _ & H3 & H4). done.
  - by apply Hm in Em.
  - by apply Hs in Es.
Qed.

Lemma extend_all_storable (ss : list merged_map) (m : merged_map) :
  Forall (map_Forall storable_row) ss -> map_Forall storable_row m -> map_Forall storable_row (foldl extend_map m ss).
Proof. intros Hss. revert m. induction Hss as [|s ss Hs _ IH]; intros m Hm; cbn [foldl]; [done|]. apply IH. by apply extend_storable. Qed.

Lemma extend_all_lookup (ss : list merged_map) (m : merged_map) (k : cache_key) :
  (forall p e, foldl extend_map m ss !! k = Some (p, e) -> (exists s p', s ∈ ss /\ s !! k = Some (p', e)) \/ m !! k = Some (p, e) /\ forall s, s ∈ ss -> s !! k = None) /\
  (forall s, s ∈ ss -> is_Some (s !! k) -> is_Some (foldl extend_map m ss !! k)) /\
  (is_Some (m !! k) -> is_Some (foldl extend_map m ss !! k)).
Proof.
  revert m. induction ss as [|s ss IH]; intros m; cbn [foldl].
  { split; [intros p e Hv; right; split; [done|]; intros s Hs; by apply not_elem_of_nil in Hs | split; [|done]; intros s Hs; by apply not_elem_of_nil in Hs]. }
  destruct (IH (extend_map m s)) as (H1 & H2 & H3).
  assert (Hkeep : is_Some (extend_map m s !! k) -> is_Some (foldl extend_map (extend_map m s) ss !! k)).
  { clear. revert m s. induction ss as [|s' ss IH]; intros m s Hv; cbn [foldl]; [done|]. apply IH. rewrite extend_lookup. destruct Hv as [[p e] ->]. by destruct (s' !! k) as [[? ?]|]. }
  split.
  - intros p e Hv. destruct (H1 p e Hv) as [(s' & p' & Hs' & He)|[Hm Hno]]; [left; exists s', p'; split; [by right | done]|].
    rewrite extend_lookup in Hm. destruct (m !! k) as [[p0 e0]|] eqn:Em, (s !! k) as [[p1 e1]|] eqn:Es; simplify_eq.
    + left. exists s, p1. split; [by left | done].
    + right. split; [done|]. intros s' [->|Hs']%elem_of_cons; auto.
    + left. exists s, p. split; [by left | done].
  - split.
    + intros s' [->|Hs']%elem_of_cons Hv; [|by eapply H2]. apply Hkeep. rewrite extend_lookup. destruct Hv as [[p e] ->]. by destruct (m !! k) as [[? ?]|].
    + intros [[p e] Hv]. apply Hkeep. rewrite extend_lookup, Hv. by destruct (s !! k) as [[? ?]|].
Qed.

(** ** Reading back *)

Definition at_slot (x : MerkleIndex) (s : nat * cache_key) : option (bytes * MerkleCacheEntry) := default ∅ (shards x !! fst s) !! snd s.

Lemma at_slot_update path f x s :
  length (shards x) = MERKLE_SHARDS ->
  at_slot (update_shard path f x) s = if decide (fst s = shard_index path) then f (shard_of x path) !! snd s else at_slot x s.
Proof.
  intros Hl. unfold at_slot, update_shard, set_shards, shard_of. cbn [shards]. destruct (decide (fst s = shard_index path)) as [->|Hne].
  - rewrite list_lookup_alter_eq. destruct (lookup_lt_is_Some_2 (shards x) (shard_index path)) as [m Hm]; [rewrite Hl; apply shard_index_lt|]. by rewrite Hm.
  - by rewrite list_lookup_alter_ne.
Qed.

Lemma try_insert_new path off e x :
  merkle_ok x -> at_slot x (slot path off) = None -> max_entries x = 0 \/ approx_count x < max_entries x ->
  exists x', try_insert path off e x = (x', true) /\ merkle_ok x' /\ max_entries x' = max_entries x /\ approx_count x' <= approx_count x + 1 /\
    forall s, at_slot x' s = if decide (s = slot path off) then Some (path, e) else at_slot x s.
Proof.
  intros [Hl Hmax Happ Hcnt] Hnone Hroom. unfold try_insert. change (shard_of x path !! key_of path off) with (at_slot x (slot path off)). rewrite Hnone.
  unfold entry_cap_reached. assert ((max_entries x =? 0) || (approx_count x <? max_entries x) = true) as ->.
  { apply orb_true_iff. rewrite Z.eqb_eq, Z.ltb_lt. done. }
  eexists. split; [done|]. assert (Hn : 0 <= (approx_count x + 1) mod 2 ^ 64 <= approx_count x + 1).
  { split; [by apply Z.mod_pos_bound | apply Z.mod_le; lia]. }
  split; [split|]; cbn [bump_count max_entries approx_count shards update_shard set_shards]; [by rewrite length_alter | done | lia| |].
  - intros Hp. change (merkle_len (bump_count ?z)) with (merkle_len z). rewrite merkle_len_update, map_size_insert_None by done. specialize (Hcnt Hp).
    assert (Hle : usize_max < 2 ^ 64) by done. rewrite Z.mod_small by lia. lia.
  - split; [done|]. split; [lia|]. intros [i k]. change (at_slot (bump_count ?z)) with (at_slot z). rewrite at_slot_update by done. cbn [fst snd]. unfold slot.
    destruct (decide (i = shard_index path)) as [->|Hi]; [|by rewrite decide_False by congruence].
    destruct (decide (k = key_of path off)) as [->|Hk]; [by rewrite lookup_insert_eq, decide_True|]. by rewrite lookup_insert_ne, decide_False by congruence.
Qed.

Section trip.
Context `{ME : MerkleEnv}.

Definition row_of (kv : cache_key * (bytes * MerkleCacheEntry)) : EntryV4 :=
  let '((_, off), (path, e)) := kv in
  mkRow (from_utf8_lossy path) off (mtime_ns e) (ctime_ns e) (size e) (last_seen_order e) (hex_string (hash e)).

Lemma encode_entries_rows (m : merged_map) : encode_entries m = map row_of (sort_by (fun a b => cache_key_cmp (fst a) (fst b)) (map_to_list m)).
Proof. done. Qed.

(** The laws of the hex and JSON crates; strings are sequences of scalars. *)
Class MerkleLaws : Prop := {
  merkle_hex_laws :: HexLaws;
  json_roundtrip d b : json_to_vec d = Ok b -> json_from_slice b = Ok d;
  json_scalars b d : json_from_slice b = Ok d -> Forall (fun r => Forall is_scalar (row_path r)) (entries d) }.

Context `{!MerkleLaws}.

Lemma load_rows_spec floor (l : list (cache_key * (bytes * MerkleCacheEntry))) x :
  merkle_ok x -> Forall (fun kv => storable_row (fst kv) (snd kv)) l -> NoDup (map fst l) ->
  (forall i k, k ∈ map fst l -> at_slot x (i, k) = None) -> max_entries x = 0 \/ approx_count x + zlen l <= max_entries x ->
  exists x', load_rows floor (map row_of l) x = Ok x' /\
    forall i k v, at_slot x' (i, k) = Some v <-> at_slot x (i, k) = Some v \/ (k, v) ∈ l /\ mtime_ns (snd v) < floor /\ i = shard_index (fst v).
Proof.
  revert x. induction l as [|[[c off] [path e]] l IH]; intros x Hok Hst Hnd Hnew Hroom; cbn [map load_rows].
  { exists x. split; [done|]. intros i k v. split; [auto|]. intros [?|[Hin _]]; [done | by apply not_elem_of_nil in Hin]. }
  apply Forall_cons in Hst as [(Hc & (s & Hs & Hsc) & Hlen & Hby) Hst]. cbn [fst snd] in *. apply NoDup_cons in Hnd as [Hk Hnd]. unfold zlen in *. cbn [length] in Hroom.
  change (row_of (c, off, (path, e))) with (mkRow (from_utf8_lossy path) off (mtime_ns e) (ctime_ns e) (size e) (last_seen_order e) (hex_string (hash e))).
  cbn [row_hash row_mtime_ns row_path row_chunk_offset row_last_seen_order row_ctime_ns row_size].
  rewrite hex_array_roundtrip by done. rewrite Hs, from_utf8_lossy_as_bytes, <- Hs by done. destruct (Z.leb_spec floor (mtime_ns e)) as [Hr|Hf].
  - destruct (IH x Hok Hst Hnd) as (x' & Hx' & Hat); [intros i k Hin; apply Hnew; by right | lia|]. exists x'. split; [done|]. intros i k v. rewrite Hat, elem_of_cons. split; [tauto|].
    intros [?|[[Hin|Hin] Hr']]; [by left | injection Hin as -> ->; cbn in Hr'; lia | by right].
  - set (x1 := observe_loaded_access_order (last_seen_order e) x). assert (Hok1 : merkle_ok x1) by (destruct Hok; by split).
    assert (Hkey : key_of path off = (c, off)) by (unfold key_of; by rewrite Hc).
    destruct (try_insert_new path off (mkEntry (mtime_ns e) (ctime_ns e) (size e) (last_seen_order e) (hash e)) x1 Hok1) as (x2 & Hx2 & Hok2 & Hmax2 & Happ2 & Hat2).
    { unfold slot. rewrite Hkey. apply (Hnew _ (c, off)). by left. }
    { cbn. lia. }
    rewrite Hx2. replace (mkEntry _ _ _ _ _) with e in Hat2 by (by destruct e). change (max_entries x1) with (max_entries x) in Hmax2. change (approx_count x1) with (approx_count x) in Happ2.
    destruct (IH x2 Hok2 Hst Hnd) as (x' & Hx' & Hat).
    + intros i k Hin. rewrite Hat2, decide_False; [apply (Hnew i k); by right|]. unfold slot. rewrite Hkey. intros [= -> ->]. done.
    + lia.
    + exists x'. split; [done|]. intros i k v. rewrite Hat, Hat2, elem_of_cons. unfold slot. rewrite Hkey. change (at_slot x1) with (at_slot x). destruct (decide ((i, k) = (shard_index path, (c, off)))) as [He|He].
      * injection He as -> ->. rewrite (Hnew (shard_index path) (c, off)) by (by left). split; [intros [[= <-]|?]; [right | tauto]; (split; [by left | done])|].
        intros [?|[[Hin|Hin] Hr']]; [done | left; by injection Hin as -> | right; done].
      * split; [intros [?|?]; [by left | right; tauto]|]. intros [?|[[Hin|Hin] [Hr' Hi]]]; [by left | | right; done]. injection Hin as -> ->. cbn in Hi. by subst i.
Qed.

Lemma get_at x path off : get_entry x path off = snd <$> at_slot x (slot path off).
Proof. done. Qed.

(** Everything a load puts into the index is storable again. *)
Lemma update_storable path f x :
  merkle_storable x -> (forall m, map_Forall storable_row m -> map_Forall storable_row (f m)) -> merkle_storable (update_shard path f x).
Proof. intros Hx Hf. unfold merkle_storable, update_shard, set_shards. cbn [shards]. apply Forall_alter; [done|]. intros m _ Hm. by apply Hf. Qed.

Lemma try_insert_storable s off e x :
  merkle_storable x -> Forall is_scalar s -> zlen (hash e) = 32 -> Forall (fun b => 0 <= b < 256) (hash e) -> merkle_storable (fst (try_insert (as_bytes s) off e x)).
Proof.
  intros Hx Hs Hl Hb. unfold try_insert. destruct (shard_of x (as_bytes s) !! key_of (as_bytes s) off) as [[spelling old]|] eqn:E; cbn [fst].
  - assert (Hold : storable_row (key_of (as_bytes s) off) (spelling, old)).
    { unfold shard_of in E. destruct (shards x !! shard_index (as_bytes s)) as [m|] eqn:Em; cbn in E; [|by rewrite lookup_empty in E].
      unfold merkle_storable in Hx. rewrite Forall_lookup in Hx. by apply (Hx _ _ Em). }
    apply update_storable; [done|]. intros m Hm. apply map_Forall_insert_2; [|done]. destruct Hold as (H1 & H2 & _). done.
  - unfold entry_cap_reached. destruct (_ || _); cbn [fst]; [|done].
    change (merkle_storable (bump_count ?z)) with (merkle_storable z). apply update_storable; [done|]. intros m Hm. apply map_Forall_insert_2; [|done].
    split; [done|]. split; [by exists s | done].
Qed.

Lemma load_rows_storable floor rows x x' :
  Forall (fun r => Forall is_scalar (row_path r)) rows -> merkle_storable x -> load_rows floor rows x = Ok x' -> merkle_storable x'.
Proof.
  intros Hr. revert x. induction Hr as [|row rows Hrow _ IH]; intros x Hx; cbn [load_rows]; [by intros [= <-]|].
  destruct (hex_to_array (row_hash row)) as [h|] eqn:Eh; [|done]. destruct (floor <=? row_mtime_ns row); [by apply IH|].
  set (e := mkEntry _ _ _ _ _). apply hex_to_array_ok in Eh as [Hl Hb].
  pose proof (try_insert_storable (row_path row) (row_chunk_offset row) e (observe_loaded_access_order (row_last_seen_order row) x) Hx Hrow Hl Hb) as Hst.
  destruct (try_insert _ _ _ _) as [x1 []]; [by apply IH | by intros [= <-]].
Qed.

Lemma with_max_storable max : merkle_storable (merkle_with_max_entries max).
Proof. unfold merkle_storable, merkle_with_max_entries. cbn [shards]. apply Forall_replicate, map_Forall_empty. Qed.

Lemma load_storable read fp spec max : merkle_storable (fst (load_with_spec_inner read fp spec max)).
Proof.
  unfold load_with_spec_inner. cbv zeta. destruct read as [bs|[|]]; try apply with_max_storable. destruct (json_from_slice bs) as [d|] eqn:Ed; [|apply with_max_storable].
  destruct (negb (version d =? SCHEMA_VERSION)); [apply with_max_storable|].
  destruct (negb _); [apply with_max_storable|]. destruct (load_rows _ _ _) as [idx|] eqn:El; [|apply with_max_storable].
  pose proof (load_rows_storable _ _ _ _ (json_scalars _ _ Ed) (with_max_storable max) El) as Hst. cbn [fst]. by destruct fp.
Qed.

Lemma merge_base_storable fp read fp2 spec x : map_Forall storable_row (load_merge_base fp read fp2 spec x).
Proof.
  unfold load_merge_base. destruct (negb _); [apply map_Forall_empty|]. unfold flatten_shards. apply extend_all_storable; [apply load_storable | apply map_Forall_empty].
Qed.

Lemma merged_storable io spec x : 0 <= max_entries x -> merkle_storable x -> map_Forall storable_row (merged_for_save io spec x).
Proof.
  intros Hmax Hx. unfold merged_for_save. set (base := load_merge_base _ _ _ _ _). cbv zeta. cbn [overlay_in_memory_entries].
  destruct (enforce_cap_spec (max_entries x) (foldl (fun acc s => acc ∪ dom s) ∅ (shards x)) (foldl extend_map base (shards x)) Hmax) as (Hsub & _).
  intros k v Hk. eapply lookup_weaken in Hk; [|exact Hsub]. revert Hk. apply extend_all_storable; [done | apply merge_base_storable].
Qed.

(** A key of the rows in memory. *)
Definition own_key (x : MerkleIndex) (k : cache_key) : Prop := exists s, s ∈ shards x /\ is_Some (s !! k).

Lemma elem_of_in_memory x k : k ∈ foldl (fun (acc : gset cache_key) (s : MerkleShardMap) => acc ∪ dom s) ∅ (shards x) <-> own_key x k.
Proof.
  unfold own_key. assert (Hgo : forall (ss : list MerkleShardMap) (acc : gset cache_key), k ∈ foldl (fun acc s => acc ∪ dom s) acc ss <-> k ∈ acc \/ exists s, s ∈ ss /\ is_Some (s !! k)).
  { induction ss as [|s ss IH]; intros acc; cbn [foldl]; [split; [by left | intros [?|(s & Hs & _)]; [done | by apply not_elem_of_nil in Hs]]|].
    rewrite IH, elem_of_union, elem_of_dom. setoid_rewrite elem_of_cons. naive_solver. }
  rewrite Hgo. set_solver.
Qed.

(** What a save keeps of the rows in memory and of the rows it merges with. *)
Lemma merged_spec io spec x :
  0 <= max_entries x ->
  let base := load_merge_base (io_fingerprint io) (io_read io) (io_fingerprint_loaded io) spec x in
  let kept := merged_for_save io spec x in
  (0 < max_entries x -> Z.of_nat (base.size kept) <= max_entries x) /\
  (forall k p e, kept !! k = Some (p, e) ->
     (exists s p', s ∈ shards x /\ s !! k = Some (p', e)) \/ ~ own_key x k /\ base !! k = Some (p, e)) /\
  (forall k, own_key x k \/ is_Some (base !! k) -> kept !! k = None ->
     Z.of_nat (base.size kept) = max_entries x /\ 0 < max_entries x /\
     (own_key x k -> forall k', is_Some (kept !! k') -> own_key x k')).
Proof.
  intros Hmax. cbv zeta. unfold merged_for_save. cbn [overlay_in_memory_entries]. set (base := load_merge_base _ _ _ _ x).
  destruct (enforce_cap_spec (max_entries x) (foldl (fun acc s => acc ∪ dom s) ∅ (shards x)) (foldl extend_map base (shards x)) Hmax)
    as (Hsub & Hcap & Hall & Hown & _ & Hsize). set (kept := enforce_persisted_cap _ _ _) in *. split; [done|]. split.
  - intros k p e Hk. eapply lookup_weaken in Hk; [|exact Hsub]. apply extend_all_lookup in Hk as [?|[Hb Hno]]; [by left|right].
    split; [|done]. intros (s & Hs & [v Hv]). specialize (Hno s Hs). congruence.
  - intros k Hin Hnone. assert (Hm : is_Some (foldl extend_map base (shards x) !! k)).
    { destruct (extend_all_lookup (shards x) base k) as (_ & H2 & H3). destruct Hin as [(s & Hs & Hv)|Hb]; [by eapply H2 | by apply H3]. }
    specialize (Hsize k Hm Hnone). split; [done|]. split.
    + destruct (decide (max_entries x = 0)) as [E|]; [|lia]. exfalso. rewrite (Hall (or_introl E)) in Hnone. by rewrite Hnone in Hm; destruct Hm.
    + intros Ho k' Hk'. apply elem_of_in_memory. by apply (Hown k); [apply elem_of_in_memory|..].
Qed.

End trip.

(** ** A small history *)

#[local] Instance plain_hex : HexCrate := fun bs => concat (map (fun b => [hex_digit (b / 16); hex_digit (b mod 16)]) bs).
#[local] Instance plain_hex_laws : HexLaws.
Proof. done. Qed.

#[export] Instance EntryV4_eq_dec : EqDecision EntryV4.
Proof. solve_decision. Defined.
#[export] Instance OnDisk_eq_dec : EqDecision OnDisk.
Proof. solve_decision. Defined.

Definition padded_digest (content : bytes) : bytes := take 32 (content ++ replicate 32 0).
Definition sample_spec : bytes := replicate 32 7.
Definition sample_now : Z := 20000000005.

(** [/a] was modified well before the index is written, [/b] in that second. *)
Definition sample_rows : list EntryV4 :=
  [mkRow $"/a" 0 5000000000 5000000001 3 1 (hex_string (padded_digest [1; 2; 3])); mkRow $"/b" 0 20000000001 20000000001 2 2 (hex_string (padded_digest [4; 5]))].
Definition sample_disk : OnDisk := mkOnDisk SCHEMA_VERSION (Some (hex_string sample_spec)) sample_now sample_rows.

#[local] Instance sample_merkle_env : MerkleEnv := {|
  blake3_digest := padded_digest;
  merkle_hex := plain_hex;
  json_from_slice v := if decide (v = [1]) then Ok sample_disk else Err [];
  json_to_vec d := if decide (d = sample_disk) then Ok [1] else Err [] |}.

#[local] Instance sample_laws : MerkleLaws.
Proof.
  split; [apply plain_hex_laws | intros d b; cbn; repeat case_decide; congruence|].
  intros b d. cbn. case_decide; [|done]. intros [= <-]. repeat constructor; cbn; lia.
Qed.

Definition sample_merkle_ops : list merkle_op :=
  [MRecord (as_bytes $"/a") 0 5000000000 5000000001 3 [1; 2; 3]; MRecord (as_bytes $"/b") 0 20000000001 20000000001 2 [4; 5]].
Definition sample_merkle : MerkleIndex := foldl merkle_step (merkle_with_max_entries 10) sample_merkle_ops.

Lemma sample_merkle_storable : merkle_storable sample_merkle.
Proof.
  unfold merkle_storable. apply Forall_forall. intros s Hs k v Hk.
  assert (Hall : Forall (fun s : merged_map => Forall (fun kv => path_components (fst (snd kv)) = fst (fst kv) /\
      (fst (snd kv) = as_bytes $"/a" \/ fst (snd kv) = as_bytes $"/b") /\ zlen (hash (snd (snd kv))) = 32 /\ Forall (fun b => 0 <= b < 256) (hash (snd (snd kv)))) (map_to_list s)) (shards sample_merkle)) by by_decision.
  rewrite Forall_forall in Hall. specialize (Hall s Hs). rewrite Forall_forall in Hall. apply elem_of_map_to_list in Hk. destruct (Hall _ Hk) as (H1 & H2 & H3 & H4). cbn in *.
  split; [done|]. split; [|done]. destruct H2 as [->| ->]; [exists $"/a" | exists $"/b"]; split; try done; repeat constructor; cbn; lia.
Qed.

Definition sample_io : SaveIo := mkSaveIo (Ok tt) (Ok None) (Err NotFound) (Ok None) sample_now (Ok tt) (Ok None).


(** Two spellings of one path are equal as paths but live in different shards, so
    forgetting one does not forget the other. *)
Example spelling_splits_shards :
  path_components (as_bytes $"/a//b") = path_components (as_bytes $"/a/b") /\ shard_index (as_bytes $"/a//b") <> shard_index (as_bytes $"/a/b").
Proof. split; [done | vm_compute; discriminate]. Qed.

Lemma merkle_skip_sound_witness :
  let x' := foldl merkle_step (merkle_with_max_entries 10) sample_merkle_ops in
  metadata_unchanged x' (as_bytes $"/a") 5000000000 5000000001 3 = true /\
  exists h, ledger (holds (merkle_with_max_entries 10)) sample_merkle_ops (slot (as_bytes $"/a") 0) = Some (5000000000, 5000000001, 3, h).
Proof.
  intros x'. assert (Hu : metadata_unchanged x' (as_bytes $"/a") 5000000000 5000000001 3 = true) by by_eval. split; [done|].
  destruct (merkle_skip_sound 4 (merkle_with_max_entries 10) x' [] sample_merkle_ops (as_bytes $"/a") 0 5000000000 5000000001 3 [1; 2; 3]) as (_ & Hmeta & _);
    [apply with_max_ok; by_decision | by_decision | lia | apply sequential_interleaved; lia |]. exact (proj2 (Hmeta Hu)).
Defined.

(** A row that another process wrote comes back through the merge of a save, also
    for a path this process has forgotten. *)
Example forgotten_row_returns :
  let x := forget (as_bytes $"/a") sample_merkle in
  let io := mkSaveIo (Ok tt) (Ok (Some (mkFingerprint 1 1))) (Ok [1]) (Ok None) sample_now (Ok tt) (Ok None) in
  get_entry x (as_bytes $"/a") 0 = None /\ is_Some (merged_for_save io (Some sample_spec) x !! key_of (as_bytes $"/a") 0).
Proof. cbv zeta. split; [by_eval | vm_compute; by eexists]. Qed.
