(* ===== verification/Dedup.v ===== *)
(** * Deduplication of findings ([crates/core/src/dedup.rs])

    Raw matches are grouped by detector, credential and optional file scope in
    one pass over an insertion-ordered map, and the groups of different
    detectors that found one credential in one file are then collapsed into the
    winning detector's finding. *)

From S2P Require Import Prelude Float64 Evidence Finding VerifierCache.

Inductive DedupScope := ScopeNone | ScopeFile | ScopeCredential.

#[export] Instance DedupScope_eq_dec : EqDecision DedupScope.
Proof. solve_decision. Defined.

Record DedupedMatch := mkDeduped {
  dm_detector_id : str; dm_detector_name : str; dm_service : str; dm_severity : Severity;
  dm_credential : str; dm_credential_hash : CredentialHash; dm_companions : CompanionMap;
  dm_primary_location : MatchLocation; dm_additional_locations : list MatchLocation;
  dm_confidence : option f64; dm_evidence : EvidenceVerdict; dm_entropy : option f64 }.

Record FileScopeIdentity := mkFileScope {
  fs_source : str; fs_file_path : option str; fs_commit : option str }.
Record LocationIdentity := mkLocIdentity {
  li_source : str; li_file_path : option str; li_line : option Z; li_commit : option str }.

#[export] Instance FileScopeIdentity_eq_dec : EqDecision FileScopeIdentity.
Proof. solve_decision. Defined.
#[export] Instance LocationIdentity_eq_dec : EqDecision LocationIdentity.
Proof. solve_decision. Defined.

(** Detector, credential and file scope. *)
Abbreviation DedupKey := (str * str * option FileScopeIdentity)%type.

Definition file_scope_identity (l : MatchLocation) : FileScopeIdentity :=
  mkFileScope (loc_source l) (loc_file_path l) (loc_commit l).
Definition location_identity (l : MatchLocation) : LocationIdentity :=
  mkLocIdentity (loc_source l) (loc_file_path l) (loc_line l) (loc_commit l).

(** A group and its set of recorded locations. *)
Abbreviation Group := (DedupedMatch * list LocationIdentity)%type.

Abbreviation CrossKey := (CredentialHash * option str)%type.

(** The suffixes of decoded sources are generated when the crate is built. *)
Class DecoderSuffixes := DECODER_SOURCE_SUFFIXES : list str.

Section dedup.
Context `{Sha256Fn} `{DecoderSuffixes}.

Definition effective_credential_hash (credential : str) (hash : CredentialHash) : CredentialHash :=
  if CredentialHash_is_zero hash then sha256_hash (as_bytes credential) else hash.

(** ** Decoder aliases *)

Definition DECODER_ALIAS_MAX_LINE_DELTA : Z := 1.
Definition DECODER_ALIAS_MAX_OFFSET_DELTA : Z := 16.

Definition is_decoder_location (l : MatchLocation) : bool :=
  existsb (fun suffix => ends_with suffix (loc_source l)) DECODER_SOURCE_SUFFIXES.

Definition is_decoder_alias_pair (a b : MatchLocation) : bool :=
  if negb (bool_decide (loc_file_path a = loc_file_path b)) || negb (bool_decide (loc_commit a = loc_commit b)) then false
  else if eqb (is_decoder_location a) (is_decoder_location b) then false
  else
    match loc_line a, loc_line b with
    | Some la, Some lb => abs_diff la lb <=? DECODER_ALIAS_MAX_LINE_DELTA
    | _, _ => abs_diff (loc_offset a) (loc_offset b) <=? DECODER_ALIAS_MAX_OFFSET_DELTA
    end.

(** ** Merging *)

(** [seen] sets are [IndexSet]s: insertion ordered, without duplicates. *)
Definition insert_new_location_identity (seen : list LocationIdentity) (l : MatchLocation) :
    bool * list LocationIdentity :=
  if decide (location_identity l ∈ seen) then (false, seen) else (true, seen ++ [location_identity l]).

(** [IndexSet::insert] and [shift_remove]. *)
Definition set_insert (x : LocationIdentity) (seen : list LocationIdentity) : list LocationIdentity :=
  if decide (x ∈ seen) then seen else seen ++ [x].
Definition shift_remove (x : LocationIdentity) (seen : list LocationIdentity) : list LocationIdentity :=
  List.filter (fun y => negb (bool_decide (y = x))) seen.

(** [current.split(" | ").any(..)]. *)
Fixpoint split_str (fuel : nat) (sep s : str) : list str :=
  match fuel with
  | O => [s]
  | S fuel' => match split_once sep s with
               | Some (a, rest) => a :: split_str fuel' sep rest
               | None => [s]
               end
  end.

Definition merge_companion (existing : CompanionMap) (e : str * str) : CompanionMap :=
  let '(name, value) := e in
  match existing !! name with
  | Some current =>
      if bool_decide (current = value) then existing
      else if existsb (fun c => bool_decide (c = value)) (split_str (length current) $" | " current) then existing
      else <[name := current ++ $" | " ++ value]> existing
  | None => <[name := value]> existing
  end.

Definition merge_companions (existing incoming : CompanionMap) : CompanionMap :=
  foldl merge_companion existing (sort_by (fun a b => str_cmp (fst a) (fst b)) (map_to_list incoming)).

Definition max_confidence (lhs rhs : option f64) : option f64 :=
  match lhs, rhs with
  | Some a, Some b => Some (f64_max a b)
  | Some a, None => Some a
  | None, r => r
  end.

Definition max_entropy (lhs rhs : option f64) : option f64 :=
  match lhs, rhs with
  | Some a, Some b => Some (match total_cmp a b with Lt => b | _ => a end)
  | Some a, None => Some a
  | None, r => r
  end.

(** ** Grouping by detector and credential *)

Definition deduped_of (m : RawMatch) : DedupedMatch :=
  mkDeduped (rm_detector_id m) (rm_detector_name m) (rm_service m) (rm_severity m) (rm_credential m)
    (effective_credential_hash (rm_credential m) (rm_credential_hash m)) (rm_companions m) (rm_location m) []
    (rm_confidence m) (rm_evidence m) (rm_entropy m).

Definition match_key (scope : DedupScope) (m : RawMatch) : DedupKey :=
  (rm_detector_id m, rm_credential m,
   match scope with ScopeFile => Some (file_scope_identity (rm_location m)) | _ => None end).

Definition new_group (m : RawMatch) : Group := (deduped_of m, [location_identity (rm_location m)]).

Definition with_locations (d : DedupedMatch) (primary : MatchLocation) (additional : list MatchLocation) : DedupedMatch :=
  mkDeduped (dm_detector_id d) (dm_detector_name d) (dm_service d) (dm_severity d) (dm_credential d)
    (dm_credential_hash d) (dm_companions d) primary additional (dm_confidence d) (dm_evidence d) (dm_entropy d).

(** The statements shared by both arms of the duplicate case. *)
Definition merge_signals (d : DedupedMatch) (m : RawMatch) : DedupedMatch :=
  mkDeduped (dm_detector_id d) (dm_detector_name d) (dm_service d) (dm_severity d) (dm_credential d)
    (dm_credential_hash d) (merge_companions (dm_companions d) (rm_companions m)) (dm_primary_location d)
    (dm_additional_locations d) (max_confidence (dm_confidence d) (rm_confidence m))
    (stronger (dm_evidence d) (rm_evidence m)) (max_entropy (dm_entropy d) (rm_entropy m)).

Definition absorb (g : Group) (m : RawMatch) : Group :=
  let '(existing, seen) := g in
  let primary := dm_primary_location existing in
  let location := rm_location m in
  if is_decoder_alias_pair primary location then
    let '(existing, seen) :=
      if is_decoder_location primary && negb (is_decoder_location location) then
        (with_locations existing location (dm_additional_locations existing),
         set_insert (location_identity location) (shift_remove (location_identity primary) seen))
      else (existing, seen) in
    (merge_signals existing m, seen)
  else
    let '(fresh, seen) := insert_new_location_identity seen location in
    let existing := if fresh then with_locations existing primary (dm_additional_locations existing ++ [location])
                    else existing in
    (merge_signals existing m, seen).

(** [groups.get_full_mut] on the insertion-ordered map. *)
Fixpoint upsert (k : DedupKey) (m : RawMatch) (groups : list (DedupKey * Group)) : list (DedupKey * Group) :=
  match groups with
  | [] => [(k, new_group m)]
  | (k', g) :: rest => if decide (k' = k) then (k', absorb g m) :: rest else (k', g) :: upsert k m rest
  end.

Definition location_cmp (a b : RawMatch) : comparison :=
  then_with (option_cmp str_cmp (loc_file_path (rm_location a)) (loc_file_path (rm_location b)))
  (then_with (loc_offset (rm_location a) ?= loc_offset (rm_location b))
  (then_with (option_cmp Z.compare (loc_line (rm_location a)) (loc_line (rm_location b)))
  (then_with (str_cmp (loc_source (rm_location a)) (loc_source (rm_location b)))
  (then_with (option_cmp str_cmp (loc_commit (rm_location a)) (loc_commit (rm_location b)))
  (then_with (str_cmp (rm_detector_id a) (rm_detector_id b))
             (str_cmp (rm_credential a) (rm_credential b))))))).

Definition file_scope_cmp (a b : FileScopeIdentity) : comparison :=
  then_with (str_cmp (fs_source a) (fs_source b))
  (then_with (option_cmp str_cmp (fs_file_path a) (fs_file_path b)) (option_cmp str_cmp (fs_commit a) (fs_commit b))).

Definition key_cmp (a b : DedupKey) : comparison :=
  then_with (str_cmp (fst (fst a)) (fst (fst b)))
  (then_with (str_cmp (snd (fst a)) (snd (fst b))) (option_cmp file_scope_cmp (snd a) (snd b))).

Definition group_matches (scope : DedupScope) (matches : list RawMatch) : list (DedupKey * Group) :=
  foldl (fun groups m => upsert (match_key scope m) m groups) [] matches.

Definition dedup_matches (matches : list RawMatch) (scope : DedupScope) : list DedupedMatch :=
  match scope with
  | ScopeNone => map deduped_of matches
  | _ =>
      let groups := group_matches scope (sort_by location_cmp matches) in
      map (fun kg => fst (snd kg)) (sort_by (fun a b => key_cmp (fst a) (fst b)) groups)
  end.

(** ** Collapsing detectors *)

Definition cross_key (d : DedupedMatch) : CrossKey := (dm_credential_hash d, loc_file_path (dm_primary_location d)).

Fixpoint push_group {K A} `{EqDecision K} (k : K) (m : A) (groups : list (K * list A)) : list (K * list A) :=
  match groups with
  | [] => [(k, [m])]
  | (k', g) :: rest => if decide (k' = k) then (k', g ++ [m]) :: rest else (k', g) :: push_group k m rest
  end.

Definition winner_cmp (a b : DedupedMatch) : comparison :=
  then_with (total_cmp (default f64_zero (dm_confidence b)) (default f64_zero (dm_confidence a)))
  (then_with (severity_u8 (dm_severity b) ?= severity_u8 (dm_severity a))
  (then_with (str_cmp (dm_detector_id a) (dm_detector_id b))
  (then_with (str_cmp (dm_credential a) (dm_credential b))
  (then_with (str_cmp (dm_credential_hash a) (dm_credential_hash b))
             (loc_offset (dm_primary_location a) ?= loc_offset (dm_primary_location b)))))).

(** [{c:.2}]: the exact value rounded half to even to two decimals. *)
Definition round_half_even (num den : Z) : Z :=
  let q := num / den in
  match 2 * (num mod den) ?= den with
  | Lt => q
  | Gt => q + 1
  | Eq => if Z.even q then q else q + 1
  end.

Definition f64_hundredths (x : f64) : Z :=
  let e := f64_exp x in
  let m := if e =? 0 then f64_mant x else f64_mant x + 2 ^ 52 in
  let ex := Z.max e 1 - 1075 in
  if 0 <=? ex then 100 * m * 2 ^ ex else round_half_even (100 * m) (2 ^ (- ex)).

Definition fmt_f64_2 (x : f64) : str :=
  if is_nan x then $"NaN"
  else
    (if f64_sign x then $"-" else []) ++
    (if is_finite x then
       let h := f64_hundredths x in
       dec_digits 310 (h / 100) [] ++ $"." ++ [48 + h / 10 mod 10; 48 + h mod 10]
     else $"inf").

Definition cross_value (loser : DedupedMatch) : str :=
  dm_service loser ++ $" (" ++ dm_detector_name loser ++ $") [" ++
  match dm_confidence loser with Some c => fmt_f64_2 c | None => $"n/a" end ++ $"]".

(** [insert_new_location_identity] over a list of locations, with the new ones. *)
Definition note_location (acc : list LocationIdentity * list MatchLocation) (l : MatchLocation) :
    list LocationIdentity * list MatchLocation :=
  let '(seen, added) := acc in
  let '(fresh, seen) := insert_new_location_identity seen l in
  (seen, if fresh then added ++ [l] else added).

Definition merge_cross_detector_locations (winner : DedupedMatch) (seen : list LocationIdentity) (loser : DedupedMatch) :
    DedupedMatch * list LocationIdentity :=
  let '(seen, additional) :=
    foldl note_location (seen, dm_additional_locations winner)
      (dm_primary_location loser :: dm_additional_locations loser) in
  (with_locations winner (dm_primary_location winner) additional, seen).

Definition or_insert (k v : str) (m : CompanionMap) : CompanionMap :=
  match m !! k with Some _ => m | None => <[k := v]> m end.

Definition absorb_loser (st : DedupedMatch * list LocationIdentity) (il : nat * DedupedMatch) :
    DedupedMatch * list LocationIdentity :=
  let '(winner, seen) := st in
  let '(idx, loser) := il in
  let key := $"cross_detector." ++ display_u64 (Z.of_nat idx) in
  let winner :=
    mkDeduped (dm_detector_id winner) (dm_detector_name winner) (dm_service winner) (dm_severity winner)
      (dm_credential winner) (dm_credential_hash winner) (or_insert key (cross_value loser) (dm_companions winner))
      (dm_primary_location winner) (dm_additional_locations winner) (dm_confidence winner)
      (with_reason (dm_evidence winner) (reason_code (stronger (dm_evidence winner) (dm_evidence loser))))
      (max_entropy (dm_entropy winner) (dm_entropy loser)) in
  merge_cross_detector_locations winner seen loser.

Definition collapse (group : list DedupedMatch) : list DedupedMatch :=
  match group with
  | [only] => [only]
  | _ =>
      match sort_by winner_cmp group with
      | [] => []
      | winner :: losers =>
          let seen0 := fst (foldl note_location ([], []) (dm_primary_location winner :: dm_additional_locations winner)) in
          [fst (foldl absorb_loser (winner, seen0) (zip (seq 0 (length losers)) losers))]
      end
  end.

Definition out_cmp (a b : DedupedMatch) : comparison :=
  then_with (str_cmp (dm_detector_id a) (dm_detector_id b))
  (then_with (str_cmp (dm_credential_hash a) (dm_credential_hash b))
  (then_with (option_cmp str_cmp (loc_file_path (dm_primary_location a)) (loc_file_path (dm_primary_location b)))
             (loc_offset (dm_primary_location a) ?= loc_offset (dm_primary_location b)))).

Definition dedup_cross_detector (deduped : list DedupedMatch) : list DedupedMatch :=
  if (length deduped <? 2)%nat then deduped
  else
    let groups := foldl (fun groups m => push_group (cross_key m) m groups) [] deduped in
    sort_by out_cmp (concat (map (fun kg => collapse (snd kg)) groups)).

End dedup.

Example fmt_examples :
  fmt_f64_2 f64_half = $"0.50" /\ fmt_f64_2 f64_one = $"1.00" /\ fmt_f64_2 0x3FECCCCCCCCCCCCD = $"0.90" /\
  fmt_f64_2 0x3FB999999999999A = $"0.10".
Proof. repeat split; by_eval. Qed.

(** ** The one-pass grouping is grouping by key *)

Section proofs.
Context `{Sha256Fn} `{DecoderSuffixes}.

Definition group_fold (ms : list RawMatch) : option Group :=
  match ms with [] => None | m :: rest => Some (foldl absorb (new_group m) rest) end.

Definition of_key (scope : DedupScope) (k : DedupKey) (ms : list RawMatch) : list RawMatch :=
  List.filter (fun m => bool_decide (match_key scope m = k)) ms.

Lemma group_fold_snoc ms m :
  group_fold (ms ++ [m]) = Some (match group_fold ms with Some g => absorb g m | None => new_group m end).
Proof. destruct ms as [|m0 ms]; [done|]. cbn [app group_fold]. by rewrite foldl_app. Qed.

Lemma of_key_snoc scope k ms m :
  of_key scope k (ms ++ [m]) = of_key scope k ms ++ (if decide (match_key scope m = k) then [m] else []).
Proof.
  unfold of_key. rewrite List.filter_app. cbn [List.filter]. f_equal.
  destruct (decide _); [by rewrite bool_decide_true | by rewrite bool_decide_false].
Qed.

Lemma upsert_keys k m gs :
  fst <$> upsert k m gs = if decide (k ∈ (fst <$> gs)) then fst <$> gs else (fst <$> gs) ++ [k].
Proof.
  induction gs as [|[k' g] gs IH]; cbn [upsert fmap list_fmap fst].
  { by rewrite decide_False by apply not_elem_of_nil. }
  destruct (decide (k' = k)) as [->|Hne]; cbn [fmap list_fmap fst].
  { by rewrite decide_True by left. }
  rewrite IH. destruct (decide (k ∈ fst <$> gs)) as [Hin|Hout].
  - by rewrite decide_True by (by right).
  - rewrite decide_False; [done|]. by intros [->|?]%elem_of_cons.
Qed.

Lemma upsert_elem k m gs k' g' :
  NoDup (fst <$> gs) ->
  (k', g') ∈ upsert k m gs <->
  if decide (k' = k) then (exists g, (k, g) ∈ gs /\ g' = absorb g m) \/ (~ k ∈ (fst <$> gs) /\ g' = new_group m)
  else (k', g') ∈ gs.
Proof.
  induction gs as [|[k0 g0] gs IH]; cbn [upsert fmap list_fmap fst]; intros Hnd.
  - rewrite list_elem_of_singleton. destruct (decide (k' = k)) as [->|Hne].
    + split; [intros [= ->]; right; split; [apply not_elem_of_nil | done]|].
      intros [(g & ?%not_elem_of_nil & _)|[_ ->]]; done.
    + split; [by intros [=] | by intros ?%not_elem_of_nil].
  - apply NoDup_cons in Hnd as [Hk0 Hnd]. destruct (decide (k0 = k)) as [->|Hne0].
    + rewrite elem_of_cons. destruct (decide (k' = k)) as [->|Hne].
      * split.
        -- intros [[= ->]|Hin]; [left; exists g0; split; [by left | done]|].
           destruct Hk0. apply list_elem_of_fmap. by exists (k, g').
        -- intros [(g & [[= ->]|Hin]%elem_of_cons & ->)|[Hno _]]; [by left| |].
           ++ destruct Hk0. apply list_elem_of_fmap. by exists (k, g).
           ++ destruct Hno. left.
      * rewrite elem_of_cons. split; intros [[=]|?]; try done; by right.
    + rewrite elem_of_cons, (IH Hnd). destruct (decide (k' = k)) as [->|Hne].
      * split.
        -- intros [[=]|[(g & Hg & ->)|[Hno ->]]]; [done | left; exists g; split; [by right | done]|].
           right. split; [|done]. by intros [->|?]%elem_of_cons.
        -- intros [(g & [[=]|Hg]%elem_of_cons & ->)|[Hno ->]]; [done | right; left; by exists g |].
           right. right. split; [|done]. intros Hin. apply Hno. by right.
      * by rewrite elem_of_cons.
Qed.

Lemma group_matches_spec scope ms :
  NoDup (fst <$> group_matches scope ms) /\
  forall k g, (k, g) ∈ group_matches scope ms <-> group_fold (of_key scope k ms) = Some g.
Proof.
  unfold group_matches. induction ms as [|m ms [IHn IHe]] using rev_ind.
  { split; [apply NoDup_nil_2|]. intros k g. split; [by intros ?%not_elem_of_nil | done]. }
  rewrite foldl_app. cbn [foldl]. set (gs := foldl _ [] ms) in *. split.
  - rewrite upsert_keys. destruct (decide _) as [|Hout]; [done|]. apply NoDup_app. split; [done|].
    split; [|apply NoDup_singleton]. by intros x Hx ->%list_elem_of_singleton.
  - intros k g. rewrite upsert_elem by done. rewrite of_key_snoc.
    destruct (decide (k = match_key scope m)) as [->|Hne].
    + rewrite decide_True, group_fold_snoc by done. split.
      * intros [(g0 & Hg0 & ->)|[Hno ->]].
        -- apply IHe in Hg0. by rewrite Hg0.
        -- destruct (group_fold (of_key scope (match_key scope m) ms)) as [g0|] eqn:Hg; [|done].
           apply IHe in Hg. destruct Hno. apply list_elem_of_fmap. by exists (match_key scope m, g0).
      * intros [= <-]. destruct (group_fold (of_key scope (match_key scope m) ms)) as [g0|] eqn:Hg.
        -- left. exists g0. by rewrite IHe.
        -- right. split; [|done]. intros ([k1 g1] & Hk1 & Hin%IHe)%list_elem_of_fmap. simpl in Hk1. subst k1. congruence.
    + rewrite decide_False, app_nil_r by congruence. apply IHe.
Qed.

#[local] Instance file_scope_cmp_laws : CmpLaws file_scope_cmp.
Proof. change (CmpLaws (fun x y => file_scope_cmp x y)). unfold file_scope_cmp. solve_cmp_laws. Qed.
#[local] Instance file_scope_cmp_eq : CmpEq file_scope_cmp.
Proof.
  intros x y. unfold file_scope_cmp. rewrite !then_with_Eq, (cmp_eq str_cmp), !(cmp_eq (option_cmp str_cmp)).
  split; [|by intros ->]. destruct x, y; simpl. by intros (-> & -> & ->).
Qed.
#[local] Instance key_cmp_laws : CmpLaws key_cmp.
Proof. change (CmpLaws (fun x y => key_cmp x y)). unfold key_cmp. solve_cmp_laws. Qed.
#[local] Instance key_cmp_eq : CmpEq key_cmp.
Proof.
  intros [[a b] c] [[a' b'] c']. unfold key_cmp. simpl.
  rewrite !then_with_Eq, !(cmp_eq str_cmp), (cmp_eq (option_cmp file_scope_cmp)).
  split; [by intros (-> & -> & ->) | by intros [= -> -> ->]].
Qed.
#[local] Instance location_cmp_laws : CmpLaws location_cmp.
Proof. change (CmpLaws (fun x y => location_cmp x y)). unfold location_cmp. solve_cmp_laws. Qed.

(** ** Signals of a group *)

Lemma stronger_in x y : stronger x y = x \/ stronger x y = y.
Proof. rewrite stronger_max. destruct (verdict_cmp y x); tauto. Qed.
Lemma stronger_ge_l x y : verdict_cmp x (stronger x y) <> Gt.
Proof.
  rewrite stronger_max. destruct (verdict_cmp y x) eqn:E; [by rewrite (cmp_refl verdict_cmp)..|]. rewrite (cmp_sym verdict_cmp), E. done.
Qed.
Lemma stronger_ge_r x y : verdict_cmp y (stronger x y) <> Gt.
Proof. rewrite stronger_max. destruct (verdict_cmp y x) eqn:E; [by rewrite E..|]. by rewrite (cmp_refl verdict_cmp). Qed.

Lemma max_entropy_ge a b x :
  (a = Some x \/ b = Some x) -> exists y, max_entropy a b = Some y /\ total_cmp x y <> Gt.
Proof.
  intros [-> | ->]; [destruct b as [y|] | destruct a as [y|]]; cbn [max_entropy];
    try (eexists; split; [done | by rewrite (cmp_refl total_cmp)]).
  - destruct (total_cmp x y) eqn:E; eexists; (split; [done|]); rewrite ?(cmp_refl total_cmp), ?E; done.
  - destruct (total_cmp y x) eqn:E; eexists; (split; [done|]); rewrite ?(cmp_refl total_cmp); try done; rewrite (cmp_sym total_cmp), E; done.
Qed.

Lemma max_entropy_in a b : max_entropy a b = a \/ max_entropy a b = b.
Proof. destruct a as [x|], b as [y|]; cbn; auto. destruct (total_cmp x y); auto. Qed.

Lemma zero_bits x : in_f64 x -> is_zero_f64 x = true -> x = 0 \/ x = 2 ^ 63.
Proof.
  unfold in_f64, in_u64, u64_max, is_zero_f64, f64_exp, f64_mant. intros Hx Hz.
  change 0x7FF with (2 ^ 11 - 1) in Hz. rewrite !Z.sub_1_r, <- !Z.ones_equiv, !Z.land_ones in Hz by lia.
  rewrite Z.shiftr_div_pow2 in Hz by lia. reflect_bool. Z.div_mod_to_equations. lia.
Qed.

(** [f64_lt y x = false] on numbers: [x] is at most [y]. *)
Lemma f64_not_lt_trans x y z :
  in_f64 x -> in_f64 y -> in_f64 z -> is_nan x = false -> is_nan y = false -> is_nan z = false ->
  f64_lt y x = false -> f64_lt z y = false -> f64_lt z x = false.
Proof.
  unfold f64_lt. intros Hx Hy Hz -> -> ->. cbn [orb].
  assert (Hkey : forall a, in_f64 a -> is_zero_f64 a = true -> total_key a = 0 \/ total_key a = -1).
  { intros a Ha Hza. destruct (zero_bits a Ha Hza) as [-> | ->]; auto. }
  assert (Hkey' : forall a, in_f64 a -> total_key a = 0 \/ total_key a = -1 -> is_zero_f64 a = true).
  { intros a Ha. unfold in_f64, in_u64, u64_max, total_key in *. case_match; reflect_bool; intros.
    - assert (a = 0) as -> by lia. done.
    - assert (a = 2 ^ 63) as -> by lia. done. }
  unfold total_cmp.
  destruct (is_zero_f64 z) eqn:Zz, (is_zero_f64 y) eqn:Zy, (is_zero_f64 x) eqn:Zx; cbn [andb]; try done;
    repeat match goal with Hz : is_zero_f64 ?a = true |- _ => apply Hkey in Hz; [|done] end;
    repeat match goal with Hz : is_zero_f64 ?a = false |- _ =>
      assert (~ (total_key a = 0 \/ total_key a = -1)) by (intros C; apply Hkey' in C; congruence || done); clear Hz end;
    destruct (Z.compare_spec (total_key y) (total_key x)); try done;
    destruct (Z.compare_spec (total_key z) (total_key y)); try done;
    destruct (Z.compare_spec (total_key z) (total_key x)); try done; lia.
Qed.

Lemma f64_lt_asym x y : f64_lt x y = true -> f64_lt y x = false.
Proof.
  unfold f64_lt. rewrite (orb_comm (is_nan y)), (andb_comm (is_zero_f64 y)).
  destruct (is_nan x || is_nan y); [done|]. destruct (is_zero_f64 x && is_zero_f64 y); [done|].
  rewrite (cmp_sym total_cmp x y). by destruct (total_cmp x y).
Qed.
Lemma f64_lt_irrefl x : f64_lt x x = false.
Proof. destruct (f64_lt x x) eqn:E; [|done]. pose proof (f64_lt_asym _ _ E). congruence. Qed.

Lemma f64_max_in x y : f64_max x y = x \/ f64_max x y = y.
Proof. unfold f64_max. repeat case_match; auto. Qed.

Lemma f64_max_ge x y a :
  (a = x \/ a = y) -> is_nan a = false -> is_nan (f64_max x y) = false /\ f64_lt (f64_max x y) a = false.
Proof.
  unfold f64_max. intros [-> | ->] Ha.
  - rewrite Ha. destruct (is_nan y) eqn:Hy; [by rewrite Ha, f64_lt_irrefl|].
    destruct (f64_lt x y) eqn:E; [|by rewrite Ha, f64_lt_irrefl]. split; [done|]. by apply f64_lt_asym.
  - destruct (is_nan x) eqn:Hx; [by rewrite Ha, f64_lt_irrefl|]. rewrite Ha.
    destruct (f64_lt x y) eqn:E; [by rewrite Ha, f64_lt_irrefl | by rewrite Hx].
Qed.

(** *** Companion values *)

Definition SEPARATOR : str := $" | ".

(** [v] is a run of pieces of [c], which its separators cut. *)
Definition appears (v c : str) : Prop :=
  exists a b, c = a ++ v ++ b /\ (a = [] \/ exists a', a = a' ++ SEPARATOR) /\ (b = [] \/ exists b', b = SEPARATOR ++ b').

Definition join_values (vs : list str) : str :=
  match vs with [] => [] | v :: rest => v ++ concat (map (app SEPARATOR) rest) end.

(** The values in order of first occurrence. *)
Definition distinct (vs : list str) : list str := foldl (fun seen v => if decide (v ∈ seen) then seen else seen ++ [v]) [] vs.

Definition already_present (c v : str) : bool :=
  bool_decide (c = v) || existsb (fun x => bool_decide (x = v)) (split_str (length c) SEPARATOR c).

(** What merging [v] into the text [c] gives. *)
Definition join_value (c v : str) : str :=
  if already_present c v then c else c ++ SEPARATOR ++ v.

Lemma merge_companion_lookup (m : CompanionMap) (e : str * str) n :
  merge_companion m e !! n = if decide (n = e.1) then Some (match m !! n with Some c => join_value c e.2 | None => e.2 end) else m !! n.
Proof.
  destruct e as [k v]. unfold merge_companion, join_value, already_present. cbn [fst snd]. destruct (decide (n = k)) as [-> |Hne].
  - destruct (m !! k) as [c|] eqn:E; [|by rewrite lookup_insert_eq]. fold SEPARATOR.
    destruct (bool_decide (c = v)); cbn [orb]; [done|]. destruct (existsb _ _); [done|]. by rewrite lookup_insert_eq.
  - destruct (m !! k) as [c|]; [|by rewrite lookup_insert_ne by congruence]. repeat case_match; try done; by rewrite lookup_insert_ne by congruence.
Qed.

Lemma merge_companions_lookup (m inc : CompanionMap) n :
  merge_companions m inc !! n =
  match inc !! n with Some v => Some (match m !! n with Some c => join_value c v | None => v end) | None => m !! n end.
Proof.
  unfold merge_companions. set (l := sort_by _ _). assert (Hp : l ≡ₚ map_to_list inc) by apply sort_by_perm.
  assert (Hnd : NoDup (fst <$> l)) by (rewrite Hp; apply NoDup_fst_map_to_list).
  assert (Hl : forall v, (n, v) ∈ l <-> inc !! n = Some v) by (intros v; by rewrite Hp, elem_of_map_to_list).
  clearbody l. assert (Hgo : forall l (m : CompanionMap), NoDup (fst <$> l) ->
    (forall v, (n, v) ∈ l -> foldl merge_companion m l !! n = Some (match m !! n with Some c => join_value c v | None => v end)) /\
    (n ∉ fst <$> l -> foldl merge_companion m l !! n = m !! n)).
  { clear. induction l as [|[k v] l IH]; intros m Hnd; cbn [foldl fmap list_fmap fst].
    - split; [by intros v ?%not_elem_of_nil | done].
    - apply NoDup_cons in Hnd as [Hk Hnd]. destruct (IH (merge_companion m (k, v)) Hnd) as [H1 H2]. split.
      + intros w [E|Hw]%elem_of_cons.
        * injection E as -> ->. rewrite H2 by done. rewrite merge_companion_lookup. cbn [fst snd]. by rewrite decide_True.
        * rewrite (H1 w Hw), merge_companion_lookup. cbn [fst]. rewrite decide_False; [done|]. intros ->. apply Hk. by apply (list_elem_of_fmap_2 fst) in Hw.
      + intros [Hne Hn]%not_elem_of_cons. rewrite H2 by done. rewrite merge_companion_lookup. cbn [fst]. by rewrite decide_False. }
  destruct (Hgo l m Hnd) as [H1 H2]. destruct (inc !! n) as [v|] eqn:E; [apply H1; by apply Hl|].
  apply H2. intros ([k v] & Hk & Hin)%list_elem_of_fmap. cbn [fst] in Hk. subst k. apply Hl in Hin. congruence.
Qed.

Lemma appears_self v : appears v v.
Proof. exists [], []. split; [by rewrite app_nil_r | auto]. Qed.

Lemma appears_left v c w : appears v c -> appears v (c ++ SEPARATOR ++ w).
Proof.
  intros (a & b & -> & Ha & Hb). exists a, (b ++ SEPARATOR ++ w). rewrite <- !app_assoc. split; [done|]. split; [done|]. right.
  destruct Hb as [-> |[b' ->]]; [by exists w|]. exists (b' ++ SEPARATOR ++ w). by rewrite <- !app_assoc.
Qed.

Lemma appears_right v c w : appears v c -> appears v (w ++ SEPARATOR ++ c).
Proof.
  intros (a & b & -> & Ha & Hb). exists (w ++ SEPARATOR ++ a), b. rewrite <- !app_assoc. split; [done|]. split; [|done]. right.
  destruct Ha as [-> |[a' ->]]; [exists w; by rewrite app_nil_r|]. exists (w ++ SEPARATOR ++ a'). by rewrite <- !app_assoc.
Qed.

Lemma split_appears fuel s v : v ∈ split_str fuel SEPARATOR s -> appears v s.
Proof.
  revert s. induction fuel as [|fuel IH]; intros s; cbn [split_str]; [intros ->%list_elem_of_singleton; apply appears_self|].
  unfold split_once. destruct (find_sub SEPARATOR s) as [i|] eqn:Ei; [|intros ->%list_elem_of_singleton; apply appears_self].
  apply find_sub_Some in Ei as (pre & post & -> & <-). rewrite take_app_length. rewrite (app_assoc pre).
  rewrite drop_app_length' by (by rewrite length_app). rewrite <- app_assoc. intros [-> |Hv]%elem_of_cons; [apply appears_left, appears_self|].
  by apply appears_right, IH.
Qed.

Lemma join_value_appears c v : appears v (join_value c v) /\ forall w, appears w c -> appears w (join_value c v).
Proof.
  unfold join_value, already_present. destruct (_ || _) eqn:E.
  - split; [|done]. apply orb_true_iff in E as [->%bool_decide_eq_true|E]; [apply appears_self|].
    apply existsb_exists in E as (x & Hx & ->%bool_decide_eq_true). by eapply split_appears, list_elem_of_In.
  - split; [apply appears_right, appears_self | intros w; apply appears_left].
Qed.

Lemma join_values_snoc vs v : vs <> [] -> join_values (vs ++ [v]) = join_values vs ++ SEPARATOR ++ v.
Proof.
  destruct vs as [|x vs]; [done|]. intros _. cbn [join_values app]. rewrite map_app, concat_app. cbn. by rewrite app_nil_r, app_assoc.
Qed.

(** Values without a bar are cut apart again. *)
Lemma find_separator v rest : 124 ∉ v -> find_sub SEPARATOR (v ++ SEPARATOR ++ rest) = Some (length v).
Proof.
  induction v as [|x v IH]; intros Hv; [done|]. apply not_elem_of_cons in Hv as [Hx Hv]. cbn [app find_sub].
  assert (Hn : starts_with SEPARATOR (x :: v ++ SEPARATOR ++ rest) = false).
  { apply not_true_iff_false. intros [t Ht]%starts_with_spec. destruct v as [|y v]; [done|].
    change (x :: (y :: v) ++ SEPARATOR ++ rest = 32 :: 124 :: 32 :: t) in Ht. cbn [app] in Ht. injection Ht as -> -> _.
    by apply not_elem_of_cons in Hv as []. }
  change (match starts_with SEPARATOR (x :: v ++ SEPARATOR ++ rest) with true => Some O | false => S <$> find_sub SEPARATOR (v ++ SEPARATOR ++ rest) end = Some (S (length v))).
  by rewrite Hn, IH.
Qed.

Lemma no_separator v : 124 ∉ v -> find_sub SEPARATOR v = None.
Proof.
  intros Hv. destruct (find_sub SEPARATOR v) as [i|] eqn:E; [|done]. apply find_sub_Some in E as (pre & post & -> & _).
  exfalso. apply Hv. change SEPARATOR with [32; 124; 32]. set_solver.
Qed.

Lemma split_joined fuel vs :
  vs <> [] -> Forall (fun v => 124 ∉ v) vs -> (length vs <= S fuel)%nat -> split_str fuel SEPARATOR (join_values vs) = vs.
Proof.
  revert vs. induction fuel as [|fuel IH]; intros [|v [|w vs]] Hne Hf Hl; try done; cbn [length] in Hl; try lia.
  - cbn [join_values map concat split_str]. by rewrite app_nil_r.
  - apply Forall_cons in Hf as [Hv _]. cbn [join_values map concat split_str]. rewrite app_nil_r. unfold split_once. by rewrite no_separator.
  - apply Forall_cons in Hf as [Hv Hf]. assert (Hj : join_values (v :: w :: vs) = v ++ SEPARATOR ++ join_values (w :: vs)).
    { cbn [join_values map concat]. by rewrite <- !app_assoc. }
    rewrite Hj. cbn [split_str]. unfold split_once. rewrite find_separator by done. rewrite take_app_length, app_assoc.
    rewrite drop_app_length' by (by rewrite length_app). f_equal. apply IH; [done | done | cbn [length] in *; lia].
Qed.

Lemma join_values_length vs : (length vs <= S (length (join_values vs)))%nat.
Proof.
  destruct vs as [|v vs]; [cbn; lia|]. cbn [join_values length]. rewrite length_app. induction vs as [|w vs IH]; cbn [map concat length]; [lia|].
  rewrite !length_app. change (length SEPARATOR) with 3%nat. lia.
Qed.

Lemma already_joined vs v :
  vs <> [] -> Forall (fun v => 124 ∉ v) vs -> 124 ∉ v -> already_present (join_values vs) v = bool_decide (v ∈ vs).
Proof.
  intros Hne Hf Hv. unfold already_present. rewrite split_joined by (done || apply join_values_length). apply eq_bool_prop_intro.
  rewrite !Is_true_true, orb_true_iff, !bool_decide_eq_true, existsb_exists. split.
  - intros [E|(x & Hx & ->%bool_decide_eq_true)]; [|by apply list_elem_of_In].
    destruct vs as [|w [|w' vs]]; [done | |].
    + cbn [join_values map concat] in E. rewrite app_nil_r in E. subst. by left.
    + exfalso. apply Hv. rewrite <- E. cbn [join_values map concat]. change SEPARATOR with [32; 124; 32]. set_solver.
  - intros Hin. right. exists v. split; [by apply list_elem_of_In | by apply bool_decide_eq_true].
Qed.

(** The values the matches [p] give companion [n], and what a finding may make of
    them: the values joined by separators, each of them one or more pieces of the
    text; if none has a bar, each exactly once in order of first occurrence. *)
Definition values_of (n : str) (p : list RawMatch) : list str := omap (fun m => rm_companions m !! n) p.

Definition companion_ok (n : str) (p : list RawMatch) (o : option str) : Prop :=
  match o with
  | None => values_of n p = []
  | Some c => exists vs, c = join_values vs /\ vs <> [] /\ vs `sublist_of` values_of n p /\
      (forall v, v ∈ values_of n p -> appears v c) /\
      (Forall (fun v => 124 ∉ v) (values_of n p) -> vs = distinct (values_of n p))
  end.

Lemma companion_ok_first n m : companion_ok n [m] (rm_companions m !! n).
Proof.
  unfold companion_ok, values_of. cbn [omap list_omap]. destruct (rm_companions m !! n) as [v|]; [|done].
  exists [v]. split_and!; [cbn; by rewrite app_nil_r | done | done | intros w ->%list_elem_of_singleton; apply appears_self | done].
Qed.

Lemma companion_ok_merge n p m o :
  companion_ok n p o ->
  companion_ok n (p ++ [m])
    (match rm_companions m !! n with Some v => Some (match o with Some c => join_value c v | None => v end) | None => o end).
Proof.
  unfold companion_ok, values_of. rewrite omap_app. cbn [omap list_omap]. destruct (rm_companions m !! n) as [v|]; [|by rewrite app_nil_r].
  set (vals := omap _ p). destruct o as [c|].
  - intros (vs & -> & Hne & Hsub & Hap & Hd). destruct (join_value_appears (join_values vs) v) as [Hv Hw].
    exists (if already_present (join_values vs) v then vs else vs ++ [v]). split_and!.
    + unfold join_value. destruct (already_present _ _); [done | by rewrite join_values_snoc].
    + destruct (already_present _ _); [done | by destruct vs].
    + destruct (already_present _ _); [by apply sublist_inserts_r | by apply sublist_app].
    + intros w [Hin| ->%list_elem_of_singleton]%elem_of_app; auto.
    + intros [Hf Hfv]%Forall_app. rewrite Forall_singleton in Hfv. specialize (Hd Hf). unfold distinct in *. rewrite foldl_app. cbn [foldl]. rewrite <- Hd.
      assert (Hfs : Forall (fun v => 124 ∉ v) vs).
      { rewrite Forall_forall in Hf |- *. intros x Hx. eapply Hf, elem_of_sublist; done. }
      rewrite already_joined by done. by case_bool_decide; case_decide.
  - intros ->. exists [v]. split_and!; [cbn; by rewrite app_nil_r | done | done | intros w ->%list_elem_of_singleton; apply appears_self | done].
Qed.

(** The signals of a group bound those of its matches and come from them. *)
Record signals_inv (p : list RawMatch) (d : DedupedMatch) : Prop := {
  sg_evidence : forall m, m ∈ p -> verdict_cmp (rm_evidence m) (dm_evidence d) <> Gt;
  sg_evidence_in : exists m, m ∈ p /\ dm_evidence d = rm_evidence m;
  sg_entropy : forall m x, m ∈ p -> rm_entropy m = Some x -> exists y, dm_entropy d = Some y /\ total_cmp x y <> Gt;
  sg_entropy_in : exists m, m ∈ p /\ dm_entropy d = rm_entropy m;
  sg_confidence_in : exists m, m ∈ p /\ dm_confidence d = rm_confidence m;
  sg_confidence : Forall floats_ok p -> forall m x, m ∈ p -> rm_confidence m = Some x -> is_nan x = false ->
    exists y, dm_confidence d = Some y /\ is_nan y = false /\ f64_lt y x = false;
  sg_companions : forall n, companion_ok n p (dm_companions d !! n) }.

Lemma signals_new m : signals_inv [m] (deduped_of m).
Proof.
  constructor; cbn [deduped_of dm_evidence dm_entropy dm_confidence dm_companions];
    try (intros m0 ->%list_elem_of_singleton; rewrite ?(cmp_refl verdict_cmp); done);
    try (exists m; split; [by apply list_elem_of_singleton | done]).
  - intros m0 x ->%list_elem_of_singleton Hx. exists x. by rewrite (cmp_refl total_cmp).
  - intros _ m0 x ->%list_elem_of_singleton Hx Hn. exists x. by rewrite f64_lt_irrefl.
  - intros n. apply companion_ok_first.
Qed.

Lemma signals_merge p d m : signals_inv p d -> signals_inv (p ++ [m]) (merge_signals d m).
Proof.
  intros [Hev (me & Hme & Eev) Hen (mn & Hmn & Een) (mc & Hmc & Ecf) Hcf Hco].
  assert (Hin : forall m0, m0 ∈ p ++ [m] <-> m0 ∈ p \/ m0 = m) by (intros; by rewrite elem_of_app, list_elem_of_singleton).
  constructor; cbn [merge_signals dm_evidence dm_entropy dm_confidence dm_companions].
  - intros m0 [Hp0 | ->]%Hin; [|apply stronger_ge_r]. eapply (cmp_trans verdict_cmp); [by apply Hev | apply stronger_ge_l].
  - destruct (stronger_in (dm_evidence d) (rm_evidence m)) as [-> | ->]; [exists me | exists m]; rewrite Hin; auto.
  - intros m0 x [Hp0 | ->]%Hin Hx; [|apply max_entropy_ge; by right].
    destruct (Hen m0 x Hp0 Hx) as (y & Hy & Hxy). destruct (max_entropy_ge (dm_entropy d) (rm_entropy m) y) as (z & Hz & Hyz); [by left|].
    exists z. split; [done|]. by eapply (cmp_trans total_cmp).
  - destruct (max_entropy_in (dm_entropy d) (rm_entropy m)) as [-> | ->]; [exists mn | exists m]; rewrite Hin; auto.
  - assert (Hmax : max_confidence (dm_confidence d) (rm_confidence m) = dm_confidence d \/
      max_confidence (dm_confidence d) (rm_confidence m) = rm_confidence m).
    { destruct (dm_confidence d) as [a|], (rm_confidence m) as [b|]; cbn; auto. destruct (f64_max_in a b) as [-> | ->]; auto. }
    destruct Hmax as [-> | ->]; [exists mc | exists m]; rewrite Hin; auto.
  - intros Hok m0 x [Hp0 | ->]%Hin Hx Hn.
    + apply Forall_app in Hok as [Hokp Hokm]. destruct (Hcf Hokp m0 x Hp0 Hx Hn) as (y & Hy & Hny & Hxy).
      rewrite Hy. destruct (rm_confidence m) as [b|] eqn:Hb; cbn [max_confidence]; [|by exists y].
      destruct (f64_max_ge y b y) as [H1 H2]; [by left | done|]. exists (f64_max y b). split; [done|]. split; [done|].
      rewrite Forall_forall in Hokp. rewrite Forall_singleton in Hokm.
      assert (Hyr : in_f64 y) by (rewrite Ecf in Hy; by apply (Hokp mc Hmc)).
      eapply (f64_not_lt_trans x y); try done.
      * by apply (Hokp m0 Hp0).
      * destruct (f64_max_in y b) as [-> | ->]; [done|]. by apply Hokm.
    + rewrite Hx. destruct (dm_confidence d) as [a|]; cbn [max_confidence]; [|exists x; by rewrite f64_lt_irrefl].
      destruct (f64_max_ge a x x) as [H1 H2]; [by right | done|]. by exists (f64_max a x).
  - intros n. rewrite merge_companions_lookup. apply companion_ok_merge, Hco.
Qed.

(** ** Locations of a group *)

Definition reported (d : DedupedMatch) : list MatchLocation := dm_primary_location d :: dm_additional_locations d.

Lemma alias_sym a b : is_decoder_alias_pair a b = is_decoder_alias_pair b a.
Proof.
  unfold is_decoder_alias_pair.
  rewrite (bool_decide_ext (loc_file_path a = _) (loc_file_path b = loc_file_path a)) by (split; congruence).
  rewrite (bool_decide_ext (loc_commit a = _) (loc_commit b = loc_commit a)) by (split; congruence).
  destruct (_ || _); [done|]. replace (eqb (is_decoder_location b) _) with (eqb (is_decoder_location a) (is_decoder_location b))
    by (by destruct (is_decoder_location a), (is_decoder_location b)).
  destruct (eqb _ _); [done|].
  assert (Habs : forall u v, abs_diff u v = abs_diff v u) by (intros; unfold abs_diff; lia).
  rewrite (Habs (loc_offset a)). destruct (loc_line a), (loc_line b); try done. by rewrite Habs.
Qed.

Lemma alias_parts a b :
  is_decoder_alias_pair a b = true ->
  loc_file_path a = loc_file_path b /\ loc_commit a = loc_commit b /\ is_decoder_location a = negb (is_decoder_location b).
Proof.
  unfold is_decoder_alias_pair. destruct (negb _ || _) eqn:E; [done|].
  apply orb_false_iff in E as [E1%negb_false_iff%bool_decide_eq_true E2%negb_false_iff%bool_decide_eq_true].
  destruct (is_decoder_location a), (is_decoder_location b); done.
Qed.

Lemma same_identity_decoder a b : location_identity a = location_identity b -> is_decoder_location a = is_decoder_location b.
Proof. intros [= Hs _ _ _]. unfold is_decoder_location. by rewrite Hs. Qed.

(** A location with the identity of an earlier one that was no alias of the
    group's first location is none either, because offsets ascend. *)
Lemma alias_monotone f a b :
  location_identity a = location_identity b ->
  (loc_file_path f = loc_file_path a -> loc_offset f <= loc_offset a) ->
  (loc_file_path a = loc_file_path b -> loc_offset a <= loc_offset b) ->
  is_decoder_alias_pair f b = true -> is_decoder_alias_pair f a = true.
Proof.
  intros Hid Hfa Hab. pose proof (same_identity_decoder _ _ Hid) as Hd. injection Hid as Hs Hf Hl Hc.
  unfold is_decoder_alias_pair. rewrite Hf, Hc, Hd, Hl.
  destruct (negb _ || _) eqn:E; [done|]. apply orb_false_iff in E as [E1%negb_false_iff%bool_decide_eq_true _].
  destruct (eqb _ _); [done|]. specialize (Hab Hf). rewrite Hf in Hfa. specialize (Hfa E1).
  destruct (loc_line f), (loc_line b); try done; rewrite !Z.leb_le; unfold abs_diff; lia.
Qed.

Lemma location_cmp_offset a b :
  location_cmp a b <> Gt -> loc_file_path (rm_location a) = loc_file_path (rm_location b) ->
  loc_offset (rm_location a) <= loc_offset (rm_location b).
Proof.
  unfold location_cmp. intros Hc Hf. rewrite Hf, (cmp_refl (option_cmp str_cmp)) in Hc. cbn [then_with] in Hc.
  destruct (Z.compare_spec (loc_offset (rm_location a)) (loc_offset (rm_location b))); [lia..|]. done.
Qed.

(** The location part of a group built from the matches [first :: p]. *)
Record locations_inv (first : RawMatch) (p : list RawMatch) (g : Group) : Prop := {
  lo_seen : forall x, x ∈ snd g <-> x ∈ location_identity <$> reported (fst g);
  lo_nodup : NoDup (location_identity <$> reported (fst g));
  lo_from : forall l, l ∈ reported (fst g) -> exists m, m ∈ first :: p /\ rm_location m = l;
  lo_first : is_decoder_location (dm_primary_location (fst g)) = true -> dm_primary_location (fst g) = rm_location first;
  lo_not_alias : is_decoder_location (dm_primary_location (fst g)) = true ->
    forall l, l ∈ dm_additional_locations (fst g) -> is_decoder_alias_pair (rm_location first) l = false;
  lo_covered : forall m, m ∈ first :: p ->
    location_identity (rm_location m) ∈ location_identity <$> reported (fst g) \/
    (is_decoder_location (dm_primary_location (fst g)) = false /\
     (is_decoder_alias_pair (dm_primary_location (fst g)) (rm_location m) = true \/
      (location_identity (rm_location m) = location_identity (rm_location first) /\
       is_decoder_alias_pair (dm_primary_location (fst g)) (rm_location first) = true))) }.

Lemma locations_new m : locations_inv m [] (new_group m).
Proof.
  constructor; unfold reported; cbn [new_group fst snd deduped_of dm_primary_location dm_additional_locations fmap list_fmap].
  - done.
  - apply NoDup_singleton.
  - intros l ->%list_elem_of_singleton. exists m. split; [left | done].
  - done.
  - intros _ l Hl. by apply not_elem_of_nil in Hl.
  - intros m0 ->%list_elem_of_singleton. left. left.
Qed.

Lemma snoc_elem {A} (x y : A) first p : x ∈ first :: p ++ [y] <-> x ∈ first :: p \/ x = y.
Proof. rewrite app_comm_cons, elem_of_app, list_elem_of_singleton. done. Qed.

(** An alias that becomes the primary location. *)
Lemma locations_promote first p d seen m :
  locations_inv first p (d, seen) -> (forall m', m' ∈ first :: p -> location_cmp m' m <> Gt) ->
  (forall m', m' ∈ p -> location_cmp first m' <> Gt) ->
  is_decoder_alias_pair (dm_primary_location d) (rm_location m) = true ->
  is_decoder_location (dm_primary_location d) = true -> is_decoder_location (rm_location m) = false ->
  locations_inv first (p ++ [m])
    (with_locations d (rm_location m) (dm_additional_locations d),
     set_insert (location_identity (rm_location m)) (shift_remove (location_identity (dm_primary_location d)) seen)).
Proof.
  intros [Hseen Hnd Hfrom Hfirst Hna Hcov] Hsort Hsortf Hal Hdec Hraw. unfold reported in *. cbn [fst snd] in *.
  set (loc := rm_location m) in *. set (pr := dm_primary_location d) in *. set (add := dm_additional_locations d) in *.
  specialize (Hfirst Hdec). specialize (Hna Hdec).
  cbn [fmap list_fmap] in Hnd. apply NoDup_cons in Hnd as [Hpr Hnd].
  assert (Hfresh : location_identity loc ∉ location_identity <$> add).
  { intros (a & Ha & Hin)%list_elem_of_fmap. destruct (Hfrom a) as (ma & Hma & <-); [by right|].
    assert (is_decoder_alias_pair (rm_location first) (rm_location ma) = true); [|by rewrite Hna in *].
    eapply (alias_monotone _ _ loc); [done| | |by rewrite <- Hfirst].
    - intros Hf. apply elem_of_cons in Hma as [-> | Hma]; [lia|]. apply location_cmp_offset; [by apply Hsortf | done].
    - intros Hf. apply location_cmp_offset; [by apply Hsort | done]. }
  constructor; unfold reported; cbn [fst snd with_locations dm_primary_location dm_additional_locations fmap list_fmap]; fold add.
  - intros x. unfold set_insert, shift_remove. 
    assert (Hrem : x ∈ List.filter (fun y => negb (bool_decide (y = location_identity pr))) seen <-> x ∈ location_identity <$> add).
    { rewrite list_elem_of_In, filter_In, <- list_elem_of_In, Hseen, negb_true_iff, bool_decide_eq_false.
      cbn [fmap list_fmap]. rewrite elem_of_cons. split; [tauto|]. intros Hx. split; [by right|]. intros ->. done. }
    case_decide as Hd.
    + exfalso. apply Hfresh. clear Hrem. rewrite list_elem_of_In, filter_In, <- list_elem_of_In, Hseen, negb_true_iff, bool_decide_eq_false in Hd.
      destruct Hd as [Hd1 Hd2]. cbn [fmap list_fmap] in Hd1. apply elem_of_cons in Hd1 as [|]; done.
    + rewrite elem_of_app, Hrem, list_elem_of_singleton, elem_of_cons. tauto.
  - by apply NoDup_cons.
  - intros l [-> | Hl]%elem_of_cons; [exists m; rewrite snoc_elem; auto|].
    destruct (Hfrom l) as (m' & ? & ?); [by right|]. exists m'. rewrite snoc_elem. auto.
  - congruence.
  - congruence.
  - intros m0 [Hm0 | ->]%snoc_elem; [|left; left]. destruct (Hcov m0 Hm0) as [Hid|[? _]]; [|congruence].
    apply elem_of_cons in Hid as [Hid|Hid]; [|left; by right]. right. split; [done|]. right.
    rewrite <- Hfirst. split; [done|]. by rewrite alias_sym.
Qed.

(** The other branches. *)
Lemma locations_drop first p d seen m :
  locations_inv first p (d, seen) -> is_decoder_alias_pair (dm_primary_location d) (rm_location m) = true ->
  is_decoder_location (dm_primary_location d) = false -> locations_inv first (p ++ [m]) (d, seen).
Proof.
  intros [Hseen Hnd Hfrom Hfirst Hna Hcov] Hal Hdec. constructor; try done.
  - intros l Hl. destruct (Hfrom l Hl) as (m' & ? & ?). exists m'. rewrite snoc_elem. auto.
  - intros m0 [Hm0 | ->]%snoc_elem; [by apply Hcov|]. right. auto.
Qed.

Lemma locations_add first p d seen m :
  locations_inv first p (d, seen) -> is_decoder_alias_pair (dm_primary_location d) (rm_location m) = false ->
  let '(fresh, seen') := insert_new_location_identity seen (rm_location m) in
  locations_inv first (p ++ [m])
    (if fresh then with_locations d (dm_primary_location d) (dm_additional_locations d ++ [rm_location m]) else d, seen').
Proof.
  intros [Hseen Hnd Hfrom Hfirst Hna Hcov] Hal. cbn [fst snd] in *. unfold insert_new_location_identity.
  destruct (decide (location_identity (rm_location m) ∈ seen)) as [Hin|Hout]; constructor; cbn [fst snd]; try done.
  - intros l Hl. destruct (Hfrom l Hl) as (m' & ? & ?). exists m'. rewrite snoc_elem. auto.
  - intros m0 [Hm0 | ->]%snoc_elem; [by apply Hcov|]. left. by apply Hseen.
  - intros x. unfold reported in *; cbn [with_locations dm_primary_location dm_additional_locations].
    rewrite app_comm_cons, fmap_app, !elem_of_app, Hseen. done.
  - unfold reported in *; cbn [with_locations dm_primary_location dm_additional_locations]. rewrite app_comm_cons, fmap_app.
    apply NoDup_app. split; [done|]. split; [|apply NoDup_singleton].
    intros x Hx ->%list_elem_of_singleton. by apply Hout, Hseen.
  - intros l. unfold reported in *; cbn [with_locations dm_primary_location dm_additional_locations].
    rewrite app_comm_cons, elem_of_app, list_elem_of_singleton. intros [Hl | ->]; [|exists m; rewrite snoc_elem; auto].
    destruct (Hfrom l Hl) as (m' & ? & ?). exists m'. rewrite snoc_elem. auto.
  - intros Hdec l. cbn [with_locations dm_primary_location dm_additional_locations] in *.
    rewrite elem_of_app, list_elem_of_singleton. intros [Hl | ->]; [by apply Hna|]. by rewrite <- Hfirst.
  - intros m0 Hm. unfold reported in *; cbn [with_locations dm_primary_location dm_additional_locations].
    rewrite (app_comm_cons (dm_additional_locations d)), fmap_app. apply snoc_elem in Hm as [Hm0 | ->].
    + destruct (Hcov m0 Hm0) as [?|?]; [left; apply elem_of_app; by left | by right].
    + left. apply elem_of_app. right. by apply list_elem_of_singleton.
Qed.

(** ** Groups *)

Definition header_of (first : RawMatch) (d : DedupedMatch) : Prop :=
  dm_detector_id d = rm_detector_id first /\ dm_detector_name d = rm_detector_name first /\
  dm_service d = rm_service first /\ dm_severity d = rm_severity first /\ dm_credential d = rm_credential first /\
  dm_credential_hash d = effective_credential_hash (rm_credential first) (rm_credential_hash first).

Lemma absorb_inv first p g m :
  locations_inv first p g -> signals_inv (first :: p) (fst g) -> header_of first (fst g) ->
  (forall m', m' ∈ first :: p -> location_cmp m' m <> Gt) -> (forall m', m' ∈ p -> location_cmp first m' <> Gt) ->
  locations_inv first (p ++ [m]) (absorb g m) /\ signals_inv (first :: p ++ [m]) (fst (absorb g m)) /\
  header_of first (fst (absorb g m)).
Proof.
  destruct g as [d seen]. intros Hl Hs Hh Hsort Hsortf. unfold absorb.
  assert (Hgo : forall d' seen', locations_inv first (p ++ [m]) (d', seen') -> signals_inv (first :: p) d' -> header_of first d' ->
    locations_inv first (p ++ [m]) (merge_signals d' m, seen') /\ signals_inv (first :: p ++ [m]) (merge_signals d' m) /\
    header_of first (merge_signals d' m)).
  { intros d' seen' [] Hs' Hh'. split; [by constructor|]. split; [|done]. rewrite app_comm_cons. by apply signals_merge. }
  assert (Hsig : forall pr add, signals_inv (first :: p) (with_locations d pr add)) by (intros; destruct Hs; by constructor).
  destruct (is_decoder_alias_pair (dm_primary_location d) (rm_location m)) eqn:Hal.
  - destruct (alias_parts _ _ Hal) as (_ & _ & Hd).
    destruct (is_decoder_location (dm_primary_location d)) eqn:Hdec.
    + destruct (is_decoder_location (rm_location m)) eqn:Hm; [done|]. cbn [andb negb].
      apply Hgo; [by apply locations_promote | apply Hsig | done].
    + cbn [andb]. apply Hgo; [by apply locations_drop | done | done].
  - pose proof (locations_add first p d seen m Hl Hal) as Ha.
    destruct (insert_new_location_identity seen (rm_location m)) as [[] seen']; apply Hgo; auto.
Qed.

Lemma group_fold_inv first p :
  StronglySorted (fun a b => location_cmp a b <> Gt) (first :: p) ->
  let g := foldl absorb (new_group first) p in
  locations_inv first p g /\ signals_inv (first :: p) (fst g) /\ header_of first (fst g).
Proof.
  induction p as [|m p IH] using rev_ind; intros Hsort.
  { split; [apply locations_new|]. split; [apply signals_new | done]. }
  rewrite foldl_app. cbn [foldl]. rewrite app_comm_cons in Hsort.
  assert (Hs2 : forall m', m' ∈ first :: p -> location_cmp m' m <> Gt).
  { intros m' Hm'. apply (StronglySorted_app_1_elem_of _ _ _ m' m Hsort Hm'). by apply list_elem_of_singleton. }
  apply StronglySorted_app_1_l in Hsort. destruct (IH Hsort) as (Hl & Hg & Hh).
  apply absorb_inv; try done. inversion_clear Hsort as [|? ? _ Hf]. by rewrite Forall_forall in Hf.
Qed.


Lemma of_key_elem scope k ms m : m ∈ of_key scope k ms <-> m ∈ ms /\ match_key scope m = k.
Proof. unfold of_key. by rewrite !list_elem_of_In, filter_In, bool_decide_eq_true. Qed.

(** The groups in output order. *)
Lemma sorted_groups scope ms :
  let gs := sort_by (fun a b => key_cmp (fst a) (fst b)) (group_matches scope ms) in
  StronglySorted (fun a b => key_cmp a b = Lt) (fst <$> gs) /\
  (forall k, k ∈ fst <$> gs <-> exists m, m ∈ ms /\ match_key scope m = k) /\
  Forall (fun kg => group_fold (of_key scope (fst kg) ms) = Some (snd kg)) gs.
Proof.
  intros gs. destruct (group_matches_spec scope ms) as [Hnd Hel].
  assert (Hperm : gs ≡ₚ group_matches scope ms) by apply sort_by_perm.
  assert (Hnd' : NoDup (fst <$> gs)) by (by rewrite Hperm).
  split; [|split].
  - assert (Hsorted : StronglySorted (fun a b => key_cmp (fst a) (fst b) <> Gt) gs).
    { apply (sort_by_sorted _ (CmpLaws0 := cmp_on_laws fst key_cmp _)). }
    clear - Hsorted Hnd'. induction Hsorted as [|[k g] l Hl IH Hf]; [constructor|].
    cbn [fmap list_fmap] in *. apply NoDup_cons in Hnd' as [Hk Hnd]. constructor; [by apply IH|].
    apply Forall_forall. intros k' ([k0 g0] & -> & Hin)%list_elem_of_fmap. rewrite Forall_forall in Hf. specialize (Hf _ Hin).
    cbn [fst] in *. destruct (key_cmp k k0) eqn:E; [|done|done].
    apply (cmp_eq key_cmp) in E as ->. destruct Hk. apply list_elem_of_fmap. by exists (k0, g0).
  - intros k. rewrite Hperm. split.
    + intros ([k0 g0] & -> & Hin)%list_elem_of_fmap. apply Hel in Hin. cbn [fst].
      destruct (of_key scope k0 ms) as [|m l] eqn:E; [done|]. exists m. apply of_key_elem. rewrite E. left.
    + intros (m & Hm & Hk). destruct (group_fold (of_key scope k ms)) as [g|] eqn:E.
      * apply Hel in E. apply list_elem_of_fmap. by exists (k, g).
      * assert (Hin : m ∈ of_key scope k ms) by (by apply of_key_elem).
        destruct (of_key scope k ms); [by apply not_elem_of_nil in Hin | done].
  - apply Forall_forall. intros [k g] Hin. rewrite Hperm in Hin. by apply Hel in Hin.
Qed.

(** What one reported finding says about the matches of its group: its identity
    and severity are the first match's; its evidence, entropy and confidence are
    the strongest of the group and belong to one of its matches; its text for a
    companion joins the values of its matches, none lost, and is absent only if no
    match has one; no location is reported twice; and every match lies at a reported
    location, up to the rule that a decoded location within the alias distance
    of the primary, or of the primary it was promoted from, is not repeated. *)
Record summarizes (first : RawMatch) (rest : list RawMatch) (d : DedupedMatch) : Prop := {
  su_header : header_of first d;
  su_signals : signals_inv (first :: rest) d;
  su_distinct : NoDup (location_identity <$> reported d);
  su_from : forall l, l ∈ reported d -> exists m, m ∈ first :: rest /\ rm_location m = l;
  su_covered : forall m, m ∈ first :: rest ->
    location_identity (rm_location m) ∈ location_identity <$> reported d \/
    is_decoder_alias_pair (dm_primary_location d) (rm_location m) = true \/
    (location_identity (rm_location m) = location_identity (rm_location first) /\
     is_decoder_alias_pair (dm_primary_location d) (rm_location first) = true) }.

(** C11. Deduplication loses no finding: with a grouping scope the output has
    exactly one finding per key (detector, credential and, for file scope, file)
    that occurs in the input, in strictly ascending key order, and each finding
    summarises all matches of its key. *)
Theorem dedup_summarizes (ms : list RawMatch) (scope : DedupScope) :
  scope <> ScopeNone ->
  exists keys, StronglySorted (fun a b => key_cmp a b = Lt) keys /\
    (forall k, k ∈ keys <-> exists m, m ∈ ms /\ match_key scope m = k) /\
    Forall2 (fun k d => exists first rest, of_key scope k (sort_by location_cmp ms) = first :: rest /\ summarizes first rest d)
      keys (dedup_matches ms scope).
Proof.
  intros Hs. set (sorted := sort_by location_cmp ms). destruct (sorted_groups scope sorted) as (H1 & H2 & H3). cbv zeta in *.
  set (gs := sort_by _ (group_matches scope sorted)) in *. exists (fst <$> gs). split; [done|]. split.
  { intros k. rewrite H2. split; intros (m & Hm & ?); exists m; (split; [|done]); by apply (elem_of_sort_by location_cmp). }
  replace (dedup_matches ms scope) with (map (fun kg => fst (snd kg)) gs) by (by destruct scope).
  clear H1 H2. induction H3 as [|[k g] l Hg Hl IH]; cbn [fmap list_fmap map fst snd] in *; [constructor|].
  constructor; [|done]. destruct (of_key scope k sorted) as [|first rest] eqn:E; [done|].
  exists first, rest. split; [done|]. injection Hg as <-.
  destruct (group_fold_inv first rest) as ([] & ? & ?).
  { rewrite <- E. apply filter_sorted. apply (sort_by_sorted location_cmp). }
  constructor; try done. intros m Hm. destruct (lo_covered0 m Hm) as [?|[_ ?]]; tauto.
Qed.

(** The findings do not depend on the order in which the scanner delivered
    the matches, as long as no two matches agree on the whole sort key. *)
Theorem dedup_order_independent (ms ms' : list RawMatch) (scope : DedupScope) :
  scope <> ScopeNone -> ms ≡ₚ ms' ->
  (forall a b, a ∈ ms -> b ∈ ms -> location_cmp a b = Eq -> a = b) ->
  dedup_matches ms scope = dedup_matches ms' scope.
Proof.
  intros Hs Hp Hu. assert (He : sort_by location_cmp ms = sort_by location_cmp ms') by (by apply (sort_by_unique location_cmp)).
  unfold dedup_matches. by destruct scope; rewrite ?He.
Qed.

End proofs.

(** ** Witnesses *)

Section witnesses.
#[local] Instance sample_sha256 : Sha256Fn := fun b => b.
#[local] Instance sample_suffixes : DecoderSuffixes := [ $"/base64" ].

(** A raw match and its decoded twin on the next line. *)
Definition twin (source : str) (offset line : Z) : RawMatch :=
  mkRawMatch $"d" [] [] High $"tok" CredentialHash_ZERO ∅
    (mkLocation source (Some $"a.env") (Some line) offset None None None) (Some f64_one) (Some f64_half)
    (rm_evidence sample_match).
Definition twins : list RawMatch := [twin $"fs" 9 2; twin $"fs/base64" 3 1].

Lemma dedup_summarizes_witness :
  exists keys, length (dedup_matches twins ScopeCredential) = 1%nat /\
    Forall2 (fun k d => exists first rest, of_key ScopeCredential k (sort_by location_cmp twins) = first :: rest /\
      summarizes first rest d) keys (dedup_matches twins ScopeCredential).
Proof.
  destruct (dedup_summarizes twins ScopeCredential ltac:(done)) as (keys & _ & _ & Hf).
  exists keys. split; [by vm_compute | exact Hf].
Defined.

End witnesses.
