(* ===== verification/DedupCross.v ===== *)
(** * Collapsing the detectors of one credential ([crates/core/src/dedup.rs])

    [dedup_cross_detector] of [Dedup]: one finding per credential and file. *)

From S2P Require Import Prelude Float64 Evidence Finding VerifierCache Dedup.

Section proofs.
Context `{Sha256Fn} `{DecoderSuffixes}.

(** ** Collapsing the detectors of a credential *)

Definition keyed {K A} `{EqDecision K} (f : A -> K) (k : K) (l : list A) : list A :=
  List.filter (fun m => bool_decide (f m = k)) l.

Lemma keyed_elem {K A} `{EqDecision K} (f : A -> K) k l x : x ∈ keyed f k l <-> x ∈ l /\ f x = k.
Proof. unfold keyed. by rewrite !list_elem_of_In, filter_In, bool_decide_eq_true. Qed.

Lemma push_group_lookup {K A} `{EqDecision K} (k : K) (m : A) gs :
  NoDup (fst <$> gs) ->
  NoDup (fst <$> push_group k m gs) /\
  (forall k', k' ∈ fst <$> push_group k m gs <-> k' = k \/ k' ∈ fst <$> gs) /\
  (forall k' l, (k', l) ∈ push_group k m gs <->
     if decide (k' = k) then (exists l0, (k, l0) ∈ gs /\ l = l0 ++ [m]) \/ (~ k ∈ (fst <$> gs) /\ l = [m]) else (k', l) ∈ gs).
Proof.
  induction gs as [|[k0 l0] gs IH]; cbn [push_group fmap list_fmap fst]; intros Hnd.
  - split; [apply NoDup_singleton|]. split.
    { intros k'. rewrite list_elem_of_singleton. set_solver. }
    intros k' l. rewrite list_elem_of_singleton. destruct (decide (k' = k)) as [->|Hne].
    + split; [intros [= ->]; right; split; [apply not_elem_of_nil | done]|].
      intros [(? & ?%not_elem_of_nil & _)|[_ ->]]; done.
    + split; [by intros [=] | by intros ?%not_elem_of_nil].
  - apply NoDup_cons in Hnd as [Hk0 Hnd].
    assert (Hno : forall l, (k0, l) ∈ gs -> False) by (intros l Hl; apply Hk0, list_elem_of_fmap; by exists (k0, l)).
    destruct (decide (k0 = k)) as [->|Hne0]; cbn [fmap list_fmap fst].
    + split; [by apply NoDup_cons|]. split; [intros k'; rewrite elem_of_cons; tauto|].
      intros k' l. rewrite elem_of_cons. destruct (decide (k' = k)) as [->|Hne].
      * split.
        -- intros [[= ->]|Hl]; [|by destruct (Hno l)]. left. exists l0. split; [by left | done].
        -- intros [(l1 & [[= ->]|Hl]%elem_of_cons & ->)|[Hn _]]; [by left | by destruct (Hno l1) |]. destruct Hn. left.
      * rewrite elem_of_cons. split; (intros [[=]|?]; [done | by right]).
    + destruct (IH Hnd) as (IH1 & IH2 & IH3). split.
      { apply NoDup_cons. split; [|done]. rewrite IH2. tauto. }
      split; [intros k'; rewrite !elem_of_cons, IH2; tauto|].
      intros k' l. rewrite elem_of_cons, IH3. destruct (decide (k' = k)) as [->|Hne].
      * split.
        -- intros [[=]|[(l1 & Hl & ->)|[Hn ->]]]; [done | left; exists l1; split; [by right | done] |].
           right. split; [|done]. rewrite elem_of_cons. intros [? | ?]; [congruence | done].
        -- intros [(l1 & [[=]|Hl]%elem_of_cons & ->)|[Hn ->]]; [done | right; left; by exists l1 |].
           right. right. split; [|done]. intros Hin. apply Hn. by right.
      * by rewrite elem_of_cons.
Qed.

Lemma push_groups_spec {K A} `{EqDecision K} (f : A -> K) ds :
  let gs := foldl (fun gs m => push_group (f m) m gs) [] ds in
  NoDup (fst <$> gs) /\ (forall k l, (k, l) ∈ gs <-> l = keyed f k ds /\ l <> []).
Proof.
  induction ds as [|m ds IH] using rev_ind; intros gs; subst gs.
  { split; [apply NoDup_nil_2|]. intros k l. split; [by intros ?%not_elem_of_nil | by intros [-> ?]]. }
  rewrite foldl_app. cbn [foldl]. destruct IH as [IHn IHe]. set (gs := foldl _ [] ds) in *.
  destruct (push_group_lookup (f m) m gs IHn) as (H1 & _ & H3). split; [done|].
  intros k l. rewrite H3. unfold keyed. rewrite List.filter_app. cbn [List.filter]. fold (keyed f k ds).
  destruct (decide (k = f m)) as [->|Hne].
  - rewrite bool_decide_true by done. split.
    + intros [(l0 & [-> _]%IHe & ->)|[Hno ->]]; [by split; [|destruct (keyed f (f m) ds)]|].
      destruct (keyed f (f m) ds) as [|x xs] eqn:E; [done|]. destruct Hno. apply list_elem_of_fmap.
      exists (f m, x :: xs). split; [done|]. apply IHe. by rewrite E.
    + intros [-> _]. destruct (keyed f (f m) ds) as [|x xs] eqn:E.
      * right. split; [|done]. intros ([k1 l1] & Hk & [-> Hl]%IHe)%list_elem_of_fmap. simpl in Hk. subst k1. by rewrite E in Hl.
      * left. exists (x :: xs). split; [|done]. apply IHe. by rewrite E.
  - rewrite bool_decide_false, app_nil_r by congruence. apply IHe.
Qed.

#[local] Instance winner_cmp_laws : CmpLaws winner_cmp.
Proof.
  change (CmpLaws (fun x y => winner_cmp x y)). unfold winner_cmp.
  apply cmp_then_laws; [apply (cmp_flip_laws _), (cmp_on_laws (fun d => default f64_zero (dm_confidence d)) total_cmp _)|].
  apply cmp_then_laws; [apply (cmp_flip_laws _), (cmp_on_laws (fun d => severity_u8 (dm_severity d)) Z.compare _)|].
  solve_cmp_laws.
Qed.
#[local] Instance out_cmp_laws : CmpLaws out_cmp.
Proof. change (CmpLaws (fun x y => out_cmp x y)). unfold out_cmp. solve_cmp_laws. Qed.

(** Recording locations keeps the identities distinct and complete. *)
Lemma note_locations locs seen added :
  (forall x, x ∈ location_identity <$> added -> x ∈ seen) ->
  let '(seen', added') := foldl note_location (seen, added) locs in
  (forall x, x ∈ seen' <-> x ∈ seen \/ x ∈ location_identity <$> locs) /\
  (exists new, added' = added ++ new /\ new ⊆ locs /\ NoDup (location_identity <$> new) /\
     (forall x, x ∈ location_identity <$> new <-> x ∈ location_identity <$> locs /\ x ∉ seen)).
Proof.
  revert seen added. induction locs as [|l locs IH]; intros seen added Hsub; cbn [foldl].
  { split; [intros x; cbn; rewrite elem_of_nil; tauto|]. exists []. rewrite app_nil_r. split; [done|].
    split; [set_solver|]. split; [apply NoDup_nil_2|]. intros x. cbn. rewrite elem_of_nil. tauto. }
  unfold note_location at 2, insert_new_location_identity. destruct (decide (location_identity l ∈ seen)) as [Hin|Hout].
  - specialize (IH seen added Hsub). destruct (foldl note_location _ locs) as [seen' added']. destruct IH as [H1 (new & -> & Hsl & H2 & H3)].
    cbn [fmap list_fmap]. split; [intros x; rewrite H1, elem_of_cons; naive_solver|].
    exists new. split; [done|]. split; [set_solver|]. split; [done|]. intros x. rewrite H3, elem_of_cons. naive_solver.
  - specialize (IH (seen ++ [location_identity l]) (added ++ [l])).
    destruct (foldl note_location _ locs) as [seen' added']. destruct IH as [H1 (new & -> & Hsl & H2 & H3)].
    { intros x. rewrite fmap_app, !elem_of_app. intros [Hx|Hx]; [left; by apply Hsub | by right]. }
    cbn [fmap list_fmap]. split; [intros x; rewrite H1, elem_of_app, list_elem_of_singleton, elem_of_cons; tauto|].
    exists (l :: new). rewrite <- app_assoc. split; [done|]. split; [set_solver|]. cbn [fmap list_fmap]. split.
    + apply NoDup_cons. split; [|done]. rewrite H3, elem_of_app, list_elem_of_singleton. tauto.
    + intros x. rewrite !elem_of_cons, H3, elem_of_app, list_elem_of_singleton.
      destruct (decide (x = location_identity l)) as [->|]; tauto.
Qed.

Definition same_winner (w c : DedupedMatch) : Prop :=
  dm_detector_id c = dm_detector_id w /\ dm_detector_name c = dm_detector_name w /\ dm_service c = dm_service w /\
  dm_severity c = dm_severity w /\ dm_credential c = dm_credential w /\ dm_credential_hash c = dm_credential_hash w /\
  dm_confidence c = dm_confidence w /\ dm_primary_location c = dm_primary_location w /\
  provenance (dm_evidence c) = provenance (dm_evidence w).

Definition dm_tier (d : DedupedMatch) : Z := tier_u8 (verdict_tier (dm_evidence d)).

(** A finding [c] that stands for the findings [l] of one credential in one
    file, won by [w]. *)
Record stands_for (w : DedupedMatch) (l : list DedupedMatch) (c : DedupedMatch) : Prop := {
  sf_winner : same_winner w c;
  sf_tier : forall x, x ∈ l -> dm_tier x <= dm_tier c;
  sf_tier_in : exists x, x ∈ l /\ dm_tier c = dm_tier x;
  sf_entropy : forall x e, x ∈ l -> dm_entropy x = Some e -> exists y, dm_entropy c = Some y /\ total_cmp e y <> Gt;
  sf_companions : dom (dm_companions w) ⊆ dom (dm_companions c);
  sf_located : forall x loc, x ∈ l -> loc ∈ reported x -> location_identity loc ∈ location_identity <$> reported c;
  sf_from : forall loc, loc ∈ reported c -> exists x, x ∈ l /\ loc ∈ reported x;
  sf_distinct : NoDup (location_identity <$> reported w) -> NoDup (location_identity <$> reported c) }.

Lemma stronger_tier x y :
  tier_u8 (verdict_tier (stronger x y)) = Z.max (tier_u8 (verdict_tier x)) (tier_u8 (verdict_tier y)).
Proof.
  rewrite stronger_max. unfold verdict_cmp.
  destruct (Z.compare_spec (tier_u8 (verdict_tier y)) (tier_u8 (verdict_tier x))) as [Ht|Ht|Ht]; cbn [then_with].
  - destruct (then_with _ _); lia.
  - lia.
  - lia.
Qed.

Lemma with_reason_tier e v : verdict_tier (with_reason e (reason_code v)) = verdict_tier v.
Proof. done. Qed.

Lemma absorb_loser_inv w l c seen idx loser :
  stands_for w l c -> (forall x, x ∈ seen <-> x ∈ location_identity <$> reported c) ->
  let '(c', seen') := absorb_loser (c, seen) (idx, loser) in
  stands_for w (l ++ [loser]) c' /\ (forall x, x ∈ seen' <-> x ∈ location_identity <$> reported c').
Proof.
  intros [Hw Ht (xt & Hxt & Htin) He Hco Hl Hfr Hdi] Hseen. unfold absorb_loser, merge_cross_detector_locations.
  cbn [dm_additional_locations dm_primary_location].
  pose proof (note_locations (reported loser) seen (dm_additional_locations c)) as Hnote.
  unfold reported in Hnote at 1. destruct (foldl note_location _ _) as [seen' added'].
  destruct Hnote as [Hs' (new & -> & Hsub & Hnd & Hnew)].
  { intros x Hx. apply Hseen. unfold reported. cbn [fmap list_fmap]. by right. }
  assert (Hrep : forall a b, location_identity <$> (a :: b ++ new) = (location_identity <$> (a :: b)) ++ (location_identity <$> new))
    by (intros a b; by rewrite app_comm_cons, fmap_app).
  assert (Hin : forall x, x ∈ l ++ [loser] <-> x ∈ l \/ x = loser) by (intros; by rewrite elem_of_app, list_elem_of_singleton).
  split.
  - constructor; unfold reported; cbn [with_locations dm_primary_location dm_additional_locations dm_evidence dm_entropy dm_companions].
    + destruct Hw as (? & ? & ? & ? & ? & ? & ? & ? & ?). by repeat split.
    + intros x Hx. unfold dm_tier. cbn [dm_evidence with_locations]. rewrite with_reason_tier, stronger_tier.
      apply Hin in Hx as [Hx | ->]; [specialize (Ht x Hx)|]; unfold dm_tier in *; lia.
    + unfold dm_tier in *. cbn [dm_evidence with_locations]. rewrite with_reason_tier, stronger_tier.
      destruct (Z.max_spec (tier_u8 (verdict_tier (dm_evidence c))) (tier_u8 (verdict_tier (dm_evidence loser)))) as [[_ ->]|[_ ->]];
        [exists loser | exists xt]; rewrite Hin; auto.
    + intros x e [Hx | ->]%Hin Hxe; [|apply max_entropy_ge; by right].
      destruct (He x e Hx Hxe) as (y & Hy & Hey). destruct (max_entropy_ge (dm_entropy c) (dm_entropy loser) y) as (z & Hz & Hyz); [by left|].
      exists z. split; [done|]. by eapply (cmp_trans total_cmp).
    + unfold or_insert. case_match; [done|]. rewrite dom_insert. set_solver.
    + intros x loc Hx Hloc. rewrite Hrep, elem_of_app.
      destruct (decide (location_identity loc ∈ seen)) as [Hy|Hn]; [left; by apply Hseen|].
      right. apply Hnew. split; [|done]. apply Hin in Hx as [Hx | ->].
      * destruct Hn. apply Hseen. by eapply Hl.
      * by apply list_elem_of_fmap_2.
    + intros loc. rewrite app_comm_cons, elem_of_app. intros [Hloc|Hloc].
      * destruct (Hfr loc Hloc) as (x & ? & ?). exists x. rewrite Hin. auto.
      * exists loser. rewrite Hin. split; [by right|]. by apply Hsub.
    + intros Hndw. rewrite Hrep. apply NoDup_app. split; [by apply Hdi|]. split; [|done].
      intros x Hx Hx'. apply Hnew in Hx' as [_ Hn]. apply Hn, Hseen, Hx.
  - intros x. rewrite Hs'. unfold reported. cbn [with_locations dm_primary_location dm_additional_locations].
    rewrite Hrep, elem_of_app, Hnew, Hseen. unfold reported.
    destruct (decide (x ∈ seen)) as [Hy|Hn]; rewrite Hseen in *; unfold reported in *; tauto.
Qed.

Lemma absorb_losers_inv w l c seen losers :
  stands_for w l c -> (forall x, x ∈ seen <-> x ∈ location_identity <$> reported c) ->
  forall n, stands_for w (l ++ losers) (fst (foldl absorb_loser (c, seen) (zip (seq n (length losers)) losers))).
Proof.
  revert l c seen. induction losers as [|loser losers IH]; intros l c seen Hs Hseen n; cbn [length seq zip foldl].
  { rewrite app_nil_r. exact Hs. }
  pose proof (absorb_loser_inv w l c seen n loser Hs Hseen) as Hstep. destruct (absorb_loser (c, seen) (n, loser)) as [c' seen'].
  destruct Hstep as [Hs' Hseen']. replace (l ++ loser :: losers) with ((l ++ [loser]) ++ losers) by (by rewrite <- app_assoc).
  by apply IH.
Qed.

Lemma stands_for_self w : stands_for w [w] w.
Proof.
  assert (Hone : forall x, x ∈ [w] <-> x = w) by (intros; apply list_elem_of_singleton).
  constructor; [by unfold same_winner | | | | done | | | done].
  - by intros x ->%Hone.
  - exists w. by rewrite Hone.
  - intros x e ->%Hone He. exists e. by rewrite (cmp_refl total_cmp).
  - intros x loc ->%Hone Hl. by apply list_elem_of_fmap_2.
  - intros loc Hl. exists w. by rewrite Hone.
Qed.

Lemma stands_for_perm w l l' c : l ≡ₚ l' -> stands_for w l c -> stands_for w l' c.
Proof.
  intros Hp []. constructor; try done.
  - intros x. rewrite <- Hp. apply sf_tier0.
  - destruct sf_tier_in0 as (x & ? & ?). exists x. by rewrite <- Hp.
  - intros x e. rewrite <- Hp. apply sf_entropy0.
  - intros x loc. rewrite <- Hp. apply sf_located0.
  - intros loc Hl. destruct (sf_from0 loc Hl) as (x & ? & ?). exists x. by rewrite <- Hp.
Qed.

Lemma collapse_spec l :
  l <> [] -> exists w c, collapse l = [c] /\ w ∈ l /\ (forall x, x ∈ l -> winner_cmp w x <> Gt) /\ stands_for w l c.
Proof.
  intros Hne. destruct l as [|a [|b l]]; [done|..].
  - exists a, a. split; [done|]. split; [left|]. split; [|apply stands_for_self].
    intros x ->%list_elem_of_singleton. by rewrite (cmp_refl winner_cmp).
  - unfold collapse. pose proof (sort_by_perm winner_cmp (a :: b :: l)) as Hp.
    pose proof (sort_by_sorted winner_cmp (a :: b :: l)) as Hs.
    destruct (sort_by winner_cmp (a :: b :: l)) as [|w losers]; [by apply Permutation_nil_l in Hp|].
    eexists w, _. split; [done|]. split; [rewrite <- Hp; left|]. split.
    { intros x. rewrite <- Hp. inversion_clear Hs as [|? ? _ Hf]. rewrite Forall_forall in Hf.
      intros [-> | Hx]%elem_of_cons; [by rewrite (cmp_refl winner_cmp) | by apply Hf]. }
    eapply stands_for_perm; [exact Hp|]. change (w :: losers) with ([w] ++ losers). apply absorb_losers_inv; [apply stands_for_self|].
    intros x. pose proof (note_locations (reported w) [] []) as Hn. unfold reported in Hn at 1.
    destruct (foldl note_location _ _) as [seen added]. cbn [fst].
    destruct Hn as [Hn _]; [by intros y ?%not_elem_of_nil|]. rewrite Hn, elem_of_nil. tauto.
Qed.

(** Collapsing detectors keeps exactly one finding per credential and file:
    the one of the winning detector, whose evidence tier and entropy are the
    strongest of all findings it stands for, and which reports every location
    of theirs, none of them invented and none twice. *)
Theorem cross_detector_collapse (ds : list DedupedMatch) :
  let out := dedup_cross_detector ds in
  NoDup (cross_key <$> out) /\
  (forall k, k ∈ cross_key <$> out <-> k ∈ cross_key <$> ds) /\
  (forall c, c ∈ out -> exists w, w ∈ keyed cross_key (cross_key c) ds /\
     (forall x, x ∈ keyed cross_key (cross_key c) ds -> winner_cmp w x <> Gt) /\
     stands_for w (keyed cross_key (cross_key c) ds) c).
Proof.
  intros out. subst out. unfold dedup_cross_detector. destruct (Nat.ltb_spec (length ds) 2) as [Hlt|Hge].
  { destruct ds as [|d [|? ?]]; [| |simpl in Hlt; lia].
    - split; [apply NoDup_nil_2|]. split; [done|]. by intros c ?%not_elem_of_nil.
    - split; [apply NoDup_singleton|]. split; [done|]. intros c ->%list_elem_of_singleton. exists d.
      unfold keyed. cbn [List.filter]. rewrite bool_decide_true by done. split; [by apply list_elem_of_singleton|].
      split; [|apply stands_for_self]. intros x ->%list_elem_of_singleton. by rewrite (cmp_refl winner_cmp). }
  destruct (push_groups_spec cross_key ds) as [Hnd Hel]. cbv zeta in *. set (gs := foldl _ [] ds) in *.
  assert (Hgs : Forall (fun kg => exists w c, collapse (snd kg) = [c] /\ w ∈ snd kg /\ (forall x, x ∈ snd kg -> winner_cmp w x <> Gt) /\
    stands_for w (snd kg) c /\ cross_key c = fst kg /\ snd kg = keyed cross_key (fst kg) ds) gs).
  { apply Forall_forall. intros [k l] Hin. apply Hel in Hin as [-> Hne]. cbn [fst snd].
    destruct (collapse_spec _ Hne) as (w & c & H1 & H2 & H3 & H4). exists w, c. repeat (split; [done|]). split; [|done].
    apply keyed_elem in H2 as [_ <-]. destruct H4 as [(? & ? & ? & ? & ? & Hh & ? & Hp & ?)]. unfold cross_key. by rewrite Hh, Hp. }
  assert (Hkeys : cross_key <$> concat (map (fun kg => collapse (snd kg)) gs) = fst <$> gs).
  { clear - Hgs. induction Hgs as [|kg gs (w & c & Hc & _ & _ & _ & Hk & _) Hgs IH]; [done|]. cbn [map concat fmap list_fmap].
    by rewrite Hc, fmap_app, IH, <- Hk. }
  split; [|split].
  - rewrite (sort_by_perm out_cmp), Hkeys. done.
  - intros k. rewrite (sort_by_perm out_cmp), Hkeys. split.
    + intros ([k0 l] & -> & [-> Hne]%Hel)%list_elem_of_fmap. cbn [fst].
      destruct (keyed cross_key k0 ds) as [|x xs] eqn:E; [done|].
      assert (Hx : x ∈ keyed cross_key k0 ds) by (rewrite E; left). apply keyed_elem in Hx as [Hx <-]. by apply list_elem_of_fmap_2.
    + intros (x & -> & Hx)%list_elem_of_fmap. apply list_elem_of_fmap. exists (cross_key x, keyed cross_key (cross_key x) ds).
      split; [done|]. apply Hel. split; [done|]. intros E.
      assert (Hx' : x ∈ keyed cross_key (cross_key x) ds) by (by apply keyed_elem). rewrite E in Hx'. by apply not_elem_of_nil in Hx'.
  - intros c. rewrite elem_of_sort_by, list_elem_of_In, in_concat. intros (l & (kg & <- & Hkg)%in_map_iff & Hc).
    rewrite Forall_forall in Hgs. destruct (Hgs kg) as (w & c' & Hcol & Hw & Hmin & Hst & Hk & Hl); [by apply list_elem_of_In|].
    rewrite Hcol in Hc. destruct Hc as [<-|[]]. rewrite Hk, <- Hl. by exists w.
Qed.

End proofs.
