(* ===== verification/Checksum.v ===== *)
(** * Offline token validators ([crates/scanner/src/checksum/])

    CRC32 and base62 suffixes, the fine-grained layout, UUID, hex and Luhn
    shapes, the per-detector validator sets, and the first-byte index with its
    result precedence.  Regular expressions, the base64 engines and the JWT
    analysis are parameters. *)

From S2P Require Import Prelude Float64 Utf8.

(** ** CRC32 *)

Definition CRC_POLY : Z := 0xEDB88320.

(** One round of the table generator. *)
Definition crc_bit (crc : Z) : Z :=
  if negb (Z.land crc 1 =? 0) then Z.lxor CRC_POLY (Z.shiftr crc 1) else Z.shiftr crc 1.

Fixpoint crc_bits (n : nat) (crc : Z) : Z :=
  match n with O => crc | S n' => crc_bits n' (crc_bit crc) end.

Definition CRC_TABLE : list Z := map (fun i => crc_bits 8 (Z.of_nat i)) (seq 0 256).

Definition crc_step (crc byte : Z) : Z :=
  Z.lxor (default 0 (CRC_TABLE !! Z.to_nat (Z.land (Z.lxor crc byte) 0xFF))) (Z.shiftr crc 8).

Definition crc32 (data : bytes) : Z := Z.lxor (foldl crc_step 0xFFFFFFFF data) 0xFFFFFFFF.

(** ** Base62 *)

Definition BASE62_DIGITS : bytes := $"0123456789ABCDEFGHIJKLMNOPQRSTUVWXYZabcdefghijklmnopqrstuvwxyz".

Definition base62_digit (value : Z) : Z := default 0 (BASE62_DIGITS !! Z.to_nat (value mod 62)).

(** [while value > 0]: the digits of a [u32], least significant first; six
    rounds are enough since 62^6 > 2^32. *)
Fixpoint base62_rev (fuel : nat) (value : Z) : str :=
  match fuel with
  | O => []
  | S fuel' => if value =? 0 then [] else base62_digit value :: base62_rev fuel' (value / 62)
  end.

Definition base62_encode_u32 (value : Z) (width : nat) : str :=
  if value =? 0 then replicate width 48
  else
    let r := base62_rev 6 value in
    rev (r ++ replicate (width - length r) 48).

Fixpoint base62_matches_rev (value : Z) (encoded_rev : bytes) : bool :=
  match encoded_rev with
  | [] => value =? 0
  | actual :: rest => if negb (actual =? base62_digit value) then false else base62_matches_rev (value / 62) rest
  end.

Definition base62_u32_matches (value : Z) (encoded : bytes) : bool := base62_matches_rev value (rev encoded).

(** ** Verdicts *)

Inductive ChecksumResult := CValid | CStructurallyValid | CInvalid | CNotApplicable.

#[export] Instance ChecksumResult_eq_dec : EqDecision ChecksumResult.
Proof. solve_decision. Defined.

Record ChecksumConfidenceDecision := mkDecision {
  cd_result : ChecksumResult;
  cd_valid_confidence_floor : option f64;
  cd_claimed_family : bool;
  cd_proves_body_provenance : bool }.

#[export] Instance ChecksumConfidenceDecision_eq_dec : EqDecision ChecksumConfidenceDecision.
Proof. solve_decision. Defined.

Definition decision_new (r : ChecksumResult) (floor : option f64) (proves : bool) : ChecksumConfidenceDecision :=
  mkDecision r floor true proves.
Definition not_applicable : ChecksumConfidenceDecision := mkDecision CNotApplicable None false false.

(** 0.9 as the nearest binary64. *)
Definition CHECKSUM_VALID_FLOOR : f64 := 0x3FECCCCCCCCCCCCD.

Definition apply_checksum_decision_confidence (confidence : f64) (decision : ChecksumConfidenceDecision)
    (body_is_documentation_sample : bool) : option f64 :=
  let floor_lifts := negb body_is_documentation_sample || cd_proves_body_provenance decision in
  match cd_result decision with
  | CInvalid => None
  | CValid => if floor_lifts then Some (f64_max confidence (default CHECKSUM_VALID_FLOOR (cd_valid_confidence_floor decision)))
              else Some confidence
  | CStructurallyValid | CNotApplicable => Some confidence
  end.

(** ** Validators *)

Definition is_ascii_alphanumeric_bytes (bs : bytes) : bool := forallb is_ascii_alphanumeric bs.
Definition is_ascii_alphanumeric_str (s : str) : bool := is_ascii_alphanumeric_bytes (as_bytes s).

Definition validate_crc32_base62 (payload : str) (entropy_len checksum_len : Z) (reject_overlong : bool) : ChecksumResult :=
  let body_len := saturating_add usize_max entropy_len checksum_len in
  if negb (str_len payload =? body_len) then
    (if reject_overlong && (body_len <? str_len payload) then CInvalid else CNotApplicable)
  else if negb (is_ascii_alphanumeric_str payload) then CInvalid
  else
    let entropy := take (Z.to_nat entropy_len) (as_bytes payload) in
    let checksum := drop (Z.to_nat entropy_len) (as_bytes payload) in
    if base62_u32_matches (crc32 entropy) checksum then CValid else CInvalid.

Definition crc_suffix_matches (payload : bytes) (checksum_len : Z) : bool :=
  if zlen payload <=? checksum_len then false
  else
    let split := Z.to_nat (zlen payload - checksum_len) in
    base62_u32_matches (crc32 (take split payload)) (drop split payload).

Definition validate_github_fine_grained (payload : str) (left_len right_len checksum_len : Z) : ChecksumResult :=
  match split_once $"_" payload with
  | None => CInvalid
  | Some (l, r) =>
      if bool_decide (95 ∈ r) || negb (str_len l =? left_len) || negb (str_len r =? right_len) then CInvalid
      else if negb (is_ascii_alphanumeric_str l) || negb (is_ascii_alphanumeric_str r) then CInvalid
      else if crc_suffix_matches (as_bytes payload) checksum_len || crc_suffix_matches (as_bytes r) checksum_len
      then CValid else CInvalid
  end.

Definition validate_uuid (payload : str) : ChecksumResult :=
  let bs := as_bytes payload in
  let dash (i : nat) := bool_decide (bs !! i = Some 45) in
  let hex (a b : nat) := forallb is_ascii_hexdigit (take (b - a) (drop a bs)) in
  if negb (zlen bs =? 36) then CInvalid
  else if negb (dash 8%nat) || negb (dash 13%nat) || negb (dash 18%nat) || negb (dash 23%nat) then CInvalid
  else if hex 0%nat 8%nat && hex 9%nat 13%nat && hex 14%nat 18%nat && hex 19%nat 23%nat && hex 24%nat 36%nat
  then CValid else CInvalid.

Definition validate_hex_hash (payload : str) (expected_len : Z) (lowercase_only : bool) : ChecksumResult :=
  let bs := as_bytes payload in
  if negb (zlen bs =? expected_len) then CInvalid
  else if (if lowercase_only then forallb (fun b => in_range 48 57 b || in_range 97 102 b) bs
           else forallb is_ascii_hexdigit bs)
  then CValid else CInvalid.

(** The loop over the reversed digits, with the alternation flag. *)
Fixpoint luhn_sum (alternate : bool) (digits_rev : list Z) : Z :=
  match digits_rev with
  | [] => 0
  | d :: rest =>
      let d := if alternate then (if 9 <? d * 2 then d * 2 - 9 else d * 2) else d in
      d + luhn_sum (negb alternate) rest
  end.

Definition validate_luhn (payload : str) (min_len max_len : Z) : ChecksumResult :=
  let bs := as_bytes payload in
  if (zlen bs <? min_len) || (max_len <? zlen bs) then CInvalid
  else if negb (forallb is_ascii_digit bs) then CInvalid
  else if luhn_sum false (map (fun b => b - 48) (rev bs)) mod 10 =? 0 then CValid else CInvalid.

Inductive Base64Alphabet := Standard | StandardNoPad | UrlSafe | UrlSafeNoPad.

(** What the validators ask of code outside the modelled files. *)
Class ValidatorEnv := {
  regex_full : str -> str -> bool;            (** [^(?:p)$], case-insensitive *)
  regex_prefix : str -> str -> bool;          (** [^(?:p)], case-insensitive *)
  base64_decode_vec : Base64Alphabet -> str -> option bytes;
  jwt_alg : str -> option str                 (** the [alg] found by [jwt::analyze] *) }.

Inductive CompiledValidatorKind :=
| Crc32Base62 (entropy_len checksum_len : Z) (reject_overlong : bool)
| GithubFineGrainedCrc32 (left_len right_len checksum_len : Z)
| Base64Payload (alphabet : Base64Alphabet) (min_encoded_len max_encoded_len min_decoded_len : Z)
| PatternShape (patterns : list str) (allow_overlong : bool)
| Jwt (reject_alg_none : bool)
| Uuid
| HexHash (expected_len : Z) (lowercase_only : bool)
| LuhnChecksum (min_len max_len : Z).

Definition proves_body_provenance (k : CompiledValidatorKind) : bool :=
  match k with Crc32Base62 _ _ _ | GithubFineGrainedCrc32 _ _ _ => true | _ => false end.

Record CompiledValidator := mkValidator {
  prefixes : list str; vkind : CompiledValidatorKind; confidence_floor : option f64 }.

Definition JWT_BASE64_HEADER_PREFIX : str := $"eyJ".

Definition is_provider_token_byte (b : Z) : bool :=
  is_ascii_alphanumeric b || (b =? 95) || (b =? 45) || (b =? 46).

Section validators.
Context `{ValidatorEnv}.

Definition validate_base64_payload (payload : str) (alphabet : Base64Alphabet)
    (min_encoded_len max_encoded_len min_decoded_len : Z) : ChecksumResult :=
  if (str_len payload <? min_encoded_len) || (max_encoded_len <? str_len payload) then CInvalid
  else match base64_decode_vec alphabet payload with
       | Some decoded => if min_decoded_len <=? zlen decoded then CValid else CInvalid
       | None => CInvalid
       end.

Definition validate_jwt (candidate : str) (reject_alg_none : bool) : ChecksumResult :=
  match jwt_alg candidate with
  | None => CInvalid
  | Some alg => if reject_alg_none && eq_ignore_ascii_case alg $"none" then CInvalid else CValid
  end.

Definition claims (v : CompiledValidator) (credential : str) : bool :=
  match prefixes v with [] => true | ps => existsb (fun p => starts_with p credential) ps end.

(** The first matching prefix, or the empty one of a validator without prefixes. *)
Definition matched_prefix (v : CompiledValidator) (credential : str) : option str :=
  match prefixes v with
  | [] => Some []
  | ps => find (fun p => starts_with p credential) ps
  end.

Definition validate (v : CompiledValidator) (credential : str) (pattern_proven : bool) : ChecksumConfidenceDecision :=
  match matched_prefix v credential with
  | None => not_applicable
  | Some prefix =>
      let payload := drop (length prefix) credential in
      let result :=
        match vkind v with
        | Crc32Base62 e c r => validate_crc32_base62 payload e c r
        | GithubFineGrainedCrc32 l r c => validate_github_fine_grained payload l r c
        | Base64Payload a mn mx md => validate_base64_payload payload a mn mx md
        | PatternShape patterns allow_overlong =>
            if pattern_proven || existsb (fun p => regex_full p credential) patterns then CStructurallyValid
            else if allow_overlong && existsb (fun p => regex_prefix p credential) patterns
                    && forallb is_provider_token_byte (as_bytes credential)
            then CNotApplicable else CInvalid
        | Jwt reject =>
            let candidate := if starts_with JWT_BASE64_HEADER_PREFIX payload then payload else credential in
            validate_jwt candidate reject
        | Uuid => validate_uuid payload
        | HexHash n low => validate_hex_hash payload n low
        | LuhnChecksum mn mx => validate_luhn payload mn mx
        end in
      decision_new result (confidence_floor v) (proves_body_provenance (vkind v))
  end.

(** [CompiledDetectorValidators]: the validators of one detector in order. *)
Abbreviation ValidatorSet := (list CompiledValidator) (only parsing).

Fixpoint validators_validate (vs : ValidatorSet) (credential : str) (pattern_proven : bool) : ChecksumConfidenceDecision :=
  match vs with
  | [] => not_applicable
  | v :: rest => if claims v credential then validate v credential pattern_proven
                 else validators_validate rest credential pattern_proven
  end.

Definition indexed_prefixes (vs : ValidatorSet) : list (nat * str) :=
  concat (imap (fun i v => map (fun p => (i, p)) (prefixes v)) vs).

(** Only references made by the index reach this: its position exists. *)
Definition validate_indexed (vs : ValidatorSet) (i : nat) (credential : str) : ChecksumConfidenceDecision :=
  match vs !! i with Some v => validate v credential false | None => not_applicable end.

(** ** The first-byte index *)

Abbreviation ValidatorRef := (nat * nat)%type.

Definition first_byte (s : str) : option Z := head (as_bytes s).

Definition add_ref (refs : gmap Z (list ValidatorRef)) (entry : ValidatorRef * str) : gmap Z (list ValidatorRef) :=
  let '(r, prefix) := entry in
  match first_byte prefix with
  | None => refs
  | Some first =>
      let bucket := default [] (refs !! first) in
      if decide (r ∈ bucket) then refs else <[first := bucket ++ [r]]> refs
  end.

(** All prefixes of all validators in order, with the validator they belong to. *)
Definition all_prefixes (sets : list ValidatorSet) : list (ValidatorRef * str) :=
  concat (imap (fun o vs => map (fun ip => ((o, fst ip), snd ip)) (indexed_prefixes vs)) sets).

(** The buckets of [[Vec<ValidatorRef>; 256]]. *)
Definition fill_buckets (sets : list ValidatorSet) : gmap Z (list ValidatorRef) :=
  foldl add_ref ∅ (all_prefixes sets).

Record CompiledValidatorIndex := mkIndex { refs : list ValidatorRef; ref_offsets : list nat }.

(** The buckets one after another, each offset the table's length before its bucket. *)
Definition flatten_bucket (acc : list ValidatorRef * list nat) (bucket : list ValidatorRef) : list ValidatorRef * list nat :=
  (fst acc ++ bucket, snd acc ++ [length (fst acc)]).

Definition flatten (buckets : list (list ValidatorRef)) : CompiledValidatorIndex :=
  let '(flat_refs, offsets) := foldl flatten_bucket ([], []) buckets in
  mkIndex flat_refs (offsets ++ [length flat_refs]).

Definition index_compile (sets : list ValidatorSet) : CompiledValidatorIndex :=
  let buckets := fill_buckets sets in
  flatten (map (fun first => default [] (buckets !! Z.of_nat first)) (seq 0 256)).

(** [self.refs[self.ref_offsets[first]..self.ref_offsets[first + 1]]]; the
    offsets of a byte are always in range. *)
Definition bucket_slice (index : CompiledValidatorIndex) (first : Z) : list ValidatorRef :=
  match ref_offsets index !! Z.to_nat first, ref_offsets index !! S (Z.to_nat first) with
  | Some a, Some b => take (b - a) (drop a (refs index))
  | _, _ => []
  end.

Record Found := mkFound { structural : option ChecksumConfidenceDecision; unknown : option ChecksumConfidenceDecision;
                          invalid : option ChecksumConfidenceDecision }.

Fixpoint precedence (acc : Found) (ds : list ChecksumConfidenceDecision) : ChecksumConfidenceDecision :=
  match ds with
  | [] => match structural acc, unknown acc, invalid acc with
          | Some d, _, _ => d
          | None, Some d, _ => d
          | None, None, Some d => d
          | None, None, None => not_applicable
          end
  | d :: rest =>
      match cd_result d with
      | CValid => d
      | CStructurallyValid => precedence (mkFound (Some d) (unknown acc) (invalid acc)) rest
      | CInvalid => precedence (mkFound (structural acc) (unknown acc) (Some d)) rest
      | CNotApplicable =>
          if cd_claimed_family d then precedence (mkFound (structural acc) (Some d) (invalid acc)) rest
          else precedence acc rest
      end
  end.

Definition validate_any (sets : list ValidatorSet) (credential : str) : ChecksumConfidenceDecision :=
  match first_byte credential with
  | None => not_applicable
  | Some first =>
      precedence (mkFound None None None)
        (map (fun r : ValidatorRef => match sets !! fst r with
                    | Some vs => validate_indexed vs (snd r) credential
                    | None => not_applicable
                    end) (bucket_slice (index_compile sets) first))
  end.

Definition validate_for_detector (ids : list str) (sets : list ValidatorSet) (detector_id credential : str) :
    ChecksumConfidenceDecision :=
  match list_find (fun i => i = detector_id) ids with
  | Some (i, _) => match sets !! i with Some vs => validators_validate vs credential false | None => not_applicable end
  | None => not_applicable
  end.

End validators.

Example crc_check : crc32 $"123456789" = 0xCBF43926 /\ base62_encode_u32 0xCBF43926 6 = $"3jZRME".
Proof. split; by_eval. Qed.

Example luhn_check : validate_luhn $"79927398713" 1 20 = CValid.
Proof. by_eval. Qed.

(** ** CRC32 is the bitwise algorithm *)

Lemma land_1_odd x : negb (Z.land x 1 =? 0) = Z.testbit x 0.
Proof.
  rewrite Z.bit0_odd. change 1 with (Z.ones 1). rewrite Z.land_ones by lia. change (2 ^ 1) with 2. rewrite Zmod_odd.
  by destruct (Z.odd x).
Qed.

Lemma crc_bit_lxor a b : crc_bit (Z.lxor a b) = Z.lxor (crc_bit a) (crc_bit b).
Proof.
  unfold crc_bit. rewrite !land_1_odd, Z.lxor_spec, Z.shiftr_lxor. apply Z.bits_inj'. intros n _.
  destruct (Z.testbit a 0), (Z.testbit b 0); cbn [xorb]; rewrite !Z.lxor_spec;
    by destruct (Z.testbit CRC_POLY n), (Z.testbit (Z.shiftr a 1) n), (Z.testbit (Z.shiftr b 1) n).
Qed.

Lemma crc_bits_lxor n a b : crc_bits n (Z.lxor a b) = Z.lxor (crc_bits n a) (crc_bits n b).
Proof. revert a b. induction n as [|n IH]; intros a b; [done|]. cbn [crc_bits]. by rewrite crc_bit_lxor, IH. Qed.

Lemma crc_bits_shiftl n y : crc_bits n (Z.shiftl y (Z.of_nat n)) = y.
Proof.
  induction n as [|n IH]; [by rewrite Z.shiftl_0_r|]. cbn [crc_bits]. unfold crc_bit. rewrite land_1_odd.
  rewrite Z.shiftl_spec_low by lia. cbn [negb]. rewrite <- Z.shiftl_opp_r, Z.shiftl_shiftl by lia.
  replace (Z.of_nat (S n) + - (1)) with (Z.of_nat n) by lia. done.
Qed.

Lemma low_byte_split x : x = Z.lxor (Z.land x 0xFF) (Z.shiftl (Z.shiftr x 8) 8).
Proof.
  apply Z.bits_inj'. intros n Hn. rewrite Z.lxor_spec, Z.land_spec. change 0xFF with (Z.ones 8). rewrite Z.testbit_ones_nonneg by lia.
  destruct (Z.ltb_spec n 8).
  - rewrite Z.shiftl_spec_low by lia. by rewrite andb_true_r, xorb_false_r.
  - rewrite Z.shiftl_spec_high, Z.shiftr_spec by lia. replace (n - 8 + 8) with n by lia. by rewrite andb_false_r, xorb_false_l.
Qed.

Lemma CRC_TABLE_lookup i : 0 <= i < 256 -> CRC_TABLE !! Z.to_nat i = Some (crc_bits 8 i).
Proof.
  intros Hi. unfold CRC_TABLE. rewrite list_lookup_fmap, lookup_seq_lt by lia. cbn [fmap option_fmap option_map].
  by rewrite Nat.add_0_l, Z2Nat.id by lia.
Qed.

Lemma crc_step_bits crc byte : in_u8 byte -> crc_step crc byte = crc_bits 8 (Z.lxor crc byte).
Proof.
  intros [Hb1 Hb2]. unfold crc_step. rewrite CRC_TABLE_lookup.
  2: { change 0xFF with (Z.ones 8). rewrite Z.land_ones by lia. by apply Z.mod_pos_bound. }
  cbn [from_option id]. rewrite (low_byte_split (Z.lxor crc byte)) at 2. rewrite crc_bits_lxor. f_equal.
  rewrite (crc_bits_shiftl 8), Z.shiftr_lxor. rewrite (Z.shiftr_div_pow2 byte) by lia.
  unfold u8_max in Hb2. rewrite (Z.div_small byte) by (change (2 ^ 8) with 256 in *; lia). by rewrite Z.lxor_0_r.
Qed.

(** The shift-register definition of the checksum. *)
Definition crc32_bitwise (data : bytes) : Z :=
  Z.lxor (foldl (fun crc byte => crc_bits 8 (Z.lxor crc byte)) 0xFFFFFFFF data) 0xFFFFFFFF.

Lemma lxor_bound n a b : 0 <= n -> 0 <= a < 2 ^ n -> 0 <= b < 2 ^ n -> 0 <= Z.lxor a b < 2 ^ n.
Proof.
  intros Hn Ha Hb. assert (H0 : 0 <= Z.lxor a b) by (apply Z.lxor_nonneg; lia). split; [done|].
  rewrite <- (Z.mod_small a (2 ^ n)), <- (Z.mod_small b (2 ^ n)) by lia. rewrite <- !Z.land_ones by lia.
  replace (Z.lxor _ _) with (Z.land (Z.lxor a b) (Z.ones n)).
  - rewrite Z.land_ones by lia. apply Z.mod_pos_bound. lia.
  - apply Z.bits_inj'. intros k _. rewrite Z.land_spec, !Z.lxor_spec, !Z.land_spec.
    by destruct (Z.testbit a k), (Z.testbit b k), (Z.testbit (Z.ones n) k).
Qed.

Lemma crc_bits_bound n crc : 0 <= crc < 2 ^ 32 -> 0 <= crc_bits n crc < 2 ^ 32.
Proof.
  revert crc. induction n as [|n IH]; intros crc Hc; [done|]. cbn [crc_bits]. apply IH.
  assert (Hs : 0 <= Z.shiftr crc 1 < 2 ^ 32).
  { rewrite Z.shiftr_div_pow2 by lia. change (2 ^ 1) with 2. Z.div_mod_to_equations. lia. }
  unfold crc_bit. destruct (negb _); [|done]. apply lxor_bound; [lia | unfold CRC_POLY; lia | done].
Qed.

Lemma crc32_eq data : Forall in_u8 data -> crc32 data = crc32_bitwise data /\ 0 <= crc32 data < 2 ^ 32.
Proof.
  intros Hd. unfold crc32, crc32_bitwise.
  assert (Hgen : forall crc, 0 <= crc < 2 ^ 32 ->
    foldl crc_step crc data = foldl (fun crc byte => crc_bits 8 (Z.lxor crc byte)) crc data /\
    0 <= foldl crc_step crc data < 2 ^ 32).
  { induction Hd as [|b data Hb Hd IH]; intros crc Hc; cbn [foldl]; [done|]. rewrite crc_step_bits by done. apply IH.
    apply crc_bits_bound, lxor_bound; [lia | done |]. unfold in_u8, u8_max in Hb. change (2 ^ 8) with 256 in Hb. lia. }
  destruct (Hgen 0xFFFFFFFF ltac:(lia)) as [-> Hb]. split; [done|]. apply lxor_bound; lia.
Qed.

(** ** Base62 suffixes *)

(** The [n] least significant digits, least significant first. *)
Fixpoint digits62 (n : nat) (v : Z) : list Z :=
  match n with O => [] | S n' => base62_digit v :: digits62 n' (v / 62) end.

Lemma length_digits62 n v : length (digits62 n v) = n.
Proof. revert v. induction n as [|n IH]; intros v; cbn [digits62 length]; by rewrite ?IH. Qed.

Lemma digits62_zero n : digits62 n 0 = replicate n 48.
Proof. induction n as [|n IH]; [done|]. cbn [digits62 replicate]. change (0 / 62) with 0. by rewrite IH. Qed.

Lemma pow62_succ n : 62 ^ Z.of_nat (S n) = 62 * 62 ^ Z.of_nat n.
Proof. rewrite Nat2Z.inj_succ, Z.pow_succ_r by lia. done. Qed.

Lemma div62_small v n : 0 <= v < 62 ^ Z.of_nat (S n) -> 0 <= v / 62 < 62 ^ Z.of_nat n.
Proof. rewrite pow62_succ. intros. split; [apply Z.div_pos; lia|]. apply Z.div_lt_upper_bound; lia. Qed.

Lemma digits62_pad k j v : 0 <= v < 62 ^ Z.of_nat k -> digits62 (k + j) v = digits62 k v ++ replicate j 48.
Proof.
  revert v. induction k as [|k IH]; intros v Hv; cbn [Nat.add digits62 app].
  { change (62 ^ Z.of_nat 0) with 1 in Hv. assert (v = 0) as -> by lia. apply digits62_zero. }
  f_equal. by apply IH, div62_small.
Qed.

Lemma base62_rev_digits f v :
  0 <= v < 62 ^ Z.of_nat f ->
  exists k, base62_rev f v = digits62 k v /\ v < 62 ^ Z.of_nat k /\ forall w, (w < k)%nat -> 62 ^ Z.of_nat w <= v.
Proof.
  revert v. induction f as [|f IH]; intros v Hv; cbn [base62_rev].
  { exists O. split; [done|]. split; [lia|]. lia. }
  destruct (Z.eqb_spec v 0) as [->|Hne]; [exists O; split; [done|]; split; [done | lia]|].
  destruct (IH (v / 62)) as (k & -> & Hlt & Hge); [by apply div62_small|].
  exists (S k). split; [done|]. rewrite pow62_succ. split; [Z.div_mod_to_equations; lia|].
  intros [|w] Hw; [change (62 ^ Z.of_nat 0) with 1; lia|]. rewrite pow62_succ. specialize (Hge w ltac:(lia)).
  Z.div_mod_to_equations. lia.
Qed.

Lemma base62_matches_digits v r :
  0 <= v -> base62_matches_rev v r = true <-> r = digits62 (length r) v /\ v < 62 ^ zlen r.
Proof.
  unfold zlen. revert v. induction r as [|a r IH]; intros v Hv; cbn [base62_matches_rev length digits62].
  - rewrite Z.eqb_eq. change (62 ^ Z.of_nat 0) with 1. split; [intros ->; done | lia].
  - destruct (Z.eqb_spec a (base62_digit v)) as [->|Hne]; cbn [negb]; [|split; [done | intros [[=] _]; done]].
    rewrite IH by (by apply Z.div_pos). rewrite pow62_succ. split.
    + intros [Hr Hlt]. split; [by rewrite <- Hr|]. Z.div_mod_to_equations. lia.
    + intros [[= Hr] Hlt]. split; [done|]. apply Z.div_lt_upper_bound; lia.
Qed.

Lemma rev_replicate {A} n (x : A) : rev (replicate n x) = replicate n x.
Proof. rewrite rev_alt. apply reverse_replicate. Qed.

(** The suffix test is comparison with the encoder. *)
Lemma base62_matches_encode v enc :
  0 <= v < 2 ^ 32 -> base62_u32_matches v enc = true <-> enc = base62_encode_u32 v (length enc).
Proof.
  intros Hv. unfold base62_u32_matches, base62_encode_u32. rewrite base62_matches_digits by lia. unfold zlen. rewrite length_rev.
  destruct (Z.eqb_spec v 0) as [->|Hne].
  - rewrite digits62_zero. assert (0 < 62 ^ Z.of_nat (length enc)) by (apply Z.pow_pos_nonneg; lia). split.
    + intros [Hr _]. rewrite <- (rev_involutive enc) at 1. rewrite Hr. apply rev_replicate.
    + intros He. split; [|done]. rewrite He at 1. apply rev_replicate.
  - destruct (base62_rev_digits 6 v) as (k & -> & Hlt & Hge); [change (62 ^ Z.of_nat 6) with 56800235584; lia|].
    rewrite length_digits62. destruct (decide (k <= length enc)%nat) as [Hle|Hgt].
    + replace (digits62 k v ++ replicate (length enc - k) 48) with (digits62 (length enc) v).
      2: { rewrite <- digits62_pad by lia. f_equal. lia. }
      assert (v < 62 ^ Z.of_nat (length enc)).
      { eapply Z.lt_le_trans; [done|]. apply Z.pow_le_mono_r; lia. }
      split; [intros [Hr _]; rewrite <- Hr; by rewrite rev_involutive|].
      intros He. split; [|done]. rewrite He at 1. by rewrite rev_involutive.
    + split; [intros [_ Hl]; specialize (Hge (length enc) ltac:(lia)); lia|].
      intros He. exfalso. apply (f_equal length) in He. rewrite length_rev, length_app, length_digits62, length_replicate in He. lia.
Qed.

Lemma alphanumeric_range2 c : is_ascii_alphanumeric c = true -> 48 <= c < 128.
Proof.
  unfold is_ascii_alphanumeric, is_ascii_alphabetic, is_ascii_lowercase, is_ascii_uppercase, is_ascii_digit, in_range.
  rewrite !orb_true_iff, !andb_true_iff, !Z.leb_le. lia.
Qed.
Lemma alphanumeric_range c : is_ascii_alphanumeric c = true -> c < 128.
Proof. intros H%alphanumeric_range2. lia. Qed.

Lemma forallb_Forall_eq {A} (f : A -> bool) l : forallb f l = true <-> Forall (fun x => f x = true) l.
Proof. rewrite forallb_forall, Forall_forall. split; intros Hf x Hx; apply Hf; by apply list_elem_of_In. Qed.

(** C37. CRC-suffixed tokens: a body of the declared length is certified exactly
    when it is an alphanumeric entropy part followed by the base62 encoding of
    its CRC32 in the declared width, and the CRC32 is the shift-register
    algorithm, not only its table-driven form. *)
Theorem crc_token_valid_iff (payload : str) (entropy_len checksum_len : Z) (reject_overlong : bool) :
  0 <= entropy_len -> 0 <= checksum_len -> entropy_len + checksum_len <= usize_max ->
  validate_crc32_base62 payload entropy_len checksum_len reject_overlong = CValid <->
  exists entropy, zlen entropy = entropy_len /\ Forall (fun c => is_ascii_alphanumeric c = true) payload /\
    payload = entropy ++ base62_encode_u32 (crc32_bitwise entropy) (Z.to_nat checksum_len) /\
    zlen payload = entropy_len + checksum_len.
Proof.
  intros He Hc Hsum. unfold validate_crc32_base62, str_len.
  replace (saturating_add usize_max entropy_len checksum_len) with (entropy_len + checksum_len) by (unfold saturating_add; lia).
  assert (Hascii : forall s, forallb is_ascii_alphanumeric (as_bytes s) = true <->
    Forall (fun c => is_ascii_alphanumeric c = true) s /\ as_bytes s = s).
  { intros s. split.
    - intros Hf%forallb_Forall_eq. assert (Ha : as_bytes s = s).
      { apply as_bytes_all_ascii. eapply Forall_impl; [exact Hf|]. apply alphanumeric_range. }
      by rewrite Ha in Hf.
    - intros [Hf ->]. by apply forallb_Forall_eq. }
  assert (Hbytes : Forall (fun c => is_ascii_alphanumeric c = true) payload -> Forall in_u8 payload).
  { intros Hf. eapply Forall_impl; [exact Hf|]. intros c Hx%alphanumeric_range2. unfold in_u8, u8_max. change (2 ^ 8) with 256. lia. }
  split.
  - destruct (Z.eqb_spec (zlen (as_bytes payload)) (entropy_len + checksum_len)) as [Hl|]; cbn [negb]; [|by destruct (_ && _)].
    destruct (is_ascii_alphanumeric_str payload) eqn:Ha; cbn [negb]; [|done]. apply Hascii in Ha as [Hf Ha]. rewrite Ha in *.
    destruct (base62_u32_matches _ _) eqn:Hm; [intros _|done]. set (entropy := take (Z.to_nat entropy_len) payload) in *.
    assert (Hent : Forall in_u8 entropy) by (apply Forall_take; auto).
    destruct (crc32_eq entropy Hent) as [Hcrc Hr]. apply base62_matches_encode in Hm; [|done].
    exists entropy. unfold zlen in *. split; [unfold entropy; rewrite length_take; lia|]. split; [done|]. split; [|done].
    rewrite <- (take_drop (Z.to_nat entropy_len) payload) at 1. fold entropy. f_equal. rewrite Hm, Hcrc at 1. f_equal.
    rewrite length_drop. lia.
  - intros (entropy & Hel & Hf & Hp & Hl). assert (Ha : forallb is_ascii_alphanumeric (as_bytes payload) = true).
    { apply Hascii. split; [done|]. apply as_bytes_ascii. eapply Forall_impl; [exact Hf|]. intros c Hx%alphanumeric_range2. lia. }
    pose proof (proj1 (Hascii payload) Ha) as [_ Hb]. rewrite Hb, Hl, Z.eqb_refl. cbn [negb].
    unfold is_ascii_alphanumeric_str, is_ascii_alphanumeric_bytes. rewrite Ha. cbn [negb].
    assert (Hlen : length entropy = Z.to_nat entropy_len) by (unfold zlen in Hel; lia).
    rewrite Hp. rewrite <- Hlen, take_app_length, drop_app_length.
    assert (Hent : Forall in_u8 entropy) by (apply Hbytes in Hf; rewrite Hp in Hf; by apply Forall_app in Hf as [? _]).
    destruct (crc32_eq entropy Hent) as [Hcrc Hr]. rewrite <- Hcrc in *.
    replace (base62_u32_matches _ _) with true; [done|]. symmetry. apply base62_matches_encode; [done|]. f_equal.
    unfold zlen in Hl. rewrite Hp, length_app in Hl. lia.
Qed.

(** ** Luhn *)

Definition luhn_digit (alternate : bool) (d : Z) : Z :=
  if alternate then (if 9 <? d * 2 then d * 2 - 9 else d * 2) else d.

Lemma luhn_digit_inj alternate a b :
  0 <= a <= 9 -> 0 <= b <= 9 -> a <> b ->
  0 <= luhn_digit alternate a <= 9 /\ 0 <= luhn_digit alternate b <= 9 /\ luhn_digit alternate a <> luhn_digit alternate b.
Proof. unfold luhn_digit. intros. destruct alternate; [|lia]. destruct (Z.ltb_spec 9 (a * 2)), (Z.ltb_spec 9 (b * 2)); lia. Qed.

Lemma luhn_sum_app alternate p q :
  luhn_sum alternate (p ++ q) = luhn_sum alternate p + luhn_sum (if Nat.even (length p) then alternate else negb alternate) q.
Proof.
  revert alternate. induction p as [|d p IH]; intros alternate; cbn [app luhn_sum length]; [done|]. rewrite IH, Z.add_assoc. f_equal. f_equal.
  rewrite Nat.even_succ, <- Nat.negb_even. by destruct (Nat.even (length p)), alternate.
Qed.

Lemma luhn_valid_iff payload mn mx :
  validate_luhn payload mn mx = CValid <->
  mn <= zlen payload <= mx /\ Forall (fun c => is_ascii_digit c = true) payload /\
  luhn_sum false (map (fun b => b - 48) (rev payload)) mod 10 = 0.
Proof.
  unfold validate_luhn.
  assert (Hd : forallb is_ascii_digit (as_bytes payload) = true <-> Forall (fun c => is_ascii_digit c = true) payload /\ as_bytes payload = payload).
  { split.
    - intros Hf%forallb_Forall_eq. assert (Ha : as_bytes payload = payload).
      { apply as_bytes_all_ascii. eapply Forall_impl; [exact Hf|]. unfold is_ascii_digit, in_range. intros c Hc. reflect_bool. lia. }
      by rewrite Ha in Hf.
    - intros [Hf ->]. by apply forallb_Forall_eq. }
  split.
  - destruct (_ || _) eqn:E; [done|]. reflect_bool. destruct (forallb is_ascii_digit (as_bytes payload)) eqn:Hf; cbn [negb]; [|done].
    destruct (proj1 Hd eq_refl) as [Hf' Ha]. rewrite Ha in *. destruct (Z.eqb_spec (luhn_sum false (map (fun b => b - 48) (rev payload)) mod 10) 0); [|done].
    intros _. split; [lia|]. done.
  - intros (Hl & Hf & Hs). assert (Ha : as_bytes payload = payload).
    { apply as_bytes_ascii. eapply Forall_impl; [exact Hf|]. unfold is_ascii_digit, in_range. intros c Hc. reflect_bool. lia. }
    rewrite (proj2 Hd) by done. rewrite Ha, Hs. cbn [negb].
    replace ((zlen payload <? mn) || (mx <? zlen payload)) with false; [done|]. symmetry. apply orb_false_iff. rewrite !Z.ltb_ge. lia.
Qed.

(** The Luhn check detects every single mistyped digit: replacing one digit
    of a valid number by another digit makes it invalid. *)
Theorem luhn_detects_substitution (p q : str) (c c' mn mx : Z) :
  is_ascii_digit c' = true -> c <> c' ->
  validate_luhn (p ++ [c] ++ q) mn mx = CValid -> validate_luhn (p ++ [c'] ++ q) mn mx = CInvalid.
Proof.
  intros Hc' Hne Hv. assert (Hres : forall s, validate_luhn s mn mx = CValid \/ validate_luhn s mn mx = CInvalid).
  { intros s. unfold validate_luhn. repeat case_match; auto. }
  destruct (Hres (p ++ [c'] ++ q)) as [Hv'|]; [exfalso|done].
  apply luhn_valid_iff in Hv as (_ & Hf & Hs). apply luhn_valid_iff in Hv' as (_ & _ & Hs').
  rewrite !Forall_app, Forall_singleton in Hf. destruct Hf as (_ & Hc & _).
  rewrite !rev_app_distr, !map_app in Hs, Hs'. cbn [rev app map] in Hs, Hs'. rewrite <- !app_assoc in Hs, Hs'.
  rewrite !luhn_sum_app in Hs, Hs'. set (alt := if Nat.even _ then _ else _) in *. cbn [app luhn_sum] in Hs, Hs'.
  change (if alt then _ else c - 48) with (luhn_digit alt (c - 48)) in Hs.
  change (if alt then _ else c' - 48) with (luhn_digit alt (c' - 48)) in Hs'.
  unfold is_ascii_digit, in_range in Hc, Hc'. reflect_bool.
  pose proof (luhn_digit_inj alt (c - 48) (c' - 48) ltac:(lia) ltac:(lia) ltac:(lia)) as (D1 & D2 & D3).
  generalize dependent (luhn_digit alt (c - 48)). generalize dependent (luhn_digit alt (c' - 48)). intros. clear - Hs Hs' D1 D2 D3.
  cbn [length] in Hs, Hs'. Z.div_mod_to_equations. lia.
Qed.

(** ** The first-byte index is a sweep *)

Section index.
Context `{ValidatorEnv}.

(** All validators in order, with their references. *)
Definition flat_validators (sets : list (list CompiledValidator)) : list (nat * nat * CompiledValidator) :=
  concat (imap (fun o vs => imap (fun i v => (o, i, v)) vs) sets).

Definition has_first (first : Z) (v : CompiledValidator) : bool :=
  existsb (fun p => bool_decide (first_byte p = Some first)) (prefixes v).

Definition block (rv : nat * nat * CompiledValidator) : list (nat * nat * str) :=
  map (fun p => (fst rv, p)) (prefixes (snd rv)).

Lemma block_set x (h : nat -> nat) vs :
  map (fun ip : nat * str => (x, fst ip, snd ip)) (concat (imap (fun i v => map (fun p => (h i, p)) (prefixes v)) vs)) =
  concat (map block (imap (fun i v => (x, h i, v)) vs)).
Proof.
  revert h. induction vs as [|v vs IH]; intros h; [done|]. rewrite !imap_cons. cbn [concat map]. rewrite map_app, map_map.
  f_equal. apply (IH (fun i => h (S i))).
Qed.

Lemma all_prefixes_flat sets : all_prefixes sets = concat (map block (flat_validators sets)).
Proof.
  unfold all_prefixes, flat_validators.
  assert (Hgen : forall g : nat -> nat,
    concat (imap (fun o vs => map (fun ip => ((g o, fst ip), snd ip)) (indexed_prefixes vs)) sets) =
    concat (map block (concat (imap (fun o vs => imap (fun i v => (g o, i, v)) vs) sets)))).
  { induction sets as [|vs sets IH]; intros g; [done|]. rewrite !imap_cons. cbn [concat]. rewrite map_app, concat_app.
    f_equal; [apply (block_set (g O) id) | apply (IH (fun o => g (S o)))]. }
  apply (Hgen id).
Qed.

Lemma flat_elem sets rv : rv ∈ flat_validators sets ->
  exists vs, sets !! fst (fst rv) = Some vs /\ vs !! snd (fst rv) = Some (snd rv).
Proof.
  unfold flat_validators. intros Hin. apply list_elem_of_In, in_concat in Hin as (l & Hl & Hin).
  apply list_elem_of_In, elem_of_lookup_imap in Hl as (o & vs & -> & Ho).
  apply list_elem_of_In, elem_of_lookup_imap in Hin as (i & v & -> & Hi). by exists vs.
Qed.

Lemma flat_snd sets : concat sets = snd <$> flat_validators sets.
Proof.
  unfold flat_validators.
  assert (Hrow : forall vs (o : nat) (h : nat -> nat), snd <$> imap (fun i (v : CompiledValidator) => (o, h i, v)) vs = vs).
  { induction vs as [|v vs IH]; intros o h; [done|]. rewrite imap_cons. cbn [fmap list_fmap snd]. f_equal. apply (IH o (fun i => h (S i))). }
  assert (Hgen : forall g : nat -> nat, concat sets = snd <$> concat (imap (fun o vs => imap (fun i v => (g o, i, v)) vs) sets)).
  { induction sets as [|vs sets IH]; intros g; [done|]. rewrite imap_cons. cbn [concat]. rewrite fmap_app.
    f_equal; [symmetry; apply (Hrow vs (g O) id) | apply (IH (fun o => g (S o)))]. }
  apply (Hgen id).
Qed.

Lemma flat_NoDup sets : NoDup (fst <$> flat_validators sets).
Proof.
  unfold flat_validators.
  assert (Hgen : forall g : nat -> nat, Inj eq eq g -> NoDup (fst <$> concat (imap (fun o vs => imap (fun i v => (g o, i, v)) vs) sets))).
  { induction sets as [|vs sets IH]; intros g Hg; [apply NoDup_nil_2|]. rewrite imap_cons. cbn [concat]. rewrite fmap_app.
    apply NoDup_app. split; [|split].
    - apply NoDup_alt. intros i j r. rewrite !list_lookup_fmap, !list_lookup_imap.
      destruct (vs !! i), (vs !! j); cbn; try done. congruence.
    - intros r (rv & -> & Hin)%list_elem_of_fmap (rv' & He & Hin')%list_elem_of_fmap.
      apply elem_of_lookup_imap in Hin as (i & v & -> & _).
      apply list_elem_of_In, in_concat in Hin' as (l & Hl & Hin').
      apply list_elem_of_In, elem_of_lookup_imap in Hl as (o & vs' & -> & _).
      apply list_elem_of_In, elem_of_lookup_imap in Hin' as (i' & v' & -> & _). cbn in He. injection He as He _.
      by apply Hg in He.
    - apply (IH (fun o => g (S o))). intros a b Hab. apply Hg in Hab. lia. }
  apply (Hgen id). apply _.
Qed.

Lemma add_block (m : gmap Z (list (nat * nat))) rv first :
  default [] (foldl add_ref m (block rv) !! first) =
  let b := default [] (m !! first) in
  if decide (fst rv ∈ b) then b else if has_first first (snd rv) then b ++ [fst rv] else b.
Proof.
  unfold block, has_first. generalize (prefixes (snd rv)) as ps. intros ps. revert m.
  induction ps as [|p ps IH]; intros m; cbn [map foldl existsb]; [by destruct (decide _)|].
  rewrite IH. cbv zeta. unfold add_ref. destruct (first_byte p) as [f|] eqn:Hp.
  2: { by rewrite bool_decide_false. }
  destruct (decide (f = first)) as [->|Hne].
  - rewrite bool_decide_true by done. cbn [orb]. destruct (decide (fst rv ∈ default [] (m !! first))) as [Hin|Hout].
    + by rewrite !decide_True.
    + rewrite lookup_insert_eq. cbn [from_option id]. rewrite decide_True; [done|]. apply elem_of_app. right. by apply list_elem_of_singleton.
  - rewrite bool_decide_false by congruence. cbn [orb].
    destruct (decide (fst rv ∈ default [] (m !! f))); [done|]. by rewrite lookup_insert_ne.
Qed.

Lemma flatten_foldl buckets flat offs :
  exists starts, foldl flatten_bucket (flat, offs) buckets = (flat ++ concat buckets, offs ++ starts) /\
    length starts = length buckets /\
    forall k, (k < length buckets)%nat -> starts !! k = Some (length flat + length (concat (take k buckets)))%nat.
Proof.
  revert flat offs. induction buckets as [|b bs IH]; intros flat offs; cbn [foldl concat length].
  { exists []. rewrite !app_nil_r. split; [done|]. split; [done | lia]. }
  unfold flatten_bucket at 2. cbn [fst snd]. destruct (IH (flat ++ b) (offs ++ [length flat])) as (starts & -> & Hl & Hk).
  exists (length flat :: starts). rewrite <- !app_assoc. split; [done|]. cbn [length]. split; [lia|].
  intros [|k] Hlt; [cbn; f_equal; lia|]. cbn [lookup list_lookup take concat]. rewrite Hk by lia. rewrite !length_app. f_equal. lia.
Qed.

Lemma flatten_slice buckets first :
  0 <= first < zlen buckets -> Some (bucket_slice (flatten buckets) first) = buckets !! Z.to_nat first.
Proof.
  unfold zlen. intros Hf. unfold flatten. destruct (flatten_foldl buckets [] []) as (starts & -> & Hl & Hk).
  unfold bucket_slice. cbn [refs ref_offsets app length]. set (k := Z.to_nat first). assert (Hlt : (k < length buckets)%nat) by lia.
  destruct (lookup_lt_is_Some_2 _ _ Hlt) as [b Hb]. cbn [length] in Hk.
  assert (Hnext : forall j, (j <= length buckets)%nat ->
    (starts ++ [length (concat buckets)]) !! j = Some (length (concat (take j buckets)))).
  { intros j Hj. destruct (decide (j < length buckets)%nat); [rewrite lookup_app_l by lia; by apply Hk|].
    rewrite lookup_app_r by lia. replace (j - length starts)%nat with O by lia. rewrite take_ge by lia. done. }
  assert (Hsplit : concat buckets = concat (take k buckets) ++ b ++ concat (drop (S k) buckets)).
  { rewrite <- (take_drop_middle buckets k b Hb) at 1. by rewrite concat_app. }
  rewrite !Hnext, Hb, (take_S_r _ _ _ Hb), concat_app, length_app, Hsplit by lia. cbn [concat]. rewrite app_nil_r, drop_app_length.
  replace (_ + _ - _)%nat with (length b) by lia. by rewrite take_app_length.
Qed.

Lemma fill_bucket sets first :
  default [] (fill_buckets sets !! first) = fst <$> List.filter (fun rv => has_first first (snd rv)) (flat_validators sets).
Proof.
  unfold fill_buckets. rewrite all_prefixes_flat. pose proof (flat_NoDup sets) as Hnd. revert Hnd.
  generalize (flat_validators sets) as l. intros l Hnd.
  assert (Hgen : forall m : gmap Z (list (nat * nat)), (forall r, r ∈ (fst <$> l) -> r ∉ default [] (m !! first)) ->
    default [] (foldl add_ref m (concat (map block l)) !! first) =
    default [] (m !! first) ++ (fst <$> List.filter (fun rv => has_first first (snd rv)) l)).
  { induction l as [|rv l IH]; intros m Hm; cbn [map concat foldl List.filter]; [by rewrite app_nil_r|].
    cbn [fmap list_fmap] in *. apply NoDup_cons in Hnd as [Hr Hnd]. rewrite foldl_app, IH; [|done|].
    - rewrite add_block. cbv zeta. rewrite decide_False by (apply Hm; left). destruct (has_first first (snd rv)); [|done].
      rewrite <- app_assoc. done.
    - intros r Hrl. rewrite add_block. cbv zeta. rewrite decide_False by (apply Hm; left).
      assert (Hm' : r ∉ default [] (m !! first)) by (apply Hm; by right).
      destruct (has_first first (snd rv)); [|done]. rewrite elem_of_app, list_elem_of_singleton. intros [?| ->]; done. }
  rewrite Hgen; [by rewrite lookup_empty|]. intros r _. rewrite lookup_empty. apply not_elem_of_nil.
Qed.

Lemma index_bucket sets first :
  0 <= first < 256 ->
  bucket_slice (index_compile sets) first = fst <$> List.filter (fun rv => has_first first (snd rv)) (flat_validators sets).
Proof.
  intros Hf. rewrite <- fill_bucket. apply (inj Some). unfold index_compile. rewrite flatten_slice.
  - rewrite list_lookup_fmap, lookup_seq_lt by lia. cbn [fmap option_fmap option_map]. by rewrite Nat.add_0_l, Z2Nat.id by lia.
  - unfold zlen. rewrite length_map, length_seq. lia.
Qed.

Lemma as_bytes_head c s : as_bytes (c :: s) = utf8_char c ++ as_bytes s.
Proof. done. Qed.

Lemma first_byte_prefix p c :
  starts_with p c = true -> p <> [] -> first_byte p = first_byte c.
Proof.
  intros (t & ->)%starts_with_spec Hp. destruct p as [|x p]; [done|]. unfold first_byte. cbn [app]. rewrite !as_bytes_head.
  unfold utf8_char. by repeat case_match.
Qed.

Lemma first_byte_range c s : is_scalar c -> exists first, first_byte (c :: s) = Some first /\ 0 <= first < 256.
Proof.
  intros Hc. unfold first_byte. unfold is_scalar in Hc. rewrite as_bytes_head, utf8_char_arith by lia.
  repeat case_match; reflect_bool; (eexists; split; [done|]); Z.div_mod_to_equations; lia.
Qed.

(** A validator outside the bucket of the credential's first byte does not claim it. *)
Lemma outside_bucket v credential first :
  first_byte credential = Some first -> prefixes v <> [] -> Forall (fun p => p <> []) (prefixes v) ->
  has_first first v = false -> validate v credential false = not_applicable.
Proof.
  intros Hf Hne Hp Hb. unfold validate, matched_prefix. destruct (prefixes v) as [|p0 ps] eqn:E; [done|]. rewrite <- E in *.
  replace (find _ (prefixes v)) with (@None str); [done|]. symmetry.
  destruct (find _ (prefixes v)) as [p|] eqn:Hfind; [|done]. apply find_some in Hfind as [Hin Hs].
  rewrite Forall_forall in Hp. pose proof (Hp p (proj2 (list_elem_of_In _ _) Hin)) as Hpn.
  exfalso. apply not_true_iff_false in Hb. apply Hb. apply existsb_exists. exists p. split; [done|].
  apply bool_decide_eq_true. rewrite <- Hf. by apply first_byte_prefix.
Qed.

Lemma precedence_skip acc ds :
  precedence acc ds = precedence acc (List.filter (fun d => negb (bool_decide (d = not_applicable))) ds).
Proof.
  revert acc. induction ds as [|d ds IH]; intros acc; [done|]. cbn [List.filter].
  destruct (decide (d = not_applicable)) as [->|Hne].
  - rewrite bool_decide_true by done. cbn. apply IH.
  - rewrite bool_decide_false by done. cbn [negb precedence]. destruct (cd_result d); try apply IH; [done|]. destruct (cd_claimed_family d); apply IH.
Qed.

(** C38. The first-byte index changes no verdict: when every declared prefix is
    nonempty, validating a credential through the index gives what applying the
    precedence rule to all validators that declare prefixes, in order, gives. *)
Theorem validate_any_sweep (sets : list (list CompiledValidator)) (credential : str) :
  credential <> [] -> Forall is_scalar credential ->
  Forall (fun vs => Forall (fun v => Forall (fun p => p <> []) (prefixes v)) vs) sets ->
  validate_any sets credential =
  precedence (mkFound None None None)
    (map (fun v => validate v credential false) (List.filter (fun v => negb (bool_decide (prefixes v = []))) (concat sets))).
Proof.
  intros Hc Hs Hp. unfold validate_any.
  assert (Hfb : exists first, first_byte credential = Some first /\ 0 <= first < 256).
  { destruct Hs as [|c s Hscalar _]; [done | by apply first_byte_range]. }
  destruct Hfb as (first & Hfb & Hrange). rewrite Hfb, index_bucket by done.
  rewrite flat_snd, precedence_skip, (precedence_skip _ (map _ _)). f_equal.
  pose proof (flat_elem sets) as Hel. revert Hel. generalize (flat_validators sets) as l. intros l Hel.
  induction l as [|[[o i] v] l IH]; [done|]. cbn [List.filter fmap list_fmap snd fst].
  destruct (Hel (o, i, v)) as (vs & Ho & Hi); [left|]. cbn [fst snd] in Ho, Hi.
  assert (Hv : Forall (fun p => p <> []) (prefixes v)).
  { rewrite Forall_lookup in Hp. specialize (Hp o vs Ho). rewrite Forall_lookup in Hp. by apply (Hp i). }
  assert (Htail := IH (fun rv Hin => Hel rv (list_elem_of_further _ _ _ Hin))). clear IH.
  destruct (has_first first v) eqn:Hfirst.
  - rewrite bool_decide_false; [|intros Hnil; unfold has_first in Hfirst; by rewrite Hnil in Hfirst].
    cbn [negb fmap list_fmap map List.filter fst snd]. rewrite Ho. unfold validate_indexed. rewrite Hi.
    case_match; [f_equal|]; apply Htail.
  - destruct (decide (prefixes v = [])) as [Hnil|Hne].
    + rewrite bool_decide_true by done. cbn [negb]. apply Htail.
    + rewrite bool_decide_false by done. cbn [negb map List.filter]. rewrite (outside_bucket v credential first) by done.
      rewrite bool_decide_true by done. apply Htail.
Qed.
End index.

(** ** Witnesses *)



(** Regular expressions as literal tests and no decoders: the index needs no
    more of them. *)
Definition literal_env : ValidatorEnv :=
  {| regex_full := fun p s => bool_decide (p = s); regex_prefix := fun p s => starts_with p s;
     base64_decode_vec := fun _ _ => None; jwt_alg := fun _ => None |}.

Definition sample_sets : list (list CompiledValidator) :=
  [[mkValidator [$"ghp_"; $"gho_"] (Crc32Base62 9 6 true) None]; [mkValidator [$"npm_"] (Crc32Base62 9 6 true) None; mkValidator [$"g"] Uuid None]].

Lemma validate_any_sweep_witness :
  Forall (fun vs => Forall (fun v => Forall (fun p : str => p <> []) (prefixes v)) vs) sample_sets /\
  @validate_any literal_env sample_sets $"gho_1234567893jZRME" =
  precedence (mkFound None None None)
    (map (fun v => @validate literal_env v $"gho_1234567893jZRME" false)
       (List.filter (fun v => negb (bool_decide (prefixes v = []))) (concat sample_sets))) /\
  cd_result (@validate_any literal_env sample_sets $"gho_1234567893jZRME") = CValid.
Proof.
  assert (Hp : Forall (fun vs => Forall (fun v => Forall (fun p : str => p <> []) (prefixes v)) vs) sample_sets)
    by (repeat constructor; discriminate).
  split; [exact Hp|]. split; [|by_eval].
  exact (@validate_any_sweep literal_env sample_sets $"gho_1234567893jZRME" ltac:(discriminate) ltac:(by_decision) Hp).
Defined.

Lemma crc_token_valid_iff_witness :
  validate_crc32_base62 $"1234567893jZRME" 9 6 true = CValid /\
  exists entropy, zlen entropy = 9 /\
    $"1234567893jZRME" = entropy ++ base62_encode_u32 (crc32_bitwise entropy) (Z.to_nat 6).
Proof.
  assert (Hv : validate_crc32_base62 $"1234567893jZRME" 9 6 true = CValid) by by_eval. split; [exact Hv|].
  destruct (proj1 (crc_token_valid_iff $"1234567893jZRME" 9 6 true ltac:(lia) ltac:(lia) ltac:(vm_compute; discriminate)) Hv) as (entropy & Hl & _ & Hp & _).
  exists entropy. split; [exact Hl|exact Hp].
Defined.
