(* ===== verification/Bloom.v ===== *)
(** * Literal-anchor prefilter ([crates/scanner/src/bigram_bloom.rs])

    The table of selected eight-byte anchors, the frequency sketch that ranks
    the candidate windows, the query and its diagnostics.  The automaton that
    owns the short literals is the [aho-corasick] crate: an interface with the
    law its documentation gives. *)

From S2P Require Import Prelude.

(** [aho_corasick] with [ascii_case_insensitive(true)]: building may fail; a
    built automaton matches exactly the haystacks in which a pattern occurs. *)
Class AhoCorasick := {
  automaton : Type;
  ac_build : list bytes -> option automaton;
  ac_is_match : automaton -> bytes -> bool;
  ac_finds : forall pats ac hay, ac_build pats = Some ac ->
    ac_is_match ac hay = true <-> exists p, p ∈ pats /\ occurs_ci p hay }.

(** ** Hashes *)

Definition wrap32 (z : Z) : Z := Z.land z 0xFFFFFFFF.
Definition wrapping_mul32 (a b : Z) : Z := wrap32 (a * b).
Definition rotate_left32 (x n : Z) : Z := Z.lor (wrap32 (Z.shiftl x n)) (Z.shiftr x (32 - n)).

Definition MAX_ANCHOR_BYTES : Z := 8.

Definition hash_step (h : Z * Z) (byte : Z) : Z * Z :=
  let '(first, second) := h in
  (wrapping_mul32 (Z.lxor first byte) 0x01000193,
   wrapping_mul32 (rotate_left32 (Z.lxor second byte) 5) 0x85ebca6b).

Definition hash_seed (len : Z) : Z * Z := (Z.lxor 0x811c9dc5 len, Z.lxor 0x9e3779b9 (rotate_left32 len 16)).

Definition slot_of (h : Z) : Z := Z.land (Z.lxor h (Z.shiftr h 16)) 0xFFFF.

Definition ngram_slots (bs : bytes) : Z * Z :=
  let '(first, second) := foldl hash_step (hash_seed (zlen bs)) bs in (slot_of first, slot_of second).

(** ** The table *)

Definition get_bit (bits : list Z) (slot : Z) : bool :=
  negb (Z.land (default 0 (bits !! Z.to_nat (Z.shiftr slot 6))) (Z.shiftl 1 (Z.land slot 63)) =? 0).

Definition set_bit (bits : list Z) (slot : Z) : list Z :=
  alter (fun word => Z.lor word (Z.shiftl 1 (Z.land slot 63))) (Z.to_nat (Z.shiftr slot 6)) bits.

(** The inlined probe folds each byte as it hashes. *)
Definition contains_anchor_ascii8 (bits : list Z) (anchor : bytes) : bool :=
  let '(first, second) :=
    foldl (fun h byte => hash_step h (to_ascii_lowercase byte)) (hash_seed MAX_ANCHOR_BYTES) anchor in
  get_bit bits (slot_of first) && get_bit bits (slot_of second).

Inductive BigramPrefilterState := Healthy | Saturated | Invalid.

#[export] Instance BigramPrefilterState_eq_dec : EqDecision BigramPrefilterState.
Proof. solve_decision. Defined.

Definition TABLE_SLOTS : Z := 65536.
Definition SATURATION_NUMERATOR : Z := 3.
Definition SATURATION_DENOMINATOR : Z := 5.
Definition SATURATION_THRESHOLD_SLOTS : Z :=
  (TABLE_SLOTS * SATURATION_NUMERATOR + SATURATION_DENOMINATOR - 1) / SATURATION_DENOMINATOR.

Definition classify_population (populated_slots total_slots : Z) : BigramPrefilterState :=
  if (total_slots =? 0) || (total_slots <? populated_slots) then Invalid
  else if SATURATION_THRESHOLD_SLOTS <=? populated_slots then Saturated else Healthy.

Definition share_basis_points (numerator denominator : Z) : Z :=
  if denominator =? 0 then 0 else Z.min (numerator * 10000 / denominator) 10000.

Definition width_bit (width : Z) : Z := Z.shiftl 1 (width - 1).

(** Set bits of one word. *)
Definition count_ones (word : Z) : Z :=
  Z.of_nat (length (List.filter (fun k => Z.testbit word (Z.of_nat k)) (seq 0 64))).

(** ** Anchor keys *)

Record AnchorKey := mkKey { ak_bytes : bytes; ak_len : Z }.

Definition AnchorKey_from_slice (bs : bytes) : AnchorKey :=
  mkKey (fold_case bs ++ replicate (Z.to_nat MAX_ANCHOR_BYTES - length bs) 0) (zlen bs).

Definition AnchorKey_as_slice (k : AnchorKey) : bytes := take (Z.to_nat (ak_len k)) (ak_bytes k).

(** Derived order: the bytes, then the length. *)
Definition AnchorKey_cmp (a b : AnchorKey) : comparison :=
  then_with (list_cmp Z.compare (ak_bytes a) (ak_bytes b)) (Z.compare (ak_len a) (ak_len b)).

(** [(frequency, key, position)] *)
Abbreviation candidate := (Z * AnchorKey * Z)%type.

Definition candidate_cmp (a b : candidate) : comparison :=
  let '(fa, ka, pa) := a in
  let '(fb, kb, pb) := b in
  then_with (Z.compare fa fb) (then_with (AnchorKey_cmp ka kb) (Z.compare pa pb)).

Definition candidate_lt (a b : candidate) : bool :=
  match candidate_cmp a b with Lt => true | _ => false end.

(** ** Frequency sketch: a zero-initialised array of [u16] counters *)

Abbreviation sketch := (gmap Z Z).

Definition frequency (f : sketch) (slot : Z) : Z := default 0 (f !! slot).
Definition bump (f : sketch) (slot : Z) : sketch := <[slot := saturating_add u16_max (frequency f slot) 1]> f.

Definition count_window (f : sketch) (window : bytes) : sketch :=
  let '(first, second) := ngram_slots (AnchorKey_as_slice (AnchorKey_from_slice window)) in
  let f := bump f first in
  if negb (second =? first) then bump f second else f.

Definition count_literal (acc : sketch * list bytes) (literal : str) : sketch * list bytes :=
  let '(f, short_literals) := acc in
  let bs := as_bytes literal in
  if zlen bs <? MAX_ANCHOR_BYTES then (f, short_literals ++ [bs])
  else (foldl count_window f (windows (Z.to_nat MAX_ANCHOR_BYTES) bs), short_literals).

(** One window considered: kept when it is strictly smaller. *)
Definition select_step (f : sketch) (selected : option candidate) (entry : Z * bytes) : option candidate :=
  let '(position, window) := entry in
  let key := AnchorKey_from_slice window in
  let '(first, second) := ngram_slots (AnchorKey_as_slice key) in
  let c := (Z.min (frequency f first) (frequency f second), key, position) in
  match selected with
  | None => Some c
  | Some current => if candidate_lt c current then Some c else selected
  end.

Definition select_anchor (f : sketch) (bs : bytes) : option candidate :=
  foldl (select_step f) None (imap (fun i w => (Z.of_nat i, w)) (windows (Z.to_nat MAX_ANCHOR_BYTES) bs)).

Section bloom.
Context `{AhoCorasick}.

Record BigramBloom := mkBloom {
  bits : list Z;
  short_anchors : option automaton;
  width_mask : Z;
  minimum_anchor_bytes : Z;
  state : BigramPrefilterState }.

Definition zero_bits : list Z := replicate 1024 0.

Definition empty : BigramBloom := mkBloom zero_bits None (width_bit 2) 2 Healthy.
Definition blank : BigramBloom := mkBloom zero_bits None 0 0 Healthy.
Definition invalid_for_test : BigramBloom := mkBloom zero_bits None 0 0 Invalid.

Definition insert_anchor (b : BigramBloom) (anchor : bytes) : BigramBloom :=
  let '(first, second) := ngram_slots anchor in
  mkBloom (set_bit (set_bit (bits b) first) second) (short_anchors b) (width_mask b) (minimum_anchor_bytes b) (state b).

Definition insert_folded_anchor (b : BigramBloom) (anchor : AnchorKey) : BigramBloom :=
  insert_anchor b (AnchorKey_as_slice anchor).

Definition popcount (b : BigramBloom) : Z := foldr Z.add 0 (map count_ones (bits b)).

Definition recompute_saturation (b : BigramBloom) : BigramBloom :=
  mkBloom (bits b) (short_anchors b) (width_mask b) (minimum_anchor_bytes b) (classify_population (popcount b) TABLE_SLOTS).

(** One literal of the insertion loop; [None] is the early return. *)
Definition insert_literal (f : sketch) (b : BigramBloom) (literal : str) : option BigramBloom :=
  let bs := as_bytes literal in
  if zlen bs <? MAX_ANCHOR_BYTES then Some b
  else match select_anchor f bs with
       | None => None
       | Some (_, key, _) =>
           let b := mkBloom (bits b) (short_anchors b) (Z.lor (width_mask b) (width_bit MAX_ANCHOR_BYTES))
                      (minimum_anchor_bytes b) (state b) in
           Some (insert_folded_anchor b key)
       end.

Fixpoint insert_literals (f : sketch) (b : BigramBloom) (literals : list str) : option BigramBloom :=
  match literals with
  | [] => Some b
  | literal :: rest =>
      match insert_literal f b literal with
      | Some b => insert_literals f b rest
      | None => None
      end
  end.

Definition minimum_len (literals : list str) : option Z :=
  match literals with
  | [] => None
  | l :: rest => Some (foldl Z.min (str_len l) (map str_len rest))
  end.

Definition from_literal_prefixes (literals : list str) : BigramBloom :=
  if bool_decide (literals = []) || existsb (fun l => bool_decide (l = [])) literals then invalid_for_test
  else
    let '(frequencies, short_literals) := foldl count_literal (∅, []) literals in
    match minimum_len literals with
    | None => invalid_for_test
    | Some minimum_literal_bytes =>
        let min_bytes := Z.min minimum_literal_bytes MAX_ANCHOR_BYTES in
        let insert anchors :=
          match insert_literals frequencies (mkBloom (bits blank) anchors (width_mask blank) min_bytes (state blank)) literals with
          | Some b => recompute_saturation b
          | None => invalid_for_test
          end in
        if bool_decide (short_literals = []) then insert (short_anchors blank)
        else match ac_build short_literals with
             | Some anchors => insert (Some anchors)
             | None => invalid_for_test
             end
    end.

(** [while i <= last], [n] the windows left. *)
Fixpoint any_window (table : list Z) (chunk : bytes) (i n : nat) : bool :=
  match n with
  | O => false
  | S n' => if contains_anchor_ascii8 table (take (Z.to_nat MAX_ANCHOR_BYTES) (drop i chunk)) then true
            else any_window table chunk (S i) n'
  end.

Definition any_long_anchor (b : BigramBloom) (chunk : bytes) : bool :=
  if zlen chunk <? MAX_ANCHOR_BYTES then false
  else any_window (bits b) chunk 0 (S (Z.to_nat (zlen chunk - MAX_ANCHOR_BYTES))).

Definition maybe_overlaps (b : BigramBloom) (chunk : bytes) : bool :=
  if negb (bool_decide (state b = Healthy)) then true
  else if zlen chunk <? minimum_anchor_bytes b then true
  else if match short_anchors b with Some anchors => ac_is_match anchors chunk | None => false end then true
  else if width_mask b =? 0 then false
  else any_long_anchor b chunk.

Record BigramPrefilterStatus := mkStatus {
  populated_slots : Z; total_slots : Z; saturation_threshold_slots : Z; density_basis_points : Z;
  st_state : BigramPrefilterState }.

Definition status (b : BigramBloom) : BigramPrefilterStatus :=
  let populated := popcount b in
  let derived_state := classify_population populated TABLE_SLOTS in
  let has_anchor_owner := negb (width_mask b =? 0) || bool_decide (is_Some (short_anchors b)) in
  let st := if bool_decide (state b = Invalid) || negb (bool_decide (state b = derived_state)) || negb has_anchor_owner
            then Invalid else derived_state in
  mkStatus populated TABLE_SLOTS SATURATION_THRESHOLD_SLOTS (share_basis_points populated TABLE_SLOTS) st.

Definition is_saturated (b : BigramBloom) : bool := bool_decide (st_state (status b) = Saturated).

(** [corpus_status]: inputs seen, eligible and rejected, and the share. *)
Definition corpus_step (b : BigramBloom) (minimum_input_bytes : Z) (acc : Z * Z * Z) (input : bytes) : Z * Z * Z :=
  let '(input_count, eligible, rejected) := acc in
  let input_count := input_count + 1 in
  if minimum_input_bytes <=? zlen input then
    (input_count, eligible + 1, if negb (maybe_overlaps b input) then rejected + 1 else rejected)
  else (input_count, eligible, rejected).

Definition corpus_status (b : BigramBloom) (inputs : list bytes) (minimum_input_bytes : Z) : Z * Z * Z * Z :=
  let '(input_count, eligible, rejected) := foldl (corpus_step b minimum_input_bytes) (0, 0, 0) inputs in
  (input_count, eligible, rejected, share_basis_points rejected input_count).

End bloom.

(** ** The table *)

Lemma land63_nonneg s : 0 <= Z.land s 63 < 64.
Proof. change 63 with (Z.ones 6). rewrite Z.land_ones by lia. by apply Z.mod_pos_bound. Qed.

Lemma get_bit_testbit table s :
  get_bit table s = Z.testbit (default 0 (table !! Z.to_nat (Z.shiftr s 6))) (Z.land s 63).
Proof. unfold get_bit. apply land_bit, land63_nonneg. Qed.

Lemma slot_range h : 0 <= slot_of h < 65536.
Proof. unfold slot_of. change 0xFFFF with (Z.ones 16). rewrite Z.land_ones by lia. by apply Z.mod_pos_bound. Qed.

Lemma length_set_bit table s : length (set_bit table s) = length table.
Proof. apply length_alter. Qed.

Lemma get_set_mono table s t : get_bit table t = true -> get_bit (set_bit table s) t = true.
Proof.
  rewrite !get_bit_testbit. unfold set_bit. intros Ht.
  destruct (decide (Z.to_nat (Z.shiftr s 6) = Z.to_nat (Z.shiftr t 6))) as [->|Hne].
  - rewrite list_lookup_alter_eq. destruct (table !! _); [|by rewrite Z.bits_0 in Ht]. cbn in *. by rewrite Z.lor_spec, Ht.
  - by rewrite list_lookup_alter_ne by done.
Qed.

Lemma get_set_same table s : length table = 1024%nat -> 0 <= s < 65536 -> get_bit (set_bit table s) s = true.
Proof.
  intros Hl Hs. rewrite get_bit_testbit. unfold set_bit. rewrite list_lookup_alter_eq.
  assert (Hlt : (Z.to_nat (Z.shiftr s 6) < length table)%nat).
  { rewrite Hl, Z.shiftr_div_pow2 by lia. change (2 ^ 6) with 64. Z.div_mod_to_equations. lia. }
  apply lookup_lt_is_Some_2 in Hlt as [w ->]. cbn. pose proof (land63_nonneg s).
  rewrite Z.lor_spec, Z.shiftl_1_l, Z.pow2_bits_true by lia. apply orb_true_r.
Qed.

(** Both slots of an anchor are set. *)
Definition has_slots (table : list Z) (anchor : bytes) : bool :=
  get_bit table (fst (ngram_slots anchor)) && get_bit table (snd (ngram_slots anchor)).

(** The inlined probe is the lookup of the case-folded anchor. *)
Lemma contains_folded table w :
  zlen w = MAX_ANCHOR_BYTES -> contains_anchor_ascii8 table w = has_slots table (fold_case w).
Proof.
  intros Hl. unfold contains_anchor_ascii8, has_slots, ngram_slots, fold_case, zlen in *. rewrite length_map, Hl.
  rewrite <- (foldl_fmap hash_step). change (to_ascii_lowercase <$> w) with (map to_ascii_lowercase w).
  by destruct (foldl hash_step _ _).
Qed.

Lemma has_slots_mono table s anchor : has_slots table anchor = true -> has_slots (set_bit table s) anchor = true.
Proof. unfold has_slots. intros [? ?]%andb_true_iff. by rewrite !get_set_mono. Qed.

Lemma as_slice_from_slice w : AnchorKey_as_slice (AnchorKey_from_slice w) = fold_case w.
Proof.
  unfold AnchorKey_as_slice, AnchorKey_from_slice, zlen, fold_case. cbn [ak_len ak_bytes].
  rewrite Nat2Z.id, <- (length_map to_ascii_lowercase w). apply take_app_length.
Qed.

(** ** Windows and selection *)

Lemma select_step_source f sel entry :
  exists fr, select_step f sel entry = Some (fr, AnchorKey_from_slice (snd entry), fst entry) \/
    (select_step f sel entry = sel /\ is_Some sel).
Proof.
  destruct entry as [pos w]. unfold select_step. destruct (ngram_slots _) as [s1 s2]. cbn [fst snd].
  eexists. destruct sel as [cur|]; [|by left]. destruct (candidate_lt _ _); [by left | right]. split; [done | by eexists].
Qed.

(** The selected anchor is the key of one of the literal's windows. *)
Lemma select_anchor_window f bs :
  (8 <= length bs)%nat ->
  exists fr pos w, select_anchor f bs = Some (fr, AnchorKey_from_slice w, pos) /\ w ∈ windows 8 bs.
Proof.
  intros Hl. unfold select_anchor. change (Z.to_nat MAX_ANCHOR_BYTES) with 8%nat.
  assert (Hgen : forall es sel,
    (forall e, e ∈ es -> snd e ∈ windows 8 bs) ->
    (is_Some sel \/ es <> []) ->
    (forall fr k pos, sel = Some (fr, k, pos) -> exists w, k = AnchorKey_from_slice w /\ w ∈ windows 8 bs) ->
    exists fr pos w, foldl (select_step f) sel es = Some (fr, AnchorKey_from_slice w, pos) /\ w ∈ windows 8 bs).
  { induction es as [|e es IH]; intros sel Hes Hsome Hsel; cbn [foldl].
    - destruct Hsome as [[[[fr k] pos] ->]|]; [|done]. destruct (Hsel fr k pos eq_refl) as (w & -> & Hw). by exists fr, pos, w.
    - apply IH; [intros e' He'; apply Hes; by right | left |].
      + destruct (select_step_source f sel e) as [fr [->|[-> Hs]]]; [by eexists | done].
      + intros fr k pos Hk. destruct (select_step_source f sel e) as [fr' [He|[He _]]]; rewrite He in Hk; [|eauto].
        injection Hk as <- <- <-. exists (snd e). split; [done|]. apply Hes. left. }
  apply Hgen; [| right | done].
  - intros e (i & w & -> & Hi)%elem_of_lookup_imap. cbn [snd]. by eapply list_elem_of_lookup_2.
  - pose proof (windows_nonempty 8 bs Hl). by destruct (windows 8 bs).
Qed.

(** ** Population *)

Lemma count_bits_lor w k (l : list nat) :
  0 <= k -> NoDup l ->
  (length (List.filter (fun j => Z.testbit (Z.lor w (Z.shiftl 1 k)) (Z.of_nat j)) l) <=
   S (length (List.filter (fun j => Z.testbit w (Z.of_nat j)) l)))%nat.
Proof.
  intros Hk. induction 1 as [|j l Hj Hnd IH]; cbn [List.filter]; [cbn; lia|].
  rewrite Z.lor_spec, Z.shiftl_1_l. destruct (decide (Z.of_nat j = k)) as [Heq|Hne].
  - assert (Htail : List.filter (fun j => Z.testbit (Z.lor w (2 ^ k)) (Z.of_nat j)) l = List.filter (fun j => Z.testbit w (Z.of_nat j)) l).
    { apply filter_ext_in. intros i Hi%list_elem_of_In. rewrite Z.lor_spec, (Z.pow2_bits_false k); [apply orb_false_r|].
      intros Hki. assert (i = j) as -> by lia. done. }
    rewrite Htail. destruct (Z.testbit w _), (Z.testbit (2 ^ k) _); cbn; lia.
  - rewrite (Z.pow2_bits_false k), orb_false_r by lia. rewrite Z.shiftl_1_l in IH. destruct (Z.testbit w _); cbn [length]; lia.
Qed.

Lemma count_ones_lor w k : 0 <= k -> count_ones (Z.lor w (Z.shiftl 1 k)) <= count_ones w + 1.
Proof. intros Hk. unfold count_ones. pose proof (count_bits_lor w k (seq 0 64) Hk (NoDup_seq 0 64)). lia. Qed.

Lemma count_ones_range w : 0 <= count_ones w <= 64.
Proof.
  unfold count_ones. pose proof (filter_length_le (fun k => Z.testbit w (Z.of_nat k)) (seq 0 64)) as Hle.
  rewrite length_seq in Hle. lia.
Qed.

Definition population (table : list Z) : Z := foldr Z.add 0 (map count_ones table).

Lemma population_range table : 0 <= population table <= 64 * zlen table.
Proof.
  unfold population, zlen. induction table as [|w table IH]; cbn [map foldr length]; [lia|]. pose proof (count_ones_range w). lia.
Qed.

Lemma population_set table s : population (set_bit table s) <= population table + 1.
Proof.
  unfold set_bit. pose proof (land63_nonneg s) as Hk. generalize (Z.to_nat (Z.shiftr s 6)) as i.
  induction table as [|w table IH]; intros [|i]; unfold population in *; cbn [alter list_alter map foldr]; try lia.
  - pose proof (count_ones_lor w (Z.land s 63)). lia.
  - specialize (IH i). lia.
Qed.

(** ** Construction *)

Section soundness.
Context `{AhoCorasick}.

(** What the insertion of literals keeps and only grows. *)
Record grows (b b' : BigramBloom) : Prop := {
  g_len : length (bits b') = length (bits b);
  g_bits : forall anchor, has_slots (bits b) anchor = true -> has_slots (bits b') anchor = true;
  g_short : short_anchors b' = short_anchors b;
  g_min : minimum_anchor_bytes b' = minimum_anchor_bytes b;
  g_state : state b' = state b;
  g_width : Z.testbit (width_mask b) 7 = true -> Z.testbit (width_mask b') 7 = true }.

#[local] Instance grows_preorder : PreOrder grows.
Proof.
  split; [by split|]. intros a b c [] []. split; try congruence; auto.
Qed.

(** The literal has a window whose two slots are set. *)
Definition anchored (b : BigramBloom) (literal : str) : Prop :=
  Z.testbit (width_mask b) 7 = true /\
  exists w, w ∈ windows 8 (as_bytes literal) /\ has_slots (bits b) (fold_case w) = true.

Definition is_long (literal : str) : bool := MAX_ANCHOR_BYTES <=? str_len literal.

Lemma insert_anchor_slots b anchor : length (bits b) = 1024%nat -> has_slots (bits (insert_anchor b anchor)) anchor = true.
Proof.
  intros Hl. unfold insert_anchor, has_slots. destruct (ngram_slots anchor) as [s1 s2] eqn:E. cbn [bits fst snd].
  unfold ngram_slots in E. destruct (foldl _ _ _) as [h1 h2]. injection E as <- <-.
  rewrite get_set_mono by (apply get_set_same; [done | apply slot_range]). cbn [andb].
  apply get_set_same; [by rewrite length_set_bit | apply slot_range].
Qed.

Lemma insert_literal_spec f b literal :
  length (bits b) = 1024%nat ->
  exists b', insert_literal f b literal = Some b' /\ grows b b' /\ (is_long literal = true -> anchored b' literal).
Proof.
  intros Hl. unfold insert_literal, is_long, str_len. destruct (Z.ltb_spec (zlen (as_bytes literal)) MAX_ANCHOR_BYTES) as [Hs|Hs].
  { exists b. split; [done|]. split; [reflexivity|]. intros ?%Z.leb_le. lia. }
  unfold zlen, MAX_ANCHOR_BYTES in Hs.
  destruct (select_anchor_window f (as_bytes literal)) as (fr & pos & w & -> & Hw); [lia|].
  set (b1 := mkBloom _ _ _ _ _). eexists. split; [done|]. unfold insert_folded_anchor. rewrite as_slice_from_slice.
  assert (H8 : Z.testbit (width_mask (insert_anchor b1 (fold_case w))) 7 = true).
  { unfold insert_anchor. destruct (ngram_slots _). cbn [width_mask b1]. unfold b1. cbn [width_mask].
    rewrite Z.lor_spec. apply orb_true_r. }
  split.
  - unfold insert_anchor in *. destruct (ngram_slots _) as [s1 s2]. split; cbn [bits short_anchors minimum_anchor_bytes state]; try done.
    + by rewrite !length_set_bit.
    + intros anchor Ha. by apply has_slots_mono, has_slots_mono.
  - intros _. split; [done|]. exists w. split; [done|]. by apply insert_anchor_slots.
Qed.

Lemma insert_literals_spec f b literals :
  length (bits b) = 1024%nat ->
  exists b', insert_literals f b literals = Some b' /\ grows b b' /\
    Forall (fun l => is_long l = true -> anchored b' l) literals.
Proof.
  revert b. induction literals as [|l ls IH]; intros b Hl; cbn [insert_literals].
  { exists b. split; [done|]. split; [reflexivity | constructor]. }
  destruct (insert_literal_spec f b l Hl) as (b1 & -> & Hg1 & Ha1).
  destruct (IH b1) as (b2 & -> & Hg2 & Ha2); [by rewrite (g_len _ _ Hg1)|].
  exists b2. split; [done|]. split; [by transitivity b1|]. constructor; [|done].
  intros Hlong. destruct (Ha1 Hlong) as (H7 & w & Hw & Hs). split; [by apply Hg2|]. exists w. split; [done|]. by apply Hg2.
Qed.

Lemma count_literals_short literals f short :
  snd (foldl count_literal (f, short) literals) =
  short ++ map as_bytes (List.filter (fun l => negb (is_long l)) literals).
Proof.
  revert f short. induction literals as [|l ls IH]; intros f short; cbn [foldl List.filter map]; [by rewrite app_nil_r|].
  unfold count_literal at 2. unfold is_long at 1, str_len.
  destruct (Z.ltb_spec (zlen (as_bytes l)) MAX_ANCHOR_BYTES), (Z.leb_spec MAX_ANCHOR_BYTES (zlen (as_bytes l))); try lia; cbn [negb]; rewrite IH.
  - cbn [map]. by rewrite <- app_assoc.
  - done.
Qed.

(** What construction yields: an invalid filter, or a table and an automaton
    that own every literal. *)
Record owns (b : BigramBloom) (literals : list str) : Prop := {
  o_long : Forall (fun l => is_long l = true -> anchored b l) literals;
  o_short : forall l, l ∈ literals -> is_long l = false ->
    exists ac shorts, short_anchors b = Some ac /\ ac_build shorts = Some ac /\ as_bytes l ∈ shorts;
  o_state : state b = classify_population (popcount b) TABLE_SLOTS }.

Lemma from_literal_prefixes_owns literals :
  state (from_literal_prefixes literals) = Invalid \/ owns (from_literal_prefixes literals) literals.
Proof.
  unfold from_literal_prefixes. destruct (_ || _); [by left|].
  destruct (foldl count_literal (∅, []) literals) as [f shorts] eqn:Hfold.
  pose proof (count_literals_short literals ∅ []) as Hshorts. rewrite Hfold in Hshorts. cbn [snd app] in Hshorts.
  destruct (minimum_len literals) as [mn|]; [|by left].
  assert (Hin : forall l, l ∈ literals -> is_long l = false -> as_bytes l ∈ shorts).
  { intros l Hl Hs. rewrite Hshorts. apply list_elem_of_fmap_2, list_elem_of_In, filter_In. rewrite Hs. split; [by apply list_elem_of_In | done]. }
  destruct (bool_decide_reflect (shorts = [])) as [Hnil|Hne].
  - destruct (insert_literals_spec f (mkBloom (bits blank) (short_anchors blank) (width_mask blank) (Z.min mn MAX_ANCHOR_BYTES) (state blank)) literals)
      as (b & -> & Hg & Ha); [done|].
    right. split; [done | | done]. intros l Hl Hs. specialize (Hin l Hl Hs). rewrite Hnil in Hin. by apply not_elem_of_nil in Hin.
  - destruct (ac_build shorts) as [ac|] eqn:Hac; [|by left].
    destruct (insert_literals_spec f (mkBloom (bits blank) (Some ac) (width_mask blank) (Z.min mn MAX_ANCHOR_BYTES) (state blank)) literals)
      as (b & -> & Hg & Ha); [done|].
    right. split; [done | | done]. intros l Hl Hs. exists ac, shorts. split; [apply (g_short _ _ Hg) | auto].
Qed.

Lemma any_window_spec table chunk i n :
  any_window table chunk i n = true <->
  exists j, (i <= j < i + n)%nat /\ contains_anchor_ascii8 table (take (Z.to_nat MAX_ANCHOR_BYTES) (drop j chunk)) = true.
Proof.
  revert i. induction n as [|n IH]; intros i; cbn [any_window]; [split; [done | intros (j & ? & _); lia]|].
  destruct (contains_anchor_ascii8 _ _) eqn:E.
  - split; [intros _; exists i; split; [lia | done] | done].
  - rewrite IH. split; intros (j & Hj & Hc); exists j; (split; [|done]); [lia|].
    destruct (decide (j = i)) as [->|]; [congruence | lia].
Qed.

Lemma any_long_anchor_spec b chunk :
  any_long_anchor b chunk = true <-> exists w, w ∈ windows 8 chunk /\ has_slots (bits b) (fold_case w) = true.
Proof.
  unfold any_long_anchor, zlen, MAX_ANCHOR_BYTES. destruct (Z.ltb_spec (Z.of_nat (length chunk)) 8) as [Hlt|Hge].
  { split; [done|]. intros (w & (a & c & -> & Hw)%elem_of_windows & _). rewrite !length_app in Hlt. lia. }
  rewrite any_window_spec. change (Z.to_nat MAX_ANCHOR_BYTES) with 8%nat. split.
  - intros (j & Hj & Hc). exists (take 8 (drop j chunk)).
    assert (Hl : length (take 8 (drop j chunk)) = 8%nat) by (rewrite length_take, length_drop; lia). split.
    + apply elem_of_windows. exists (take j chunk), (drop 8 (drop j chunk)). by rewrite !take_drop.
    + rewrite <- contains_folded; [done|]. unfold zlen. by rewrite Hl.
  - intros (w & (a & c & -> & Hw)%elem_of_windows & Hs). exists (length a). split; [rewrite !length_app; lia|].
    rewrite drop_app_length, <- Hw, take_app_length, contains_folded; [done|]. unfold zlen. by rewrite Hw.
Qed.

(** A window of the literal is a window of the chunk up to case. *)
Lemma occurs_window needle hay w :
  occurs_ci needle hay -> w ∈ windows 8 needle -> exists w', w' ∈ windows 8 hay /\ fold_case w' = fold_case w.
Proof.
  intros (a & v & b & -> & Hv) (p & q & -> & Hw)%elem_of_windows. unfold fold_case in *. rewrite !map_app in Hv.
  apply map_eq_app in Hv as (p' & r & -> & Hp & Hr). apply map_eq_app in Hr as (w' & q' & -> & Hw' & _).
  exists w'. split; [|done]. apply elem_of_windows. exists (a ++ p'), (q' ++ b). rewrite <- !app_assoc. split; [done|].
  apply (f_equal length) in Hw'. rewrite !length_map in Hw'. lia.
Qed.

(** C10. The prefilter never loses a credential: when a trained literal occurs in
    a chunk in any ASCII case, the filter admits the chunk. *)
Theorem prefilter_admits_literals (literals : list str) (literal : str) (chunk : bytes) :
  literal ∈ literals -> occurs_ci (as_bytes literal) chunk ->
  maybe_overlaps (from_literal_prefixes literals) chunk = true.
Proof.
  intros Hl Hocc. set (b := from_literal_prefixes literals). unfold maybe_overlaps.
  destruct (bool_decide_reflect (state b = Healthy)) as [Hst|]; [cbn [negb] | done].
  destruct (from_literal_prefixes_owns literals) as [Hinv|[Hlong Hshort _]]; fold b in Hinv || fold b in Hlong, Hshort; [congruence|].
  destruct (_ <? _); [done|]. destruct (is_long literal) eqn:El.
  - rewrite Forall_forall in Hlong. destruct (Hlong literal Hl El) as (H7 & w & Hw & Hs).
    destruct (match short_anchors b with Some _ => _ | None => _ end); [done|].
    destruct (Z.eqb_spec (width_mask b) 0) as [Hz|_]; [by rewrite Hz, Z.bits_0 in H7|].
    apply any_long_anchor_spec. destruct (occurs_window _ _ w Hocc Hw) as (w' & Hw' & Hf). exists w'. by rewrite Hf.
  - destruct (Hshort literal Hl El) as (ac & shorts & -> & Hac & Hin).
    rewrite (proj2 (ac_finds shorts ac chunk Hac)); [done|]. by exists (as_bytes literal).
Qed.

(** ** Health *)

Definition long_literals (literals : list str) : list str := List.filter is_long literals.

Lemma insert_literal_population f b literal b' :
  insert_literal f b literal = Some b' ->
  population (bits b') <= population (bits b) + (if is_long literal then 2 else 0) /\
  (is_long literal = false -> width_mask b' = width_mask b).
Proof.
  unfold insert_literal, is_long, str_len.
  destruct (Z.ltb_spec (zlen (as_bytes literal)) MAX_ANCHOR_BYTES), (Z.leb_spec MAX_ANCHOR_BYTES (zlen (as_bytes literal))); try lia.
  - intros [= ->]. split; [lia | done].
  - destruct (select_anchor _ _) as [[[fr key] pos]|]; [|done]. intros [= <-]. unfold insert_folded_anchor, insert_anchor.
    destruct (ngram_slots _) as [s1 s2]. cbn [bits]. split; [|done].
    pose proof (population_set (bits b) s1). pose proof (population_set (set_bit (bits b) s1) s2). lia.
Qed.

Lemma insert_literals_population f b literals b' :
  insert_literals f b literals = Some b' -> population (bits b') <= population (bits b) + 2 * zlen (long_literals literals).
Proof.
  unfold long_literals, zlen. revert b. induction literals as [|l ls IH]; intros b; cbn [insert_literals List.filter].
  { intros [= ->]. cbn. lia. }
  destruct (insert_literal f b l) as [b1|] eqn:E; [|done]. intros Hi. apply IH in Hi.
  apply insert_literal_population in E as [E _]. destruct (is_long l); cbn [length]; lia.
Qed.

Lemma classify_table b : length (bits b) = 1024%nat ->
  classify_population (popcount b) TABLE_SLOTS = if 39322 <=? popcount b then Saturated else Healthy.
Proof.
  intros Hl. unfold classify_population. pose proof (population_range (bits b)) as Hp. unfold zlen in Hp. rewrite Hl in Hp.
  change (population (bits b)) with (popcount b) in Hp. change (TABLE_SLOTS =? 0) with false. cbn [orb].
  destruct (Z.ltb_spec TABLE_SLOTS (popcount b)); [unfold TABLE_SLOTS in *; lia|]. done.
Qed.

(** A filter built without failures: the table of the insertion loop, classified,
    with an owner for some literal. *)
Lemma built_shape literals :
  literals <> [] -> Forall (fun l => l <> []) literals -> (forall pats, is_Some (ac_build pats)) ->
  exists b, from_literal_prefixes literals = recompute_saturation b /\ length (bits b) = 1024%nat /\
    popcount b <= 2 * zlen (long_literals literals) /\ negb (width_mask b =? 0) || bool_decide (is_Some (short_anchors b)) = true.
Proof.
  intros Hne Hall Hac.
  unfold from_literal_prefixes. rewrite bool_decide_false by done.
  replace (existsb _ literals) with false.
  2: { symmetry. apply not_true_iff_false. intros (l & Hl & Hnil)%existsb_exists. apply bool_decide_eq_true in Hnil.
       rewrite Forall_forall in Hall. by apply (Hall l), Hnil; apply list_elem_of_In. }
  cbn [orb]. destruct (foldl count_literal (∅, []) literals) as [f shorts] eqn:Hfold.
  pose proof (count_literals_short literals ∅ []) as Hshorts. rewrite Hfold in Hshorts. cbn [snd app] in Hshorts.
  destruct literals as [|l0 ls]; [done|]. cbn [minimum_len]. set (mn := Z.min _ _). set (lits := l0 :: ls) in *.
  destruct (bool_decide_reflect (shorts = [])) as [Hnil|Hsh].
  - destruct (insert_literals_spec f (mkBloom (bits blank) (short_anchors blank) (width_mask blank) mn (state blank)) lits eq_refl) as (b & Hi & Hg & Ha).
    rewrite Hi. exists b. split; [done|]. split; [apply (g_len _ _ Hg)|]. apply insert_literals_population in Hi. split; [exact Hi|].
    apply orb_true_iff. left. rewrite Forall_forall in Ha. destruct (Ha l0) as (H7 & _); [left| |].
    + destruct (is_long l0) eqn:E; [done|]. exfalso. rewrite Hnil in Hshorts. subst lits. cbn [List.filter] in Hshorts. by rewrite E in Hshorts.
    + apply negb_true_iff, Z.eqb_neq. intros Hz. by rewrite Hz, Z.bits_0 in H7.
  - destruct (Hac shorts) as [ac ->].
    destruct (insert_literals_spec f (mkBloom (bits blank) (Some ac) (width_mask blank) mn (state blank)) lits eq_refl) as (b & Hi & Hg & Ha).
    rewrite Hi. exists b. split; [done|]. split; [apply (g_len _ _ Hg)|]. apply insert_literals_population in Hi. split; [exact Hi|].
    apply orb_true_iff. right. rewrite (g_short _ _ Hg). done.
Qed.

(** Health of a built filter: unless the automaton fails to build, filters
    for nonempty literals are never invalid, the status reports the state the
    query uses, at most two slots are populated per long literal, and so
    fewer than 19661 long literals leave the filter healthy. *)
Theorem built_filter_health (literals : list str) :
  literals <> [] -> Forall (fun l => l <> []) literals -> (forall pats, is_Some (ac_build pats)) ->
  let b := from_literal_prefixes literals in
  st_state (status b) = state b /\ state b <> Invalid /\
  populated_slots (status b) <= 2 * zlen (long_literals literals) /\
  (zlen (long_literals literals) < 19661 -> state b = Healthy).
Proof.
  intros Hne Hall Hac. cbv zeta.
  destruct (built_shape literals Hne Hall Hac) as (b & -> & Hl & Hpop & Hown). pose proof (classify_table b Hl) as Hc.
  assert (Hst : state (recompute_saturation b) = classify_population (popcount b) TABLE_SLOTS) by done.
  assert (Hinv : state (recompute_saturation b) <> Invalid) by (rewrite Hst, Hc; by destruct (_ <=? _)).
  split; [|split; [done|split; [exact Hpop|]]].
  - unfold status. cbn [st_state]. change (popcount (recompute_saturation b)) with (popcount b).
    change (width_mask (recompute_saturation b)) with (width_mask b). change (short_anchors (recompute_saturation b)) with (short_anchors b).
    rewrite Hown, (bool_decide_false (_ = Invalid)), (bool_decide_true (_ = classify_population _ _)) by done. done.
  - intros Hfew. rewrite Hst, Hc. destruct (Z.leb_spec 39322 (popcount b)); [lia | done].
Qed.

(** Counters of the corpus report. *)
Lemma corpus_counts b mn inputs :
  let '(input_count, eligible, rejected, share) := corpus_status b inputs mn in
  input_count = zlen inputs /\ 0 <= rejected <= eligible /\ eligible <= input_count /\ 0 <= share <= 10000.
Proof.
  unfold corpus_status. assert (Hgen : forall n e r, 0 <= r <= e -> e <= n ->
    let '(n', e', r') := foldl (corpus_step b mn) (n, e, r) inputs in n' = n + zlen inputs /\ 0 <= r' <= e' /\ e' <= n').
  { unfold zlen. induction inputs as [|i inputs IH]; intros n e r Hr He; cbn [foldl length]; [lia|].
    unfold corpus_step at 2. destruct (mn <=? zlen i), (negb (maybe_overlaps b i)).
    all: match goal with |- context [foldl _ (?a, ?b, ?c) _] => specialize (IH a b c ltac:(lia) ltac:(lia)) end.
    all: destruct (foldl _ _ _) as [[? ?] ?]; lia. }
  specialize (Hgen 0 0 0 ltac:(lia) ltac:(lia)). destruct (foldl _ _ _) as [[n e] r]. destruct Hgen as (-> & Hr & He).
  split; [lia|]. split; [done|]. split; [done|]. unfold share_basis_points. destruct (Z.eqb_spec (0 + zlen inputs) 0); [lia|].
  pose proof (Z.div_pos (r * 10000) (0 + zlen inputs)). unfold zlen in *. lia.
Qed.

End soundness.

(** ** Witnesses *)

(** A naive matcher: every window of the pattern's length, compared up to case. *)
Definition naive_match (pats : list bytes) (hay : bytes) : bool :=
  existsb (fun p => existsb (fun w => bool_decide (fold_case w = fold_case p)) (windows (length p) hay)) pats.

Lemma naive_match_spec pats hay : naive_match pats hay = true <-> exists p, p ∈ pats /\ occurs_ci p hay.
Proof.
  unfold naive_match. rewrite existsb_exists. split.
  - intros (p & Hp & (w & Hw & Hf)%existsb_exists). exists p. split; [by apply list_elem_of_In|].
    apply list_elem_of_In, elem_of_windows in Hw as (a & b & -> & _). exists a, w, b. split; [done|]. by apply bool_decide_eq_true in Hf.
  - intros (p & Hp & a & w & b & -> & Hf). exists p. split; [by apply list_elem_of_In|]. apply existsb_exists. exists w.
    split; [|by apply bool_decide_eq_true]. apply list_elem_of_In, elem_of_windows. exists a, b. split; [done|].
    apply (f_equal length) in Hf. unfold fold_case in Hf. by rewrite !length_map in Hf.
Qed.

#[refine, local] Instance naive_automaton : AhoCorasick :=
  {| automaton := list bytes; ac_build := Some; ac_is_match := naive_match |}.
Proof. intros pats ac hay [= ->]. apply naive_match_spec. Defined.

Definition sample_literals : list str := [$"AKIA"; $"glpat-0123"; $"sk_live_"].

Lemma prefilter_admits_literals_witness :
  occurs_ci (as_bytes $"glpat-0123") $"token = GLPAT-0123abc" /\
  maybe_overlaps (from_literal_prefixes sample_literals) $"token = GLPAT-0123abc" = true /\
  maybe_overlaps (from_literal_prefixes sample_literals) $"nothing to see here" = false.
Proof.
  assert (Hocc : occurs_ci (as_bytes $"glpat-0123") $"token = GLPAT-0123abc") by (exists $"token = ", $"GLPAT-0123", $"abc"; by_decision).
  split; [exact Hocc|]. split; [|by_eval].
  exact (prefilter_admits_literals sample_literals $"glpat-0123" $"token = GLPAT-0123abc" ltac:(by_decision) Hocc).
Defined.

