(* ===== verification/SourceSkip.v ===== *)
(** * Coverage counters and the scan gate ([crates/sources/src/skip.rs])

    The typed skip events with their counters, and the gate that keeps the
    recording of one scan out of the measuring window of another.  The gate is a
    mutex with a condition variable: each locked section is one step, a wait is
    a step that is not enabled yet. *)

From stdpp Require Import relations.
From S2P Require Import Prelude.

(** ** Skip events and counters *)

Inductive SourceSkipEvent :=
  | OverMaxSize | Binary | Excluded | Unreadable | GitObjectUnreadable | ArchiveTruncated
  | BinarySectionNameUnresolved | SourceTruncated | StructuredSourceParseFailure
  | ArchiveDuplicateScanUnavailable | GitLfsPointer.

#[export] Instance SourceSkipEvent_eq_dec : EqDecision SourceSkipEvent.
Proof. solve_decision. Defined.

Definition event_index (e : SourceSkipEvent) : nat :=
  match e with
  | OverMaxSize => 0 | Binary => 1 | Excluded => 2 | Unreadable => 3 | GitObjectUnreadable => 4
  | ArchiveTruncated => 5 | BinarySectionNameUnresolved => 6 | SourceTruncated => 7
  | StructuredSourceParseFailure => 8 | ArchiveDuplicateScanUnavailable => 9 | GitLfsPointer => 10
  end.

(** [[AtomicUsize; 11]]; [fetch_add] wraps. *)
Definition telemetry : Type := list Z.

Definition telemetry_new : telemetry := replicate 11 0.
Definition telemetry_reset (t : telemetry) : telemetry := map (fun _ => 0) t.
Definition fetch_add (i : nat) (delta : Z) (t : telemetry) : telemetry := list_alter (fun c => (c + delta) mod 2 ^ 64) i t.

Definition record_skip_events (e : SourceSkipEvent) (delta : Z) (t : telemetry) : telemetry :=
  fetch_add (event_index e) delta t.
Definition record_skip_event (e : SourceSkipEvent) (t : telemetry) : telemetry := record_skip_events e 1 t.

Record SkipCounts := mkCounts {
  sk_over_max_size : Z; sk_binary : Z; sk_excluded : Z; sk_unreadable : Z; sk_git_object_unreadable : Z;
  sk_archive_truncated : Z; sk_binary_section_name_unresolved : Z; sk_source_truncated : Z;
  sk_structured_source_parse_failures : Z; sk_archive_duplicate_scan_unavailable : Z; sk_git_lfs_pointer : Z }.

Definition counter (t : telemetry) (i : nat) : Z := nth i t 0.

Definition snapshot (t : telemetry) : SkipCounts :=
  mkCounts (counter t 0) (counter t 1) (counter t 2) (counter t 3) (counter t 4) (counter t 5) (counter t 6)
    (counter t 7) (counter t 8) (counter t 9) (counter t 10).

(** Sums of [usize] counters panic on overflow. *)
Definition skip_total (c : SkipCounts) : outcome Z :=
  let! a := add_checked usize_max (sk_over_max_size c) (sk_binary c) in
  let! a := add_checked usize_max a (sk_excluded c) in
  let! a := add_checked usize_max a (sk_unreadable c) in
  add_checked usize_max a (sk_archive_truncated c).

Definition add_delta (i : nat) (delta : Z) (t : telemetry) : telemetry :=
  if 0 <? delta then fetch_add i delta t else t.

Definition merge_skip_count_deltas (d : SkipCounts) (t : telemetry) : telemetry :=
  let t := add_delta 0 (sk_over_max_size d) t in
  let t := add_delta 1 (sk_binary d) t in
  let t := add_delta 3 (sk_unreadable d) t in
  let t := add_delta 4 (sk_git_object_unreadable d) t in
  let t := add_delta 5 (sk_archive_truncated d) t in
  let t := add_delta 6 (sk_binary_section_name_unresolved d) t in
  let t := add_delta 7 (sk_source_truncated d) t in
  let t := add_delta 8 (sk_structured_source_parse_failures d) t in
  let t := add_delta 9 (sk_archive_duplicate_scan_unavailable d) t in
  add_delta 10 (sk_git_lfs_pointer d) t.

(** The compare-exchange loop, with no interference, stores the floored
    difference. *)
Definition subtract_excluded (delta : Z) (t : telemetry) : telemetry :=
  if delta =? 0 then t else list_alter (fun c => saturating_sub c delta) 2%nat t.

Definition store_skip_counts (c : SkipCounts) (t : telemetry) : telemetry :=
  [sk_over_max_size c; sk_binary c; sk_excluded c; sk_unreadable c; sk_git_object_unreadable c;
   sk_archive_truncated c; sk_binary_section_name_unresolved c; sk_source_truncated c;
   sk_structured_source_parse_failures c; sk_archive_duplicate_scan_unavailable c; sk_git_lfs_pointer c].

(** ** The gate *)

Definition thread : Type := nat.

Record GateState := mkGate { active_scans : Z; exclusive_owner : option thread; exclusive_waiters : Z }.

Definition gate_idle : GateState := mkGate 0 None 0.

Definition scan_gate_exclusive_available (g : GateState) : bool :=
  bool_decide (exclusive_owner g = None) && (active_scans g =? 0).

(** The conditions of the three wait loops. *)
Definition exclusive_must_wait (g : GateState) : bool :=
  negb (bool_decide (exclusive_owner g = None)) || (0 <? active_scans g).

Definition foreign_owner (g : GateState) (me : thread) : bool :=
  match exclusive_owner g with Some owner => negb (owner =? me)%nat | None => false end.

Definition lease_must_wait (g : GateState) (me : thread) : bool :=
  foreign_owner g me || (bool_decide (exclusive_owner g = None) && (0 <? exclusive_waiters g)).

(** Where a thread is: between two locked sections. *)
Inductive phase :=
  | Running
  | WaitingExclusive
  | WaitingAdmission (e : SourceSkipEvent) (delta : Z)
  | RecordingAdmitted (e : SourceSkipEvent) (delta : Z).

#[export] Instance phase_eq_dec : EqDecision phase.
Proof. solve_decision. Defined.

(** The process: the gate, the phase and attribution depth of each thread, the
    live scans with the thread that acquired the lease and the number of its
    clones, and the counters. *)
Record process := mkProcess {
  gate : GateState;
  phases : gmap nat phase;
  depths : gmap nat nat;
  scans : gmap nat (thread * nat);
  counters : telemetry }.

Definition process_new : process := mkProcess gate_idle ∅ ∅ ∅ telemetry_new.

Definition phase_of (w : process) (t : thread) : phase := default Running (phases w !! t).
Definition depth_of (w : process) (t : thread) : nat := default 0%nat (depths w !! t).

Definition set_gate (w : process) (g : GateState) : process :=
  mkProcess g (phases w) (depths w) (scans w) (counters w).
Definition set_phase (w : process) (t : thread) (p : phase) : process :=
  mkProcess (gate w) (<[t := p]> (phases w)) (depths w) (scans w) (counters w).
Definition set_depth (w : process) (t : thread) (d : nat) : process :=
  mkProcess (gate w) (phases w) (<[t := d]> (depths w)) (scans w) (counters w).
Definition set_scans (w : process) (s : gmap nat (thread * nat)) : process :=
  mkProcess (gate w) (phases w) (depths w) s (counters w).

(** One locked section, or one atomic operation, of a thread. *)
Inductive action :=
  | RequestExclusive (t : thread)
  | EnterExclusive (t : thread)
  | DropScope (t : thread)
  | AcquireLease (t : thread) (scan : nat)
  | CloneLease (scan : nat)
  | DropLease (scan : nat)
  | EnterScan (t : thread) (scan : nat)
  | LeaveScan (t : thread)
  | CallRecord (t : thread) (e : SourceSkipEvent) (delta : Z)
  | AwaitAdmission (t : thread)
  | AddCount (t : thread).

(** [enter_exclusive_scan_scope] up to its wait loop, and past it. *)
Definition request_exclusive (w : process) (t : thread) : outcome process :=
  let g := gate w in
  let! n := add_checked usize_max (exclusive_waiters g) 1 in
  Ret (set_phase (set_gate w (mkGate (active_scans g) (exclusive_owner g) n)) t WaitingExclusive).

Definition enter_exclusive (w : process) (t : thread) : outcome process :=
  let g := gate w in
  if exclusive_waiters g =? 0 then Panic
  else Ret (set_phase (set_gate w (mkGate (active_scans g) (Some t) (exclusive_waiters g - 1))) t Running).

(** [ScanCounterScope::drop]; the scope stays on its thread. *)
Definition drop_scope (w : process) : process :=
  let g := gate w in set_gate w (mkGate (active_scans g) None (exclusive_waiters g)).

(** [acquire_scan_read_lease] past its wait loop. *)
Definition acquire_lease (w : process) (t : thread) (scan : nat) : outcome process :=
  let g := gate w in
  let! n := add_checked usize_max (active_scans g) 1 in
  Ret (set_scans (set_gate w (mkGate n (exclusive_owner g) (exclusive_waiters g))) (<[scan := (t, 1%nat)]> (scans w))).

(** A clone of the lease dropped; the last one is [ActiveScan::drop]. *)
Definition drop_lease (w : process) (scan : nat) (t : thread) (clones : nat) : process :=
  let g := gate w in
  if (clones =? 1)%nat
  then set_scans (set_gate w (mkGate (saturating_sub (active_scans g) 1) (exclusive_owner g) (exclusive_waiters g)))
         (delete scan (scans w))
  else set_scans w (<[scan := (t, (clones - 1)%nat)]> (scans w)).

(** [await_recording_admission]: attributed work passes, other threads wait out
    a foreign scope. *)
Definition recording_must_wait (w : process) (t : thread) : bool :=
  (depth_of w t =? 0)%nat && foreign_owner (gate w) t.

(** [None] when the action is not enabled. *)
Definition perform (w : process) (a : action) : option (outcome process) :=
  match a with
  | RequestExclusive t =>
      if bool_decide (phase_of w t = Running) then Some (request_exclusive w t) else None
  | EnterExclusive t =>
      if bool_decide (phase_of w t = WaitingExclusive) && negb (exclusive_must_wait (gate w))
      then Some (enter_exclusive w t) else None
  | DropScope t =>
      if bool_decide (phase_of w t = Running) && bool_decide (exclusive_owner (gate w) = Some t)
      then Some (Ret (drop_scope w)) else None
  | AcquireLease t scan =>
      if bool_decide (phase_of w t = Running) && bool_decide (scans w !! scan = None) &&
         negb (lease_must_wait (gate w) t)
      then Some (acquire_lease w t scan) else None
  | CloneLease scan =>
      (fun '(t, clones) => Ret (set_scans w (<[scan := (t, S clones)]> (scans w)))) <$> scans w !! scan
  | DropLease scan => (fun '(t, clones) => Ret (drop_lease w scan t clones)) <$> scans w !! scan
  | EnterScan t scan =>
      if bool_decide (phase_of w t = Running) && bool_decide (is_Some (scans w !! scan))
      then Some (Ret (set_depth w t (S (depth_of w t)))) else None
  | LeaveScan t =>
      if bool_decide (phase_of w t = Running) && negb (depth_of w t =? 0)%nat
      then Some (Ret (set_depth w t (depth_of w t - 1)%nat)) else None
  | CallRecord t e delta =>
      if bool_decide (phase_of w t = Running) then Some (Ret (set_phase w t (WaitingAdmission e delta))) else None
  | AwaitAdmission t =>
      match phase_of w t with
      | WaitingAdmission e delta =>
          if recording_must_wait w t then None else Some (Ret (set_phase w t (RecordingAdmitted e delta)))
      | _ => None
      end
  | AddCount t =>
      match phase_of w t with
      | RecordingAdmitted e delta =>
          Some (Ret (set_phase
            (mkProcess (gate w) (phases w) (depths w) (scans w) (record_skip_events e delta (counters w))) t Running))
      | _ => None
      end
  end.

Inductive gate_step : process -> process -> Prop :=
  | gate_step_perform w a w' : perform w a = Some (Ret w') -> gate_step w w'.

Definition reachable_process (w : process) : Prop := rtc gate_step process_new w.

(** A schedule, for evaluation. *)
Fixpoint run_actions (w : process) (actions : list action) : option process :=
  match actions with
  | [] => Some w
  | a :: rest => match perform w a with Some (Ret w') => run_actions w' rest | _ => None end
  end.

(** ** The gate keeps its counts and its promise *)

Definition is_waiting (kv : nat * phase) : Prop := snd kv = WaitingExclusive.

#[export] Instance is_waiting_dec kv : Decision (is_waiting kv).
Proof. unfold is_waiting. apply _. Defined.

Definition waiting (ps : gmap nat phase) : nat := size (filter is_waiting ps).

Lemma waiting_lookup (ps : gmap nat phase) (t : nat) : filter is_waiting ps !! t = Some WaitingExclusive <-> ps !! t = Some WaitingExclusive.
Proof. rewrite map_lookup_filter_Some. unfold is_waiting. naive_solver. Qed.

Lemma not_waiting_lookup (ps : gmap nat phase) (t : nat) : default Running (ps !! t) <> WaitingExclusive -> filter is_waiting ps !! t = None.
Proof.
  intros Hp. apply map_lookup_filter_None. right. intros p Hl Hw. unfold is_waiting in Hw. cbn in Hw. subst.
  by rewrite Hl in Hp.
Qed.

Lemma waiting_begin (ps : gmap nat phase) (t : nat) :
  default Running (ps !! t) = Running -> waiting (<[t := WaitingExclusive]> ps) = S (waiting ps).
Proof.
  intros Hp. unfold waiting. rewrite map_filter_insert, decide_True by done.
  apply map_size_insert_None, not_waiting_lookup. by rewrite Hp.
Qed.

Lemma waiting_end (ps : gmap nat phase) (t : nat) :
  default Running (ps !! t) = WaitingExclusive -> waiting ps = S (waiting (<[t := Running]> ps)).
Proof.
  intros Hp. unfold waiting. rewrite map_filter_insert, decide_False by done.
  assert (Hl : filter is_waiting ps !! t = Some WaitingExclusive).
  { apply waiting_lookup. destruct (ps !! t); cbn in Hp; congruence. }
  rewrite map_filter_delete, map_size_delete, Hl.
  assert (size (filter is_waiting ps) <> 0%nat) by (intros He; apply map_size_empty_inv in He; by rewrite He, lookup_empty in Hl).
  lia.
Qed.

Lemma waiting_same (ps : gmap nat phase) (t : nat) (p : phase) :
  default Running (ps !! t) <> WaitingExclusive -> p <> WaitingExclusive -> waiting (<[t := p]> ps) = waiting ps.
Proof.
  intros Hp Hq. unfold waiting. rewrite map_filter_insert, decide_False by done.
  by rewrite map_filter_delete, delete_id by (by apply not_waiting_lookup).
Qed.

Record gate_ok (w : process) : Prop := {
  ok_active : active_scans (gate w) = Z.of_nat (size (scans w));
  ok_waiters : exclusive_waiters (gate w) = Z.of_nat (waiting (phases w));
  ok_owner : forall o s t c, exclusive_owner (gate w) = Some o -> scans w !! s = Some (t, c) -> t = o;
  ok_clones : forall s t c, scans w !! s = Some (t, c) -> (1 <= c)%nat }.

Lemma gate_ok_new : gate_ok process_new.
Proof. split; cbn; try done; intros; by rewrite lookup_empty in *. Qed.

Ltac gate_simpl :=
  cbn [gate phases scans set_phase set_gate set_scans active_scans exclusive_owner exclusive_waiters].

Lemma request_exclusive_ok w t w' :
  gate_ok w -> phase_of w t = Running -> request_exclusive w t = Ret w' -> gate_ok w'.
Proof.
  intros [Ha Hw Ho Hc] Hp. unfold request_exclusive, add_checked. intros Hr. repeat case_match; simplify_eq.
  split; gate_simpl; try done. rewrite waiting_begin by done. lia.
Qed.

Lemma enter_exclusive_ok w t w' :
  gate_ok w -> phase_of w t = WaitingExclusive -> exclusive_must_wait (gate w) = false ->
  enter_exclusive w t = Ret w' -> gate_ok w'.
Proof.
  intros [Ha Hw Ho Hc] Hp Hm. unfold enter_exclusive. case_match; [done|]. intros [= <-].
  split; gate_simpl; try done.
  { pose proof (waiting_end _ _ Hp). unfold thread in *. lia. }
  intros o s t' c [= <-] Hl. unfold exclusive_must_wait in Hm. apply orb_false_iff in Hm as [_ Hm].
  assert (size (scans w) = 0%nat) as He by lia. apply map_size_empty_inv in He. by rewrite He, lookup_empty in Hl.
Qed.

Lemma acquire_lease_ok w t s w' :
  gate_ok w -> scans w !! s = None -> lease_must_wait (gate w) t = false ->
  acquire_lease w t s = Ret w' -> gate_ok w'.
Proof.
  intros [Ha Hw Ho Hc] Hs Hm. unfold acquire_lease, add_checked. intros Hr. repeat case_match; simplify_eq.
  split; gate_simpl; try done.
  - rewrite map_size_insert_None by done. lia.
  - intros o s' t' c Hown [[<- [= <- <-]]|[_ Hl]]%lookup_insert_Some; [|by eapply Ho].
    unfold lease_must_wait, foreign_owner in Hm. rewrite Hown in Hm. apply orb_false_iff in Hm as [Hm _].
    apply negb_false_iff, Nat.eqb_eq in Hm. done.
  - intros s' t' c [[_ [= _ <-]]|[_ Hl]]%lookup_insert_Some; [lia|by eapply Hc].
Qed.

Lemma resize_lease_ok w s t c c' :
  gate_ok w -> scans w !! s = Some (t, c) -> (1 <= c')%nat -> gate_ok (set_scans w (<[s := (t, c')]> (scans w))).
Proof.
  intros [Ha Hw Ho Hc] Hs Hc'. split; gate_simpl; try done.
  - by rewrite map_size_insert_Some.
  - intros o s' t' d Hown [[_ [= <- _]]|[_ Hl]]%lookup_insert_Some; by eapply Ho.
  - intros s' t' d [[_ [= _ <-]]|[_ Hl]]%lookup_insert_Some; [done|by eapply Hc].
Qed.

Lemma drop_lease_ok w s t c : gate_ok w -> scans w !! s = Some (t, c) -> gate_ok (drop_lease w s t c).
Proof.
  intros Hok Hs. unfold drop_lease. destruct (Nat.eqb_spec c 1).
  - destruct Hok as [Ha Hw Ho Hc]. split; gate_simpl; try done.
    + rewrite map_size_delete, Hs. unfold saturating_sub.
      assert (size (scans w) <> 0%nat) by (intros He; apply map_size_empty_inv in He; by rewrite He, lookup_empty in Hs).
      lia.
    + intros o s' t' d Hown [_ Hl]%lookup_delete_Some. by eapply Ho.
    + intros s' t' d [_ Hl]%lookup_delete_Some. by eapply Hc.
  - eapply resize_lease_ok; [done..|]. pose proof (ok_clones _ Hok _ _ _ Hs). lia.
Qed.

Lemma set_phase_ok w t p cs :
  gate_ok w -> phase_of w t <> WaitingExclusive -> p <> WaitingExclusive ->
  gate_ok (set_phase (mkProcess (gate w) (phases w) (depths w) (scans w) cs) t p).
Proof. intros [Ha Hw Ho Hc] Hp Hq. split; gate_simpl; try done. by rewrite waiting_same. Qed.

Lemma gate_step_ok w w' : gate_ok w -> gate_step w w' -> gate_ok w'.
Proof.
  intros Hok Hs. revert Hok. destruct Hs as [w0 a w1 Hp]. intros Hok. pose proof Hok as [Ha Hw Ho Hc].
  destruct a as [t|t|t|t s|s|s|t s|t|t e d|t|t]; cbn [perform] in Hp.
  - case_bool_decide; simplify_eq. by eapply request_exclusive_ok.
  - case_bool_decide; [|done]. destruct (exclusive_must_wait _) eqn:E; simplify_eq/=.
    by eapply enter_exclusive_ok.
  - repeat case_bool_decide; simplify_eq/=. by split.
  - repeat case_bool_decide; try done. destruct (lease_must_wait _ _) eqn:E; simplify_eq/=.
    by eapply acquire_lease_ok.
  - apply fmap_Some in Hp as ([t c] & Hs & [= ->]). eapply resize_lease_ok; [done..|lia].
  - apply fmap_Some in Hp as ([t c] & Hs & [= ->]). by apply drop_lease_ok.
  - repeat case_bool_decide; simplify_eq/=. by split.
  - case_bool_decide; [|done]. destruct (_ =? _)%nat; simplify_eq/=. by split.
  - case_bool_decide as Hph; simplify_eq/=. apply (set_phase_ok w0 t _ (counters w0) Hok); [by rewrite Hph|done].
  - destruct (phase_of w0 t) eqn:E; try done. destruct (recording_must_wait _ _); simplify_eq/=.
    apply (set_phase_ok w0 t _ (counters w0) Hok); [by rewrite E|done].
  - destruct (phase_of w0 t) eqn:E; try done. simplify_eq/=. apply set_phase_ok; [done|by rewrite E|done].
Qed.

Lemma reachable_gate_ok w : reachable_process w -> gate_ok w.
Proof.
  unfold reachable_process. pose proof gate_ok_new as Hnew. revert Hnew. generalize process_new as v.
  intros v Hv Hr. induction Hr as [x|x y z Hs _ IH]; [done|]. apply IH. by eapply gate_step_ok.
Qed.

(** C30. However the threads interleave, the gate counts the live scans and the
    threads waiting for an exclusive scope, the counters never underflow, and
    while a thread holds the scope every live scan is one that thread started
    itself; and while a thread waits for a free scope no scan is admitted
    before it. *)
Theorem scan_gate_isolation (w : process) :
  reachable_process w ->
  active_scans (gate w) = Z.of_nat (size (scans w)) /\
  exclusive_waiters (gate w) = Z.of_nat (waiting (phases w)) /\
  (forall owner scan starter clones,
     exclusive_owner (gate w) = Some owner -> scans w !! scan = Some (starter, clones) -> starter = owner) /\
  (forall t, perform w (EnterExclusive t) <> Some Panic) /\
  (forall t u scan, phase_of w u = WaitingExclusive -> exclusive_owner (gate w) = None ->
     perform w (AcquireLease t scan) = None).
Proof.
  intros [Ha Hw Ho Hc]%reachable_gate_ok. split_and!; [done..| |].
  - intros t. cbn [perform]. case_bool_decide as Hp; [|done]. destruct (negb _); cbn [andb]; [|done].
    unfold enter_exclusive. pose proof (waiting_end _ _ Hp). case_match; [lia|by intros [=]].
  - intros t u scan Hp Hown. cbn [perform]. unfold lease_must_wait. rewrite Hown.
    pose proof (waiting_end _ _ Hp). replace (0 <? exclusive_waiters (gate w)) with true by lia.
    rewrite (bool_decide_true (@None thread = None)) by done. cbn [andb]. rewrite orb_true_r. cbn [negb].
    by rewrite andb_false_r.
Qed.

(** Thread 2 waits for the scope while thread 1 scans, enters when the last
    clone of the lease is dropped, and then scans itself. *)
Definition sample_schedule : list action :=
  [AcquireLease 1%nat 7%nat; CloneLease 7%nat; RequestExclusive 2%nat; DropLease 7%nat; DropLease 7%nat;
   EnterExclusive 2%nat; AcquireLease 2%nat 8%nat].

Lemma run_actions_reachable w actions w' : run_actions w actions = Some w' -> rtc gate_step w w'.
Proof.
  revert w. induction actions as [|a rest IH]; intros w; cbn [run_actions]; [by intros [= ->]|].
  destruct (perform w a) as [[w1|]|] eqn:E; [|done..]. intros Hr. eapply rtc_l; [by econstructor|by apply IH].
Qed.

Lemma scan_gate_isolation_witness :
  exists w, run_actions process_new sample_schedule = Some w /\
  active_scans (gate w) = Z.of_nat (size (scans w)) /\
  exclusive_waiters (gate w) = Z.of_nat (waiting (phases w)) /\
  (forall owner scan starter clones,
     exclusive_owner (gate w) = Some owner -> scans w !! scan = Some (starter, clones) -> starter = owner) /\
  (forall t, perform w (EnterExclusive t) <> Some Panic) /\
  (forall t u scan, phase_of w u = WaitingExclusive -> exclusive_owner (gate w) = None ->
     perform w (AcquireLease t scan) = None).
Proof.
  eexists. split; [vm_compute; reflexivity|]. apply scan_gate_isolation.
  apply (run_actions_reachable _ sample_schedule). vm_compute. reflexivity.
Defined.

(** Admission and increment are two steps: a recorder that belongs to no scan is
    admitted, another thread enters its exclusive scope, and the increment then
    lands inside that scope. *)
Example increment_inside_foreign_scope :
  exists w w',
    run_actions process_new [CallRecord 1%nat Binary 1; AwaitAdmission 1%nat; RequestExclusive 2%nat; EnterExclusive 2%nat] = Some w /\
    exclusive_owner (gate w) = Some 2%nat /\ run_actions w [AddCount 1%nat] = Some w' /\
    exclusive_owner (gate w') = Some 2%nat /\ counters w' <> counters w.
Proof. eexists _, _. split; [vm_compute; reflexivity|]. split; [done|]. split; [vm_compute; reflexivity|]. by split. Qed.

(** ** Counters *)

Lemma event_index_inj e e' : event_index e = event_index e' -> e = e'.
Proof. by destruct e, e'. Qed.

Lemma snapshot_store c t : snapshot (store_skip_counts c t) = c.
Proof. by destruct c. Qed.

(** An event changes its own counter only. *)
Lemma record_skip_events_counter e e' delta t :
  length t = 11%nat ->
  counter (record_skip_events e delta t) (event_index e') =
    if decide (e = e') then (counter t (event_index e') + delta) mod 2 ^ 64 else counter t (event_index e').
Proof. intros Ht. do 11 (destruct t as [|? t]; [done|]). destruct t; [|done]. by destruct e, e'. Qed.
