(* ===== verification/Excludes.v ===== *)
(** * Default exclusions ([crates/sources/src/filesystem/filter.rs])

    The bundled policy of paths that are not scanned: its validation, the path
    test and the extension test.  The policy file and the [toml] parser are not
    part of the source; the parsed section is an argument. *)

From Stdlib Require Import ZifyBool.
From S2P Require Import Prelude Utf8.

Record PrefixSuffixRule := mkPrefixSuffix { ps_prefix : str; ps_suffix : str }.

#[export] Instance PrefixSuffixRule_eq_dec : EqDecision PrefixSuffixRule.
Proof. solve_decision. Defined.

(** [DefaultExcludeSection] is what the file says, [DefaultExcludeRules] what
    validation makes of it; the fields are the same. *)
Record DefaultExcludeRules := mkRules {
  ex_extensions : list str; ex_dirs : list str; ex_suffixes : list str; ex_filenames : list str;
  ex_prefix_suffixes : list PrefixSuffixRule; ex_infixes : list str }.

Inductive RuleListKind := Extension | PathSegment | Suffix | Filename | Infix.

(** One constructor per message. *)
Inductive exclude_error :=
  | NoEntries (name : str)
  | EmptyEntry (name : str)
  | NotLowercase (name value : str)
  | ControlCharacter (name value : str)
  | BadShape (kind : RuleListKind) (name value : str)
  | DuplicateEntry (name value : str)
  | DuplicatePair (prefix suffix : str).

(** [char::is_control]: general category Cc. *)
Definition is_control (c : Z) : bool := in_range 0 0x1F c || in_range 0x7F 0x9F c.

Definition str_contains (c : Z) (s : str) : bool := existsb (Z.eqb c) s.

Definition has_path_separator (value : str) : bool := str_contains 47 value || str_contains 92 value.

Definition validate_rule_value (name value : str) (kind : RuleListKind) : result () exclude_error :=
  if bool_decide (trim value = []) then Err (EmptyEntry name)
  else if negb (bool_decide (value = map to_ascii_lowercase value)) then Err (NotLowercase name value)
  else if existsb is_control value then Err (ControlCharacter name value)
  else
    match kind with
    | Extension =>
        if starts_with [46] value || has_path_separator value then Err (BadShape kind name value) else Ok ()
    | PathSegment | Filename =>
        if has_path_separator value then Err (BadShape kind name value) else Ok ()
    | Suffix =>
        if negb (starts_with [46] value) || has_path_separator value then Err (BadShape kind name value) else Ok ()
    | Infix =>
        if negb (starts_with [46] value) || negb (ends_with [46] value) || has_path_separator value
        then Err (BadShape kind name value) else Ok ()
    end.

Fixpoint normalize_loop (name : str) (kind : RuleListKind) (seen : list str) (values : list str) :
    result (list str) exclude_error :=
  match values with
  | [] => Ok []
  | raw :: rest =>
      let value := trim raw in
      let? _ := validate_rule_value name value kind in
      if bool_decide (value ∈ seen) then Err (DuplicateEntry name value)
      else let? out := normalize_loop name kind (value :: seen) rest in Ok (value :: out)
  end.

Definition normalize_rule_list (name : str) (values : list str) (kind : RuleListKind) :
    result (list str) exclude_error :=
  if bool_decide (values = []) then Err (NoEntries name) else normalize_loop name kind [] values.

Fixpoint normalize_pairs_loop (seen : list PrefixSuffixRule) (rules : list PrefixSuffixRule) :
    result (list PrefixSuffixRule) exclude_error :=
  match rules with
  | [] => Ok []
  | rule :: rest =>
      let prefix := trim (ps_prefix rule) in
      let suffix := trim (ps_suffix rule) in
      let? _ := validate_rule_value $"filename_prefix_suffixes.prefix" prefix Filename in
      let? _ := validate_rule_value $"filename_prefix_suffixes.suffix" suffix Suffix in
      let key := mkPrefixSuffix prefix suffix in
      if bool_decide (key ∈ seen) then Err (DuplicatePair prefix suffix)
      else let? out := normalize_pairs_loop (key :: seen) rest in Ok (key :: out)
  end.

Definition normalize_prefix_suffix_rules (rules : list PrefixSuffixRule) :
    result (list PrefixSuffixRule) exclude_error :=
  if bool_decide (rules = []) then Err (NoEntries $"filename_prefix_suffixes")
  else normalize_pairs_loop [] rules.

Definition parse_default_excludes (section : DefaultExcludeRules) : result DefaultExcludeRules exclude_error :=
  let? extensions := normalize_rule_list $"extensions" (ex_extensions section) Extension in
  let? dirs := normalize_rule_list $"dirs" (ex_dirs section) PathSegment in
  let? suffixes := normalize_rule_list $"suffixes" (ex_suffixes section) Suffix in
  let? filenames := normalize_rule_list $"filenames" (ex_filenames section) Filename in
  let? pairs := normalize_prefix_suffix_rules (ex_prefix_suffixes section) in
  let? infixes := normalize_rule_list $"infixes" (ex_infixes section) Infix in
  Ok (mkRules extensions dirs suffixes filenames pairs infixes).

(** ** The path test *)

Definition is_path_sep (b : Z) : bool := (b =? 47) || (b =? 92).

(** [slice::split] at the elements of a predicate. *)
Fixpoint split_by (f : Z -> bool) (s : bytes) : list bytes :=
  match s with
  | [] => [[]]
  | c :: s' =>
      if f c then [] :: split_by f s'
      else match split_by f s' with w :: ws => (c :: w) :: ws | [] => [[c]] end
  end.

Definition ends_ci (bs suffix : bytes) : bool :=
  (length suffix <=? length bs)%nat && eq_ignore_ascii_case (drop (length bs - length suffix) bs) suffix.

Section rules.
Context (rules : DefaultExcludeRules).

Definition is_default_excluded_segment (segment : bytes) : bool :=
  existsb (fun skip => eq_ignore_ascii_case segment (as_bytes skip)) (ex_dirs rules).

(** The loop over the segments: [None] is the early [return true]. *)
Fixpoint segment_loop (segments : list bytes) (filename : bytes) : option bytes :=
  match segments with
  | [] => Some filename
  | segment :: rest =>
      if is_default_excluded_segment segment then None
      else segment_loop rest (if bool_decide (segment = []) then filename else segment)
  end.

Definition infix_matches (filename : bytes) (infix : str) : bool :=
  let needle := as_bytes infix in
  negb (bool_decide (needle = [])) && (length needle <=? length filename)%nat &&
  existsb (fun window => eq_ignore_ascii_case window needle) (windows (length needle) filename).

Definition prefix_suffix_matches (filename : bytes) (rule : PrefixSuffixRule) : bool :=
  let prefix := as_bytes (ps_prefix rule) in
  let suffix := as_bytes (ps_suffix rule) in
  (length prefix + length suffix <=? length filename)%nat &&
  eq_ignore_ascii_case (take (length prefix) filename) prefix &&
  eq_ignore_ascii_case (drop (length filename - length suffix) filename) suffix.

Definition is_default_excluded_bytes (bs : bytes) : bool :=
  if existsb (fun suffix => ends_ci bs (as_bytes suffix)) (ex_suffixes rules) then true
  else
    match segment_loop (split_by is_path_sep bs) bs with
    | None => true
    | Some filename =>
        if existsb (fun name => eq_ignore_ascii_case filename (as_bytes name)) (ex_filenames rules) then true
        else if existsb (infix_matches filename) (ex_infixes rules) then true
        else existsb (prefix_suffix_matches filename) (ex_prefix_suffixes rules)
    end.

Definition is_default_excluded (path : str) : bool := is_default_excluded_bytes (as_bytes path).

(** The extension set is a [HashSet] of the validated extensions. *)
Definition is_skip_extension (ext : str) : outcome bool :=
  let bs := as_bytes ext in
  if (length bs <=? 32)%nat then
    match from_utf8 (fold_case bs) with
    | Some folded => Ret (bool_decide (folded ∈ ex_extensions rules))
    | None => Panic
    end
  else Ret (existsb (fun skip => eq_ignore_ascii_case ext skip) (ex_extensions rules)).
End rules.

(** ** Discovery configuration *)

Record FilesystemWalkConfig := mkWalkConfig {
  wc_respect_gitignore : bool; wc_ignore_overrides : list str; wc_respect_default_excludes : bool }.

Definition with_respect_gitignore (c : FilesystemWalkConfig) (respect : bool) : FilesystemWalkConfig :=
  mkWalkConfig respect (wc_ignore_overrides c) (wc_respect_default_excludes c).

Definition walker_config (max_file_size : Z) (ignore_paths : list str) (respect_default_excludes : bool) :
    FilesystemWalkConfig :=
  mkWalkConfig true
    (map (fun pattern => if starts_with [33] pattern then pattern else 33 :: pattern) ignore_paths)
    respect_default_excludes.

(** ** A plain reading of the policy *)

(** The path in lower case with one separator. *)
Definition canonical_byte (b : Z) : Z := if b =? 92 then 47 else to_ascii_lowercase b.
Definition canonical (bs : bytes) : bytes := map canonical_byte bs.

(** The non-empty segments of the path. *)
Definition path_segments (bs : bytes) : list bytes :=
  List.filter (fun s => negb (bool_decide (s = []))) (split_on 47 (canonical bs)).

Definition rule_bytes (values : list str) : list bytes := map as_bytes values.

Definition filename_excluded (rules : DefaultExcludeRules) (f : bytes) : Prop :=
  f ∈ rule_bytes (ex_filenames rules) \/
  (exists i a b, i ∈ rule_bytes (ex_infixes rules) /\ f = a ++ i ++ b) \/
  (exists r m, r ∈ ex_prefix_suffixes rules /\ f = as_bytes (ps_prefix r) ++ m ++ as_bytes (ps_suffix r)).

Definition excluded_by (rules : DefaultExcludeRules) (bs : bytes) : Prop :=
  (exists s a, s ∈ rule_bytes (ex_suffixes rules) /\ canonical bs = a ++ s) \/
  (exists d, d ∈ rule_bytes (ex_dirs rules) /\ d ∈ path_segments bs) \/
  (exists f, last (path_segments bs) = Some f /\ filename_excluded rules f).

(** What validation establishes of one value. *)
Definition valid_value (v : str) : Prop :=
  v <> [] /\ map to_ascii_lowercase v = v /\ (47 ∉ v) /\ (92 ∉ v).

Definition valid_rules (r : DefaultExcludeRules) : Prop :=
  Forall valid_value (ex_extensions r) /\ Forall valid_value (ex_dirs r) /\ Forall valid_value (ex_suffixes r) /\
  Forall valid_value (ex_filenames r) /\ Forall valid_value (ex_infixes r) /\
  Forall (fun p => valid_value (ps_prefix p) /\ valid_value (ps_suffix p)) (ex_prefix_suffixes r).

Lemma str_contains_spec c s : str_contains c s = true <-> c ∈ s.
Proof.
  unfold str_contains. rewrite existsb_exists. setoid_rewrite Z.eqb_eq. setoid_rewrite <- list_elem_of_In.
  naive_solver.
Qed.

Lemma has_path_separator_false v : has_path_separator v = false -> (47 ∉ v) /\ (92 ∉ v).
Proof.
  unfold has_path_separator. intros [H1 H2]%orb_false_iff.
  split; intros Hin%str_contains_spec; congruence.
Qed.

Lemma validate_rule_value_ok name v kind : validate_rule_value name v kind = Ok () -> valid_value v.
Proof.
  unfold validate_rule_value, valid_value. intros Hv.
  repeat (case_bool_decide || case_match); simplify_eq; reflect_bool;
    repeat match goal with H : has_path_separator v = false |- _ => apply has_path_separator_false in H as [? ?] end;
    (split; [by intros ->|done]).
Qed.

Lemma normalize_loop_ok name kind seen values out :
  normalize_loop name kind seen values = Ok out -> Forall valid_value out /\ NoDup out.
Proof.
  assert (Hgen : normalize_loop name kind seen values = Ok out ->
    Forall valid_value out /\ NoDup out /\ (forall v, v ∈ out -> v ∉ seen)).
  2:{ intros H. by apply Hgen in H as (? & ? & _). }
  revert seen out. induction values as [|raw rest IH]; intros seen out; cbn [normalize_loop].
  { intros [= <-]. split_and!; [constructor..|]. intros v Hv. by apply not_elem_of_nil in Hv. }
  destruct (validate_rule_value _ _ _) as [[]|] eqn:Ev; [|done].
  case_bool_decide as Hs; [done|]. destruct (normalize_loop _ _ _ rest) as [o|] eqn:El; [|done].
  intros [= <-]. apply IH in El as (Hf & Hn & Hd). apply validate_rule_value_ok in Ev. split_and!.
  - by constructor.
  - constructor; [|done]. intros Hin. apply Hd in Hin. apply Hin. left.
  - intros v [->|Hv]%elem_of_cons; [done|]. apply Hd in Hv. set_solver.
Qed.

Lemma normalize_rule_list_ok name values kind out :
  normalize_rule_list name values kind = Ok out -> Forall valid_value out.
Proof.
  unfold normalize_rule_list. case_bool_decide; [done|]. intros H'. by apply normalize_loop_ok in H' as [? _].
Qed.

Lemma normalize_pairs_ok seen rules out :
  normalize_pairs_loop seen rules = Ok out ->
  Forall (fun p => valid_value (ps_prefix p) /\ valid_value (ps_suffix p)) out.
Proof.
  revert seen out. induction rules as [|r rest IH]; intros seen out; cbn [normalize_pairs_loop].
  { intros [= <-]. constructor. }
  destruct (validate_rule_value _ (trim (ps_prefix r)) _) as [[]|] eqn:E1; [|done].
  destruct (validate_rule_value _ (trim (ps_suffix r)) _) as [[]|] eqn:E2; [|done].
  case_bool_decide; [done|]. destruct (normalize_pairs_loop _ rest) as [o|] eqn:El; [|done].
  intros [= <-]. apply validate_rule_value_ok in E1, E2. constructor; [done|]. by eapply IH.
Qed.

Lemma parse_default_excludes_valid section rules :
  parse_default_excludes section = Ok rules -> valid_rules rules.
Proof.
  unfold parse_default_excludes, normalize_prefix_suffix_rules. intros Hp.
  repeat match type of Hp with
  | context [normalize_rule_list ?n ?v ?k] =>
      let E := fresh "E" in destruct (normalize_rule_list n v k) eqn:E; [|done]; apply normalize_rule_list_ok in E
  end.
  revert Hp. case_bool_decide; [done|]. destruct (normalize_pairs_loop _ _) eqn:Ep; [|done].
  apply normalize_pairs_ok in Ep. intros Hr. repeat case_match; simplify_eq.
  repeat match goal with H : normalize_rule_list _ _ _ = Ok _ |- _ => apply normalize_rule_list_ok in H end.
  by split_and!.
Qed.

(** ** Validated values as bytes *)

Lemma to_lower_high b : 128 <= b -> to_ascii_lowercase b = b.
Proof. unfold to_ascii_lowercase, is_ascii_uppercase, in_range. intros. by replace ((65 <=? b) && (b <=? 90)) with false by lia. Qed.

Lemma fold_case_as_bytes v : fold_case (as_bytes v) = as_bytes (map to_ascii_lowercase v).
Proof.
  induction v as [|c v IH]; [done|].
  change (as_bytes (c :: v)) with (utf8_char c ++ as_bytes v).
  change (as_bytes (map to_ascii_lowercase (c :: v))) with (utf8_char (to_ascii_lowercase c) ++ as_bytes (map to_ascii_lowercase v)).
  unfold fold_case in *. rewrite map_app, IH. f_equal.
  destruct (Z.lt_ge_cases c 128) as [Hc|Hc].
  - assert (to_ascii_lowercase c < 128) by (unfold to_ascii_lowercase, is_ascii_uppercase, in_range; case_match; lia).
    unfold utf8_char. replace (c <? 128) with true by lia. by replace (to_ascii_lowercase c <? 128) with true by lia.
  - rewrite to_lower_high by done. pose proof (utf8_char_high c Hc) as Hh. revert Hh.
    generalize (utf8_char c). induction 1 as [|b bs Hb Hbs IHb]; [done|]. cbn [map]. by rewrite to_lower_high, IHb.
Qed.

Lemma elem_of_as_bytes_ascii k v : k < 128 -> k ∈ as_bytes v -> k ∈ v.
Proof.
  intros Hk. induction v as [|c v IH]; [done|]. change (as_bytes (c :: v)) with (utf8_char c ++ as_bytes v).
  intros [Hin|Hin]%elem_of_app; [|by right; apply IH].
  destruct (utf8_char_cases c) as [E|[_ Hh]].
  - rewrite E in Hin. apply list_elem_of_singleton in Hin as ->. left.
  - rewrite Forall_forall in Hh. specialize (Hh _ Hin). cbn in Hh. lia.
Qed.

Definition valid_bytes (w : bytes) : Prop := w <> [] /\ fold_case w = w /\ (47 ∉ w) /\ (92 ∉ w).

Lemma valid_value_bytes v : valid_value v -> valid_bytes (as_bytes v).
Proof.
  intros (Hne & Hl & H1 & H2). split_and!.
  - destruct v as [|c v]; [done|]. change (as_bytes (c :: v)) with (utf8_char c ++ as_bytes v).
    pose proof (utf8_char_length c). destruct (utf8_char c); [cbn in *; lia|done].
  - by rewrite fold_case_as_bytes, Hl.
  - intros Hin. apply H1. by apply elem_of_as_bytes_ascii.
  - intros Hin. apply H2. by apply elem_of_as_bytes_ascii.
Qed.

(** ** The tests on one file name *)

Lemma eq_ignore_valid x w : valid_bytes w -> eq_ignore_ascii_case x w = true <-> fold_case x = w.
Proof.
  intros (_ & Hf & _). unfold eq_ignore_ascii_case. rewrite bool_decide_eq_true.
  change (map to_ascii_lowercase w) with (fold_case w). by rewrite Hf.
Qed.

Lemma fold_case_app x y : fold_case (x ++ y) = fold_case x ++ fold_case y.
Proof. apply map_app. Qed.

Lemma fold_case_length x : length (fold_case x) = length x.
Proof. apply length_map. Qed.

Lemma fold_case_split x a b : fold_case x = a ++ b -> exists y z, x = y ++ z /\ fold_case y = a /\ fold_case z = b.
Proof. unfold fold_case. intros (y & z & ? & ? & ?)%map_eq_app. naive_solver. Qed.

Lemma ends_ci_spec bs w : valid_bytes w -> ends_ci bs w = true <-> exists a, fold_case bs = a ++ w.
Proof.
  intros Hw. unfold ends_ci. rewrite andb_true_iff, eq_ignore_valid, Nat.leb_le by done. split.
  - intros [Hl He]. exists (fold_case (take (length bs - length w) bs)).
    rewrite <- (take_drop (length bs - length w) bs) at 1. rewrite fold_case_app. by f_equal.
  - intros [a (y & z & -> & <- & <-)%fold_case_split]. rewrite length_app, fold_case_length.
    replace (length y + length z - length z)%nat with (length y) by lia. rewrite drop_app_length. split; [lia|done].
Qed.

Lemma infix_matches_spec f i :
  valid_value i -> infix_matches f i = true <-> exists a b, fold_case f = a ++ as_bytes i ++ b.
Proof.
  intros Hi%valid_value_bytes. unfold infix_matches.
  rewrite !andb_true_iff, negb_true_iff, bool_decide_eq_false, Nat.leb_le, existsb_exists. split.
  - intros [_ (w & Hw & He)]. apply list_elem_of_In, elem_of_windows in Hw as (a & b & -> & _).
    apply eq_ignore_valid in He as <-; [|done]. exists (fold_case a), (fold_case b). by rewrite !fold_case_app.
  - intros (a & b & Hf). apply fold_case_split in Hf as (y & z & -> & _ & Hz).
    apply fold_case_split in Hz as (w & z' & -> & Hw & _). destruct Hi as (Hne & Hrest).
    rewrite !length_app, <- Hw, fold_case_length. split_and!; [by rewrite Hw|lia|].
    exists w. split; [|by apply eq_ignore_valid; [split; [by rewrite Hw|by rewrite Hw]|]].
    apply list_elem_of_In, elem_of_windows. by exists y, z'.
Qed.

Lemma prefix_suffix_matches_spec f r :
  valid_value (ps_prefix r) -> valid_value (ps_suffix r) ->
  prefix_suffix_matches f r = true <-> exists m, fold_case f = as_bytes (ps_prefix r) ++ m ++ as_bytes (ps_suffix r).
Proof.
  intros Hp%valid_value_bytes Hs%valid_value_bytes. unfold prefix_suffix_matches.
  rewrite !andb_true_iff, !eq_ignore_valid, Nat.leb_le by done.
  set (p := as_bytes (ps_prefix r)) in *. set (s := as_bytes (ps_suffix r)) in *. split.
  - intros [[Hl Hpre] Hsuf]. exists (fold_case (take (length f - length s - length p) (drop (length p) f))).
    rewrite <- Hpre at 1. rewrite <- Hsuf at 2. rewrite <- !fold_case_app. f_equal.
    rewrite <- (take_drop (length p) f) at 1. f_equal.
    rewrite <- (take_drop (length f - length s - length p) (drop (length p) f)) at 1. f_equal.
    rewrite drop_drop. f_equal. lia.
  - intros (m & (y & z & -> & Hy & Hz)%fold_case_split). apply fold_case_split in Hz as (m' & z' & -> & _ & Hz').
    rewrite <- Hy, <- Hz' at 1. rewrite !length_app, !fold_case_length. split_and!; [lia|..].
    + rewrite <- Hy, fold_case_length at 1. by rewrite take_app_length.
    + rewrite <- Hz' at 1. rewrite fold_case_length.
      replace (length y + (length m' + length z') - length z')%nat with (length (y ++ m')) by (rewrite length_app; lia).
      rewrite app_assoc, drop_app_length. done.
Qed.

(** ** Segments *)

Lemma canonical_byte_sep b : canonical_byte b = 47 <-> is_path_sep b = true.
Proof.
  unfold canonical_byte, is_path_sep, to_ascii_lowercase, is_ascii_uppercase, in_range.
  destruct (b =? 92) eqn:E; [lia|]. case_match; lia.
Qed.

Lemma canonical_not_sep b : is_path_sep b = false -> canonical_byte b = to_ascii_lowercase b.
Proof. unfold canonical_byte, is_path_sep. intros Hb. by replace (b =? 92) with false by lia. Qed.

Lemma split_canonical bs : split_on 47 (canonical bs) = map fold_case (split_by is_path_sep bs).
Proof.
  induction bs as [|b bs IH]; [done|]. cbn [canonical map split_on split_by].
  change (map canonical_byte bs) with (canonical bs). rewrite IH.
  destruct (is_path_sep b) eqn:E.
  - apply canonical_byte_sep in E. by rewrite bool_decide_true.
  - rewrite bool_decide_false by (rewrite canonical_byte_sep; congruence).
    rewrite canonical_not_sep by done. by destruct (split_by is_path_sep bs).
Qed.

Lemma filter_nonempty_fold segs :
  List.filter (fun s : bytes => negb (bool_decide (s = []))) (map fold_case segs) =
  map fold_case (List.filter (fun s => negb (bool_decide (s = []))) segs).
Proof. induction segs as [|[|b s] segs IH]; cbn; [done|done|]. f_equal. exact IH. Qed.

Lemma segment_loop_spec rules segs f :
  segment_loop rules segs f =
    if existsb (is_default_excluded_segment rules) segs then None
    else Some (default f (last (List.filter (fun s => negb (bool_decide (s = []))) segs))).
Proof.
  revert f. induction segs as [|s segs IH]; intros f; cbn [segment_loop existsb List.filter]; [done|].
  destruct (is_default_excluded_segment rules s); cbn [orb]; [done|]. rewrite IH.
  destruct (existsb _ segs); [done|]. case_bool_decide; cbn [negb]; [done|].
  rewrite last_cons. by destruct (last _).
Qed.

(** A path without a non-empty segment is made of separators. *)
Lemma no_segments_separators bs :
  List.filter (fun s : bytes => negb (bool_decide (s = []))) (split_by is_path_sep bs) = [] ->
  Forall (fun b => b = 47 \/ b = 92) (fold_case bs).
Proof.
  induction bs as [|b bs IH]; [constructor|]. cbn [split_by]. destruct (is_path_sep b) eqn:E; cbn [List.filter fold_case map].
  - intros Hf. constructor; [|by apply IH]. unfold is_path_sep in E.
    assert (b = 47 \/ b = 92) as [->| ->] by lia; by vm_compute; auto.
  - by destruct (split_by is_path_sep bs).
Qed.

Lemma separators_no_valid f w a b :
  Forall (fun b => b = 47 \/ b = 92) f -> valid_bytes w -> f <> a ++ w ++ b.
Proof.
  intros Hf (Hne & _ & H1 & H2) ->. apply Forall_app in Hf as [_ [Hf _]%Forall_app].
  destruct w as [|x w]; [done|]. apply Forall_cons in Hf as [[->| ->] _]; set_solver.
Qed.

Lemma canonical_suffix bs w : valid_bytes w -> (exists a, fold_case bs = a ++ w) <-> (exists a, canonical bs = a ++ w).
Proof.
  intros (_ & _ & H1 & H2). split.
  - intros [a (y & z & -> & _ & <-)%fold_case_split]. exists (canonical y). unfold canonical. rewrite map_app. f_equal.
    apply map_ext_in. intros b Hb%list_elem_of_In. unfold canonical_byte. destruct (b =? 92) eqn:E; [|done].
    exfalso. apply H2. apply list_elem_of_fmap. exists b. split; [|done]. assert (b = 92) as -> by lia. done.
  - intros [a Ha]. unfold canonical in Ha. apply map_eq_app in Ha as (y & z & -> & _ & <-).
    exists (fold_case y). rewrite fold_case_app. f_equal. apply map_ext_in. intros b Hb%list_elem_of_In.
    unfold canonical_byte. destruct (b =? 92) eqn:E; [|done]. exfalso. apply H1. apply list_elem_of_fmap.
    exists b. split; [|done]. unfold canonical_byte. by rewrite E.
Qed.

Lemma existsb_valid {A} (f : A -> bool) (P : A -> Prop) (V : A -> Prop) l :
  Forall V l -> (forall x, V x -> f x = true <-> P x) -> existsb f l = true <-> exists x, x ∈ l /\ P x.
Proof.
  intros Hl Hf. rewrite existsb_exists. rewrite Forall_forall in Hl. split.
  - intros (x & Hx%list_elem_of_In & Hfx). exists x. split; [done|]. by apply Hf; [apply Hl|].
  - intros (x & Hx & HP). exists x. split; [by apply list_elem_of_In|]. apply Hf; [by apply Hl|done].
Qed.

Lemma elem_of_rule_bytes w values : w ∈ rule_bytes values <-> exists v, v ∈ values /\ w = as_bytes v.
Proof. unfold rule_bytes. rewrite list_elem_of_fmap. naive_solver. Qed.

Section excluded.
Context (rules : DefaultExcludeRules) (Hvalid : valid_rules rules).

Lemma suffix_test_spec bs :
  existsb (fun suffix => ends_ci bs (as_bytes suffix)) (ex_suffixes rules) = true <->
  exists s a, s ∈ rule_bytes (ex_suffixes rules) /\ canonical bs = a ++ s.
Proof.
  destruct Hvalid as (_ & _ & Hs & _).
  rewrite (existsb_valid _ (fun v => exists a, canonical bs = a ++ as_bytes v) _ _ Hs).
  2:{ intros v Hv%valid_value_bytes. by rewrite ends_ci_spec, canonical_suffix by done. }
  setoid_rewrite elem_of_rule_bytes. naive_solver.
Qed.

Lemma segment_test_spec bs :
  existsb (is_default_excluded_segment rules) (split_by is_path_sep bs) = true <->
  exists d, d ∈ rule_bytes (ex_dirs rules) /\ d ∈ path_segments bs.
Proof.
  destruct Hvalid as (_ & Hd & _). unfold path_segments. rewrite split_canonical, existsb_exists.
  assert (Hseg : forall s, is_default_excluded_segment rules s = true <->
    exists v, v ∈ ex_dirs rules /\ fold_case s = as_bytes v).
  { intros s. apply (existsb_valid _ _ _ _ Hd). intros v Hv%valid_value_bytes. by apply eq_ignore_valid. }
  setoid_rewrite Hseg. setoid_rewrite elem_of_rule_bytes. split.
  - intros (s & Hs & v & Hv & He). exists (as_bytes v). split; [by exists v|].
    apply list_elem_of_In, filter_In. split; [rewrite <- He; by apply in_map|].
    rewrite negb_true_iff, bool_decide_eq_false. rewrite Forall_forall in Hd.
    by destruct (valid_value_bytes _ (Hd _ Hv)).
  - intros (d & (v & Hv & ->) & Hin). apply list_elem_of_In, filter_In in Hin as [Hin _].
    apply in_map_iff in Hin as (s & He & Hs). by exists s; eauto.
Qed.

Lemma filename_test_spec f :
  (if existsb (fun name => eq_ignore_ascii_case f (as_bytes name)) (ex_filenames rules) then true
   else if existsb (infix_matches f) (ex_infixes rules) then true
   else existsb (prefix_suffix_matches f) (ex_prefix_suffixes rules)) = true <->
  filename_excluded rules (fold_case f).
Proof.
  destruct Hvalid as (_ & _ & _ & Hf & Hi & Hp). unfold filename_excluded.
  rewrite <- (orb_lazy_alt (existsb (infix_matches f) _)), <- orb_lazy_alt, !orb_true_iff.
  rewrite (existsb_valid _ (fun v => fold_case f = as_bytes v) _ _ Hf)
    by (intros v Hv%valid_value_bytes; by apply eq_ignore_valid).
  rewrite (existsb_valid _ (fun i => exists a b, fold_case f = a ++ as_bytes i ++ b) _ _ Hi)
    by (intros i Hv; by apply infix_matches_spec).
  rewrite (existsb_valid _ (fun r => exists m, fold_case f = as_bytes (ps_prefix r) ++ m ++ as_bytes (ps_suffix r)) _ _ Hp)
    by (intros r [? ?]; by apply prefix_suffix_matches_spec).
  setoid_rewrite elem_of_rule_bytes. naive_solver.
Qed.

(** The whole path stands in for the name of a path made of separators, which no
    rule names. *)
Lemma separators_not_excluded f : Forall (fun b => b = 47 \/ b = 92) f -> ~ filename_excluded rules f.
Proof.
  intros Hf. destruct Hvalid as (_ & _ & _ & Hn & Hi & Hp). rewrite Forall_forall in Hn, Hi. rewrite Forall_forall in Hp.
  intros [(v & Hv & ->)%elem_of_rule_bytes|[(i & a & b & (v & Hv & ->)%elem_of_rule_bytes & ->)|(r & m & Hr & ->)]].
  - apply (separators_no_valid (as_bytes v) (as_bytes v) [] []); [done|by apply valid_value_bytes, Hn|by rewrite app_nil_r].
  - by apply (separators_no_valid _ (as_bytes v) a b Hf); [apply valid_value_bytes, Hi|].
  - destruct (Hp r Hr) as [Hv _].
    by apply (separators_no_valid _ (as_bytes (ps_prefix r)) [] (m ++ as_bytes (ps_suffix r)) Hf); [apply valid_value_bytes|].
Qed.

Lemma is_default_excluded_bytes_spec bs : is_default_excluded_bytes rules bs = true <-> excluded_by rules bs.
Proof.
  unfold is_default_excluded_bytes, excluded_by. rewrite <- suffix_test_spec, <- segment_test_spec, segment_loop_spec.
  destruct (existsb (fun s => ends_ci bs _) _); [naive_solver|].
  destruct (existsb (is_default_excluded_segment _) _); [naive_solver|].
  rewrite filename_test_spec. unfold path_segments. rewrite split_canonical, filter_nonempty_fold.
  set (segs := List.filter _ _). change (map fold_case segs) with (fold_case <$> segs). rewrite fmap_last.
  destruct (last segs) as [f|] eqn:El; cbn [default fmap option_fmap option_map from_option id]; [naive_solver|].
  assert (Hsep : segs = []) by (by apply last_None). apply no_segments_separators, separators_not_excluded in Hsep.
  naive_solver.
Qed.

Lemma is_skip_extension_spec ext :
  Forall is_scalar ext ->
  is_skip_extension rules ext = Ret (bool_decide (map to_ascii_lowercase ext ∈ ex_extensions rules)).
Proof.
  intros Hext. unfold is_skip_extension. rewrite fold_case_as_bytes. case_match.
  - rewrite from_utf8_as_bytes; [done|]. apply Forall_map. eapply Forall_impl; [exact Hext|].
    intros c Hc. unfold is_scalar in *. unfold compose, to_ascii_lowercase, is_ascii_uppercase, in_range. case_match; lia.
  - f_equal. destruct Hvalid as (He & _). rewrite Forall_forall in He.
    apply (bool_iff _ _ (map to_ascii_lowercase ext ∈ ex_extensions rules)); [|apply bool_decide_eq_true].
    rewrite existsb_exists. split.
    + intros (v & Hv%list_elem_of_In & Hq). destruct (He v Hv) as (_ & Hl & _).
      unfold eq_ignore_ascii_case in Hq. apply bool_decide_eq_true in Hq. by rewrite Hq, Hl.
    + intros Hin. eexists. split; [by apply list_elem_of_In|]. destruct (He _ Hin) as (_ & Hl & _).
      unfold eq_ignore_ascii_case. apply bool_decide_eq_true. by rewrite Hl.
Qed.
End excluded.

(** C34. A validated policy excludes exactly the paths that, in lower case and
    with either separator, end in one of its suffixes, have a segment that is
    one of its directories, or whose last non-empty segment is one of its file
    names, holds one of its infixes, or has the prefix and the suffix of a rule
    without overlap.  The extension test never fails and is membership of the
    extension in lower case, however long the extension is. *)
Theorem exclusion_policy (section rules : DefaultExcludeRules) (path ext : str) :
  parse_default_excludes section = Ok rules -> Forall is_scalar ext ->
  (is_default_excluded rules path = true <-> excluded_by rules (as_bytes path)) /\
  is_skip_extension rules ext = Ret (bool_decide (map to_ascii_lowercase ext ∈ ex_extensions rules)).
Proof.
  intros Hp%parse_default_excludes_valid Hext.
  split; [by apply is_default_excluded_bytes_spec|by apply is_skip_extension_spec].
Qed.

Definition sample_policy : DefaultExcludeRules :=
  mkRules [$"png"] [$"node_modules"; $".git"] [$".lock"] [$"go.sum"] [mkPrefixSuffix $"jquery-" $".js"] [$".min."].

Lemma exclusion_policy_witness :
  is_default_excluded sample_policy $"web\Node_Modules\a.js" = true /\
  (is_default_excluded sample_policy $"web\Node_Modules\a.js" = true <->
     excluded_by sample_policy (as_bytes $"web\Node_Modules\a.js")) /\
  is_skip_extension sample_policy $"PNG" = Ret (bool_decide (map to_ascii_lowercase $"PNG" ∈ ex_extensions sample_policy)).
Proof.
  split; [by_eval|]. apply (exclusion_policy sample_policy); [by_eval|by_decision].
Defined.
