(* ===== verification/TextDecode.v ===== *)
(** * Text decoding of files ([crates/sources/src/filesystem/read/decode.rs])

    Byte signatures ([magic.rs]), the binary heuristics, UTF-16 decoding and
    the two decoders built from them.  A slice is shorter than 2^57 bytes, so
    the byte counters and their products stay in range. *)

From Stdlib Require Import ZifyBool.
From S2P Require Import Prelude Utf8.

(** ** Signatures *)

Definition GZIP_PREFIX : bytes := [0x1f; 0x8b].
Definition PDF_PREFIX : bytes := $"%PDF-".
Definition PYTHON_PICKLE_PROTOCOL2_PREFIX : bytes := [0x80; 0x02].
Definition ZIP_LOCAL_FILE_PREFIX : bytes := $"PK" ++ [3; 4].
Definition ZSTD_FRAME_MAGIC : bytes := [0x28; 0xb5; 0x2f; 0xfd].
Definition XZ_STREAM_MAGIC : bytes := [0xfd] ++ $"7zXZ" ++ [0].
Definition WASM_MAGIC : bytes := [0] ++ $"asm".
Definition SEVEN_ZIP_PREFIX : bytes := $"7z" ++ [0xbc; 0xaf; 0x27; 0x1c].
Definition RAR_PREFIX : bytes := $"Rar!" ++ [0x1a; 0x07].
Definition UNIX_AR_PREFIX : bytes := $"!<arch>" ++ [10].

Definition UNAMBIGUOUS_BINARY_PREFIXES : list bytes :=
  [PDF_PREFIX; ZIP_LOCAL_FILE_PREFIX; [0x89] ++ $"PNG" ++ [13; 10; 0x1a; 10]; [0xD0; 0xCF; 0x11; 0xE0];
   [0x7f] ++ $"ELF"; [0xfe; 0xed; 0xfa; 0xce]; [0xfe; 0xed; 0xfa; 0xcf]; [0xcf; 0xfa; 0xed; 0xfe];
   [0xca; 0xfe; 0xba; 0xbe]; GZIP_PREFIX; ZSTD_FRAME_MAGIC; XZ_STREAM_MAGIC; SEVEN_ZIP_PREFIX; RAR_PREFIX;
   $"GIF87a"; $"GIF89a"; [0xff; 0xd8; 0xff]; [0; 0; 1; 0]; $"OggS"; $"fLaC"; WASM_MAGIC; UNIX_AR_PREFIX].

Definition has_unambiguous_binary_prefix (bs : bytes) : bool :=
  existsb (fun header => starts_with header bs) UNAMBIGUOUS_BINARY_PREFIXES.

Definition uninterpreted_container_format (bs : bytes) : option str :=
  if starts_with SEVEN_ZIP_PREFIX bs then Some $"7z"
  else if starts_with RAR_PREFIX bs then Some $"RAR"
  else if starts_with UNIX_AR_PREFIX bs then Some $"ar/deb"
  else None.

Definition starts_with_python_pickle_protocol2 (bs : bytes) : bool :=
  starts_with PYTHON_PICKLE_PROTOCOL2_PREFIX bs.

(** [bytes[i]] where the index is in range. *)
Definition byte_at (bs : bytes) (i : nat) : Z := nth i bs 0.

(** [u32::from_le_bytes] of four bytes at [i]. *)
Definition le32_at (bs : bytes) (i : nat) : Z :=
  byte_at bs i + 2 ^ 8 * byte_at bs (i + 1) + 2 ^ 16 * byte_at bs (i + 2) + 2 ^ 24 * byte_at bs (i + 3).

Definition has_bmp_header (bs : bytes) : bool :=
  (14 <=? zlen bs) && starts_with $"BM" bs && bool_decide (take 4 (drop 6 bs) = [0; 0; 0; 0]) &&
  (14 <=? le32_at bs 10).

Definition has_pe_header (bs : bytes) : bool :=
  if (zlen bs <? 64) || negb (starts_with $"MZ" bs) then false
  else
    let pe_offset := le32_at bs 60 in
    (64 <=? pe_offset) && (pe_offset + 4 <=? usize_max) && (pe_offset + 4 <=? zlen bs) &&
    bool_decide (take 4 (drop (Z.to_nat pe_offset) bs) = $"PE" ++ [0; 0]).

Definition has_bzip2_header (bs : bytes) : bool :=
  (4 <=? zlen bs) && starts_with $"BZh" bs && in_range 49 57 (byte_at bs 3).

Definition has_binary_magic (bs : bytes) : bool :=
  if has_bmp_header bs || has_pe_header bs || has_bzip2_header bs then true
  else has_unambiguous_binary_prefix bs || starts_with_python_pickle_protocol2 bs.

Definition has_unambiguous_prefix_magic (bs : bytes) : bool := has_unambiguous_binary_prefix bs.

Definition has_utf16_nul_pattern (bs : bytes) : bool :=
  (4 <=? zlen bs) &&
  (((byte_at bs 0 =? 0xFF) && (byte_at bs 1 =? 0xFE)) || ((byte_at bs 0 =? 0xFE) && (byte_at bs 1 =? 0xFF))).

(** ** Binary heuristics *)

Definition SUSPICIOUS_CONTROL_BINARY_MIN : Z := 4.
Definition BINARY_NUL_RUN : nat := 4.

(** [memchr_iter(0, bytes).any(..)]: the indices of the NUL bytes. *)
Definition has_repeated_nul_run (bs : bytes) : bool :=
  existsb (fun index =>
      (byte_at bs index =? 0) && (index + BINARY_NUL_RUN <=? length bs)%nat &&
      forallb (fun b => b =? 0) (take BINARY_NUL_RUN (drop index bs)))
    (seq 0 (length bs)).

Definition is_susp (b : Z) : bool :=
  (b <? 0x20) && negb ((b =? 10) || (b =? 13) || (b =? 9) || (b =? 0x0C)).

(** The test both scans make when they meet a suspicious byte. *)
Definition over_threshold (suspicious total : Z) : bool :=
  (SUSPICIOUS_CONTROL_BINARY_MIN <=? suspicious) && (total <? suspicious * 20).

Fixpoint header_loop (len suspicious : Z) (window : bytes) : bool :=
  match window with
  | [] => false
  | b :: rest =>
      if is_susp b then
        let suspicious := suspicious + 1 in
        if over_threshold suspicious len then true else header_loop len suspicious rest
      else header_loop len suspicious rest
  end.

Definition looks_binary_header_check (bs : bytes) : bool :=
  let window := take (Z.to_nat (Z.min (zlen bs) 4096)) bs in
  if zlen window =? 0 then false else header_loop (zlen window) 0 window.

Fixpoint density_loop (total i suspicious : Z) (bs : bytes) : bool :=
  match bs with
  | [] => over_threshold suspicious total
  | b :: rest =>
      let suspicious := if is_susp b then suspicious + 1 else suspicious in
      if is_susp b && over_threshold suspicious total then true
      else if Z.land i 0xFFF =? 0xFFF then
        let remaining := total - (i + 1) in
        if (suspicious + remaining) * 20 <=? total then false
        else density_loop total (i + 1) suspicious rest
      else density_loop total (i + 1) suspicious rest
  end.

Definition looks_binary (bs : bytes) : bool :=
  if has_binary_magic bs || has_utf16_nul_pattern bs then true
  else if has_repeated_nul_run bs then true
  else if zlen bs =? 0 then false
  else density_loop (zlen bs) 0 0 bs.

Definition has_utf16_bom_prefix (bs : bytes) : bool := has_utf16_nul_pattern bs.

Definition looks_binary_prefix (bs : bytes) : bool :=
  if has_utf16_nul_pattern bs then false
  else has_unambiguous_prefix_magic bs || has_bmp_header bs || has_pe_header bs || has_bzip2_header bs ||
       has_repeated_nul_run bs.

(** ** UTF-16 *)

Definition is_high_surrogate (u : Z) : bool := in_range 0xD800 0xDBFF u.
Definition is_low_surrogate (u : Z) : bool := in_range 0xDC00 0xDFFF u.

(** [char::decode_utf16]: an unpaired surrogate is [None]; the unit after an
    unpaired high surrogate is read again. *)
Fixpoint utf16_chars (units : list Z) : list (option Z) :=
  match units with
  | [] => []
  | u :: rest =>
      if is_high_surrogate u then
        match rest with
        | v :: rest' =>
            if is_low_surrogate v
            then Some (Z.lor (Z.shiftl (Z.land u 0x3FF) 10) (Z.land v 0x3FF) + 0x10000) :: utf16_chars rest'
            else None :: utf16_chars rest
        | [] => [None]
        end
      else if is_low_surrogate u then None :: utf16_chars rest
      else Some u :: utf16_chars rest
  end.

(** [chunks_exact(2)] read in the given byte order, and the remainder. *)
Fixpoint utf16_units (little_endian : bool) (payload : bytes) : list Z * bytes :=
  match payload with
  | a :: b :: rest =>
      let '(units, remainder) := utf16_units little_endian rest in
      ((if little_endian then a + 2 ^ 8 * b else 2 ^ 8 * a + b) :: units, remainder)
  | _ => ([], payload)
  end.

Definition lossy_char (r : option Z) : Z := match r with Some c => c | None => 0xFFFD end.

Definition decode_utf16_payload (little_endian : bool) (payload : bytes) : option str :=
  let '(units, remainder) := utf16_units little_endian payload in
  let has_orphan_trailing_byte := negb (zlen remainder =? 0) in
  if has_orphan_trailing_byte && (zlen payload =? 1) then None
  else
    let rs := utf16_chars units in
    let invalid := zlen (List.filter (fun r => match r with Some _ => false | None => true end) rs) in
    let invalid := if has_orphan_trailing_byte then invalid + 1 else invalid in
    let total := if has_orphan_trailing_byte then zlen rs + 1 else zlen rs in
    let out := map lossy_char rs ++ (if has_orphan_trailing_byte then [0xFFFD] else []) in
    if (0 <? total) && (total <? saturating_mul usize_max invalid 4) then None else Some out.

Definition decode_utf16 (bs : bytes) : option str :=
  match strip_prefix [0xFF; 0xFE] bs with
  | Some rest => decode_utf16_payload true rest
  | None =>
      match strip_prefix [0xFE; 0xFF] bs with
      | Some rest => decode_utf16_payload false rest
      | None => None
      end
  end.

(** ** The decoders *)

Definition char_is_ascii (c : Z) : bool := in_range 0 127 c.

Definition append_lossy_view_if_non_ascii_utf16 (utf16_text : str) (raw : bytes) : str :=
  let total := zlen utf16_text in
  if total =? 0 then utf16_text
  else
    let ascii := zlen (List.filter char_is_ascii utf16_text) in
    if total <=? ascii * 2 then utf16_text
    else utf16_text ++ [10] ++ from_utf8_lossy raw.

Definition UTF8_BOM : bytes := [0xEF; 0xBB; 0xBF].

Definition decode_text_file (bs : bytes) : option str :=
  if has_binary_magic bs then None
  else
    match decode_utf16 bs with
    | Some text => Some (append_lossy_view_if_non_ascii_utf16 text bs)
    | None =>
        let bs := match strip_prefix UTF8_BOM bs with Some rest => rest | None => bs end in
        match from_utf8 bs with
        | Some s => if looks_binary_header_check bs then None else Some s
        | None => if looks_binary_header_check bs || looks_binary bs then None else Some (from_utf8_lossy bs)
        end
    end.

Definition decode_text_file_owned_or_bytes (bs : bytes) : result str bytes :=
  if has_binary_magic bs then Err bs
  else
    match decode_utf16 bs with
    | Some text => Ok (append_lossy_view_if_non_ascii_utf16 text bs)
    | None =>
        let had_utf8_bom := starts_with UTF8_BOM bs in
        let bs := if had_utf8_bom then drop 3 bs else bs in
        let restore bs := if had_utf8_bom then UTF8_BOM ++ bs else bs in
        match from_utf8 bs with
        | Some s => if looks_binary_header_check (as_bytes s) then Err (restore (as_bytes s)) else Ok s
        | None =>
            if looks_binary_header_check bs || looks_binary bs then Err (restore bs)
            else Ok (from_utf8_lossy bs)
        end
    end.

(** ** The binary heuristics against plain definitions *)

Definition suspicious_count (bs : bytes) : Z := zlen (List.filter is_susp bs).

Lemma suspicious_count_cons b bs :
  suspicious_count (b :: bs) = (if is_susp b then 1 else 0) + suspicious_count bs.
Proof. unfold suspicious_count, zlen. cbn [List.filter]. destruct (is_susp b); cbn [length]; lia. Qed.

Lemma suspicious_count_bound bs : 0 <= suspicious_count bs <= zlen bs.
Proof.
  unfold suspicious_count, zlen. pose proof (submseteq_length _ _ (filter_submseteq is_susp bs)). lia.
Qed.

Lemma over_threshold_spec s total : over_threshold s total = true <-> 4 <= s /\ total < 20 * s.
Proof. unfold over_threshold, SUSPICIOUS_CONTROL_BINARY_MIN. lia. Qed.

Lemma over_threshold_mono s s' total :
  s <= s' -> over_threshold s total = true -> over_threshold s' total = true.
Proof. rewrite !over_threshold_spec. lia. Qed.

Lemma header_loop_spec len w s :
  over_threshold s len = false ->
  header_loop len s w = over_threshold (s + suspicious_count w) len.
Proof.
  revert s. induction w as [|b w IH]; intros s Hs; cbn [header_loop].
  { unfold suspicious_count, zlen. cbn. by rewrite Z.add_0_r. }
  rewrite suspicious_count_cons. destruct (is_susp b); cbn zeta.
  - destruct (over_threshold (s + 1) len) eqn:E; [|rewrite IH by done; f_equal; lia].
    symmetry. eapply over_threshold_mono; [|exact E]. pose proof (suspicious_count_bound w). lia.
  - rewrite IH by done. f_equal; lia.
Qed.

Lemma looks_binary_header_check_spec bs :
  looks_binary_header_check bs =
    over_threshold (suspicious_count (take 4096 bs)) (zlen (take 4096 bs)).
Proof.
  unfold looks_binary_header_check.
  replace (take (Z.to_nat (Z.min (zlen bs) 4096)) bs) with (take 4096 bs).
  2:{ unfold zlen. destruct (decide (length bs <= 4096)%nat).
      - rewrite !take_ge by lia. done.
      - f_equal. lia. }
  destruct (zlen (take 4096 bs) =? 0) eqn:E; [|by rewrite header_loop_spec].
  pose proof (suspicious_count_bound (take 4096 bs)).
  destruct (over_threshold _ _) eqn:Ho; [|done]. apply over_threshold_spec in Ho. lia.
Qed.

Lemma density_loop_spec total i s bs :
  i + zlen bs = total -> over_threshold s total = false ->
  density_loop total i s bs = over_threshold (s + suspicious_count bs) total.
Proof.
  revert i s. induction bs as [|b bs IH]; intros i s Hi Hs; cbn [density_loop].
  { unfold suspicious_count, zlen. cbn. by rewrite Z.add_0_r. }
  rewrite suspicious_count_cons. pose proof (suspicious_count_bound bs) as Hb.
  assert (Hl : zlen (b :: bs) = 1 + zlen bs) by (unfold zlen; cbn [length]; lia).
  set (s' := if is_susp b then s + 1 else s). cbn zeta.
  replace (s + ((if is_susp b then 1 else 0) + suspicious_count bs)) with (s' + suspicious_count bs)
    by (unfold s'; destruct (is_susp b); lia).
  destruct (is_susp b && over_threshold s' total) eqn:E1.
  { apply andb_true_iff in E1 as [_ E1]. symmetry. eapply over_threshold_mono; [|exact E1]. lia. }
  assert (Hs' : over_threshold s' total = false).
  { unfold s' in *. destruct (is_susp b); [by rewrite andb_true_l in E1|done]. }
  destruct (Z.land i 4095 =? 4095); [|by apply IH; [lia|]].
  destruct ((s' + (total - (i + 1))) * 20 <=? total) eqn:E2; [|by apply IH; [lia|]].
  destruct (over_threshold (s' + suspicious_count bs) total) eqn:Ho; [|done].
  apply over_threshold_spec in Ho. lia.
Qed.

Lemma has_repeated_nul_run_spec bs :
  has_repeated_nul_run bs = true <-> exists a b, bs = a ++ [0; 0; 0; 0] ++ b.
Proof.
  unfold has_repeated_nul_run, BINARY_NUL_RUN. rewrite existsb_exists. split.
  - intros (i & Hi & Ht). apply andb_true_iff in Ht as [Ht Hf]. apply andb_true_iff in Ht as [_ Hlen].
    apply Nat.leb_le in Hlen. exists (take i bs), (drop (i + 4) bs).
    assert (Hl : length (take 4 (drop i bs)) = 4%nat) by (rewrite length_take, length_drop; lia).
    rewrite <- (take_drop i bs) at 1. f_equal. rewrite <- drop_drop, <- (take_drop 4 (drop i bs)) at 1.
    f_equal. destruct (take 4 (drop i bs)) as [|x [|y [|z [|w [|]]]]]; cbn in Hl; try lia.
    cbn in Hf. repeat f_equal; lia.
  - intros (a & b & ->). exists (length a).
    rewrite in_seq, !length_app. cbn [length]. split; [lia|].
    rewrite drop_app_length. cbn [take app forallb Z.eqb andb].
    unfold byte_at. rewrite app_nth2, Nat.sub_diag by lia. cbn.
    rewrite andb_true_r. apply Nat.leb_le. lia.
Qed.

(** The page-sampled scan with exits in both directions decides exactly
    this: a file looks binary when it has a known signature or a UTF-16 mark,
    holds four NUL bytes in a row, or more than one byte in twenty, and at
    least four, are control bytes that text does not use.  The header check is
    the same density test on the first 4096 bytes. *)
Theorem looks_binary_reference (bs : bytes) :
  (looks_binary bs = true <->
     has_binary_magic bs = true \/ has_utf16_nul_pattern bs = true \/
     (exists a b, bs = a ++ [0; 0; 0; 0] ++ b) \/
     (4 <= suspicious_count bs /\ zlen bs < 20 * suspicious_count bs)) /\
  (looks_binary_header_check bs = true <->
     4 <= suspicious_count (take 4096 bs) /\ zlen (take 4096 bs) < 20 * suspicious_count (take 4096 bs)).
Proof.
  split; [|by rewrite looks_binary_header_check_spec, over_threshold_spec].
  unfold looks_binary. rewrite <- has_repeated_nul_run_spec, <- over_threshold_spec.
  destruct (has_binary_magic bs); [naive_solver|]. destruct (has_utf16_nul_pattern bs); [naive_solver|].
  destruct (has_repeated_nul_run bs); cbn [orb]; [naive_solver|].
  rewrite density_loop_spec by done. rewrite Z.add_0_l.
  destruct (zlen bs =? 0) eqn:E; [|naive_solver].
  pose proof (suspicious_count_bound bs). rewrite over_threshold_spec. naive_solver lia.
Qed.

(** ** UTF-16 files *)

(** The UTF-16 form of a scalar value, and a file that holds a text. *)
Definition utf16_encode (c : Z) : list Z :=
  if c <? 0x10000 then [c]
  else [0xD800 + (c - 0x10000) / 2 ^ 10; 0xDC00 + (c - 0x10000) mod 2 ^ 10].

Definition unit_bytes (little_endian : bool) (u : Z) : bytes :=
  if little_endian then [u mod 2 ^ 8; u / 2 ^ 8] else [u / 2 ^ 8; u mod 2 ^ 8].

Definition utf16_payload (little_endian : bool) (s : str) : bytes :=
  concat (map (unit_bytes little_endian) (concat (map utf16_encode s))).

Definition utf16_file (little_endian : bool) (s : str) : bytes :=
  (if little_endian then [0xFF; 0xFE] else [0xFE; 0xFF]) ++ utf16_payload little_endian s.

Lemma utf16_units_encode le us :
  utf16_units le (concat (map (unit_bytes le) us)) = (us, []).
Proof.
  induction us as [|u us IH]; [done|]. cbn [map concat]. unfold unit_bytes at 1.
  destruct le; cbn [app utf16_units]; rewrite IH; do 2 f_equal; Z.div_mod_to_equations; lia.
Qed.

Lemma utf16_chars_encode s :
  Forall is_scalar s -> utf16_chars (concat (map utf16_encode s)) = map Some s.
Proof.
  induction 1 as [|c s Hc Hs IH]; [done|]. cbn [map concat]. unfold is_scalar in Hc. unfold utf16_encode at 1.
  destruct (c <? 65536) eqn:E; cbn [app utf16_chars].
  - unfold is_high_surrogate, is_low_surrogate, in_range.
    replace ((55296 <=? c) && (c <=? 56319)) with false by lia.
    replace ((56320 <=? c) && (c <=? 57343)) with false by lia. by rewrite IH.
  - set (v := c - 65536). assert (Hv : 0 <= v < 2 ^ 20) by lia.
    unfold is_high_surrogate, is_low_surrogate, in_range.
    replace ((55296 <=? 55296 + v / 2 ^ 10) && (55296 + v / 2 ^ 10 <=? 56319)) with true
      by (Z.div_mod_to_equations; lia).
    replace ((56320 <=? 56320 + v mod 2 ^ 10) && (56320 + v mod 2 ^ 10 <=? 57343)) with true
      by (Z.div_mod_to_equations; lia).
    rewrite IH. f_equal. f_equal. change 1023 with (2 ^ 10 - 1). rewrite !land_low by done.
    replace ((55296 + v / 2 ^ 10) mod 2 ^ 10) with (v / 2 ^ 10) by (Z.div_mod_to_equations; lia).
    replace ((56320 + v mod 2 ^ 10) mod 2 ^ 10) with (v mod 2 ^ 10) by (Z.div_mod_to_equations; lia).
    rewrite lor_shiftl_add by (try apply Z.mod_pos_bound; done).
    unfold v. Z.div_mod_to_equations. lia.
Qed.

Lemma filter_invalid_map_Some s :
  List.filter (fun r : option Z => match r with Some _ => false | None => true end) (map Some s) = [].
Proof. by induction s. Qed.

Lemma decode_utf16_file le s : Forall is_scalar s -> decode_utf16 (utf16_file le s) = Some s.
Proof.
  intros Hs. transitivity (decode_utf16_payload le (utf16_payload le s)); [by destruct le|].
  unfold decode_utf16_payload, utf16_payload. rewrite utf16_units_encode. change (negb (zlen (@nil Z) =? 0)) with false. cbn [andb].
  rewrite utf16_chars_encode, filter_invalid_map_Some, map_map, app_nil_r by done.
  change (saturating_mul usize_max (zlen []) 4) with 0.
  replace ((0 <? zlen (map Some s)) && _) with false by (unfold zlen; lia). f_equal. apply map_id.
Qed.

(** A file that starts with a UTF-16 mark has none of the signatures. *)
Lemma utf16_file_not_magic le s : has_binary_magic (utf16_file le s) = false.
Proof.
  unfold utf16_file. set (p := utf16_payload le s).
  assert (Hhead : forall x h, x <> 0xFF -> x <> 0xFE ->
    starts_with (x :: h) ((if le then [0xFF; 0xFE] else [0xFE; 0xFF]) ++ p) = false).
  { intros x h H1 H2. destruct le; cbn; by rewrite bool_decide_false. }
  unfold has_binary_magic, has_bmp_header, has_pe_header, has_bzip2_header.
  change $"BM" with [66; 77]. change $"MZ" with [77; 90]. change $"BZh" with [66; 90; 104].
  rewrite !Hhead by done. cbn [negb]. rewrite !andb_false_r, orb_true_r. cbn [andb orb].
  destruct le; by vm_compute.
Qed.

(** A UTF-16 file of either byte order is decoded to exactly the text it
    holds; where fewer than half of its characters are ASCII the reading of the
    raw bytes as UTF-8 follows after a newline. *)
Theorem utf16_file_roundtrip (little_endian : bool) (s : str) :
  Forall is_scalar s ->
  decode_text_file (utf16_file little_endian s) =
    Some (if (zlen s =? 0) || (zlen s <=? 2 * zlen (List.filter char_is_ascii s)) then s
          else s ++ [10] ++ from_utf8_lossy (utf16_file little_endian s)).
Proof.
  intros Hs. unfold decode_text_file. rewrite utf16_file_not_magic, decode_utf16_file by done.
  unfold append_lossy_view_if_non_ascii_utf16. rewrite (Z.mul_comm 2). by repeat case_match.
Qed.


(** ** ASCII text survives decoding *)

Definition is_byte (b : Z) : Prop := 0 <= b <= 255.

#[export] Instance is_byte_dec b : Decision (is_byte b).
Proof. unfold is_byte. apply _. Defined.

Lemma strip_utf8_bom_keeps a s b rest :
  s <> [] -> Forall (fun c => 0 <= c < 128) s -> strip_prefix UTF8_BOM (a ++ s ++ b) = Some rest ->
  exists a', rest = a' ++ s ++ b.
Proof.
  unfold strip_prefix. intros Hne Hs. destruct (starts_with _ _) eqn:E; [|done]. intros <-%(inj Some).
  apply starts_with_spec in E as [t E]. rewrite E, drop_app_length.
  destruct s as [|x s]; [done|]. apply Forall_cons in Hs as [Hx _]. unfold UTF8_BOM in E.
  destruct a as [|a1 [|a2 [|a3 a]]]; cbn in E; try (injection E; intros; lia).
  exists a. injection E. done.
Qed.

(** The owning decoder is the borrowing one, and hands the very bytes back when
    the file is not text. *)
Lemma owned_decoder_agrees (bs : bytes) :
  Forall is_byte bs ->
  decode_text_file_owned_or_bytes bs = ok_or (decode_text_file bs) bs.
Proof.
  intros Hb. unfold decode_text_file_owned_or_bytes, decode_text_file, strip_prefix.
  destruct (has_binary_magic bs); [done|]. destruct (decode_utf16 bs) as [t|]; [done|].
  set (had := starts_with UTF8_BOM bs).
  set (rest := if had then drop 3 bs else bs).
  replace (match (if had then Some (drop (length UTF8_BOM) bs) else None) with Some r => r | None => bs end)
    with rest by (unfold rest; by destruct had).
  assert (Hrest : (if had then UTF8_BOM ++ rest else rest) = bs).
  { unfold rest. destruct had eqn:E; [|done]. unfold had in E. apply starts_with_spec in E as [t ->]. done. }
  assert (Hbr : Forall is_byte rest) by (unfold rest; destruct had; [by apply Forall_drop|done]).
  destruct (from_utf8 rest) as [t|] eqn:Eu.
  - rewrite (from_utf8_inv _ _ Hbr Eu), Hrest. by destruct (looks_binary_header_check rest).
  - rewrite Hrest. by destruct (looks_binary_header_check rest || looks_binary rest).
Qed.

(** C27. A run of ASCII bytes in a file that either decoder accepts is a run of
    the decoded text, unless the file carries a UTF-16 mark and at least half of
    its UTF-16 reading is ASCII, in which case the text is that reading.  The
    two decoders give the same text, and the owning one returns the untouched
    bytes of a file that is not text. *)
Theorem decoded_text_keeps_ascii (a s b : bytes) :
  Forall is_byte (a ++ s ++ b) -> Forall (fun c => c < 128) s ->
  decode_text_file_owned_or_bytes (a ++ s ++ b) = ok_or (decode_text_file (a ++ s ++ b)) (a ++ s ++ b) /\
  (forall t, decode_text_file (a ++ s ++ b) = Some t ->
     (exists p q, t = p ++ s ++ q) \/
     (decode_utf16 (a ++ s ++ b) = Some t /\ zlen t <= 2 * zlen (List.filter char_is_ascii t))).
Proof.
  intros Hb Hs. split; [by apply owned_decoder_agrees|]. intros t.
  assert (Hs' : Forall (fun c => 0 <= c < 128) s).
  { apply Forall_app in Hb as [_ [Hb _]%Forall_app].
    rewrite Forall_forall in *. intros x Hx. specialize (Hb x Hx). specialize (Hs x Hx). unfold is_byte in Hb. lia. }
  destruct (decide (s = [])) as [->|Hne]; [by left; exists t, []; rewrite !app_nil_r|].
  unfold decode_text_file. destruct (has_binary_magic _); [done|].
  destruct (decode_utf16 (a ++ s ++ b)) as [u|] eqn:Eu.
  - intros [= <-]. unfold append_lossy_view_if_non_ascii_utf16.
    destruct (zlen u =? 0) eqn:E0; [right; split; [done|]; unfold zlen in *; lia|].
    destruct (zlen u <=? zlen (List.filter char_is_ascii u) * 2) eqn:E1; [right; split; [done|lia]|].
    left. destruct (lossy_keeps_ascii a s b Hs') as (p & q & ->). exists (u ++ [10] ++ p), q.
    by rewrite <- !app_assoc.
  - set (rest := match strip_prefix UTF8_BOM (a ++ s ++ b) with Some r => r | None => a ++ s ++ b end).
    assert (exists a', rest = a' ++ s ++ b) as [a' Ha].
    { unfold rest. destruct (strip_prefix _ _) as [r|] eqn:E; [by eapply strip_utf8_bom_keeps|by exists a]. }
    intros Ht. left. rewrite Ha in Ht. destruct (lossy_keeps_ascii a' s b Hs') as (p & q & Hl).
    exists p, q. rewrite <- Hl. destruct (from_utf8 _) as [v|] eqn:Ev; repeat case_match; simplify_eq; [|done].
    symmetry. by apply from_utf8_is_lossy.
Qed.

Lemma decoded_text_keeps_ascii_witness :
  let file := [0xEF; 0xBB; 0xBF; 0xFF] ++ $"AKIA" ++ [0xC3] in
  decode_text_file_owned_or_bytes file = ok_or (decode_text_file file) file /\
  (forall t, decode_text_file file = Some t ->
     (exists p q, t = p ++ $"AKIA" ++ q) \/
     (decode_utf16 file = Some t /\ zlen t <= 2 * zlen (List.filter char_is_ascii t))).
Proof. apply (decoded_text_keeps_ascii [0xEF; 0xBB; 0xBF; 0xFF] $"AKIA" [0xC3]); by_decision. Defined.
