(* ===== verification/Window.v ===== *)
(** * Windowed reading of large files ([crates/sources/src/filesystem/read/window.rs])

    The overlapping-window slicer of the mapped path with its text cache, the
    extent discovery and window reader of sparse files, the page releaser, and
    the handler that chooses between them.  System calls are fields of the open
    file; [blake3] is a parameter. *)

From S2P Require Import Prelude Utf8 SourceSkip.

(** [bytes[a..b]] *)
Definition slice (bs : bytes) (a b : Z) : bytes := take (Z.to_nat (b - a)) (drop (Z.to_nat a) bs).

Definition bytecount_newlines (bs : bytes) : Z := zlen (List.filter (fun b => b =? 10) bs).

Record FileWindow := mkWindow { offset : Z; base_line : Z; text : str }.

(** ** The text cache *)

Class Blake3 := { blake3 : bytes -> bytes }.

Definition WINDOW_TEXT_CACHE_CAP : Z := 8.
Definition SAMPLE_COUNT : Z := 8.
Definition SAMPLE_BYTES : Z := 64.

Record WindowTextCacheEntry := mkEntry { fingerprint : bytes; e_text : str }.

Section cache.
Context `{Blake3}.

Definition fingerprint_input (bs : bytes) : bytes :=
  u64_to_le_bytes (zlen bs) ++
  (if zlen bs <=? SAMPLE_COUNT * SAMPLE_BYTES then bs
   else
     let max_start := zlen bs - SAMPLE_BYTES in
     concat (map (fun sample =>
       let start := max_start * Z.of_nat sample / (SAMPLE_COUNT - 1) in slice bs start (start + SAMPLE_BYTES))
       (seq 0 (Z.to_nat SAMPLE_COUNT)))).

Definition window_fingerprint (bs : bytes) : bytes := blake3 (fingerprint_input bs).

(** Entries in queue order: the least recently used first. *)
Abbreviation WindowTextCache := (list WindowTextCacheEntry).

Definition cache_text (entries : WindowTextCache) (bs : bytes) : WindowTextCache * str :=
  match from_utf8 bs with
  | None => (entries, from_utf8_lossy bs)
  | Some t =>
      let fp := window_fingerprint bs in
      match list_find (fun e => fingerprint e = fp /\ as_bytes (e_text e) = bs) entries with
      | Some (position, entry) => (delete position entries ++ [entry], e_text entry)
      | None =>
          let entries := if zlen entries =? WINDOW_TEXT_CACHE_CAP then tail entries else entries in
          (entries ++ [mkEntry fp t], t)
      end
  end.

(** ** The slicer *)

(** [while offset < total]; [emit] sees the windows so far and answers whether
    to go on; [out] collects them and [adv] the [on_advance] calls.  Running out
    of fuel is [Panic], which the theorems exclude. *)
Fixpoint window_loop (fuel : nat) (bs : bytes) (window_size overlap : Z) (emit : list FileWindow -> bool)
    (off line : Z) (cache : WindowTextCache) (out : list FileWindow) (adv : list Z) :
    outcome (list FileWindow * list Z * bool) :=
  match fuel with
  | O => Panic
  | S fuel' =>
      let stride := window_size - overlap in
      let total := zlen bs in
      if negb (off <? total) then Ret (out, adv, true)
      else
        let! past := add_checked usize_max off window_size in
        let end_ := Z.min past total in
        let '(cache, t) := cache_text cache (slice bs off end_) in
        let out := out ++ [mkWindow off line t] in
        if negb (emit out) then Ret (out, adv, false)
        else if total <=? end_ then Ret (out, adv, true)
        else
          let next := off + stride in
          window_loop fuel' bs window_size overlap emit next (line + bytecount_newlines (slice bs off next))
            cache out (adv ++ [next])
  end.

Definition for_each_window (bs : bytes) (window_size overlap : Z) (emit : list FileWindow -> bool) :
    outcome (list FileWindow * list Z * bool) :=
  if negb (overlap <? window_size) then Panic
  else if zlen bs =? 0 then Ret ([], [], true)
  else window_loop (S (length bs)) bs window_size overlap emit 0 0 [] [] [].

Definition slice_into_windows (bs : bytes) (window_size overlap : Z) : outcome (list FileWindow) :=
  let! r := for_each_window bs window_size overlap (fun _ => true) in Ret (fst (fst r)).

End cache.

(** ** Page release *)

Record MappedPrefixReleaser := mkReleaser { released_upto : Z; advised : list (Z * Z) }.

(** [advised] is the log of [madvise(base + released_upto, len)] calls. *)
Definition release_below (page : Z) (r : MappedPrefixReleaser) (dead_below : Z) : MappedPrefixReleaser :=
  let aligned := dead_below - dead_below mod page in
  if aligned <=? released_upto r then r
  else mkReleaser aligned (advised r ++ [(released_upto r, aligned - released_upto r)]).

(** ** Open files *)

Inductive io_error := InvalidInput | InvalidData | UnexpectedEof | OtherIo (errno : Z).

Inductive whence := SEEK_SET | SEEK_DATA | SEEK_HOLE.

#[export] Instance whence_eq_dec : EqDecision whence.
Proof. solve_decision. Defined.

Inductive seek_result := Found (position : Z) | SeekInterrupted | SeekEnxio | SeekErr (errno : Z).
Inductive read_result := ReadOk (data : bytes) | ReadInterrupted | ReadErr (e : io_error).

(** An open descriptor: its metadata, its system calls (the first argument
    numbers the calls of one retry loop) and the result of mapping it. *)
Record OpenFile := mkFile {
  meta_len : Z;
  meta_blocks : Z;
  lseek : nat -> Z -> whence -> seek_result;
  read_at : nat -> Z -> Z -> read_result;
  map_file : result bytes io_error }.

Definition i64_max : Z := 2 ^ 63 - 1.
Definition ENXIO : Z := 6.

(** The retry loops; [fuel] bounds the calls they make. *)
Fixpoint seek_loop (fuel call : nat) (file : OpenFile) (off : Z) (w : whence) : outcome (result (option Z) io_error) :=
  match fuel with
  | O => Panic
  | S fuel' =>
      match lseek file call off w with
      | Found p => Ret (Ok (Some p))
      | SeekInterrupted => seek_loop fuel' (S call) file off w
      | SeekEnxio => if decide (w = SEEK_DATA) then Ret (Ok None) else Ret (Err (OtherIo ENXIO))
      | SeekErr e => Ret (Err (OtherIo e))
      end
  end.

Definition seek_extent (interrupts : nat) (file : OpenFile) (off : Z) (w : whence) : outcome (result (option Z) io_error) :=
  if i64_max <? off then Ret (Err InvalidInput) else seek_loop (S interrupts) 0 file off w.

Definition rewind_after_extent_query (interrupts : nat) (file : OpenFile) : outcome (result unit io_error) :=
  let! r := seek_extent interrupts file 0 SEEK_SET in
  Ret (match r with
       | Ok (Some 0) => Ok tt
       | Ok _ => Err InvalidData
       | Err e => Err e
       end).

Fixpoint read_loop (fuel call : nat) (file : OpenFile) (len off : Z) (acc : bytes) : outcome (result bytes io_error) :=
  if len =? 0 then Ret (Ok acc)
  else match fuel with
  | O => Panic
  | S fuel' =>
      match read_at file call off len with
      | ReadOk [] => Ret (Err UnexpectedEof)
      | ReadOk data => read_loop fuel' (S call) file (len - zlen data) (saturating_add u64_max off (zlen data)) (acc ++ data)
      | ReadInterrupted => read_loop fuel' (S call) file len off acc
      | ReadErr e => Ret (Err e)
      end
  end.

Definition read_exact_at (interrupts : nat) (file : OpenFile) (len off : Z) : outcome (result bytes io_error) :=
  read_loop (interrupts + Z.to_nat len) 0 file len off [].

(** ** Sparse extents *)

Record SparseRange := mkRange { r_start : Z; r_end : Z }.

(** [ranges] newest first. *)
Definition push_range (ranges : list SparseRange) (expanded : SparseRange) : list SparseRange :=
  match ranges with
  | previous :: rest =>
      if r_start expanded <=? r_end previous
      then mkRange (r_start previous) (Z.max (r_end previous) (r_end expanded)) :: rest
      else expanded :: ranges
  | [] => [expanded]
  end.

Definition expand_extent (file_len overlap data_start hole_start : Z) : SparseRange :=
  mkRange (saturating_sub data_start overlap)
    (Z.min (saturating_add u64_max (Z.min hole_start file_len) overlap) file_len).

Fixpoint discover_loop (fuel : nat) (file_len overlap : Z) (seek : Z -> whence -> outcome (result (option Z) io_error))
    (cursor : Z) (ranges : list SparseRange) : outcome (result (list SparseRange) io_error) :=
  match fuel with
  | O => Panic
  | S fuel' =>
      if negb (cursor <? file_len) then Ret (Ok (rev ranges))
      else
        let! d := seek cursor SEEK_DATA in
        match d with
        | Err e => Ret (Err e)
        | Ok None => Ret (Ok (rev ranges))
        | Ok (Some data_start) =>
            if (data_start <? cursor) || (file_len <=? data_start) then Ret (Err InvalidData)
            else
              let! h := seek data_start SEEK_HOLE in
              match h with
              | Err e => Ret (Err e)
              | Ok None => Ret (Err InvalidData)
              | Ok (Some hole_start) =>
                  if hole_start <=? data_start then Ret (Err InvalidData)
                  else
                    let ranges := push_range ranges (expand_extent file_len overlap data_start hole_start) in
                    discover_loop fuel' file_len overlap seek (Z.min hole_start file_len) ranges
              end
        end
  end.

Definition discover_sparse_ranges_with (file_len overlap : Z) (seek : Z -> whence -> outcome (result (option Z) io_error)) :
    outcome (result (list SparseRange) io_error) :=
  discover_loop (S (Z.to_nat file_len)) file_len overlap seek 0 [].

Definition discover_sparse_ranges (interrupts : nat) (file : OpenFile) (file_len overlap : Z) :
    outcome (result (list SparseRange) io_error) :=
  discover_sparse_ranges_with file_len overlap (seek_extent interrupts file).

(** ** Sparse windows *)

Definition utf8_or_lossy (bs : bytes) : str :=
  match from_utf8 bs with Some t => t | None => from_utf8_lossy bs end.

(** How the reader of one range ends: the range is read, the consumer stopped,
    or a read failed. *)
Inductive range_end :=
| RangeDone (line : Z) (out : list FileWindow)
| RangeStop (out : list FileWindow)
| RangeErr (e : io_error) (out : list FileWindow).

Fixpoint sparse_range_loop (fuel interrupts : nat) (file : OpenFile) (window_size overlap : Z)
    (emit : list FileWindow -> bool) (end_ off line : Z) (out : list FileWindow) : outcome range_end :=
  match fuel with
  | O => Panic
  | S fuel' =>
      let stride := window_size - overlap in
      if negb (off <? end_) then Ret (RangeDone line out)
      else
        let read_len := Z.min (end_ - off) window_size in
        let! r := read_exact_at interrupts file read_len off in
        match r with
        | Err e => Ret (RangeErr e out)
        | Ok bs =>
            let reached_range_end := (read_len <? window_size) || (end_ <=? off + read_len) in
            let advanced_newlines :=
              if reached_range_end then bytecount_newlines bs else bytecount_newlines (slice bs 0 stride) in
            let out := out ++ [mkWindow off line (utf8_or_lossy bs)] in
            if negb (emit out) then Ret (RangeStop out)
            else if reached_range_end then Ret (RangeDone (line + advanced_newlines) out)
            else sparse_range_loop fuel' interrupts file window_size overlap emit end_ (off + stride)
                   (line + advanced_newlines) out
        end
  end.

(** The windows emitted, and the error with the flag that says whether any was. *)
Fixpoint sparse_loop (interrupts : nat) (file : OpenFile) (ranges : list SparseRange) (window_size overlap : Z)
    (emit : list FileWindow -> bool) (line : Z) (out : list FileWindow) :
    outcome (list FileWindow * result unit (io_error * bool)) :=
  match ranges with
  | [] => Ret (out, Ok tt)
  | range :: rest =>
      let! e := sparse_range_loop (S (Z.to_nat (r_end range - r_start range))) interrupts file window_size overlap emit
                  (r_end range) (r_start range) line out in
      match e with
      | RangeDone line out => sparse_loop interrupts file rest window_size overlap emit line out
      | RangeStop out => Ret (out, Ok tt)
      | RangeErr err out => Ret (out, Err (err, negb (bool_decide (length out = O))))
      end
  end.

Definition for_each_sparse_window (interrupts : nat) (file : OpenFile) (ranges : list SparseRange)
    (window_size overlap : Z) (emit : list FileWindow -> bool) :
    outcome (list FileWindow * result unit (io_error * bool)) :=
  sparse_loop interrupts file ranges window_size overlap emit 0 [].

(** ** The handler *)

(** The reasons of [windowed_mmap_error]. *)
Inductive WindowedError :=
| CannotOpen (e : io_error)
| LiveSizeOverCap (len : Z)
| NoAllocatedData
| CannotRewind (e : io_error)
| CannotContinue (e : io_error)
| MappedOverCap (len : Z).

Inductive Row := RWindow (w : FileWindow) | RError (e : WindowedError).
Inductive WindowedMmapOutcome := Consumed | Fallback.

Record Scan := mkScan { rows : list Row; events : list SourceSkipEvent; ending : WindowedMmapOutcome }.

Definition MMAP_TOCTOU_SANITY_CAP_BYTES : Z := 2 * 1024 * 1024 * 1024.

Definition sparse_buffered_fallback (interrupts : nat) (file : OpenFile) : outcome Scan :=
  let! r := rewind_after_extent_query interrupts file in
  Ret (match r with
       | Err e => mkScan [RError (CannotRewind e)] [Unreadable] Consumed
       | Ok _ => mkScan [] [] Fallback
       end).

Section handler.
Context `{Blake3}.

(** [open_file_safe_with_metadata] gives the descriptor or an error.  The
    mapped length fits [u64] on every target.  The emitted rows are all there
    were; a [false] from [emit] only ends the loops that test it. *)
Definition for_each_file_windowed_mmap (interrupts : nat) (opened : result OpenFile io_error)
    (window_size overlap : Z) (emit : list Row -> bool) : outcome Scan :=
  if negb (overlap <? window_size) then Panic
  else match opened with
  | Err e => Ret (mkScan [RError (CannotOpen e)] [Unreadable] Consumed)
  | Ok file =>
      if MMAP_TOCTOU_SANITY_CAP_BYTES <? meta_len file then
        Ret (mkScan [RError (LiveSizeOverCap (meta_len file))] [OverMaxSize] Consumed)
      else if saturating_mul u64_max (meta_blocks file) 512 <? meta_len file then
        let! d := discover_sparse_ranges interrupts file (meta_len file) overlap in
        match d with
        | Err _ => sparse_buffered_fallback interrupts file
        | Ok [] => Ret (mkScan [RError NoAllocatedData] [Binary] Consumed)
        | Ok ranges =>
            let! r := for_each_sparse_window interrupts file ranges window_size overlap (fun ws => emit (map RWindow ws)) in
            match r with
            | (out, Ok _) => Ret (mkScan (map RWindow out) [] Consumed)
            | (_, Err (_, false)) => sparse_buffered_fallback interrupts file
            | (out, Err (e, true)) => Ret (mkScan (map RWindow out ++ [RError (CannotContinue e)]) [Unreadable] Consumed)
            end
        end
      else
        match map_file file with
        | Err _ => Ret (mkScan [] [] Fallback)
        | Ok mmap =>
            if MMAP_TOCTOU_SANITY_CAP_BYTES <? zlen mmap then
              Ret (mkScan [RError (MappedOverCap (zlen mmap))] [OverMaxSize] Consumed)
            else
              let! r := for_each_window mmap window_size overlap (fun ws => emit (map RWindow ws)) in
              Ret (mkScan (map RWindow (fst (fst r))) [] Consumed)
        end
  end.

(** The collecting variant: [None] sends the caller to the buffered path. *)
Definition read_file_windowed_mmap (interrupts : nat) (opened : result OpenFile io_error) (window_size overlap : Z) :
    outcome (option (list FileWindow)) :=
  let! s := for_each_file_windowed_mmap interrupts opened window_size overlap (fun _ => true) in
  Ret (match ending s with
       | Fallback => None
       | Consumed =>
           if existsb (fun r => match r with RError _ => true | RWindow _ => false end) (rows s) then Some []
           else Some (omap (fun r => match r with RWindow w => Some w | RError _ => None end) (rows s))
       end).

End handler.

(** ** Slices and newlines *)

Lemma slice_app bs a b c : 0 <= a <= b -> b <= c -> slice bs a b ++ slice bs b c = slice bs a c.
Proof.
  intros Hab Hbc. unfold slice. replace (Z.to_nat (c - a)) with (Z.to_nat (b - a) + Z.to_nat (c - b))%nat by lia.
  rewrite <- (take_take_drop (drop (Z.to_nat a) bs)). f_equal. rewrite drop_drop. do 2 f_equal. lia.
Qed.

Lemma length_slice bs a b : 0 <= a <= b -> b <= zlen bs -> zlen (slice bs a b) = b - a.
Proof. intros Ha Hb. unfold slice, zlen in *. rewrite length_take, length_drop. lia. Qed.

Lemma slice_slice bs a n m : 0 <= a -> 0 <= m <= n -> slice (slice bs a (a + n)) 0 m = slice bs a (a + m).
Proof.
  intros Ha Hm. unfold slice. rewrite drop_0, take_take. f_equal. lia.
Qed.

Lemma slice_all bs : slice bs 0 (zlen bs) = bs.
Proof. unfold slice, zlen. rewrite drop_0. apply take_ge. lia. Qed.

Lemma newlines_app a b : bytecount_newlines (a ++ b) = bytecount_newlines a + bytecount_newlines b.
Proof. unfold bytecount_newlines, zlen. rewrite List.filter_app, length_app. lia. Qed.

(** Lines before a position. *)
Definition lines_before (bs : bytes) (o : Z) : Z := bytecount_newlines (slice bs 0 o).

Lemma lines_before_add bs a b : 0 <= a <= b -> lines_before bs b = lines_before bs a + bytecount_newlines (slice bs a b).
Proof. intros. unfold lines_before. rewrite <- newlines_app, slice_app by lia. done. Qed.

Lemma lines_before_0 bs : lines_before bs 0 = 0.
Proof. done. Qed.

(** Bytes of value zero carry no line breaks. *)
Lemma lines_before_zeros bs a b :
  0 <= a <= b -> b <= zlen bs -> (forall q, a <= q < b -> bs !! Z.to_nat q = Some 0) -> lines_before bs b = lines_before bs a.
Proof.
  intros Hab Hb Hz. rewrite (lines_before_add bs a b) by done.
  enough (H0 : bytecount_newlines (slice bs a b) = 0) by lia.
  unfold bytecount_newlines. replace (List.filter _ _) with (@nil Z); [done|]. symmetry.
  destruct (List.filter _ _) as [|x l] eqn:E; [done|]. assert (Hin : In x (List.filter (fun b => b =? 10) (slice bs a b))) by (rewrite E; by left).
  apply filter_In in Hin as [Hin ?%Z.eqb_eq]. apply list_elem_of_In, list_elem_of_lookup in Hin as [i Hi].
  unfold slice in Hi. apply lookup_take_Some in Hi as [Hi Hlt]. rewrite lookup_drop in Hi.
  specialize (Hz (a + Z.of_nat i) ltac:(lia)). replace (Z.to_nat (a + Z.of_nat i)) with (Z.to_nat a + i)%nat in Hz by lia. congruence.
Qed.

(** ** Decoding and the cache *)

Lemma utf8_or_lossy_eq bs : utf8_or_lossy bs = from_utf8_lossy bs.
Proof. unfold utf8_or_lossy. destruct (from_utf8 bs) eqn:E; [|done]. symmetry. by apply from_utf8_is_lossy. Qed.

Definition cache_ok (entries : list WindowTextCacheEntry) : Prop :=
  zlen entries <= WINDOW_TEXT_CACHE_CAP /\ Forall (fun e => Forall is_scalar (e_text e)) entries.

Section dense.
Context `{Blake3}.

(** The cache changes no text and stays within its capacity. *)
Lemma cache_transparent entries bs entries' t :
  cache_ok entries -> Forall (fun b => 0 <= b <= 255) bs -> cache_text entries bs = (entries', t) ->
  t = from_utf8_lossy bs /\ cache_ok entries'.
Proof.
  unfold cache_ok, zlen, WINDOW_TEXT_CACHE_CAP. intros [Hl Hs] Hb. unfold cache_text.
  destruct (from_utf8 bs) as [u|] eqn:Hu; [|by intros [= <- <-]].
  destruct (list_find _ entries) as [[i e]|] eqn:Hf.
  - apply list_find_Some in Hf as (Hi & (_ & He) & _). intros [= <- <-]. split.
    + rewrite <- He. symmetry. apply from_utf8_lossy_as_bytes. by apply (Forall_lookup_1 _ _ _ _ Hs Hi).
    + split; [rewrite length_app, length_delete by (by eexists); apply lookup_lt_Some in Hi; cbn; lia|].
      apply Forall_app. split; [by apply Forall_delete|]. apply Forall_singleton. by apply (Forall_lookup_1 _ _ _ _ Hs Hi).
  - intros [= <- <-]. split; [symmetry; by apply from_utf8_is_lossy|].
    unfold zlen, WINDOW_TEXT_CACHE_CAP. destruct (Z.eqb_spec (Z.of_nat (length entries)) 8) as [He|He].
    + split; [rewrite length_app; destruct entries; cbn in *; lia|]. apply Forall_app. split; [|apply Forall_singleton; by eapply from_utf8_scalar].
      destruct Hs; [constructor | done].
    + split; [rewrite length_app; cbn; lia|]. apply Forall_app. split; [done | apply Forall_singleton; by eapply from_utf8_scalar].
Qed.

End dense.

(** ** Chains of windows *)

(** The window at [o] over [bs[o..e]]. *)
Definition window_over (bs : bytes) (w : FileWindow) (o e : Z) : Prop :=
  offset w = o /\ base_line w = lines_before bs o /\ text w = from_utf8_lossy (slice bs o e).

(** The windows of [bs[o..hi]], each a stride after the one before. *)
Inductive chain (bs : bytes) (window_size overlap hi : Z) : Z -> list FileWindow -> Prop :=
| chain_last o w : o < hi -> hi <= o + window_size -> window_over bs w o hi -> chain bs window_size overlap hi o [w]
| chain_step o w rest :
    o + window_size < hi -> window_over bs w o (o + window_size) ->
    chain bs window_size overlap hi (o + (window_size - overlap)) rest ->
    chain bs window_size overlap hi o (w :: rest).

(** A run of at most one byte more than the overlap is whole in a window. *)
Lemma chain_covers bs window_size overlap hi o ws i n :
  overlap < window_size -> chain bs window_size overlap hi o ws ->
  o <= i -> 0 < n <= overlap + 1 -> i + n <= hi ->
  exists w e, w ∈ ws /\ window_over bs w (offset w) e /\ offset w <= i /\ i + n <= e.
Proof.
  intros Hov Hc. induction Hc as [o w Ho Hend Hw|o w rest Hin Hw Hc IH]; intros Hi Hn Hhi.
  - exists w, hi. pose proof Hw as (-> & _). split; [left|]. done.
  - destruct (decide (i + n <= o + window_size)) as [Hfit|Hnot].
    + exists w, (o + window_size). pose proof Hw as (-> & _). split; [left|]. done.
    + destruct IH as (w' & e & Hin' & Hw' & Hle & He); [lia | lia | done|]. exists w', e. split; [by right | done].
Qed.

Lemma chain_all bs window_size overlap hi o ws :
  0 < window_size -> chain bs window_size overlap hi o ws ->
  Forall (fun w => exists e, window_over bs w (offset w) e /\ offset w < e <= hi) ws.
Proof.
  intros Hpos. induction 1 as [o w Ho Hend Hw|o w rest Hin Hw Hc IH]; constructor; try done.
  - exists hi. pose proof Hw as (-> & _). split; [done | lia].
  - exists (o + window_size). pose proof Hw as (-> & _). split; [done | lia].
Qed.

Lemma chain_offsets bs window_size overlap hi o ws k w :
  chain bs window_size overlap hi o ws -> ws !! k = Some w -> offset w = o + Z.of_nat k * (window_size - overlap).
Proof.
  intros Hc. revert k. induction Hc as [o v Ho Hend (Hv & _)|o v rest Hin (Hv & _) Hc IH]; intros [|k]; cbn; try done.
  - intros [= <-]. lia.
  - intros [= <-]. lia.
  - intros Hk. rewrite (IH k Hk). lia.
Qed.

(** ** The mapped path *)

Section mapped.
Context `{Blake3}.

Lemma Forall_slice (P : Z -> Prop) bs a b : Forall P bs -> Forall P (slice bs a b).
Proof. intros Hp. unfold slice. by apply Forall_take, Forall_drop. Qed.

Lemma window_loop_chain fuel bs window_size overlap off line cache out adv :
  0 <= overlap < window_size -> zlen bs + window_size <= usize_max -> Forall (fun b => 0 <= b <= 255) bs ->
  0 <= off < zlen bs -> zlen bs - off < Z.of_nat fuel -> cache_ok cache -> line = lines_before bs off ->
  exists ws, window_loop fuel bs window_size overlap (fun _ => true) off line cache out adv =
    Ret (out ++ ws, adv ++ tail (map offset ws), true) /\ chain bs window_size overlap (zlen bs) off ws.
Proof.
  intros Hov Hmax Hb. revert off line cache out adv. induction fuel as [|fuel IH]; intros off line cache out adv Hoff Hfuel Hcache Hline.
  { lia. }
  cbn [window_loop]. rewrite (proj2 (Z.ltb_lt _ _) (proj2 Hoff)). cbn [negb]. unfold add_checked.
  rewrite (proj2 (Z.leb_le _ _)) by lia. destruct (cache_text cache _) as [cache' t] eqn:Hc.
  apply cache_transparent in Hc as [Ht Hcache']; [|done | by apply Forall_slice]. cbn [negb].
  destruct (Z.leb_spec (zlen bs) (Z.min (off + window_size) (zlen bs))) as [Hlast|Hmore].
  - exists [mkWindow off line t]. cbn [map tail]. rewrite app_nil_r. split; [done|]. apply chain_last; [lia | lia|].
    split; [done|]. split; [done|]. cbn [text]. rewrite Ht. do 2 f_equal. lia.
  - assert (Hw : window_over bs (mkWindow off line t) off (off + window_size)).
    { split; [done|]. split; [done|]. cbn [text]. rewrite Ht. do 2 f_equal. lia. }
    remember (off + (window_size - overlap)) as next eqn:Hnext.
    destruct (IH next (line + bytecount_newlines (slice bs off next)) cache' (out ++ [mkWindow off line t]) (adv ++ [next]))
      as (ws & -> & Hch); [lia | lia | done | |].
    { rewrite Hline. symmetry. apply lines_before_add. lia. }
    exists (mkWindow off line t :: ws). cbn [map tail]. rewrite <- !app_assoc. split.
    + do 3 f_equal. destruct Hch as [? ? ? ? (Ho & _)|? ? ? ? (Ho & _)]; cbn; by rewrite Ho.
    + apply chain_step; [lia | done | by rewrite <- Hnext].
Qed.

Lemma for_each_window_chain bs window_size overlap :
  0 <= overlap < window_size -> zlen bs + window_size <= usize_max -> Forall (fun b => 0 <= b <= 255) bs ->
  exists ws, for_each_window bs window_size overlap (fun _ => true) = Ret (ws, tail (map offset ws), true) /\
    (bs = [] /\ ws = [] \/ chain bs window_size overlap (zlen bs) 0 ws).
Proof.
  intros Hov Hmax Hb. unfold for_each_window. rewrite (proj2 (Z.ltb_lt _ _) (proj2 Hov)). cbn [negb].
  destruct bs as [|b bs]; [exists []; split; [done | by left]|].
  destruct (Z.eqb_spec (zlen (b :: bs)) 0) as [Hz|_]; [unfold zlen in Hz; cbn in Hz; lia|].
  destruct (window_loop_chain (S (length (b :: bs))) (b :: bs) window_size overlap 0 0 [] [] []) as (ws & -> & Hch); [done | done | done | | | | done |].
  - unfold zlen in *. cbn [length] in *. lia.
  - unfold zlen. lia.
  - by split.
  - exists ws. split; [done | by right].
Qed.

(** The slicer of mapped files: it always terminates; window [k] starts at
    [k] strides, carries the number of line breaks before it and the decoded
    bytes of its slice; a secret of at most [overlap + 1] bytes is whole in one
    window wherever it lies; pages are declared dead only below the next window. *)
Theorem windows_cover (bs : bytes) (window_size overlap : Z) :
  0 <= overlap < window_size -> zlen bs + window_size <= usize_max -> Forall (fun b => 0 <= b <= 255) bs ->
  exists ws, for_each_window bs window_size overlap (fun _ => true) = Ret (ws, tail (map offset ws), true) /\
    (forall k w, ws !! k = Some w ->
       offset w = Z.of_nat k * (window_size - overlap) /\ base_line w = lines_before bs (offset w) /\
       exists e, text w = from_utf8_lossy (slice bs (offset w) e) /\ offset w < e <= zlen bs) /\
    (forall i n, 0 <= i -> 0 < n <= overlap + 1 -> i + n <= zlen bs ->
       exists w e, w ∈ ws /\ text w = from_utf8_lossy (slice bs (offset w) e) /\ offset w <= i /\ i + n <= e).
Proof.
  intros Hov Hmax Hb. destruct (for_each_window_chain bs window_size overlap Hov Hmax Hb) as (ws & Hf & [[-> ->]|Hch]); exists ws || exists [];
    (split; [done|]); split.
  - done.
  - intros i n Hi Hn Hin. change (zlen (@nil Z)) with 0 in Hin. lia.
  - intros k w Hk. split; [rewrite (chain_offsets _ _ _ _ _ _ _ _ Hch Hk); lia|].
    pose proof (chain_all bs window_size overlap (zlen bs) 0 ws ltac:(lia) Hch) as Hall. rewrite Forall_lookup in Hall.
    destruct (Hall k w Hk) as (e & (_ & Hl & Ht) & He). eauto.
  - intros i n Hi Hn Hin. destruct (chain_covers bs window_size overlap (zlen bs) 0 ws i n ltac:(lia) Hch) as (w & e & Hw & (_ & _ & Ht) & Hle & He); [lia | lia | lia |].
    by exists w, e.
Qed.

End mapped.

(** ** Page release *)

(** Pages are released in order, whole, once, and never at or above the offset
    the next window starts at. *)
Lemma release_below_spec page r dead_below :
  0 < page -> 0 <= dead_below -> released_upto r mod page = 0 ->
  let r' := release_below page r dead_below in
  released_upto r' mod page = 0 /\ released_upto r <= released_upto r' <= Z.max (released_upto r) dead_below /\
  (r' = r \/ advised r' = advised r ++ [(released_upto r, released_upto r' - released_upto r)]).
Proof.
  intros Hp Hd Hr. unfold release_below. pose proof (Z.mod_pos_bound dead_below page Hp) as Hm.
  destruct (Z.leb_spec (dead_below - dead_below mod page) (released_upto r)) as [Hle|Hgt]; cbn [released_upto advised].
  - split; [done|]. split; [lia | by left].
  - split; [|split; [lia | by right]]. rewrite Zminus_mod, Z.mod_mod, Z.sub_diag by lia. by apply Z.mod_0_l; lia.
Qed.

(** ** Honest files *)

Definition is_data (content : bytes) (q : Z) : Prop := exists b, content !! Z.to_nat q = Some b /\ b <> 0.

(** What [lseek(2)], [pread(2)] and [mmap(2)] document for a file that does not
    change: [SEEK_DATA] skips only holes, which read as zeros; reads and the
    mapping return the content; interruptions end. *)
Record honest (interrupts : nat) (file : OpenFile) (content : bytes) : Prop := {
  h_len : meta_len file = zlen content;
  h_fits : zlen content <= i64_max;
  h_bytes : Forall (fun b => 0 <= b <= 255) content;
  h_seek : forall call off w, lseek file call off w = SeekInterrupted -> (call < interrupts)%nat;
  h_data : forall call off p, 0 <= off -> lseek file call off SEEK_DATA = Found p -> forall q, off <= q < p -> ~ is_data content q;
  h_enxio : forall call off, 0 <= off -> lseek file call off SEEK_DATA = SeekEnxio -> forall q, off <= q -> ~ is_data content q;
  h_read : forall call off len, 0 <= len -> match read_at file call off len with
    | ReadOk data => zlen data <= len /\ data = slice content off (off + zlen data)
    | ReadInterrupted => (call < interrupts)%nat
    | ReadErr _ => True
    end;
  h_map : forall m, map_file file = Ok m -> m = content }.

Section honest_file.
Context (interrupts : nat) (file : OpenFile) (content : bytes) (Hh : honest interrupts file content).

Lemma seek_loop_total fuel call off w :
  (interrupts < fuel + call)%nat -> (0 < fuel)%nat ->
  exists r, seek_loop fuel call file off w = Ret r /\
    (forall p, r = Ok (Some p) -> exists call', lseek file call' off w = Found p) /\
    (r = Ok None -> w = SEEK_DATA /\ exists call', lseek file call' off w = SeekEnxio).
Proof.
  revert call. induction fuel as [|fuel IH]; intros call Hf Hpos; [lia|]. cbn [seek_loop].
  destruct (lseek file call off w) eqn:E.
  - eexists. split; [done|]. split; [intros p [= <-]; eauto | done].
  - pose proof (h_seek _ _ _ Hh _ _ _ E). destruct fuel as [|fuel]; [lia|]. apply IH; lia.
  - destruct (decide (w = SEEK_DATA)) as [->|]; eexists; (split; [done|]); split; try done. intros _. eauto.
  - eexists. split; [done|]. by split.
Qed.

Lemma seek_extent_total off w :
  exists r, seek_extent interrupts file off w = Ret r /\
    (forall p, r = Ok (Some p) -> exists call, lseek file call off w = Found p) /\
    (r = Ok None -> w = SEEK_DATA /\ exists call, lseek file call off w = SeekEnxio).
Proof. unfold seek_extent. destruct (_ <? _); [eexists; split; [done | by split]|]. apply seek_loop_total; lia. Qed.

Lemma read_loop_total fuel call len off acc :
  0 <= len -> 0 <= off -> off + len <= zlen content -> (interrupts - call + Z.to_nat len <= fuel)%nat ->
  exists r, read_loop fuel call file len off acc = Ret r /\ forall bs, r = Ok bs -> bs = acc ++ slice content off (off + len).
Proof.
  revert call len off acc. induction fuel as [|fuel IH]; intros call len off acc Hlen Hoff Hfit Hfuel; cbn [read_loop].
  all: destruct (Z.eqb_spec len 0) as [->|Hne];
    [eexists; split; [done|]; intros bs [= <-]; unfold slice; rewrite Z.add_0_r, Z.sub_diag; cbn; by rewrite app_nil_r|].
  { lia. }
  pose proof (h_read _ _ _ Hh call off len Hlen) as Hr. destruct (read_at file call off len) as [data| |e].
  - destruct Hr as [Hle Hd]. destruct data as [|b data]; [by eexists|]. remember (b :: data) as d eqn:Ed.
    assert (Hpos : 0 < zlen d) by (rewrite Ed; unfold zlen; cbn; lia).
    assert (Hsat : saturating_add u64_max off (zlen d) = off + zlen d).
    { pose proof (h_fits _ _ _ Hh) as Hfits. unfold saturating_add, u64_max, i64_max in *. lia. }
    rewrite Hsat. destruct (IH (S call) (len - zlen d) (off + zlen d) (acc ++ d)) as (r & -> & Hok); [lia | lia | lia | lia |].
    eexists. split; [done|]. intros bs Hbs. rewrite (Hok bs Hbs), <- app_assoc. f_equal. rewrite Hd at 1.
    replace (off + zlen d + (len - zlen d)) with (off + len) by lia. apply slice_app; lia.
  - apply IH; lia.
  - by eexists.
Qed.

Lemma read_exact_total len off :
  0 <= len -> 0 <= off -> off + len <= zlen content ->
  exists r, read_exact_at interrupts file len off = Ret r /\ forall bs, r = Ok bs -> bs = slice content off (off + len).
Proof.
  intros Hl Ho Hf. destruct (read_loop_total (interrupts + Z.to_nat len) 0 len off [] Hl Ho Hf) as (r & Hr & Hok); [lia|].
  exists r. split; [exact Hr | intros bs Hbs; exact (Hok bs Hbs)].
Qed.

(** ** Extents *)

(** Separated ranges inside the file, in order. *)
Definition well_placed (ranges : list SparseRange) : Prop :=
  StronglySorted (fun a b => r_end a < r_start b) ranges /\
  Forall (fun r => 0 <= r_start r < r_end r /\ r_end r <= zlen content) ranges.

(** The context of [overlap] bytes around a position is in one range. *)
Definition context_in (overlap : Z) (ranges : list SparseRange) (q : Z) : Prop :=
  exists r, r ∈ ranges /\ r_start r <= saturating_sub q overlap /\ Z.min (q + 1 + overlap) (zlen content) <= r_end r.

Lemma push_range_spec overlap ranges cursor data_start hole_start :
  0 <= overlap -> zlen content + overlap <= u64_max ->
  0 <= cursor <= data_start -> data_start < hole_start -> data_start < zlen content ->
  well_placed (rev ranges) -> (forall r, r ∈ ranges -> r_start r <= saturating_sub cursor overlap) ->
  (forall q, 0 <= q < cursor -> is_data content q -> context_in overlap (rev ranges) q) ->
  (forall q, cursor <= q < data_start -> ~ is_data content q) ->
  let ranges' := push_range ranges (expand_extent (zlen content) overlap data_start hole_start) in
  let cursor' := Z.min hole_start (zlen content) in
  well_placed (rev ranges') /\ (forall r, r ∈ ranges' -> r_start r <= saturating_sub cursor' overlap) /\
  (forall q, 0 <= q < cursor' -> is_data content q -> context_in overlap (rev ranges') q).
Proof.
  intros Hov Hmax Hcur Hh1 Hdl [Hss Hall] Hstart Hcov Hgap. cbv zeta.
  set (ex := expand_extent (zlen content) overlap data_start hole_start).
  assert (Hex : r_start ex = Z.max 0 (data_start - overlap) /\
    r_end ex = Z.min (Z.min hole_start (zlen content) + overlap) (zlen content)).
  { subst ex. unfold expand_extent, saturating_sub, saturating_add. cbn [r_start r_end]. lia. }
  destruct Hex as [Hes Hee]. clearbody ex. unfold saturating_sub in *.
  assert (Hnew : forall r, r_start r <= r_start ex -> r_end ex <= r_end r -> forall q, data_start <= q < Z.min hole_start (zlen content) ->
    r_start r <= saturating_sub q overlap /\ Z.min (q + 1 + overlap) (zlen content) <= r_end r).
  { intros r Hr1 Hr2 q Hq. unfold saturating_sub. lia. }
  destruct ranges as [|prev rest]; cbn [push_range].
  { cbn [rev app]. split; [|split].
    - split; [by repeat constructor|]. apply Forall_singleton. lia.
    - intros r ->%list_elem_of_singleton. lia.
    - intros q Hq Hd. destruct (decide (q < data_start)).
      + destruct (decide (q < cursor)); [|exfalso; apply (Hgap q); [lia | done]].
        destruct (Hcov q ltac:(lia) Hd) as (r & Hr & _). by apply not_elem_of_nil in Hr.
      + exists ex. split; [by apply list_elem_of_singleton|]. apply Hnew; lia. }
  assert (Hprev : r_start prev <= r_start ex) by (specialize (Hstart prev ltac:(left)); lia).
  cbn [rev] in Hss, Hall, Hcov. apply Forall_app in Hall as [Hall Hp1]. rewrite Forall_singleton in Hp1.
  assert (Hold : forall r', r_start r' <= r_start prev -> r_end prev <= r_end r' ->
    forall l, (forall r, r ∈ rev rest -> r ∈ l) -> r' ∈ l -> forall q, 0 <= q < Z.min hole_start (zlen content) -> q < data_start ->
    is_data content q -> context_in overlap l q).
  { intros r' Hr1 Hr2 l Hl Hrl q Hq Hqd Hd. destruct (decide (q < cursor)); [|exfalso; apply (Hgap q); [lia | done]].
    destruct (Hcov q ltac:(lia) Hd) as (r & Hr & Hs & He). rewrite elem_of_app, list_elem_of_singleton in Hr.
    destruct Hr as [Hr| ->]; [exists r; split; [by apply Hl | done] | exists r'; split; [done | lia]]. }
  destruct (Z.leb_spec (r_start ex) (r_end prev)) as [Hmerge|Hsep].
  - set (m := mkRange (r_start prev) (Z.max (r_end prev) (r_end ex))). cbn [rev]. split; [|split].
    + split.
      * apply StronglySorted_app in Hss as (Hx & Hs & _). apply StronglySorted_app. split; [|split; [done | repeat constructor]].
        intros a b Ha Hb. apply list_elem_of_singleton in Hb as ->. apply (Hx a prev Ha). by apply list_elem_of_singleton.
      * apply Forall_app. split; [done|]. apply Forall_singleton. unfold m; cbn [r_start r_end]. lia.
    + intros r [->|Hr]%elem_of_cons; [unfold m; cbn [r_start]; lia|]. specialize (Hstart r ltac:(by right)). lia.
    + intros q Hq Hd. assert (Hm : m ∈ rev rest ++ [m]) by (apply elem_of_app; right; by apply list_elem_of_singleton).
      destruct (decide (q < data_start)).
      * apply (Hold m); unfold m; cbn [r_start r_end]; try done; try lia. intros r Hr. apply elem_of_app. by left.
      * exists m. split; [done|]. apply Hnew; unfold m; cbn [r_start r_end]; lia.
  - cbn [rev]. split; [|split].
    + split.
      * apply StronglySorted_app. split; [|split; [done | repeat constructor]].
        intros a b Ha Hb. apply list_elem_of_singleton in Hb as ->. rewrite elem_of_app, list_elem_of_singleton in Ha.
        destruct Ha as [Ha| ->]; [|lia]. apply StronglySorted_app in Hss as (Hx & _).
        specialize (Hx a prev Ha ltac:(by apply list_elem_of_singleton)). lia.
      * rewrite !Forall_app, !Forall_singleton. split; [by split|]. lia.
    + intros r [->|Hr]%elem_of_cons; [lia|]. specialize (Hstart r Hr). lia.
    + intros q Hq Hd. destruct (decide (q < data_start)).
      * apply (Hold prev); try done; try lia; [|rewrite !elem_of_app, !list_elem_of_singleton; auto].
        intros r Hr. rewrite !elem_of_app. auto.
      * exists ex. split; [apply elem_of_app; right; by apply list_elem_of_singleton|]. apply Hnew; lia.
Qed.

Lemma discover_loop_spec overlap fuel cursor ranges :
  0 <= overlap -> zlen content + overlap <= u64_max -> 0 <= cursor <= zlen content -> zlen content - cursor < Z.of_nat fuel ->
  well_placed (rev ranges) -> (forall r, r ∈ ranges -> r_start r <= saturating_sub cursor overlap) ->
  (forall q, 0 <= q < cursor -> is_data content q -> context_in overlap (rev ranges) q) ->
  exists r, discover_loop fuel (zlen content) overlap (seek_extent interrupts file) cursor ranges = Ret r /\
    forall out, r = Ok out -> well_placed out /\ forall q, 0 <= q < zlen content -> is_data content q -> context_in overlap out q.
Proof.
  intros Hov Hmax. revert cursor ranges. induction fuel as [|fuel IH]; intros cursor ranges Hcur Hfuel Hwp Hst Hcov; [unfold zlen in *; lia|].
  cbn [discover_loop]. destruct (Z.ltb_spec cursor (zlen content)) as [Hlt|Hge]; cbn [negb].
  2: { eexists. split; [done|]. intros out [= <-]. split; [done|]. intros q Hq. apply Hcov. lia. }
  destruct (seek_extent_total cursor SEEK_DATA) as (d & -> & Hfound & Hnone). destruct d as [[p|]|e]; [| |by eexists].
  - destruct (Hfound p eq_refl) as [call Hp]. pose proof (h_data _ _ _ Hh _ _ _ (proj1 Hcur) Hp) as Hgap.
    destruct (Z.ltb_spec p cursor), (Z.leb_spec (zlen content) p); cbn [orb]; try (by eexists).
    destruct (seek_extent_total p SEEK_HOLE) as (hr & -> & _ & _). destruct hr as [[h|]|e]; [|by eexists|by eexists].
    destruct (Z.leb_spec h p); [by eexists|].
    destruct (push_range_spec overlap ranges cursor p h) as (Hwp' & Hst' & Hcov'); try done; [lia|].
    apply IH; try done; lia.
  - destruct (Hnone eq_refl) as (_ & call & Hp). pose proof (h_enxio _ _ _ Hh _ _ (proj1 Hcur) Hp) as Hgap.
    eexists. split; [done|]. intros out [= <-]. split; [done|]. intros q Hq Hd.
    destruct (decide (q < cursor)); [apply Hcov; [lia | done]|]. exfalso. apply (Hgap q); [lia | done].
Qed.

Lemma discover_spec overlap :
  0 <= overlap -> zlen content + overlap <= u64_max ->
  exists r, discover_sparse_ranges interrupts file (zlen content) overlap = Ret r /\
    forall out, r = Ok out -> well_placed out /\ forall q, 0 <= q < zlen content -> is_data content q -> context_in overlap out q.
Proof.
  intros Hov Hmax. apply discover_loop_spec; try done; [unfold zlen; lia | unfold zlen; lia | | |].
  - split; constructor.
  - intros r Hr. by apply not_elem_of_nil in Hr.
  - intros q Hq. lia.
Qed.

(** ** Sparse windows *)

(** Every window is the file's text at its offset, at its line. *)
Definition true_window (w : FileWindow) : Prop := exists e, window_over content w (offset w) e /\ offset w < e <= zlen content.

Lemma sparse_range_spec window_size overlap fuel end_ off line out :
  0 <= overlap < window_size -> 0 <= off < end_ -> end_ <= zlen content -> end_ - off < Z.of_nat fuel -> line = lines_before content off ->
  exists r ws, sparse_range_loop fuel interrupts file window_size overlap (fun _ => true) end_ off line out = Ret r /\
    Forall true_window ws /\
    (r = RangeDone (lines_before content end_) (out ++ ws) /\ chain content window_size overlap end_ off ws \/
     exists e, r = RangeErr e (out ++ ws)).
Proof.
  intros Hov. revert off line out. induction fuel as [|fuel IH]; intros off line out Hoff Hend Hfuel Hline; [lia|].
  cbn [sparse_range_loop]. rewrite (proj2 (Z.ltb_lt _ _) (proj2 Hoff)). cbn [negb].
  set (len := Z.min (end_ - off) window_size). assert (Hlen : 0 < len /\ len <= end_ - off /\ len <= window_size) by lia.
  destruct (read_exact_total len off) as (r & -> & Hok); [lia | lia | lia|]. destruct r as [bs|e].
  2: { exists (RangeErr e out), []. split; [done|]. split; [constructor|]. right. exists e. by rewrite app_nil_r. }
  rewrite (Hok bs eq_refl), utf8_or_lossy_eq. clear bs Hok. set (w := mkWindow off line _).
  assert (Hw : window_over content w off (off + len)) by done.
  assert (Htw : true_window w) by (exists (off + len); split; [done | cbn; lia]).
  destruct (Z.ltb_spec len window_size), (Z.leb_spec end_ (off + len)); cbn [orb].
  1, 2, 3: exists (RangeDone (lines_before content end_) (out ++ [w])), [w]; assert (Hl : off + len = end_) by lia;
    (split; [by rewrite Hline, <- lines_before_add, Hl by lia|]); (split; [by apply Forall_singleton|]); left;
    (split; [done|]); apply chain_last; [lia | lia | by rewrite <- Hl].
  assert (Hl : len = window_size) by lia. rewrite Hl, slice_slice by lia.
  remember (off + (window_size - overlap)) as next eqn:Hnext.
  destruct (IH next (line + bytecount_newlines (slice content off next)) (out ++ [w])) as (r & ws & -> & Hall & Hr); [lia | lia | lia | |].
  { rewrite Hline. symmetry. apply lines_before_add. lia. }
  exists r, (w :: ws). split; [done|]. split; [by constructor|]. rewrite <- app_assoc in Hr. destruct Hr as [[-> Hch]|He]; [left | by right].
  split; [done|]. apply chain_step; [lia | by rewrite <- Hl | by rewrite <- Hnext].
Qed.

Lemma sparse_loop_spec window_size overlap ranges lo out :
  0 <= overlap < window_size -> well_placed ranges -> 0 <= lo ->
  Forall (fun r => lo <= r_start r) ranges ->
  (forall q, lo <= q < zlen content -> is_data content q -> exists r, r ∈ ranges /\ r_start r <= q < r_end r) ->
  exists r ws, sparse_loop interrupts file ranges window_size overlap (fun _ => true) (lines_before content lo) out = Ret (out ++ ws, r) /\
    Forall true_window ws /\
    ((r = Ok tt /\ forall range, range ∈ ranges -> exists ws', ws' ⊆ ws /\ chain content window_size overlap (r_end range) (r_start range) ws') \/
     exists e, r = Err (e, negb (bool_decide (length (out ++ ws) = O)))).
Proof.
  intros Hov. revert lo out. induction ranges as [|range ranges IH]; intros lo out Hwp Hlo Hst Hdata.
  { exists (Ok tt), []. cbn [sparse_loop]. rewrite app_nil_r. split; [done|]. split; [constructor|]. left. split; [done|].
    intros r Hr. by apply not_elem_of_nil in Hr. }
  destruct Hwp as [Hss Hall]. apply Forall_cons in Hall as [[Hr1 Hr2] Hall]. apply Forall_cons in Hst as [Hs Hst].
  apply StronglySorted_inv in Hss as [Hss Hsep]. rewrite Forall_forall in Hsep. cbn [sparse_loop].
  destruct (sparse_range_spec window_size overlap (S (Z.to_nat (r_end range - r_start range))) (r_end range) (r_start range)
    (lines_before content lo) out) as (r & ws & -> & Htw & Hr); [done | lia | lia | lia | |].
  { symmetry. apply lines_before_zeros; [lia | lia|]. intros q Hq. destruct (content !! Z.to_nat q) as [b|] eqn:E.
    - destruct (decide (b = 0)) as [->|Hb]; [done|]. destruct (Hdata q ltac:(lia) ltac:(by exists b)) as (r & Hrin & Hin).
      apply elem_of_cons in Hrin as [->|Hrin]; [lia|]. specialize (Hsep r Hrin). lia.
    - apply lookup_ge_None in E. unfold zlen in *. lia. }
  destruct Hr as [[-> Hch]|[e ->]].
  2: { exists (Err (e, negb (bool_decide (length (out ++ ws) = O)))), ws. split; [done|]. split; [done|]. right. by exists e. }
  destruct (IH (r_end range) (out ++ ws)) as (r & ws2 & -> & Htw2 & Hr2'); [by split | lia | | |].
  { apply Forall_forall. intros r Hr. specialize (Hsep r Hr). lia. }
  { intros q Hq Hd. destruct (Hdata q ltac:(lia) Hd) as (r & Hr & Hin). apply elem_of_cons in Hr as [->|Hr]; [lia | by exists r]. }
  exists r, (ws ++ ws2). rewrite <- app_assoc. split; [done|]. split; [by apply Forall_app|].
  destruct Hr2' as [[-> Hcov]|[e ->]]; [left | right; exists e; by rewrite <- app_assoc]. split; [done|].
  intros r [->|Hr]%elem_of_cons; [exists ws; split; [set_solver | done]|]. destruct (Hcov r Hr) as (ws' & Hsub & Hc). exists ws'. split; [set_solver | done].
Qed.

End honest_file.

(** ** The handler accounts for every file *)

Section handler_proofs.
Context `{Blake3}.

(** What a scan that reports no error must have emitted: every run of at most
    [overlap + 1] bytes that touches data is whole in a window. *)
Definition complete (content : bytes) (overlap : Z) (out : list FileWindow) : Prop :=
  forall i n j, 0 <= i -> 0 < n <= overlap + 1 -> i + n <= zlen content -> i <= j < i + n -> is_data content j ->
  exists w e, w ∈ out /\ text w = from_utf8_lossy (slice content (offset w) e) /\ offset w <= i /\ i + n <= e.

Lemma complete_chains content window_size overlap ranges ws :
  0 <= overlap < window_size ->
  (forall q, 0 <= q < zlen content -> is_data content q -> context_in content overlap ranges q) ->
  (forall r, r ∈ ranges -> exists ws', ws' ⊆ ws /\ chain content window_size overlap (r_end r) (r_start r) ws') ->
  complete content overlap ws.
Proof.
  intros Hov Hctx Hch i n j Hi Hn Hin Hj Hd. destruct (Hctx j ltac:(lia) Hd) as (r & Hr & Hs & He).
  destruct (Hch r Hr) as (ws' & Hsub & Hc). unfold saturating_sub in Hs.
  destruct (chain_covers content window_size overlap (r_end r) (r_start r) ws' i n ltac:(lia) Hc) as (w & e & Hw & (_ & _ & Ht) & Hle & Hge); [lia | lia | lia |].
  exists w, e. split; [by apply Hsub | done].
Qed.

Lemma fallback_spec interrupts file content :
  honest interrupts file content ->
  exists s, sparse_buffered_fallback interrupts file = Ret s /\
    (s = mkScan [] [] Fallback \/ exists e, s = mkScan [RError (CannotRewind e)] [Unreadable] Consumed).
Proof.
  intros Hh. unfold sparse_buffered_fallback, rewind_after_extent_query.
  destruct (seek_extent_total interrupts file content Hh 0 SEEK_SET) as (r & -> & _). eexists. split; [done|].
  repeat case_match; simplify_eq; eauto.
Qed.

(** The cases of a scan: everything scanned, everything handed on, or an error
    row after true windows with the skip recorded. *)
Definition accounted (content : bytes) (overlap : Z) (s : Scan) : Prop :=
  exists out, Forall (true_window content) out /\
    ((rows s = map RWindow out /\ events s = [] /\ ending s = Consumed /\ complete content overlap out) \/
     (s = mkScan [] [] Fallback) \/
     (exists e ev, s = mkScan (map RWindow out ++ [RError e]) [ev] Consumed)).

Lemma accounted_error content overlap e ev : accounted content overlap (mkScan [RError e] [ev] Consumed).
Proof. exists []. split; [constructor|]. right. right. by exists e, ev. Qed.

Lemma accounted_fallback interrupts file content overlap :
  honest interrupts file content -> exists s, sparse_buffered_fallback interrupts file = Ret s /\ accounted content overlap s.
Proof.
  intros Hh. destruct (fallback_spec _ _ _ Hh) as (s & -> & [->|[e ->]]); eexists; (split; [done|]).
  - exists []. split; [constructor|]. right. by left.
  - apply accounted_error.
Qed.

(** C7. Large files are scanned completely or accounted for: on an unchanging
    file whose system calls behave as documented, and whatever errors they
    return, the windowed reader terminates; it hands the untouched file to the
    buffered path, or reports an error row with a recorded skip, or has emitted,
    with true offsets, line numbers and text, windows in which every run of at
    most [overlap + 1] bytes that touches data is whole, sparse files included. *)
Theorem windowed_scan_accounted (interrupts : nat) (file : OpenFile) (content : bytes) (window_size overlap : Z) :
  honest interrupts file content -> 0 <= overlap < window_size -> zlen content + window_size <= usize_max ->
  exists s, for_each_file_windowed_mmap interrupts (Ok file) window_size overlap (fun _ => true) = Ret s /\
    accounted content overlap s.
Proof.
  intros Hh Hov Hmax. unfold for_each_file_windowed_mmap. rewrite (proj2 (Z.ltb_lt _ _) (proj2 Hov)). cbn [negb].
  destruct (_ <? meta_len file); [eexists; split; [done | apply accounted_error]|].
  destruct (_ <? meta_len file).
  - rewrite (h_len _ _ _ Hh). destruct (discover_spec _ _ _ Hh overlap) as (d & -> & Hd); [lia | unfold usize_max in Hmax; lia|].
    destruct d as [ranges|e]; [|by apply accounted_fallback].
    destruct (Hd ranges eq_refl) as [Hwp Hctx]. destruct ranges as [|r0 rs] eqn:Er; [eexists; split; [done | apply accounted_error]|].
    rewrite <- Er in *. clear Er.
    destruct (sparse_loop_spec _ _ _ Hh window_size overlap ranges 0 [] Hov Hwp) as (r & ws & Hl & Htw & Hr); [lia | | |].
    { destruct Hwp as [_ Hall]. eapply Forall_impl; [exact Hall|]. cbn. lia. }
    { intros q Hq Hdq. destruct (Hctx q Hq Hdq) as (r & Hr & Hs & He). exists r. split; [done|]. unfold saturating_sub in Hs. lia. }
    unfold for_each_sparse_window. rewrite lines_before_0 in Hl. cbn [app] in Hl. rewrite Hl.
    destruct Hr as [[-> Hch]|[e ->]].
    + eexists. split; [done|]. exists ws. split; [done|]. left. cbn [rows events ending]. do 3 (split; [done|]). by eapply complete_chains.
    + destruct ws as [|w ws]; cbn [app length bool_decide]; [by apply accounted_fallback|].
      eexists. split; [done|]. exists (w :: ws). split; [done|]. right. right. by eexists _, _.
  - destruct (map_file file) as [m|e] eqn:Hm; [|eexists; split; [done|]; exists []; split; [constructor|]; right; by left].
    apply (h_map _ _ _ Hh) in Hm as ->. destruct (_ <? _); [eexists; split; [done | apply accounted_error]|].
    destruct (for_each_window_chain content window_size overlap Hov Hmax (h_bytes _ _ _ Hh)) as (ws & -> & Hch).
    eexists. split; [done|]. exists ws. cbn [fst rows events ending]. destruct Hch as [[-> ->]|Hch].
    + split; [constructor|]. left. do 3 (split; [done|]). intros i n j Hi Hn Hin. change (zlen (@nil Z)) with 0 in Hin. lia.
    + split; [apply (chain_all content window_size overlap (zlen content) 0 ws ltac:(lia) Hch)|]. left. do 3 (split; [done|]). intros i n j Hi Hn Hin _ _.
      destruct (chain_covers content window_size overlap (zlen content) 0 ws i n ltac:(lia) Hch) as (w & e & Hw & (_ & _ & Ht) & Hle & He); [lia | lia | lia |].
      by exists w, e.
Qed.

End handler_proofs.

(** ** Witnesses *)

#[local] Instance plain_hash : Blake3 := {| blake3 := fun bs => bs |}.

(** A file whose holes are its runs of zeros. *)
Definition skip_to (f : Z -> bool) (content : bytes) (off : Z) : option Z :=
  (fun p : nat * Z => off + Z.of_nat (fst p)) <$> list_find (fun b => f b = true) (drop (Z.to_nat off) content).

Definition zero_hole_file (content : bytes) (blocks : Z) : OpenFile :=
  mkFile (zlen content) blocks
    (fun _ off w => match w with
       | SEEK_DATA => match skip_to (fun b => negb (b =? 0)) content off with Some p => Found p | None => SeekEnxio end
       | SEEK_HOLE => Found (default (zlen content) (skip_to (fun b => b =? 0) content off))
       | SEEK_SET => Found off
       end)
    (fun _ off len => ReadOk (slice content off (off + Z.min len 3)))
    (Ok content).

Lemma skip_to_before f content off : 0 <= off ->
  forall q, off <= q -> (forall p, skip_to f content off = Some p -> q < p) -> forall b, content !! Z.to_nat q = Some b -> f b = false.
Proof.
  intros Hoff q Hq Hp b Hb. unfold skip_to in Hp. replace (Z.to_nat q) with (Z.to_nat off + (Z.to_nat (q - off)))%nat in Hb by lia.
  rewrite <- lookup_drop in Hb. destruct (list_find _ (drop _ _)) as [[i x]|] eqn:E.
  - apply list_find_Some in E as (_ & _ & Hmin). specialize (Hp _ eq_refl). cbn in Hp.
    specialize (Hmin _ _ Hb ltac:(lia)). by destruct (f b).
  - apply list_find_None in E. rewrite Forall_lookup in E. specialize (E _ _ Hb). by destruct (f b).
Qed.

Lemma zero_hole_file_honest content blocks :
  zlen content <= i64_max -> Forall (fun b => 0 <= b <= 255) content -> honest 0 (zero_hole_file content blocks) content.
Proof.
  intros Hl Hb. split; try done.
  - intros call off w. destruct w; cbn; [done | by destruct (skip_to _ _ _) | done].
  - intros call off p Hoff Hf q Hq (b & Hb' & Hne). cbn in Hf. destruct (skip_to _ _ _) as [p'|] eqn:E; [|done]. injection Hf as ->.
    assert (Hz : negb (b =? 0) = false).
    { apply (skip_to_before (fun b => negb (b =? 0)) content off Hoff q ltac:(lia)); [|done]. intros p' Hp'. rewrite E in Hp'. injection Hp' as <-. lia. }
    by apply negb_false_iff, Z.eqb_eq in Hz.
  - intros call off Hoff Hf q Hq (b & Hb' & Hne). cbn in Hf. destruct (skip_to _ _ _) as [p'|] eqn:E; [done|].
    assert (Hz : negb (b =? 0) = false) by (apply (skip_to_before (fun b => negb (b =? 0)) content off Hoff q Hq); [by rewrite E | done]).
    by apply negb_false_iff, Z.eqb_eq in Hz.
  - intros call off len Hlen. cbn [read_at zero_hole_file]. unfold slice, zlen. set (l := drop _ _). rewrite length_take. split; [lia|].
    destruct (Nat.min_spec (Z.to_nat (off + Z.min len 3 - off)) (length l)) as [[Hlt ->]|[Hge ->]].
    + f_equal. lia.
    + rewrite !take_ge by lia. done.
  - intros m. cbn. congruence.
Qed.

Definition sparse_content : bytes := $"key=12" ++ replicate 20 0 ++ $"a" ++ [10] ++ $"tok=3" ++ replicate 9 0.

Lemma windowed_scan_accounted_witness :
  honest 0 (zero_hole_file sparse_content 0) sparse_content /\
  exists s, for_each_file_windowed_mmap 0 (Ok (zero_hole_file sparse_content 0)) 8 3 (fun _ => true) = Ret s /\
    accounted sparse_content 3 s /\ events s = [] /\
    map (fun r => match r with RWindow w => (offset w, base_line w) | RError _ => (-1, -1) end) (rows s) =
      [(0, 0); (5, 0); (23, 0); (28, 1)].
Proof.
  assert (Hh : honest 0 (zero_hole_file sparse_content 0) sparse_content) by (apply zero_hole_file_honest; by_decision).
  split; [exact Hh|].
  destruct (windowed_scan_accounted 0 (zero_hole_file sparse_content 0) sparse_content 8 3 Hh ltac:(lia) ltac:(by_decision)) as (s & Hs & Ha).
  exists s. split; [exact Hs|]. split; [exact Ha|]. revert Hs. vm_compute. intros [= <-]. split; reflexivity.
Defined.

