(* ===== verification/GitDiffParser.v ===== *)
(** * Unified diffs ([crates/sources/src/git/diff_parser.rs])

    The line classifier that both git patch sources share, the reader of hunk
    headers ([git/mod.rs]), and the paths of file headers: unquoting,
    sanitization and normalization. *)

From Stdlib Require Import ZifyBool.
From S2P Require Import Prelude Utf8.

(** Messages are kept as data; one constructor per format string. *)
Inductive source_message :=
  | MalformedDiffLine (source_type excerpt label : str)
  | MalformedHunkHeader (source_type header : str)
  | PathFailedSanitization (source : str)
  | LineTruncated (source_name line_kind : str) (cap consumed : Z)
  | ChildFailed (label operation stderr : str)
  | UntrackedOverlong (cap : Z)
  | UntrackedNotUtf8
  | UntrackedAbsolute
  | UntrackedUnsafe
  | UntrackedNotRegular (path : str)
  | UntrackedTooLarge (path : str) (len cap : Z)
  | UntrackedGrew (path : str)
  | UntrackedBinary (path : str)
  | UntrackedUninitialized.

Inductive SourceError :=
  | ErrIo (errno : Z)
  | ErrGit (message : source_message)
  | ErrCoverage (adapter surface target : str) (over_bytes : bool) (at_ cap : Z) (remaining : str)
  | ErrOther (message : source_message).

Inductive UnifiedDiffEvent :=
  | FileHeader (new_path : option str) (invalid_path : bool)
  | DeletedFile
  | Metadata
  | HunkStart (base_line : Z)
  | AddedLine (line : bytes)
  | BinaryFile
  | OtherLine.

Record UnifiedDiffParser := mkParser { in_hunk : bool }.

Definition parser_new : UnifiedDiffParser := mkParser false.

Definition line_is_skippable_hunk_body (p : UnifiedDiffParser) (line : bytes) : bool :=
  in_hunk p &&
  match line with b :: _ => (b =? 43) || (b =? 45) || (b =? 32) || (b =? 92) | [] => false end.

(** ** Hunk headers *)

Fixpoint leading_digits (s : bytes) : bytes :=
  match s with
  | c :: s' => if is_ascii_digit c then c :: leading_digits s' else []
  | [] => []
  end.

(** [checked_mul(10)?.checked_add(digit)?] over the digits. *)
Fixpoint checked_decimal (value : Z) (digits : bytes) : option Z :=
  match digits with
  | [] => Some value
  | d :: rest =>
      if usize_max <? value * 10 then None
      else if usize_max <? value * 10 + (d - 48) then None
      else checked_decimal (value * 10 + (d - 48)) rest
  end.

Definition parse_hunk_new_start_bytes (header : bytes) : option Z :=
  match find_sub [43] header with
  | None => None
  | Some plus =>
      let digits := leading_digits (drop (plus + 1) header) in
      if bool_decide (digits = []) then None else checked_decimal 0 digits
  end.

Definition parse_hunk_new_start_bytes_or_error (header : bytes) (source_type : str) : result Z SourceError :=
  ok_or (parse_hunk_new_start_bytes header) (ErrOther (MalformedHunkHeader source_type (from_utf8_lossy header))).

(** ** Excerpts in messages *)

Definition excerpt_hex_digit (nibble : Z) : Z :=
  if in_range 0 9 nibble then 48 + nibble
  else if in_range 10 15 nibble then 97 + (nibble - 10)
  else 63.

Definition excerpt_byte (b : Z) : str :=
  if b =? 10 then [92; 110]
  else if b =? 13 then [92; 114]
  else if b =? 9 then [92; 116]
  else if b =? 92 then [92; 92]
  else if b =? 34 then [92; 34]
  else if in_range 0x20 0x7e b then [b]
  else [92; 120; excerpt_hex_digit (Z.shiftr b 4); excerpt_hex_digit (Z.land b 0x0f)].

Definition diff_line_excerpt (line : bytes) : str :=
  concat (map excerpt_byte (take 96 line)) ++ (if 96 <? zlen line then $"..." else []).

Definition malformed_diff_line_error (source_type : str) (line : bytes) (label : str) : SourceError :=
  ErrOther (MalformedDiffLine source_type (diff_line_excerpt line) label).

(** ** Paths *)

Definition trim_diff_line_bytes (line : bytes) : bytes :=
  let line := if ends_with [10] line then removelast line else line in
  if ends_with [13] line then removelast line else line.

Definition is_ascii_control (b : Z) : bool := in_range 0 0x1F b || (b =? 0x7F).

Definition trim_ascii_whitespace (bs : bytes) : bytes :=
  trim_end_matches is_ascii_whitespace (trim_start_matches is_ascii_whitespace bs).

(** The components kept so far, [None] once [..] pops an empty list. *)
Fixpoint normalize_components (normalized : list str) (components : list str) : option (list str) :=
  match components with
  | [] => Some normalized
  | c :: rest =>
      if bool_decide (c = []) || bool_decide (c = $".") then normalize_components normalized rest
      else if bool_decide (c = $"..") then
        match normalized with
        | [] => None
        | _ => normalize_components (removelast normalized) rest
        end
      else normalize_components (normalized ++ [c]) rest
  end.

Definition normalize_git_relative_path (path : str) : option str :=
  if starts_with [47] path then None
  else
    match normalize_components [] (split_on 47 path) with
    | None | Some [] => None
    | Some normalized => Some (join_slash normalized)
    end.

Definition replace_backslashes (s : str) : str := map (fun c => if c =? 92 then 47 else c) s.

Definition sanitize_path_bytes_inner (path : bytes)
    (trim_whitespace backslash_is_separator allow_control_bytes : bool) : option str :=
  let path := if trim_whitespace then trim_ascii_whitespace path else path in
  if bool_decide (path = []) || bool_decide (path = $"/dev/null") then None
  else if negb allow_control_bytes && existsb is_ascii_control path then None
  else
    let path := from_utf8_lossy path in
    let path := if backslash_is_separator then replace_backslashes path else path in
    normalize_git_relative_path path.

Definition sanitize_path_bytes (path : bytes) : option str := sanitize_path_bytes_inner path true true false.

Definition path_with_status (path : option str) : option str * bool :=
  match path with Some p => (Some p, false) | None => (None, true) end.

Definition sanitize_path_bytes_with_status (path : bytes) : option str * bool :=
  path_with_status (sanitize_path_bytes path).

(** The body up to the first quote that is not escaped. *)
Fixpoint quoted_body (escaped : bool) (s : bytes) : option bytes :=
  match s with
  | [] => None
  | b :: rest =>
      if escaped then cons b <$> quoted_body false rest
      else if b =? 92 then cons b <$> quoted_body true rest
      else if b =? 34 then Some []
      else cons b <$> quoted_body false rest
  end.

Definition quoted_git_path_body (path_after_open_quote : bytes) : option bytes :=
  quoted_body false path_after_open_quote.

Definition is_octal (b : Z) : bool := is_ascii_digit b && (b <? 56).

Definition unescape_simple (escaped : Z) : Z :=
  if escaped =? 92 then 92
  else if escaped =? 34 then 34
  else if escaped =? 110 then 10
  else if escaped =? 116 then 9
  else if escaped =? 114 then 13
  else if escaped =? 98 then 0x08
  else if escaped =? 97 then 0x07
  else if escaped =? 102 then 0x0c
  else if escaped =? 118 then 0x0b
  else escaped.

(** [output.push(value as u8)] unless the value exceeds a byte. *)
Definition push_octal (value : Z) (rest : option bytes) : option bytes :=
  if u8_max <? value then None else cons value <$> rest.

Fixpoint unescape_quoted_git_path_body (body : bytes) : option bytes :=
  match body with
  | [] => Some []
  | byte :: rest =>
      if negb (byte =? 92) then cons byte <$> unescape_quoted_git_path_body rest
      else
        match rest with
        | [] => None
        | escaped :: rest1 =>
            if is_octal escaped then
              let value := escaped - 48 in
              match rest1 with
              | d1 :: rest2 =>
                  if is_octal d1 then
                    let value := value * 8 + (d1 - 48) in
                    match rest2 with
                    | d2 :: rest3 =>
                        if is_octal d2
                        then push_octal (value * 8 + (d2 - 48)) (unescape_quoted_git_path_body rest3)
                        else push_octal value (unescape_quoted_git_path_body rest2)
                    | [] => push_octal value (Some [])
                    end
                  else push_octal value (unescape_quoted_git_path_body rest1)
              | [] => push_octal value (Some [])
              end
            else cons (unescape_simple escaped) <$> unescape_quoted_git_path_body rest1
        end
  end.

Definition sanitize_quoted_git_path_with_status (path_after_open_quote : bytes) : option str * bool :=
  path_with_status
    (match quoted_git_path_body path_after_open_quote with
     | Some body =>
         match unescape_quoted_git_path_body body with
         | Some path => sanitize_path_bytes_inner path false true true
         | None => None
         end
     | None => None
     end).

Definition extract_new_path_from_plus_header (line : bytes) : option (option str * bool) :=
  match strip_prefix $"+++ b/" line with
  | Some path_part => Some (sanitize_path_bytes_with_status path_part)
  | None =>
      if bool_decide (line = $"+++ /dev/null") then Some (None, false)
      else
        match strip_prefix ($"+++ " ++ [34] ++ $"b/") line with
        | Some path_part => Some (sanitize_quoted_git_path_with_status path_part)
        | None =>
            if bool_decide (line = $"+++ " ++ [34] ++ $"/dev/null" ++ [34]) then Some (None, false) else None
        end
  end.

(** ** One line *)

Definition parse_line (p : UnifiedDiffParser) (line : bytes) (source_type : str) :
    UnifiedDiffParser * result UnifiedDiffEvent SourceError :=
  if starts_with $"diff --git " line then (mkParser false, Ok (FileHeader None false))
  else if starts_with $"deleted file mode" line then (mkParser false, Ok DeletedFile)
  else if starts_with $"new file mode" line || starts_with $"index " line then (p, Ok Metadata)
  else if starts_with $"Binary files " line || starts_with $"Binary file " line then (mkParser false, Ok BinaryFile)
  else if starts_with $"--- " line then (mkParser false, Ok Metadata)
  else if starts_with $"@@" line then
    match find_sub $"@@" (drop 2 line) with
    | None => (p, Err (malformed_diff_line_error source_type line $"hunk header"))
    | Some _ =>
        match parse_hunk_new_start_bytes_or_error line source_type with
        | Err e => (p, Err e)
        | Ok new_start => (mkParser true, Ok (HunkStart (saturating_sub new_start 1)))
        end
    end
  else if in_hunk p && starts_with [43] line then (p, Ok (AddedLine (drop 1 line)))
  else
    match extract_new_path_from_plus_header line with
    | Some (new_path, invalid_path) => (mkParser false, Ok (FileHeader new_path invalid_path))
    | None =>
        if starts_with $"+++" line
        then (mkParser false, Err (malformed_diff_line_error source_type line $"new-file header"))
        else (p, Ok OtherLine)
    end.

(** ** Paths of file headers stay below the root *)

(** A component that names an entry of its directory. *)
Definition plain_component (c : str) : Prop :=
  c <> [] /\ c <> $"." /\ c <> $".." /\ (47 ∉ c) /\ (92 ∉ c).

#[export] Instance plain_component_dec c : Decision (plain_component c).
Proof. unfold plain_component. apply _. Defined.

Lemma normalize_components_plain acc cs out :
  Forall plain_component acc -> Forall (fun c => (47 ∉ c) /\ (92 ∉ c)) cs ->
  normalize_components acc cs = Some out -> Forall plain_component out.
Proof.
  intros Hacc Hcs. revert acc Hacc. induction Hcs as [|c cs [H1 H2] Hcs IH]; intros acc Hacc; cbn [normalize_components].
  { by intros [= <-]. }
  repeat case_bool_decide; cbn [orb]; try by apply IH.
  - destruct acc as [|x acc]; [done|]. intros Ho. eapply IH; [|exact Ho].
    destruct (exists_last (l := x :: acc)) as (l & y & E); [done|]. rewrite E, removelast_last.
    rewrite E in Hacc. by apply Forall_app in Hacc as [? _].
  - apply IH. apply Forall_app. split; [done|]. by repeat constructor.
Qed.

Lemma normalize_components_id acc cs :
  Forall plain_component cs -> normalize_components acc cs = Some (acc ++ cs).
Proof.
  intros Hcs. revert acc. induction Hcs as [|c cs (H1 & H2 & H3 & _) Hcs IH]; intros acc; cbn [normalize_components].
  { by rewrite app_nil_r. }
  rewrite !bool_decide_false by done. cbn [orb]. rewrite IH. by rewrite <- app_assoc.
Qed.

Lemma join_slash_head parts :
  parts <> [] -> Forall plain_component parts ->
  exists c rest, join_slash parts = c :: rest /\ c <> 47.
Proof.
  intros Hne Hp. destruct parts as [|p [|q rest]]; [done|..]; apply Forall_cons in Hp as [(H1 & _ & _ & H4 & _) _];
    (destruct p as [|c p]; [done|]).
  - exists c, p. split; [done|]. set_solver.
  - eexists c, _. split; [reflexivity|]. set_solver.
Qed.

Lemma path_components_join parts :
  parts <> [] -> Forall plain_component parts -> path_components (join_slash parts) = map Normal parts.
Proof.
  intros Hne Hp. unfold path_components. rewrite split_join_slash; [|done|by eapply Forall_impl; [exact Hp|unfold plain_component; naive_solver]].
  destruct (join_slash_head parts Hne Hp) as (c & rest & -> & Hc).
  assert (Hroot : match c :: rest with 47 :: _ => [RootDir] | _ => [] end = []).
  { destruct c as [|q|q]; [done| |done]. repeat (destruct q as [q|q|]; try done). }
  rewrite Hroot. clear Hroot Hc c rest. destruct parts as [|p parts]; [done|].
  rewrite decide_False by (apply Forall_cons in Hp as [(_ & ? & _) _]; done). cbn [app]. clear Hne.
  induction Hp as [|x l (H1 & H2 & H3 & _) Hl IH]; [done|]. cbn [fmap list_fmap concat map]. unfold unix_component at 1.
  rewrite decide_False by naive_solver. rewrite decide_False by done. cbn [app]. by rewrite <- IH.
Qed.

Lemma replace_backslashes_none s : 92 ∉ replace_backslashes s.
Proof. unfold replace_backslashes. rewrite list_elem_of_fmap. intros (c & Hc & _). case_match; lia. Qed.

Lemma split_on_subset (c sep : Z) (s : str) : c ∉ s -> Forall (fun p => c ∉ p) (split_on sep s).
Proof.
  intros Hc. induction s as [|x s IH]; cbn [split_on]; [repeat constructor; set_solver|].
  specialize (IH ltac:(set_solver)). case_bool_decide; [constructor; [set_solver|done]|].
  destruct (split_on sep s) as [|w ws]; [repeat constructor; set_solver|].
  apply Forall_cons in IH as [? ?]. constructor; [set_solver|done].
Qed.

Lemma normalize_git_relative_path_plain s path :
  92 ∉ s -> normalize_git_relative_path s = Some path ->
  exists parts, parts <> [] /\ Forall plain_component parts /\ path = join_slash parts.
Proof.
  intros Hs. unfold normalize_git_relative_path. case_match; [done|].
  destruct (normalize_components _ _) as [[|p parts]|] eqn:E; try done. intros [= <-].
  exists (p :: parts). split_and!; [done| |done]. eapply normalize_components_plain; [constructor| |exact E].
  apply Forall_and. split; [apply split_on_no_sep|by apply split_on_subset].
Qed.

Lemma sanitize_inner_plain bs t a path :
  sanitize_path_bytes_inner bs t true a = Some path ->
  exists parts, parts <> [] /\ Forall plain_component parts /\ path = join_slash parts.
Proof.
  unfold sanitize_path_bytes_inner. destruct (bool_decide _ || _); [done|]. destruct (negb a && _); [done|].
  apply normalize_git_relative_path_plain, replace_backslashes_none.
Qed.

Lemma extract_new_path_plain line path inv :
  extract_new_path_from_plus_header line = Some (Some path, inv) ->
  inv = false /\ exists parts, parts <> [] /\ Forall plain_component parts /\ path = join_slash parts.
Proof.
  unfold extract_new_path_from_plus_header, sanitize_path_bytes_with_status, sanitize_quoted_git_path_with_status,
    path_with_status, sanitize_path_bytes.
  intros Hp. repeat case_match; simplify_eq; (split; [done|]); by eapply sanitize_inner_plain.
Qed.

(** C33. Whatever bytes a file header holds, a path taken from it is relative and
    stays below the repository root: its components are plain names, none of
    them [.] or [..], without a separator of either platform, and it is never
    reported together with the mark of an invalid path. *)
Theorem header_paths_confined (p p' : UnifiedDiffParser) (line : bytes) (source_type path : str) (invalid : bool) :
  parse_line p line source_type = (p', Ok (FileHeader (Some path) invalid)) ->
  invalid = false /\
  exists parts, parts <> [] /\ path_components path = map Normal parts /\
    path = join_slash parts /\ Forall plain_component parts.
Proof.
  unfold parse_line. intros Hp.
  assert (He : extract_new_path_from_plus_header line = Some (Some path, invalid)).
  { repeat case_match; simplify_eq; done. }
  apply extract_new_path_plain in He as (-> & parts & Hne & Hparts & ->). split; [done|].
  exists parts. by rewrite path_components_join.
Qed.

Lemma header_paths_confined_witness :
  parse_line parser_new ($"+++ b/src/./../lib\a.rs" ++ [9]) $"git diff" =
    (mkParser false, Ok (FileHeader (Some $"lib/a.rs") false)) /\
  (false = false /\
   exists parts, parts <> [] /\ path_components $"lib/a.rs" = map Normal parts /\
     $"lib/a.rs" = join_slash parts /\ Forall plain_component parts).
Proof.
  split; [by_eval|].
  apply (header_paths_confined parser_new (mkParser false) ($"+++ b/src/./../lib\a.rs" ++ [9]) $"git diff"). by_eval.
Defined.

(** ** Reading back what git writes *)

(** The C-style quoting of path names that git documents for [core.quotePath]. *)
Definition git_quote_byte (b : Z) : bytes :=
  if b =? 0x07 then [92; 97] else if b =? 0x08 then [92; 98] else if b =? 9 then [92; 116]
  else if b =? 10 then [92; 110] else if b =? 0x0b then [92; 118] else if b =? 0x0c then [92; 102]
  else if b =? 13 then [92; 114] else if b =? 34 then [92; 34] else if b =? 92 then [92; 92]
  else if in_range 0x20 0x7e b then [b]
  else [92; 48 + b / 64; 48 + b / 8 mod 8; 48 + b mod 8].

Definition git_quote (path : bytes) : bytes := concat (map git_quote_byte path).

Lemma is_octal_digit d : 0 <= d < 8 -> is_octal (48 + d) = true.
Proof. unfold is_octal, is_ascii_digit, in_range. lia. Qed.

Lemma unescape_quote_byte b rest :
  0 <= b <= 255 ->
  unescape_quoted_git_path_body (git_quote_byte b ++ rest) = cons b <$> unescape_quoted_git_path_body rest.
Proof.
  intros Hb. unfold git_quote_byte.
  repeat match goal with |- context [if ?x =? ?y then _ else _] =>
    let E := fresh "E" in destruct (x =? y) eqn:E; [apply Z.eqb_eq in E as ->; reflexivity|] end.
  destruct (in_range 32 126 b); cbn [app unescape_quoted_git_path_body].
  { replace (b =? 92) with false by lia. done. }
  change (negb (92 =? 92)) with false. cbn iota. rewrite !is_octal_digit by (Z.div_mod_to_equations; lia).
  unfold push_octal, u8_max. replace (((48 + b / 64 - 48) * 8 + (48 + b / 8 mod 8 - 48)) * 8 + (48 + b mod 8 - 48)) with b
    by (Z.div_mod_to_equations; lia).
  by replace (2 ^ 8 - 1 <? b) with false by lia.
Qed.

Lemma quoted_body_quote_byte b rest :
  quoted_body false (git_quote_byte b ++ rest) = app (git_quote_byte b) <$> quoted_body false rest.
Proof.
  assert (Hfmap : forall (o : option bytes) l k, app l <$> (app k <$> o) = app (l ++ k) <$> o).
  { intros [o|] l k; [|done]. cbn. by rewrite app_assoc. }
  unfold git_quote_byte.
  repeat match goal with |- context [if ?x =? ?y then _ else _] =>
    let E := fresh "E" in destruct (x =? y) eqn:E; [by cbn; destruct (quoted_body false rest)|] end.
  destruct (in_range 32 126 b); cbn [app quoted_body].
  - replace (b =? 92) with false by done. replace (b =? 34) with false by done. by destruct (quoted_body false rest).
  - change (92 =? 92) with true. cbn iota.
    assert (Hd : forall x, ((48 + x mod 8 =? 92) = false) /\ ((48 + x mod 8 =? 34) = false)) by (intros; Z.div_mod_to_equations; lia).
    rewrite (proj1 (Hd (b / 8))), (proj2 (Hd (b / 8))), (proj1 (Hd b)), (proj2 (Hd b)).
    by destruct (quoted_body false rest).
Qed.

Lemma git_quote_roundtrip path rest :
  Forall (fun b => 0 <= b <= 255) path ->
  quoted_git_path_body (git_quote path ++ 34 :: rest) = Some (git_quote path) /\
  unescape_quoted_git_path_body (git_quote path) = Some path.
Proof.
  unfold quoted_git_path_body, git_quote. induction 1 as [|b path Hb Hp [IH1 IH2]]; [done|]. cbn [map concat].
  rewrite <- app_assoc, quoted_body_quote_byte, IH1, unescape_quote_byte, IH2 by done. done.
Qed.

Lemma elem_of_join_slash c parts : c <> 47 -> c ∈ join_slash parts -> exists p, p ∈ parts /\ c ∈ p.
Proof.
  intros Hc. induction parts as [|p [|q rest] IH]; [by intros ?%not_elem_of_nil|by exists p; split; [left|]|].
  change (join_slash (p :: q :: rest)) with (p ++ 47 :: join_slash (q :: rest)).
  intros [?|[->|Hin]%elem_of_cons]%elem_of_app; [by exists p; split; [left|]|done|].
  apply IH in Hin as (x & ? & ?). exists x. split; [by right|done].
Qed.

Lemma join_slash_scalar parts : Forall (Forall is_scalar) parts -> Forall is_scalar (join_slash parts).
Proof.
  intros Hp. apply Forall_forall. intros c Hc. destruct (decide (c = 47)) as [->|Hne]; [unfold is_scalar; lia|].
  apply elem_of_join_slash in Hc as (p & Hin & Hc); [|done]. rewrite Forall_forall in Hp. specialize (Hp p Hin).
  rewrite Forall_forall in Hp. by apply Hp.
Qed.

Section header_path.
Context (parts : list str) (Hne : parts <> []) (Hplain : Forall plain_component parts)
  (Hscalar : Forall (Forall is_scalar) parts).
Let path := join_slash parts.

Lemma normalize_plain_path : normalize_git_relative_path (replace_backslashes path) = Some path.
Proof.
  assert (replace_backslashes path = path) as ->.
  { unfold replace_backslashes. rewrite <- (map_id path) at 2. apply map_ext_in. intros c Hc%list_elem_of_In.
    destruct (c =? 92) eqn:E; [|done]. exfalso. assert (c = 92) as -> by lia.
    apply elem_of_join_slash in Hc as (p & Hin & Hc); [|done]. rewrite Forall_forall in Hplain.
    by destruct (Hplain p Hin) as (_ & _ & _ & _ & ?). }
  unfold normalize_git_relative_path, path. rewrite split_join_slash; [|done|].
  2:{ eapply Forall_impl; [exact Hplain|]. by intros p (_ & _ & _ & ? & _). }
  destruct (join_slash_head parts Hne Hplain) as (c & rest & E & Hc). rewrite E at 1. cbn [starts_with].
  rewrite bool_decide_false by done. cbn [andb]. rewrite normalize_components_id by done. by destruct parts.
Qed.

Lemma sanitize_plain_bytes (bs : bytes) (t a : bool) :
  (if t then trim_ascii_whitespace bs else bs) = as_bytes path ->
  (a = true \/ existsb is_ascii_control (as_bytes path) = false) ->
  sanitize_path_bytes_inner bs t true a = Some path.
Proof.
  intros Ht Ha. unfold sanitize_path_bytes_inner. rewrite Ht.
  pose proof (join_slash_scalar parts Hscalar) as Hs.
  destruct (join_slash_head parts Hne Hplain) as (c & rest & E & Hc).
  assert (Hlossy : from_utf8_lossy (as_bytes path) = path) by (by apply from_utf8_lossy_as_bytes).
  rewrite !bool_decide_false.
  - cbn [orb]. replace (negb a && _) with false by (destruct Ha as [->| ->]; [done|by rewrite andb_false_r]).
    rewrite Hlossy. apply normalize_plain_path.
  - intros Hq. rewrite Hq in Hlossy. unfold path in Hlossy. rewrite E in Hlossy. vm_compute in Hlossy. by simplify_eq.
  - intros Hq. rewrite Hq in Hlossy. unfold path in Hlossy. rewrite E in Hlossy. vm_compute in Hlossy. by simplify_eq.
Qed.
End header_path.

Lemma parse_line_plus p l st :
  in_hunk p = false ->
  parse_line p (43 :: l) st =
    match extract_new_path_from_plus_header (43 :: l) with
    | Some (new_path, invalid_path) => (mkParser false, Ok (FileHeader new_path invalid_path))
    | None => if starts_with $"+++" (43 :: l)
              then (mkParser false, Err (malformed_diff_line_error st (43 :: l) $"new-file header"))
              else (p, Ok OtherLine)
    end.
Proof. destruct p as [[]]; [done|]. reflexivity. Qed.

Lemma trim_ascii_id bs tab :
  existsb is_ascii_control bs = false -> head bs <> Some 32 -> last bs <> Some 32 -> bs <> [] ->
  (tab = [] \/ tab = [9]) -> trim_ascii_whitespace (bs ++ tab) = bs.
Proof.
  intros Hc Hh Hl Hne Htab.
  assert (Hws : forall b, b ∈ bs -> b <> 32 -> is_ascii_whitespace b = false).
  { intros b Hb H32. assert (is_ascii_control b = false) as Hb'.
    { destruct (is_ascii_control b) eqn:E; [|done]. rewrite <- Hc. symmetry. apply existsb_exists. exists b.
      split; [by apply list_elem_of_In|done]. }
    unfold is_ascii_control, is_ascii_whitespace, in_range in *. lia. }
  unfold trim_ascii_whitespace. rewrite (trim_start_id _ (bs ++ tab)).
  2:{ intros c Hh'. destruct bs as [|b bs]; [done|]. injection Hh' as ->. apply Hws; [left|]. intros ->. by apply Hh. }
  unfold trim_end_matches. rewrite rev_app_distr.
  assert (Hrev : trim_start_matches is_ascii_whitespace (rev bs) = rev bs).
  { apply trim_start_id. intros c Hr. destruct (exists_last Hne) as (l & x & E). rewrite E, rev_app_distr in Hr.
    injection Hr as ->. apply Hws; [rewrite E; set_solver|]. intros ->. apply Hl. by rewrite E, last_snoc. }
  destruct Htab as [->| ->]; cbn [rev app]; [by rewrite Hrev, rev_involutive|].
  cbn [trim_start_matches]. change (is_ascii_whitespace 9) with true. cbn iota. by rewrite Hrev, rev_involutive.
Qed.

Lemma plus_header_parsed (p : UnifiedDiffParser) (parts : list str) (tab : bytes) (source_type : str) :
  in_hunk p = false -> parts <> [] -> Forall plain_component parts -> Forall (Forall is_scalar) parts ->
  let path := join_slash parts in
  parse_line p ($"+++ " ++ [34] ++ $"b/" ++ git_quote (as_bytes path) ++ [34]) source_type =
    (mkParser false, Ok (FileHeader (Some path) false)) /\
  (existsb is_ascii_control (as_bytes path) = false ->
   head (as_bytes path) <> Some 32 -> last (as_bytes path) <> Some 32 -> (tab = [] \/ tab = [9]) ->
   parse_line p ($"+++ b/" ++ as_bytes path ++ tab) source_type = (mkParser false, Ok (FileHeader (Some path) false))).
Proof.
  intros Hp Hne Hplain Hscalar path.
  pose proof (as_bytes_range _ (join_slash_scalar parts Hscalar)) as Hrange. split.
  - change ($"+++ " ++ [34] ++ $"b/" ++ git_quote (as_bytes path) ++ [34])
      with (43 :: ([43; 43; 32; 34; 98; 47] ++ git_quote (as_bytes path) ++ [34])).
    rewrite parse_line_plus by done.
    change (extract_new_path_from_plus_header _)
      with (Some (sanitize_quoted_git_path_with_status (git_quote (as_bytes path) ++ [34]))).
    destruct (git_quote_roundtrip (as_bytes path) [] Hrange) as [H1 H2].
    unfold sanitize_quoted_git_path_with_status. rewrite H1, H2.
    rewrite (sanitize_plain_bytes parts Hne Hplain Hscalar (as_bytes path) false true eq_refl) by auto. done.
  - intros Hc Hh Hl Htab.
    change ($"+++ b/" ++ as_bytes path ++ tab) with (43 :: ([43; 43; 32; 98; 47] ++ as_bytes path ++ tab)).
    rewrite parse_line_plus by done.
    change (extract_new_path_from_plus_header _) with (Some (sanitize_path_bytes_with_status (as_bytes path ++ tab))).
    unfold sanitize_path_bytes_with_status, sanitize_path_bytes.
    rewrite (sanitize_plain_bytes parts Hne Hplain Hscalar (as_bytes path ++ tab) true false); [done| |by right].
    apply trim_ascii_id; try done. intros E. pose proof (from_utf8_lossy_as_bytes _ (join_slash_scalar parts Hscalar)) as Hs.
    destruct (join_slash_head parts Hne Hplain) as (c & rest & Ej & _).
    rewrite E, Ej in Hs. done.
Qed.

(** A file header names the file it was written for: the quoted form is
    undone for every path of plain components, whatever bytes they hold, and
    the bare form, with or without the tab git adds after it, for every such
    path without control bytes and without a space at either end. *)
Theorem header_path_roundtrip (p : UnifiedDiffParser) (parts : list str) (tab : bytes) (source_type : str) :
  in_hunk p = false -> parts <> [] -> Forall plain_component parts -> Forall (Forall is_scalar) parts ->
  let path := join_slash parts in
  parse_line p ($"+++ " ++ [34] ++ $"b/" ++ git_quote (as_bytes path) ++ [34]) source_type =
    (mkParser false, Ok (FileHeader (Some path) false)) /\
  (existsb is_ascii_control (as_bytes path) = false ->
   head (as_bytes path) <> Some 32 -> last (as_bytes path) <> Some 32 -> (tab = [] \/ tab = [9]) ->
   parse_line p ($"+++ b/" ++ as_bytes path ++ tab) source_type = (mkParser false, Ok (FileHeader (Some path) false))).
Proof. apply plus_header_parsed. Qed.


(** ** Hunk headers *)

Definition decimal_value (digits : bytes) : Z := foldl (fun v d => v * 10 + (d - 48)) 0 digits.

Lemma decimal_fold_mono digits v :
  0 <= v -> Forall (fun d => is_ascii_digit d = true) digits -> v <= foldl (fun v d => v * 10 + (d - 48)) v digits.
Proof.
  intros Hv Hd. revert v Hv. induction Hd as [|d digits Hd Hds IH]; intros v Hv; cbn [foldl]; [lia|].
  unfold is_ascii_digit, in_range in Hd. specialize (IH (v * 10 + (d - 48)) ltac:(lia)). lia.
Qed.

Lemma checked_decimal_spec digits v :
  0 <= v <= usize_max -> Forall (fun d => is_ascii_digit d = true) digits ->
  checked_decimal v digits =
    let value := foldl (fun v d => v * 10 + (d - 48)) v digits in
    if value <=? usize_max then Some value else None.
Proof.
  intros Hv Hd. revert v Hv. induction Hd as [|d digits Hd Hds IH]; intros v Hv; cbn [checked_decimal foldl]; cbn zeta.
  { by replace (v <=? usize_max) with true by lia. }
  unfold is_ascii_digit, in_range in Hd.
  pose proof (decimal_fold_mono digits (v * 10 + (d - 48)) ltac:(lia) Hds) as Hm.
  destruct (usize_max <? v * 10) eqn:E1; [by replace (_ <=? usize_max) with false by lia|].
  destruct (usize_max <? v * 10 + (d - 48)) eqn:E2; [by replace (_ <=? usize_max) with false by lia|].
  by rewrite IH by lia.
Qed.

Lemma leading_digits_app digits rest :
  Forall (fun d => is_ascii_digit d = true) digits -> (forall c, head rest = Some c -> is_ascii_digit c = false) ->
  leading_digits (digits ++ rest) = digits.
Proof.
  intros Hd Hr. induction Hd as [|d digits Hd Hds IH]; cbn [app leading_digits].
  - destruct rest as [|c rest]; [done|]. cbn. by rewrite Hr.
  - by rewrite Hd, IH.
Qed.

(** The new-side start of a hunk header is its number when that fits a machine
    word and an error otherwise. *)
Lemma parse_line_hunk p (before digits tail : bytes) st :
  43 ∉ before -> digits <> [] -> Forall (fun d => is_ascii_digit d = true) digits ->
  (forall c, head tail = Some c -> is_ascii_digit c = false) -> (exists i, find_sub $"@@" tail = Some i) ->
  parse_line p ($"@@" ++ before ++ 43 :: digits ++ tail) st =
    if decimal_value digits <=? usize_max
    then (mkParser true, Ok (HunkStart (saturating_sub (decimal_value digits) 1)))
    else (p, Err (ErrOther (MalformedHunkHeader st (from_utf8_lossy ($"@@" ++ before ++ 43 :: digits ++ tail))))).
Proof.
  intros Hb Hne Hd Ht [i Hi]. set (line := $"@@" ++ before ++ 43 :: digits ++ tail).
  assert (Hfind : exists j, find_sub $"@@" (drop 2 line) = Some j).
  { assert (Hgen : forall a, exists j, find_sub $"@@" (a ++ tail) = Some j).
    { induction a as [|c a [j IH]]; [by exists i|]. cbn [app find_sub].
      destruct (starts_with $"@@" (c :: a ++ tail)); [by exists 0%nat|]. rewrite IH. by eexists. }
    destruct (Hgen (before ++ 43 :: digits)) as [j Hj]. exists j.
    change (drop 2 line) with (before ++ 43 :: digits ++ tail). by rewrite <- app_assoc in Hj. }
  assert (Hstart : parse_hunk_new_start_bytes line =
    if decimal_value digits <=? usize_max then Some (decimal_value digits) else None).
  { unfold parse_hunk_new_start_bytes.
    assert (line = ($"@@" ++ before) ++ 43 :: digits ++ tail) as -> by (unfold line; by rewrite <- app_assoc).
    rewrite find_sub_char by (rewrite elem_of_app; intros [Hc|Hc]; [by vm_compute in Hc; set_solver|done]).
    set (a := $"@@" ++ before). replace (drop (length a + 1) (a ++ 43 :: digits ++ tail)) with (digits ++ tail).
    2:{ rewrite drop_app_ge by lia. by replace (length a + 1 - length a)%nat with 1%nat by lia. }
    rewrite leading_digits_app by done. rewrite bool_decide_false by done.
    by rewrite checked_decimal_spec by (unfold usize_max, u64_max; lia || done). }
  transitivity (match find_sub $"@@" (drop 2 line) with
    | None => (p, Err (malformed_diff_line_error st line $"hunk header"))
    | Some _ =>
        match parse_hunk_new_start_bytes_or_error line st with
        | Err e => (p, Err e)
        | Ok new_start => (mkParser true, Ok (HunkStart (saturating_sub new_start 1)))
        end
    end); [reflexivity|].
  destruct Hfind as [j ->]. unfold parse_hunk_new_start_bytes_or_error. rewrite Hstart. by case_match.
Qed.
