(* ===== verification/GitDiff.v ===== *)
(** * The git diff source ([crates/sources/src/git/diff.rs])

    Capped records, byte and chunk caps ([git/mod.rs]), the iterator over the
    added lines of [git diff -U0], and the untracked files that follow them.
    What the child processes print, their exit status and the file system are
    parameters; the set-up that spawns the children is not modelled. *)

From Stdlib Require Import ZifyBool.
From S2P Require Import Prelude Utf8 SourceSkip Excludes TextDecode GitDiffParser.

(** ** Capped records *)

(** What one [fill_buf] of the reader gives: the data of one read, an
    interrupted call or an error.  After the last one the stream is at its end. *)
Inductive fill := Data (available : bytes) | Interrupted | Failed (errno : Z).

Record CappedRecord := mkCapped { cr_consumed : Z; cr_content : Z }.

Definition keep_capped (max : Z) (buf taken : bytes) : bytes :=
  if zlen buf <? max then buf ++ take (Z.to_nat (Z.min (zlen taken) (max - zlen buf))) taken else buf.

(** [consume]: what is left of a buffer is given again. *)
Definition unread (rest : bytes) (reader : list fill) : list fill :=
  if bool_decide (rest = []) then reader else Data rest :: reader.

Fixpoint read_record_loop (max delimiter : Z) (reader : list fill) (buf : bytes) (consumed : Z) :
    list fill * bytes * result CappedRecord Z :=
  match reader with
  | [] => ([], buf, Ok (mkCapped consumed consumed))
  | Interrupted :: reader' => read_record_loop max delimiter reader' buf consumed
  | Failed errno :: reader' => (reader', buf, Err errno)
  | Data available :: reader' =>
      if bool_decide (available = []) then (reader', buf, Ok (mkCapped consumed consumed))
      else
        match find_sub [delimiter] available with
        | Some i =>
            let taken := take (i + 1) available in
            (unread (drop (i + 1) available) reader', keep_capped max buf taken,
             Ok (mkCapped (consumed + zlen taken) (consumed + zlen taken - 1)))
        | None =>
            read_record_loop max delimiter reader' (keep_capped max buf available) (consumed + zlen available)
        end
  end.

Definition read_capped_record (reader : list fill) (max delimiter : Z) := read_record_loop max delimiter reader [] 0.
Definition read_capped_line (reader : list fill) (max : Z) := read_capped_record reader max 10.

(** ** Limits *)

Record SourceLimits := mkLimits {
  git_line_bytes : Z; git_total_bytes : Z; git_chunk_count : Z; git_blob_bytes : Z }.

Definition git_blob_bytes_limit_usize (limits : SourceLimits) : Z :=
  if git_blob_bytes limits <=? usize_max then git_blob_bytes limits else usize_max.

Inductive GitHistoryCap := TotalBytes (total cap : Z) | Chunks (count cap : Z).

Definition git_history_cap_status (total_bytes chunk_count : Z) (limits : SourceLimits) : option GitHistoryCap :=
  if git_total_bytes limits <=? total_bytes then Some (TotalBytes total_bytes (git_total_bytes limits))
  else if git_chunk_count limits <=? chunk_count then Some (Chunks chunk_count (git_chunk_count limits))
  else None.

(** The counters of a stream and the skip events it recorded. *)
Record tally := mkTally {
  total_bytes : Z; chunk_count : Z; aggregate_cap_reported : bool; skips : list SourceSkipEvent }.

Definition skip (e : SourceSkipEvent) (t : tally) : tally :=
  mkTally (total_bytes t) (chunk_count t) (aggregate_cap_reported t) (skips t ++ [e]).

Definition record_git_cap_once (cap : GitHistoryCap) (t : tally) (source_name remaining_description : str) :
    tally * option SourceError :=
  if aggregate_cap_reported t then (t, None)
  else
    let t := skip SourceTruncated (mkTally (total_bytes t) (chunk_count t) true (skips t)) in
    (t, Some (match cap with
              | TotalBytes total cap => ErrCoverage $"git" $"history" source_name true total cap remaining_description
              | Chunks count cap => ErrCoverage $"git" $"history" source_name false count cap remaining_description
              end)).

Definition git_output_line_truncated_error (t : tally) (source_name line_kind : str) (cap consumed : Z) :
    tally * SourceError :=
  (skip SourceTruncated t, ErrOther (LineTruncated source_name line_kind cap consumed)).

Definition drain_trimmed_hunk (buffer : bytes) : bytes * option str :=
  let trimmed := trim (from_utf8_lossy buffer) in
  if bool_decide (trimmed = []) then ([], None) else ([], Some trimmed).

(** ** Chunks *)

(** [Chunk] of [crates/core/src/source.rs], with the fields the git sources set. *)
Record GitChunk := mkGitChunk {
  ck_data : str; ck_base_line : Z; ck_source_type : str; ck_path : str;
  ck_commit : str; ck_author : str; ck_date : str; ck_size_bytes : option Z }.

Record CommitMetadata := mkCommit { cm_commit : str; cm_author : str; cm_date : str }.

Definition count_chunk (content : str) (t : tally) : tally :=
  mkTally (saturating_add usize_max (total_bytes t) (str_len content))
    (saturating_add usize_max (chunk_count t) 1) (aggregate_cap_reported t) (skips t).

Definition make_git_diff_chunk (content : str) (base_line : Z) (path : str) (m : CommitMetadata) (t : tally) :
    tally * GitChunk :=
  (count_chunk content t,
   mkGitChunk content base_line $"git-diff" path (cm_commit m) (cm_author m) (cm_date m) None).

Definition row : Type := result GitChunk SourceError.

(** ** Untracked files *)

(** What waiting for a child gives: its status with the excerpt of its standard
    error, or a failed [wait]. *)
Inductive child_exit := ExitSuccess | ExitFailure (stderr : str) | WaitFailed (errno : Z).

Definition wait_for_git_child (child : child_exit) (label operation : str) : result () SourceError :=
  match child with
  | ExitSuccess => Ok ()
  | ExitFailure stderr => Err (ErrGit (ChildFailed label operation (trim stderr)))
  | WaitFailed errno => Err (ErrIo errno)
  end.

(** The environment: exit of the [git diff] child; output (or failed spawn) and
    exit of [git ls-files]; the metadata of a path (regular file, length) and
    what reading at most so many bytes of it gives. *)
Class GitWorld := {
  diff_exit : child_exit;
  ls_files : result (list (result bytes Z)) Z;
  ls_exit : child_exit;
  symlink_metadata : str -> result (bool * Z) Z;
  read_limited : str -> Z -> result bytes Z;
  exclude_rules : DefaultExcludeRules }.

Section world.
Context `{GitWorld} (limits : SourceLimits) (respect_default_excludes : bool) (m : CommitMetadata).

Definition is_default_excluded_path (path : str) : bool := is_default_excluded exclude_rules path.

Record ls_scan := mkScan {
  ls_raw_paths : list bytes; ls_path_buf : bytes; ls_overlong : bool; ls_saw_overlong : bool }.

Definition ls_byte (s : ls_scan) (byte : Z) : ls_scan :=
  if byte =? 0 then
    let raw := if negb (bool_decide (ls_path_buf s = [])) && negb (ls_overlong s)
               then ls_raw_paths s ++ [ls_path_buf s] else ls_raw_paths s in
    mkScan raw [] false (ls_saw_overlong s || ls_overlong s)
  else if zlen (ls_path_buf s) <? git_line_bytes limits
  then mkScan (ls_raw_paths s) (ls_path_buf s ++ [byte]) (ls_overlong s) (ls_saw_overlong s)
  else mkScan (ls_raw_paths s) (ls_path_buf s) true true.

Fixpoint ls_reads (s : ls_scan) (reads : list (result bytes Z)) : result ls_scan SourceError :=
  match reads with
  | [] => Ok s
  | Err errno :: _ => Err (ErrIo errno)
  | Ok data :: rest => if bool_decide (data = []) then Ok s else ls_reads (foldl ls_byte s data) rest
  end.

Definition validate_untracked_relative_path (path : str) : result () SourceError :=
  if starts_with [47] path then Err (ErrGit UntrackedAbsolute)
  else if existsb (fun c => match c with ParentDir | RootDir => true | _ => false end) (path_components path)
  then Err (ErrGit UntrackedUnsafe)
  else Ok ().

Fixpoint decode_paths (raw_paths : list bytes) : result (list str) SourceError :=
  match raw_paths with
  | [] => Ok []
  | raw :: rest =>
      match from_utf8 raw with
      | None => Err (ErrGit UntrackedNotUtf8)
      | Some rel =>
          let? _ := validate_untracked_relative_path rel in
          let? paths := decode_paths rest in
          Ok (rel :: paths)
      end
  end.

Definition list_untracked_worktree_paths (t : tally) : tally * result (list str) SourceError :=
  let wait := wait_for_git_child ls_exit $"git ls-files --others" $"enumerating untracked paths" in
  match (match ls_files with Err errno => Err (ErrIo errno) | Ok reads => ls_reads (mkScan [] [] false false) reads end) with
  | Err e => (t, Err e)
  | Ok s =>
      let overlong := (negb (bool_decide (ls_path_buf s = [])) && ls_overlong s) || ls_saw_overlong s in
      if overlong then
        (skip SourceTruncated t,
         let? _ := wait in Err (ErrGit (UntrackedOverlong (git_line_bytes limits))))
      else
        let raw := if bool_decide (ls_path_buf s = []) then ls_raw_paths s else ls_raw_paths s ++ [ls_path_buf s] in
        (t, let? _ := wait in decode_paths raw)
  end.

(** [read_to_cap]: one byte more than the cap is asked for. *)
Definition read_to_cap (rel : str) (cap : Z) : result (bytes * bool) Z :=
  match read_limited rel (saturating_add u64_max cap 1) with
  | Err errno => Err errno
  | Ok bs => Ok (take (Z.to_nat cap) bs, cap <? zlen bs)
  end.

Definition read_untracked_worktree_chunk (rel : str) (t : tally) : tally * result (option GitChunk) SourceError :=
  match validate_untracked_relative_path rel with
  | Err e => (t, Err e)
  | Ok _ =>
      match symlink_metadata rel with
      | Err errno => (t, Err (ErrIo errno))
      | Ok (is_file, len) =>
          if negb is_file then (skip Unreadable t, Err (ErrGit (UntrackedNotRegular rel)))
          else if git_blob_bytes limits <? len
          then (skip OverMaxSize t, Err (ErrGit (UntrackedTooLarge rel len (git_blob_bytes limits))))
          else
            match read_to_cap rel (git_blob_bytes limits) with
            | Err errno => (t, Err (ErrIo errno))
            | Ok (bs, true) => (skip OverMaxSize t, Err (ErrGit (UntrackedGrew rel)))
            | Ok (bs, false) =>
                match decode_text_file bs with
                | None => (skip Binary t, Err (ErrGit (UntrackedBinary rel)))
                | Some text =>
                    if bool_decide (trim text = []) then (t, Ok None)
                    else (t, Ok (Some (mkGitChunk text 0 $"git-diff" rel (cm_commit m) (cm_author m) (cm_date m) (Some len))))
                end
            end
      end
  end.

Record UntrackedWorktreeChunks := mkUntracked { u_paths : option (list str); u_stopped : bool }.

Definition untracked_new : UntrackedWorktreeChunks := mkUntracked None false.

Fixpoint untracked_loop (paths : list str) (t : tally) :
    UntrackedWorktreeChunks * tally * option row :=
  match paths with
  | [] => (mkUntracked (Some []) false, t, None)
  | rel :: rest =>
      if respect_default_excludes && is_default_excluded_path rel then untracked_loop rest (skip Excluded t)
      else
        match git_history_cap_status (total_bytes t) (chunk_count t) limits with
        | Some cap =>
            let '(t, error) := record_git_cap_once cap t $"git diff source" $"remaining changed lines" in
            (mkUntracked (Some rest) true, t, Err <$> error)
        | None =>
            match read_untracked_worktree_chunk rel t with
            | (t, Ok (Some chunk)) => (mkUntracked (Some rest) false, count_chunk (ck_data chunk) t, Some (Ok chunk))
            | (t, Ok None) => untracked_loop rest t
            | (t, Err error) => (mkUntracked (Some rest) false, t, Some (Err error))
            end
        end
  end.

Definition untracked_next_row (u : UntrackedWorktreeChunks) (t : tally) :
    UntrackedWorktreeChunks * tally * result (option row) SourceError :=
  if u_stopped u then (u, t, Ok None)
  else
    match u_paths u with
    | Some paths => let '(u, t, r) := untracked_loop paths t in (u, t, Ok r)
    | None =>
        match list_untracked_worktree_paths t with
        | (t, Err e) => (mkUntracked None true, t, Err e)
        | (t, Ok paths) => let '(u, t, r) := untracked_loop paths t in (u, t, Ok r)
        end
    end.
End world.

(** ** The iterator over added lines *)

(** The variables the closure of [stream_added_lines] captures. *)
Record DiffStream := mkStream {
  d_reader : list fill; d_path : option str; d_content : bytes; d_parser : UnifiedDiffParser;
  d_done : bool; d_emit_untracked : bool; d_wait : bool; d_pending : list SourceError;
  d_tally : tally; d_base_line : Z; d_untracked : option UntrackedWorktreeChunks }.

Definition with_reader (s : DiffStream) r :=
  mkStream r (d_path s) (d_content s) (d_parser s) (d_done s) (d_emit_untracked s) (d_wait s) (d_pending s)
    (d_tally s) (d_base_line s) (d_untracked s).
(** The path, collected bytes and base line of the current hunk. *)
Definition with_hunk (s : DiffStream) path content base :=
  mkStream (d_reader s) path content (d_parser s) (d_done s) (d_emit_untracked s) (d_wait s) (d_pending s)
    (d_tally s) base (d_untracked s).
Definition with_parser (s : DiffStream) p :=
  mkStream (d_reader s) (d_path s) (d_content s) p (d_done s) (d_emit_untracked s) (d_wait s) (d_pending s)
    (d_tally s) (d_base_line s) (d_untracked s).
Definition with_done (s : DiffStream) :=
  mkStream (d_reader s) (d_path s) (d_content s) (d_parser s) true (d_emit_untracked s) (d_wait s) (d_pending s)
    (d_tally s) (d_base_line s) (d_untracked s).
Definition with_wait (s : DiffStream) b :=
  mkStream (d_reader s) (d_path s) (d_content s) (d_parser s) (d_done s) (d_emit_untracked s) b (d_pending s)
    (d_tally s) (d_base_line s) (d_untracked s).
Definition with_pending (s : DiffStream) l :=
  mkStream (d_reader s) (d_path s) (d_content s) (d_parser s) (d_done s) (d_emit_untracked s) (d_wait s) l
    (d_tally s) (d_base_line s) (d_untracked s).
Definition with_tally (s : DiffStream) t :=
  mkStream (d_reader s) (d_path s) (d_content s) (d_parser s) (d_done s) (d_emit_untracked s) (d_wait s) (d_pending s)
    t (d_base_line s) (d_untracked s).
Definition with_untracked (s : DiffStream) u t :=
  mkStream (d_reader s) (d_path s) (d_content s) (d_parser s) (d_done s) true (d_wait s) (d_pending s)
    t (d_base_line s) u.

Definition stream_start (reader : list fill) (untracked : option UntrackedWorktreeChunks) : DiffStream :=
  mkStream reader None [] parser_new false false false [] (mkTally 0 0 false []) 0 untracked.

Definition newlines (bs : bytes) : Z := zlen (List.filter (fun b => b =? 10) bs).

Section stream.
Context `{GitWorld} (limits : SourceLimits) (respect_default_excludes : bool) (m : CommitMetadata).

(** [return Some(Ok(make_git_diff_chunk(..)))] *)
Definition emit_chunk (s : DiffStream) (content : str) (base_line : Z) (path : str) : DiffStream * option row :=
  let '(t, chunk) := make_git_diff_chunk content base_line path m (d_tally s) in
  (with_tally s t, Some (Ok chunk)).

Definition pop_pending (s : DiffStream) : DiffStream * option row :=
  match d_pending s with
  | e :: rest => (with_pending s rest, Some (Err e))
  | [] => (s, None)
  end.

(** The check after a collected line: a hunk over the cap is emitted in parts. *)
Definition flush_over_cap (s : DiffStream) : DiffStream * option row :=
  if git_blob_bytes_limit_usize limits <? zlen (d_content s) then
    match d_path s with
    | None => (s, None)
    | Some path =>
        let emitted_lines := newlines (d_content s) in
        let '(content, drained) := drain_trimmed_hunk (d_content s) in
        match drained with
        | None => (with_hunk s (Some path) content (d_base_line s), None)
        | Some chunk_content =>
            let flush_base_line := d_base_line s in
            emit_chunk (with_hunk s (Some path) content (saturating_add usize_max (d_base_line s) emitted_lines))
              chunk_content flush_base_line path
        end
    end
  else (s, None).

(** The arms of [match event].  [None] goes round the loop again. *)
Definition diff_event (s : DiffStream) (event : UnifiedDiffEvent) : DiffStream * option row :=
  match event with
  | FileHeader new_path invalid_path =>
      let prev_path := d_path s in
      let '(content, prev_content) := drain_trimmed_hunk (d_content s) in
      let prev_base_line := d_base_line s in
      let s :=
        if invalid_path then
          with_pending (with_tally s (skip Unreadable (d_tally s)))
            (d_pending s ++ [ErrOther (PathFailedSanitization $"git diff")])
        else s in
      let s :=
        match new_path with
        | Some path =>
            if respect_default_excludes && is_default_excluded_path path
            then with_hunk (with_tally s (skip Excluded (d_tally s))) None content 0
            else with_hunk s (Some path) content 0
        | None => with_hunk s None content 0
        end in
      match prev_path, prev_content with
      | Some path, Some prev_content => emit_chunk s prev_content prev_base_line path
      | _, _ => pop_pending s
      end
  | DeletedFile => (with_hunk s None [] 0, None)
  | Metadata => (s, None)
  | HunkStart base_line =>
      let '(content, prev_content) := drain_trimmed_hunk (d_content s) in
      let prev_base_line := d_base_line s in
      let s := with_hunk s (d_path s) content base_line in
      match d_path s, prev_content with
      | Some path, Some prev_content => emit_chunk s prev_content prev_base_line path
      | _, _ => (s, None)
      end
  | AddedLine bytes =>
      match d_path s with
      | None => (s, None)
      | Some path => flush_over_cap (with_hunk s (Some path) (d_content s ++ bytes ++ [10]) (d_base_line s))
      end
  | BinaryFile => (with_hunk (with_tally s (skip Binary (d_tally s))) None [] 0, None)
  | OtherLine => flush_over_cap s
  end.

(** The body of the loop once a line is read. *)
Definition diff_line (s : DiffStream) (line : bytes) : DiffStream * option row :=
  if bool_decide (d_path s = None) && line_is_skippable_hunk_body (d_parser s) line then (s, None)
  else
    let '(p, event) := parse_line (d_parser s) line $"git diff" in
    let s := with_parser s p in
    match event with
    | Err error => (with_done s, Some (Err error))
    | Ok event => diff_event s event
    end.

Definition untracked_row (s : DiffStream) : DiffStream * option row :=
  match d_untracked s with
  | None => (with_done s, None)
  | Some u =>
      let '(u, t, r) := untracked_next_row limits respect_default_excludes m u (d_tally s) in
      let s := with_untracked s (Some u) t in
      match r with
      | Ok (Some row) => (s, Some row)
      | Ok None => (with_done s, None)
      | Err error => (with_done s, Some (Err error))
      end
  end.

Definition wait_for_diff : result () SourceError :=
  wait_for_git_child diff_exit $"git diff" $"enumerating changed lines".

(** The [Ok(_)] arm: the diff has ended. *)
Definition diff_end (s : DiffStream) : DiffStream * option row :=
  let finish s :=
    match wait_for_diff with
    | Ok _ => untracked_row (with_untracked s (d_untracked s) (d_tally s))
    | Err error => (with_done s, Some (Err error))
    end in
  match d_path s with
  | Some path =>
      let '(content, drained) := drain_trimmed_hunk (d_content s) in
      let s := with_hunk s (Some path) content (d_base_line s) in
      match drained with
      | Some chunk_content => emit_chunk (with_wait s true) chunk_content (d_base_line s) path
      | None => finish s
      end
  | None => finish s
  end.

(** The loop; [None] is running out of fuel. *)
Fixpoint diff_loop (fuel : nat) (s : DiffStream) : option (DiffStream * option row) :=
  match fuel with
  | O => None
  | S fuel =>
      let '(reader, line_buf, record) := read_capped_line (d_reader s) (git_line_bytes limits) in
      let s := with_reader s reader in
      match record with
      | Ok record =>
          if git_line_bytes limits <? cr_content record then
            let '(t, error) := git_output_line_truncated_error (d_tally s) $"git diff source" $"unified diff line"
                                 (git_line_bytes limits) (cr_content record) in
            Some (with_tally s t, Some (Err error))
          else if 0 <? cr_consumed record then
            match diff_line s (trim_diff_line_bytes line_buf) with
            | (s, Some row) => Some (s, Some row)
            | (s, None) => diff_loop fuel s
            end
          else Some (diff_end s)
      | Err errno => Some (with_done s, Some (Err (ErrIo errno)))
      end
  end.

(** The bytes and calls left in the reader bound the lines left. *)
Definition fill_size (f : fill) : nat := match f with Data bs => S (length bs) | _ => 1%nat end.
Definition reader_size (reader : list fill) : nat := sum_list_with fill_size reader.

(** One call of the iterator. *)
Definition diff_next (s : DiffStream) : option (DiffStream * option row) :=
  let go s :=
    match pop_pending s with
    | (s, Some row) => Some (s, Some row)
    | (s, None) =>
        if d_emit_untracked s then Some (untracked_row s)
        else if d_done s then Some (s, None)
        else
          match git_history_cap_status (total_bytes (d_tally s)) (chunk_count (d_tally s)) limits with
          | Some cap =>
              let '(t, error) := record_git_cap_once cap (d_tally s) $"git diff source" $"remaining changed lines" in
              Some (with_done (with_tally s t), Err <$> error)
          | None => diff_loop (S (reader_size (d_reader s))) s
          end
    end in
  if d_wait s then
    match wait_for_diff with
    | Ok _ => go (with_untracked (with_wait s false) (d_untracked s) (d_tally s))
    | Err error => Some (with_done (with_wait s false), Some (Err error))
    end
  else go s.

(** The rows a consumer that pulls [n] times gets, up to the end. *)
Fixpoint diff_rows (n : nat) (s : DiffStream) : option (list row * DiffStream) :=
  match n with
  | O => Some ([], s)
  | S n =>
      match diff_next s with
      | None => None
      | Some (s, None) => Some ([], s)
      | Some (s, Some r) =>
          match diff_rows n s with
          | Some (rs, s) => Some (r :: rs, s)
          | None => None
          end
      end
  end.
End stream.

(** ** Capped records, however the stream is cut into reads *)

Definition reader_bytes (reader : list fill) : bytes :=
  concat (map (fun f => match f with Data bs => bs | _ => [] end) reader).

(** Reads that give data or are interrupted. *)
Definition clean_reader (reader : list fill) : Prop :=
  Forall (fun f => match f with Data bs => bs <> [] | Interrupted => True | Failed _ => False end) reader.

Lemma keep_capped_take max x y :
  0 <= max -> keep_capped max (take (Z.to_nat max) x) y = take (Z.to_nat max) (x ++ y).
Proof.
  intros Hm. unfold keep_capped, zlen. rewrite length_take.
  destruct (Z.of_nat (Z.to_nat max `min` length x) <? max) eqn:E.
  - rewrite (take_ge x) by lia. rewrite take_app_ge by lia. f_equal.
    destruct (Z.min_spec (Z.of_nat (length y)) (max - Z.of_nat (Z.to_nat max `min` length x))) as [[? ->]|[? ->]].
    + by rewrite !take_ge by lia.
    + f_equal. lia.
  - by rewrite take_app_le by lia.
Qed.

Lemma find_sub_byte_app (d : Z) a b :
  find_sub [d] (a ++ b) =
    match find_sub [d] a with Some i => Some i | None => (fun i => (length a + i)%nat) <$> find_sub [d] b end.
Proof.
  induction a as [|c a IH]; cbn [app].
  { destruct b as [|c b]; [done|]. cbn [find_sub starts_with].
    change (find_sub [d] []) with (@None nat). cbn iota.
    set (o := if bool_decide (d = c) && true then _ else _). by destruct o. }
  cbn [find_sub starts_with]. destruct (bool_decide (d = c) && true); [done|]. rewrite IH.
  destruct (find_sub [d] a); [done|]. by destruct (find_sub [d] b).
Qed.

Lemma read_record_spec max d reader pre :
  0 <= max -> clean_reader reader ->
  match find_sub [d] (reader_bytes reader) with
  | None =>
      read_record_loop max d reader (take (Z.to_nat max) pre) (zlen pre) =
        ([], take (Z.to_nat max) (pre ++ reader_bytes reader),
         Ok (mkCapped (zlen (pre ++ reader_bytes reader)) (zlen (pre ++ reader_bytes reader))))
  | Some i =>
      exists reader',
        read_record_loop max d reader (take (Z.to_nat max) pre) (zlen pre) =
          (reader', take (Z.to_nat max) (pre ++ take (i + 1) (reader_bytes reader)),
           Ok (mkCapped (zlen pre + Z.of_nat i + 1) (zlen pre + Z.of_nat i))) /\
        reader_bytes reader' = drop (i + 1) (reader_bytes reader) /\ clean_reader reader'
  end.
Proof.
  intros Hm Hc. revert pre. induction Hc as [|f reader Hf Hc IH]; intros pre; cbn [read_record_loop].
  { cbn. by rewrite app_nil_r. }
  destruct f as [bs| |]; [|exact (IH pre)|done].
  change (reader_bytes (Data bs :: reader)) with (bs ++ reader_bytes reader).
  rewrite bool_decide_false by done. rewrite find_sub_byte_app, keep_capped_take by done.
  destruct (find_sub [d] bs) as [i|] eqn:Ei.
  - pose proof (find_sub_bound [d] bs i Ei) as Hb. cbn [length] in Hb.
    assert (Ht : zlen (take (i + 1) bs) = Z.of_nat i + 1) by (unfold zlen; rewrite length_take; lia).
    exists (unread (drop (i + 1) bs) reader). rewrite keep_capped_take, Ht, (take_app_le bs) by (done || lia).
    split_and!; [do 2 f_equal; f_equal; lia| |].
    + rewrite drop_app_le by lia. unfold unread. case_bool_decide as E; [by rewrite E|done].
    + unfold unread. case_bool_decide; [done|by constructor].
  - specialize (IH (pre ++ bs)). 
    replace (zlen (pre ++ bs)) with (zlen pre + zlen bs) in IH by (unfold zlen; rewrite length_app; lia).
    destruct (find_sub [d] (reader_bytes reader)) as [i|]; cbn [fmap option_fmap option_map].
    + destruct IH as (reader' & -> & Hb & Hc'). exists reader'.
      rewrite (take_app_ge bs), drop_app_ge by lia.
      replace (length bs + i + 1 - length bs)%nat with (i + 1)%nat by lia.
      split_and!; [|done|done].
      replace (zlen pre + Z.of_nat (length bs + i)) with (zlen pre + zlen bs + Z.of_nat i) by (unfold zlen; lia).
      by rewrite <- app_assoc.
    + rewrite IH. by rewrite <- app_assoc.
Qed.

(** ** From lines to rows *)

Definition unlines (lines : list bytes) : bytes := concat (map (fun l => l ++ [10]) lines).

Definition cut_cr (line : bytes) : bytes := if ends_with [13] line then removelast line else line.

Lemma ends_with_last (c : Z) l : ends_with [c] l = true <-> last l = Some c.
Proof.
  rewrite ends_with_spec. split; [intros [t ->]; apply last_snoc|].
  destruct (decide (l = [])) as [->|Hne]; [done|]. destruct (exists_last Hne) as (t & x & ->).
  rewrite last_snoc. intros [= ->]. by exists t.
Qed.

Lemma trim_capped_line (max : nat) l :
  10 ∉ l -> (length l <= max)%nat -> trim_diff_line_bytes (take max (l ++ [10])) = cut_cr l.
Proof.
  intros Hl Hm. unfold trim_diff_line_bytes. fold (cut_cr l).
  destruct (decide (length l = max)) as [<-|Hne].
  - rewrite take_app_length. destruct (ends_with [10] l) eqn:E; [|done].
    apply ends_with_spec in E as [t ->]. set_solver.
  - rewrite take_ge by (rewrite length_app; cbn; lia). rewrite ends_with_app, removelast_last. done.
Qed.

Lemma read_line_spec max l ls reader :
  clean_reader reader -> reader_bytes reader = unlines (l :: ls) -> 10 ∉ l -> zlen l <= max ->
  exists reader' buf,
    read_capped_line reader max = (reader', buf, Ok (mkCapped (zlen l + 1) (zlen l))) /\
    trim_diff_line_bytes buf = cut_cr l /\ reader_bytes reader' = unlines ls /\ clean_reader reader'.
Proof.
  intros Hc Hb Hl Hm. assert (0 <= max) as H0 by (unfold zlen in Hm; lia).
  pose proof (read_record_spec max 10 reader [] H0 Hc) as Hr.
  change (unlines (l :: ls)) with ((l ++ [10]) ++ unlines ls) in Hb. rewrite <- app_assoc in Hb.
  rewrite Hb in Hr. change (find_sub [10] (l ++ [10] ++ unlines ls)) with (find_sub [10] (l ++ 10 :: unlines ls)) in Hr.
  rewrite (find_sub_char 10 l (unlines ls)) in Hr by done.
  destruct Hr as (reader' & Hr & Hb' & Hc').
  assert (Ht : take (length l + 1) (l ++ [10] ++ unlines ls) = l ++ [10]).
  { rewrite app_assoc. apply take_app_length'. rewrite length_app. done. }
  exists reader', (take (Z.to_nat max) (l ++ [10])). split_and!; [| | |done].
  - unfold read_capped_line, read_capped_record. rewrite take_nil in Hr. change (zlen []) with 0 in Hr.
    rewrite Hr, app_nil_l. by rewrite Ht.
  - apply trim_capped_line; [done|]. unfold zlen in Hm. lia.
  - rewrite Hb', app_assoc. apply drop_app_length'. rewrite length_app. done.
Qed.

Lemma read_end_spec max reader :
  0 <= max -> clean_reader reader -> reader_bytes reader = [] ->
  read_capped_line reader max = ([], [], Ok (mkCapped 0 0)).
Proof.
  intros H0 Hc Hb. pose proof (read_record_spec max 10 reader [] H0 Hc) as Hr. rewrite Hb in Hr.
  cbn [find_sub app] in Hr. rewrite take_nil in Hr. exact Hr.
Qed.

Lemma reader_size_bytes reader : (length (reader_bytes reader) <= reader_size reader)%nat.
Proof.
  unfold reader_bytes, reader_size. induction reader as [|f reader IH]; [done|]. cbn [map concat sum_list_with].
  rewrite length_app. destruct f; cbn [fill_size length]; lia.
Qed.

Lemma length_unlines lines : (length lines <= length (unlines lines))%nat.
Proof.
  unfold unlines. induction lines as [|l lines IH]; [done|]. cbn [map concat length].
  rewrite !length_app. cbn [length]. lia.
Qed.

Section feeding.
Context `{GitWorld} (limits : SourceLimits) (respect_default_excludes : bool) (m : CommitMetadata).

(** The iterator is reading lines and has reached no cap. *)
Definition pulling (s : DiffStream) : Prop :=
  d_done s = false /\ d_emit_untracked s = false /\ d_wait s = false /\ d_pending s = [] /\
  git_history_cap_status (total_bytes (d_tally s)) (chunk_count (d_tally s)) limits = None.

(** Lines of the diff take the stream from one state to another and produce
    these rows. *)
Inductive feeds : DiffStream -> list bytes -> list row -> DiffStream -> Prop :=
  | feeds_nil s : pulling s -> feeds s [] [] s
  | feeds_quiet s l s1 ls rs s' :
      pulling s -> diff_line limits respect_default_excludes m s (cut_cr l) = (s1, None) ->
      feeds s1 ls rs s' -> feeds s (l :: ls) rs s'
  | feeds_row s l s1 r ls rs s' :
      pulling s -> diff_line limits respect_default_excludes m s (cut_cr l) = (s1, Some r) ->
      feeds s1 ls rs s' -> feeds s (l :: ls) (r :: rs) s'.

Lemma feeds_app s ls rs s1 ls' rs' s2 :
  feeds s ls rs s1 -> feeds s1 ls' rs' s2 -> feeds s (ls ++ ls') (rs ++ rs') s2.
Proof. induction 1; intros Hf; [done| |]; cbn [app]; [eapply feeds_quiet|eapply feeds_row]; eauto. Qed.

Lemma feeds_pulling s ls rs s' : feeds s ls rs s' -> pulling s.
Proof. by destruct 1. Qed.

(** The body of the loop does not look at the reader. *)
Definition on_reader (r : list fill) (x : DiffStream * option row) : DiffStream * option row :=
  (with_reader (fst x) r, snd x).

Lemma flush_over_cap_reader s r :
  flush_over_cap limits m (with_reader s r) =
    on_reader r (flush_over_cap limits m s).
Proof.
  unfold flush_over_cap. change (d_content (with_reader s r)) with (d_content s).
  change (d_path (with_reader s r)) with (d_path s). destruct (_ <? _); [|done]. destruct (d_path s); [|done].
  by destruct (drain_trimmed_hunk _) as [? []].
Qed.

Lemma pop_pending_reader s r :
  pop_pending (with_reader s r) = on_reader r (pop_pending s).
Proof. unfold pop_pending. change (d_pending (with_reader s r)) with (d_pending s). by destruct (d_pending s). Qed.

Lemma diff_event_reader s r ev :
  diff_event limits respect_default_excludes m (with_reader s r) ev =
    on_reader r (diff_event limits respect_default_excludes m s ev).
Proof.
  unfold diff_event. destruct ev as [np inv| | |b|bs| |]; try done.
  - change (d_content (with_reader s r)) with (d_content s). change (d_path (with_reader s r)) with (d_path s).
    destruct (drain_trimmed_hunk _) as [c pc]. destruct inv, np as [p|]; [destruct (_ && _)| |destruct (_ && _)|];
      destruct (d_path s), pc; try done;
      match goal with |- _ = on_reader _ (pop_pending ?s') => exact (pop_pending_reader s' r) end.
  - change (d_content (with_reader s r)) with (d_content s). change (d_path (with_reader s r)) with (d_path s).
    destruct (drain_trimmed_hunk _) as [c pc]. cbn [with_hunk d_path]. by destruct (d_path s), pc.
  - change (d_path (with_reader s r)) with (d_path s). destruct (d_path s); [|done].
    match goal with |- _ = on_reader _ (flush_over_cap _ _ ?s') => exact (flush_over_cap_reader s' r) end.
  - apply flush_over_cap_reader.
Qed.

Lemma diff_line_reader s r l :
  diff_line limits respect_default_excludes m (with_reader s r) l =
    on_reader r (diff_line limits respect_default_excludes m s l).
Proof.
  unfold diff_line. change (d_path (with_reader s r)) with (d_path s).
  change (d_parser (with_reader s r)) with (d_parser s).
  destruct (bool_decide _ && _); [done|]. destruct (parse_line _ _ _) as [p [ev|e]]; [|done].
  apply (diff_event_reader (with_parser s p)).
Qed.

Lemma with_reader_twice s r r' : with_reader (with_reader s r) r' = with_reader s r'.
Proof. done. Qed.

Definition lines_fit (lines : list bytes) : Prop :=
  Forall (fun l => (10 ∉ l) /\ zlen l <= git_line_bytes limits) lines.

(** The next call reads on to the next row, or to the end of the diff. *)
Lemma diff_loop_feeds s ls rs s' reader fuel :
  0 <= git_line_bytes limits -> feeds s ls rs s' -> lines_fit ls -> clean_reader reader ->
  reader_bytes reader = unlines ls -> (length ls < fuel)%nat ->
  match rs with
  | [] => diff_loop limits respect_default_excludes m fuel (with_reader s reader) =
            Some (diff_end limits respect_default_excludes m (with_reader s' []))
  | r :: rs' =>
      exists s1 ls1 reader1,
        diff_loop limits respect_default_excludes m fuel (with_reader s reader) = Some (with_reader s1 reader1, Some r) /\
        feeds s1 ls1 rs' s' /\ lines_fit ls1 /\ clean_reader reader1 /\ reader_bytes reader1 = unlines ls1
  end.
Proof.
  intros H0 Hf. revert reader fuel. induction Hf as [s Hp|s l s1 ls rs s' Hp Hl Hf IH|s l s1 r ls rs s' Hp Hl Hf IH];
    intros reader fuel Hfit Hc Hb Hfuel; (destruct fuel as [|fuel]; [cbn in Hfuel; lia|]); cbn [diff_loop].
  - rewrite (read_end_spec _ (d_reader (with_reader s reader))) by done. cbn [cr_content cr_consumed].
    replace (git_line_bytes limits <? 0) with false by lia. done.
  - apply Forall_cons in Hfit as [[Hn Hlen] Hfit].
    destruct (read_line_spec _ _ _ _ Hc Hb Hn Hlen) as (reader' & buf & Hr & Ht & Hb' & Hc').
    change (d_reader (with_reader s reader)) with reader. rewrite Hr. cbn [cr_content cr_consumed].
    replace (git_line_bytes limits <? zlen l) with false by lia.
    replace (0 <? zlen l + 1) with true by (unfold zlen; lia).
    rewrite with_reader_twice, diff_line_reader, Ht, Hl. apply IH; try done. cbn in Hfuel. lia.
  - apply Forall_cons in Hfit as [[Hn Hlen] Hfit].
    destruct (read_line_spec _ _ _ _ Hc Hb Hn Hlen) as (reader' & buf & Hr & Ht & Hb' & Hc').
    change (d_reader (with_reader s reader)) with reader. rewrite Hr. cbn [cr_content cr_consumed].
    replace (git_line_bytes limits <? zlen l) with false by lia.
    replace (0 <? zlen l + 1) with true by (unfold zlen; lia).
    rewrite with_reader_twice, diff_line_reader, Ht, Hl. by exists s1, ls, reader'.
Qed.

Lemma diff_next_pulling s reader :
  pulling s ->
  diff_next limits respect_default_excludes m (with_reader s reader) =
    diff_loop limits respect_default_excludes m (S (reader_size reader)) (with_reader s reader).
Proof.
  intros (Hd & He & Hw & Hp & Hcap). unfold diff_next, pop_pending.
  change (d_wait (with_reader s reader)) with (d_wait s). change (d_pending (with_reader s reader)) with (d_pending s).
  rewrite Hw, Hp. change (d_emit_untracked (with_reader s reader)) with (d_emit_untracked s).
  change (d_done (with_reader s reader)) with (d_done s). change (d_tally (with_reader s reader)) with (d_tally s).
  by rewrite He, Hd, Hcap.
Qed.

(** The rows of a diff are those of its lines and the last chunk. *)
Lemma diff_rows_feeds s ls rs s' reader n :
  0 <= git_line_bytes limits -> feeds s ls rs s' -> lines_fit ls -> clean_reader reader ->
  reader_bytes reader = unlines ls ->
  diff_rows limits respect_default_excludes m (length rs + S n) (with_reader s reader) =
    match diff_end limits respect_default_excludes m (with_reader s' []) with
    | (s2, None) => Some (rs, s2)
    | (s2, Some r) => (fun '(rs2, s3) => (rs ++ r :: rs2, s3)) <$> diff_rows limits respect_default_excludes m n s2
    end.
Proof.
  intros H0. revert s ls reader. induction rs as [|r rs IH]; intros s ls reader Hf Hfit Hc Hb.
  all: pose proof (feeds_pulling _ _ _ _ Hf) as Hp.
  all: pose proof (diff_loop_feeds _ _ _ _ reader (S (reader_size reader)) H0 Hf Hfit Hc Hb) as Hloop.
  all: pose proof (length_unlines ls); pose proof (reader_size_bytes reader); rewrite Hb in *; specialize (Hloop ltac:(lia)).
  - cbn [length Nat.add diff_rows]. rewrite diff_next_pulling, Hloop by done.
    destruct (diff_end _ _ _ _) as [s2 [r|]]; [|done]. by destruct (diff_rows _ _ _ n s2) as [[]|].
  - destruct Hloop as (s1 & ls1 & reader1 & Hloop & Hf1 & Hfit1 & Hc1 & Hb1).
    cbn [length Nat.add diff_rows]. rewrite diff_next_pulling, Hloop by done.
    rewrite (IH s1 ls1 reader1) by done.
    destruct (diff_end _ _ _ _) as [s2 [r2|]]; [|done]. by destruct (diff_rows _ _ _ n s2) as [[]|].
Qed.
End feeding.
