(* ===== verification/GitDiffRender.v ===== *)
(** * What a diff yields ([crates/sources/src/git/diff.rs])

    The diffs that [git diff -U0] prints, as data, and the rows the git diff
    source produces for them: one chunk per hunk, at the hunk's own line. *)

From Stdlib Require Import ZifyBool.
From S2P Require Import Prelude Utf8 SourceSkip Excludes GitDiffParser GitDiff.

(** ** Printed diffs *)

(** [@@ before +start count @@ section], the deleted and added lines, and the
    marks of a missing final newline. *)
Record hunk := mkHunk {
  h_before : bytes; h_start : bytes; h_count : bytes; h_section : bytes;
  h_deleted : list bytes; h_old_mark : bool; h_added : list bytes; h_new_mark : bool }.

(** The text after [diff --git], the extended header lines, the old name, the
    new path and how it is written. *)
Record file_diff := mkFile {
  f_git : bytes; f_extended : list bytes; f_old : bytes;
  f_parts : list str; f_quoted : bool; f_tab : bytes; f_hunks : list hunk }.

Definition no_newline_mark : bytes := 92 :: $" No newline at end of file".
Definition mark_lines (b : bool) : list bytes := if b then [no_newline_mark] else [].

Definition hunk_header (h : hunk) : bytes :=
  $"@@" ++ h_before h ++ 43 :: h_start h ++ (h_count h ++ $" @@" ++ h_section h).

Definition render_hunk (h : hunk) : list bytes :=
  hunk_header h :: map (cons 45) (h_deleted h) ++ mark_lines (h_old_mark h) ++
  map (cons 43) (h_added h) ++ mark_lines (h_new_mark h).

Definition new_path (f : file_diff) : str := join_slash (f_parts f).

Definition plus_header (f : file_diff) : bytes :=
  if f_quoted f then $"+++ " ++ [34] ++ $"b/" ++ git_quote (as_bytes (new_path f)) ++ [34]
  else $"+++ b/" ++ as_bytes (new_path f) ++ f_tab f.

Definition render_file (f : file_diff) : list bytes :=
  ($"diff --git " ++ f_git f) :: f_extended f ++ [ $"--- " ++ f_old f; plus_header f] ++
  concat (map render_hunk (f_hunks f)).

(** An entry of a diff: a file with a new path and hunks, a file that is gone, a
    binary file, and what has header lines only: a changed mode, a pure rename, an
    empty file. *)
Inductive entry :=
| Changed (f : file_diff)
| Removed (git : bytes) (extended : list bytes) (old : bytes) (hunks : list hunk)
| BinaryEntry (git : bytes) (extended : list bytes) (text : bytes)
| HeaderOnly (git : bytes) (extended : list bytes).

Definition render_entry (e : entry) : list bytes :=
  match e with
  | Changed f => render_file f
  | Removed git extended old hunks =>
      ($"diff --git " ++ git) :: extended ++ [ $"--- " ++ old; $"+++ /dev/null"] ++ concat (map render_hunk hunks)
  | BinaryEntry git extended text => ($"diff --git " ++ git) :: extended ++ [ $"Binary files " ++ text]
  | HeaderOnly git extended => ($"diff --git " ++ git) :: extended
  end.

Definition render_diff (es : list entry) : list bytes := concat (map render_entry es).

(** ** What is expected of them *)

Definition hunk_start (h : hunk) : Z := decimal_value (h_start h).

(** The added lines of the hunk, without carriage returns at their ends. *)
Definition hunk_bytes (h : hunk) : bytes := concat (map (fun a => cut_cr a ++ [10]) (h_added h)).

Section expected.
Context `{GitWorld} (limits : SourceLimits) (respect_default_excludes : bool) (m : CommitMetadata).

Definition chunk_rows (path : option str) (content : bytes) (base_line : Z) : list row :=
  match path with
  | None => []
  | Some path =>
      let text := trim (from_utf8_lossy content) in
      if bool_decide (text = []) then []
      else [Ok (mkGitChunk text base_line $"git-diff" path (cm_commit m) (cm_author m) (cm_date m) None)]
  end.

Definition hunk_rows (path : option str) (h : hunk) : list row :=
  chunk_rows path (hunk_bytes h) (saturating_sub (hunk_start h) 1).

Definition scanned_path (f : file_diff) : option str :=
  if respect_default_excludes && is_default_excluded_path (new_path f) then None else Some (new_path f).

Definition file_rows (f : file_diff) : list row := concat (map (hunk_rows (scanned_path f)) (f_hunks f)).

(** Only files with a new path have added lines to scan. *)
Definition entry_rows (e : entry) : list row := match e with Changed f => file_rows f | _ => [] end.

Definition rows_bytes (rows : list row) : Z :=
  foldr (fun r n => match r with Ok c => str_len (ck_data c) + n | Err _ => n end) 0 rows.

(** ** Well-formed diffs *)

(** A hunk header the parser reads. *)
Definition hunk_head_ok (h : hunk) : Prop :=
  (43 ∉ h_before h) /\ h_start h <> [] /\ Forall (fun d => is_ascii_digit d = true) (h_start h) /\
  hunk_start h <= usize_max /\ match h_count h with c :: _ => is_ascii_digit c = false | [] => True end.

(** No deleted line of a hunk begins with [-- ]: with its marker it would read
    as the header of an old file. *)
Definition hunk_body_ok (h : hunk) : Prop :=
  Forall (fun d => starts_with $"-- " d = false) (h_deleted h) /\
  zlen (hunk_bytes h) <= git_blob_bytes_limit_usize limits.

Definition hunk_ok (h : hunk) : Prop := hunk_head_ok h /\ hunk_body_ok h.

(** Extended header lines that the parser passes over. *)
Definition quiet_header (l : bytes) : Prop :=
  match parse_line parser_new (cut_cr l) $"git diff" with
  | (mkParser false, Ok Metadata) | (mkParser false, Ok OtherLine) | (mkParser false, Ok DeletedFile) => True
  | _ => False
  end.

Definition plus_header_ok (f : file_diff) : Prop :=
  if f_quoted f then True
  else
    existsb is_ascii_control (as_bytes (new_path f)) = false /\
    head (as_bytes (new_path f)) <> Some 32 /\ last (as_bytes (new_path f)) <> Some 32 /\
    (f_tab f = [] \/ f_tab f = [9]).

Definition file_ok (f : file_diff) : Prop :=
  Forall quiet_header (f_extended f) /\ f_parts f <> [] /\ Forall plain_component (f_parts f) /\
  Forall (Forall is_scalar) (f_parts f) /\ plus_header_ok f /\ Forall hunk_ok (f_hunks f).

(** The body of a removed file may hold anything. *)
Definition entry_ok (e : entry) : Prop :=
  match e with
  | Changed f => file_ok f
  | Removed _ extended _ hunks => Forall quiet_header extended /\ Forall hunk_head_ok hunks
  | BinaryEntry _ extended _ | HeaderOnly _ extended => Forall quiet_header extended
  end.
End expected.

(** ** Carriage returns at line ends *)

Lemma cut_cr_app x y : last x <> None -> last x <> Some 13 -> cut_cr (x ++ y) = x ++ cut_cr y.
Proof.
  intros Hne Hx. unfold cut_cr. destruct (decide (y = [])) as [->|Hy].
  - rewrite !app_nil_r. destruct (ends_with [13] x) eqn:E; [by apply ends_with_last in E|done].
  - destruct (exists_last Hy) as (y' & c & ->).
    assert (Heq : ends_with [13] (x ++ y' ++ [c]) = ends_with [13] (y' ++ [c])).
    { apply (bool_iff _ _ (c = 13)); rewrite ends_with_last, ?app_assoc, last_snoc; naive_solver. }
    rewrite Heq. destruct (ends_with [13] (y' ++ [c])); [|done]. by rewrite app_assoc, !removelast_last.
Qed.

Lemma cut_cr_cons c y : c <> 13 -> cut_cr (c :: y) = c :: cut_cr y.
Proof. intros Hc. apply (cut_cr_app [c] y); cbn; [done|congruence]. Qed.

Lemma cut_cr_prefix p l : starts_with p l = false -> starts_with p (cut_cr l) = false.
Proof.
  intros Hl. destruct (starts_with p (cut_cr l)) eqn:E; [|done]. apply starts_with_spec in E as [t E].
  rewrite <- Hl. symmetry. apply starts_with_spec. unfold cut_cr in E. destruct (ends_with [13] l) eqn:Ee; [|by exists t].
  apply ends_with_spec in Ee as [u ->]. rewrite removelast_last in E. exists (t ++ [13]). by rewrite E, app_assoc.
Qed.

Lemma cut_cr_id l : last l <> Some 13 -> cut_cr l = l.
Proof. intros Hl. unfold cut_cr. destruct (ends_with [13] l) eqn:E; [by apply ends_with_last in E|done]. Qed.

(** ** One line *)

Section steps.
Context `{GitWorld} (limits : SourceLimits) (respect_default_excludes : bool) (m : CommitMetadata).
Context (Hcap0 : 0 <= git_blob_bytes_limit_usize limits)
  (Htotal : git_total_bytes limits <= usize_max) (Hcount : git_chunk_count limits <= usize_max).

(** The stream between two lines. *)
Definition between (path : option str) (content : bytes) (hunk : bool) (base : Z) (t : tally) : DiffStream :=
  mkStream [] path content (mkParser hunk) false false false [] t base None.

Abbreviation line := (diff_line limits respect_default_excludes m).
Abbreviation feeds' := (feeds limits respect_default_excludes m).

(** Room in the caps for these rows. *)
Definition room (t : tally) (rows : list row) : Prop :=
  0 <= total_bytes t /\ 0 <= chunk_count t /\
  total_bytes t + rows_bytes rows < git_total_bytes limits /\ chunk_count t + zlen rows < git_chunk_count limits.

Definition used (t : tally) (rows : list row) (t' : tally) : Prop :=
  total_bytes t' = total_bytes t + rows_bytes rows /\ chunk_count t' = chunk_count t + zlen rows.

Lemma rows_bytes_nonneg rows : 0 <= rows_bytes rows.
Proof.
  induction rows as [|[c|e] rows IH]; cbn [rows_bytes foldr]; [lia| |exact IH].
  pose proof (str_len_nonneg (ck_data c)). unfold rows_bytes in IH. lia.
Qed.

Lemma rows_bytes_app r1 r2 : rows_bytes (r1 ++ r2) = rows_bytes r1 + rows_bytes r2.
Proof. unfold rows_bytes. induction r1 as [|[c|e] r1 IH]; cbn [app foldr]; lia. Qed.

Lemma room_app t r1 r2 t1 : used t r1 t1 -> room t (r1 ++ r2) -> room t r1 /\ room t1 r2.
Proof.
  unfold room, used. rewrite rows_bytes_app, zlen_app. intros [-> ->] (? & ? & ? & ?).
  pose proof (rows_bytes_nonneg r1). pose proof (rows_bytes_nonneg r2).
  unfold zlen in *. lia.
Qed.

Lemma used_app t r1 t1 r2 t2 : used t r1 t1 -> used t1 r2 t2 -> used t (r1 ++ r2) t2.
Proof. unfold used. rewrite rows_bytes_app, zlen_app. lia. Qed.

Lemma pulling_room path c hk b t rows : room t rows -> pulling limits (between path c hk b t).
Proof.
  intros (? & ? & ? & ?). pose proof (rows_bytes_nonneg rows). unfold zlen in *. split_and!; try done. cbn [between d_tally].
  unfold git_history_cap_status.
  replace (git_total_bytes limits <=? total_bytes t) with false by lia.
  by replace (git_chunk_count limits <=? chunk_count t) with false by lia.
Qed.

Lemma count_chunk_used t c rows :
  room t (Ok c :: rows) -> used t [Ok c] (count_chunk (ck_data c) t).
Proof.
  intros (H1 & H2 & H3 & H4). pose proof (rows_bytes_nonneg rows). cbn [rows_bytes foldr] in H3.
  change (foldr _ 0 rows) with (rows_bytes rows) in H3. unfold zlen in H4. cbn [length] in H4.
  unfold used, count_chunk, saturating_add. cbn [total_bytes chunk_count rows_bytes foldr]. unfold zlen. cbn [length].
  pose proof (str_len_nonneg (ck_data c)). lia.
Qed.

Lemma used_nil t : used t [] t.
Proof. unfold used, zlen. cbn. lia. Qed.

Lemma flush_small path c hk b t :
  zlen c <= git_blob_bytes_limit_usize limits ->
  flush_over_cap limits m (between path c hk b t) = (between path c hk b t, None).
Proof.
  intros Hc. unfold flush_over_cap. cbn [between d_content].
  by replace (git_blob_bytes_limit_usize limits <? zlen c) with false by lia.
Qed.

Lemma parse_added a st : parse_line (mkParser true) (43 :: a) st = (mkParser true, Ok (AddedLine a)).
Proof. reflexivity. Qed.

Lemma parse_deleted d st : starts_with $"-- " d = false -> parse_line (mkParser true) (45 :: d) st = (mkParser true, Ok OtherLine).
Proof.
  intros Hd. unfold parse_line. change (starts_with $"--- " (45 :: d)) with (starts_with $"-- " d). rewrite Hd. reflexivity.
Qed.

Lemma line_added p c b t a :
  zlen (c ++ a ++ [10]) <= git_blob_bytes_limit_usize limits ->
  line (between (Some p) c true b t) (43 :: a) = (between (Some p) (c ++ a ++ [10]) true b t, None).
Proof.
  intros Hc. unfold diff_line. cbn [between d_path d_parser]. rewrite bool_decide_false by done. cbn [andb].
  rewrite parse_added. by apply (flush_small (Some p) (c ++ a ++ [10])).
Qed.

Lemma line_deleted p c b t d :
  starts_with $"-- " d = false -> zlen c <= git_blob_bytes_limit_usize limits ->
  line (between (Some p) c true b t) (45 :: d) = (between (Some p) c true b t, None).
Proof.
  intros Hd Hc. unfold diff_line. cbn [between d_path d_parser]. rewrite bool_decide_false by done. cbn [andb].
  rewrite parse_deleted by done. by apply (flush_small (Some p) c).
Qed.

Lemma line_mark p c b t :
  zlen c <= git_blob_bytes_limit_usize limits ->
  line (between (Some p) c true b t) no_newline_mark = (between (Some p) c true b t, None).
Proof.
  intros Hc. unfold diff_line. cbn [between d_path d_parser]. rewrite bool_decide_false by done. cbn [andb].
  change (parse_line (mkParser true) no_newline_mark $"git diff") with (mkParser true, Ok (E := SourceError) OtherLine).
  by apply (flush_small (Some p) c).
Qed.

(** Body lines of a file that is not scanned are passed over. *)
Lemma line_skipped c b t x l :
  x = 43 \/ x = 45 \/ x = 92 -> line (between None c true b t) (x :: l) = (between None c true b t, None).
Proof. by intros [->|[->| ->]]. Qed.

(** ** A hunk *)

Definition collected (path : option str) (content : bytes) : bytes :=
  match path with Some _ => content | None => [] end.

Lemma feeds_one path c hk b t l c' hk' b' t' path' :
  room t [] -> room t' [] ->
  line (between path c hk b t) (cut_cr l) = (between path' c' hk' b' t', None) ->
  feeds' (between path c hk b t) [l] [] (between path' c' hk' b' t').
Proof.
  intros H1 H2 Hl. eapply feeds_quiet; [by eapply pulling_room|exact Hl|]. apply feeds_nil. by eapply pulling_room.
Qed.

Lemma feeds_deleted path c b t ds :
  room t [] -> zlen c <= git_blob_bytes_limit_usize limits -> (path <> None -> Forall (fun d => starts_with $"-- " d = false) ds) ->
  feeds' (between path c true b t) (map (cons 45) ds) [] (between path c true b t).
Proof.
  intros Ht Hc Hd. induction ds as [|d ds IH]; [apply feeds_nil; by eapply pulling_room|]. cbn [map].
  eapply feeds_quiet; [by eapply pulling_room| |apply IH; intros Hp; by apply Forall_cons in Hd as [_ ?]].
  rewrite cut_cr_cons by done. destruct path as [p|]; [|by apply line_skipped; auto].
  apply line_deleted; [|done]. apply cut_cr_prefix. by apply Forall_cons in Hd as [? _].
Qed.

Lemma feeds_mark path c b t (mark : bool) :
  room t [] -> zlen c <= git_blob_bytes_limit_usize limits ->
  feeds' (between path c true b t) (mark_lines mark) [] (between path c true b t).
Proof.
  intros Ht Hc. destruct mark; [|apply feeds_nil; by eapply pulling_room]. apply feeds_one; [done..|].
  change (cut_cr no_newline_mark) with no_newline_mark.
  destruct path as [p|]; [by apply line_mark|by apply line_skipped; auto].
Qed.

Lemma feeds_added path c b t added :
  room t [] -> (path <> None -> zlen (c ++ concat (map (fun a => cut_cr a ++ [10]) added)) <= git_blob_bytes_limit_usize limits) ->
  feeds' (between path (collected path c) true b t) (map (cons 43) added) []
    (between path (collected path (c ++ concat (map (fun a => cut_cr a ++ [10]) added))) true b t).
Proof.
  intros Ht. revert c. induction added as [|a added IH]; intros c Hc; cbn [map concat].
  { rewrite app_nil_r. apply feeds_nil. by eapply pulling_room. }
  cbn [map concat] in Hc. rewrite app_assoc in Hc |- *.
  eapply feeds_quiet; [by eapply pulling_room| |apply IH; exact Hc]. rewrite cut_cr_cons by done.
  destruct path as [p|]; cbn [collected]; [|by apply line_skipped; auto].
  rewrite line_added; [done|]. specialize (Hc ltac:(done)). rewrite zlen_app in Hc. unfold zlen in *. lia.
Qed.

Lemma chunk_rows_flush path c b t rows :
  room t (chunk_rows m path c b ++ rows) ->
  exists t', used t (chunk_rows m path c b) t' /\
    forall s, d_tally s = t ->
      match path, snd (drain_trimmed_hunk c) with
      | Some p, Some text => emit_chunk m s text b p
      | _, _ => (s, None)
      end = (with_tally s t', head (chunk_rows m path c b)).
Proof.
  intros Hr. unfold chunk_rows, drain_trimmed_hunk in *.
  assert (Hid : forall s, (s, @None row) = (with_tally s (d_tally s), None)) by (by intros []).
  destruct path as [p|]; [|exists t; split; [apply used_nil|intros s <-; apply Hid]].
  cbn zeta in *. case_bool_decide.
  - exists t. split; [apply used_nil|intros s <-; apply Hid].
  - eexists. split; [by eapply count_chunk_used|]. by intros s <-.
Qed.

Lemma chunk_rows_head path c b : chunk_rows m path c b = option_list (head (chunk_rows m path c b)).
Proof. unfold chunk_rows. destruct path; [|done]. cbn zeta. by case_bool_decide. Qed.

Lemma drain_fst c : fst (drain_trimmed_hunk c) = [].
Proof. unfold drain_trimmed_hunk. by case_bool_decide. Qed.

Lemma find_hunk_close count section : exists i, find_sub $"@@" (count ++ $" @@" ++ section) = Some i.
Proof.
  induction count as [|c count [i IH]]; [by eexists|]. cbn [app find_sub].
  destruct (starts_with $"@@" (c :: count ++ $" @@" ++ section)); [by eexists|]. rewrite IH. by eexists.
Qed.

Lemma line_hunk path c hk b t h t' :
  hunk_head_ok h ->
  (forall s, d_tally s = t ->
     match path, snd (drain_trimmed_hunk c) with
     | Some p, Some text => emit_chunk m s text b p
     | _, _ => (s, None)
     end = (with_tally s t', head (chunk_rows m path c b))) ->
  line (between path c hk b t) (cut_cr (hunk_header h)) =
    (between path [] true (saturating_sub (hunk_start h) 1) t', head (chunk_rows m path c b)).
Proof.
  intros (Hb & Hne & Hd & Hmax & Hcnt) He.
  assert (Hcut : cut_cr (hunk_header h) =
    $"@@" ++ h_before h ++ 43 :: h_start h ++ (h_count h ++ $" @@" ++ cut_cr (h_section h))).
  { unfold hunk_header. pose (x := $"@@" ++ h_before h ++ 43 :: h_start h ++ h_count h ++ $" @@").
    assert (Hx : forall y, $"@@" ++ h_before h ++ 43 :: h_start h ++ (h_count h ++ $" @@" ++ y) = x ++ y).
    { intros y. unfold x. rewrite <- !app_assoc. cbn [app]. by rewrite <- !app_assoc. }
    rewrite !Hx. assert (Hl : last x = Some 64).
    { unfold x. change $" @@" with ([32; 64] ++ [64]). rewrite app_comm_cons, !app_assoc. apply last_snoc. }
    apply cut_cr_app; by rewrite Hl. }
  rewrite Hcut. unfold diff_line. cbn [between d_path d_parser].
  replace (bool_decide (path = None) && _) with false by (by destruct (bool_decide (path = None)), hk).
  rewrite parse_line_hunk; [|done|done|done| |].
  2:{ intros x Hx. destruct (h_count h) as [|y cnt]; cbn in Hx; [|by injection Hx as <-]. injection Hx as <-. done. }
  2:{ apply find_hunk_close. }
  fold (hunk_start h). replace (hunk_start h <=? usize_max) with true by lia.
  unfold diff_event. cbn [with_parser between d_content d_base_line].
  rewrite (surjective_pairing (drain_trimmed_hunk c)), drain_fst.
  exact (He (between path [] true (saturating_sub (hunk_start h) 1) t) eq_refl).
Qed.

Lemma line_git path c hk b t g t' :
  (forall s, d_tally s = t ->
     match path, snd (drain_trimmed_hunk c) with
     | Some p, Some text => emit_chunk m s text b p
     | _, _ => (s, None)
     end = (with_tally s t', head (chunk_rows m path c b))) ->
  line (between path c hk b t) (cut_cr ($"diff --git " ++ g)) =
    (between None [] false 0 t', head (chunk_rows m path c b)).
Proof.
  intros He. rewrite cut_cr_app by done. unfold diff_line. cbn [between d_path d_parser].
  replace (bool_decide (path = None) && _) with false by (by destruct (bool_decide (path = None)), hk).
  change (parse_line (mkParser hk) ($"diff --git " ++ cut_cr g) $"git diff")
    with (mkParser false, Ok (E := SourceError) (FileHeader None false)).
  unfold diff_event. cbn [with_parser between d_content d_base_line d_path].
  rewrite (surjective_pairing (drain_trimmed_hunk c)), drain_fst.
  specialize (He (between None [] false 0 t) eq_refl). etransitivity; [|exact He].
  by destruct path, (snd (drain_trimmed_hunk c)).
Qed.

Lemma line_quiet t l :
  quiet_header l -> line (between None [] false 0 t) (cut_cr l) = (between None [] false 0 t, None).
Proof.
  unfold quiet_header, diff_line. cbn [between d_path d_parser line_is_skippable_hunk_body in_hunk].
  rewrite andb_false_r. unfold parser_new.
  destruct (parse_line (mkParser false) (cut_cr l) $"git diff") as [[[]] [[]|]]; try done.
  intros _. by apply (flush_small None []).
Qed.

Lemma line_old b t o :
  line (between None [] false b t) (cut_cr ($"--- " ++ o)) = (between None [] false b t, None).
Proof. by rewrite cut_cr_app. Qed.

Lemma line_null b t : line (between None [] false b t) (cut_cr $"+++ /dev/null") = (between None [] false 0 t, None).
Proof. by vm_compute. Qed.

Lemma line_binary b t l :
  line (between None [] false b t) (cut_cr ($"Binary files " ++ l)) = (between None [] false 0 (skip Binary t), None).
Proof. by rewrite cut_cr_app. Qed.

Lemma line_plus b t f :
  file_ok limits f ->
  exists t', used t [] t' /\
    line (between None [] false b t) (cut_cr (plus_header f)) =
      (between (scanned_path respect_default_excludes f) [] false 0 t', None).
Proof.
  intros (_ & Hne & Hplain & Hscalar & Hplus & _).
  destruct (plus_header_parsed parser_new (f_parts f) (f_tab f) $"git diff" eq_refl Hne Hplain Hscalar) as [Hq Hu].
  fold (new_path f) in Hq, Hu.
  assert (Hparse : parse_line (mkParser false) (cut_cr (plus_header f)) $"git diff" =
    (mkParser false, Ok (FileHeader (Some (new_path f)) false))).
  { unfold plus_header, plus_header_ok in *. destruct (f_quoted f).
    - rewrite cut_cr_id; [exact Hq|]. by rewrite !app_assoc, last_snoc.
    - destruct Hplus as (Hc & Hh & Hl & Htab). rewrite cut_cr_id; [by apply Hu|].
      destruct Htab as [Ht|Ht]; rewrite Ht; [|by rewrite !app_assoc, last_snoc].
      rewrite app_nil_r, last_app. destruct (last (as_bytes (new_path f))) as [x|] eqn:E; [|done].
      intros [= ->]. apply last_Some_elem_of, list_elem_of_In in E.
      assert (existsb is_ascii_control (as_bytes (new_path f)) = true) by (apply existsb_exists; by exists 13).
      congruence. }
  unfold diff_line. cbn [between d_path d_parser line_is_skippable_hunk_body in_hunk]. rewrite andb_false_r, Hparse.
  unfold diff_event, scanned_path. cbn [with_parser between d_content d_base_line d_path].
  rewrite (surjective_pairing (drain_trimmed_hunk [])), drain_fst.
  destruct (respect_default_excludes && _).
  - exists (skip Excluded t). split; [|done]. unfold used, skip, zlen. cbn. lia.
  - exists t. split; [apply used_nil|done].
Qed.

(** ** All the rows of the lines that are left *)

(** The lines and then the end of the diff produce these rows. *)
Definition yields (s : DiffStream) (ls : list bytes) (rows : list row) : Prop :=
  exists path c hk b t rs,
    feeds' s ls rs (between path c hk b t) /\ rows = rs ++ chunk_rows m path c b.

Lemma yields_end path c hk b t : room t [] -> yields (between path c hk b t) [] (chunk_rows m path c b).
Proof. intros Ht. exists path, c, hk, b, t, []. split; [|done]. apply feeds_nil. by eapply pulling_room. Qed.

Lemma yields_feeds s ls s1 ls' rows : feeds' s ls [] s1 -> yields s1 ls' rows -> yields s (ls ++ ls') rows.
Proof.
  intros Hf (path & c & hk & b & t & rs & Hf' & ->). exists path, c, hk, b, t, rs. split; [|done].
  exact (feeds_app _ _ _ _ _ _ _ _ _ _ Hf Hf').
Qed.

(** A line that ends the current chunk. *)
Lemma yields_flush path c hk b t l path' c' hk' b' ls rows :
  room t (chunk_rows m path c b ++ rows) ->
  (forall t',
     (forall s, d_tally s = t ->
        match path, snd (drain_trimmed_hunk c) with
        | Some p, Some text => emit_chunk m s text b p
        | _, _ => (s, None)
        end = (with_tally s t', head (chunk_rows m path c b))) ->
     line (between path c hk b t) (cut_cr l) = (between path' c' hk' b' t', head (chunk_rows m path c b))) ->
  (forall t', room t' rows -> yields (between path' c' hk' b' t') ls rows) ->
  yields (between path c hk b t) (l :: ls) (chunk_rows m path c b ++ rows).
Proof.
  intros Hr Hline Hy. destruct (chunk_rows_flush path c b t rows Hr) as (t' & Hu & He).
  destruct (room_app _ _ _ _ Hu Hr) as [_ Hr'].
  destruct (Hy t' Hr') as (pf & cf & hf & bf & tf & rs & Hf & ->). specialize (Hline t' He).
  exists pf, cf, hf, bf, tf, (chunk_rows m path c b ++ rs). split; [|by rewrite app_assoc].
  rewrite chunk_rows_head. destruct (head (chunk_rows m path c b)) as [r|]; cbn [option_list app].
  - eapply feeds_row; [by eapply pulling_room|exact Hline|exact Hf].
  - eapply feeds_quiet; [by eapply pulling_room|exact Hline|exact Hf].
Qed.

Lemma room_nil t rows : room t rows -> room t [].
Proof.
  unfold room, zlen. cbn [rows_bytes foldr length]. pose proof (rows_bytes_nonneg rows). lia.
Qed.

Lemma chunk_rows_collected path c b : chunk_rows m path (collected path c) b = chunk_rows m path c b.
Proof. by destruct path. Qed.

Lemma yields_hunks path hs ls rows :
  Forall hunk_head_ok hs -> (path <> None -> Forall (hunk_body_ok limits) hs) ->
  (forall c hk b t, room t (chunk_rows m path c b ++ rows) ->
     yields (between path c hk b t) ls (chunk_rows m path c b ++ rows)) ->
  forall c hk b t,
    room t (chunk_rows m path c b ++ concat (map (hunk_rows m path) hs) ++ rows) ->
    yields (between path c hk b t) (concat (map render_hunk hs) ++ ls)
      (chunk_rows m path c b ++ concat (map (hunk_rows m path) hs) ++ rows).
Proof.
  intros Hhs Hbody Hk. induction Hhs as [|h hs Hh Hhs IH]; intros c hk b t Hr; cbn [map concat]; [by apply Hk|].
  assert (Hbs : path <> None -> Forall (hunk_body_ok limits) hs) by (intros Hp; by apply Forall_cons in Hbody as [_ ?]).
  assert (Hb : path <> None -> hunk_body_ok limits h) by (intros Hp; by apply Forall_cons in Hbody as [? _]).
  cbn [map concat] in Hr. rewrite <- !app_assoc in Hr. rewrite <- !app_assoc. unfold render_hunk at 1. rewrite <- app_comm_cons.
  eapply yields_flush; [exact Hr|intros t'; by apply line_hunk|].
  intros t' Hr'. pose proof (room_nil _ _ Hr') as Hr0.
  assert (0 <= zlen (@nil Z) <= git_blob_bytes_limit_usize limits) as Hz by (unfold zlen; cbn; lia).
  rewrite <- !app_assoc.
  eapply yields_feeds; [by apply feeds_deleted; [|lia|intros Hp; apply (Hb Hp)]|].
  eapply yields_feeds; [by apply feeds_mark; [|lia]|].
  eapply yields_feeds.
  { pose proof (feeds_added path [] (saturating_sub (hunk_start h) 1) t' (h_added h) Hr0 (fun Hp => proj2 (Hb Hp))) as Ha.
    replace (collected path []) with (@nil Z) in Ha by (by destruct path). exact Ha. }
  change ([] ++ concat (map (fun a => cut_cr a ++ [10]) (h_added h))) with (hunk_bytes h).
  eapply yields_feeds.
  { apply feeds_mark; [done|]. destruct path; cbn [collected]; [by apply Hb|lia]. }
  unfold hunk_rows at 1. rewrite <- chunk_rows_collected. apply IH; [done|]. by rewrite chunk_rows_collected.
Qed.

Lemma chunk_rows_nil path b : chunk_rows m path [] b = [].
Proof. by destruct path. Qed.

Lemma feeds_quiet_headers t ls :
  room t [] -> Forall quiet_header ls -> feeds' (between None [] false 0 t) ls [] (between None [] false 0 t).
Proof.
  intros Ht. induction 1 as [|l ls Hl Hls IH]; [apply feeds_nil; by eapply pulling_room|].
  eapply feeds_quiet; [by eapply pulling_room|by apply line_quiet|done].
Qed.

(** The lines of an entry after its first, then what follows it. *)
Lemma yields_changed f t ls rows :
  file_ok limits f ->
  (forall path c hk b t, room t (chunk_rows m path c b ++ rows) -> yields (between path c hk b t) ls (chunk_rows m path c b ++ rows)) ->
  room t (file_rows respect_default_excludes m f ++ rows) ->
  yields (between None [] false 0 t) (f_extended f ++ [ $"--- " ++ f_old f; plus_header f] ++ concat (map render_hunk (f_hunks f)) ++ ls)
    (file_rows respect_default_excludes m f ++ rows).
Proof.
  intros Hf Hk Hr. pose proof (room_nil _ _ Hr) as Hr0. pose proof Hf as (Hquiet & _ & _ & _ & _ & Hhunks).
  eapply yields_feeds; [by apply feeds_quiet_headers|].
  destruct (line_plus 0 t f Hf) as (t2 & Hu & Hplus).
  destruct (room_app t [] _ t2 Hu Hr) as [_ Hr2]. pose proof (room_nil _ _ Hr2) as Hr20.
  apply (yields_feeds _ _ (between (scanned_path respect_default_excludes f) [] false 0 t2)).
  { eapply feeds_quiet; [by eapply pulling_room|apply line_old|]. by apply feeds_one. }
  change (file_rows respect_default_excludes m f)
    with (concat (map (hunk_rows m (scanned_path respect_default_excludes f)) (f_hunks f))) in *.
  assert (Hh : Forall hunk_head_ok (f_hunks f) /\ Forall (hunk_body_ok limits) (f_hunks f)) by (by apply Forall_and).
  pose proof (yields_hunks (scanned_path respect_default_excludes f) (f_hunks f) ls rows (proj1 Hh) (fun _ => proj2 Hh)
    (fun c hk b t => Hk _ c hk b t) [] false 0 t2) as Hy.
  rewrite chunk_rows_nil in Hy. by apply Hy.
Qed.

Lemma removed_rows hs : concat (map (hunk_rows m None) hs) = [].
Proof. by induction hs. Qed.

Lemma yields_removed extended old hunks t ls rows :
  Forall quiet_header extended -> Forall hunk_head_ok hunks ->
  (forall path c hk b t, room t (chunk_rows m path c b ++ rows) -> yields (between path c hk b t) ls (chunk_rows m path c b ++ rows)) ->
  room t rows ->
  yields (between None [] false 0 t) (extended ++ [ $"--- " ++ old; $"+++ /dev/null"] ++ concat (map render_hunk hunks) ++ ls) rows.
Proof.
  intros Hquiet Hh Hk Hr. pose proof (room_nil _ _ Hr) as Hr0. eapply yields_feeds; [by apply feeds_quiet_headers|].
  apply (yields_feeds _ _ (between None [] false 0 t)).
  { eapply feeds_quiet; [by eapply pulling_room|apply line_old|]. apply feeds_one; [done..|]. apply line_null. }
  pose proof (yields_hunks None hunks ls rows Hh ltac:(done) (fun c hk b t => Hk None c hk b t) [] false 0 t) as Hy.
  rewrite chunk_rows_nil, removed_rows in Hy. by apply Hy.
Qed.

Lemma yields_entry e path c hk b t ls rows :
  entry_ok limits e ->
  (forall path c hk b t, room t (chunk_rows m path c b ++ rows) -> yields (between path c hk b t) ls (chunk_rows m path c b ++ rows)) ->
  room t (chunk_rows m path c b ++ entry_rows respect_default_excludes m e ++ rows) ->
  yields (between path c hk b t) (render_entry e ++ ls) (chunk_rows m path c b ++ entry_rows respect_default_excludes m e ++ rows).
Proof.
  intros He Hk Hr.
  assert (Hgo : exists g rest, render_entry e = ($"diff --git " ++ g) :: rest /\
    forall t, room t (entry_rows respect_default_excludes m e ++ rows) ->
      yields (between None [] false 0 t) (rest ++ ls) (entry_rows respect_default_excludes m e ++ rows)).
  { destruct e as [f|g ext old hunks|g ext text|g ext]; cbn [render_entry entry_rows entry_ok] in *; eexists _, _;
      (split; [reflexivity|]); intros t' Ht'; rewrite <- ?app_assoc.
    - by apply yields_changed.
    - destruct He. by apply yields_removed.
    - pose proof (room_nil _ _ Ht') as H0. eapply yields_feeds; [by apply feeds_quiet_headers|].
      apply (yields_feeds _ _ (between None [] false 0 (skip Binary t'))); [apply feeds_one; [done..|]; apply line_binary|].
      cbn [app]. rewrite <- (app_nil_l rows), <- (chunk_rows_nil None 0). by apply Hk.
    - pose proof (room_nil _ _ Ht') as H0. eapply yields_feeds; [by apply feeds_quiet_headers|].
      cbn [app]. rewrite <- (app_nil_l rows), <- (chunk_rows_nil None 0). by apply Hk. }
  destruct Hgo as (g & rest & -> & Hy). cbn [app]. eapply yields_flush; [done|intros t'; by apply line_git|done].
Qed.

Lemma yields_entries es :
  Forall (entry_ok limits) es ->
  forall path c hk b t,
    room t (chunk_rows m path c b ++ concat (map (entry_rows respect_default_excludes m) es)) ->
    yields (between path c hk b t) (render_diff es)
      (chunk_rows m path c b ++ concat (map (entry_rows respect_default_excludes m) es)).
Proof.
  induction 1 as [|e es He Hes IH]; intros path c hk b t Hr.
  { cbn [map concat]. rewrite app_nil_r in Hr |- *. apply yields_end. by eapply room_nil. }
  unfold render_diff in *. cbn [map concat] in *. by apply yields_entry.
Qed.

(** ** The end of the diff *)

Lemma diff_rows_end path c hk b t rs s reader :
  diff_exit = ExitSuccess -> 0 <= git_line_bytes limits -> forall ls,
  feeds' s ls rs (between path c hk b t) -> lines_fit limits ls -> clean_reader reader -> reader_bytes reader = unlines ls ->
  exists s', diff_rows limits respect_default_excludes m (S (length (rs ++ chunk_rows m path c b))) (with_reader s reader) =
    Some (rs ++ chunk_rows m path c b, s').
Proof.
  intros Hexit H0 ls Hf Hfit Hc Hb. assert (Hw : wait_for_diff = Ok ()) by (unfold wait_for_diff; by rewrite Hexit).
  assert (Hend : diff_end limits respect_default_excludes m (with_reader (between path c hk b t) []) =
    match chunk_rows m path c b with
    | [] => (with_done (with_untracked (with_hunk (between path c hk b t) path (match path with Some _ => [] | None => c end) b) None t), None)
    | r :: _ => emit_chunk m (with_wait (between path [] hk b t) true) (trim (from_utf8_lossy c)) b (default [] path)
    end).
  { unfold diff_end, chunk_rows. cbn [with_reader between d_path d_content d_base_line]. rewrite Hw.
    destruct path as [p|]; [|done]. rewrite (surjective_pairing (drain_trimmed_hunk c)), drain_fst.
    unfold drain_trimmed_hunk. cbn zeta. by case_bool_decide. }
  rewrite length_app. destruct (chunk_rows m path c b) as [|r rows] eqn:Er.
  - rewrite Nat.add_0_r, <- Nat.add_1_r. rewrite (diff_rows_feeds _ _ _ s ls rs _ reader 0 H0 Hf Hfit Hc Hb), Hend, app_nil_r.
    by eexists.
  - assert (rows = []) as ->.
    { revert Er. unfold chunk_rows. destruct path; [|done]. cbn zeta. case_bool_decide; [done|]. by intros [= _ <-]. }
    cbn [length]. rewrite <- Nat.add_succ_r. rewrite (diff_rows_feeds _ _ _ s ls rs _ reader 1 H0 Hf Hfit Hc Hb), Hend.
    unfold emit_chunk. cbn [make_git_diff_chunk].
    unfold chunk_rows in Er. destruct path as [p|]; [|done]. cbn zeta in Er. case_bool_decide; [done|]. simplify_eq.
    cbn [diff_rows]. unfold diff_next at 1. cbn [with_tally with_wait between d_wait]. rewrite Hw. by eexists.
Qed.
End steps.

(** C9. Take a diff in the form git prints with zero context: any sequence of
    changed files with their hunks, removed files, binary files, and entries with
    header lines only (a changed mode, a pure rename, an empty file), however its
    bytes are cut into reads.  Let its lines fit the line cap, the hunks of changed
    files the blob cap and the rows the aggregate caps, and let no deleted line of a
    changed file begin with [-- ] (such a line is taken for a file header).  The
    source yields exactly one chunk for each hunk of a changed file that is not
    excluded and whose added lines are not blank, in order, and nothing else, and
    then ends.  The chunk is the trimmed text of the hunk's added lines under the
    path of the file header; its base line is the one the hunk header names, also
    when blank lines at the head of the hunk were trimmed. *)
Theorem rendered_diff_rows `{GitWorld} (limits : SourceLimits) (respect : bool) (m : CommitMetadata)
    (es : list entry) (reader : list fill) :
  diff_exit = ExitSuccess ->
  0 <= git_line_bytes limits -> 0 <= git_blob_bytes_limit_usize limits ->
  git_total_bytes limits <= usize_max -> git_chunk_count limits <= usize_max ->
  Forall (entry_ok limits) es -> lines_fit limits (render_diff es) ->
  clean_reader reader -> reader_bytes reader = unlines (render_diff es) ->
  let rows := concat (map (entry_rows respect m) es) in
  rows_bytes rows < git_total_bytes limits -> zlen rows < git_chunk_count limits ->
  exists s, diff_rows limits respect m (S (length rows)) (stream_start reader None) = Some (rows, s).
Proof.
  intros Hexit H0 Hcap Htotal Hcount Hfiles Hfit Hc Hb rows Hbytes Hlen.
  destruct (yields_entries limits respect m Hcap Htotal Hcount es Hfiles None [] false 0 (mkTally 0 0 false []))
    as (path & c & hk & b & t & rs & Hf & Hrows); [by split_and!|].
  change (chunk_rows m None [] 0 ++ concat (map (entry_rows respect m) es)) with rows in Hrows. rewrite Hrows.
  change (stream_start reader None) with (with_reader (between None [] false 0 (mkTally 0 0 false [])) reader).
  by eapply diff_rows_end.
Qed.

(** ** A diff to evaluate *)

#[export] Instance quiet_header_dec l : Decision (quiet_header l).
Proof. unfold quiet_header. destruct (parse_line _ _ _) as [[[]] [[]|]]; apply _. Defined.
#[export] Instance hunk_ok_dec limits h : Decision (hunk_ok limits h).
Proof. unfold hunk_ok, hunk_head_ok, hunk_body_ok. destruct (h_count h); apply _. Defined.
#[export] Instance hunk_head_ok_dec h : Decision (hunk_head_ok h).
Proof. unfold hunk_head_ok. destruct (h_count h); apply _. Defined.
#[export] Instance plus_header_ok_dec f : Decision (plus_header_ok f).
Proof. unfold plus_header_ok. destruct (f_quoted f); apply _. Defined.
#[export] Instance file_ok_dec limits f : Decision (file_ok limits f).
Proof. unfold file_ok. apply _. Defined.
#[export] Instance entry_ok_dec limits e : Decision (entry_ok limits e).
Proof. destruct e; cbn [entry_ok]; apply _. Defined.
#[export] Instance lines_fit_dec limits ls : Decision (lines_fit limits ls).
Proof. unfold lines_fit. apply _. Defined.
#[export] Instance clean_reader_dec reader : Decision (clean_reader reader).
Proof. unfold clean_reader. apply Forall_dec. intros []; apply _. Defined.

Definition sample_limits : SourceLimits := mkLimits 4096 100000 100 100000.
Definition sample_commit : CommitMetadata := mkCommit $"c0ffee" $"dev" $"2026-01-01".

#[export] Instance sample_world : GitWorld := {|
  diff_exit := ExitSuccess; ls_files := Ok []; ls_exit := ExitSuccess; symlink_metadata := fun _ => Err 2;
  read_limited := fun _ _ => Err 2; exclude_rules := sample_policy |}.

Definition sample_files : list entry :=
  [Changed (mkFile $"a/src/x.py b/src/x.py" [ $"index 1..2 100644"] $"a/src/x.py" [ $"src"; $"x.py"] false []
     [mkHunk $" -3,2 " $"3" $"" $" def f():" [ $"old"] false [ $"key = 'AKIA'"; $"pw = 1"] false;
      mkHunk $" -9 " $"9" $",0" $"" [ $"gone"] true [] false]);
   Removed $"a/old.sql b/old.sql" [ $"deleted file mode 100644"; $"index 1..0"] $"a/old.sql"
     [mkHunk $" -1 " $"0" $",0" $"" [ $"-- password: hunter2"] false [] false];
   BinaryEntry $"a/logo.png b/logo.png" [ $"index 3..4 100644"] $"a/logo.png and b/logo.png differ";
   HeaderOnly $"a/run b/run" [ $"old mode 100644"; $"new mode 100755"];
   Changed (mkFile $"a/node_modules/y b/node_modules/y" [] $"a/node_modules/y" [ $"node_modules"; $"y"] true []
     [mkHunk $" -1 " $"1" $"" $"" [] false [ $"skipped"] true])].

Definition sample_reader : list fill :=
  let bs := unlines (render_diff sample_files) in [Data (take 17 bs); Interrupted; Data (drop 17 bs)].

Example sample_diff_rows :
  concat (map (entry_rows true sample_commit) sample_files) =
    [Ok (mkGitChunk ($"key = 'AKIA'" ++ [10] ++ $"pw = 1") 2 $"git-diff" $"src/x.py" $"c0ffee" $"dev" $"2026-01-01" None)].
Proof. by_eval. Qed.

Lemma rendered_diff_rows_witness :
  let rows := concat (map (entry_rows true sample_commit) sample_files) in
  exists s, diff_rows sample_limits true sample_commit (S (length rows)) (stream_start sample_reader None) = Some (rows, s).
Proof.
  apply (rendered_diff_rows sample_limits true sample_commit sample_files sample_reader).
  1: exact eq_refl. all: by_decision.
Defined.

(** The classifier tells a deleted line that begins with [-- ] from the header of
    an old file by nothing: the rest of the hunk is then no longer read, and the
    added lines are lost without a row that says so. *)
Example deleted_comment_hides_additions :
  let files := [Changed (mkFile $"a/q.sql b/q.sql" [] $"a/q.sql" [ $"q.sql"] false []
    [mkHunk $" -1 " $"1" $"" $"" [ $"-- old comment"] false [ $"key = 'AKIA'"] false])] in
  (fun '(rs, _) => rs) <$>
    diff_rows sample_limits true sample_commit 9 (stream_start [Data (unlines (render_diff files))] None) = Some [] /\
  concat (map (entry_rows true sample_commit) files) <> [].
Proof. intros files. split; [by_eval|by vm_compute]. Qed.

(** Trimming drops blank lines at the head of a hunk but keeps its base line: the
    added line 11 is reported one line early, as line 1 after base 9. *)
Example leading_blank_line_moves_attribution :
  let files := [Changed (mkFile $"a/q b/q" [] $"a/q" [ $"q"] false []
    [mkHunk $" -9,0 " $"10" $",2" $"" [] false [ $""; $"key"] false])] in
  (fun '(rs, _) => rs) <$>
    diff_rows sample_limits true sample_commit 9 (stream_start [Data (unlines (render_diff files))] None) =
  Some [Ok (mkGitChunk $"key" 9 $"git-diff" $"q" $"c0ffee" $"dev" $"2026-01-01" None)].
Proof. intros files. by_eval. Qed.

(** A part of a hunk that is over the blob cap but blank is dropped without
    moving the base line: the second added line is reported as the first. *)
Example blank_over_cap_keeps_base_line :
  let files := [Changed (mkFile $"a/q b/q" [] $"a/q" [ $"q"] false []
    [mkHunk $" -0,0 " $"1" $",2" $"" [] false [ $"      "; $"key"] false])] in
  (fun '(rs, _) => rs) <$>
    diff_rows (mkLimits 4096 100000 100 4) true sample_commit 9
      (stream_start [Data (unlines (render_diff files))] None) =
  Some [Ok (mkGitChunk $"key" 0 $"git-diff" $"q" $"c0ffee" $"dev" $"2026-01-01" None)].
Proof. intros files. by_eval. Qed.
