(* ===== verification/GitDiffBounds.v ===== *)
(** * Every run of the git diff source ([crates/sources/src/git/diff.rs])

    Whatever the child processes print and however the reads fail, each pull of
    the iterator returns, the rows stay within the caps, and every chunk is well
    formed. *)

From Stdlib Require Import ZifyBool.
From S2P Require Import Prelude Utf8 SourceSkip Excludes TextDecode GitDiffParser GitDiff GitDiffRender.

(** ** Well-formed text *)

Lemma trim_start_Forall (P : Z -> Prop) f s : Forall P s -> Forall P (trim_start_matches f s).
Proof. induction 1; cbn; [constructor|]. case_match; [done|by constructor]. Qed.

Lemma trim_Forall (P : Z -> Prop) s : Forall P s -> Forall P (trim s).
Proof.
  intros Hs. unfold trim, trim_end_matches. apply Forall_rev, trim_start_Forall, Forall_rev. by apply trim_start_Forall.
Qed.

Lemma utf16_units_range le bs :
  Forall is_byte bs -> Forall (fun u => 0 <= u <= 0xFFFF) (fst (utf16_units le bs)).
Proof.
  assert (Hgen : forall n bs, (length bs <= n)%nat -> Forall is_byte bs ->
    Forall (fun u => 0 <= u <= 0xFFFF) (fst (utf16_units le bs))).
  2:{ intros Hb. by apply (Hgen (length bs)). }
  induction n as [|n IH]; intros [|a [|b rest]] Hn Hb; cbn [utf16_units]; try constructor; [cbn in Hn; lia|].
  apply Forall_cons in Hb as [Ha Hb]. apply Forall_cons in Hb as [Hb Hr].
  specialize (IH rest ltac:(cbn in Hn; lia) Hr). destruct (utf16_units le rest) as [us rem].
  constructor; [|exact IH]. unfold is_byte in *. destruct le; lia.
Qed.

Lemma utf16_chars_scalar us :
  Forall (fun u => 0 <= u <= 0xFFFF) us -> Forall is_scalar (map lossy_char (utf16_chars us)).
Proof.
  assert (Hgen : forall n us, (length us <= n)%nat -> Forall (fun u => 0 <= u <= 0xFFFF) us ->
    Forall is_scalar (map lossy_char (utf16_chars us))).
  2:{ intros Hb. by apply (Hgen (length us)). }
  assert (Hrep : is_scalar 0xFFFD) by (unfold is_scalar; lia).
  induction n as [|n IH]; intros [|u us'] Hn Hu; cbn [utf16_chars]; try constructor; [cbn in Hn; lia|].
  apply Forall_cons in Hu as [Hu Hus]. cbn [length] in Hn.
  pose proof (IH us' ltac:(lia) Hus) as IH1.
  unfold is_high_surrogate, is_low_surrogate, in_range.
  destruct ((55296 <=? u) && (u <=? 56319)) eqn:Eh.
  - destruct us' as [|v us'']; [by repeat constructor|].
    destruct ((56320 <=? v) && (v <=? 57343)) eqn:El; [|by constructor].
    apply Forall_cons in Hus as [Hv Hus]. constructor; [|by apply IH; [cbn in Hn; lia|]].
    cbn [lossy_char]. change 1023 with (2 ^ 10 - 1). rewrite !land_low by done.
    rewrite lor_shiftl_add by (try apply Z.mod_pos_bound; done). unfold is_scalar. Z.div_mod_to_equations. lia.
  - destruct ((56320 <=? u) && (u <=? 57343)) eqn:El; constructor; try done. unfold is_scalar. cbn. lia.
Qed.

Lemma decode_utf16_scalar bs t : Forall is_byte bs -> decode_utf16 bs = Some t -> Forall is_scalar t.
Proof.
  intros Hb Hd.
  assert (Hp : exists le p, Forall is_byte p /\ decode_utf16_payload le p = Some t).
  { unfold decode_utf16, strip_prefix in Hd. repeat case_match; simplify_eq; eexists _, _; (split; [|exact Hd]); by apply Forall_drop. }
  destruct Hp as (le & p & Hp & Ht). unfold decode_utf16_payload in Ht.
  pose proof (utf16_units_range le p Hp) as Hu. destruct (utf16_units le p) as [us rem].
  destruct (negb _ && _); [done|]. destruct (_ && _); [done|]. apply (inj Some) in Ht as <-.
  apply Forall_app. split; [by apply utf16_chars_scalar|].
  destruct (negb _); [|constructor]. apply Forall_cons. split; [unfold is_scalar; lia|constructor].
Qed.

Lemma decode_text_file_scalar bs t : Forall is_byte bs -> decode_text_file bs = Some t -> Forall is_scalar t.
Proof.
  intros Hb. unfold decode_text_file. destruct (has_binary_magic bs); [done|].
  destruct (decode_utf16 bs) as [u|] eqn:Eu.
  - intros [= <-]. apply decode_utf16_scalar in Eu; [|done]. unfold append_lossy_view_if_non_ascii_utf16.
    repeat case_match; try done. apply Forall_app. split; [done|]. constructor; [unfold is_scalar; lia|].
    by apply lossy_scalar.
  - set (rest := match strip_prefix UTF8_BOM bs with Some r => r | None => bs end).
    assert (Forall is_byte rest) as Hr.
    { unfold rest, strip_prefix. destruct (starts_with _ _); [by apply Forall_drop|done]. }
    destruct (from_utf8 rest) as [s|] eqn:Es; intros Ht; repeat case_match; simplify_eq;
      [by eapply from_utf8_scalar|by apply lossy_scalar].
Qed.

(** ** What the parser hands over *)

Lemma checked_decimal_range digits v x :
  0 <= v <= usize_max -> Forall (fun d => is_ascii_digit d = true) digits -> checked_decimal v digits = Some x ->
  0 <= x <= usize_max.
Proof.
  intros Hv Hd. rewrite checked_decimal_spec by done. cbn zeta. pose proof (decimal_fold_mono digits v) as Hm.
  specialize (Hm ltac:(lia) Hd). case_match; [|done]. intros [= <-]. lia.
Qed.

Lemma leading_digits_digits s : Forall (fun d => is_ascii_digit d = true) (leading_digits s).
Proof. induction s as [|c s IH]; cbn; [constructor|]. case_match; [by constructor|constructor]. Qed.

Lemma parse_hunk_range header v : parse_hunk_new_start_bytes header = Some v -> 0 <= v <= usize_max.
Proof.
  unfold parse_hunk_new_start_bytes. destruct (find_sub _ _); [|done]. case_bool_decide; [done|].
  intros Hc. eapply checked_decimal_range; [|apply leading_digits_digits|exact Hc]. unfold usize_max, u64_max. lia.
Qed.

(** A relative path that never leaves its root. *)
Definition confined (path : str) : Prop :=
  Forall (fun c => c <> ParentDir /\ c <> RootDir) (path_components path).

Definition event_ok (ev : UnifiedDiffEvent) : Prop :=
  match ev with
  | FileHeader (Some path) _ => confined path
  | HunkStart base => 0 <= base <= usize_max
  | AddedLine bs => Forall is_byte bs
  | _ => True
  end.

Lemma parse_line_event_ok p line st p' ev :
  Forall is_byte line -> parse_line p line st = (p', Ok ev) -> event_ok ev.
Proof.
  intros Hl. unfold parse_line, parse_hunk_new_start_bytes_or_error.
  destruct (starts_with $"diff --git " line); [by intros [= _ <-]|].
  destruct (starts_with $"deleted file mode" line); [by intros [= _ <-]|].
  destruct (_ || _); [by intros [= _ <-]|]. destruct (_ || _); [by intros [= _ <-]|].
  destruct (starts_with $"--- " line); [by intros [= _ <-]|].
  destruct (starts_with $"@@" line).
  { destruct (find_sub _ _); [|done]. destruct (parse_hunk_new_start_bytes line) as [v|] eqn:E; [|done].
    apply parse_hunk_range in E. intros [= _ <-]. cbn. unfold saturating_sub. lia. }
  destruct (_ && _); [intros [= _ <-]; by apply (Forall_drop _ 1 line)|].
  destruct (extract_new_path_from_plus_header line) as [[[path|] inv]|] eqn:E.
  - intros [= _ <-]. cbn. apply extract_new_path_plain in E as (_ & parts & Hne & Hp & ->).
    unfold confined. rewrite path_components_join by done. apply Forall_map. by apply Forall_true.
  - by intros [= _ <-].
  - destruct (starts_with _ _); [done|by intros [= _ <-]].
Qed.

(** ** Reads *)

Definition fill_ok (f : fill) : Prop := match f with Data bs => Forall is_byte bs | _ => True end.

Lemma keep_capped_Forall (P : Z -> Prop) max buf taken :
  Forall P buf -> Forall P taken -> Forall P (keep_capped max buf taken).
Proof.
  intros Hb Ht. unfold keep_capped. case_match; [|done]. apply Forall_app. split; [done|by apply Forall_take].
Qed.

(** A read keeps bytes bytes and leaves less to read, unless nothing was left. *)
Lemma read_record_progress max d reader buf consumed reader' buf' r :
  Forall fill_ok reader -> Forall is_byte buf ->
  read_record_loop max d reader buf consumed = (reader', buf', r) ->
  Forall fill_ok reader' /\ Forall is_byte buf' /\
  ((reader_size reader' < reader_size reader)%nat \/ (reader = [] /\ reader' = [] /\ r = Ok (mkCapped consumed consumed))).
Proof.
  intros Hf. revert buf consumed. induction Hf as [|f reader Hf Hfs IH]; intros buf consumed Hb; cbn [read_record_loop].
  { intros [= <- <- <-]. split_and!; [constructor|done|by right]. }
  change (reader_size (f :: reader)) with (fill_size f + reader_size reader)%nat.
  destruct f as [bs| |e]; cbn [fill_size fill_ok] in *.
  - case_bool_decide as Hne; [intros [= <- <- <-]; split_and!; [done..|left; lia]|].
    destruct (find_sub [d] bs) as [i|] eqn:Ei.
    + intros [= <- <- <-]. pose proof (find_sub_bound [d] bs i Ei) as Hi. cbn [length] in Hi. split_and!.
      * unfold unread. case_bool_decide; [done|]. constructor; [by apply (Forall_drop _ (i + 1) bs)|done].
      * apply keep_capped_Forall; [done|by apply Forall_take].
      * left. unfold unread. case_bool_decide; [lia|].
        change (reader_size (Data (drop (i + 1) bs) :: reader)) with (S (length (drop (i + 1) bs)) + reader_size reader)%nat.
        rewrite length_drop. lia.
    + intros Hr. apply IH in Hr as (H1 & H2 & [H3|(-> & -> & _)]); [..|by apply keep_capped_Forall].
      * split_and!; [done..|left; lia].
      * split_and!; [done..|]. left. cbn. lia.
  - intros Hr. apply IH in Hr as (H1 & H2 & [H3|(-> & -> & _)]); [..|done]; split_and!; try done; left; cbn; lia.
  - intros [= <- <- <-]. split_and!; [done..|left; lia].
Qed.

(** ** One step keeps the stream well formed *)

Definition chunk_ok (c : GitChunk) : Prop :=
  Forall is_scalar (ck_data c) /\ ck_data c <> [] /\ 0 <= ck_base_line c <= usize_max /\ confined (ck_path c).

Definition is_coverage (r : row) : bool := match r with Err (ErrCoverage _ _ _ _ _ _ _) => true | _ => false end.

(** What a row does to the counters when it is not a cap that is reported. *)
Definition counted (t t' : tally) (r : option row) : Prop :=
  aggregate_cap_reported t' = aggregate_cap_reported t /\
  match r with
  | Some (Ok c) => chunk_ok c /\ chunk_count t' = saturating_add usize_max (chunk_count t) 1
  | Some (Err e) => is_coverage (Err e) = false /\ chunk_count t' = chunk_count t
  | None => chunk_count t' = chunk_count t
  end.

Record stream_ok (s : DiffStream) : Prop := {
  so_reader : Forall fill_ok (d_reader s);
  so_content : Forall is_byte (d_content s);
  so_path : forall p, d_path s = Some p -> confined p;
  so_base : 0 <= d_base_line s <= usize_max;
  so_pending : Forall (fun e => is_coverage (Err e) = false) (d_pending s) }.

Lemma drain_ok c c' drained :
  Forall is_byte c -> drain_trimmed_hunk c = (c', drained) ->
  c' = [] /\ forall text, drained = Some text -> Forall is_scalar text /\ text <> [].
Proof.
  intros Hc. unfold drain_trimmed_hunk. case_bool_decide; intros [= <- <-]; (split; [done|]); [done|].
  intros text [= <-]. split; [by apply trim_Forall, lossy_scalar|done].
Qed.

Lemma pop_pending_ok s s' r :
  stream_ok s -> pop_pending s = (s', r) ->
  stream_ok s' /\ d_reader s' = d_reader s /\ counted (d_tally s) (d_tally s') r.
Proof.
  intros [H1 H2 H3 H4 H5]. unfold pop_pending. destruct (d_pending s) as [|e rest] eqn:E; intros [= <- <-].
  - split_and!; [by split; rewrite ?E|done|done].
  - apply Forall_cons in H5 as [He Hrest]. split_and!; [by split|done|done].
Qed.

Section runs.
Context `{GitWorld} (limits : SourceLimits) (respect_default_excludes : bool) (m : CommitMetadata).

Lemma emit_chunk_ok s text base path s' r :
  stream_ok s -> Forall is_scalar text -> text <> [] -> 0 <= base <= usize_max -> confined path ->
  emit_chunk m s text base path = (s', r) ->
  stream_ok s' /\ d_reader s' = d_reader s /\ counted (d_tally s) (d_tally s') r.
Proof. intros [H1 H2 H3 H4 H5] Ht Hne Hb Hp [= <- <-]. by split_and!. Qed.

Lemma with_hunk_ok s path content base :
  stream_ok s -> (forall p, path = Some p -> confined p) -> Forall is_byte content -> 0 <= base <= usize_max ->
  stream_ok (with_hunk s path content base).
Proof. intros [H1 H2 H3 H4 H5] Hp Hc Hb. by split. Qed.

Lemma zero_in_range : 0 <= 0 <= usize_max.
Proof. unfold usize_max, u64_max. lia. Qed.

Lemma flush_over_cap_ok s s' r :
  stream_ok s -> flush_over_cap limits m s = (s', r) ->
  stream_ok s' /\ d_reader s' = d_reader s /\ counted (d_tally s) (d_tally s') r.
Proof.
  intros Hs. pose proof Hs as [H1 H2 H3 H4 H5]. unfold flush_over_cap.
  destruct (_ <? _); [|by intros [= <- <-]]. destruct (d_path s) as [p|] eqn:Ep; [|by intros [= <- <-]].
  destruct (drain_trimmed_hunk (d_content s)) as [c drained] eqn:Ed.
  destruct (drain_ok _ _ _ H2 Ed) as [-> Htext]. destruct drained as [text|].
  - destruct (Htext text eq_refl). intros He. apply emit_chunk_ok in He; try done; [|by apply H3].
    apply with_hunk_ok; [done|by intros ? [= <-]; apply H3|constructor|]. unfold saturating_add, newlines, zlen. lia.
  - intros [= <- <-]. split_and!; [|done|done]. apply with_hunk_ok; [done|by intros ? [= <-]; apply H3|constructor|done].
Qed.

Lemma event_header_ok s new_path invalid s' r :
  stream_ok s -> event_ok (FileHeader new_path invalid) ->
  diff_event limits respect_default_excludes m s (FileHeader new_path invalid) = (s', r) ->
  stream_ok s' /\ d_reader s' = d_reader s /\ counted (d_tally s) (d_tally s') r.
Proof.
  intros Hs Hev. pose proof Hs as [H1 H2 H3 H4 H5]. unfold diff_event.
  destruct (drain_trimmed_hunk (d_content s)) as [c drained] eqn:Ed.
  destruct (drain_ok _ _ _ H2 Ed) as [-> Htext].
  set (s1 := if invalid then _ else s).
  assert (Hs1 : stream_ok s1 /\ d_reader s1 = d_reader s /\ counted (d_tally s) (d_tally s1) None).
  { unfold s1. destruct invalid; [|done]. split_and!; [|done|done]. split; try done.
    apply Forall_app. split; [done|by repeat constructor]. }
  set (s2 := match new_path with Some path => _ | None => _ end).
  assert (Hs2 : stream_ok s2 /\ d_reader s2 = d_reader s /\ counted (d_tally s) (d_tally s2) None).
  { destruct Hs1 as (Ho & Hrd & Hc). unfold s2.
    destruct new_path as [path|]; [destruct (_ && _)|]; (split_and!; [|done|done]); try destruct Hc; split_and?; try done;
      (apply with_hunk_ok; [|naive_solver|constructor|apply zero_in_range]); by destruct Ho. }
  clearbody s1 s2. destruct Hs2 as (Ho & Hrd & Hcr & Hcc).
  assert (Hfin : stream_ok s' /\ d_reader s' = d_reader s2 /\ counted (d_tally s2) (d_tally s') r ->
    stream_ok s' /\ d_reader s' = d_reader s /\ counted (d_tally s) (d_tally s') r).
  { unfold counted. rewrite Hrd, Hcr, Hcc. done. }
  destruct (d_path s) as [p|] eqn:Ep; [destruct drained as [text|]|]; intros He; apply Hfin;
    [|by apply pop_pending_ok in He|by apply pop_pending_ok in He].
  destruct (Htext text eq_refl). apply emit_chunk_ok in He; try done. by apply H3.
Qed.

Lemma diff_event_ok s ev s' r :
  stream_ok s -> event_ok ev -> diff_event limits respect_default_excludes m s ev = (s', r) ->
  stream_ok s' /\ d_reader s' = d_reader s /\ counted (d_tally s) (d_tally s') r.
Proof.
  intros Hs Hev. pose proof Hs as [H1 H2 H3 H4 H5].
  destruct ev as [np inv| | |b|bs| |]; [by apply event_header_ok|..]; cbn [diff_event event_ok] in *.
  - intros [= <- <-]. split_and!; [|done|done]. apply with_hunk_ok; [done..|constructor|apply zero_in_range].
  - by intros [= <- <-].
  - destruct (drain_trimmed_hunk (d_content s)) as [c drained] eqn:Ed.
    destruct (drain_ok _ _ _ H2 Ed) as [-> Htext].
    assert (Hw : stream_ok (with_hunk s (d_path s) [] b)) by (apply with_hunk_ok; [done|done|constructor|done]).
    cbn [with_hunk d_path] in *. destruct (d_path s) as [p|] eqn:Ep; [|by intros [= <- <-]].
    destruct drained as [text|]; [|by intros [= <- <-]].
    destruct (Htext text eq_refl). intros He. apply emit_chunk_ok in He; try done. by apply H3.
  - destruct (d_path s) as [p|] eqn:Ep; [|by intros [= <- <-]]. intros He. apply flush_over_cap_ok in He; [done|].
    apply with_hunk_ok; [done|by intros ? [= <-]; apply H3| |done]. repeat apply Forall_app_2; try done.
    repeat constructor; unfold is_byte; lia.
  - intros [= <- <-]. split_and!; [|done|done]. split; try done; apply Forall_nil || apply zero_in_range.
  - by apply flush_over_cap_ok.
Qed.

Lemma diff_line_ok s line s' r :
  stream_ok s -> Forall is_byte line -> diff_line limits respect_default_excludes m s line = (s', r) ->
  stream_ok s' /\ d_reader s' = d_reader s /\ counted (d_tally s) (d_tally s') r.
Proof.
  intros Hs Hl. unfold diff_line. destruct (_ && _); [by intros [= <- <-]|].
  destruct (parse_line _ _ _) as [p [ev|e]] eqn:Ep.
  - intros He. apply parse_line_event_ok in Ep; [|done]. apply diff_event_ok in He; [done| |done]. by destruct Hs.
  - intros [= <- <-]. split_and!; [by destruct Hs|done|]. split; [done|]. split; [|done].
    revert Ep. unfold parse_line, parse_hunk_new_start_bytes_or_error, ok_or. intros Ep.
    repeat case_match; simplify_eq; done.
Qed.

(** ** Counting the rows *)

Context (Hread : forall rel n bs, read_limited rel n = Ok bs -> Forall is_byte bs)
  (Hcount : 0 <= git_chunk_count limits <= usize_max).

Definition ok_rows (r : option row) : Z := match r with Some (Ok _) => 1 | _ => 0 end.

(** A call emits at most one chunk and only below the cap; a cap is reported only
    once. *)
Definition advanced (t t' : tally) (r : option row) : Prop :=
  chunk_count t' = chunk_count t + ok_rows r /\ chunk_count t' <= git_chunk_count limits /\
  (aggregate_cap_reported t = true -> aggregate_cap_reported t' = true) /\
  match r with
  | Some (Ok c) => chunk_ok c
  | Some (Err e) => is_coverage (Err e) = true -> aggregate_cap_reported t = false /\ aggregate_cap_reported t' = true
  | None => True
  end.

Lemma counted_advanced t t' r :
  0 <= chunk_count t < git_chunk_count limits -> counted t t' r -> advanced t t' r.
Proof.
  intros Ht [Hr Hc]. unfold advanced, ok_rows. rewrite Hr.
  destruct r as [[c|e]|]; [destruct Hc as [Hok ->]|destruct Hc as [He ->]|rewrite Hc];
    unfold saturating_add; (split_and!; [lia|lia|done|]); [done|congruence|done].
Qed.

Lemma quiet_advanced t t' r :
  chunk_count t <= git_chunk_count limits -> ok_rows r = 0 -> counted t t' r -> advanced t t' r.
Proof.
  intros Ht Ho [Hr Hc]. unfold advanced. rewrite Ho, Hr.
  destruct r as [[c|e]|]; [done|destruct Hc as [He ->]|rewrite Hc]; (split_and!; [lia|lia|done|]); [congruence|done].
Qed.

Lemma cap_once_advanced cap t t' e source remaining :
  chunk_count t <= git_chunk_count limits -> record_git_cap_once cap t source remaining = (t', e) ->
  advanced t t' (Err <$> e).
Proof.
  intros Ht. unfold record_git_cap_once. destruct (aggregate_cap_reported t) eqn:E; intros [= <- <-].
  - unfold advanced. cbn. rewrite E. split_and!; [lia|lia|done|done].
  - unfold advanced. cbn. rewrite E. split_and!; [lia|lia|done|]. by destruct cap.
Qed.

Lemma cap_status_room t :
  git_history_cap_status (total_bytes t) (chunk_count t) limits = None -> chunk_count t < git_chunk_count limits.
Proof. unfold git_history_cap_status. repeat case_match; try done. lia. Qed.

Lemma validate_confined rel : validate_untracked_relative_path rel = Ok () -> confined rel.
Proof.
  unfold validate_untracked_relative_path, confined. case_match; [done|].
  destruct (existsb _ _) eqn:E; [done|]. intros _. apply Forall_forall. intros c Hc.
  apply not_true_iff_false in E. split; intros ->; apply E, existsb_exists; eexists; (split; [by apply list_elem_of_In|done]).
Qed.

Lemma validate_not_coverage rel e : validate_untracked_relative_path rel = Err e -> is_coverage (Err e) = false.
Proof. unfold validate_untracked_relative_path. repeat case_match; try done; by intros [= <-]. Qed.

Lemma wait_not_coverage child label operation e :
  wait_for_git_child child label operation = Err e -> is_coverage (Err e) = false.
Proof. destruct child; [done|by intros [= <-]..]. Qed.

Lemma read_untracked_ok rel t t' r :
  read_untracked_worktree_chunk limits m rel t = (t', r) ->
  chunk_count t' = chunk_count t /\ aggregate_cap_reported t' = aggregate_cap_reported t /\
  match r with
  | Ok (Some c) => chunk_ok c
  | Ok None => True
  | Err e => is_coverage (Err e) = false
  end.
Proof.
  unfold read_untracked_worktree_chunk, read_to_cap.
  destruct (validate_untracked_relative_path rel) as [[]|e] eqn:Ev.
  2:{ intros [= <- <-]. split_and!; [done..|]. by eapply validate_not_coverage. }
  apply validate_confined in Ev. destruct (symlink_metadata rel) as [[is_file len]|e]; [|by intros [= <- <-]].
  destruct (negb is_file); [by intros [= <- <-]|]. destruct (_ <? len); [by intros [= <- <-]|].
  destruct (read_limited rel _) as [bs|e] eqn:Er; [|by intros [= <- <-]]. apply Hread in Er.
  destruct (_ <? zlen bs); [by intros [= <- <-]|].
  destruct (decode_text_file _) as [text|] eqn:Ed; [|by intros [= <- <-]].
  apply decode_text_file_scalar in Ed; [|by apply Forall_take].
  case_bool_decide as Ht; intros [= <- <-]; [done|]. split_and!; [done..|].
  split_and!; cbn [ck_data ck_base_line ck_path]; [done| |apply zero_in_range..|done]. by intros ->.
Qed.

Lemma untracked_loop_advanced paths t u t' r :
  0 <= chunk_count t <= git_chunk_count limits ->
  untracked_loop limits respect_default_excludes m paths t = (u, t', r) -> advanced t t' r.
Proof.
  revert t. induction paths as [|rel rest IH]; intros t Ht; cbn [untracked_loop].
  { intros [= <- <- <-]. apply quiet_advanced; [lia|done|done]. }
  destruct (_ && _).
  { intros Hl. apply IH in Hl; [exact Hl|done]. }
  destruct (git_history_cap_status _ _ _) as [cap|] eqn:Ec.
  { destruct (record_git_cap_once _ _ _ _) as [t1 e] eqn:Er. intros [= <- <- <-].
    by eapply cap_once_advanced; [lia|]. }
  apply cap_status_room in Ec.
  destruct (read_untracked_worktree_chunk _ _ rel t) as [t1 r1] eqn:Er. apply read_untracked_ok in Er as (Hc & Hrep & Hr).
  destruct r1 as [[c|]|e].
  - intros [= <- <- <-]. unfold advanced. cbn. rewrite Hrep. unfold saturating_add. split_and!; [lia|lia|done|done].
  - intros Hl. apply IH in Hl; [|lia]. unfold advanced in *. by rewrite <- Hc, <- Hrep.
  - intros [= <- <- <-]. apply quiet_advanced; [lia|done|]. by split.
Qed.

Lemma ls_reads_not_coverage s reads e : ls_reads limits s reads = Err e -> is_coverage (Err e) = false.
Proof.
  revert s. induction reads as [|[d|n] rest IH]; intros s; cbn [ls_reads]; [done| |by intros [= <-]].
  case_bool_decide; [done|apply IH].
Qed.

Lemma decode_paths_not_coverage raw e : decode_paths raw = Err e -> is_coverage (Err e) = false.
Proof.
  induction raw as [|r raw IH]; cbn [decode_paths]; [done|]. destruct (from_utf8 r) as [rel|]; [|by intros [= <-]].
  destruct (validate_untracked_relative_path rel) as [[]|e'] eqn:Ev.
  - destruct (decode_paths raw) as [ps|e']; [done|]. intros [= <-]. by apply IH.
  - intros [= <-]. by eapply validate_not_coverage.
Qed.

Lemma list_untracked_ok t t' r :
  list_untracked_worktree_paths limits t = (t', r) ->
  chunk_count t' = chunk_count t /\ aggregate_cap_reported t' = aggregate_cap_reported t /\
  forall e, r = Err e -> is_coverage (Err e) = false.
Proof.
  unfold list_untracked_worktree_paths. set (w := wait_for_git_child _ _ _).
  assert (Hw : forall e, w = Err e -> is_coverage (Err e) = false) by (intros e; apply wait_not_coverage).
  clearbody w. destruct ls_files as [reads|n].
  2:{ intros [= <- <-]. split_and!; [done..|]. by intros e [= <-]. }
  destruct (ls_reads _ _ reads) as [s|e] eqn:El.
  2:{ intros [= <- <-]. split_and!; [done..|]. intros e' [= <-]. by eapply ls_reads_not_coverage. }
  destruct (_ || _); intros [= <- <-]; (split_and!; [done..|]); intros e He; destruct w as [[]|e']; simplify_eq; try done.
  - by apply Hw.
  - by eapply decode_paths_not_coverage.
  - by apply Hw.
Qed.

Lemma untracked_next_advanced u t u' t' r :
  0 <= chunk_count t <= git_chunk_count limits ->
  untracked_next_row limits respect_default_excludes m u t = (u', t', r) ->
  match r with
  | Ok o => advanced t t' o
  | Err e => advanced t t' (Some (Err e))
  end.
Proof.
  intros Ht. unfold untracked_next_row. destruct (u_stopped u).
  { intros [= <- <- <-]. apply quiet_advanced; [lia|done|done]. }
  destruct (u_paths u) as [paths|].
  { destruct (untracked_loop _ _ _ paths t) as [[u1 t1] r1] eqn:El. intros [= <- <- <-].
    by eapply untracked_loop_advanced. }
  destruct (list_untracked_worktree_paths _ t) as [t1 [paths|e]] eqn:El; apply list_untracked_ok in El as (Hc & Hrep & He).
  - destruct (untracked_loop _ _ _ paths t1) as [[u1 t2] r1] eqn:El. intros [= <- <- <-].
    apply untracked_loop_advanced in El; [|lia]. unfold advanced in *. by rewrite <- Hc, <- Hrep.
  - intros [= <- <- <-]. apply quiet_advanced; [lia|done|]. split; [done|]. split; [by apply He|done].
Qed.

(** ** One call *)

Lemma untracked_row_ok s s' r :
  stream_ok s -> 0 <= chunk_count (d_tally s) <= git_chunk_count limits ->
  untracked_row limits respect_default_excludes m s = (s', r) ->
  stream_ok s' /\ advanced (d_tally s) (d_tally s') r.
Proof.
  intros Hs Ht. unfold untracked_row. destruct (d_untracked s) as [u|].
  2:{ intros [= <- <-]. split; [by destruct Hs|]. apply quiet_advanced; [cbn; lia|done|done]. }
  destruct (untracked_next_row _ _ _ u _) as [[u1 t1] r1] eqn:Er. apply untracked_next_advanced in Er; [|done].
  destruct r1 as [[r1|]|e]; intros [= <- <-]; (split; [by destruct Hs|exact Er]).
Qed.

Lemma diff_end_ok s s' r :
  stream_ok s -> 0 <= chunk_count (d_tally s) < git_chunk_count limits ->
  diff_end limits respect_default_excludes m s = (s', r) ->
  stream_ok s' /\ advanced (d_tally s) (d_tally s') r.
Proof.
  intros Hs Ht. pose proof Hs as [H1 H2 H3 H4 H5]. unfold diff_end.
  assert (Hfin : forall s1, stream_ok s1 -> d_tally s1 = d_tally s ->
    (match wait_for_diff with
     | Ok _ => untracked_row limits respect_default_excludes m (with_untracked s1 (d_untracked s1) (d_tally s1))
     | Err error => (with_done s1, Some (Err error))
     end) = (s', r) -> stream_ok s' /\ advanced (d_tally s) (d_tally s') r).
  { intros s1 Hs1 Ht1. destruct wait_for_diff as [[]|e] eqn:Ew.
    - intros Hu. rewrite <- Ht1 in Ht |- *. apply untracked_row_ok in Hu; [exact Hu|by destruct Hs1|cbn; lia].
    - intros [= <- <-]. split; [by destruct Hs1|]. rewrite <- Ht1 in Ht |- *.
      apply quiet_advanced; [cbn; lia|done|]. split; [done|]. split; [|done]. by eapply wait_not_coverage. }
  destruct (d_path s) as [p|] eqn:Ep; [|by apply Hfin].
  destruct (drain_trimmed_hunk (d_content s)) as [c drained] eqn:Ed.
  destruct (drain_ok _ _ _ H2 Ed) as [-> Htext].
  assert (Hw : stream_ok (with_hunk s (Some p) [] (d_base_line s))).
  { apply with_hunk_ok; [done|by intros ? [= <-]; apply H3|constructor|done]. }
  destruct drained as [text|]; [|by apply Hfin].
  destruct (Htext text eq_refl). intros He. apply emit_chunk_ok in He as (Ho & _ & Hc); try done.
  1: split; [done|by apply counted_advanced].
  all: first [by apply H3|destruct Hw; by split].
Qed.

Lemma trim_line_bytes buf : Forall is_byte buf -> Forall is_byte (trim_diff_line_bytes buf).
Proof.
  assert (Hrm : forall l, Forall is_byte l -> Forall is_byte (removelast l)).
  { intros l Hl. destruct (decide (l = [])) as [->|Hne]; [done|]. destruct (exists_last Hne) as (l' & x & ->).
    rewrite removelast_last. by apply Forall_app in Hl as [? _]. }
  intros Hb. unfold trim_diff_line_bytes. repeat case_match; auto.
Qed.

Lemma diff_loop_ok fuel s :
  stream_ok s -> 0 <= chunk_count (d_tally s) < git_chunk_count limits -> (reader_size (d_reader s) < fuel)%nat ->
  exists s' r, diff_loop limits respect_default_excludes m fuel s = Some (s', r) /\
    stream_ok s' /\ advanced (d_tally s) (d_tally s') r.
Proof.
  revert s. induction fuel as [|fuel IH]; intros s Hs Ht Hf; [lia|]. cbn [diff_loop].
  destruct (read_capped_line (d_reader s) (git_line_bytes limits)) as [[reader buf] record] eqn:Er.
  pose proof (read_record_progress _ _ _ _ _ _ _ _ (so_reader _ Hs) (Forall_nil_2 _) Er) as (Hrd & Hbuf & Hprog).
  assert (Hw : stream_ok (with_reader s reader)) by (by destruct Hs).
  destruct record as [record|e].
  2:{ eexists _, _. split; [done|]. split; [by destruct Hw|]. apply quiet_advanced; [cbn; lia|done|done]. }
  destruct (_ <? cr_content record) eqn:Ecap.
  { eexists _, _. split; [done|]. split; [by destruct Hw|]. apply quiet_advanced; [cbn; lia|done|done]. }
  destruct (0 <? cr_consumed record) eqn:Ec.
  - destruct (diff_line _ _ _ (with_reader s reader) (trim_diff_line_bytes buf)) as [s1 r1] eqn:El.
    apply diff_line_ok in El as (Hs1 & Hr1 & Hc1); [|done|by apply trim_line_bytes].
    destruct r1 as [r1|].
    + eexists _, _. split; [done|]. split; [done|]. by apply counted_advanced.
    + destruct Hc1 as [Hrep Hcnt]. cbn in Hrep, Hcnt, Hr1.
      destruct (IH s1) as (s' & r & Hl & Hs' & Ha); [done|by rewrite Hcnt| |].
      * rewrite Hr1. destruct Hprog as [Hlt|(_ & _ & Heq)]; [lia|]. injection Heq as ->. cbn in Ec. lia.
      * exists s', r. split; [done|]. split; [done|]. unfold advanced in *. by rewrite <- Hcnt, <- Hrep.
  - destruct (diff_end _ _ _ (with_reader s reader)) as [s1 r1] eqn:Ee. apply diff_end_ok in Ee as [Hs1 Ha]; [|done|done].
    by exists s1, r1.
Qed.

Lemma diff_next_ok s :
  stream_ok s -> 0 <= chunk_count (d_tally s) <= git_chunk_count limits ->
  exists s' r, diff_next limits respect_default_excludes m s = Some (s', r) /\
    stream_ok s' /\ advanced (d_tally s) (d_tally s') r.
Proof.
  intros Hs Ht. unfold diff_next.
  assert (Hgo : forall s1, stream_ok s1 -> d_tally s1 = d_tally s -> exists s' r,
    match pop_pending s1 with
    | (s, Some row) => Some (s, Some row)
    | (s, None) =>
        if d_emit_untracked s then Some (untracked_row limits respect_default_excludes m s)
        else if d_done s then Some (s, None)
        else
          match git_history_cap_status (total_bytes (d_tally s)) (chunk_count (d_tally s)) limits with
          | Some cap =>
              let '(t, error) := record_git_cap_once cap (d_tally s) $"git diff source" $"remaining changed lines" in
              Some (with_done (with_tally s t), Err <$> error)
          | None => diff_loop limits respect_default_excludes m (S (reader_size (d_reader s))) s
          end
    end = Some (s', r) /\ stream_ok s' /\ advanced (d_tally s) (d_tally s') r).
  { intros s1 Hs1 Ht1. rewrite <- Ht1 in Ht |- *.
    destruct (pop_pending s1) as [s2 [r2|]] eqn:Ep; pose proof Ep as Ep'; apply pop_pending_ok in Ep as (Hs2 & _ & Hc2); try done.
    { eexists _, _. split; [done|]. split; [done|]. apply quiet_advanced; [lia| |done].
      unfold pop_pending in Ep'. destruct (d_pending s1); by simplify_eq. }
    assert (s2 = s1) as -> by (unfold pop_pending in Ep'; destruct (d_pending s1); by simplify_eq).
    destruct (d_emit_untracked s1).
    { destruct (untracked_row _ _ _ s1) as [s3 r3] eqn:Eu. apply untracked_row_ok in Eu as [? ?]; [|done..]. by eexists _, _. }
    destruct (d_done s1). { eexists _, _. split; [done|]. split; [done|]. apply quiet_advanced; [lia|done|done]. }
    destruct (git_history_cap_status _ _ _) as [cap|] eqn:Ecap.
    - destruct (record_git_cap_once _ _ _ _) as [t e] eqn:Er. eexists _, _. split; [done|]. split; [by destruct Hs1|].
      cbn [with_done with_tally d_tally]. by eapply cap_once_advanced; [lia|].
    - apply cap_status_room in Ecap. apply diff_loop_ok; [done|lia|lia]. }
  destruct (d_wait s); [|by apply Hgo]. destruct wait_for_diff as [[]|e] eqn:Ew.
  - by apply Hgo; [destruct Hs|].
  - eexists _, _. split; [done|]. split; [by destruct Hs|]. apply quiet_advanced; [cbn; lia|done|].
    split; [done|]. split; [|done]. by eapply wait_not_coverage.
Qed.

Definition rows_ok (rows : list row) : Z := zlen (List.filter (fun r => match r with Ok _ => true | Err _ => false end) rows).
Definition rows_coverage (rows : list row) : Z := zlen (List.filter is_coverage rows).

Lemma diff_rows_ok n s :
  stream_ok s -> 0 <= chunk_count (d_tally s) <= git_chunk_count limits ->
  exists rows s', diff_rows limits respect_default_excludes m n s = Some (rows, s') /\
    chunk_count (d_tally s) + rows_ok rows <= git_chunk_count limits /\
    rows_coverage rows <= (if aggregate_cap_reported (d_tally s) then 0 else 1) /\
    Forall (fun r => match r with Ok c => chunk_ok c | Err _ => True end) rows.
Proof.
  revert s. induction n as [|n IH]; intros s Hs Ht; cbn [diff_rows].
  { eexists _, _. split; [done|]. unfold rows_ok, rows_coverage, zlen. cbn. split_and!; [lia|case_match; lia|constructor]. }
  destruct (diff_next_ok s Hs Ht) as (s1 & r & -> & Hs1 & Hc & Hcap & Hrep & Hr). unfold ok_rows in Hc.
  destruct r as [r|].
  2:{ eexists _, _. split; [done|]. unfold rows_ok, rows_coverage, zlen. cbn. split_and!; [lia|case_match; lia|constructor]. }
  destruct (IH s1) as (rows & s2 & -> & Hok & Hcov & Hall); [done|destruct r; lia|].
  eexists _, _. split; [done|]. unfold rows_ok, rows_coverage, zlen in *. cbn [List.filter].
  destruct r as [c|e]; [cbn [is_coverage]|destruct (is_coverage (Err e)) eqn:Ee; [destruct (Hr eq_refl) as [Hf Ht']|]]; cbn [length].
  - split_and!; [lia| |by constructor]. destruct (aggregate_cap_reported (d_tally s)); [by rewrite Hrep in Hcov|].
    destruct (aggregate_cap_reported (d_tally s1)); lia.
  - rewrite Ht' in Hcov. rewrite Hf. split_and!; [lia|lia|by constructor].
  - split_and!; [lia| |by constructor]. destruct (aggregate_cap_reported (d_tally s)); [by rewrite Hrep in Hcov|].
    destruct (aggregate_cap_reported (d_tally s1)); lia.
Qed.
End runs.

Lemma stream_start_ok reader u : Forall fill_ok reader -> stream_ok (stream_start reader u).
Proof. intros Hr. split; [done|apply Forall_nil_2|done|apply zero_in_range|apply Forall_nil_2]. Qed.

(** C25. Whatever the children print, however the reads fail and whatever the
    untracked files hold, pulling the iterator any number of times returns, with
    at most as many chunks as the chunk cap allows and at most one report of a
    reached cap. *)
Theorem diff_pulls_bounded `{GitWorld} (limits : SourceLimits) (respect : bool) (m : CommitMetadata)
    (reader : list fill) (u : option UntrackedWorktreeChunks) (n : nat) :
  (forall rel k bs, read_limited rel k = Ok bs -> Forall is_byte bs) ->
  0 <= git_chunk_count limits <= usize_max -> Forall fill_ok reader ->
  exists rows s, diff_rows limits respect m n (stream_start reader u) = Some (rows, s) /\
    rows_ok rows <= git_chunk_count limits /\ rows_coverage rows <= 1.
Proof.
  intros Hread Hcount Hr.
  destruct (diff_rows_ok limits respect m Hread Hcount n _ (stream_start_ok reader u Hr)) as (rows & s & Hd & Hok & Hcov & _).
  { cbn. lia. }
  exists rows, s. split_and!; [done|cbn in Hok; lia|done].
Qed.

(** C26. Every chunk of every run is well formed: non-empty text of scalar values,
    a base line that fits a machine word, and a relative path that does not
    leave the repository. *)
Theorem diff_chunks_well_formed `{GitWorld} (limits : SourceLimits) (respect : bool) (m : CommitMetadata)
    (reader : list fill) (u : option UntrackedWorktreeChunks) (n : nat) (rows : list row) (s : DiffStream) (c : GitChunk) :
  (forall rel k bs, read_limited rel k = Ok bs -> Forall is_byte bs) ->
  0 <= git_chunk_count limits <= usize_max -> Forall fill_ok reader ->
  diff_rows limits respect m n (stream_start reader u) = Some (rows, s) -> Ok c ∈ rows -> chunk_ok c.
Proof.
  intros Hread Hcount Hr Hd Hin.
  destruct (diff_rows_ok limits respect m Hread Hcount n _ (stream_start_ok reader u Hr)) as (rows' & s' & Hd' & _ & _ & Hall).
  { cbn. lia. }
  simplify_eq. rewrite Forall_forall in Hall. exact (Hall _ Hin).
Qed.

(** ** A work tree with one untracked file *)

Definition untracked_world : GitWorld := {|
  diff_exit := ExitSuccess;
  ls_files := Ok [Ok ($"new.txt" ++ [0])];
  ls_exit := ExitSuccess;
  symlink_metadata := fun _ => Ok (true, 4);
  read_limited := fun _ _ => Ok $"key=";
  exclude_rules := sample_policy |}.

#[export] Instance fill_ok_dec f : Decision (fill_ok f).
Proof. destruct f; cbn; apply _. Defined.

Lemma diff_pulls_bounded_witness :
  exists rows s,
    @diff_rows untracked_world sample_limits true sample_commit 7
      (stream_start [Data $"diff --git a b"; Interrupted; Failed 5] (Some untracked_new)) = Some (rows, s) /\
    rows_ok rows <= git_chunk_count sample_limits /\ rows_coverage rows <= 1.
Proof.
  apply (@diff_pulls_bounded untracked_world sample_limits true sample_commit); [|by_decision..].
  intros rel k bs [= <-]. by_decision.
Defined.

Lemma diff_chunks_well_formed_witness :
  chunk_ok (mkGitChunk $"key=" 0 $"git-diff" $"new.txt" $"c0ffee" $"dev" $"2026-01-01" (Some 4)).
Proof.
  eapply (@diff_chunks_well_formed untracked_world sample_limits true sample_commit [] (Some untracked_new) 7).
  - intros rel k bs [= <-]. by_decision.
  - by_decision.
  - by_decision.
  - vm_compute. reflexivity.
  - left.
Defined.
