(* ===== verification/StrOffsets.v ===== *)
(** * Byte offsets into a string

    [str::is_char_boundary], [str::char_indices], slicing and
    [String::replace_range] of the standard library, and the boundary searches
    of [crates/scanner/src/engine/windowed_support.rs].  An offset counts
    bytes; cutting a string between the bytes of a character panics. *)

From S2P Require Import Prelude Utf8.

(** ** Cutting at an offset *)

Definition len_utf8 (c : Z) : Z := zlen (utf8_char c).

(** The two parts at the byte offset [n], when [n] is a boundary. *)
Fixpoint split_at_byte (s : str) (n : Z) : option (str * str) :=
  if n =? 0 then Some ([], s)
  else match s with
       | [] => None
       | c :: s' =>
           if n <? len_utf8 c then None
           else match split_at_byte s' (n - len_utf8 c) with
                | Some (a, b) => Some (c :: a, b)
                | None => None
                end
       end.

Definition is_boundary (s : str) (n : Z) : bool :=
  match split_at_byte s n with Some _ => true | None => false end.

(** [&s[a..b]] *)
Definition str_slice (s : str) (a b : Z) : outcome str :=
  if b <? a then Panic
  else match split_at_byte s b with
       | None => Panic
       | Some (front, _) =>
           match split_at_byte front a with Some (_, mid) => Ret mid | None => Panic end
       end.

(** [String::replace_range(a..b, with)] *)
Definition replace_range (s : str) (a b : Z) (w : str) : outcome str :=
  if b <? a then Panic
  else match split_at_byte s b with
       | None => Panic
       | Some (front, back) =>
           match split_at_byte front a with Some (pre, _) => Ret (pre ++ w ++ back) | None => Panic end
       end.

(** [text.char_indices()], the first character being at offset [i]. *)
Fixpoint char_indices_from (i : Z) (s : str) : list (Z * Z) :=
  match s with
  | [] => []
  | c :: s' => (i, c) :: char_indices_from (i + len_utf8 c) s'
  end.

Definition char_indices (s : str) : list (Z * Z) := char_indices_from 0 s.

(** [while i > 0 && !text.is_char_boundary(i) { i -= 1; }] *)
Fixpoint floor_loop (s : str) (i : nat) : Z :=
  match i with
  | O => 0
  | S i' => if negb (is_boundary s (Z.of_nat i)) then floor_loop s i' else Z.of_nat i
  end.

Definition floor_char_boundary (s : str) (index : Z) : Z :=
  if str_len s <=? index then str_len s else floor_loop s (Z.to_nat index).

(** [while i < text.len() && !text.is_char_boundary(i) { i += 1; }]; the fuel is
    what is left of the string. *)
Fixpoint ceil_loop (fuel : nat) (s : str) (i : Z) : Z :=
  match fuel with
  | O => i
  | S fuel' => if (i <? str_len s) && negb (is_boundary s i) then ceil_loop fuel' s (i + 1) else i
  end.

Definition ceil_char_boundary (s : str) (index : Z) : Z :=
  if str_len s <=? index then str_len s else ceil_loop (Z.to_nat (str_len s - index)) s index.

(** ** Lengths *)

Lemma len_utf8_bounds c : 1 <= len_utf8 c <= 4.
Proof. unfold len_utf8, utf8_char, zlen. repeat case_match; cbn; lia. Qed.

Lemma len_utf8_ascii c : c < 128 -> len_utf8 c = 1.
Proof. intros Hc. unfold len_utf8, utf8_char. by rewrite (proj2 (Z.ltb_lt c 0x80) Hc). Qed.

Lemma str_len_nil : str_len [] = 0.
Proof. done. Qed.

Lemma str_len_cons c s : str_len (c :: s) = len_utf8 c + str_len s.
Proof. unfold str_len, as_bytes, len_utf8, zlen. cbn [map concat]. rewrite length_app. lia. Qed.

Lemma str_len_snoc s c : str_len (s ++ [c]) = str_len s + len_utf8 c.
Proof. rewrite str_len_app, str_len_cons, str_len_nil. lia. Qed.

Lemma str_len_0 s : str_len s = 0 -> s = [].
Proof.
  destruct s as [|c s]; [done|]. rewrite str_len_cons.
  pose proof (len_utf8_bounds c). pose proof (str_len_nonneg s). lia.
Qed.

(** ** Where a string can be cut *)

Lemma split_at_byte_app s t : split_at_byte (s ++ t) (str_len s) = Some (s, t).
Proof.
  induction s as [|c s IH]; [by destruct t|]. rewrite <- app_comm_cons, str_len_cons. cbn [split_at_byte].
  pose proof (len_utf8_bounds c). pose proof (str_len_nonneg s).
  rewrite (proj2 (Z.eqb_neq _ _)), (proj2 (Z.ltb_ge _ _)) by lia.
  replace (len_utf8 c + str_len s - len_utf8 c) with (str_len s) by lia. by rewrite IH.
Qed.

Lemma split_at_byte_Some s n a b : split_at_byte s n = Some (a, b) <-> s = a ++ b /\ n = str_len a.
Proof.
  split; [|intros [-> ->]; apply split_at_byte_app].
  revert n a b. induction s as [|c s IH]; intros n a b; cbn [split_at_byte].
  - case_match; [intros [= <- <-]; split; [done|]; rewrite str_len_nil; lia|done].
  - case_match; [intros [= <- <-]; split; [done|]; rewrite str_len_nil; lia|].
    case_match; [done|]. destruct (split_at_byte s (n - len_utf8 c)) as [[a' b']|] eqn:E; [|done].
    intros [= <- <-]. apply IH in E as [-> E]. split; [done|]. rewrite str_len_cons. lia.
Qed.

Lemma is_boundary_spec s n : is_boundary s n = true <-> exists a b, s = a ++ b /\ n = str_len a.
Proof.
  unfold is_boundary. split.
  - destruct (split_at_byte s n) as [[a b]|] eqn:E; [|done]. apply split_at_byte_Some in E. eauto.
  - intros (a & b & -> & ->). by rewrite split_at_byte_app.
Qed.

Lemma is_boundary_app a b : is_boundary (a ++ b) (str_len a) = true.
Proof. apply is_boundary_spec. eauto. Qed.

Lemma is_boundary_end s : is_boundary s (str_len s) = true.
Proof. rewrite <- (app_nil_r s) at 1. apply is_boundary_app. Qed.

(** Two cuts of one string are nested. *)
Lemma cuts_nested (a b c d : str) : a ++ b = c ++ d -> str_len a <= str_len c -> exists m, c = a ++ m /\ b = m ++ d.
Proof.
  revert c. induction a as [|x a IH]; intros c Heq Hle; [by exists c|].
  destruct c as [|y c].
  - pose proof (str_len_nonneg a). pose proof (len_utf8_bounds x). rewrite str_len_cons, str_len_nil in Hle. lia.
  - injection Heq as -> Heq. rewrite !str_len_cons in Hle. destruct (IH c Heq) as (m & -> & ->); [lia|]. by exists m.
Qed.

Lemma cut_unique (a b c d : str) : a ++ b = c ++ d -> str_len a = str_len c -> a = c /\ b = d.
Proof.
  intros Heq Hl. destruct (cuts_nested _ _ _ _ Heq) as (m & -> & ->); [lia|].
  rewrite str_len_app in Hl. rewrite (str_len_0 m) by lia. by rewrite app_nil_r.
Qed.

Lemma str_slice_app a m b : str_slice (a ++ m ++ b) (str_len a) (str_len (a ++ m)) = Ret m.
Proof.
  unfold str_slice. rewrite (proj2 (Z.ltb_ge _ _)) by (rewrite str_len_app; pose proof (str_len_nonneg m); lia).
  by rewrite app_assoc, split_at_byte_app, split_at_byte_app.
Qed.

Lemma replace_range_app a m b w : replace_range (a ++ m ++ b) (str_len a) (str_len (a ++ m)) w = Ret (a ++ w ++ b).
Proof.
  unfold replace_range. rewrite (proj2 (Z.ltb_ge _ _)) by (rewrite str_len_app; pose proof (str_len_nonneg m); lia).
  by rewrite app_assoc, split_at_byte_app, split_at_byte_app.
Qed.

(** A span of a string, as the parts it cuts the string into. *)
Definition span_of (s : str) (a b : Z) (m : str) : Prop :=
  exists pre post, s = pre ++ m ++ post /\ a = str_len pre /\ b = str_len (pre ++ m).

Lemma str_slice_span s a b m : span_of s a b m -> str_slice s a b = Ret m.
Proof. intros (pre & post & -> & -> & ->). apply str_slice_app. Qed.

Lemma boundaries_span s a b :
  is_boundary s a = true -> is_boundary s b = true -> a <= b -> exists m, span_of s a b m.
Proof.
  intros (p & q & Hs & ->)%is_boundary_spec (p' & q' & Hs' & ->)%is_boundary_spec Hle.
  rewrite Hs in Hs'. destruct (cuts_nested _ _ _ _ Hs' Hle) as (m & -> & ->).
  exists m, p, q'. done.
Qed.

Lemma span_of_bounds s a b m : span_of s a b m -> 0 <= a <= b /\ b <= str_len s /\ b - a = str_len m.
Proof.
  intros (p & q & -> & -> & ->). rewrite !str_len_app.
  pose proof (str_len_nonneg p). pose proof (str_len_nonneg m). pose proof (str_len_nonneg q). lia.
Qed.

Lemma span_of_boundaries s a b m : span_of s a b m -> is_boundary s a = true /\ is_boundary s b = true.
Proof.
  intros (p & q & -> & -> & ->). split; [apply is_boundary_app|].
  rewrite app_assoc. apply is_boundary_app.
Qed.

(** ** The boundary searches *)

Lemma boundary_near s n : 0 <= n <= str_len s ->
  exists lo hi, is_boundary s lo = true /\ is_boundary s hi = true /\ n - 3 <= lo <= n /\ n <= hi <= n + 3.
Proof.
  revert n. induction s as [|c s IH]; intros n Hn.
  - rewrite str_len_nil in Hn. assert (n = 0) as -> by lia. exists 0, 0. split_and!; done || lia.
  - rewrite str_len_cons in Hn. pose proof (len_utf8_bounds c) as Hc.
    assert (forall k, is_boundary s k = true -> is_boundary (c :: s) (len_utf8 c + k) = true) as Hshift.
    { intros k (a & b & -> & ->)%is_boundary_spec. rewrite <- str_len_cons. apply (is_boundary_app (c :: a)). }
    destruct (decide (n < len_utf8 c)) as [Hlt|Hge].
    + destruct (decide (n = 0)) as [-> |]; [exists 0, 0; split_and!; done || lia|].
      exists 0, (len_utf8 c + 0). split_and!; [done| |lia..]. apply Hshift. by destruct s.
    + destruct (IH (n - len_utf8 c)) as (lo & hi & Hlo & Hhi & ? & ?); [lia|].
      exists (len_utf8 c + lo), (len_utf8 c + hi). split_and!; [by apply Hshift..|lia|lia|lia|lia].
Qed.

Lemma floor_loop_spec s i :
  is_boundary s (floor_loop s i) = true /\ floor_loop s i <= Z.of_nat i /\
  forall b, is_boundary s b = true -> b <= Z.of_nat i -> b <= floor_loop s i.
Proof.
  induction i as [|i (IH1 & IH2 & IH3)]; cbn [floor_loop]; [split_and!; [by destruct s|done|lia]|].
  destruct (is_boundary s (Z.of_nat (S i))) eqn:E; cbn [negb]; [split_and!; [done|lia|lia]|].
  split_and!; [done|lia|]. intros b Hb Hle. apply IH3; [done|].
  destruct (decide (b = Z.of_nat (S i))) as [-> |]; [congruence|lia].
Qed.

Lemma floor_char_boundary_spec s n : 0 <= n ->
  is_boundary s (floor_char_boundary s n) = true /\ Z.min n (str_len s) - 3 <= floor_char_boundary s n <= Z.min n (str_len s).
Proof.
  intros Hn. unfold floor_char_boundary. case_match; [split; [apply is_boundary_end|lia]|].
  destruct (floor_loop_spec s (Z.to_nat n)) as (H1 & H2 & H3).
  destruct (boundary_near s n) as (lo & _ & Hlo & _ & ? & _); [lia|].
  pose proof (H3 lo Hlo). split; [done|lia].
Qed.

Lemma ceil_loop_spec fuel s i : i + Z.of_nat fuel = str_len s ->
  is_boundary s (ceil_loop fuel s i) = true /\ i <= ceil_loop fuel s i /\
  forall b, is_boundary s b = true -> i <= b -> ceil_loop fuel s i <= b.
Proof.
  revert i. induction fuel as [|fuel IH]; intros i Hi; cbn [ceil_loop].
  - replace i with (str_len s) by lia. split_and!; [apply is_boundary_end|lia|lia].
  - destruct (is_boundary s i) eqn:E; cbn [negb]; rewrite ?andb_false_r, ?andb_true_r; [split_and!; [done|lia|lia]|].
    rewrite (proj2 (Z.ltb_lt _ _)) by lia. destruct (IH (i + 1)) as (H1 & H2 & H3); [lia|].
    split_and!; [done|lia|]. intros b Hb Hle. apply H3; [done|].
    destruct (decide (b = i)) as [-> |]; [congruence|lia].
Qed.

Lemma ceil_char_boundary_spec s n : 0 <= n ->
  is_boundary s (ceil_char_boundary s n) = true /\ Z.min n (str_len s) <= ceil_char_boundary s n <= Z.min (n + 3) (str_len s).
Proof.
  intros Hn. unfold ceil_char_boundary. case_match; [split; [apply is_boundary_end|lia]|].
  destruct (ceil_loop_spec (Z.to_nat (str_len s - n)) s n) as (H1 & H2 & H3); [lia|].
  destruct (boundary_near s n) as (_ & hi & _ & Hhi & _ & ?); [lia|].
  pose proof (H3 hi Hhi). pose proof (H3 _ (is_boundary_end s)). split; [done|lia].
Qed.
