(* ===== verification/DecodeExtract.v ===== *)
(** * Candidate extraction ([crates/scanner/src/decode/pipeline/extractor.rs])

    One pass over a chunk collects what a decoder may try: quoted strings,
    values of assignments, runs of the base64 alphabet and runs of percent
    escapes, each with the span of the chunk it came from. *)

From S2P Require Import Prelude Utf8 StrOffsets.

(** ** Candidates and accumulators *)

Record ExtractedValue := mkExtracted { ev_value : str; ev_start : Z; ev_end : Z }.

(** The locals of the pass: the candidates so far, the pending base64 block and
    the pending percent run.  Interning keeps a value's content, so a value is
    its content. *)
Record extract_state := mkExtract {
  values : list ExtractedValue;
  b64_block : str; b64_start : option Z; b64_end : Z;
  pct_block : str; pct_start : option Z; pct_end : Z; pct_percent_count : Z }.

Definition MIN_B64_BLOCK_LEN : Z := 16.
Definition MIN_EXTRACTED_VALUE_LEN : Z := 4.
Definition MIN_PCT_TRIPLETS : Z := 1.
Definition MIN_BASE64_CANDIDATE_LEN : Z := 12.

Definition is_base64_candidate_byte (b : Z) : bool :=
  is_ascii_alphanumeric b || existsb (fun x => b =? x) [43; 47; 61; 45; 95].

Definition is_b64_char (ch : Z) : bool := (ch <? 128) && is_base64_candidate_byte ch.
Definition is_pct_run_char (ch : Z) : bool := (ch =? 37) || is_ascii_hexdigit ch.
Definition is_quote (ch : Z) : bool := (ch =? 34) || (ch =? 39) || (ch =? 96).
Definition get_or_insert (o : option Z) (z : Z) : option Z := Some (default z o).

Definition with_values (st : extract_state) (vs : list ExtractedValue) : extract_state :=
  mkExtract vs (b64_block st) (b64_start st) (b64_end st) (pct_block st) (pct_start st) (pct_end st) (pct_percent_count st).

Definition with_b64 (st : extract_state) (block : str) (start : option Z) (end_ : Z) : extract_state :=
  mkExtract (values st) block start end_ (pct_block st) (pct_start st) (pct_end st) (pct_percent_count st).

Definition with_pct (st : extract_state) (block : str) (start : option Z) (end_ count : Z) : extract_state :=
  mkExtract (values st) (b64_block st) (b64_start st) (b64_end st) block start end_ count.

Definition flush_b64 (st : extract_state) : extract_state :=
  if MIN_B64_BLOCK_LEN <=? str_len (b64_block st) then
    match b64_start st with
    | Some start =>
        with_b64 (with_values st (values st ++ [mkExtracted (b64_block st) start (b64_end st)])) [] None (b64_end st)
    | None => with_b64 st [] None (b64_end st)
    end
  else with_b64 st [] None (b64_end st).

Definition flush_pct (st : extract_state) : extract_state :=
  if (MIN_PCT_TRIPLETS * 3 <=? str_len (pct_block st)) && (MIN_PCT_TRIPLETS <=? pct_percent_count st) then
    match pct_start st with
    | Some start =>
        with_pct (with_values st (values st ++ [mkExtracted (pct_block st) start (pct_end st)])) [] None (pct_end st) 0
    | None => with_pct st [] None (pct_end st) 0
    end
  else with_pct st [] None (pct_end st) 0.

(** ** Base64 runs inside a container *)

Fixpoint subruns_loop (text : str) (container_start container_end index : Z) (run_start : option Z)
    (vs : list ExtractedValue) (bs : bytes) : outcome (list ExtractedValue) :=
  match bs with
  | [] =>
      match run_start with
      | Some start =>
          if (MIN_B64_BLOCK_LEN <=? saturating_sub container_end start) && negb (start =? container_start) then
            let! run := str_slice text start container_end in
            Ret (vs ++ [mkExtracted run start container_end])
          else Ret vs
      | None => Ret vs
      end
  | byte :: rest =>
      if is_base64_candidate_byte byte then
        subruns_loop text container_start container_end (index + 1) (get_or_insert run_start index) vs rest
      else
        match run_start with
        | Some start =>
            if (MIN_B64_BLOCK_LEN <=? saturating_sub index start) &&
               (negb (start =? container_start) || negb (index =? container_end)) then
              let! run := str_slice text start index in
              subruns_loop text container_start container_end (index + 1) None (vs ++ [mkExtracted run start index]) rest
            else subruns_loop text container_start container_end (index + 1) None vs rest
        | None => subruns_loop text container_start container_end (index + 1) None vs rest
        end
  end.

Definition push_b64_subruns (vs : list ExtractedValue) (text : str) (container_start container_end : Z) :
    outcome (list ExtractedValue) :=
  let! container := str_slice text container_start container_end in
  if starts_with $"=?" container && ends_with $"?=" container then Ret vs
  else
    subruns_loop text container_start container_end container_start None vs
      (take (Z.to_nat (container_end - container_start)) (drop (Z.to_nat container_start) (as_bytes text))).

(** ** Quoted strings and assignments *)

(** The loop after an opening quote; it returns the characters left. *)
Fixpoint quoted_loop (text : str) (quote : Z) (escaping : bool) (cleaned : str) (value_start : option Z) (value_end : Z)
    (vs : list ExtractedValue) (chars : list (Z * Z)) : outcome (list ExtractedValue * list (Z * Z)) :=
  match chars with
  | [] => Ret (vs, [])
  | (current_idx, current) :: rest =>
      if escaping then
        quoted_loop text quote false (cleaned ++ [92; current])
          (get_or_insert value_start (saturating_sub current_idx 1)) (current_idx + len_utf8 current) vs rest
      else if current =? 92 then
        quoted_loop text quote true cleaned (get_or_insert value_start current_idx) (current_idx + len_utf8 current) vs rest
      else if current =? quote then
        if MIN_EXTRACTED_VALUE_LEN <=? str_len cleaned then
          match value_start with
          | Some start =>
              let! vs := push_b64_subruns vs text start value_end in
              Ret (vs ++ [mkExtracted cleaned start value_end], rest)
          | None => Ret (vs, rest)
          end
        else Ret (vs, rest)
      else if negb (is_ascii_whitespace current) then
        quoted_loop text quote false (cleaned ++ [current]) (get_or_insert value_start current_idx)
          (current_idx + len_utf8 current) vs rest
      else quoted_loop text quote false cleaned value_start value_end vs rest
  end.

Fixpoint skip_whitespace (chars : list (Z * Z)) : list (Z * Z) :=
  match chars with
  | (_, c) :: rest => if is_ascii_whitespace c then skip_whitespace rest else chars
  | [] => []
  end.

Definition ends_assigned_value (c : Z) : bool :=
  is_ascii_whitespace c || (c =? 59) || (c =? 44) || is_quote c.

Fixpoint assigned_loop (value_start : option Z) (value_end : Z) (chars : list (Z * Z)) : option Z * Z * list (Z * Z) :=
  match chars with
  | [] => (value_start, value_end, [])
  | (current_idx, c) :: rest =>
      if ends_assigned_value c then (value_start, value_end, chars)
      else assigned_loop (get_or_insert value_start current_idx) (current_idx + len_utf8 c) rest
  end.

Definition default_impossible (prune_default_impossible : bool) (value : str) : bool :=
  prune_default_impossible && (str_len value <? MIN_BASE64_CANDIDATE_LEN) &&
  forallb is_ascii_alphanumeric (as_bytes value).

Definition equals_is_base64_padding (text : str) (idx ch : Z) (block : str) : bool :=
  (ch =? 61) && (MIN_B64_BLOCK_LEN <=? str_len block) &&
  match as_bytes text !! Z.to_nat (idx + 1) with
  | None => str_len block mod 4 =? 3
  | Some next =>
      if next =? 61 then str_len block mod 4 =? 2
      else if negb (is_base64_candidate_byte next) then str_len block mod 4 =? 3
      else false
  end.

(** The value of an assignment, from the delimiter on. *)
Definition assigned_value (prune : bool) (text : str) (st : extract_state) (idx ch : Z) (rest : list (Z * Z)) :
    outcome (extract_state * list (Z * Z)) :=
  let '(value_start, value_end, rest) := assigned_loop None (idx + len_utf8 ch) (skip_whitespace rest) in
  match value_start with
  | Some start =>
      let! value := str_slice text start value_end in
      if (MIN_EXTRACTED_VALUE_LEN <=? str_len value) && negb (default_impossible prune value) then
        let! vs := push_b64_subruns (values st) text start value_end in
        Ret (with_values st (vs ++ [mkExtracted value start value_end]), rest)
      else Ret (st, rest)
  | None => Ret (st, rest)
  end.

(** The base64 accumulator at the end of a turn. *)
Definition accumulate_b64 (st : extract_state) (idx ch : Z) : extract_state :=
  if is_b64_char ch then
    with_b64 st (b64_block st ++ [ch]) (get_or_insert (b64_start st) idx) (idx + len_utf8 ch)
  else if (ch =? 13) || (ch =? 10) then
    if ends_with [61] (b64_block st) then flush_b64 st else st
  else flush_b64 st.

(** ** The pass *)

(** A turn of [while let Some(&(idx, ch)) = chars.peek()]. *)
Definition extract_turn (prune : bool) (text : str) (st : extract_state) (idx ch : Z) (rest : list (Z * Z)) :
    outcome (extract_state * list (Z * Z)) :=
  if is_quote ch then
    let st := flush_pct (flush_b64 st) in
    let! (vs, rest) := quoted_loop text ch false [] None (idx + len_utf8 ch) (values st) rest in
    Ret (with_values st vs, rest)
  else if equals_is_base64_padding text idx ch (b64_block st) then
    Ret (with_b64 st (b64_block st ++ [ch]) (b64_start st) (idx + len_utf8 ch), rest)
  else if (ch =? 58) || (ch =? 61) then assigned_value prune text (flush_pct (flush_b64 st)) idx ch rest
  else if is_pct_run_char ch && negb (bool_decide (pct_block st = []) && negb (ch =? 37)) then
    Ret (with_pct st (pct_block st ++ [ch]) (get_or_insert (pct_start st) idx) (idx + len_utf8 ch)
           (if ch =? 37 then pct_percent_count st + 1 else pct_percent_count st), rest)
  else
    let st := if negb (is_pct_run_char ch) && negb (bool_decide (pct_block st = [])) then flush_pct st else st in
    Ret (accumulate_b64 st idx ch, rest).

(** A turn consumes a character, so the length of the text is enough fuel;
    running out is [Panic]. *)
Fixpoint extract_loop (fuel : nat) (prune : bool) (text : str) (st : extract_state) (chars : list (Z * Z)) :
    outcome extract_state :=
  match chars with
  | [] => Ret st
  | (idx, ch) :: rest =>
      match fuel with
      | O => Panic
      | S fuel' =>
          let! (st, rest) := extract_turn prune text st idx ch rest in
          extract_loop fuel' prune text st rest
      end
  end.

Definition extract_encoded_value_spans_raw (text : str) (prune_default_impossible : bool) : outcome (list ExtractedValue) :=
  let! st := extract_loop (length text) prune_default_impossible text (mkExtract [] [] None 0 [] None 0 0) (char_indices text) in
  Ret (values (flush_pct (flush_b64 st))).

(** ** Candidates lie in the text *)

(** [v] is read off, in order, from the span of [text] between [a] and [b]. *)
Definition candidate_span (text v : str) (a b : Z) : Prop :=
  exists m, span_of text a b m /\ m <> [] /\ v `sublist_of` m.

Definition well_placed (text : str) (v : ExtractedValue) : Prop :=
  candidate_span text (ev_value v) (ev_start v) (ev_end v).

(** A value under construction when the prefix [pre] of the text is consumed. *)
Definition pending (text pre v : str) (start : option Z) (end_ : Z) : Prop :=
  match start with
  | None => v = []
  | Some a => candidate_span text v a end_ /\ end_ <= str_len pre
  end.

Lemma candidate_widen text v a b pre c suf :
  candidate_span text v a b -> b <= str_len pre -> text = pre ++ c :: suf ->
  candidate_span text v a (str_len pre + len_utf8 c) /\ candidate_span text (v ++ [c]) a (str_len pre + len_utf8 c).
Proof.
  intros (m & (p & q & Ht & -> & ->) & Hm & Hv) Hle Htext. rewrite Htext, app_assoc in Ht.
  destruct (cuts_nested (p ++ m) q pre (c :: suf) (eq_sym Ht) Hle) as (g & -> & ->).
  assert (span_of text (str_len p) (str_len ((p ++ m) ++ g) + len_utf8 c) ((m ++ g) ++ [c])) as Hspan.
  { exists p, suf. rewrite Htext, <- !app_assoc. split_and!; [done..|]. rewrite !str_len_app, str_len_cons, str_len_nil. lia. }
  split; (eexists; split_and!; [exact Hspan|by destruct m|]).
  - apply sublist_inserts_r, sublist_inserts_r. done.
  - apply sublist_app; [by apply sublist_inserts_r|done].
Qed.

Lemma pending_push text pre v start end_ c suf :
  text = pre ++ c :: suf -> pending text pre v start end_ ->
  pending text (pre ++ [c]) (v ++ [c]) (get_or_insert start (str_len pre)) (str_len pre + len_utf8 c).
Proof.
  intros Htext Hp. unfold get_or_insert, pending. rewrite str_len_snoc. split; [|lia].
  destruct start as [a|]; cbn.
  - destruct Hp as [Hc Hle]. by eapply candidate_widen.
  - unfold pending in Hp. subst v. exists [c]. split_and!; [|done|done].
    exists pre, suf. split_and!; [done..|]. by rewrite str_len_snoc.
Qed.

Lemma pending_skip text pre pre' v start end_ : pending text pre v start end_ -> pending text (pre ++ pre') v start end_.
Proof.
  destruct start; cbn; [|done]. intros [Hc Hle]. split; [done|].
  rewrite str_len_app. pose proof (str_len_nonneg pre'). lia.
Qed.

(** ** The runs inside a container *)

Lemma b64_byte_ascii b : is_base64_candidate_byte b = true -> 0 <= b < 128.
Proof.
  unfold is_base64_candidate_byte, is_ascii_alphanumeric, is_ascii_alphabetic, is_ascii_lowercase, is_ascii_uppercase,
    is_ascii_digit, in_range. cbn [existsb]. lia.
Qed.

Lemma subruns_skip text cs ce index vs bs rest : Forall (fun b => 128 <= b) bs ->
  subruns_loop text cs ce index None vs (bs ++ rest) = subruns_loop text cs ce (index + zlen bs) None vs rest.
Proof.
  intros Hbs. revert index. induction Hbs as [|b bs Hb _ IH]; intros index.
  - cbn. f_equal. unfold zlen. cbn. lia.
  - cbn [app subruns_loop]. destruct (is_base64_candidate_byte b) eqn:E; [apply b64_byte_ascii in E; lia|].
    rewrite IH. f_equal. unfold zlen. cbn [length]. lia.
Qed.

Lemma non_b64_char c : is_base64_candidate_byte c = false ->
  exists b bs, utf8_char c = b :: bs /\ is_base64_candidate_byte b = false /\ Forall (fun x => 128 <= x) bs.
Proof.
  intros Ec. destruct (utf8_char_cases c) as [E|[Hc Hhi]]; [by exists c, []|].
  pose proof (len_utf8_bounds c) as Hl. unfold len_utf8, zlen in Hl.
  destruct (utf8_char c) as [|b bs]; [cbn in Hl; lia|]. inversion Hhi as [|? ? Hb Hbs]; subst.
  exists b, bs. split_and!; [done| |done].
  destruct (is_base64_candidate_byte b) eqn:Eb; [apply b64_byte_ascii in Eb; lia|done].
Qed.

(** The run that is open, as a part of what was read. *)
Definition open_run (pre : str) (done_ : str) (run_start : option Z) : Prop :=
  match run_start with
  | None => True
  | Some a => exists d run, done_ = d ++ run /\ run <> [] /\ a = str_len (pre ++ d)
  end.

Lemma run_placed text pre d run rest post :
  text = pre ++ (d ++ run) ++ rest ++ post -> run <> [] ->
  str_slice text (str_len (pre ++ d)) (str_len (pre ++ d ++ run)) = Ret run /\
  well_placed text (mkExtracted run (str_len (pre ++ d)) (str_len (pre ++ d ++ run))).
Proof.
  intros -> Hrun. assert (span_of (pre ++ (d ++ run) ++ rest ++ post) (str_len (pre ++ d)) (str_len (pre ++ d ++ run)) run) as Hs.
  { exists (pre ++ d), (rest ++ post). rewrite <- !app_assoc. done. }
  split; [by apply str_slice_span|]. exists run. done.
Qed.

Lemma subruns_spec text pre post m d run_start vs :
  text = pre ++ d ++ m ++ post -> open_run pre d run_start -> Forall (well_placed text) vs ->
  exists vs', subruns_loop text (str_len pre) (str_len (pre ++ d ++ m)) (str_len (pre ++ d)) run_start vs (as_bytes m) = Ret vs' /\
    Forall (well_placed text) vs'.
Proof.
  revert d run_start vs. induction m as [|c m IH]; intros d run_start vs Htext Hrun Hvs.
  - cbn. destruct run_start as [a|]; [|by exists vs]. destruct Hrun as (d1 & run & -> & Hne & ->). rewrite !app_nil_r.
    case_match; [|by exists vs]. destruct (run_placed text pre d1 run [] post) as [-> Hw]; [done..|].
    eexists. split; [done|]. apply Forall_app. by split; [|apply Forall_singleton].
  - rewrite as_bytes_cons. assert (Hnext : text = pre ++ (d ++ [c]) ++ m ++ post) by (by rewrite Htext, <- !app_assoc).
    assert (Hend : pre ++ d ++ c :: m = pre ++ (d ++ [c]) ++ m) by (by rewrite <- !app_assoc). rewrite Hend.
    assert (Hpos : str_len (pre ++ d) + zlen (utf8_char c) = str_len (pre ++ d ++ [c])).
    { rewrite (app_assoc pre d), str_len_snoc. done. }
    specialize (IH (d ++ [c])).
    destruct (is_base64_candidate_byte c) eqn:Ec.
    + pose proof (b64_byte_ascii _ Ec) as Hc. destruct (utf8_char_cases c) as [E|[? _]]; [|lia].
      rewrite E in Hpos |- *. cbn [app subruns_loop]. rewrite Ec. change (zlen [c]) with 1 in Hpos. rewrite Hpos.
      apply IH; [done| |done]. destruct run_start as [a|].
      * destruct Hrun as (d1 & run & -> & Hne & ->). exists d1, (run ++ [c]). rewrite <- app_assoc. split_and!; [done| |done]. by destruct run.
      * exists d, [c]. done.
    + assert (Hskip : forall vs0, Forall (well_placed text) vs0 -> exists vs',
          subruns_loop text (str_len pre) (str_len (pre ++ (d ++ [c]) ++ m)) (str_len (pre ++ d) + zlen (utf8_char c)) None vs0 (as_bytes m)
            = Ret vs' /\ Forall (well_placed text) vs').
      { intros vs0 Hvs0. rewrite Hpos. by apply IH. }
      destruct (non_b64_char c Ec) as (b & bs & E & Eb & Hbs).
      rewrite E in *. cbn [app subruns_loop]. rewrite Eb.
      assert (Hstep : forall vs0, subruns_loop text (str_len pre) (str_len (pre ++ (d ++ [c]) ++ m)) (str_len (pre ++ d) + 1) None vs0 (bs ++ as_bytes m) =
        subruns_loop text (str_len pre) (str_len (pre ++ (d ++ [c]) ++ m)) (str_len (pre ++ d) + zlen (b :: bs)) None vs0 (as_bytes m)).
      { intros vs0. rewrite subruns_skip by done. f_equal. unfold zlen. cbn [length]. lia. }
      destruct run_start as [a|]; [|rewrite Hstep; by apply Hskip].
      destruct Hrun as (d1 & run & -> & Hne & ->). case_match; [|rewrite Hstep; by apply Hskip].
      destruct (run_placed text pre d1 run (c :: m) post) as [-> Hw]; [done..|]. rewrite Hstep. apply Hskip.
      apply Forall_app. by split; [|apply Forall_singleton].
Qed.

(** The bytes of a span. *)
Lemma span_bytes pre m post :
  take (Z.to_nat (str_len (pre ++ m) - str_len pre)) (drop (Z.to_nat (str_len pre)) (as_bytes (pre ++ m ++ post))) = as_bytes m.
Proof.
  rewrite str_len_app. replace (str_len pre + str_len m - str_len pre) with (str_len m) by lia.
  unfold str_len, zlen, as_bytes. rewrite !Nat2Z.id, !map_app, !concat_app.
  by rewrite drop_app_length, take_app_length.
Qed.

Lemma push_b64_subruns_spec vs text a b v :
  candidate_span text v a b -> Forall (well_placed text) vs ->
  exists vs', push_b64_subruns vs text a b = Ret vs' /\ Forall (well_placed text) vs'.
Proof.
  intros (m & Hspan & _ & _) Hvs. unfold push_b64_subruns. rewrite (str_slice_span _ _ _ _ Hspan).
  case_match; [by exists vs|]. destruct Hspan as (pre & post & -> & -> & ->).
  rewrite span_bytes. destruct (subruns_spec (pre ++ m ++ post) pre post m [] None vs) as (vs' & Hr & Hw); [done..|].
  rewrite app_nil_r in Hr. eauto.
Qed.

(** ** Quoted strings and assigned values *)

(** The characters of [text] from the end of [pre] on. *)
Definition rest_of (text pre : str) (chars : list (Z * Z)) : Prop :=
  exists suf, text = pre ++ suf /\ chars = char_indices_from (str_len pre) suf.

Lemma rest_of_cons text pre idx c rest : rest_of text pre ((idx, c) :: rest) ->
  idx = str_len pre /\ (exists suf, text = pre ++ c :: suf) /\ rest_of text (pre ++ [c]) rest.
Proof.
  intros ([|c' suf] & -> & Hc); [done|]. cbn in Hc. injection Hc as -> -> ->. split_and!; [done|eauto|].
  exists suf. rewrite <- app_assoc, str_len_snoc. done.
Qed.

(** What an inner loop leaves: well placed candidates and fewer characters. *)
Definition leaves (text : str) (chars : list (Z * Z)) (vs : list ExtractedValue) (rest : list (Z * Z)) : Prop :=
  (exists pre, rest_of text pre rest) /\ (length rest <= length chars)%nat /\ Forall (well_placed text) vs.

Lemma leaves_cons text (x : Z * Z) chars vs rest : leaves text chars vs rest -> leaves text (x :: chars) vs rest.
Proof. intros (? & ? & ?). split_and!; [done|cbn; lia|done]. Qed.

Lemma quoted_loop_spec text quote escaping cleaned start end_ vs chars pre :
  rest_of text pre chars -> pending text pre (cleaned ++ if escaping : bool then [92] else []) start end_ ->
  Forall (well_placed text) vs ->
  exists vs' rest, quoted_loop text quote escaping cleaned start end_ vs chars = Ret (vs', rest) /\ leaves text chars vs' rest.
Proof.
  revert escaping cleaned start end_ pre. induction chars as [|[idx c] chars IH]; intros escaping cleaned start end_ pre Hrest Hp Hvs.
  - cbn. exists vs, []. split_and!; [done|split_and!; [eauto|done|done]].
  - destruct (rest_of_cons _ _ _ _ _ Hrest) as (-> & [suf Hsuf] & Hnext).
    assert (Hgo : forall e cl st en, pending text (pre ++ [c]) (cl ++ if e : bool then [92] else []) st en ->
      exists vs' rest, quoted_loop text quote e cl st en vs chars = Ret (vs', rest) /\ leaves text ((str_len pre, c) :: chars) vs' rest).
    { intros e cl st en Hq. destruct (IH e cl st en _ Hnext Hq Hvs) as (vs' & rest & -> & Hl). eauto using leaves_cons. }
    assert (Hdone : forall vs', Forall (well_placed text) vs' -> leaves text ((str_len pre, c) :: chars) vs' chars).
    { intros vs' Hw. split_and!; [eauto|cbn; lia|done]. }
    pose proof (pending_push _ _ _ _ _ _ _ Hsuf Hp) as Hpush. cbn [quoted_loop]. destruct escaping.
    + apply Hgo. rewrite app_nil_r. destruct start as [a|]; [|apply app_nil in Hp as [_ [=]]].
      rewrite <- app_assoc in Hpush. done.
    + rewrite app_nil_r in Hp, Hpush. destruct (c =? 92) eqn:E1; [apply Z.eqb_eq in E1 as ->; by apply Hgo|].
      destruct (c =? quote).
      * case_match; [|eauto]. destruct start as [a|]; [|eauto]. destruct Hp as [Hc _].
        destruct (push_b64_subruns_spec vs text a end_ cleaned) as (vs' & -> & Hw); [done..|].
        eexists _, _. split; [done|]. apply Hdone, Forall_app. split; [done|]. by apply Forall_singleton.
      * case_match; apply Hgo; rewrite app_nil_r; [done|by apply pending_skip].
Qed.

Lemma skip_whitespace_spec text pre chars : rest_of text pre chars ->
  (exists pre', rest_of text pre' (skip_whitespace chars)) /\ (length (skip_whitespace chars) <= length chars)%nat.
Proof.
  revert pre. induction chars as [|[idx c] chars IH]; intros pre Hrest; [cbn; eauto|]. cbn [skip_whitespace].
  destruct (is_ascii_whitespace c); [|by split; [exists pre|]]. apply rest_of_cons in Hrest as (_ & _ & Hnext). destruct (IH _ Hnext) as [He Hl].
  split; [done|cbn; lia].
Qed.

Lemma assigned_loop_spec text start end_ chars pre v : rest_of text pre chars -> pending text pre v start end_ ->
  let '(start', end_', rest) := assigned_loop start end_ chars in
  (exists pre', rest_of text pre' rest) /\ (length rest <= length chars)%nat /\
  match start' with Some a => exists v', candidate_span text v' a end_' | None => True end.
Proof.
  revert start end_ pre v. induction chars as [|[idx c] chars IH]; intros start end_ pre v Hrest Hp; cbn [assigned_loop].
  - split_and!; [eauto|done|]. destruct start; [|done]. destruct Hp. eauto.
  - destruct (ends_assigned_value c); [split_and!; [eauto|done|]; destruct start; [|done]; destruct Hp; eauto|].
    destruct (rest_of_cons _ _ _ _ _ Hrest) as (-> & [suf Hsuf] & Hnext).
    specialize (IH _ _ _ _ Hnext (pending_push _ _ _ _ _ _ _ Hsuf Hp)).
    destruct (assigned_loop _ _ chars) as [[s e] rest]. destruct IH as (? & ? & ?). split_and!; [done|cbn; lia|done].
Qed.

(** ** The whole pass *)

Definition extract_ok (text pre : str) (st : extract_state) : Prop :=
  Forall (well_placed text) (values st) /\
  pending text pre (b64_block st) (b64_start st) (b64_end st) /\
  pending text pre (pct_block st) (pct_start st) (pct_end st).

Lemma flush_b64_ok text pre st : extract_ok text pre st -> extract_ok text pre (flush_b64 st).
Proof.
  intros (Hv & Hb & Hp). unfold flush_b64. case_match; [|by split_and!].
  destruct (b64_start st) as [a|] eqn:E; [|by split_and!]. cbn in Hb. split_and!; [|done|done].
  apply Forall_app. split; [done|]. apply Forall_singleton. apply Hb.
Qed.

Lemma flush_pct_ok text pre st : extract_ok text pre st -> extract_ok text pre (flush_pct st).
Proof.
  intros (Hv & Hb & Hp). unfold flush_pct. case_match; [|by split_and!].
  destruct (pct_start st) as [a|] eqn:E; [|by split_and!]. cbn in Hp. split_and!; [|done|done].
  apply Forall_app. split; [done|]. apply Forall_singleton. apply Hp.
Qed.

Lemma extract_ok_skip text pre pre' st : extract_ok text pre st -> extract_ok text (pre ++ pre') st.
Proof. intros (? & ? & ?). split_and!; auto using pending_skip. Qed.

(** After both flushes nothing is pending, wherever the pass continues. *)
Lemma flushed_ok text pre pre' st vs : extract_ok text pre st -> Forall (well_placed text) vs ->
  extract_ok text pre' (with_values (flush_pct (flush_b64 st)) vs).
Proof.
  intros _ Hvs. unfold extract_ok. split_and!; [done|..]; unfold flush_pct, flush_b64; repeat case_match; done.
Qed.

Definition turn_ok (text : str) (rest : list (Z * Z)) (r : outcome (extract_state * list (Z * Z))) : Prop :=
  exists st' rest' pre', r = Ret (st', rest') /\ extract_ok text pre' st' /\ rest_of text pre' rest' /\ (length rest' <= length rest)%nat.

Lemma assigned_value_ok prune text pre st idx ch rest :
  extract_ok text pre st -> rest_of text (pre ++ [ch]) rest ->
  turn_ok text rest (assigned_value prune text (flush_pct (flush_b64 st)) idx ch rest).
Proof.
  intros Hok Hrest. unfold assigned_value. destruct (skip_whitespace_spec _ _ _ Hrest) as [(p1 & Hr1) Hl1].
  pose proof (assigned_loop_spec text None (idx + len_utf8 ch) _ p1 [] Hr1 eq_refl) as Hloop.
  destruct (assigned_loop _ _ _) as [[start end_] rest1]. destruct Hloop as ((p2 & Hr2) & Hl2 & Hc).
  pose proof (flush_pct_ok _ _ _ (flush_b64_ok _ _ _ Hok)) as (Hv & _).
  assert (Hskip : turn_ok text rest (Ret (flush_pct (flush_b64 st), rest1))).
  { eexists _, _, p2. split_and!; [done| |done|lia].
    destruct (flushed_ok text pre p2 st _ Hok Hv) as (? & ? & ?). by split_and!. }
  destruct start as [a|]; [|done]. destruct Hc as (v & m & Hspan & Hm & Hsub).
  rewrite (str_slice_span _ _ _ _ Hspan). case_match; [|done].
  destruct (push_b64_subruns_spec (values (flush_pct (flush_b64 st))) text a end_ m) as (vs & -> & Hw); [by exists m|exact Hv|].
  eexists _, _, p2. split_and!; [done| |done|lia]. apply (flushed_ok text pre); [done|].
  apply Forall_app. split; [done|]. apply Forall_singleton. by exists m.
Qed.

Lemma extract_turn_ok prune text pre st idx ch rest :
  extract_ok text pre st -> rest_of text pre ((idx, ch) :: rest) -> turn_ok text rest (extract_turn prune text st idx ch rest).
Proof.
  intros Hok Hrest. destruct (rest_of_cons _ _ _ _ _ Hrest) as (-> & [suf Hsuf] & Hnext). unfold extract_turn.
  pose proof Hok as (Hv & Hb & Hp). destruct (is_quote ch).
  { destruct (quoted_loop_spec text ch false [] None (str_len pre + len_utf8 ch)
      (values (flush_pct (flush_b64 st))) rest (pre ++ [ch])) as (vs & rest' & -> & (p & Hr) & Hl & Hw);
      [done..|exact (proj1 (flush_pct_ok _ _ _ (flush_b64_ok _ _ _ Hok)))|].
    eexists _, _, p. split_and!; [done|by eapply flushed_ok|done|done]. }
  destruct (equals_is_base64_padding _ _ _ _) eqn:Epad.
  { eexists _, _, (pre ++ [ch]). split_and!; [done| |done|done].
    pose proof (pending_push _ _ _ _ _ _ _ Hsuf Hb) as Hb'. destruct (extract_ok_skip _ _ [ch] _ Hok) as (_ & _ & ?).
    split_and!; [done| |done]. cbn. destruct (b64_start st) eqn:E; [done|]. cbn in Hb. rewrite Hb in Epad.
    unfold equals_is_base64_padding in Epad. rewrite str_len_nil in Epad. by rewrite andb_false_r in Epad. }
  destruct ((ch =? 58) || (ch =? 61)); [by eapply assigned_value_ok|].
  case_match.
  { eexists _, _, (pre ++ [ch]). split_and!; [done| |done|done]. destruct (extract_ok_skip _ _ [ch] _ Hok) as (_ & ? & _).
    split_and!; [done..|]. by eapply pending_push. }
  assert (Hst : extract_ok text pre (if negb (is_pct_run_char ch) && negb (bool_decide (pct_block st = [])) then flush_pct st else st)).
  { case_match; [by apply flush_pct_ok|done]. }
  eexists _, _, (pre ++ [ch]). split_and!; [done| |done|done]. unfold accumulate_b64.
  destruct (is_b64_char ch); [|repeat case_match; auto using flush_b64_ok, extract_ok_skip].
  pose proof Hst as (Hv' & Hb' & Hp'). split_and!; [done| |by apply pending_skip]. by eapply pending_push.
Qed.

Lemma extract_loop_ok fuel prune text pre st chars :
  extract_ok text pre st -> rest_of text pre chars -> (length chars <= fuel)%nat ->
  exists st' pre', extract_loop fuel prune text st chars = Ret st' /\ extract_ok text pre' st'.
Proof.
  revert pre st chars. induction fuel as [|fuel IH]; intros pre st [|[idx ch] rest] Hok Hrest Hfuel;
    cbn [extract_loop]; [by eexists _, _|cbn in Hfuel; lia|by eexists _, _|].
  destruct (extract_turn_ok prune _ _ _ _ _ _ Hok Hrest) as (st' & rest' & pre' & -> & Hok' & Hrest' & Hl).
  eapply IH; [done..|]. cbn in Hfuel. lia.
Qed.

Lemma extract_start_ok text : extract_ok text [] (mkExtract [] [] None 0 [] None 0 0) /\ rest_of text [] (char_indices text).
Proof. split; [by split_and!|]. by exists text. Qed.

Lemma length_char_indices i s : length (char_indices_from i s) = length s.
Proof. revert i. induction s as [|c s IH]; intros i; [done|]. cbn. by rewrite IH. Qed.

Lemma extraction_placed text prune :
  exists vs, extract_encoded_value_spans_raw text prune = Ret vs /\ Forall (well_placed text) vs.
Proof.
  destruct (extract_start_ok text) as [Hok Hrest]. unfold extract_encoded_value_spans_raw.
  destruct (extract_loop_ok (length text) prune text [] _ _ Hok Hrest) as (st & pre & -> & Hst).
  - unfold char_indices. by rewrite length_char_indices.
  - eexists. split; [done|]. apply (flush_pct_ok text pre), flush_b64_ok, Hst.
Qed.

(** C20. Extraction always returns, and each candidate comes from the text: its
    span lies between character boundaries, is not empty, and the candidate's
    value is read off that span from left to right with nothing added. *)
Theorem extracted_values_placed (text : str) (prune : bool) :
  exists vs, extract_encoded_value_spans_raw text prune = Ret vs /\ Forall (well_placed text) vs.
Proof. apply extraction_placed. Qed.

(** ** Pruning *)

Lemma subruns_loop_appends text cs ce index run vs bs :
  subruns_loop text cs ce index run vs bs = let! new := subruns_loop text cs ce index run [] bs in Ret (vs ++ new).
Proof.
  revert index run vs. induction bs as [|b bs IH]; intros index run vs; cbn [subruns_loop].
  - repeat case_match; rewrite ?app_nil_r; done.
  - case_match; [apply IH|]. destruct run as [a|]; [|apply IH]. case_match; [|apply IH].
    destruct (str_slice text a index) as [r|]; [|done]. rewrite IH, (IH _ _ ([] ++ _)).
    destruct (subruns_loop _ _ _ _ _ [] bs); [|done]. by rewrite <- app_assoc.
Qed.

Lemma push_b64_subruns_appends vs text a b :
  push_b64_subruns vs text a b = let! new := push_b64_subruns [] text a b in Ret (vs ++ new).
Proof.
  unfold push_b64_subruns. destruct (str_slice text a b); [|done]. case_match; [by rewrite app_nil_r|]. apply subruns_loop_appends.
Qed.

Lemma quoted_loop_appends text quote e cleaned start end_ vs chars :
  quoted_loop text quote e cleaned start end_ vs chars =
  let! (new, rest) := quoted_loop text quote e cleaned start end_ [] chars in Ret (vs ++ new, rest).
Proof.
  revert e cleaned start end_. induction chars as [|[idx c] chars IH]; intros e cleaned start end_; cbn [quoted_loop]; [by rewrite app_nil_r|].
  destruct e; [apply IH|]. destruct (c =? 92); [apply IH|]. destruct (c =? quote); [|case_match; apply IH].
  case_match; [|by rewrite app_nil_r]. destruct start as [a|]; [|by rewrite app_nil_r].
  rewrite push_b64_subruns_appends. destruct (push_b64_subruns [] text _ _); [|done]. by rewrite app_assoc.
Qed.

(** No run fits in a container shorter than the shortest run. *)
Lemma subruns_loop_short text cs ce index run vs bs :
  ce - cs < MIN_B64_BLOCK_LEN -> cs <= index -> index + zlen bs <= ce -> (forall a, run = Some a -> cs <= a) ->
  subruns_loop text cs ce index run vs bs = Ret vs.
Proof.
  intros Hs. revert index run. induction bs as [|b bs IH]; intros index run Hi Hbs Hrun; cbn [subruns_loop].
  - destruct run as [a|]; [|done]. specialize (Hrun a eq_refl). unfold MIN_B64_BLOCK_LEN, saturating_sub in *.
    by rewrite (proj2 (Z.leb_gt 16 _)) by lia.
  - unfold zlen in *. cbn [length] in Hbs. case_match.
    + apply IH; [lia|lia|]. intros a [= <-]. destruct run; cbn; auto.
    + destruct run as [a|]; [|apply IH; [lia|lia|done]]. specialize (Hrun a eq_refl).
      unfold MIN_B64_BLOCK_LEN, saturating_sub in *. rewrite (proj2 (Z.leb_gt 16 _)) by lia. apply IH; [lia|lia|done].
Qed.

Lemma push_b64_subruns_short vs text a b m :
  span_of text a b m -> str_len m < MIN_B64_BLOCK_LEN -> push_b64_subruns vs text a b = Ret vs.
Proof.
  intros Hspan Hs. pose proof (span_of_bounds _ _ _ _ Hspan). unfold push_b64_subruns.
  rewrite (str_slice_span _ _ _ _ Hspan). case_match; [done|].
  apply subruns_loop_short; [lia|lia| |done]. unfold zlen. rewrite length_take. lia.
Qed.

Section pruning.
Context (P : ExtractedValue -> bool) (Hshort : forall v, str_len (ev_value v) < MIN_BASE64_CANDIDATE_LEN -> P v = false).

(** States that differ in candidates [P] rejects. *)
Definition pruned (st st' : extract_state) : Prop :=
  exists vs', st' = with_values st vs' /\ List.filter P (values st) = List.filter P vs'.

Lemma pruned_flush st st' : pruned st st' -> pruned (flush_b64 st) (flush_b64 st') /\ pruned (flush_pct st) (flush_pct st').
Proof.
  intros (vs' & -> & Hf). unfold flush_b64, flush_pct. cbn. split; repeat case_match;
    (eexists; split; [reflexivity|]); cbn; rewrite ?List.filter_app, ?Hf; done.
Qed.

Lemma pruned_add st st' new : pruned st st' -> pruned (with_values st (values st ++ new)) (with_values st' (values st' ++ new)).
Proof. intros (vs' & -> & Hf). eexists. split; [reflexivity|]. cbn. by rewrite !List.filter_app, Hf. Qed.

(** Turns from such states end in such states. *)
Definition pruned_turns (r r' : outcome (extract_state * list (Z * Z))) : Prop :=
  match r, r' with
  | Ret (st, rest), Ret (st', rest') => pruned st st' /\ rest = rest'
  | Panic, Panic => True
  | _, _ => False
  end.

Lemma pruned_assigned text pre st st' idx ch rest :
  pruned st st' -> rest_of text pre rest ->
  pruned_turns (assigned_value true text st idx ch rest) (assigned_value false text st' idx ch rest).
Proof.
  intros Hp Hrest. unfold assigned_value. destruct (skip_whitespace_spec _ _ _ Hrest) as [(p1 & Hr1) _].
  pose proof (assigned_loop_spec text None (idx + len_utf8 ch) _ p1 [] Hr1 eq_refl) as Hloop.
  destruct (assigned_loop _ _ _) as [[[a|] end_] rest1]; [|done]. destruct Hloop as (_ & _ & v & m & Hspan & _).
  rewrite (str_slice_span _ _ _ _ Hspan). destruct (MIN_EXTRACTED_VALUE_LEN <=? str_len m); cbn [andb]; [|done].
  change (default_impossible false m) with false. cbn [negb]. destruct (default_impossible true m) eqn:Ed; cbn [negb].
  - unfold default_impossible in Ed. apply andb_true_iff in Ed as [Ed _]. cbn in Ed. apply Z.ltb_lt in Ed.
    rewrite (push_b64_subruns_short _ _ _ _ _ Hspan) by (unfold MIN_BASE64_CANDIDATE_LEN, MIN_B64_BLOCK_LEN in *; lia).
    split; [|done]. destruct Hp as (vs' & -> & Hf). eexists. split; [reflexivity|]. cbn.
    rewrite List.filter_app, Hf. cbn. rewrite (Hshort (mkExtracted m a end_)) by done. by rewrite app_nil_r.
  - rewrite push_b64_subruns_appends, (push_b64_subruns_appends (values st')).
    destruct (push_b64_subruns [] text a end_) as [new|]; [|done]. split; [|done].
    rewrite <- !app_assoc. by apply pruned_add.
Qed.

Lemma pruned_turn text pre st st' idx ch rest :
  pruned st st' -> rest_of text pre ((idx, ch) :: rest) ->
  pruned_turns (extract_turn true text st idx ch rest) (extract_turn false text st' idx ch rest).
Proof.
  intros Hp Hrest. destruct (rest_of_cons _ _ _ _ _ Hrest) as (-> & _ & Hnext).
  destruct (pruned_flush _ _ Hp) as [Hb Hc]. pose proof (proj2 (pruned_flush _ _ Hb)) as Hbc.
  pose proof Hp as (vs' & Est' & Hf). unfold extract_turn.
  destruct (is_quote ch).
  { rewrite quoted_loop_appends, (quoted_loop_appends _ _ _ _ _ _ (values (flush_pct (flush_b64 st')))).
    destruct (quoted_loop _ _ _ _ _ _ [] rest) as [[new rest']|]; [|done]. split; [by apply pruned_add|done]. }
  replace (b64_block st') with (b64_block st) by (by rewrite Est').
  destruct (equals_is_base64_padding _ _ _ _); [subst st'; split; [by eexists|done]|].
  destruct ((ch =? 58) || (ch =? 61)); [by eapply pruned_assigned|].
  replace (pct_block st') with (pct_block st) by (by rewrite Est').
  destruct (is_pct_run_char ch && _); [subst st'; split; [by eexists|done]|]. split; [|done].
  set (t := if _ && _ then _ else _). set (t' := if _ && _ then flush_pct st' else _).
  assert (Ht : pruned t t') by (unfold t, t'; by case_match). clearbody t t'.
  destruct (pruned_flush _ _ Ht) as [Hfl _]. destruct Ht as (vt & -> & Hvt). unfold accumulate_b64.
  change (b64_block (with_values t vt)) with (b64_block t).
  destruct (is_b64_char ch); [by exists vt|]. destruct ((ch =? 13) || (ch =? 10)); [|done].
  destruct (ends_with [61] (b64_block t)); [done|by exists vt].
Qed.

Lemma pruned_loop fuel text pre st st' chars :
  pruned st st' -> extract_ok text pre st -> rest_of text pre chars ->
  match extract_loop fuel true text st chars, extract_loop fuel false text st' chars with
  | Ret s, Ret s' => pruned s s'
  | Panic, Panic => True
  | _, _ => False
  end.
Proof.
  revert pre st st' chars. induction fuel as [|fuel IH]; intros pre st st' [|[idx ch] rest] Hp Hok Hrest; cbn [extract_loop]; try done.
  pose proof (pruned_turn _ _ _ _ _ _ _ Hp Hrest) as Ht.
  destruct (extract_turn_ok true _ _ _ _ _ _ Hok Hrest) as (s & rest' & pre' & E & Hok' & Hrest' & _). rewrite E in *.
  destruct (extract_turn false _ _ _ _ _) as [[s' rest2]|]; [|done]. destruct Ht as [Hp' <-]. by eapply IH.
Qed.
End pruning.

(** The pruning that the pipeline turns on when only default decoders are
    registered drops no candidate a decoder could use: whatever test of
    candidates rejects those under twelve bytes (as the base64, hex, Z85, reverse
    and Caesar decoders all do) selects the same candidates, in the same order,
    from the pruned and from the full extraction. *)
Theorem pruning_keeps_candidates (text : str) (P : ExtractedValue -> bool) :
  (forall v, str_len (ev_value v) < MIN_BASE64_CANDIDATE_LEN -> P v = false) ->
  exists vs vs', extract_encoded_value_spans_raw text true = Ret vs /\
    extract_encoded_value_spans_raw text false = Ret vs' /\ List.filter P vs = List.filter P vs'.
Proof.
  intros Hshort. destruct (extract_start_ok text) as [Hok Hrest]. unfold extract_encoded_value_spans_raw.
  pose proof (pruned_loop P Hshort (length text) text [] (mkExtract [] [] None 0 [] None 0 0) _ _
    (ex_intro _ [] (conj eq_refl eq_refl)) Hok Hrest) as Hloop.
  assert (Hlen : (length (char_indices text) <= length text)%nat) by (unfold char_indices; by rewrite length_char_indices).
  destruct (extract_loop_ok (length text) true text [] _ _ Hok Hrest Hlen) as (st & pre & E & _).
  destruct (extract_loop_ok (length text) false text [] _ _ Hok Hrest Hlen) as (st' & pre' & E' & _).
  change (with_values _ []) with (mkExtract [] [] None 0 [] None 0 0) in Hloop.
  rewrite E, E' in *. eexists _, _. split_and!; [done..|].
  destruct (pruned_flush P _ _ Hloop) as [Hb _]. destruct (pruned_flush P _ _ Hb) as [_ (vs & -> & Hf)]. exact Hf.
Qed.
