(* ===== verification/DecodeSplice.v ===== *)
(** * Decoded text spliced into its parent ([crates/scanner/src/decode/pipeline/splice.rs])

    A decoder finds encoded spans in a chunk and hands the decoded text to a
    sink as new chunks.  Each new chunk keeps a window of the parent around the
    span, so that a detector still sees the keyword next to the value.  Spans
    that lie close together are replaced in one batch. *)

From S2P Require Import Prelude Utf8 StrOffsets DecodeExtract.

(** ** Chunks and sinks *)

Record ChunkMetadata := mkChunkMetadata {
  source_type : str; md_path : option str; md_commit : option str; md_author : option str; md_date : option str;
  base_offset : Z; base_line : Z; mtime_ns : option Z; ctime_ns : option Z; size_bytes : option Z;
  decoded_span : option (Z * Z) }.

Record Chunk := mkChunk { data : str; metadata : ChunkMetadata }.

(** [DecodeOutputSink::push]: the new state of the sink, and [false] once it is
    closed. *)
Class DecodeOutputSink (S : Type) := sink_push : S -> Chunk -> S * bool.

(** [impl DecodeOutputSink for Vec<Chunk>] *)
Definition vec_push (chunks : list Chunk) (c : Chunk) : list Chunk * bool := (chunks ++ [c], true).

#[export] Instance vec_sink : DecodeOutputSink (list Chunk) := vec_push.

Definition MAX_DECODED_CHUNKS_PER_ROOT : Z := 1000.
Definition DECODE_LIMIT_UNIT_BYTES : Z := 16 * (1024 * 1024).
Definition MAX_DECODED_TOTAL_BYTES : Z := DECODE_LIMIT_UNIT_BYTES * 4.

Record BoundedCollectSink := mkCollect { collected : list Chunk; collected_bytes : Z; exhausted : bool }.

Definition collect_push (s : BoundedCollectSink) (chunk : Chunk) : BoundedCollectSink * bool :=
  let next_bytes := collected_bytes s + str_len (data chunk) in
  if usize_max <? next_bytes then (mkCollect (collected s) (collected_bytes s) true, false)
  else if (zlen (collected s) =? MAX_DECODED_CHUNKS_PER_ROOT) || (MAX_DECODED_TOTAL_BYTES <? next_bytes)
  then (mkCollect (collected s) (collected_bytes s) true, false)
  else (mkCollect (collected s ++ [chunk]) next_bytes (exhausted s), true).

#[export] Instance bounded_collect_sink : DecodeOutputSink BoundedCollectSink := collect_push.

Definition DECODE_REPLACEMENT_BATCH_SOURCE_BYTES : Z := 64 * 1024.
Definition DECODE_REPLACEMENT_BATCH_OUTPUT_BYTES : Z := 16 * 1024 * 1024.
Definition SPLICE_CONTEXT_WINDOW : Z := 512.

(** ** One decoded span *)

(** [bytecount_newlines] of [splice.rs]; the file windows have their own, in [Window]. *)
Definition splice_bytecount_newlines (bs : bytes) : Z := zlen (List.filter (fun b => b =? 10) bs).

(** What may follow the padding that is taken along. *)
Definition ends_padding (next : option Z) : bool :=
  match next with
  | None => true
  | Some b => existsb (fun x => b =? x) [10; 13; 9; 32; 59; 44; 34; 39; 96; 125; 93; 38]
  end.

(** [while end < parent.len() && parent[end] == b'=' && end - start < 2] *)
Fixpoint padding_loop (fuel : nat) (parent : bytes) (end_ : Z) : Z :=
  match fuel with
  | O => end_
  | S fuel' =>
      if bool_decide (parent !! Z.to_nat end_ = Some 61) then padding_loop fuel' parent (end_ + 1) else end_
  end.

Definition consume_adjacent_base64_padding (parent : bytes) (start : Z) : Z :=
  let end_ := padding_loop 2 parent start in
  if end_ =? start then start
  else if ends_padding (parent !! Z.to_nat end_) then end_ else start.

Definition splice_decoded_payload_at (parent : str) (start end_ : Z) (decoded_text decoder_name : str) :
    outcome (option (Z * str * Z)) :=
  if (end_ <? start) || (str_len parent <? end_) then Ret None
  else if negb (is_boundary parent start) || negb (is_boundary parent end_) then Ret None
  else
    let end_ :=
      if bool_decide (decoder_name = $"base64") then consume_adjacent_base64_padding (as_bytes parent) end_
      else end_ in
    let win_start := floor_char_boundary parent (saturating_sub start SPLICE_CONTEXT_WINDOW) in
    let win_end := ceil_char_boundary parent (saturating_add usize_max end_ SPLICE_CONTEXT_WINDOW) in
    let! before := str_slice parent win_start start in
    let decoded_at := start - win_start in
    let! after := str_slice parent end_ win_end in
    Ret (Some (win_start, before ++ decoded_text ++ after, decoded_at)).

Definition splice_decoded_payload (parent original_encoded decoded_text decoder_name : str) :
    outcome (option (Z * str * Z)) :=
  match find_sub original_encoded parent with
  | None => Ret None
  | Some i =>
      let start := str_len (take i parent) in
      splice_decoded_payload_at parent start (start + str_len original_encoded) decoded_text decoder_name
  end.

Definition is_other_control (c : Z) : bool :=
  (c <? 0x20) && negb (existsb (fun x => c =? x) [10; 13; 9; 8; 12]).

Definition separate_controls (text : str) : str :=
  if existsb is_other_control (as_bytes text) then map (fun c => if is_other_control c then 32 else c) text else text.

Definition derived_metadata (m : ChunkMetadata) (offset line : Z) (decoder_name : str) (span : option (Z * Z)) : ChunkMetadata :=
  mkChunkMetadata (source_type m ++ [47] ++ decoder_name) (md_path m) (md_commit m) (md_author m) (md_date m)
    offset line (mtime_ns m) (ctime_ns m) (size_bytes m) span.

(** The span of the parent and the text that replaces it. *)
Abbreviation replacement := (Z * Z * str)%type.

Section streaming.
Context {S : Type} `{DecodeOutputSink S}.

Definition push_decoded_text_chunk_spliced_at (sink : S) (chunk : Chunk) (original_span : option (Z * Z))
    (original_encoded text decoder_name : str) : outcome (S * bool) :=
  if bool_decide (text = []) then Ret (sink, true)
  else
    let text := separate_controls text in
    if bool_decide (text = []) then Ret (sink, true)
    else
      let text_len := str_len text in
      let m := metadata chunk in
      let alone := (base_offset m, base_line m, text, Some (0, text_len)) in
      let! placed :=
        if bool_decide (original_encoded = []) then Ret alone
        else
          let! spliced :=
            match original_span with
            | Some (start, end_) => splice_decoded_payload_at (data chunk) start end_ text decoder_name
            | None => splice_decoded_payload (data chunk) original_encoded text decoder_name
            end in
          match spliced with
          | Some (win_start, payload, decoded_at) =>
              let line := saturating_add usize_max (base_line m)
                            (splice_bytecount_newlines (take (Z.to_nat win_start) (as_bytes (data chunk)))) in
              Ret (saturating_add usize_max (base_offset m) win_start, line, payload,
                   Some (decoded_at, decoded_at + text_len))
          | None => Ret alone
          end in
      let '(offset, line, payload, span) := placed in
      Ret (sink_push sink (mkChunk payload (derived_metadata m offset line decoder_name span))).

Definition push_decoded_text_chunk_spliced (sink : S) (chunk : Chunk) (original_encoded text decoder_name : str) :
    outcome (S * bool) :=
  push_decoded_text_chunk_spliced_at sink chunk None original_encoded text decoder_name.

Definition push_decoded_text_chunk (sink : S) (chunk : Chunk) (text decoder_name : str) : outcome (S * bool) :=
  push_decoded_text_chunk_spliced sink chunk [] text decoder_name.

(** ** Batches of replacements *)

(** [for (start, end, decoded) in replacements.drain(..).rev()]; the
    subtractions are checked. *)
Fixpoint replace_loop (span_start : Z) (rs : list replacement) (decoded_span : str) : outcome str :=
  match rs with
  | [] => Ret decoded_span
  | (start, end_, decoded) :: rest =>
      if (start <? span_start) || (end_ <? span_start) then Panic
      else
        let! decoded_span := replace_range decoded_span (start - span_start) (end_ - span_start) decoded in
        replace_loop span_start rest decoded_span
  end.

Definition push_decoded_replacements_spliced (sink : S) (chunk : Chunk) (span_start span_end : Z)
    (replacements : list replacement) (decoder_name : str) : outcome (S * bool) :=
  if bool_decide (replacements = []) then Ret (sink, true)
  else
    let! source := str_slice (data chunk) span_start span_end in
    let! decoded_span := replace_loop span_start (rev replacements) source in
    push_decoded_text_chunk_spliced_at sink chunk (Some (span_start, span_end)) source decoded_span decoder_name.

Record DecodedReplacementBatcher := mkBatcher {
  b_sink : S; batch_start : Z; batch_end : Z; batch_decoded_bytes : Z; b_replacements : list replacement }.

Definition batcher_new (sink : S) : DecodedReplacementBatcher := mkBatcher sink usize_max 0 0 [].

Section one_chunk.
Context (chunk : Chunk) (decoder_name : str).

Definition batcher_flush (b : DecodedReplacementBatcher) : outcome (DecodedReplacementBatcher * bool) :=
  let! (sink, open) :=
    push_decoded_replacements_spliced (b_sink b) chunk (batch_start b) (batch_end b) (b_replacements b) decoder_name in
  Ret (mkBatcher sink usize_max (batch_end b) 0 [], open).

(** The two bounds that close a batch before [(start, end, decoded)]. *)
Definition exceeds_source_bound (b : DecodedReplacementBatcher) (end_ : Z) : bool :=
  negb (batch_start b =? usize_max) &&
  (DECODE_REPLACEMENT_BATCH_SOURCE_BYTES <? saturating_sub end_ (batch_start b)).

Definition exceeds_output_bound (b : DecodedReplacementBatcher) (decoded : str) : bool :=
  negb (bool_decide (b_replacements b = [])) &&
  (DECODE_REPLACEMENT_BATCH_OUTPUT_BYTES <? saturating_add usize_max (batch_decoded_bytes b) (str_len decoded)).

Definition batcher_add (b : DecodedReplacementBatcher) (r : replacement) : DecodedReplacementBatcher :=
  let '(start, end_, decoded) := r in
  mkBatcher (b_sink b) (if batch_start b =? usize_max then start else batch_start b) end_
    (saturating_add usize_max (batch_decoded_bytes b) (str_len decoded)) (b_replacements b ++ [r]).

Definition batcher_push (b : DecodedReplacementBatcher) (r : replacement) : outcome (DecodedReplacementBatcher * bool) :=
  let '(start, end_, decoded) := r in
  if exceeds_source_bound b end_ || exceeds_output_bound b decoded then
    let! (b, open) := batcher_flush b in
    if negb open then Ret (b, false) else Ret (batcher_add b r, true)
  else Ret (batcher_add b r, true).

Definition batcher_finish (b : DecodedReplacementBatcher) : outcome (S * bool) :=
  let! (b, open) := batcher_flush b in Ret (b_sink b, open).

(** The loop of [stream_batched_decoded_replacements]; its locals are the
    fields of a batcher. *)
Fixpoint stream_batched_loop (b : DecodedReplacementBatcher) (rs : list replacement) : outcome (S * bool) :=
  match rs with
  | [] => push_decoded_replacements_spliced (b_sink b) chunk (batch_start b) (batch_end b) (b_replacements b) decoder_name
  | (start, end_, decoded) :: rest =>
      if exceeds_source_bound b end_ || exceeds_output_bound b decoded then
        let! (sink, open) :=
          push_decoded_replacements_spliced (b_sink b) chunk (batch_start b) (batch_end b) (b_replacements b) decoder_name in
        if negb open then Ret (sink, false)
        else stream_batched_loop (batcher_add (mkBatcher sink usize_max (batch_end b) 0 []) (start, end_, decoded)) rest
      else stream_batched_loop (batcher_add b (start, end_, decoded)) rest
  end.

Definition stream_batched_decoded_replacements (sink : S) (rs : list replacement) : outcome (S * bool) :=
  stream_batched_loop (batcher_new sink) rs.

Fixpoint stream_candidate_refs_exact (sink : S) (candidates : list ExtractedValue) (decode : str -> option str) :
    outcome (S * bool) :=
  match candidates with
  | [] => Ret (sink, true)
  | candidate :: rest =>
      match decode (ev_value candidate) with
      | Some text =>
          let! (sink, open) :=
            push_decoded_text_chunk_spliced_at sink chunk (Some (ev_start candidate, ev_end candidate))
              (ev_value candidate) text decoder_name in
          if negb open then Ret (sink, false) else stream_candidate_refs_exact sink rest decode
      | None => stream_candidate_refs_exact sink rest decode
      end
  end.
End one_chunk.
End streaming.

(** ** What a decoder owes its sink *)

(** Chunks offered one by one until the sink closes. *)
Fixpoint push_all {S} `{DecodeOutputSink S} (s : S) (out : list Chunk) : S * bool :=
  match out with
  | [] => (s, true)
  | c :: rest => let (s, open) := sink_push s c in if open then push_all s rest else (s, false)
  end.

Lemma push_all_app {S} `{DecodeOutputSink S} (s : S) out out' :
  push_all s (out ++ out') = let (s', open) := push_all s out in if open then push_all s' out' else (s', false).
Proof.
  revert s. induction out as [|c out IH]; intros s; cbn [app push_all]; [done|].
  destruct (sink_push s c) as [s' []]; [apply IH|done].
Qed.

Lemma push_one {S} `{DecodeOutputSink S} (s : S) c : push_all s [c] = sink_push s c.
Proof. cbn. by destruct (sink_push s c) as [s' []]. Qed.

(** No string of a Rust program is longer. *)
Definition isize_max : Z := 2 ^ 63 - 1.

(** ** The padding taken along *)

Lemma ascii_at_boundary p q b : b < 128 -> as_bytes (p ++ q) !! Z.to_nat (str_len p) = Some b -> exists q', q = b :: q'.
Proof.
  intros Hb. unfold str_len, zlen. rewrite Nat2Z.id, as_bytes_app, lookup_app_r, Nat.sub_diag by done.
  destruct q as [|c q]; [done|]. rewrite as_bytes_cons.
  destruct (utf8_char_cases c) as [-> |[_ Hhi]]; [intros [= ->]; eauto|].
  pose proof (len_utf8_bounds c) as Hl. unfold len_utf8, zlen in Hl.
  destruct (utf8_char c) as [|x xs]; [cbn in Hl; lia|]. intros [= ->]. inversion Hhi. lia.
Qed.

Lemma padding_loop_spec fuel p q : exists n q', (n <= fuel)%nat /\ q = replicate n 61 ++ q' /\
  padding_loop fuel (as_bytes (p ++ q)) (str_len p) = str_len (p ++ replicate n 61).
Proof.
  revert p q. induction fuel as [|fuel IH]; intros p q; cbn [padding_loop]; [by exists 0%nat, q; rewrite app_nil_r|].
  case_bool_decide as Hb; [|exists 0%nat, q; rewrite app_nil_r; split_and!; [lia|done|done]].
  apply ascii_at_boundary in Hb as [q' ->]; [|done]. destruct (IH (p ++ [61]) q') as (n & q2 & Hn & -> & Hl).
  exists (Datatypes.S n), q2. split_and!; [lia|done|]. rewrite <- !app_assoc, str_len_snoc in Hl.
  change (len_utf8 61) with 1 in Hl. exact Hl.
Qed.

(** Up to two [=] that close a base64 value. *)
Definition padding_of (decoder_name pad after : str) : Prop :=
  pad = [] \/ decoder_name = $"base64" /\ (pad = $"=" \/ pad = $"==") /\ ends_padding (as_bytes after !! 0%nat) = true.

Lemma consume_padding_spec p q : exists pad q', q = pad ++ q' /\ padding_of $"base64" pad q' /\
  consume_adjacent_base64_padding (as_bytes (p ++ q)) (str_len p) = str_len (p ++ pad).
Proof.
  unfold consume_adjacent_base64_padding. destruct (padding_loop_spec 2 p q) as (n & q' & Hn & -> & ->).
  assert (Hnone : exists pad q2, replicate n 61 ++ q' = pad ++ q2 /\ padding_of $"base64" pad q2 /\ str_len p = str_len (p ++ pad)).
  { exists [], (replicate n 61 ++ q'). split_and!; [done|by left|]. by rewrite app_nil_r. }
  case_match; [done|]. case_match; [|done]. exists (replicate n 61), q'. split_and!; [done| |done].
  destruct n as [|n]; [by left|]. right. split; [done|]. split.
  - destruct n as [|[|n]]; [by left|by right|lia].
  - rewrite app_assoc, as_bytes_app, lookup_app_r in H0 by (unfold str_len, zlen; lia).
    unfold str_len, zlen in H0. by rewrite Nat2Z.id, Nat.sub_diag in H0.
Qed.

(** ** The window around a decoded span *)

(** [ctx] is what is kept of a side of the parent: all of it when [dropped] is
    empty, and otherwise the context window rounded up to a character. *)
Definition context_side (ctx dropped : str) : Prop :=
  str_len ctx <= SPLICE_CONTEXT_WINDOW + 3 /\ (dropped = [] \/ SPLICE_CONTEXT_WINDOW <= str_len ctx).

(** The chunk [c] shows [text] in place of the part [m] of its parent. *)
Definition decoded_view (chunk : Chunk) (pre_m m post_m text decoder_name : str) (c : Chunk) : Prop :=
  exists dropped before pad after dropped',
    pre_m = dropped ++ before /\ post_m = pad ++ after ++ dropped' /\
    context_side before dropped /\ context_side after dropped' /\ padding_of decoder_name pad (after ++ dropped') /\
    data c = before ++ text ++ after /\
    metadata c = derived_metadata (metadata chunk)
      (saturating_add usize_max (base_offset (metadata chunk)) (str_len dropped))
      (saturating_add usize_max (base_line (metadata chunk)) (splice_bytecount_newlines (as_bytes dropped)))
      decoder_name (Some (str_len before, str_len (before ++ text))).

Lemma win_start_spec parent pre : (exists suf, parent = pre ++ suf) ->
  exists dropped before, pre = dropped ++ before /\ context_side before dropped /\
    floor_char_boundary parent (saturating_sub (str_len pre) SPLICE_CONTEXT_WINDOW) = str_len dropped.
Proof.
  intros [suf ->]. pose proof (str_len_nonneg pre). pose proof (str_len_nonneg suf).
  destruct (floor_char_boundary_spec (pre ++ suf) (saturating_sub (str_len pre) SPLICE_CONTEXT_WINDOW)) as [Hb Hr].
  { unfold saturating_sub. lia. }
  apply is_boundary_spec in Hb as (d & q & Heq & Hd). rewrite Hd in *. rewrite str_len_app in Hr.
  unfold saturating_sub, SPLICE_CONTEXT_WINDOW in *.
  destruct (cuts_nested d q pre suf) as (b & -> & _); [done|lia|]. exists d, b. split_and!; [done| |done].
  rewrite str_len_app in *. unfold context_side, SPLICE_CONTEXT_WINDOW. split; [lia|].
  destruct (decide (str_len d = 0)) as [E|]; [left; by apply str_len_0|right; pose proof (str_len_nonneg d); lia].
Qed.

Lemma win_end_spec parent front back : parent = front ++ back -> str_len parent <= isize_max ->
  exists after dropped, back = after ++ dropped /\ context_side after dropped /\
    ceil_char_boundary parent (saturating_add usize_max (str_len front) SPLICE_CONTEXT_WINDOW) = str_len (front ++ after).
Proof.
  intros -> Hmax. pose proof (str_len_nonneg front). pose proof (str_len_nonneg back).
  assert (isize_max + 1000 < usize_max) by done. rewrite str_len_app in Hmax.
  destruct (ceil_char_boundary_spec (front ++ back) (saturating_add usize_max (str_len front) SPLICE_CONTEXT_WINDOW)) as [Hb Hr].
  { unfold saturating_add, SPLICE_CONTEXT_WINDOW. lia. }
  apply is_boundary_spec in Hb as (d & q & Heq & Hd). rewrite Hd in *. rewrite str_len_app in Hr.
  unfold saturating_add, SPLICE_CONTEXT_WINDOW in *.
  destruct (cuts_nested front back d q) as (b & -> & ->); [done|lia|]. exists b, q. split_and!; [done| |done].
  rewrite !str_len_app in *. unfold context_side, SPLICE_CONTEXT_WINDOW. split; [lia|].
  destruct (decide (str_len q = 0)) as [E|]; [left; by apply str_len_0|right; pose proof (str_len_nonneg q); lia].
Qed.

Lemma splice_spec parent pre m post text name : parent = pre ++ m ++ post -> str_len parent <= isize_max ->
  exists dropped before pad after dropped',
    pre = dropped ++ before /\ post = pad ++ after ++ dropped' /\
    context_side before dropped /\ context_side after dropped' /\ padding_of name pad (after ++ dropped') /\
    splice_decoded_payload_at parent (str_len pre) (str_len (pre ++ m)) text name =
      Ret (Some (str_len dropped, before ++ text ++ after, str_len before)).
Proof.
  intros Hp Hmax. pose proof (str_len_nonneg m). unfold splice_decoded_payload_at.
  rewrite (proj2 (Z.ltb_ge _ _)) by (rewrite str_len_app; lia).
  rewrite (proj2 (Z.ltb_ge _ _)) by (rewrite Hp, !str_len_app; pose proof (str_len_nonneg post); lia).
  assert (is_boundary parent (str_len pre) = true /\ is_boundary parent (str_len (pre ++ m)) = true) as [-> ->].
  { apply (span_of_boundaries _ _ _ m). by exists pre, post. }
  cbn [orb negb].
  assert (exists pad back, post = pad ++ back /\ padding_of name pad back /\
    (if bool_decide (name = $"base64") then consume_adjacent_base64_padding (as_bytes parent) (str_len (pre ++ m)) else str_len (pre ++ m))
      = str_len (pre ++ m ++ pad)) as (pad & back & -> & Hpad & ->).
  { rewrite Hp, (app_assoc pre m post). case_bool_decide as Hn; [|exists [], post; rewrite app_nil_r; split_and!; [done|by left|done]].
    destruct (consume_padding_spec (pre ++ m) post) as (pad & back & -> & Hpad & ->). exists pad, back.
    rewrite Hn, <- app_assoc. done. }
  destruct (win_start_spec parent pre) as (dropped & before & Hpre & Hbef & ->); [eauto|].
  destruct (win_end_spec parent (pre ++ m ++ pad) back) as (after & dropped' & -> & Haft & ->); [by rewrite Hp, <- !app_assoc|done|].
  exists dropped, before, pad, after, dropped'. split_and!; [done..|].
  rewrite (str_slice_span parent (str_len dropped) (str_len pre) before).
  2: { exists dropped, (m ++ pad ++ after ++ dropped'). by rewrite Hp, Hpre, <- !app_assoc. }
  rewrite (str_slice_span parent (str_len (pre ++ m ++ pad)) (str_len ((pre ++ m ++ pad) ++ after)) after).
  2: { exists (pre ++ m ++ pad), dropped'. by rewrite Hp, <- !app_assoc. }
  do 3 f_equal. rewrite Hpre, str_len_app. lia.
Qed.

Lemma separate_controls_nil text : separate_controls text = [] -> text = [].
Proof. unfold separate_controls. case_match; [by destruct text|done]. Qed.

(** What is offered for a decoded part: nothing for no text, and else the one
    chunk that shows it. *)
Definition decoded_outputs (chunk : Chunk) (pre m post text decoder_name : str) (out : list Chunk) : Prop :=
  (text = [] /\ out = []) \/
  (text <> [] /\ exists c, out = [c] /\ decoded_view chunk pre m post (separate_controls text) decoder_name c).

Lemma push_spliced_spec chunk pre m post enc text name :
  data chunk = pre ++ m ++ post -> str_len (data chunk) <= isize_max -> enc <> [] ->
  exists out, decoded_outputs chunk pre m post text name out /\
    forall S (HS : DecodeOutputSink S) (s : S),
      push_decoded_text_chunk_spliced_at s chunk (Some (str_len pre, str_len (pre ++ m))) enc text name = Ret (push_all s out).
Proof.
  intros Hd Hmax Henc. unfold push_decoded_text_chunk_spliced_at.
  destruct (decide (text = [])) as [-> |Ht]; [by exists []; split; [left|]|].
  assert (Hs : separate_controls text <> []) by (by intros ?%separate_controls_nil).
  destruct (splice_spec _ _ _ _ (separate_controls text) name Hd Hmax)
    as (dropped & before & pad & after & dropped' & Hpre & Hpost & Hb & Ha & Hpad & Hsp).
  eexists [_]. split; [right; split; [done|]; eexists; split; [reflexivity|]|intros S HS s].
  2: { rewrite !bool_decide_false by done. rewrite Hsp, push_one. reflexivity. }
  exists dropped, before, pad, after, dropped'. split_and!; [done..|]. cbn [data metadata].
  f_equal; [|by rewrite str_len_app]. do 2 f_equal.
  rewrite Hd, Hpre, <- app_assoc, as_bytes_app. unfold str_len, zlen. by rewrite Nat2Z.id, take_app_length.
Qed.

(** ** Batches *)

(** Spans of a text from left to right: the gap before each, what it holds and
    what replaces it. *)
Record segment := mkSegment { seg_gap : str; seg_encoded : str; seg_decoded : str }.

Definition segs_source (segs : list segment) : str := concat (map (fun g => seg_gap g ++ seg_encoded g) segs).
Definition segs_result (segs : list segment) : str := concat (map (fun g => seg_gap g ++ seg_decoded g) segs).

(** The replacements of [segs], the first gap starting at the offset [pos]. *)
Fixpoint segs_replacements (pos : Z) (segs : list segment) : list replacement :=
  match segs with
  | [] => []
  | g :: rest =>
      let start := pos + str_len (seg_gap g) in
      let end_ := start + str_len (seg_encoded g) in
      (start, end_, seg_decoded g) :: segs_replacements end_ rest
  end.

Lemma segs_source_cons g segs : segs_source (g :: segs) = seg_gap g ++ seg_encoded g ++ segs_source segs.
Proof. unfold segs_source. cbn. by rewrite <- app_assoc. Qed.

Lemma segs_result_cons g segs : segs_result (g :: segs) = seg_gap g ++ seg_decoded g ++ segs_result segs.
Proof. unfold segs_result. cbn. by rewrite <- app_assoc. Qed.

Lemma segs_source_snoc segs g : segs_source (segs ++ [g]) = segs_source segs ++ seg_gap g ++ seg_encoded g.
Proof. unfold segs_source. rewrite map_app, concat_app. cbn. by rewrite app_nil_r. Qed.

Lemma segs_replacements_snoc pos segs g :
  segs_replacements pos (segs ++ [g]) = segs_replacements pos segs ++ segs_replacements (pos + str_len (segs_source segs)) [g].
Proof.
  revert pos. induction segs as [|h segs IH]; intros pos.
  - cbn -[str_len]. unfold segs_source. cbn [map concat]. rewrite str_len_nil. by replace (pos + 0) with pos by lia.
  - cbn [app segs_replacements]. rewrite IH, segs_source_cons, !str_len_app. cbn [app segs_replacements].
    by rewrite !Z.add_assoc.
Qed.

Lemma replace_loop_snoc ss rs a b d text :
  replace_loop ss (rs ++ [(a, b, d)]) text =
  let! t := replace_loop ss rs text in
  if (a <? ss) || (b <? ss) then Panic else replace_range t (a - ss) (b - ss) d.
Proof.
  revert text. induction rs as [|[[a' b'] d'] rs IH]; intros text; cbn [app replace_loop].
  - destruct ((a <? ss) || (b <? ss)); [done|]. by destruct (replace_range text (a - ss) (b - ss) d).
  - destruct ((a' <? ss) || (b' <? ss)); [done|]. destruct (replace_range text (a' - ss) (b' - ss) d'); [apply IH|done].
Qed.

Lemma replace_loop_segs ss p segs tail : 0 <= ss ->
  replace_loop ss (rev (segs_replacements (ss + str_len p) segs)) (p ++ segs_source segs ++ tail) = Ret (p ++ segs_result segs ++ tail).
Proof.
  intros Hss. revert p. induction segs as [|g segs IH]; intros p; [done|].
  cbn [segs_replacements rev]. rewrite replace_loop_snoc, segs_source_cons, segs_result_cons.
  specialize (IH (p ++ seg_gap g ++ seg_encoded g)). rewrite !str_len_app in IH.
  rewrite <- !Z.add_assoc. rewrite <- !app_assoc in IH |- *. rewrite IH.
  pose proof (str_len_nonneg p). pose proof (str_len_nonneg (seg_gap g)). pose proof (str_len_nonneg (seg_encoded g)).
  rewrite !(proj2 (Z.ltb_ge _ ss)) by lia. cbn [orb].
  replace (ss + (str_len p + str_len (seg_gap g)) - ss) with (str_len (p ++ seg_gap g)) by (rewrite str_len_app; lia).
  replace (ss + (str_len p + (str_len (seg_gap g) + str_len (seg_encoded g))) - ss)
    with (str_len ((p ++ seg_gap g) ++ seg_encoded g)) by (rewrite !str_len_app; lia).
  rewrite (app_assoc p (seg_gap g)), replace_range_app. by rewrite <- !app_assoc.
Qed.

(** What a batch of replacements turns into. *)
Definition batch_outputs (chunk : Chunk) (name : str) (batch : list replacement) (out : list Chunk) : Prop :=
  exists pre segs post,
    segs <> [] /\ data chunk = pre ++ segs_source segs ++ post /\ batch = segs_replacements (str_len pre) segs /\
    (length segs = 1%nat \/ str_len (segs_source segs) <= DECODE_REPLACEMENT_BATCH_SOURCE_BYTES) /\
    decoded_outputs chunk pre (segs_source segs) post (segs_result segs) name out.

Lemma push_batch_spec chunk name pre segs post :
  data chunk = pre ++ segs_source segs ++ post -> str_len (data chunk) <= isize_max -> segs <> [] ->
  Forall (fun g => seg_encoded g <> []) segs ->
  exists out, decoded_outputs chunk pre (segs_source segs) post (segs_result segs) name out /\
    forall S (HS : DecodeOutputSink S) (s : S),
      push_decoded_replacements_spliced s chunk (str_len pre) (str_len (pre ++ segs_source segs))
        (segs_replacements (str_len pre) segs) name = Ret (push_all s out).
Proof.
  intros Hd Hmax Hne Henc. assert (Hsrc : segs_source segs <> []).
  { destruct Henc as [|g segs Hg _]; [done|]. rewrite segs_source_cons. intros [_ [? _]%app_nil]%app_nil. done. }
  destruct (push_spliced_spec chunk pre (segs_source segs) post (segs_source segs) (segs_result segs) name) as (out & Hout & Hpush); [done..|].
  exists out. split; [done|]. intros S HS s. unfold push_decoded_replacements_spliced.
  rewrite bool_decide_false by (by destruct segs).
  rewrite (str_slice_span _ _ _ (segs_source segs)) by (by exists pre, post).
  pose proof (replace_loop_segs (str_len pre) [] segs [] (str_len_nonneg _)) as Hr.
  rewrite str_len_nil, Z.add_0_r, !app_nil_r in Hr. cbn [app] in Hr. by rewrite Hr.
Qed.

(** The state of a batch that holds [cur]. *)
Definition batch_state {S} (s : S) (pre : str) (cur : list segment) (be bytes_ : Z) : DecodedReplacementBatcher :=
  match cur with
  | [] => mkBatcher s usize_max be bytes_ []
  | _ => mkBatcher s (str_len pre) (str_len (pre ++ segs_source cur)) bytes_ (segs_replacements (str_len pre) cur)
  end.

Definition fits_batch (cur : list segment) : Prop :=
  (length cur <= 1)%nat \/ str_len (segs_source cur) <= DECODE_REPLACEMENT_BATCH_SOURCE_BYTES.

(** A segment that opens a batch leaves its gap to the text before it. *)
Definition opening (g : segment) : segment := mkSegment [] (seg_encoded g) (seg_decoded g).

Lemma opening_add {S} (s : S) pos g be bytes_ :
  batcher_add (mkBatcher s usize_max be bytes_ []) (str_len pos + str_len (seg_gap g),
      str_len pos + str_len (seg_gap g) + str_len (seg_encoded g), seg_decoded g) =
  batch_state s (pos ++ seg_gap g) [opening g] 0 (saturating_add usize_max bytes_ (str_len (seg_decoded g))).
Proof.
  unfold batcher_add, batch_state, opening, segs_source. cbn -[str_len saturating_add usize_max].
  by rewrite Z.eqb_refl, !app_nil_r, !str_len_app, str_len_nil, Z.add_0_r.
Qed.

Lemma extending_add {S} (s : S) pre cur g be bytes_ : cur <> [] -> str_len pre < usize_max ->
  batcher_add (batch_state s pre cur be bytes_) (str_len (pre ++ segs_source cur) + str_len (seg_gap g),
      str_len (pre ++ segs_source cur) + str_len (seg_gap g) + str_len (seg_encoded g), seg_decoded g) =
  batch_state s pre (cur ++ [g]) be (saturating_add usize_max bytes_ (str_len (seg_decoded g))).
Proof.
  intros Hne Hlt. destruct cur as [|h cur]; [done|]. unfold batcher_add, batch_state.
  cbn [b_sink batch_start batch_decoded_bytes b_replacements]. rewrite (proj2 (Z.eqb_neq _ _)) by lia.
  rewrite segs_source_snoc, segs_replacements_snoc. cbn [app]. f_equal.
  - rewrite !str_len_app. lia.
  - by rewrite str_len_app.
Qed.

(** Whether the state of a batch makes room first. *)
Definition closes_batch {S} (b : @DecodedReplacementBatcher S) (end_ : Z) (decoded : str) : bool :=
  exceeds_source_bound b end_ || exceeds_output_bound b decoded.

Lemma closes_batch_sink {S T} (s : S) (t : T) pre cur be bytes_ end_ decoded :
  closes_batch (batch_state s pre cur be bytes_) end_ decoded = closes_batch (batch_state t pre cur be bytes_) end_ decoded.
Proof. by destruct cur. Qed.

Lemma open_batch_fits pre cur g be bytes_ : cur <> [] -> str_len pre < usize_max ->
  closes_batch (batch_state tt pre cur be bytes_) (str_len (pre ++ segs_source cur) + str_len (seg_gap g) + str_len (seg_encoded g))
    (seg_decoded g) = false -> fits_batch (cur ++ [g]).
Proof.
  intros Hne Hlt [Hs _]%orb_false_iff. right. destruct cur as [|h cur]; [done|]. unfold exceeds_source_bound, batch_state in Hs.
  cbn [batch_start] in Hs. rewrite (proj2 (Z.eqb_neq _ _)) in Hs by lia. cbn [negb andb] in Hs. apply Z.ltb_ge in Hs.
  rewrite segs_source_snoc. unfold saturating_sub in Hs. rewrite !str_len_app in *. lia.
Qed.

Section batches.
Context (chunk : Chunk) (name : str) (Hmax : str_len (data chunk) <= isize_max).

(** The loop, from a batch that holds [cur] with [rest] still to come. *)
Definition loop_outputs (pre : str) (cur rest : list segment) (be bytes_ : Z) : Prop :=
  exists batches outs,
    segs_replacements (str_len pre) cur ++ segs_replacements (str_len (pre ++ segs_source cur)) rest = concat batches /\
    Forall2 (batch_outputs chunk name) batches outs /\
    forall S (HS : DecodeOutputSink S) (s : S),
      stream_batched_loop chunk name (batch_state s pre cur be bytes_) (segs_replacements (str_len (pre ++ segs_source cur)) rest)
      = Ret (push_all s (concat outs)).

Lemma push_current pre cur post be bytes_ :
  data chunk = pre ++ segs_source cur ++ post -> cur <> [] -> fits_batch cur -> Forall (fun g => seg_encoded g <> []) cur ->
  exists out, batch_outputs chunk name (segs_replacements (str_len pre) cur) out /\
    forall S (HS : DecodeOutputSink S) (s : S),
      let b := batch_state s pre cur be bytes_ in
      push_decoded_replacements_spliced (b_sink b) chunk (batch_start b) (batch_end b) (b_replacements b) name = Ret (push_all s out).
Proof.
  intros Hd Hne Hfit Henc. destruct (push_batch_spec chunk name pre cur post) as (out & Hout & Hpush); [done..|].
  exists out. split.
  - exists pre, cur, post. split_and!; [done..| |done]. destruct Hfit as [Hl|]; [left; destruct cur as [|? []]; cbn in *; done || lia|by right].
  - intros S HS s. destruct cur; [done|]. apply Hpush.
Qed.

(** A turn of the loop, with the decision taken off the sink. *)
Lemma stream_turn {S} `{DecodeOutputSink S} (s : S) pre cur be bytes_ start end_ decoded rs :
  stream_batched_loop chunk name (batch_state s pre cur be bytes_) ((start, end_, decoded) :: rs) =
  let b := batch_state s pre cur be bytes_ in
  if closes_batch (batch_state tt pre cur be bytes_) end_ decoded then
    let! (s, open) :=
      push_decoded_replacements_spliced (b_sink b) chunk (batch_start b) (batch_end b) (b_replacements b) name in
    if negb open then Ret (s, false)
    else stream_batched_loop chunk name (batcher_add (mkBatcher s usize_max (batch_end b) 0 []) (start, end_, decoded)) rs
  else stream_batched_loop chunk name (batcher_add b (start, end_, decoded)) rs.
Proof. cbn [stream_batched_loop]. rewrite <- (closes_batch_sink s tt). reflexivity. Qed.

Lemma opening_position pos g :
  str_len ((pos ++ seg_gap g) ++ segs_source [opening g]) = str_len pos + str_len (seg_gap g) + str_len (seg_encoded g) /\
  segs_replacements (str_len (pos ++ seg_gap g)) [opening g] =
    [(str_len pos + str_len (seg_gap g), str_len pos + str_len (seg_gap g) + str_len (seg_encoded g), seg_decoded g)].
Proof.
  split; [unfold segs_source; cbn; by rewrite !app_nil_r, !str_len_app|].
  cbn -[str_len]. by rewrite str_len_nil, Z.add_0_r, str_len_app.
Qed.

(** The batch is pushed and [g] opens the next one. *)
Lemma closing_step pre cur post g rest be bytes_ :
  data chunk = pre ++ segs_source cur ++ post -> cur <> [] -> fits_batch cur -> Forall (fun h => seg_encoded h <> []) cur ->
  closes_batch (batch_state tt pre cur be bytes_)
    (str_len (pre ++ segs_source cur) + str_len (seg_gap g) + str_len (seg_encoded g)) (seg_decoded g) = true ->
  loop_outputs ((pre ++ segs_source cur) ++ seg_gap g) [opening g] rest 0 (saturating_add usize_max 0 (str_len (seg_decoded g))) ->
  loop_outputs pre cur (g :: rest) be bytes_.
Proof.
  intros Hd Hne Hfit Hc Ecl (batches & outs & Hb & Hv & Hl).
  destruct (push_current pre cur post be bytes_) as (out & Hout & Hpush); [done..|].
  destruct (opening_position (pre ++ segs_source cur) g) as [Hpos Hfirst]. rewrite Hpos in Hb, Hl.
  exists (segs_replacements (str_len pre) cur :: batches), (out :: outs). cbn [segs_replacements concat]. split_and!.
  - by rewrite <- Hb, Hfirst.
  - by constructor.
  - intros S HS s. rewrite stream_turn. cbv zeta. rewrite Ecl, (Hpush S HS s), push_all_app.
    destruct (push_all s out) as [s' []]; [|done]. cbn [negb]. rewrite opening_add. apply (Hl S HS s').
Qed.

(** [g] opens the first batch. *)
Lemma opening_step pre g rest be bytes_ :
  loop_outputs (pre ++ seg_gap g) [opening g] rest 0 (saturating_add usize_max bytes_ (str_len (seg_decoded g))) ->
  loop_outputs pre [] (g :: rest) be bytes_.
Proof.
  intros (batches & outs & Hb & Hv & Hl). destruct (opening_position pre g) as [Hpos Hfirst]. rewrite Hpos in Hb, Hl.
  exists batches, outs. cbn [segs_replacements app]. change (segs_source []) with ([] : str). rewrite app_nil_r.
  split_and!; [by rewrite <- Hb, Hfirst|done|]. intros S HS s. rewrite stream_turn. cbv zeta.
  replace (closes_batch _ _ _) with false by (unfold closes_batch, exceeds_source_bound, exceeds_output_bound; cbn; by rewrite Z.eqb_refl).
  unfold batch_state. rewrite opening_add. apply (Hl S HS s).
Qed.

(** [g] joins the batch. *)
Lemma extending_step pre cur g rest be bytes_ : cur <> [] -> str_len pre < usize_max ->
  closes_batch (batch_state tt pre cur be bytes_)
    (str_len (pre ++ segs_source cur) + str_len (seg_gap g) + str_len (seg_encoded g)) (seg_decoded g) = false ->
  loop_outputs pre (cur ++ [g]) rest be (saturating_add usize_max bytes_ (str_len (seg_decoded g))) ->
  loop_outputs pre cur (g :: rest) be bytes_.
Proof.
  intros Hne Hlt Ecl (batches & outs & Hb & Hv & Hl).
  assert (Hend : str_len (pre ++ segs_source (cur ++ [g])) =
    str_len (pre ++ segs_source cur) + str_len (seg_gap g) + str_len (seg_encoded g)).
  { rewrite segs_source_snoc, !str_len_app. lia. }
  rewrite Hend in Hb, Hl. exists batches, outs. split_and!; [|done|].
  - rewrite <- Hb, segs_replacements_snoc, <- app_assoc, <- str_len_app. done.
  - intros S HS s. cbn [segs_replacements]. rewrite stream_turn. cbv zeta.
    rewrite Ecl, extending_add by done. apply (Hl S HS s).
Qed.

Lemma stream_loop_outputs rest pre cur be bytes_ tail :
  data chunk = pre ++ segs_source cur ++ segs_source rest ++ tail -> fits_batch cur ->
  Forall (fun g => seg_encoded g <> []) cur -> Forall (fun g => seg_encoded g <> []) rest ->
  loop_outputs pre cur rest be bytes_.
Proof.
  revert pre cur be bytes_. induction rest as [|g rest IH]; intros pre cur be bytes_ Hd Hfit Hc Hr.
  - destruct (decide (cur = [])) as [-> |Hne]; [by exists [], []|].
    destruct (push_current pre cur tail be bytes_) as (out & Hout & Hpush); [done..|].
    exists [segs_replacements (str_len pre) cur], [out]. cbn [segs_replacements concat].
    rewrite !app_nil_r. split_and!; [done|by constructor|]. intros S HS s. apply (Hpush S HS s).
  - apply Forall_cons in Hr as [Hg Hr]. rewrite segs_source_cons, <- !app_assoc in Hd.
    assert (Hopen : forall b, loop_outputs ((pre ++ segs_source cur) ++ seg_gap g) [opening g] rest 0 b).
    { intros b. apply IH; [|by left|by repeat constructor|done].
      rewrite segs_source_cons. cbn. by rewrite <- !app_assoc. }
    destruct (decide (cur = [])) as [-> |Hne]; [apply opening_step; specialize (Hopen (saturating_add usize_max bytes_ (str_len (seg_decoded g)))); by rewrite app_nil_r in Hopen|].
    destruct (closes_batch (batch_state tt pre cur be bytes_)
      (str_len (pre ++ segs_source cur) + str_len (seg_gap g) + str_len (seg_encoded g)) (seg_decoded g)) eqn:Ecl; [by eapply closing_step|].
    assert (str_len pre < usize_max).
    { assert (isize_max < usize_max) by done. rewrite Hd, str_len_app in Hmax.
      match type of Hmax with _ + str_len ?x <= _ => pose proof (str_len_nonneg x) end. lia. }
    apply extending_step; [done..|]. apply IH; [by rewrite segs_source_snoc, Hd, <- !app_assoc|by eapply open_batch_fits| |done].
    apply Forall_app. by split; [|apply Forall_singleton].
Qed.
End batches.

Lemma stream_outputs chunk name segs tail :
  str_len (data chunk) <= isize_max -> data chunk = segs_source segs ++ tail -> Forall (fun g => seg_encoded g <> []) segs ->
  exists batches outs,
    segs_replacements 0 segs = concat batches /\ Forall2 (batch_outputs chunk name) batches outs /\
    forall S (HS : DecodeOutputSink S) (s : S),
      stream_batched_decoded_replacements chunk name s (segs_replacements 0 segs) = Ret (push_all s (concat outs)).
Proof.
  intros Hmax Hd Henc. apply (stream_loop_outputs chunk name Hmax segs [] [] 0 0 tail); [done|by left; cbn; lia|done..].
Qed.

(** C12. Replacing spans of a chunk in batches is exact.  For any spans of the
    text from left to right, none overlapping another, the stream never panics,
    stops as soon as the sink closes, and otherwise offers one chunk per batch:
    the batches split the replacements in order, each batch covers at most 64 KiB
    of source unless it holds a single span, and its chunk is the parent's text
    with exactly those spans replaced, in a context of 512 bytes on each side
    (rounded to characters), with the offset, line number and decoded span of
    that window. *)
Theorem batched_replacements_exact (chunk : Chunk) (name : str) (segs : list segment) (tail : str) :
  str_len (data chunk) <= isize_max -> data chunk = segs_source segs ++ tail -> Forall (fun g => seg_encoded g <> []) segs ->
  exists batches outs,
    segs_replacements 0 segs = concat batches /\ Forall2 (batch_outputs chunk name) batches outs /\
    forall S (HS : DecodeOutputSink S) (s : S),
      stream_batched_decoded_replacements chunk name s (segs_replacements 0 segs) = Ret (push_all s (concat outs)).
Proof. apply stream_outputs. Qed.

(** A text with two spans to replace. *)
Definition sample_segments : list segment := [mkSegment $"a=" $"%41%42" $"AB"; mkSegment $" b=" $"%43" $"C"].
Definition sample_metadata : ChunkMetadata := mkChunkMetadata $"fs" (Some $"a.env") None None None 100 7 None None None None.
Definition sample_chunk : Chunk := mkChunk (segs_source sample_segments ++ $";") sample_metadata.

Lemma batched_replacements_exact_witness :
  (str_len (data sample_chunk) <= isize_max /\ Forall (fun g => seg_encoded g <> []) sample_segments) /\
  exists batches outs,
    segs_replacements 0 sample_segments = concat batches /\ Forall2 (batch_outputs sample_chunk $"url") batches outs /\
    forall S (HS : DecodeOutputSink S) (s : S),
      stream_batched_decoded_replacements sample_chunk $"url" s (segs_replacements 0 sample_segments) = Ret (push_all s (concat outs)).
Proof.
  assert (H : str_len (data sample_chunk) <= isize_max /\ Forall (fun g => seg_encoded g <> []) sample_segments).
  { split; [vm_compute; discriminate|]. repeat (apply Forall_cons; split; [discriminate|]). apply Forall_nil. done. }
  split; [exact H|]. apply (batched_replacements_exact sample_chunk $"url" sample_segments $";"); [apply H|reflexivity|apply H].
Defined.

(** ** The batcher *)

(** How a decoder drives its batcher: candidates are pushed while the sink is
    open, and an open batcher is finished. *)
Fixpoint batcher_run {S} `{DecodeOutputSink S} (chunk : Chunk) (name : str) (b : DecodedReplacementBatcher)
    (rs : list replacement) : outcome (S * bool) :=
  match rs with
  | [] => batcher_finish chunk name b
  | r :: rest =>
      let! (b, open) := batcher_push chunk name b r in
      if open then batcher_run chunk name b rest else Ret (b_sink b, false)
  end.

Lemma batcher_is_stream {S} `{DecodeOutputSink S} chunk name (b : @DecodedReplacementBatcher S) rs :
  batcher_run chunk name b rs = stream_batched_loop chunk name b rs.
Proof.
  revert b. induction rs as [|[[start end_] decoded] rs IH]; intros b; cbn [batcher_run stream_batched_loop].
  - unfold batcher_finish, batcher_flush. by destruct (push_decoded_replacements_spliced _ _ _ _ _ _) as [[s o]|].
  - unfold batcher_push. destruct (exceeds_source_bound b end_ || exceeds_output_bound b decoded); [|apply IH].
    unfold batcher_flush. destruct (push_decoded_replacements_spliced _ _ _ _ _ _) as [[s []]|]; [apply IH|done..].
Qed.
