(* ===== verification/DecodeCodecs.v ===== *)
(** * The codecs of decode-through ([crates/scanner/src/decode])

    Each codec turns an encoded candidate or line into text, or fails: percent
    and quoted-printable octets, MIME words, HTML entities, octal, Unicode and
    JSON escapes ([url.rs], [unicode_escape.rs], [json.rs], [util.rs]), and hex,
    base64 and Z85 digits ([hex.rs], [base64.rs]).  [Err(())] is [None]. *)

From S2P Require Import Prelude Utf8 StrOffsets.

(** ** Shared readers ([util.rs]) *)

Definition char_from_u32 (c : Z) : option Z := if bool_decide (is_scalar c) then Some c else None.

Definition simple_control_escape (escaped : Z) : option Z :=
  if escaped =? 98 then Some 8
  else if escaped =? 102 then Some 12
  else if escaped =? 110 then Some 10
  else if escaped =? 114 then Some 13
  else if escaped =? 116 then Some 9
  else None.

(** The value of [count] digits and the characters after them. *)
Fixpoint hex_digits_loop (count : nat) (value : Z) (chars : str) : option (Z * str) :=
  match count with
  | O => Some (value, chars)
  | S count' =>
      match chars with
      | [] => None
      | ch :: rest =>
          match to_digit 16 ch with
          | Some d => hex_digits_loop count' (Z.lor (Z.shiftl value 4) d) rest
          | None => None
          end
      end
  end.

Definition take_hex_digits (chars : str) (count : nat) : option (Z * str) := hex_digits_loop count 0 chars.

Definition surrogate_pair_to_char (high low : Z) : option Z :=
  char_from_u32 (0x10000 + Z.lor (Z.shiftl (high - 0xD800) 10) (low - 0xDC00)).

Definition resolve_escaped_codepoint (code : Z) (chars : str) : option (Z * str) :=
  if in_range 0xD800 0xDBFF code then
    match chars with
    | 92 :: 117 :: rest =>
        match take_hex_digits rest 4 with
        | Some (low, rest) =>
            if negb (in_range 0xDC00 0xDFFF low) then None
            else match surrogate_pair_to_char code low with Some c => Some (c, rest) | None => None end
        | None => None
        end
    | _ => None
    end
  else if in_range 0xDC00 0xDFFF code then None
  else match char_from_u32 code with Some c => Some (c, chars) | None => None end.

(** The output, started with the text before the first change. *)
Definition lazy_decoded_prefix (decoded : option str) (prefix : str) : str := default prefix decoded.

(** [if let Some(decoded) = decoded.as_mut() { decoded.push(ch) }] *)
Definition push_if_started (decoded : option str) (s : str) : option str := (fun d => d ++ s) <$> decoded.

Definition hex_val (byte : Z) : option Z :=
  if in_range 48 57 byte then Some (byte - 48)
  else if in_range 97 102 byte then Some (byte - 97 + 10)
  else if in_range 65 70 byte then Some (byte - 65 + 10)
  else None.

(** ** JSON and Unicode escapes *)

(** Every turn consumes a character, so the length of the input is enough fuel. *)
Fixpoint json_unescape_loop (fuel : nat) (decoded : str) (chars : str) : option str :=
  match fuel, chars with
  | _, [] => Some decoded
  | O, _ => None
  | S fuel', ch :: rest =>
      if negb (ch =? 92) then json_unescape_loop fuel' (decoded ++ [ch]) rest
      else
        match rest with
        | [] => None
        | escaped :: rest =>
            if (escaped =? 34) || (escaped =? 92) || (escaped =? 47) then json_unescape_loop fuel' (decoded ++ [escaped]) rest
            else if escaped =? 117 then
              match take_hex_digits rest 4 with
              | Some (code, rest) =>
                  match resolve_escaped_codepoint code rest with
                  | Some (c, rest) => json_unescape_loop fuel' (decoded ++ [c]) rest
                  | None => None
                  end
              | None => None
              end
            else
              match simple_control_escape escaped with
              | Some c => json_unescape_loop fuel' (decoded ++ [c]) rest
              | None => None
              end
        end
  end.

Definition json_unescape (input : str) : option str := json_unescape_loop (length input) [] input.

(** [done_] is the text before the current character, [&input[..idx]]. *)
Fixpoint unicode_escape_loop (fuel : nat) (done_ : str) (decoded : option str) (chars : str) : option str :=
  match fuel, chars with
  | _, [] => decoded
  | O, _ => None
  | S fuel', ch :: rest =>
      if negb (ch =? 92) then unicode_escape_loop fuel' (done_ ++ [ch]) (push_if_started decoded [ch]) rest
      else
        match rest with
        | [] => None
        | escaped :: rest =>
            let resume c rest' :=
              unicode_escape_loop fuel' [] (Some (lazy_decoded_prefix decoded done_ ++ [c])) rest' in
            if escaped =? 117 then
              match take_hex_digits rest 4 with
              | Some (code, rest) =>
                  match resolve_escaped_codepoint code rest with
                  | Some (c, rest) => resume c rest
                  | None => None
                  end
              | None => None
              end
            else if escaped =? 120 then
              match take_hex_digits rest 2 with
              | Some (code, rest) => match char_from_u32 code with Some c => resume c rest | None => None end
              | None => None
              end
            else resume (default escaped (simple_control_escape escaped)) rest
        end
  end.

Definition unicode_escape_decode (input : str) : option str := unicode_escape_loop (length input) [] None input.

(** ** Percent and quoted-printable octets *)

(** [memchr] copies up to the next [%], which is byte by byte here. *)
Fixpoint percent_loop (bs : bytes) : bytes :=
  match bs with
  | [] => []
  | b :: rest =>
      if negb (b =? 37) then b :: percent_loop rest
      else
        match rest with
        | h :: l :: rest' =>
            match hex_val h, hex_val l with
            | Some high, Some low => Z.lor (shl8 high 4) low :: percent_loop rest'
            | _, _ => 37 :: percent_loop rest
            end
        | _ => 37 :: percent_loop rest
        end
  end.

Definition percent_decode (input : str) : option str := from_utf8 (percent_loop (as_bytes input)).

(** [%] (or [=]) and two hex digits. *)
Definition escape_at (opener : Z) (bs : bytes) : bool :=
  match bs with
  | o :: h :: l :: _ => (o =? opener) && is_ascii_hexdigit h && is_ascii_hexdigit l
  | _ => false
  end.

Fixpoint contains_escape (opener : Z) (bs : bytes) : bool :=
  match bs with
  | [] => false
  | _ :: rest => escape_at opener bs || contains_escape opener rest
  end.

Definition contains_percent_escape (input : str) : bool := contains_escape 37 (as_bytes input).
Definition has_qp_escape (input : str) : bool := contains_escape 61 (as_bytes input).

Definition url_decode (input : str) : option str :=
  if negb (contains_percent_escape input) then None else percent_decode input.

(** Escapes counted without overlap. *)
Fixpoint escape_count_fuel (fuel : nat) (opener : Z) (bs : bytes) : Z :=
  match fuel, bs with
  | S fuel', _ :: rest =>
      if escape_at opener bs then 1 + escape_count_fuel fuel' opener (drop 3 bs) else escape_count_fuel fuel' opener rest
  | _, _ => 0
  end.

Definition percent_escape_count (input : str) : Z := escape_count_fuel (length (as_bytes input)) 37 (as_bytes input).
Definition qp_escape_count (input : str) : Z := escape_count_fuel (length (as_bytes input)) 61 (as_bytes input).

Fixpoint quoted_printable_loop (bs : bytes) : bytes :=
  match bs with
  | [] => []
  | b :: rest =>
      if negb (b =? 61) then b :: quoted_printable_loop rest
      else
        match rest with
        | [] => [61]
        | first :: rest' =>
            if first =? 10 then quoted_printable_loop rest'
            else if first =? 13 then
              match rest' with
              | [] => []
              | second :: rest'' => if second =? 10 then quoted_printable_loop rest'' else quoted_printable_loop rest'
              end
            else
              match hex_val first, rest' with
              | Some high, l :: rest'' =>
                  match hex_val l with
                  | Some low => Z.lor (shl8 high 4) low :: quoted_printable_loop rest''
                  | None => 61 :: quoted_printable_loop rest
                  end
              | _, _ => 61 :: quoted_printable_loop rest
              end
        end
  end.

Definition quoted_printable_decode (input : str) : option str := from_utf8 (quoted_printable_loop (as_bytes input)).

Fixpoint mime_q_loop (bs : bytes) : option bytes :=
  match bs with
  | [] => Some []
  | b :: rest =>
      let keep c := match mime_q_loop rest with Some out => Some (c :: out) | None => None end in
      if b =? 61 then
        match rest with
        | h :: l :: rest' =>
            match hex_val h, hex_val l with
            | Some high, Some low =>
                match mime_q_loop rest' with Some out => Some (Z.lor (shl8 high 4) low :: out) | None => None end
            | _, _ => None
            end
        | _ => keep 61
        end
      else if b =? 95 then keep 32
      else keep b
  end.

Definition mime_q_decode (input : str) : option bytes := mime_q_loop (as_bytes input).

(** ** Octal escapes and HTML entities *)

(** Up to [n] octal digits; [value << 3] on [u8] loses its top bits. *)
Fixpoint octal_digits (n : nat) (value : Z) (chars : str) : Z * str :=
  match n, chars with
  | S n', d :: rest =>
      if in_range 48 55 d then octal_digits n' (Z.lor (shl8 value 3) (d - 48)) rest else (value, chars)
  | _, _ => (value, chars)
  end.

Fixpoint octal_escape_loop (fuel : nat) (done_ : str) (decoded : option str) (chars : str) : option str :=
  match fuel, chars with
  | S fuel', ch :: rest =>
      if (ch =? 92) && match rest with d :: _ => in_range 48 55 d | [] => false end then
        let '(value, rest) := octal_digits 3 0 rest in
        octal_escape_loop fuel' [] (Some (lazy_decoded_prefix decoded done_ ++ [value])) rest
      else octal_escape_loop fuel' (done_ ++ [ch]) (push_if_started decoded [ch]) rest
  | _, _ => decoded
  end.

Definition octal_escape_decode (input : str) : option str := octal_escape_loop (length input) [] None input.

Fixpoint contains_octal_bytes (bs : bytes) : bool :=
  match bs with
  | a :: ((b :: _) as rest) => ((a =? 92) && in_range 48 55 b) || contains_octal_bytes rest
  | _ => false
  end.

Definition contains_octal_escape (input : str) : bool := contains_octal_bytes (as_bytes input).

(** [rules/html-named-entities.toml] *)
Definition HTML_NAMED_ENTITIES : gmap str Z :=
  list_to_map [($"amp;", 38); ($"lt;", 60); ($"gt;", 62); ($"quot;", 34); ($"apos;", 39); ($"nbsp;", 32)].

(** The characters up to [;], at most eleven bytes. *)
Fixpoint entity_loop (entity : str) (chars : str) : str * str :=
  match chars with
  | [] => (entity, [])
  | next :: rest =>
      let entity := entity ++ [next] in
      if (next =? 59) || (10 <? str_len entity) then (entity, rest) else entity_loop entity rest
  end.

Fixpoint html_named_loop (fuel : nat) (done_ : str) (decoded : option str) (chars : str) : option str :=
  match fuel, chars with
  | S fuel', ch :: rest =>
      if negb (ch =? 38) then html_named_loop fuel' (done_ ++ [ch]) (push_if_started decoded [ch]) rest
      else
        let '(entity, rest) := entity_loop [] rest in
        match HTML_NAMED_ENTITIES !! entity with
        | Some replacement => html_named_loop fuel' [] (Some (lazy_decoded_prefix decoded done_ ++ [replacement])) rest
        | None => html_named_loop fuel' (done_ ++ [38] ++ entity) (push_if_started decoded ([38] ++ entity)) rest
        end
  | _, _ => decoded
  end.

Definition html_named_entity_decode (input : str) : option str := html_named_loop (length input) [] None input.

Definition MAX_NUMERIC_ENTITY_DIGITS : Z := 10.

(** How the digits of a numeric entity end. *)
Inductive digits_end :=
  | Terminated                                          (** at [;] *)
  | EndOfInput
  | NotADigit (next : Z)                                (** consumed *)
  | TooManyDigits.

Fixpoint entity_digits (is_hex : bool) (digits : str) (chars : str) : str * digits_end * str :=
  match chars with
  | [] => (digits, EndOfInput, [])
  | next :: rest =>
      if next =? 59 then (digits, Terminated, rest)
      else
        let is_digit := (is_hex && is_ascii_hexdigit next) || (negb is_hex && is_ascii_digit next) in
        if is_digit && (zlen digits <? MAX_NUMERIC_ENTITY_DIGITS) then entity_digits is_hex (digits ++ [next]) rest
        else if negb is_digit then (digits, NotADigit next, rest)
        else (digits, TooManyDigits, chars)
  end.

(** The opener and the digits, as they are put back. *)
Definition entity_literal (is_hex : bool) (digits : str) : str := $"&#" ++ (if is_hex then $"x" else []) ++ digits.

Definition numeric_replacement (is_hex : bool) (digits : str) : option Z :=
  match from_str_radix (if is_hex then 16 else 10) u32_max digits with
  | Some codepoint => char_from_u32 codepoint
  | None => None
  end.

Fixpoint html_numeric_loop (fuel : nat) (done_ : str) (decoded : option str) (changed : bool) (chars : str) : option str :=
  match fuel, chars with
  | S fuel', ch :: rest =>
      match (if ch =? 38 then rest else []) with
      | 35 :: rest =>
          let is_hex := match rest with x :: _ => (x =? 120) || (x =? 88) | [] => false end in
          let '(digits, ending, rest) := entity_digits is_hex [] (if is_hex then drop 1 rest else rest) in
          let out s := Some (lazy_decoded_prefix decoded done_ ++ s) in
          let literal := entity_literal is_hex digits in
          let emit_literal := out (literal ++ match ending with Terminated => $";" | _ => [] end) in
          match ending with
          | NotADigit next => html_numeric_loop fuel' [] (out (literal ++ [next])) changed rest
          | TooManyDigits => html_numeric_loop fuel' [] (out literal) changed rest
          | Terminated | EndOfInput =>
              if bool_decide (digits = []) then html_numeric_loop fuel' [] emit_literal changed rest
              else
                match numeric_replacement is_hex digits with
                | Some replacement => html_numeric_loop fuel' [] (out [replacement]) true rest
                | None => html_numeric_loop fuel' [] emit_literal changed rest
                end
          end
      | _ => html_numeric_loop fuel' (done_ ++ [ch]) (push_if_started decoded [ch]) changed rest
      end
  | _, _ => if changed then decoded else None
  end.

Definition html_numeric_entity_decode (input : str) : option str := html_numeric_loop (length input) [] None false input.

(** ** Base64, MIME words, hex and Z85 *)

Inductive Base64Variant := Standard | StandardNoPad | UrlSafe | UrlSafeNoPad.

(** The decoders of the crates [base64_simd] and [hex_simd]. *)
Class CodecCrates := {
  base64_simd_decode : Base64Variant -> bytes -> option bytes;
  hex_simd_decode : bytes -> option bytes
}.

Record Base64CandidateFacts := mkFacts {
  has_standard : bool; has_urlsafe : bool; padded : bool; has_plus : bool; has_slash : bool; distinct_alnum : Z }.

Fixpoint scan_base64_loop (index padding_len : Z) (seen_alnum : list Z) (f : Base64CandidateFacts) (bs : bytes) :
    option Base64CandidateFacts :=
  match bs with
  | [] => Some f
  | byte :: rest =>
      if is_ascii_alphanumeric byte && negb (padded f) then
        if bool_decide (byte ∈ seen_alnum) then scan_base64_loop (index + 1) padding_len seen_alnum f rest
        else scan_base64_loop (index + 1) padding_len (byte :: seen_alnum)
               (mkFacts (has_standard f) (has_urlsafe f) (padded f) (has_plus f) (has_slash f) (distinct_alnum f + 1)) rest
      else if (byte =? 43) && negb (padded f) then
        scan_base64_loop (index + 1) padding_len seen_alnum
          (mkFacts true (has_urlsafe f) (padded f) true (has_slash f) (distinct_alnum f)) rest
      else if (byte =? 47) && negb (padded f) then
        scan_base64_loop (index + 1) padding_len seen_alnum
          (mkFacts true (has_urlsafe f) (padded f) (has_plus f) true (distinct_alnum f)) rest
      else if ((byte =? 45) || (byte =? 95)) && negb (padded f) then
        scan_base64_loop (index + 1) padding_len seen_alnum
          (mkFacts (has_standard f) true (padded f) (has_plus f) (has_slash f) (distinct_alnum f)) rest
      else if byte =? 61 then
        if index =? 0 then None
        else if 2 <? padding_len + 1 then None
        else scan_base64_loop (index + 1) (padding_len + 1) seen_alnum
               (mkFacts (has_standard f) (has_urlsafe f) true (has_plus f) (has_slash f) (distinct_alnum f)) rest
      else None
  end.

Definition scan_base64_candidate (candidate : str) : option Base64CandidateFacts :=
  scan_base64_loop 0 0 [] (mkFacts false false false false false 0) (as_bytes candidate).

Definition classify_base64 (candidate : str) : option Base64Variant :=
  match scan_base64_candidate candidate with
  | None => None
  | Some f =>
      if has_standard f && has_urlsafe f then None
      else
        let r := str_len candidate mod 4 in
        if padded f then
          if r =? 0 then Some (if has_urlsafe f then UrlSafe else Standard) else None
        else if r =? 1 then None
        else if has_urlsafe f then Some UrlSafeNoPad
        else if r =? 0 then Some Standard
        else Some StandardNoPad
  end.

Definition DECODE_UNIT : Z := 16 * (1024 * 1024).
Definition MAX_BASE64_INPUT_LEN : Z := DECODE_UNIT.
Definition MAX_Z85_INPUT_LEN : Z := DECODE_UNIT.
Definition MAX_HEX_INPUT_LEN : Z := DECODE_UNIT * 2.

Section crates.
Context `{CodecCrates}.

Definition base64_decode_with_variant (input : str) (variant : Base64Variant) : option bytes :=
  base64_simd_decode variant (as_bytes input).

Definition base64_decode (input : str) : option bytes :=
  if MAX_BASE64_INPUT_LEN <? str_len input then None
  else match classify_base64 input with Some variant => base64_decode_with_variant input variant | None => None end.

(** [inner.splitn(3, '?')]: [None] when there are fewer than three parts. *)
Definition mime_parts (inner : str) : option (str * str * str) :=
  match split_once $"?" inner with
  | Some (charset, rest) =>
      match split_once $"?" rest with Some (encoding, encoded) => Some (charset, encoding, encoded) | None => None end
  | None => None
  end.

(** [&input[2..input.len() - 2]] cuts off the two markers, which are ASCII. *)
Definition mime_encoded_word_decode (input : str) : option str :=
  if (str_len input <? 4) || negb (starts_with $"=?" input) || negb (ends_with $"?=" input) then None
  else
    match mime_parts (take (length input - 4) (drop 2 input)) with
    | None => None
    | Some (_, encoding, encoded) =>
        let bytes_ :=
          if bool_decide (encoding = $"B") || bool_decide (encoding = $"b") then base64_decode encoded
          else if bool_decide (encoding = $"Q") || bool_decide (encoding = $"q") then mime_q_decode encoded
          else None in
        match bytes_ with Some raw => from_utf8 raw | None => None end
    end.

Definition HEX_STACK_INPUT_LIMIT : Z := if 256 <? MAX_HEX_INPUT_LEN then 256 else MAX_HEX_INPUT_LEN.

(** The loop that strips [_] into a buffer of [limit] bytes. *)
Fixpoint strip_underscores (limit : Z) (cleaned : bytes) (bs : bytes) : option bytes :=
  match bs with
  | [] => Some cleaned
  | b :: rest =>
      if b =? 95 then strip_underscores limit cleaned rest
      else if limit <=? zlen cleaned then None
      else strip_underscores limit (cleaned ++ [b]) rest
  end.

Definition hex_decode_within (limit : Z) (input : str) : option bytes :=
  let bs := as_bytes input in
  if negb (bool_decide (95 ∈ bs)) then
    if negb (str_len input mod 2 =? 0) || (limit <? str_len input) then None else hex_simd_decode bs
  else
    match strip_underscores limit [] bs with
    | Some cleaned => if negb (zlen cleaned mod 2 =? 0) then None else hex_simd_decode cleaned
    | None => None
    end.

(** The decoded bytes are the first [len] bytes of the stack buffer. *)
Definition hex_decode_to_stack_buf (input : str) : option bytes := hex_decode_within HEX_STACK_INPUT_LIMIT input.

Definition hex_decode (input : str) : option bytes :=
  if str_len input <=? HEX_STACK_INPUT_LIMIT then hex_decode_to_stack_buf input else hex_decode_within MAX_HEX_INPUT_LEN input.

Definition try_decode_hex_candidate_to_utf8 (value : str) : option str :=
  if str_len value <=? HEX_STACK_INPUT_LIMIT then
    match hex_decode_to_stack_buf value with Some decoded => from_utf8 decoded | None => None end
  else match hex_decode value with Some decoded => from_utf8 decoded | None => None end.
End crates.

Definition z85_punctuation : str := $".-:+=^!/*?&<>()[]{}@%$#".

Fixpoint position_of (b : Z) (l : list Z) : option Z :=
  match l with
  | [] => None
  | x :: l' => if b =? x then Some 0 else (fun n => n + 1) <$> position_of b l'
  end.

Definition z85_val (byte : Z) : option Z :=
  if in_range 48 57 byte then Some (byte - 48)
  else if in_range 97 102 byte then Some (byte - 97 + 10)
  else if in_range 103 122 byte then Some (byte - 103 + 16)
  else if in_range 65 90 byte then Some (byte - 65 + 36)
  else (fun n => 62 + n) <$> position_of byte z85_punctuation.

Fixpoint z85_group (value : Z) (group : bytes) : option Z :=
  match group with
  | [] => Some value
  | byte :: rest => match z85_val byte with Some v => z85_group (value * 85 + v) rest | None => None end
  end.

Definition be_bytes4 (value : Z) : bytes :=
  [Z.land (Z.shiftr value 24) 255; Z.land (Z.shiftr value 16) 255; Z.land (Z.shiftr value 8) 255; Z.land value 255].

Fixpoint z85_loop (groups : list bytes) : option bytes :=
  match groups with
  | [] => Some []
  | g :: rest =>
      match z85_group 0 g with
      | Some value =>
          if u32_max <? value then None
          else match z85_loop rest with Some out => Some (be_bytes4 value ++ out) | None => None end
      | None => None
      end
  end.

Definition z85_decode (input : str) : option bytes :=
  if negb (str_len input mod 5 =? 0) || (MAX_Z85_INPUT_LEN <? str_len input) then None
  else z85_loop (chunks 5 (as_bytes input)).

(** What does not decode: an entity within eleven characters of a bare [&] is
    read as part of the unknown name before it, and a malformed numeric entity
    comes back with its [X] in lower case. *)
Example named_entity_after_ampersand :
  html_named_entity_decode $"x&amp;z" = Some $"x&z" /\ html_named_entity_decode $"x&y&amp;z" = None.
Proof. by vm_compute. Qed.

Example numeric_entity_rebuilt : html_numeric_entity_decode $"&#XZ; &#65; &#x42;" = Some $"&#xZ; A B".
Proof. by vm_compute. Qed.

(** ** Writing what the codecs read *)

(** A hex digit of either case. *)
Definition hex_digit (upper : bool) (n : Z) : Z := if n <? 10 then 48 + n else (if upper then 55 else 87) + n.

Fixpoint hex_digits (upper : bool) (count : nat) (n : Z) : str :=
  match count with
  | O => []
  | S count' => hex_digits upper count' (n / 16) ++ [hex_digit upper (n mod 16)]
  end.

Lemma to_digit_hex upper n : 0 <= n < 16 -> to_digit 16 (hex_digit upper n) = Some n /\ hex_val (hex_digit upper n) = Some n.
Proof.
  intros Hn. assert (n ∈ seqZ 0 16) as Hin by (apply elem_of_seqZ; lia). revert n Hn Hin.
  enough (Hall : Forall (fun n => to_digit 16 (hex_digit upper n) = Some n /\ hex_val (hex_digit upper n) = Some n) (seqZ 0 16)).
  { intros n _ Hin. by apply (proj1 (Forall_forall _ _) Hall). }
  destruct upper; vm_compute; repeat constructor.
Qed.

Lemma hex_digits_loop_app k j v s rest : length s = k ->
  hex_digits_loop (k + j) v (s ++ rest) =
  match hex_digits_loop k v s with Some (v', s') => hex_digits_loop j v' (s' ++ rest) | None => None end.
Proof.
  revert v s. induction k as [|k IH]; intros v s Hs; [by destruct s|].
  destruct s as [|c s]; [done|]. injection Hs as Hs. cbn [Nat.add app hex_digits_loop].
  destruct (to_digit 16 c); [by apply IH|done].
Qed.

Lemma length_hex_digits upper count n : length (hex_digits upper count n) = count.
Proof. revert n. induction count as [|k IH]; intros n; [done|]. cbn [hex_digits]. rewrite length_app, IH. cbn. lia. Qed.

Lemma hex_digits_loop_exact upper count v n : 0 <= n < 16 ^ Z.of_nat count ->
  hex_digits_loop count v (hex_digits upper count n) = Some (v * 16 ^ Z.of_nat count + n, []).
Proof.
  revert v n. induction count as [|count IH]; intros v n Hn.
  - cbn in *. do 2 f_equal. lia.
  - rewrite Nat2Z.inj_succ, Z.pow_succ_r in Hn |- * by lia. cbn [hex_digits].
    replace (S count) with (count + 1)%nat by lia. rewrite hex_digits_loop_app by apply length_hex_digits.
    rewrite IH by (split; [apply Z.div_pos; lia|apply Z.div_lt_upper_bound; lia]). cbn [app hex_digits_loop].
    destruct (to_digit_hex upper (n mod 16)) as [-> _]; [apply Z.mod_pos_bound; lia|].
    rewrite lor_shiftl_add by (try apply Z.mod_pos_bound; lia). change (2 ^ 4) with 16.
    pose proof (Z.div_mod n 16 ltac:(done)). do 2 f_equal. lia.
Qed.

Lemma take_hex_digits_exact upper count n rest : 0 <= n < 16 ^ Z.of_nat count ->
  take_hex_digits (hex_digits upper count n ++ rest) count = Some (n, rest).
Proof.
  intros Hn. pose proof (hex_digits_loop_app count 0 0 _ rest (length_hex_digits upper count n)) as Happ.
  rewrite Nat.add_0_r in Happ. unfold take_hex_digits. rewrite Happ, hex_digits_loop_exact, Z.mul_0_l by done. done.
Qed.

(** ** Escapes of characters *)

(** [\uXXXX], a surrogate pair above the basic plane. *)
Definition unicode_escape (upper : bool) (c : Z) : str :=
  if c <? 0x10000 then $"\u" ++ hex_digits upper 4 c
  else $"\u" ++ hex_digits upper 4 (0xD800 + (c - 0x10000) / 1024) ++ $"\u" ++ hex_digits upper 4 (0xDC00 + (c - 0x10000) mod 1024).

Lemma resolve_pair high x : in_range 0xD800 0xDBFF high = true ->
  resolve_escaped_codepoint high ($"\u" ++ x) =
  match take_hex_digits x 4 with
  | Some (low, rest) =>
      if negb (in_range 0xDC00 0xDFFF low) then None
      else match surrogate_pair_to_char high low with Some c => Some (c, rest) | None => None end
  | None => None
  end.
Proof. intros H. unfold resolve_escaped_codepoint. rewrite H. reflexivity. Qed.

(** What follows [\u] in [unicode_escape]. *)
Lemma unicode_escape_resolves upper c rest : is_scalar c ->
  exists code tail, unicode_escape upper c ++ rest = 92 :: 117 :: hex_digits upper 4 code ++ tail /\ 0 <= code < 16 ^ 4 /\
    resolve_escaped_codepoint code tail = Some (c, rest).
Proof.
  intros Hc. unfold unicode_escape. destruct (Z.ltb_spec c 0x10000) as [Hlt|Hge].
  - exists c, rest. split_and!; [done|unfold is_scalar in Hc; lia|unfold is_scalar in Hc; lia|].
    unfold resolve_escaped_codepoint, in_range. replace ((0xD800 <=? c) && (c <=? 0xDBFF)) with false by (unfold is_scalar in Hc; lia).
    replace ((0xDC00 <=? c) && (c <=? 0xDFFF)) with false by (unfold is_scalar in Hc; lia).
    unfold char_from_u32. by rewrite bool_decide_true.
  - set (hi := (c - 0x10000) / 1024). set (lo := (c - 0x10000) mod 1024).
    assert (Hhi : 0 <= hi < 1024) by (unfold hi, is_scalar in *; Z.div_mod_to_equations; lia).
    assert (Hlo : 0 <= lo < 1024) by (unfold lo; Z.div_mod_to_equations; lia).
    assert (Heq : c - 0x10000 = hi * 1024 + lo) by (unfold hi, lo; Z.div_mod_to_equations; lia).
    exists (0xD800 + hi), ($"\u" ++ hex_digits upper 4 (0xDC00 + lo) ++ rest).
    rewrite <- !app_assoc. split_and!; [done|lia|lia|].
    rewrite resolve_pair, (take_hex_digits_exact upper 4) by (unfold in_range; cbn; lia).
    replace (in_range 0xDC00 0xDFFF (0xDC00 + lo)) with true by (unfold in_range; lia). cbn [negb].
    unfold surrogate_pair_to_char, char_from_u32.
    replace (0xD800 + hi - 0xD800) with hi by lia. replace (0xDC00 + lo - 0xDC00) with lo by lia.
    rewrite lor_shiftl_add by lia. change (2 ^ 10) with 1024.
    rewrite <- Heq. replace (0x10000 + (c - 0x10000)) with c by lia. by rewrite bool_decide_true.
Qed.

(** How one character of a JSON string is written. *)
Inductive json_style := JsonRaw | JsonShort | JsonUnicode (upper : bool).

(** The short escapes and the letters they are written with. *)
Definition short_escapes : list (Z * Z) := [(34, 34); (92, 92); (47, 47); (8, 98); (12, 102); (10, 110); (13, 114); (9, 116)].

Definition short_letter (c : Z) : option Z := snd <$> find (fun e => fst e =? c) short_escapes.

Definition json_char (st : json_style) (c : Z) : str :=
  match st with
  | JsonRaw => [c]
  | JsonShort => 92 :: option_list (short_letter c)
  | JsonUnicode upper => unicode_escape upper c
  end.

Definition json_style_ok (st : json_style) (c : Z) : bool :=
  match st with
  | JsonRaw => negb (c =? 92)
  | JsonShort => bool_decide (is_Some (short_letter c))
  | JsonUnicode _ => true
  end.

Lemma short_letter_cases c l : short_letter c = Some l -> (c, l) ∈ short_escapes.
Proof.
  unfold short_letter. destruct (find _ short_escapes) as [[c' l']|] eqn:E; [|done]. intros [= <-].
  apply find_some in E as [Hin Hc]. cbn in Hc. apply Z.eqb_eq in Hc as ->. by apply list_elem_of_In.
Qed.

Lemma json_char_read fuel decoded st c rest : is_scalar c -> json_style_ok st c = true ->
  json_unescape_loop (S fuel) decoded (json_char st c ++ rest) = json_unescape_loop fuel (decoded ++ [c]) rest.
Proof.
  intros Hc Hok. destruct st as [| |upper].
  - cbn [json_char app json_unescape_loop]. cbn in Hok. by rewrite Hok.
  - unfold json_style_ok in Hok. apply bool_decide_eq_true in Hok as [l Hl]. unfold json_char. rewrite Hl.
    apply short_letter_cases in Hl. unfold short_escapes in Hl.
    repeat (apply elem_of_cons in Hl as [[= -> ->]|Hl]; [reflexivity|]). by apply not_elem_of_nil in Hl.
  - cbn [json_char]. destruct (unicode_escape_resolves upper c rest Hc) as (code & tail & -> & Hcode & Hres).
    cbn [json_unescape_loop]. change (negb (92 =? 92)) with false. change (117 =? 34) with false.
    change (117 =? 117) with true. change (117 =? 92) with false. change (117 =? 47) with false. cbn [orb].
    rewrite take_hex_digits_exact by done. by rewrite Hres.
Qed.

(** A text written with a style per character. *)
Definition json_escape (sts : list json_style) (t : str) : str := concat (zip_with json_char sts t).

Lemma json_read sts t fuel decoded : Forall is_scalar t -> Forall2 (fun st c => json_style_ok st c = true) sts t ->
  (length t <= fuel)%nat -> json_unescape_loop fuel decoded (json_escape sts t) = Some (decoded ++ t).
Proof.
  intros Ht Hok. revert fuel decoded. induction Hok as [|st c sts t Hst _ IH]; intros fuel decoded Hf.
  - cbn. rewrite app_nil_r. by destruct fuel.
  - apply Forall_cons in Ht as [Hc Ht]. cbn in Hf. destruct fuel as [|fuel]; [lia|].
    unfold json_escape. cbn [zip_with concat]. rewrite json_char_read by done.
    fold (json_escape sts t). rewrite IH by (done || lia). by rewrite <- app_assoc.
Qed.

Lemma json_char_nonempty st c : (1 <= length (json_char st c))%nat.
Proof.
  destruct st as [| |upper]; cbn; [lia|lia|]. unfold unicode_escape. case_match; cbn [app length lit]; rewrite ?length_app; cbn; lia.
Qed.

Lemma length_concat_zip {A B} (f : A -> B -> str) l k :
  (forall a b, (1 <= length (f a b))%nat) -> length l = length k -> (length k <= length (concat (zip_with f l k)))%nat.
Proof.
  intros Hf. revert k. induction l as [|a l IH]; intros [|b k] Hl; [done..|]. injection Hl as Hl.
  cbn [zip_with concat length]. rewrite length_app. specialize (IH k Hl). specialize (Hf a b). lia.
Qed.

(** How one character is written for [unicode_escape_decode]. *)
Inductive escape_style := EscRaw | EscShort | EscHex (upper : bool) | EscUnicode (upper : bool).

(** [\b], [\f], [\n], [\r], [\t], and any other character after a backslash. *)
Definition short_escape_letter (c : Z) : Z :=
  if c =? 8 then 98 else if c =? 12 then 102 else if c =? 10 then 110 else if c =? 13 then 114 else if c =? 9 then 116 else c.

Definition escape_char (st : escape_style) (c : Z) : str :=
  match st with
  | EscRaw => [c]
  | EscShort => [92; short_escape_letter c]
  | EscHex upper => $"\x" ++ hex_digits upper 2 c
  | EscUnicode upper => unicode_escape upper c
  end.

Definition escape_style_ok (st : escape_style) (c : Z) : bool :=
  match st with
  | EscRaw => negb (c =? 92)
  | EscShort => negb (existsb (fun x => c =? x) [98; 102; 110; 114; 116; 117; 120])
  | EscHex _ => in_range 0 255 c
  | EscUnicode _ => true
  end.

Definition is_escape (st : escape_style) : bool := match st with EscRaw => false | _ => true end.

Lemma escape_char_read fuel done_ decoded st c rest : is_scalar c -> escape_style_ok st c = true ->
  exists done' decoded',
    unicode_escape_loop (S fuel) done_ decoded (escape_char st c ++ rest) = unicode_escape_loop fuel done' decoded' rest /\
    lazy_decoded_prefix decoded' done' = lazy_decoded_prefix decoded done_ ++ [c] /\
    (is_Some decoded' <-> is_Some decoded \/ is_escape st = true).
Proof.
  intros Hc Hok. destruct st as [| |upper|upper].
  - exists (done_ ++ [c]), (push_if_started decoded [c]). cbn [escape_char app unicode_escape_loop]. cbn in Hok. rewrite Hok.
    split_and!; [done|by destruct decoded|]. destruct decoded; cbn; split; (eauto || intros [[? [=]]|[=]] || intros [? [=]]).
  - exists [], (Some (lazy_decoded_prefix decoded done_ ++ [c])). split_and!; [|done|split; eauto].
    cbn in Hok. cbn [escape_char app unicode_escape_loop]. change (negb (92 =? 92)) with false. cbv zeta.
    assert ((short_escape_letter c =? 117) = false /\ (short_escape_letter c =? 120) = false /\
      default (short_escape_letter c) (simple_control_escape (short_escape_letter c)) = c) as (-> & -> & ->); [|done].
    unfold short_escape_letter, simple_control_escape. repeat case_match; split_and!; cbn; lia.
  - exists [], (Some (lazy_decoded_prefix decoded done_ ++ [c])). split_and!; [|done|split; eauto].
    cbn in Hok. unfold in_range in Hok. unfold escape_char. change ($"\x") with [92; 120]. rewrite <- app_assoc. cbn [app unicode_escape_loop].
    change (negb (92 =? 92)) with false. change (120 =? 117) with false. change (120 =? 120) with true. cbv zeta.
    rewrite take_hex_digits_exact by (cbn; lia). unfold char_from_u32. by rewrite bool_decide_true.
  - exists [], (Some (lazy_decoded_prefix decoded done_ ++ [c])). split_and!; [|done|split; eauto].
    cbn [escape_char]. destruct (unicode_escape_resolves upper c rest Hc) as (code & tail & -> & Hcode & Hres).
    cbn [unicode_escape_loop]. change (negb (92 =? 92)) with false. change (117 =? 117) with true. cbv zeta.
    rewrite take_hex_digits_exact by done. by rewrite Hres.
Qed.

Definition escape_text (sts : list escape_style) (t : str) : str := concat (zip_with escape_char sts t).

Lemma escape_read sts t fuel done_ decoded : Forall is_scalar t -> Forall2 (fun st c => escape_style_ok st c = true) sts t ->
  (length t <= fuel)%nat -> is_Some decoded \/ existsb is_escape sts = true ->
  unicode_escape_loop fuel done_ decoded (escape_text sts t) = Some (lazy_decoded_prefix decoded done_ ++ t).
Proof.
  intros Ht Hok. revert fuel done_ decoded. induction Hok as [|st c sts t Hst _ IH]; intros fuel done_ decoded Hf Hsome.
  - destruct Hsome as [[d ->]|[=]]. cbn. rewrite app_nil_r. by destruct fuel.
  - apply Forall_cons in Ht as [Hc Ht]. cbn in Hf. destruct fuel as [|fuel]; [lia|].
    unfold escape_text. cbn [zip_with concat]. fold (escape_text sts t).
    destruct (escape_char_read fuel done_ decoded st c (escape_text sts t) Hc Hst) as (done' & decoded' & -> & Hl & Hd).
    rewrite IH; [by rewrite Hl, <- app_assoc|done|lia|]. rewrite Hd. cbn in Hsome. rewrite orb_true_iff in Hsome. tauto.
Qed.

Lemma escape_char_nonempty st c : (1 <= length (escape_char st c))%nat.
Proof.
  destruct st as [| |upper|upper]; cbn; [lia|lia|lia|].
  pose proof (json_char_nonempty (JsonUnicode upper) c). done.
Qed.

(** C31. Escaped text decodes to itself.  Whatever mixture of raw characters,
    short escapes and [\u] escapes (surrogate pairs above the basic plane, digits
    of either case) a JSON writer chooses, [json_unescape] returns the text; and
    whatever mixture of raw characters, backslash, [\x] and [\u] escapes a source
    literal uses, [unicode_escape_decode] returns the text, or fails when nothing
    was escaped. *)
Theorem escaped_text_decodes (t : str) (js : list json_style) (es : list escape_style) :
  Forall is_scalar t ->
  Forall2 (fun st c => json_style_ok st c = true) js t ->
  Forall2 (fun st c => escape_style_ok st c = true) es t ->
  json_unescape (json_escape js t) = Some t /\
  (existsb is_escape es = true -> unicode_escape_decode (escape_text es t) = Some t).
Proof.
  intros Ht Hj He. split.
  - apply json_read; [done..|]. apply length_concat_zip; [apply json_char_nonempty|by eapply Forall2_length].
  - intros Hex. unfold unicode_escape_decode. rewrite escape_read; [done..| |by right].
    apply length_concat_zip; [apply escape_char_nonempty|by eapply Forall2_length].
Qed.

Lemma escaped_text_decodes_witness :
  json_unescape $"a\/\ud83D\ude00\n" = Some [97; 47; 0x1F600; 10] /\ unicode_escape_decode $"\x61\/\ud83d\ude00\n" = Some [97; 47; 0x1F600; 10].
Proof.
  assert (H : json_unescape (json_escape [JsonRaw; JsonShort; JsonUnicode false; JsonShort] [97; 47; 0x1F600; 10]) = Some [97; 47; 0x1F600; 10] /\
    (existsb is_escape [EscHex false; EscShort; EscUnicode false; EscShort] = true ->
     unicode_escape_decode (escape_text [EscHex false; EscShort; EscUnicode false; EscShort] [97; 47; 0x1F600; 10]) = Some [97; 47; 0x1F600; 10])).
  { apply (escaped_text_decodes [97; 47; 0x1F600; 10] [JsonRaw; JsonShort; JsonUnicode false; JsonShort]
      [EscHex false; EscShort; EscUnicode false; EscShort]).
    - apply (bool_decide_eq_true_1 _). vm_compute. reflexivity.
    - repeat (apply Forall2_cons; split; [reflexivity|]). constructor.
    - repeat (apply Forall2_cons; split; [reflexivity|]). constructor. }
  destruct H as [Hj He]. split; [vm_compute; reflexivity|]. exact (He eq_refl).
Defined.

(** ** Octets *)

(** The octets of a character, each as [opener] and two digits. *)
Definition octet_escape (opener : Z) (upper : bool) (c : Z) : str :=
  concat (map (fun b => opener :: hex_digits upper 2 b) (utf8_char c)).

(** [None] leaves the character raw. *)
Definition octet_char (opener : Z) (st : option bool) (c : Z) : str :=
  match st with None => [c] | Some upper => octet_escape opener upper c end.

(** A soft break may come before a character of a quoted-printable text. *)
Inductive soft_break := NoBreak | BreakLf | BreakCrLf.

Definition break_text (b : soft_break) : str :=
  match b with NoBreak => [] | BreakLf => [61; 10] | BreakCrLf => [61; 13; 10] end.

Definition qp_char (st : soft_break * option bool) (c : Z) : str := break_text (fst st) ++ octet_char 61 (snd st) c.

Definition octet_style_ok (opener : Z) (st : option bool) (c : Z) : bool :=
  match st with None => negb (c =? opener) | Some _ => true end.

Lemma hex2 upper b : 0 <= b <= 255 -> exists h l, hex_digits upper 2 b = [h; l] /\
  hex_val h = Some (b / 16) /\ hex_val l = Some (b mod 16) /\ Z.lor (shl8 (b / 16) 4) (b mod 16) = b.
Proof.
  intros Hb. exists (hex_digit upper (b / 16 mod 16)), (hex_digit upper (b mod 16)).
  assert (Hq : 0 <= b / 16 < 16) by (Z.div_mod_to_equations; lia).
  assert (Hr : 0 <= b mod 16 < 16) by (Z.div_mod_to_equations; lia).
  split_and!; [done|rewrite Z.mod_small by done; by apply to_digit_hex|by apply to_digit_hex|].
  unfold shl8. rewrite Z.shiftl_mul_pow2 by done. change 0xFF with (Z.ones 8). rewrite Z.land_ones by done.
  rewrite Z.mod_small by (cbn; lia). rewrite <- Z.shiftl_mul_pow2, lor_shiftl_add by (done || lia).
  change (2 ^ 4) with 16. Z.div_mod_to_equations. lia.
Qed.

Lemma escaped_ascii opener upper bs : 0 <= opener < 128 -> Forall (fun b => 0 <= b <= 255) bs ->
  as_bytes (concat (map (fun b => opener :: hex_digits upper 2 b) bs)) = concat (map (fun b => opener :: hex_digits upper 2 b) bs).
Proof.
  intros Ho Hbs. apply as_bytes_ascii. apply Forall_concat, Forall_map. eapply Forall_impl; [exact Hbs|]. intros b Hb. cbn beta.
  apply Forall_cons. split; [done|]. cbn [hex_digits app].
  assert (Hd : forall n, 0 <= hex_digit upper (n mod 16) < 128).
  { intros n. unfold hex_digit. pose proof (Z.mod_pos_bound n 16). repeat case_match; lia. }
  repeat (apply Forall_cons; split; [apply Hd|]). constructor.
Qed.

Lemma utf8_char_range c : is_scalar c -> Forall (fun b => 0 <= b <= 255) (utf8_char c).
Proof. intros Hc. pose proof (as_bytes_range [c] (proj2 (Forall_singleton _ _) Hc)) as H. unfold as_bytes in H. cbn in H. by rewrite app_nil_r in H. Qed.

(** The two loops, on raw characters and on escaped octets. *)
Lemma percent_raw bs rest : 37 ∉ bs -> percent_loop (bs ++ rest) = bs ++ percent_loop rest.
Proof.
  induction bs as [|b bs IH]; intros Hb; [done|]. cbn [app percent_loop].
  apply not_elem_of_cons in Hb as [Hb Hbs]. rewrite (proj2 (Z.eqb_neq b 37)) by done. cbn [negb]. by rewrite IH.
Qed.

Lemma percent_escaped upper bs rest : Forall (fun b => 0 <= b <= 255) bs ->
  percent_loop (concat (map (fun b => 37 :: hex_digits upper 2 b) bs) ++ rest) = bs ++ percent_loop rest.
Proof.
  induction 1 as [|b bs Hb _ IH]; [done|]. cbn [map concat]. destruct (hex2 upper b Hb) as (h & l & -> & Hh & Hl & Hv).
  cbn [app percent_loop]. change (negb (37 =? 37)) with false. cbn [andb]. rewrite Hh, Hl, Hv, IH. done.
Qed.

Lemma quoted_raw bs rest : 61 ∉ bs -> quoted_printable_loop (bs ++ rest) = bs ++ quoted_printable_loop rest.
Proof.
  induction bs as [|b bs IH]; intros Hb; [done|]. cbn [app quoted_printable_loop].
  apply not_elem_of_cons in Hb as [Hb Hbs]. rewrite (proj2 (Z.eqb_neq b 61)) by done. cbn [negb]. by rewrite IH.
Qed.

Lemma hex_val_not_break h v : hex_val h = Some v -> h <> 10 /\ h <> 13.
Proof. intros Hh. split; intros ->; done. Qed.

Lemma quoted_octet h l high low rest : hex_val h = Some high -> hex_val l = Some low ->
  quoted_printable_loop (61 :: h :: l :: rest) = Z.lor (shl8 high 4) low :: quoted_printable_loop rest.
Proof.
  intros Hh Hl. destruct (hex_val_not_break _ _ Hh) as [H10 H13]. cbn [quoted_printable_loop].
  change (negb (61 =? 61)) with false. cbv iota. rewrite (proj2 (Z.eqb_neq h 10) H10), (proj2 (Z.eqb_neq h 13) H13), Hh, Hl. done.
Qed.

Lemma quoted_escaped upper bs rest : Forall (fun b => 0 <= b <= 255) bs ->
  quoted_printable_loop (concat (map (fun b => 61 :: hex_digits upper 2 b) bs) ++ rest) = bs ++ quoted_printable_loop rest.
Proof.
  induction 1 as [|b bs Hb _ IH]; [done|]. cbn [map concat]. destruct (hex2 upper b Hb) as (h & l & -> & Hh & Hl & Hv).
  cbn [app]. rewrite (quoted_octet _ _ _ _ _ Hh Hl), Hv, IH. done.
Qed.

(** A text written with a style per character. *)
Definition percent_escape (sts : list (option bool)) (t : str) : str := concat (zip_with (octet_char 37) sts t).
Definition qp_escape (sts : list (soft_break * option bool)) (t : str) : str := concat (zip_with qp_char sts t).

Lemma raw_char_free opener c : 0 <= opener < 128 -> c <> opener -> opener ∉ utf8_char c.
Proof.
  intros Ho Hc. destruct (utf8_char_cases c) as [-> |[_ Hhi]]; [intros ->%list_elem_of_singleton; done|].
  intros Hin. pose proof (proj1 (Forall_forall _ _) Hhi _ Hin). cbn in *. lia.
Qed.

(** Either loop reads a character back, whatever its style. *)
Lemma octet_char_read (loop : bytes -> bytes) opener st c rest : 0 <= opener < 128 ->
  (forall bs r, opener ∉ bs -> loop (bs ++ r) = bs ++ loop r) ->
  (forall upper bs r, Forall (fun b => 0 <= b <= 255) bs ->
     loop (concat (map (fun b => opener :: hex_digits upper 2 b) bs) ++ r) = bs ++ loop r) ->
  is_scalar c -> octet_style_ok opener st c = true ->
  loop (as_bytes (octet_char opener st c) ++ rest) = utf8_char c ++ loop rest.
Proof.
  intros Ho Hraw Hesc Hc Hok. destruct st as [upper|]; cbn [octet_char].
  - unfold octet_escape. rewrite escaped_ascii by (done || by apply utf8_char_range). by apply Hesc, utf8_char_range.
  - rewrite as_bytes_cons, app_nil_r. apply Hraw, raw_char_free; [done|]. cbn in Hok. lia.
Qed.

Lemma percent_read sts t : Forall is_scalar t -> Forall2 (fun st c => octet_style_ok 37 st c = true) sts t ->
  percent_loop (as_bytes (percent_escape sts t)) = as_bytes t.
Proof.
  intros Ht Hok. induction Hok as [|st c sts t Hst _ IH]; [done|]. apply Forall_cons in Ht as [Hc Ht].
  unfold percent_escape. cbn [zip_with concat]. rewrite as_bytes_app, as_bytes_cons.
  rewrite (octet_char_read percent_loop 37) by (done || apply percent_raw || apply percent_escaped).
  f_equal. by apply IH.
Qed.

Lemma soft_break_read b rest : quoted_printable_loop (break_text b ++ rest) = quoted_printable_loop rest.
Proof. by destruct b. Qed.

Lemma quoted_read sts t : Forall is_scalar t -> Forall2 (fun st c => octet_style_ok 61 (snd st) c = true) sts t ->
  quoted_printable_loop (as_bytes (qp_escape sts t)) = as_bytes t.
Proof.
  intros Ht Hok. induction Hok as [|[b st] c sts t Hst _ IH]; [done|]. apply Forall_cons in Ht as [Hc Ht].
  unfold qp_escape. cbn [zip_with concat]. unfold qp_char at 1. cbn [fst snd] in *. rewrite !as_bytes_app, as_bytes_cons, <- app_assoc.
  replace (as_bytes (break_text b)) with (break_text b) by (by destruct b). rewrite soft_break_read.
  rewrite (octet_char_read quoted_printable_loop 61) by (done || apply quoted_raw || apply quoted_escaped).
  f_equal. by apply IH.
Qed.

(** C32. Octet escapes decode to the text they stand for: [percent_decode]
    reads back any text of which any characters, and at least the percent signs,
    were percent-escaped, in digits of either case; [quoted_printable_decode]
    reads back any text of which any characters, and at least the equals signs,
    were escaped, with soft line breaks put anywhere between characters. *)
Theorem octet_escapes_decode (t : str) (ps : list (option bool)) (qs : list (soft_break * option bool)) :
  Forall is_scalar t ->
  Forall2 (fun st c => octet_style_ok 37 st c = true) ps t ->
  Forall2 (fun st c => octet_style_ok 61 (snd st) c = true) qs t ->
  percent_decode (percent_escape ps t) = Some t /\ quoted_printable_decode (qp_escape qs t) = Some t.
Proof.
  intros Ht Hp Hq. unfold percent_decode, quoted_printable_decode.
  by rewrite percent_read, quoted_read, from_utf8_as_bytes.
Qed.

Lemma octet_escapes_decode_witness :
  percent_decode $"a%3D%e2%82%ac" = Some [97; 61; 0x20AC] /\
  quoted_printable_decode ($"a=" ++ [10] ++ $"=3D=E2=82=AC") = Some [97; 61; 0x20AC].
Proof.
  assert (H : percent_decode (percent_escape [None; Some true; Some false] [97; 61; 0x20AC]) = Some [97; 61; 0x20AC] /\
    quoted_printable_decode (qp_escape [(NoBreak, None); (BreakLf, Some true); (NoBreak, Some true)] [97; 61; 0x20AC]) = Some [97; 61; 0x20AC]).
  { apply (octet_escapes_decode [97; 61; 0x20AC] [None; Some true; Some false]
      [(NoBreak, None); (BreakLf, Some true); (NoBreak, Some true)]).
    - apply (bool_decide_eq_true_1 _). vm_compute. reflexivity.
    - repeat (apply Forall2_cons; split; [reflexivity|]). constructor.
    - repeat (apply Forall2_cons; split; [reflexivity|]). constructor. }
  exact H.
Defined.
