(* ===== verification/AlphabetScreen.v ===== *)
(** * The alphabet screen ([crates/scanner/src/alphabet_filter.rs])

    A set of bytes as a 256-bit mask, built in three ways, and the screen that
    asks whether some byte of a chunk is in the set of the targets: a scalar loop
    and an AVX2 routine, whose intrinsics are modelled lane by lane. *)

From S2P Require Import Prelude.

(** ** Masks *)

(** Four words of 64 bits, one bit per byte value. *)
Definition AlphabetMask := list Z.
Definition empty_mask : AlphabetMask := [0; 0; 0; 0].

(** [mask[(b / 64) as usize] |= 1 << (b % 64)] *)
Definition set_byte (mask : AlphabetMask) (b : Z) : AlphabetMask :=
  alter (fun w => Z.lor w (Z.shiftl 1 (b mod 64))) (Z.to_nat (b / 64)) mask.

Definition from_bytes_scalar (bs : bytes) : AlphabetMask := foldl set_byte empty_mask bs.

(** [slice.chunks_exact(n)] and its remainder. *)
Fixpoint chunks_exact_fuel {A} (fuel n : nat) (l : list A) : list (list A) * list A :=
  match fuel with
  | O => ([], l)
  | S fuel' =>
      if (n <=? length l)%nat then
        let '(cs, r) := chunks_exact_fuel fuel' n (drop n l) in (take n l :: cs, r)
      else ([], l)
  end.

Definition chunks_exact {A} (n : nat) (l : list A) : list (list A) * list A := chunks_exact_fuel (length l) n l.

Definition from_bytes_chunked (n : nat) (bs : bytes) : AlphabetMask :=
  let '(cs, r) := chunks_exact n bs in foldl set_byte (foldl (fun m c => foldl set_byte m c) empty_mask cs) r.

Definition from_bytes_neon (bs : bytes) : AlphabetMask := from_bytes_chunked 16 bs.
Definition from_bytes_avx2 (bs : bytes) : AlphabetMask := from_bytes_chunked 4 bs.

Definition contains_byte (mask : AlphabetMask) (b : Z) : bool :=
  negb (Z.land (default 0 (mask !! Z.to_nat (b / 64))) (Z.shiftl 1 (b mod 64)) =? 0).

Definition intersects (m n : AlphabetMask) : bool := existsb (fun w => negb (w =? 0)) (zip_with Z.land m n).

Definition mask_union (m n : AlphabetMask) : AlphabetMask := zip_with Z.lor m n.

(** A target byte, with its case flipped when it is a letter. *)
Definition set_target_byte (mask : AlphabetMask) (b : Z) : AlphabetMask :=
  let mask := set_byte mask b in
  if is_ascii_alphabetic b then set_byte mask (Z.lxor b 0x20) else mask.

Definition from_byte_slices (targets : list bytes) : AlphabetMask :=
  foldl (fun mask target => foldl set_target_byte mask target) empty_mask targets.

(** ** Vectors of bytes *)

(** The registers, lowest byte first. *)
Definition set1_epi8 (b : Z) : bytes := replicate 32 b.
Definition and_si256 (a b : bytes) : bytes := zip_with Z.land a b.
Definition set_m128i (hi lo : bytes) : bytes := lo ++ hi.

(** Sixteen-bit lanes shifted right. *)
Fixpoint srli_epi16 (v : bytes) (n : Z) : bytes :=
  match v with
  | lo :: hi :: rest =>
      let x := Z.shiftr (lo + 256 * hi) n in Z.land x 255 :: Z.land (Z.shiftr x 8) 255 :: srli_epi16 rest n
  | _ => []
  end.

(** A table lookup inside each half of 128 bits; an index with bit 7 gives 0. *)
Definition shuffle_epi8 (table idx : bytes) : bytes :=
  imap (fun i j => if Z.testbit j 7 then 0 else nth (16 * (i / 16) + Z.to_nat (Z.land j 15)) table 0) idx.

Definition signed8 (b : Z) : Z := if b <? 128 then b else b - 256.
Definition cmpgt_epi8 (a b : bytes) : bytes := zip_with (fun x y => if signed8 y <? signed8 x then 255 else 0) a b.

Definition select8 (x y m : Z) : Z := if Z.testbit m 7 then y else x.
Definition blendv_epi8 (a b m : bytes) : bytes := zip_with (fun xy m => select8 (fst xy) (snd xy) m) (zip a b) m.

Definition testz_si256 (a b : bytes) : Z := if forallb (fun w => w =? 0) (zip_with Z.land a b) then 1 else 0.

(** The eight bytes of a word in memory, and [_mm_loadu_si128] of two words. *)
Definition u64_le_bytes (w : Z) : bytes := map (fun k => Z.land (Z.shiftr w (8 * k)) 255) [0; 1; 2; 3; 4; 5; 6; 7].
Definition loadu_words (ws : list Z) : bytes := concat (map u64_le_bytes ws).

(** ** The screen *)

Definition bit_selector : bytes := concat (replicate 4 [1; 2; 4; 8; 16; 32; 64; 128]).

(** The body of the loop: whether a chunk of 32 bytes has a byte of the mask. *)
Definition avx2_chunk (mask : AlphabetMask) (v : bytes) : bool :=
  let low_mask := loadu_words (take 2 mask) in
  let high_mask := loadu_words (drop 2 mask) in
  let bitset_low := set_m128i low_mask low_mask in
  let bitset_high := set_m128i high_mask high_mask in
  let bits := shuffle_epi8 bit_selector (and_si256 v (set1_epi8 0x07)) in
  let byte_indices := and_si256 (srli_epi16 v 3) (set1_epi8 0x0F) in
  let is_128_255 := cmpgt_epi8 (set1_epi8 0) v in
  let row_low := shuffle_epi8 bitset_low byte_indices in
  let row_high := shuffle_epi8 bitset_high byte_indices in
  let row := blendv_epi8 row_low row_high is_128_255 in
  testz_si256 row bits =? 0.

Definition screen_avx2 (mask : AlphabetMask) (data : bytes) : bool :=
  let '(cs, remainder) := chunks_exact 32 data in
  existsb (avx2_chunk mask) cs || existsb (contains_byte mask) remainder.

(** [AlphabetScreen::screen]; [avx2] is the detected feature. *)
Definition screen_bytes (avx2 : bool) (mask : AlphabetMask) (data : bytes) : bool :=
  if bool_decide (data = []) then false
  else if avx2 then screen_avx2 mask data
  else existsb (contains_byte mask) data.

(** ** Lemmas *)

Lemma chunks_exact_fuel_spec {A} fuel n (l : list A) : (0 < n)%nat -> (length l <= fuel)%nat ->
  let '(cs, r) := chunks_exact_fuel fuel n l in concat cs ++ r = l /\ Forall (fun c => length c = n) cs.
Proof.
  intros Hn. revert l. induction fuel as [|fuel IH]; intros l Hl; cbn [chunks_exact_fuel]; [done|].
  destruct (Nat.leb_spec n (length l)) as [Hle|]; [|done]. specialize (IH (drop n l)). rewrite length_drop in IH.
  specialize (IH ltac:(lia)). destruct (chunks_exact_fuel fuel n (drop n l)) as [cs r]. destruct IH as [Hc Hf]. split.
  - cbn [concat]. by rewrite <- app_assoc, Hc, take_drop.
  - constructor; [by apply length_take_le|done].
Qed.

Lemma chunked_is_scalar n bs : (0 < n)%nat -> from_bytes_chunked n bs = from_bytes_scalar bs.
Proof.
  intros Hn. unfold from_bytes_chunked, from_bytes_scalar, chunks_exact. pose proof (chunks_exact_fuel_spec (length bs) n bs Hn ltac:(lia)) as Hs.
  destruct (chunks_exact_fuel (length bs) n bs) as [cs r]. destruct Hs as [<- _]. rewrite foldl_app. f_equal. clear.
  generalize empty_mask. induction cs as [|c cs IH]; intros m; [done|]. cbn [foldl concat]. by rewrite foldl_app, IH.
Qed.

(** Lane-wise operations as maps. *)
Lemma zip_with_replicate_r {A B C} (f : A -> B -> C) n v b : length v = n -> zip_with f v (replicate n b) = map (fun x => f x b) v.
Proof. intros <-. induction v as [|x v IH]; [done|]. cbn. by rewrite IH. Qed.

Lemma zip_with_replicate_l {A B C} (f : A -> B -> C) n v a : length v = n -> zip_with f (replicate n a) v = map (f a) v.
Proof. intros <-. induction v as [|x v IH]; [done|]. cbn. by rewrite IH. Qed.

Lemma zip_with_maps {A B C D} (h : B -> C -> D) (f : A -> B) (g : A -> C) v : zip_with h (map f v) (map g v) = map (fun x => h (f x) (g x)) v.
Proof. induction v as [|x v IH]; [done|]. cbn. by rewrite IH. Qed.

Abbreviation is_byte := (fun b => 0 <= b <= 255).

Lemma shift3_lanes lo hi : is_byte lo -> is_byte hi ->
  let x := Z.shiftr (lo + 256 * hi) 3 in
  Z.land (Z.land x 255) 15 = Z.land (Z.shiftr lo 3) 15 /\ Z.land (Z.land (Z.shiftr x 8) 255) 15 = Z.land (Z.shiftr hi 3) 15.
Proof.
  cbv beta. intros Hl Hh x. subst x. change 255 with (Z.ones 8). change 15 with (Z.ones 4).
  rewrite !Z.land_ones, !Z.shiftr_div_pow2 by lia. change (2 ^ 3) with 8. change (2 ^ 8) with 256. change (2 ^ 4) with 16.
  assert (Hmod : forall a, (a mod 256) mod 16 = a mod 16) by (intros a; apply Z.mod_mod_divide; by exists 16).
  assert (Hx : (lo + 256 * hi) / 8 = lo / 8 + 2 * hi * 16) by (Z.to_euclidean_division_equations; lia).
  rewrite !Hmod, Hx. split; [apply Z_mod_plus_full|]. f_equal. Z.to_euclidean_division_equations. lia.
Qed.

Lemma srli3_masked n v : length v = (2 * n)%nat -> Forall is_byte v ->
  zip_with Z.land (srli_epi16 v 3) (replicate (2 * n) 0x0F) = map (fun b => Z.land (Z.shiftr b 3) 15) v.
Proof.
  revert v. induction n as [|n IH]; intros v Hn Hv; [by destruct v|].
  destruct v as [|lo [|hi v]]; [done|cbn in Hn; lia|]. apply Forall_cons in Hv as [Hlo [Hhi Hv]%Forall_cons].
  destruct (shift3_lanes lo hi Hlo Hhi) as [H1 H2]. replace (2 * S n)%nat with (S (S (2 * n))) by lia.
  cbn [srli_epi16 replicate zip_with map]. f_equal; [exact H1|f_equal; [exact H2|]]. apply IH; [cbn in Hn; lia|done].
Qed.

Lemma shuffle_map t (f : Z -> Z) v : length t = 16%nat -> length v = 32%nat -> (forall b, b ∈ v -> 0 <= f b < 128) ->
  shuffle_epi8 (t ++ t) (map f v) = map (fun b => nth (Z.to_nat (Z.land (f b) 15)) t 0) v.
Proof.
  intros Ht Hv Hf. unfold shuffle_epi8. change (map f v) with (f <$> v). rewrite imap_fmap.
  transitivity (imap (const (fun b => nth (Z.to_nat (Z.land (f b) 15)) t 0)) v); [|apply imap_const].
  apply imap_ext. intros i b Hi. unfold compose, const. specialize (Hf b ltac:(by eapply list_elem_of_lookup_2)).
  assert (Hb7 : Z.testbit (f b) 7 = false) by (rewrite Z.testbit_false by lia; change (2 ^ 7) with 128; rewrite Z.div_small by lia; done).
  rewrite Hb7. assert (Hk : (Z.to_nat (Z.land (f b) 15) < 16)%nat).
  { change 15 with (Z.ones 4). rewrite Z.land_ones by lia. pose proof (Z.mod_pos_bound (f b) (2 ^ 4) ltac:(lia)). lia. }
  apply lookup_lt_Some in Hi. rewrite Hv in Hi.
  destruct (Nat.lt_ge_cases i 16) as [Hi'|Hi'].
  - rewrite (Nat.div_small i 16) by lia. rewrite app_nth1 by lia. done.
  - replace (i / 16)%nat with 1%nat by (apply Nat.div_unique with (i - 16)%nat; lia).
    rewrite app_nth2 by lia. f_equal. lia.
Qed.

(** ** One lane *)

Lemma loadu_nth a b k : (k < 16)%nat ->
  nth k (loadu_words [a; b]) 0 = Z.land (Z.shiftr (if (k <? 8)%nat then a else b) (8 * Z.of_nat (k mod 8))) 255.
Proof. intros Hk. do 16 (destruct k as [|k]; [reflexivity|]). lia. Qed.

Lemma testbit_byte w s j : 0 <= s -> 0 <= j < 8 -> Z.testbit (Z.land (Z.shiftr w s) 255) j = Z.testbit w (s + j).
Proof.
  intros Hs Hj. change 255 with (Z.ones 8). rewrite Z.land_spec, Z.ones_spec_low, andb_true_r, Z.shiftr_spec by lia. f_equal. lia.
Qed.

(** A row of the table, at the bit the byte selects. *)
Lemma row_bit a b v : 0 <= v < 128 ->
  Z.testbit (nth (Z.to_nat (Z.land (Z.land (Z.shiftr v 3) 15) 15)) (loadu_words [a; b]) 0) (v mod 8) =
  Z.testbit (if v <? 64 then a else b) (v mod 64).
Proof.
  intros Hv. change 15 with (Z.ones 4). rewrite !Z.land_ones, Z.shiftr_div_pow2 by lia. change (2 ^ 3) with 8. change (2 ^ 4) with 16.
  rewrite !(Z.mod_small (v / 8)) by (Z.to_euclidean_division_equations; lia).
  assert (Hk : 0 <= v / 8 < 16) by (Z.to_euclidean_division_equations; lia).
  rewrite loadu_nth by lia. rewrite testbit_byte by (try apply Z.mod_pos_bound; lia).
  assert (Hc : (Z.to_nat (v / 8) <? 8)%nat = (v <? 64)).
  { apply eq_bool_prop_intro. rewrite !Is_true_true, Nat.ltb_lt, Z.ltb_lt. Z.to_euclidean_division_equations; lia. }
  rewrite Hc. f_equal. rewrite Nat2Z.inj_mod, Z2Nat.id by lia. change (Z.of_nat 8) with 8. Z.to_euclidean_division_equations; lia.
Qed.

Definition selector_half : bytes := [1; 2; 4; 8; 16; 32; 64; 128; 1; 2; 4; 8; 16; 32; 64; 128].

Lemma selected_bit v : 0 <= v <= 255 -> nth (Z.to_nat (Z.land (Z.land v 7) 15)) selector_half 0 = Z.shiftl 1 (v mod 8).
Proof.
  intros Hv. assert (Hall : Forall (fun v => nth (Z.to_nat (Z.land (Z.land v 7) 15)) selector_half 0 = Z.shiftl 1 (v mod 8)) (seqZ 0 256))
    by (vm_compute; repeat constructor).
  rewrite Forall_forall in Hall. apply Hall, elem_of_seqZ. lia.
Qed.

Definition lane_row (mask : AlphabetMask) (v : Z) : Z :=
  let idx := Z.to_nat (Z.land (Z.land (Z.shiftr v 3) 15) 15) in
  select8 (nth idx (loadu_words (take 2 mask)) 0) (nth idx (loadu_words (drop 2 mask)) 0)
    (if signed8 v <? signed8 0 then 255 else 0).

Lemma lane_contains mask v : length mask = 4%nat -> 0 <= v <= 255 ->
  negb (Z.land (lane_row mask v) (Z.shiftl 1 (v mod 8)) =? 0) = contains_byte mask v.
Proof.
  intros Hm Hv. destruct mask as [|a [|b [|c [|d [|]]]]]; try done.
  unfold contains_byte. rewrite !land_bit by (apply Z.mod_pos_bound; lia).
  unfold lane_row, signed8, select8. cbn [take drop]. change (0 <? 128) with true. destruct (Z.ltb_spec v 128) as [Hlow|Hhigh].
  - rewrite (proj2 (Z.ltb_ge v 0)) by lia. change (Z.testbit 0 7) with false. cbv iota. rewrite row_bit by lia.
    destruct (Z.ltb_spec v 64) as [H64|H64].
    + by rewrite (Z.div_small v 64) by lia.
    + by replace (v / 64) with 1 by (Z.to_euclidean_division_equations; lia).
  - rewrite (proj2 (Z.ltb_lt (v - 256) 0)) by lia. change (Z.testbit 255 7) with true. cbv iota.
    assert (Hs : Z.land (Z.shiftr v 3) 15 = Z.land (Z.shiftr (v - 128) 3) 15).
    { change 15 with (Z.ones 4). rewrite !Z.land_ones, !Z.shiftr_div_pow2 by lia. change (2 ^ 3) with 8. change (2 ^ 4) with 16.
      Z.to_euclidean_division_equations; lia. }
    rewrite Hs. replace (v mod 8) with ((v - 128) mod 8) by (Z.to_euclidean_division_equations; lia).
    rewrite row_bit by lia. replace ((v - 128) mod 64) with (v mod 64) by (Z.to_euclidean_division_equations; lia).
    destruct (Z.ltb_spec (v - 128) 64) as [H64|H64].
    + by replace (v / 64) with 2 by (Z.to_euclidean_division_equations; lia).
    + by replace (v / 64) with 3 by (Z.to_euclidean_division_equations; lia).
Qed.

Lemma forallb_negb_existsb {A} (f : A -> bool) l : forallb f l = negb (existsb (fun x => negb (f x)) l).
Proof. induction l as [|x l IH]; [done|]. cbn. rewrite IH. by destruct (f x). Qed.

Lemma existsb_map {A B} (f : A -> B) (p : B -> bool) l : existsb p (map f l) = existsb (fun x => p (f x)) l.
Proof. induction l as [|x l IH]; [done|]. cbn. by rewrite IH. Qed.

Lemma land_small k b : 0 <= k < 7 -> 0 <= Z.land b (Z.ones k) < 128.
Proof.
  intros Hk. rewrite Z.land_ones by lia. pose proof (Z.mod_pos_bound b (2 ^ k) ltac:(apply Z.pow_pos_nonneg; lia)).
  pose proof (Z.pow_le_mono_r 2 k 7 ltac:(lia) ltac:(lia)). change (2 ^ 7) with 128 in *. lia.
Qed.

Lemma avx2_chunk_scalar mask v : length mask = 4%nat -> length v = 32%nat -> Forall is_byte v ->
  avx2_chunk mask v = existsb (contains_byte mask) v.
Proof.
  intros Hm Hv Hb. set (f7 := fun b => Z.land b 7). set (f15 := fun b => Z.land (Z.shiftr b 3) 15).
  assert (H7 : and_si256 v (set1_epi8 7) = map f7 v) by (by apply zip_with_replicate_r).
  assert (H15 : and_si256 (srli_epi16 v 3) (set1_epi8 15) = map f15 v) by (by apply (srli3_masked 16)).
  assert (Hneg : cmpgt_epi8 (set1_epi8 0) v = map (fun b => if signed8 b <? signed8 0 then 255 else 0) v) by (by apply zip_with_replicate_l).
  assert (Hload : forall a b, length (loadu_words [a; b]) = 16%nat) by done.
  assert (Hmask : exists a b c d, mask = [a; b; c; d]) by (destruct mask as [|a [|b [|c [|d [|]]]]]; try done; eauto). destruct Hmask as (a & b & c & d & ->).
  unfold avx2_chunk, set_m128i. rewrite H7, H15, Hneg. change bit_selector with (selector_half ++ selector_half).
  assert (Hf7 : forall x, x ∈ v -> 0 <= f7 x < 128) by (intros x _; apply (land_small 3 x); lia).
  assert (Hf15 : forall x, x ∈ v -> 0 <= f15 x < 128) by (intros x _; apply (land_small 4 (Z.shiftr x 3)); lia).
  rewrite !shuffle_map by first [exact Hv|exact Hf7|exact Hf15|apply Hload|reflexivity].
  unfold blendv_epi8, testz_si256. rewrite !zip_with_maps, forallb_negb_existsb, existsb_map.
  transitivity (existsb (fun x => negb (Z.land (lane_row [a; b; c; d] x) (nth (Z.to_nat (Z.land (Z.land x 7) 15)) selector_half 0) =? 0)) v).
  - unfold lane_row, f15, f7. cbn [fst snd]. by destruct (existsb _ v).
  - apply existsb_ext_in. intros x Hx. rewrite Forall_forall in Hb. rewrite selected_bit by (by apply Hb). by apply lane_contains, Hb.
Qed.

Lemma screen_avx2_scalar mask data : length mask = 4%nat -> Forall is_byte data -> screen_avx2 mask data = existsb (contains_byte mask) data.
Proof.
  intros Hm Hb. unfold screen_avx2, chunks_exact. pose proof (chunks_exact_fuel_spec (length data) 32 data ltac:(lia) ltac:(lia)) as Hs.
  destruct (chunks_exact_fuel _ _ _) as [cs r]. destruct Hs as [<- Hc]. apply Forall_app in Hb as [Hb _]. rewrite existsb_app. f_equal.
  induction Hc as [|c cs Hlen Hc IH]; [done|]. cbn [concat] in *. apply Forall_app in Hb as [Hb1 Hb2]. cbn [existsb]. rewrite existsb_app.
  by rewrite avx2_chunk_scalar, IH.
Qed.

(** ** The set of the targets *)

Lemma set_byte_length m b : length (set_byte m b) = length m.
Proof. apply length_alter. Qed.

Lemma contains_set_byte m b c : length m = 4%nat -> is_byte b -> is_byte c ->
  contains_byte (set_byte m b) c = (c =? b) || contains_byte m c.
Proof.
  cbv beta. intros Hm Hb Hc. unfold contains_byte, set_byte, AlphabetMask in *. rewrite !land_bit by (apply Z.mod_pos_bound; lia).
  assert (Hcb : c = b <-> Z.to_nat (c / 64) = Z.to_nat (b / 64) /\ c mod 64 = b mod 64).
  { split; [by intros ->|]. intros [Hd Hmod]. apply Z2Nat.inj in Hd; [|apply Z.div_pos; lia..].
    rewrite (Z.div_mod c 64), (Z.div_mod b 64), Hd, Hmod by lia. done. }
  destruct (decide (Z.to_nat (c / 64) = Z.to_nat (b / 64))) as [Hi|Hi].
  - rewrite Hi, list_lookup_alter_eq. assert (Hl : (Z.to_nat (b / 64) < length m)%nat) by (rewrite Hm; Z.to_euclidean_division_equations; lia).
    apply lookup_lt_is_Some in Hl as [w ->]. cbn. rewrite Z.lor_spec, Z.shiftl_1_l, orb_comm. f_equal.
    destruct (Z.eqb_spec c b) as [->|Hne]; [apply Z.pow2_bits_true; apply Z.mod_pos_bound; lia|].
    apply Z.pow2_bits_false. intros Hmod. apply Hne, Hcb. done.
  - rewrite list_lookup_alter_ne by done. destruct (Z.eqb_spec c b) as [->|Hne]; [done|]. done.
Qed.

Lemma flip_case b c : is_byte b -> is_byte c -> is_ascii_alphabetic b = true ->
  (c =? b) || (c =? Z.lxor b 32) = (to_ascii_lowercase c =? to_ascii_lowercase b) /\ is_byte (Z.lxor b 32).
Proof.
  cbv beta. intros Hb Hc. assert (Hall : Forall (fun b => is_ascii_alphabetic b = true -> Z.lxor b 32 = if is_ascii_uppercase b then b + 32 else b - 32) (seqZ 0 256))
    by (vm_compute; repeat constructor; discriminate || done).
  rewrite Forall_forall in Hall. specialize (Hall b ltac:(apply elem_of_seqZ; lia)). intros Ha. rewrite (Hall Ha). clear Hall.
  unfold is_ascii_alphabetic, to_ascii_lowercase, is_ascii_uppercase, is_ascii_lowercase, in_range in *.
  destruct ((65 <=? b) && (b <=? 90)) eqn:?, ((65 <=? c) && (c <=? 90)) eqn:?; lia.
Qed.

Lemma contains_target_byte m b c : length m = 4%nat -> is_byte b -> is_byte c ->
  contains_byte (set_target_byte m b) c = (to_ascii_lowercase c =? to_ascii_lowercase b) || contains_byte m c.
Proof.
  intros Hm Hb Hc. unfold set_target_byte. destruct (is_ascii_alphabetic b) eqn:Ha.
  - destruct (flip_case b c Hb Hc Ha) as [<- Hx]. rewrite !contains_set_byte by (rewrite ?set_byte_length; done).
    by destruct (c =? b), (c =? Z.lxor b 32).
  - rewrite contains_set_byte by done. f_equal. cbv beta in Hb, Hc.
    unfold is_ascii_alphabetic, to_ascii_lowercase, is_ascii_uppercase, is_ascii_lowercase, in_range in *.
    destruct ((65 <=? b) && (b <=? 90)) eqn:?, ((65 <=? c) && (c <=? 90)) eqn:?; lia.
Qed.

Lemma set_target_byte_length m b : length (set_target_byte m b) = length m.
Proof. unfold set_target_byte. case_match; by rewrite ?set_byte_length. Qed.

(** Whether [c] is a byte of the target, up to case. *)
Definition in_target (c : Z) (target : bytes) : bool := existsb (fun b => to_ascii_lowercase c =? to_ascii_lowercase b) target.

Lemma contains_target target m c : length m = 4%nat -> Forall is_byte target -> is_byte c ->
  contains_byte (foldl set_target_byte m target) c = in_target c target || contains_byte m c /\
  length (foldl set_target_byte m target) = 4%nat.
Proof.
  intros Hm Ht Hc. revert m Hm. induction Ht as [|b target Hb _ IH]; intros m Hm; [done|]. cbn [foldl in_target existsb].
  destruct (IH (set_target_byte m b)) as [-> ->]; [by rewrite set_target_byte_length|]. split; [|done].
  rewrite contains_target_byte by done. by rewrite orb_assoc, (orb_comm (in_target c target)).
Qed.

Lemma contains_targets targets m c : length m = 4%nat -> Forall (Forall is_byte) targets -> is_byte c ->
  contains_byte (foldl (fun mask target => foldl set_target_byte mask target) m targets) c = existsb (in_target c) targets || contains_byte m c /\
  length (foldl (fun mask target => foldl set_target_byte mask target) m targets) = 4%nat.
Proof.
  intros Hm Ht Hc. revert m Hm. induction Ht as [|t targets Hb _ IH]; intros m Hm; [done|]. cbn [foldl existsb].
  destruct (contains_target t m c Hm Hb Hc) as [Hin Hlen]. destruct (IH _ Hlen) as [-> ->]. split; [|done].
  by rewrite Hin, orb_assoc, (orb_comm (existsb _ targets)).
Qed.

Lemma contains_empty c : is_byte c -> contains_byte empty_mask c = false.
Proof.
  intros Hc. unfold contains_byte, empty_mask, AlphabetMask. assert (Hz : default 0 ([0; 0; 0; 0] !! Z.to_nat (c / 64)) = 0).
  { generalize (Z.to_nat (c / 64)). intros n. by do 4 (destruct n as [|n]; [done|]). }
  by rewrite Hz, Z.land_0_l.
Qed.

Lemma screen_exact avx2 targets data : Forall (Forall is_byte) targets -> Forall is_byte data ->
  screen_bytes avx2 (from_byte_slices targets) data = existsb (fun c => existsb (in_target c) targets) data.
Proof.
  intros Ht Hd. transitivity (existsb (contains_byte (from_byte_slices targets)) data).
  - unfold screen_bytes. case_bool_decide as Hnil; [by subst data|]. destruct avx2; [|done]. apply screen_avx2_scalar; [|done].
    apply (contains_targets targets empty_mask 0); [done..|lia].
  - apply existsb_ext_in. intros c Hc. rewrite Forall_forall in Hd. specialize (Hd c Hc).
    unfold from_byte_slices. destruct (contains_targets targets empty_mask c) as [-> _]; [done..|]. by rewrite contains_empty, orb_false_r.
Qed.

Lemma screen_admits avx2 targets data target : Forall (Forall is_byte) targets -> Forall is_byte data ->
  target ∈ targets -> target <> [] -> occurs_ci target data -> screen_bytes avx2 (from_byte_slices targets) data = true.
Proof.
  intros Ht Hd Hin Hne (a & w & b & -> & Hw). rewrite screen_exact by done. destruct target as [|t target]; [done|]. destruct w as [|c w]; [done|].
  injection Hw as Hct _. apply existsb_exists. exists c. split; [apply list_elem_of_In; set_solver|].
  apply existsb_exists. exists (t :: target). split; [by apply list_elem_of_In|]. cbn. by rewrite Hct, Z.eqb_refl.
Qed.

(** C19. The alphabet screen is exact on either code path: with AVX2 or without,
    it accepts a chunk if and only if some byte of it is, up to ASCII case, a byte
    of a target, and the three ways to build the mask of a chunk agree.  So a chunk
    in which a target occurs in any case is never screened out. *)
Theorem alphabet_screen_exact (avx2 : bool) (targets : list bytes) (data : bytes) :
  Forall (Forall (fun b => 0 <= b <= 255)) targets -> Forall (fun b => 0 <= b <= 255) data ->
  screen_bytes avx2 (from_byte_slices targets) data = existsb (fun c => existsb (in_target c) targets) data /\
  (forall target, target ∈ targets -> target <> [] -> occurs_ci target data -> screen_bytes avx2 (from_byte_slices targets) data = true) /\
  from_bytes_avx2 data = from_bytes_scalar data /\ from_bytes_neon data = from_bytes_scalar data.
Proof.
  intros Ht Hd. split_and!; [by apply screen_exact| |by apply chunked_is_scalar; lia..]. intros. by eapply screen_admits.
Qed.

Definition sample_targets : list bytes := [$"AKIA"; $"ghp_"].
Definition sample_data : bytes := $"0000000000000000 00000000 000000000 xGHP_x".

Lemma alphabet_screen_exact_witness :
  (Forall (Forall (fun b => 0 <= b <= 255)) sample_targets /\ Forall (fun b => 0 <= b <= 255) sample_data) /\
  screen_bytes true (from_byte_slices sample_targets) sample_data = true.
Proof.
  assert (H : Forall (Forall (fun b => 0 <= b <= 255)) sample_targets /\ Forall (fun b => 0 <= b <= 255) sample_data).
  { split; repeat (apply Forall_cons_2 || apply Forall_nil_2 || (vm_compute; split; discriminate)). }
  split; [exact H|]. destruct (alphabet_screen_exact true sample_targets sample_data (proj1 H) (proj2 H)) as (_ & Hocc & _).
  apply (Hocc $"ghp_"); [right; left|discriminate|].
  exists (take 36 sample_data ++ [120]), $"GHP_", $"x". split; reflexivity.
Defined.
