(* ===== verification/DecodePipeline.v ===== *)
(** * The decode-through pipeline ([crates/scanner/src/decode/pipeline.rs])

    Starting from a chunk, the pipeline runs every decoder over every chunk it
    has produced, breadth first, until nothing new appears, a depth, a budget or
    a deadline is reached.  A chunk is explored once, whatever encodings lead to
    it.  The alphabet screen ([alphabet_filter.rs]) decides which chunks are
    handed to the detectors; all of them are explored. *)

From S2P Require Import Prelude Utf8 StrOffsets DecodeExtract DecodeSplice.

(** ** Content keys *)

Definition FNV_OFFSET_BASIS : Z := 0xcbf29ce484222325.
Definition FNV_PRIME : Z := 0x100000001b3.

(** [FnvHasher::write] *)
Definition fnv_write (hash : Z) (bs : bytes) : Z :=
  foldl (fun h b => (Z.lxor h b * FNV_PRIME) mod 2 ^ 64) hash bs.

Definition hash_fast (bs : bytes) : Z := fnv_write FNV_OFFSET_BASIS bs.

Definition DEDUP_KEY_SALT : bytes := [0x9e; 0x37; 0x79; 0xb9].

Definition dedup_key (bs : bytes) : Z :=
  Z.lor (Z.shiftl (fnv_write (fnv_write FNV_OFFSET_BASIS DEDUP_KEY_SALT) bs) 64) (hash_fast bs).

Definition key_of_chunk (c : Chunk) : Z := dedup_key (as_bytes (data c)).

(** ** Decoders *)

Inductive DecodeAdmission := Unknown | Possible | Impossible.

#[export] Instance DecodeAdmission_eq_dec : EqDecision DecodeAdmission.
Proof. solve_decision. Defined.

(** [trait Decoder].  [pruned] is the state of the thread's shared candidates:
    whether those of the chunk were extracted with pruning. *)
Record Decoder := mkDecoder {
  decoder_name : str;
  decoder_version : str;
  admission : bool -> Chunk -> DecodeAdmission;
  decode_chunk_into : forall S, DecodeOutputSink S -> bool -> Chunk -> S -> outcome S }.

(** What the trait requires, for every chunk a [String] can hold: a decoder does
    not panic, offers its chunks one by one and stops when the sink closes, and
    offers nothing when it calls that impossible.  It is a condition, not a fact:
    the default hex decoder panics on some chunks (see [DecodeCandidates]), so it
    is not an instance. *)
Class LawfulDecoder (d : Decoder) := {
  decoder_outputs : bool -> Chunk -> list Chunk;
  decoder_streams : forall S (HS : DecodeOutputSink S) pruned c (s : S), str_len (data c) <= isize_max ->
    decode_chunk_into d S HS pruned c s = Ret (fst (push_all s (decoder_outputs pruned c)));
  decoder_admits : forall pruned c, str_len (data c) <= isize_max -> admission d pruned c = Impossible ->
    decoder_outputs pruned c = []
}.

(** [CompiledDecoderPlan], as the pipeline uses it: with only default decoders
    registered it carries a trigger. *)
Record CompiledDecoderPlan := mkPlan { has_all_decoder_trigger : bool }.

Definition default_decoder_names : list str :=
  [$"base64"; $"hex"; $"url"; $"quoted-printable"; $"html-named-entity"; $"html-numeric-entity"; $"octal-escape";
   $"mime-encoded-word"; $"json"; $"unicode-escape"; $"z85"; $"javascript-static"; $"reverse"; $"caesar"].

Definition is_default_decoder_name (name : str) : bool := bool_decide (name ∈ default_decoder_names).

Definition compile_all_decoder_trigger (decoders : list Decoder) : CompiledDecoderPlan :=
  mkPlan (negb (existsb (fun d => negb (is_default_decoder_name (decoder_name d))) decoders)).

(** The patterns of the trigger are the printable ASCII bytes. *)
Definition all_decoder_may_match (plan : CompiledDecoderPlan) (text : str) : bool :=
  if has_all_decoder_trigger plan then existsb (in_range 33 126) (as_bytes text) else true.

(** ** The bounded sink *)

Inductive DecodeSinkExhaustion := ExhaustedDeadline | ExhaustedBudget.

(** A chunk to explore, its depth and its source cursor. *)
Record work := mkWork { w_chunk : Chunk; w_depth : Z; w_cursor : Z }.

(** The locals of the pipeline; [ticks] counts the readings of the clock and
    [truncations] the calls of [record_decode_truncation]. *)
Record pipeline_state := mkPipeline {
  decoded_chunks : list Chunk; queue : list work; seen : gset Z;
  produced : Z; total_bytes : Z; ticks : nat; truncations : Z }.

Record BoundedDecodeSink := mkSink {
  sink_state : pipeline_state; exhaustion : option DecodeSinkExhaustion; emitted : Z; last_decoded_bytes : Z }.

Definition tick (p : pipeline_state) : pipeline_state :=
  mkPipeline (decoded_chunks p) (queue p) (seen p) (produced p) (total_bytes p) (Datatypes.S (ticks p)) (truncations p).

Definition truncate (p : pipeline_state) : pipeline_state :=
  mkPipeline (decoded_chunks p) (queue p) (seen p) (produced p) (total_bytes p) (ticks p) (truncations p + 1).

Definition mark_seen (k : Z) (p : pipeline_state) : pipeline_state :=
  mkPipeline (decoded_chunks p) (queue p) ({[k]} ∪ seen p) (produced p) (total_bytes p) (ticks p) (truncations p).

Definition with_queue (q : list work) (p : pipeline_state) : pipeline_state :=
  mkPipeline (decoded_chunks p) q (seen p) (produced p) (total_bytes p) (ticks p) (truncations p).

Definition decoded_offset (c : Chunk) : Z :=
  match decoded_span (metadata c) with
  | None => base_offset (metadata c)
  | Some (start, _) => saturating_add usize_max (base_offset (metadata c)) start
  end.

Section pipeline.
(** The deadline, as the answer of [deadline::expired] at each reading, and the
    screen. *)
Context (expired : nat -> bool) (screen : option (bytes -> bool)) (validate : bool).

Definition passes_screen (c : Chunk) : bool :=
  match screen with None => true | Some f => f (as_bytes (data c)) end.

Definition accept_chunk (w : work) (p : pipeline_state) : pipeline_state :=
  let c := w_chunk w in
  mkPipeline (if passes_screen c then decoded_chunks p ++ [c] else decoded_chunks p) (queue p ++ [w]) (seen p)
    (saturating_add usize_max (produced p) 1) (saturating_add usize_max (total_bytes p) (str_len (data c)))
    (ticks p) (truncations p).

(** [BoundedDecodeSink::push] while the item at [depth] with [decode_cursor] is explored. *)
Definition bounded_push (depth decode_cursor : Z) : DecodeOutputSink BoundedDecodeSink := fun sink decoded =>
  let emitted := saturating_add usize_max (emitted sink) 1 in
  let last := str_len (data decoded) in
  let p := sink_state sink in
  let result p := (mkSink p (exhaustion sink) emitted last, true) in
  let closed p e := (mkSink p (Some e) emitted last, false) in
  let late := expired (ticks p) in
  let p := tick p in
  if late then closed p ExhaustedDeadline
  else
    let offset := decoded_offset decoded in
    if offset <? decode_cursor then result p
    else
      let key := key_of_chunk decoded in
      if bool_decide (key ∈ seen p) then result p
      else
        let p := mark_seen key p in
        if validate && bool_decide (0 ∈ as_bytes (data decoded)) then result p
        else
          let next_produced := saturating_add usize_max (produced p) 1 in
          let next_total_bytes := saturating_add usize_max (total_bytes p) (str_len (data decoded)) in
          if (MAX_DECODED_CHUNKS_PER_ROOT <? next_produced) || (MAX_DECODED_TOTAL_BYTES <? next_total_bytes) then
            closed p ExhaustedBudget
          else
            let p := accept_chunk (mkWork decoded (depth + 1) offset) p in
            if (produced p =? MAX_DECODED_CHUNKS_PER_ROOT) || (total_bytes p =? MAX_DECODED_TOTAL_BYTES) then
              closed p ExhaustedBudget
            else result p.

(** ** The loop *)

(** [for (dec_i, decoder) in decoders.iter().enumerate()]; [true] when the
    pipeline returns from inside. *)
Fixpoint decoders_loop (pruned : bool) (w : work) (decoders : list Decoder) (p : pipeline_state) : outcome (pipeline_state * bool) :=
  match decoders with
  | [] => Ret (p, false)
  | d :: rest =>
      let late := expired (ticks p) in
      let p := tick p in
      if late then Ret (truncate p, true)
      else if bool_decide (admission d pruned (w_chunk w) = Impossible) then decoders_loop pruned w rest p
      else
        let! sink :=
          decode_chunk_into d _ (bounded_push (w_depth w) (w_cursor w)) pruned (w_chunk w) (mkSink p None 0 0) in
        match exhaustion sink with
        | Some _ => Ret (truncate (sink_state sink), true)
        | None => decoders_loop pruned w rest (sink_state sink)
        end
  end.

(** [while let Some(..) = queue.pop_front()].  At most a thousand chunks are
    ever queued after the root, so [fuel] of 1001 suffices; running out is
    [Panic]. *)
Fixpoint pipeline_loop (fuel : nat) (decoders : list Decoder) (plan : option CompiledDecoderPlan) (max_depth : Z)
    (p : pipeline_state) : outcome pipeline_state :=
  match queue p with
  | [] => Ret p
  | w :: rest =>
      match fuel with
      | O => Panic
      | Datatypes.S fuel' =>
          let p := with_queue rest p in
          let late := expired (ticks p) in
          let p := tick p in
          if late then Ret (truncate p)
          else if max_depth <=? w_depth w then pipeline_loop fuel' decoders plan max_depth p
          else if match plan with Some pl => negb (all_decoder_may_match pl (data (w_chunk w))) | None => false end
          then pipeline_loop fuel' decoders plan max_depth p
          else
            let pruned := match plan with Some pl => has_all_decoder_trigger pl | None => false end in
            let! (p, returned) := decoders_loop pruned w decoders p in
            if returned then Ret p else pipeline_loop fuel' decoders plan max_depth p
      end
  end.

Definition PIPELINE_FUEL : nat := 1001.

Definition pipeline_start (chunk : Chunk) : pipeline_state :=
  mkPipeline [] [mkWork chunk 0 (base_offset (metadata chunk))] {[key_of_chunk chunk]} 0 0 0 0.

Definition decode_chunk_with_decoders (chunk : Chunk) (decoders : list Decoder) (plan : option CompiledDecoderPlan) (max_depth : Z) :
    outcome pipeline_state :=
  pipeline_loop PIPELINE_FUEL decoders plan max_depth (pipeline_start chunk).
End pipeline.

(** ** What the pipeline explores *)

(** A decoder with the proof that it keeps the contract of the trait. *)
Record registered := mkRegistered { reg_decoder : Decoder; reg_lawful : LawfulDecoder reg_decoder }.

Definition outputs_of (r : registered) (pruned : bool) (c : Chunk) : list Chunk := @decoder_outputs _ (reg_lawful r) pruned c.

(** The decoder makes nothing of a text without printable ASCII. *)
Definition needs_printable (r : registered) : Prop :=
  forall pruned c, str_len (data c) <= isize_max -> (forall ch, ch ∈ data c -> ~ 33 <= ch <= 126) -> outputs_of r pruned c = [].

(** A plan with a trigger has only such decoders. *)
Definition plan_fits (regs : list registered) (plan : option CompiledDecoderPlan) : Prop :=
  match plan with Some pl => has_all_decoder_trigger pl = true -> Forall needs_printable regs | None => True end.

(** A text the plan does not trigger has no printable character. *)
Lemma untriggered_text pl text ch : all_decoder_may_match pl text = false -> ch ∈ text -> ~ 33 <= ch <= 126.
Proof.
  unfold all_decoder_may_match. destruct (has_all_decoder_trigger pl); [|done]. intros Hno (a & b & ->)%list_elem_of_split Hch.
  apply not_true_iff_false in Hno. apply Hno. rewrite as_bytes_app, as_bytes_cons, !existsb_app. unfold utf8_char.
  rewrite (proj2 (Z.ltb_lt ch 128)) by lia. cbn [existsb]. unfold in_range. rewrite (proj2 (Z.leb_le 33 ch)), (proj2 (Z.leb_le ch 126)) by lia.
  cbn. apply orb_true_r.
Qed.

Definition chunk_bytes (ws : list work) : Z := foldr (fun w n => str_len (data (w_chunk w)) + n) 0 ws.

Definition work_key (w : work) : Z := key_of_chunk (w_chunk w).

Lemma chunk_bytes_app ws w : chunk_bytes (ws ++ [w]) = chunk_bytes ws + str_len (data (w_chunk w)).
Proof. induction ws as [|x ws IH]; cbn [app chunk_bytes foldr]; [lia|]. unfold chunk_bytes in IH. rewrite IH. lia. Qed.

Lemma chunk_bytes_nonneg ws : 0 <= chunk_bytes ws.
Proof.
  induction ws as [|w ws IH]; [done|]. cbn [chunk_bytes foldr]. fold (chunk_bytes ws).
  pose proof (str_len_nonneg (data (w_chunk w))). lia.
Qed.

Section exploration.
Context (expired : nat -> bool) (screen : option (bytes -> bool)) (validate : bool).
Context (regs : list registered) (plan : option CompiledDecoderPlan) (max_depth : Z) (root : work).

Definition plan_pruned : bool := match plan with Some pl => has_all_decoder_trigger pl | None => false end.

(** The items whose decoders run. *)
Definition explorable (w : work) : bool :=
  (w_depth w <? max_depth) &&
  match plan with Some pl => all_decoder_may_match pl (data (w_chunk w)) | None => true end.

(** [o] is something a decoder makes of an explored item. *)
Definition offered (items : list work) (parent : work) (o : Chunk) : Prop :=
  parent ∈ items /\ explorable parent = true /\
  exists r, r ∈ regs /\ o ∈ outputs_of r plan_pruned (w_chunk parent).

(** The item was made from an earlier one, one level down and not to the left. *)
Definition derived (items : list work) (w : work) : Prop :=
  exists parent, offered items parent (w_chunk w) /\ w_depth w = w_depth parent + 1 /\
    w_cursor w = decoded_offset (w_chunk w) /\ w_cursor parent <= w_cursor w.

(** A chunk that validation rejects. *)
Definition binary (o : Chunk) : Prop := validate = true /\ 0 ∈ as_bytes (data o).

(** Nothing is left to do for [o] once it lies left of the cursor or its key is known. *)
Definition handled (K : gset Z) (w : work) (o : Chunk) : Prop :=
  decoded_offset o < w_cursor w \/ key_of_chunk o ∈ K.

Definition item_closed (K : gset Z) (w : work) : Prop :=
  explorable w = true -> forall r o, r ∈ regs -> o ∈ outputs_of r plan_pruned (w_chunk w) -> handled K w o.

(** What is returned when [items] have been queued, the root first. *)
Record explored (items : list work) (p : pipeline_state) : Prop := {
  ex_items : exists acc, items = root :: acc /\
    decoded_chunks p = List.filter (passes_screen screen) (map w_chunk acc) /\
    produced p = zlen acc /\ total_bytes p = chunk_bytes acc;
  ex_fits : forall w, w ∈ items -> str_len (data (w_chunk w)) <= isize_max;
  ex_distinct : NoDup (map work_key items);
  ex_derived : forall pre w post, items = pre ++ w :: post -> pre = [] \/ derived pre w;
  ex_bounds : produced p <= MAX_DECODED_CHUNKS_PER_ROOT /\ total_bytes p <= MAX_DECODED_TOTAL_BYTES
}.

(** Before a cut, the keys seen are those of the items and of rejected chunks. *)
Record live (items : list work) (p : pipeline_state) : Prop := {
  live_explored : explored items p;
  live_seen : forall k, k ∈ seen p -> k ∈ map work_key items \/ exists parent o, offered items parent o /\ binary o /\ key_of_chunk o = k;
  live_keys : forall w, w ∈ items -> work_key w ∈ seen p
}.

Lemma offered_mono items items' parent o : (forall w, w ∈ items -> w ∈ items') -> offered items parent o -> offered items' parent o.
Proof. intros Hsub (Hin & He & Hr). split_and!; auto. Qed.

(** The queue and the counters of the clock and of cuts do not matter. *)
Lemma explored_same items p p' :
  explored items p -> decoded_chunks p = decoded_chunks p' -> produced p = produced p' -> total_bytes p = total_bytes p' ->
  explored items p'.
Proof. intros [(acc & H1 & H2 & H3 & H4) Hf Hd Hv Hb] E1 E2 E3. constructor; rewrite <- ?E1, <- ?E2, <- ?E3; eauto. Qed.

Lemma live_same items p p' :
  live items p -> decoded_chunks p = decoded_chunks p' -> produced p = produced p' -> total_bytes p = total_bytes p' ->
  seen p = seen p' -> live items p'.
Proof. intros [He Hs Hk] E1 E2 E3 E4. constructor; rewrite <- ?E4; eauto using explored_same. Qed.

Lemma live_binary items p parent o :
  live items p -> offered items parent o -> binary o -> live items (mark_seen (key_of_chunk o) p).
Proof.
  intros [He Hs Hk] Ho Hbin. constructor; [by eapply explored_same| |].
  - intros k. cbn. rewrite elem_of_union, elem_of_singleton. intros [-> |?]; [right; eauto|auto].
  - intros w Hw. cbn. apply elem_of_union_r. auto.
Qed.

Lemma live_accept items p parent o depth :
  live items p -> offered items parent o -> w_cursor parent <= decoded_offset o -> key_of_chunk o ∉ seen p ->
  depth = w_depth parent ->
  produced p + 1 <= MAX_DECODED_CHUNKS_PER_ROOT -> total_bytes p + str_len (data o) <= MAX_DECODED_TOTAL_BYTES ->
  let w := mkWork o (depth + 1) (decoded_offset o) in
  live (items ++ [w]) (accept_chunk screen w (mark_seen (key_of_chunk o) p)).
Proof.
  intros [[(acc & Hitems & Hdec & Hprod & Htot) Hfits Hd Hv Hb] Hs Hkeys] Ho Hc Hk -> Hp Ht w.
  assert (Hsmall : MAX_DECODED_CHUNKS_PER_ROOT < usize_max /\ MAX_DECODED_TOTAL_BYTES < usize_max) by (split; reflexivity).
  assert (Hgrow : forall x, x ∈ items -> x ∈ items ++ [w]) by (intros; set_solver).
  constructor; [constructor| |].
  - exists (acc ++ [w]). unfold accept_chunk. cbn. unfold saturating_add, zlen in *. rewrite Hitems, chunk_bytes_app, map_app, List.filter_app, length_app.
    split_and!; [done| |cbn; lia|cbn; lia]. rewrite Hdec. cbn. case_match; [done|by rewrite app_nil_r].
  - intros x [Hx|Hx%list_elem_of_singleton]%elem_of_app; [auto|subst x; cbn]. pose proof (chunk_bytes_nonneg acc).
    assert (MAX_DECODED_TOTAL_BYTES < isize_max) by done. lia.
  - rewrite map_app. apply NoDup_app. split_and!; [done| |apply NoDup_singleton].
    intros k Hin Hw%list_elem_of_singleton. subst k. apply list_elem_of_fmap in Hin as (x & Hx & Hin).
    apply Hk. change (key_of_chunk o) with (work_key w). rewrite Hx. auto.
  - intros pre x post Heq. destruct post as [|y post] using rev_ind.
    + apply app_inj_tail in Heq as [<- <-]. right. by exists parent.
    + rewrite app_comm_cons, app_assoc in Heq. apply app_inj_tail in Heq as [Heq _]. by eapply Hv.
  - unfold accept_chunk. cbn. unfold saturating_add in *. lia.
  - intros k. cbn. rewrite elem_of_union, elem_of_singleton, map_app, elem_of_app. intros [-> |Hin].
    + left. right. by apply list_elem_of_singleton.
    + destruct (Hs k Hin) as [?|(pa & x & Hx & ? & ?)]; [by left; left|right; exists pa, x; eauto using offered_mono].
  - intros x [Hx|Hx%list_elem_of_singleton]%elem_of_app; cbn; [apply elem_of_union_r; auto|subst x; set_solver].
Qed.

(** One [push] while [parent] is explored. *)
Lemma push_explored items parent o sink :
  live (items ++ queue (sink_state sink)) (sink_state sink) -> offered items parent o ->
  let (sink', open) := bounded_push expired screen validate (w_depth parent) (w_cursor parent) sink o in
  let p := sink_state sink in let p' := sink_state sink' in
  truncations p' = truncations p /\ explored (items ++ queue p') p' /\
  (if open then live (items ++ queue p') p' /\ seen p ⊆ seen p' /\ handled (seen p') parent o /\ exhaustion sink' = exhaustion sink
   else is_Some (exhaustion sink')).
Proof.
  intros Hl Ho. set (p := sink_state sink) in *. unfold bounded_push. fold p. cbv zeta.
  assert (Htick : live (items ++ queue p) (tick p)) by (by eapply live_same).
  assert (Ho' : offered (items ++ queue p) parent o) by (eapply offered_mono; [|exact Ho]; set_solver).
  destruct (expired (ticks p)); [cbn; split_and!; [done|apply Htick|eauto]|].
  destruct (Z.ltb_spec (decoded_offset o) (w_cursor parent)) as [Hlt|Hge].
  { cbn. split_and!; [done|apply Htick|done|done|by left|done]. }
  case_bool_decide as Hk; [cbn; split_and!; [done|apply Htick|done|done|by right|done]|]. cbn [seen tick] in Hk.
  assert (Hhandled : handled ({[key_of_chunk o]} ∪ seen p) parent o) by (right; set_solver).
  destruct (validate && bool_decide (0 ∈ as_bytes (data o))) eqn:Ebin.
  { apply andb_true_iff in Ebin as [Ev Eb%bool_decide_eq_true].
    pose proof (live_binary _ _ parent o Htick Ho' (conj Ev Eb)) as Hb. cbn. split_and!; [done|apply Hb|done|set_solver|done|done]. }
  destruct ((MAX_DECODED_CHUNKS_PER_ROOT <? _) || _) eqn:Ebud.
  { cbn. split_and!; [done|eapply explored_same; [apply Htick|done..]|eauto]. }
  apply orb_false_iff in Ebud as [Ep%Z.ltb_ge Et%Z.ltb_ge]. cbn [produced total_bytes mark_seen tick] in Ep, Et.
  assert (Hnext : live (items ++ queue p ++ [mkWork o (w_depth parent + 1) (decoded_offset o)])
    (accept_chunk screen (mkWork o (w_depth parent + 1) (decoded_offset o)) (mark_seen (key_of_chunk o) (tick p)))).
  { rewrite app_assoc. apply (live_accept _ (tick p) parent o (w_depth parent)); try done.
    - cbn. unfold saturating_add, usize_max, u64_max, MAX_DECODED_CHUNKS_PER_ROOT in *. lia.
    - cbn. unfold saturating_add, usize_max, u64_max, MAX_DECODED_TOTAL_BYTES, DECODE_LIMIT_UNIT_BYTES in *. lia. }
  destruct ((produced _ =? _) || (total_bytes _ =? _)); (split; [done|split; [apply Hnext|]]); [cbn; eauto|].
  split_and!; [exact Hnext|cbn; set_solver|done|done].
Qed.

Lemma handled_mono K K' w o : K ⊆ K' -> handled K w o -> handled K' w o.
Proof. intros HK [?|?]; [by left|right; set_solver]. Qed.

Lemma push_all_explored items parent out sink :
  live (items ++ queue (sink_state sink)) (sink_state sink) -> Forall (offered items parent) out ->
  let (sink', open) := @push_all _ (bounded_push expired screen validate (w_depth parent) (w_cursor parent)) sink out in
  let p := sink_state sink in let p' := sink_state sink' in
  truncations p' = truncations p /\ explored (items ++ queue p') p' /\
  (if open then live (items ++ queue p') p' /\ seen p ⊆ seen p' /\ Forall (handled (seen p') parent) out /\ exhaustion sink' = exhaustion sink
   else is_Some (exhaustion sink')).
Proof.
  intros Hl Hout. revert sink Hl. induction Hout as [|o out Ho _ IH]; intros sink Hl; cbn [push_all].
  - split_and!; [done|apply Hl|done|done|constructor|done].
  - pose proof (push_explored items parent o sink Hl Ho) as Hp. unfold sink_push.
    destruct (bounded_push _ _ _ _ _ sink o) as [s1 []]; [|done]. cbv zeta in Hp. destruct Hp as (Ht & _ & Hl1 & Hs1 & Hh & He).
    specialize (IH s1 Hl1). destruct (push_all s1 out) as [s2 []]; cbv zeta in IH |- *.
    + destruct IH as (Ht2 & Hx & Hl2 & Hs2 & Hf & He2). split_and!; [congruence|done|done|set_solver| |congruence].
      constructor; [by eapply handled_mono|done].
    + destruct IH as (Ht2 & Hx & He2). split_and!; [congruence|done|done].
Qed.

(** The decoders of one item. *)
Lemma decoders_explored items w rs p :
  w ∈ items -> explorable w = true -> (forall r, r ∈ rs -> r ∈ regs) -> live (items ++ queue p) p ->
  exists p' returned,
    decoders_loop expired screen validate plan_pruned w (map reg_decoder rs) p = Ret (p', returned) /\ explored (items ++ queue p') p' /\
    if returned : bool then truncations p' = truncations p + 1
    else truncations p' = truncations p /\ live (items ++ queue p') p' /\ seen p ⊆ seen p' /\
      forall r o, r ∈ rs -> o ∈ outputs_of r plan_pruned (w_chunk w) -> handled (seen p') w o.
Proof.
  intros Hw He. revert p. induction rs as [|r rs IH]; intros p Hrs Hl; cbn [map decoders_loop].
  { exists p, false. split_and!; [done|apply Hl|done|done|done|]. intros r o Hr. by apply not_elem_of_nil in Hr. }
  assert (Htick : live (items ++ queue p) (tick p)) by (by eapply live_same).
  assert (Hfit : str_len (data (w_chunk w)) <= isize_max) by (eapply (ex_fits _ _ (live_explored _ _ Hl)); set_solver).
  destruct (expired (ticks p)).
  { eexists _, true. split_and!; [done|eapply explored_same; [apply Htick|done..]|done]. }
  assert (Hr : r ∈ regs) by (apply Hrs; set_solver). assert (Hrs' : forall x, x ∈ rs -> x ∈ regs) by (intros; apply Hrs; set_solver).
  assert (Hall : Forall (offered items w) (outputs_of r plan_pruned (w_chunk w))).
  { apply Forall_forall. intros o Hin. split_and!; eauto. }
  assert (Hskip : forall q, live (items ++ queue q) q -> truncations q = truncations p -> seen p ⊆ seen q ->
    Forall (handled (seen q) w) (outputs_of r plan_pruned (w_chunk w)) ->
    exists p' returned,
    decoders_loop expired screen validate plan_pruned w (map reg_decoder rs) q = Ret (p', returned) /\ explored (items ++ queue p') p' /\
    if returned : bool then truncations p' = truncations p + 1
    else truncations p' = truncations p /\ live (items ++ queue p') p' /\ seen p ⊆ seen p' /\
      forall r' o, r' ∈ r :: rs -> o ∈ outputs_of r' plan_pruned (w_chunk w) -> handled (seen p') w o).
  { intros q Hq Ht Hs Hh. destruct (IH q Hrs' Hq) as (p' & ret & -> & Hx & Hres). exists p', ret. split_and!; [done|done|].
    destruct ret; [congruence|]. destruct Hres as (Ht' & Hl' & Hs' & Hh'). split_and!; [congruence|done|set_solver|].
    intros r' o [-> |Hin]%elem_of_cons Ho; [|by eapply Hh']. eapply handled_mono; [exact Hs'|]. by apply (proj1 (Forall_forall _ _) Hh). }
  case_bool_decide as Hadm.
  - apply Hskip; [done..|]. unfold outputs_of. rewrite (decoder_admits (LawfulDecoder := reg_lawful r)) by done. constructor.
  - rewrite (@decoder_streams _ (reg_lawful r)) by done. fold (outputs_of r plan_pruned (w_chunk w)).
    pose proof (push_all_explored items w (outputs_of r plan_pruned (w_chunk w)) (mkSink (tick p) None 0 0) Htick Hall) as Hp.
    destruct (push_all _ _) as [s []]; cbv zeta in Hp; cbn [fst].
    + destruct Hp as (Ht & _ & Hl' & Hs & Hf & Hex). cbn in Hex. rewrite Hex. by apply Hskip.
    + destruct Hp as (Ht & Hx & [e ->]). eexists _, true. split_and!; [done|eapply explored_same; [exact Hx|done..]|]. cbn. by rewrite Ht.
Qed.

(** The loop: [done_] are the items popped so far. *)
Definition settled (done_ : list work) (p : pipeline_state) : Prop :=
  live (done_ ++ queue p) p /\ forall w, w ∈ done_ -> item_closed (seen p) w.

Lemma loop_explored fuel done_ p :
  settled done_ p -> (1001 <= fuel + length done_)%nat ->
  exists p' items, pipeline_loop expired screen validate fuel (map reg_decoder regs) plan max_depth p = Ret p' /\ explored items p' /\
    (truncations p' = truncations p + 1 \/ (truncations p' = truncations p /\ settled items p' /\ queue p' = [])).
Proof.
  revert done_ p. induction fuel as [|fuel IH]; intros done_ p [Hl Hc] Hfuel;
    (destruct (queue p) as [|w rest] eqn:Eq; [rewrite app_nil_r in Hl; cbn [pipeline_loop]; rewrite Eq;
       exists p, done_; split_and!; [done|apply Hl|right; split_and!; [done| |done]; split; [by rewrite Eq, app_nil_r|done]]|]).
  - exfalso. destruct Hl as [[(acc & Hi & _ & Hp & _) _ _ _ [Hb _]] _ _]. apply (f_equal length) in Hi. rewrite length_app in Hi.
    cbn in Hi. unfold zlen, MAX_DECODED_CHUNKS_PER_ROOT in *. lia.
  - assert (Happ : done_ ++ w :: rest = (done_ ++ [w]) ++ rest) by (by rewrite <- app_assoc).
    cbn [pipeline_loop]. rewrite Eq. rewrite Happ in Hl. assert (Hlen : (1001 <= fuel + length (done_ ++ [w]))%nat) by (rewrite length_app; cbn; lia).
    assert (Hpop : live ((done_ ++ [w]) ++ rest) (tick (with_queue rest p))) by (by eapply live_same). cbn [ticks with_queue].
    destruct (expired (ticks p)).
    { exists (truncate (tick (with_queue rest p))), ((done_ ++ [w]) ++ rest). split_and!; [done| |by left].
      eapply explored_same; [exact (live_explored _ _ Hpop)|done..]. }
    assert (Hskip : explorable w = false -> exists p' items,
      pipeline_loop expired screen validate fuel (map reg_decoder regs) plan max_depth (tick (with_queue rest p)) = Ret p' /\ explored items p' /\
      (truncations p' = truncations p + 1 \/ (truncations p' = truncations p /\ settled items p' /\ queue p' = []))).
    { intros Hno. apply (IH (done_ ++ [w]) (tick (with_queue rest p))); [|done]. split; [exact Hpop|].
      intros x [Hx|Hx%list_elem_of_singleton]%elem_of_app; [by apply Hc|]. subst x. intros He. congruence. }
    destruct (Z.leb_spec max_depth (w_depth w)) as [Hd|Hd].
    { apply Hskip. unfold explorable. by rewrite (proj2 (Z.ltb_ge _ _)). }
    assert (Hplan : match plan with Some pl => negb (all_decoder_may_match pl (data (w_chunk w))) | None => false end = negb (explorable w)).
    { unfold explorable. rewrite (proj2 (Z.ltb_lt _ _) Hd). by destruct plan. }
    rewrite Hplan. destruct (explorable w) eqn:He; cbn [negb]; [|by apply Hskip].
    fold plan_pruned.
    destruct (decoders_explored (done_ ++ [w]) w regs (tick (with_queue rest p))) as (p' & returned & -> & Hx & Hres); [set_solver|done|done|exact Hpop|].
    destruct returned; [by eexists _, _; split_and!; [done|exact Hx|left]|]. destruct Hres as (Ht & Hl' & Hs & Hh).
    destruct (IH (done_ ++ [w]) p') as (p2 & items & -> & Hx2 & Hres2); [|done|exists p2, items; split_and!; [done|done|by rewrite Ht in Hres2]].
    split; [done|]. intros x [Hx'|Hx'%list_elem_of_singleton]%elem_of_app.
    + intros Hex r o Hr Ho. eapply handled_mono; [exact Hs|]. by eapply Hc.
    + subst x. intros _ r o Hr Ho. by eapply Hh.
Qed.

(** A chunk that decoders reach from the root, level by level. *)
Inductive reachable : Z -> Chunk -> Prop :=
  | reachable_root : reachable (w_depth root) (w_chunk root)
  | reachable_step n c r o :
      reachable n c -> n < max_depth -> r ∈ regs -> o ∈ outputs_of r plan_pruned c -> reachable (n + 1) o.

Lemma explored_reachable items p w : explored items p -> w ∈ items -> reachable (w_depth w) (w_chunk w).
Proof.
  intros [(acc & Hroot & _) _ _ Hv _] (pre & post & Heq)%list_elem_of_split.
  remember (length pre) as n eqn:En. revert pre w post Heq En. induction n as [n IH] using lt_wf_ind. intros pre w post Heq ->.
  destruct (Hv _ _ _ Heq) as [-> |(parent & (Hin & He & r & Hr & Ho) & Hd & _)].
  - rewrite Heq in Hroot. injection Hroot as -> _. constructor.
  - apply list_elem_of_split in Hin as (pre' & post' & ->). rewrite Hd. eapply reachable_step; [|..|exact Hr|exact Ho].
    + eapply (IH (length pre')); [rewrite length_app; cbn; lia| |done]. rewrite Heq, <- app_assoc. done.
    + unfold explorable in He. lia.
Qed.
End exploration.

Section results.
Context (expired : nat -> bool) (screen : option (bytes -> bool)) (validate : bool).
Context (regs : list registered) (plan : option CompiledDecoderPlan) (max_depth : Z) (chunk : Chunk).
Context (Hroot : str_len (data chunk) <= isize_max).

Definition root_work : work := mkWork chunk 0 (base_offset (metadata chunk)).

Lemma start_settled : settled screen validate regs plan max_depth root_work [] (pipeline_start chunk).
Proof.
  split; [|intros w Hw; by apply not_elem_of_nil in Hw]. cbn. constructor; [constructor| |].
  - exists []. done.
  - intros w Hw%list_elem_of_singleton. by subst w.
  - cbn. apply NoDup_singleton.
  - intros [|x pre] w post Heq; [by left|]. injection Heq as _ Heq. by destruct pre.
  - cbn. unfold MAX_DECODED_CHUNKS_PER_ROOT, MAX_DECODED_TOTAL_BYTES, DECODE_LIMIT_UNIT_BYTES. lia.
  - cbn. intros k Hk%elem_of_singleton. left. subst k. by apply list_elem_of_singleton.
  - intros w Hw%list_elem_of_singleton. subst w. cbn. by apply elem_of_singleton.
Qed.

(** What is left out of an exploration that was not cut. *)
Definition explorable_closed (items : list work) : Prop :=
  forall w r o, w ∈ items -> explorable plan max_depth w = true -> r ∈ regs -> o ∈ outputs_of r (plan_pruned plan) (w_chunk w) ->
    decoded_offset o < w_cursor w \/
    (exists w', w' ∈ items /\ work_key w' = key_of_chunk o) \/
    (exists parent o', offered regs plan max_depth items parent o' /\ binary validate o' /\ key_of_chunk o' = key_of_chunk o).

Lemma run_explored : exists p items,
  decode_chunk_with_decoders expired screen validate chunk (map reg_decoder regs) plan max_depth = Ret p /\
  explored screen regs plan max_depth root_work items p /\
  (truncations p = 1 \/ (truncations p = 0 /\ explorable_closed items)).
Proof.
  destruct (loop_explored expired screen validate regs plan max_depth root_work PIPELINE_FUEL [] _ start_settled) as (p & items & Hr & Hx & Ht);
    [cbn; lia|]. exists p, items. split_and!; [done|done|]. destruct Ht as [Ht|(Ht & [Hl Hc] & Hq)]; [by left|right]. split; [done|].
  rewrite Hq, app_nil_r in Hl. intros w r o Hw He Hreg Ho. destruct (Hc w Hw He r o Hreg Ho) as [?|Hk]; [by left|right].
  destruct (live_seen _ _ _ _ _ _ _ _ Hl _ Hk) as [Hin|?]; [left|by right].
  apply list_elem_of_fmap in Hin as (w' & Hw' & Hin). eauto.
Qed.

(** Every chunk a decoder makes of an explored chunk above the depth limit is
    explored, or known by its content key, or left of its parent. *)
Definition nothing_missed (items : list work) : Prop :=
  forall w r o, w ∈ items -> w_depth w < max_depth -> r ∈ regs -> o ∈ outputs_of r (plan_pruned plan) (w_chunk w) ->
    decoded_offset o < w_cursor w \/
    (exists w', w' ∈ items /\ work_key w' = key_of_chunk o) \/
    (exists parent o', offered regs plan max_depth items parent o' /\ binary validate o' /\ key_of_chunk o' = key_of_chunk o).

(** The trigger costs nothing: the decoders make nothing of what it leaves out. *)
Lemma trigger_sound items : plan_fits regs plan -> (forall w, w ∈ items -> str_len (data (w_chunk w)) <= isize_max) ->
  explorable_closed items -> nothing_missed items.
Proof.
  intros Hplan Hfit Hc w r o Hw Hd Hr Ho. destruct (explorable plan max_depth w) eqn:He; [by eapply Hc|]. exfalso.
  unfold explorable in He. rewrite (proj2 (Z.ltb_lt _ _) Hd) in He. destruct plan as [pl|]; [|done]. cbn [andb plan_fits] in *.
  assert (Htr : has_all_decoder_trigger pl = true) by (revert He; unfold all_decoder_may_match; by case_match).
  specialize (Hplan Htr). rewrite Forall_forall in Hplan. rewrite (Hplan r Hr) in Ho; [by apply not_elem_of_nil in Ho|by apply Hfit|].
  intros ch. by apply (untriggered_text pl).
Qed.
End results.

Lemma filter_bytes f acc : foldr (fun c n => str_len (data c) + n) 0 (List.filter f (map w_chunk acc)) <= chunk_bytes acc.
Proof.
  induction acc as [|w acc IH]; [done|]. cbn [map List.filter chunk_bytes foldr]. fold (chunk_bytes acc).
  pose proof (str_len_nonneg (data (w_chunk w))). case_match; cbn [foldr]; lia.
Qed.

Lemma filter_keys f acc : map key_of_chunk (List.filter f (map w_chunk acc)) `sublist_of` map work_key acc.
Proof.
  induction acc as [|w acc IH]; [done|]. cbn [map List.filter]. case_match; cbn [map]; [by apply sublist_skip|by apply sublist_cons].
Qed.

Lemma filter_zlen {A} (f : A -> bool) l : zlen (List.filter f l) <= zlen l.
Proof. unfold zlen. pose proof (List.filter_length_le f l). lia. Qed.

Lemma reachable_depth regs plan max_depth root n c :
  reachable regs plan max_depth root n c -> n <= Z.max (w_depth root) max_depth.
Proof. induction 1; lia. Qed.

(** C18. With decoders that keep the contract of the trait (no panic, chunks
    offered one by one until the sink closes) the pipeline returns within its
    budget, whatever the deadline, the screen, the depth, the plan and the list of
    such decoders: at most 1000 chunks and 64 MiB of decoded text leave it, no two
    with the same content key and none with the key of the root, each decoded from
    the root by at most [max_depth] decoders in a row, and each accepted by the
    screen.  At most one truncation is recorded.  The contract is proved of the
    URL, HTML, octal, Unicode, Z85 and MIME decoders; the default hex decoder does
    not keep it. *)
Theorem decode_through_bounded (expired : nat -> bool) (screen : option (bytes -> bool)) (validate : bool)
    (regs : list registered) (plan : option CompiledDecoderPlan) (max_depth : Z) (chunk : Chunk) :
  str_len (data chunk) <= isize_max ->
  exists p, decode_chunk_with_decoders expired screen validate chunk (map reg_decoder regs) plan max_depth = Ret p /\
    zlen (decoded_chunks p) <= MAX_DECODED_CHUNKS_PER_ROOT /\
    foldr (fun c n => str_len (data c) + n) 0 (decoded_chunks p) <= MAX_DECODED_TOTAL_BYTES /\
    NoDup (key_of_chunk chunk :: map key_of_chunk (decoded_chunks p)) /\
    (forall c, c ∈ decoded_chunks p -> passes_screen screen c = true /\
       exists n, n <= Z.max 0 max_depth /\ reachable regs plan max_depth (root_work chunk) n c) /\
    (truncations p = 0 \/ truncations p = 1).
Proof.
  intros Hfit. destruct (run_explored expired screen validate regs plan max_depth chunk) as (p & items & Hr & Hx & Ht); [done|]. exists p.
  pose proof Hx as [(acc & Hi & Hd & Hp & Hb) _ Hn _ [Hp' Hb']]. rewrite Hd. split_and!; [done|..].
  - pose proof (filter_zlen (passes_screen screen) (map w_chunk acc)). unfold zlen in *. rewrite length_map in *. lia.
  - pose proof (filter_bytes (passes_screen screen) acc). lia.
  - rewrite Hi in Hn. eapply sublist_NoDup; [exact Hn|]. apply sublist_skip, filter_keys.
  - intros c [Hin Hs]%list_elem_of_In%filter_In. split; [done|]. apply list_elem_of_In, list_elem_of_fmap in Hin as (w & -> & Hw).
    assert (Hre : reachable regs plan max_depth (root_work chunk) (w_depth w) (w_chunk w)) by (eapply explored_reachable; [done|set_solver]).
    exists (w_depth w). split; [|done]. apply (reachable_depth _ _ _ _ _ _ Hre).
  - destruct Ht as [?|[? _]]; auto.
Qed.

(** C4. With decoders that keep the contract of the trait, and unless a truncation
    is recorded, the pipeline misses nothing.  There is a list of explored chunks,
    the root first, each later one made by a decoder from an earlier one, such that
    the result is those the screen accepts, in that order, and whatever any decoder
    makes of any explored chunk above the depth limit is either explored too (or
    has the content key of an explored chunk), or is binary and validation rejects
    it (or has the key of such a chunk), or lies to the left of the span its parent
    was decoded from.  This holds of chunks the plan's trigger leaves out too, when
    a plan with a trigger has only decoders that make nothing of a text without
    printable ASCII. *)
Theorem decode_through_complete (expired : nat -> bool) (screen : option (bytes -> bool)) (validate : bool)
    (regs : list registered) (plan : option CompiledDecoderPlan) (max_depth : Z) (chunk : Chunk) :
  str_len (data chunk) <= isize_max -> plan_fits regs plan ->
  exists p items acc, decode_chunk_with_decoders expired screen validate chunk (map reg_decoder regs) plan max_depth = Ret p /\
    items = root_work chunk :: acc /\
    decoded_chunks p = List.filter (passes_screen screen) (map w_chunk acc) /\
    (forall pre w post, items = pre ++ w :: post -> pre = [] \/ derived regs plan max_depth pre w) /\
    (truncations p = 0 -> nothing_missed validate regs plan max_depth items).
Proof.
  intros Hfit Hplan. destruct (run_explored expired screen validate regs plan max_depth chunk) as (p & items & Hr & [(acc & Hi & Hd & _) Hfits _ Hv _] & Ht); [done|].
  exists p, items, acc. split_and!; [done..|]. intros Hz. destruct Ht as [Ht|[_ Ht]]; [lia|]. by apply trigger_sound.
Qed.
