(* ===== verification/DecodeLines.v ===== *)
(** * The line decoders ([crates/scanner/src/decode/url.rs])

    The percent, HTML, octal and Unicode decoders rewrite the lines of a chunk
    that hold one of their escapes.  They are shown to keep the contract the
    pipeline relies on. *)

From S2P Require Import Prelude Utf8 StrOffsets DecodeExtract DecodeSplice DecodeCodecs DecodePipeline.

(** ** Admission *)

Record DecodeAdmissionSketch := mkSketch { kind_mask : Z; candidate_count : Z; candidate_bytes : Z; unknown : bool }.

Definition sketch_NONE : DecodeAdmissionSketch := mkSketch 0 0 0 false.
Definition sketch_UNKNOWN : DecodeAdmissionSketch := mkSketch 0 u16_max u32_max true.

Definition possible (kind count bytes_ : Z) : DecodeAdmissionSketch :=
  mkSketch kind (Z.min count u16_max) (Z.min bytes_ u32_max) false.

Definition sketch_admission (s : DecodeAdmissionSketch) : DecodeAdmission :=
  if unknown s then Unknown else if kind_mask s =? 0 then Impossible else Possible.

Definition sketch_merge (a b : DecodeAdmissionSketch) : DecodeAdmissionSketch :=
  let u := unknown a || unknown b in
  mkSketch (Z.lor (kind_mask a) (kind_mask b))
    (if u then u16_max else saturating_add u16_max (candidate_count a) (candidate_count b))
    (if u then u32_max else saturating_add u32_max (candidate_bytes a) (candidate_bytes b)) u.

Definition KIND_HEX : Z := 2.
Definition KIND_URL : Z := 4.
Definition KIND_HTML_NAMED_ENTITY : Z := 16.
Definition KIND_HTML_NUMERIC_ENTITY : Z := 32.
Definition KIND_OCTAL_ESCAPE : Z := 64.
Definition KIND_UNICODE_ESCAPE : Z := 512.

(** [with_extracted_value_spans]: the shared candidates of the thread, which
    were extracted with or without pruning.  Extraction does not panic. *)
Definition extracted (pruned : bool) (text : str) : list ExtractedValue :=
  match extract_encoded_value_spans_raw text pruned with Ret vs => vs | Panic => [] end.

(** Candidates counted with their bytes. *)
Definition count_candidates (f : ExtractedValue -> bool) (vs : list ExtractedValue) : Z * Z :=
  foldl (fun '(count, bytes_) v =>
    (saturating_add usize_max count 1, saturating_add usize_max bytes_ (str_len (ev_value v)))) (0, 0) (List.filter f vs).

(** ** Lines *)

(** [text.split_inclusive('\n')] *)
Fixpoint split_inclusive_from (piece : str) (s : str) : list str :=
  match s with
  | [] => if bool_decide (piece = []) then [] else [piece]
  | c :: s' => if c =? 10 then (piece ++ [c]) :: split_inclusive_from [] s' else split_inclusive_from (piece ++ [c]) s'
  end.

Definition split_inclusive (s : str) : list str := split_inclusive_from [] s.

Definition strip_suffix_char (x : Z) (s : str) : str :=
  if ends_with [x] s then removelast s else s.

Definition strip_line_ending (segment : str) : str := strip_suffix_char 13 (strip_suffix_char 10 segment).

Record LineView := mkLine { lv_text : str; lv_start : Z; lv_end : Z }.

Fixpoint line_views_from (offset : Z) (pieces : list str) : list LineView :=
  match pieces with
  | [] => []
  | segment :: rest =>
      let line := strip_line_ending segment in
      mkLine line offset (offset + str_len line) :: line_views_from (offset + str_len segment) rest
  end.

Definition line_views_with_offsets (text : str) : list LineView := line_views_from 0 (split_inclusive text).

Definition line_replacement (filter : str -> bool) (decode : str -> option str) (l : LineView) : option replacement :=
  if negb (filter (lv_text l)) then None
  else match decode (lv_text l) with Some decoded => Some (lv_start l, lv_end l, decoded) | None => None end.

Definition decode_filtered_lines_into {S} `{DecodeOutputSink S} (sink : S) (chunk : Chunk)
    (filter : str -> bool) (decode : str -> option str) (decoder_name : str) : outcome (S * bool) :=
  stream_batched_decoded_replacements chunk decoder_name sink
    (omap (line_replacement filter decode) (line_views_with_offsets (data chunk))).

(** ** The decoders *)

Definition run_sink {S} (r : outcome (S * bool)) : outcome S := let! (s, _) := r in Ret s.

Definition contains (needle s : str) : bool := match find_sub needle s with Some _ => true | None => false end.

Definition url_sketch (chunk : Chunk) : DecodeAdmissionSketch :=
  let count := percent_escape_count (data chunk) in
  if count =? 0 then sketch_NONE else possible KIND_URL count (saturating_mul usize_max count 3).

Definition UrlDecoder : Decoder := {|
  decoder_name := $"url";
  decoder_version := $"1";
  admission := fun _ chunk => sketch_admission (url_sketch chunk);
  decode_chunk_into := fun S HS _ chunk sink =>
    if negb (contains_percent_escape (data chunk)) then Ret sink
    else run_sink (decode_filtered_lines_into sink chunk contains_percent_escape percent_decode $"url") |}.

(** [simple_decoder!] *)
Definition simple_sketch (kind : Z) (filter : str -> bool) (pruned : bool) (chunk : Chunk) : DecodeAdmissionSketch :=
  let '(count, bytes_) := count_candidates (fun v => filter (ev_value v)) (extracted pruned (data chunk)) in
  let trimmed := trim (data chunk) in
  let '(count, bytes_) :=
    if negb (bool_decide (trimmed = [])) && filter trimmed
    then (saturating_add usize_max count 1, saturating_add usize_max bytes_ (str_len trimmed)) else (count, bytes_) in
  if count =? 0 then sketch_NONE else possible kind count bytes_.

Definition simple_decoder (name : str) (kind : Z) (filter : str -> bool) (decode : str -> option str) : Decoder := {|
  decoder_name := name;
  decoder_version := $"1";
  admission := fun pruned chunk => sketch_admission (simple_sketch kind filter pruned chunk);
  decode_chunk_into := fun S HS _ chunk sink => run_sink (decode_filtered_lines_into sink chunk filter decode name) |}.

Definition unicode_filter (s : str) : bool := contains $"\u" s || contains $"\x" s.

Definition HtmlNamedEntityDecoder : Decoder :=
  simple_decoder $"html-named-entity" KIND_HTML_NAMED_ENTITY (contains $"&") html_named_entity_decode.
Definition HtmlNumericEntityDecoder : Decoder :=
  simple_decoder $"html-numeric-entity" KIND_HTML_NUMERIC_ENTITY (contains $"&#") html_numeric_entity_decode.
Definition OctalEscapeDecoder : Decoder :=
  simple_decoder $"octal-escape" KIND_OCTAL_ESCAPE contains_octal_escape octal_escape_decode.
Definition UnicodeEscapeDecoder : Decoder :=
  simple_decoder $"unicode-escape" KIND_UNICODE_ESCAPE unicode_filter unicode_escape_decode.

(** ** Lines as segments *)

Lemma strip_suffix_char_app x s : exists e, s = strip_suffix_char x s ++ e.
Proof.
  unfold strip_suffix_char. destruct (ends_with [x] s) eqn:E; [|exists []; by rewrite app_nil_r].
  apply ends_with_spec in E as [t ->]. exists [x]. by rewrite removelast_last.
Qed.

Lemma strip_line_ending_app s : exists e, s = strip_line_ending s ++ e.
Proof.
  unfold strip_line_ending. destruct (strip_suffix_char_app 10 s) as [e1 H1].
  destruct (strip_suffix_char_app 13 (strip_suffix_char 10 s)) as [e2 H2]. exists (e2 ++ e1). rewrite app_assoc, <- H2. done.
Qed.

Lemma concat_split_inclusive piece s : concat (split_inclusive_from piece s) = piece ++ s.
Proof.
  revert piece. induction s as [|c s IH]; intros piece; cbn [split_inclusive_from].
  - rewrite app_nil_r. case_bool_decide; [by subst|]. cbn. by rewrite app_nil_r.
  - case_match; cbn [concat]; rewrite IH; by rewrite <- app_assoc.
Qed.

(** The lines that are replaced, with the text between them as gaps. *)
Lemma line_segments filter decode gap pos pieces : filter [] = false ->
  exists segs tail, gap ++ concat pieces = segs_source segs ++ tail /\
    omap (line_replacement filter decode) (line_views_from (pos + str_len gap) pieces) = segs_replacements pos segs /\
    Forall (fun g => seg_encoded g <> []) segs.
Proof.
  intros Hnil. revert gap pos. induction pieces as [|segment pieces IH]; intros gap pos.
  - exists [], gap. cbn. by rewrite app_nil_r.
  - destruct (strip_line_ending_app segment) as [e He]. cbn [line_views_from omap list_omap concat].
    set (line := strip_line_ending segment) in *. unfold line_replacement at 1. cbn [lv_text lv_start lv_end].
    assert (Hskip : exists segs tail, gap ++ segment ++ concat pieces = segs_source segs ++ tail /\
      omap (line_replacement filter decode) (line_views_from (pos + str_len gap + str_len segment) pieces) = segs_replacements pos segs /\
      Forall (fun g => seg_encoded g <> []) segs).
    { destruct (IH (gap ++ segment) pos) as (segs & tail & H1 & H2 & H3). rewrite <- app_assoc in H1. rewrite str_len_app, Z.add_assoc in H2. eauto. }
    destruct (filter line) eqn:Ef; cbn [negb]; [|done]. destruct (decode line) as [decoded|]; [|done].
    assert (Hne : line <> []) by (intros E; rewrite E in Ef; congruence).
    destruct (IH e (pos + str_len gap + str_len line)) as (segs & tail & H1 & H2 & H3).
    exists (mkSegment gap line decoded :: segs), tail. split_and!.
    + rewrite segs_source_cons, He. cbn. by rewrite <- !app_assoc, H1.
    + cbn [segs_replacements seg_gap seg_encoded seg_decoded]. f_equal. rewrite <- H2, He, str_len_app. by rewrite Z.add_assoc.
    + by constructor.
Qed.

Lemma decode_lines_outputs chunk filter decode name : filter [] = false -> str_len (data chunk) <= isize_max ->
  exists batches outs,
    omap (line_replacement filter decode) (line_views_with_offsets (data chunk)) = concat batches /\
    Forall2 (batch_outputs chunk name) batches outs /\
    forall S (HS : DecodeOutputSink S) (s : S),
      decode_filtered_lines_into s chunk filter decode name = Ret (push_all s (concat outs)).
Proof.
  intros Hnil Hmax. destruct (line_segments filter decode [] 0 (split_inclusive (data chunk)) Hnil) as (segs & tail & H1 & H2 & H3).
  unfold split_inclusive in H1. rewrite concat_split_inclusive in H1. cbn [app] in H1. rewrite str_len_nil, Z.add_0_l in H2.
  unfold decode_filtered_lines_into, line_views_with_offsets. rewrite H2. by apply (stream_outputs chunk name segs tail).
Qed.

(** ** The contract *)

Lemma push_all_vec s out : push_all (S := list Chunk) s out = (s ++ out, true).
Proof.
  revert s. induction out as [|c out IH]; intros s; cbn [push_all]; [by rewrite app_nil_r|].
  unfold sink_push, vec_sink, vec_push. rewrite IH. by rewrite <- app_assoc.
Qed.

(** The chunks a decoder hands to a vector. *)
Definition collected_outputs (d : Decoder) (pruned : bool) (c : Chunk) : list Chunk :=
  match decode_chunk_into d (list Chunk) vec_sink pruned c [] with Ret out => out | Panic => [] end.

(** A decoder that offers some list of chunks to every sink offers those. *)
Definition lawful_from (d : Decoder)
    (Hstream : forall pruned c, str_len (data c) <= isize_max -> exists out,
       (forall S (HS : DecodeOutputSink S) (s : S), decode_chunk_into d S HS pruned c s = Ret (fst (push_all s out))) /\
       (admission d pruned c = Impossible -> out = [])) : LawfulDecoder d.
Proof.
  assert (Hcol : forall pruned c, str_len (data c) <= isize_max -> exists out, collected_outputs d pruned c = out /\
    (forall S (HS : DecodeOutputSink S) (s : S), decode_chunk_into d S HS pruned c s = Ret (fst (push_all s out))) /\
    (admission d pruned c = Impossible -> out = [])).
  { intros pruned c Hc. destruct (Hstream pruned c Hc) as (out & Hs & Ha). exists out. split_and!; [|done..].
    unfold collected_outputs. rewrite (Hs _ vec_sink), push_all_vec. done. }
  refine {| decoder_outputs := collected_outputs d |}.
  - intros S HS pruned c s Hc. destruct (Hcol pruned c Hc) as (out & -> & Hs & _). apply Hs.
  - intros pruned c Hc Ha. destruct (Hcol pruned c Hc) as (out & -> & _ & Hi). auto.
Defined.

Lemma no_replacements_no_outputs chunk name batches outs :
  Forall2 (batch_outputs chunk name) batches outs -> concat batches = [] -> concat outs = [].
Proof.
  intros [|batch out batches' outs' (pre & segs & post & Hne & _ & Hb & _) _] Hc; [done|].
  destruct segs as [|g segs]; [done|]. by rewrite Hb in Hc.
Qed.

(** The lines of a text are parts of it. *)
Lemma line_views_parts pieces pos l : l ∈ line_views_from pos pieces -> exists a b, concat pieces = a ++ lv_text l ++ b.
Proof.
  revert pos. induction pieces as [|segment pieces IH]; intros pos Hin; [by apply not_elem_of_nil in Hin|].
  destruct (strip_line_ending_app segment) as [e He]. cbn [line_views_from] in Hin. apply elem_of_cons in Hin as [-> |Hin].
  - exists [], (e ++ concat pieces). cbn [concat lv_text app]. rewrite He at 1. by rewrite <- app_assoc.
  - destruct (IH _ Hin) as (a & b & Heq). exists (segment ++ a), b. cbn [concat]. by rewrite Heq, <- app_assoc.
Qed.

(** A filter that sees in a text what it sees in a part of it. *)
Definition filter_local (filter : str -> bool) : Prop :=
  filter [] = false /\ forall a line b, filter line = true -> filter (trim (a ++ line ++ b)) = true.

Lemma unfiltered_lines_outputs filter decode text : filter_local filter -> filter (trim text) = false ->
  omap (line_replacement filter decode) (line_views_with_offsets text) = [].
Proof.
  intros [_ Hloc] Hno. unfold line_views_with_offsets.
  assert (Hall : forall l, l ∈ line_views_from 0 (split_inclusive text) -> line_replacement filter decode l = None).
  { intros l Hin. destruct (line_views_parts _ _ _ Hin) as (a & b & Heq). unfold split_inclusive in Heq.
    rewrite concat_split_inclusive in Heq. cbn [app] in Heq. unfold line_replacement.
    destruct (filter (lv_text l)) eqn:Ef; [|done]. pose proof (Hloc a _ b Ef). rewrite <- Heq in *. congruence. }
  induction (line_views_from 0 (split_inclusive text)) as [|l ls IH]; [done|]. cbn [omap list_omap].
  rewrite Hall by set_solver. apply IH. intros. apply Hall. set_solver.
Qed.

Lemma count_candidates_nonneg f vs : 0 <= fst (count_candidates f vs).
Proof.
  unfold count_candidates. assert (Hgo : forall l count bytes_, 0 <= count ->
    0 <= fst (foldl (fun '(count, bytes_) v =>
      (saturating_add usize_max count 1, saturating_add usize_max bytes_ (str_len (ev_value v)))) (count, bytes_) l)); [|by apply Hgo].
  induction l as [|v l IH]; intros count bytes_ Hc; cbn [foldl]; [done|]. apply IH. unfold saturating_add, usize_max, u64_max. lia.
Qed.

Lemma simple_sketch_impossible kind filter pruned chunk : kind <> 0 -> filter [] = false ->
  sketch_admission (simple_sketch kind filter pruned chunk) = Impossible -> filter (trim (data chunk)) = false.
Proof.
  intros Hk Hnil. unfold simple_sketch.
  pose proof (count_candidates_nonneg (fun v => filter (ev_value v)) (extracted pruned (data chunk))) as Hge.
  destruct (count_candidates _ _) as [count bytes_]. cbn [fst] in Hge.
  destruct (filter (trim (data chunk))) eqn:Ef; [|done]. rewrite bool_decide_false by (intros E; rewrite E in Ef; congruence). cbn [negb andb].
  rewrite (proj2 (Z.eqb_neq _ _)) by (unfold saturating_add, usize_max, u64_max; lia).
  unfold sketch_admission, possible. cbn. by rewrite (proj2 (Z.eqb_neq _ _)).
Qed.

Definition simple_decoder_lawful name kind filter decode : kind <> 0 -> filter_local filter ->
  LawfulDecoder (simple_decoder name kind filter decode).
Proof.
  intros Hk Hloc. apply lawful_from. intros pruned c Hc.
  destruct (decode_lines_outputs c filter decode name (proj1 Hloc) Hc) as (batches & outs & Hb & Hv & Hs).
  exists (concat outs). split.
  - intros S HS s. cbn. rewrite (Hs S HS). by destruct (push_all s (concat outs)).
  - cbn. intros Hi. apply (no_replacements_no_outputs _ _ _ _ Hv). rewrite <- Hb.
    apply unfiltered_lines_outputs; [done|]. by eapply simple_sketch_impossible; [..|exact Hi]; [|apply Hloc].
Defined.

(** ** The filters *)

Lemma trim_start_keeps a c r : is_whitespace c = false -> exists a', trim_start_matches is_whitespace (a ++ c :: r) = a' ++ c :: r.
Proof.
  intros Hc. induction a as [|x a [a' IH]]; cbn [app trim_start_matches]; [rewrite Hc; by exists []|].
  case_match; [eauto|by exists (x :: a)].
Qed.

(** Trimming leaves whatever starts and ends outside white space. *)
Lemma trim_keeps a b c n d : is_whitespace c = false -> is_whitespace d = false ->
  exists a' b', trim (a ++ c :: n ++ d :: b) = a' ++ c :: n ++ d :: b'.
Proof.
  intros Hc Hd. unfold trim, trim_end_matches. destruct (trim_start_keeps a c (n ++ d :: b) Hc) as [a' ->].
  rewrite (app_assoc _ (c :: n) (d :: b)), rev_app_distr. cbn [rev]. rewrite <- app_assoc. cbn [app].
  destruct (trim_start_keeps (rev b) d (rev (a' ++ c :: n)) Hd) as [b' ->].
  exists a', (rev b'). rewrite rev_app_distr. cbn [rev]. rewrite rev_involutive, <- !app_assoc. done.
Qed.

Lemma contains_spec needle s : contains needle s = true <-> exists a b, s = a ++ needle ++ b.
Proof.
  unfold contains. split.
  - destruct (find_sub needle s) as [i|] eqn:E; [|done]. apply find_sub_Some in E as (a & b & -> & _). eauto.
  - intros (a & b & ->). induction a as [|x a IH].
    + assert (Hs : forall t : str, starts_with needle t = true -> find_sub needle t = Some O) by (intros [|x t] Ht; cbn [find_sub]; by rewrite Ht).
      cbn [app]. by rewrite Hs by apply starts_with_app.
    + cbn [app find_sub]. destruct (starts_with needle (x :: a ++ needle ++ b)); [done|]. revert IH. by destruct (find_sub needle (a ++ needle ++ b)).
Qed.

Lemma contains_app needle a s b : contains needle s = true -> contains needle (a ++ s ++ b) = true.
Proof. rewrite !contains_spec. intros (x & y & ->). exists (a ++ x), (y ++ b). by rewrite <- !app_assoc. Qed.

Lemma contains_trim needle s c n d :
  needle = [c] \/ needle = c :: n ++ [d] -> is_whitespace c = false -> is_whitespace d = false ->
  contains needle s = true -> contains needle (trim s) = true.
Proof.
  intros Hn Hc Hd (a & b & ->)%contains_spec. apply contains_spec. destruct Hn as [-> | ->].
  - unfold trim, trim_end_matches. cbn [app]. destruct (trim_start_keeps a c b Hc) as [a' ->]. rewrite rev_app_distr.
    cbn [rev]. rewrite <- app_assoc. cbn [app]. destruct (trim_start_keeps (rev b) c (rev a') Hc) as [b' ->].
    exists a', (rev b'). rewrite rev_app_distr. cbn [rev]. by rewrite rev_involutive, <- app_assoc.
  - cbn [app]. rewrite <- app_assoc. cbn [app]. destruct (trim_keeps a b c n d Hc Hd) as (a' & b' & ->).
    exists a', b'. cbn [app]. by rewrite <- app_assoc.
Qed.

Lemma contains_local needle c n d :
  needle = [c] \/ needle = c :: n ++ [d] -> is_whitespace c = false -> is_whitespace d = false -> filter_local (contains needle).
Proof.
  intros Hn Hc Hd. split; [by destruct Hn as [-> | ->]|]. intros a line b Hl. eapply contains_trim; [done..|]. by apply contains_app.
Qed.

Lemma or_local f g : filter_local f -> filter_local g -> filter_local (fun s => f s || g s).
Proof.
  intros [Hf1 Hf2] [Hg1 Hg2]. split; [by rewrite Hf1, Hg1|]. intros a line b [H|H]%orb_true_iff; [by rewrite Hf2|by rewrite Hg2, orb_true_r].
Qed.

(** Octal escapes are found at the same places in the characters. *)
Lemma contains_octal_high bs rest : Forall (fun b => 128 <= b) bs -> contains_octal_bytes (bs ++ rest) = contains_octal_bytes rest.
Proof.
  induction 1 as [|b bs Hb _ IH]; [done|]. rewrite <- IH. cbn [app contains_octal_bytes].
  destruct (bs ++ rest) as [|x l]; [done|]. by rewrite (proj2 (Z.eqb_neq b 92)) by lia.
Qed.

Lemma contains_octal_chars s : contains_octal_bytes (as_bytes s) = true -> exists a d b, s = a ++ [92; d] ++ b /\ 48 <= d <= 55.
Proof.
  induction s as [|c s IH]; [done|]. rewrite as_bytes_cons. intros H.
  assert (Hs : contains_octal_bytes (as_bytes s) = true -> exists a d b, c :: s = a ++ [92; d] ++ b /\ 48 <= d <= 55).
  { intros (a & d & b & -> & Hd)%IH. by exists (c :: a), d, b. }
  destruct (utf8_char_cases c) as [E|[_ Hhi]]; [rewrite E in H|rewrite contains_octal_high in H by done; auto].
  cbn [app contains_octal_bytes] in H. destruct (as_bytes s) as [|b l] eqn:El; [done|].
  apply orb_true_iff in H as [[H1 H2]%andb_true_iff|H]; [|auto]. destruct s as [|c' s]; [done|].
  rewrite as_bytes_cons in El. destruct (utf8_char_cases c') as [E'|[_ Hhi']].
  - rewrite E' in El. injection El as -> _. exists [], b, s. unfold in_range in H2. split; [cbn; f_equal; lia|lia].
  - pose proof (len_utf8_bounds c') as Hl. unfold len_utf8, zlen in Hl. destruct (utf8_char c') as [|x xs]; [cbn in Hl; lia|].
    injection El as -> _. inversion Hhi'. unfold in_range in H2. lia.
Qed.

Lemma contains_octal_app a d b : 48 <= d <= 55 -> contains_octal_escape (a ++ [92; d] ++ b) = true.
Proof.
  intros Hd. unfold contains_octal_escape. rewrite !as_bytes_app.
  assert (E : as_bytes [92; d] = [92; d]) by (apply as_bytes_ascii; repeat (apply Forall_cons; split; [lia|]); constructor).
  rewrite E. induction (as_bytes a) as [|x l IH]; cbn [app contains_octal_bytes].
  - unfold in_range. by replace ((92 =? 92) && ((48 <=? d) && (d <=? 55))) with true by lia.
  - destruct (l ++ [92; d] ++ as_bytes b) as [|y l'] eqn:El; [by destruct l|]. cbn [app] in El, IH. rewrite El in *. rewrite IH. apply orb_true_r.
Qed.

Lemma octal_local : filter_local contains_octal_escape.
Proof.
  split; [done|]. intros a line b (x & d & y & -> & Hd)%contains_octal_chars.
  assert (Hw : is_whitespace d = false) by (unfold is_whitespace, in_range; lia).
  destruct (trim_keeps (a ++ x) (y ++ b) 92 [] d eq_refl Hw) as (a' & b' & E).
  replace (a ++ (x ++ [92; d] ++ y) ++ b) with ((a ++ x) ++ 92 :: [] ++ d :: y ++ b) by (by rewrite <- !app_assoc).
  rewrite E. by apply (contains_octal_app a' d b').
Qed.

#[export] Instance HtmlNamedEntityDecoder_lawful : LawfulDecoder HtmlNamedEntityDecoder.
Proof. apply simple_decoder_lawful; [done|]. by apply (contains_local _ 38 [] 38); [left|..]. Defined.

#[export] Instance HtmlNumericEntityDecoder_lawful : LawfulDecoder HtmlNumericEntityDecoder.
Proof. apply simple_decoder_lawful; [done|]. by apply (contains_local _ 38 [] 35); [right|..]. Defined.

#[export] Instance OctalEscapeDecoder_lawful : LawfulDecoder OctalEscapeDecoder.
Proof. apply simple_decoder_lawful; [done|apply octal_local]. Defined.

#[export] Instance UnicodeEscapeDecoder_lawful : LawfulDecoder UnicodeEscapeDecoder.
Proof.
  apply simple_decoder_lawful; [done|]. apply or_local; [by apply (contains_local _ 92 [] 117); [right|..]|by apply (contains_local _ 92 [] 120); [right|..]].
Defined.

(** ** The percent decoder *)

Lemma escape_count_positive fuel opener bs : (length bs <= fuel)%nat -> contains_escape opener bs = true -> 0 < escape_count_fuel fuel opener bs.
Proof.
  revert bs. induction fuel as [|fuel IH]; intros [|b bs] Hl Hc; cbn [length] in Hl; [done|lia|done|].
  assert (Hnn : forall n l, 0 <= escape_count_fuel n opener l).
  { induction n as [|n IHn]; intros [|x l]; [done..|]. cbn [escape_count_fuel]. case_match; [|done]. specialize (IHn (drop 3 (x :: l))). lia. }
  cbn [escape_count_fuel contains_escape] in *. destruct (escape_at opener (b :: bs)); [specialize (Hnn fuel (drop 3 (b :: bs))); lia|].
  apply IH; [lia|done].
Qed.

#[export] Instance UrlDecoder_lawful : LawfulDecoder UrlDecoder.
Proof.
  apply lawful_from. intros pruned c Hc. cbn [decode_chunk_into admission UrlDecoder].
  destruct (contains_percent_escape (data c)) eqn:Ec; cbn [negb]; [|by exists []].
  destruct (decode_lines_outputs c contains_percent_escape percent_decode $"url" eq_refl Hc) as (batches & outs & _ & _ & Hs).
  exists (concat outs). split; [intros S HS s; rewrite (Hs S HS); by destruct (push_all s (concat outs))|].
  intros Hi. exfalso. unfold url_sketch in Hi.
  pose proof (escape_count_positive (length (as_bytes (data c))) 37 (as_bytes (data c)) (Nat.le_refl _) Ec) as Hpos.
  fold (percent_escape_count (data c)) in Hpos. rewrite (proj2 (Z.eqb_neq _ _)) in Hi by lia. done.
Defined.

(** ** The trigger *)

(** Something printable occurs in the text. *)
Definition prints (s : str) : Prop := exists ch, ch ∈ s /\ 33 <= ch <= 126.

Lemma unprintable_lines_outputs filter decode text : (forall s, filter s = true -> prints s) ->
  (forall ch, ch ∈ text -> ~ 33 <= ch <= 126) -> omap (line_replacement filter decode) (line_views_with_offsets text) = [].
Proof.
  intros Hf Hno. unfold line_views_with_offsets.
  assert (Hall : forall l, l ∈ line_views_from 0 (split_inclusive text) -> line_replacement filter decode l = None).
  { intros l Hin. destruct (line_views_parts _ _ _ Hin) as (a & b & Heq). unfold split_inclusive in Heq.
    rewrite concat_split_inclusive in Heq. cbn [app] in Heq. unfold line_replacement.
    destruct (filter (lv_text l)) eqn:Ef; [|done]. apply Hf in Ef as (ch & Hch & Hr). exfalso. apply (Hno ch); [|done]. rewrite Heq. set_solver. }
  induction (line_views_from 0 (split_inclusive text)) as [|l ls IH]; [done|]. cbn [omap list_omap].
  rewrite Hall by set_solver. apply IH. intros. apply Hall. set_solver.
Qed.

Lemma collected_nil d pruned c : decode_chunk_into d (list Chunk) vec_sink pruned c [] = Ret [] -> collected_outputs d pruned c = [].
Proof. unfold collected_outputs. by intros ->. Qed.

Lemma simple_needs_printable name kind filter decode Hk Hloc : (forall s, filter s = true -> prints s) ->
  needs_printable (mkRegistered _ (simple_decoder_lawful name kind filter decode Hk Hloc)).
Proof.
  intros Hf pruned c Hfit Hno. apply collected_nil. cbn. unfold decode_filtered_lines_into.
  by rewrite unprintable_lines_outputs.
Qed.

Lemma contains_prints c n s : 33 <= c <= 126 -> contains (c :: n) s = true -> prints s.
Proof. intros Hc (a & b & ->)%contains_spec. exists c. split; [set_solver|done]. Qed.

Lemma ascii_byte_char ch s : ch < 128 -> ch ∈ as_bytes s -> ch ∈ s.
Proof.
  intros Hch. induction s as [|c s IH]; [done|]. rewrite as_bytes_cons. intros [Hin|Hin]%elem_of_app; [|by right; apply IH].
  destruct (utf8_char_cases c) as [E|[_ Hhi]]; [rewrite E in Hin; apply list_elem_of_singleton in Hin as ->; left|].
  rewrite Forall_forall in Hhi. specialize (Hhi _ Hin). cbn in Hhi. lia.
Qed.

Lemma contains_escape_opener opener bs : contains_escape opener bs = true -> opener ∈ bs.
Proof.
  induction bs as [|b bs IH]; [done|]. cbn [contains_escape]. intros [H|H]%orb_true_iff; [|right; by apply IH].
  unfold escape_at in H. destruct bs as [|h [|l bs]]; [done..|]. apply andb_true_iff in H as [[H _]%andb_true_iff _]. reflect_bool. subst. left.
Qed.

Lemma UrlDecoder_needs_printable : needs_printable (mkRegistered UrlDecoder UrlDecoder_lawful).
Proof.
  intros pruned c _ Hno. apply collected_nil. cbn [decode_chunk_into UrlDecoder].
  destruct (contains_percent_escape (data c)) eqn:E; [|done]. exfalso. apply contains_escape_opener in E.
  apply (Hno 37); [|lia]. by apply ascii_byte_char.
Qed.

Lemma line_decoders_need_printable :
  Forall needs_printable [mkRegistered HtmlNamedEntityDecoder _; mkRegistered HtmlNumericEntityDecoder _;
    mkRegistered OctalEscapeDecoder _; mkRegistered UnicodeEscapeDecoder _].
Proof.
  repeat constructor; apply simple_needs_printable; intros s.
  - by apply contains_prints.
  - by apply contains_prints.
  - intros (a & d & b & -> & Hd)%contains_octal_chars. exists d. split; [set_solver|lia].
  - intros [H|H]%orb_true_iff; revert H; by apply contains_prints.
Qed.

(** ** The pipeline with the line decoders *)

Definition sample_registry : list registered :=
  [mkRegistered UrlDecoder _; mkRegistered HtmlNamedEntityDecoder _; mkRegistered HtmlNumericEntityDecoder _;
   mkRegistered OctalEscapeDecoder _; mkRegistered UnicodeEscapeDecoder _].

(** All of them are default decoders, so the compiled plan has the trigger. *)
Definition sample_plan : option CompiledDecoderPlan := Some (compile_all_decoder_trigger (map reg_decoder sample_registry)).

Lemma sample_plan_fits : has_all_decoder_trigger (compile_all_decoder_trigger (map reg_decoder sample_registry)) = true /\
  plan_fits sample_registry sample_plan.
Proof. split; [vm_compute; reflexivity|]. intros _. constructor; [apply UrlDecoder_needs_printable|apply line_decoders_need_printable]. Qed.

(** A token escaped twice, and one escaped once. *)
Definition sample_escaped : Chunk := mkChunk ($"key=%255cu0041%42" ++ [10] ++ $"b=&#67;") sample_metadata.

Definition run_sample : outcome pipeline_state :=
  decode_chunk_with_decoders (fun _ => false) None true sample_escaped (map reg_decoder sample_registry) sample_plan 4.

Definition sample_line (key b : str) : str := $"key=" ++ key ++ [10] ++ $"b=" ++ b.

(** Every way of decoding some of the layers is explored, the two tokens in clear last. *)
Example sample_escaped_texts : (let! p := run_sample in Ret (map data (decoded_chunks p), truncations p)) =
  Ret ([sample_line $"%5cu0041B" $"&#67;"; sample_line $"%255cu0041%42" $"C"; sample_line $"\u0041B" $"&#67;";
        sample_line $"%5cu0041B" $"C"; sample_line $"\u0041B" $"C"; sample_line $"AB" $"&#67;"; sample_line $"AB" $"C"], 0).
Proof. vm_compute. reflexivity. Qed.

Lemma decode_through_bounded_witness :
  str_len (data sample_escaped) <= isize_max /\
  exists p, run_sample = Ret p /\ zlen (decoded_chunks p) <= MAX_DECODED_CHUNKS_PER_ROOT /\
    NoDup (key_of_chunk sample_escaped :: map key_of_chunk (decoded_chunks p)).
Proof.
  assert (Hfit : str_len (data sample_escaped) <= isize_max) by (vm_compute; discriminate). split; [exact Hfit|].
  destruct (decode_through_bounded (fun _ => false) None true sample_registry sample_plan 4 sample_escaped Hfit) as (p & Hr & Hc & _ & Hn & _).
  exists p. split; [exact Hr|]. split; [exact Hc|exact Hn].
Defined.

Lemma sample_not_truncated p : run_sample = Ret p -> truncations p = 0.
Proof.
  assert (Hs : (let! p := run_sample in Ret (truncations p)) = Ret 0) by (vm_compute; reflexivity).
  intros Hr. rewrite Hr in Hs. by injection Hs as Hs.
Qed.

Lemma decode_through_complete_witness :
  str_len (data sample_escaped) <= isize_max /\
  exists p items acc, run_sample = Ret p /\ items = root_work sample_escaped :: acc /\
    decoded_chunks p = List.filter (passes_screen None) (map w_chunk acc) /\ truncations p = 0 /\
    nothing_missed true sample_registry sample_plan 4 items.
Proof.
  assert (Hfit : str_len (data sample_escaped) <= isize_max) by (vm_compute; discriminate). split; [exact Hfit|].
  destruct (decode_through_complete (fun _ => false) None true sample_registry sample_plan 4 sample_escaped Hfit (proj2 sample_plan_fits))
    as (p & items & acc & Hr & Hi & Hd & _ & Hm).
  pose proof (sample_not_truncated p Hr) as Ht.
  exists p, items, acc. repeat split; [exact Hr|exact Hi|exact Hd|exact Ht|exact (Hm Ht)].
Defined.
