(* ===== verification/DecodeCandidates.v ===== *)
(** * The candidate decoders ([hex.rs], [base64.rs], [inflate.rs], [reverse.rs] of [crates/scanner/src/decode])

    The hex, base64, Z85 and reverse decoders try the extracted candidates of a
    chunk.  Hex and base64 replace theirs in batches.  Extraction also yields
    the base64 runs inside a quoted string next to the string itself, and spans
    that overlap break the batch. *)

From S2P Require Import Prelude Utf8 StrOffsets DecodeExtract DecodeSplice DecodeCodecs DecodePipeline DecodeLines.

(** ** Hex *)

Definition MIN_HEX_CANDIDATE_LEN : Z := 16.

Definition is_hex_candidate (min_length : Z) (candidate : ExtractedValue) : bool :=
  let bs := as_bytes (ev_value candidate) in
  let hex_len := zlen (List.filter (fun b => negb (b =? 95)) bs) in
  (min_length <=? hex_len) && (hex_len mod 2 =? 0) && forallb (fun b => (b =? 95) || is_ascii_hexdigit b) bs.

Definition find_hex_string_spans (pruned : bool) (text : str) (min_length : Z) : list ExtractedValue :=
  List.filter (is_hex_candidate min_length) (extracted pruned text).

(** The sketch of a decoder that counts its candidates. *)
Definition candidate_sketch (kind : Z) (f : ExtractedValue -> bool) (pruned : bool) (chunk : Chunk) : DecodeAdmissionSketch :=
  let '(count, bytes_) := count_candidates f (extracted pruned (data chunk)) in
  if count =? 0 then sketch_NONE else possible kind count bytes_.

(** A candidate and what replaces its span. *)
Definition candidate_replacement (decode : str -> option str) (c : ExtractedValue) : option replacement :=
  match decode (ev_value c) with Some text => Some (ev_start c, ev_end c, text) | None => None end.

(** ** Base64 *)

(** [flate2]'s decoders read through [take(MAX_INFLATE_BYTES)]: the bytes read,
    and whether reading ended without an error. *)
Class Inflate := { gz_read : bytes -> bytes * bool; zlib_read : bytes -> bytes * bool }.

Definition is_gzip_magic (bs : bytes) : bool :=
  match bs with a :: b :: _ => (a =? 0x1f) && (b =? 0x8b) | _ => false end.

Definition is_zlib_magic (bs : bytes) : bool :=
  match bs with
  | cmf :: flg :: _ => (Z.land cmf 0x0f =? 8) && (Z.shiftr cmf 4 <=? 7) && ((cmf * 256 + flg) mod 31 =? 0)
  | _ => false
  end.

Definition has_container_magic (bs : bytes) : bool := is_gzip_magic bs || is_zlib_magic bs.

Section inflate.
Context `{Inflate}.

Definition inflated_text (r : bytes * bool) : option str :=
  let '(out, ok) := r in
  if negb ok && bool_decide (out = []) then None
  else match from_utf8 out with
       | Some text => if bool_decide (text = []) then None else Some text
       | None => None
       end.

Definition try_inflate_to_text (bs : bytes) : option str :=
  if is_gzip_magic bs then inflated_text (gz_read bs)
  else if is_zlib_magic bs then inflated_text (zlib_read bs)
  else None.
End inflate.

Definition base64_variant_memo_index (v : Base64Variant) : Z :=
  match v with Standard => 0 | StandardNoPad => 1 | UrlSafe => 2 | UrlSafeNoPad => 3 end.

(** The candidates [visit_classified_base64_string_spans] visits. *)
Definition classified_candidate (min_length : Z) (c : ExtractedValue) : option (ExtractedValue * Base64Variant) :=
  if (str_len (ev_value c) <? min_length) || negb (forallb is_base64_candidate_byte (as_bytes (ev_value c))) then None
  else match classify_base64 (ev_value c) with Some variant => Some (c, variant) | None => None end.

Definition visit_classified_base64_string_spans (pruned : bool) (text : str) (min_length : Z) : list (ExtractedValue * Base64Variant) :=
  omap (classified_candidate min_length) (extracted pruned text).

Definition KIND_BASE64 : Z := 1.
Definition KIND_COMPRESSED_CONTAINER : Z := 16384.

Section base64.
Context `{CodecCrates} `{Inflate}.

(** [&candidate.value[..prefix_len]] of an ASCII value. *)
Definition has_compressed_prefix (c : ExtractedValue) (variant : Base64Variant) : bool :=
  (Z.min (str_len (ev_value c)) 4 =? 4) &&
  match base64_decode_with_variant (take 4 (ev_value c)) variant with
  | Some decoded => has_container_magic decoded
  | None => false
  end.

Definition count_values (cs : list ExtractedValue) : Z * Z := count_candidates (fun _ => true) cs.

Definition base64_admission_sketch (pruned : bool) (text : str) : DecodeAdmissionSketch :=
  let visited := visit_classified_base64_string_spans pruned text MIN_BASE64_CANDIDATE_LEN in
  let '(count, bytes_) := count_values (map fst visited) in
  let '(compressed_count, compressed_bytes) :=
    count_values (map fst (List.filter (fun cv => has_compressed_prefix (fst cv) (snd cv)) visited)) in
  if count =? 0 then sketch_NONE
  else
    let sketch := possible KIND_BASE64 count bytes_ in
    if 0 <? compressed_count
    then sketch_merge sketch (possible KIND_COMPRESSED_CONTAINER compressed_count compressed_bytes) else sketch.

Definition base64_text (value : str) (variant : Base64Variant) : option str :=
  match base64_decode_with_variant value variant with
  | Some decoded =>
      match try_inflate_to_text decoded with Some inflated => Some inflated | None => from_utf8 decoded end
  | None => None
  end.

(** The memo of the visitor: decoded texts by variant and value, and the values
    decoded once. *)
Record base64_memo := mkMemo { decoded_memo : gmap (Z * str) (option str); seen_once : gset (Z * str) }.

(** The visitor: what it pushes, and the memo after. *)
Definition base64_visit (m : base64_memo) (c : ExtractedValue) (variant : Base64Variant) : option str * base64_memo :=
  let key := (base64_variant_memo_index variant, ev_value c) in
  match decoded_memo m !! key with
  | Some cached => (cached, m)
  | None =>
      let text := base64_text (ev_value c) variant in
      (text,
       match text with
       | None => mkMemo (<[key := None]> (decoded_memo m)) (seen_once m)
       | Some t =>
           if bool_decide (key ∈ seen_once m) then mkMemo (<[key := Some t]> (decoded_memo m)) (seen_once m ∖ {[key]})
           else mkMemo (decoded_memo m) ({[key]} ∪ seen_once m)
       end)
  end.

Fixpoint base64_replacements (m : base64_memo) (visited : list (ExtractedValue * Base64Variant)) : list replacement :=
  match visited with
  | [] => []
  | (c, variant) :: rest =>
      let '(text, m) := base64_visit m c variant in
      match text with
      | Some t => (ev_start c, ev_end c, t) :: base64_replacements m rest
      | None => base64_replacements m rest
      end
  end.

Definition Base64Decoder : Decoder := {|
  decoder_name := $"base64";
  decoder_version := $"1";
  admission := fun pruned chunk => sketch_admission (base64_admission_sketch pruned (data chunk));
  decode_chunk_into := fun S HS pruned chunk sink =>
    run_sink (batcher_run chunk $"base64" (batcher_new sink)
      (base64_replacements (mkMemo ∅ ∅)
         (visit_classified_base64_string_spans pruned (data chunk) MIN_BASE64_CANDIDATE_LEN))) |}.

Definition hex_replacements (pruned : bool) (text : str) : list replacement :=
  omap (candidate_replacement try_decode_hex_candidate_to_utf8) (find_hex_string_spans pruned text MIN_HEX_CANDIDATE_LEN).

Definition HexDecoder : Decoder := {|
  decoder_name := $"hex";
  decoder_version := $"1";
  admission := fun pruned chunk =>
    sketch_admission (candidate_sketch KIND_HEX (is_hex_candidate MIN_HEX_CANDIDATE_LEN) pruned chunk);
  decode_chunk_into := fun S HS pruned chunk sink =>
    run_sink (batcher_run chunk $"hex" (batcher_new sink) (hex_replacements pruned (data chunk))) |}.
End base64.

(** ** Z85 *)

Definition MIN_Z85_CANDIDATE_LEN : Z := 20.
Definition KIND_Z85 : Z := 1024.

Definition is_z85_char (ch : Z) : bool := is_ascii_alphanumeric ch || existsb (fun x => ch =? x) z85_punctuation.

(** The candidate without white space. *)
Definition z85_value (c : ExtractedValue) : str := List.filter (fun ch => negb (is_whitespace ch)) (ev_value c).

Definition is_z85_candidate (min_length : Z) (c : ExtractedValue) : bool :=
  (min_length <=? str_len (z85_value c)) && (str_len (z85_value c) mod 5 =? 0) && forallb is_z85_char (z85_value c).

Definition z85_text (c : ExtractedValue) : option str :=
  match z85_decode (z85_value c) with
  | Some decoded => match from_utf8 decoded with Some text => Some (trim_end_matches (fun ch => ch =? 0) text) | None => None end
  | None => None
  end.

Fixpoint z85_visit {S} `{DecodeOutputSink S} (chunk : Chunk) (sink : S) (cs : list ExtractedValue) : outcome (S * bool) :=
  match cs with
  | [] => Ret (sink, true)
  | c :: rest =>
      match z85_text c with
      | Some text =>
          let! (sink, open) :=
            push_decoded_text_chunk_spliced_at sink chunk (Some (ev_start c, ev_end c)) (z85_value c) text $"z85" in
          if open then z85_visit chunk sink rest else Ret (sink, false)
      | None => z85_visit chunk sink rest
      end
  end.

Definition Z85Decoder : Decoder := {|
  decoder_name := $"z85";
  decoder_version := $"1";
  admission := fun pruned chunk => sketch_admission (candidate_sketch KIND_Z85 (is_z85_candidate MIN_Z85_CANDIDATE_LEN) pruned chunk);
  decode_chunk_into := fun S HS pruned chunk sink =>
    run_sink (z85_visit chunk sink (List.filter (is_z85_candidate MIN_Z85_CANDIDATE_LEN) (extracted pruned (data chunk)))) |}.

(** ** MIME encoded words *)

Definition KIND_MIME_ENCODED_WORD : Z := 128.

(** The words of a line from the offset [start] on, [rest] being what is left of
    it.  Every word consumes four characters, so its length is enough fuel. *)
Fixpoint mime_words_loop (fuel : nat) (start : Z) (rest : str) : list ExtractedValue :=
  match fuel with
  | O => []
  | S fuel' =>
      match split_once $"=?" rest with
      | None => []
      | Some (before, after) =>
          match split_once $"?=" after with
          | None => []
          | Some (inner, tail) =>
              let word := $"=?" ++ inner ++ $"?=" in
              let word_start := start + str_len before in
              let word_end := word_start + str_len word in
              mkExtracted word word_start word_end :: mime_words_loop fuel' word_end tail
          end
      end
  end.

Definition find_mime_encoded_word_spans (text : str) : list ExtractedValue :=
  concat (map (fun line => mime_words_loop (length (lv_text line)) (lv_start line) (lv_text line)) (line_views_with_offsets text)).

Definition mime_sketch (chunk : Chunk) : DecodeAdmissionSketch :=
  let words := find_mime_encoded_word_spans (data chunk) in
  if bool_decide (words = []) then sketch_NONE
  else possible KIND_MIME_ENCODED_WORD (zlen words)
         (foldl (fun total word => saturating_add usize_max total (str_len (ev_value word))) 0 words).

Definition MimeEncodedWordDecoder `{CodecCrates} : Decoder := {|
  decoder_name := $"mime-encoded-word";
  decoder_version := $"1";
  admission := fun _ chunk => sketch_admission (mime_sketch chunk);
  decode_chunk_into := fun S HS _ chunk sink =>
    run_sink (stream_candidate_refs_exact chunk $"mime-encoded-word" sink (find_mime_encoded_word_spans (data chunk)) mime_encoded_word_decode) |}.

(** ** Candidates shown one by one *)

Definition placed (text : str) (v : ExtractedValue) : Prop := exists m, span_of text (ev_start v) (ev_end v) m.

Lemma push_placed chunk v enc text name : placed (data chunk) v -> str_len (data chunk) <= isize_max -> enc <> [] ->
  exists out, forall S (HS : DecodeOutputSink S) (s : S),
    push_decoded_text_chunk_spliced_at s chunk (Some (ev_start v, ev_end v)) enc text name = Ret (push_all s out).
Proof.
  intros (m & pre & post & Hd & -> & ->) Hmax Henc.
  destruct (push_spliced_spec chunk pre m post enc text name Hd Hmax Henc) as (out & _ & Hp). eauto.
Qed.

Lemma stream_placed chunk name decode cs :
  str_len (data chunk) <= isize_max -> Forall (fun v => placed (data chunk) v /\ ev_value v <> []) cs ->
  exists out, forall S (HS : DecodeOutputSink S) (s : S), stream_candidate_refs_exact chunk name s cs decode = Ret (push_all s out).
Proof.
  intros Hmax. induction 1 as [|v cs [Hv Hne] _ [out IH]]; [by exists []|].
  destruct (decode (ev_value v)) as [text|] eqn:E; [|exists out; intros S HS s; cbn [stream_candidate_refs_exact]; by rewrite E].
  destruct (push_placed chunk v (ev_value v) text name Hv Hmax Hne) as [first Hp]. exists (first ++ out). intros S HS s.
  cbn [stream_candidate_refs_exact]. rewrite E, Hp, push_all_app. destruct (push_all s first) as [s' []]; [apply IH|done].
Qed.

Lemma z85_placed chunk cs :
  str_len (data chunk) <= isize_max -> Forall (fun v => placed (data chunk) v /\ z85_value v <> []) cs ->
  exists out, forall S (HS : DecodeOutputSink S) (s : S), z85_visit chunk s cs = Ret (push_all s out).
Proof.
  intros Hmax. induction 1 as [|v cs [Hv Hne] _ [out IH]]; [by exists []|].
  destruct (z85_text v) as [text|] eqn:E; [|exists out; intros S HS s; cbn [z85_visit]; by rewrite E].
  destruct (push_placed chunk v (z85_value v) text $"z85" Hv Hmax Hne) as [first Hp]. exists (first ++ out). intros S HS s.
  cbn [z85_visit]. rewrite E, Hp, push_all_app. destruct (push_all s first) as [s' []]; [apply IH|done].
Qed.

Lemma extracted_placed pruned text : Forall (placed text) (extracted pruned text).
Proof.
  unfold extracted. destruct (extraction_placed text pruned) as (vs & -> & Hvs). eapply Forall_impl; [exact Hvs|].
  intros v (m & Hm & _). by exists m.
Qed.

Lemma count_none f vs : fst (count_candidates f vs) = 0 -> List.filter f vs = [].
Proof.
  unfold count_candidates. intros Hc. destruct (List.filter f vs) as [|v l]; [done|]. exfalso. revert Hc. cbn [foldl].
  assert (Hgo : forall l c b, 0 < c -> 0 < fst (foldl (fun '(count, bytes_) v =>
      (saturating_add usize_max count 1, saturating_add usize_max bytes_ (str_len (ev_value v)))) (c, b) l)).
  { induction l0 as [|x l0 IH]; intros c b Hc; cbn [foldl]; [done|]. apply IH. unfold saturating_add, usize_max, u64_max. lia. }
  specialize (Hgo l (saturating_add usize_max 0 1) (saturating_add usize_max 0 (str_len (ev_value v))) ltac:(done)).
  intros Hz. rewrite Hz in Hgo. lia.
Qed.

Lemma candidate_sketch_impossible kind f pruned chunk : kind <> 0 ->
  sketch_admission (candidate_sketch kind f pruned chunk) = Impossible -> List.filter f (extracted pruned (data chunk)) = [].
Proof.
  intros Hk. unfold candidate_sketch. pose proof (count_none f (extracted pruned (data chunk))) as Hn. destruct (count_candidates _ _) as [count b].
  cbn [fst] in Hn. destruct (Z.eqb_spec count 0) as [Hz|Hz]; [by rewrite Hn|]. unfold sketch_admission, possible. cbn.
  by rewrite (proj2 (Z.eqb_neq _ _)).
Qed.

#[export] Instance Z85Decoder_lawful : LawfulDecoder Z85Decoder.
Proof.
  apply lawful_from. intros pruned c Hfit. set (cs := List.filter (is_z85_candidate MIN_Z85_CANDIDATE_LEN) (extracted pruned (data c))).
  destruct (z85_placed c cs Hfit) as [out Ho].
  { apply Forall_forall. intros v [Hin Hc]%list_elem_of_In%filter_In. split.
    - pose proof (extracted_placed pruned (data c)) as Hp. rewrite Forall_forall in Hp. by apply Hp, list_elem_of_In.
    - intros He. unfold is_z85_candidate in Hc. rewrite He in Hc. done. }
  exists out. split.
  - intros S HS s. cbn [decode_chunk_into Z85Decoder]. fold cs. rewrite Ho. by destruct (push_all s out).
  - intros Ha%candidate_sketch_impossible; [|done]. fold cs in Ha. specialize (Ho (list Chunk) vec_sink []).
    rewrite Ha, push_all_vec in Ho. by injection Ho.
Defined.

(** The words of a line lie in it. *)
Lemma split_once_app (needle s a b : str) : split_once needle s = Some (a, b) -> s = a ++ needle ++ b.
Proof.
  unfold split_once. destruct (find_sub needle s) as [i|] eqn:E; [|done]. intros [= <- <-].
  apply find_sub_Some in E as (pre & post & -> & <-). rewrite take_app_length. f_equal.
  by rewrite <- length_app, app_assoc, drop_app_length.
Qed.

Lemma mime_words_placed fuel before rest after : Forall (fun v => placed (before ++ rest ++ after) v /\ ev_value v <> [])
  (mime_words_loop fuel (str_len before) rest).
Proof.
  revert before rest. induction fuel as [|fuel IH]; intros before rest; cbn [mime_words_loop]; [constructor|].
  destruct (split_once $"=?" rest) as [[a b]|] eqn:Ea; [|constructor]. destruct (split_once $"?=" b) as [[inner tail]|] eqn:Eb; [|constructor].
  apply split_once_app in Ea as ->. apply split_once_app in Eb as ->. set (word := $"=?" ++ inner ++ $"?=").
  assert (Htext : before ++ (a ++ $"=?" ++ inner ++ $"?=" ++ tail) ++ after = (before ++ a) ++ word ++ tail ++ after) by (unfold word; by rewrite <- !app_assoc).
  rewrite Htext, <- !str_len_app. constructor; [split; [|done]|].
  - exists word, (before ++ a), (tail ++ after). done.
  - specialize (IH ((before ++ a) ++ word) tail). by rewrite <- app_assoc in IH.
Qed.

Lemma mime_spans_placed pieces before :
  Forall (fun v => placed (before ++ concat pieces) v /\ ev_value v <> [])
    (concat (map (fun line => mime_words_loop (length (lv_text line)) (lv_start line) (lv_text line)) (line_views_from (str_len before) pieces))).
Proof.
  revert before. induction pieces as [|segment pieces IH]; intros before; [constructor|].
  destruct (strip_line_ending_app segment) as [e He]. cbn [line_views_from map concat lv_text lv_start]. apply Forall_app. split.
  - assert (Hcat : before ++ segment ++ concat pieces = before ++ strip_line_ending segment ++ e ++ concat pieces) by (by rewrite He, <- app_assoc at 1).
    rewrite Hcat. apply mime_words_placed.
  - rewrite <- str_len_app, app_assoc. apply IH.
Qed.

#[export] Instance MimeEncodedWordDecoder_lawful `{CodecCrates} : LawfulDecoder MimeEncodedWordDecoder.
Proof.
  apply lawful_from. intros pruned c Hfit.
  pose proof (mime_spans_placed (split_inclusive (data c)) []) as Hp. unfold split_inclusive in Hp at 1. rewrite concat_split_inclusive in Hp.
  destruct (stream_placed c $"mime-encoded-word" mime_encoded_word_decode _ Hfit Hp) as [out Ho].
  fold (line_views_with_offsets (data c)) in Ho. fold (find_mime_encoded_word_spans (data c)) in Ho. exists out. split.
  - intros S HS s. cbn [decode_chunk_into MimeEncodedWordDecoder]. unfold find_mime_encoded_word_spans, line_views_with_offsets. rewrite Ho. by destruct (push_all s out).
  - intros Ha. specialize (Ho (list Chunk) vec_sink []).
    assert (Hnil : find_mime_encoded_word_spans (data c) = []).
    { revert Ha. cbn [admission MimeEncodedWordDecoder]. unfold mime_sketch. case_bool_decide as Hb; [done|]. done. }
    unfold find_mime_encoded_word_spans, line_views_with_offsets in Hnil. rewrite str_len_nil, Hnil, push_all_vec in Ho. by injection Ho.
Defined.

(** ** The trigger *)

Lemma extracted_chars pruned text v ch : v ∈ extracted pruned text -> ch ∈ ev_value v -> ch ∈ text.
Proof.
  unfold extracted. destruct (extraction_placed text pruned) as (vs & -> & Hvs). rewrite Forall_forall in Hvs.
  intros (m & (pre & post & -> & _) & _ & Hs)%Hvs Hch. rewrite !elem_of_app. right; left. by apply (elem_of_sublist _ _ _ Hch Hs).
Qed.

Lemma is_z85_char_prints ch : is_z85_char ch = true -> 33 <= ch <= 126.
Proof.
  unfold is_z85_char, is_ascii_alphanumeric, is_ascii_alphabetic, is_ascii_lowercase, is_ascii_uppercase, is_ascii_digit, in_range.
  let l := eval vm_compute in z85_punctuation in change z85_punctuation with l. cbn [existsb]. lia.
Qed.

Lemma Z85Decoder_needs_printable : needs_printable (mkRegistered Z85Decoder Z85Decoder_lawful).
Proof.
  intros pruned c _ Hno. apply collected_nil. cbn [decode_chunk_into Z85Decoder].
  destruct (List.filter _ _) as [|v vs] eqn:E; [done|]. exfalso.
  assert (Hv : v ∈ List.filter (is_z85_candidate MIN_Z85_CANDIDATE_LEN) (extracted pruned (data c))) by (rewrite E; left).
  apply list_elem_of_In, filter_In in Hv as [Hin%list_elem_of_In Hc]. unfold is_z85_candidate in Hc.
  apply andb_true_iff in Hc as [[Hl _]%andb_true_iff Hz]. destruct (z85_value v) as [|ch rest] eqn:Ez; [done|].
  apply (Hno ch); [|apply is_z85_char_prints; cbn [forallb] in Hz; by apply andb_true_iff in Hz as [? _]].
  apply (extracted_chars pruned _ v ch Hin). assert (Hch : ch ∈ z85_value v) by (rewrite Ez; left).
  unfold z85_value in Hch. by apply list_elem_of_In, filter_In in Hch as [?%list_elem_of_In _].
Qed.

Lemma mime_words_none fuel start rest : (forall ch, ch ∈ rest -> ~ 33 <= ch <= 126) -> mime_words_loop fuel start rest = [].
Proof.
  intros Hno. destruct fuel; [done|]. cbn [mime_words_loop]. destruct (split_once $"=?" rest) as [[a b]|] eqn:E; [|done].
  exfalso. apply split_once_app in E as ->. apply (Hno 61); [|lia]. rewrite !elem_of_app. right; left. left.
Qed.

Lemma MimeEncodedWordDecoder_needs_printable `{CodecCrates} : needs_printable (mkRegistered MimeEncodedWordDecoder MimeEncodedWordDecoder_lawful).
Proof.
  intros pruned c _ Hno. apply collected_nil. cbn [decode_chunk_into MimeEncodedWordDecoder].
  assert (Hnil : find_mime_encoded_word_spans (data c) = []); [|by rewrite Hnil].
  unfold find_mime_encoded_word_spans, line_views_with_offsets.
  assert (Hall : forall l, l ∈ line_views_from 0 (split_inclusive (data c)) -> mime_words_loop (length (lv_text l)) (lv_start l) (lv_text l) = []).
  { intros l Hin. apply mime_words_none. intros ch Hch. apply Hno. destruct (line_views_parts _ _ _ Hin) as (a & b & Heq).
    unfold split_inclusive in Heq. rewrite concat_split_inclusive in Heq. cbn [app] in Heq. rewrite Heq. set_solver. }
  induction (line_views_from 0 (split_inclusive (data c))) as [|l ls IH]; [done|]. cbn [map concat]. rewrite Hall by set_solver.
  apply IH. intros. apply Hall. set_solver.
Qed.

(** ** The memo changes nothing *)

Section memo.
Context `{CodecCrates} `{Inflate}.

(** Every occurrence decoded on its own. *)
Definition decode_occurrence (cv : ExtractedValue * Base64Variant) : option replacement :=
  (fun t => (ev_start (fst cv), ev_end (fst cv), t)) <$> base64_text (ev_value (fst cv)) (snd cv).

Lemma memo_index_inj v w : base64_variant_memo_index v = base64_variant_memo_index w -> v = w.
Proof. by destruct v, w. Qed.

(** Every entry is what decoding gives. *)
Definition memo_sound (m : base64_memo) : Prop :=
  forall v value t, decoded_memo m !! (base64_variant_memo_index v, value) = Some t -> t = base64_text value v.

Lemma memo_sound_insert m v value s :
  memo_sound m -> memo_sound (mkMemo (<[(base64_variant_memo_index v, value) := base64_text value v]> (decoded_memo m)) s).
Proof.
  intros Hm w value' t. cbn. rewrite lookup_insert_Some. intros [[[= Hi ->] <-]|[_ Hl]]; [|by apply Hm].
  by apply memo_index_inj in Hi as ->.
Qed.

Lemma base64_visit_sound m c v :
  memo_sound m -> fst (base64_visit m c v) = base64_text (ev_value c) v /\ memo_sound (snd (base64_visit m c v)).
Proof.
  intros Hm. unfold base64_visit. destruct (decoded_memo m !! _) as [cached|] eqn:E; [split; [by apply Hm|done]|].
  split; [done|]. cbv zeta. cbn [snd].
  destruct (base64_text (ev_value c) v) as [t|] eqn:Et; [|rewrite <- Et; by apply memo_sound_insert].
  case_bool_decide; [rewrite <- Et; by apply memo_sound_insert|exact Hm].
Qed.

Lemma base64_replacements_sound visited m : memo_sound m -> base64_replacements m visited = omap decode_occurrence visited.
Proof.
  revert m. induction visited as [|[c v] visited IH]; intros m Hm; [done|]. cbn [base64_replacements omap list_omap].
  destruct (base64_visit_sound m c v Hm) as [Hf Hs]. destruct (base64_visit m c v) as [text m']. cbn [fst snd] in *.
  unfold decode_occurrence at 1. cbn [fst snd]. rewrite <- Hf. destruct text; cbn; [f_equal|]; by apply IH.
Qed.

(** The memo of the base64 decoder changes nothing: the replacements made
    while values that failed once and values decoded twice are remembered are those
    of decoding every occurrence on its own, in the order of the candidates. *)
Theorem base64_memo_transparent (visited : list (ExtractedValue * Base64Variant)) :
  base64_replacements (mkMemo ∅ ∅) visited = omap decode_occurrence visited.
Proof. apply base64_replacements_sound. intros v value t. cbn [decoded_memo]. by rewrite lookup_empty. Qed.
End memo.

(** ** Overlapping candidates *)

(** What [hex_simd] documents: it decodes pairs of hex digits of either case. *)
Class HexCrateLaws `{CodecCrates} :=
  hex_simd_inverts upper bs : Forall (fun b => 0 <= b < 256) bs -> hex_simd_decode (concat (map (hex_digits upper 2) bs)) = Some bs.

Definition quoted_columns : str := $"x = '4142434445464748 494a4b4c4d4e4f50'".

(** Extraction yields both columns, and then the string that holds them. *)
Lemma quoted_columns_candidates pruned : find_hex_string_spans pruned quoted_columns MIN_HEX_CANDIDATE_LEN =
  [mkExtracted $"4142434445464748" 5 21; mkExtracted $"494a4b4c4d4e4f50" 22 38;
   mkExtracted $"4142434445464748494a4b4c4d4e4f50" 5 38].
Proof. destruct pruned; vm_compute; reflexivity. Qed.

(** The side conditions of decoding a literal. *)
Ltac hex_side := solve [vm_compute; reflexivity | vm_compute; discriminate].

Section hex_laws.
Context `{HexCrateLaws}.

Lemma hex_decode_within_spec limit value upper bs :
  as_bytes value = concat (map (hex_digits upper 2) bs) -> forallb (in_range 0 255) bs = true ->
  bool_decide (95 ∈ as_bytes value) = false -> str_len value mod 2 = 0 -> str_len value <= limit ->
  hex_decode_within limit value = Some bs.
Proof.
  intros Hv Hb Hu He Hl. unfold hex_decode_within. rewrite Hu. cbn [negb]. rewrite He, (proj2 (Z.ltb_ge _ _) Hl). cbn [Z.eqb negb orb].
  rewrite Hv, hex_simd_inverts; [done|]. apply Forall_forall. intros b Hin%list_elem_of_In. apply forallb_forall with (x := b) in Hb; [|done].
  unfold in_range in Hb. lia.
Qed.

Lemma try_decode_hex_spec value upper bs text :
  as_bytes value = concat (map (hex_digits upper 2) bs) -> forallb (in_range 0 255) bs = true -> from_utf8 bs = Some text ->
  bool_decide (95 ∈ as_bytes value) = false -> str_len value mod 2 = 0 -> str_len value <= MAX_HEX_INPUT_LEN ->
  try_decode_hex_candidate_to_utf8 value = Some text.
Proof.
  intros Hv Hb Ht Hu He Hl. unfold try_decode_hex_candidate_to_utf8, hex_decode, hex_decode_to_stack_buf.
  destruct (Z.leb_spec (str_len value) HEX_STACK_INPUT_LIMIT); erewrite hex_decode_within_spec by done; done.
Qed.

Lemma quoted_columns_replacements pruned :
  hex_replacements pruned quoted_columns = [(5, 21, $"ABCDEFGH"); (22, 38, $"IJKLMNOP"); (5, 38, $"ABCDEFGHIJKLMNOP")].
Proof.
  unfold hex_replacements. rewrite quoted_columns_candidates. unfold candidate_replacement. cbn [omap list_omap ev_value ev_start ev_end].
  rewrite (try_decode_hex_spec _ false $"ABCDEFGH" $"ABCDEFGH") by hex_side.
  rewrite (try_decode_hex_spec _ false $"IJKLMNOP" $"IJKLMNOP") by hex_side.
  rewrite (try_decode_hex_spec _ false $"ABCDEFGHIJKLMNOP" $"ABCDEFGHIJKLMNOP") by hex_side. done.
Qed.

(** The three replacements, in one batch. *)
Lemma quoted_columns_batch {S} (HS : DecodeOutputSink S) pruned m (s : S) :
  decode_chunk_into HexDecoder S HS pruned (mkChunk quoted_columns m) s = Panic.
Proof. cbn [decode_chunk_into HexDecoder data]. rewrite quoted_columns_replacements. vm_compute. reflexivity. Qed.

Lemma quoted_columns_admitted pruned m : admission HexDecoder pruned (mkChunk quoted_columns m) = Possible.
Proof. destruct pruned; vm_compute; reflexivity. Qed.

(** The default hex decoder does not keep the contract of the trait: on this
    quoted string of two columns of hex it panics, and a pipeline with it.  Both
    columns are candidates, so is the string that holds them, and the batch that
    replaces the string before the columns in it leaves their range. *)
Theorem quoted_hex_columns_panic (screen : option (bytes -> bool)) (validate : bool) (m : ChunkMetadata) (max_depth : Z) :
  0 < max_depth ->
  (forall S (HS : DecodeOutputSink S) pruned (s : S),
     decode_chunk_into HexDecoder S HS pruned (mkChunk quoted_columns m) s = Panic) /\
  decode_chunk_with_decoders (fun _ => false) screen validate (mkChunk quoted_columns m) [HexDecoder] None max_depth = Panic.
Proof.
  intros Hd. split; [intros; apply quoted_columns_batch|]. unfold decode_chunk_with_decoders.
  change PIPELINE_FUEL with (S 1000). generalize 1000%nat. intros fuel. unfold pipeline_start.
  cbn [pipeline_loop queue w_depth w_chunk w_cursor with_queue tick ticks]. rewrite (proj2 (Z.leb_gt _ _) Hd).
  cbn [decoders_loop w_chunk w_depth w_cursor]. rewrite quoted_columns_admitted. cbn [bool_decide].
  by rewrite quoted_columns_batch.
Qed.
End hex_laws.

(** A decoder of pairs of hex digits, for the witness. *)
Fixpoint decode_hex_pairs (bs : bytes) : option bytes :=
  match bs with
  | [] => Some []
  | a :: b :: rest =>
      match hex_val a, hex_val b, decode_hex_pairs rest with
      | Some x, Some y, Some out => Some (x * 16 + y :: out)
      | _, _, _ => None
      end
  | _ => None
  end.

Definition plain_crates : CodecCrates := {| base64_simd_decode := fun _ _ => None; hex_simd_decode := decode_hex_pairs |}.

Lemma decode_hex_pairs_inverts : @HexCrateLaws plain_crates.
Proof.
  intros upper bs. induction bs as [|b bs IH]; intros Hb; [done|]. inversion Hb as [|? ? Hx Hrest]; subst.
  change (decode_hex_pairs (hex_digits upper 2 b ++ concat (map (hex_digits upper 2) bs)) = Some (b :: bs)).
  generalize dependent (concat (map (hex_digits upper 2) bs)). intros rest IH. cbn [hex_digits app decode_hex_pairs].
  destruct (to_digit_hex upper ((b / 16) mod 16)) as [_ ->]; [apply Z.mod_pos_bound; lia|].
  destruct (to_digit_hex upper (b mod 16)) as [_ ->]; [apply Z.mod_pos_bound; lia|].
  specialize (IH Hrest). cbn [hex_simd_decode plain_crates] in IH. rewrite IH. do 2 f_equal.
  rewrite (Z.mod_small (b / 16)) by (split; [apply Z.div_pos; lia|apply Z.div_lt_upper_bound; lia]).
  pose proof (Z.div_mod b 16 ltac:(done)). lia.
Qed.

Lemma quoted_hex_columns_panic_witness : 0 < 4 /\
  @decode_chunk_with_decoders (fun _ => false) None true (mkChunk quoted_columns sample_metadata) [@HexDecoder plain_crates] None 4 = Panic.
Proof.
  split; [lia|]. exact (proj2 (@quoted_hex_columns_panic plain_crates decode_hex_pairs_inverts None true sample_metadata 4 ltac:(lia))).
Defined.
