(* ===== verification/DecodeRecall.v ===== *)
(** * What a reader of encoded assignments gets ([crates/scanner/src/decode])

    A secret written as the hex or base64 of its bytes and assigned to a name is
    extracted, decoded and shown in place: extraction, classification, decoding
    and splicing together. *)

From S2P Require Import Prelude Encoding Utf8 StrOffsets DecodeExtract DecodeSplice DecodeCodecs DecodePipeline DecodeLines DecodeCandidates.

(** ** Extraction of an assigned value *)

Definition is_key (key : str) : Prop := forallb is_ascii_alphabetic key = true /\ str_len key < MIN_B64_BLOCK_LEN.

Definition assignment (key value : str) : str := key ++ 61 :: value.

Lemma alphabetic_char c : is_ascii_alphabetic c = true ->
  is_quote c = false /\ (c =? 58) = false /\ (c =? 61) = false /\ (c =? 37) = false /\ is_b64_char c = true /\ 0 <= c < 128.
Proof.
  unfold is_b64_char, is_base64_candidate_byte, is_ascii_alphanumeric, is_quote. intros Hc. rewrite Hc.
  unfold is_ascii_alphabetic, is_ascii_lowercase, is_ascii_uppercase, in_range in Hc. rewrite !orb_true_r || rewrite orb_true_l. lia.
Qed.

(** A turn on a letter outside a percent run. *)
Lemma letter_turn prune text st idx c rest : is_ascii_alphabetic c = true -> pct_block st = [] ->
  extract_turn prune text st idx c rest = Ret (with_b64 st (b64_block st ++ [c]) (get_or_insert (b64_start st) idx) (idx + len_utf8 c), rest).
Proof.
  intros (Hq & He & H61 & H37 & Hb & _)%alphabetic_char Hp. unfold extract_turn, equals_is_base64_padding, accumulate_b64.
  rewrite Hq, H61, He, Hp, H37, Hb. cbn [andb orb negb]. rewrite bool_decide_true by done. cbn [andb orb negb]. by rewrite !andb_false_r.
Qed.

Lemma key_loop prune text key rest fuel i st : forallb is_ascii_alphabetic key = true -> pct_block st = [] ->
  exists st', extract_loop (length key + fuel) prune text st (char_indices_from i (key ++ rest)) =
    extract_loop fuel prune text st' (char_indices_from (i + str_len key) rest) /\
    values st' = values st /\ b64_block st' = b64_block st ++ key /\ pct_block st' = [].
Proof.
  revert i st. induction key as [|c key IH]; intros i st Hk Hp.
  { exists st. rewrite app_nil_r, str_len_nil, Z.add_0_r. done. }
  cbn [forallb] in Hk. apply andb_true_iff in Hk as [Hc Hk].
  destruct (IH (i + len_utf8 c) (with_b64 st (b64_block st ++ [c]) (get_or_insert (b64_start st) i) (i + len_utf8 c)) Hk Hp)
    as (st' & He & Hv & Hb & Hp').
  exists st'. cbn [length Nat.add app char_indices_from extract_loop]. rewrite letter_turn by done. cbn.
  rewrite str_len_cons, Z.add_assoc. rewrite He. split_and!; [done..| |done]. rewrite Hb. cbn. by rewrite <- app_assoc.
Qed.

Definition all_b64 (value : str) : Prop := forallb is_base64_candidate_byte value = true.

Lemma b64_char c : is_base64_candidate_byte c = true -> is_ascii_whitespace c = false /\ ends_assigned_value c = false /\ c <> 63.
Proof.
  intros Hc. unfold is_base64_candidate_byte, is_ascii_alphanumeric, is_ascii_alphabetic, is_ascii_lowercase, is_ascii_uppercase,
    is_ascii_digit, in_range in Hc. cbn [existsb] in Hc. unfold ends_assigned_value, is_quote, is_ascii_whitespace. cbn [existsb]. lia.
Qed.

Lemma all_b64_ascii value : all_b64 value -> as_bytes value = value /\ str_len value = zlen value.
Proof.
  intros Hv. assert (Ha : as_bytes value = value); [|by unfold str_len; rewrite Ha].
  apply as_bytes_ascii, Forall_forall. intros c Hin%list_elem_of_In. by apply b64_byte_ascii, (proj1 (forallb_forall _ _) Hv).
Qed.

Lemma assigned_loop_all value start end_ i : all_b64 value -> value <> [] ->
  assigned_loop start end_ (char_indices_from i value) = (get_or_insert start i, i + str_len value, []).
Proof.
  unfold all_b64. revert start end_ i. induction value as [|c value IH]; intros start end_ i Hv Hne; [done|].
  cbn [forallb] in Hv. apply andb_true_iff in Hv as [Hc Hv]. destruct (b64_char c Hc) as (_ & He & _).
  cbn [char_indices_from assigned_loop]. rewrite He, str_len_cons, Z.add_assoc.
  destruct value as [|d value]; [cbn; by rewrite str_len_nil, Z.add_0_r|]. by rewrite IH.
Qed.

Lemma subruns_all text cs ce bs run vs : forallb is_base64_candidate_byte bs = true -> (run = Some cs \/ run = None) ->
  forall index, (run = None -> index = cs) -> subruns_loop text cs ce index run vs bs = Ret vs.
Proof.
  revert run. induction bs as [|b bs IH]; intros run Hb Hr index Hi; cbn [subruns_loop].
  - destruct Hr as [-> | ->]; [|done]. by rewrite Z.eqb_refl, andb_false_r.
  - cbn [forallb] in Hb. apply andb_true_iff in Hb as [-> Hb]. apply IH; [done| |done].
    left. destruct Hr as [-> | ->]; [done|]. by rewrite (Hi eq_refl).
Qed.

Lemma subruns_of_value vs pre value : all_b64 value ->
  push_b64_subruns vs (pre ++ value) (str_len pre) (str_len (pre ++ value)) = Ret vs.
Proof.
  intros Hv. unfold push_b64_subruns. pose proof (str_slice_app pre value []) as Hs. rewrite app_nil_r in Hs. rewrite Hs.
  destruct (starts_with $"=?" value) eqn:Hw.
  { apply starts_with_spec in Hw as [t ->]. discriminate. }
  cbn [andb]. apply subruns_all; [|by right|done]. rewrite as_bytes_app, str_len_app.
  replace (Z.to_nat (str_len pre)) with (length (as_bytes pre)) by (unfold str_len, zlen; lia). rewrite drop_app_length.
  rewrite take_ge by (unfold str_len, zlen; lia). by rewrite (proj1 (all_b64_ascii value Hv)).
Qed.

Lemma skip_no_whitespace value i : all_b64 value -> skip_whitespace (char_indices_from i value) = char_indices_from i value.
Proof.
  destruct value as [|c value]; [done|]. unfold all_b64. cbn [forallb]. intros [Hc _]%andb_true_iff. cbn. by rewrite (proj1 (b64_char c Hc)).
Qed.

(** Flushing a short block and no percent run. *)
Lemma flush_idle st : str_len (b64_block st) < MIN_B64_BLOCK_LEN -> pct_block st = [] ->
  values (flush_pct (flush_b64 st)) = values st /\ b64_block (flush_pct (flush_b64 st)) = [] /\ pct_block (flush_pct (flush_b64 st)) = [].
Proof.
  intros Hb Hp. unfold flush_b64. rewrite (proj2 (Z.leb_gt _ _) Hb). unfold flush_pct. cbn [pct_block with_b64]. rewrite Hp. done.
Qed.

Lemma assigned_extracted pruned key value : is_key key -> all_b64 value -> MIN_BASE64_CANDIDATE_LEN <= str_len value ->
  extracted pruned (assignment key value) = [mkExtracted value (str_len (key ++ [61])) (str_len (assignment key value))].
Proof.
  intros [Hk Hs] Hv Hl. unfold MIN_BASE64_CANDIDATE_LEN in Hl. assert (Hne : value <> []) by (by intros ->).
  assert (Htext : assignment key value = (key ++ [61]) ++ value) by (unfold assignment; by rewrite <- app_assoc).
  unfold extracted, extract_encoded_value_spans_raw, char_indices.
  replace (length (assignment key value)) with (length key + S (length value))%nat by (unfold assignment; rewrite length_app; cbn; lia).
  destruct (key_loop pruned (assignment key value) key (61 :: value) (S (length value)) 0 (mkExtract [] [] None 0 [] None 0 0) Hk eq_refl)
    as (st & He & Hvs & Hb & Hp).
  fold (assignment key value) in He. rewrite He. cbn [app b64_block values] in Hb, Hvs. cbn [char_indices_from extract_loop].
  change (is_quote 61) with false. unfold extract_turn, equals_is_base64_padding. change (is_quote 61) with false.
  rewrite (proj2 (Z.leb_gt MIN_B64_BLOCK_LEN (str_len (b64_block st)))) by (by rewrite Hb).
  change ((61 =? 61) && false) with false. change ((61 =? 58) || (61 =? 61)) with true. cbn [andb]. cbv iota.
  destruct (flush_idle st) as (Hfv & Hfb & Hfp); [by rewrite Hb|done|].
  unfold assigned_value. rewrite skip_no_whitespace, assigned_loop_all by done. cbn [get_or_insert default].
  replace (0 + str_len key + len_utf8 61) with (str_len (key ++ [61])) by (rewrite str_len_snoc; lia).
  rewrite <- str_len_app, Htext. pose proof (str_slice_app (key ++ [61]) value []) as Hsl. rewrite app_nil_r in Hsl. rewrite Hsl.
  rewrite (proj2 (Z.leb_le MIN_EXTRACTED_VALUE_LEN _)) by (unfold MIN_EXTRACTED_VALUE_LEN; lia). unfold default_impossible.
  rewrite (proj2 (Z.ltb_ge _ MIN_BASE64_CANDIDATE_LEN)) by done. rewrite andb_false_r. cbn [andb negb].
  rewrite subruns_of_value, Hfv, Hvs by done. destruct value as [|v0 value]; [done|]. cbn [length extract_loop app].
  destruct (flush_idle (with_values (flush_pct (flush_b64 st)) [mkExtracted (v0 :: value) (str_len (key ++ [61])) (str_len ((key ++ [61]) ++ v0 :: value))]))
    as (Hv2 & _); [cbn; by rewrite Hfb|done|]. by rewrite Hv2.
Qed.

(** ** One replacement of an assigned value *)

(** The chunk that shows [text] as the value of [key]. *)
Definition shown (m : ChunkMetadata) (key text name : str) : Chunk :=
  mkChunk (assignment key text)
    (derived_metadata m (saturating_add usize_max (base_offset m) 0) (saturating_add usize_max (base_line m) 0) name
       (Some (str_len (key ++ [61]), str_len (assignment key text)))).

Lemma shown_view chunk key value text name c : str_len key < MIN_B64_BLOCK_LEN ->
  decoded_view chunk (key ++ [61]) value [] text name c -> c = shown (metadata chunk) key text name.
Proof.
  intros Hk (dropped & before & pad & after & dropped' & Hpre & Hpost & [_ Hb] & _ & _ & Hd & Hm).
  symmetry in Hpost. apply app_nil in Hpost as [-> [-> ->]%app_nil]. rewrite app_nil_r in Hd.
  assert (dropped = []) as ->.
  { destruct Hb as [?|Hb]; [done|]. apply (f_equal str_len) in Hpre. rewrite !str_len_app in Hpre.
    change (str_len [61]) with 1 in Hpre. pose proof (str_len_nonneg dropped). unfold SPLICE_CONTEXT_WINDOW, MIN_B64_BLOCK_LEN in *. lia. }
  cbn [app] in Hpre. subst before. destruct c as [cd cm]. cbn [data metadata] in Hd, Hm. subst cd cm.
  unfold shown, assignment. rewrite str_len_nil, <- !app_assoc. done.
Qed.

Lemma run_sink_ret {S} (r : S * bool) : run_sink (Ret r) = Ret (fst r).
Proof. by destruct r. Qed.

Lemma assigned_replaced m key value text name : str_len (assignment key value) <= isize_max ->
  str_len key < MIN_B64_BLOCK_LEN -> value <> [] -> text <> [] ->
  forall S (HS : DecodeOutputSink S) (s : S),
    batcher_run (mkChunk (assignment key value) m) name (batcher_new s)
      [(str_len (key ++ [61]), str_len (assignment key value), text)] =
    Ret (push_all s [shown m key (separate_controls text) name]).
Proof.
  intros Hmax Hk Hv Ht S HS s. set (chunk := mkChunk (assignment key value) m).
  assert (Hd : data chunk = assignment key value) by done. change m with (metadata chunk). rewrite <- Hd in Hmax |- *. set (g := mkSegment [] value text).
  assert (Hsrc : data chunk = (key ++ [61]) ++ segs_source [g] ++ []) by (rewrite Hd, segs_source_cons; unfold g, assignment; cbn; by rewrite !app_nil_r, <- app_assoc).
  destruct (push_batch_spec chunk name (key ++ [61]) [g] []) as (out & Ho & Hp); [done..|by repeat constructor|].
  rewrite segs_source_cons in Ho, Hp. cbn [seg_gap seg_encoded g segs_source segs_result segs_replacements map concat app seg_decoded] in Ho, Hp.
  rewrite !app_nil_r in Ho. rewrite app_nil_r in Hp. destruct Ho as [[? _]|(_ & c & -> & Hc)]; [done|].
  apply shown_view in Hc as ->; [|done]. rewrite <- (Hp S HS s), batcher_is_stream. cbn [stream_batched_loop batcher_new].
  unfold exceeds_source_bound, exceeds_output_bound. cbn [batch_start b_replacements]. rewrite Z.eqb_refl, bool_decide_true by done. cbn [negb andb orb].
  unfold batcher_add. cbn [batch_start b_replacements b_sink batch_end batch_decoded_bytes app]. rewrite Z.eqb_refl.
  assert (He : str_len (data chunk) = str_len ((key ++ [61]) ++ value)) by (rewrite Hd; unfold assignment; by rewrite <- app_assoc).
  rewrite str_len_nil, Z.add_0_r, <- str_len_app, He. done.
Qed.

(** ** Hex *)

Definition hex_of (upper : bool) (text : str) : str := concat (map (hex_digits upper 2) (as_bytes text)).

Lemma hex_digits_hex upper b : forallb is_ascii_hexdigit (hex_digits upper 2 b) = true.
Proof.
  assert (Hd : forall n, 0 <= n < 16 -> is_ascii_hexdigit (hex_digit upper n) = true).
  { intros n Hn. unfold hex_digit, is_ascii_hexdigit, in_range, is_ascii_digit, in_range. destruct (Z.ltb_spec n 10), upper; lia. }
  cbn [hex_digits app forallb]. rewrite !Hd by (apply Z.mod_pos_bound; lia). done.
Qed.

Lemma hex_of_hex upper text : forallb is_ascii_hexdigit (hex_of upper text) = true.
Proof.
  unfold hex_of. induction (as_bytes text) as [|b bs IH]; [done|]. cbn [map concat]. by rewrite forallb_app, hex_digits_hex, IH.
Qed.

Lemma length_hex_of upper text : zlen (hex_of upper text) = 2 * str_len text.
Proof.
  unfold hex_of, str_len, zlen. induction (as_bytes text) as [|b bs IH]; [done|]. cbn [map concat length]. rewrite length_app, length_hex_digits. lia.
Qed.

Lemma hexdigit_b64 c : is_ascii_hexdigit c = true -> is_base64_candidate_byte c = true /\ c <> 95.
Proof.
  unfold is_base64_candidate_byte, is_ascii_alphanumeric, is_ascii_alphabetic, is_ascii_lowercase, is_ascii_uppercase,
    is_ascii_hexdigit, is_ascii_digit, in_range. lia.
Qed.

Lemma hex_of_b64 upper text : all_b64 (hex_of upper text).
Proof.
  apply forallb_forall. intros c Hin. apply hexdigit_b64. exact (proj1 (forallb_forall _ _) (hex_of_hex upper text) c Hin).
Qed.

Lemma filter_all {A} (f : A -> bool) l : forallb f l = true -> List.filter f l = l.
Proof. induction l as [|a l IH]; [done|]. cbn. destruct (f a); [|done]. cbn. intros Hl. by rewrite IH. Qed.

Lemma hex_of_no_underscore upper text : 95 ∉ hex_of upper text.
Proof. intros Hin%list_elem_of_In. by apply (proj1 (forallb_forall _ _) (hex_of_hex upper text)) in Hin. Qed.

Lemma hex_of_candidate upper text a b : 8 <= str_len text -> is_hex_candidate MIN_HEX_CANDIDATE_LEN (mkExtracted (hex_of upper text) a b) = true.
Proof.
  intros Hl. unfold is_hex_candidate. cbn [ev_value]. rewrite (proj1 (all_b64_ascii _ (hex_of_b64 upper text))).
  pose proof (hex_of_hex upper text) as Hh. rewrite forallb_forall in Hh. rewrite filter_all, length_hex_of.
  - rewrite Z.mul_comm, Z.mod_mul by lia. rewrite (proj2 (Z.leb_le _ _)) by (unfold MIN_HEX_CANDIDATE_LEN; lia).
    cbn [andb Z.eqb]. apply forallb_forall. intros c Hin. by rewrite Hh, orb_true_r.
  - apply forallb_forall. intros c Hin. destruct (hexdigit_b64 c (Hh c Hin)). lia.
Qed.

Lemma assignment_fits key value : is_key key -> str_len value <= MAX_HEX_INPUT_LEN -> str_len (assignment key value) <= isize_max.
Proof.
  intros [_ Hk] Hv. unfold assignment. rewrite str_len_app, str_len_cons. change (len_utf8 61) with 1.
  unfold MAX_HEX_INPUT_LEN, DECODE_UNIT, MIN_B64_BLOCK_LEN, isize_max in *. lia.
Qed.

Lemma bytes_in_range text : Forall is_scalar text -> forallb (in_range 0 255) (as_bytes text) = true.
Proof.
  intros Ht%as_bytes_range. apply forallb_forall. intros b Hin%list_elem_of_In. rewrite Forall_forall in Ht. apply Ht in Hin. unfold in_range. lia.
Qed.

Section hex.
Context `{HexCrateLaws}.

(** A secret assigned to a name as the hex of its bytes is decoded in place:
    for every name of fewer than sixteen letters and every text of at least eight
    bytes, in digits of either case, the hex decoder offers exactly one chunk, the
    assignment with the text in clear (other control characters made spaces), its
    decoded span around the text. *)
Theorem assigned_hex_shown (key text : str) (upper pruned : bool) (m : ChunkMetadata) :
  is_key key -> Forall is_scalar text -> 8 <= str_len text -> 2 * str_len text <= MAX_HEX_INPUT_LEN ->
  forall S (HS : DecodeOutputSink S) (s : S),
    decode_chunk_into HexDecoder S HS pruned (mkChunk (assignment key (hex_of upper text)) m) s =
    Ret (fst (push_all s [shown m key (separate_controls text) $"hex"])).
Proof.
  intros Hk Ht Hl Hx S HS s. destruct (all_b64_ascii _ (hex_of_b64 upper text)) as [Ha Hz]. rewrite length_hex_of in Hz.
  cbn [decode_chunk_into HexDecoder data]. unfold hex_replacements, find_hex_string_spans.
  rewrite assigned_extracted by (try apply hex_of_b64; try done; unfold MIN_BASE64_CANDIDATE_LEN; lia).
  cbn [List.filter]. rewrite hex_of_candidate by done. unfold candidate_replacement. cbn [omap list_omap ev_value ev_start ev_end].
  rewrite (try_decode_hex_spec _ upper (as_bytes text) text), assigned_replaced.
  - apply run_sink_ret.
  - by apply assignment_fits; [|rewrite Hz].
  - apply Hk.
  - intros He. rewrite He, str_len_nil in Hz. lia.
  - intros ->. rewrite str_len_nil in Hl. lia.
  - done.
  - by apply bytes_in_range.
  - by apply from_utf8_as_bytes.
  - rewrite Ha. apply bool_decide_false, hex_of_no_underscore.
  - by rewrite Hz, Z.mul_comm, Z.mod_mul.
  - by rewrite Hz.
Qed.
End hex.

(** ** Base64 *)

(** What [base64_simd::STANDARD] documents: it decodes the padded encoding of
    RFC 4648. *)
Class Base64CrateLaws `{CodecCrates} :=
  base64_simd_inverts bs : Forall in_u8 bs -> base64_simd_decode Standard (encode_standard_base64 bs) = Some bs.

Definition unpadded_standard (f : Base64CandidateFacts) : Prop := padded f = false /\ has_urlsafe f = false.

Lemma scan_alphabet data rest index seen f : Forall (fun c => is_alphabet c = true) data -> unpadded_standard f ->
  exists seen' f', unpadded_standard f' /\
    scan_base64_loop index 0 seen f (data ++ rest) = scan_base64_loop (index + zlen data) 0 seen' f' rest.
Proof.
  intros Hd. revert index seen f. induction Hd as [|c data Hc _ IH]; intros index seen f [Hp Hu].
  { exists seen, f. by rewrite Z.add_0_r. }
  assert (Hz : forall i, i + zlen (c :: data) = (i + 1) + zlen data) by (intros; unfold zlen; cbn [length]; lia).
  rewrite Hz. cbn [app scan_base64_loop]. rewrite Hp, !andb_true_r.
  assert (Hcase : is_ascii_alphanumeric c = true \/ (is_ascii_alphanumeric c = false /\ (c = 43 \/ c = 47))).
  { unfold is_ascii_alphanumeric, is_ascii_alphabetic, is_ascii_lowercase, is_ascii_uppercase, is_ascii_digit.
    unfold is_alphabet, val in Hc. destruct (in_range 65 90 c), (in_range 97 122 c), (in_range 48 57 c); cbn; auto.
    destruct (Z.eqb_spec c 43), (Z.eqb_spec c 47); auto. }
  destruct Hcase as [-> |[-> [-> | ->]]]; cbn [Z.eqb]; [case_bool_decide| |]; by apply IH.
Qed.

Lemma alphabet_b64 c : is_alphabet c = true -> is_base64_candidate_byte c = true.
Proof.
  unfold is_alphabet, val, is_base64_candidate_byte, is_ascii_alphanumeric, is_ascii_alphabetic, is_ascii_lowercase, is_ascii_uppercase,
    is_ascii_digit. destruct (in_range 65 90 c), (in_range 97 122 c), (in_range 48 57 c); try done.
  cbn [existsb]. destruct (c =? 43); [done|]. by destruct (c =? 47).
Qed.

(** The encoding: characters of the alphabet, then at most two paddings, four at a time. *)
Lemma encoded_parts bs : Forall in_u8 bs -> bs <> [] -> exists data k,
  encode_standard_base64 bs = data ++ replicate k 61 /\ Forall (fun c => is_alphabet c = true) data /\ 0 < zlen data /\
  (k <= 2)%nat /\ (zlen data + Z.of_nat k) mod 4 = 0.
Proof.
  intros Hb Hne. destruct (encode_shape bs Hb) as (data & Hd & Hf & Hm & Hdec). exists data, (canonical_pad (length data)).
  assert (Hmod := Nat.mod_upper_bound (length data) 4 ltac:(done)). assert (Hdiv := Nat.div_mod_eq (length data) 4).
  assert (Hk : (canonical_pad (length data) <= 2 /\ (length data + canonical_pad (length data)) mod 4 = 0)%nat).
  { unfold canonical_pad. remember (length data mod 4)%nat as r. rewrite Hdiv.
    replace (4 * (length data / 4) + r)%nat with (r + (length data / 4) * 4)%nat by lia.
    destruct r as [|[|[|[|]]]]; [..|lia]; [| |  |]; (split; [cbn; lia|]); rewrite <- Nat.add_assoc, (Nat.add_comm (_ * 4)), Nat.add_assoc, Nat.Div0.mod_add; done. }
  split_and!; [done|apply decode_chunks_iff; eauto| |apply Hk|].
  - destruct data; [|unfold zlen; cbn [length]; lia]. cbn in Hdec. congruence.
  - unfold zlen. rewrite <- Nat2Z.inj_add. change 4 with (Z.of_nat 4). by rewrite <- Nat2Z.inj_mod, (proj2 Hk).
Qed.

Lemma encoded_all_b64 bs : Forall in_u8 bs -> bs <> [] -> all_b64 (encode_standard_base64 bs).
Proof.
  intros Hb Hne. destruct (encoded_parts bs Hb Hne) as (data & k & -> & Hd & _). unfold all_b64. rewrite forallb_app. apply andb_true_iff. split.
  - apply forallb_forall. intros c Hin%list_elem_of_In. rewrite Forall_forall in Hd. by apply alphabet_b64, Hd.
  - clear. by induction k.
Qed.

Lemma scan_padding k index seen f : (k <= 2)%nat -> 0 < index ->
  exists f', scan_base64_loop index 0 seen f (replicate k 61) = Some f' /\ has_urlsafe f' = has_urlsafe f.
Proof.
  intros Hk Hi. assert (Hn : forall j, 0 <= j -> (index + j =? 0) = false) by lia. pose proof (Hn 0 ltac:(lia)) as H0. rewrite Z.add_0_r in H0.
  destruct k as [|[|[|]]]; [by exists f| | |lia]; cbn [replicate scan_base64_loop]; change (is_ascii_alphanumeric 61) with false;
    cbn [andb orb Z.eqb]; change (61 =? 43) with false; change (61 =? 47) with false; change (61 =? 45) with false; change (61 =? 95) with false;
    cbn [andb orb]; rewrite H0, ?(Hn 1) by lia; eexists; split; reflexivity.
Qed.

Lemma classify_encoded bs : Forall in_u8 bs -> bs <> [] -> classify_base64 (encode_standard_base64 bs) = Some Standard.
Proof.
  intros Hb Hne. destruct (all_b64_ascii _ (encoded_all_b64 bs Hb Hne)) as [Ha Hz]. unfold classify_base64, scan_base64_candidate.
  rewrite Ha, Hz. destruct (encoded_parts bs Hb Hne) as (data & k & -> & Hd & Hpos & Hk & Hm).
  destruct (scan_alphabet data (replicate k 61) 0 [] (mkFacts false false false false false 0) Hd) as (seen & f & [Hp Hu] & ->); [done|].
  assert (Hlen : zlen (data ++ replicate k 61) mod 4 = 0) by (unfold zlen in *; rewrite length_app, length_replicate, Nat2Z.inj_add; done).
  destruct (scan_padding k (0 + zlen data) seen f) as (f' & -> & Hu'); [done|lia|]. rewrite Hlen, Hu', Hu, andb_false_r. by destruct (padded f').
Qed.

Lemma length_encoded bs : Forall in_u8 bs ->
  exists q, length (encode_standard_base64 bs) = (4 * q)%nat /\ (length bs <= 3 * q)%nat.
Proof.
  revert bs. refine (chunks_ind 3 _ _ _ _); [lia|intros _; exists 0%nat; cbn; lia|]. intros l Hne IH Hl. rewrite encode_step by done.
  destruct (encode_chunk_spec (take 3 l)) as (d & -> & Hdl & _); [by apply Forall_take|by destruct l|rewrite length_take; lia|].
  destruct (IH ltac:(by apply Forall_drop)) as (q & Hq & Hle). exists (S q).
  rewrite !length_app, length_replicate, Hdl, Hq, length_take. rewrite length_drop in Hle. lia.
Qed.

Section base64_shown.
Context `{Base64CrateLaws} `{Inflate}.

(** C8. A secret assigned to a name as the base64 of its bytes is decoded in
    place: let the chunk be exactly such an assignment, with a name of fewer than
    sixteen ASCII letters and a text of at least eight bytes that does not open
    with the magic bytes of gzip or zlib.  The base64 decoder classifies the value
    as standard base64 and offers exactly one chunk, the assignment with the text
    in clear (other control characters made spaces), its decoded span around the
    text.  This holds for values of any length: the decoder does not apply the
    16 MiB limit on base64 input, although [base64_decode] refuses a value above
    it and decodes it to the same bytes below it. *)
Theorem assigned_base64_shown (key text : str) (pruned : bool) (m : ChunkMetadata) :
  is_key key -> Forall is_scalar text -> 8 <= str_len text -> has_container_magic (as_bytes text) = false ->
  str_len (assignment key (encode_standard_base64 (as_bytes text))) <= isize_max ->
  (forall S (HS : DecodeOutputSink S) (s : S),
     decode_chunk_into Base64Decoder S HS pruned (mkChunk (assignment key (encode_standard_base64 (as_bytes text))) m) s =
     Ret (fst (push_all s [shown m key (separate_controls text) $"base64"]))) /\
  base64_decode (encode_standard_base64 (as_bytes text)) =
    if MAX_BASE64_INPUT_LEN <? str_len (encode_standard_base64 (as_bytes text)) then None else Some (as_bytes text).
Proof.
  intros Hk Ht Hl Hc Hx.
  assert (Hb : Forall in_u8 (as_bytes text)) by (eapply Forall_impl; [by apply as_bytes_range|done]).
  assert (Hne : as_bytes text <> []) by (intros He; unfold str_len, zlen in Hl; rewrite He in Hl; cbn [length] in Hl; lia).
  pose proof (encoded_all_b64 _ Hb Hne) as Hall. destruct (all_b64_ascii _ Hall) as [Ha Hz].
  assert (Hlen : MIN_BASE64_CANDIDATE_LEN <= str_len (encode_standard_base64 (as_bytes text))).
  { destruct (length_encoded _ Hb) as (q & Hq & Hle). rewrite Hz. unfold str_len in Hl. unfold zlen, MIN_BASE64_CANDIDATE_LEN in *. lia. }
  split; [intros S HS s|unfold base64_decode, base64_decode_with_variant; by rewrite classify_encoded, Ha, base64_simd_inverts by done].
  cbn [decode_chunk_into Base64Decoder data]. unfold visit_classified_base64_string_spans. rewrite assigned_extracted by done.
  rewrite base64_replacements_sound by (intros v value t; cbn [decoded_memo]; by rewrite lookup_empty).
  cbn [omap list_omap]. unfold classified_candidate. cbn [ev_value]. rewrite (proj2 (Z.ltb_ge _ _) Hlen), Ha. unfold all_b64 in Hall. rewrite Hall.
  cbn [orb negb]. rewrite classify_encoded by done. cbn [omap list_omap]. unfold decode_occurrence, base64_text, base64_decode_with_variant.
  cbn [fst snd ev_value ev_start ev_end]. rewrite Ha, base64_simd_inverts by done. unfold try_inflate_to_text.
  apply orb_false_iff in Hc as [-> ->]. rewrite from_utf8_as_bytes by done. cbn [fmap option_fmap option_map omap list_omap].
  rewrite assigned_replaced; [apply run_sink_ret|done|apply Hk| |].
  - intros He. rewrite He, str_len_nil in Hlen. unfold MIN_BASE64_CANDIDATE_LEN in Hlen. lia.
  - by intros ->.
Qed.
End base64_shown.

(** ** Witnesses *)

(** [DB] and a password that is not ASCII. *)
Definition sample_key : str := $"DB".
Definition sample_text : str := $"p" ++ [233] ++ $"ss-w0rd!".

Lemma sample_key_ok : is_key sample_key.
Proof. by split; vm_compute. Qed.

Lemma sample_text_ok : Forall is_scalar sample_text /\ 8 <= str_len sample_text.
Proof. split; [|by vm_compute]. unfold is_scalar. repeat (apply Forall_cons_2; [cbn; lia|]). apply Forall_nil_2. Qed.


(** The base64 of [Encoding] for the standard alphabet, for the witness. *)
Definition rfc4648_crates : CodecCrates := {|
  base64_simd_decode := fun variant bs =>
    match variant with
    | Standard => match decode_chunks (chunks 4 (List.filter (fun b => negb (b =? PAD)) bs)) with Ok out => Some out | Err _ => None end
    | _ => None
    end;
  hex_simd_decode := decode_hex_pairs |}.

#[local] Instance no_inflate : Inflate := {| gz_read := fun _ => ([], false); zlib_read := fun _ => ([], false) |}.

Lemma rfc4648_inverts : @Base64CrateLaws rfc4648_crates.
Proof.
  intros bs Hb. cbn [base64_simd_decode rfc4648_crates]. destruct (encode_shape bs Hb) as (data & -> & Hf & _ & Hd).
  rewrite List.filter_app, filter_all.
  - generalize (canonical_pad (length data)). intros k. assert (List.filter (fun b => negb (b =? PAD)) (replicate k PAD) = []) as -> by (by induction k).
    by rewrite app_nil_r, Hd.
  - apply forallb_forall. intros c Hin%list_elem_of_In. rewrite Forall_forall in Hf. destruct (Hf c Hin). lia.
Qed.

Lemma assigned_base64_shown_witness :
  (is_key sample_key /\ has_container_magic (as_bytes sample_text) = false) /\
  @decode_chunk_into (@Base64Decoder rfc4648_crates _) (list Chunk) vec_sink true (mkChunk $"DB=cMOpc3MtdzByZCE=" sample_metadata) [] =
    Ret [shown sample_metadata sample_key sample_text $"base64"].
Proof.
  split; [split; [exact sample_key_ok|vm_compute; reflexivity]|].
  exact (proj1 (@assigned_base64_shown rfc4648_crates rfc4648_inverts _ sample_key sample_text true sample_metadata sample_key_ok
           (proj1 sample_text_ok) (proj2 sample_text_ok) eq_refl ltac:(vm_compute; discriminate)) (list Chunk) vec_sink []).
Defined.
