(* ===== verification/DecodeReach.v ===== *)
(** * From an escaped line to the detectors ([crates/scanner/src/decode])

    The pipeline, the URL decoder, its codec, the splicer and the alphabet screen
    together: a line with a percent-escaped secret in it is handed to the
    detectors in clear. *)

From S2P Require Import Prelude Encoding Utf8 StrOffsets DecodeExtract DecodeSplice DecodeCodecs AlphabetScreen DecodePipeline DecodeLines.

(** ** Lines of a text *)

Lemma split_inclusive_break piece b s : exists pieces, split_inclusive_from piece (b ++ 10 :: s) = pieces ++ split_inclusive s.
Proof.
  revert piece. induction b as [|c b IH]; intros piece; cbn [app split_inclusive_from].
  - by exists [piece ++ [10]].
  - destruct (c =? 10); [|apply IH]. destruct (IH []) as [pieces ->]. by exists ((piece ++ [c]) :: pieces).
Qed.

Lemma split_inclusive_lines before s : (before = [] \/ exists b, before = b ++ [10]) ->
  exists pieces, split_inclusive (before ++ s) = pieces ++ split_inclusive s.
Proof. intros [-> |[b ->]]; [by exists []|]. rewrite <- app_assoc. apply split_inclusive_break. Qed.

Lemma split_inclusive_head piece line after : 10 ∉ line -> piece ++ line <> [] -> (after = [] \/ exists a, after = 10 :: a) ->
  exists rest e, split_inclusive_from piece (line ++ after) = (piece ++ line ++ e) :: rest /\ (e = [] \/ e = [10]).
Proof.
  intros Hl Hne Ha. revert piece Hne. induction line as [|c line IH]; intros piece Hne.
  - rewrite app_nil_r in Hne. destruct Ha as [-> |[a ->]]; cbn [app split_inclusive_from].
    + rewrite bool_decide_false by done. exists [], []. rewrite app_nil_r. auto.
    + eexists _, [10]. split; [reflexivity|auto].
  - apply not_elem_of_cons in Hl as [Hc Hl]. cbn [app split_inclusive_from]. rewrite (proj2 (Z.eqb_neq c 10)) by done.
    destruct (IH Hl (piece ++ [c])) as (rest & e & -> & He); [by destruct piece|]. exists rest, e. by rewrite <- !app_assoc.
Qed.

Lemma strip_suffix_char_snoc x s : strip_suffix_char x (s ++ [x]) = s.
Proof.
  unfold strip_suffix_char. by rewrite ends_with_app, removelast_last.
Qed.

Lemma strip_suffix_char_other x s : last s <> Some x -> strip_suffix_char x s = s.
Proof.
  intros Hl. unfold strip_suffix_char. destruct (ends_with [x] s) eqn:E; [|done]. exfalso. apply Hl.
  apply ends_with_spec in E as [t ->]. apply last_snoc.
Qed.

Lemma line_views_elem pieces segment rest offset : exists l, l ∈ line_views_from offset (pieces ++ segment :: rest) /\
  lv_text l = strip_line_ending segment.
Proof.
  revert offset. induction pieces as [|p pieces IH]; intros offset; cbn [app line_views_from].
  - eexists. split; [by left|done].
  - destruct (IH (offset + str_len p)) as (l & Hin & Hl). exists l. split; [by right|done].
Qed.

(** A line: after a line break or the start, before a line break or the end. *)
Definition is_line (before line after : str) : Prop :=
  (before = [] \/ exists b, before = b ++ [10]) /\ 10 ∉ line /\ last line <> Some 13 /\ (after = [] \/ exists a, after = 10 :: a).

Lemma line_viewed before line after : is_line before line after -> line <> [] ->
  exists l, l ∈ line_views_with_offsets (before ++ line ++ after) /\ lv_text l = line.
Proof.
  intros (Hb & Hl & Hcr & Ha) Hne. unfold line_views_with_offsets. destruct (split_inclusive_lines before (line ++ after) Hb) as [pieces ->].
  unfold split_inclusive. destruct (split_inclusive_head [] line after Hl Hne Ha) as (rest & e & -> & He). cbn [app].
  destruct (line_views_elem pieces (line ++ e) rest 0) as (l & Hin & Ht). exists l. split; [done|]. rewrite Ht. unfold strip_line_ending.
  assert (Hs : strip_suffix_char 10 (line ++ e) = line).
  { destruct He as [-> | ->]; [|apply strip_suffix_char_snoc]. rewrite app_nil_r. apply strip_suffix_char_other.
    intros Hlast. apply last_Some in Hlast as [l' ->]. apply Hl. set_solver. }
  rewrite Hs. by apply strip_suffix_char_other.
Qed.

(** ** What the URL decoder shows *)

Lemma hex_val_range h v : hex_val h = Some v -> 0 <= v < 16.
Proof. unfold hex_val, in_range. repeat case_match; intros [= <-]; lia. Qed.

Lemma percent_loop_bytes n bs : (length bs <= n)%nat -> Forall (fun b => 0 <= b <= 255) bs -> Forall (fun b => 0 <= b <= 255) (percent_loop bs).
Proof.
  revert bs. induction n as [|n IH]; intros bs Hn Hb; [destruct bs; [constructor|cbn in Hn; lia]|].
  destruct Hb as [|b rest Hb Hr]; [constructor|]. cbn [length] in Hn. cbn [percent_loop].
  destruct (negb (b =? 37)); [constructor; [done|apply IH; [lia|done]]|].
  assert (Hlit : Forall (fun b => 0 <= b <= 255) (37 :: percent_loop rest)) by (constructor; [lia|apply IH; [lia|done]]).
  destruct Hr as [|h rest Hh Hr]; [done|]. destruct Hr as [|l rest Hl Hr]; [done|].
  destruct (hex_val h) as [high|] eqn:Eh; [|done]. destruct (hex_val l) as [low|] eqn:El; [|done].
  apply hex_val_range in Eh, El. constructor; [|apply IH; [cbn [length] in Hn; lia|done]]. rewrite shl8_lor by lia. lia.
Qed.

Lemma percent_decode_scalar s t : Forall is_scalar s -> percent_decode s = Some t -> Forall is_scalar t.
Proof. intros Hs. apply from_utf8_scalar. apply (percent_loop_bytes (length (as_bytes s))); [done|]. by apply as_bytes_range. Qed.

Lemma replacement_segment pos segs a b t : (a, b, t) ∈ segs_replacements pos segs -> exists g, g ∈ segs /\ seg_decoded g = t.
Proof.
  revert pos. induction segs as [|g segs IH]; intros pos Hin; [by apply not_elem_of_nil in Hin|]. cbn [segs_replacements] in Hin.
  apply elem_of_cons in Hin as [[= _ _ ->]|Hin]; [exists g; split; [by left|done]|].
  destruct (IH _ Hin) as (g' & Hg & Hd). exists g'. split; [by right|done].
Qed.

Lemma segment_replacement pos segs g : g ∈ segs -> exists a b, (a, b, seg_decoded g) ∈ segs_replacements pos segs.
Proof.
  revert pos. induction segs as [|g' segs IH]; intros pos Hin; [by apply not_elem_of_nil in Hin|].
  cbn [segs_replacements]. apply elem_of_cons in Hin as [-> |Hin]; [by eexists _, _; left|].
  destruct (IH (pos + str_len (seg_gap g') + str_len (seg_encoded g')) Hin) as (a & b & Hr). exists a, b. by right.
Qed.

Lemma segment_result segs g : g ∈ segs -> exists a b, segs_result segs = a ++ seg_decoded g ++ b.
Proof.
  induction segs as [|g' segs IH]; intros Hin; [by apply not_elem_of_nil in Hin|]. rewrite segs_result_cons.
  apply elem_of_cons in Hin as [-> |Hin]; [by exists (seg_gap g'), (segs_result segs)|].
  destruct (IH Hin) as (a & b & ->). exists (seg_gap g' ++ seg_decoded g' ++ a), b. by rewrite <- !app_assoc.
Qed.

Lemma segs_result_Forall (P : Z -> Prop) segs : Forall P (segs_source segs) -> (forall g, g ∈ segs -> Forall P (seg_decoded g)) -> Forall P (segs_result segs).
Proof.
  induction segs as [|g segs IH]; intros Hs Hd; [constructor|]. rewrite segs_source_cons in Hs. rewrite segs_result_cons.
  apply Forall_app in Hs as [Hg [_ Hs]%Forall_app]. apply Forall_app. split; [done|]. apply Forall_app. split; [apply Hd; by left|].
  apply IH; [done|]. intros. apply Hd. by right.
Qed.

Lemma separate_controls_map text : separate_controls text = map (fun c => if is_other_control c then 32 else c) text.
Proof.
  unfold separate_controls. destruct (existsb is_other_control (as_bytes text)) eqn:E; [done|].
  induction text as [|c text IH]; [done|]. rewrite as_bytes_cons, existsb_app in E. apply orb_false_iff in E as [Ec E].
  cbn [map]. rewrite <- IH by done. destruct (is_other_control c) eqn:Hc; [|done]. exfalso. unfold utf8_char in Ec.
  rewrite (proj2 (Z.ltb_lt c 128)) in Ec by (unfold is_other_control in Hc; lia). cbn [existsb] in Ec. by rewrite Hc in Ec.
Qed.

Lemma separate_controls_clean text : forallb (fun c => negb (is_other_control c)) text = true ->
  map (fun c => if is_other_control c then 32 else c) text = text.
Proof.
  induction text as [|c text IH]; [done|]. cbn [forallb map]. intros [Hc Ht]%andb_true_iff. rewrite IH by done. by destruct (is_other_control c).
Qed.

Lemma separate_controls_scalar text : Forall is_scalar text -> Forall is_scalar (separate_controls text).
Proof.
  rewrite separate_controls_map. intros Ht. apply Forall_map. eapply Forall_impl; [exact Ht|]. intros c Hc. cbn.
  case_match; [unfold is_scalar; lia|done].
Qed.

Lemma separate_controls_nul text : 0 ∉ separate_controls text.
Proof. rewrite separate_controls_map. intros (c & Hc & _)%list_elem_of_fmap. destruct (is_other_control c) eqn:E; [done|]. by subst c. Qed.

(** What a batch shows of one of its replacements. *)
Lemma batch_shows chunk name batch out a b t :
  batch_outputs chunk name batch out -> (a, b, t) ∈ batch -> t <> [] -> forallb (fun c => negb (is_other_control c)) t = true ->
  Forall is_scalar (data chunk) -> (forall r, r ∈ batch -> Forall is_scalar (snd r)) ->
  exists c before after, out = [c] /\ data c = before ++ t ++ after /\ Forall is_scalar (data c) /\
    (0 <= base_offset (metadata chunk) <= usize_max -> base_offset (metadata chunk) <= decoded_offset c) /\
    (0 ∉ data chunk -> 0 ∉ data c).
Proof.
  intros (pre & segs & post & Hne & Hd & -> & _ & Hout) Hin Ht Hclean Hsc Hds.
  destruct (replacement_segment _ _ _ _ _ Hin) as (g & Hg & Hgt). destruct (segment_result segs g Hg) as (x & y & Hres). rewrite Hgt in Hres.
  destruct Hout as [[Hnil _]|(_ & c & -> & dropped & before & pad & after & dropped' & Hpre & Hpost & _ & _ & _ & Hdc & Hm)].
  { exfalso. rewrite Hnil in Hres. symmetry in Hres. apply app_nil in Hres as [_ [? _]%app_nil]. done. }
  rewrite Hd, Hpre, Hpost in Hsc. rewrite !Forall_app in Hsc. destruct Hsc as ((_ & Hsb) & Hss & _ & Hsa & _).
  exists c, (before ++ separate_controls x), (separate_controls y ++ after). split_and!; [done|..].
  - rewrite Hdc, Hres, !separate_controls_map, !map_app, (separate_controls_clean t) by done. by rewrite <- !app_assoc.
  - rewrite Hdc, !Forall_app. split_and!; [done| |done]. apply separate_controls_scalar, segs_result_Forall; [done|].
    intros g' Hg'. destruct (segment_replacement (str_len pre) segs g' Hg') as (a' & b' & Hr). by apply (Hds _ Hr).
  - intros Hoff. unfold decoded_offset. rewrite Hm. cbn [decoded_span derived_metadata base_offset].
    pose proof (str_len_nonneg dropped). pose proof (str_len_nonneg before). unfold saturating_add. lia.
  - rewrite Hd, Hpre, Hpost, Hdc. pose proof (separate_controls_nul (segs_result segs)). set_solver.
Qed.

Lemma elem_of_concat_Forall2 {A B} (R : list A -> list B -> Prop) batches outs x :
  Forall2 R batches outs -> x ∈ concat batches -> exists batch out, R batch out /\ x ∈ batch /\ batch ∈ batches /\ out ∈ outs.
Proof.
  induction 1 as [|batch out batches outs HR _ IH]; cbn [concat]; [intros Hx; by apply not_elem_of_nil in Hx|].
  intros [Hx|Hx]%elem_of_app; [by exists batch, out; split_and!; [..|left|left]|].
  destruct (IH Hx) as (b & o & ? & ? & ? & ?). exists b, o. split_and!; [done..|by right|by right].
Qed.

Lemma contains_escape_app opener a bs c : contains_escape opener bs = true -> contains_escape opener (a ++ bs ++ c) = true.
Proof.
  intros H. assert (Hc : contains_escape opener (bs ++ c) = true).
  { induction bs as [|b bs IH]; [done|]. cbn [app contains_escape] in *. apply orb_true_iff in H as [H|H]; apply orb_true_iff; [left|right; by apply IH].
    destruct bs as [|h [|l bs]]; cbn in *; by rewrite ?andb_false_r in H. }
  induction a as [|x a IH]; [done|]. cbn [app contains_escape]. by rewrite IH, orb_true_r.
Qed.

Definition url_registered : registered := mkRegistered UrlDecoder UrlDecoder_lawful.

Lemma url_outputs_show pruned chunk before line after t :
  data chunk = before ++ line ++ after -> is_line before line after -> str_len (data chunk) <= isize_max -> Forall is_scalar (data chunk) ->
  contains_percent_escape line = true -> percent_decode line = Some t -> t <> [] -> forallb (fun c => negb (is_other_control c)) t = true ->
  exists o x y, o ∈ outputs_of url_registered pruned chunk /\ data o = x ++ t ++ y /\ Forall is_scalar (data o) /\
    (0 <= base_offset (metadata chunk) <= usize_max -> base_offset (metadata chunk) <= decoded_offset o) /\
    (0 ∉ data chunk -> 0 ∉ data o).
Proof.
  intros Hd Hline Hmax Hsc Hesc Hdec Ht Hclean. assert (Hne : line <> []) by (by intros ->).
  destruct (line_viewed before line after Hline Hne) as (l & Hl & Hlt). rewrite <- Hd in Hl.
  destruct (decode_lines_outputs chunk contains_percent_escape percent_decode $"url" eq_refl Hmax) as (batches & outs & Hb & Hf & Hs).
  assert (Hall : forall r, r ∈ concat batches -> Forall is_scalar (snd r)).
  { intros r. rewrite <- Hb, list_elem_of_omap. intros (v & Hv & Hr). unfold line_replacement in Hr.
    destruct (contains_percent_escape (lv_text v)); [|done]. cbn [negb] in Hr. destruct (percent_decode (lv_text v)) as [d|] eqn:Ed; [|done].
    injection Hr as <-. cbn [snd]. apply (percent_decode_scalar (lv_text v)); [|done].
    destruct (line_views_parts _ _ _ Hv) as (a & b & Heq). unfold split_inclusive in Heq. rewrite concat_split_inclusive in Heq. cbn [app] in Heq.
    rewrite Heq, !Forall_app in Hsc. tauto. }
  assert (Hin : (lv_start l, lv_end l, t) ∈ concat batches).
  { rewrite <- Hb. apply list_elem_of_omap. exists l. split; [done|]. unfold line_replacement. by rewrite Hlt, Hesc, Hdec. }
  destruct (elem_of_concat_Forall2 _ _ _ _ Hf Hin) as (batch & out & HR & Hx & Hbatch & Hout).
  destruct (batch_shows chunk $"url" batch out _ _ t HR Hx Ht Hclean Hsc) as (c & x & y & Hc & Hrest).
  { intros r Hr. apply Hall. apply list_elem_of_In, in_concat. exists batch. by rewrite <- !list_elem_of_In. }
  subst out. exists c, x, y. split; [|done]. unfold outputs_of, url_registered. cbn [reg_lawful decoder_outputs UrlDecoder_lawful lawful_from].
  unfold collected_outputs. cbn [decode_chunk_into UrlDecoder].
  assert (Hce : contains_percent_escape (data chunk) = true).
  { rewrite Hd. unfold contains_percent_escape. rewrite !as_bytes_app. by apply contains_escape_app. }
  rewrite Hce. cbn [negb]. rewrite Hs, push_all_vec. cbn. apply list_elem_of_In, in_concat. exists [c]. rewrite <- !list_elem_of_In. split; [done|by left].
Qed.

(** ** The pipeline *)

Lemma percent_escape_read ps t : Forall is_scalar t -> Forall2 (fun st c => octet_style_ok 37 st c = true) ps t ->
  percent_decode (percent_escape ps t) = Some t.
Proof. intros Ht Hp. unfold percent_decode. by rewrite percent_read, from_utf8_as_bytes. Qed.

(** A text that the detectors look for, and that shows as it is. *)
Record secret (targets : list bytes) (t : str) : Prop := {
  secret_scalar : Forall is_scalar t;
  secret_printable : forallb (fun c => negb (is_other_control c)) t = true;
  secret_targets : Forall (Forall (fun b => 0 <= b <= 255)) targets;
  secret_target : exists target, target ∈ targets /\ target <> [] /\ occurs_ci target (as_bytes t) }.

Lemma secret_nonempty targets t : secret targets t -> t <> [].
Proof.
  intros [_ _ _ (target & _ & Hne & a & w & b & Heq & Hw)] ->. symmetry in Heq. apply app_nil in Heq as [_ [-> _]%app_nil].
  by destruct target.
Qed.

Lemma secret_passes avx2 targets t c x y : secret targets t -> data c = x ++ t ++ y -> Forall is_scalar (data c) ->
  passes_screen (Some (screen_bytes avx2 (from_byte_slices targets))) c = true.
Proof.
  intros [Ht _ Hb (target & Hin & Hne & a & w & b & Heq & Hw)] Hd Hsc. cbn [passes_screen].
  apply (screen_admits avx2 targets (as_bytes (data c)) target); [done|by apply as_bytes_range|done..|].
  exists (as_bytes x ++ a), w, (b ++ as_bytes y). split; [|done]. by rewrite Hd, !as_bytes_app, Heq, <- !app_assoc.
Qed.

Lemma nul_byte_char s : 0 ∉ s -> 0 ∉ as_bytes s.
Proof. intros Hs Hin. apply Hs. by apply ascii_byte_char. Qed.

(** A chunk with a percent escape in it is explored under every plan. *)
Lemma escaped_explorable plan max_depth w : 0 < max_depth -> w_depth w = 0 -> contains_percent_escape (data (w_chunk w)) = true ->
  explorable plan max_depth w = true.
Proof.
  intros Hd Hw He. unfold explorable. rewrite (proj2 (Z.ltb_lt _ _)) by lia. destruct plan as [pl|]; [|done]. cbn [andb].
  apply contains_escape_opener in He. unfold all_decoder_may_match. destruct (has_all_decoder_trigger pl); [|done].
  apply existsb_exists. exists 37. split; [by apply list_elem_of_In|done].
Qed.


Definition sample_secret : str := $"k=AKIA99".
Definition sample_styles : list (option bool) := [None; None; Some true; None; None; None; None; Some false].
Definition sample_escaped_line : str := $"k=%41KIA9%39".
Definition sample_file : Chunk := mkChunk ($"x=1" ++ [10] ++ sample_escaped_line ++ [10] ++ $"y=2") sample_metadata.

Example sample_file_texts :
  (let! p := decode_chunk_with_decoders (fun _ => false) (Some (screen_bytes true (from_byte_slices [$"akia"]))) true sample_file
               (map reg_decoder sample_registry) sample_plan 2 in Ret (map data (decoded_chunks p), truncations p)) =
  Ret ([$"x=1" ++ [10] ++ sample_secret ++ [10] ++ $"y=2"], 0).
Proof. vm_compute. reflexivity. Qed.

Lemma sample_is_secret : secret [$"akia"] sample_secret.
Proof.
  split; [apply (bool_decide_eq_true_1 _); vm_compute; reflexivity|vm_compute; reflexivity|apply (bool_decide_eq_true_1 _); vm_compute; reflexivity|].
  exists $"akia". split_and!; [by left|done|]. exists $"k=", $"AKIA", $"99". done.
Qed.

Lemma sample_is_line : is_line ($"x=1" ++ [10]) (percent_escape sample_styles sample_secret) ([10] ++ $"y=2").
Proof. split_and!; [right; by exists $"x=1"|vm_compute; set_solver|done|right; by exists $"y=2"]. Qed.

