(* ===== verification/Spans.v ===== *)
(** * Interval indexes of match resolution ([crates/scanner/src/resolution.rs])

    [SpanIndex] answers containment and overlap over a fixed set of spans with
    prefix maxima and suffix minima; [KeptIntervalIndex] answers containment
    over a growing set with two bottom-up segment trees; [KeptEquivalentEvidence]
    answers overlap among occurrences of one credential.  Each is proved equal
    to a scan of the spans it holds.  Indices are [nat], offsets [Z]. *)

From S2P Require Import Prelude.

(** A span [start, end). *)
Abbreviation span := (Z * Z)%type.

Definition is_empty (s : span) : bool := snd s <=? fst s.

(** [slice::partition_point] on a partitioned slice: the length of the prefix
    that satisfies the predicate. *)
Fixpoint partition_point {A} (f : A -> bool) (l : list A) : nat :=
  match l with
  | [] => O
  | x :: l' => if f x then S (partition_point f l') else O
  end.

Definition start_cmp (a b : span) : comparison := Z.compare (fst a) (fst b).

(** ** [SpanIndex] *)

Record SpanIndex := mkSpanIndex { starts : list Z; prefix_max_end : list Z; suffix_min_end : list Z }.

Fixpoint running_max (running : Z) (spans : list span) : list Z :=
  match spans with
  | [] => []
  | s :: rest => let running := Z.max running (snd s) in running :: running_max running rest
  end.

(** The loop from the back: the minimum of each suffix. *)
Fixpoint suffix_min (spans : list span) : list Z :=
  match spans with
  | [] => []
  | s :: rest => Z.min (default usize_max (head (suffix_min rest))) (snd s) :: suffix_min rest
  end.

(** From spans already sorted by start; the order among equal starts is the
    sort's choice. *)
Definition from_sorted (spans : list span) : SpanIndex :=
  mkSpanIndex (map fst spans) (running_max 0 spans) (suffix_min spans).

Definition from_unsorted (spans : list span) : SpanIndex :=
  from_sorted (sort_by start_cmp (List.filter (fun s => negb (is_empty s)) spans)).

Definition span_index_contains (x : SpanIndex) (start end_ : Z) : bool :=
  if end_ <=? start then false
  else
    let count := partition_point (fun a => a <=? start) (starts x) in
    (0 <? count)%nat && (end_ <=? default 0 (prefix_max_end x !! (count - 1)%nat)).

Definition span_index_overlaps (x : SpanIndex) (start end_ : Z) : bool :=
  if end_ <=? start then false
  else
    let count := partition_point (fun a => a <? end_) (starts x) in
    (0 <? count)%nat && (start <? default 0 (prefix_max_end x !! (count - 1)%nat)).

Definition is_contained_by (x : SpanIndex) (start end_ : Z) : bool :=
  if end_ <=? start then false
  else
    let first := partition_point (fun a => a <? start) (starts x) in
    (first <? length (starts x))%nat && (default usize_max (suffix_min_end x !! first) <=? end_).

(** ** [KeptIntervalIndex] *)

(** [usize::next_power_of_two] *)
Definition next_power_of_two (n : nat) : nat := (2 ^ Nat.log2_up n)%nat.

(** [Vec::dedup] on a sorted vector. *)
Fixpoint dedup_sorted (l : list Z) : list Z :=
  match l with
  | x :: ((y :: _) as rest) => if x =? y then dedup_sorted rest else x :: dedup_sorted rest
  | _ => l
  end.

Record KeptIntervalIndex := mkKept { k_starts : list Z; leaf_count : nat; max_end : list Z; min_end : list Z }.

Definition kept_new (intervals : list span) : KeptIntervalIndex :=
  let ss := dedup_sorted (sort_by Z.compare (map fst (List.filter (fun s => negb (is_empty s)) intervals))) in
  let n := Nat.max (next_power_of_two (length ss)) 1 in
  mkKept ss n (replicate (n * 2) 0) (replicate (n * 2) usize_max).

(** One tree: [max_end] with [Z.max] and [min_end] with [Z.min]. *)
Section tree.
Context (op : Z -> Z -> Z) (unit_ : Z).

Definition node (t : list Z) (p : nat) : Z := default unit_ (t !! p).

(** [while position > 0]: recompute the ancestors. *)
Fixpoint climb (fuel : nat) (t : list Z) (position : nat) : list Z :=
  match fuel with
  | O => t
  | S fuel' =>
      if (0 <? position)%nat then
        climb fuel' (<[position := op (node t (position * 2)) (node t (position * 2 + 1))]> t) (position / 2)
      else t
  end.

Definition tree_insert (t : list Z) (position : nat) (v : Z) : list Z :=
  climb position (<[position := op (node t position) v]> t) (position / 2).

(** [while left < right] *)
Fixpoint range_loop (fuel : nat) (t : list Z) (acc : Z) (l r : nat) : Z :=
  match fuel with
  | O => acc
  | S fuel' =>
      if (l <? r)%nat then
        let '(acc, l) := if Nat.odd l then (op acc (node t l), S l) else (acc, l) in
        let '(acc, r) := if Nat.odd r then (op acc (node t (r - 1)), r - 1)%nat else (acc, r) in
        range_loop fuel' t acc (l / 2) (r / 2)
      else acc
  end.

Definition tree_range (t : list Z) (n l r : nat) : Z := range_loop (S (r + n)) t unit_ (l + n) (r + n).
End tree.

Definition kept_insert (x : KeptIntervalIndex) (s : span) : KeptIntervalIndex :=
  if is_empty s then x
  else
    let rank := partition_point (fun a => a <? fst s) (k_starts x) in
    let position := (leaf_count x + rank)%nat in
    mkKept (k_starts x) (leaf_count x)
      (tree_insert Z.max 0 (max_end x) position (snd s))
      (tree_insert Z.min usize_max (min_end x) position (snd s)).

Definition range_max_end (x : KeptIntervalIndex) (l r : nat) : Z := tree_range Z.max 0 (max_end x) (leaf_count x) l r.
Definition range_min_end (x : KeptIntervalIndex) (l r : nat) : Z := tree_range Z.min usize_max (min_end x) (leaf_count x) l r.

Definition has_containment_conflict (x : KeptIntervalIndex) (s : span) : bool :=
  if is_empty s then false
  else
    let starts_at_or_before := partition_point (fun a => a <=? fst s) (k_starts x) in
    if snd s <=? range_max_end x 0 starts_at_or_before then true
    else
      let first_start_at_or_after := partition_point (fun a => a <? fst s) (k_starts x) in
      range_min_end x first_start_at_or_after (length (k_starts x)) <=? snd s.

(** ** [KeptEquivalentEvidence] *)

(** The starts and ends of one credential's occurrences, a [BTreeMap]. *)
Abbreviation occurrences := (gmap Z Z).
Abbreviation KeptEquivalentEvidence := (gmap bytes (gmap str occurrences)).

Definition sorted_occurrences (m : occurrences) : list span := sort_by start_cmp (map_to_list m).

Definition occurrences_overlap (m : occurrences) (s : span) : bool :=
  let previous := last (List.filter (fun e => fst e <? fst s) (sorted_occurrences m)) in
  let next := head (List.filter (fun e => fst s <=? fst e) (sorted_occurrences m)) in
  match previous with Some e => fst s <? snd e | None => false end ||
  match next with Some e => fst e <? snd s | None => false end.

Definition equivalent_overlaps (x : KeptEquivalentEvidence) (hash : bytes) (credential : str) (s : span) : bool :=
  if is_empty s then false
  else match x !! hash ≫= (fun by_value => by_value !! credential) with
       | None => false
       | Some m => occurrences_overlap m s
       end.

Definition equivalent_insert (x : KeptEquivalentEvidence) (hash : bytes) (credential : str) (s : span) : KeptEquivalentEvidence :=
  if is_empty s then x
  else
    let by_value := default ∅ (x !! hash) in
    let m := default ∅ (by_value !! credential) in
    let end_ := match m !! fst s with Some e => Z.max e (snd s) | None => snd s end in
    <[hash := <[credential := <[fst s := end_]> m]> by_value]> x.

Example segment_tree_example :
  map (has_containment_conflict (foldl kept_insert (kept_new [(0, 4); (2, 9); (5, 6); (7, 20)]) [(2, 9); (5, 6)]))
    [(3, 8); (0, 10); (5, 7); (9, 12); (1, 5)] = [true; true; true; false; false].
Proof. by_eval. Qed.

(** ** Sorted spans *)

#[export] Instance start_cmp_laws : CmpLaws start_cmp.
Proof. change (CmpLaws (fun a b : span => Z.compare (fst a) (fst b))). solve_cmp_laws. Qed.

Definition by_start (a b : span) : Prop := fst a <= fst b.

Lemma partition_point_le {A} (f : A -> bool) l : (partition_point f l <= length l)%nat.
Proof. induction l as [|x l IH]; cbn; [lia|]. destruct (f x); lia. Qed.

(** A test that holds up to some start splits sorted spans at its partition point. *)
Lemma partition_point_split (f : Z -> bool) (l : list span) :
  StronglySorted by_start l -> (forall a b, a <= b -> f b = true -> f a = true) ->
  let n := partition_point f (map fst l) in
  (forall s, s ∈ take n l -> f (fst s) = true) /\ (forall s, s ∈ drop n l -> f (fst s) = false).
Proof.
  intros Hs Hf. cbv zeta. induction Hs as [|s l Hs IH Hall]; cbn [map partition_point].
  { split; intros s Hin; by apply not_elem_of_nil in Hin. }
  rewrite Forall_forall in Hall. destruct (f (fst s)) eqn:E; cbn [take drop].
  - destruct IH as [IH1 IH2]. split; [|exact IH2]. intros t [->|Ht]%elem_of_cons; auto.
  - split; [intros t Ht; by apply not_elem_of_nil in Ht|]. intros t [->|Ht]%elem_of_cons; [done|].
    apply not_true_iff_false. intros Ht'. specialize (Hf _ _ (Hall t Ht) Ht'). congruence.
Qed.

(** The spans that pass such a test are those before the partition point. *)
Lemma partition_point_elem (f : Z -> bool) (l : list span) s :
  StronglySorted by_start l -> (forall a b, a <= b -> f b = true -> f a = true) ->
  (s ∈ take (partition_point f (map fst l)) l <-> s ∈ l /\ f (fst s) = true) /\
  (s ∈ drop (partition_point f (map fst l)) l <-> s ∈ l /\ f (fst s) = false).
Proof.
  intros Hs Hf. destruct (partition_point_split f l Hs Hf) as [H1 H2]. set (n := partition_point f (map fst l)) in *.
  assert (Hl : s ∈ l <-> s ∈ take n l \/ s ∈ drop n l) by (rewrite <- elem_of_app, take_drop; done).
  specialize (H1 s). specialize (H2 s). rewrite Hl. split; (split; [intros Hin; auto|]).
  all: intros [[Hin|Hin] E]; [|].
  all: try done; first [specialize (H1 Hin) | specialize (H2 Hin)]; congruence.
Qed.

Lemma running_max_lookup r l i m :
  running_max r l !! i = Some m -> forall e, e <= m <-> e <= r \/ exists s, s ∈ take (S i) l /\ e <= snd s.
Proof.
  revert r i. induction l as [|s l IH]; intros r i; cbn [running_max]; [done|]. destruct i as [|i]; cbn [lookup list_lookup].
  - intros [= <-] e. cbn [take]. rewrite Z.max_le_iff. split; [|intros [?|(t & Ht & ?)]].
    + intros [?|?]; [by left|]. right. exists s. split; [by apply list_elem_of_singleton | done].
    + by left.
    + apply list_elem_of_singleton in Ht as ->. by right.
  - intros Hm e. change (take (S (S i)) (s :: l)) with (s :: take (S i) l). rewrite (IH _ _ Hm e), Z.max_le_iff.
    setoid_rewrite elem_of_cons. naive_solver.
Qed.

Lemma length_running_max r l : length (running_max r l) = length l.
Proof. revert r. induction l as [|s l IH]; intros r; cbn; by rewrite ?IH. Qed.

Lemma suffix_min_lookup l i m :
  suffix_min l !! i = Some m -> forall e, m <= e <-> usize_max <= e \/ exists s, s ∈ drop i l /\ snd s <= e.
Proof.
  revert i m. induction l as [|s l IH]; intros i m; cbn [suffix_min]; [done|]. destruct i as [|i]; cbn [lookup list_lookup drop]; [|apply IH].
  intros [= <-] e. rewrite Z.min_le_iff. setoid_rewrite elem_of_cons.
  destruct (suffix_min l) as [|m' ms] eqn:E; cbn [head from_option id].
  - destruct l; [|done]. setoid_rewrite elem_of_nil. naive_solver.
  - specialize (IH O m' eq_refl e). cbn [drop] in IH. unfold id in *. rewrite IH. naive_solver.
Qed.

Lemma length_suffix_min l : length (suffix_min l) = length l.
Proof. induction l as [|s l IH]; cbn; by rewrite ?IH. Qed.

(** The three queries on spans sorted by start. *)
Lemma from_sorted_queries l start end_ :
  StronglySorted by_start l -> Forall (fun s => snd s <= usize_max) l -> 0 <= start < end_ ->
  (span_index_contains (from_sorted l) start end_ = true <-> exists s, s ∈ l /\ fst s <= start /\ end_ <= snd s) /\
  (span_index_overlaps (from_sorted l) start end_ = true <-> exists s, s ∈ l /\ fst s < end_ /\ start < snd s) /\
  (is_contained_by (from_sorted l) start end_ = true <-> exists s, s ∈ l /\ start <= fst s /\ snd s <= end_).
Proof.
  intros Hs Hmax Hr. unfold span_index_contains, span_index_overlaps, is_contained_by. cbn [from_sorted starts prefix_max_end suffix_min_end].
  destruct (Z.leb_spec end_ start) as [|_]; [lia|].
  (* the prefix queries: a count of zero means no span qualifies *)
  assert (Hpre : forall f x, (forall a b, a <= b -> f b = true -> f a = true) -> 0 < x ->
    ((0 <? partition_point f (map fst l))%nat && (x <=? default 0 (running_max 0 l !! (partition_point f (map fst l) - 1)%nat)) = true <->
     exists s, s ∈ l /\ f (fst s) = true /\ x <= snd s)).
  { intros f x Hf Hx. pose proof (fun s => proj1 (partition_point_elem f l s Hs Hf)) as Hel.
    pose proof (partition_point_le f (map fst l)) as Hle. rewrite length_map in Hle. set (n := partition_point f (map fst l)) in *.
    rewrite andb_true_iff, Nat.ltb_lt, Z.leb_le. destruct n as [|n].
    - split; [lia|]. intros (s & Hin & Hfs & _). assert (Hn : s ∈ take 0 l) by (by apply Hel). by apply not_elem_of_nil in Hn.
    - replace (S n - 1)%nat with n by lia. destruct (lookup_lt_is_Some_2 (running_max 0 l) n) as [m Hm]; [rewrite length_running_max; lia|].
      rewrite Hm. cbn [from_option id]. rewrite (running_max_lookup _ _ _ _ Hm). setoid_rewrite Hel. split.
      + intros [_ [?|(s & [Hin Hfs] & Hx')]]; [lia|]. by exists s.
      + intros (s & Hin & Hfs & Hx'). split; [lia|]. right. by exists s. }
  split; [|split].
  - rewrite Hpre; [|intros a b; rewrite !Z.leb_le; lia | lia]. by setoid_rewrite Z.leb_le.
  - assert (Hlt : forall a b, (a <? b) = (a + 1 <=? b)) by (intros; apply eq_true_iff_eq; rewrite Z.ltb_lt, Z.leb_le; lia).
    rewrite Hlt, Hpre; [|intros a b; rewrite !Z.ltb_lt; lia | lia]. setoid_rewrite Z.ltb_lt.
    split; intros (s & Hin & Ha & Hb); exists s; (split; [done|lia]).
  - pose proof (fun s => proj2 (partition_point_elem (fun a => a <? start) l s Hs ltac:(intros a b; rewrite !Z.ltb_lt; lia))) as Hel.
    set (n := partition_point _ (map fst l)) in *. rewrite andb_true_iff, Nat.ltb_lt, Z.leb_le, length_map.
    assert (Hdrop : (n < length l)%nat <-> exists s, s ∈ drop n l).
    { split.
      - intros Hlt. destruct (lookup_lt_is_Some_2 l n Hlt) as [s Hsome]. exists s. apply list_elem_of_lookup. exists O. by rewrite lookup_drop, Nat.add_0_r.
      - intros (s & [j Hj]%list_elem_of_lookup). rewrite lookup_drop in Hj. apply lookup_lt_Some in Hj. lia. }
    destruct (decide (n < length l)%nat) as [Hlt|Hge].
    + destruct (lookup_lt_is_Some_2 (suffix_min l) n) as [m Hm]; [by rewrite length_suffix_min|].
      rewrite Hm. cbn [from_option id]. rewrite (suffix_min_lookup _ _ _ Hm). rewrite Forall_forall in Hmax. split.
      * intros [_ [Hbig|(s & Hin & He)]].
        { destruct (proj1 Hdrop Hlt) as [s Hin]. exists s. apply Hel in Hin as [Hin Hf]. apply Z.ltb_ge in Hf. specialize (Hmax s Hin). split; [done|lia]. }
        { exists s. apply Hel in Hin as [Hin Hf]. apply Z.ltb_ge in Hf. done. }
      * intros (s & Hin & Ha & He). split; [done|]. right. exists s. split; [|done]. apply Hel. split; [done|]. by apply Z.ltb_ge.
    + split; [lia|]. intros (s & Hin & Ha & He). exfalso. apply Hge, Hdrop. exists s. apply Hel. split; [done|]. by apply Z.ltb_ge.
Qed.

(** The span index answers its queries as a scan of the spans would: does a
    nonempty span contain the range, overlap it, lie inside it. *)
Lemma span_index_queries (spans : list span) (start end_ : Z) :
  Forall (fun s => snd s <= usize_max) spans -> 0 <= start < end_ ->
  let x := from_unsorted spans in
  (span_index_contains x start end_ = true <-> exists a b, (a, b) ∈ spans /\ a < b /\ a <= start /\ end_ <= b) /\
  (span_index_overlaps x start end_ = true <-> exists a b, (a, b) ∈ spans /\ a < b /\ a < end_ /\ start < b) /\
  (is_contained_by x start end_ = true <-> exists a b, (a, b) ∈ spans /\ a < b /\ start <= a /\ b <= end_).
Proof.
  intros Hmax Hr. cbv zeta. unfold from_unsorted. set (l := sort_by start_cmp _).
  assert (Hel : forall s, s ∈ l <-> s ∈ spans /\ fst s < snd s).
  { intros s. unfold l. rewrite elem_of_sort_by. rewrite list_elem_of_In, filter_In, <- list_elem_of_In. unfold is_empty.
    rewrite negb_true_iff, Z.leb_gt. done. }
  destruct (from_sorted_queries l start end_) as (H1 & H2 & H3); [| |done|].
  - eapply StronglySorted_weaken; [|apply (sort_by_sorted start_cmp)]. intros a b. unfold start_cmp, by_start. by rewrite Z.compare_gt_iff, Z.nlt_ge.
  - apply Forall_forall. intros s Hs. rewrite Forall_forall in Hmax. apply Hmax. by apply Hel.
  - split; [rewrite H1|split; [rewrite H2|rewrite H3]]; (split; [intros ([a b] & Hin & ?); apply Hel in Hin as [? ?]; by exists a, b|]);
      intros (a & b & Hin & Hne & ?); exists (a, b); (split; [by apply Hel | done]).
Qed.

(** ** Bottom-up segment trees *)

Section tree_laws.
Context (op : Z -> Z -> Z) (unit_ : Z) (dom : Z -> Prop).
Hypothesis op_assoc : forall x y z, op x (op y z) = op (op x y) z.
Hypothesis op_comm : forall x y, op x y = op y x.
Hypothesis op_unit : forall x, dom x -> op unit_ x = x.
Hypothesis dom_unit : dom unit_.
Hypothesis dom_op : forall x y, dom x -> dom y -> dom (op x y).

(** The combination of the cells from [a] to [b]. *)
Definition agg (t : list Z) (a b : nat) : Z := foldr op unit_ (take (b - a) (drop a t)).

Lemma dom_foldr l : Forall dom l -> dom (foldr op unit_ l).
Proof. induction 1; cbn; auto. Qed.

Lemma foldr_op_app l k : Forall dom l -> Forall dom k -> foldr op unit_ (l ++ k) = op (foldr op unit_ l) (foldr op unit_ k).
Proof.
  intros Hl Hk. induction Hl as [|x l Hx Hl IH]; cbn [app foldr]; [|by rewrite IH, op_assoc].
  by rewrite op_unit by (by apply dom_foldr).
Qed.

Lemma agg_split t a c b : Forall dom t -> (a <= c <= b)%nat -> agg t a b = op (agg t a c) (agg t c b).
Proof.
  intros Ht Hc. unfold agg. rewrite <- foldr_op_app by (by apply Forall_take, Forall_drop). f_equal.
  replace (b - a)%nat with ((c - a) + (b - c))%nat by lia. rewrite <- take_take_drop, drop_drop. do 3 f_equal. lia.
Qed.

Lemma dom_node t p : Forall dom t -> dom (node unit_ t p).
Proof.
  intros Ht. unfold node. destruct (t !! p) eqn:E; [|done]. cbn. by apply (Forall_lookup_1 _ _ _ _ Ht E).
Qed.

Lemma agg_single t a : Forall dom t -> (a < length t)%nat -> agg t a (a + 1) = node unit_ t a.
Proof.
  intros Ht Ha. unfold agg, node. destruct (lookup_lt_is_Some_2 t a Ha) as [x Hx]. rewrite (drop_S _ _ _ Hx), Hx.
  replace (a + 1 - a)%nat with 1%nat by lia. cbn. rewrite op_comm. apply op_unit. by apply (Forall_lookup_1 _ _ _ _ Ht Hx).
Qed.

Lemma agg_empty t a b : (b <= a)%nat -> agg t a b = unit_.
Proof. intros Hb. unfold agg. by replace (b - a)%nat with O by lia. Qed.

(** The cell of an inner node combines its children. *)
Definition sums (t : list Z) (p : nat) : Prop := node unit_ t p = op (node unit_ t (p * 2)) (node unit_ t (p * 2 + 1)).

Record tree_ok (h : nat) (t : list Z) : Prop := {
  t_len : length t = (2 ^ h * 2)%nat;
  t_dom : Forall dom t;
  t_sums : forall p, (1 <= p < 2 ^ h)%nat -> sums t p }.

(** A node at height [k] combines the [2 ^ k] leaves below it. *)
Lemma node_agg h t k p :
  tree_ok h t -> (k <= h)%nat -> (2 ^ (h - k) <= p < 2 ^ (h - k) * 2)%nat ->
  node unit_ t p = agg t (p * 2 ^ k) ((p + 1) * 2 ^ k).
Proof.
  intros Ht. revert p. induction k as [|k IH]; intros p Hk Hp.
  - rewrite Nat.sub_0_r in Hp. cbn [Nat.pow]. rewrite !Nat.mul_1_r. symmetry. apply agg_single; [apply Ht|]. rewrite (t_len _ _ Ht). lia.
  - assert (Hpow : (2 ^ (h - k) = 2 ^ (h - S k) * 2)%nat) by (replace (h - k)%nat with (S (h - S k)) by lia; cbn; lia).
    assert (Hle : (2 ^ (h - k) <= 2 ^ h)%nat) by (apply Nat.pow_le_mono_r; lia).
    assert (Hpos : (1 <= 2 ^ (h - S k))%nat) by (pose proof (Nat.pow_nonzero 2 (h - S k)); lia).
    rewrite (t_sums _ _ Ht p) by lia. rewrite !IH by lia.
    replace (p * 2 ^ S k)%nat with (p * 2 * 2 ^ k)%nat by (cbn; lia). replace ((p + 1) * 2 ^ S k)%nat with ((p * 2 + 1 + 1) * 2 ^ k)%nat by (cbn; lia).
    symmetry. apply agg_split; [apply Ht|]. nia.
Qed.

Lemma range_loop_agg h t fuel k acc l r :
  tree_ok h t -> dom acc -> (2 ^ h <= l * 2 ^ k)%nat -> (r * 2 ^ k <= 2 ^ h * 2)%nat -> (r < fuel)%nat ->
  range_loop op unit_ fuel t acc l r = op acc (agg t (l * 2 ^ k) (r * 2 ^ k)).
Proof.
  intros Ht. revert k acc l r. induction fuel as [|fuel IH]; intros k acc l r Ha Hl Hr Hf; [lia|]. cbn [range_loop].
  destruct (Nat.ltb_spec l r) as [Hlr|Hlr].
  2: { rewrite agg_empty by (apply Nat.mul_le_mono_r; lia). rewrite op_comm. symmetry. by apply op_unit. }
  assert (Hk : (k <= h)%nat).
  { destruct (Nat.le_gt_cases k h) as [|Hgt]; [done|]. exfalso.
    assert (2 ^ h * 2 <= 2 ^ k)%nat by (transitivity (2 ^ S h)%nat; [cbn; lia | apply Nat.pow_le_mono_r; lia]).
    pose proof (Nat.pow_nonzero 2 h). nia. }
  assert (Hpow : (2 ^ h = 2 ^ (h - k) * 2 ^ k)%nat) by (rewrite <- Nat.pow_add_r; f_equal; lia).
  assert (H2k : (2 ^ k <> 0)%nat) by (apply Nat.pow_nonzero; lia).
  assert (Hl' : (2 ^ (h - k) <= l)%nat) by nia. assert (Hr' : (r <= 2 ^ (h - k) * 2)%nat) by nia.
  assert (Hnode : forall p, (l <= p < r)%nat -> node unit_ t p = agg t (p * 2 ^ k) ((p + 1) * 2 ^ k)).
  { intros p Hp. apply (node_agg h); [done | done | lia]. }
  assert (Hsplit : forall a c b, (a <= c <= b)%nat -> agg t (a * 2 ^ k) (b * 2 ^ k) = op (agg t (a * 2 ^ k) (c * 2 ^ k)) (agg t (c * 2 ^ k) (b * 2 ^ k))).
  { intros a c b Hc. apply agg_split; [apply Ht|]. nia. }
  assert (Hnext : forall acc l1 r1, dom acc -> (l <= l1)%nat -> (r1 <= r)%nat -> Nat.even l1 = true -> Nat.even r1 = true ->
    range_loop op unit_ fuel t acc (l1 / 2) (r1 / 2) = op acc (agg t (l1 * 2 ^ k) (r1 * 2 ^ k))).
  { intros acc' l1 r1 Ha' Hl1 Hr1 [l2 El]%Nat.even_spec [r2 Er]%Nat.even_spec. subst l1 r1.
    rewrite !(Nat.mul_comm 2), !Nat.div_mul by lia. rewrite (IH (S k)); [| done | cbn; nia | cbn; nia | lia].
    do 2 f_equal; cbn; lia. }
  pose proof (dom_node t l (t_dom _ _ Ht)) as Dl. pose proof (dom_node t (r - 1) (t_dom _ _ Ht)) as Dr.
  rewrite <- !Nat.negb_even. destruct (Nat.even l) eqn:El, (Nat.even r) eqn:Er; cbn [negb].
  - apply Hnext; auto.
  - rewrite Hnext; [|auto|lia|lia|done|].
    2: { rewrite <- (Nat.succ_pred r) in Er by lia. rewrite Nat.even_succ, <- Nat.negb_even in Er. apply negb_false_iff in Er.
         by replace (r - 1)%nat with (Nat.pred r) by lia. }
    rewrite (Hsplit l (r - 1)%nat r) by lia. rewrite (Hnode (r - 1)%nat) by lia. replace (r - 1 + 1)%nat with r by lia.
    rewrite <- op_assoc. f_equal. apply op_comm.
  - rewrite Hnext; [|auto|lia|lia| |done].
    2: { rewrite Nat.even_succ, <- Nat.negb_even. by rewrite El. }
    rewrite (Hsplit l (S l) r) by lia. rewrite (Hnode l) by lia. replace (l + 1)%nat with (S l) by lia. by rewrite op_assoc.
  - assert (Hlr2 : (S l <= r - 1)%nat) by (destruct (decide (r = S l)) as [->|]; [rewrite Nat.even_succ, <- Nat.negb_even, El in Er; done | lia]).
    rewrite Hnext; [|auto|lia|lia| |].
    2: { rewrite Nat.even_succ, <- Nat.negb_even. by rewrite El. }
    2: { rewrite <- (Nat.succ_pred r) in Er by lia. rewrite Nat.even_succ, <- Nat.negb_even in Er. apply negb_false_iff in Er.
         by replace (r - 1)%nat with (Nat.pred r) by lia. }
    rewrite (Hsplit l (S l) r), (Hsplit (S l) (r - 1)%nat r) by lia. rewrite (Hnode l), (Hnode (r - 1)%nat) by lia.
    replace (r - 1 + 1)%nat with r by lia. replace (l + 1)%nat with (S l) by lia. rewrite <- !op_assoc. do 2 f_equal. apply op_comm.
Qed.

(** A range query combines the leaves of the range. *)
Lemma tree_range_agg h t l r :
  tree_ok h t -> (r <= 2 ^ h)%nat -> tree_range op unit_ t (2 ^ h) l r = agg t (l + 2 ^ h) (r + 2 ^ h).
Proof.
  intros Ht Hr. unfold tree_range. rewrite (range_loop_agg h t _ 0) by (try done; cbn; lia).
  rewrite !Nat.mul_1_r. apply op_unit. unfold agg. apply dom_foldr, Forall_take, Forall_drop, Ht.
Qed.

(** ** Insertion *)

Definition ancestor (q p : nat) : Prop := exists k, p = (q / 2 ^ k)%nat.

Lemma node_insert t q v p : (q < length t)%nat -> node unit_ (<[q := v]> t) p = if decide (p = q) then v else node unit_ t p.
Proof.
  intros Hq. unfold node. destruct (decide (p = q)) as [->|Hne]; [by rewrite list_lookup_insert_eq|]. by rewrite list_lookup_insert_ne.
Qed.

Lemma climb_ok h fuel t q :
  (q < 2 ^ h)%nat -> (q <= fuel)%nat -> length t = (2 ^ h * 2)%nat -> Forall dom t ->
  (forall p, (1 <= p < 2 ^ h)%nat -> sums t p \/ ancestor q p) ->
  tree_ok h (climb op unit_ fuel t q) /\ forall j, (2 ^ h <= j)%nat -> climb op unit_ fuel t q !! j = t !! j.
Proof.
  revert t q. induction fuel as [|fuel IH]; intros t q Hq Hfuel Hlen Hdom Hsum; cbn [climb].
  - split; [|done]. split; [done | done |]. intros p Hp. destruct (Hsum p Hp) as [|[k ->]]; [done|]. exfalso.
    assert (q = O) as -> by lia. rewrite Nat.Div0.div_0_l in Hp. lia.
  - destruct (Nat.ltb_spec 0 q) as [Hpos|Hz].
    2: { split; [|done]. split; [done | done |]. intros p Hp. destruct (Hsum p Hp) as [|[k ->]]; [done|]. exfalso.
         assert (q = O) as -> by lia. rewrite Nat.Div0.div_0_l in Hp. lia. }
    set (t' := <[q := _]> t). assert (Hlt : (q < length t)%nat) by lia.
    destruct (IH t' (q / 2)%nat) as [Hok Hleaf].
    + apply Nat.Div0.div_lt_upper_bound. lia.
    + pose proof (Nat.div_lt q 2). lia.
    + unfold t'. by rewrite length_insert.
    + apply Forall_insert; [done|]. apply dom_op; by apply dom_node.
    + intros p Hp. destruct (decide (p = q)) as [->|Hne].
      { left. unfold sums, t'. rewrite !node_insert by done. rewrite decide_True by done. rewrite !decide_False by lia. done. }
      destruct (decide (p = q / 2)%nat) as [->|Hne2]; [right; exists O; by rewrite Nat.div_1_r|].
      destruct (Hsum p Hp) as [Hs|[[|k] ->]].
      * left. unfold sums, t'. rewrite !node_insert by done.
        assert (p * 2 <> q /\ p * 2 + 1 <> q)%nat as [? ?].
        { split; intros <-; apply Hne2; [by rewrite Nat.div_mul | apply (Nat.div_unique _ _ p 1); lia]. }
        by rewrite !decide_False.
      * by rewrite Nat.div_1_r in Hne.
      * right. exists k. rewrite Nat.pow_succ_r', Nat.Div0.div_div. done.
    + split; [done|]. intros j Hj. rewrite (Hleaf j Hj). unfold t'. by rewrite list_lookup_insert_ne by lia.
Qed.

(** Inserting at a leaf combines the value into that leaf and no other. *)
Lemma tree_insert_ok h t i v :
  tree_ok h t -> dom v -> (i < 2 ^ h)%nat ->
  tree_ok h (tree_insert op unit_ t (2 ^ h + i) v) /\
  forall j, (j < 2 ^ h)%nat -> node unit_ (tree_insert op unit_ t (2 ^ h + i) v) (2 ^ h + j) =
    if decide (j = i) then op (node unit_ t (2 ^ h + i)) v else node unit_ t (2 ^ h + j).
Proof.
  intros Ht Hv Hi. unfold tree_insert. set (t0 := <[_ := _]> t). pose proof (t_len _ _ Ht) as Hlen.
  assert (Hpos : (2 ^ h <> 0)%nat) by (apply Nat.pow_nonzero; lia).
  destruct (climb_ok h (2 ^ h + i) t0 ((2 ^ h + i) / 2)) as [Hok Hleaf].
  - apply Nat.Div0.div_lt_upper_bound. lia.
  - apply Nat.Div0.div_le_upper_bound. lia.
  - unfold t0. by rewrite length_insert.
  - apply Forall_insert; [apply Ht|]. apply dom_op; [apply dom_node, Ht | done].
  - intros p Hp. destruct (decide (p = (2 ^ h + i) / 2)%nat) as [->|Hne]; [right; exists O; by rewrite Nat.div_1_r|].
    left. pose proof (t_sums _ _ Ht p Hp) as Hs. unfold sums, t0 in *. rewrite !node_insert by lia.
    assert (p * 2 <> 2 ^ h + i /\ p * 2 + 1 <> 2 ^ h + i)%nat as [? ?].
    { split; intros He; apply Hne; rewrite <- He; [by rewrite Nat.div_mul | apply (Nat.div_unique _ _ p 1); lia]. }
    by rewrite !decide_False by lia.
  - split; [done|]. intros j Hj. unfold node at 1. rewrite Hleaf by lia. fold (node unit_ t0 (2 ^ h + j)). unfold t0. rewrite node_insert by lia.
    destruct (decide (j = i)) as [->|Hne]; [by rewrite decide_True|]. by rewrite decide_False by lia.
Qed.

End tree_laws.

(** ** The kept intervals *)

Lemma agg_max t a b e : 0 < e -> e <= agg Z.max 0 t a b <-> exists i, (a <= i < b)%nat /\ (i < length t)%nat /\ e <= node 0 t i.
Proof.
  intros He. unfold agg. assert (Hf : forall l, e <= foldr Z.max 0 l <-> exists x, x ∈ l /\ e <= x).
  { induction l as [|x l IH]; cbn [foldr]; [setoid_rewrite elem_of_nil; split; [lia | naive_solver]|].
    rewrite Z.max_le_iff, IH. setoid_rewrite elem_of_cons. naive_solver. }
  rewrite Hf. split.
  - intros (x & [j Hj]%list_elem_of_lookup & Hx). apply lookup_take_Some in Hj as [Hj Hlt]. rewrite lookup_drop in Hj.
    exists (a + j)%nat. split; [lia|]. split; [by apply lookup_lt_Some in Hj|]. unfold node. by rewrite Hj.
  - intros (i & Hi & Hlt & Hx). destruct (lookup_lt_is_Some_2 t i Hlt) as [x Ex]. unfold node in Hx. rewrite Ex in Hx. exists x. split; [|done].
    apply list_elem_of_lookup. exists (i - a)%nat. apply lookup_take_Some. rewrite lookup_drop. split; [|lia]. rewrite <- Ex. f_equal. lia.
Qed.

Lemma agg_min t a b e : e < usize_max -> agg Z.min usize_max t a b <= e <-> exists i, (a <= i < b)%nat /\ (i < length t)%nat /\ node usize_max t i <= e.
Proof.
  intros He. unfold agg. assert (Hf : forall l, foldr Z.min usize_max l <= e <-> exists x, x ∈ l /\ x <= e).
  { induction l as [|x l IH]; cbn [foldr]; [setoid_rewrite elem_of_nil; split; [lia | naive_solver]|].
    rewrite Z.min_le_iff, IH. setoid_rewrite elem_of_cons. naive_solver. }
  rewrite Hf. split.
  - intros (x & [j Hj]%list_elem_of_lookup & Hx). apply lookup_take_Some in Hj as [Hj Hlt]. rewrite lookup_drop in Hj.
    exists (a + j)%nat. split; [lia|]. split; [by apply lookup_lt_Some in Hj|]. unfold node. by rewrite Hj.
  - intros (i & Hi & Hlt & Hx). destruct (lookup_lt_is_Some_2 t i Hlt) as [x Ex]. unfold node in Hx. rewrite Ex in Hx. exists x. split; [|done].
    apply list_elem_of_lookup. exists (i - a)%nat. apply lookup_take_Some. rewrite lookup_drop. split; [|lia]. rewrite <- Ex. f_equal. lia.
Qed.

Abbreviation max_ok := (tree_ok Z.max 0 (fun x => 0 <= x)).
Abbreviation min_ok := (tree_ok Z.min usize_max (fun x => x <= usize_max)).

(** What an index over [starts] holds after inserting [kept]. *)
Record kept_ok (x : KeptIntervalIndex) (h : nat) (kept : list span) : Prop := {
  ko_sorted : StronglySorted Z.lt (k_starts x);
  ko_leaves : leaf_count x = (2 ^ h)%nat;
  ko_fits : (length (k_starts x) <= 2 ^ h)%nat;
  ko_max : max_ok h (max_end x);
  ko_min : min_ok h (min_end x);
  ko_spans : Forall (fun s => 0 <= fst s < snd s /\ snd s <= usize_max /\ fst s ∈ k_starts x) kept;
  ko_max_leaf : forall i e, (i < 2 ^ h)%nat -> 0 < e ->
    e <= node 0 (max_end x) (2 ^ h + i) <-> exists s, s ∈ kept /\ k_starts x !! i = Some (fst s) /\ e <= snd s;
  ko_min_leaf : forall i e, (i < 2 ^ h)%nat -> e < usize_max ->
    node usize_max (min_end x) (2 ^ h + i) <= e <-> exists s, s ∈ kept /\ k_starts x !! i = Some (fst s) /\ snd s <= e }.

(** In a strictly sorted list the partition point separates by value. *)
Lemma partition_point_lt (f : Z -> bool) l i a :
  StronglySorted Z.lt l -> (forall a b, a <= b -> f b = true -> f a = true) -> l !! i = Some a ->
  (i < partition_point f l)%nat <-> f a = true.
Proof.
  intros Hs Hf. revert i. induction Hs as [|x l Hs IH Hall]; intros i; [done|]. cbn [partition_point]. destruct i as [|i]; cbn [lookup list_lookup].
  - intros [= ->]. destruct (f a); split; try done; lia.
  - intros Hi. destruct (f x) eqn:Ex; [rewrite <- (IH i Hi); lia|]. split; [lia|]. intros Ha. rewrite Forall_forall in Hall.
    assert (x < a) by (apply Hall; by eapply list_elem_of_lookup_2). rewrite (Hf x a) in Ex by (done || lia). done.
Qed.

Lemma rank_of l a : StronglySorted Z.lt l -> a ∈ l -> l !! partition_point (fun b => b <? a) l = Some a.
Proof.
  intros Hs [i Hi]%list_elem_of_lookup. set (f := fun b => b <? a).
  assert (Hf : forall u v, u <= v -> f v = true -> f u = true) by (intros u v; unfold f; rewrite !Z.ltb_lt; lia).
  assert (Hnot : ~ (i < partition_point f l)%nat) by (rewrite (partition_point_lt f l i a Hs Hf Hi); unfold f; rewrite Z.ltb_lt; lia).
  destruct (decide (i = partition_point f l)) as [<-|Hne]; [done|]. exfalso.
  assert (Hlt : (partition_point f l < i)%nat) by lia. pose proof (lookup_lt_Some _ _ _ Hi) as Hil.
  destruct (lookup_lt_is_Some_2 l (partition_point f l)) as [b Hb]; [lia|].
  assert (Hba : b < a) by exact (StronglySorted_lookup_lt _ _ _ _ _ _ Hs Hb Hi Hlt).
  pose proof (proj2 (partition_point_lt f l _ b Hs Hf Hb)) as Hc. unfold f in Hc at 1. rewrite Z.ltb_lt in Hc. specialize (Hc Hba). lia.
Qed.

Lemma dedup_sorted_spec l : StronglySorted Z.le l -> StronglySorted Z.lt (dedup_sorted l) /\ forall a, a ∈ dedup_sorted l <-> a ∈ l.
Proof.
  induction 1 as [|x l Hs [IH1 IH2] Hall]; [split; [constructor | done]|]. destruct l as [|y l].
  { split; [repeat constructor | done]. }
  change (dedup_sorted (x :: y :: l)) with (if x =? y then dedup_sorted (y :: l) else x :: dedup_sorted (y :: l)).
  destruct (Z.eqb_spec x y) as [->|Hne].
  - split; [done|]. intros a. rewrite IH2, !elem_of_cons. naive_solver.
  - split.
    + constructor; [done|]. apply Forall_forall. intros a Ha. apply IH2 in Ha. rewrite Forall_forall in Hall.
      pose proof (Hall y ltac:(left)). apply elem_of_cons in Ha as [->|Ha]; [lia|].
      apply StronglySorted_inv in Hs as [_ Hy]. rewrite Forall_forall in Hy. specialize (Hy a Ha). lia.
    + intros a. rewrite !(elem_of_cons _ _ x), IH2. done.
Qed.

Lemma replicate_tree_ok op unit_ (dom : Z -> Prop) h :
  op unit_ unit_ = unit_ -> dom unit_ -> tree_ok op unit_ dom h (replicate (2 ^ h * 2) unit_).
Proof.
  intros Hu Hd. assert (Hn : forall p, node unit_ (replicate (2 ^ h * 2) unit_) p = unit_).
  { intros p. unfold node. destruct (_ !! p) eqn:E; [|done]. by apply lookup_replicate in E as [-> _]. }
  split; [apply length_replicate | by apply Forall_replicate |]. intros p Hp. unfold sums. by rewrite !Hn.
Qed.

Lemma kept_new_ok intervals : exists h, kept_ok (kept_new intervals) h [] /\
  forall s, s ∈ intervals -> is_empty s = false -> fst s ∈ k_starts (kept_new intervals).
Proof.
  unfold kept_new. set (ss := dedup_sorted _). set (n := Nat.max _ 1).
  assert (Hn : n = (2 ^ Nat.log2_up (length ss))%nat).
  { unfold n, next_power_of_two. pose proof (Nat.pow_nonzero 2 (Nat.log2_up (length ss))). lia. }
  destruct (dedup_sorted_spec (sort_by Z.compare (map fst (List.filter (fun s => negb (is_empty s)) intervals)))) as [Hs Hel].
  { eapply StronglySorted_weaken; [|apply (sort_by_sorted Z.compare)]. intros a b. cbn. by rewrite Z.compare_gt_iff, Z.nlt_ge. }
  exists (Nat.log2_up (length ss)). split.
  - rewrite Hn. split; cbn [k_starts leaf_count max_end min_end]; try done.
    + destruct (length ss) as [|k]; [lia|]. apply Nat.log2_log2_up_spec. lia.
    + by apply replicate_tree_ok.
    + by apply replicate_tree_ok.
    + intros i e Hi He. unfold node. rewrite lookup_replicate_2 by lia. cbn. setoid_rewrite elem_of_nil. split; [lia | naive_solver].
    + intros i e Hi He. unfold node. rewrite lookup_replicate_2 by lia. cbn [from_option id]. unfold id. setoid_rewrite elem_of_nil. split; [lia | naive_solver].
  - intros s Hin He. cbn [k_starts]. apply Hel, elem_of_sort_by. apply list_elem_of_fmap_2. apply list_elem_of_In, filter_In.
    split; [by apply list_elem_of_In | by rewrite He].
Qed.

Lemma kept_insert_ok x h kept s :
  kept_ok x h kept -> is_empty s = false -> 0 <= fst s -> snd s <= usize_max -> fst s ∈ k_starts x -> kept_ok (kept_insert x s) h (s :: kept).
Proof.
  intros [Hs Hlv Hfit Hmx Hmn Hsp Hml Hnl] Hne H0 Hmax Hin. unfold kept_insert. rewrite Hne.
  assert (Hlt : fst s < snd s) by (unfold is_empty in Hne; apply Z.leb_gt in Hne; done).
  set (rank := partition_point _ (k_starts x)). assert (Hrank : k_starts x !! rank = Some (fst s)) by (by apply rank_of).
  assert (Hr : (rank < 2 ^ h)%nat) by (apply lookup_lt_Some in Hrank; lia).
  destruct (tree_insert_ok Z.max 0 (fun z => 0 <= z) ltac:(cbn; lia) ltac:(cbn; lia) h (max_end x) rank (snd s) Hmx ltac:(cbn; lia) Hr) as [Hmx' Hleaf1].
  destruct (tree_insert_ok Z.min usize_max (fun z => z <= usize_max) ltac:(cbn; lia) ltac:(cbn; lia) h (min_end x) rank (snd s) Hmn ltac:(cbn; lia) Hr) as [Hmn' Hleaf2].
  rewrite Hlv. split; cbn [k_starts leaf_count max_end min_end]; try done.
  - constructor; [done | exact Hsp].
  - intros i e Hi He. rewrite Hleaf1 by done. setoid_rewrite elem_of_cons. destruct (decide (i = rank)) as [->|Hir].
    + rewrite Z.max_le_iff, Hml by done. split.
      * intros [(s' & Hs' & Hst)|Hle]; [exists s'; split; [by right | done]|]. exists s. split; [by left | done].
      * intros (s' & [->|Hs'] & Hst & Hle); [by right|]. left. by exists s'.
    + rewrite Hml by done. split; [intros (s' & Hs' & Hst); exists s'; split; [by right | done]|]. intros (s' & [->|Hs'] & Hst & Hle); [|by exists s'].
      exfalso. apply Hir. by apply (StronglySorted_lt_lookup_inj (k_starts x) i rank (fst s)).
  - intros i e Hi He. rewrite Hleaf2 by done. setoid_rewrite elem_of_cons. destruct (decide (i = rank)) as [->|Hir].
    + rewrite Z.min_le_iff, Hnl by done. split.
      * intros [(s' & Hs' & Hst)|Hle]; [exists s'; split; [by right | done]|]. exists s. split; [by left | done].
      * intros (s' & [->|Hs'] & Hst & Hle); [by right|]. left. by exists s'.
    + rewrite Hnl by done. split; [intros (s' & Hs' & Hst); exists s'; split; [by right | done]|]. intros (s' & [->|Hs'] & Hst & Hle); [|by exists s'].
      exfalso. apply Hir. by apply (StronglySorted_lt_lookup_inj (k_starts x) i rank (fst s)).
Qed.

(** A conflict is a kept interval that contains the query or lies inside it. *)
Lemma containment_conflict_spec x h kept s :
  kept_ok x h kept -> 0 <= fst s < snd s -> snd s < usize_max ->
  has_containment_conflict x s = true <->
  exists k, k ∈ kept /\ (fst k <= fst s /\ snd s <= snd k \/ fst s <= fst k /\ snd k <= snd s).
Proof.
  intros [Hs Hlv Hfit Hmx Hmn Hsp Hml Hnl] Hr Hmax. unfold has_containment_conflict, is_empty. destruct (Z.leb_spec (snd s) (fst s)) as [|_]; [lia|].
  unfold range_max_end, range_min_end. rewrite Hlv. pose proof (partition_point_le (fun a => a <=? fst s) (k_starts x)) as Hle.
  rewrite (tree_range_agg Z.max 0 (fun z => 0 <= z)) by (try done; lia). rewrite (tree_range_agg Z.min usize_max (fun z => z <= usize_max)) by (try done; lia).
  assert (Hin : forall k, k ∈ kept -> exists i, k_starts x !! i = Some (fst k) /\ (i < 2 ^ h)%nat).
  { intros k Hk. rewrite Forall_forall in Hsp. destruct (Hsp k Hk) as (_ & _ & [i Hi]%list_elem_of_lookup). exists i. split; [done|].
    apply lookup_lt_Some in Hi. lia. }
  assert (Hbefore : snd s <= agg Z.max 0 (max_end x) (0 + 2 ^ h) (partition_point (fun a => a <=? fst s) (k_starts x) + 2 ^ h) <->
    exists k, k ∈ kept /\ fst k <= fst s /\ snd s <= snd k).
  { rewrite agg_max by lia. split.
    - intros (j & Hj & _ & Hle'). replace j with (2 ^ h + (j - 2 ^ h))%nat in Hle' by lia. apply Hml in Hle' as (k & Hk & Hst & Hle'); [|lia|lia].
      exists k. split; [done|]. split; [|done]. apply Z.leb_le. apply (partition_point_lt (fun a => a <=? fst s) (k_starts x) (j - 2 ^ h)); [done | | done | lia].
      intros a b. rewrite !Z.leb_le. lia.
    - intros (k & Hk & Ha & Hb). destruct (Hin k Hk) as (i & Hi & Hih). exists (2 ^ h + i)%nat.
      assert (Hip : (i < partition_point (fun a => (a <=? fst s)%Z) (k_starts x))%nat).
      { apply (partition_point_lt _ _ _ (fst k) Hs); [intros a b; rewrite !Z.leb_le; lia | done | by apply Z.leb_le]. }
      split; [lia|]. rewrite (t_len _ _ _ _ _ Hmx). split; [lia|]. apply Hml; [done | lia | by exists k]. }
  assert (Hafter : agg Z.min usize_max (min_end x) (partition_point (fun a => a <? fst s) (k_starts x) + 2 ^ h) (length (k_starts x) + 2 ^ h) <= snd s <->
    exists k, k ∈ kept /\ fst s <= fst k /\ snd k <= snd s).
  { rewrite agg_min by lia. assert (Hf : forall a b, a <= b -> (b <? fst s) = true -> (a <? fst s) = true) by (intros a b; rewrite !Z.ltb_lt; lia). split.
    - intros (j & Hj & _ & Hle'). replace j with (2 ^ h + (j - 2 ^ h))%nat in Hle' by lia. apply Hnl in Hle' as (k & Hk & Hst & Hle'); [|lia|lia].
      exists k. split; [done|]. split; [|done]. apply Z.nlt_ge. intros Hlt%Z.ltb_lt.
      apply (partition_point_lt (fun a => a <? fst s) (k_starts x) (j - 2 ^ h) _ Hs Hf Hst) in Hlt. lia.
    - intros (k & Hk & Ha & Hb). destruct (Hin k Hk) as (i & Hi & Hih). exists (2 ^ h + i)%nat.
      assert (Hip : ~ (i < partition_point (fun a => (a <? fst s)%Z) (k_starts x))%nat) by (rewrite (partition_point_lt _ _ _ (fst k) Hs Hf Hi), Z.ltb_lt; lia).
      apply lookup_lt_Some in Hi as Hil. split; [lia|]. rewrite (t_len _ _ _ _ _ Hmn). split; [lia|]. apply Hnl; [done | lia | by exists k]. }
  destruct (Z.leb_spec (snd s) (agg Z.max 0 (max_end x) (0 + 2 ^ h) (partition_point (fun a => a <=? fst s) (k_starts x) + 2 ^ h))) as [H1|H1].
  - split; [intros _|done]. apply Hbefore in H1 as (k & Hk & H1). exists k. split; [done | by left].
  - rewrite Z.leb_le, Hafter. split; [intros (k & Hk & H2); exists k; split; [done | by right]|].
    intros (k & Hk & [H2|H2]); [|by exists k]. exfalso. apply (proj1 (Z.lt_nge _ _) H1), Hbefore. by exists k.
Qed.

(** ** Occurrences of one credential *)

Lemma elem_of_sorted_occurrences m e : e ∈ sorted_occurrences m <-> m !! fst e = Some (snd e).
Proof. unfold sorted_occurrences. rewrite elem_of_sort_by. destruct e as [a b]. by rewrite elem_of_map_to_list. Qed.

Lemma sorted_occurrences_sorted m : StronglySorted by_start (sorted_occurrences m).
Proof.
  eapply StronglySorted_weaken; [|apply (sort_by_sorted start_cmp)]. intros a b. unfold start_cmp, by_start. by rewrite Z.compare_gt_iff, Z.nlt_ge.
Qed.

Lemma last_sorted l (e : span) : StronglySorted by_start l -> last l = Some e -> forall e', e' ∈ l -> fst e' <= fst e.
Proof.
  intros Hs Hl e' He'. apply last_Some in Hl as [l' ->]. apply StronglySorted_app in Hs as (Hx & _ & _).
  apply elem_of_app in He' as [He'|He'%list_elem_of_singleton]; [|by subst]. apply (Hx e' e He'). by apply list_elem_of_singleton.
Qed.

Lemma head_sorted l (e : span) : StronglySorted by_start l -> head l = Some e -> forall e', e' ∈ l -> fst e <= fst e'.
Proof.
  intros Hs Hl e' He'. destruct l as [|x l]; [done|]. injection Hl as ->. apply StronglySorted_inv in Hs as [_ Hs].
  apply elem_of_cons in He' as [->|He']; [lia|]. rewrite Forall_forall in Hs. by apply Hs.
Qed.

(** When all ends are the same distance from their starts, up to saturation,
    the two neighbours of the query decide whether anything overlaps it. *)
Lemma occurrences_overlap_spec m len s :
  0 <= len -> (forall a b, m !! a = Some b -> b = saturating_add usize_max a len /\ a < b) -> fst s < snd s ->
  occurrences_overlap m s = true <-> exists a b, m !! a = Some b /\ a < snd s /\ fst s < b.
Proof.
  intros Hlen Hends Hne. unfold occurrences_overlap.
  set (before := List.filter (fun e => fst e <? fst s) (sorted_occurrences m)). set (after := List.filter (fun e => fst s <=? fst e) (sorted_occurrences m)).
  assert (Hb : forall e, e ∈ before <-> m !! fst e = Some (snd e) /\ fst e < fst s).
  { intros e. unfold before. rewrite list_elem_of_In, filter_In, <- list_elem_of_In, elem_of_sorted_occurrences, Z.ltb_lt. done. }
  assert (Ha : forall e, e ∈ after <-> m !! fst e = Some (snd e) /\ fst s <= fst e).
  { intros e. unfold after. rewrite list_elem_of_In, filter_In, <- list_elem_of_In, elem_of_sorted_occurrences, Z.leb_le. done. }
  pose proof (filter_sorted by_start (fun e => fst e <? fst s) _ (sorted_occurrences_sorted m)) as Sb.
  pose proof (filter_sorted by_start (fun e => fst s <=? fst e) _ (sorted_occurrences_sorted m)) as Sa. fold before in Sb. fold after in Sa.
  assert (Hmono : forall a b a' b', m !! a = Some b -> m !! a' = Some b' -> a <= a' -> b <= b').
  { intros a b a' b' H1 H2 Hle. destruct (Hends _ _ H1) as [-> _], (Hends _ _ H2) as [-> _]. unfold saturating_add. lia. }
  rewrite orb_true_iff. split.
  - intros [Hp|Hn].
    + destruct (last before) as [e|] eqn:El; [|done]. apply Z.ltb_lt in Hp. assert (He : e ∈ before) by (apply last_Some in El as [l' ->]; apply elem_of_app; right; by apply list_elem_of_singleton).
      apply Hb in He as [He Hlt]. exists (fst e), (snd e). split; [done|]. lia.
    + destruct (head after) as [e|] eqn:Eh; [|done]. apply Z.ltb_lt in Hn. assert (He : e ∈ after) by (destruct after; [done|]; injection Eh as ->; left).
      apply Ha in He as [He Hle]. exists (fst e), (snd e). split; [done|]. split; [done|].
      destruct (Hends _ _ He) as [_ Hab]. lia.
  - intros (a & b & Hm & Hlt & Hgt). destruct (Z.lt_ge_cases a (fst s)) as [Has|Has].
    + left. assert (He : (a, b) ∈ before) by (by apply Hb). destruct (last before) as [e|] eqn:El.
      * pose proof (last_sorted before e Sb El (a, b) He) as Hle. assert (Hin : e ∈ before) by (apply last_Some in El as [l' ->]; apply elem_of_app; right; by apply list_elem_of_singleton).
        apply Hb in Hin as [Hin _]. apply Z.ltb_lt. pose proof (Hmono _ _ _ _ Hm Hin Hle). lia.
      * apply last_None in El. rewrite El in He. by apply not_elem_of_nil in He.
    + right. assert (He : (a, b) ∈ after) by (by apply Ha). destruct (head after) as [e|] eqn:Eh.
      * pose proof (head_sorted after e Sa Eh (a, b) He) as Hle. apply Z.ltb_lt. cbn in Hle. lia.
      * destruct after; [by apply not_elem_of_nil in He | done].
Qed.

(** An occurrence: its credential's hash and text, and its span. *)
Record occurrence := mkOcc { o_hash : bytes; o_credential : str; o_span : span }.

Definition occurrence_ok (o : occurrence) : Prop :=
  snd (o_span o) = saturating_add usize_max (fst (o_span o)) (str_len (o_credential o)) /\ fst (o_span o) < snd (o_span o).

Definition ends_at (x : KeptEquivalentEvidence) (hash : bytes) (credential : str) (a : Z) : option Z :=
  (x !! hash ≫= (fun by_value : gmap str occurrences => by_value !! credential)) ≫= (fun m : occurrences => m !! a).

Definition equivalent_ok (x : KeptEquivalentEvidence) (kept : list occurrence) : Prop :=
  Forall occurrence_ok kept /\
  forall hash credential a b, ends_at x hash credential a = Some b <-> mkOcc hash credential (a, b) ∈ kept.

Lemma equivalent_empty_ok : equivalent_ok ∅ [].
Proof. split; [constructor|]. intros. unfold ends_at. rewrite lookup_empty. cbn. split; [done|]. intros Hin. by apply not_elem_of_nil in Hin. Qed.

Lemma equivalent_insert_ok x kept o :
  equivalent_ok x kept -> occurrence_ok o -> equivalent_ok (equivalent_insert x (o_hash o) (o_credential o) (o_span o)) (o :: kept).
Proof.
  intros [Hall Hx] Ho. split; [by constructor|]. destruct o as [h c [a b]]. destruct Ho as [Hb Hlt]. cbn [o_hash o_credential o_span fst snd] in *.
  unfold equivalent_insert, is_empty. cbn [fst snd]. destruct (Z.leb_spec b a) as [|_]; [lia|].
  set (by_value := default ∅ (x !! h)). set (m := default ∅ (by_value !! c)).
  assert (Hm : forall a', m !! a' = ends_at x h c a').
  { intros a'. unfold m, by_value, ends_at. destruct (x !! h) as [bv|]; cbn; [|by rewrite lookup_empty; cbn; rewrite lookup_empty].
    destruct (bv !! c); cbn; [done | by rewrite lookup_empty]. }
  assert (Hend : match m !! a with Some e => Z.max e b | None => b end = b).
  { rewrite Hm. destruct (ends_at x h c a) as [e|] eqn:E; [|done]. apply Hx in E. rewrite Forall_forall in Hall. destruct (Hall _ E) as [He _].
    cbn in He. lia. }
  rewrite Hend. intros h' c' a' b'. rewrite elem_of_cons, <- Hx. unfold ends_at at 1.
  destruct (decide (h' = h)) as [->|Hh].
  2: { rewrite lookup_insert_ne by done. fold (ends_at x h' c' a'). split; [by right|]. intros [[=]|?]; done. }
  rewrite lookup_insert_eq. cbn [mbind option_bind]. destruct (decide (c' = c)) as [->|Hc].
  - rewrite lookup_insert_eq. cbn [mbind option_bind]. destruct (decide (a' = a)) as [->|Ha].
    + rewrite lookup_insert_eq. split; [intros [= ->]; by left|]. intros [[= ->]|He]; [done|].
      apply Hx in He. rewrite Forall_forall in Hall. destruct (Hall _ He) as [He' _]. cbn in He'. by rewrite Hb, He'.
    + rewrite lookup_insert_ne, Hm by done. split; [by right|]. intros [[=]|?]; done.
  - rewrite lookup_insert_ne by done. unfold by_value, ends_at. destruct (x !! h); cbn; [|rewrite lookup_empty; cbn];
      (split; [by right|]); intros [[=]|?]; done.
Qed.

Lemma equivalent_overlaps_spec x kept hash credential s :
  equivalent_ok x kept -> fst s < snd s ->
  equivalent_overlaps x hash credential s = true <->
  exists o, o ∈ kept /\ o_hash o = hash /\ o_credential o = credential /\ fst (o_span o) < snd s /\ fst s < snd (o_span o).
Proof.
  intros [Hall Hx] Hne. unfold equivalent_overlaps, is_empty. destruct (Z.leb_spec (snd s) (fst s)) as [|_]; [lia|].
  assert (Hiff : (exists a b, ends_at x hash credential a = Some b /\ a < snd s /\ fst s < b) <->
    exists o, o ∈ kept /\ o_hash o = hash /\ o_credential o = credential /\ fst (o_span o) < snd s /\ fst s < snd (o_span o)).
  { split.
    - intros (a & b & He & Hab). apply Hx in He. by exists (mkOcc hash credential (a, b)).
    - intros ([h c [a b]] & Hin & Hh & Hc & Hab). cbn in *. subst. exists a, b. split; [by apply Hx | done]. }
  rewrite <- Hiff. unfold ends_at. destruct (x !! hash ≫= (fun by_value => by_value !! credential)) as [m|] eqn:Em; cbn [mbind option_bind].
  - apply (occurrences_overlap_spec m (str_len credential)); [unfold str_len, zlen; lia | | done].
    intros a b Hab. rewrite Forall_forall in Hall. apply (Hall (mkOcc hash credential (a, b))). apply Hx. unfold ends_at. by rewrite Em.
  - split; [done|]. intros (a & b & ? & _). done.
Qed.
