(* ===== verification/Resolution.v ===== *)
(** * Match resolution ([crates/scanner/src/resolution.rs])

    The pass that keeps, of the matches of competing detectors, the most
    specific ones: detector relations run to a fixed point, matches nested in
    private-key blocks and entropy duplicates are dropped, and within each line
    of each origin direct conflicts are settled by priority.  The compiled
    detector plan enters as the three tables resolution reads; the list of
    known prefixes is embedded data. *)

From S2P Require Import Prelude Float64 Evidence Finding Spans.

(** ** The compiled plan ([detector_plan.rs], [detector_ids.rs]) *)

Inductive DetectorResolutionClass := Named | Generic | Entropy | PrivateKeyBlock.

#[export] Instance DetectorResolutionClass_eq_dec : EqDecision DetectorResolutionClass.
Proof. solve_decision. Defined.

Record DetectorResolutionPolicy := mkPolicyRow { class : DetectorResolutionClass; priority : Z }.

Abbreviation DetectorResolutionIndex := (gmap str DetectorResolutionPolicy).

Definition index_get (x : DetectorResolutionIndex) (id : str) : option DetectorResolutionClass := class <$> x !! id.
Definition index_priority (x : DetectorResolutionIndex) (id : str) : option Z := priority <$> x !! id.

Inductive DetectorRelationKind := Requires | Conflicts | Subsumes.
Inductive EvidenceDirection := Either | Before | After.

Record CompiledDetectorRelation := mkRelation {
  rel_detector_id : str;
  rel_kind : DetectorRelationKind;
  within_lines : Z;
  within_bytes : option Z;
  direction : EvidenceDirection }.

Record CompiledDetectorPlans := mkPlans {
  plan_resolution : DetectorResolutionIndex;
  plan_relations : gmap str (list CompiledDetectorRelation);
  plan_decoders : list str }.

Definition resolution_class (p : CompiledDetectorPlans) (id : str) : option DetectorResolutionClass := index_get (plan_resolution p) id.
Definition resolution_priority (p : CompiledDetectorPlans) (id : str) : option Z := index_priority (plan_resolution p) id.
Definition detector_relations (p : CompiledDetectorPlans) (id : str) : list CompiledDetectorRelation := default [] (plan_relations p !! id).
Definition is_entropy (p : CompiledDetectorPlans) (id : str) : bool := bool_decide (resolution_class p id = Some Entropy).

(** [str::rsplit_once(char)] *)
Fixpoint rsplit_once (sep : Z) (s : str) : option (str * str) :=
  match s with
  | [] => None
  | c :: s' =>
      match rsplit_once sep s' with
      | Some (l, r) => Some (c :: l, r)
      | None => if c =? sep then Some ([], s') else None
      end
  end.

(** With the [decode] feature. *)
Definition decoded_source_parent (p : CompiledDetectorPlans) (source : str) : option str :=
  match rsplit_once 47 source with
  | Some (parent, decoder_name) => if bool_decide (decoder_name ∈ plan_decoders p) then Some parent else None
  | None => None
  end.

(** The [while let] loops; each parent is shorter, so the length is enough fuel. *)
Fixpoint family_loop (fuel : nat) (p : CompiledDetectorPlans) (family : str) : str :=
  match fuel with
  | O => family
  | S fuel' => match decoded_source_parent p family with Some parent => family_loop fuel' p parent | None => family end
  end.

Fixpoint depth_loop (fuel : nat) (p : CompiledDetectorPlans) (current : str) (depth : Z) : Z :=
  match fuel with
  | O => depth
  | S fuel' => match decoded_source_parent p current with Some parent => depth_loop fuel' p parent (depth + 1) | None => depth end
  end.

Definition decoded_source_depth (p : CompiledDetectorPlans) (source : str) : Z := depth_loop (S (length source)) p source 0.

Definition REASSEMBLED_SUFFIX : str := $":reassembled".
Definition GENERIC_PREFIX : str := $"generic-".
Definition ENTROPY_PREFIX : str := $"entropy-".
Definition ENTROPY : str := $"entropy".

Definition policy_detector_id (id : str) : str :=
  if ends_with REASSEMBLED_SUFFIX id then take (length id - length REASSEMBLED_SUFFIX) id else id.

Definition is_generic_detector (id : str) : bool := starts_with GENERIC_PREFIX id.
Definition is_entropy_detector_id (id : str) : bool := bool_decide (id = ENTROPY) || starts_with ENTROPY_PREFIX id.

(** ** Policies *)

Inductive ResolutionPolicy :=
| Embedded (resolution : DetectorResolutionIndex) (private_key_block_detectors : option (gset str))
| Active (plans : CompiledDetectorPlans).

Definition policy_validate (policy : ResolutionPolicy) (matches : list RawMatch) : result unit str :=
  match policy with
  | Embedded _ _ => Ok tt
  | Active plans =>
      match find (fun m => bool_decide (resolution_class plans (policy_detector_id (rm_detector_id m)) = None)) matches with
      | Some m => Err (rm_detector_id m)
      | None => Ok tt
      end
  end.

Definition source_intervals_comparable (policy : ResolutionPolicy) (source : str) : bool :=
  match policy with
  | Active plans => bool_decide (decoded_source_parent plans source = None)
  | Embedded _ _ => true
  end.

Definition is_private_key_block_detector (policy : ResolutionPolicy) (detector_id : str) : bool :=
  let id := policy_detector_id detector_id in
  match policy with
  | Active plans => bool_decide (resolution_class plans id = Some PrivateKeyBlock)
  | Embedded resolution None => bool_decide (index_get resolution id = Some PrivateKeyBlock)
  | Embedded resolution (Some detectors) => bool_decide (id ∈ detectors)
  end.

Definition is_entropy_detector (policy : ResolutionPolicy) (detector_id : str) : bool :=
  let id := policy_detector_id detector_id in
  match policy with
  | Active plans => is_entropy plans id
  | Embedded resolution _ =>
      match index_get resolution id with Some c => bool_decide (c = Entropy) | None => is_entropy_detector_id id end
  end.

(** An active plan without the detector panics; [policy_validate] has refused it. *)
Definition detector_resolution_priority (policy : ResolutionPolicy) (detector_id : str) : Z :=
  let id := policy_detector_id detector_id in
  match policy with
  | Active plans => default 0 (resolution_priority plans id)
  | Embedded resolution _ => default 0 (index_priority resolution id)
  end.

Definition match_is_service_specific (policy : ResolutionPolicy) (m : RawMatch) : bool :=
  let id := policy_detector_id (rm_detector_id m) in
  match policy with
  | Active plans => bool_decide (resolution_class plans id = Some Named)
  | Embedded resolution _ =>
      match index_get resolution id with
      | Some c => bool_decide (c = Named)
      | None => negb (bool_decide (rm_service m = $"generic")) && negb (is_generic_detector id) && negb (is_entropy_detector_id id)
      end
  end.

(** ** Priorities *)

Definition NAMED_DUPLICATE_LINE_DISTANCE : nat := 2.
Definition PRIORITY_EPSILON : f64 := 0x3E112E0BE826D695.
Definition NAMED_DETECTOR_PRIORITY : f64 := 0x4024000000000000.
Definition CONFIDENCE_WEIGHT : f64 := 0x4014000000000000.
Definition MAX_CREDENTIAL_PRIORITY_LENGTH : Z := 200.
Definition CREDENTIAL_LENGTH_WEIGHT : f64 := 0x3F847AE147AE147B.
Definition KNOWN_PREFIX_SERVICE_BONUS : f64 := 0x4014000000000000.
Definition DECODED_EVIDENCE_PRIORITY : f64 := f64_one.
Definition ENTROPY_MATCH_PRIORITY : f64 := f64_zero.

Definition decoded_evidence_priority (policy : ResolutionPolicy) (source : str) : f64 :=
  let depth := match policy with Active plans => decoded_source_depth plans source | Embedded _ _ => 0 end in
  if depth =? 0 then f64_zero else f64_div DECODED_EVIDENCE_PRIORITY (f64_of_int depth).

Definition known_prefix_body (KNOWN_PREFIXES : list str) (credential : str) : option str :=
  min_by (fun a b => Z.compare (str_len a) (str_len b))
    (omap (fun prefix => if starts_with prefix credential then Some (drop (length prefix) credential) else None) KNOWN_PREFIXES).

Definition match_priority_with_policy (KNOWN_PREFIXES : list str) (policy : ResolutionPolicy) (m : RawMatch) : f64 :=
  let p := f64_add ENTROPY_MATCH_PRIORITY (f64_of_int (detector_resolution_priority policy (rm_detector_id m))) in
  let p := f64_add p (decoded_evidence_priority policy (loc_source (rm_location m))) in
  let service_specific := match_is_service_specific policy m in
  let p := if service_specific then f64_add p NAMED_DETECTOR_PRIORITY else p in
  let p := match rm_confidence m with Some conf => f64_add p (f64_mul conf CONFIDENCE_WEIGHT) | None => p end in
  let p := f64_add p (f64_mul (f64_of_int (Z.min (str_len (rm_credential m)) MAX_CREDENTIAL_PRIORITY_LENGTH)) CREDENTIAL_LENGTH_WEIGHT) in
  if bool_decide (is_Some (known_prefix_body KNOWN_PREFIXES (rm_credential m))) && service_specific
  then f64_add p KNOWN_PREFIX_SERVICE_BONUS else p.

Definition priorities_tie (x y : f64) : bool :=
  match total_cmp x y with Eq => true | _ => false end || f64_lt (f64_abs (f64_sub x y)) PRIORITY_EPSILON.

(** ** Origins *)

Record SourceFamilyIndex := mkFamilies { sources : gset str; decoded_parents : gmap str str }.

Definition families_new (matches : list RawMatch) (policy : ResolutionPolicy) : SourceFamilyIndex :=
  let srcs : gset str := list_to_set (map (fun m => loc_source (rm_location m)) matches) in
  mkFamilies srcs
    (match policy with
     | Active plans =>
         foldl (fun acc source =>
           let family := family_loop (S (length source)) plans source in
           if negb (bool_decide (family = source)) then <[source := family]> acc else acc) ∅ (elements srcs)
     | Embedded _ _ => ∅
     end).

(** [while let Some((parent, _)) = candidate.rsplit_once('/')] *)
Fixpoint ancestor_loop (fuel : nat) (srcs : gset str) (family candidate : str) : str :=
  match fuel with
  | O => family
  | S fuel' =>
      match rsplit_once 47 candidate with
      | Some (parent, _) => ancestor_loop fuel' srcs (if decide (parent ∈ srcs) then parent else family) parent
      | None => family
      end
  end.

Definition family_for (x : SourceFamilyIndex) (source : str) : str :=
  match decoded_parents x !! source with
  | Some parent => parent
  | None => ancestor_loop (S (length source)) (sources x) source source
  end.

Record MatchOrigin := mkOrigin { source_family : str; file_path : option str; commit : option str }.

#[export] Instance MatchOrigin_eq_dec : EqDecision MatchOrigin.
Proof. solve_decision. Defined.
#[export] Instance MatchOrigin_countable : Countable MatchOrigin :=
  inj_countable' (fun o => (source_family o, file_path o, commit o)) (fun '(a, b, c) => mkOrigin a b c) (fun o => match o with mkOrigin _ _ _ => eq_refl end).

Definition origin_cmp (a b : MatchOrigin) : comparison :=
  then_with (str_cmp (source_family a) (source_family b))
    (then_with (option_cmp str_cmp (file_path a) (file_path b)) (option_cmp str_cmp (commit a) (commit b))).

Definition origin_of (fam : SourceFamilyIndex) (m : RawMatch) : MatchOrigin :=
  mkOrigin (family_for fam (loc_source (rm_location m))) (loc_file_path (rm_location m)) (loc_commit (rm_location m)).

(** [entry(k).or_default().push(v)] *)
Definition push_entry {K A} `{Countable K} (k : K) (v : A) (m : gmap K (list A)) : gmap K (list A) :=
  <[k := default [] (m !! k) ++ [v]]> m.

Definition match_offsets (m : RawMatch) : span :=
  let start := loc_offset (rm_location m) in
  (start, saturating_add usize_max start (str_len (rm_credential m))).

(** Keep the positions whose flag is set. *)
Definition mask {A} (keep : list bool) (l : list A) : list A :=
  map snd (List.filter fst (zip keep l)).

(** ** Detector relations *)

Record DetectorRelationCandidate := mkCandidate { c_index : nat; c_line : option Z; c_start : Z; c_end : Z }.

Definition candidate_of (index : nat) (m : RawMatch) : DetectorRelationCandidate :=
  mkCandidate index (loc_line (rm_location m)) (fst (match_offsets m)) (snd (match_offsets m)).

Definition detector_relation_matches (source target : DetectorRelationCandidate) (relation : CompiledDetectorRelation) : bool :=
  let line_distance_is_proven :=
    match c_line source, c_line target with
    | Some a, Some b => abs_diff a b <=? within_lines relation
    | _, _ => bool_decide (is_Some (within_bytes relation))
    end in
  if negb line_distance_is_proven then false
  else
    let direction_matches :=
      match direction relation with
      | Either => true
      | Before => c_end target <=? c_start source
      | After => c_end source <=? c_start target
      end in
    if negb direction_matches then false
    else match within_bytes relation with
         | None => true
         | Some max_gap =>
             let gap := if c_end target <=? c_start source then c_start source - c_end target
                        else if c_end source <=? c_start target then c_start target - c_end source
                        else 0 in
             gap <=? max_gap
         end.

Abbreviation relation_index := (gmap (str * MatchOrigin) (list DetectorRelationCandidate)).

Definition by_detector_origin (fam : SourceFamilyIndex) (matches : list RawMatch) : relation_index :=
  foldl (fun acc im => push_entry (rm_detector_id (snd im), origin_of fam (snd im)) (candidate_of (fst im) (snd im)) acc) ∅
    (zip (seq 0 (length matches)) matches).

Definition flag (l : list bool) (i : nat) : bool := default false (l !! i).

(** The positions one relation of a retained source marks for removal. *)
Definition relation_removes (index : relation_index) (retain : list bool) (origin : MatchOrigin)
    (source : DetectorRelationCandidate) (relation : CompiledDetectorRelation) : list nat :=
  let targets := default [] (index !! (rel_detector_id relation, origin)) in
  let hits := List.filter (fun t => flag retain (c_index t) && detector_relation_matches source t relation) targets in
  match rel_kind relation with
  | Requires => if negb (existsb (fun _ => true) hits) then [c_index source] else []
  | Conflicts => if existsb (fun _ => true) hits then [c_index source] else []
  | Subsumes => map c_index hits
  end.

Definition source_removes (plans : CompiledDetectorPlans) (fam : SourceFamilyIndex) (index : relation_index) (retain : list bool)
    (im : nat * RawMatch) : list nat :=
  let '(i, m) := im in
  if negb (flag retain i) then []
  else concat (map (relation_removes index retain (origin_of fam m) (candidate_of i m)) (detector_relations plans (rm_detector_id m))).

(** One round: the marks, the cleared flags, and whether any flag changed. *)
Definition relation_round (plans : CompiledDetectorPlans) (fam : SourceFamilyIndex) (index : relation_index) (matches : list RawMatch)
    (retain : list bool) : list bool * bool :=
  let remove := concat (map (source_removes plans fam index retain) (zip (seq 0 (length matches)) matches)) in
  let next := imap (fun i keep => keep && negb (bool_decide (i ∈ remove))) retain in
  (next, negb (bool_decide (next = retain))).

Fixpoint relation_loop (fuel : nat) (plans : CompiledDetectorPlans) (fam : SourceFamilyIndex) (index : relation_index)
    (matches : list RawMatch) (retain : list bool) : option (list bool) :=
  match fuel with
  | O => None
  | S fuel' =>
      let '(next, changed) := relation_round plans fam index matches retain in
      if changed then relation_loop fuel' plans fam index matches next else Some next
  end.

Definition apply_detector_relations (matches : list RawMatch) (policy : ResolutionPolicy) (fam : SourceFamilyIndex) : option (list RawMatch) :=
  match policy with
  | Embedded _ _ => Some matches
  | Active plans =>
      if negb (existsb (fun m => negb (bool_decide (length (detector_relations plans (rm_detector_id m)) = O))) matches) then Some matches
      else
        let index := by_detector_origin fam matches in
        retain ← relation_loop (S (length matches)) plans fam index matches (replicate (length matches) true);
        Some (mask retain matches)
  end.

(** ** Private-key blocks *)

Definition match_span (fam : SourceFamilyIndex) (m : RawMatch) : option (MatchOrigin * span) :=
  match loc_file_path (rm_location m) with
  | None => None
  | Some _ => Some (origin_of fam m, match_offsets m)
  end.

Definition index_spans_by_origin (spans : list (MatchOrigin * span)) : gmap MatchOrigin SpanIndex :=
  from_unsorted <$> foldl (fun acc os => push_entry (fst os) (snd os) acc) ∅ spans.

Definition span_contains (by_origin : gmap MatchOrigin SpanIndex) (origin : MatchOrigin) (s : span) : bool :=
  match by_origin !! origin with
  | None => false
  | Some spans => span_index_contains spans (fst s) (snd s)
  end.

Definition suppress_matches_nested_in_private_key_blocks (matches : list RawMatch) (policy : ResolutionPolicy)
    (fam : SourceFamilyIndex) : list RawMatch :=
  let blocks := List.filter (fun m => is_private_key_block_detector policy (rm_detector_id m)) matches in
  let private_key_spans := omap (match_span fam) blocks in
  if bool_decide (length private_key_spans = O) then matches
  else
    let by_origin := index_spans_by_origin private_key_spans in
    List.filter (fun m =>
      if is_private_key_block_detector policy (rm_detector_id m) then true
      else match match_span fam m with
           | None => true
           | Some (origin, s) => negb (span_contains by_origin origin s)
           end) matches.

(** ** Entropy duplicates *)

(** [PendingNamedEvidence] per origin and line. *)
Record PendingNamedEvidence := mkPending { pe_spans : list span; pe_by_credential : gmap str (list span) }.
Record NamedEvidence := mkNamed { ne_spans : SpanIndex; ne_by_credential : gmap str SpanIndex }.

Definition note_named (policy : ResolutionPolicy) (fam : SourceFamilyIndex)
    (acc : gmap MatchOrigin (gmap Z PendingNamedEvidence)) (m : RawMatch) : gmap MatchOrigin (gmap Z PendingNamedEvidence) :=
  if negb (match_is_service_specific policy m) then acc
  else match loc_line (rm_location m) with
       | None => acc
       | Some line =>
           let origin := origin_of fam m in
           let lines := default ∅ (acc !! origin) in
           let ev := default (mkPending [] ∅) (lines !! line) in
           let s := match_offsets m in
           <[origin := <[line := mkPending (pe_spans ev ++ [s]) (push_entry (rm_credential m) s (pe_by_credential ev))]> lines]> acc
       end.

Definition index_named (ev : PendingNamedEvidence) : NamedEvidence :=
  mkNamed (from_unsorted (pe_spans ev)) (from_unsorted <$> pe_by_credential ev).

Definition named_lines (matches : list RawMatch) (policy : ResolutionPolicy) (fam : SourceFamilyIndex) :
    gmap MatchOrigin (gmap Z NamedEvidence) :=
  (fun lines : gmap Z PendingNamedEvidence => index_named <$> lines) <$> foldl (note_named policy fam) (∅ : gmap MatchOrigin (gmap Z PendingNamedEvidence)) matches.

Definition covered_by (m : RawMatch) (ev : NamedEvidence) : bool :=
  let s := match_offsets m in
  let contained := span_index_contains (ne_spans ev) (fst s) (snd s) || is_contained_by (ne_spans ev) (fst s) (snd s) in
  let equivalent_overlap :=
    match ne_by_credential ev !! rm_credential m with Some spans => span_index_overlaps spans (fst s) (snd s) | None => false end in
  contained || equivalent_overlap.

(** The candidate lines of the nested loops. *)
Definition nearby_lines (line : Z) : list Z :=
  concat (map (fun offset => [saturating_sub line (Z.of_nat offset); saturating_add usize_max line (Z.of_nat offset)])
    (seq 0 (S NAMED_DUPLICATE_LINE_DISTANCE))).

Definition keep_entropy (named : gmap MatchOrigin (gmap Z NamedEvidence)) (policy : ResolutionPolicy) (fam : SourceFamilyIndex) (m : RawMatch) : bool :=
  if negb (is_entropy_detector policy (rm_detector_id m)) then true
  else match loc_line (rm_location m) with
       | None => true
       | Some line =>
           match named !! origin_of fam m with
           | None => true
           | Some lines =>
               negb (existsb (fun l => match lines !! l with Some ev => covered_by m ev | None => false end) (nearby_lines line))
           end
       end.

Definition suppress_entropy_duplicates_near_named_detectors (matches : list RawMatch) (policy : ResolutionPolicy)
    (fam : SourceFamilyIndex) : list RawMatch :=
  List.filter (keep_entropy (named_lines matches policy fam) policy fam) matches.

(** ** Direct conflicts *)

Section conflicts.
Context (KNOWN_PREFIXES : list str).

Record conflict_state := mkConflict {
  containment : gmap str KeptIntervalIndex;
  equivalent : KeptEquivalentEvidence;
  cursor : nat;
  pending : list (f64 * nat);
  retained : list bool }.

(** Promote pending matches until one ties with [priority]. *)
Fixpoint promote (group : list RawMatch) (p : f64) (waiting : list (f64 * nat)) (c : gmap str KeptIntervalIndex)
    (e : KeptEquivalentEvidence) (cur : nat) : gmap str KeptIntervalIndex * KeptEquivalentEvidence * nat :=
  match waiting with
  | [] => (c, e, cur)
  | (retained_priority, retained_index) :: rest =>
      if priorities_tie retained_priority p then (c, e, cur)
      else match group !! retained_index with
           | None => (c, e, cur)
           | Some m =>
               let s := match_offsets m in
               let source := loc_source (rm_location m) in
               promote group p rest
                 (<[source := kept_insert (default (kept_new [s]) (c !! source)) s]> c)
                 (equivalent_insert e (rm_credential_hash m) (rm_credential m) s) (S cur)
           end
  end.

Definition settle (policy : ResolutionPolicy) (group : list RawMatch) (st : conflict_state) (entry : f64 * nat) : conflict_state :=
  let '(p, index) := entry in
  let '(c, e, cur) := promote group p (drop (cursor st) (pending st)) (containment st) (equivalent st) (cursor st) in
  match group !! index with
  | None => st
  | Some m =>
      let s := match_offsets m in
      let source := loc_source (rm_location m) in
      let skip_same_decoded_view := negb (source_intervals_comparable policy source) in
      let containment_conflict :=
        existsb (fun cs => negb (skip_same_decoded_view && bool_decide (fst cs = source)) && has_containment_conflict (snd cs) s)
          (map_to_list c) in
      let keep := negb containment_conflict && negb (equivalent_overlaps e (rm_credential_hash m) (rm_credential m) s) in
      mkConflict c e cur (if keep then pending st ++ [(p, index)] else pending st) (<[index := keep]> (retained st))
  end.

Definition prioritized_cmp (group : list RawMatch) (a b : f64 * nat) : comparison :=
  then_with (total_cmp (fst b) (fst a))
    (option_cmp RawMatch_cmp (group !! snd a) (group !! snd b)).

Definition group_priorities (policy : ResolutionPolicy) (group : list RawMatch) : list f64 :=
  map (match_priority_with_policy KNOWN_PREFIXES policy) group.

Definition prioritized (policy : ResolutionPolicy) (group : list RawMatch) : list (f64 * nat) :=
  sort_by (prioritized_cmp group) (zip (group_priorities policy group) (seq 0 (length group))).

Definition initial_containment (group : list RawMatch) : gmap str KeptIntervalIndex :=
  kept_new <$> foldl (fun acc m => push_entry (loc_source (rm_location m)) (match_offsets m) acc) ∅ group.

Definition resolve_direct_conflicts (policy : ResolutionPolicy) (group : list RawMatch) : list RawMatch :=
  if (length group <=? 1)%nat then group
  else
    let st := foldl (settle policy group) (mkConflict (initial_containment group) ∅ 0 [] (replicate (length group) false))
                (prioritized policy group) in
    mask (retained st) group.

(** ** Groups *)

(** [GroupLocation]: [Line] before [NoLine]. *)
Definition location_key_cmp (a b : option Z) : comparison :=
  match a, b with
  | Some x, Some y => Z.compare x y
  | Some _, None => Lt
  | None, Some _ => Gt
  | None, None => Eq
  end.

Definition group_key_cmp (a b : MatchOrigin * option Z) : comparison :=
  then_with (origin_cmp (fst a) (fst b)) (location_key_cmp (snd a) (snd b)).

Definition coordinate_cmp (a b : RawMatch) : comparison :=
  then_with (then_with (Z.compare (fst (match_offsets a)) (fst (match_offsets b))) (Z.compare (snd (match_offsets a)) (snd (match_offsets b))))
    (RawMatch_cmp a b).

Definition resolve_match_groups (matches : list RawMatch) (policy : ResolutionPolicy) (fam : SourceFamilyIndex) : list RawMatch :=
  let groups := foldl (fun acc m => push_entry (origin_of fam m, loc_line (rm_location m)) m acc) ∅ matches in
  concat (map (fun kg => resolve_direct_conflicts policy (sort_by coordinate_cmp (snd kg)))
    (sort_by (fun a b => group_key_cmp (fst a) (fst b)) (map_to_list groups))).

(** ** The pass *)

(** [Panic] stands for a relation loop that has not ended within its fuel; it
    always ends. *)
Definition try_resolve_matches_with_policy (matches : list RawMatch) (policy : ResolutionPolicy) : outcome (result (list RawMatch) str) :=
  match policy_validate policy matches with
  | Err e => Ret (Err e)
  | Ok _ =>
      if bool_decide (length matches = O) then Ret (Ok matches)
      else
        let fam := families_new matches policy in
        match apply_detector_relations matches policy fam with
        | None => Panic
        | Some matches =>
            if (length matches <=? 1)%nat then Ret (Ok matches)
            else
              let matches := suppress_matches_nested_in_private_key_blocks matches policy fam in
              let matches := suppress_entropy_duplicates_near_named_detectors matches policy fam in
              Ret (Ok (resolve_match_groups matches policy fam))
        end
  end.

End conflicts.

(** ** Matches and their spans *)

(** Offsets that do not reach the end of the address space. *)
Definition placed (m : RawMatch) : Prop :=
  0 <= loc_offset (rm_location m) /\ loc_offset (rm_location m) + str_len (rm_credential m) < usize_max.

Definition nonempty (m : RawMatch) : Prop := fst (match_offsets m) < snd (match_offsets m).

Lemma placed_offsets m : placed m ->
  match_offsets m = (loc_offset (rm_location m), loc_offset (rm_location m) + str_len (rm_credential m)) /\
  0 <= fst (match_offsets m) /\ snd (match_offsets m) < usize_max.
Proof.
  intros [H1 H2]. pose proof (str_len_nonneg (rm_credential m)). unfold match_offsets, saturating_add. rewrite Z.min_r by lia. cbn. done.
Qed.

Lemma is_empty_false m : is_empty (match_offsets m) = false <-> nonempty m.
Proof. unfold is_empty, nonempty. rewrite Z.leb_gt. done. Qed.

(** One span holds the other. *)
Definition nested (a b : span) : Prop := fst a <= fst b /\ snd b <= snd a \/ fst b <= fst a /\ snd a <= snd b.

(** When two matches compete: nested spans, unless both are views of one decoded
    source, or overlapping occurrences of one credential. *)
Definition conflicts (policy : ResolutionPolicy) (k m : RawMatch) : Prop :=
  nonempty k /\ nonempty m /\
  (~ (source_intervals_comparable policy (loc_source (rm_location m)) = false /\ loc_source (rm_location k) = loc_source (rm_location m)) /\
     nested (match_offsets k) (match_offsets m) \/
   rm_credential_hash k = rm_credential_hash m /\ rm_credential k = rm_credential m /\
     fst (match_offsets k) < snd (match_offsets m) /\ fst (match_offsets m) < snd (match_offsets k)).

Lemma push_entry_lookup {K A} `{Countable K} (k k' : K) (v : A) m :
  default [] (push_entry k v m !! k') = if decide (k' = k) then default [] (m !! k) ++ [v] else default [] (m !! k').
Proof. unfold push_entry. destruct (decide (k' = k)) as [->|Hne]; [by rewrite lookup_insert_eq | by rewrite lookup_insert_ne]. Qed.

(** Grouping is filtering by key. *)
Lemma group_lookup {K A B} `{Countable K} (key : A -> K) (val : A -> B) l (m : gmap K (list B)) k :
  default [] (foldl (fun acc x => push_entry (key x) (val x) acc) m l !! k) =
  default [] (m !! k) ++ map val (List.filter (fun x => bool_decide (key x = k)) l).
Proof.
  revert m. induction l as [|x l IH]; intros m; cbn [foldl List.filter map]; [by rewrite app_nil_r|]. rewrite IH, push_entry_lookup.
  destruct (decide (k = key x)) as [->|Hne].
  - rewrite bool_decide_true by done. cbn [map]. by rewrite <- app_assoc.
  - by rewrite bool_decide_false.
Qed.

Lemma group_domain {K A B} `{Countable K} (key : A -> K) (val : A -> B) l (m : gmap K (list B)) k :
  is_Some (foldl (fun acc x => push_entry (key x) (val x) acc) m l !! k) <-> is_Some (m !! k) \/ exists x, x ∈ l /\ key x = k.
Proof.
  revert m. induction l as [|x l IH]; intros m; cbn [foldl]; [setoid_rewrite elem_of_nil; naive_solver|]. rewrite IH. setoid_rewrite elem_of_cons.
  unfold push_entry. destruct (decide (k = key x)) as [->|Hne].
  - rewrite lookup_insert_eq. split; [intros _; right; exists x; auto | intros _; left; by eexists].
  - rewrite lookup_insert_ne by done. split; [|]; intros [?|(y & Hy & Hk)]; auto; [right; exists y; auto|].
    destruct Hy as [->|Hy]; [done | right; by exists y].
Qed.

Lemma elem_of_zip_seq {A} (l : list A) n x i : (x, i) ∈ zip l (seq n (length l)) <-> exists j, i = (n + j)%nat /\ l !! j = Some x.
Proof.
  rewrite list_elem_of_lookup. setoid_rewrite lookup_zip_with. split.
  - intros (j & Hj). exists j. destruct (l !! j) as [y|] eqn:E; [|done]. cbn in Hj. rewrite lookup_seq_lt in Hj by (by apply lookup_lt_Some in E). cbn in Hj. by simplify_eq.
  - intros (j & -> & Hj). exists j. rewrite Hj. cbn. rewrite lookup_seq_lt by (by apply lookup_lt_Some in Hj). done.
Qed.

(** ** Flags *)

Lemma flag_insert l i b j : (i < length l)%nat -> flag (<[i := b]> l) j = if decide (j = i) then b else flag l j.
Proof.
  intros Hi. unfold flag. destruct (decide (j = i)) as [->|Hne]; [by rewrite list_lookup_insert_eq | by rewrite list_lookup_insert_ne].
Qed.

Lemma mask_flags {A} (keep : list bool) (l : list A) : length keep = length l -> mask keep l = mask (map (flag keep) (seq 0 (length l))) l.
Proof.
  intros Hl. f_equal. apply list_eq. intros i. change (map ?f ?k) with (f <$> k). rewrite list_lookup_fmap. destruct (decide (i < length l)%nat) as [Hi|Hi].
  - rewrite lookup_seq_lt by done. cbn. destruct (lookup_lt_is_Some_2 keep i) as [b Hb]; [lia|]. unfold flag. by rewrite Hb.
  - rewrite lookup_seq_ge by lia. apply lookup_ge_None. lia.
Qed.

(** ** Detector relations *)

Definition kept_count (l : list bool) : nat := length (List.filter id l).

Lemma kept_count_imap (P : nat -> bool) l :
  (kept_count (imap (fun i keep => keep && P i) l) <= kept_count l)%nat /\
  (imap (fun i keep => keep && P i) l <> l -> kept_count (imap (fun i keep => keep && P i) l) < kept_count l)%nat.
Proof.
  unfold kept_count. revert P. induction l as [|b l IH]; intros P; cbn [imap List.filter]; [done|].
  destruct (IH (fun i => P (S i))) as [Hle Hlt]. unfold compose. destruct b, (P O); cbn [andb id List.filter length]; split; try lia.
  - intros Hne. specialize (Hlt ltac:(congruence)). lia.
  - intros Hne. apply Hlt. congruence.
  - intros Hne. apply Hlt. congruence.
Qed.

Section relations.
Context (plans : CompiledDetectorPlans) (fam : SourceFamilyIndex) (matches : list RawMatch).

Let index := by_detector_origin fam matches.
Let round := relation_round plans fam index matches.

(** Match [j] is evidence for relation [r] of match [i]. *)
Definition related (i j : nat) (r : CompiledDetectorRelation) : Prop :=
  exists m t, matches !! i = Some m /\ matches !! j = Some t /\ rm_detector_id t = rel_detector_id r /\ origin_of fam t = origin_of fam m /\
    detector_relation_matches (candidate_of i m) (candidate_of j t) r = true.

Lemma elem_of_index k c :
  c ∈ default [] (index !! k) <-> exists j t, matches !! j = Some t /\ k = (rm_detector_id t, origin_of fam t) /\ c = candidate_of j t.
Proof.
  unfold index, by_detector_origin.
  rewrite (group_lookup (fun im : nat * RawMatch => (rm_detector_id (snd im), origin_of fam (snd im))) (fun im => candidate_of (fst im) (snd im))).
  rewrite lookup_empty. cbn [default app from_option]. rewrite list_elem_of_fmap. setoid_rewrite list_elem_of_In. setoid_rewrite filter_In.
  setoid_rewrite bool_decide_eq_true. setoid_rewrite <- list_elem_of_In.
  split.
  - intros ([j t] & -> & Hin & <-). apply elem_of_enumerate in Hin. by exists j, t.
  - intros (j & t & Hj & -> & ->). exists (j, t). split; [done|]. split; [by apply elem_of_enumerate | done].
Qed.

Definition hits (retain : list bool) (i : nat) (m : RawMatch) (r : CompiledDetectorRelation) : list DetectorRelationCandidate :=
  List.filter (fun t => flag retain (c_index t) && detector_relation_matches (candidate_of i m) t r) (default [] (index !! (rel_detector_id r, origin_of fam m))).

Lemma elem_of_hits retain i m r j :
  matches !! i = Some m -> j ∈ map c_index (hits retain i m r) <-> flag retain j = true /\ related i j r.
Proof.
  intros Hi. unfold hits. rewrite list_elem_of_fmap. setoid_rewrite list_elem_of_In. setoid_rewrite filter_In. setoid_rewrite <- list_elem_of_In.
  setoid_rewrite elem_of_index. setoid_rewrite andb_true_iff. split.
  - intros (c & -> & (j' & t & Hj & Hk & ->) & Hf & Hm). apply pair_equal_spec in Hk as [Hid Ho]. split; [done|]. by exists m, t.
  - intros (Hf & m' & t & Hi' & Hj & Hid & Ho & Hm). assert (m' = m) as -> by congruence. exists (candidate_of j t). split; [done|]. split; [|done].
    exists j, t. by rewrite Hid, Ho.
Qed.

Lemma some_hit retain i m r :
  matches !! i = Some m -> existsb (fun _ => true) (hits retain i m r) = true <-> exists j, flag retain j = true /\ related i j r.
Proof.
  intros Hi. rewrite existsb_const_true. setoid_rewrite <- (elem_of_hits retain i m r _ Hi). split.
  - intros [c Hc]. exists (c_index c). by apply list_elem_of_fmap_2.
  - intros [j (c & _ & Hc)%list_elem_of_fmap]. by exists c.
Qed.

(** What one relation of a kept match [i] removes. *)
Definition removes (retain : list bool) (i j : nat) (r : CompiledDetectorRelation) : Prop :=
  match rel_kind r with
  | Requires => j = i /\ ~ exists t, flag retain t = true /\ related i t r
  | Conflicts => j = i /\ exists t, flag retain t = true /\ related i t r
  | Subsumes => flag retain j = true /\ related i j r
  end.

Lemma elem_of_relation_removes retain i m r j :
  matches !! i = Some m -> j ∈ relation_removes index retain (origin_of fam m) (candidate_of i m) r <-> removes retain i j r.
Proof.
  intros Hi. unfold relation_removes, removes. cbv zeta. fold (hits retain i m r).
  pose proof (some_hit retain i m r Hi) as Hsome. destruct (rel_kind r).
  - rewrite <- Hsome. destruct (existsb _ _); cbn [negb]; [|rewrite list_elem_of_singleton]; [split; [intros Hj; by apply not_elem_of_nil in Hj | tauto]|].
    split; [intros ->; done | tauto].
  - rewrite <- Hsome. destruct (existsb _ _); [rewrite list_elem_of_singleton; tauto|]. split; [intros Hj; by apply not_elem_of_nil in Hj | by intros [_ ?]].
  - by apply elem_of_hits.
Qed.

(** The flags one round clears. *)
Definition marks (retain : list bool) : list nat := concat (map (source_removes plans fam index retain) (zip (seq 0 (length matches)) matches)).

Lemma elem_of_marks retain x :
  x ∈ marks retain <->
  exists i m r, matches !! i = Some m /\ flag retain i = true /\ r ∈ detector_relations plans (rm_detector_id m) /\ removes retain i x r.
Proof.
  unfold marks. rewrite elem_of_concat_map. split.
  - intros ([i m] & Hin & Hx). apply elem_of_enumerate in Hin. unfold source_removes in Hx. destruct (flag retain i) eqn:Hf; cbn [negb] in Hx; [|by apply not_elem_of_nil in Hx].
    apply elem_of_concat_map in Hx as (r & Hr & Hx). exists i, m, r. rewrite elem_of_relation_removes in Hx by done. done.
  - intros (i & m & r & Hi & Hf & Hr & Hx). exists (i, m). split; [by apply elem_of_enumerate|]. unfold source_removes. rewrite Hf. cbn [negb].
    apply elem_of_concat_map. exists r. split; [done|]. by apply elem_of_relation_removes.
Qed.

Lemma round_flag retain j : flag (fst (round retain)) j = flag retain j && negb (bool_decide (j ∈ marks retain)).
Proof.
  unfold round, relation_round. cbv zeta. cbn [fst]. unfold flag. rewrite list_lookup_imap. by destruct (retain !! j).
Qed.

Lemma round_length retain : length (fst (round retain)) = length retain.
Proof. unfold round, relation_round. cbv zeta. cbn [fst]. apply length_imap. Qed.

(** The loop ends in a fixed point; an invariant of the rounds holds there. *)
Lemma relation_loop_fixed (P : list bool -> Prop) fuel retain :
  (forall l, P l -> P (fst (round l))) -> P retain -> (kept_count retain < fuel)%nat ->
  exists r, relation_loop fuel plans fam index matches retain = Some r /\ fst (round r) = r /\ P r.
Proof.
  intros HP. revert retain. induction fuel as [|fuel IH]; intros retain Hr Hc; [lia|]. cbn [relation_loop].
  pose proof (HP retain Hr) as Hr'. unfold round, relation_round in Hr'. unfold relation_round at 1. cbv zeta in *. cbn [fst] in Hr'.
  set (next := imap _ retain) in *. destruct (decide (next = retain)) as [He|Hne].
  - rewrite bool_decide_true by done. cbn [negb]. exists retain. rewrite He. split; [done|]. split; [|done]. exact He.
  - rewrite bool_decide_false by done. cbn [negb]. apply IH; [done|].
    pose proof (proj2 (kept_count_imap (fun i => negb (bool_decide (i ∈ concat (map (source_removes plans fam index retain) (zip (seq 0 (length matches)) matches))))) retain) Hne) as Hlt.
    change (kept_count next < kept_count retain)%nat in Hlt. lia.
Qed.
End relations.

(** A round with the flags [retain] removes match [x]: some kept match has a
    relation that removes it, on the evidence kept at that moment. *)
Definition withdrawn (plans : CompiledDetectorPlans) (fam : SourceFamilyIndex) (matches : list RawMatch) (retain : list bool) (x : nat) : Prop :=
  exists i m r, matches !! i = Some m /\ flag retain i = true /\ r ∈ detector_relations plans (rm_detector_id m) /\ removes fam matches retain i x r.

(** What relation [r] of a kept match [i] asks of the kept matches. *)
Definition satisfied (fam : SourceFamilyIndex) (matches : list RawMatch) (keep : list bool) (i : nat) (r : CompiledDetectorRelation) : Prop :=
  let evidence := exists j, flag keep j = true /\ related fam matches i j r in
  match rel_kind r with Requires => evidence | Conflicts | Subsumes => ~ evidence end.

Lemma mask_all {A} (l : list A) : mask (replicate (length l) true) l = l.
Proof. unfold mask. induction l as [|x l IH]; cbn; [done|]. by rewrite IH. Qed.

Lemma kept_count_le l : (kept_count l <= length l)%nat.
Proof. unfold kept_count. apply filter_length_le. Qed.

Section rounds.
Context (plans : CompiledDetectorPlans) (fam : SourceFamilyIndex) (matches : list RawMatch).

(** The flags after [k] rounds. *)
Definition stage (k : nat) : list bool :=
  Nat.iter k (fun l => fst (relation_round plans fam (by_detector_origin fam matches) matches l)) (replicate (length matches) true).

Lemma stage_step k j : flag (stage (S k)) j = true <-> flag (stage k) j = true /\ ~ withdrawn plans fam matches (stage k) j.
Proof.
  cbn [stage Nat.iter nat_rect]. fold (stage k). change (Nat.iter k _ _) with (stage k). rewrite round_flag, andb_true_iff, negb_true_iff, bool_decide_eq_false.
  by rewrite elem_of_marks.
Qed.

Lemma stage_length k : length (stage k) = length matches.
Proof. induction k as [|k IH]; [apply length_replicate|]. cbn [stage Nat.iter nat_rect]. by rewrite round_length. Qed.

(** Where a round changes nothing, every relation of a kept match holds. *)
Lemma fixed_satisfied keep i m r :
  fst (relation_round plans fam (by_detector_origin fam matches) matches keep) = keep ->
  matches !! i = Some m -> flag keep i = true -> r ∈ detector_relations plans (rm_detector_id m) -> satisfied fam matches keep i r.
Proof.
  intros Hfix Hi Hf Hr.
  assert (Hno : forall j, flag keep j = true -> ~ removes fam matches keep i j r).
  { intros j Hj Hrm. rewrite <- Hfix, round_flag in Hj. apply andb_true_iff in Hj as [_ Hj]. apply negb_true_iff, bool_decide_eq_false in Hj.
    apply Hj, elem_of_marks. by exists i, m, r. }
  unfold removes in Hno. unfold satisfied. destruct (rel_kind r).
  - destruct (existsb (fun _ => true) (hits fam matches keep i m r)) eqn:Eh; [by apply some_hit in Eh|]. exfalso. apply (Hno i Hf). split; [done|].
    intros Hh. apply (some_hit fam matches keep i m r Hi) in Hh. congruence.
  - intros Hh. by apply (Hno i Hf).
  - intros (j & Hj & Hrel). by apply (Hno j Hj).
Qed.
End rounds.

(** C24. Detector relations run to their end and remove exactly what they must.
    There are rounds of flags that start with every match kept; each next round
    keeps exactly the matches that no relation of a match kept so far withdraws
    (its source when required evidence is missing or conflicting evidence is
    present among the kept matches, its kept targets when it subsumes them); the
    result is the matches the last round keeps, and there every relation of a kept
    match holds. *)
Theorem relations_settled (plans : CompiledDetectorPlans) (fam : SourceFamilyIndex) (matches : list RawMatch) :
  exists (round : nat -> list bool) (n : nat),
    round 0%nat = replicate (length matches) true /\
    (forall k j, flag (round (S k)) j = true <-> flag (round k) j = true /\ ~ withdrawn plans fam matches (round k) j) /\
    apply_detector_relations matches (Active plans) fam = Some (mask (round n) matches) /\ length (round n) = length matches /\
    (forall i m r, matches !! i = Some m -> flag (round n) i = true -> r ∈ detector_relations plans (rm_detector_id m) ->
       satisfied fam matches (round n) i r).
Proof.
  exists (stage plans fam matches). assert (Hst := stage_step plans fam matches). unfold apply_detector_relations. destruct (existsb _ matches) eqn:Hany; cbn [negb].
  - destruct (relation_loop_fixed plans fam matches (fun l => exists k, l = stage plans fam matches k) (S (length matches)) (replicate (length matches) true))
      as (keep & -> & Hfix & n & ->).
    + intros l [k ->]. by exists (S k).
    + by exists O.
    + pose proof (kept_count_le (replicate (length matches) true)) as Hk. rewrite length_replicate in Hk. lia.
    + exists n. split_and!; [done..|apply stage_length|]. intros i m r. by apply fixed_satisfied.
  - exists O. split_and!; [done|done|by cbn [stage Nat.iter nat_rect]; rewrite mask_all|apply stage_length|].
    intros i m r Hi _ Hr. exfalso. apply not_true_iff_false in Hany. apply Hany, existsb_exists. exists m.
    split; [by eapply list_elem_of_In, list_elem_of_lookup_2|]. apply negb_true_iff, bool_decide_eq_false. intros Hn.
    apply length_zero_iff_nil in Hn. rewrite Hn in Hr. by apply not_elem_of_nil in Hr.
Qed.
