(* ===== verification/ResolutionOrder.v ===== *)
(** * Suppression and order independence of match resolution
      ([crates/scanner/src/resolution.rs])

    The two suppression passes with their span indexes are equal to plain
    scans of the matches, and the outcome of the whole pass depends only on
    which matches there are, not on the order in which scanning found them. *)

From S2P Require Import Prelude Float64 Evidence Finding Spans Resolution.

Lemma match_offsets_max m : snd (match_offsets m) <= usize_max.
Proof. unfold match_offsets, saturating_add. cbn [snd]. lia. Qed.

Lemma match_offsets_start m : placed m -> 0 <= fst (match_offsets m).
Proof. intros [? _]. done. Qed.

(** ** Matches nested in private-key blocks *)

(** A private-key block of the same origin that contains the match. *)
Definition nested_in_block (policy : ResolutionPolicy) (fam : SourceFamilyIndex) (matches : list RawMatch) (m : RawMatch) : Prop :=
  exists k, k ∈ matches /\ is_private_key_block_detector policy (rm_detector_id k) = true /\
    is_Some (loc_file_path (rm_location k)) /\ origin_of fam k = origin_of fam m /\ nonempty k /\
    fst (match_offsets k) <= fst (match_offsets m) /\ snd (match_offsets m) <= snd (match_offsets k).

Definition private_key_kept (policy : ResolutionPolicy) (fam : SourceFamilyIndex) (matches : list RawMatch) (m : RawMatch) : bool :=
  if is_private_key_block_detector policy (rm_detector_id m) then true
  else match match_span fam m with
       | None => true
       | Some (origin, s) =>
           negb (span_contains (index_spans_by_origin (omap (match_span fam)
             (List.filter (fun m => is_private_key_block_detector policy (rm_detector_id m)) matches))) origin s)
       end.

Lemma suppress_private_filter matches policy fam :
  suppress_matches_nested_in_private_key_blocks matches policy fam = List.filter (private_key_kept policy fam matches) matches.
Proof.
  unfold suppress_matches_nested_in_private_key_blocks. cbv zeta. destruct (bool_decide _) eqn:E; [|done].
  apply bool_decide_eq_true, length_zero_iff_nil in E. rewrite List.forallb_filter_id; [done|]. apply forallb_forall. intros m _.
  unfold private_key_kept. rewrite E. destruct (is_private_key_block_detector _ _); [done|]. by destruct (match_span fam m) as [[? ?]|].
Qed.

Lemma span_contains_spec spans origin start end_ :
  Forall (fun os => snd (snd os) <= usize_max) spans -> 0 <= start ->
  span_contains (index_spans_by_origin spans) origin (start, end_) = true <->
  start < end_ /\ exists a b, (origin, (a, b)) ∈ spans /\ a < b /\ a <= start /\ end_ <= b.
Proof.
  intros Hmax H0. unfold span_contains, index_spans_by_origin. rewrite lookup_fmap. cbn [fst snd].
  pose proof (group_lookup (fst : MatchOrigin * span -> MatchOrigin) snd spans ∅ origin) as Hg. rewrite lookup_empty in Hg. cbn [default from_option app] in Hg.
  assert (Hin : forall s, s ∈ map snd (List.filter (fun x => bool_decide (fst x = origin)) spans) <-> (origin, s) ∈ spans).
  { intros s. rewrite list_elem_of_fmap. setoid_rewrite list_elem_of_In. setoid_rewrite filter_In. setoid_rewrite bool_decide_eq_true. split.
    - intros ([o s'] & -> & Hin & Ho). cbn in *. by subst.
    - intros Hs. by exists (origin, s). }
  destruct (decide (start < end_)) as [Hlt|Hge].
  2: { split; [|tauto]. unfold span_index_contains. rewrite (proj2 (Z.leb_le end_ start)) by lia. by destruct (fmap _ _). }
  destruct (foldl _ ∅ spans !! origin) as [l|]; cbn [fmap option_fmap option_map default from_option] in *; unfold id in Hg.
  - assert (Hl : Forall (fun s => snd s <= usize_max) l).
    { apply Forall_forall. intros s Hs. rewrite Hg in Hs. apply Hin in Hs. rewrite Forall_forall in Hmax. by apply (Hmax (origin, s)). }
    rewrite (proj1 (span_index_queries l start end_ Hl (conj H0 Hlt))), Hg. setoid_rewrite Hin. split; [|by intros [_ ?]].
    intros Hx. split; [done | exact Hx].
  - split; [done|]. intros (_ & a & b & Hs & _). apply Hin in Hs. rewrite <- Hg in Hs. by apply not_elem_of_nil in Hs.
Qed.

Lemma private_key_kept_spec policy fam matches m :
  placed m ->
  private_key_kept policy fam matches m = true <->
  ~ (is_private_key_block_detector policy (rm_detector_id m) = false /\ is_Some (loc_file_path (rm_location m)) /\ nonempty m /\
     nested_in_block policy fam matches m).
Proof.
  intros Hp. unfold private_key_kept. destruct (is_private_key_block_detector _ (rm_detector_id m)); [split; [by intros _ [? _] | done]|].
  unfold match_span at 1. destruct (loc_file_path (rm_location m)) as [path|]; [|split; [by intros _ (_ & [? ?] & _) | done]].
  rewrite negb_true_iff, <- not_true_iff_false. apply not_iff_compat.
  rewrite (surjective_pairing (match_offsets m)), span_contains_spec; [|apply Forall_forall|by apply match_offsets_start].
  - unfold nested_in_block. unfold nonempty at 1. setoid_rewrite list_elem_of_omap.
    split.
    + intros (Hne & a & b & (k & Hk & Hs) & Hlt & Ha & Hb). split; [done|]. split; [by eexists|]. split; [done|].
      apply list_elem_of_In, filter_In in Hk as [Hk Hpk]. unfold match_span in Hs. destruct (loc_file_path (rm_location k)) eqn:Ek; [|done].
      apply (inj Some), pair_equal_spec in Hs as [Ho Hmo]. exists k. rewrite <- list_elem_of_In in Hk. unfold nonempty. rewrite Hmo. by rewrite Ek.
    + intros (_ & _ & Hne & k & Hk & Hpk & [pk Hfk] & Ho & Hnk & Ha & Hb). split; [done|]. exists (fst (match_offsets k)), (snd (match_offsets k)).
      split; [|done]. exists k. split; [by apply list_elem_of_In, filter_In; rewrite <- list_elem_of_In|]. unfold match_span. rewrite Hfk, Ho. by destruct (match_offsets k).
  - intros [o s] Hs. apply list_elem_of_omap in Hs as (k & _ & Hk). unfold match_span in Hk. destruct (loc_file_path _); [|done]. apply (inj Some), pair_equal_spec in Hk as [_ <-]. apply match_offsets_max.
Qed.

(** ** Entropy duplicates *)

(** [n] is named evidence at line [l]. *)
Definition named_at (policy : ResolutionPolicy) (fam : SourceFamilyIndex) (origin : MatchOrigin) (l : Z) (n : RawMatch) : bool :=
  match_is_service_specific policy n && bool_decide (loc_line (rm_location n) = Some l) && bool_decide (origin_of fam n = origin).

Definition pending_at (acc : gmap MatchOrigin (gmap Z PendingNamedEvidence)) (origin : MatchOrigin) (l : Z) : PendingNamedEvidence :=
  default (mkPending [] ∅) (default ∅ (acc !! origin) !! l).

Lemma pending_step policy fam acc n origin l :
  pending_at (note_named policy fam acc n) origin l =
  if named_at policy fam origin l n
  then mkPending (pe_spans (pending_at acc origin l) ++ [match_offsets n]) (push_entry (rm_credential n) (match_offsets n) (pe_by_credential (pending_at acc origin l)))
  else pending_at acc origin l.
Proof.
  unfold note_named, named_at. destruct (match_is_service_specific policy n); [|done]. cbn [negb andb].
  destruct (loc_line (rm_location n)) as [line|]; [|by rewrite bool_decide_false]. cbv zeta. unfold pending_at.
  destruct (decide (origin_of fam n = origin)) as [<-|Ho]; [|by rewrite (bool_decide_false (origin_of fam n = origin)), andb_false_r, lookup_insert_ne].
  rewrite (bool_decide_true (origin_of fam n = origin_of fam n)) by done. rewrite andb_true_r, lookup_insert_eq. cbn [default from_option id].
  destruct (decide (line = l)) as [->|Hl]; [by rewrite bool_decide_true, lookup_insert_eq|]. rewrite bool_decide_false by congruence.
  by rewrite lookup_insert_ne.
Qed.

(** The evidence of a line is that of its named matches. *)
Lemma pending_fold policy fam matches acc origin l :
  let named := List.filter (named_at policy fam origin l) matches in
  let ev := pending_at (foldl (note_named policy fam) acc matches) origin l in
  pe_spans ev = pe_spans (pending_at acc origin l) ++ map match_offsets named /\
  forall c, default [] (pe_by_credential ev !! c) = default [] (pe_by_credential (pending_at acc origin l) !! c) ++
    map match_offsets (List.filter (fun n => bool_decide (rm_credential n = c)) named).
Proof.
  cbv zeta. revert acc. induction matches as [|n matches IH]; intros acc; cbn [foldl List.filter]; [split; [|intros c]; by rewrite app_nil_r|].
  destruct (IH (note_named policy fam acc n)) as [H1 H2]. rewrite H1. setoid_rewrite H2. rewrite pending_step. destruct (named_at policy fam origin l n); [|done].
  cbn [pe_spans pe_by_credential map]. split; [by rewrite <- app_assoc|]. intros c. rewrite push_entry_lookup. cbn [List.filter].
  destruct (decide (c = rm_credential n)) as [->|Hc]; [rewrite bool_decide_true by done; cbn [map]; by rewrite <- app_assoc | by rewrite bool_decide_false].
Qed.

(** Named match [n] covers match [m]. *)
Definition covers (n m : RawMatch) : Prop :=
  nonempty n /\ nonempty m /\
  (nested (match_offsets n) (match_offsets m) \/
   rm_credential n = rm_credential m /\ fst (match_offsets n) < snd (match_offsets m) /\ fst (match_offsets m) < snd (match_offsets n)).

Lemma covered_by_spec ev named m :
  placed m -> pe_spans ev = map match_offsets named ->
  (forall c, default [] (pe_by_credential ev !! c) = map match_offsets (List.filter (fun n => bool_decide (rm_credential n = c)) named)) ->
  covered_by m (index_named ev) = true <-> exists n, n ∈ named /\ covers n m.
Proof.
  intros Hp Hs Hc. unfold covered_by, index_named. cbv zeta. cbn [ne_spans ne_by_credential]. rewrite lookup_fmap, Hs.
  pose proof (match_offsets_start m Hp) as H0. destruct (decide (nonempty m)) as [Hne|He].
  2: { split; [|by intros (n & _ & _ & ? & _)]. unfold nonempty in He. apply Z.nlt_ge, Z.leb_le in He.
       unfold span_index_contains, is_contained_by, span_index_overlaps. rewrite He. by destruct (fmap _ _). }
  assert (Hmax : forall l, Forall (fun s => snd s <= usize_max) (map match_offsets l)).
  { intros l. apply Forall_forall. intros s (n & -> & _)%list_elem_of_fmap. apply match_offsets_max. }
  destruct (span_index_queries (map match_offsets named) _ _ (Hmax _) (conj H0 Hne)) as (Q1 & _ & Q3).
  rewrite !orb_true_iff, Q1, Q3.
  assert (Hov : match from_unsorted <$> pe_by_credential ev !! rm_credential m with
      | Some spans => span_index_overlaps spans (fst (match_offsets m)) (snd (match_offsets m)) | None => false end = true <->
    exists n, n ∈ named /\ rm_credential n = rm_credential m /\ nonempty n /\ fst (match_offsets n) < snd (match_offsets m) /\ fst (match_offsets m) < snd (match_offsets n)).
  { specialize (Hc (rm_credential m)). destruct (pe_by_credential ev !! rm_credential m) as [l|]; cbn [fmap option_fmap option_map default from_option id] in *.
    - unfold id in Hc. rewrite Hc. rewrite (proj1 (proj2 (span_index_queries _ _ _ (Hmax _) (conj H0 Hne)))). split.
      + intros (a & b & Hin & Hr). apply list_elem_of_fmap in Hin as (n & Hn & Hin). apply list_elem_of_In, filter_In in Hin as [Hin Hcr].
        exists n. apply bool_decide_eq_true in Hcr. rewrite <- list_elem_of_In in Hin. split; [done|]. split; [done|]. unfold nonempty. rewrite <- Hn. exact Hr.
      + intros (n & Hin & Hcr & Hr). exists (fst (match_offsets n)), (snd (match_offsets n)). split; [|done]. rewrite <- surjective_pairing.
        apply list_elem_of_fmap_2, list_elem_of_In, filter_In. split; [by apply list_elem_of_In | by apply bool_decide_eq_true].
    - split; [done|]. intros (n & Hin & Hcr & _). assert (Hn : n ∈ List.filter (fun n => bool_decide (rm_credential n = rm_credential m)) named).
      { apply list_elem_of_In, filter_In. split; [by apply list_elem_of_In | by apply bool_decide_eq_true]. }
      apply (list_elem_of_fmap_2 match_offsets) in Hn. change (fmap ?f ?l) with (map f l) in Hn. rewrite <- Hc in Hn. by apply not_elem_of_nil in Hn. }
  rewrite Hov. unfold covers, nested. split.
  - intros [[(a & b & Hin & Hr)|(a & b & Hin & Hr)]|(n & Hin & Hr)];
      [apply list_elem_of_fmap in Hin as (n & Hn & Hin); exists n; (split; [done|]); unfold nonempty; rewrite <- Hn; cbn; split; [tauto|]; split; [done|]; tauto..|].
    exists n. tauto.
  - intros (n & Hin & Hnn & _ & [[Hr|Hr]|Hr]); [left; left | left; right | right; exists n; tauto];
      exists (fst (match_offsets n)), (snd (match_offsets n)); rewrite <- surjective_pairing; (split; [by apply list_elem_of_fmap_2|]); (split; [done|]); tauto.
Qed.

(** The lines at distance at most two. *)
Lemma elem_of_nearby line l :
  0 <= line <= usize_max -> 0 <= l <= usize_max -> l ∈ nearby_lines line <-> abs_diff l line <= Z.of_nat NAMED_DUPLICATE_LINE_DISTANCE.
Proof.
  intros H1 H2. unfold nearby_lines, NAMED_DUPLICATE_LINE_DISTANCE, abs_diff, saturating_sub, saturating_add. cbn [seq map concat app Z.of_nat Pos.of_succ_nat Pos.succ].
  rewrite !elem_of_cons, elem_of_nil. lia.
Qed.

(** A named match of the same origin, at most two lines away, that covers it. *)
Definition near_duplicate (policy : ResolutionPolicy) (fam : SourceFamilyIndex) (matches : list RawMatch) (m : RawMatch) : Prop :=
  exists n a b, n ∈ matches /\ match_is_service_specific policy n = true /\ origin_of fam n = origin_of fam m /\
    loc_line (rm_location n) = Some a /\ loc_line (rm_location m) = Some b /\ abs_diff a b <= Z.of_nat NAMED_DUPLICATE_LINE_DISTANCE /\ covers n m.

(** Lines and offsets in range. *)
Definition well_placed (m : RawMatch) : Prop :=
  placed m /\ forall l, loc_line (rm_location m) = Some l -> 0 <= l <= usize_max.

Lemma keep_entropy_spec policy fam matches m :
  Forall well_placed matches -> well_placed m ->
  keep_entropy (named_lines matches policy fam) policy fam m = true <->
  ~ (is_entropy_detector policy (rm_detector_id m) = true /\ near_duplicate policy fam matches m).
Proof.
  intros Hall [Hp Hline]. unfold keep_entropy. destruct (is_entropy_detector _ _); cbn [negb]; [|split; [by intros _ [? _] | done]].
  destruct (loc_line (rm_location m)) as [line|] eqn:El; [|split; [intros _ (_ & n & a & b & _ & _ & _ & _ & Hm & _); congruence | done]].
  specialize (Hline line eq_refl).
  assert (Hcov : forall l, match default ∅ (foldl (note_named policy fam) ∅ matches !! origin_of fam m) !! l with
      Some ev => covered_by m (index_named ev) | None => false end = true <->
    exists n, n ∈ matches /\ named_at policy fam (origin_of fam m) l n = true /\ covers n m).
  { intros l. destruct (pending_fold policy fam matches ∅ (origin_of fam m) l) as [H1 H2].
    assert (He : pending_at ∅ (origin_of fam m) l = mkPending [] ∅) by (unfold pending_at; by rewrite lookup_empty). rewrite He in H1, H2. cbn [pe_spans pe_by_credential app] in H1, H2.
    assert (H2' : forall c, default [] (pe_by_credential (pending_at (foldl (note_named policy fam) ∅ matches) (origin_of fam m) l) !! c) =
      map match_offsets (List.filter (fun n => bool_decide (rm_credential n = c)) (List.filter (named_at policy fam (origin_of fam m) l) matches)))
      by (intros c; rewrite H2, lookup_empty; done).
    pose proof (covered_by_spec _ _ m Hp H1 H2') as Hspec. setoid_rewrite list_elem_of_In in Hspec. setoid_rewrite filter_In in Hspec. setoid_rewrite <- list_elem_of_In in Hspec.
    unfold pending_at in Hspec. destruct (default ∅ _ !! l) as [ev|]; cbn [default from_option id] in Hspec; [rewrite Hspec; naive_solver|].
    assert (Hf : covered_by m (index_named (mkPending [] ∅)) = false).
    { apply not_true_iff_false. rewrite (covered_by_spec (mkPending [] ∅) [] m); [intros (n & Hn & _); by apply not_elem_of_nil in Hn | done | done|].
      intros c. cbn. by rewrite lookup_empty. }
    rewrite Hf in Hspec. rewrite Hspec. naive_solver. }
  assert (Hkeep : match named_lines matches policy fam !! origin_of fam m with
      | None => true
      | Some lines => negb (existsb (fun l => match lines !! l with Some ev => covered_by m ev | None => false end) (nearby_lines line)) end =
    negb (existsb (fun l => match default ∅ (foldl (note_named policy fam) ∅ matches !! origin_of fam m) !! l with
      Some ev => covered_by m (index_named ev) | None => false end) (nearby_lines line))).
  { unfold named_lines. rewrite lookup_fmap. destruct (foldl _ ∅ matches !! _) as [lines|]; cbn [fmap option_fmap option_map default from_option id].
    - f_equal. apply existsb_perm; [done|]. intros l. rewrite lookup_fmap. by destruct (lines !! l).
    - rewrite (existsb_perm _ (fun _ => false) (nearby_lines line) (nearby_lines line)); [by induction (nearby_lines line) | done | done]. }
  rewrite Hkeep, negb_true_iff, <- not_true_iff_false, existsb_exists. apply not_iff_compat. setoid_rewrite Hcov. unfold near_duplicate. split.
  - intros (l & Hl & n & Hn & Hat & Hc). split; [done|]. unfold named_at in Hat. rewrite !andb_true_iff, !bool_decide_eq_true in Hat. destruct Hat as [[Hs Hln] Ho].
    exists n, l, line. rewrite <- list_elem_of_In in Hl. rewrite Forall_forall in Hall. rewrite elem_of_nearby in Hl; [auto 10 | done | by apply (Hall n Hn)].
  - intros (_ & n & a & b & Hn & Hs & Ho & Hln & Hlm & Hd & Hc). rewrite El in Hlm. injection Hlm as <-. exists a. split.
    + rewrite <- list_elem_of_In. rewrite Forall_forall in Hall. apply elem_of_nearby; [done | by apply (Hall n Hn) | done].
    + exists n. split; [done|]. split; [|done]. unfold named_at. rewrite Hs, Hln, Ho, !bool_decide_true by done. done.
Qed.

(** ** Relations by value

    A round decides by what a match is, not by where it stands. *)

Section by_value.
Context (plans : CompiledDetectorPlans) (fam : SourceFamilyIndex).

Definition value_related (m t : RawMatch) (r : CompiledDetectorRelation) : bool :=
  bool_decide (rm_detector_id t = rel_detector_id r) && bool_decide (origin_of fam t = origin_of fam m) &&
  detector_relation_matches (candidate_of 0 m) (candidate_of 0 t) r.

Definition value_removes (matches : list RawMatch) (K : RawMatch -> bool) (src x : RawMatch) (r : CompiledDetectorRelation) : bool :=
  let hit := existsb (fun t => K t && value_related src t r) matches in
  match rel_kind r with
  | Requires => bool_decide (x = src) && negb hit
  | Conflicts => bool_decide (x = src) && hit
  | Subsumes => K x && value_related src x r
  end.

Definition value_round (matches : list RawMatch) (K : RawMatch -> bool) (x : RawMatch) : bool :=
  K x && negb (existsb (fun src => K src && existsb (value_removes matches K src x) (detector_relations plans (rm_detector_id src))) matches).

Lemma value_round_perm matches matches' K K' :
  matches ≡ₚ matches' -> (forall x, K x = K' x) -> forall x, value_round matches K x = value_round matches' K' x.
Proof.
  intros Hp HK x. unfold value_round. rewrite HK. f_equal. f_equal. apply existsb_perm; [done|]. intros src. rewrite HK. f_equal.
  apply existsb_perm; [done|]. intros r. unfold value_removes.
  rewrite (existsb_perm (fun t => K t && value_related src t r) (fun t => K' t && value_related src t r) matches matches') by (done || (intros t; by rewrite HK)).
  by rewrite HK.
Qed.

Lemma flag_map (K : RawMatch -> bool) matches i : flag (map K matches) i = match matches !! i with Some m => K m | None => false end.
Proof. unfold flag. change (map K matches) with (K <$> matches). rewrite list_lookup_fmap. by destruct (matches !! i). Qed.

Lemma related_value matches i j m t r :
  matches !! i = Some m -> matches !! j = Some t -> related fam matches i j r <-> value_related m t r = true.
Proof.
  intros Hi Hj. unfold related, value_related. rewrite !andb_true_iff, !bool_decide_eq_true. split.
  - intros (m' & t' & Hi' & Hj' & H1 & H2 & H3). assert (m' = m) as -> by congruence. assert (t' = t) as -> by congruence. done.
  - intros [[H1 H2] H3]. by exists m, t.
Qed.

Lemma value_hit matches K i m r :
  matches !! i = Some m ->
  (exists j, flag (map K matches) j = true /\ related fam matches i j r) <-> existsb (fun t => K t && value_related m t r) matches = true.
Proof.
  intros Hi. rewrite existsb_exists. split.
  - intros (j & Hf & Hr). rewrite flag_map in Hf. destruct (matches !! j) as [t|] eqn:Hj; [|done]. exists t.
    split; [by eapply list_elem_of_In, list_elem_of_lookup_2|]. rewrite Hf. by apply (related_value matches i j).
  - intros (t & Ht & [HK Hv]%andb_true_iff). apply list_elem_of_In, list_elem_of_lookup in Ht as [j Hj]. exists j. rewrite flag_map, Hj.
    split; [done|]. by apply (related_value matches i j m t).
Qed.

Lemma removes_value matches K i j m t r :
  matches !! i = Some m -> matches !! j = Some t -> removes fam matches (map K matches) i j r -> value_removes matches K m t r = true.
Proof.
  intros Hi Hj. unfold removes, value_removes. pose proof (value_hit matches K i m r Hi) as Hhit. destruct (rel_kind r).
  - intros [-> Hn]. assert (t = m) as -> by congruence. rewrite bool_decide_true by done. cbn [andb]. apply negb_true_iff, not_true_iff_false.
    intros Hh. by apply Hn, Hhit.
  - intros [-> Hn]. assert (t = m) as -> by congruence. rewrite bool_decide_true by done. by apply Hhit.
  - rewrite flag_map, Hj, (related_value matches i j m t r Hi Hj). by intros [-> ->].
Qed.

Lemma value_removes_marks matches K i j m t r :
  matches !! i = Some m -> matches !! j = Some t -> value_removes matches K m t r = true ->
  removes fam matches (map K matches) (match rel_kind r with Subsumes => i | _ => j end) j r.
Proof.
  intros Hi Hj. unfold removes, value_removes. destruct (rel_kind r).
  - intros [->%bool_decide_eq_true Hn]%andb_true_iff. split; [done|]. rewrite (value_hit matches K j m r Hj). by apply not_true_iff_false, negb_true_iff.
  - intros [->%bool_decide_eq_true Hn]%andb_true_iff. split; [done|]. by rewrite (value_hit matches K j m r Hj).
  - intros [HK Hv]%andb_true_iff. rewrite flag_map, Hj. split; [done|]. by apply (related_value matches i j m t).
Qed.

Lemma round_by_value matches K :
  fst (relation_round plans fam (by_detector_origin fam matches) matches (map K matches)) = map (value_round matches K) matches.
Proof.
  apply list_eq. intros j. change (map ?f matches) with (f <$> matches). rewrite list_lookup_fmap.
  destruct (matches !! j) as [t|] eqn:Hj; cbn [fmap option_fmap option_map].
  2: { apply lookup_ge_None. rewrite round_length, length_fmap. by apply lookup_ge_None. }
  destruct (lookup_lt_is_Some_2 (fst (relation_round plans fam (by_detector_origin fam matches) matches (K <$> matches))) j) as [b Hb].
  { rewrite round_length, length_fmap. by eapply lookup_lt_Some. }
  rewrite Hb. f_equal. pose proof (round_flag plans fam matches (map K matches) j) as Hf. unfold flag at 1 in Hf. change (map K matches) with (K <$> matches) in Hf.
  rewrite Hb in Hf. cbn [default from_option id] in Hf. unfold id in Hf. rewrite Hf. change (K <$> matches) with (map K matches).
  rewrite flag_map, Hj. unfold value_round. f_equal. f_equal. apply eq_bool_prop_intro. rewrite !Is_true_true, bool_decide_eq_true, elem_of_marks, existsb_exists. split.
  - intros (i & m & r & Hi & Hfl & Hr & Hrm). exists m. split; [by eapply list_elem_of_In, list_elem_of_lookup_2|]. rewrite flag_map, Hi in Hfl. rewrite Hfl. cbn [andb].
    apply existsb_exists. exists r. split; [by apply list_elem_of_In|]. by eapply removes_value.
  - intros (m & Hm & [HK (r & Hr & Hv)%existsb_exists]%andb_true_iff). apply list_elem_of_In, list_elem_of_lookup in Hm as [i Hi]. apply list_elem_of_In in Hr.
    pose proof (value_removes_marks matches K i j m t r Hi Hj Hv) as Hrm. unfold value_removes in Hv.
    destruct (rel_kind r); [apply andb_true_iff in Hv as [->%bool_decide_eq_true _]; exists j, m, r .. | exists i, m, r]; rewrite flag_map; rewrite ?Hi, ?Hj; done.
Qed.

(** Both orders run the same rounds. *)
Lemma relation_loop_perm fuel matches matches' K K' :
  matches ≡ₚ matches' -> (forall x, K x = K' x) ->
  match relation_loop fuel plans fam (by_detector_origin fam matches) matches (map K matches) with
  | Some keep => exists R, keep = map R matches /\
      relation_loop fuel plans fam (by_detector_origin fam matches') matches' (map K' matches') = Some (map R matches')
  | None => True
  end.
Proof.
  intros Hp. revert K K'. induction fuel as [|fuel IH]; intros K K' HK; cbn [relation_loop]; [done|].
  pose proof (round_by_value matches K) as H1. pose proof (round_by_value matches' K') as H2.
  unfold relation_round in *. cbv zeta in *. cbn [fst] in H1, H2. rewrite H1, H2.
  assert (Hext : forall x, value_round matches K x = value_round matches' K' x) by (by apply value_round_perm).
  assert (Heq : map (value_round matches K) matches = map K matches <-> map (value_round matches' K') matches' = map K' matches').
  { assert (Hm : forall (f g : RawMatch -> bool) l, map f l = map g l <-> forall x, x ∈ l -> f x = g x).
    { intros f g l. setoid_rewrite list_elem_of_In. split; [apply ext_in_map | apply map_ext_in]. }
    rewrite !Hm. split; intros He x Hx; [rewrite <- Hext, <- HK; apply He; by rewrite Hp | rewrite Hext, HK; apply He; by rewrite <- Hp]. }
  destruct (decide (map (value_round matches K) matches = map K matches)) as [He|Hne].
  - rewrite (bool_decide_true _ He), (bool_decide_true _ (proj1 Heq He)). cbn [negb]. exists (value_round matches K). split; [done|]. f_equal. apply map_ext. done.
  - rewrite (bool_decide_false _ Hne), bool_decide_false by (by rewrite <- Heq). cbn [negb]. apply IH. done.
Qed.
End by_value.

Lemma mask_map {A} (R : A -> bool) l : mask (map R l) l = List.filter R l.
Proof. unfold mask. induction l as [|x l IH]; cbn [map zip zip_with List.filter fst]; [done|]. cbn. destruct (R x); cbn; by rewrite IH. Qed.

Lemma replicate_map {A} (l : list A) : replicate (length l) true = map (fun _ => true) l.
Proof. induction l as [|x l IH]; cbn; [done | by rewrite IH]. Qed.

(** Relations keep by value, whatever the order. *)
Lemma relations_perm policy fam matches matches' :
  matches ≡ₚ matches' ->
  exists R, apply_detector_relations matches policy fam = Some (List.filter R matches) /\
    apply_detector_relations matches' policy fam = Some (List.filter R matches').
Proof.
  intros Hp. assert (Hid : forall l : list RawMatch, List.filter (fun _ => true) l = l) by (intros l; induction l; cbn; congruence).
  destruct policy as [? ?|plans]; [exists (fun _ => true); by rewrite !Hid|]. unfold apply_detector_relations.
  rewrite <- (existsb_perm (fun m => negb (bool_decide (length (detector_relations plans (rm_detector_id m)) = O))) _ _ _ Hp (fun _ => eq_refl)).
  destruct (existsb _ matches); cbn [negb]; [|exists (fun _ => true); by rewrite !Hid].
  destruct (relation_loop_fixed plans fam matches (fun _ => True) (S (length matches)) (replicate (length matches) true)) as (keep & Hk & _ & _); [done | done | |].
  { pose proof (kept_count_le (replicate (length matches) true)) as Hc. rewrite length_replicate in Hc. lia. }
  pose proof (relation_loop_perm plans fam (S (length matches)) matches matches' (fun _ => true) (fun _ => true) Hp (fun _ => eq_refl)) as Hloop.
  cbv zeta. rewrite replicate_map in Hk. rewrite !replicate_map, <- (Permutation_length Hp), Hk. rewrite Hk in Hloop. destruct Hloop as (R & -> & ->).
  exists R. cbn. by rewrite !mask_map.
Qed.

(** ** Groups *)

Lemma coordinate_cmp_laws : CmpLaws coordinate_cmp.
Proof.
  change (CmpLaws (fun a b => coordinate_cmp a b)). unfold coordinate_cmp. pose proof RawMatch_cmp_laws.
  apply (cmp_then_laws (fun a b => then_with (Z.compare (fst (match_offsets a)) (fst (match_offsets b))) (Z.compare (snd (match_offsets a)) (snd (match_offsets b)))) RawMatch_cmp); [solve_cmp_laws | done].
Qed.

Lemma coordinate_sort_perm l k : l ≡ₚ k -> Forall floats_ok l -> sort_by coordinate_cmp l = sort_by coordinate_cmp k.
Proof.
  intros Hp Hf. apply (sort_by_unique coordinate_cmp (CmpLaws0 := coordinate_cmp_laws)); [done|]. intros x y Hx Hy. unfold coordinate_cmp. rewrite then_with_Eq.
  rewrite Forall_forall in Hf. intros [_ He]. by apply RawMatch_cmp_Eq in He; [|apply Hf..].
Qed.

Section groups.
Context (KP : list str) (policy : ResolutionPolicy) (fam : SourceFamilyIndex).

Definition group_key (m : RawMatch) : MatchOrigin * option Z := (origin_of fam m, loc_line (rm_location m)).
Definition groups_of (matches : list RawMatch) : gmap (MatchOrigin * option Z) (list RawMatch) :=
  foldl (fun acc m => push_entry (group_key m) m acc) ∅ matches.

Lemma groups_lookup matches k : default [] (groups_of matches !! k) = List.filter (fun m => bool_decide (group_key m = k)) matches.
Proof. unfold groups_of. rewrite (group_lookup group_key (fun m => m)), lookup_empty. cbn. by rewrite map_id. Qed.

Lemma groups_some matches k g : groups_of matches !! k = Some g -> g = List.filter (fun m => bool_decide (group_key m = k)) matches.
Proof. intros Hg. rewrite <- groups_lookup, Hg. done. Qed.

Lemma sorted_groups_perm matches matches' :
  matches ≡ₚ matches' -> Forall floats_ok matches -> sort_by coordinate_cmp <$> groups_of matches = sort_by coordinate_cmp <$> groups_of matches'.
Proof.
  intros Hp Hf. apply map_eq. intros k. rewrite !lookup_fmap.
  assert (Hdom : is_Some (groups_of matches !! k) <-> is_Some (groups_of matches' !! k)).
  { unfold groups_of. rewrite !(group_domain group_key (fun m => m)), !lookup_empty. by setoid_rewrite Hp. }
  destruct (groups_of matches !! k) as [g|] eqn:E1, (groups_of matches' !! k) as [g'|] eqn:E2; cbn [fmap option_fmap option_map].
  - f_equal. apply groups_some in E1 as ->. apply groups_some in E2 as ->. apply coordinate_sort_perm; [by apply filter_perm|].
    rewrite Forall_forall in *. intros m Hm. apply Hf. apply list_elem_of_In, filter_In in Hm as [Hm _]. by apply list_elem_of_In.
  - exfalso. by destruct (proj1 Hdom (ex_intro _ g eq_refl)).
  - exfalso. by destruct (proj2 Hdom (ex_intro _ g' eq_refl)).
  - done.
Qed.

(** The output depends on the sorted groups only. *)
Lemma resolve_groups_sorted matches :
  resolve_match_groups KP matches policy fam =
  concat (map (fun kg => resolve_direct_conflicts KP policy (snd kg))
    (sort_by (fun a b => group_key_cmp (fst a) (fst b)) (map_to_list (sort_by coordinate_cmp <$> groups_of matches)))).
Proof.
  unfold resolve_match_groups. cbv zeta. change (foldl _ ∅ matches) with (groups_of matches). set (G := groups_of matches). f_equal.
  rewrite map_to_list_fmap. change (prod_map id (sort_by coordinate_cmp) <$> map_to_list G) with (map (prod_map id (sort_by coordinate_cmp)) (map_to_list G)).
  rewrite <- (sort_by_map (fun a b => group_key_cmp (fst a) (fst b)) _ (prod_map id (sort_by coordinate_cmp))) by done.
  rewrite map_map. by apply map_ext.
Qed.

Lemma resolve_groups_perm matches matches' :
  matches ≡ₚ matches' -> Forall floats_ok matches -> resolve_match_groups KP matches policy fam = resolve_match_groups KP matches' policy fam.
Proof. intros Hp Hf. by rewrite !resolve_groups_sorted, (sorted_groups_perm matches matches' Hp Hf). Qed.

Lemma mask_submseteq {A} (keep : list bool) (l : list A) : mask keep l ⊆+ l.
Proof.
  unfold mask. revert keep. induction l as [|x l IH]; intros [|b keep]; cbn [zip zip_with List.filter map fst]; [done | done | apply submseteq_nil_l|].
  destruct b; cbn [map snd]; [by apply submseteq_skip | by apply submseteq_cons].
Qed.

Lemma resolve_direct_submseteq group : resolve_direct_conflicts KP policy group ⊆+ group.
Proof. unfold resolve_direct_conflicts. destruct (_ <=? _)%nat; [done | apply mask_submseteq]. Qed.

(** Grouping neither loses nor repeats a match. *)
Lemma groups_partition matches : concat (map snd (map_to_list (groups_of matches))) ≡ₚ matches.
Proof.
  unfold groups_of. assert (Hgen : forall acc : gmap (MatchOrigin * option Z) (list RawMatch),
    concat (map snd (map_to_list (foldl (fun acc m => push_entry (group_key m) m acc) acc matches))) ≡ₚ concat (map snd (map_to_list acc)) ++ matches).
  { induction matches as [|m matches IH]; intros acc; cbn [foldl]; [by rewrite app_nil_r|]. rewrite IH, <- Permutation_middle.
    change (m :: concat ?x ++ matches) with ((m :: concat x) ++ matches). apply Permutation_app_tail. unfold push_entry.
    destruct (acc !! group_key m) as [g|] eqn:E; cbn [default from_option].
    - rewrite <- (insert_delete_id acc (group_key m) g E) at 2. rewrite <- (insert_delete_eq acc (group_key m)).
      rewrite !map_to_list_insert by apply lookup_delete_eq. cbn [map concat snd]. unfold id. rewrite <- app_assoc. symmetry. apply Permutation_middle.
    - rewrite map_to_list_insert by done. done. }
  rewrite Hgen. by rewrite map_to_list_empty.
Qed.

Lemma resolve_groups_submseteq matches : resolve_match_groups KP matches policy fam ⊆+ matches.
Proof.
  unfold resolve_match_groups. cbv zeta. change (foldl _ ∅ matches) with (groups_of matches). rewrite <- (groups_partition matches) at 2.
  set (cmp := fun a b : (MatchOrigin * option Z) * list RawMatch => group_key_cmp (fst a) (fst b)).
  rewrite <- (sort_by_perm cmp (map_to_list (groups_of matches))) at 2.
  rewrite <- (map_map snd (fun g => resolve_direct_conflicts KP policy (sort_by coordinate_cmp g))). apply concat_submseteq.
  intros g. rewrite resolve_direct_submseteq. by rewrite sort_by_perm.
Qed.
End groups.

(** ** The whole pass *)

Lemma families_perm policy matches matches' : matches ≡ₚ matches' -> families_new matches policy = families_new matches' policy.
Proof.
  intros Hp. unfold families_new. cbv zeta.
  by rewrite (list_to_set_perm_L (C := gset str) _ _ (Permutation_map (fun m => loc_source (rm_location m)) Hp)).
Qed.

Lemma private_keys_perm policy fam matches matches' :
  matches ≡ₚ matches' -> Forall well_placed matches ->
  suppress_matches_nested_in_private_key_blocks matches policy fam ≡ₚ suppress_matches_nested_in_private_key_blocks matches' policy fam.
Proof.
  intros Hp Hw. rewrite !suppress_private_filter. apply filter_perm; [done|]. intros m Hm. rewrite Forall_forall in Hw. rewrite <- Hp in Hm. destruct (Hw m Hm) as [Hpl _].
  eapply bool_iff; [by apply private_key_kept_spec|]. rewrite private_key_kept_spec by done. unfold nested_in_block. by setoid_rewrite Hp.
Qed.

Lemma entropy_perm policy fam matches matches' :
  matches ≡ₚ matches' -> Forall well_placed matches ->
  suppress_entropy_duplicates_near_named_detectors matches policy fam ≡ₚ suppress_entropy_duplicates_near_named_detectors matches' policy fam.
Proof.
  intros Hp Hw. unfold suppress_entropy_duplicates_near_named_detectors. apply filter_perm; [done|]. intros m Hm.
  assert (Hm' : well_placed m) by (rewrite Forall_forall in Hw; apply Hw; by rewrite Hp).
  eapply bool_iff; [by apply keep_entropy_spec|]. rewrite keep_entropy_spec; [|by rewrite <- Hp|done]. unfold near_duplicate. by setoid_rewrite Hp.
Qed.

Lemma suppressed_submseteq policy fam matches :
  suppress_entropy_duplicates_near_named_detectors (suppress_matches_nested_in_private_key_blocks matches policy fam) policy fam ⊆+ matches.
Proof.
  unfold suppress_entropy_duplicates_near_named_detectors. rewrite filter_submseteq, suppress_private_filter. apply filter_submseteq.
Qed.

(** C3. Match resolution of validated matches always returns, reports only matches
    it was given, none more often than given, and the report is the same
    whatever order the matches arrived in. *)
Theorem resolution_order_independent (KP : list str) (policy : ResolutionPolicy) (matches : list RawMatch) :
  policy_validate policy matches = Ok tt -> Forall well_placed matches -> Forall floats_ok matches ->
  exists out, out ⊆+ matches /\
    forall matches', matches' ≡ₚ matches -> try_resolve_matches_with_policy KP matches' policy = Ret (Ok out).
Proof.
  intros Hval Hw Hf.
  destruct (relations_perm policy (families_new matches policy) matches matches (Permutation_refl _)) as (R & HR & _).
  set (kept := List.filter R matches).
  assert (Hkept : kept ⊆+ matches) by apply filter_submseteq.
  assert (Hwk : Forall well_placed kept) by (by eapply Forall_submseteq).
  assert (Hfk : Forall floats_ok kept) by (by eapply Forall_submseteq).
  set (supp := fun l => suppress_entropy_duplicates_near_named_detectors (suppress_matches_nested_in_private_key_blocks l policy (families_new matches policy)) policy (families_new matches policy)).
  exists (if (length kept <=? 1)%nat then kept else resolve_match_groups KP (supp kept) policy (families_new matches policy)). split.
  { destruct (_ <=? 1)%nat; [done|]. rewrite resolve_groups_submseteq. unfold supp. rewrite suppressed_submseteq. done. }
  intros matches' Hp. unfold try_resolve_matches_with_policy.
  assert (Hval' : policy_validate policy matches' = Ok tt).
  { destruct policy as [|plans]; [done|]. cbn in *. destruct (find _ matches') as [m|] eqn:Ef; [|done]. apply find_some in Ef as [Hin Hn].
    destruct (find _ matches) as [|] eqn:Eg; [done|]. rewrite <- list_elem_of_In, Hp, list_elem_of_In in Hin. rewrite (find_none _ _ Eg m Hin) in Hn. done. }
  rewrite Hval'. rewrite (families_perm policy matches' matches Hp).
  destruct (relations_perm policy (families_new matches policy) matches matches' (Permutation_sym Hp)) as (R' & HR1 & HR2).
  assert (Heq : List.filter R' matches = kept) by (apply (inj Some); by rewrite <- HR1, HR).
  assert (Hkp : List.filter R' matches' ≡ₚ kept) by (rewrite <- Heq; by apply filter_perm).
  destruct (bool_decide_reflect (length matches' = O)) as [H0|H0].
  { apply length_zero_iff_nil in H0 as ->. apply Permutation_nil in Hp as Hm. subst kept. rewrite Hm. done. }
  rewrite HR2, (Permutation_length Hkp). destruct (Nat.leb_spec (length kept) 1) as [Hone|Hmany].
  - do 2 f_equal. destruct kept as [|x [|y kept]]; [| |cbn in Hone; lia].
    + symmetry in Hkp. by apply Permutation_nil in Hkp.
    + by apply Permutation_singleton_r in Hkp.
  - cbv zeta. do 2 f_equal. symmetry. apply resolve_groups_perm.
    + unfold supp. apply entropy_perm; [by apply private_keys_perm|].
      eapply Forall_submseteq; [|exact Hwk]. rewrite suppress_private_filter. apply filter_submseteq.
    + eapply Forall_submseteq; [apply suppressed_submseteq | done].
Qed.

(** The two suppression passes with their span indexes equal plain scans:
    a match goes if it lies in a private-key block of its origin, and an
    entropy match goes if a named match at most two lines away nests with it or
    overlaps it with the same credential; everything else stays. *)
Theorem suppression_reference (policy : ResolutionPolicy) (fam : SourceFamilyIndex) (matches : list RawMatch) (m : RawMatch) :
  Forall well_placed matches ->
  (m ∈ suppress_matches_nested_in_private_key_blocks matches policy fam <->
   m ∈ matches /\ ~ (is_private_key_block_detector policy (rm_detector_id m) = false /\ is_Some (loc_file_path (rm_location m)) /\ nonempty m /\
     nested_in_block policy fam matches m)) /\
  (m ∈ suppress_entropy_duplicates_near_named_detectors matches policy fam <->
   m ∈ matches /\ ~ (is_entropy_detector policy (rm_detector_id m) = true /\ near_duplicate policy fam matches m)).
Proof.
  intros Hw. rewrite suppress_private_filter. unfold suppress_entropy_duplicates_near_named_detectors.
  rewrite !list_elem_of_In, !filter_In, <- !list_elem_of_In. rewrite Forall_forall in Hw.
  split; split; intros [Hm Hk]; (split; [done|]); destruct (Hw m Hm) as [Hp _].
  1, 2: by apply private_key_kept_spec.
  1, 2: apply keep_entropy_spec; [by apply Forall_forall | by apply Hw | done].
Qed.

(** ** A named match and an entropy duplicate inside it *)

Definition sample_plans : CompiledDetectorPlans :=
  mkPlans {[ $"aws-access-key" := mkPolicyRow Named 5; $"entropy-password" := mkPolicyRow Entropy 0 ]} ∅ [ $"base64" ].
Definition sample_policy : ResolutionPolicy := Active sample_plans.

Definition entropy_match : RawMatch :=
  mkRawMatch $"entropy-password" $"Entropy" $"generic" (rm_severity sample_match) $"FODNN7"
    CredentialHash_ZERO ∅ (mkLocation $"filesystem" (Some $"a.env") (Some 4) 24 None None None)
    (rm_entropy sample_match) (rm_confidence sample_match) (rm_evidence sample_match).

Definition sample_matches : list RawMatch := [entropy_match; sample_match].

Lemma sample_well_placed : Forall well_placed sample_matches.
Proof.
  repeat apply Forall_cons_2; [| |constructor]; (split; [split; vm_compute; congruence|]); intros l [= <-]; vm_compute; split; congruence.
Qed.

Lemma sample_floats : Forall floats_ok sample_matches.
Proof.
  repeat apply Forall_cons_2; [| |constructor]; split; intros x Hx; vm_compute in Hx; try discriminate; injection Hx as <-; vm_compute; split; discriminate.
Qed.

Example sample_resolved : try_resolve_matches_with_policy [] sample_matches sample_policy = Ret (Ok [sample_match]).
Proof. by_eval. Qed.

Lemma resolution_order_independent_witness :
  exists out, out ⊆+ sample_matches /\
    forall matches', matches' ≡ₚ sample_matches -> try_resolve_matches_with_policy [] matches' sample_policy = Ret (Ok out).
Proof.
  apply resolution_order_independent; [by_eval | apply sample_well_placed | apply sample_floats].
Defined.

