(* ===== verification/ResolutionKernel.v ===== *)
(** * Direct conflicts of matches ([crates/scanner/src/resolution.rs])

    The priority sweep of [resolve_direct_conflicts] with its interval trees and
    credential index keeps exactly the kernel of the domination order: who
    survives is determined by the group alone, not by the sweep. *)

From S2P Require Import Prelude Float64 Float64Round Evidence Finding Spans Resolution ResolutionOrder.

Section kernel.
Context (KNOWN_PREFIXES : list str) (policy : ResolutionPolicy) (group : list RawMatch).
Hypothesis Hplaced : Forall placed group.

(** The matches at some positions. *)
Definition at_positions (pos : list nat) (m : RawMatch) : Prop := exists i, i ∈ pos /\ group !! i = Some m.

(** The indexes hold exactly the nonempty matches at the promoted positions. *)
Definition containment_ok (c : gmap str KeptIntervalIndex) (pos : list nat) : Prop :=
  (forall m, m ∈ group -> is_Some (c !! loc_source (rm_location m))) /\
  forall source x, c !! source = Some x -> exists h kept, kept_ok x h kept /\
    (forall s, s ∈ kept <-> exists m, at_positions pos m /\ nonempty m /\ loc_source (rm_location m) = source /\ s = match_offsets m) /\
    (forall m, m ∈ group -> nonempty m -> loc_source (rm_location m) = source -> fst (match_offsets m) ∈ k_starts x).

Definition evidence_ok (e : KeptEquivalentEvidence) (pos : list nat) : Prop :=
  exists kept, equivalent_ok e kept /\
    forall o, o ∈ kept <-> exists m, at_positions pos m /\ nonempty m /\ o = mkOcc (rm_credential_hash m) (rm_credential m) (match_offsets m).

Lemma group_elem i m : group !! i = Some m -> m ∈ group.
Proof. apply list_elem_of_lookup_2. Qed.

Lemma group_placed m : m ∈ group -> placed m.
Proof. rewrite Forall_forall in Hplaced. apply Hplaced. Qed.

Lemma initial_ok : containment_ok (initial_containment group) [] /\ evidence_ok ∅ [].
Proof.
  split.
  - unfold initial_containment. split.
    + intros m Hm. rewrite lookup_fmap. apply fmap_is_Some. apply group_domain. right. by exists m.
    + intros source x Hx. rewrite lookup_fmap in Hx. apply fmap_Some in Hx as (spans & Hs & ->).
      pose proof (group_lookup (fun m => loc_source (rm_location m)) match_offsets group ∅ source) as Hg. rewrite lookup_empty in Hg. cbn in Hg.
      rewrite Hs in Hg. cbn in Hg. destruct (kept_new_ok spans) as (h & Hok & Hin). exists h, []. split; [done|]. split.
      * intros s. split; [intros Hs'; by apply not_elem_of_nil in Hs'|]. intros (m & (i & Hi & _) & _). by apply not_elem_of_nil in Hi.
      * intros m Hm Hne Hsrc. apply Hin; [|by apply is_empty_false]. rewrite Hg. apply list_elem_of_fmap_2, list_elem_of_In, filter_In.
        split; [by apply list_elem_of_In | by apply bool_decide_eq_true].
  - exists []. split; [apply equivalent_empty_ok|]. intros o. split; [intros Ho; by apply not_elem_of_nil in Ho|].
    intros (m & (i & Hi & _) & _). by apply not_elem_of_nil in Hi.
Qed.

Lemma at_positions_snoc pos i m m' :
  group !! i = Some m -> at_positions (pos ++ [i]) m' <-> at_positions pos m' \/ m' = m.
Proof.
  intros Hi. unfold at_positions. setoid_rewrite elem_of_app. setoid_rewrite list_elem_of_singleton. split.
  - intros (j & [Hj| ->] & Hm); [left; by exists j | right; congruence].
  - intros [(j & Hj & Hm)| ->]; [exists j; auto | exists i; auto].
Qed.

Lemma promote_one_ok c e pos i m :
  group !! i = Some m -> containment_ok c pos -> evidence_ok e pos ->
  containment_ok (<[loc_source (rm_location m) := kept_insert (default (kept_new [match_offsets m]) (c !! loc_source (rm_location m))) (match_offsets m)]> c) (pos ++ [i]) /\
  evidence_ok (equivalent_insert e (rm_credential_hash m) (rm_credential m) (match_offsets m)) (pos ++ [i]).
Proof.
  intros Hi [Hdom Hc] (kept & He & Hk). pose proof (group_elem _ _ Hi) as Hm. pose proof (placed_offsets m (group_placed m Hm)) as (Hoff & H0 & Hmax).
  destruct (decide (nonempty m)) as [Hne|Hemp].
  - split.
    + split.
      { intros m' Hm'. destruct (decide (loc_source (rm_location m') = loc_source (rm_location m))) as [->|Hd]; [rewrite lookup_insert_eq; by eexists|].
        rewrite lookup_insert_ne by congruence. by apply Hdom. }
      intros source x Hx. destruct (decide (source = loc_source (rm_location m))) as [->|Hd].
      * rewrite lookup_insert_eq in Hx. injection Hx as <-. destruct (Hdom m Hm) as [x0 Hx0]. rewrite Hx0. cbn [from_option id].
        destruct (Hc _ _ Hx0) as (h & kept0 & Hok & Hel & Hst). exists h, (match_offsets m :: kept0).
        split; [apply kept_insert_ok; auto; [by apply is_empty_false | lia]|]. split.
        { intros s. rewrite elem_of_cons, Hel. setoid_rewrite (at_positions_snoc pos i m _ Hi). split.
          - intros [->|(m' & Hp & Hr)]; [exists m; auto | exists m'; tauto].
          - intros (m' & [Hp| ->] & Hn & Hs & ->); [right; exists m'; auto | by left]. }
        { intros m' Hm' Hn Hs. unfold kept_insert. rewrite (proj2 (is_empty_false m) Hne). cbn [k_starts]. auto. }
      * rewrite lookup_insert_ne in Hx by done. destruct (Hc _ _ Hx) as (h & kept0 & Hok & Hel & Hst). exists h, kept0. split; [done|]. split; [|done].
        intros s. rewrite Hel. setoid_rewrite (at_positions_snoc pos i m _ Hi). split; [intros (m' & Hp & Hr); exists m'; tauto|].
        intros (m' & [Hp| ->] & Hn & Hs & ->); [exists m'; auto | congruence].
    + exists (mkOcc (rm_credential_hash m) (rm_credential m) (match_offsets m) :: kept). split.
      * apply (equivalent_insert_ok e kept (mkOcc (rm_credential_hash m) (rm_credential m) (match_offsets m)) He). split; [|exact Hne]. done.
      * intros o. rewrite elem_of_cons, Hk. setoid_rewrite (at_positions_snoc pos i m _ Hi). split.
        { intros [->|(m' & Hp & Hr)]; [exists m; auto | exists m'; tauto]. }
        { intros (m' & [Hp| ->] & Hn & ->); [right; exists m'; auto | by left]. }
  - assert (Hem : is_empty (match_offsets m) = true) by (apply not_false_iff_true; by rewrite is_empty_false).
    assert (Hpos : forall m', at_positions (pos ++ [i]) m' /\ nonempty m' <-> at_positions pos m' /\ nonempty m').
    { intros m'. rewrite (at_positions_snoc pos i m m' Hi). split; [intros [[?| ->] ?]; done | tauto]. }
    unfold kept_insert, equivalent_insert. rewrite Hem. destruct (Hdom m Hm) as [x0 Hx0]. rewrite Hx0. cbn [from_option id].
    unfold id. rewrite insert_id by done. split.
    + split; [done|]. intros source x Hx. destruct (Hc _ _ Hx) as (h & kept0 & Hok & Hel & Hst). exists h, kept0. split; [done|]. split; [|done].
      intros s. rewrite Hel. split; intros (m' & Hp & Hn & Hr); exists m'; (split; [|split; [done | done]]); [apply at_positions_snoc with m; auto | by apply (proj1 (Hpos m'))].
    + exists kept. split; [done|]. intros o. rewrite Hk. split; intros (m' & Hp & Hn & Hr); exists m'; (split; [|split; [done | done]]); [apply at_positions_snoc with m; auto | by apply (proj1 (Hpos m'))].
Qed.

(** What the two indexes answer about a candidate. *)
Lemma indexes_decide c e pos m :
  m ∈ group -> containment_ok c pos -> evidence_ok e pos ->
  let source := loc_source (rm_location m) in
  negb (existsb (fun cs => negb (negb (source_intervals_comparable policy source) && bool_decide (fst cs = source)) &&
          has_containment_conflict (snd cs) (match_offsets m)) (map_to_list c)) &&
    negb (equivalent_overlaps e (rm_credential_hash m) (rm_credential m) (match_offsets m)) = true <->
  ~ exists k, at_positions pos k /\ conflicts policy k m.
Proof.
  intros Hm [Hdom Hc] (kept & He & Hk). cbv zeta. pose proof (placed_offsets m (group_placed m Hm)) as (_ & H0 & Hmax).
  destruct (decide (nonempty m)) as [Hne|Hemp].
  2: { assert (Hem : is_empty (match_offsets m) = true) by (apply not_false_iff_true; by rewrite is_empty_false).
       split; [intros _ (k & _ & _ & ? & _); done|]. intros _. unfold equivalent_overlaps. rewrite Hem. cbn [negb]. rewrite andb_true_r.
       apply negb_true_iff, not_true_iff_false. intros (cs & _ & Hcs)%existsb_exists. unfold has_containment_conflict in Hcs. rewrite Hem, andb_false_r in Hcs. done. }
  rewrite andb_true_iff, !negb_true_iff, <- !not_true_iff_false.
  set (source := loc_source (rm_location m)).
  assert (H1 : existsb (fun cs => negb (negb (source_intervals_comparable policy source) && bool_decide (fst cs = source)) &&
      has_containment_conflict (snd cs) (match_offsets m)) (map_to_list c) = true <->
    exists k, at_positions pos k /\ nonempty k /\ ~ (source_intervals_comparable policy source = false /\ loc_source (rm_location k) = source) /\
      nested (match_offsets k) (match_offsets m)).
  { rewrite existsb_exists. split.
    - intros ([src x] & Hin & [Hs Hx]%andb_true_iff). cbn [fst snd] in *. apply list_elem_of_In, elem_of_map_to_list in Hin.
      destruct (Hc _ _ Hin) as (h & kept0 & Hok & Hel & _). apply (containment_conflict_spec x h kept0) in Hx as (s & Hs' & Hn); [|done|done|done].
      apply Hel in Hs' as (k & Hp & Hnk & Hsrc & ->). exists k. split; [done|]. split; [done|]. split; [|done].
      intros [Hcmp Hss]. rewrite Hcmp, bool_decide_true in Hs by congruence. done.
    - intros (k & Hp & Hnk & Hcmp & Hn). destruct Hp as (i & Hi & Hgi). destruct (Hdom k (group_elem _ _ Hgi)) as [x Hx].
      exists (loc_source (rm_location k), x). split; [by apply list_elem_of_In, elem_of_map_to_list|]. cbn [fst snd]. apply andb_true_iff. split.
      + destruct (source_intervals_comparable policy source) eqn:Ec; [done|]. rewrite bool_decide_false; [done|]. intros Hs. by apply Hcmp.
      + destruct (Hc _ _ Hx) as (h & kept0 & Hok & Hel & _). apply (containment_conflict_spec x h kept0); [done | done | done|].
        exists (match_offsets k). split; [|done]. apply Hel. exists k. split; [by exists i | done]. }
  assert (H2 : equivalent_overlaps e (rm_credential_hash m) (rm_credential m) (match_offsets m) = true <->
    exists k, at_positions pos k /\ nonempty k /\ rm_credential_hash k = rm_credential_hash m /\ rm_credential k = rm_credential m /\
      fst (match_offsets k) < snd (match_offsets m) /\ fst (match_offsets m) < snd (match_offsets k)).
  { rewrite (equivalent_overlaps_spec e kept) by done. split.
    - intros (o & Ho & Hh & Hcr & Hr). apply Hk in Ho as (k & Hp & Hnk & ->). exists k. cbn in *. done.
    - intros (k & Hp & Hnk & Hh & Hcr & Hr). exists (mkOcc (rm_credential_hash k) (rm_credential k) (match_offsets k)). split; [|done].
      apply Hk. by exists k. }
  rewrite H1, H2. unfold conflicts. split.
  - intros [Hn1 Hn2] (k & Hp & Hnk & _ & [[Hcmp Hn]|Hr]); [apply Hn1; by exists k | apply Hn2; by exists k].
  - intros Hno. split; intros (k & Hp & Hnk & Hr); apply Hno; exists k; (split; [done|]); (split; [done|]); split; auto.
Qed.

(** ** Promotion *)

Definition valid_entries (l : list (f64 * nat)) : Prop := Forall (fun e => is_Some (group !! snd e)) l.

Lemma promote_spec p waiting before c e :
  valid_entries waiting -> containment_ok c (map snd before) -> evidence_ok e (map snd before) ->
  exists n c' e', promote group p waiting c e (length before) = (c', e', (length before + n)%nat) /\ (n <= length waiting)%nat /\
    containment_ok c' (map snd (before ++ take n waiting)) /\ evidence_ok e' (map snd (before ++ take n waiting)) /\
    Forall (fun x => priorities_tie (fst x) p = false) (take n waiting) /\
    (forall x, waiting !! n = Some x -> priorities_tie (fst x) p = true).
Proof.
  revert before c e. induction waiting as [|[q i] waiting IH]; intros before c e Hv Hc He; cbn [promote].
  { exists O, c, e. rewrite app_nil_r, Nat.add_0_r. split; [done|]. split; [done|]. split; [done|]. split; [done|]. split; [constructor | done]. }
  apply Forall_cons in Hv as [[m Hm] Hv]. cbn [snd] in Hm. destruct (priorities_tie q p) eqn:Ht.
  { exists O, c, e. cbn [take]. rewrite app_nil_r, Nat.add_0_r. split; [done|]. split; [lia|]. split; [done|]. split; [done|]. split; [constructor|].
    intros x [= <-]. done. }
  rewrite Hm. destruct (promote_one_ok c e (map snd before) i m Hm Hc He) as [Hc' He'].
  assert (Hmap : map snd before ++ [i] = map snd (before ++ [(q, i)])) by (by rewrite map_app). rewrite Hmap in Hc', He'.
  destruct (IH _ _ _ Hv Hc' He') as (n & c' & e' & Hp & Hn & Hc2 & He2 & Hall & Hstop).
  rewrite length_app in Hp. cbn [length] in Hp. rewrite Nat.add_1_r in Hp. rewrite Hp. exists (S n), c', e'.
  rewrite <- app_assoc in Hc2, He2. cbn [app take length] in *. split; [f_equal; lia|]. split; [lia|]. split; [done|]. split; [done|]. split; [by constructor | done].
Qed.

(** ** The sweep *)

Definition dominates (p q : f64) : Prop := total_cmp p q = Gt /\ priorities_tie p q = false.

(** Ties are convex along the order; [priorities_convex] proves it of the
    priorities of every group. *)
Definition ties_convex (ps : list f64) : Prop :=
  Forall (fun a => Forall (fun b => Forall (fun c => total_cmp a b <> Lt -> total_cmp b c <> Lt -> priorities_tie a c = true ->
    priorities_tie a b = true /\ priorities_tie b c = true) ps) ps) ps.

(** The outcome of a sweep: who is kept among the entries. *)
Definition kernel_of (keep : nat -> bool) (entries : list (f64 * nat)) : Prop :=
  forall p i m, (p, i) ∈ entries -> group !! i = Some m ->
    keep i = true <-> ~ exists q j k, (q, j) ∈ entries /\ keep j = true /\ group !! j = Some k /\ dominates q p /\ conflicts policy k m.

Definition descending (entries : list (f64 * nat)) : Prop := StronglySorted (fun a b => total_cmp (fst a) (fst b) <> Lt) entries.

Record sweep_ok (st : conflict_state) (seen todo : list (f64 * nat)) : Prop := {
  sw_len : length (retained st) = length group;
  sw_unseen : forall i, i ∉ map snd seen -> flag (retained st) i = false;
  sw_pending : pending st = List.filter (fun e => flag (retained st) (snd e)) seen;
  sw_cursor : (cursor st <= length (pending st))%nat;
  sw_untied : forall x y, x ∈ take (cursor st) (pending st) -> y ∈ todo -> priorities_tie (fst x) (fst y) = false;
  sw_cont : containment_ok (containment st) (map snd (take (cursor st) (pending st)));
  sw_evid : evidence_ok (equivalent st) (map snd (take (cursor st) (pending st)));
  sw_kernel : kernel_of (flag (retained st)) seen }.

Lemma convex_use ps a b c : ties_convex ps -> a ∈ ps -> b ∈ ps -> c ∈ ps ->
  total_cmp a b <> Lt -> total_cmp b c <> Lt -> priorities_tie a c = true -> priorities_tie a b = true /\ priorities_tie b c = true.
Proof.
  intros Hcv Ha Hb Hc. unfold ties_convex in Hcv. rewrite Forall_forall in Hcv. specialize (Hcv a Ha). rewrite Forall_forall in Hcv.
  specialize (Hcv b Hb). rewrite Forall_forall in Hcv. by apply Hcv.
Qed.

(** Adding an entry below all others: its own fate is decided by the kept entries
    it does not tie with, and it dominates none of them. *)
Lemma kernel_extend seen p i ret keep m :
  group !! i = Some m -> i ∉ map snd seen -> (i < length ret)%nat ->
  (forall x, x ∈ seen -> total_cmp (fst x) p <> Lt) -> kernel_of (flag ret) seen ->
  (keep = true <-> ~ exists q j k, (q, j) ∈ seen /\ flag ret j = true /\ group !! j = Some k /\ priorities_tie q p = false /\ conflicts policy k m) ->
  kernel_of (flag (<[i := keep]> ret)) (seen ++ [(p, i)]).
Proof.
  intros Hm Hi Hlen Hple Hker Hkeep.
  assert (Hold : forall q j, (q, j) ∈ seen -> flag (<[i := keep]> ret) j = flag ret j).
  { intros q j Hqj. rewrite flag_insert, decide_False; [done| |done]. intros ->. apply Hi. apply list_elem_of_fmap. by exists (q, i). }
  assert (Hnodom : forall q, total_cmp q p <> Lt -> ~ dominates p q).
  { intros q Hq [Hgt _]. rewrite (cmp_sym total_cmp), Hgt in Hq. done. }
  intros q j k Hqj Hk. setoid_rewrite elem_of_app. setoid_rewrite list_elem_of_singleton.
  apply elem_of_app in Hqj as [Hqj|Hqj%list_elem_of_singleton].
  - rewrite (Hold q j Hqj), (Hker q j k Hqj Hk). apply not_iff_compat. split.
    + intros (q' & j' & k' & Hs & Hf & Hr). exists q', j', k'. rewrite (Hold q' j' Hs). auto.
    + intros (q' & j' & k' & [Hs|Hs] & Hf & Hk' & Hd & Hc); [exists q', j', k'; rewrite <- (Hold q' j' Hs); auto|].
      injection Hs as -> ->. exfalso. exact (Hnodom q (Hple (q, j) Hqj) Hd).
  - injection Hqj as -> ->. rewrite flag_insert, decide_True by done. rewrite Hkeep. apply not_iff_compat. assert (k = m) as -> by congruence. split.
    + intros (q' & j' & k' & Hs & Hf & Hk' & Ht & Hc). exists q', j', k'. rewrite (Hold q' j' Hs). split; [by left|]. split; [done|]. split; [done|]. split; [|done].
      split; [|done]. specialize (Hple (q', j') Hs). cbn in Hple. unfold priorities_tie in Ht. by destruct (total_cmp q' p).
    + intros (q' & j' & k' & [Hs|Hs] & Hf & Hk' & Hd & Hc).
      * exists q', j', k'. rewrite <- (Hold q' j' Hs). destruct Hd. auto.
      * injection Hs as -> ->. exfalso. apply (Hnodom p); [by rewrite (cmp_refl total_cmp) | done].
Qed.

(** After a promotion the promoted entries are those not tied with [p]. *)
Lemma promoted_split ps pend cur n p :
  ties_convex ps -> (forall x, x ∈ pend -> fst x ∈ ps) -> p ∈ ps -> descending pend -> (forall x, x ∈ pend -> total_cmp (fst x) p <> Lt) ->
  (forall x, x ∈ take cur pend -> priorities_tie (fst x) p = false) ->
  Forall (fun x => priorities_tie (fst x) p = false) (take n (drop cur pend)) ->
  (forall x, drop cur pend !! n = Some x -> priorities_tie (fst x) p = true) ->
  (forall x, x ∈ take (cur + n) pend -> priorities_tie (fst x) p = false) /\
  (forall x, x ∈ drop (cur + n) pend -> priorities_tie (fst x) p = true).
Proof.
  intros Hcv Hps Hp Hss Hple Hunt Hall Hstop. split; intros x Hx.
  - rewrite <- take_take_drop in Hx. apply elem_of_app in Hx as [Hx|Hx]; [by apply Hunt|]. rewrite Forall_forall in Hall. by apply Hall.
  - assert (Hel : forall y, y ∈ drop (cur + n) pend -> y ∈ pend).
    { intros y Hy. rewrite <- (take_drop (cur + n) pend). apply elem_of_app. by right. }
    destruct (drop (cur + n) pend) as [|x0 rest] eqn:Ed; [by apply not_elem_of_nil in Hx|].
    assert (Hx0 : drop cur pend !! n = Some x0) by (rewrite <- (Nat.add_0_r n), <- lookup_drop, drop_drop, Ed; done). apply Hstop in Hx0.
    apply elem_of_cons in Hx as [->|Hx]; [done|].
    apply (convex_use ps (fst x0) (fst x) p Hcv); [apply Hps, Hel; left | apply Hps, Hel; by right | done | | | done].
    + rewrite <- (take_drop (cur + n) pend) in Hss. apply StronglySorted_app in Hss as (_ & _ & Hss). rewrite Ed in Hss.
      apply StronglySorted_inv in Hss as [_ Hss]. rewrite Forall_forall in Hss. by apply Hss.
    + apply Hple, Hel. by right.
Qed.

Lemma settle_ok ps st seen p i todo :
  ties_convex ps -> (forall e, e ∈ seen ++ (p, i) :: todo -> fst e ∈ ps /\ is_Some (group !! snd e)) ->
  NoDup (map snd (seen ++ (p, i) :: todo)) -> descending (seen ++ (p, i) :: todo) ->
  sweep_ok st seen ((p, i) :: todo) -> sweep_ok (settle policy group st (p, i)) (seen ++ [(p, i)]) todo.
Proof.
  intros Hcv Hent Hnd Hdesc [Hlen Huns Hpend Hcur Hunt Hcont Hevid Hker].
  assert (Hsub : forall x, x ∈ pending st -> x ∈ seen).
  { intros x Hx. rewrite Hpend in Hx. apply list_elem_of_In, filter_In in Hx as [Hx _]. by apply list_elem_of_In. }
  assert (Hps : forall x, x ∈ seen \/ x = (p, i) \/ x ∈ todo -> fst x ∈ ps).
  { intros x Hx. apply Hent. rewrite elem_of_app, elem_of_cons. tauto. }
  destruct (Hent (p, i)) as [Hpps [m Hm]]; [apply elem_of_app; right; left|]. cbn [fst snd] in *.
  destruct (promote_spec p (drop (cursor st) (pending st)) (take (cursor st) (pending st)) (containment st) (equivalent st))
    as (n & c' & e' & Hpr & Hn & Hc' & He' & Hall & Hstop); [|done|done|].
  { apply Forall_drop, Forall_forall. intros x Hx. apply Hent, elem_of_app. left. by apply Hsub. }
  rewrite length_take_le in Hpr by done. rewrite <- take_add in Hc', He' || rewrite take_take_drop in Hc', He'.
  rewrite length_drop in Hn. set (cur' := (cursor st + n)%nat) in *.
  assert (Hple : forall x, x ∈ seen -> total_cmp (fst x) p <> Lt).
  { intros x Hx. apply (StronglySorted_app_1_elem_of _ _ _ x (p, i) Hdesc Hx). left. }
  assert (Htodo : forall y, y ∈ todo -> total_cmp p (fst y) <> Lt).
  { intros y Hy. apply StronglySorted_app in Hdesc as (_ & _ & Hd). apply StronglySorted_inv in Hd as [_ Hd]. rewrite Forall_forall in Hd. by apply (Hd y). }
  destruct (promoted_split ps (pending st) (cursor st) n p Hcv) as [Hin Hout]; [intros x Hx; apply Hps; left; by apply Hsub | done | | | | done | done|].
  { rewrite Hpend. apply filter_sorted. by apply StronglySorted_app in Hdesc as (_ & ? & _). }
  { intros x Hx. by apply Hple, Hsub. }
  { intros x Hx. apply (Hunt x (p, i) Hx). left. }
  unfold settle. rewrite Hpr. rewrite Hm. cbv zeta. set (keep := negb _ && negb _).
  assert (Hkeep : keep = true <-> ~ exists k, at_positions (map snd (take cur' (pending st))) k /\ conflicts policy k m)
    by (apply indexes_decide; [by eapply group_elem | done | done]).
  set (pend' := if keep then pending st ++ [(p, i)] else pending st).
  assert (Htake : take cur' pend' = take cur' (pending st)).
  { unfold pend'. destruct keep; [|done]. apply take_app_le. lia. }
  assert (Hiout : i ∉ map snd seen).
  { rewrite map_app in Hnd. apply NoDup_app in Hnd as (_ & Hd & _). intros Hi. apply (Hd i Hi). left. }
  assert (Hilen : (i < length (retained st))%nat) by (rewrite Hlen; by apply lookup_lt_Some in Hm).
  assert (Hflag : forall j, flag (<[i := keep]> (retained st)) j = if decide (j = i) then keep else flag (retained st) j)
    by (intros j; by apply flag_insert).
  assert (Hseen : forall e, e ∈ seen -> flag (<[i := keep]> (retained st)) (snd e) = flag (retained st) (snd e)).
  { intros e Hes. rewrite Hflag, decide_False; [done|]. intros He2. apply Hiout. rewrite <- He2. by apply list_elem_of_fmap_2. }
  split; cbn [containment equivalent cursor pending retained].
  - by rewrite length_insert.
  - intros j Hj. rewrite map_app, elem_of_app in Hj. cbn [map] in Hj. rewrite list_elem_of_singleton in Hj. rewrite Hflag, decide_False by tauto.
    apply Huns. tauto.
  - rewrite List.filter_app. cbn [List.filter snd]. rewrite Hflag, decide_True by done.
    rewrite (filter_ext_in _ (fun e => flag (retained st) (snd e)) seen) by (intros e Hes; by apply Hseen, list_elem_of_In).
    rewrite <- Hpend. unfold pend'. destruct keep; [done | by rewrite app_nil_r].
  - unfold pend'. destruct keep; [rewrite length_app|]; lia.
  - rewrite Htake. intros x y Hx Hy. destruct (priorities_tie (fst x) (fst y)) eqn:Ht; [|done]. exfalso.
    assert (Hxs : x ∈ seen) by (apply Hsub; rewrite <- (take_drop cur' (pending st)); apply elem_of_app; by left).
    destruct (convex_use ps (fst x) p (fst y) Hcv) as [Hxp _]; auto. by rewrite (Hin x Hx) in Hxp.
  - by rewrite Htake.
  - by rewrite Htake.
  - apply (kernel_extend _ _ _ _ _ m Hm Hiout Hilen Hple Hker). rewrite Hkeep. apply not_iff_compat. split.
    + intros (k & (j & Hj & Hk) & Hcf). apply list_elem_of_fmap in Hj as ([q j'] & Hjj & Hq). cbn in Hjj. subst j'.
      assert (Hqp : (q, j) ∈ pending st) by (rewrite <- (take_drop cur' (pending st)); apply elem_of_app; by left).
      exists q, j, k. split; [by apply Hsub|]. split; [rewrite Hpend in Hqp; apply list_elem_of_In, filter_In in Hqp as [_ ?]; done|].
      split; [done|]. split; [|done]. by apply (Hin (q, j)).
    + intros (q & j & k & Hs & Hfl & Hk & Htie & Hcf). exists k. split; [|done]. exists j. split; [|done].
      assert (Hqp : (q, j) ∈ pending st) by (rewrite Hpend; apply list_elem_of_In, filter_In; split; [by apply list_elem_of_In | done]).
      apply list_elem_of_fmap. exists (q, j). split; [done|]. rewrite <- (take_drop cur' (pending st)) in Hqp. apply elem_of_app in Hqp as [?|Hd]; [done|].
      apply Hout in Hd. cbn in Hd. congruence.
Qed.

Lemma sweep_all ps st seen todo :
  ties_convex ps -> (forall e, e ∈ seen ++ todo -> fst e ∈ ps /\ is_Some (group !! snd e)) ->
  NoDup (map snd (seen ++ todo)) -> descending (seen ++ todo) -> sweep_ok st seen todo ->
  sweep_ok (foldl (settle policy group) st todo) (seen ++ todo) [].
Proof.
  intros Hcv. revert st seen. induction todo as [|[p i] todo IH]; intros st seen Hent Hnd Hdesc Hok; cbn [foldl]; [by rewrite app_nil_r in *|].
  pose proof (settle_ok ps st seen p i todo Hcv Hent Hnd Hdesc Hok) as Hok'.
  replace (seen ++ (p, i) :: todo) with ((seen ++ [(p, i)]) ++ todo) in * by (by rewrite <- app_assoc). by apply IH.
Qed.
End kernel.

(** ** Direct conflicts have a unique outcome *)

#[local] Instance prioritized_cmp_laws group : CmpLaws (prioritized_cmp group).
Proof.
  pose proof RawMatch_cmp_laws. change (CmpLaws (fun a b => prioritized_cmp group a b)). unfold prioritized_cmp.
  apply (cmp_then_laws (fun a b : f64 * nat => total_cmp (fst b) (fst a)) (fun a b : f64 * nat => option_cmp RawMatch_cmp (group !! snd a) (group !! snd b))).
  - solve_cmp_laws.
  - apply (cmp_on_laws (fun a : f64 * nat => group !! snd a) (option_cmp RawMatch_cmp)). apply _.
Qed.

Lemma prioritized_spec KP policy group :
  (forall p i, (p, i) ∈ prioritized KP policy group <-> exists m, group !! i = Some m /\ p = match_priority_with_policy KP policy m) /\
  NoDup (map snd (prioritized KP policy group)) /\ descending (prioritized KP policy group).
Proof.
  unfold prioritized. split; [|split].
  - intros p i. rewrite elem_of_sort_by. unfold group_priorities.
    rewrite <- (length_map (match_priority_with_policy KP policy) group) at 1. rewrite elem_of_zip_seq. split.
    + intros (j & -> & Hj). change (map ?f ?l) with (f <$> l) in Hj. rewrite list_lookup_fmap in Hj. apply fmap_Some in Hj as (m & Hm & ->). by exists m.
    + intros (m & Hm & ->). exists i. split; [done|]. change (map ?f ?l) with (f <$> l). by rewrite list_lookup_fmap, Hm.
  - rewrite (Permutation_map snd (sort_by_perm (prioritized_cmp group) _)). unfold group_priorities.
    change (map snd ?l) with (snd <$> l). rewrite snd_zip by (rewrite length_map, length_seq; done). apply NoDup_seq.
  - eapply StronglySorted_weaken; [|apply (sort_by_sorted (prioritized_cmp group))]. intros [p i] [q j]. unfold prioritized_cmp. cbn [fst snd].
    intros Hle Hlt. apply Hle. rewrite (cmp_sym total_cmp), Hlt. done.
Qed.

(** ** Ties of priorities *)

Lemma priorities_tie_margin x y : priorities_tie x y = tie 0x112E0BE826D695 (-82) x y.
Proof. unfold priorities_tie, tie. assert (PRIORITY_EPSILON = margin 0x112E0BE826D695 (-82)) as -> by (vm_compute; reflexivity). done. Qed.

Lemma match_priority_range KP policy m : in_f64 (match_priority_with_policy KP policy m).
Proof. unfold match_priority_with_policy. case_match; apply f64_add_range. Qed.

(** Subtraction rounds monotonically, so the ties of priorities are convex. *)
Lemma priorities_convex KP policy group : ties_convex (group_priorities KP policy group).
Proof.
  assert (Hr : forall p, p ∈ group_priorities KP policy group -> in_f64 p).
  { intros p (m & -> & _)%list_elem_of_fmap. apply match_priority_range. }
  unfold ties_convex. repeat (apply Forall_forall; intros ? ?). rewrite !priorities_tie_margin. apply tie_convex; auto; lia || done.
Qed.

(** The priority of a match is defined: an active plan knows its detector. *)
Definition prioritised (policy : ResolutionPolicy) (m : RawMatch) : Prop :=
  match policy with
  | Active plans => is_Some (resolution_priority plans (policy_detector_id (rm_detector_id m)))
  | Embedded _ _ => True
  end.

Lemma validated_prioritised policy group : policy_validate policy group = Ok tt -> Forall (prioritised policy) group.
Proof.
  intros Hv. apply Forall_forall. intros m Hm. destruct policy as [res keys|plans]; [done|]. cbn [policy_validate prioritised] in *.
  destruct (find _ group) as [m'|] eqn:Ef; [done|]. apply list_elem_of_In in Hm. pose proof (find_none _ _ Ef m Hm) as Hn. cbn in Hn.
  apply bool_decide_eq_false in Hn. unfold resolution_class, resolution_priority, index_get, index_priority in *.
  destruct (_ !! _) as [[]|]; [by eexists|done].
Qed.

(** C2. Direct conflicts of one line, for a group that passed the validation of
    the policy and whose offsets fit [usize]: every priority is defined, and the priority sweep with its interval
    trees and credential index keeps exactly the kernel of the domination order.  A
    match survives if and only if no surviving match of strictly higher
    priority, more than the tie margin above it, nests with it or overlaps it
    with the same credential; survivors keep their order.  That a pending match
    which ties stops the promotion of those after it loses nothing, because
    floating-point subtraction rounds monotonically. *)
Theorem direct_conflicts_kernel (KP : list str) (policy : ResolutionPolicy) (group : list RawMatch) :
  policy_validate policy group = Ok tt -> Forall placed group ->
  Forall (prioritised policy) group /\
  exists keep, resolve_direct_conflicts KP policy group = mask (map keep (seq 0 (length group))) group /\
    forall i m, group !! i = Some m ->
      keep i = true <-> ~ exists j k, keep j = true /\ group !! j = Some k /\
        dominates (match_priority_with_policy KP policy k) (match_priority_with_policy KP policy m) /\ conflicts policy k m.
Proof.
  intros Hval Hpl. split; [by apply validated_prioritised|]. pose proof (priorities_convex KP policy group) as Hcv. unfold resolve_direct_conflicts. destruct (Nat.leb_spec (length group) 1) as [Hone|Hmany].
  { exists (fun _ => true). split.
    - destruct group as [|m [|]]; [done | done | cbn in Hone; lia].
    - intros i m Hi. split; [|done]. intros _ (j & k & _ & Hj & [Hgt _] & _).
      assert (j = O /\ i = O) as [-> ->] by (apply lookup_lt_Some in Hi, Hj; lia). assert (k = m) as -> by congruence.
      by rewrite (cmp_refl total_cmp) in Hgt. }
  destruct (prioritized_spec KP policy group) as (Hel & Hnd & Hdesc). destruct (initial_ok group) as [Hc0 He0].
  set (st0 := mkConflict _ _ _ _ _).
  assert (Hok : sweep_ok policy group (foldl (settle policy group) st0 (prioritized KP policy group)) (prioritized KP policy group) []).
  { apply (sweep_all policy group Hpl (group_priorities KP policy group) st0 [] (prioritized KP policy group)); try done.
    - intros [p i] Hin. apply Hel in Hin as (m & Hm & ->). cbn [fst snd]. split; [|by exists m]. apply list_elem_of_fmap_2. by eapply list_elem_of_lookup_2.
    - split; cbn [st0 containment equivalent cursor pending retained]; try done.
      + apply length_replicate.
      + intros i _. unfold flag. destruct (replicate (length group) false !! i) eqn:E; [|done]. by apply lookup_replicate in E as [-> _].
      + intros x y Hx. by apply not_elem_of_nil in Hx.
      + intros p i m Hin. by apply not_elem_of_nil in Hin. }
  exists (flag (retained (foldl (settle policy group) st0 (prioritized KP policy group)))). split; [by apply mask_flags, Hok|].
  intros i m Hi. rewrite (sw_kernel _ _ _ _ _ Hok _ i m (proj2 (Hel _ _) (ex_intro _ m (conj Hi eq_refl))) Hi). apply not_iff_compat. split.
  - intros (q & j & k & Hin & Hf & Hk & Hd & Hcf). apply Hel in Hin as (k' & Hk' & ->). assert (k' = k) as -> by congruence. by exists j, k.
  - intros (j & k & Hf & Hk & Hd & Hcf). exists (match_priority_with_policy KP policy k), j, k. split; [apply Hel; by exists k | done].
Qed.

(** A named match with a weaker one nested in it on its line. *)
Definition nested_match : RawMatch :=
  mkRawMatch $"entropy-password" $"Entropy" $"generic" (rm_severity sample_match) $"FODNN7"
    CredentialHash_ZERO ∅ (mkLocation $"filesystem" (Some $"a.env") (Some 3) 24 None None None)
    (rm_entropy sample_match) (rm_confidence sample_match) (rm_evidence sample_match).

Example nested_resolved : resolve_direct_conflicts [] sample_policy [nested_match; sample_match] = [sample_match].
Proof. by_eval. Qed.

Lemma direct_conflicts_kernel_witness :
  let group := [nested_match; sample_match] in
  exists keep, resolve_direct_conflicts [] sample_policy group = mask (map keep (seq 0 (length group))) group /\
    forall i m, group !! i = Some m ->
      keep i = true <-> ~ exists j k, keep j = true /\ group !! j = Some k /\
        dominates (match_priority_with_policy [] sample_policy k) (match_priority_with_policy [] sample_policy m) /\ conflicts sample_policy k m.
Proof.
  intros group. apply (direct_conflicts_kernel [] sample_policy group).
  - vm_compute. reflexivity.
  - repeat apply Forall_cons_2; [| |constructor]; split; vm_compute; congruence.
Defined.
